(* ===== verification/_CoqProject ===== *)
-Q . S2P
Prelude.v
Gob.v
Strconv.v
Labrpc.v
LabrpcProps.v
Raft.v
RaftNode.v
RaftServer.v
RaftCommit.v
RaftEvolve.v
RaftApply.v
RaftNet.v
RaftElection.v
RaftCluster.v
RaftLog.v
RaftOffice.v
RaftSafety.v
RaftSafetySteps.v
RaftSafetyRpc.v
RaftSafetyReply.v
RaftStateMachine.v
Replicated.v
RaftExample.v
RaftTheorems.v
RaftConfig.v
RaftConfigProps.v
Bitset.v
Porcupine.v
PorcupineList.v
Linearizability.v
PorcupineSearch.v
PorcupineEntries.v
PorcupineParallel.v
PorcupineEvents.v
PorcupineHistory.v
Locality.v
Models.v
PorcupineProps.v
Visualization.v
TestNames.v
Harness.v
KvSrv.v
KvSrvLinear.v
KvRaft.v
KvRaftProps.v
KvSystem.v
Clients.v
KvRaftLinear.v
Schedule.v
KvSystemExample.v
ShardCtrler.v
ShardBalance.v
ShardCtrlerProps.v
CtrlerSystem.v
ShardKv.v
ShardKvProps.v
ShardKvSystem.v
ShardTimeline.v
ShardHistory.v
ShardCluster.v
ShardLogs.v
ShardKvLinear.v
ShardClusterExample.v
ShardKvLinearExample.v
HarnessProps.v
HarnessServers.v
KvSrvConfig.v
KvRaftConfig.v
ShardCtrlerConfig.v
ShardKvConfig.v
GoStrings.v
Json.v
MapReduce.v
MapReduceCoord.v
MapReduceWorker.v
MapReduceProps.v
MapReduceExample.v
Labgob.v
MrApps.v
MrSequential.v
