(* ===== verification/Prelude.v ===== *)
(** * A verification library for the 6.5840 distributed-systems labs

    The repository (Go, under src/src/) is a set of distributed systems that
    build on each other: MapReduce ([mr], its programs in [main] and its
    plug-ins in [mrapps]); a single-server key/value store ([kvsrv]); Raft
    ([raft]); a key/value store replicated with Raft ([kvraft]); a replicated
    shard controller ([shardctrler]); and a sharded key/value store whose
    replica groups hand shards over when the controller's configuration changes
    ([shardkv]).  They talk over the simulated network of [labrpc] and serialise
    state with [labgob].  The tests start, crash and partition servers
    (config.go), record histories of client calls, and give them to the
    linearizability checker [porcupine] with the store model of
    [models/kv.go].

    ** Files

    - Prelude.v: outcomes of Go code, slices indexed by [int], the tactics
      [b2p], [zlia], [go_split], [go_inv] and the hint database [godb].
    - Gob.v: the stream interface of [labgob] as the class [Gob] with its laws
      [GobLaws], and a concrete format that satisfies them.
    - Strconv.v: [FormatInt], [Atoi], [Split] of Go's standard library.
      GoStrings.v: UTF-8 decoding, [FieldsFunc], [Join], [sort.Strings].
      Json.v: strings as [encoding/json] writes and reads them.
    - Labrpc.v: labrpc/labrpc.go, the network with its ends, servers, services
      and calls; a world of calls in progress that moves by events.
      LabrpcProps.v: its invariant, the abstract network it refines, when calls
      return and what they return.
    - Labgob.v: labgob/labgob.go, the walks over types and values.
    - Raft.v: raft/raft.go and raft/persister.go, the whole server.
      RaftNode.v: its invariant [wf] and lemmas on the log search and the
      snapshot loops.  RaftServer.v: every operation keeps the invariant and
      does not panic.  RaftEvolve.v: what an operation may change (terms,
      votes, timers, what is on disk).  RaftApply.v: the stream of [ApplyMsg]s
      and the contract [consume] the services rely on.  RaftNet.v: the cluster
      as a step relation over calls in flight that are delivered, lost,
      answered late or never, and servers that crash and restart from their
      persister.  RaftElection.v, RaftCluster.v: the cluster invariant, election
      safety, no panic anywhere.  RaftExample.v: an executable schedule of three
      servers that elects a leader and commits a command.  RaftTheorems.v: the
      theorems about single operations and runs, with the concrete instances.
    - RaftCommit.v: what one operation does to the log and the commit index.
      RaftLog.v: the log of every term, as a ghost of the run, and log matching.
      RaftOffice.v: who may append to it.  RaftSafety.v: the invariant behind
      state machine safety (acknowledgements, elections, commits as ghosts);
      RaftSafetySteps.v, RaftSafetyRpc.v, RaftSafetyReply.v: that local steps,
      handlers and replies keep it.  RaftStateMachine.v: the run, state machine
      safety and leader completeness.
    - RaftConfig.v: raft/config.go over the network of Labrpc.v and the servers
      of Raft.v: starting, crashing, connecting, checking what is applied,
      polling for leaders, waiting for agreement, statistics.
      RaftConfigProps.v: which links are open, and that the checks accept what
      Raft guarantees.
    - Replicated.v: any service on the cluster of RaftNet.v.  The class
      [StateMachine] says how a service's replicated state moves, [Service] how a
      server of it handles what Raft applies and how it starts; for every
      instance, all servers are at prefixes of one log.  Schedule.v: an
      executable scheduler for such a system.
    - Bitset.v: porcupine/bitset.go, sets of operations in 64-bit words.
      Porcupine.v: checker.go, model.go and porcupine.go.  PorcupineList.v: the
      doubly linked list.  Linearizability.v: what the checker should decide.
      PorcupineSearch.v: the search against that definition.
      PorcupineEntries.v, PorcupineHistory.v: histories, time stamps and
      entries.  PorcupineParallel.v: the goroutines of [checkParallel].
      PorcupineEvents.v: histories of events.  Locality.v: partitions.
      PorcupineProps.v: the theorems about the entry points.  Visualization.v:
      visualization.go, the data that is drawn.
    - Models.v: models/kv.go.
    - KvSrv.v: kvsrv/server.go and client.go, and the system of one server and
      any number of clerks over a lossy network.  KvSrvLinear.v: the histories
      the tests of [kvsrv] record, and that they are linearizable.
    - KvRaft.v, KvRaftProps.v: kvraft/server.go, client.go, common.go.
      KvSystem.v: the service as a whole, an instance of Replicated.v.
      KvRaftLinear.v: the clients of Clients.v call it and their calls are
      recorded as in kvraft/test_test.go; the histories are linearizable.
      KvSystemExample.v: a run.
    - Clients.v: clients with clocks that call any service, one call at a time
      each, and record their calls; what a service has to promise for the
      recorded histories to be linearizable.
    - ShardCtrler.v, ShardBalance.v, ShardCtrlerProps.v: shardctrler/server.go,
      client.go, common.go; ShardBalance.v is about [makeShardBalance].
      CtrlerSystem.v: the controller as a whole, an instance of Replicated.v.
    - ShardKv.v, ShardKvProps.v: shardkv/server.go, client.go, common.go.
      ShardKvSystem.v: a group as a whole, an instance of Replicated.v, and what
      its log has given it.  ShardCluster.v: the controller and any number of
      groups that ask it for configurations and each other for shards;
      ShardClusterExample.v: a run in which a shard moves.  ShardTimeline.v:
      what the logs of all groups together say about a shard: who serves it when,
      and that an operation takes effect once.  ShardHistory.v: the operations
      on a key in the order of the configurations and logs are a history of a
      register.  ShardLogs.v: the logs of the groups as the service runs.
      ShardKvLinear.v: the clients of Clients.v call it and their calls are
      recorded as in shardkv/test_test.go; the histories are linearizable.
      ShardKvLinearExample.v: a run with a put before and a get after a move.
    - MapReduce.v: mr/coordinator.go, worker.go, rpc.go.  A worker is a process
      that does one operation on a file of the shared disk per turn; files are
      bytes, the pairs in them JSON.  MapReduceCoord.v: the coordinator alone.
      MapReduceWorker.v: the turns of a worker, what they touch and what the
      files hold.  MapReduceProps.v: the whole job.  MapReduceExample.v: an
      executable scheduler, a word count, and a job that a late worker spoils.
    - MrApps.v: the plug-ins of mrapps/.  MrSequential.v: main/mrsequential.go,
      the start of main/mrcoordinator.go and main/mrworker.go, and the
      comparison of the distributed job with the sequential program.

    - TestNames.v: [randstring] and [random_handles] of the testers.  Harness.v:
      kvraft/config.go for any kind of server (the class [TestServer]);
      HarnessProps.v: which links are open; HarnessServers.v: starting, shutting
      down and restarting.  KvRaftConfig.v, ShardCtrlerConfig.v: the instances,
      and what kvraft/config.go and shardctrler/config.go do not share.
      KvSrvConfig.v: kvsrv/config.go.  ShardKvConfig.v: shardkv/config.go.

    ** Conventions

    A Go function is a Coq function of the state it may touch; it returns an
    [outcome]: a value, a panic, or [NoFuel] for a loop that has not ended.
    [log.Fatalf] and [t.Fatalf] are the panic [Fatal], [os.Exit] is [Exit].
    [int] values are mathematical integers: no counter of these programs comes
    near 2^63; the arithmetic of [ihash], of the bitsets and of the traffic
    counters of [labrpc] is written out at its width, and so is the range check
    of [Atoi].  Maps are [gmap], sets [gset], slices lists; Go's copies
    ([clone], [CloneConfig], [cloneMap]) are kept as definitions.  Aliasing
    does not matter where the code copies; where it shares slices no one writes
    to them.  The linked list of the checker is a heap of nodes with their
    addresses, the servers of the network are objects with addresses, and the
    types [labgob] walks over are a graph, which may have cycles.

    Code runs under a mutex, so an operation is one step.  A handler that waits
    (a condition variable, a channel) is split at the wait; background loops
    are one definition per turn.  Timers are flags that say whether they are
    armed, and which timer fires is a choice of the step relation.  Goroutines
    of the checker and of the network are sequences of events in any order: a
    schedule is a list, and the theorems hold for every one.  Time, random
    numbers, the order of [range] over a map, the answers of RPCs, the unstable
    [sort.Sort], [unicode.IsLetter] and [unicode.IsUpper], and the
    application's [mapf] and [reducef] are arguments.

    Loops that are not structural carry fuel, which is proved to be enough:
    [findFirstLoop] halves an interval and gets the length of the log;
    [searchCommit] goes down the log and gets its length too
    ([findFirstIndex_correct], [updateCommittedIndex_rule]); the search
    [checkLoop] takes its fuel as an argument, and there is an amount with which,
    and with any more, it returns the same answer, because a call is only
    linearized in a set of operations and a state that are not in the cache
    ([checkSingle_decides]); the schedule plays that part in [checkParallel]
    ([checkOperations_terminates]); [lengthLoop] gets the size of the heap; [scanKey], [collectValues] and
    [reduceLoop] move an index up to the number of pairs
    ([mapreduce_matches_sequential]); [checkType] checks a new type with every
    call and gets the number of types ([checkValue_complete]); [runesLoop]
    consumes a byte each time and gets the length of the string ([runes_bytes]);
    [decodeLoop] consumes a value of at least two bytes each time and gets the
    length of the file ([decodeFile_encs]).

    ** What the theorems show

    - The sharded store as a whole (C1, C5, C10, C11, C17), for groups that take
      no snapshots ([maxraftstate] is -1) and operations of the controller that
      keep its contract ([valid_op]: [execMove] and [execQuery] panic on others):
      the histories its clients record while shards move between groups are
      linearizable; the controller's servers are at prefixes of one log, and a
      configuration is fixed once and for all; every group has one log; when a
      group starts to serve a shard, the group before it has stopped, and hands
      over exactly the values and the memory of executed calls it had then; no
      shard has two owners in a configuration, among the servers and among the
      states their logs lead through.
    - The replicated store as a whole, without snapshots (C2, C7): the histories
      its clients record are linearizable, so the checker accepts them; all servers at all times,
      across lost and delayed messages, crashes and restarts, are at prefixes of
      one log of operations; an answer is the operation's result at its place in
      that log, and whatever is asked for after the answer comes later.  With
      [kvraft] alone (C18), where replicas mix commands and snapshots.
    - Raft, cluster (C3, C4, C6, C13, C14): no two servers deliver different
      commands with one index; at most one leader per term; no server panics;
      committed entries are in the logs of later leaders; log matching.
    - Raft, server (C21, C27 - C30): restart gives back the persisted state; the
      applied stream has no gaps and no repetitions; binary search; the commit
      rule; a flaw in the answers to stale requests.
    - The testers (C22, C31 - C35): shutting down and restarting a server;
      partitions that isolate the leader; clerks come and go; the tester of
      [shardkv] needs groups of three; [applierSnap] accepts every stream that is
      in order; a server that gets a snapshot older than what it has applied makes
      the tester fail.
    - The network (C16): every run does what an abstract network allows, in
      which a call runs at most once, the method its name says on the object
      registered for it, on the arguments it was given, and returns that method's
      answer or fails; what is registered, connected and enabled is what the
      tester asked for.
    - [labgob] (C40): the walk over a type ends, visits every type it refers to
      once and counts exactly the lower-case fields.
    - The checker (C8, C23 - C26): [CheckOperations] with the store model says
      yes exactly for linearizable histories; with any model and schedule a
      definite answer is right; it ends; the search decides linearizability;
      what a verbose check found is drawn as it happened.
    - [kvsrv] (C12, C19, C39): the recorded histories are linearizable, every
      call takes effect exactly once, every entry of the duplicate table belongs
      to a call in progress.
    - [shardctrler] alone (C20, C38): rebalancing always returns, is balanced and
      leaves a shard where it is if its group has no more than its share;
      operations do not panic on valid arguments.
    - [shardkv] alone (C37): a flaw with unassigned shards.
    - MapReduce (C9, C15, C36): if no worker writes after its task was taken away
      from it ([on_time]), then when [Done] holds the output files are those of
      the specification, and for text their lines are those of the sequential
      program; without the condition the code can lose words
      ([late_worker_spoils]).  No task is lost, whatever the workers do.

    Theorems without a number are about the same code (votes, refusals,
    replication and trimming of logs, snapshots of the services, partial
    linearizations, histories of events, the bitsets, deleted servers, calls that
    return, links, leaders and agreement in the tester of Raft, random names,
    waits and clerks, the hand-over of a shard between two servers, the word
    count).

    [Gob] with [GobLaws] is the interface between a service and [labgob];
    [consume] and [snap_ok] are the interface between a service and Raft: Raft's
    side is proved in RaftApply.v and RaftServer.v, the theorems about a service
    alone use nothing else of Raft.  [StateMachine] and [Service] are the
    interface between a service and the replicated system; [kvraft],
    [shardctrler] and [shardkv] are its instances.  [Calls] is the interface
    between a service and its clients; the two stores are its instances.
    [OrderInsensitive] is what the distributed job needs of a plug-in; each
    plug-in of MrApps.v is an instance.

    ** Not modelled

    [encoding/gob] (only its interface); JSON beyond the pairs of [mr]; the JSON
    and the HTML page of Porcupine's visualisation, which are parameters of
    Visualization.v; debug printing;
    sockets (the RPC glue of [mr]); the programs of [main] whose packages are not
    in the repository; the scenarios of the tests.  In raft/config.go, [wait] and
    [one] get what the tester sees of the world over time as arguments.

    State machine safety, leader completeness and the replicated systems as a
    whole are stated for runs in which the services take no snapshots: with
    them, the acknowledgement flaw of [ApplyEntries_false_ack] lets the leader
    count entries a follower does not have.  Snapshots themselves are modelled
    for every server, and the theorems about a server or a service alone cover
    them.  A group of the sharded store asks the controller through a clerk
    whose answers are answers of the controller's servers, and a client of a
    store takes any answer to its call that some server gives while it runs:
    which server a clerk asks next is in the clerks' own definitions. *)

From stdpp Require Import prelude gmap strings list.
From Stdlib Require Import Lia.

(** ** Run-time outcomes of Go code

    A Go function either returns, panics (an index out of range, an
    out-of-range slice expression, a nil pointer, a failed type assertion, an
    explicit [panic], [log.Fatal], [os.Exit]), or
    keeps looping.  A model of a [for] loop that is not structural carries
    fuel; running out of it is the value [NoFuel], so a theorem that says
    "returns" excludes it. *)

Inductive panic : Type :=
  | IndexOutOfRange
  | SliceBounds
  | Explicit (msg : string)
  | Fatal
  | NilDereference
  | TypeAssertion
  | Exit.

Inductive outcome (A : Type) : Type :=
  | Ret (a : A)
  | Panic (p : panic)
  | NoFuel.
Arguments Ret {A} _.
Arguments Panic {A} _.
Arguments NoFuel {A}.

#[export] Instance outcome_ret : MRet outcome := @Ret.
#[export] Instance outcome_bind : MBind outcome := λ A B f m,
  match m with
  | Ret a => f a
  | Panic p => Panic p
  | NoFuel => NoFuel
  end.

(** [returns m] holds when [m] neither panics nor runs out of fuel. *)
Definition returns {A} (m : outcome A) : Prop := ∃ a, m = Ret a.
Definition is_Ret {A} (m : outcome A) : bool := match m with Ret _ => true | _ => false end.

(** ** Slices indexed by Go's [int]

    [len], [s[i]], [s[i] = x], [s[:n]] and [s[n:]].  The model does not keep
    a slice's capacity: [s[:n]] with [n] beyond the length is [SliceBounds];
    no call of this development reaches that case. *)

Abbreviation zlen l := (Z.of_nat (length l)).

Section slices.
Context {A : Type}.
Local Open Scope Z_scope.
Implicit Types (l : list A) (i n : Z).

Definition go_index l i : outcome A :=
  if (0 <=? i) && (i <? zlen l) then
    match l !! Z.to_nat i with
    | Some x => Ret x
    | None => Panic IndexOutOfRange
    end
  else Panic IndexOutOfRange.

Definition go_set l i (x : A) : outcome (list A) :=
  if (0 <=? i) && (i <? zlen l) then Ret (<[Z.to_nat i := x]> l)
  else Panic IndexOutOfRange.

Definition go_slice_to l n : outcome (list A) :=
  if (0 <=? n) && (n <=? zlen l) then Ret (take (Z.to_nat n) l)
  else Panic SliceBounds.

Definition go_slice_from l n : outcome (list A) :=
  if (0 <=? n) && (n <=? zlen l) then Ret (drop (Z.to_nat n) l)
  else Panic SliceBounds.

(** [for j := range peers { s[j] = v }] for [k] peers. *)
Fixpoint go_fill_from (k : nat) (j : Z) l (v : A) : outcome (list A) :=
  match k with
  | O => Ret l
  | S k' => l' ← go_set l j v; go_fill_from k' (j + 1) l' v
  end.

Definition go_fill (k : nat) l (v : A) : outcome (list A) := go_fill_from k 0 l v.

Lemma go_index_Ret l i x :
  go_index l i = Ret x ↔ 0 ≤ i ∧ l !! Z.to_nat i = Some x.
Proof.
  unfold go_index. split.
  - repeat case_match; intros; simplify_eq; split; [lia|done].
  - intros [Hi Hx]. pose proof (lookup_lt_Some _ _ _ Hx).
    destruct (0 <=? i) eqn:?, (i <? zlen l) eqn:?; simpl; try lia.
    by rewrite Hx.
Qed.

Lemma go_index_lookup l (k : nat) x :
  l !! k = Some x → go_index l (Z.of_nat k) = Ret x.
Proof. intros. apply go_index_Ret. rewrite Nat2Z.id. split; [lia|done]. Qed.

Lemma go_index_in_range l i :
  0 ≤ i < zlen l → ∃ x, go_index l i = Ret x ∧ l !! Z.to_nat i = Some x.
Proof.
  intros Hi. destruct (lookup_lt_is_Some_2 l (Z.to_nat i)) as [x Hx]; [lia|].
  exists x. rewrite go_index_Ret. split; [split; [lia|done]|done].
Qed.

Lemma go_set_in_range l i x :
  0 ≤ i < zlen l → go_set l i x = Ret (<[Z.to_nat i := x]> l).
Proof. intros. unfold go_set. case_match; [done|lia]. Qed.

Lemma go_set_Ret l i x l' :
  go_set l i x = Ret l' → 0 ≤ i < zlen l ∧ l' = <[Z.to_nat i := x]> l.
Proof. unfold go_set. case_match; intros; simplify_eq. split; [lia|done]. Qed.

Lemma go_slice_to_in_range l n :
  0 ≤ n ≤ zlen l → go_slice_to l n = Ret (take (Z.to_nat n) l).
Proof. intros. unfold go_slice_to. case_match; [done|lia]. Qed.

Lemma go_slice_from_in_range l n :
  0 ≤ n ≤ zlen l → go_slice_from l n = Ret (drop (Z.to_nat n) l).
Proof. intros. unfold go_slice_from. case_match; [done|lia]. Qed.

Lemma go_fill_from_spec k (pre post : list A) v :
  length post = k →
  go_fill_from k (zlen pre) (pre ++ post) v = Ret (pre ++ replicate k v).
Proof.
  revert pre post. induction k as [|k IH]; intros pre [|y post] Hl; simplify_eq/=.
  - done.
  - rewrite go_set_in_range by (rewrite length_app; simpl; lia). simpl.
    rewrite Nat2Z.id, insert_app_r_alt, Nat.sub_diag by lia. simpl.
    replace (zlen pre + 1) with (zlen (pre ++ [v])) by (rewrite length_app; simpl; lia).
    rewrite (cons_middle v pre post), (app_assoc pre [v] post).
    rewrite IH by done. by rewrite <-app_assoc.
Qed.

Lemma go_fill_all l v : go_fill (length l) l v = Ret (replicate (length l) v).
Proof. exact (go_fill_from_spec (length l) [] l v eq_refl). Qed.
Lemma go_fill_len l k v : length l = k → go_fill k l v = Ret (replicate k v).
Proof. intros <-. apply go_fill_all. Qed.
End slices.

(** ** Automation

    [go_step] evaluates a bind whose first computation is known, splits the
    boolean conditions of the code and turns them into arithmetic facts. *)

Lemma bind_Ret {A B} (a : A) (f : A → outcome B) : (Ret a ≫= f) = f a.
Proof. done. Qed.

Lemma bind_Ret_inv {A B} (m : outcome A) (f : A → outcome B) b :
  (m ≫= f) = Ret b → ∃ a, m = Ret a ∧ f a = Ret b.
Proof. destruct m; simpl; intros; try done. eauto. Qed.

Lemma is_Ret_returns {A} (m : outcome A) : is_Ret m = true → returns m.
Proof. destruct m as [a| |]; [by exists a|done..]. Qed.

Lemma returns_Ret {A} (a : A) : returns (Ret a).
Proof. by exists a. Qed.

Lemma returns_bind {A B} (m : outcome A) (f : A → outcome B) :
  (∃ a, m = Ret a ∧ returns (f a)) → returns (m ≫= f).
Proof. intros (a & -> & ?). done. Qed.

Create HintDb godb.
#[export] Hint Resolve returns_Ret : godb.

(** Turn the boolean tests among the hypotheses into propositions.  ([lia]
    reads boolean tests too, but does not add that lengths are not negative
    to them.) *)
Ltac b2p :=
  repeat match goal with
    | H : (_ <? _)%Z = true |- _ => apply Z.ltb_lt in H
    | H : (_ <? _)%Z = false |- _ => apply Z.ltb_ge in H
    | H : (_ <=? _)%Z = true |- _ => apply Z.leb_le in H
    | H : (_ <=? _)%Z = false |- _ => apply Z.leb_gt in H
    | H : (_ =? _)%Z = true |- _ => apply Z.eqb_eq in H
    | H : (_ =? _)%Z = false |- _ => apply Z.eqb_neq in H
    | H : (_ >? _)%Z = _ |- _ => rewrite Z.gtb_ltb in H
    | H : (_ >=? _)%Z = _ |- _ => rewrite Z.geb_leb in H
    | H : _ && _ = true |- _ => apply andb_true_iff in H; destruct H
    | H : _ || _ = false |- _ => apply orb_false_iff in H; destruct H
    | H : negb _ = true |- _ => apply negb_true_iff in H
    | H : negb _ = false |- _ => apply negb_false_iff in H
    end.
Ltac zlia := b2p; lia.

(** Split every boolean test of the goal. *)
Ltac go_split :=
  repeat match goal with
    | |- context [if ?b then _ else _] => destruct b eqn:?
    end.

(** Invert hypotheses of the form [bind m f = Ret b]. *)
Ltac go_inv :=
  repeat match goal with
    | H : (_ ≫= _) = Ret _ |- _ =>
        apply bind_Ret_inv in H; destruct H as (? & ? & H)
    | H : Ret _ = Ret _ |- _ => injection H; clear H; intros; subst
    | H : Panic _ = Ret _ |- _ => discriminate H
    | H : NoFuel = Ret _ |- _ => discriminate H
    | H : (if ?b then _ else _) = Ret _ |- _ => destruct b eqn:?
    | H : (let '(_, _) := ?p in _) = Ret _ |- _ => destruct p eqn:?
    end; simplify_eq/=.

(** ** Loops *)
Section loops.
Context {A : Type}.
Local Open Scope Z_scope.

(** [for j := from; j < from + k; j++] *)
Fixpoint go_for (k : nat) (from : Z) (body : Z → A → outcome A) (a : A) : outcome A :=
  match k with
  | O => Ret a
  | S k => a ← body from a; go_for k (from + 1) body a
  end.

Lemma go_for_keeps (P : A → Prop) k from (body : Z → A → outcome A) a a' :
  P a → (∀ j a a', P a → body j a = Ret a' → P a') → go_for k from body a = Ret a' → P a'.
Proof.
  intros Ha Hb. revert from a Ha. induction k as [|k IH]; intros from a Ha; simpl; [by intros [= <-]|].
  intros (a1 & H1 & H2)%bind_Ret_inv. by eapply IH, H2; eapply Hb.
Qed.

(** Every iteration of a loop that ended has returned. *)
Lemma go_for_visits (P : A → Prop) k from (body : Z → A → outcome A) a a' j :
  P a → (∀ j a a', P a → body j a = Ret a' → P a') → go_for k from body a = Ret a' →
  from ≤ j < from + Z.of_nat k → ∃ a1 a2, P a1 ∧ body j a1 = Ret a2.
Proof.
  intros Ha Hb. revert from a Ha. induction k as [|k IH]; intros from a Ha; simpl; [lia|].
  intros (a1 & H1 & H2)%bind_Ret_inv Hj. destruct (decide (j = from)) as [->|Hne]; [by exists a, a1|].
  eapply (IH (from + 1) a1); [by eapply Hb|done|lia].
Qed.

Lemma go_for_inv (P : Z → A → Prop) k from (body : Z → A → outcome A) a a' :
  P from a → (∀ j a a', from ≤ j → P j a → body j a = Ret a' → P (j + 1) a') →
  go_for k from body a = Ret a' → P (from + Z.of_nat k) a'.
Proof.
  revert from a. induction k as [|k IH]; intros from a Ha Hb; simpl; [intros [= <-]; by rewrite Z.add_0_r|].
  intros (a1 & Hr1 & Hr2)%bind_Ret_inv. replace (from + Z.of_nat (S k)) with (from + 1 + Z.of_nat k) by lia.
  eapply IH, Hr2; [by eapply Hb|]. intros j ? ? ?. apply Hb. lia.
Qed.


(** A loop whose iterations return, with an invariant. *)
Lemma go_for_total (P : Z → A → Prop) k from (body : Z → A → outcome A) a :
  P from a → (∀ j a, from ≤ j < from + Z.of_nat k → P j a → ∃ a', body j a = Ret a' ∧ P (j + 1) a') →
  ∃ a', go_for k from body a = Ret a' ∧ P (from + Z.of_nat k) a'.
Proof.
  revert from a. induction k as [|k IH]; intros from a Ha Hb; simpl; [rewrite Z.add_0_r; by exists a|].
  destruct (Hb from a) as (a1 & -> & Ha1); [lia|done|]. simpl.
  replace (from + Z.of_nat (S k)) with (from + 1 + Z.of_nat k) by lia.
  apply IH; [done|]. intros j a2 Hj. apply Hb. lia.
Qed.

Lemma go_for_returns (P : A → Prop) k from (body : Z → A → outcome A) a :
  P a → (∀ j a, from ≤ j < from + Z.of_nat k → P a → ∃ a', body j a = Ret a' ∧ P a') →
  ∃ a', go_for k from body a = Ret a' ∧ P a'.
Proof. exact (go_for_total (λ _, P) k from body a). Qed.
End loops.

(** *** Loops over a slice *)
Section fold.
Context {A B : Type}.
Local Open Scope Z_scope.
Implicit Types (f : A → B → outcome B) (l : list A).

Fixpoint foldM f l (b : B) : outcome B :=
  match l with
  | [] => Ret b
  | x :: l => b ← f x b; foldM f l b
  end.

Lemma foldM_app f l1 l2 b : foldM f (l1 ++ l2) b = (b ← foldM f l1 b; foldM f l2 b).
Proof.
  revert b. induction l1 as [|x l1 IH]; intros b; simpl; [done|]. destruct (f x b); simpl; [apply IH|done|done].
Qed.

(** [for j := 0; j < len(l); j++ { ... l[j] ... }] *)
Lemma go_for_list f l b : go_for (length l) 0 (λ j b, x ← go_index l j; f x b) b = foldM f l b.
Proof.
  assert (∀ post pre b, go_for (length post) (zlen pre) (λ j b, x ← go_index (pre ++ post) j; f x b) b =
    foldM f post b) as Hgen.
  { induction post as [|x post IH]; intros pre b'; cbn [length go_for foldM]; [done|].
    rewrite (go_index_lookup _ (length pre) x) by (rewrite lookup_app_r, Nat.sub_diag by lia; done). simpl.
    destruct (f x b') as [b1| |]; simpl; [|done..].
    rewrite cons_middle, app_assoc. replace (zlen pre + 1) with (zlen (pre ++ [x])) by (rewrite length_app; simpl; lia).
    apply IH. }
  apply (Hgen l []).
Qed.

Lemma foldM_returns (P : B → Prop) f l b :
  P b → (∀ x b, x ∈ l → P b → ∃ b', f x b = Ret b' ∧ P b') → ∃ b', foldM f l b = Ret b' ∧ P b'.
Proof.
  revert b. induction l as [|x l IH]; intros b Hb Hf; simpl; [by exists b|].
  destruct (Hf x b) as (b1 & -> & Hb1); [by left|done|]. simpl. apply IH; [done|]. intros y b2 Hy. apply Hf. by right.
Qed.

Lemma foldM_ext (P : B → Prop) f g l b :
  P b → (∀ x b, x ∈ l → P b → f x b = g x b ∧ ∀ b', g x b = Ret b' → P b') → foldM f l b = foldM g l b.
Proof.
  revert b. induction l as [|x l IH]; intros b Hb Hfg; simpl; [done|].
  destruct (Hfg x b) as [-> Hk]; [by left|done|]. destruct (g x b) as [b1| |] eqn:Hg; simpl; [|done..].
  apply IH; [by apply Hk|]. intros y b2 Hy. apply Hfg. by right.
Qed.
End fold.

(** [for j := 0; j < n; j++] is a loop over 0 .. n-1. *)
Lemma go_for_seqZ {B} (f : Z → B → outcome B) (k : nat) (from : Z) b :
  go_for k from f b = foldM f (seqZ from (Z.of_nat k)) b.
Proof.
  revert from b. induction k as [|k IH]; intros from b; [done|].
  rewrite seqZ_cons by lia. replace (Z.pred (Z.of_nat (S k))) with (Z.of_nat k) by lia. simpl.
  destruct (f from b); simpl; [apply IH|done..].
Qed.

(** ** Choosing for every element *)

Lemma Forall2_choice {A B} (R : A → B → Prop) (l : list A) :
  (∀ x, x ∈ l → ∃ y, R x y) → ∃ k : list B, Forall2 R l k.
Proof.
  induction l as [|x l IH]; intros Hl; [by exists []|].
  destruct IH as [k Hk]; [intros; apply Hl; by right|]. destruct (Hl x) as [y Hy]; [by left|].
  exists (y :: k). by constructor.
Qed.

Lemma list_choice {A B} (R : A → B → Prop) (l : list A) :
  (∀ x, x ∈ l → ∃ y, R x y) →
  ∃ k : list B, (∀ x, x ∈ l → ∃ y, y ∈ k ∧ R x y) ∧ (∀ y, y ∈ k → ∃ x, x ∈ l ∧ R x y).
Proof.
  intros (k & Hk)%Forall2_choice. exists k. split.
  - intros x (i & Hi)%list_elem_of_lookup. destruct (Forall2_lookup_l _ _ _ _ _ Hk Hi) as (y & Hy & ?).
    exists y. split; [by eapply list_elem_of_lookup_2|done].
  - intros y (i & Hi)%list_elem_of_lookup. destruct (Forall2_lookup_r _ _ _ _ _ Hk Hi) as (x & Hx & ?).
    exists x. split; [by eapply list_elem_of_lookup_2|done].
Qed.

Lemma map_choice `{Countable K} {A B} (R : K → A → B → Prop) (m : gmap K A) :
  (∀ k x, m !! k = Some x → ∃ y, R k x y) →
  ∃ m' : gmap K B, ∀ k x, m !! k = Some x → ∃ y, m' !! k = Some y ∧ R k x y.
Proof.
  induction m as [|k x m Hk IH] using map_ind; intros Hm; [exists ∅; intros k x; by rewrite lookup_empty|].
  destruct IH as [m' Hm'].
  { intros k' x' Hk'. apply Hm. rewrite lookup_insert_ne; [done|]. intros ->. congruence. }
  destruct (Hm k x) as [y Hy]; [apply lookup_insert_eq|]. exists (<[k := y]> m').
  intros k' x' [[<- <-]|[Hne Hk']]%lookup_insert_Some; [exists y; by rewrite lookup_insert_eq|].
  rewrite lookup_insert_ne by done. by apply Hm'.
Qed.

(** ** Filters of lists *)

(** [omap] of a function that is defined on the list. *)
Lemma omap_length_all {X Y} (f : X → option Y) (l : list X) : (∀ x, x ∈ l → is_Some (f x)) → length (omap f l) = length l.
Proof.
  induction l as [|x l IH]; intros Hl; [done|]. destruct (Hl x) as [y Hy]; [by left|]. simpl. rewrite Hy. cbn [length].
  f_equal. apply IH. intros z Hz. apply Hl. by right.
Qed.

Lemma omap_take_all {X Y} (f : X → option Y) (l : list X) (k : nat) : (∀ x, x ∈ l → is_Some (f x)) → omap f (take k l) = take k (omap f l).
Proof.
  revert k. induction l as [|x l IH]; intros [|k] Hl; [done..|]. destruct (Hl x) as [y Hy]; [by left|]. simpl. rewrite Hy.
  simpl. f_equal. apply IH. intros z Hz. apply Hl. by right.
Qed.

Lemma omap_lookup_all {X Y} (f : X → option Y) (l : list X) (k : nat) : (∀ x, x ∈ l → is_Some (f x)) → omap f l !! k = l !! k ≫= f.
Proof.
  revert k. induction l as [|x l IH]; intros [|k] Hl; [done|done|..]; destruct (Hl x) as [y Hy]; try (by left);
    simpl; rewrite Hy; [done|]. apply IH. intros z Hz. apply Hl. by right.
Qed.


Lemma filter_ext_in {A} (P Q : A → Prop) `{∀ x, Decision (P x), ∀ x, Decision (Q x)} (l : list A) :
  (∀ x, x ∈ l → P x ↔ Q x) → filter P l = filter Q l.
Proof.
  induction l as [|x l IH]; intros HPQ; [done|]. rewrite !filter_cons.
  rewrite IH by (intros; apply HPQ; by right).
  pose proof (HPQ x (list_elem_of_here _ _)). repeat case_decide; tauto.
Qed.

Lemma filter_all {A} (P : A → Prop) `{∀ x, Decision (P x)} (l : list A) : (∀ x, P x) → filter P l = l.
Proof. intros HP. induction l as [|x l IH]; [done|]. rewrite filter_cons, decide_True by done. by rewrite IH. Qed.

Lemma filter_of_fmap {A B} (f : A → B) (P : B → Prop) `{∀ x, Decision (P x)} (l : list A) :
  filter P (f <$> l) = f <$> filter (λ x, P (f x)) l.
Proof.
  induction l as [|x l IH]; [done|]. rewrite fmap_cons, !filter_cons, IH. by case_decide.
Qed.

Lemma NoDup_snoc {A} (l : list A) x : x ∉ l → NoDup l → NoDup (l ++ [x]).
Proof.
  intros Hx Hl. apply NoDup_app. split_and!; [done| |apply NoDup_singleton].
  intros y Hy ->%list_elem_of_singleton. done.
Qed.
