(* ===== verification/Gob.v ===== *)
(** * The gob stream interface

    [labgob] (src/src/labgob/labgob.go) wraps Go's [encoding/gob]:
    [NewEncoder(w)] and repeated [Encode] calls append values to a buffer,
    [NewDecoder(r)] and repeated [Decode] calls read them back in the same
    order.  Raft persists its state and the key/value servers build their
    snapshots this way.

    [Gob] is the interface the components use, one instance per Go type, and
    [GobLaws] is what they rely on.  An encoder remembers which type
    descriptions it has already sent, so what [Encode] appends depends on
    what the stream holds; likewise a decoder.  Hence [gob_enc] takes the
    buffer written so far, and [gob_dec] the whole stream and the reading
    position.  [gob_dec s p = None] is a decoding error.

    [CountableGob] gives a concrete stream format for every countable type,
    so the laws can hold. *)

From Stdlib Require Import Strings.Byte.
From stdpp Require Import prelude gmap countable strings list.
From S2P Require Import Prelude.

Class Gob (A : Type) := {
  gob_enc : list byte → A → list byte;
  gob_dec : list byte → nat → option (A * nat);
}.

Class GobLaws (A : Type) `{Gob A} := {
  (** [Encode] appends at least one byte. *)
  gob_enc_grows w (a : A) : length w < length (gob_enc w a);
  gob_enc_prefix w (a : A) : w `prefix_of` gob_enc w a;
  (** [Decode] at the position where [a] was encoded gives [a] back,
      whatever was appended after it. *)
  gob_dec_enc w (a : A) s :
    gob_enc w a `prefix_of` s →
    gob_dec s (length w) = Some (a, length (gob_enc w a));
}.

#[export] Hint Resolve gob_enc_prefix : godb.

Lemma gob_enc_ne_nil `{GobLaws A} w (a : A) : gob_enc w a ≠ [].
Proof.
  intros Hnil. pose proof (gob_enc_grows w a) as Hg. rewrite Hnil in Hg. simpl in Hg. lia.
Qed.

Lemma gob_enc_prefix_of `{GobLaws A} w (a : A) s : gob_enc w a `prefix_of` s → w `prefix_of` s.
Proof. intros. by etrans; [apply (gob_enc_prefix w a)|]. Qed.

(** Values encoded one after the other are decoded one after the other. *)
Lemma gob_dec_enc_self `{GobLaws A} w (a : A) :
  gob_dec (gob_enc w a) (length w) = Some (a, length (gob_enc w a)).
Proof. by apply gob_dec_enc. Qed.

(** ** A concrete format

    One byte per bit of the stdpp encoding of a value, then a terminator. *)
Section countable_gob.
Fixpoint enc_positive (p : positive) : list byte :=
  match p with
  | xH => [x02]
  | xO p => x00 :: enc_positive p
  | xI p => x01 :: enc_positive p
  end.

(** The code and the number of bytes it takes. *)
Fixpoint dec_positive (s : list byte) : option (positive * nat) :=
  match s with
  | x02 :: _ => Some (xH, 1)
  | x00 :: s => '(p, n) ← dec_positive s; Some (xO p, S n)
  | x01 :: s => '(p, n) ← dec_positive s; Some (xI p, S n)
  | _ => None
  end.

Lemma dec_enc_positive p rest :
  dec_positive (enc_positive p ++ rest) = Some (p, length (enc_positive p)).
Proof. induction p as [p IH|p IH|]; simpl; [by rewrite IH|by rewrite IH|done]. Qed.

Lemma enc_positive_length p : 0 < length (enc_positive p).
Proof. destruct p; simpl; lia. Qed.

Context `{Countable A}.

Definition countable_enc (w : list byte) (a : A) : list byte :=
  w ++ enc_positive (encode a).

Definition countable_dec (s : list byte) (pos : nat) : option (A * nat) :=
  '(p, n) ← dec_positive (drop pos s); a ← decode p; Some (a, pos + n).
End countable_gob.

Definition CountableGob (A : Type) `{Countable A} : Gob A :=
  {| gob_enc := countable_enc; gob_dec := countable_dec |}.

Lemma CountableGobLaws (A : Type) `{Countable A} : @GobLaws A (CountableGob A).
Proof.
  split; cbn; unfold countable_enc, countable_dec.
  - intros w a. rewrite length_app. pose proof (enc_positive_length (encode a)). lia.
  - intros w a. by apply prefix_app_r.
  - intros w a s [rest ->]. rewrite <-app_assoc, drop_app_length, dec_enc_positive.
    simpl. rewrite decode_encode. simpl. by rewrite length_app.
Qed.
