(* ===== verification/Strconv.v ===== *)
(** * Decimal numbers in strings

    What the repository uses of Go's [strconv] and [strings]:
    [FormatInt(x, 10)] (and [Itoa], and the [%d] verb), [Atoi] and [Split];
    that numbers written with a separator between them can be told apart
    again, and that [Atoi] reads back what [FormatInt] writes. *)

From Stdlib Require Import Ascii String.
From stdpp Require Import prelude strings pretty list.
From S2P Require Import Prelude.

(** [strconv.FormatInt(x, 10)] *)
Definition FormatInt (x : Z) : string := pretty x.

#[export] Instance FormatInt_inj : Inj (=) (=) FormatInt.
Proof. intros x y. unfold FormatInt. apply (inj pretty). Qed.

Definition chars (s : string) : list ascii := list_ascii_of_string s.

Lemma chars_app s t : chars (s +:+ t) = chars s ++ chars t.
Proof. induction s as [|c s IH]; simpl; [done|]. unfold chars in *. simpl. by rewrite IH. Qed.

#[export] Instance chars_inj : Inj (=) (=) chars.
Proof.
  intros s t Heq. rewrite <-(string_of_list_ascii_of_string s), <-(string_of_list_ascii_of_string t).
  unfold chars in Heq. by rewrite Heq.
Qed.

Definition digit_or_dash (c : ascii) : Prop := ∃ n, c = pretty_N_char n ∨ c = "-"%char.

Lemma pretty_N_go_chars n s :
  Forall digit_or_dash (chars s) → Forall digit_or_dash (chars (pretty_N_go n s)).
Proof.
  revert s. induction (N.lt_wf_0 n) as [n _ IH]; intros s Hs.
  destruct (decide (n = 0)%N) as [->|]; [by rewrite pretty_N_go_0|].
  rewrite pretty_N_go_step by lia. apply IH; [apply N.div_lt; lia|].
  constructor; [|done]. exists (n `mod` 10)%N. by left.
Qed.

Lemma pretty_N_chars (n : N) : Forall digit_or_dash (chars (pretty n)).
Proof.
  unfold pretty, pretty_N. case_decide.
  - constructor; [exists 0%N; by left|constructor].
  - apply pretty_N_go_chars. constructor.
Qed.

Lemma FormatInt_chars x : Forall digit_or_dash (chars (FormatInt x)).
Proof.
  unfold FormatInt, pretty, pretty_Z. destruct x as [|p|p].
  - constructor; [exists 0%N; by left|constructor].
  - apply (pretty_N_chars (Npos p)).
  - constructor; [exists 0%N; by right|]. apply (pretty_N_chars (Npos p)).
Qed.

(** A separator that is neither a digit nor a dash. *)
Lemma FormatInt_no_comma x : ","%char ∉ chars (FormatInt x).
Proof.
  intros Hin. pose proof (FormatInt_chars x) as Hall. rewrite Forall_forall in Hall.
  destruct (Hall _ Hin) as (n & [Hd|Hd]); [|done].
  unfold pretty_N_char in Hd. repeat case_match; done.
Qed.

Lemma app_sep_inj {A} (c : A) l1 l2 r1 r2 :
  c ∉ l1 → c ∉ l2 → l1 ++ c :: r1 = l2 ++ c :: r2 → l1 = l2 ∧ r1 = r2.
Proof.
  revert l2. induction l1 as [|x l1 IH]; intros [|y l2] H1 H2 Heq; simplify_eq/=.
  - done.
  - destruct H2. by left.
  - destruct H1. by left.
  - rewrite not_elem_of_cons in H1, H2. destruct (IH l2) as [-> ->]; [naive_solver..|done].
Qed.

(** Two numbers joined by a comma. *)
Lemma comma_inj x y x' y' :
  FormatInt x +:+ "," +:+ FormatInt y = FormatInt x' +:+ "," +:+ FormatInt y' → x = x' ∧ y = y'.
Proof.
  intros Heq%(f_equal chars). rewrite !chars_app in Heq.
  apply app_sep_inj in Heq as [Hx Hy]; [|apply FormatInt_no_comma..].
  apply chars_inj in Hx, Hy. by apply (inj FormatInt) in Hx, Hy.
Qed.

(** ** Reading numbers back *)

(** The value of a digit. *)
Definition digit (c : ascii) : option Z :=
  let n := N_of_ascii c in
  if (48 <=? n)%N && (n <=? 57)%N then Some (Z.of_N n - 48)%Z else None.

Fixpoint parseDigits (acc : Z) (s : string) : option Z :=
  match s with
  | EmptyString => Some acc
  | String c s => match digit c with Some d => parseDigits (acc * 10 + d) s | None => None end
  end.

(** [strconv.Atoi] on a 64-bit machine; [None] is an error. *)
Definition Atoi (s : string) : option Z :=
  let '(sign, digits) :=
    match s with
    | String "-" s' => (-1, s')%Z
    | String "+" s' => (1, s')%Z
    | _ => (1, s)%Z
    end in
  if decide (digits = "") then None
  else match parseDigits 0 digits with
       | Some v => let v := (sign * v)%Z in
                   if (- 2 ^ 63 <=? v)%Z && (v <? 2 ^ 63)%Z then Some v else None
       | None => None
       end.

(** [strings.Split(s, sep)] for a separator of one character. *)
Fixpoint Split (s : string) (sep : ascii) : list string :=
  match s with
  | EmptyString => [""]
  | String c s =>
      let parts := Split s sep in
      if decide (c = sep) then "" :: parts
      else match parts with
           | p :: ps => String c p :: ps
           | [] => [String c ""]
           end
  end.

Lemma Split_ne_nil s sep : Split s sep ≠ [].
Proof. destruct s; simpl; repeat case_match; done. Qed.

Lemma Split_none s sep : sep ∉ chars s → Split s sep = [s].
Proof.
  induction s as [|c s IH]; simpl; [done|]. intros [? ?]%not_elem_of_cons.
  rewrite decide_False by done. by rewrite IH.
Qed.

Lemma Split_sep s t sep : sep ∉ chars s → Split (s +:+ String sep t) sep = s :: Split t sep.
Proof.
  induction s as [|c s IH]; simpl.
  - intros _. by rewrite decide_True.
  - intros [? ?]%not_elem_of_cons. rewrite decide_False by done. by rewrite IH.
Qed.

Lemma digit_pretty (n : N) : (n < 10)%N → digit (pretty_N_char n) = Some (Z.of_N n).
Proof.
  intros Hn. destruct n as [|p]; [done|]. do 4 (destruct p as [p|p|]; try done; try lia).
Qed.

Lemma parseDigits_go n s acc :
  ∃ k, parseDigits acc (pretty_N_go n s) = parseDigits (acc * k + Z.of_N n) s.
Proof.
  revert s acc. induction (N.lt_wf_0 n) as [n _ IH]; intros s acc.
  destruct (decide (n = 0)%N) as [->|].
  { exists 1%Z. rewrite pretty_N_go_0. f_equal. lia. }
  rewrite pretty_N_go_step by lia. destruct (IH (n `div` 10)%N (N.div_lt n 10 ltac:(lia) ltac:(lia))
    (String (pretty_N_char (n `mod` 10)) s) acc) as (k & ->).
  exists (k * 10)%Z. simpl. rewrite digit_pretty by (apply N.mod_lt; lia). f_equal.
  pose proof (N.div_mod n 10 ltac:(lia)). lia.
Qed.

Lemma parseDigits_pretty (n : N) : parseDigits 0 (pretty n) = Some (Z.of_N n).
Proof.
  unfold pretty, pretty_N. case_decide as Hn; [by rewrite Hn|].
  destruct (parseDigits_go n "" 0) as (k & ->). done.
Qed.

Lemma pretty_N_digits (n : N) : Forall (λ c, ∃ m, c = pretty_N_char m) (chars (pretty n)).
Proof.
  assert (∀ n s, Forall (λ c, ∃ m, c = pretty_N_char m) (chars s) →
    Forall (λ c, ∃ m, c = pretty_N_char m) (chars (pretty_N_go n s))) as Hgo.
  { clear n. intros n. induction (N.lt_wf_0 n) as [n _ IH]; intros s Hs.
    destruct (decide (n = 0)%N) as [->|]; [by rewrite pretty_N_go_0|].
    rewrite pretty_N_go_step by lia. apply IH; [apply N.div_lt; lia|]. constructor; [by eexists|done]. }
  unfold pretty, pretty_N. case_decide.
  - constructor; [by exists 0%N|constructor].
  - apply Hgo. constructor.
Qed.

Lemma pretty_N_char_other m c : c ∈ ["-"; "+"; ","]%char → pretty_N_char m ≠ c.
Proof. set_unfold. intros Hc. unfold pretty_N_char. repeat case_match; naive_solver. Qed.

(** A number that is not negative has no sign. *)
Lemma FormatInt_digits x : (0 ≤ x)%Z → FormatInt x = pretty (Z.to_N x).
Proof. unfold FormatInt. destruct x; [done|done|lia]. Qed.

Lemma FormatInt_no_dash x c : (0 ≤ x)%Z → c ∈ ["-"; "+"; ","]%char → c ∉ chars (FormatInt x).
Proof.
  intros Hx Hc Hin. rewrite FormatInt_digits in Hin by done.
  pose proof (pretty_N_digits (Z.to_N x)) as Hall. rewrite Forall_forall in Hall.
  destruct (Hall _ Hin) as (m & ->). by apply (pretty_N_char_other m) in Hc.
Qed.

Lemma FormatInt_ne_nil x : FormatInt x ≠ "".
Proof.
  destruct x as [|p|p]; [done| |done]. intros Heq. rewrite FormatInt_digits in Heq by done.
  pose proof (parseDigits_pretty (Npos p)) as Hp. simpl in Heq. by rewrite Heq in Hp.
Qed.

Lemma Atoi_FormatInt x : (0 ≤ x < 2 ^ 63)%Z → Atoi (FormatInt x) = Some x.
Proof.
  intros Hx. unfold Atoi. pose proof (FormatInt_no_dash x "-" ltac:(lia) ltac:(set_solver)) as Hd.
  pose proof (FormatInt_no_dash x "+" ltac:(lia) ltac:(set_solver)) as Hp.
  assert (parseDigits 0 (FormatInt x) = Some x) as Hv.
  { rewrite FormatInt_digits, parseDigits_pretty by lia. f_equal. lia. }
  pose proof (FormatInt_ne_nil x) as Hne. set (s := FormatInt x) in *. clearbody s.
  assert (match s with String "-" s' => (-1, s') | String "+" s' => (1, s') | _ => (1, s) end = (1, s))%Z as ->.
  { destruct s as [|c s]; [done|]. simpl in *. rewrite not_elem_of_cons in Hd, Hp.
    destruct c as [[] [] [] [] [] [] [] []]; try done; naive_solver. }
  rewrite decide_False by done. rewrite Hv. rewrite Z.mul_1_l.
  destruct (- 2 ^ 63 <=? x)%Z eqn:?, (x <? 2 ^ 63)%Z eqn:?; simpl; try done; zlia.
Qed.
