(* ===== verification/Labrpc.v ===== *)
(** * The simulated network

    src/src/labrpc/labrpc.go: client ends, a network that loses and delays
    requests and replies, servers that dispatch requests to services.

    - Names are of any countable type [K] ([interface{}] used as a map key).
    - Pointers to servers and to the receiver objects of services are numbers,
      since [isServerDead] compares pointers.
    - Arguments and replies travel as bytes, through [Gob].
    - A [Call] in progress is a record: where [ClientEnd.Call] and
      [processReq] are ([phase]) and what became of the goroutine that runs the
      handler ([exec]), which may run after [Call] has given up.
    - Every stretch of code between two waits is an event, and a schedule is
      any sequence of events.  An event that is not possible leaves the world
      as it is.  Random numbers are arguments of the events; sleeping only
      delays the next event.
    - A handler runs in one step.  [reflect] describes a method by the fields
      of [Method].
    - [count] and [bytes] wrap around like the 32 and 64 bit counters they are. *)

From Stdlib Require Import Strings.Byte Ascii String.
From stdpp Require Import prelude gmap strings list.
From S2P Require Import Prelude Gob.
Local Open Scope Z_scope.

Definition int32 (x : Z) : Z := (x + 2 ^ 31) mod 2 ^ 32 - 2 ^ 31.
Definition int64 (x : Z) : Z := (x + 2 ^ 63) mod 2 ^ 64 - 2 ^ 63.

Record reqMsg (K : Type) := mkReqMsg { endname : K; svcMeth : string; args : list byte }.
Record replyMsg := mkReplyMsg { ok : bool; reply : list byte }.
Arguments mkReqMsg {K} _ _ _.
Arguments endname {K} _.
Arguments svcMeth {K} _.
Arguments args {K} _.

(** A method as [reflect] shows it: exported, number of inputs with the
    receiver, whether the second argument is a pointer, number of results. *)
Record Method (Obj X Y : Type) := mkMethod {
  m_name : string;
  m_exported : bool;
  m_NumIn : Z;
  m_In2_Ptr : bool;
  m_NumOut : Z;
  m_Func : Obj → X → Obj * Y;
}.
Arguments mkMethod {Obj X Y} _ _ _ _ _ _.
Arguments m_name {Obj X Y} _.
Arguments m_exported {Obj X Y} _.
Arguments m_NumIn {Obj X Y} _.
Arguments m_In2_Ptr {Obj X Y} _.
Arguments m_NumOut {Obj X Y} _.
Arguments m_Func {Obj X Y} _ _ _.

Record Service (Obj X Y : Type) := mkService {
  svc_name : string;
  rcvr : nat;
  methods : gmap string (Method Obj X Y);
}.
Arguments mkService {Obj X Y} _ _ _.
Arguments svc_name {Obj X Y} _.
Arguments rcvr {Obj X Y} _.
Arguments methods {Obj X Y} _.

Record Server (Obj X Y : Type) := mkServer {
  services : gmap string (Service Obj X Y);
  srv_count : Z;
}.
Arguments mkServer {Obj X Y} _ _.
Arguments services {Obj X Y} _.
Arguments srv_count {Obj X Y} _.

(** [done]: closed; [serving]: the goroutine of [MakeNetwork] runs. *)
Record Network (K : Type) `{Countable K} := mkNetwork {
  reliable : bool;
  longDelays : bool;
  longReordering : bool;
  ends : gset K;
  enabled : gmap K bool;
  servers : gmap K (option nat);
  connections : gmap K (option K);
  count : Z;
  bytes : Z;
  net_done : bool;
  serving : bool;
}.
Arguments mkNetwork {K _ _} _ _ _ _ _ _ _ _ _ _ _.
Arguments reliable {K _ _} _.
Arguments longDelays {K _ _} _.
Arguments longReordering {K _ _} _.
Arguments ends {K _ _} _.
Arguments enabled {K _ _} _.
Arguments servers {K _ _} _.
Arguments connections {K _ _} _.
Arguments count {K _ _} _.
Arguments bytes {K _ _} _.
Arguments net_done {K _ _} _.
Arguments serving {K _ _} _.

(** Where a call is.  [PReply rep counted]: [rep] is being sent, or the timer
    that sends it runs; [counted] says that its bytes are added then. *)
Inductive phase (K Y : Type) :=
  | PSend
  | PArrived
  | PWait (servername : K) (server : nat) (rel longre : bool)
  | PWaited (rep : option replyMsg) (servername : K) (server : nat) (rel longre : bool)
  | PReply (rep : replyMsg) (counted : bool)
  | PDone (result : option Y).
Arguments PSend {K Y}.
Arguments PArrived {K Y}.
Arguments PWait {K Y} _ _ _ _.
Arguments PWaited {K Y} _ _ _ _ _.
Arguments PReply {K Y} _ _.
Arguments PDone {K Y} _.

(** The goroutine that runs the handler: not started; to run on [server]; has
    run. *)
Inductive exec :=
  | ENone
  | ERunning (server : nat)
  | ERan (rep : replyMsg).

Record call (K X Y : Type) := mkCall {
  c_arg : X;
  c_req : reqMsg K;
  c_phase : phase K Y;
  c_exec : exec;
}.
Arguments mkCall {K X Y} _ _ _ _.
Arguments c_arg {K X Y} _.
Arguments c_req {K X Y} _.
Arguments c_phase {K X Y} _.
Arguments c_exec {K X Y} _.

Record World (K Obj X Y : Type) `{Countable K} := mkWorld {
  net : Network K;
  srvs : gmap nat (Server Obj X Y);
  objs : gmap nat Obj;
  calls : gmap nat (call K X Y);
}.
Arguments mkWorld {K Obj X Y _ _} _ _ _ _.
Arguments net {K Obj X Y _ _} _.
Arguments srvs {K Obj X Y _ _} _.
Arguments objs {K Obj X Y _ _} _.
Arguments calls {K Obj X Y _ _} _.

Section network.
Context {K : Type} `{Countable K}.
Implicit Types rn : Network K.

Definition MakeNetwork : Network K :=
  mkNetwork true false false ∅ ∅ ∅ ∅ 0 0 false true.

Definition Cleanup rn : Network K :=
  mkNetwork (reliable rn) (longDelays rn) (longReordering rn) (ends rn) (enabled rn) (servers rn)
    (connections rn) (count rn) (bytes rn) true (serving rn).

Definition set_flags (r d l : bool) rn : Network K :=
  mkNetwork r d l (ends rn) (enabled rn) (servers rn) (connections rn) (count rn) (bytes rn)
    (net_done rn) (serving rn).

Definition Reliable (yes : bool) rn : Network K := set_flags yes (longDelays rn) (longReordering rn) rn.
Definition LongReordering (yes : bool) rn : Network K := set_flags (reliable rn) (longDelays rn) yes rn.
Definition LongDelays (yes : bool) rn : Network K := set_flags (reliable rn) yes (longReordering rn) rn.

Definition set_ends (es : gset K) (en : gmap K bool) (conn : gmap K (option K)) rn : Network K :=
  mkNetwork (reliable rn) (longDelays rn) (longReordering rn) es en (servers rn) conn (count rn) (bytes rn)
    (net_done rn) (serving rn).

Definition set_servers (srv : gmap K (option nat)) rn : Network K :=
  mkNetwork (reliable rn) (longDelays rn) (longReordering rn) (ends rn) (enabled rn) srv
    (connections rn) (count rn) (bytes rn) (net_done rn) (serving rn).

Definition set_traffic (c b : Z) (run : bool) rn : Network K :=
  mkNetwork (reliable rn) (longDelays rn) (longReordering rn) (ends rn) (enabled rn) (servers rn)
    (connections rn) c b (net_done rn) run.

(** enabled, server name, server, reliable, long reordering *)
Definition readEndnameInfo rn (endname : K) : bool * option K * option nat * bool * bool :=
  let servername := default None (connections rn !! endname) in
  let server := match servername with Some nm => default None (servers rn !! nm) | None => None end in
  (default false (enabled rn !! endname), servername, server, reliable rn, longReordering rn).

Definition isServerDead rn (endname servername : K) (server : nat) : bool :=
  negb (default false (enabled rn !! endname)) ||
  negb (bool_decide (default None (servers rn !! servername) = Some server)).

Definition MakeEnd (endname : K) rn : outcome (Network K) :=
  if decide (endname ∈ ends rn) then Panic Fatal
  else Ret (set_ends ({[endname]} ∪ ends rn) (<[endname := false]> (enabled rn))
              (<[endname := None]> (connections rn)) rn).

Definition DeleteEnd (endname : K) rn : outcome (Network K) :=
  if decide (endname ∈ ends rn) then
    Ret (set_ends (ends rn ∖ {[endname]}) (delete endname (enabled rn)) (delete endname (connections rn)) rn)
  else Panic Fatal.

Definition AddServer (servername : K) (rs : nat) rn : Network K :=
  set_servers (<[servername := Some rs]> (servers rn)) rn.

Definition DeleteServer (servername : K) rn : Network K :=
  set_servers (<[servername := None]> (servers rn)) rn.

Definition Connect (endname servername : K) rn : Network K :=
  set_ends (ends rn) (enabled rn) (<[endname := Some servername]> (connections rn)) rn.

Definition Enable (endname : K) (yes : bool) rn : Network K :=
  set_ends (ends rn) (<[endname := yes]> (enabled rn)) (connections rn) rn.

Definition GetTotalCount rn : Z := count rn.
Definition GetTotalBytes rn : Z := bytes rn.
End network.

(** ** Dispatch *)
Section rpc.
Context {K Obj X Y : Type} `{Countable K} `{Gob X} `{Gob Y}.
(** The zero value of the argument type, if its bytes cannot be decoded. *)
Context (zeroX : X).

Abbreviation Network := (Network K).
Abbreviation Server := (Server Obj X Y).
Abbreviation World := (World K Obj X Y).
Abbreviation call := (call K X Y).

Definition MakeServer : Server := mkServer ∅ 0.

Definition AddService (svc : Service Obj X Y) (rs : Server) : Server :=
  mkServer (<[svc_name svc := svc]> (services rs)) (srv_count rs).

Definition suitable (m : Method Obj X Y) : bool :=
  negb (negb (m_exported m) || negb (m_NumIn m =? 3) || negb (m_In2_Ptr m) || negb (m_NumOut m =? 0)).

(** [name], [obj] and [ms] describe the receiver. *)
Definition MakeService (name : string) (obj : nat) (ms : list (Method Obj X Y)) : Service Obj X Y :=
  mkService name obj (foldl (λ t m, if suitable m then <[m_name m := m]> t else t) ∅ ms).

Definition service_dispatch (svc : Service Obj X Y) (methname : string) (req : reqMsg K) (heap : gmap nat Obj)
    : outcome (gmap nat Obj * replyMsg) :=
  match methods svc !! methname with
  | Some method =>
      let arg := match gob_dec (args req) 0%nat with Some (a, _) => a | None => zeroX end in
      match heap !! rcvr svc with
      | None => Panic NilDereference
      | Some o =>
          let '(o, r) := m_Func method o arg in
          Ret (<[rcvr svc := o]> heap, mkReplyMsg true (gob_enc [] r))
      end
  | None => Panic Fatal
  end.

(** [s[:dot]] and [s[dot+1:]] for [dot = strings.LastIndex(s, ".")]; [None]
    when there is no dot. *)
Fixpoint splitLastDot (s : string) : option (string * string) :=
  match s with
  | EmptyString => None
  | String c s =>
      match splitLastDot s with
      | Some (a, b) => Some (String c a, b)
      | None => if decide (c = "."%char) then Some (EmptyString, s) else None
      end
  end.

Definition server_dispatch (rs : Server) (req : reqMsg K) (heap : gmap nat Obj)
    : outcome (Server * gmap nat Obj * replyMsg) :=
  let rs := mkServer (services rs) (srv_count rs + 1) in
  match splitLastDot (svcMeth req) with
  | None => Panic SliceBounds
  | Some (serviceName, methodName) =>
      match services rs !! serviceName with
      | Some service =>
          '(heap, rep) ← service_dispatch service methodName req heap;
          Ret (rs, heap, rep)
      | None => Panic Fatal
      end
  end.

Definition GetCount (rn : Network) (heap : gmap nat Server) (servername : K) : outcome Z :=
  match default None (servers rn !! servername) with
  | None => Panic NilDereference
  | Some l => match heap !! l with Some rs => Ret (srv_count rs) | None => Panic NilDereference end
  end.

(** ** A call

    [Call] up to the sending of the request. *)
Definition Call_start (endname : K) (svcMeth : string) (arg : X) : call :=
  mkCall arg (mkReqMsg endname svcMeth (gob_enc [] arg)) PSend ENone.

Definition set_phase (p : phase K Y) (e : exec) (c : call) : call := mkCall (c_arg c) (c_req c) p e.

(** [processReq] up to the start of the handler.  [rr] is [rand.Int()]. *)
Definition processReq (rn : Network) (rr : Z) (c : call) : call :=
  let '(en, servername, server, rel, longre) := readEndnameInfo rn (endname (c_req c)) in
  match en, servername, server with
  | true, Some servername, Some server =>
      if negb rel && (rr mod 1000 <? 100) then set_phase (PReply (mkReplyMsg false []) false) (c_exec c) c
      else set_phase (PWait servername server rel longre) (ERunning server) c
  | _, _, _ => set_phase (PReply (mkReplyMsg false []) false) (c_exec c) c
  end.

(** The two cases of the [select]: the handler has returned; 100 ms have
    passed. *)
Definition waitRecv (c : call) : call :=
  match c_phase c, c_exec c with
  | PWait nm srv rel longre, ERan rep => set_phase (PWaited (Some rep) nm srv rel longre) (c_exec c) c
  | _, _ => c
  end.

Definition waitPoll (rn : Network) (c : call) : call :=
  match c_phase c with
  | PWait nm srv rel longre =>
      if isServerDead rn (endname (c_req c)) nm srv
      then set_phase (PWaited None nm srv rel longre) (c_exec c) c else c
  | _ => c
  end.

(** The rest of [processReq]; [rr] and [rr2] are the random numbers. *)
Definition afterWait (rn : Network) (rr rr2 : Z) (c : call) : call :=
  match c_phase c with
  | PWaited rep nm srv rel longre =>
      let serverDead := isServerDead rn (endname (c_req c)) nm srv in
      match rep with
      | None => set_phase (PReply (mkReplyMsg false []) false) (c_exec c) c
      | Some rep =>
          if serverDead then set_phase (PReply (mkReplyMsg false []) false) (c_exec c) c
          else if negb rel && (rr mod 1000 <? 100) then
            set_phase (PReply (mkReplyMsg false []) false) (c_exec c) c
          else if longre && (rr2 mod 900 <? 600) then set_phase (PReply rep true) (c_exec c) c
          else set_phase (PReply rep true) (c_exec c) c
      end
  | _ => c
  end.

(** [Call] once it has received the reply. *)
Definition Call_finish (rep : replyMsg) (c : call) : outcome call :=
  if ok rep then
    match gob_dec (reply rep) 0%nat with
    | Some (r, _) => Ret (set_phase (PDone (Some r)) (c_exec c) c)
    | None => Panic Fatal
    end
  else Ret (set_phase (PDone None) (c_exec c) c).

(** ** Events *)

Inductive event :=
  | EvObject (l : nat) (o : Obj)
  | EvServer (l : nat) (svcs : list (string * nat * list (Method Obj X Y)))
  | EvMakeEnd (endname : K)
  | EvDeleteEnd (endname : K)
  | EvAddServer (servername : K) (l : nat)
  | EvDeleteServer (servername : K)
  | EvConnect (endname servername : K)
  | EvEnable (endname : K) (yes : bool)
  | EvReliable (yes : bool)
  | EvLongReordering (yes : bool)
  | EvLongDelays (yes : bool)
  | EvCleanup
  | EvServingEnds
  | EvCall (id : nat) (endname : K) (svcMeth : string) (arg : X)
  | EvSend (id : nat)
  | EvCancel (id : nat)
  | EvProcess (id : nat) (rr : Z)
  | EvExec (id : nat)
  | EvRecv (id : nat)
  | EvPoll (id : nat)
  | EvAfter (id : nat) (rr rr2 : Z)
  | EvReply (id : nat).

Definition set_net (rn : Network) (w : World) : World := mkWorld rn (srvs w) (objs w) (calls w).
Definition set_call (id : nat) (c : call) (w : World) : World :=
  mkWorld (net w) (srvs w) (objs w) (<[id := c]> (calls w)).

Definition new_server (svcs : list (string * nat * list (Method Obj X Y))) : Server :=
  foldl (λ rs '(name, obj, ms), AddService (MakeService name obj ms) rs) MakeServer svcs.

(** A step of call [id] in its phase [p]; other phases do not move. *)
Definition on_call (w : World) (id : nat) (f : call → outcome World) : outcome World :=
  match calls w !! id with Some c => f c | None => Ret w end.

Definition step (ev : event) (w : World) : outcome World :=
  match ev with
  | EvObject l o =>
      match objs w !! l with
      | Some _ => Ret w
      | None => Ret (mkWorld (net w) (srvs w) (<[l := o]> (objs w)) (calls w))
      end
  | EvServer l svcs =>
      match srvs w !! l with
      | Some _ => Ret w
      | None => Ret (mkWorld (net w) (<[l := new_server svcs]> (srvs w)) (objs w) (calls w))
      end
  | EvMakeEnd e => rn ← MakeEnd e (net w); Ret (set_net rn w)
  | EvDeleteEnd e => rn ← DeleteEnd e (net w); Ret (set_net rn w)
  | EvAddServer nm l => Ret (set_net (AddServer nm l (net w)) w)
  | EvDeleteServer nm => Ret (set_net (DeleteServer nm (net w)) w)
  | EvConnect e nm => Ret (set_net (Connect e nm (net w)) w)
  | EvEnable e yes => Ret (set_net (Enable e yes (net w)) w)
  | EvReliable yes => Ret (set_net (Reliable yes (net w)) w)
  | EvLongReordering yes => Ret (set_net (LongReordering yes (net w)) w)
  | EvLongDelays yes => Ret (set_net (LongDelays yes (net w)) w)
  | EvCleanup => Ret (set_net (Cleanup (net w)) w)
  | EvServingEnds =>
      if net_done (net w) then Ret (set_net (set_traffic (count (net w)) (bytes (net w)) false (net w)) w)
      else Ret w
  | EvCall id e m a =>
      match calls w !! id with
      | Some _ => Ret w
      | None => Ret (set_call id (Call_start e m a) w)
      end
  | EvSend id => on_call w id (λ c,
      match c_phase c with
      | PSend =>
          if serving (net w) then
            let rn := set_traffic (int32 (count (net w) + 1)) (int64 (bytes (net w) + zlen (args (c_req c)))) true (net w) in
            Ret (set_call id (set_phase PArrived (c_exec c) c) (set_net rn w))
          else Ret w
      | _ => Ret w
      end)
  | EvCancel id => on_call w id (λ c,
      match c_phase c with
      | PSend => if net_done (net w) then Ret (set_call id (set_phase (PDone None) (c_exec c) c) w) else Ret w
      | _ => Ret w
      end)
  | EvProcess id rr => on_call w id (λ c,
      match c_phase c with
      | PArrived => Ret (set_call id (processReq (net w) rr c) w)
      | _ => Ret w
      end)
  | EvExec id => on_call w id (λ c,
      match c_exec c with
      | ERunning l =>
          match srvs w !! l with
          | None => Panic NilDereference
          | Some rs =>
              '(rs, heap, rep) ← server_dispatch rs (c_req c) (objs w);
              Ret (mkWorld (net w) (<[l := rs]> (srvs w)) heap (<[id := set_phase (c_phase c) (ERan rep) c]> (calls w)))
          end
      | _ => Ret w
      end)
  | EvRecv id => on_call w id (λ c, Ret (set_call id (waitRecv c) w))
  | EvPoll id => on_call w id (λ c, Ret (set_call id (waitPoll (net w) c) w))
  | EvAfter id rr rr2 => on_call w id (λ c, Ret (set_call id (afterWait (net w) rr rr2 c) w))
  | EvReply id => on_call w id (λ c,
      match c_phase c with
      | PReply rep counted =>
          c' ← Call_finish rep c;
          let b := if counted then int64 (bytes (net w) + zlen (reply rep)) else bytes (net w) in
          Ret (set_call id c' (set_net (set_traffic (count (net w)) b (serving (net w)) (net w)) w))
      | _ => Ret w
      end)
  end.

Fixpoint run (evs : list event) (w : World) : outcome World :=
  match evs with
  | [] => Ret w
  | ev :: evs => w ← step ev w; run evs w
  end.

Definition init : World := mkWorld MakeNetwork ∅ ∅ ∅.
End rpc.
