(* ===== verification/LabrpcProps.v ===== *)
(** * The simulated network: what a call promises

[Spec] is the network as its users see it: the harness enables and connects
    ends and registers servers with services; a call may be sent, once, to the
    server its end leads to, and executed there, once, by the handler its name
    stands for; it returns [true] only with the reply of its execution; it may
    return [false] at any time.  What is seen of a schedule of Labrpc.v is seen of
    a run of [Spec] ([labrpc_refines]).  Further: a call can always return, a
    reliable network does not fail calls, and a server that was deleted does
    not answer. *)

From Stdlib Require Import Strings.Byte Ascii String.
From stdpp Require Import prelude gmap strings list.
From S2P Require Import Prelude Gob Labrpc.
Local Open Scope Z_scope.

Section props.
Context {K Obj X Y : Type} `{Countable K} `{GobLaws X} `{GobLaws Y}.
Context (zeroX : X).

Abbreviation World := (World K Obj X Y).
Abbreviation call := (call K X Y).
Abbreviation event := (@event K Obj X Y).
Abbreviation step := (@step K Obj X Y _ _ _ _ zeroX).
Abbreviation run := (@run K Obj X Y _ _ _ _ zeroX).
Implicit Types (w : World) (c : call) (ev : event).

(** ** Moves of a call *)

(** What the code of a call does between two waits, the handler apart. *)
Inductive call_move (rn : Network K) : call → call → Prop :=
  | mv_stay c : call_move rn c c
  | mv_send c : c_phase c = PSend → call_move rn c (set_phase PArrived (c_exec c) c)
  | mv_cancel c : c_phase c = PSend → net_done rn = true → call_move rn c (set_phase (PDone None) (c_exec c) c)
  | mv_process c rr : c_phase c = PArrived → call_move rn c (processReq rn rr c)
  | mv_recv c : call_move rn c (waitRecv c)
  | mv_poll c : call_move rn c (waitPoll rn c)
  | mv_after c rr rr2 : call_move rn c (afterWait rn rr rr2 c)
  | mv_reply c rep b c' : c_phase c = PReply rep b → Call_finish rep c = Ret c' → call_move rn c c'.

(** Traffic counters apart, nothing has changed. *)
Definition quiet (rn rn' : Network K) : Prop :=
  ∃ n b run, rn' = set_traffic n b run rn.

Lemma quiet_refl rn : quiet rn rn.
Proof. exists (count rn), (bytes rn), (serving rn). by destruct rn. Qed.

(** The handler of call [c] runs on the server at [l]. *)
Definition call_exec w (id : nat) c (l : nat) w' : Prop :=
  ∃ rs rs' heap rep, c_exec c = ERunning l ∧ srvs w !! l = Some rs ∧
    server_dispatch zeroX rs (c_req c) (objs w) = Ret (rs', heap, rep) ∧
    w' = mkWorld (net w) (<[l := rs']> (srvs w)) heap (<[id := set_phase (c_phase c) (ERan rep) c]> (calls w)).

(** The events of calls; all others are of the test harness. *)
Definition of_call ev : bool :=
  match ev with
  | EvCall _ _ _ _ | EvSend _ | EvCancel _ | EvProcess _ _ | EvExec _ | EvRecv _ | EvPoll _ | EvAfter _ _ _ | EvReply _ => true
  | _ => false
  end.

Lemma step_cases ev w w' :
  step ev w = Ret w' →
  (of_call ev = false ∧ calls w' = calls w) ∨
  (quiet (net w) (net w') ∧ srvs w' = srvs w ∧ objs w' = objs w ∧
     ((∃ id e m a, calls w !! id = None ∧ calls w' = <[id := Call_start e m a]> (calls w)) ∨
      (∃ id c c', calls w !! id = Some c ∧ call_move (net w) c c' ∧ calls w' = <[id := c']> (calls w)) ∨
      calls w' = calls w)) ∨
  (∃ id c l, calls w !! id = Some c ∧ call_exec w id c l w').
Proof.
  intros Hs. destruct ev; simpl in Hs; try (left; split; [done|]; go_inv; by repeat case_match; simplify_eq).
  1: { right; left. destruct (calls w !! id) eqn:Hc; simplify_eq/=;
         (split_and!; [apply quiet_refl|done|done|]); [by right; right|]. left. by eexists _, _, _, _. }
  all: unfold on_call in Hs; destruct (calls w !! id) as [c|] eqn:Hc;
    [|right; left; simplify_eq; split_and!; [apply quiet_refl|done|done|by right; right]].
  3: { destruct (c_phase c) eqn:Hp; simplify_eq/=; right; left; (split_and!; [apply quiet_refl|done|done|]); try by right; right.
       right; left. eexists id, c, _. by split_and!; [|apply mv_process|]. }
  3: { destruct (c_exec c) as [|l|] eqn:He; simplify_eq;
         try (right; left; split_and!; [apply quiet_refl|done|done|by right; right]).
       destruct (srvs w !! l) as [rs|] eqn:Hl; [|done]. apply bind_Ret_inv in Hs as ([[rs' heap] rep] & Hd & [= <-]).
       right; right. exists id, c, l. split; [done|]. by exists rs, rs', heap, rep. }
  3,4,5: simplify_eq; right; left; (split_and!; [apply quiet_refl|done|done|]); right; left;
    eexists id, c, _; (split_and!; [done| |reflexivity]); first [apply mv_recv|apply mv_poll|apply mv_after].
  all: destruct (c_phase c) eqn:Hp; simplify_eq/=;
    try (right; left; split_and!; [apply quiet_refl|done|done|by right; right]).
  - destruct (serving (net w)); simplify_eq/=; right; left.
    + split_and!; [by eexists _, _, _|done|done|]. right; left. eexists id, c, _. by split_and!; [|apply mv_send|].
    + split_and!; [apply quiet_refl|done|done|by right; right].
  - destruct (net_done (net w)) eqn:Hd; simplify_eq/=; right; left; (split_and!; [apply quiet_refl|done|done|]).
    + right; left. eexists id, c, _. by split_and!; [|apply mv_cancel|].
    + by right; right.
  - apply bind_Ret_inv in Hs as (c' & Hf & [= <-]). right; left. split_and!; [by eexists _, _, _|done|done|].
    right; left. eexists id, c, c'. split_and!; [done|by eapply mv_reply|done].
Qed.

(** ** The invariant *)

(** A positive reply is the encoded reply of the handler that ran. *)
Definition genuine (e : exec) (rep : replyMsg) : Prop := ok rep = true → e = ERan rep.

Record call_ok c : Prop := {
  ck_args : args (c_req c) = gob_enc [] (c_arg c);
  ck_exec rep : c_exec c = ERan rep → ∃ y : Y, rep = mkReplyMsg true (gob_enc [] y);
  ck_fresh : (c_phase c = PSend ∨ c_phase c = PArrived) → c_exec c = ENone;
  ck_wait nm l rel longre : c_phase c = PWait nm l rel longre → c_exec c = ERunning l ∨ ∃ rep, c_exec c = ERan rep;
  ck_waited rep nm l rel longre : c_phase c = PWaited (Some rep) nm l rel longre → c_exec c = ERan rep;
  ck_reply rep b : c_phase c = PReply rep b → genuine (c_exec c) rep;
  ck_done y : c_phase c = PDone (Some y) → c_exec c = ERan (mkReplyMsg true (gob_enc [] y));
}.

Record world_ok w : Prop := {
  wk_calls id c : calls w !! id = Some c → call_ok c;
}.

(** Dispatch answers with an encoded result. *)
Lemma server_dispatch_reply (rs rs' : Server Obj X Y) c heap heap' rep :
  server_dispatch zeroX rs (c_req c) heap = Ret (rs', heap', rep) → ∃ y : Y, rep = mkReplyMsg true (gob_enc [] y).
Proof.
  unfold server_dispatch. destruct (splitLastDot _) as [[sn mn]|]; [|done]. simpl.
  destruct (services rs !! sn) as [svc|]; [|done]. unfold service_dispatch.
  destruct (methods svc !! mn) as [m|]; [|done]. destruct (heap !! rcvr svc) as [o|]; [|done].
  destruct (m_Func m o _) as [o' y]. intros [= _ _ <-]. by exists y.
Qed.

Lemma Call_finish_ok c rep b c' :
  call_ok c → c_phase c = PReply rep b → Call_finish rep c = Ret c' →
  (∃ y, c_exec c = ERan (mkReplyMsg true (gob_enc [] y)) ∧ c' = set_phase (PDone (Some y)) (c_exec c) c) ∨
  (ok rep = false ∧ c' = set_phase (PDone None) (c_exec c) c).
Proof.
  intros Hc Hp. unfold Call_finish. destruct (ok rep) eqn:Hok; [|intros [= <-]; by right].
  pose proof (ck_reply _ Hc _ _ Hp Hok) as He. destruct (ck_exec _ Hc _ He) as [y ->]. simpl.
  rewrite (gob_dec_enc_self [] y). intros [= <-]. left. by exists y.
Qed.

Lemma processReq_cases rn rr c :
  (∃ l nm rel longre, processReq rn rr c = set_phase (PWait nm l rel longre) (ERunning l) c ∧
     readEndnameInfo rn (endname (c_req c)) = (true, Some nm, Some l, rel, longre)) ∨
  (processReq rn rr c = set_phase (PReply (mkReplyMsg false []) false) (c_exec c) c ∧
     ∀ nm l longre, readEndnameInfo rn (endname (c_req c)) ≠ (true, Some nm, Some l, true, longre)).
Proof.
  unfold processReq. destruct (readEndnameInfo _ _) as [[[[en sn] srv] rel] longre].
  destruct en, sn as [nm|], srv as [l|]; try (right; split; [done|congruence]).
  destruct rel; simpl; [left; by eexists _, _, _, _|]. destruct (rr mod 1000 <? 100); [right; split; [done|congruence]|].
  left. by eexists _, _, _, _.
Qed.

Lemma call_move_ok rn c c' : call_ok c → call_move rn c c' → call_ok c'.
Proof.
  intros Hc Hm. destruct Hm as [c|c Hp|c Hp|c rr Hp|c|c|c rr rr2|c rep b c' Hp Hf]; [done| | | | | | |].
  - destruct Hc. split; simpl; try done. auto.
  - destruct Hc. split; simpl; try done. by intros [].
  - destruct (processReq_cases rn rr c) as [(l & nm & rel & longre & -> & _)|[-> _]]; destruct Hc; split; simpl; try done;
      try by intros [].
    + intros ? ? ? ? [= _ <- _ _]. by left.
    + intros rep b [= <- <-]. by intros ?.
  - unfold waitRecv. destruct (c_phase c) eqn:Hp; try done. destruct (c_exec c) eqn:He; try done.
    rewrite <-He. destruct Hc. split; simpl; try done; try by intros []. by intros ? ? ? ? ? [= <- _ _ _ _].
  - unfold waitPoll. destruct (c_phase c) eqn:Hp; try done. destruct (isServerDead _ _ _ _); [|done].
    destruct Hc. split; simpl; try done; try by intros [].
  - unfold afterWait. destruct (c_phase c) eqn:Hp; try done. destruct rep as [rep|].
    + pose proof (ck_waited _ Hc _ _ _ _ _ Hp) as He.
      repeat case_match; destruct Hc; split; simpl; try done; try by intros [].
      all: intros ? ? [= <- <-]; unfold genuine; simpl; congruence.
    + destruct Hc. split; simpl; try done; try by intros []. by intros ? ? [= <- <-].
  - destruct (Call_finish_ok _ _ _ _ Hc Hp Hf) as [(y & He & ->)|[_ ->]]; destruct Hc; split; simpl; try done; try by intros [].
    by intros ? [= <-].
Qed.

Lemma call_exec_ok w id c l w' :
  world_ok w → calls w !! id = Some c → call_exec w id c l w' → world_ok w'.
Proof.
  intros [Hcalls] Hc (rs & rs' & heap & rep & He & Hl & Hd & ->). pose proof (Hcalls _ _ Hc) as Hok.
  destruct (server_dispatch_reply _ _ _ _ _ _ Hd) as [y ->]. split; simpl.
  intros id' c' [[<- <-]|[_ ?]]%lookup_insert_Some; [|by eapply Hcalls].
  destruct Hok as [Ha Hex Hfr Hw Hwt Hrp Hdn]. split; simpl; try done.
  - intros ? [= <-]. by exists y.
  - intros Hp. by rewrite (Hfr Hp) in He.
  - intros. right. by eexists.
  - intros ? ? ? ? ? Hp. by rewrite (Hwt _ _ _ _ _ Hp) in He.
  - intros ? ? Hp Ht. by rewrite (Hrp _ _ Hp Ht) in He.
  - intros ? Hp. by rewrite (Hdn _ Hp) in He.
Qed.

Lemma Call_start_ok e m a : call_ok (Call_start e m a).
Proof. by split. Qed.

Lemma step_ok ev w w' : world_ok w → step ev w = Ret w' → world_ok w'.
Proof.
  intros Hw Hs. destruct (step_cases _ _ _ Hs) as [[Hev Hsame]|[(_ & Hsv & _ & Hcs)|(id & c & l & Hc & Hex)]].
  - split. intros id c. rewrite Hsame. apply Hw.
  - split. intros id c.
    destruct Hcs as [(id' & e & m & a & _ & ->)|[(id' & c1 & c2 & Hc1 & Hmv & ->)| ->]]; [| |apply Hw].
    + intros [[<- <-]|[_ ?]]%lookup_insert_Some; [apply Call_start_ok|by eapply Hw].
    + intros [[<- <-]|[_ ?]]%lookup_insert_Some; [eapply call_move_ok; [by eapply Hw|done]|by eapply Hw].
  - by eapply call_exec_ok.
Qed.

Lemma world_run_ok evs w w' : world_ok w → run evs w = Ret w' → world_ok w'.
Proof.
  revert w. induction evs as [|ev evs IH]; intros w Hw; simpl; [by intros [= <-]|].
  intros (w1 & Hs & Hr)%bind_Ret_inv. by eapply IH, Hr; eapply step_ok.
Qed.

Lemma init_ok : world_ok init.
Proof. split. intros ? ?. simpl. by rewrite lookup_empty. Qed.

(** ** The specification

    What a call may do depends only on what the harness did and on the call:
    which ends are enabled and connected, which servers are registered under
    which names, the services each server was made with. *)

(** [x] is the last element of [l] with [P]. *)
Definition last_such {A} (P : A → Prop) (l : list A) (x : A) : Prop :=
  ∃ l1 l2, l = l1 ++ x :: l2 ∧ P x ∧ Forall (λ y, ¬ P y) l2.

(** The services of a server, as given: name, receiver, methods. *)
Abbreviation registration := (list (string * nat * list (Method Obj X Y))).

(** Exported, a receiver and two arguments, a pointer for the reply, no result. *)
Definition handler_shape (m : Method Obj X Y) : Prop :=
  m_exported m = true ∧ m_NumIn m = 3 ∧ m_In2_Ptr m = true ∧ m_NumOut m = 0.

(** The handler of the calls of [name]: the last suitable method with the name
    after the last dot, of the last service with the name before it. *)
Definition handler (svcs : registration) (name : string) (r : nat) (m : Method Obj X Y) : Prop :=
  ∃ sn mn ms, name = sn +:+ "." +:+ mn ∧ "."%char ∉ list_ascii_of_string mn ∧
    last_such (λ s, s.1.1 = sn) svcs (sn, r, ms) ∧
    last_such (λ m, m_name m = mn ∧ handler_shape m) ms m.

(** A call: the end it was made at, its method and argument; the name and the
    server it was sent to; the result of its execution; is the answer on its
    way; what [Call] returned. *)
Record acall := mkACall {
  a_end : K;
  a_meth : string;
  a_arg : X;
  a_dest : option (K * nat);
  a_exec : option Y;
  a_sent : bool;
  a_ret : option (option Y);
}.

Record Spec := mkSpec {
  a_objs : gmap nat Obj;
  a_srvs : gmap nat registration;
  a_enabled : gset K;
  a_conn : gmap K K;
  a_names : gmap K nat;
  a_calls : gmap nat acall;
}.

Definition spec_init : Spec := mkSpec ∅ ∅ ∅ ∅ ∅ ∅.

Definition set_routes (en : gset K) (conn : gmap K K) (names : gmap K nat) (s : Spec) : Spec :=
  mkSpec (a_objs s) (a_srvs s) en conn names (a_calls s).
Definition set_acall (id : nat) (c : acall) (s : Spec) : Spec :=
  mkSpec (a_objs s) (a_srvs s) (a_enabled s) (a_conn s) (a_names s) (<[id := c]> (a_calls s)).

(** What the harness does. *)
Definition spec_do (ev : event) (s : Spec) : Spec :=
  match ev with
  | EvObject l o =>
      match a_objs s !! l with
      | Some _ => s
      | None => mkSpec (<[l := o]> (a_objs s)) (a_srvs s) (a_enabled s) (a_conn s) (a_names s) (a_calls s)
      end
  | EvServer l svcs =>
      match a_srvs s !! l with
      | Some _ => s
      | None => mkSpec (a_objs s) (<[l := svcs]> (a_srvs s)) (a_enabled s) (a_conn s) (a_names s) (a_calls s)
      end
  | EvMakeEnd e | EvDeleteEnd e => set_routes (a_enabled s ∖ {[e]}) (delete e (a_conn s)) (a_names s) s
  | EvAddServer nm l => set_routes (a_enabled s) (a_conn s) (<[nm := l]> (a_names s)) s
  | EvDeleteServer nm => set_routes (a_enabled s) (a_conn s) (delete nm (a_names s)) s
  | EvConnect e nm => set_routes (a_enabled s) (<[e := nm]> (a_conn s)) (a_names s) s
  | EvEnable e yes =>
      set_routes (if yes then {[e]} ∪ a_enabled s else a_enabled s ∖ {[e]}) (a_conn s) (a_names s) s
  | _ => s
  end.

(** What is seen of a run: what the harness does, the calls, their returns. *)
Inductive label :=
  | Harness (ev : event)
  | Called (id : nat) (e : K) (m : string) (a : X)
  | Returned (id : nat) (res : option Y).

Inductive spec_step : option label → Spec → Spec → Prop :=
  | spec_harness s ev : of_call ev = false → spec_step (Some (Harness ev)) s (spec_do ev s)
  | spec_call s id e m a :
      a_calls s !! id = None →
      spec_step (Some (Called id e m a)) s (set_acall id (mkACall e m a None None false None) s)
  (** The call is sent, once, to the server its end leads to. *)
  | spec_route s id e m a nm l :
      a_calls s !! id = Some (mkACall e m a None None false None) →
      e ∈ a_enabled s → a_conn s !! e = Some nm → a_names s !! nm = Some l →
      spec_step None s (set_acall id (mkACall e m a (Some (nm, l)) None false None) s)
  (** The handler of that server runs, at most once, maybe after the return. *)
  | spec_exec s id e m a nm l sent ret svcs r f o o' y :
      a_calls s !! id = Some (mkACall e m a (Some (nm, l)) None sent ret) →
      a_srvs s !! l = Some svcs → handler svcs m r f →
      a_objs s !! r = Some o → m_Func f o a = (o', y) →
      spec_step None s (set_acall id (mkACall e m a (Some (nm, l)) (Some y) sent ret)
        (mkSpec (<[r := o']> (a_objs s)) (a_srvs s) (a_enabled s) (a_conn s) (a_names s) (a_calls s)))
  (** Its answer is sent, if the server is still registered then and the end
      still enabled. *)
  | spec_answer s id e m a nm l y :
      a_calls s !! id = Some (mkACall e m a (Some (nm, l)) (Some y) false None) →
      e ∈ a_enabled s → a_names s !! nm = Some l →
      spec_step None s (set_acall id (mkACall e m a (Some (nm, l)) (Some y) true None) s)
  (** [Call] returns [true] with the answer. *)
  | spec_return s id e m a d y :
      a_calls s !! id = Some (mkACall e m a d (Some y) true None) →
      spec_step (Some (Returned id (Some y))) s (set_acall id (mkACall e m a d (Some y) true (Some (Some y))) s)
  (** [Call] returns [false]; the handler may have run, run later, or never. *)
  | spec_fail s id e m a d ex :
      a_calls s !! id = Some (mkACall e m a d ex false None) →
      spec_step (Some (Returned id None)) s (set_acall id (mkACall e m a d ex false (Some None)) s).

Inductive spec_run : Spec → list label → Spec → Prop :=
  | spec_end s : spec_run s [] s
  | spec_internal s s1 ls s' : spec_step None s s1 → spec_run s1 ls s' → spec_run s ls s'
  | spec_visible s l s1 ls s' : spec_step (Some l) s s1 → spec_run s1 ls s' → spec_run s (l :: ls) s'.

Lemma spec_run_app s ls1 s1 ls2 s2 : spec_run s ls1 s1 → spec_run s1 ls2 s2 → spec_run s (ls1 ++ ls2) s2.
Proof.
  induction 1 as [s|s s' ls s1 Hst _ IH|s l s' ls s1 Hst _ IH]; intros Hr; simpl; [done| |].
  - eapply spec_internal; [exact Hst|by apply IH].
  - eapply spec_visible; [exact Hst|by apply IH].
Qed.

Lemma spec_run_step l s s1 : spec_step (Some l) s s1 → spec_run s [l] s1.
Proof. intros. eapply spec_visible; [done|]. apply spec_end. Qed.
Lemma spec_run_tau s s1 : spec_step None s s1 → spec_run s [] s1.
Proof. intros. eapply spec_internal; [done|]. apply spec_end. Qed.

(** What is seen of an event of the code. *)
Definition observed (ev : event) w w' : list label :=
  match ev with
  | EvCall id e m a => match calls w !! id with None => [Called id e m a] | Some _ => [] end
  | EvReply id | EvCancel id =>
      match c_phase <$> calls w !! id, c_phase <$> calls w' !! id with
      | Some (PDone _), _ => []
      | _, Some (PDone res) => [Returned id res]
      | _, _ => []
      end
  | EvSend _ | EvProcess _ _ | EvExec _ | EvRecv _ | EvPoll _ | EvAfter _ _ _ => []
  | _ => [Harness ev]
  end.

Fixpoint observation (evs : list event) w : list label :=
  match evs with
  | [] => []
  | ev :: evs => match step ev w with Ret w' => observed ev w w' ++ observation evs w' | _ => [] end
  end.

(** *** The simulation *)

(** What the specification keeps of a call. *)
Record shows c (ac : acall) : Prop := {
  sh_end : a_end ac = endname (c_req c);
  sh_meth : a_meth ac = svcMeth (c_req c);
  sh_arg : a_arg ac = c_arg c;
  sh_exec : match c_exec c with
            | ENone => a_dest ac = None ∧ a_exec ac = None
            | ERunning l => (∃ nm, a_dest ac = Some (nm, l)) ∧ a_exec ac = None
            | ERan rep => is_Some (a_dest ac) ∧ ∃ y, rep = mkReplyMsg true (gob_enc [] y) ∧ a_exec ac = Some y
            end;
  sh_wait : match c_phase c with
            | PWait nm l _ _ | PWaited _ nm l _ _ => a_dest ac = Some (nm, l)
            | _ => True
            end;
  sh_sent : a_sent ac = match c_phase c with PReply rep _ => ok rep | PDone (Some _) => true | _ => false end;
  sh_ret : a_ret ac = match c_phase c with PDone res => Some res | _ => None end;
}.

Record routes (rn : Network K) (s : Spec) : Prop := {
  ro_enabled e : e ∈ a_enabled s ↔ enabled rn !! e = Some true;
  ro_conn e : a_conn s !! e = mjoin (connections rn !! e);
  ro_names nm : a_names s !! nm = mjoin (servers rn !! nm);
}.

Record sim w (s : Spec) : Prop := {
  sim_objs : a_objs s = objs w;
  sim_srvs l : option_Forall2 (λ rs svcs, services rs = services (new_server svcs)) (srvs w !! l) (a_srvs s !! l);
  sim_routes : routes (net w) s;
  sim_calls id : option_Forall2 shows (calls w !! id) (a_calls s !! id);
}.

(** *** Dispatch *)

(** A table filled by inserting [v x] under [k x] for every [x] with [p x]
    holds the last one. *)
Lemma foldl_insert_last {A B} (p : A → bool) (k : A → string) (v : A → B) (l : list A) key b :
  foldl (λ t x, if p x then <[k x := v x]> t else t) (∅ : gmap string B) l !! key = Some b →
  ∃ x, last_such (λ x, k x = key ∧ p x = true) l x ∧ b = v x.
Proof.
  induction l as [|x l IH] using rev_ind; simpl; [by rewrite lookup_empty|]. rewrite foldl_app. simpl.
  assert (∀ y, ¬ (k x = key ∧ p x = true) → last_such (λ x, k x = key ∧ p x = true) l y →
    last_such (λ x, k x = key ∧ p x = true) (l ++ [x]) y) as Hmore.
  { intros y Hx (l1 & l2 & -> & Hy & Hl2). exists l1, (l2 ++ [x]). rewrite <-app_assoc. split_and!; [done|apply Hy|apply Hy|].
    apply Forall_app. by split; [|constructor]. }
  destruct (p x) eqn:Hp.
  - intros [[<- <-]|[Hne Hl]]%lookup_insert_Some.
    + exists x. split; [|done]. exists l, []. by split_and!.
    + destruct (IH Hl) as (y & Hy & ->). exists y. split; [|done]. apply Hmore; [|done]. by intros [? _].
  - intros Hl. destruct (IH Hl) as (y & Hy & ->). exists y. split; [|done]. apply Hmore; [|done]. by intros [_ ?].
Qed.

Lemma last_such_iff {A} (P Q : A → Prop) l x : (∀ y, P y ↔ Q y) → last_such P l x → last_such Q l x.
Proof.
  intros Hpq (l1 & l2 & -> & Hx & Hl2). exists l1, l2. split_and!; [done|by apply Hpq|].
  eapply Forall_impl; [exact Hl2|]. intros y Hy Hq. by apply Hy, Hpq.
Qed.

Lemma suitable_iff m : suitable m = true ↔ handler_shape m.
Proof. unfold suitable, handler_shape. rewrite negb_true_iff, !orb_false_iff, !negb_false_iff, !Z.eqb_eq. tauto. Qed.

Lemma MakeService_method name r ms mn m :
  methods (MakeService name r ms) !! mn = Some m → last_such (λ m : Method Obj X Y, m_name m = mn ∧ handler_shape m) ms m.
Proof.
  unfold MakeService. simpl. intros (x & Hx & ->)%(foldl_insert_last suitable m_name id).
  eapply last_such_iff; [|exact Hx]. intros y. simpl. by rewrite suitable_iff.
Qed.

Lemma new_server_service (svcs : registration) sn svc :
  services (new_server svcs) !! sn = Some svc →
  ∃ r ms, last_such (λ s, s.1.1 = sn) svcs (sn, r, ms) ∧ svc = MakeService sn r ms.
Proof.
  assert (services (new_server svcs) =
    foldl (λ t s, if (λ _, true) s then <[s.1.1 := MakeService s.1.1 s.1.2 s.2]> t else t) ∅ svcs) as ->.
  { unfold new_server. change ∅ with (services (@MakeServer Obj X Y)). generalize (@MakeServer Obj X Y).
    induction svcs as [|[[name r] ms] svcs IH]; intros rs; simpl; [done|]. by rewrite IH. }
  intros ([[nm r] ms] & (l1 & l2 & -> & [Hnm _] & Hl2) & ->)%(foldl_insert_last (λ _, true) (λ s, s.1.1)
    (λ s, MakeService s.1.1 s.1.2 s.2)). simpl in Hnm. subst nm. exists r, ms.
  split; [|done]. exists l1, l2. split_and!; [done|done|]. eapply Forall_impl; [exact Hl2|]. simpl. tauto.
Qed.

Lemma splitLastDot_Some s a b :
  splitLastDot s = Some (a, b) → s = a +:+ "." +:+ b ∧ "."%char ∉ list_ascii_of_string b.
Proof.
  assert (∀ s, splitLastDot s = None → "."%char ∉ list_ascii_of_string s) as Hnone.
  { clear. induction s as [|ch s IH]; simpl; [by intros _ ?%not_elem_of_nil|]. destruct (splitLastDot s) as [[]|]; [done|].
    case_decide; [done|]. intros _ [?|?]%elem_of_cons; [congruence|by apply IH]. }
  revert a. induction s as [|ch s IH]; intros a; simpl; [done|]. destruct (splitLastDot s) as [[a' b']|] eqn:Hs.
  - intros [= <- <-]. destruct (IH a' eq_refl) as [-> ?]. done.
  - case_decide; [|done]. intros [= <- <-]. subst. split; [done|by apply Hnone].
Qed.

Lemma server_dispatch_handler (rs rs' : Server Obj X Y) c heap heap' rep svcs :
  services rs = services (new_server svcs) → server_dispatch zeroX rs (c_req c) heap = Ret (rs', heap', rep) →
  args (c_req c) = gob_enc [] (c_arg c) →
  ∃ r f o o' y, handler svcs (svcMeth (c_req c)) r f ∧ heap !! r = Some o ∧ m_Func f o (c_arg c) = (o', y) ∧
    heap' = <[r := o']> heap ∧ rep = mkReplyMsg true (gob_enc [] y) ∧ services rs' = services rs.
Proof.
  intros Hrs Hd Ha. unfold server_dispatch in Hd. destruct (splitLastDot _) as [[sn mn]|] eqn:Hdot; [|done]. simpl in Hd.
  apply splitLastDot_Some in Hdot as [Hname Hnodot].
  destruct (services rs !! sn) as [svc|] eqn:Hsvc; [|done]. rewrite Hrs in Hsvc.
  destruct (new_server_service _ _ _ Hsvc) as (r & ms & Hlast & ->). unfold service_dispatch in Hd.
  destruct (methods _ !! mn) as [f|] eqn:Hf; [|done]. simpl in Hd. destruct (heap !! r) as [o|] eqn:Ho; [|done].
  rewrite Ha, gob_dec_enc_self in Hd. destruct (m_Func f o (c_arg c)) as [o' y] eqn:Hy. injection Hd as <- <- <-.
  exists r, f, o, o', y. split_and!; try done. exists sn, mn, ms. split_and!; [done|done|done|by eapply MakeService_method].
Qed.

(** *** Every step is simulated *)

Lemma sim_init : sim init spec_init.
Proof.
  split; simpl; [done|intros l; rewrite !lookup_empty; constructor| |intros id; rewrite !lookup_empty; constructor].
  split; simpl; intros; rewrite ?lookup_empty; done.
Qed.

(** The harness's changes of the tables. *)
Lemma sim_net w s rn en conn names :
  sim w s → routes rn (set_routes en conn names s) → sim (set_net rn w) (set_routes en conn names s).
Proof. intros [] Hr. by split. Qed.

Lemma routes_ext rn rn' s :
  enabled rn' = enabled rn → connections rn' = connections rn → servers rn' = servers rn → routes rn s → routes rn' s.
Proof. intros E1 E2 E3 []. split; by rewrite ?E1, ?E2, ?E3. Qed.

Lemma sim_same_routes w s rn :
  sim w s → enabled rn = enabled (net w) → connections rn = connections (net w) → servers rn = servers (net w) →
  sim (set_net rn w) s.
Proof. intros [] ???. split; try done. by eapply routes_ext. Qed.

Lemma harness_sim ev w w' s :
  of_call ev = false → step ev w = Ret w' → sim w s → sim w' (spec_do ev s).
Proof.
  intros Hev Hs Hsim. pose proof Hsim as [Ho Hsv Hr Hc]. pose proof Hr as [Hen Hco Hnm].
  destruct ev as [l o|l svcs|e|e|nm l|nm|e nm|e yes|yes|yes|yes| | | | | | | | | | |]; try done; simpl in Hs; simpl spec_do.
  - rewrite Ho. destruct (objs w !! l); injection Hs as <-; [done|]. by split; simpl; rewrite ?Ho.
  - pose proof (Hsv l) as Hl. destruct (srvs w !! l) as [rs|] eqn:Hwl.
    { injection Hs as <-. inversion Hl; subst. done. }
    assert (a_srvs s !! l = None) as -> by (inversion Hl; done). injection Hs as <-. split; simpl; [done| |by split|done].
    intros l'. destruct (decide (l' = l)) as [->|Hne]; [rewrite !lookup_insert_eq; by constructor|].
    by rewrite !lookup_insert_ne.
  - apply bind_Ret_inv in Hs as (rn & Hm & [= <-]). unfold MakeEnd in Hm. case_decide; [done|]. injection Hm as <-.
    apply sim_net; [done|]. split; simpl; [| |done]; intros e'; destruct (decide (e' = e)) as [->|Hne].
    + rewrite lookup_insert_eq. set_solver.
    + rewrite lookup_insert_ne, <-Hen by done. set_solver.
    + by rewrite lookup_delete_eq, lookup_insert_eq.
    + by rewrite lookup_delete_ne, lookup_insert_ne.
  - apply bind_Ret_inv in Hs as (rn & Hm & [= <-]). unfold DeleteEnd in Hm. case_decide; [|done]. injection Hm as <-.
    apply sim_net; [done|]. split; simpl; [| |done]; intros e'; destruct (decide (e' = e)) as [->|Hne].
    + rewrite lookup_delete_eq. set_solver.
    + rewrite lookup_delete_ne, <-Hen by done. set_solver.
    + by rewrite !lookup_delete_eq.
    + by rewrite !lookup_delete_ne.
  - injection Hs as <-. apply sim_net; [done|]. split; simpl; [done|done|]. intros nm'.
    destruct (decide (nm' = nm)) as [->|Hne]; [by rewrite !lookup_insert_eq|by rewrite !lookup_insert_ne].
  - injection Hs as <-. apply sim_net; [done|]. split; simpl; [done|done|]. intros nm'.
    destruct (decide (nm' = nm)) as [->|Hne]; [by rewrite lookup_delete_eq, lookup_insert_eq|].
    by rewrite lookup_delete_ne, lookup_insert_ne.
  - injection Hs as <-. apply sim_net; [done|]. split; simpl; [done| |done]. intros e'.
    destruct (decide (e' = e)) as [->|Hne]; [by rewrite !lookup_insert_eq|by rewrite !lookup_insert_ne].
  - injection Hs as <-. apply sim_net; [done|]. split; simpl; [|done|done]. intros e'.
    destruct (decide (e' = e)) as [->|Hne]; [rewrite lookup_insert_eq|rewrite lookup_insert_ne, <-Hen by done];
      destruct yes; set_solver.
  - injection Hs as <-. by apply sim_same_routes.
  - injection Hs as <-. by apply sim_same_routes.
  - injection Hs as <-. by apply sim_same_routes.
  - injection Hs as <-. by apply sim_same_routes.
  - destruct (net_done (net w)); injection Hs as <-; [|done]. by apply sim_same_routes.
Qed.

Lemma sim_acall w s id ac c :
  sim w s → shows c ac → sim (set_call id c w) (set_acall id ac s).
Proof.
  intros [Ho Hsv Hr Hc] Hs. split; simpl; [done|done|by destruct Hr; split|]. intros id'.
  destruct (decide (id' = id)) as [->|Hne]; [rewrite !lookup_insert_eq; by constructor|by rewrite !lookup_insert_ne].
Qed.

(** A move that does not show. *)
Lemma sim_silent w s id ac c :
  sim w s → a_calls s !! id = Some ac → shows c ac → sim (set_call id c w) s.
Proof.
  intros [Ho Hsv Hr Hc] Hid Hs. split; simpl; try done. intros id'.
  destruct (decide (id' = id)) as [->|Hne]; [rewrite lookup_insert_eq, Hid; by constructor|by rewrite lookup_insert_ne].
Qed.

Lemma sim_call w s id c :
  sim w s → calls w !! id = Some c → ∃ ac, a_calls s !! id = Some ac ∧ shows c ac.
Proof.
  intros [_ _ _ Hc] Hid. specialize (Hc id). rewrite Hid in Hc.
  destruct (a_calls s !! id) as [ac|] eqn:E; [|inversion Hc]. exists ac. split; [done|by inversion Hc].
Qed.

(** [step_sim] for one event of a call. *)
Definition simulated (ev : event) w w' (s : Spec) : Prop := ∃ s', spec_run s (observed ev w w') s' ∧ sim w' s'.

Lemma readEndnameInfo_routes rn s e nm l rel longre :
  routes rn s → readEndnameInfo rn e = (true, Some nm, Some l, rel, longre) →
  e ∈ a_enabled s ∧ a_conn s !! e = Some nm ∧ a_names s !! nm = Some l.
Proof.
  intros [Hen Hco Hnm]. unfold readEndnameInfo. intros [= He Hc Hs _ _].
  assert (connections rn !! e = Some (Some nm)) as Hc' by (destruct (connections rn !! e) as [[]|]; simplify_eq/=; done).
  rewrite Hc' in Hs. simpl in Hs. split_and!.
  - apply Hen. destruct (enabled rn !! e) as [[]|]; done.
  - by rewrite Hco, Hc'.
  - rewrite Hnm. destruct (servers rn !! nm) as [[]|]; simplify_eq/=; done.
Qed.

Lemma alive_routes rn s e nm l :
  routes rn s → isServerDead rn e nm l = false → e ∈ a_enabled s ∧ a_names s !! nm = Some l.
Proof.
  intros [Hen _ Hnm] [He Hs]%orb_false_iff. apply negb_false_iff in He. apply negb_false_iff, bool_decide_eq_true_1 in Hs.
  split; [apply Hen; by destruct (enabled rn !! e) as [[]|]|].
  rewrite Hnm. by destruct (servers rn !! nm) as [[]|]; simplify_eq/=.
Qed.

Lemma process_sim w s id rr c :
  world_ok w → sim w s → calls w !! id = Some c → c_phase c = PArrived →
  simulated (EvProcess id rr) w (set_call id (processReq (net w) rr c) w) s.
Proof.
  intros Hw Hsim Hc Hp. destruct (sim_call _ _ _ _ Hsim Hc) as (ac & Hac & Hs).
  pose proof (ck_fresh _ (wk_calls _ Hw _ _ Hc) (or_intror Hp)) as He.
  destruct ac as [e m a d ex sent ret]. destruct Hs as [? ? ? Hex Hwait Hsent Hret].
  rewrite He in Hex. rewrite Hp in Hwait, Hsent, Hret. destruct Hex as [Hd Hex]. simpl in *. subst e m a d ex sent ret.
  destruct (processReq_cases (net w) rr c) as [(l & nm & rel & longre & -> & Hinfo)|[-> _]].
  - destruct (readEndnameInfo_routes _ _ _ _ _ _ _ (sim_routes _ _ Hsim) Hinfo) as (? & ? & ?).
    eexists. split; [eapply spec_run_tau, spec_route; [exact Hac|done..]|]. apply sim_acall; [done|].
    split; simpl; try done. split; [by eexists|done].
  - exists s. split; [apply spec_end|]. eapply sim_silent; [done|exact Hac|]. split; simpl; try done. by rewrite He.
Qed.

Lemma exec_sim w s id c l w' :
  world_ok w → sim w s → calls w !! id = Some c → call_exec w id c l w' → simulated (EvExec id) w w' s.
Proof.
  intros Hw Hsim Hc (rs & rs' & heap & rep & He & Hl & Hd & ->). pose proof Hsim as [Ho Hsv Hr Hcs].
  destruct (sim_call _ _ _ _ Hsim Hc) as (ac & Hac & Hs). pose proof (Hsv l) as Hl'. rewrite Hl in Hl'.
  destruct (a_srvs s !! l) as [svcs|] eqn:Hsl; [|inversion Hl'].
  assert (services rs = services (new_server svcs)) as Heq by (by inversion Hl'). clear Hl'.
  destruct (server_dispatch_handler _ _ _ _ _ _ _ Heq Hd (ck_args _ (wk_calls _ Hw _ _ Hc)))
    as (r & f & o & o' & y & Hh & Hor & Hf & -> & -> & Hsame).
  destruct ac as [e m a d ex sent ret]. destruct Hs as [? ? ? Hex Hwait Hsent Hret].
  rewrite He in Hex. destruct Hex as [[nm Hdest] Hex]. simpl in *. subst e m a d ex.
  eexists. split.
  - eapply spec_run_tau, spec_exec; [exact Hac|exact Hsl|exact Hh|by rewrite Ho|exact Hf].
  - split; simpl; [by rewrite Ho| |by destruct Hr; split|].
    + intros l'. destruct (decide (l' = l)) as [->|Hne]; [|by rewrite lookup_insert_ne].
      rewrite lookup_insert_eq, Hsl. constructor. by rewrite Hsame.
    + intros id'. destruct (decide (id' = id)) as [->|Hne]; [rewrite !lookup_insert_eq|by rewrite !lookup_insert_ne].
      constructor. split; simpl; try done. split; [by eexists|]. by exists y.
Qed.

Lemma after_sim w s id rr rr2 c :
  world_ok w → sim w s → calls w !! id = Some c →
  simulated (EvAfter id rr rr2) w (set_call id (afterWait (net w) rr rr2 c) w) s.
Proof.
  intros Hw Hsim Hc. destruct (sim_call _ _ _ _ Hsim Hc) as (ac & Hac & Hs). unfold afterWait.
  destruct (c_phase c) as [| |nm l rel longre|rep nm l rel longre|rep b|res] eqn:Hp;
    try (exists s; split; [apply spec_end|by eapply sim_silent]).
  pose proof Hs as [? ? ? Hex Hwait Hsent Hret]. rewrite Hp in Hwait, Hsent, Hret.
  assert (∀ b, sim (set_call id (set_phase (PReply (mkReplyMsg false []) b) (c_exec c) c) w) s) as Hfail.
  { intros b. eapply sim_silent; [done|exact Hac|]. by split. }
  destruct rep as [rep|]; [|exists s; split; [apply spec_end|apply Hfail]].
  destruct (isServerDead _ _ _ _) eqn:Hdead; [exists s; split; [apply spec_end|apply Hfail]|].
  destruct (negb rel && _); [exists s; split; [apply spec_end|apply Hfail]|].
  assert (simulated (EvAfter id rr rr2) w (set_call id (set_phase (PReply rep true) (c_exec c) c) w) s) as Hok;
    [|by destruct (longre && _)].
  pose proof (ck_waited _ (wk_calls _ Hw _ _ Hc) _ _ _ _ _ Hp) as He. rewrite He in Hex.
  destruct (alive_routes _ _ _ _ _ (sim_routes _ _ Hsim) Hdead) as [Hen Hnm].
  destruct Hex as (_ & y & -> & Hexec). destruct ac as [e m a d ex sent ret]. simpl in *. subst e m a d ex sent ret.
  eexists. split; [eapply spec_run_tau, spec_answer; [exact Hac|done|done]|]. apply sim_acall; [done|].
  split; simpl; try done. rewrite He. split; [by eexists|]. by exists y.
Qed.

Lemma reply_sim w s id c rep b c' rn :
  world_ok w → sim w s → calls w !! id = Some c → c_phase c = PReply rep b → Call_finish rep c = Ret c' →
  quiet (net w) rn → simulated (EvReply id) w (set_call id c' (set_net rn w)) s.
Proof.
  intros Hw Hsim Hc Hp Hf (n & by' & run & ->). destruct (sim_call _ _ _ _ Hsim Hc) as (ac & Hac & Hs).
  destruct Hs as [? ? ? Hex Hwait Hsent Hret]. rewrite Hp in Hsent, Hret.
  assert (sim (set_net (set_traffic n by' run (net w)) w) s) as Hsim' by by apply sim_same_routes.
  unfold simulated. cbn [observed]. rewrite Hc. cbn [set_call calls]. rewrite lookup_insert_eq. cbn [fmap option_fmap option_map].
  rewrite Hp. destruct ac as [e m a d ex sent ret]. simpl in *. subst e m a sent ret.
  destruct (Call_finish_ok _ _ _ _ (wk_calls _ Hw _ _ Hc) Hp Hf) as [(y & He & ->)|[Hok ->]]; simpl.
  - assert (ok rep = true) as Hok.
    { unfold Call_finish in Hf. by destruct (ok rep). }
    rewrite Hok in Hac. rewrite He in Hex. destruct Hex as ([dst Hd] & y' & [= Hy] & Hex).
    pose proof (gob_dec_enc_self [] y) as E1. pose proof (gob_dec_enc_self [] y') as E2. simpl in E1, E2.
    rewrite Hy, E2 in E1. injection E1 as ->. simpl in *. subst d ex.
    eexists. split; [apply spec_run_step, spec_return; exact Hac|]. apply sim_acall; [done|].
    split; simpl; try done. rewrite He. split; [by eexists|]. by exists y.
  - rewrite Hok in Hac. eexists. split; [apply spec_run_step, spec_fail; exact Hac|]. apply sim_acall; [done|].
    by split.
Qed.

Lemma step_sim ev w w' s : world_ok w → sim w s → step ev w = Ret w' → simulated ev w w' s.
Proof.
  intros Hw Hsim Hs. destruct (of_call ev) eqn:Hev.
  2:{ exists (spec_do ev s). split; [|by eapply harness_sim].
      assert (observed ev w w' = [Harness ev]) as -> by (by destruct ev). by apply spec_run_step, spec_harness. }
  assert (∀ id, ev = EvReply id ∨ ev = EvCancel id ∨ observed ev w w' = [] → w' = w → simulated ev w w' s) as Hstay.
  { intros id Hobs ->. exists s. split; [|done]. assert (observed ev w w = []) as ->; [|apply spec_end].
    destruct Hobs as [->|[->|?] ]; [..|done]; simpl; destruct (c_phase <$> calls w !! id) as [[]|]; done. }
  destruct ev as [| | | | | | | | | | | | |id e m a|id|id|id rr|id|id|id|id rr rr2|id]; try done; simpl in Hs.
  { destruct (calls w !! id) as [c|] eqn:Hc; injection Hs as <-.
    - apply (Hstay id); [|done]. right; right. simpl. by rewrite Hc.
    - eexists. simpl. rewrite Hc. split; [apply spec_run_step, spec_call|].
      + pose proof (sim_calls _ _ Hsim id) as Hx. rewrite Hc in Hx. by inversion Hx.
      + apply sim_acall; [done|]. by split. }
  all: unfold on_call in Hs; destruct (calls w !! id) as [c|] eqn:Hc; [|injection Hs as <-; by apply (Hstay id); auto].
  all: destruct (sim_call _ _ _ _ Hsim Hc) as (ac & Hac & Hsh).
  - destruct (c_phase c) eqn:Hp; simplify_eq/=; try by apply (Hstay id); auto.
    destruct (serving (net w)); simplify_eq/=; [|by apply (Hstay id); auto]. exists s. split; [apply spec_end|].
    eapply (sim_silent (set_net _ w)); [by apply sim_same_routes|exact Hac|]. destruct Hsh. rewrite Hp in *. by split.
  - destruct (c_phase c) eqn:Hp; simplify_eq/=; try by apply (Hstay id); auto.
    destruct (net_done (net w)); simplify_eq/=; [|by apply (Hstay id); auto]. unfold simulated. simpl.
    rewrite Hc, lookup_insert_eq. simpl. rewrite Hp. destruct Hsh as [? ? ? Hex Hwait Hsent Hret]. rewrite Hp in *.
    destruct ac as [e m a d ex sent ret]. simpl in *. subst e m a sent ret.
    eexists. split; [apply spec_run_step, spec_fail; exact Hac|]. apply sim_acall; [done|]. by split.
  - destruct (c_phase c) eqn:Hp; simplify_eq/=; try by apply (Hstay id); auto. by apply process_sim.
  - destruct (c_exec c) as [|l|] eqn:He; simplify_eq/=; try by apply (Hstay id); auto.
    destruct (srvs w !! l) as [rs|] eqn:Hl; [|done]. apply bind_Ret_inv in Hs as ([[rs' heap] rep] & Hd & [= <-]).
    eapply exec_sim; [done|done|exact Hc|]. by exists rs, rs', heap, rep.
  - injection Hs as <-. exists s. split; [apply spec_end|]. eapply sim_silent; [done|exact Hac|]. unfold waitRecv.
    destruct (c_phase c) eqn:Hp; try done. destruct (c_exec c) eqn:He; try done. destruct Hsh. rewrite Hp, He in *. split; simpl; try done. 
  - injection Hs as <-. exists s. split; [apply spec_end|]. eapply sim_silent; [done|exact Hac|]. unfold waitPoll.
    destruct (c_phase c) eqn:Hp; try done. destruct (isServerDead _ _ _ _); [|done]. destruct Hsh. rewrite Hp in *. by split.
  - injection Hs as <-. by apply after_sim.
  - destruct (c_phase c) eqn:Hp; simplify_eq/=; try by apply (Hstay id); auto.
    apply bind_Ret_inv in Hs as (c' & Hf & [= <-]). eapply reply_sim; [done|done|done|exact Hp|exact Hf|]. by eexists _, _, _.
Qed.

(** C16: The network does what its users rely on.  Under every schedule of calls,
    deliveries, losses, delays, deletions of servers and changes of the
    network, what the harness and the callers see is a run of [Spec] with the
    same objects at the end: a call is sent at most once, to the server that
    the end it was made at led to then; there it runs at most once, by the
    handler that the services given to that server make of its name, on the
    argument it was given and on the receiver of that service; it returns [true]
    only with the reply of that execution, and only if, after the execution, its end was still
    enabled and the server still registered; otherwise it returns [false];
    nothing else touches the servers' objects. *)
Theorem labrpc_refines evs w :
  run evs init = Ret w → ∃ s, spec_run spec_init (observation evs init) s ∧ sim w s.
Proof.
  assert (∀ w0 s0, world_ok w0 → sim w0 s0 → run evs w0 = Ret w →
    ∃ s, spec_run s0 (observation evs w0) s ∧ sim w s) as Hgen; [|apply Hgen; [apply init_ok|apply sim_init] ].
  induction evs as [|ev evs IH]; intros w0 s0 Hw0 Hsim; simpl; [intros [= ->]; exists s0; split; [apply spec_end|done]|].
  intros (w1 & Hs & Hr)%bind_Ret_inv. rewrite Hs. pose proof (step_ok _ _ _ Hw0 Hs) as Hw1.
  destruct (step_sim _ _ _ _ Hw0 Hsim Hs) as (s1 & Hrun1 & Hsim1). destruct (IH w1 s1 Hw1 Hsim1 Hr) as (s & Hrun & ?).
  exists s. split; [by eapply spec_run_app|done].
Qed.

(** ** Calls return *)

Definition phase_rank (p : phase K Y) : nat :=
  match p with
  | PSend => 5 | PArrived => 4 | PWait _ _ _ _ => 3 | PWaited _ _ _ _ _ => 2 | PReply _ _ => 1 | PDone _ => 0
  end.

Definition rank c : nat :=
  2 * phase_rank (c_phase c) + match c_exec c with ERunning _ => 1 | _ => 0 end.

Lemma call_move_rank rn c c' : call_ok c → call_move rn c c' → c' = c ∨ (rank c' < rank c)%nat.
Proof.
  intros Hok Hm. destruct Hm as [c|c Hp|c Hp|c rr Hp|c|c|c rr rr2|c rep b c' Hp Hf]; [by left| | | | | | |].
  - right. unfold rank. simpl. rewrite Hp. simpl. lia.
  - right. unfold rank. simpl. rewrite Hp. simpl. lia.
  - right. pose proof (ck_fresh _ Hok (or_intror Hp)) as He.
    destruct (processReq_cases rn rr c) as [(l & nm & rel & longre & -> & _)|[-> _]]; unfold rank; simpl;
      rewrite Hp, He; simpl; lia.
  - unfold waitRecv. destruct (c_phase c) eqn:Hp; try by left. destruct (c_exec c) eqn:He; try by left.
    right. unfold rank. simpl. rewrite Hp, He. simpl. lia.
  - unfold waitPoll. destruct (c_phase c) eqn:Hp; try by left. destruct (isServerDead _ _ _ _); [|by left].
    right. unfold rank. simpl. rewrite Hp. simpl. lia.
  - unfold afterWait. destruct (c_phase c) eqn:Hp; try by left.
    right. unfold rank. rewrite Hp. repeat case_match; simplify_eq/=; lia.
  - right. destruct (Call_finish_ok _ _ _ _ Hok Hp Hf) as [(y & He & ->)|[_ ->]]; unfold rank; simpl; rewrite Hp; simpl; lia.
Qed.

Lemma step_rank ev w w' id c c' :
  world_ok w → step ev w = Ret w' → calls w !! id = Some c → calls w' !! id = Some c' →
  c' = c ∨ (rank c' < rank c)%nat.
Proof.
  intros Hw Hs Hc Hc'. destruct (step_cases _ _ _ Hs) as [[_ Hsame]|[(_ & _ & _ & Hcs)|(id' & c1 & l & Hc1 & Hex)]].
  - rewrite Hsame in Hc'. left. congruence.
  - destruct Hcs as [(id' & e & m & a & Hno & E)|[(id' & c1 & c2 & Hc1 & Hmv & E)|E]]; rewrite E in Hc'.
    + apply lookup_insert_Some in Hc' as [[-> _]|[_ ?]]; [congruence|left; congruence].
    + apply lookup_insert_Some in Hc' as [[-> <-]|[_ ?]]; [|left; congruence].
      assert (c1 = c) as -> by congruence. eapply call_move_rank, Hmv. by eapply Hw.
    + left. congruence.
  - destruct Hex as (rs & rs' & heap & rep & He & _ & _ & ->). simpl in Hc'.
    apply lookup_insert_Some in Hc' as [[-> <-]|[_ ?]]; [|left; congruence].
    assert (c1 = c) as -> by congruence. right. unfold rank. simpl. rewrite He. lia.
Qed.

(** The handler of [c] can run on the server at [l]. *)
Definition runnable w c (l : nat) : Prop :=
  ∃ rs, srvs w !! l = Some rs ∧ returns (server_dispatch zeroX rs (c_req c) (objs w)).

(** Where the call may be executed from now on. *)
Definition destination w c (l : nat) : Prop :=
  c_exec c = ERunning l ∨ ∃ nm, servers (net w) !! nm = Some (Some l).

Definition finishes (n : nat) w (id : nat) : Prop :=
  ∃ evs w' c' res, (length evs ≤ n)%nat ∧ run evs w = Ret w' ∧ calls w' !! id = Some c' ∧ c_phase c' = PDone res.

Lemma finishes_step n ev w w1 id : step ev w = Ret w1 → finishes n w1 id → finishes (S n) w id.
Proof.
  intros Hs (evs & w' & c' & res & Hl & Hr & Hc & Hp). exists (ev :: evs), w', c', res.
  split_and!; [simpl; lia| |done|done]. simpl. by rewrite Hs.
Qed.

Lemma finishes_reply w id c rep b :
  world_ok w → calls w !! id = Some c → c_phase c = PReply rep b → finishes 1 w id.
Proof.
  intros Hw Hc Hp. pose proof (wk_calls _ Hw _ _ Hc) as Hok.
  assert (∃ res, Call_finish rep c = Ret (set_phase (PDone res) (c_exec c) c)) as [res Hf].
  { unfold Call_finish. destruct (ok rep) eqn:Ht; [|by eexists]. pose proof (ck_reply _ Hok _ _ Hp Ht) as He.
    destruct (ck_exec _ Hok _ He) as [y ->]. simpl. rewrite (gob_dec_enc_self [] y). by eexists. }
  eapply (finishes_step 0 (EvReply id)).
  - simpl. unfold on_call. rewrite Hc, Hp, Hf, bind_Ret. reflexivity.
  - eexists [], _, _, res.
    split_and!; [done|reflexivity|apply lookup_insert_eq|done].
Qed.

Lemma finishes_waited w id c rep nm l rel longre :
  world_ok w → calls w !! id = Some c → c_phase c = PWaited rep nm l rel longre → finishes 2 w id.
Proof.
  intros Hw Hc Hp. assert (step (EvAfter id 0 0) w = Ret (set_call id (afterWait (net w) 0 0 c) w)) as Hs.
  { simpl. unfold on_call. by rewrite Hc. }
  eapply finishes_step; [exact Hs|]. pose proof (step_ok _ _ _ Hw Hs) as Hw1.
  assert (∃ rep b, c_phase (afterWait (net w) 0 0 c) = PReply rep b) as (rep1 & b & Hp1).
  { unfold afterWait. rewrite Hp. repeat case_match; by eexists _, _. }
  eapply finishes_reply; [done|simpl; apply lookup_insert_eq|exact Hp1].
Qed.

Lemma finishes_ran w id c rep nm l rel longre :
  world_ok w → calls w !! id = Some c → c_phase c = PWait nm l rel longre → c_exec c = ERan rep → finishes 3 w id.
Proof.
  intros Hw Hc Hp He. assert (step (EvRecv id) w = Ret (set_call id (waitRecv c) w)) as Hs.
  { simpl. unfold on_call. by rewrite Hc. }
  eapply finishes_step; [exact Hs|]. pose proof (step_ok _ _ _ Hw Hs) as Hw1.
  eapply (finishes_waited _ _ (waitRecv c)); [done|simpl; apply lookup_insert_eq|].
  unfold waitRecv. rewrite Hp, He. reflexivity.
Qed.

Lemma finishes_wait w id c nm l rel longre :
  world_ok w → calls w !! id = Some c → c_phase c = PWait nm l rel longre →
  (∀ l, c_exec c = ERunning l → runnable w c l) → finishes 4 w id.
Proof.
  intros Hw Hc Hp Hrun. destruct (ck_wait _ (wk_calls _ Hw _ _ Hc) _ _ _ _ Hp) as [He|[rep He]].
  - destruct (Hrun l He) as (rs & Hl & [[rs' heap] rep] & Hd).
    assert (step (EvExec id) w = Ret (mkWorld (net w) (<[l := rs']> (srvs w)) heap
      (<[id := set_phase (c_phase c) (ERan rep) c]> (calls w)))) as Hs.
    { simpl. unfold on_call. by rewrite Hc, He, Hl, Hd. }
    eapply finishes_step; [exact Hs|]. pose proof (step_ok _ _ _ Hw Hs) as Hw1.
    eapply (finishes_ran _ _ (set_phase (c_phase c) (ERan rep) c)); [done|simpl; apply lookup_insert_eq|exact Hp|done].
  - destruct (finishes_ran _ _ _ _ _ _ _ _ Hw Hc Hp He) as (evs & w' & c' & res & Hl & ?).
    exists evs, w', c', res. split; [lia|done].
Qed.

Lemma finishes_arrived w id c :
  world_ok w → calls w !! id = Some c → c_phase c = PArrived →
  (∀ l, destination w c l → runnable w c l) → finishes 5 w id.
Proof.
  intros Hw Hc Hp Hrun. assert (step (EvProcess id 0) w = Ret (set_call id (processReq (net w) 0 c) w)) as Hs.
  { simpl. unfold on_call. by rewrite Hc, Hp. }
  eapply finishes_step; [exact Hs|]. pose proof (step_ok _ _ _ Hw Hs) as Hw1.
  destruct (processReq_cases (net w) 0 c) as [(l & nm & rel & longre & E & Hinfo)|[E _]]; rewrite E in Hw1 |- *.
  - eapply finishes_wait; [exact Hw1|simpl; apply lookup_insert_eq|reflexivity|].
    intros l' [= <-]. destruct (Hrun l) as (rs & Hl & Hret); [|by exists rs]. right. exists nm.
    injection Hinfo as _ Hnm Hl _ _. rewrite Hnm in Hl. by destruct (servers (net w) !! nm) as [[]|]; simplify_eq/=.
  - destruct (finishes_reply _ id _ _ _ Hw1 (lookup_insert_eq _ _ _) eq_refl) as (evs & w' & c' & res & Hl & ?).
    exists evs, w', c', res. split; [lia|done].
Qed.

Lemma finishes_more n m w id : finishes n w id → (n ≤ m)%nat → finishes m w id.
Proof. intros (evs & w' & c' & res & ? & ?) ?. exists evs, w', c', res. split; [lia|done]. Qed.

(** Calls return: as long as the network runs and the handlers a call may be
    sent to can be run, six more steps of the call let it return; and every
    step of the call, in whatever schedule, brings it nearer to its end, so it
    moves at most eleven times. *)
Theorem Call_returns evs w id c :
  run evs init = Ret w → calls w !! id = Some c → serving (net w) = true →
  (∀ l, destination w c l → runnable w c l) →
  finishes 6 w id ∧ (rank c ≤ 11)%nat ∧
  ∀ ev w' c', step ev w = Ret w' → calls w' !! id = Some c' → c' = c ∨ (rank c' < rank c)%nat.
Proof.
  intros Hrun Hc Hsv Hd. pose proof (world_run_ok _ _ _ init_ok Hrun) as Hw. split_and!.
  - destruct (c_phase c) eqn:Hp.
    + set (w1 := set_call id (set_phase PArrived (c_exec c) c) (set_net (set_traffic (int32 (count (net w) + 1))
        (int64 (bytes (net w) + zlen (args (c_req c)))) true (net w)) w)).
      assert (step (EvSend id) w = Ret w1) as Hs by (simpl; unfold on_call; by rewrite Hc, Hp, Hsv).
      eapply finishes_step; [exact Hs|]. eapply (finishes_arrived w1 id (set_phase PArrived (c_exec c) c));
        [by eapply step_ok|apply lookup_insert_eq|done|exact Hd].
    + by eapply finishes_more; [eapply finishes_arrived|lia].
    + eapply finishes_more; [eapply finishes_wait; [done..|]|lia]. intros l ?. apply Hd. by left.
    + by eapply finishes_more; [eapply finishes_waited|lia].
    + by eapply finishes_more; [eapply finishes_reply|lia].
    + exists [], w, c, result. split_and!; [simpl; lia|done|done|done].
  - unfold rank. destruct (c_phase c), (c_exec c); simpl; lia.
  - intros ev w' c' Hs Hc'. by eapply step_rank.
Qed.

(** What the moves of a call keep, and the run of its handler, every step
    keeps. *)
Lemma step_call_keeps (P : call → Prop) ev w w' id c :
  step ev w = Ret w' → calls w !! id = Some c → P c →
  (∀ c', call_move (net w) c c' → P c') → (∀ e, P (set_phase (c_phase c) e c)) →
  ∃ c', calls w' !! id = Some c' ∧ P c'.
Proof.
  intros Hs Hc HP Hmove Hexec.
  destruct (step_cases _ _ _ Hs) as [[_ ->]|[(_ & _ & _ & Hcs)|(id' & c1 & l & Hc1 & (rs & rs' & heap & rep & _ & _ & _ & ->))]];
    [by exists c| |].
  - destruct Hcs as [(id' & e & m & a & Hno & ->)|[(id' & c1 & c2 & Hc1 & Hmv & ->)| ->]]; [| |by exists c].
    + exists c. split; [|done]. rewrite lookup_insert_ne; [done|congruence].
    + destruct (decide (id' = id)) as [->|Hne]; [|exists c; by rewrite lookup_insert_ne].
      exists c2. rewrite lookup_insert_eq. assert (c1 = c) as -> by congruence. auto.
  - simpl. destruct (decide (id' = id)) as [->|Hne]; [|exists c; by rewrite lookup_insert_ne].
    eexists. rewrite lookup_insert_eq. split; [done|]. assert (c1 = c) as -> by congruence. auto.
Qed.

(** ** Deleted servers *)

Definition unregistered (rn : Network K) (l : nat) : Prop := ∀ nm, servers rn !! nm ≠ Some (Some l).

Definition waits_for c (l : nat) : Prop :=
  match c_phase c with
  | PWait _ l' _ _ | PWaited _ _ l' _ _ => l' = l
  | _ => False
  end.

(** No positive reply from [l] is on its way to [c]. *)
Definition silent c (l : nat) : Prop :=
  match c_phase c with
  | PWait _ l' _ _ | PWaited _ _ l' _ _ => l' = l
  | PReply rep _ => ok rep = false
  | PDone res => res = None
  | _ => False
  end.

Lemma isServerDead_unregistered rn e nm l : unregistered rn l → isServerDead rn e nm l = true.
Proof.
  intros Hu. unfold isServerDead. rewrite (bool_decide_eq_false_2 (_ = _)); [by rewrite orb_true_r|].
  specialize (Hu nm). by destruct (servers rn !! nm) as [[]|]; simpl; congruence.
Qed.

Lemma call_move_silent rn c c' l : unregistered rn l → silent c l → call_move rn c c' → silent c' l.
Proof.
  intros Hu Hsil Hm. unfold silent in *. destruct Hm as [c|c Hp|c Hp|c rr Hp|c|c|c rr rr2|c rep b c' Hp Hf]; try by rewrite Hp in Hsil.
  - done.
  - unfold waitRecv. destruct (c_phase c) eqn:Hp; try by rewrite Hp. destruct (c_exec c); simpl; by rewrite ?Hp.
  - unfold waitPoll. destruct (c_phase c) eqn:Hp; try by rewrite Hp. destruct (isServerDead _ _ _ _); simpl; by rewrite ?Hp.
  - unfold afterWait. destruct (c_phase c) eqn:Hp; try by rewrite Hp. subst. rewrite isServerDead_unregistered by done.
    by destruct rep.
  - rewrite Hp in Hsil. unfold Call_finish in Hf. rewrite Hsil in Hf. by injection Hf as <-.
Qed.

Lemma step_unregistered ev w w' l :
  unregistered (net w) l → (∀ nm, ev ≠ EvAddServer nm l) → step ev w = Ret w' → unregistered (net w') l.
Proof.
  intros Hu Hev Hs. destruct (of_call ev) eqn:Hoc.
  - destruct (step_cases _ _ _ Hs) as [[? _]|[((n & b & r & ->) & _)|(id & c & l' & _ & (rs & rs' & heap & rep & _ & _ & _ & ->))]];
      [congruence|done|done].
  - destruct ev; try done; simpl in Hs; unfold MakeEnd, DeleteEnd in *; go_inv; repeat case_match; simplify_eq/=; try done.
    + intros nm Hin. simpl in Hin. apply lookup_insert_Some in Hin as [[-> [= ->]]|[_ Hin]]; [by eapply Hev|by eapply Hu].
    + intros nm Hin. simpl in Hin. apply lookup_insert_Some in Hin as [[_ ?]|[_ Hin]]; [done|by eapply Hu].
Qed.

(** A deleted server does not answer: a call that waits for the server
    instance [l] when [l] is no longer registered never returns [true],
    whatever happens later, as long as this instance is not added again. *)
Theorem deleted_server_silent evs w w' id c c' l :
  calls w !! id = Some c → waits_for c l → unregistered (net w) l →
  Forall (λ ev, ∀ nm, ev ≠ EvAddServer nm l) evs → run evs w = Ret w' → calls w' !! id = Some c' →
  ∀ y, c_phase c' ≠ PDone (Some y).
Proof.
  intros Hc Hwait Hu Hevs Hrun Hc'. assert (silent c l) as Hsil.
  { unfold waits_for, silent in *. by destruct (c_phase c). }
  clear Hwait. cut (silent c' l); [intros Hs y Hp; unfold silent in Hs; by rewrite Hp in Hs|].
  revert w c Hc Hsil Hu Hrun. induction Hevs as [|ev evs Hev Hevs IH]; intros w c Hc Hsil Hu Hrun; simpl in Hrun.
  { injection Hrun as ->. congruence. }
  apply bind_Ret_inv in Hrun as (w1 & Hs & Hrun). pose proof (step_unregistered _ _ _ _ Hu Hev Hs) as Hu1.
  cut (∃ c1, calls w1 !! id = Some c1 ∧ silent c1 l); [intros (c1 & ? & ?); by eapply IH|].
  eapply (step_call_keeps (λ c, silent c l)); [done|exact Hc|done| |done]. intros c1 Hmv. exact (call_move_silent _ _ _ _ Hu Hsil Hmv).
Qed.

(** ** A reliable network *)

(** The end of [c] reaches the server at [l]. *)
Definition connected (rn : Network K) (e nm : K) (l : nat) : Prop :=
  reliable rn = true ∧ net_done rn = false ∧ enabled rn !! e = Some true ∧
  connections rn !! e = Some (Some nm) ∧ servers rn !! nm = Some (Some l).

Definition succeeding c (e nm : K) (l : nat) : Prop :=
  endname (c_req c) = e ∧
  match c_phase c with
  | PSend | PArrived => True
  | PWait nm' l' rel _ => nm' = nm ∧ l' = l ∧ rel = true
  | PWaited rep nm' l' rel _ => nm' = nm ∧ l' = l ∧ rel = true ∧ is_Some rep
  | PReply rep _ => ok rep = true
  | PDone res => is_Some res
  end.

Lemma connected_alive rn e nm l : connected rn e nm l → isServerDead rn e nm l = false.
Proof.
  intros (_ & _ & He & _ & Hs). unfold isServerDead. rewrite He, Hs. simpl. by rewrite bool_decide_eq_true_2.
Qed.

Lemma connected_info rn e nm l : connected rn e nm l →
  readEndnameInfo rn e = (true, Some nm, Some l, true, longReordering rn).
Proof. intros (Hr & _ & He & Hc & Hs). unfold readEndnameInfo. rewrite Hr, He, Hc. simpl. by rewrite Hs. Qed.

Lemma call_move_succeeding rn c c' e nm l :
  call_ok c → connected rn e nm l → succeeding c e nm l → call_move rn c c' → succeeding c' e nm l.
Proof.
  intros Hok Hcn [He Hsuc] Hm. pose proof Hcn as (Hr & Hd & _).
  destruct Hm as [c|c Hp|c Hp Hd'|c rr Hp|c|c|c rr rr2|c rep b c' Hp Hf]; [by split|by split|congruence| | | | |].
  - unfold processReq. rewrite He, (connected_info _ _ _ _ Hcn). by split.
  - unfold waitRecv. destruct (c_phase c) eqn:Hp; try (split; [done|by rewrite Hp]).
    destruct (c_exec c); try (split; [done|by rewrite Hp]). split; [done|]. simpl. destruct Hsuc as (? & ? & ?). by split_and!.
  - unfold waitPoll. destruct (c_phase c) eqn:Hp; try (split; [done|by rewrite Hp]). destruct Hsuc as (-> & -> & ->).
    rewrite He, (connected_alive _ _ _ _ Hcn). split; [done|by rewrite Hp].
  - unfold afterWait. destruct (c_phase c) eqn:Hp; try (split; [done|by rewrite Hp]).
    destruct Hsuc as (-> & -> & -> & [rp ->]). rewrite He, (connected_alive _ _ _ _ Hcn). simpl.
    pose proof (ck_waited _ Hok _ _ _ _ _ Hp) as Hex. destruct (ck_exec _ Hok _ Hex) as [y ->].
    by destruct (longre && _).
  - rewrite Hp in Hsuc. destruct (Call_finish_ok _ _ _ _ Hok Hp Hf) as [(y & _ & ->)|[? _]]; [|congruence].
    split; [done|]. by eexists.
Qed.

Lemma call_event_net ev w w' : of_call ev = true → step ev w = Ret w' → quiet (net w) (net w').
Proof.
  intros Hev Hs. destruct (step_cases _ _ _ Hs) as [[? _]|[[? _]|(id & c & l & _ & (rs & rs' & heap & rep & _ & _ & _ & ->))]];
    [congruence|done|apply quiet_refl].
Qed.

(** A reliable network does not fail calls: if the network is reliable and the
    end of a call is enabled and connected to a registered server, and the
    harness does not interfere, the call can only return [true]. *)
Theorem reliable_call_succeeds evs0 evs w w' id c c' nm l res :
  run evs0 init = Ret w → calls w !! id = Some c → c_phase c = PSend →
  connected (net w) (endname (c_req c)) nm l → Forall (λ ev, of_call ev = true) evs →
  run evs w = Ret w' → calls w' !! id = Some c' → c_phase c' = PDone res → is_Some res.
Proof.
  intros Hrun0 Hc Hp Hcn Hevs Hrun Hc' Hp'. pose proof (world_run_ok _ _ _ init_ok Hrun0) as Hw. clear Hrun0.
  set (e := endname (c_req c)) in *. assert (succeeding c e nm l) as Hsuc by (split; [done|by rewrite Hp]).
  clearbody e. clear Hp. cut (succeeding c' e nm l); [intros [_ Hs]; by rewrite Hp' in Hs|]. clear Hp'.
  revert w c Hc Hsuc Hcn Hw Hrun. induction Hevs as [|ev evs Hev Hevs IH]; intros w c Hc Hsuc Hcn Hw Hrun; simpl in Hrun.
  { injection Hrun as ->. congruence. }
  apply bind_Ret_inv in Hrun as (w1 & Hs & Hrun). pose proof (step_ok _ _ _ Hw Hs) as Hw1.
  assert (connected (net w1) e nm l) as Hcn1.
  { destruct (call_event_net _ _ _ Hev Hs) as (n & b & r & ->). exact Hcn. }
  cut (∃ c1, calls w1 !! id = Some c1 ∧ succeeding c1 e nm l); [intros (c1 & ? & ?); by eapply IH|].
  eapply (step_call_keeps (λ c, succeeding c e nm l)); [done|exact Hc|done| |done].
  intros c1 Hmv. exact (call_move_succeeding _ _ _ _ _ _ (wk_calls _ Hw _ _ Hc) Hcn Hsuc Hmv).
Qed.
End props.

(** ** A counter behind the network *)
Section instance.
#[local] Instance zgob : Gob Z := CountableGob Z.
#[local] Instance zgob_laws : GobLaws Z := CountableGobLaws Z.

Definition add_method : Method Z Z Z := mkMethod "Add" true 3 true 0 (λ o a, (o + a, o + a)).
Definition hidden_method : Method Z Z Z := mkMethod "reset" false 3 true 0 (λ _ _, (0, 0)).

(** A counter that holds 5 behind the end "e". *)
Definition counter_setup : list (@event string Z Z Z) :=
  [EvObject 0 5; EvServer 0 [("Counter", 0%nat, [add_method; hidden_method])]; EvMakeEnd "e"; EvAddServer "s" 0;
   EvConnect "e" "s"; EvEnable "e" true].

Definition add_call : list (@event string Z Z Z) := [EvCall 1 "e" "Counter.Add" 2].
Definition add_run : list (@event string Z Z Z) :=
  [EvSend 1; EvProcess 1 7; EvExec 1; EvRecv 1; EvAfter 1 3 3; EvReply 1].

Definition after (evs : list (@event string Z Z Z)) : World string Z Z Z :=
  match run 0 evs init with Ret w => w | _ => init end.

Definition the_call (w : World string Z Z Z) : call string Z Z :=
  default (Call_start "e" "" 0) (calls w !! 1%nat).

Example add_returns :
  c_phase (the_call (after (counter_setup ++ add_call ++ add_run))) = PDone (Some 7) ∧
  objs (after (counter_setup ++ add_call ++ add_run)) !! 0%nat = Some 7.
Proof. vm_compute. by split. Qed.

(** The service has no method "reset". *)
Example hidden_not_found :
  run 0 (counter_setup ++ [EvCall 1 "e" "Counter.reset" 2; EvSend 1; EvProcess 1 7; EvExec 1]) init = Panic Fatal.
Proof. vm_compute. reflexivity. Qed.

(** What is seen of the run: the setup, the call, its return. *)
Lemma labrpc_refines_witness :
  ∃ s, spec_run (spec_init (K := string)) ((Harness <$> counter_setup) ++ [Called 1 "e" "Counter.Add" 2; Returned 1 (Some 7)]) s ∧
    a_objs s !! 0%nat = Some 7.
Proof.
  destruct (labrpc_refines 0 (counter_setup ++ add_call ++ add_run) (after (counter_setup ++ add_call ++ add_run)))
    as (s & Hs & Hsim); [vm_compute; reflexivity|]. exists s. split.
  - assert (observation 0 (counter_setup ++ add_call ++ add_run) init =
      (Harness <$> counter_setup) ++ [Called 1 "e" "Counter.Add" 2; Returned 1 (Some 7)]) as <- by (vm_compute; reflexivity).
    exact Hs.
  - rewrite (sim_objs _ _ Hsim). vm_compute. reflexivity.
Defined.

Lemma Call_returns_witness : finishes 0 6 (after (counter_setup ++ add_call)) 1.
Proof.
  apply (Call_returns 0 (counter_setup ++ add_call) (after (counter_setup ++ add_call)) 1
    (the_call (after (counter_setup ++ add_call)))); [vm_compute; reflexivity..|].
  intros l Hl. assert (l = 0%nat) as ->.
  { destruct Hl as [Hl|[nm Hl]]; [vm_compute in Hl; discriminate|].
    assert (servers (net (after (counter_setup ++ add_call))) = {["s" := Some 0%nat]}) as Hs by (vm_compute; reflexivity).
    rewrite Hs in Hl. apply lookup_singleton_Some in Hl as [_ [= <-]]. reflexivity. }
  eexists. split; [vm_compute; reflexivity|]. eexists. vm_compute. reflexivity.
Defined.

(** The server is deleted while the handler runs. *)
Definition deleted : World string Z Z Z :=
  after (counter_setup ++ add_call ++ [EvSend 1; EvProcess 1 7; EvExec 1; EvDeleteServer "s"]).

Lemma deleted_server_silent_witness :
  waits_for (the_call deleted) 0 ∧
  ¬ (c_phase (the_call (after (counter_setup ++ add_call ++
       [EvSend 1; EvProcess 1 7; EvExec 1; EvDeleteServer "s"; EvRecv 1; EvAfter 1 3 3; EvReply 1]))) = PDone (Some 7)).
Proof.
  split; [vm_compute; reflexivity|]. apply (deleted_server_silent 0 [EvRecv 1; EvAfter 1 3 3; EvReply 1] deleted
    (after (counter_setup ++ add_call ++
       [EvSend 1; EvProcess 1 7; EvExec 1; EvDeleteServer "s"; EvRecv 1; EvAfter 1 3 3; EvReply 1]))
    1 (the_call deleted) _ 0).
  - vm_compute. reflexivity.
  - vm_compute. reflexivity.
  - intros nm Hnm. assert (servers (net deleted) = {["s" := None]}) as Hs by (vm_compute; reflexivity).
    rewrite Hs in Hnm. apply lookup_singleton_Some in Hnm as [_ [=]].
  - repeat constructor; discriminate.
  - vm_compute. reflexivity.
  - vm_compute. reflexivity.
Defined.

Lemma reliable_call_succeeds_witness : is_Some (Some 7).
Proof.
  apply (reliable_call_succeeds 0 (counter_setup ++ add_call) add_run (after (counter_setup ++ add_call))
    (after (counter_setup ++ add_call ++ add_run)) 1 (the_call (after (counter_setup ++ add_call)))
    (the_call (after (counter_setup ++ add_call ++ add_run))) "s" 0).
  - vm_compute. reflexivity.
  - vm_compute. reflexivity.
  - vm_compute. reflexivity.
  - vm_compute. repeat split.
  - repeat constructor.
  - vm_compute. reflexivity.
  - vm_compute. reflexivity.
  - vm_compute. reflexivity.
Defined.
End instance.
