(* ===== verification/Raft.v ===== *)
(** * Raft: one server

    The state of a Raft server (src/src/raft/raft.go, [type Raft]) and one
    definition per operation, handler and goroutine step.  A handler holds
    [rf.mu] from its first to its last statement, so it is one atomic function
    of the server's state.  A goroutine that sends an RPC is split at the
    [Call]: the part before it yields the message, the part after it (which
    takes the lock) is a function of the state, the arguments and the reply.

    Conventions:
    - Go's [int] is [Z].  Terms and indices grow by one per election or per
      command, and [(low + high) / 2] in [findFirstIndex] adds two slice
      indices, so 64-bit wrap-around is not modelled here.
    - [interface{}] commands are [option C], [None] for [nil].
    - a timer is a boolean: armed (or holding an unread tick).  [Reset] arms
      it, reading from its channel disarms it.  Durations are not modelled.
    - the condition variable [applyLogCond] is [applyLogWaiting]: whether the
      [applyLog] goroutine is blocked in [Wait].  [Signal] clears it.
    - [votes], the counter shared by the goroutines of one
      [kickOffNewElection], is [elections], keyed by the term of that election
      (the term grows before every call, so an instance calls it once a term). *)

From Stdlib Require Import Strings.Byte.
From stdpp Require Import prelude gmap strings list.
From S2P Require Import Prelude Gob.
Local Open Scope Z_scope.

(** ** Persister (src/src/raft/persister.go) *)

Record Persister := mkPersister {
  raftstate : list byte;
  ps_snapshot : list byte;
}.

Definition MakePersister : Persister := mkPersister [] [].

(** [make] and [copy]: a fresh slice with the same bytes. *)
Definition clone (orig : list byte) : list byte := take (length orig) orig.

Definition Save (ps : Persister) (rs snap : list byte) : Persister :=
  mkPersister (clone rs) (clone snap).

Definition ReadRaftState (ps : Persister) : list byte := clone (raftstate ps).
Definition ReadSnapshot (ps : Persister) : list byte := clone (ps_snapshot ps).
Definition SnapshotSize (ps : Persister) : Z := zlen (ps_snapshot ps).
(** The slices are shared: neither copy is ever written in place. *)
Definition Copy (ps : Persister) : Persister := mkPersister (raftstate ps) (ps_snapshot ps).
Definition RaftStateSize (ps : Persister) : Z := zlen (raftstate ps).

(** ** Constants *)

Inductive Identity := FOLLOWER | CANDIDATE | LEADER.

#[export] Instance Identity_eq_dec : EqDecision Identity.
Proof. solve_decision. Defined.

Definition Unvote : Z := -1.
Definition InvalidIndex : Z := -1.
Definition MinTimeout : Z := 300.
Definition MaxTimeout : Z := 800.

(** [getRandomTime], in milliseconds, of the value [rand.Intn(len)] returns. *)
Definition getRandomTime (intn : Z → Z) : Z :=
  let l := MinTimeout in
  let r := MaxTimeout in
  let len := r - l + 1 in
  l + intn len.

Section raft.
Context {C : Type}.

Record LogEntry := mkEntry { Command : option C; Term : Z }.

(** The zero value, at index 0 of a fresh log. *)
Definition zeroEntry : LogEntry := mkEntry None 0.

Record ApplyMsg := mkApplyMsg {
  CommandValid : bool;
  msg_Command : option C;
  CommandIndex : Z;
  SnapshotValid : bool;
  msg_Snapshot : list byte;
  SnapshotTerm : Z;
  SnapshotIndex : Z;
}.

(** ** RPC arguments and replies *)

Record RequestVoteArgs := mkRequestVoteArgs {
  rv_Term : Z;
  rv_CandidateId : Z;
  rv_LastLogIndex : Z;
  rv_LastLogTerm : Z;
}.

Record RequestVoteReply := mkRequestVoteReply {
  rvr_Term : Z;
  rvr_VoteGranted : bool;
}.

Record ApplyEntriesArgs := mkApplyEntriesArgs {
  ae_Term : Z;
  ae_LeaderId : Z;
  ae_PrevLogIndex : Z;
  ae_PrevLogTerm : Z;
  ae_Entries : list LogEntry;
  ae_LeaderCommit : Z;
}.

Record ApplyEntriesReply := mkApplyEntriesReply {
  aer_Term : Z;
  aer_Success : bool;
  aer_XTerm : Z;
  aer_XIndex : Z;
  aer_XLen : Z;
}.

Record InstallSnapshotArgs := mkInstallSnapshotArgs {
  is_Term : Z;
  is_LeaderId : Z;
  is_LastIncludedIndex : Z;
  is_LastIncludedTerm : Z;
  is_Data : list byte;
}.

Record InstallSnapshotReply := mkInstallSnapshotReply { isr_Term : Z }.

(** What a goroutine started by [go rf.send...] or by [kickOffNewElection]
    sends. *)
Inductive Rpc :=
  | RpcRequestVote (args : RequestVoteArgs)
  | RpcApplyEntries (args : ApplyEntriesArgs)
  | RpcInstallSnapshot (args : InstallSnapshotArgs).

(** ** The server *)

Record Raft := mkRaft {
  peers : nat;                   (* len(rf.peers) *)
  persister : Persister;
  me : Z;
  dead : bool;
  CurrentTerm : Z;
  identity : Identity;
  VoteFor : Z;
  heartbeatTimer : bool;
  electionTimer : bool;
  applyLogWaiting : bool;
  Logs : list LogEntry;
  committedIndex : Z;
  lastApplied : Z;
  nextIndex : list Z;
  matchIndex : list Z;
  DiscardCount : Z;
  snapshot : list byte;
  lastIncludedIndex : Z;
  applySnappending : bool;
  elections : gmap Z Z;
}.

Definition set_persister (x : Persister) (rf : Raft) : Raft :=
  mkRaft (peers rf) x (me rf) (dead rf) (CurrentTerm rf) (identity rf) (VoteFor rf)
    (heartbeatTimer rf) (electionTimer rf) (applyLogWaiting rf) (Logs rf)
    (committedIndex rf) (lastApplied rf) (nextIndex rf) (matchIndex rf)
    (DiscardCount rf) (snapshot rf) (lastIncludedIndex rf) (applySnappending rf)
    (elections rf).

Definition set_dead (x : bool) (rf : Raft) : Raft :=
  mkRaft (peers rf) (persister rf) (me rf) x (CurrentTerm rf) (identity rf) (VoteFor rf)
    (heartbeatTimer rf) (electionTimer rf) (applyLogWaiting rf) (Logs rf)
    (committedIndex rf) (lastApplied rf) (nextIndex rf) (matchIndex rf)
    (DiscardCount rf) (snapshot rf) (lastIncludedIndex rf) (applySnappending rf)
    (elections rf).

Definition set_CurrentTerm (x : Z) (rf : Raft) : Raft :=
  mkRaft (peers rf) (persister rf) (me rf) (dead rf) x (identity rf) (VoteFor rf)
    (heartbeatTimer rf) (electionTimer rf) (applyLogWaiting rf) (Logs rf)
    (committedIndex rf) (lastApplied rf) (nextIndex rf) (matchIndex rf)
    (DiscardCount rf) (snapshot rf) (lastIncludedIndex rf) (applySnappending rf)
    (elections rf).

Definition set_identity (x : Identity) (rf : Raft) : Raft :=
  mkRaft (peers rf) (persister rf) (me rf) (dead rf) (CurrentTerm rf) x (VoteFor rf)
    (heartbeatTimer rf) (electionTimer rf) (applyLogWaiting rf) (Logs rf)
    (committedIndex rf) (lastApplied rf) (nextIndex rf) (matchIndex rf)
    (DiscardCount rf) (snapshot rf) (lastIncludedIndex rf) (applySnappending rf)
    (elections rf).

Definition set_VoteFor (x : Z) (rf : Raft) : Raft :=
  mkRaft (peers rf) (persister rf) (me rf) (dead rf) (CurrentTerm rf) (identity rf) x
    (heartbeatTimer rf) (electionTimer rf) (applyLogWaiting rf) (Logs rf)
    (committedIndex rf) (lastApplied rf) (nextIndex rf) (matchIndex rf)
    (DiscardCount rf) (snapshot rf) (lastIncludedIndex rf) (applySnappending rf)
    (elections rf).

Definition set_heartbeatTimer (x : bool) (rf : Raft) : Raft :=
  mkRaft (peers rf) (persister rf) (me rf) (dead rf) (CurrentTerm rf) (identity rf) (VoteFor rf)
    x (electionTimer rf) (applyLogWaiting rf) (Logs rf)
    (committedIndex rf) (lastApplied rf) (nextIndex rf) (matchIndex rf)
    (DiscardCount rf) (snapshot rf) (lastIncludedIndex rf) (applySnappending rf)
    (elections rf).

Definition set_electionTimer (x : bool) (rf : Raft) : Raft :=
  mkRaft (peers rf) (persister rf) (me rf) (dead rf) (CurrentTerm rf) (identity rf) (VoteFor rf)
    (heartbeatTimer rf) x (applyLogWaiting rf) (Logs rf)
    (committedIndex rf) (lastApplied rf) (nextIndex rf) (matchIndex rf)
    (DiscardCount rf) (snapshot rf) (lastIncludedIndex rf) (applySnappending rf)
    (elections rf).

Definition set_applyLogWaiting (x : bool) (rf : Raft) : Raft :=
  mkRaft (peers rf) (persister rf) (me rf) (dead rf) (CurrentTerm rf) (identity rf) (VoteFor rf)
    (heartbeatTimer rf) (electionTimer rf) x (Logs rf)
    (committedIndex rf) (lastApplied rf) (nextIndex rf) (matchIndex rf)
    (DiscardCount rf) (snapshot rf) (lastIncludedIndex rf) (applySnappending rf)
    (elections rf).

Definition set_Logs (x : list LogEntry) (rf : Raft) : Raft :=
  mkRaft (peers rf) (persister rf) (me rf) (dead rf) (CurrentTerm rf) (identity rf) (VoteFor rf)
    (heartbeatTimer rf) (electionTimer rf) (applyLogWaiting rf) x
    (committedIndex rf) (lastApplied rf) (nextIndex rf) (matchIndex rf)
    (DiscardCount rf) (snapshot rf) (lastIncludedIndex rf) (applySnappending rf)
    (elections rf).

Definition set_committedIndex (x : Z) (rf : Raft) : Raft :=
  mkRaft (peers rf) (persister rf) (me rf) (dead rf) (CurrentTerm rf) (identity rf) (VoteFor rf)
    (heartbeatTimer rf) (electionTimer rf) (applyLogWaiting rf) (Logs rf)
    x (lastApplied rf) (nextIndex rf) (matchIndex rf)
    (DiscardCount rf) (snapshot rf) (lastIncludedIndex rf) (applySnappending rf)
    (elections rf).

Definition set_lastApplied (x : Z) (rf : Raft) : Raft :=
  mkRaft (peers rf) (persister rf) (me rf) (dead rf) (CurrentTerm rf) (identity rf) (VoteFor rf)
    (heartbeatTimer rf) (electionTimer rf) (applyLogWaiting rf) (Logs rf)
    (committedIndex rf) x (nextIndex rf) (matchIndex rf)
    (DiscardCount rf) (snapshot rf) (lastIncludedIndex rf) (applySnappending rf)
    (elections rf).

Definition set_nextIndex (x : list Z) (rf : Raft) : Raft :=
  mkRaft (peers rf) (persister rf) (me rf) (dead rf) (CurrentTerm rf) (identity rf) (VoteFor rf)
    (heartbeatTimer rf) (electionTimer rf) (applyLogWaiting rf) (Logs rf)
    (committedIndex rf) (lastApplied rf) x (matchIndex rf)
    (DiscardCount rf) (snapshot rf) (lastIncludedIndex rf) (applySnappending rf)
    (elections rf).

Definition set_matchIndex (x : list Z) (rf : Raft) : Raft :=
  mkRaft (peers rf) (persister rf) (me rf) (dead rf) (CurrentTerm rf) (identity rf) (VoteFor rf)
    (heartbeatTimer rf) (electionTimer rf) (applyLogWaiting rf) (Logs rf)
    (committedIndex rf) (lastApplied rf) (nextIndex rf) x
    (DiscardCount rf) (snapshot rf) (lastIncludedIndex rf) (applySnappending rf)
    (elections rf).

Definition set_DiscardCount (x : Z) (rf : Raft) : Raft :=
  mkRaft (peers rf) (persister rf) (me rf) (dead rf) (CurrentTerm rf) (identity rf) (VoteFor rf)
    (heartbeatTimer rf) (electionTimer rf) (applyLogWaiting rf) (Logs rf)
    (committedIndex rf) (lastApplied rf) (nextIndex rf) (matchIndex rf)
    x (snapshot rf) (lastIncludedIndex rf) (applySnappending rf)
    (elections rf).

Definition set_snapshot (x : list byte) (rf : Raft) : Raft :=
  mkRaft (peers rf) (persister rf) (me rf) (dead rf) (CurrentTerm rf) (identity rf) (VoteFor rf)
    (heartbeatTimer rf) (electionTimer rf) (applyLogWaiting rf) (Logs rf)
    (committedIndex rf) (lastApplied rf) (nextIndex rf) (matchIndex rf)
    (DiscardCount rf) x (lastIncludedIndex rf) (applySnappending rf)
    (elections rf).

Definition set_lastIncludedIndex (x : Z) (rf : Raft) : Raft :=
  mkRaft (peers rf) (persister rf) (me rf) (dead rf) (CurrentTerm rf) (identity rf) (VoteFor rf)
    (heartbeatTimer rf) (electionTimer rf) (applyLogWaiting rf) (Logs rf)
    (committedIndex rf) (lastApplied rf) (nextIndex rf) (matchIndex rf)
    (DiscardCount rf) (snapshot rf) x (applySnappending rf)
    (elections rf).

Definition set_applySnappending (x : bool) (rf : Raft) : Raft :=
  mkRaft (peers rf) (persister rf) (me rf) (dead rf) (CurrentTerm rf) (identity rf) (VoteFor rf)
    (heartbeatTimer rf) (electionTimer rf) (applyLogWaiting rf) (Logs rf)
    (committedIndex rf) (lastApplied rf) (nextIndex rf) (matchIndex rf)
    (DiscardCount rf) (snapshot rf) (lastIncludedIndex rf) x
    (elections rf).

Definition set_elections (x : gmap Z Z) (rf : Raft) : Raft :=
  mkRaft (peers rf) (persister rf) (me rf) (dead rf) (CurrentTerm rf) (identity rf) (VoteFor rf)
    (heartbeatTimer rf) (electionTimer rf) (applyLogWaiting rf) (Logs rf)
    (committedIndex rf) (lastApplied rf) (nextIndex rf) (matchIndex rf)
    (DiscardCount rf) (snapshot rf) (lastIncludedIndex rf) (applySnappending rf)
    x.

Definition RealIndex (rf : Raft) (raftIndex : Z) : Z := raftIndex - DiscardCount rf.
Definition RaftIndex (rf : Raft) (realIndex : Z) : Z := realIndex + DiscardCount rf.

Definition GetState (rf : Raft) : Z * bool :=
  (CurrentTerm rf, bool_decide (identity rf = LEADER)).

Definition Kill (rf : Raft) : Raft := set_dead true rf.
Definition killed (rf : Raft) : bool := dead rf.

(** [rf.electionTimer.Reset(getRandomTime())] *)
Definition resetElectionTimer (rf : Raft) : Raft := set_electionTimer true rf.

(** [rf.applyLogCond.Signal()] *)
Definition signalApply (rf : Raft) : Raft := set_applyLogWaiting false rf.

(** The assignments of a server that learns of a newer term from a reply:
    [rf.electionTimer.Reset(...); rf.CurrentTerm = term; rf.identity =
    FOLLOWER; rf.VoteFor = Unvote]. *)
Definition stepDown (term : Z) (rf : Raft) : Raft :=
  set_VoteFor Unvote (set_identity FOLLOWER (set_CurrentTerm term (resetElectionTimer rf))).

(** What [ApplyEntries] and [InstallSnapshot] do first with a message of a
    leader whose term is not stale. *)
Definition adoptTerm (term : Z) (rf : Raft) : Raft :=
  let rf := resetElectionTimer rf in
  let rf := set_identity FOLLOWER rf in
  if CurrentTerm rf <? term then set_VoteFor Unvote (set_CurrentTerm term rf) else rf.

End raft.

Arguments LogEntry : clear implicits.
Arguments ApplyMsg : clear implicits.
Arguments ApplyEntriesArgs : clear implicits.
Arguments Rpc : clear implicits.
Arguments Raft : clear implicits.

(** ** Binary search over the terms of the log

    [findFirstIndex] returns the first index whose term is at least [term],
    or [len(rf.Logs)]. *)
Section search.
Context {C : Type}.

Fixpoint findFirstLoop (fuel : nat) (logs : list (LogEntry C)) (term low high : Z)
    : outcome (Z * Z) :=
  if low <? high then
    match fuel with
    | O => NoFuel
    | S fuel =>
        let mid := Z.quot (low + high) 2 in
        e ← go_index logs mid;
        if Term e >=? term then findFirstLoop fuel logs term low mid
        else findFirstLoop fuel logs term (mid + 1) high
    end
  else Ret (low, high).

(** The interval [low, high] shrinks at every iteration, so the length of
    the log is enough fuel. *)
Definition findFirstIndexIn (logs : list (LogEntry C)) (term : Z) : outcome Z :=
  '(low, high) ← findFirstLoop (length logs) logs term 0 (zlen logs - 1);
  e ← go_index logs high;
  if Term e <? term then Ret (zlen logs) else Ret high.

Definition findFirstIndex (rf : Raft C) (term : Z) : outcome Z :=
  findFirstIndexIn (Logs rf) term.
End search.

(** ** Persistence, snapshots *)
Section persistence.
Context {C : Type} `{Gob Z} `{Gob (list (LogEntry C))}.
Implicit Types rf : Raft C.

Definition persist rf : Raft C :=
  let w := gob_enc [] (CurrentTerm rf) in
  let w := gob_enc w (VoteFor rf) in
  let w := gob_enc w (Logs rf) in
  set_persister (Save (persister rf) w (snapshot rf)) rf.

(** Three [Decode] calls, each returning early on an error. *)
Definition decodeRaftState (data : list byte) : option (Z * Z * list (LogEntry C)) :=
  '(currentTerm, p) ← gob_dec data 0%nat;
  '(voteFor, p) ← gob_dec data p;
  '(logs, _) ← gob_dec data p;
  Some (currentTerm, voteFor, logs).

Definition readPersist (data : list byte) rf : Raft C :=
  if zlen data <? 1 then rf
  else match decodeRaftState data with
       | None => rf
       | Some (currentTerm, voteFor, logs) =>
           set_Logs logs (set_VoteFor voteFor (set_CurrentTerm currentTerm rf))
       end.

Definition readSnapShot (data : list byte) rf : outcome (Raft C) :=
  if zlen data <? 1 then Ret rf
  else match gob_dec (A := Z) data 0%nat with
       | None => Panic Fatal
       | Some (lastIncludedIndex, _) =>
           let rf := set_committedIndex lastIncludedIndex rf in
           let rf := set_lastApplied lastIncludedIndex rf in
           let rf := set_DiscardCount lastIncludedIndex rf in
           let rf := set_snapshot data rf in
           Ret (set_lastIncludedIndex lastIncludedIndex rf)
       end.

(** The first loop of [doSnapshot]: how many entries after the first one
    the snapshot covers; [rest] is [rf.Logs[i:]]. *)
Fixpoint countCovered rf (i cnt : Z) (rest : list (LogEntry C)) : Z :=
  match rest with
  | [] => cnt
  | _ :: rest =>
      if RaftIndex rf i <=? lastIncludedIndex rf
      then countCovered rf (i + 1) (cnt + 1) rest
      else cnt
  end.

(** The second loop, [n] iterations from [i]. *)
Fixpoint shiftLogs (n : nat) (i cnt : Z) (logs : list (LogEntry C))
    : outcome (list (LogEntry C)) :=
  match n with
  | O => Ret logs
  | S n =>
      e ← go_index logs (i + cnt);
      logs ← go_set logs i e;
      shiftLogs n (i + 1) cnt logs
  end.

Definition doSnapshot rf : outcome (Raft C) :=
  let cnt := countCovered rf 1 0 (tail (Logs rf)) in
  logs ← shiftLogs (Z.to_nat (zlen (Logs rf) - cnt)) 0 cnt (Logs rf);
  logs ← go_slice_to logs (zlen logs - cnt);
  let rf := set_Logs logs rf in
  let rf := set_DiscardCount (lastIncludedIndex rf) rf in
  Ret (persist rf).

Definition Snapshot (index : Z) (snap : list byte) rf : outcome (Raft C) :=
  if index <=? lastIncludedIndex rf then Ret rf
  else
    let rf := if committedIndex rf <=? index then set_committedIndex index rf else rf in
    let rf := if lastApplied rf <=? index then set_lastApplied index rf else rf in
    let rf := set_lastIncludedIndex index rf in
    let rf := set_snapshot (clone snap) rf in
    doSnapshot rf.

(** [Make], up to starting the [ticker] and [applyLog] goroutines. *)
Definition Make (n : nat) (i : Z) (ps : Persister) : outcome (Raft C) :=
  let rf := mkRaft n ps i false 0 FOLLOWER Unvote true true false [zeroEntry]
              0 0 (replicate n 0) (replicate n 0) 0 [] 0 false ∅ in
  let rf := readPersist (ReadRaftState ps) rf in
  readSnapShot (ReadSnapshot ps) rf.
End persistence.

(** ** RPC handlers *)
Section handlers.
Context {C : Type} `{Gob Z} `{Gob (list (LogEntry C))}.
Implicit Types rf : Raft C.

(** [defer rf.persist()] runs on every return. *)
Definition RequestVote rf (args : RequestVoteArgs) : outcome (Raft C * RequestVoteReply) :=
  if (rv_Term args <? CurrentTerm rf) ||
     ((rv_Term args =? CurrentTerm rf) && negb (VoteFor rf =? Unvote) &&
      negb (VoteFor rf =? rv_CandidateId args))
  then Ret (persist rf, mkRequestVoteReply (CurrentTerm rf) false)
  else
    let rf :=
      if rv_Term args >? CurrentTerm rf then
        let rf := if decide (identity rf = FOLLOWER) then rf else resetElectionTimer rf in
        set_VoteFor Unvote (set_identity FOLLOWER (set_CurrentTerm (rv_Term args) rf))
      else rf in
    let realIndex := zlen (Logs rf) - 1 in
    let lastLogIndex := RaftIndex rf realIndex in
    e ← go_index (Logs rf) realIndex;
    let lastLogTerm := Term e in
    let ok := (rv_LastLogTerm args >? lastLogTerm) ||
              ((rv_LastLogTerm args =? lastLogTerm) &&
               (rv_LastLogIndex args >=? lastLogIndex)) in
    if negb ok then Ret (persist rf, mkRequestVoteReply (CurrentTerm rf) false)
    else
      let reply := mkRequestVoteReply (CurrentTerm rf) true in
      let rf := set_CurrentTerm (rv_Term args) rf in
      let rf := set_identity FOLLOWER rf in
      let rf := set_VoteFor (rv_CandidateId args) rf in
      let rf := resetElectionTimer rf in
      Ret (persist rf, reply).

Definition ReplicateCheck rf (args : ApplyEntriesArgs C) : outcome bool :=
  let prevIndex := RealIndex rf (ae_PrevLogIndex args) in
  if prevIndex <? 0 then Ret false
  else if prevIndex =? 0 then
    if lastIncludedIndex rf =? ae_PrevLogIndex args then
      e ← go_index (Logs rf) prevIndex; Ret (Term e =? ae_PrevLogTerm args)
    else Ret false
  else if prevIndex <? zlen (Logs rf) then
    e ← go_index (Logs rf) prevIndex; Ret (Term e =? ae_PrevLogTerm args)
  else Ret false.

(** The conflict loop: [j] is [rf.RealIndex(raftindex + i)] and [logs] the
    entries from [i] on. *)
Fixpoint truncateConflict (L : list (LogEntry C)) (j : Z) (logs : list (LogEntry C))
    : outcome (list (LogEntry C)) :=
  match logs with
  | [] => Ret L
  | e :: logs =>
      if j <? zlen L then
        x ← go_index L j;
        if negb (Term x =? Term e) then go_slice_to L j
        else truncateConflict L (j + 1) logs
      else Ret L
  end.

(** The copying loop. *)
Fixpoint copyEntries (L : list (LogEntry C)) (j : Z) (logs : list (LogEntry C))
    : outcome (list (LogEntry C)) :=
  match logs with
  | [] => Ret L
  | e :: logs =>
      L ← (if j >=? zlen L then Ret (L ++ [e]) else go_set L j e);
      copyEntries L (j + 1) logs
  end.

(** [t := rf.committedIndex; rf.committedIndex = x; if t != rf.committedIndex
    { rf.applyLogCond.Signal() }] *)
Definition updateCommit (x : Z) rf : Raft C :=
  let t := committedIndex rf in
  let rf := set_committedIndex x rf in
  if negb (t =? committedIndex rf) then signalApply rf else rf.

Definition ApplyEntries rf (args : ApplyEntriesArgs C) : outcome (Raft C * ApplyEntriesReply) :=
  if CurrentTerm rf >? ae_Term args then
    Ret (persist rf, mkApplyEntriesReply (CurrentTerm rf) false 0 0 0)
  else
    let rf := adoptTerm (ae_Term args) rf in
    let term := CurrentTerm rf in
    let prevIndex := RealIndex rf (ae_PrevLogIndex args) in
    check ← ReplicateCheck rf args;
    if negb check then
      if prevIndex <? 0 then
        Ret (persist rf, mkApplyEntriesReply term true 0 0 0)
      else if prevIndex >=? zlen (Logs rf) then
        Ret (persist rf,
             mkApplyEntriesReply term false 0 InvalidIndex (RaftIndex rf (zlen (Logs rf))))
      else
        e ← go_index (Logs rf) prevIndex;
        let XTerm := Term e in
        index ← findFirstIndex rf XTerm;
        if index >=? zlen (Logs rf) then Panic (Explicit "rf.findFirstIndex: error!")
        else
          f ← go_index (Logs rf) index;
          if negb (Term f =? XTerm) then Panic (Explicit "rf.findFirstIndex: error!")
          else
            Ret (persist rf,
                 mkApplyEntriesReply term false XTerm (RaftIndex rf index)
                   (RaftIndex rf (zlen (Logs rf))))
    else
      let reply := mkApplyEntriesReply term true 0 0 0 in
      if zlen (ae_Entries args) >? 0 then
        let raftindex := ae_PrevLogIndex args + 1 in
        L ← truncateConflict (Logs rf) (RealIndex rf raftindex) (ae_Entries args);
        L ← copyEntries L (RealIndex rf raftindex) (ae_Entries args);
        let rf := set_Logs L rf in
        let rf :=
          if ae_LeaderCommit args >? committedIndex rf then
            updateCommit (if ae_LeaderCommit args >? raftindex then raftindex
                          else ae_LeaderCommit args) rf
          else rf in
        Ret (persist rf, reply)
      else
        let rf :=
          if ae_LeaderCommit args >? committedIndex rf then
            let last := RaftIndex rf (zlen (Logs rf) - 1) in
            updateCommit (if ae_LeaderCommit args >=? last then last
                          else ae_LeaderCommit args) rf
          else rf in
        Ret (persist rf, reply).

Definition InstallSnapshot rf (args : InstallSnapshotArgs)
    : outcome (Raft C * InstallSnapshotReply) :=
  if is_Term args <? CurrentTerm rf then
    Ret (rf, mkInstallSnapshotReply (CurrentTerm rf))
  else
    let rf := adoptTerm (is_Term args) rf in
    let reply := mkInstallSnapshotReply (CurrentTerm rf) in
    if lastIncludedIndex rf >=? is_LastIncludedIndex args then Ret (rf, reply)
    else
      let rf := set_lastIncludedIndex (is_LastIncludedIndex args) rf in
      let rf := set_snapshot (clone (is_Data args)) rf in
      let realIndex := RealIndex rf (is_LastIncludedIndex args) in
      keep ← (if (realIndex >? 0) && (realIndex <? zlen (Logs rf)) then
                e ← go_index (Logs rf) realIndex; Ret (Term e =? is_LastIncludedTerm args)
              else Ret false);
      let rf := if (keep : bool) then rf
                else set_Logs [mkEntry None (is_LastIncludedTerm args)] rf in
      rf ← doSnapshot rf;
      let rf := set_applySnappending true rf in
      Ret (signalApply rf, reply).
End handlers.

(** ** The leader and the goroutines *)
Section leader.
Context {C : Type} `{Gob Z} `{Gob (list (LogEntry C))}.
Implicit Types rf : Raft C.

(** The peers [for i := range rf.peers] visits, this server left out. *)
Definition otherPeers rf : list Z :=
  filter (λ i, i ≠ me rf) (seqZ 0 (Z.of_nat (peers rf))).

(** The message [sendHeartBeat] sends to peer [i]. *)
Definition heartBeatTo rf (i : Z) : outcome (Rpc C) :=
  next ← go_index (nextIndex rf) i;
  if next <=? lastIncludedIndex rf then
    e ← go_index (Logs rf) 0;
    Ret (RpcInstallSnapshot
           (mkInstallSnapshotArgs (CurrentTerm rf) (me rf) (lastIncludedIndex rf)
              (Term e) (clone (snapshot rf))))
  else
    let lastLogIndex := RaftIndex rf (zlen (Logs rf) - 1) in
    if lastLogIndex >=? next then
      let raftIndex := next in
      if raftIndex =? 0 then Panic (Explicit "nextIndex[i] == 0")
      else
        let realPrevIndex := RealIndex rf (raftIndex - 1) in
        if realPrevIndex <? 0 then Panic (Explicit "realPrevIndex < 0")
        else
          e ← go_index (Logs rf) realPrevIndex;
          entries ← go_slice_from (Logs rf) (RealIndex rf raftIndex);
          Ret (RpcApplyEntries
                 (mkApplyEntriesArgs (CurrentTerm rf) (me rf) (raftIndex - 1) (Term e)
                    entries (committedIndex rf)))
    else
      e ← go_index (Logs rf) (RealIndex rf lastLogIndex);
      Ret (RpcApplyEntries
             (mkApplyEntriesArgs (CurrentTerm rf) (me rf) lastLogIndex (Term e)
                [] (committedIndex rf))).

Fixpoint heartBeats rf (js : list Z) : outcome (list (Z * Rpc C)) :=
  match js with
  | [] => Ret []
  | i :: js =>
      m ← heartBeatTo rf i;
      ms ← heartBeats rf js;
      Ret ((i, m) :: ms)
  end.

Definition sendHeartBeat rf : outcome (list (Z * Rpc C)) :=
  heartBeats rf (otherPeers rf).

(** Returns the new state, the results (index, term, isLeader) and the
    messages sent. *)
Definition Start (command : option C) rf
    : outcome (Raft C * (Z * Z * bool) * list (Z * Rpc C)) :=
  if killed rf then Ret (rf, (-1, -1, false), [])
  else if decide (identity rf = LEADER) then
    let index := RaftIndex rf (zlen (Logs rf)) in
    let rf := set_Logs (Logs rf ++ [mkEntry command (CurrentTerm rf)]) rf in
    let rf := persist rf in
    ms ← sendHeartBeat rf;
    Ret (rf, (index, CurrentTerm rf, true), ms)
  else Ret (rf, (-1, -1, false), []).

(** *** [updateCommittedIndex] *)

(** The inner loop over the peers for the raft index [n]: whether [cnt]
    reaches a majority. *)
Fixpoint countMatches rf (n cnt : Z) (js : list Z) : outcome bool :=
  match js with
  | [] => Ret false
  | j :: js =>
      m ← go_index (matchIndex rf) j;
      if m >=? n then
        let cnt := cnt + 1 in
        if cnt >? Z.of_nat (peers rf) - cnt then Ret true
        else countMatches rf n cnt js
      else countMatches rf n cnt js
  end.

(** The outer loop, [N] going down from [high - 1] to [low]; [k] bounds the
    number of iterations. *)
Fixpoint searchCommit (k : nat) rf (low N : Z) : outcome Z :=
  if (N >=? low) && (RaftIndex rf N >? committedIndex rf) then
    match k with
    | O => NoFuel
    | S k =>
        ok ← countMatches rf (RaftIndex rf N) 1 (otherPeers rf);
        if ok : bool then Ret (RaftIndex rf N) else searchCommit k rf low (N - 1)
    end
  else Ret (committedIndex rf).

Definition updateCommittedIndex rf : outcome (Raft C) :=
  low ← findFirstIndex rf (CurrentTerm rf);
  if low =? zlen (Logs rf) then Ret rf
  else
    e ← go_index (Logs rf) low;
    if negb (Term e =? CurrentTerm rf) then Ret rf
    else
      high ← findFirstIndex rf (CurrentTerm rf + 1);
      if low >=? high then Panic (Explicit "updateCommittedIndex()")
      else
        f ← go_index (Logs rf) (high - 1);
        if negb (Term f =? CurrentTerm rf) then Panic (Explicit "updateCommittedIndex()")
        else
          res ← searchCommit (length (Logs rf)) rf low (high - 1);
          if negb (committedIndex rf =? res)
          then Ret (signalApply (set_committedIndex res rf))
          else Ret rf.

(** *** What the sending goroutines do with a reply *)

Definition handleInstallSnapshotReply rf (server : Z) (args : InstallSnapshotArgs)
    (reply : InstallSnapshotReply) : outcome (Raft C) :=
  if isr_Term reply <? CurrentTerm rf then Ret rf
  else if isr_Term reply >? CurrentTerm rf then
    Ret (persist (stepDown (isr_Term reply) rf))
  else
    let index := is_LastIncludedIndex args in
    m ← go_index (matchIndex rf) server;
    if m <=? index then
      mi ← go_set (matchIndex rf) server index;
      let rf := set_matchIndex mi rf in
      ni ← go_set (nextIndex rf) server (index + 1);
      Ret (set_nextIndex ni rf)
    else Ret rf.

Definition handleApplyEntriesReply rf (server : Z) (args : ApplyEntriesArgs C)
    (reply : ApplyEntriesReply) : outcome (Raft C) :=
  if aer_Term reply <? CurrentTerm rf then Ret rf
  else if negb (aer_Success reply) then
    if aer_Term reply >? ae_Term args then
      if aer_Term reply >? CurrentTerm rf
      then Ret (persist (stepDown (aer_Term reply) rf))
      else Ret rf
    else if aer_XIndex reply =? InvalidIndex then
      ni ← go_set (nextIndex rf) server (aer_XLen reply);
      Ret (set_nextIndex ni rf)
    else
      index ← findFirstIndex rf (aer_XTerm reply);
      present ← (if index =? zlen (Logs rf) then Ret false
                 else e ← go_index (Logs rf) index; Ret (Term e =? aer_XTerm reply));
      if negb present then
        ni ← go_set (nextIndex rf) server (aer_XIndex reply);
        Ret (set_nextIndex ni rf)
      else
        index2 ← findFirstIndex rf (aer_XTerm reply + 1);
        e ← go_index (Logs rf) (index2 - 1);
        if negb (Term e =? aer_XTerm reply)
        then Panic (Explicit "rf.Logs[index2 - 1].Term != reply.XTerm")
        else
          ni ← go_set (nextIndex rf) server (RaftIndex rf (index2 - 1));
          Ret (set_nextIndex ni rf)
  else if zlen (ae_Entries args) >? 0 then
    let index := ae_PrevLogIndex args + 1 in
    next ← go_index (nextIndex rf) server;
    if index =? next then
      let m := index + zlen (ae_Entries args) - 1 in
      mi ← go_set (matchIndex rf) server m;
      let rf := set_matchIndex mi rf in
      ni ← go_set (nextIndex rf) server (m + 1);
      let rf := set_nextIndex ni rf in
      updateCommittedIndex rf
    else Ret rf
  else Ret rf.

(** *** Elections *)

(** The state change is the fresh counter [votes = 1]. *)
Definition kickOffNewElection rf : outcome (Raft C * list (Z * Rpc C)) :=
  e ← go_index (Logs rf) (zlen (Logs rf) - 1);
  let args := mkRequestVoteArgs (CurrentTerm rf) (me rf)
                (RaftIndex rf (zlen (Logs rf) - 1)) (Term e) in
  let rf := set_elections (<[CurrentTerm rf := 1]> (elections rf)) rf in
  Ret (rf, (λ i, (i, RpcRequestVote args)) <$> otherPeers rf).

Definition becomeLeader rf : outcome (Raft C) :=
  let rf := set_heartbeatTimer true rf in
  let rf := set_identity LEADER rf in
  ni ← go_fill (peers rf) (nextIndex rf) (RaftIndex rf (zlen (Logs rf)));
  let rf := set_nextIndex ni rf in
  mi ← go_fill (peers rf) (matchIndex rf) 0;
  Ret (set_matchIndex mi rf).

Definition handleRequestVoteReply rf (args : RequestVoteArgs) (reply : RequestVoteReply)
    : outcome (Raft C) :=
  if rvr_Term reply <? CurrentTerm rf then Ret rf
  else if rvr_Term reply >? CurrentTerm rf then
    Ret (persist (stepDown (rvr_Term reply) rf))
  else if rvr_VoteGranted reply then
    let votes := default 0 (elections rf !! rv_Term args) + 1 in
    let rf := set_elections (<[rv_Term args := votes]> (elections rf)) rf in
    if (votes * 2 >? Z.of_nat (peers rf)) && (rvr_Term reply =? CurrentTerm rf) &&
       bool_decide (identity rf = CANDIDATE)
    then becomeLeader rf
    else Ret rf
  else Ret rf.

(** *** [ticker]: the two cases of the [select] *)

Definition tickElection rf : outcome (Raft C * list (Z * Rpc C)) :=
  let rf := set_electionTimer false rf in
  if decide (identity rf = LEADER) then Ret (rf, [])
  else
    let rf := set_CurrentTerm (CurrentTerm rf + 1) rf in
    let rf := set_identity CANDIDATE rf in
    let rf := set_VoteFor (me rf) rf in
    let rf := persist rf in
    let rf := resetElectionTimer rf in
    kickOffNewElection rf.

Definition tickHeartbeat rf : outcome (Raft C * list (Z * Rpc C)) :=
  let rf := set_heartbeatTimer false rf in
  if decide (identity rf = LEADER) then
    ms ← sendHeartBeat rf;
    Ret (set_heartbeatTimer true rf, ms)
  else Ret (rf, []).

(** *** [applyLog] *)

(** The inner loop, [n] iterations. *)
Fixpoint applyCommands (n : nat) rf : outcome (Raft C * list (ApplyMsg C)) :=
  match n with
  | O => Ret (rf, [])
  | S n =>
      let rf := set_lastApplied (lastApplied rf + 1) rf in
      e ← go_index (Logs rf) (RealIndex rf (lastApplied rf));
      let msg := mkApplyMsg true (Command e) (lastApplied rf) false [] 0 0 in
      '(rf, msgs) ← applyCommands n rf;
      Ret (rf, msg :: msgs)
  end.

(** One turn of [applyLog] from the moment it holds the lock: it exits
    ([None]), blocks in [Wait], or returns the messages it then sends on
    [rf.applyChan]. *)
Definition applyLog rf : outcome (Raft C * option (list (ApplyMsg C))) :=
  if negb (killed rf) && (committedIndex rf <=? lastApplied rf) && negb (applySnappending rf)
  then Ret (set_applyLogWaiting true rf, Some [])
  else if killed rf then Ret (rf, None)
  else
    '(rf, snap) ←
      (if applySnappending rf then
         e ← go_index (Logs rf) 0;
         Ret (set_applySnappending false rf,
              [mkApplyMsg false None 0 true (clone (snapshot rf)) (Term e)
                 (lastIncludedIndex rf)])
       else Ret (rf, []));
    if lastApplied rf <? committedIndex rf then
      let rf := if lastApplied rf <? lastIncludedIndex rf
                then set_lastApplied (lastIncludedIndex rf) rf else rf in
      '(rf, cmds) ← applyCommands (Z.to_nat (committedIndex rf - lastApplied rf)) rf;
      Ret (rf, Some (snap ++ cmds))
    else Ret (rf, Some snap).
End leader.
