(* ===== verification/RaftNode.v ===== *)
(** * Raft: the correctness of one server

    The binary search over terms, the log surgery of [ApplyEntries],
    [Snapshot] and [InstallSnapshot], the well-formedness invariant of a
    server and its preservation (which includes that no handler panics), crash
    recovery, the commit rule and the stream of apply messages. *)

From Stdlib Require Import Strings.Byte.
From stdpp Require Import prelude gmap strings list.
From S2P Require Import Prelude Gob Raft.
Local Open Scope Z_scope.

(** ** Logs *)

Section logs.
Context {C : Type}.
Implicit Types (logs L E : list (LogEntry C)) (rf : Raft C).

(** Terms never decrease along a log. *)
Definition terms_sorted logs : Prop :=
  ∀ (i j : nat) x y, (i ≤ j)%nat → logs !! i = Some x → logs !! j = Some y → Term x ≤ Term y.

Definition terms_le (t : Z) logs : Prop := ∀ x, x ∈ logs → Term x ≤ t.

Lemma terms_sorted_app L E :
  terms_sorted (L ++ E) ↔
  terms_sorted L ∧ terms_sorted E ∧ (∀ x y, x ∈ L → y ∈ E → Term x ≤ Term y).
Proof.
  split.
  - intros Hs. split_and!.
    + intros i j x y Hij Hi Hj. apply (Hs i j); try done; by apply lookup_app_l_Some.
    + intros i j x y Hij Hi Hj. apply (Hs (length L + i)%nat (length L + j)%nat); [lia|..];
        rewrite lookup_app_r by lia; by rewrite Nat.add_comm, Nat.add_sub.
    + intros x y [i Hi]%list_elem_of_lookup [j Hj]%list_elem_of_lookup.
      apply (Hs i (length L + j)%nat).
      * pose proof (lookup_lt_Some _ _ _ Hi). lia.
      * by apply lookup_app_l_Some.
      * rewrite lookup_app_r by lia. by rewrite Nat.add_comm, Nat.add_sub.
  - intros (HL & HE & Hx) i j x y Hij Hi Hj.
    apply lookup_app_Some in Hi as [Hi|[Hi1 Hi]], Hj as [Hj|[Hj1 Hj]].
    + by eapply (HL i j).
    + apply Hx; eapply list_elem_of_lookup_2; done.
    + apply lookup_lt_Some in Hj. lia.
    + eapply (HE _ _ x y _ Hi Hj). Unshelve. lia.
Qed.

Lemma terms_sorted_take k L : terms_sorted L → terms_sorted (take k L).
Proof. rewrite <-(take_drop k L) at 1. by intros [? _]%terms_sorted_app. Qed.

Lemma terms_sorted_drop k L : terms_sorted L → terms_sorted (drop k L).
Proof. rewrite <-(take_drop k L) at 1. by intros (_ & ? & _)%terms_sorted_app. Qed.

Lemma terms_sorted_singleton e : terms_sorted [e].
Proof.
  intros i j x y Hij Hi Hj.
  apply lookup_lt_Some in Hi as Hi', Hj as Hj'. simpl in *.
  assert (i = 0%nat) as -> by lia. assert (j = 0%nat) as -> by lia. by simplify_eq/=.
Qed.

Lemma terms_le_app t L E : terms_le t (L ++ E) ↔ terms_le t L ∧ terms_le t E.
Proof.
  unfold terms_le. setoid_rewrite elem_of_app. split; [auto|]. intros [HL HE] x [?|?]; auto.
Qed.

Lemma terms_le_take t k L : terms_le t L → terms_le t (take k L).
Proof. rewrite <-(take_drop k L) at 1. by intros [? _]%terms_le_app. Qed.

Lemma terms_le_drop t k L : terms_le t L → terms_le t (drop k L).
Proof. rewrite <-(take_drop k L) at 1. by intros [_ ?]%terms_le_app. Qed.

Lemma terms_le_mono t t' L : t ≤ t' → terms_le t L → terms_le t' L.
Proof. intros ? HL x Hx. specialize (HL x Hx). lia. Qed.

Lemma terms_le_singleton t e : Term e ≤ t → terms_le t [e].
Proof. by intros ? x ->%list_elem_of_singleton. Qed.

(** The entries before [k] are below those of a sorted log from [k] on. *)
Lemma terms_sorted_take_le k L p x :
  terms_sorted L → L !! k = Some p → x ∈ take (S k) L → Term x ≤ Term p.
Proof.
  intros Hs Hp [i Hi]%list_elem_of_lookup.
  apply lookup_take_Some in Hi as [Hi Hik]. eapply (Hs i k); [lia|done|done].
Qed.
End logs.

#[export] Hint Resolve terms_sorted_take terms_sorted_drop terms_sorted_singleton
  terms_le_take terms_le_drop terms_le_singleton : godb.

(** ** [findFirstIndex] *)
Section search_correct.
Context {C : Type}.
Implicit Types (logs : list (LogEntry C)).

Lemma quot_mid low high :
  0 ≤ low < high → low ≤ Z.quot (low + high) 2 < high.
Proof. intros. Z.to_euclidean_division_equations. lia. Qed.

(** The loop narrows [low, high] to one index and never leaves the log;
    what lies before it stays below [term]. *)
Lemma findFirstLoop_correct fuel logs term low high :
  terms_sorted logs → 0 ≤ low ≤ high → high < zlen logs → high - low ≤ Z.of_nat fuel →
  (∀ (i : nat) x, Z.of_nat i < low → logs !! i = Some x → Term x < term) →
  ∃ r, findFirstLoop fuel logs term low high = Ret (r, r) ∧ low ≤ r ≤ high ∧
    (∀ (i : nat) x, Z.of_nat i < r → logs !! i = Some x → Term x < term) ∧
    (r < high → ∀ x, logs !! Z.to_nat r = Some x → term ≤ Term x).
Proof.
  intros Hs. revert low high. induction fuel as [|fuel IH]; intros low high Hlh Hlen Hf Hlo; simpl.
  { assert (low = high) as -> by lia. rewrite Z.ltb_irrefl.
    exists high. split_and!; [done|lia|lia|done|lia]. }
  destruct (low <? high) eqn:Hlt.
  2:{ assert (low = high) as -> by lia. exists high. split_and!; [done|lia|lia|done|lia]. }
  pose proof (quot_mid low high ltac:(lia)) as Hmid. revert Hmid.
  generalize (Z.quot (low + high) 2) as mid. intros mid Hmid.
  destruct (go_index_in_range logs mid) as (e & -> & He); [lia|]. simpl.
  destruct (Term e >=? term) eqn:Ht.
  - destruct (IH low mid) as (r & -> & Hr & H1 & H2); [lia..|done|].
    exists r. split_and!; [done|lia|lia|done|]. intros _ x Hx.
    destruct (decide (r = mid)) as [->|]; [simplify_eq; lia|]. apply H2; [lia|done].
  - destruct (IH (mid + 1) high) as (r & -> & Hr & H1 & H2); [lia..| |].
    { intros i x Hi Hx. assert (Term x ≤ Term e) by (apply (Hs i (Z.to_nat mid)); [lia|done|done]).
      lia. }
    exists r. split_and!; [done|lia|lia|done|done].
Qed.

Lemma findFirstIndexIn_correct logs term :
  terms_sorted logs → logs ≠ [] →
  ∃ r, findFirstIndexIn logs term = Ret r ∧ 0 ≤ r ≤ zlen logs ∧
    (∀ (i : nat) x, Z.of_nat i < r → logs !! i = Some x → Term x < term) ∧
    (∀ (i : nat) x, r ≤ Z.of_nat i → logs !! i = Some x → term ≤ Term x).
Proof.
  intros Hs Hne. assert (0 < zlen logs) by (destruct logs; [done|simpl; lia]).
  unfold findFirstIndexIn.
  destruct (findFirstLoop_correct (length logs) logs term 0 (zlen logs - 1))
    as (r & -> & Hr & H1 & H2); [done|lia..| |]. { intros i x Hi. lia. }
  rewrite bind_Ret. destruct (go_index_in_range logs r) as (e & -> & He); [lia|].
  rewrite bind_Ret. destruct (Term e <? term) eqn:Ht.
  - eexists. split_and!; [done|lia|lia| |].
    + intros i x Hi Hx. destruct (decide (r < zlen logs - 1)) as [Hlt|].
      { specialize (H2 Hlt e He). lia. }
      destruct (decide (Z.of_nat i < r)); [by eapply H1|].
      assert (i = Z.to_nat r) as -> by lia. simplify_eq. lia.
    + intros i x Hi Hx%lookup_lt_Some. lia.
  - exists r. split_and!; [done|lia|lia|done|]. intros i x Hi Hx.
    assert (Term e ≤ Term x) by (apply (Hs (Z.to_nat r) i); [lia|done|done]). lia.
Qed.

(** When some entry has the term searched for, its first one is found. *)
Lemma findFirstIndexIn_present logs (k : nat) e :
  terms_sorted logs → logs !! k = Some e →
  ∃ (r : nat) f, findFirstIndexIn logs (Term e) = Ret (Z.of_nat r) ∧ (r ≤ k)%nat ∧
    logs !! r = Some f ∧ Term f = Term e ∧
    (∀ (i : nat) x, (i < r)%nat → logs !! i = Some x → Term x < Term e).
Proof.
  intros Hs He. destruct (findFirstIndexIn_correct logs (Term e)) as (r & Hr & Hb & H1 & H2);
    [done|by intros ->|].
  assert (r ≤ Z.of_nat k). { destruct (decide (Z.of_nat k < r)); [|lia]. specialize (H1 k e ltac:(done) He). lia. }
  pose proof (lookup_lt_Some _ _ _ He).
  destruct (lookup_lt_is_Some_2 logs (Z.to_nat r)) as [f Hf]; [lia|].
  exists (Z.to_nat r), f. rewrite Z2Nat.id by lia. split_and!; [done|lia|done| |].
  - apply Z.le_antisymm; [apply (Hs (Z.to_nat r) k); [lia|done|done]|].
    apply (H2 (Z.to_nat r)); [lia|done].
  - intros i x Hi. apply H1. lia.
Qed.
End search_correct.

(** ** Log surgery *)
Section surgery.
Context {C : Type}.
Implicit Types (logs L E : list (LogEntry C)) (rf : Raft C).

(** Some entry of [E] disagrees on its term with the entry of [L] at the
    same position. *)
Definition conflicts L E : bool :=
  existsb (λ '(x, y), negb (Term x =? Term y)) (zip L E).

(** The reference for the two loops of [ApplyEntries]: the entries [E] are
    written from position [k] on; what follows them is dropped only if they
    conflict with the log. *)
Definition mergeLog L (k : nat) E : list (LogEntry C) :=
  if conflicts (drop k L) E then take k L ++ E
  else take k L ++ E ++ drop (k + length E) L.

Lemma copyEntries_spec L (k : nat) E :
  (k ≤ length L)%nat →
  copyEntries L (Z.of_nat k) E = Ret (take k L ++ E ++ drop (k + length E) L).
Proof.
  revert L k. induction E as [|e E IH]; intros L k Hk; simpl.
  { by rewrite Nat.add_0_r, take_drop. }
  replace (Z.of_nat k + 1) with (Z.of_nat (S k)) by lia.
  destruct (Z.of_nat k >=? zlen L) eqn:Hge; simpl.
  - rewrite IH by (rewrite length_app; simpl; lia).
    assert (k = length L) as -> by lia.
    rewrite (take_ge (L ++ [e])), (drop_ge (L ++ [e])) by (rewrite length_app; simpl; lia).
    rewrite take_ge, drop_ge by lia. by rewrite <-app_assoc, !app_nil_r.
  - rewrite go_set_in_range by lia. simpl. rewrite Nat2Z.id, IH by (rewrite length_insert; lia).
    rewrite (take_S_r _ _ e) by (apply list_lookup_insert_eq; lia).
    rewrite take_insert_ge, drop_insert_lt by lia. rewrite <-app_assoc. simpl.
    by rewrite Nat.add_succ_r.
Qed.

Lemma truncateConflict_spec L (k : nat) E :
  (k ≤ length L)%nat →
  (conflicts (drop k L) E = false ∧ truncateConflict L (Z.of_nat k) E = Ret L) ∨
  (conflicts (drop k L) E = true ∧ ∃ i, (i < length E)%nat ∧
    truncateConflict L (Z.of_nat k) E = Ret (take (k + i) L)).
Proof.
  revert k. induction E as [|e E IH]; intros k Hk; simpl.
  { left. split; [|done]. by destruct (drop k L). }
  destruct (Z.of_nat k <? zlen L) eqn:Hlt.
  2:{ left. split; [|done]. by rewrite drop_ge by lia. }
  destruct (lookup_lt_is_Some_2 L k) as [x Hx]; [lia|].
  rewrite (go_index_lookup _ _ _ Hx), (drop_S _ _ _ Hx). simpl. unfold conflicts. simpl.
  destruct (Term x =? Term e); simpl.
  - replace (Z.of_nat k + 1) with (Z.of_nat (S k)) by lia.
    destruct (IH (S k)) as [?|(? & i & ? & ->)]; [lia|by left|right].
    split; [done|]. exists (S i). split; [lia|]. do 2 f_equal. lia.
  - right. split; [done|]. exists 0%nat. split; [lia|].
    rewrite go_slice_to_in_range by lia. by rewrite Nat2Z.id, Nat.add_0_r.
Qed.

(** The two loops write the entries exactly as [mergeLog] says. *)
Lemma replicate_loops L (k : nat) E :
  (k ≤ length L)%nat →
  (L' ← truncateConflict L (Z.of_nat k) E; copyEntries L' (Z.of_nat k) E)
  = Ret (mergeLog L k E).
Proof.
  intros Hk. unfold mergeLog.
  destruct (truncateConflict_spec L k E Hk) as [(-> & ->)|(-> & i & Hi & ->)]; simpl.
  - by apply copyEntries_spec.
  - rewrite copyEntries_spec by (rewrite length_take; lia).
    rewrite take_take, drop_ge by (rewrite length_take; lia).
    rewrite Nat.min_l by lia. by rewrite app_nil_r.
Qed.

Lemma replicate_loops_bind {B} L (k : nat) E (g : list (LogEntry C) → outcome B) :
  (k ≤ length L)%nat →
  (L' ← truncateConflict L (Z.of_nat k) E; L' ← copyEntries L' (Z.of_nat k) E; g L')
  = g (mergeLog L k E).
Proof.
  intros Hk. pose proof (replicate_loops L k E Hk) as Hrep.
  destruct (truncateConflict _ _ _); simpl in *; [|done..]. by rewrite Hrep.
Qed.

Lemma mergeLog_length L k E :
  (k ≤ length L)%nat → (k + length E ≤ length (mergeLog L k E))%nat.
Proof.
  intros. unfold mergeLog. case_match; rewrite !length_app, length_take; lia.
Qed.

Lemma mergeLog_ne_nil L k E : (0 < k ≤ length L)%nat → mergeLog L k E ≠ [].
Proof.
  intros ? Hnil%(f_equal length). pose proof (mergeLog_length L k E). simpl in *. lia.
Qed.

Lemma mergeLog_nil L k : mergeLog L k [] = L.
Proof.
  unfold mergeLog. simpl. rewrite Nat.add_0_r, take_drop. by destruct (drop k L).
Qed.

Lemma mergeLog_prefix L k E i :
  (i < k)%nat → (k ≤ length L)%nat → mergeLog L k E !! i = L !! i.
Proof.
  intros. unfold mergeLog. case_match; rewrite lookup_app_l by (rewrite length_take; lia);
    by rewrite lookup_take_lt.
Qed.

Lemma mergeLog_entries L k E i e :
  (k ≤ length L)%nat → E !! i = Some e → mergeLog L k E !! (k + i)%nat = Some e.
Proof.
  intros Hk He. pose proof (lookup_lt_Some _ _ _ He). unfold mergeLog.
  case_match; rewrite lookup_app_r by (rewrite length_take; lia);
    rewrite length_take, Nat.min_l by lia; rewrite Nat.add_comm, Nat.add_sub; [done|].
  by apply lookup_app_l_Some.
Qed.

(** What follows the entries when nothing conflicts: every entry of the old
    log at those positions has the term of the one written over it. *)
Lemma no_conflict_terms L E i x y :
  conflicts L E = false → L !! i = Some x → E !! i = Some y → Term x = Term y.
Proof.
  revert E i. induction L as [|a L IH]; intros [|b E] [|i] Hc Hx Hy; try done;
    unfold conflicts in Hc; simpl in Hc; apply orb_false_iff in Hc as [Hab Hc];
    simplify_eq/=; [lia|by apply (IH E i)].
Qed.

Lemma mergeLog_sorted L k E p :
  (S k ≤ length L)%nat → terms_sorted L → L !! k = Some p →
  terms_sorted (p :: E) → terms_sorted (mergeLog L (S k) E).
Proof.
  intros Hk HL Hp HE. change (p :: E) with ([p] ++ E) in HE.
  apply terms_sorted_app in HE as (_ & HE & HpE).
  assert (∀ x y, x ∈ take (S k) L → y ∈ E → Term x ≤ Term y) as Hcross.
  { intros x y Hx Hy. transitivity (Term p); [exact (terms_sorted_take_le k L p x HL Hp Hx)|].
    apply HpE; [by apply list_elem_of_singleton|done]. }
  unfold mergeLog. destruct (conflicts _ _) eqn:Hc.
  { apply terms_sorted_app. split_and!; auto with godb. }
  rewrite app_assoc. apply terms_sorted_app. split_and!; [apply terms_sorted_app| |].
  - split_and!; auto with godb.
  - auto with godb.
  - intros x y Hx [j Hj]%list_elem_of_lookup. rewrite lookup_drop in Hj.
    apply elem_of_app in Hx as [Hx|[i Hi]%list_elem_of_lookup].
    { apply list_elem_of_lookup in Hx as [i Hi].
      apply lookup_take_Some in Hi as [Hi ?]. eapply (HL i); [|done..]. lia. }
    pose proof (lookup_lt_Some _ _ _ Hi).
    pose proof (lookup_lt_Some _ _ _ Hj).
    destruct (lookup_lt_is_Some_2 L (S k + i)) as [z Hz]; [lia|].
    rewrite <-(no_conflict_terms _ _ i z x Hc) by (rewrite ?lookup_drop; done).
    eapply (HL (S k + i)%nat); [|done..]. lia.
Qed.

Lemma mergeLog_le t L k E :
  terms_le t L → terms_le t E → terms_le t (mergeLog L k E).
Proof.
  intros. unfold mergeLog. case_match; rewrite !terms_le_app; auto with godb.
Qed.

(** *** [doSnapshot] *)

Lemma countCovered_spec rf i cnt rest :
  countCovered rf i cnt rest =
  cnt + Z.max 0 (Z.min (zlen rest) (lastIncludedIndex rf - DiscardCount rf - i + 1)).
Proof.
  revert i cnt. induction rest as [|e rest IH]; intros i cnt; simpl; [lia|].
  unfold RaftIndex. case_match; [rewrite IH|]; lia.
Qed.

Lemma shiftLogs_spec (n i c : nat) L :
  (i + n + c ≤ length L)%nat →
  ∃ L', shiftLogs n (Z.of_nat i) (Z.of_nat c) L = Ret L' ∧ length L' = length L ∧
    take (i + n) L' = take i L ++ take n (drop (i + c) L).
Proof.
  revert i L. induction n as [|n IH]; intros i L Hle; simpl.
  { exists L. rewrite Nat.add_0_r, app_nil_r. done. }
  destruct (lookup_lt_is_Some_2 L (i + c)) as [x Hx]; [lia|].
  rewrite <-Nat2Z.inj_add, (go_index_lookup _ _ _ Hx). simpl.
  rewrite go_set_in_range by lia. simpl. rewrite Nat2Z.id.
  replace (Z.of_nat i + 1) with (Z.of_nat (S i)) by lia.
  destruct (IH (S i) (<[i:=x]> L)) as (L' & -> & Hlen & Ht); [rewrite length_insert; lia|].
  rewrite length_insert in Hlen. exists L'. split_and!; [done|done|].
  rewrite Nat.add_succ_r, <-Nat.add_succ_l, Ht.
  rewrite (take_S_r _ _ x) by (apply list_lookup_insert_eq; lia).
  rewrite take_insert_ge, drop_insert_lt by lia.
  rewrite (drop_S _ _ _ Hx). by rewrite <-app_assoc.
Qed.

(** How many entries [doSnapshot] drops. *)
Definition covered rf : nat :=
  Z.to_nat (Z.max 0 (Z.min (zlen (Logs rf) - 1) (lastIncludedIndex rf - DiscardCount rf))).

Lemma doSnapshot_spec `{Gob Z} `{Gob (list (LogEntry C))} rf :
  Logs rf ≠ [] →
  doSnapshot rf =
  Ret (persist (set_DiscardCount (lastIncludedIndex rf)
         (set_Logs (drop (covered rf) (Logs rf)) rf))).
Proof.
  intros Hne. unfold doSnapshot. rewrite countCovered_spec.
  destruct (Logs rf) as [|e0 rest] eqn:HL; [done|]. simpl tail.
  assert (0 + Z.max 0 (Z.min (zlen rest) (lastIncludedIndex rf - DiscardCount rf - 1 + 1))
          = Z.of_nat (covered rf)) as ->.
  { unfold covered. rewrite HL. simpl. lia. }
  assert (covered rf ≤ length rest)%nat by (unfold covered; rewrite HL; simpl; lia).
  rewrite <-HL. assert (length (Logs rf) = S (length rest)) as Hlen by (by rewrite HL).
  destruct (shiftLogs_spec (Z.to_nat (zlen (Logs rf) - Z.of_nat (covered rf))) 0 (covered rf) (Logs rf))
    as (L' & HS & Hl & Ht); [lia|].
  change (Z.of_nat 0) with 0 in HS. rewrite HS, bind_Ret.
  rewrite go_slice_to_in_range, bind_Ret by lia.
  rewrite Hl. simpl in Ht. rewrite Ht. rewrite take_ge by (rewrite length_drop; lia). done.
Qed.
End surgery.

(** ** Well-formed servers *)
Section invariant.
Context {C : Type} `{GobLaws Z} `{GobLaws (list (LogEntry C))}.
Implicit Types (rf : Raft C) (snap : list byte).

(** A snapshot starts with the index it covers: the contract between Raft
    and the service that builds snapshots ([readSnapShot] decodes it). *)
Definition snap_ok (index : Z) snap : Prop :=
  (snap = [] ∧ index = 0) ∨ (snap ≠ [] ∧ ∃ p, gob_dec snap 0%nat = Some (index, p)).

Record wf rf : Prop := mkWf {
  wf_me : 0 ≤ me rf < Z.of_nat (peers rf);
  wf_term : 0 ≤ CurrentTerm rf;
  wf_logs : Logs rf ≠ [];
  wf_sorted : terms_sorted (Logs rf);
  wf_terms : terms_le (CurrentTerm rf) (Logs rf);
  wf_discard : DiscardCount rf = lastIncludedIndex rf;
  wf_lii : 0 ≤ lastIncludedIndex rf;
  wf_next : length (nextIndex rf) = peers rf;
  wf_match : length (matchIndex rf) = peers rf;
  wf_snap : snap_ok (lastIncludedIndex rf) (snapshot rf);
}.

(** The fields [wf] looks at. *)
Definition core rf :=
  (peers rf, me rf, CurrentTerm rf, Logs rf, DiscardCount rf, lastIncludedIndex rf,
   nextIndex rf, matchIndex rf, snapshot rf).

Lemma wf_core rf rf' : core rf = core rf' → wf rf → wf rf'.
Proof.
  destruct rf, rf'. unfold core. simpl. intros ? []; simplify_eq/=. by constructor.
Qed.

Lemma wf_set_CurrentTerm t rf : CurrentTerm rf ≤ t → wf rf → wf (set_CurrentTerm t rf).
Proof. intros ? []; constructor; simpl; eauto using terms_le_mono; lia. Qed.

Lemma wf_set_Logs L rf :
  L ≠ [] → terms_sorted L → terms_le (CurrentTerm rf) L → wf rf → wf (set_Logs L rf).
Proof. intros ??? []; by constructor. Qed.

Lemma wf_set_nextIndex l rf : length l = peers rf → wf rf → wf (set_nextIndex l rf).
Proof. intros ? []; by constructor. Qed.

Lemma wf_set_matchIndex l rf : length l = peers rf → wf rf → wf (set_matchIndex l rf).
Proof. intros ? []; by constructor. Qed.

Lemma wf_logs_len rf : wf rf → 0 < zlen (Logs rf).
Proof. intros []. destruct (Logs rf); [done|simpl; lia]. Qed.

Lemma clone_id (l : list byte) : clone l = l.
Proof. apply take_ge. lia. Qed.

(** [doSnapshot] of a server whose [lastIncludedIndex] and [snapshot] were
    just replaced. *)
Lemma wf_doSnapshot rf index snap :
  wf rf → lastIncludedIndex rf ≤ index → snap_ok index snap →
  ∃ rf', doSnapshot (set_snapshot snap (set_lastIncludedIndex index rf)) = Ret rf' ∧ wf rf' ∧
    rf' = persist (set_DiscardCount index
            (set_Logs (drop (covered (set_lastIncludedIndex index rf)) (Logs rf))
               (set_snapshot snap (set_lastIncludedIndex index rf)))).
Proof.
  intros Hwf Hle Hsnap. pose proof (wf_logs_len _ Hwf). destruct Hwf.
  rewrite doSnapshot_spec by done. eexists. split_and!; [done| |done].
  constructor; simpl; auto with godb; [|lia].
  intros Hnil%(f_equal length). rewrite length_drop in Hnil. unfold covered in Hnil.
  simpl in Hnil. lia.
Qed.
End invariant.

(** Close [wf] goals: neutral updates are stripped by [wf_core]. *)
Ltac solve_wf :=
  repeat first
    [ assumption
    | match goal with
      | |- wf (persist ?rf) => apply (wf_core rf); [reflexivity|]
      | |- wf (set_electionTimer _ ?rf) => apply (wf_core rf); [reflexivity|]
      | |- wf (resetElectionTimer ?rf) => apply (wf_core rf); [reflexivity|]
      | |- wf (set_heartbeatTimer _ ?rf) => apply (wf_core rf); [reflexivity|]
      | |- wf (set_identity _ ?rf) => apply (wf_core rf); [reflexivity|]
      | |- wf (set_VoteFor _ ?rf) => apply (wf_core rf); [reflexivity|]
      | |- wf (set_dead _ ?rf) => apply (wf_core rf); [reflexivity|]
      | |- wf (set_applyLogWaiting _ ?rf) => apply (wf_core rf); [reflexivity|]
      | |- wf (signalApply ?rf) => apply (wf_core rf); [reflexivity|]
      | |- wf (set_committedIndex _ ?rf) => apply (wf_core rf); [reflexivity|]
      | |- wf (set_lastApplied _ ?rf) => apply (wf_core rf); [reflexivity|]
      | |- wf (set_applySnappending _ ?rf) => apply (wf_core rf); [reflexivity|]
      | |- wf (set_elections _ ?rf) => apply (wf_core rf); [reflexivity|]
      | |- wf (set_CurrentTerm _ _) => apply wf_set_CurrentTerm; [repeat case_match; simpl in *; lia|]
      | |- wf (set_nextIndex _ _) => apply wf_set_nextIndex; [simpl; rewrite ?length_insert, ?length_replicate; eauto using wf_next, wf_match|]
      | |- wf (set_matchIndex _ _) => apply wf_set_matchIndex; [simpl; rewrite ?length_insert, ?length_replicate; eauto using wf_next, wf_match|]
      | |- wf (stepDown _ _) => unfold stepDown
      | |- wf (updateCommit _ _) => unfold updateCommit; simpl
      | |- wf (if ?b then _ else _) => destruct b eqn:?
      end ].
