(* ===== verification/RaftServer.v ===== *)
(** * Raft: every step of a server is safe

    [Event] lists what can happen to a server: an RPC to handle, a reply to
    one of its own RPCs, a call of the service ([Start], [Snapshot], [Kill]),
    a timer, a turn of [applyLog].  [step] runs it.  For events a correct peer
    can cause ([valid_event]), a step from a well-formed server returns (no
    index out of range, none of the explicit [panic] calls, no loop without
    end) in a well-formed server, terms never go back, the timers stay armed
    and the [applyLog] goroutine misses no wake-up. *)

From Stdlib Require Import Strings.Byte.
From stdpp Require Import prelude gmap strings list.
From S2P Require Import Prelude Gob Raft RaftNode.
Local Open Scope Z_scope.

Section server.
Context {C : Type} `{GobLaws Z} `{GobLaws (list (LogEntry C))}.
Implicit Types (rf : Raft C) (snap : list byte).

Inductive Event :=
  | EvRequestVote (args : RequestVoteArgs)
  | EvApplyEntries (args : ApplyEntriesArgs C)
  | EvInstallSnapshot (args : InstallSnapshotArgs)
  | EvRequestVoteReply (args : RequestVoteArgs) (reply : RequestVoteReply)
  | EvApplyEntriesReply (server : Z) (args : ApplyEntriesArgs C) (reply : ApplyEntriesReply)
  | EvInstallSnapshotReply (server : Z) (args : InstallSnapshotArgs) (reply : InstallSnapshotReply)
  | EvStart (command : option C)
  | EvSnapshot (index : Z) (snap : list byte)
  | EvElectionTimeout
  | EvHeartbeatTimeout
  | EvApplyLog
  | EvKill.

Definition step (ev : Event) rf : outcome (Raft C) :=
  match ev with
  | EvRequestVote args => '(rf, _) ← RequestVote rf args; Ret rf
  | EvApplyEntries args => '(rf, _) ← ApplyEntries rf args; Ret rf
  | EvInstallSnapshot args => '(rf, _) ← InstallSnapshot rf args; Ret rf
  | EvRequestVoteReply args reply => handleRequestVoteReply rf args reply
  | EvApplyEntriesReply server args reply => handleApplyEntriesReply rf server args reply
  | EvInstallSnapshotReply server args reply => handleInstallSnapshotReply rf server args reply
  | EvStart command => '(rf, _, _) ← Start command rf; Ret rf
  | EvSnapshot index snap => Snapshot index snap rf
  | EvElectionTimeout => '(rf, _) ← tickElection rf; Ret rf
  | EvHeartbeatTimeout => '(rf, _) ← tickHeartbeat rf; Ret rf
  | EvApplyLog => '(rf, _) ← applyLog rf; Ret rf
  | EvKill => Ret (Kill rf)
  end.

(** Entries a leader may send: terms in order after the previous entry and
    not above the leader's. *)
Definition valid_ae (args : ApplyEntriesArgs C) : Prop :=
  terms_sorted (mkEntry None (ae_PrevLogTerm args) :: ae_Entries args) ∧
  terms_le (ae_Term args) (ae_Entries args).

Definition valid_is (args : InstallSnapshotArgs) : Prop :=
  is_LastIncludedTerm args ≤ is_Term args ∧
  snap_ok (is_LastIncludedIndex args) (is_Data args).

(** The committed prefix is in the log or the snapshot. *)
Definition commit_in_range rf : Prop :=
  committedIndex rf ≤ RaftIndex rf (zlen (Logs rf) - 1).

Definition valid_event (ev : Event) rf : Prop :=
  match ev with
  | EvApplyEntries args => valid_ae args
  | EvInstallSnapshot args => valid_is args
  | EvApplyEntriesReply server _ _ | EvInstallSnapshotReply server _ _ =>
      0 ≤ server < Z.of_nat (peers rf)
  | EvSnapshot index snap => snap_ok index snap
  | EvApplyLog => commit_in_range rf
  | _ => True
  end.

(** *** Handlers *)

Lemma RequestVote_safe rf args :
  wf rf → ∃ rf' reply, RequestVote rf args = Ret (rf', reply) ∧ wf rf'.
Proof.
  intros Hwf. unfold RequestVote. case_match; [eexists _, _; split; [done|solve_wf]|].
  set (rf1 := if rv_Term args >? CurrentTerm rf then _ else rf).
  assert (wf rf1 ∧ CurrentTerm rf1 ≤ rv_Term args) as [Hwf1 Hle].
  { subst rf1. split; [solve_wf|repeat case_match; simpl; lia]. }
  clearbody rf1. pose proof (wf_logs_len _ Hwf1).
  destruct (go_index_in_range (Logs rf1) (zlen (Logs rf1) - 1)) as (e & -> & _); [lia|].
  simpl. case_match; eexists _, _; (split; [done|solve_wf]).
Qed.

Lemma ReplicateCheck_spec rf args :
  wf rf →
  ∃ b, ReplicateCheck rf args = Ret b ∧
    (b = true ↔ ∃ e, 0 ≤ RealIndex rf (ae_PrevLogIndex args) ∧
       Logs rf !! Z.to_nat (RealIndex rf (ae_PrevLogIndex args)) = Some e ∧
       Term e = ae_PrevLogTerm args).
Proof.
  intros Hwf. pose proof (wf_logs_len _ Hwf). unfold ReplicateCheck.
  set (k := RealIndex rf (ae_PrevLogIndex args)).
  assert (∀ e, Logs rf !! Z.to_nat k = Some e → 0 ≤ k → ∃ b : bool, (Term e =? ae_PrevLogTerm args) = b ∧
    (b = true ↔ ∃ e, 0 ≤ k ∧ Logs rf !! Z.to_nat k = Some e ∧ Term e = ae_PrevLogTerm args)) as Hend.
  { intros e He Hk. eexists. split; [done|]. rewrite Z.eqb_eq. split; [by eauto|].
    intros (e' & _ & ? & ?). by simplify_eq. }
  destruct (k <? 0) eqn:?; [|destruct (k =? 0) eqn:?; [|destruct (k <? zlen (Logs rf)) eqn:?]].
  - exists false. split; [done|]. split; [done|]. intros (e & ? & _). lia.
  - assert ((lastIncludedIndex rf =? ae_PrevLogIndex args) = true) as ->.
    { subst k. unfold RealIndex in *. rewrite (wf_discard _ Hwf) in *. lia. }
    destruct (go_index_in_range (Logs rf) k) as (e & -> & He); [lia|]. simpl.
    destruct (Hend e He) as (b & -> & ?); [lia|]. eauto.
  - destruct (go_index_in_range (Logs rf) k) as (e & -> & He); [lia|]. simpl.
    destruct (Hend e He) as (b & -> & ?); [lia|]. eauto.
  - exists false. split; [done|]. split; [done|].
    intros (e & ? & ?%lookup_lt_Some & _). lia.
Qed.

Lemma findFirstIndex_entry rf (k : Z) e :
  wf rf → 0 ≤ k → Logs rf !! Z.to_nat k = Some e →
  ∃ r f, findFirstIndex rf (Term e) = Ret r ∧ 0 ≤ r ≤ k ∧ r < zlen (Logs rf) ∧
    go_index (Logs rf) r = Ret f ∧ Term f = Term e.
Proof.
  intros Hwf Hk He.
  destruct (findFirstIndexIn_present (Logs rf) (Z.to_nat k) e) as (r & f & Hr & Hle & Hf & Hte & _);
    [apply Hwf|done|].
  pose proof (lookup_lt_Some _ _ _ Hf).
  exists (Z.of_nat r), f. split_and!; [done|lia|lia|lia|by apply go_index_lookup|done].
Qed.

Lemma adoptTerm_wf term rf : wf rf → wf (adoptTerm term rf).
Proof. intros. unfold adoptTerm. solve_wf; simpl in *; lia. Qed.

Lemma adoptTerm_term term rf :
  CurrentTerm rf ≤ term → CurrentTerm (adoptTerm term rf) = term.
Proof. intros. unfold adoptTerm. simpl. case_match; simpl; lia. Qed.

Lemma adoptTerm_core term rf :
  Logs (adoptTerm term rf) = Logs rf ∧ DiscardCount (adoptTerm term rf) = DiscardCount rf ∧
  committedIndex (adoptTerm term rf) = committedIndex rf ∧
  lastApplied (adoptTerm term rf) = lastApplied rf ∧
  identity (adoptTerm term rf) = FOLLOWER ∧ electionTimer (adoptTerm term rf) = true.
Proof. unfold adoptTerm. simpl. by case_match. Qed.
(** The entry with raft index [k], if the server still has it. *)
Definition entry_at rf (k : Z) : option (LogEntry C) :=
  if DiscardCount rf <=? k then Logs rf !! Z.to_nat (RealIndex rf k) else None.

(** The server's log holds the entry [args] says precedes its entries. *)
Definition prev_matches rf (args : ApplyEntriesArgs C) : Prop :=
  ∃ e, entry_at rf (ae_PrevLogIndex args) = Some e ∧ Term e = ae_PrevLogTerm args.

(** The index [ApplyEntries] commits up to. *)
Definition new_commit rf (args : ApplyEntriesArgs C) : Z :=
  if ae_LeaderCommit args >? committedIndex rf then
    Z.min (ae_LeaderCommit args)
      (if zlen (ae_Entries args) >? 0 then ae_PrevLogIndex args + 1
       else RaftIndex rf (zlen (Logs rf) - 1))
  else committedIndex rf.

Lemma updateCommit_eq x rf :
  committedIndex (updateCommit x rf) = x ∧ Logs (updateCommit x rf) = Logs rf ∧
  core (updateCommit x rf) = core rf.
Proof. unfold updateCommit. by case_match. Qed.

Lemma ReplicateCheck_prev rf args :
  wf rf → ∃ b, ReplicateCheck rf args = Ret b ∧ (b = true ↔ prev_matches rf args).
Proof.
  intros Hwf. destruct (ReplicateCheck_spec rf args Hwf) as (b & Hb & Hiff).
  exists b. split; [done|]. rewrite Hiff. unfold prev_matches, entry_at, RealIndex.
  split.
  - intros (e & Hk & He & Ht). exists e. case_match; [done|lia].
  - intros (e & He & Ht). case_match; [|done]. exists e. split_and!; [lia|done|done].
Qed.

Lemma ApplyEntries_stale rf args :
  ae_Term args < CurrentTerm rf →
  ApplyEntries rf args = Ret (persist rf, mkApplyEntriesReply (CurrentTerm rf) false 0 0 0).
Proof. intros. unfold ApplyEntries. case_match; [done|lia]. Qed.

(** The previous entry is already inside the snapshot. *)
Lemma ApplyEntries_behind rf args :
  wf rf → CurrentTerm rf ≤ ae_Term args → ae_PrevLogIndex args < lastIncludedIndex rf →
  ApplyEntries rf args =
  Ret (persist (adoptTerm (ae_Term args) rf), mkApplyEntriesReply (ae_Term args) true 0 0 0).
Proof.
  intros Hwf Hle Hprev. unfold ApplyEntries. destruct (_ >? _) eqn:?; [lia|].
  rewrite adoptTerm_term by done. unfold ReplicateCheck, RealIndex.
  destruct (adoptTerm_core (ae_Term args) rf) as (-> & -> & _). rewrite (wf_discard _ Hwf).
  destruct (_ <? 0) eqn:?; [done|lia].
Qed.

(** A failed consistency check leaves the log alone; the hint in the reply
    is either the length of the log or the first entry of the conflicting
    term, and the explicit [panic] is not reached. *)
Lemma ApplyEntries_reject rf args :
  wf rf → CurrentTerm rf ≤ ae_Term args → lastIncludedIndex rf ≤ ae_PrevLogIndex args →
  ¬ prev_matches rf args →
  ∃ reply, ApplyEntries rf args = Ret (persist (adoptTerm (ae_Term args) rf), reply) ∧
    aer_Term reply = ae_Term args ∧ aer_Success reply = false ∧
    aer_XLen reply = RaftIndex rf (zlen (Logs rf)) ∧
    (aer_XIndex reply = InvalidIndex ∧ aer_XLen reply ≤ ae_PrevLogIndex args ∨
     ∃ e, entry_at rf (aer_XIndex reply) = Some e ∧ Term e = aer_XTerm reply ∧
          aer_XIndex reply ≤ ae_PrevLogIndex args).
Proof.
  intros Hwf Hle Hprev Hno. unfold ApplyEntries. destruct (_ >? _) eqn:?; [lia|].
  rewrite adoptTerm_term by done.
  pose proof (adoptTerm_wf (ae_Term args) rf Hwf) as Hwf1.
  destruct (ReplicateCheck_prev _ args Hwf1) as (b & -> & Hb).
  destruct (adoptTerm_core (ae_Term args) rf) as (HL & HD & _).
  assert (b = false) as ->.
  { destruct b; [|done]. destruct Hno. unfold prev_matches, entry_at, RealIndex in *.
    rewrite HL, HD in Hb. by apply Hb. }
  rewrite bind_Ret. simpl negb. cbv iota. unfold RealIndex, RaftIndex, entry_at.
  rewrite HL, HD, (wf_discard _ Hwf). pose proof (wf_logs_len _ Hwf).
  destruct (_ <? 0) eqn:?; [lia|]. destruct (_ >=? _) eqn:?.
  { eexists. split_and!; [done|done|done|done|]. left. simpl. split; [done|lia]. }
  set (k := ae_PrevLogIndex args - lastIncludedIndex rf) in *.
  destruct (go_index_in_range (Logs rf) k) as (e & -> & He); [lia|]. rewrite bind_Ret.
  destruct (findFirstIndex_entry (adoptTerm (ae_Term args) rf) k e) as (r & f & -> & ? & Hr & Hf & Hte);
    [done|lia|by rewrite HL|]. rewrite HL in Hr, Hf. rewrite bind_Ret, Hf, bind_Ret.
  destruct (r >=? _) eqn:?; [lia|]. rewrite Hte, Z.eqb_refl. simpl.
  eexists. split_and!; [done|done|done|done|]. right. simpl. exists f.
  apply go_index_Ret in Hf as [? Hf]. split_and!; [|done|lia].
  destruct (_ <=? _) eqn:?; [|lia]. unfold RealIndex.
  by rewrite (wf_discard _ Hwf), Z.add_simpl_r.
Qed.
Lemma merge_sorted rf args (k : nat) e :
  terms_sorted (Logs rf) →
  terms_sorted (mkEntry None (ae_PrevLogTerm args) :: ae_Entries args) →
  Logs rf !! k = Some e → Term e = ae_PrevLogTerm args →
  terms_sorted (mergeLog (Logs rf) (S k) (ae_Entries args)).
Proof.
  intros HL Hs He Hte. pose proof (lookup_lt_Some _ _ _ He).
  apply (mergeLog_sorted _ _ _ e); [lia|done|done|].
  intros i j x y Hij Hi Hj. destruct i as [|i], j as [|j]; simplify_eq/=; [lia| |lia|].
  - rewrite Hte. by apply (Hs 0%nat (S j) (mkEntry None (ae_PrevLogTerm args)) y); [lia|..].
  - by apply (Hs (S i) (S j)); [lia|..].
Qed.

(** A passed consistency check: the log becomes [mergeLog], nothing else of
    the log or the snapshot changes. *)
Lemma ApplyEntries_accept rf args :
  wf rf → valid_ae args → CurrentTerm rf ≤ ae_Term args → prev_matches rf args →
  ∃ rf', ApplyEntries rf args = Ret (rf', mkApplyEntriesReply (ae_Term args) true 0 0 0) ∧
    wf rf' ∧ CurrentTerm rf' = ae_Term args ∧ identity rf' = FOLLOWER ∧
    DiscardCount rf' = DiscardCount rf ∧ committedIndex rf' = new_commit rf args ∧
    Logs rf' = mergeLog (Logs rf) (S (Z.to_nat (RealIndex rf (ae_PrevLogIndex args))))
                 (ae_Entries args).
Proof.
  intros Hwf [Hsorted Hterms] Hle Hprev. unfold ApplyEntries. destruct (_ >? _) eqn:?; [lia|].
  rewrite adoptTerm_term by done.
  pose proof (adoptTerm_wf (ae_Term args) rf Hwf) as Hwf1.
  pose proof (adoptTerm_term (ae_Term args) rf Hle) as HT.
  destruct (adoptTerm_core (ae_Term args) rf) as (HL & HD & HC & _ & HI & _).
  destruct (ReplicateCheck_prev _ args Hwf1) as (b & -> & Hb).
  assert (b = true) as ->.
  { apply Hb. unfold prev_matches, entry_at, RealIndex in *. by rewrite HL, HD. }
  clear Hb. destruct Hprev as (e & He & Hte). unfold entry_at in He. case_match; [|done].
  pose proof (lookup_lt_Some _ _ _ He) as Hk.
  set (k := Z.to_nat (RealIndex rf (ae_PrevLogIndex args))) in *.
  pose proof (merge_sorted rf args k e (wf_sorted _ Hwf) Hsorted He Hte) as HS.
  rewrite bind_Ret. simpl negb. cbv iota. unfold new_commit.
  destruct (zlen (ae_Entries args) >? 0) eqn:Hlen.
  - assert (RealIndex (adoptTerm (ae_Term args) rf) (ae_PrevLogIndex args + 1) = Z.of_nat (S k)) as ->.
    { subst k. unfold RealIndex. rewrite HD. unfold RealIndex in *. lia. }
    rewrite HL, replicate_loops_bind by lia.
    eexists. split; [done|].
    assert (wf (set_Logs (mergeLog (Logs rf) (S k) (ae_Entries args)) (adoptTerm (ae_Term args) rf)))
      as HwfL.
    { apply wf_set_Logs; [|done| |done].
      - apply mergeLog_ne_nil. lia.
      - apply mergeLog_le; [rewrite <-HL; apply Hwf1|by rewrite HT]. }
    split; [solve_wf|]. simpl. rewrite HC.
    destruct (ae_LeaderCommit args >? committedIndex rf) eqn:?; simpl; [|by rewrite HT, HI, HD, HC].
    unfold updateCommit. simpl. destruct (ae_LeaderCommit args >? ae_PrevLogIndex args + 1) eqn:?;
      case_match; simpl; split_and!; try done; lia.
  - destruct (ae_Entries args) as [|e' E] eqn:HE; [|rewrite length_cons in Hlen; zlia].
    rewrite mergeLog_nil. eexists. split; [done|]. split; [solve_wf|]. unfold RaftIndex. rewrite HL, HD, HC.
    destruct (ae_LeaderCommit args >? committedIndex rf) eqn:?; simpl; [|done].
    unfold updateCommit. simpl. destruct (_ >=? _) eqn:?; case_match; simpl; split_and!; try done; lia.
Qed.
Lemma ApplyEntries_safe rf args :
  wf rf → valid_ae args →
  ∃ rf' reply, ApplyEntries rf args = Ret (rf', reply) ∧ wf rf'.
Proof.
  intros Hwf Hv. pose proof (adoptTerm_wf (ae_Term args) rf Hwf).
  destruct (decide (ae_Term args < CurrentTerm rf)).
  { rewrite ApplyEntries_stale by done. eexists _, _. split; [done|solve_wf]. }
  destruct (decide (ae_PrevLogIndex args < lastIncludedIndex rf)).
  { rewrite ApplyEntries_behind by (done || lia). eexists _, _. split; [done|solve_wf]. }
  destruct (ReplicateCheck_prev rf args Hwf) as ([] & _ & Hiff).
  - destruct (ApplyEntries_accept rf args) as (rf' & -> & ? & _); [done|done|lia|by apply Hiff|].
    eauto.
  - destruct (ApplyEntries_reject rf args) as (reply & -> & _); [done|lia|lia| |].
    { intros Hp%Hiff. done. }
    eexists _, _. split; [done|solve_wf].
Qed.

Lemma InstallSnapshot_safe rf args :
  wf rf → valid_is args →
  ∃ rf' reply, InstallSnapshot rf args = Ret (rf', reply) ∧ wf rf'.
Proof.
  intros Hwf [Hterm Hsnap]. unfold InstallSnapshot. case_match; [by eauto|].
  pose proof (adoptTerm_wf (is_Term args) rf Hwf) as Hwf1.
  pose proof (adoptTerm_term (is_Term args) rf ltac:(lia)) as HT.
  set (rf1 := adoptTerm (is_Term args) rf) in *. clearbody rf1.
  case_match; [by eauto|]. rewrite clone_id. simpl Logs.
  set (keep := if _ && _ then _ else _). assert (∃ b, keep = Ret b) as (b & ->).
  { subst keep. case_match; [|by eauto].
    edestruct (go_index_in_range (Logs rf1)) as (x & -> & _); [|by eauto]. zlia. }
  rewrite bind_Ret. destruct b.
  - destruct (wf_doSnapshot rf1 (is_LastIncludedIndex args) (is_Data args)) as (rf2 & -> & ? & _);
      [done|lia|done|]. eexists _, _. split; [done|solve_wf].
  - destruct (wf_doSnapshot (set_Logs [mkEntry None (is_LastIncludedTerm args)] rf1)
      (is_LastIncludedIndex args) (is_Data args)) as (rf2 & Hd & ? & _); [|simpl; lia|done|].
    { apply wf_set_Logs; [done| | |done]; auto with godb. apply terms_le_singleton. simpl. lia. }
    change (set_Logs [mkEntry None (is_LastIncludedTerm args)] (set_snapshot (is_Data args)
      (set_lastIncludedIndex (is_LastIncludedIndex args) rf1))) with
      (set_snapshot (is_Data args) (set_lastIncludedIndex (is_LastIncludedIndex args)
        (set_Logs [mkEntry None (is_LastIncludedTerm args)] rf1))).
    rewrite Hd. eexists _, _. split; [done|solve_wf].
Qed.

(** *** Calls of the service *)

Lemma Snapshot_safe rf index snap :
  wf rf → snap_ok index snap → ∃ rf', Snapshot index snap rf = Ret rf' ∧ wf rf'.
Proof.
  intros Hwf Hsnap. unfold Snapshot. case_match; [by eauto|]. rewrite clone_id.
  set (rf1 := if lastApplied (if _ <=? _ then _ else _) <=? _ then _ else _).
  assert (wf rf1 ∧ lastIncludedIndex rf1 = lastIncludedIndex rf) as [Hwf1 Hlii].
  { subst rf1. split; [solve_wf|by repeat case_match]. }
  clearbody rf1. destruct (wf_doSnapshot rf1 index snap) as (rf2 & -> & ? & _);
    [done|lia|done|]. by eauto.
Qed.

(** *** Messages a server sends *)

Definition valid_rpc (m : Rpc C) : Prop :=
  match m with
  | RpcRequestVote _ => True
  | RpcApplyEntries args => valid_ae args
  | RpcInstallSnapshot args => valid_is args
  end.

Lemma log_tail_valid rf (k : nat) e :
  wf rf → Logs rf !! k = Some e →
  terms_sorted (mkEntry None (Term e) :: drop (S k) (Logs rf)).
Proof.
  intros Hwf He i j x y Hij Hi Hj. pose proof (wf_sorted _ Hwf) as Hs.
  destruct i as [|i], j as [|j]; simplify_eq/=; [lia| |lia|]; rewrite ?lookup_drop in *.
  - by apply (Hs k (S k + j)%nat); [lia|..].
  - by apply (Hs (S k + i)%nat (S k + j)%nat); [lia|..].
Qed.

Lemma heartBeatTo_safe rf i :
  wf rf → 0 ≤ i < Z.of_nat (peers rf) → ∃ m, heartBeatTo rf i = Ret m ∧ valid_rpc m.
Proof.
  intros Hwf Hi. pose proof (wf_logs_len _ Hwf). pose proof (wf_discard _ Hwf).
  pose proof (wf_lii _ Hwf). unfold heartBeatTo.
  destruct (go_index_in_range (nextIndex rf) i) as (next & -> & _); [rewrite (wf_next _ Hwf); lia|].
  rewrite bind_Ret. destruct (_ <=? _) eqn:?.
  { destruct (go_index_in_range (Logs rf) 0) as (e & -> & He); [lia|]. eexists. split; [done|].
    split; simpl; [|rewrite clone_id; apply Hwf].
    apply (wf_terms _ Hwf). by eapply list_elem_of_lookup_2. }
  unfold RaftIndex, RealIndex. destruct (_ >=? next) eqn:?.
  - destruct (next =? 0) eqn:?; [zlia|]. destruct (_ <? 0) eqn:?; [zlia|].
    destruct (go_index_in_range (Logs rf) (next - 1 - DiscardCount rf)) as (e & -> & He); [zlia|].
    rewrite bind_Ret, go_slice_from_in_range by zlia. eexists. split; [done|]. split; simpl.
    + replace (Z.to_nat (next - DiscardCount rf)) with (S (Z.to_nat (next - 1 - DiscardCount rf)))
        by zlia. by apply log_tail_valid.
    + apply terms_le_drop, Hwf.
  - destruct (go_index_in_range (Logs rf) (zlen (Logs rf) - 1 + DiscardCount rf - DiscardCount rf))
      as (e & -> & He); [zlia|].
    eexists. split; [done|]. split; simpl; [apply terms_sorted_singleton|].
    intros x Hx. by apply not_elem_of_nil in Hx.
Qed.

Lemma otherPeers_range rf i : i ∈ otherPeers rf → 0 ≤ i < Z.of_nat (peers rf) ∧ i ≠ me rf.
Proof. unfold otherPeers. rewrite list_elem_of_filter, elem_of_seqZ. lia. Qed.

Lemma heartBeats_safe rf js :
  wf rf → (∀ j, j ∈ js → 0 ≤ j < Z.of_nat (peers rf)) →
  ∃ ms, heartBeats rf js = Ret ms ∧ ms.*1 = js ∧ ∀ i m, (i, m) ∈ ms → valid_rpc m.
Proof.
  intros Hwf. induction js as [|j js IH]; intros Hjs; simpl.
  { exists []. split_and!; [done|done|]. by intros ?? ?%not_elem_of_nil. }
  destruct (heartBeatTo_safe rf j Hwf) as (m & -> & Hm); [apply Hjs; by left|].
  destruct IH as (ms & -> & Hfst & Hms); [intros; apply Hjs; by right|].
  eexists. split_and!; [done|by rewrite fmap_cons, Hfst|].
  intros i m' [?|?]%elem_of_cons; simplify_eq; eauto.
Qed.

(** [sendHeartBeat] never reaches its [panic] calls, addresses every other
    peer once, and sends only what the receiver can process. *)
Lemma sendHeartBeat_safe rf :
  wf rf → ∃ ms, sendHeartBeat rf = Ret ms ∧ ms.*1 = otherPeers rf ∧
    ∀ i m, (i, m) ∈ ms → valid_rpc m.
Proof.
  intros Hwf. apply heartBeats_safe; [done|]. intros j [? _]%otherPeers_range. done.
Qed.
(** *** The commit rule *)

Lemma countMatches_safe rf n cnt js :
  wf rf → (∀ j, j ∈ js → 0 ≤ j < Z.of_nat (peers rf)) →
  ∃ b, countMatches rf n cnt js = Ret b.
Proof.
  intros Hwf. revert cnt. induction js as [|j js IH]; intros cnt Hjs; simpl; [by eauto|].
  destruct (go_index_in_range (matchIndex rf) j) as (m & -> & _).
  { rewrite (wf_match _ Hwf). apply Hjs. by left. }
  simpl. repeat case_match; eauto; apply IH; intros; apply Hjs; by right.
Qed.

Lemma searchCommit_safe k rf low N :
  wf rf → N - low < Z.of_nat k → ∃ res, searchCommit k rf low N = Ret res.
Proof.
  intros Hwf. revert N. induction k as [|k IH]; intros N Hk; simpl.
  { case_match; [zlia|by eauto]. }
  case_match; [|by eauto].
  destruct (countMatches_safe rf (RaftIndex rf N) 1 (otherPeers rf) Hwf) as ([] & ->);
    [intros j [? _]%otherPeers_range; done|by eauto|]. apply IH. lia.
Qed.

Lemma findFirstIndex_safe rf t :
  wf rf → ∃ r, findFirstIndex rf t = Ret r ∧ 0 ≤ r ≤ zlen (Logs rf) ∧
    (∀ (i : nat) x, Z.of_nat i < r → Logs rf !! i = Some x → Term x < t) ∧
    (∀ (i : nat) x, r ≤ Z.of_nat i → Logs rf !! i = Some x → t ≤ Term x).
Proof. intros Hwf. apply findFirstIndexIn_correct; apply Hwf. Qed.

(** After the current term nothing follows. *)
Lemma findFirstIndex_next rf :
  wf rf → findFirstIndex rf (CurrentTerm rf + 1) = Ret (zlen (Logs rf)).
Proof.
  intros Hwf. destruct (findFirstIndex_safe rf (CurrentTerm rf + 1) Hwf) as (r & -> & ? & _ & H4).
  f_equal. destruct (decide (r < zlen (Logs rf))); [|lia].
  destruct (lookup_lt_is_Some_2 (Logs rf) (Z.to_nat r)) as [x Hx]; [lia|].
  specialize (H4 (Z.to_nat r) x ltac:(lia) Hx).
  pose proof (wf_terms _ Hwf x ltac:(by eapply list_elem_of_lookup_2)). lia.
Qed.

(** [updateCommittedIndex] reaches neither [panic]: it either leaves the
    server alone or runs the search over the entries of the current term. *)
Lemma updateCommittedIndex_cases rf :
  wf rf →
  updateCommittedIndex rf = Ret rf ∧ (∀ x, x ∈ Logs rf → Term x < CurrentTerm rf) ∨
  ∃ low res, 0 ≤ low < zlen (Logs rf) ∧
    (∀ (i : nat) x, low ≤ Z.of_nat i → Logs rf !! i = Some x → Term x = CurrentTerm rf) ∧
    (∀ (i : nat) x, Z.of_nat i < low → Logs rf !! i = Some x → Term x < CurrentTerm rf) ∧
    searchCommit (length (Logs rf)) rf low (zlen (Logs rf) - 1) = Ret res ∧
    updateCommittedIndex rf =
      Ret (if committedIndex rf =? res then rf else signalApply (set_committedIndex res rf)).
Proof.
  intros Hwf. unfold updateCommittedIndex. rewrite findFirstIndex_next by done.
  destruct (findFirstIndex_safe rf (CurrentTerm rf) Hwf) as (low & -> & Hlow & Hlt & Hge).
  assert (∀ (i : nat) x, low ≤ Z.of_nat i → Logs rf !! i = Some x → Term x = CurrentTerm rf) as Hcur.
  { intros i x Hi Hx. apply Z.le_antisymm; [|by apply (Hge i)].
    apply (wf_terms _ Hwf). by eapply list_elem_of_lookup_2. }
  rewrite bind_Ret. destruct (low =? _) eqn:?.
  { left. split; [done|]. intros x [i Hi]%list_elem_of_lookup. apply (Hlt i x); [|done].
    apply lookup_lt_Some in Hi. zlia. }
  destruct (go_index_in_range (Logs rf) low) as (e & -> & He); [zlia|]. rewrite bind_Ret.
  rewrite (Hcur (Z.to_nat low) e), Z.eqb_refl by (done || zlia). right.
  rewrite bind_Ret. simpl negb. cbv iota. destruct (low >=? _) eqn:?; [zlia|].
  destruct (go_index_in_range (Logs rf) (zlen (Logs rf) - 1)) as (f & -> & Hf); [zlia|].
  rewrite bind_Ret.
  rewrite (Hcur (Z.to_nat (zlen (Logs rf) - 1)) f), Z.eqb_refl by (done || zlia). simpl negb. cbv iota.
  destruct (searchCommit_safe (length (Logs rf)) rf low (zlen (Logs rf) - 1) Hwf) as (res & Hres);
    [zlia|]. exists low, res. rewrite Hres, bind_Ret. split_and!; [zlia|zlia|done|done|done|].
  by destruct (committedIndex rf =? res).
Qed.

Lemma updateCommittedIndex_safe rf :
  wf rf → ∃ rf', updateCommittedIndex rf = Ret rf' ∧ wf rf'.
Proof.
  intros Hwf. destruct (updateCommittedIndex_cases rf Hwf) as [[-> _]|(low & res & _ & _ & _ & _ & ->)];
    [by eauto|]. eexists. split; [done|solve_wf].
Qed.

(** *** Replies *)

Lemma handleInstallSnapshotReply_safe rf server args reply :
  wf rf → 0 ≤ server < Z.of_nat (peers rf) →
  ∃ rf', handleInstallSnapshotReply rf server args reply = Ret rf' ∧ wf rf'.
Proof.
  intros Hwf Hs. unfold handleInstallSnapshotReply.
  case_match; [by eauto|]. case_match; [eexists; split; [done|solve_wf]|].
  destruct (go_index_in_range (matchIndex rf) server) as (m & -> & _); [rewrite (wf_match _ Hwf); lia|].
  rewrite bind_Ret. case_match; [|by eauto].
  rewrite go_set_in_range, bind_Ret by (rewrite (wf_match _ Hwf); lia). simpl nextIndex.
  rewrite go_set_in_range, bind_Ret by (rewrite (wf_next _ Hwf); lia).
  eexists. split; [done|solve_wf].
Qed.

Lemma handleApplyEntriesReply_safe rf server args reply :
  wf rf → 0 ≤ server < Z.of_nat (peers rf) →
  ∃ rf', handleApplyEntriesReply rf server args reply = Ret rf' ∧ wf rf'.
Proof.
  intros Hwf Hs. unfold handleApplyEntriesReply.
  assert (∀ x, ∃ rf', (ni ← go_set (nextIndex rf) server x; Ret (set_nextIndex ni rf)) = Ret rf' ∧ wf rf')
    as Hnext.
  { intros x. rewrite go_set_in_range by (rewrite (wf_next _ Hwf); lia). simpl.
    eexists. split; [done|solve_wf]. }
  case_match; [by eauto|]. case_match.
  { case_match; [case_match; [eexists; split; [done|solve_wf]|by eauto]|].
    case_match; [done|].
    destruct (findFirstIndex_safe rf (aer_XTerm reply) Hwf) as (r & -> & Hr & _). rewrite bind_Ret.
    destruct (r =? _) eqn:?; [rewrite bind_Ret; apply Hnext|].
    destruct (go_index_in_range (Logs rf) r) as (e & -> & He); [zlia|].
    rewrite !bind_Ret.
    destruct (Term e =? _) eqn:Hte; [|apply Hnext]. simpl negb. cbv iota. b2p.
    destruct (findFirstIndex_safe rf (aer_XTerm reply + 1) Hwf) as (r2 & -> & Hr2 & Hlt & Hge).
    rewrite bind_Ret. assert (r < r2) as Hrr.
    { destruct (decide (r < r2)); [done|]. specialize (Hge (Z.to_nat r) e ltac:(lia) He). lia. }
    destruct (go_index_in_range (Logs rf) (r2 - 1)) as (f & -> & Hf); [lia|]. rewrite bind_Ret.
    assert (Term f = aer_XTerm reply) as ->.
    { apply Z.le_antisymm.
      - specialize (Hlt (Z.to_nat (r2 - 1)) f ltac:(lia) Hf). lia.
      - rewrite <-Hte. apply (wf_sorted _ Hwf (Z.to_nat r) (Z.to_nat (r2 - 1))); [lia|done|done]. }
    rewrite Z.eqb_refl. apply Hnext. }
  case_match; [|by eauto].
  destruct (go_index_in_range (nextIndex rf) server) as (n & -> & _); [rewrite (wf_next _ Hwf); lia|].
  rewrite bind_Ret. case_match; [|by eauto].
  rewrite go_set_in_range, bind_Ret by (rewrite (wf_match _ Hwf); lia). simpl nextIndex.
  rewrite go_set_in_range, bind_Ret by (rewrite (wf_next _ Hwf); lia).
  apply updateCommittedIndex_safe. solve_wf.
Qed.
Lemma becomeLeader_safe rf : wf rf →
  ∃ rf', becomeLeader rf = Ret rf' ∧ wf rf' ∧
    rf' = set_matchIndex (replicate (peers rf) 0)
            (set_nextIndex (replicate (peers rf) (RaftIndex rf (zlen (Logs rf))))
               (set_identity LEADER (set_heartbeatTimer true rf))).
Proof.
  intros Hwf. unfold becomeLeader. simpl peers. simpl nextIndex. simpl matchIndex.
  rewrite (go_fill_len (nextIndex rf) (peers rf)) by apply Hwf. rewrite bind_Ret. simpl peers. simpl matchIndex.
  rewrite (go_fill_len (matchIndex rf) (peers rf)) by apply Hwf. rewrite bind_Ret.
  eexists. split_and!; [done|solve_wf|done].
Qed.

Lemma handleRequestVoteReply_safe rf args reply :
  wf rf → ∃ rf', handleRequestVoteReply rf args reply = Ret rf' ∧ wf rf'.
Proof.
  intros Hwf. unfold handleRequestVoteReply.
  case_match; [by eauto|]. case_match; [eexists; split; [done|solve_wf]|].
  case_match; [|by eauto]. case_match; [|eexists; split; [done|solve_wf]].
  edestruct becomeLeader_safe as (rf' & -> & ? & _); [|by eauto]. solve_wf.
Qed.

Lemma tickElection_safe rf :
  wf rf → ∃ rf' ms, tickElection rf = Ret (rf', ms) ∧ wf rf' ∧
    ∀ i m, (i, m) ∈ ms → i ∈ otherPeers rf ∧ valid_rpc m.
Proof.
  intros Hwf. pose proof (wf_logs_len _ Hwf). unfold tickElection. case_match.
  { eexists _, _. split_and!; [done|solve_wf|]. by intros ?? ?%not_elem_of_nil. }
  unfold kickOffNewElection. simpl Logs.
  destruct (go_index_in_range (Logs rf) (zlen (Logs rf) - 1)) as (e & -> & _); [lia|].
  eexists _, _. split_and!; [done|solve_wf|].
  intros i m (j & ? & Hj)%list_elem_of_fmap. by simplify_eq/=.
Qed.

Lemma tickHeartbeat_safe rf :
  wf rf → ∃ rf' ms, tickHeartbeat rf = Ret (rf', ms) ∧ wf rf' ∧
    ∀ i m, (i, m) ∈ ms → i ∈ otherPeers rf ∧ valid_rpc m.
Proof.
  intros Hwf. unfold tickHeartbeat. case_match.
  2:{ eexists _, _. split_and!; [done|solve_wf|]. by intros ?? ?%not_elem_of_nil. }
  destruct (sendHeartBeat_safe (set_heartbeatTimer false rf)) as (ms & -> & Hfst & Hv); [solve_wf|].
  eexists _, _. split_and!; [done|solve_wf|]. intros i m Hm. split; [|by eapply Hv].
  change (otherPeers rf) with (otherPeers (set_heartbeatTimer false rf)). rewrite <-Hfst.
  apply list_elem_of_fmap. by exists (i, m).
Qed.

Lemma Start_safe rf command :
  wf rf → ∃ rf' r ms, Start command rf = Ret (rf', r, ms) ∧ wf rf' ∧
    ∀ i m, (i, m) ∈ ms → i ∈ otherPeers rf ∧ valid_rpc m.
Proof.
  intros Hwf. unfold Start.
  case_match; [eexists _, _, _; split_and!; [done|done|by intros ?? ?%not_elem_of_nil]|].
  case_match; [|eexists _, _, _; split_and!; [done|done|by intros ?? ?%not_elem_of_nil]].
  set (rf1 := persist _). assert (wf rf1) as Hwf1.
  { subst rf1. solve_wf. apply wf_set_Logs; [| | |done].
    - by destruct (Logs rf).
    - apply terms_sorted_app. split_and!; [apply Hwf|apply terms_sorted_singleton|].
      intros x y Hx ->%list_elem_of_singleton. by apply (wf_terms _ Hwf).
    - apply terms_le_app. split; [apply Hwf|by apply terms_le_singleton]. }
  destruct (sendHeartBeat_safe rf1 Hwf1) as (ms & -> & Hfst & Hv).
  eexists _, _, _. split_and!; [done|done|]. intros i m Hm. split; [|by eapply Hv].
  change (otherPeers rf) with (otherPeers rf1). rewrite <-Hfst.
  apply list_elem_of_fmap. by exists (i, m).
Qed.

(** *** [applyLog] *)

(** The messages for the entries from [i] on. *)
Fixpoint command_msgs rf (i : Z) (n : nat) : list (ApplyMsg C) :=
  match n with
  | O => []
  | S n => mkApplyMsg true (entry_at rf i ≫= Command) i false [] 0 0 :: command_msgs rf (i + 1) n
  end.

Lemma command_msgs_ext rf rf' i n :
  (∀ k, entry_at rf k = entry_at rf' k) → command_msgs rf i n = command_msgs rf' i n.
Proof. intros He. revert i. induction n as [|n IH]; intros i; simpl; [done|]. by rewrite He, IH. Qed.

Lemma applyCommands_spec n rf :
  wf rf → lastIncludedIndex rf ≤ lastApplied rf →
  lastApplied rf + Z.of_nat n ≤ RaftIndex rf (zlen (Logs rf) - 1) →
  applyCommands n rf =
  Ret (set_lastApplied (lastApplied rf + Z.of_nat n) rf, command_msgs rf (lastApplied rf + 1) n).
Proof.
  revert rf. induction n as [|n IH]; intros rf Hwf Hla Hn; simpl.
  { rewrite Z.add_0_r. by destruct rf. }
  pose proof (wf_discard _ Hwf). unfold RaftIndex, RealIndex in *. simpl.
  destruct (go_index_in_range (Logs rf) (lastApplied rf + 1 - DiscardCount rf)) as (e & He & Hl); [lia|].
  rewrite He, bind_Ret, IH; [|solve_wf|simpl; lia|simpl; unfold RaftIndex in *; simpl in *; lia].
  simpl. unfold entry_at at 1, RealIndex. rewrite Hl. case_match; [|zlia]. simpl.
  replace (lastApplied rf + 1 + Z.of_nat n) with (lastApplied rf + Z.of_nat (S n)) by lia.
  do 3 f_equal. by apply command_msgs_ext.
Qed.

Lemma applyLog_spec rf :
  wf rf → commit_in_range rf → dead rf = false →
  let la := lastApplied rf in
  let c := committedIndex rf in
  let from := Z.max la (lastIncludedIndex rf) in
  if (c <=? la) && negb (applySnappending rf)
  then applyLog rf = Ret (set_applyLogWaiting true rf, Some [])
  else ∃ t, applyLog rf =
    Ret (set_lastApplied (if la <? c then Z.max from c else la) (set_applySnappending false rf),
         Some ((if applySnappending rf
                then [mkApplyMsg false None 0 true (snapshot rf) t (lastIncludedIndex rf)] else [])
               ++ (if la <? c then command_msgs rf (from + 1) (Z.to_nat (c - from)) else []))).
Proof.
  intros Hwf Hrange Halive la c from. pose proof (wf_logs_len _ Hwf). unfold applyLog, killed.
  rewrite Halive. simpl negb. rewrite andb_true_l. fold la c.
  destruct ((c <=? la) && negb (applySnappending rf)) eqn:Hblock; [done|].
  destruct (go_index_in_range (Logs rf) 0) as (e & He & _); [lia|]. exists (Term e).
  rewrite clone_id.
  set (rf1 := set_applySnappending false rf).
  assert ((if applySnappending rf then
      e ← go_index (Logs rf) 0;
      Ret (rf1, [mkApplyMsg false None 0 true (snapshot rf) (Term e) (lastIncludedIndex rf)])
    else Ret (rf, [])) =
    Ret (rf1, if applySnappending rf then
      [mkApplyMsg false None 0 true (snapshot rf) (Term e) (lastIncludedIndex rf)] else [])) as ->.
  { rewrite He. destruct (applySnappending rf) eqn:Hp; [done|]. subst rf1. destruct rf. by simpl in *; subst. }
  rewrite bind_Ret. subst rf1. simpl lastApplied. simpl committedIndex. fold la c.
  destruct (la <? c) eqn:Hlt; [|rewrite app_nil_r; subst la; by destruct rf].
  simpl lastIncludedIndex. set (rf1 := if la <? _ then _ else _).
  assert (rf1 = set_lastApplied from (set_applySnappending false rf)) as ->.
  { subst rf1 from la. case_match; [by rewrite Z.max_r by zlia|]. rewrite Z.max_l by zlia. by destruct rf. }
  simpl committedIndex. simpl lastApplied. fold c.
  unfold commit_in_range in Hrange. fold c in Hrange.
  rewrite applyCommands_spec; [|solve_wf|simpl; lia|].
  2:{ simpl. unfold RaftIndex in *. simpl. pose proof (wf_discard _ Hwf). zlia. }
  rewrite bind_Ret. simpl. replace (from + Z.of_nat (Z.to_nat (c - from))) with (Z.max from c) by lia.
  do 4 f_equal. by apply command_msgs_ext.
Qed.
Lemma applyLog_safe rf :
  wf rf → commit_in_range rf → ∃ rf' r, applyLog rf = Ret (rf', r) ∧ wf rf'.
Proof.
  intros Hwf Hr. destruct (dead rf) eqn:Hd.
  { unfold applyLog, killed. rewrite Hd. simpl. by eauto. }
  pose proof (applyLog_spec rf Hwf Hr Hd) as Hspec. cbv zeta in Hspec.
  destruct (_ && _); [|destruct Hspec as (t & Hspec)]; rewrite Hspec;
    eexists _, _; (split; [done|solve_wf]).
Qed.

(** *** All events *)

(** Every event a correct peer, the service or the clock can cause runs to
    completion on a well-formed server. *)
Lemma step_safe ev rf :
  wf rf → valid_event ev rf → ∃ rf', step ev rf = Ret rf' ∧ wf rf'.
Proof.
  intros Hwf Hv. destruct ev; simpl in *.
  - destruct (RequestVote_safe rf args Hwf) as (? & ? & -> & ?). by eauto.
  - destruct (ApplyEntries_safe rf args Hwf Hv) as (? & ? & -> & ?). by eauto.
  - destruct (InstallSnapshot_safe rf args Hwf Hv) as (? & ? & -> & ?). by eauto.
  - by apply handleRequestVoteReply_safe.
  - by apply handleApplyEntriesReply_safe.
  - by apply handleInstallSnapshotReply_safe.
  - destruct (Start_safe rf command Hwf) as (? & ? & ? & -> & ? & _). by eauto.
  - by apply Snapshot_safe.
  - destruct (tickElection_safe rf Hwf) as (? & ? & -> & ? & _). by eauto.
  - destruct (tickHeartbeat_safe rf Hwf) as (? & ? & -> & ? & _). by eauto.
  - destruct (applyLog_safe rf Hwf Hv) as (? & ? & -> & ?). by eauto.
  - eexists. split; [done|]. unfold Kill. solve_wf.
Qed.
End server.
Arguments Event : clear implicits.
