(* ===== verification/RaftCommit.v ===== *)
(** * Raft: what is committed and what is delivered

    The search of [updateCommittedIndex] as a count of the peers that hold an
    entry, and the commands [applyLog] delivers. *)

From Stdlib Require Import Strings.Byte.
From stdpp Require Import prelude gmap strings list.
From S2P Require Import Prelude Gob Raft RaftNode RaftServer.
Local Open Scope Z_scope.

Section commit.
Context {C : Type} `{GobLaws Z} `{GobLaws (list (LogEntry C))}.
Implicit Types (rf : Raft C).

(** Peer [j] is known to hold the log up to [N]. *)
Definition has_entry rf (N j : Z) : bool :=
  match matchIndex rf !! Z.to_nat j with Some m => N <=? m | None => false end.

Definition holders rf (N : Z) (js : list Z) : Z := zlen (filter (λ j, has_entry rf N j) js).

(** This server and the peers that hold the log up to [N] are a majority,
    and at least one peer is among them. *)
Definition quorum_at rf (N : Z) : bool :=
  (0 <? holders rf N (otherPeers rf)) &&
  (2 * (1 + holders rf N (otherPeers rf)) >? Z.of_nat (peers rf)).

Lemma countMatches_count rf n cnt js :
  wf rf → (∀ j, j ∈ js → 0 ≤ j < Z.of_nat (peers rf)) →
  countMatches rf n cnt js =
  Ret ((0 <? holders rf n js) && (2 * (cnt + holders rf n js) >? Z.of_nat (peers rf))).
Proof.
  intros Hwf. unfold holders. revert cnt. induction js as [|j js IH]; intros cnt Hjs; simpl; [done|].
  destruct (go_index_in_range (matchIndex rf) j) as (m & -> & Hm).
  { rewrite (wf_match _ Hwf). apply Hjs. by left. }
  assert (has_entry rf n j = (n <=? m)) as Hh by (unfold has_entry; by rewrite Hm).
  rewrite bind_Ret, filter_cons, Z.geb_leb, <-Hh. destruct (has_entry rf n j).
  2:{ rewrite decide_False by auto. by rewrite IH by (intros; apply Hjs; by right). }
  rewrite decide_True by done. simpl.
  set (h := length (filter _ js)) in *.
  destruct (cnt + 1 >? _) eqn:Hgt.
  - f_equal. symmetry. rewrite Z.gtb_ltb in *. apply Z.ltb_lt. zlia.
  - rewrite IH by (intros; apply Hjs; by right). f_equal.
    replace (cnt + Z.of_nat (S h)) with (cnt + 1 + Z.of_nat h) by lia.
    destruct (0 <? Z.of_nat h) eqn:?; [done|]. simpl.
    symmetry. rewrite Z.gtb_ltb in *. apply Z.ltb_ge. zlia.
Qed.

Lemma searchCommit_finds k rf low N :
  wf rf → N - low < Z.of_nat k →
  ∃ res, searchCommit k rf low N = Ret res ∧
    (∀ m, res < RaftIndex rf m → low ≤ m ≤ N → committedIndex rf < RaftIndex rf m →
       quorum_at rf (RaftIndex rf m) = false) ∧
    (res = committedIndex rf ∨
     committedIndex rf < res ∧ quorum_at rf res = true ∧ ∃ m, res = RaftIndex rf m ∧ low ≤ m ≤ N).
Proof.
  intros Hwf. revert N. induction k as [|k IH]; intros N Hk; simpl.
  { case_match; [zlia|]. exists (committedIndex rf). split_and!; [done| |by left].
    intros m. unfold RaftIndex in *. apply andb_false_iff in H3 as [?|?]; zlia. }
  destruct (_ && _) eqn:Hguard.
  2:{ exists (committedIndex rf). split_and!; [done| |by left].
      intros m. unfold RaftIndex in *. apply andb_false_iff in Hguard as [?|?]; zlia. }
  b2p. rewrite countMatches_count; [|done|intros j [? _]%otherPeers_range; done].
  rewrite bind_Ret. fold (quorum_at rf (RaftIndex rf N)).
  destruct (quorum_at rf (RaftIndex rf N)) eqn:Hq.
  - exists (RaftIndex rf N). split_and!; [done|unfold RaftIndex; lia|]. right.
    split_and!; [lia|done|]. exists N. split; [done|lia].
  - destruct (IH (N - 1)) as (res & -> & Hmax & Hcase); [lia|]. exists res. split_and!; [done| |].
    + intros m Hm Hr Hc. destruct (decide (m = N)) as [->|]; [done|]. apply Hmax; [done|lia|done].
    + destruct Hcase as [?|(? & ? & m & ? & ?)]; [by left|right]. split_and!; [done..|].
      exists m. split; [done|lia].
Qed.

(** The committed index moves only to an entry of the current term that a
    majority holds. *)
Lemma updateCommittedIndex_moves rf rf' :
  wf rf → updateCommittedIndex rf = Ret rf' →
  rf' = rf ∨
  ∃ res e, rf' = signalApply (set_committedIndex res rf) ∧ committedIndex rf < res ∧
    quorum_at rf res = true ∧ entry_at rf res = Some e ∧ Term e = CurrentTerm rf.
Proof.
  intros Hwf Hret. destruct (updateCommittedIndex_cases rf Hwf)
    as [[Hr _]|(low & res & Hlow & Hcur & Hlt & Hsearch & Hr)]; rewrite Hret in Hr; injection Hr as ->; [by left|].
  destruct (committedIndex rf =? res) eqn:Hc; [by left|right].
  destruct (searchCommit_finds (length (Logs rf)) rf low (zlen (Logs rf) - 1)) as (r & Hr & _ & Hcase);
    [done|lia|]. rewrite Hsearch in Hr. injection Hr as <-.
  destruct Hcase as [?|(Hgt & Hq & m & -> & Hm)]; [zlia|].
  destruct (lookup_lt_is_Some_2 (Logs rf) (Z.to_nat m)) as [e He]; [lia|].
  exists (RaftIndex rf m), e. split_and!; [done|done|done| |].
  - unfold entry_at, RealIndex, RaftIndex. rewrite Z.add_simpl_r. case_match; [done|zlia].
  - apply (Hcur (Z.to_nat m)); [lia|done].
Qed.

Lemma command_msgs_elem rf i n m :
  m ∈ command_msgs rf i n →
  CommandValid m = true ∧ i ≤ CommandIndex m < i + Z.of_nat n ∧
  msg_Command m = entry_at rf (CommandIndex m) ≫= Command.
Proof.
  revert i. induction n as [|n IH]; intros i; simpl; [by intros ?%not_elem_of_nil|].
  intros [->|Hin]%elem_of_cons; simpl; [split_and!; [done|lia|lia|done]|].
  apply IH in Hin as (? & ? & ?). split_and!; [done|lia|lia|done].
Qed.

(** The commands one turn of [applyLog] delivers are committed ones. *)
Lemma applyLog_messages rf rf' ms m :
  wf rf → commit_in_range rf → applyLog rf = Ret (rf', Some ms) → m ∈ ms → CommandValid m = true →
  lastApplied rf < CommandIndex m ≤ committedIndex rf ∧ lastIncludedIndex rf < CommandIndex m ∧
  msg_Command m = entry_at rf (CommandIndex m) ≫= Command.
Proof.
  intros Hwf Hr Hret Hm Hcv. destruct (dead rf) eqn:Hd.
  { unfold applyLog, killed in Hret. rewrite Hd in Hret. by simpl in Hret. }
  pose proof (applyLog_spec rf Hwf Hr Hd) as Hspec. cbv zeta in Hspec.
  destruct (_ && _) eqn:Hb; [|destruct Hspec as (t & Hspec)]; rewrite Hspec in Hret; injection Hret as <- <-.
  { by apply not_elem_of_nil in Hm. }
  apply elem_of_app in Hm as [Hm|Hm].
  { destruct (applySnappending rf); [|by apply not_elem_of_nil in Hm].
    apply list_elem_of_singleton in Hm. by subst. }
  destruct (lastApplied rf <? committedIndex rf) eqn:?; [|by apply not_elem_of_nil in Hm].
  apply command_msgs_elem in Hm as (_ & ? & ?). split_and!; [lia|lia|lia|done].
Qed.
End commit.
