(* ===== verification/RaftEvolve.v ===== *)
(** * Raft: how a server evolves

    What every step keeps, whatever the arguments: terms never decrease and a
    vote is never changed within a term; what is on disk is what the server
    needs after a crash; a leader's heartbeat timer and every other server's
    election timer stay armed; the [applyLog] goroutine is not left waiting
    when there is something to apply. *)

From Stdlib Require Import Strings.Byte.
From stdpp Require Import prelude gmap strings list.
From S2P Require Import Prelude Gob Raft RaftNode RaftServer.
Local Open Scope Z_scope.

Section evolve.
Context {C : Type} `{GobLaws Z} `{GobLaws (list (LogEntry C))}.
Implicit Types (rf : Raft C).

(** The term only grows; within a term a vote, once cast, stays. *)
Definition vote_le rf rf' : Prop :=
  CurrentTerm rf < CurrentTerm rf' ∨
  CurrentTerm rf = CurrentTerm rf' ∧ (VoteFor rf = VoteFor rf' ∨ VoteFor rf = Unvote).

(** *** The disk *)

(** Term, vote and log a server starts with from this persister. *)
Definition booted (ps : Persister) : Z * Z * list (LogEntry C) :=
  if zlen (ReadRaftState ps) <? 1 then (0, Unvote, [zeroEntry])
  else default (0, Unvote, [zeroEntry]) (decodeRaftState (ReadRaftState ps)).

(** The log and the snapshot on disk are the current ones, and so are term
    and vote unless the server moved to a newer term without voting in it. *)
Definition durable rf : Prop :=
  ∃ t v, booted (persister rf) = (t, v, Logs rf) ∧
    ps_snapshot (persister rf) = snapshot rf ∧
    t ≤ CurrentTerm rf ∧
    (t = CurrentTerm rf → v = VoteFor rf) ∧
    (t < CurrentTerm rf → VoteFor rf = Unvote).

Lemma persist_decodes rf :
  (zlen (ReadRaftState (persister (persist rf))) <? 1) = false ∧
  decodeRaftState (ReadRaftState (persister (persist rf))) =
    Some (CurrentTerm rf, VoteFor rf, Logs rf).
Proof.
  unfold persist, ReadRaftState. simpl. rewrite !clone_id.
  set (w1 := gob_enc [] (CurrentTerm rf)). set (w2 := gob_enc w1 (VoteFor rf)).
  set (w3 := gob_enc w2 (Logs rf)).
  assert (w2 `prefix_of` w3) as H23 by apply gob_enc_prefix.
  assert (w1 `prefix_of` w2) as H12 by apply gob_enc_prefix. split.
  { assert (w3 ≠ []) as Hne by apply gob_enc_ne_nil.
    destruct w3; [done|]. rewrite length_cons. apply Z.ltb_ge. lia. }
  unfold decodeRaftState.
  pose proof (gob_dec_enc [] (CurrentTerm rf) w3 ltac:(by etrans)) as E1. simpl length in E1.
  fold w1 in E1. rewrite E1. simpl. rewrite (gob_dec_enc w1 (VoteFor rf) w3 H23). simpl.
  by rewrite (gob_dec_enc w2 (Logs rf) w3).
Qed.

Lemma persist_booted rf :
  booted (persister (persist rf)) = (CurrentTerm rf, VoteFor rf, Logs rf).
Proof. unfold booted. destruct (persist_decodes rf) as [-> ->]. done. Qed.

Lemma durable_persist rf : durable (persist rf).
Proof.
  exists (CurrentTerm rf), (VoteFor rf). rewrite persist_booted. split_and!; simpl; try done; [|lia].
  by rewrite clone_id.
Qed.

(** The fields [durable] looks at. *)
Lemma durable_ext rf rf' :
  persister rf' = persister rf → snapshot rf' = snapshot rf → Logs rf' = Logs rf →
  CurrentTerm rf' = CurrentTerm rf → VoteFor rf' = VoteFor rf → durable rf → durable rf'.
Proof. intros Hp Hs HL HT HV (t & v & ?). exists t, v. by rewrite Hp, Hs, HL, HT, HV. Qed.

(** Adopting a newer term without persisting it keeps [durable]. *)
Lemma durable_adoptTerm term rf : durable rf → durable (adoptTerm term rf).
Proof.
  intros (t & v & Hb & Hs & Ht & Heq & Hlt). exists t, v. unfold adoptTerm. simpl.
  destruct (CurrentTerm rf <? term) eqn:?; simpl; split_and!; try done; zlia.
Qed.

(** *** Timers and the apply goroutine *)

Definition live rf : Prop :=
  (identity rf = LEADER → heartbeatTimer rf = true) ∧
  (identity rf ≠ LEADER → electionTimer rf = true) ∧
  (applyLogWaiting rf = true →
    committedIndex rf ≤ lastApplied rf ∧ applySnappending rf = false).

Record evolves rf rf' : Prop := mkEvolves {
  ev_peers : peers rf' = peers rf;
  ev_me : me rf' = me rf;
  ev_vote : vote_le rf rf';
  ev_durable : durable rf → durable rf';
  ev_live : live rf → live rf';
}.

#[export] Instance evolves_preorder : PreOrder evolves.
Proof.
  split.
  - intros rf. split; try done. right. split; [done|by left].
  - intros rf1 rf2 rf3 [P1 M1 V1 D1 L1] [P2 M2 V2 D2 L2].
    split; [congruence|congruence| |auto|auto].
    unfold vote_le in *. destruct V1 as [|[? [|]]], V2 as [|[? [|]]]; try (left; lia);
      right; split; [lia|left; congruence|lia|right; congruence|lia|right; congruence|lia|by right].
Qed.

Lemma evolves_persist rf : evolves rf (persist rf).
Proof. split; try done; [right; split; [done|by left]|intros; apply durable_persist]. Qed.

Lemma evolves_adoptTerm term rf : evolves rf (adoptTerm term rf).
Proof.
  split; [by unfold adoptTerm; case_match..| |apply durable_adoptTerm|].
  - unfold vote_le, adoptTerm. simpl. case_match; simpl; [left; zlia|by right; split; [|left]].
  - intros (HL & HE & HW). unfold live, adoptTerm. simpl. by case_match.
Qed.

Lemma evolves_stepDown term rf :
  CurrentTerm rf < term → evolves rf (persist (stepDown term rf)).
Proof.
  intros. split; [done|done|by left|intros; apply durable_persist|].
  intros (HL & HE & HW). by split_and!.
Qed.

(** Updates that leave term, vote, disk, log, identity, timers and the apply
    goroutine's condition alone. *)
Lemma evolves_same rf rf' :
  peers rf' = peers rf → me rf' = me rf → CurrentTerm rf' = CurrentTerm rf →
  VoteFor rf' = VoteFor rf → persister rf' = persister rf → snapshot rf' = snapshot rf →
  Logs rf' = Logs rf → identity rf' = identity rf → heartbeatTimer rf' = heartbeatTimer rf →
  electionTimer rf' = electionTimer rf → applyLogWaiting rf' = applyLogWaiting rf →
  committedIndex rf' = committedIndex rf → lastApplied rf' = lastApplied rf →
  applySnappending rf' = applySnappending rf → evolves rf rf'.
Proof.
  intros ?? HT HV ??? HI HH HE HW HC HA HP.
  split; [done|done|right; split; [done|by left]|by apply durable_ext|].
  unfold live. by rewrite HI, HH, HE, HW, HC, HA, HP.
Qed.

(** *** Handlers *)

Lemma RequestVote_evolves rf args rf' reply :
  RequestVote rf args = Ret (rf', reply) → evolves rf rf'.
Proof.
  unfold RequestVote. intros Hret.
  destruct (_ || _) eqn:Hrej; [go_inv; apply evolves_persist|].
  set (rf1 := if rv_Term args >? CurrentTerm rf then _ else rf) in Hret.
  assert (CurrentTerm rf1 = rv_Term args ∧ evolves rf rf1 ∧ (VoteFor rf1 = Unvote ∨
    VoteFor rf1 = rv_CandidateId args)) as (HT & Hev & HV).
  { subst rf1. apply orb_false_iff in Hrej as [Hge Hvote]. destruct (_ >? _) eqn:Hgt.
    - split_and!; [done| |by left]. split; simpl; [by case_match..|left; simpl; zlia| |].
      + intros (t & v & Hb & Hs & Ht & _). exists t, v. simpl.
        case_match; simpl; split_and!; try done; zlia.
      + intros (HL & HE & HW). unfold live. simpl. case_match; split_and!; try done.
        intros _. apply HE. by rewrite e.
    - split_and!; [zlia|done|]. destruct (decide (VoteFor rf = Unvote)); [by left|right].
      destruct (decide (VoteFor rf = rv_CandidateId args)); [done|].
      assert (rv_Term args = CurrentTerm rf) by zlia. lia. }
  clearbody rf1. go_inv; [etrans; [done|apply evolves_persist]|].
  etrans; [apply Hev|]. split; [done|done| |intros; apply durable_persist|].
  - right. simpl. split; [done|]. destruct HV; auto.
  - intros (HL & HE & HW). by split_and!.
Qed.

Lemma evolves_updateCommit x rf : evolves rf (updateCommit x rf).
Proof.
  unfold updateCommit. simpl. destruct (committedIndex rf =? x) eqn:?; simpl.
  - apply evolves_same; try done. simpl. zlia.
  - split; [done|done|right; split; [done|by left]|by apply durable_ext|].
    intros (HL & HE & HW). by split_and!.
Qed.

Lemma persist_updateCommit x rf : persist (updateCommit x rf) = updateCommit x (persist rf).
Proof. unfold updateCommit. simpl. by case_match. Qed.

Lemma evolves_write L rf : evolves rf (persist (set_Logs L rf)).
Proof. split; [done|done|right; split; [done|by left]|intros; apply durable_persist|done]. Qed.

Lemma ApplyEntries_evolves rf args rf' reply :
  ApplyEntries rf args = Ret (rf', reply) → evolves rf rf'.
Proof.
  unfold ApplyEntries. intros Hret. destruct (_ >? _) eqn:?; [go_inv; apply evolves_persist|].
  etrans; [apply (evolves_adoptTerm (ae_Term args))|].
  generalize dependent (adoptTerm (ae_Term args) rf). intros rf1 Hret.
  go_inv; try apply evolves_persist; simpl; case_match; rewrite ?persist_updateCommit;
    eauto using evolves_persist, evolves_write;
    (etrans; [|apply evolves_updateCommit]); eauto using evolves_persist, evolves_write.
Qed.

Lemma doSnapshot_inv rf rf' :
  doSnapshot rf = Ret rf' →
  ∃ L, rf' = persist (set_DiscardCount (lastIncludedIndex rf) (set_Logs L rf)).
Proof. unfold doSnapshot. intros ?. go_inv. eauto. Qed.

(** Replacing log, snapshot and the two indices, then persisting. *)
Lemma evolves_doSnapshot rf rf1 rf' :
  peers rf1 = peers rf → me rf1 = me rf → CurrentTerm rf1 = CurrentTerm rf →
  VoteFor rf1 = VoteFor rf → (live rf → live rf1) →
  doSnapshot rf1 = Ret rf' → evolves rf rf'.
Proof.
  intros ???? Hlive (L & ->)%doSnapshot_inv.
  split; [done|done|right; split; [done|by left]|intros; apply durable_persist|].
  intros Hl%Hlive. done.
Qed.

Lemma evolves_signalSnapshot rf : evolves rf (signalApply (set_applySnappending true rf)).
Proof.
  split; [done|done|right; split; [done|by left]|by apply durable_ext|].
  intros (HL & HE & HW). by split_and!.
Qed.

Lemma InstallSnapshot_evolves rf args rf' reply :
  InstallSnapshot rf args = Ret (rf', reply) → evolves rf rf'.
Proof.
  unfold InstallSnapshot. intros Hret. destruct (_ <? _) eqn:?; [by go_inv|].
  etrans; [apply (evolves_adoptTerm (is_Term args))|].
  generalize dependent (adoptTerm (is_Term args) rf). intros rf1 Hret.
  destruct (_ >=? _); [by go_inv|].
  apply bind_Ret_inv in Hret as (keep & _ & Hret).
  apply bind_Ret_inv in Hret as (rf2 & Hdo & Hret). go_inv.
  etrans; [|apply evolves_signalSnapshot].
  eapply evolves_doSnapshot; [..|exact Hdo]; by destruct keep.
Qed.

Lemma Snapshot_evolves index snap rf rf' :
  Snapshot index snap rf = Ret rf' → evolves rf rf'.
Proof.
  unfold Snapshot. intros Hret. destruct (index <=? _); [by go_inv|].
  eapply evolves_doSnapshot; [..|exact Hret]; [by repeat case_match..|].
  intros (HL & HE & HW). unfold live. repeat case_match; simpl in *; split_and!; try done;
    intros [? ?]%HW; (split; [zlia|done]).
Qed.

Lemma updateCommittedIndex_evolves rf rf' :
  updateCommittedIndex rf = Ret rf' → evolves rf rf'.
Proof.
  unfold updateCommittedIndex. intros Hret. go_inv; try done.
  split; [done|done|right; split; [done|by left]|by apply durable_ext|].
  intros (HL & HE & HW). by split_and!.
Qed.

Lemma handleInstallSnapshotReply_evolves rf server args reply rf' :
  handleInstallSnapshotReply rf server args reply = Ret rf' → evolves rf rf'.
Proof.
  unfold handleInstallSnapshotReply. intros Hret.
  go_inv; try done; [apply evolves_stepDown; zlia|by apply evolves_same].
Qed.

Lemma handleApplyEntriesReply_evolves rf server args reply rf' :
  handleApplyEntriesReply rf server args reply = Ret rf' → evolves rf rf'.
Proof.
  unfold handleApplyEntriesReply. intros Hret.
  go_inv; try done; try (by apply evolves_same); [apply evolves_stepDown; zlia|].
  etrans; [|by eapply updateCommittedIndex_evolves]. by apply evolves_same.
Qed.

Lemma becomeLeader_evolves rf rf' : becomeLeader rf = Ret rf' → evolves rf rf'.
Proof.
  unfold becomeLeader. intros Hret. go_inv.
  split; [done|done|right; split; [done|by left]|by apply durable_ext|].
  intros (HL & HE & HW). by split_and!.
Qed.

Lemma handleRequestVoteReply_evolves rf args reply rf' :
  handleRequestVoteReply rf args reply = Ret rf' → evolves rf rf'.
Proof.
  unfold handleRequestVoteReply. intros Hret.
  go_inv; try done; [apply evolves_stepDown; zlia| |by apply evolves_same].
  etrans; [|by eapply becomeLeader_evolves]. by apply evolves_same.
Qed.

Lemma Start_evolves command rf rf' r ms : Start command rf = Ret (rf', r, ms) → evolves rf rf'.
Proof. unfold Start. intros Hret. go_inv; try done. apply evolves_write. Qed.

Lemma tickElection_evolves rf rf' ms : tickElection rf = Ret (rf', ms) → evolves rf rf'.
Proof.
  unfold tickElection, kickOffNewElection. intros Hret. case_match; go_inv.
  - split; [done|done|right; split; [done|by left]|by apply durable_ext|].
    intros (HL & HE & HW). by split_and!.
  - split; [done|done|left; simpl; lia|intros; apply (durable_ext (persist
      (set_VoteFor (me rf) (set_identity CANDIDATE (set_CurrentTerm (CurrentTerm rf + 1)
        (set_electionTimer false rf)))))); try done; apply durable_persist|].
    intros (HL & HE & HW). by split_and!.
Qed.

Lemma tickHeartbeat_evolves rf rf' ms : tickHeartbeat rf = Ret (rf', ms) → evolves rf rf'.
Proof.
  unfold tickHeartbeat. intros Hret. case_match; go_inv;
    (split; [done|done|right; split; [done|by left]|by apply durable_ext|]);
    intros (HL & HE & HW); by split_and!.
Qed.

Lemma applyCommands_inv n rf rf' ms :
  applyCommands n rf = Ret (rf', ms) → rf' = set_lastApplied (lastApplied rf + Z.of_nat n) rf.
Proof.
  revert rf rf' ms. induction n as [|n IH]; intros rf rf' ms Hret; simpl in Hret; go_inv.
  - rewrite Z.add_0_r. by destruct rf'.
  - apply IH in H4 as ->. simpl. unfold set_lastApplied. simpl. f_equal. lia.
Qed.

Lemma applyLog_evolves rf rf' r : applyLog rf = Ret (rf', r) → evolves rf rf'.
Proof.
  unfold applyLog. intros Hret. destruct (_ && _) eqn:Hblock.
  { go_inv. split; [done|done|right; split; [done|by left]|by apply durable_ext|].
    intros (HL & HE & HW). split_and!; [done|done|]. intros _. simpl. b2p. done. }
  destruct (killed rf); [by go_inv|].
  apply bind_Ret_inv in Hret as ([rf1 snap] & Hsnap & Hret).
  assert (evolves rf rf1) as Hev.
  { clear Hret Hblock. destruct (applySnappending rf) eqn:?; go_inv; [|done].
    split; [done|done|right; split; [done|by left]|by apply durable_ext|].
    intros (HL & HE & HW). split_and!; [done|done|]. simpl. intros [? ?]%HW. congruence. }
  etrans; [exact Hev|]. clear Hev Hsnap Hblock. destruct (lastApplied rf1 <? _) eqn:Hlt; [|by go_inv].
  apply bind_Ret_inv in Hret as ([rf2 cmds] & Happ & Hret). go_inv.
  apply applyCommands_inv in Happ as ->.
  destruct (lastApplied rf1 <? lastIncludedIndex rf1) eqn:?; simpl;
    (split; [done|done|right; split; [done|by left]|by apply durable_ext|]);
    intros (HL & HE & HW); (split_and!; [done|done|]); simpl; intros [? ?]%HW; zlia.
Qed.

Lemma step_evolves ev rf rf' : step ev rf = Ret rf' → evolves rf rf'.
Proof.
  destruct ev; simpl; intros Hret; go_inv;
    eauto using RequestVote_evolves, ApplyEntries_evolves, InstallSnapshot_evolves,
      handleRequestVoteReply_evolves, handleApplyEntriesReply_evolves,
      handleInstallSnapshotReply_evolves, Start_evolves, Snapshot_evolves,
      tickElection_evolves, tickHeartbeat_evolves, applyLog_evolves.
  by apply evolves_same.
Qed.

(** *** Writes to the disk

    A step either leaves the disk and the log alone, or ends with term, vote
    and log as it wrote them. *)
Definition disk_step rf rf' : Prop :=
  (persister rf' = persister rf ∧ Logs rf' = Logs rf) ∨
  booted (persister rf') = (CurrentTerm rf', VoteFor rf', Logs rf').

Lemma disk_step_persist rf y rf' :
  persister rf' = persister (persist y) → CurrentTerm rf' = CurrentTerm y →
  VoteFor rf' = VoteFor y → Logs rf' = Logs y → disk_step rf rf'.
Proof. intros Hp HT HV HL. right. by rewrite Hp, HT, HV, HL, persist_booted. Qed.

Lemma adoptTerm_persister term rf : persister (adoptTerm term rf) = persister rf.
Proof. unfold adoptTerm. by case_match. Qed.

Lemma RequestVote_disk rf args rf' reply :
  RequestVote rf args = Ret (rf', reply) → disk_step rf rf'.
Proof. unfold RequestVote. intros Hret. go_inv; right; by rewrite persist_booted. Qed.

Lemma ApplyEntries_disk rf args rf' reply :
  ApplyEntries rf args = Ret (rf', reply) → disk_step rf rf'.
Proof. unfold ApplyEntries. intros Hret. go_inv; right; by rewrite persist_booted. Qed.

Lemma InstallSnapshot_disk rf args rf' reply :
  InstallSnapshot rf args = Ret (rf', reply) → disk_step rf rf'.
Proof.
  unfold InstallSnapshot. intros Hret. destruct (_ <? _) eqn:?; [go_inv; by left|].
  destruct (_ >=? _).
  { go_inv. left. rewrite adoptTerm_persister. by destruct (adoptTerm_core (is_Term args) rf) as [-> _]. }
  apply bind_Ret_inv in Hret as (keep & _ & Hret).
  apply bind_Ret_inv in Hret as (rf2 & (L & ->)%doSnapshot_inv & Hret). go_inv.
  by eapply disk_step_persist.
Qed.

Lemma disk_step_same rf rf' :
  persister rf' = persister rf → Logs rf' = Logs rf → disk_step rf rf'.
Proof. by left. Qed.

Lemma updateCommittedIndex_disk rf rf' :
  updateCommittedIndex rf = Ret rf' → persister rf' = persister rf ∧ Logs rf' = Logs rf.
Proof. unfold updateCommittedIndex. intros ?. by go_inv. Qed.

Lemma stepDown_disk rf term : disk_step rf (persist (stepDown term rf)).
Proof. right. by rewrite persist_booted. Qed.

Lemma handleRequestVoteReply_disk rf args reply rf' :
  handleRequestVoteReply rf args reply = Ret rf' → disk_step rf rf'.
Proof.
  unfold handleRequestVoteReply, becomeLeader. intros Hret.
  go_inv; try apply stepDown_disk; by apply disk_step_same.
Qed.

Lemma handleApplyEntriesReply_disk rf server args reply rf' :
  handleApplyEntriesReply rf server args reply = Ret rf' → disk_step rf rf'.
Proof.
  unfold handleApplyEntriesReply. intros Hret.
  go_inv; try apply stepDown_disk; try (by apply disk_step_same).
  apply updateCommittedIndex_disk in Hret as [??]. by apply disk_step_same.
Qed.

Lemma handleInstallSnapshotReply_disk rf server args reply rf' :
  handleInstallSnapshotReply rf server args reply = Ret rf' → disk_step rf rf'.
Proof.
  unfold handleInstallSnapshotReply. intros Hret.
  go_inv; try apply stepDown_disk; by apply disk_step_same.
Qed.

Lemma Start_disk command rf rf' r ms : Start command rf = Ret (rf', r, ms) → disk_step rf rf'.
Proof.
  unfold Start. intros Hret. go_inv; [by left| |by left]. right. by rewrite persist_booted.
Qed.

Lemma Snapshot_disk index snap rf rf' : Snapshot index snap rf = Ret rf' → disk_step rf rf'.
Proof.
  unfold Snapshot. intros Hret. destruct (_ <=? _); [go_inv; by left|].
  apply doSnapshot_inv in Hret as (L & ->). right. by rewrite persist_booted.
Qed.

Lemma tickElection_disk rf rf' ms : tickElection rf = Ret (rf', ms) → disk_step rf rf'.
Proof.
  unfold tickElection, kickOffNewElection. intros Hret. case_match; go_inv; [by left|].
  by eapply disk_step_persist.
Qed.

Lemma tickHeartbeat_disk rf rf' ms : tickHeartbeat rf = Ret (rf', ms) → disk_step rf rf'.
Proof. unfold tickHeartbeat. intros Hret. case_match; go_inv; by left. Qed.

(** [applyLog] moves [lastApplied] and clears the pending snapshot. *)
Lemma applyLog_inv rf rf' r :
  applyLog rf = Ret (rf', r) →
  ∃ w p la, rf' = set_applyLogWaiting w (set_applySnappending p (set_lastApplied la rf)).
Proof.
  unfold applyLog. intros Hret. destruct (_ && _).
  { go_inv. exists true, (applySnappending rf), (lastApplied rf). by destruct rf. }
  destruct (killed rf).
  { go_inv. exists (applyLogWaiting rf'), (applySnappending rf'), (lastApplied rf'). by destruct rf'. }
  apply bind_Ret_inv in Hret as ([rf1 snap] & Hsnap & Hret).
  assert (∃ p, rf1 = set_applySnappending p rf) as (p & ->).
  { clear Hret. destruct (applySnappending rf) eqn:Hp; go_inv; [by eexists|].
    exists (applySnappending rf1). by destruct rf1. }
  clear Hsnap. destruct (_ <? _).
  - apply bind_Ret_inv in Hret as ([rf2 cmds] & Happ%applyCommands_inv & Hret). go_inv.
    exists (applyLogWaiting rf), p.
    match goal with |- context [set_lastApplied ?l (if _ then _ else _)] => generalize l end.
    intros la. exists la. by case_match.
  - go_inv. exists (applyLogWaiting rf), p, (lastApplied rf). by destruct rf.
Qed.

Lemma applyLog_disk rf rf' r : applyLog rf = Ret (rf', r) → disk_step rf rf'.
Proof. intros (w & p & la & ->)%applyLog_inv. by left. Qed.

Lemma step_disk ev rf rf' : step ev rf = Ret rf' → disk_step rf rf'.
Proof.
  destruct ev; simpl; intros Hret; go_inv;
    eauto using RequestVote_disk, ApplyEntries_disk, InstallSnapshot_disk,
      handleRequestVoteReply_disk, handleApplyEntriesReply_disk,
      handleInstallSnapshotReply_disk, Start_disk, Snapshot_disk, tickElection_disk,
      tickHeartbeat_disk, applyLog_disk.
  by left.
Qed.
(** *** Crash and restart *)

(** The terms of the log on disk are not above the term on disk. *)
Definition disk_ok rf : Prop :=
  let '(t, _, L) := booted (persister rf) in 0 ≤ t ∧ terms_le t L.

Lemma disk_ok_step rf rf' : disk_step rf rf' → wf rf' → disk_ok rf → disk_ok rf'.
Proof.
  unfold disk_ok. intros [[-> _]| ->] Hwf; [done|]. intros _. split; apply Hwf.
Qed.

Lemma readPersist_booted ps rf :
  Logs rf = [zeroEntry] → CurrentTerm rf = 0 → VoteFor rf = Unvote →
  readPersist (ReadRaftState ps) rf =
  let '(t, v, L) := booted ps in set_Logs L (set_VoteFor v (set_CurrentTerm t rf)).
Proof.
  intros HL HT HV. unfold readPersist, booted.
  destruct (zlen _ <? 1); [|destruct (decodeRaftState _) as [[[t v] L]|]]; simpl; try done;
    destruct rf; simpl in *; by subst.
Qed.

(** The state of a server right after [Make]. *)
Definition boot_state (n : nat) (i : Z) (ps : Persister) (t v : Z) (L : list (LogEntry C))
    (index : Z) (snap : list byte) : Raft C :=
  mkRaft n ps i false t FOLLOWER v true true false L index index (replicate n 0)
    (replicate n 0) index snap index false ∅.

Lemma Make_boot n i ps t v L index :
  booted ps = (t, v, L) → snap_ok index (ps_snapshot ps) →
  Make n i ps = Ret (boot_state n i ps t v L index (ps_snapshot ps)).
Proof.
  intros Hb Hsnap. unfold Make. rewrite readPersist_booted, Hb by done.
  unfold readSnapShot, ReadSnapshot. rewrite clone_id.
  destruct Hsnap as [[-> ->]|[Hne (p & Hdec)]]; [done|].
  destruct (zlen _ <? 1) eqn:Hlen.
  { destruct (ps_snapshot ps); [done|rewrite length_cons in Hlen; zlia]. }
  by rewrite Hdec.
Qed.

Lemma boot_live n i ps t v L index snap : live (boot_state n i ps t v L index snap).
Proof. by split_and!. Qed.

Lemma boot_wf n i ps t v L index snap :
  0 ≤ i < Z.of_nat n → 0 ≤ t → L ≠ [] → terms_sorted L → terms_le t L → 0 ≤ index →
  snap_ok index snap → wf (boot_state n i ps t v L index snap).
Proof. intros. constructor; simpl; rewrite ?length_replicate; done. Qed.

Lemma boot_durable n i ps t v L index :
  booted ps = (t, v, L) → durable (boot_state n i ps t v L index (ps_snapshot ps)).
Proof. intros Hb. exists t, v. simpl. split_and!; [done|done|done|done|lia]. Qed.

(** A server restarted from its disk has the log and the snapshot it had,
    and a term and a vote consistent with its past. *)
Lemma Make_recovers rf :
  wf rf → durable rf → disk_ok rf →
  ∃ t v, booted (persister rf) = (t, v, Logs rf) ∧
    vote_le (boot_state (peers rf) (me rf) (persister rf) t v (Logs rf)
               (lastIncludedIndex rf) (snapshot rf)) rf ∧
    Make (peers rf) (me rf) (persister rf) =
      Ret (boot_state (peers rf) (me rf) (persister rf) t v (Logs rf)
             (lastIncludedIndex rf) (snapshot rf)) ∧
    wf (boot_state (peers rf) (me rf) (persister rf) t v (Logs rf)
          (lastIncludedIndex rf) (snapshot rf)) ∧
    durable (boot_state (peers rf) (me rf) (persister rf) t v (Logs rf)
               (lastIncludedIndex rf) (snapshot rf)).
Proof.
  intros Hwf (t & v & Hb & Hs & Ht & Heq & Hlt) Hd. unfold disk_ok in Hd. rewrite Hb in Hd.
  destruct Hd as [Ht0 Hle]. exists t, v. rewrite <-Hs. split_and!; [done| | | |].
  - unfold vote_le. simpl. destruct (decide (t = CurrentTerm rf)) as [Hteq|]; [|left; lia].
    right. split; [done|left; by apply Heq].
  - apply Make_boot; [done|]. rewrite Hs. apply Hwf.
  - apply boot_wf; try done; try apply Hwf. rewrite Hs. apply Hwf.
  - by apply boot_durable.
Qed.

Lemma Make_fresh n i :
  0 ≤ i < Z.of_nat n →
  ∃ rf, Make (C := C) n i MakePersister = Ret rf ∧ wf rf ∧ durable rf ∧ disk_ok rf ∧ live rf ∧
    rf = boot_state n i MakePersister 0 Unvote [zeroEntry] 0 [].
Proof.
  intros Hi. eexists. split_and!; [apply (Make_boot n i MakePersister 0 Unvote [zeroEntry] 0)| | | | |done].
  - done.
  - by left.
  - apply boot_wf; try done; [apply terms_sorted_singleton|by apply terms_le_singleton|by left].
  - by apply (boot_durable n i MakePersister).
  - unfold disk_ok, booted. simpl. split; [lia|by apply terms_le_singleton].
  - apply boot_live.
Qed.

(** *** Runs of a server on its own *)

Definition valid_run : Raft C → Raft C → Prop :=
  rtc (λ rf rf', ∃ ev, valid_event ev rf ∧ step ev rf = Ret rf').

Lemma valid_run_keeps rf rf' :
  valid_run rf rf' → wf rf → disk_ok rf → wf rf' ∧ disk_ok rf' ∧ evolves rf rf'.
Proof.
  induction 1 as [rf|rf rf1 rf' (ev & Hv & Hret) _ IH]; intros Hwf Hd; [done|].
  destruct (step_safe ev rf Hwf Hv) as (rf2 & Hret' & Hwf1).
  rewrite Hret in Hret'. simplify_eq.
  destruct IH as (? & ? & ?); [done|eapply disk_ok_step; [by eapply step_disk|done..]|].
  split_and!; [done..|]. etrans; [by eapply step_evolves|done].
Qed.

(** The Raft of server [i] of [n] servers, however often it was started again
    from its own disk. *)
Inductive lived (n : nat) (i : Z) : Raft C → Prop :=
  | lived_fresh rf : Make n i MakePersister = Ret rf → lived n i rf
  | lived_run rf rf' : lived n i rf → valid_run rf rf' → lived n i rf'
  | lived_again rf rf' : lived n i rf → Make n i (persister rf) = Ret rf' → lived n i rf'.

Lemma lived_keeps n i rf :
  0 ≤ i < Z.of_nat n → lived n i rf → wf rf ∧ durable rf ∧ disk_ok rf ∧ peers rf = n ∧ me rf = i.
Proof.
  intros Hi. induction 1 as [rf Hmake|rf rf' _ (Hwf & Hdur & Hd & Hpe & Hme) Hrun|rf rf' _ (Hwf & Hdur & Hd & Hpe & Hme) Hmake].
  - destruct (Make_fresh n i Hi) as (rf1 & Hrf & ? & ? & ? & _ & Heq).
    assert (rf1 = rf) as -> by congruence. by split_and!; [..|rewrite Heq|rewrite Heq].
  - destruct (valid_run_keeps _ _ Hrun Hwf Hd) as (? & ? & [Hpe' Hme' _ Hdur' _]).
    split_and!; [done|by apply Hdur'|done|by rewrite Hpe'|by rewrite Hme'].
  - destruct (Make_recovers rf Hwf Hdur Hd) as (t & v & Hb & _ & Hret & Hwf' & Hdur').
    rewrite Hpe, Hme in *. rewrite Hmake in Hret. injection Hret as ->. by split_and!.
Qed.

Lemma valid_run_make n i rf0 rf :
  0 ≤ i < Z.of_nat n → Make n i MakePersister = Ret rf0 → valid_run rf0 rf →
  wf rf ∧ durable rf ∧ disk_ok rf ∧ peers rf = n ∧ me rf = i.
Proof.
  intros Hi Hmake Hrun. destruct (Make_fresh n i Hi) as (? & Hrf & Hwf0 & Hdur0 & Hd0 & _ & Heq).
  rewrite Hmake in Hrf. injection Hrf as <-.
  destruct (valid_run_keeps _ _ Hrun Hwf0 Hd0) as (Hwf & Hd & [Hpe Hme _ Hdur _]).
  split_and!; [done|by apply Hdur|done|by rewrite Hpe, Heq|by rewrite Hme, Heq].
Qed.
End evolve.
