(* ===== verification/RaftApply.v ===== *)
(** * Raft: the stream of apply messages

    [applyLog] sends commands and snapshots to the service.  The services
    (kvraft, shardctrler, shardkv) panic unless every command is the successor
    of the last index they applied, and skip a snapshot older than it.
    [consume] is that protocol; a server's messages since boot follow it. *)

From Stdlib Require Import Strings.Byte.
From stdpp Require Import prelude gmap strings list.
From S2P Require Import Prelude Gob Raft RaftNode RaftServer RaftEvolve.
Local Open Scope Z_scope.

Section apply.
Context {C : Type} `{GobLaws Z} `{GobLaws (list (LogEntry C))}.
Implicit Types (rf : Raft C) (m : ApplyMsg C) (s : Z).

(** The last applied index of a service at [s] after it handled [m];
    [None] where it panics. *)
Definition consume1 s m : option Z :=
  if CommandValid m then
    if s + 1 =? CommandIndex m then Some (s + 1) else None
  else if SnapshotValid m then Some (Z.max s (SnapshotIndex m))
  else Some s.

Fixpoint consume s (ms : list (ApplyMsg C)) : option Z :=
  match ms with
  | [] => Some s
  | m :: ms => s' ← consume1 s m; consume s' ms
  end.

Lemma consume_app s ms1 ms2 :
  consume s (ms1 ++ ms2) = s' ← consume s ms1; consume s' ms2.
Proof.
  revert s. induction ms1 as [|m ms1 IH]; intros s; simpl; [done|].
  destruct (consume1 s m); simpl; [apply IH|done].
Qed.

Lemma consume_commands rf s (n : nat) :
  consume s (command_msgs rf (s + 1) n) = Some (s + Z.of_nat n).
Proof.
  revert s. induction n as [|n IH]; intros s; simpl; [f_equal; lia|].
  unfold consume1. simpl. rewrite Z.eqb_refl. simpl. rewrite IH. f_equal. lia.
Qed.

(** How a server's indices relate to the index [s] the service reaches once
    it has handled everything sent so far. *)
Definition stream_inv rf s : Prop :=
  lastApplied rf ≤ s ∧
  (if applySnappending rf then s ≤ lastIncludedIndex rf ∨ s = lastApplied rf
   else s = Z.max (lastApplied rf) (lastIncludedIndex rf)).

(** A turn of [applyLog] sends what the service expects next. *)
Lemma applyLog_stream rf s rf' ms :
  wf rf → commit_in_range rf → stream_inv rf s → applyLog rf = Ret (rf', Some ms) →
  ∃ s', consume s ms = Some s' ∧ stream_inv rf' s' ∧ s ≤ s'.
Proof.
  intros Hwf Hr [Hla Hs] Hret. destruct (dead rf) eqn:Hd.
  { unfold applyLog, killed in Hret. rewrite Hd in Hret. simpl in Hret. by go_inv. }
  pose proof (applyLog_spec rf Hwf Hr Hd) as Hspec. cbv zeta in Hspec.
  destruct (_ && negb _) eqn:Hblock.
  { rewrite Hret in Hspec. injection Hspec as -> ->. exists s. by split_and!. }
  destruct Hspec as (t & Hspec). rewrite Hret in Hspec. injection Hspec as -> ->.
  set (s1 := Z.max (lastApplied rf) (lastIncludedIndex rf)) in *.
  assert (consume s (if applySnappending rf then
    [mkApplyMsg false None 0 true (snapshot rf) t (lastIncludedIndex rf)] else []) = Some s1) as Hsnap.
  { destruct (applySnappending rf); simpl; f_equal; lia. }
  rewrite consume_app, Hsnap. simpl. unfold stream_inv. simpl.
  destruct (lastApplied rf <? committedIndex rf) eqn:Hlt.
  - rewrite consume_commands. eexists. split; [done|]. destruct (applySnappending rf); zlia.
  - eexists. split; [done|]. destruct (applySnappending rf); zlia.
Qed.

(** *** The other events *)

Definition apply_fields rf : Z * Z * bool * list byte :=
  (lastApplied rf, lastIncludedIndex rf, applySnappending rf, snapshot rf).

Lemma stream_inv_ext rf rf' s :
  apply_fields rf' = apply_fields rf → stream_inv rf s → stream_inv rf' s.
Proof. unfold apply_fields, stream_inv. intros [= -> -> -> _]. done. Qed.

Lemma adoptTerm_fields term rf : apply_fields (adoptTerm term rf) = apply_fields rf.
Proof. unfold adoptTerm. by case_match. Qed.

Lemma updateCommit_fields x rf : apply_fields (updateCommit x rf) = apply_fields rf.
Proof. unfold updateCommit. by case_match. Qed.

Lemma updateCommittedIndex_fields rf rf' :
  updateCommittedIndex rf = Ret rf' → apply_fields rf' = apply_fields rf.
Proof. unfold updateCommittedIndex. intros ?. by go_inv. Qed.

(** Does the event leave [apply_fields] alone? *)
Definition silent (ev : Event C) : bool :=
  match ev with
  | EvApplyLog | EvSnapshot _ _ | EvInstallSnapshot _ => false
  | _ => true
  end.

Lemma persist_fields rf : apply_fields (persist rf) = apply_fields rf.
Proof. done. Qed.

Lemma set_Logs_fields L rf : apply_fields (set_Logs L rf) = apply_fields rf.
Proof. done. Qed.

Lemma RequestVote_fields rf args rf' reply :
  RequestVote rf args = Ret (rf', reply) → apply_fields rf' = apply_fields rf.
Proof. unfold RequestVote. intros ?. go_inv; repeat case_match; done. Qed.

Lemma ApplyEntries_fields rf args rf' reply :
  ApplyEntries rf args = Ret (rf', reply) → apply_fields rf' = apply_fields rf.
Proof.
  unfold ApplyEntries. intros Hret. destruct (_ >? _); [by go_inv|].
  rewrite <-(adoptTerm_fields (ae_Term args) rf).
  generalize dependent (adoptTerm (ae_Term args) rf). intros rf1 Hret.
  go_inv; rewrite persist_fields; try done; case_match;
    by rewrite ?updateCommit_fields, ?set_Logs_fields.
Qed.

Lemma handleRequestVoteReply_fields rf args reply rf' :
  handleRequestVoteReply rf args reply = Ret rf' → apply_fields rf' = apply_fields rf.
Proof. unfold handleRequestVoteReply, becomeLeader. intros ?. by go_inv. Qed.

Lemma handleApplyEntriesReply_fields rf server args reply rf' :
  handleApplyEntriesReply rf server args reply = Ret rf' → apply_fields rf' = apply_fields rf.
Proof.
  unfold handleApplyEntriesReply. intros Hret. go_inv; try done.
  by apply updateCommittedIndex_fields in Hret.
Qed.

Lemma handleInstallSnapshotReply_fields rf server args reply rf' :
  handleInstallSnapshotReply rf server args reply = Ret rf' → apply_fields rf' = apply_fields rf.
Proof. unfold handleInstallSnapshotReply. intros ?. by go_inv. Qed.

Lemma tickElection_fields rf rf' ms :
  tickElection rf = Ret (rf', ms) → apply_fields rf' = apply_fields rf.
Proof. unfold tickElection, kickOffNewElection. intros ?. case_match; by go_inv. Qed.

Lemma step_silent ev rf rf' :
  silent ev = true → step ev rf = Ret rf' → apply_fields rf' = apply_fields rf.
Proof.
  destruct ev; simpl; intros Hs Hret; try done; go_inv;
    eauto using RequestVote_fields, ApplyEntries_fields, handleRequestVoteReply_fields,
      handleApplyEntriesReply_fields, handleInstallSnapshotReply_fields, tickElection_fields.
  - unfold Start in *. by go_inv.
  - unfold tickHeartbeat in *. case_match; by go_inv.
Qed.

Lemma InstallSnapshot_stream rf args rf' reply s :
  InstallSnapshot rf args = Ret (rf', reply) → stream_inv rf s → stream_inv rf' s.
Proof.
  unfold InstallSnapshot. intros Hret Hs. destruct (_ <? _); [by go_inv|].
  pose proof (stream_inv_ext _ _ s (adoptTerm_fields (is_Term args) rf) Hs) as Hs1.
  generalize dependent (adoptTerm (is_Term args) rf). intros rf1 Hret [Hla Hs1].
  destruct (_ >=? _) eqn:Hge; [by go_inv|].
  apply bind_Ret_inv in Hret as (keep & _ & Hret).
  apply bind_Ret_inv in Hret as (rf2 & (L & ->)%doSnapshot_inv & Hret). go_inv.
  unfold stream_inv. destruct keep, (applySnappending rf1); simpl; b2p; lia.
Qed.

Lemma Snapshot_stream rf index snap rf' s :
  Snapshot index snap rf = Ret rf' → index ≤ s → stream_inv rf s → stream_inv rf' s.
Proof.
  unfold Snapshot. intros Hret Hi [Hla Hs]. destruct (index <=? _) eqn:Hle; [by go_inv|].
  apply doSnapshot_inv in Hret as (L & ->). unfold stream_inv. simpl.
  repeat case_match; simpl in *; zlia.
Qed.

(** *** Runs of a server since boot *)

(** [server_run rf0 rf ms]: from [rf0] the server reached [rf], having sent
    [ms].  The service calls [Snapshot] only for an index it has reached. *)
Inductive server_run rf0 : Raft C → list (ApplyMsg C) → Prop :=
  | run_boot : server_run rf0 rf0 []
  | run_event rf rf' ms ev :
      server_run rf0 rf ms →
      (match ev with EvApplyLog | EvSnapshot _ _ => False | _ => True end) →
      valid_event ev rf → step ev rf = Ret rf' → server_run rf0 rf' ms
  | run_snapshot rf rf' ms1 ms2 index snap :
      server_run rf0 rf (ms1 ++ ms2) → consume (lastIncludedIndex rf0) ms1 = Some index →
      snap_ok index snap → Snapshot index snap rf = Ret rf' → server_run rf0 rf' (ms1 ++ ms2)
  | run_apply rf rf' ms new :
      server_run rf0 rf ms → commit_in_range rf → applyLog rf = Ret (rf', Some new) →
      server_run rf0 rf' (ms ++ new).

Lemma consume_mono s ms s' : consume s ms = Some s' → s ≤ s'.
Proof.
  revert s. induction ms as [|m ms IH]; intros s Hc; simpl in Hc; [simplify_eq; lia|].
  destruct (consume1 s m) as [s1|] eqn:Hm; simplify_eq/=. apply IH in Hc.
  unfold consume1 in Hm. repeat case_match; simplify_eq; lia.
Qed.

Lemma server_run_stream rf0 rf ms :
  wf rf0 → stream_inv rf0 (lastIncludedIndex rf0) → server_run rf0 rf ms →
  wf rf ∧ ∃ s, consume (lastIncludedIndex rf0) ms = Some s ∧ stream_inv rf s.
Proof.
  intros Hwf0 Hs0. induction 1 as [|rf rf' ms ev Hrun [Hwf (s & Hc & Hs)] Hev Hv Hret
    |rf rf' ms1 ms2 index snap Hrun [Hwf (s & Hc & Hs)] Hi Hsnap Hret
    |rf rf' ms new Hrun [Hwf (s & Hc & Hs)] Hr Hret].
  - split; [done|]. by exists (lastIncludedIndex rf0).
  - destruct (step_safe ev rf Hwf Hv) as (rf1 & Hret' & Hwf'). rewrite Hret in Hret'. simplify_eq.
    split; [done|]. exists s. split; [done|]. destruct (silent ev) eqn:Hsil.
    + eapply stream_inv_ext; [by eapply step_silent|done].
    + destruct ev; try done. simpl in Hret. go_inv. by eapply InstallSnapshot_stream.
  - destruct (Snapshot_safe rf index snap Hwf Hsnap) as (rf1 & Hret' & Hwf').
    rewrite Hret in Hret'. simplify_eq. split; [done|]. exists s. split; [done|].
    eapply Snapshot_stream; [done| |done].
    rewrite consume_app, Hi in Hc. simpl in Hc. by apply consume_mono in Hc.
  - destruct (applyLog_safe rf Hwf Hr) as (rf1 & r & Hret' & Hwf'). rewrite Hret in Hret'. simplify_eq.
    split; [done|]. destruct (applyLog_stream _ _ _ _ Hwf Hr Hs Hret) as (s' & Hc' & Hs' & _).
    exists s'. split; [|done]. by rewrite consume_app, Hc.
Qed.
End apply.
