(* ===== verification/RaftNet.v ===== *)
(** * Raft: the cluster

    Several servers and the RPCs in flight between them.  The network is
    labrpc's (src/src/labrpc/labrpc.go): a [Call] delivers its request at most
    once and returns its reply at most once; requests and replies may be lost
    or delayed arbitrarily.  A server may crash at any time and restart from
    its persister; the goroutines of the old instance, and with them the
    replies they wait for, are gone.

    [ballots] is a history variable: every (term, server, vote) a server ever
    held.  No step reads it. *)

From Stdlib Require Import Strings.Byte.
From stdpp Require Import prelude gmap strings list.
From S2P Require Import Prelude Gob Raft RaftNode RaftServer RaftEvolve.
Local Open Scope Z_scope.

Section net.
Context {C : Type} `{GobLaws Z} `{GobLaws (list (LogEntry C))}.
Implicit Types (rf : Raft C).

Inductive Reply :=
  | RepRequestVote (r : RequestVoteReply)
  | RepApplyEntries (r : ApplyEntriesReply)
  | RepInstallSnapshot (r : InstallSnapshotReply).

(** A [Call] in flight: made by server [c_src] in its incarnation
    [c_epoch]; [c_reply] is [None] until the handler ran. *)
Record Call := mkCall {
  c_src : nat;
  c_epoch : nat;
  c_dst : Z;
  c_rpc : Rpc C;
  c_reply : option Reply;
}.

Record Node := mkNode { raft : Raft C; epoch : nat }.

Record Net := mkNet {
  nodes : list Node;
  calls : gmap nat Call;
  next_call : nat;
  ballots : list (Z * Z * Z);
}.

(** Server-side dispatch. *)
Definition handle rf (m : Rpc C) : outcome (Raft C * Reply) :=
  match m with
  | RpcRequestVote args => '(rf, r) ← RequestVote rf args; Ret (rf, RepRequestVote r)
  | RpcApplyEntries args => '(rf, r) ← ApplyEntries rf args; Ret (rf, RepApplyEntries r)
  | RpcInstallSnapshot args => '(rf, r) ← InstallSnapshot rf args; Ret (rf, RepInstallSnapshot r)
  end.

(** What the calling goroutine does with a reply. *)
Definition handleReply rf (dst : Z) (m : Rpc C) (r : Reply) : outcome (Raft C) :=
  match m, r with
  | RpcRequestVote args, RepRequestVote r => handleRequestVoteReply rf args r
  | RpcApplyEntries args, RepApplyEntries r => handleApplyEntriesReply rf dst args r
  | RpcInstallSnapshot args, RepInstallSnapshot r => handleInstallSnapshotReply rf dst args r
  | _, _ => Ret rf
  end.

(** Steps of one server on its own, with the messages they send. *)
Inductive Local :=
  | LStart (command : option C)
  | LElectionTimeout
  | LHeartbeatTimeout
  | LApplyLog
  | LSnapshot (index : Z) (snap : list byte)
  | LKill.

Definition local (ev : Local) rf : outcome (Raft C * list (Z * Rpc C)) :=
  match ev with
  | LStart command => '(rf, _, ms) ← Start command rf; Ret (rf, ms)
  | LElectionTimeout => tickElection rf
  | LHeartbeatTimeout => tickHeartbeat rf
  | LApplyLog => '(rf, _) ← applyLog rf; Ret (rf, [])
  | LSnapshot index snap => rf ← Snapshot index snap rf; Ret (rf, [])
  | LKill => Ret (Kill rf, [])
  end.

Fixpoint add_calls (i e k : nat) (ms : list (Z * Rpc C)) (cs : gmap nat Call) : gmap nat Call :=
  match ms with
  | [] => cs
  | (dst, m) :: ms => add_calls i e (S k) ms (<[k := mkCall i e dst m None]> cs)
  end.

(** The vote a server holds. *)
Definition cast rf : list (Z * Z * Z) :=
  if VoteFor rf =? Unvote then [] else [(CurrentTerm rf, me rf, VoteFor rf)].

Definition put_raft (i : nat) (nd : Node) rf (net : Net) : Net :=
  mkNet (<[i := mkNode rf (epoch nd)]> (nodes net)) (calls net) (next_call net)
    (cast rf ++ ballots net).

Definition with_calls (f : gmap nat Call → gmap nat Call) (k : nat) (net : Net) : Net :=
  mkNet (nodes net) (f (calls net)) k (ballots net).

(** [ok] is what the services promise about their calls. *)
Inductive net_step_if (ok : Local → Raft C → Prop) : Net → Net → Prop :=
  | net_local net i nd ev rf' ms :
      nodes net !! i = Some nd → local ev (raft nd) = Ret (rf', ms) → ok ev (raft nd) →
      net_step_if ok net
        (with_calls (add_calls i (epoch nd) (next_call net) ms) (next_call net + length ms)%nat
           (put_raft i nd rf' net))
  | net_deliver net k c nd rf' r :
      calls net !! k = Some c → c_reply c = None →
      nodes net !! Z.to_nat (c_dst c) = Some nd → handle (raft nd) (c_rpc c) = Ret (rf', r) →
      net_step_if ok net
        (with_calls (insert k (mkCall (c_src c) (c_epoch c) (c_dst c) (c_rpc c) (Some r)))
           (next_call net) (put_raft (Z.to_nat (c_dst c)) nd rf' net))
  | net_reply net k c nd r rf' :
      calls net !! k = Some c → c_reply c = Some r →
      nodes net !! c_src c = Some nd → epoch nd = c_epoch c →
      handleReply (raft nd) (c_dst c) (c_rpc c) r = Ret rf' →
      net_step_if ok net (with_calls (delete k) (next_call net) (put_raft (c_src c) nd rf' net))
  | net_drop net k :
      net_step_if ok net (with_calls (delete k) (next_call net) net)
  | net_restart net i nd rf' :
      nodes net !! i = Some nd →
      Make (peers (raft nd)) (me (raft nd)) (persister (raft nd)) = Ret rf' →
      net_step_if ok net
        (mkNet (<[i := mkNode rf' (S (epoch nd))]> (nodes net)) (calls net) (next_call net)
           (cast rf' ++ ballots net)).

(** A snapshot starts with its index. *)
Definition well_formed (ev : Local) (_ : Raft C) : Prop :=
  match ev with LSnapshot index snap => snap_ok index snap | _ => True end.

Definition net_step : Net → Net → Prop := net_step_if well_formed.

Lemma net_step_mono (ok ok' : Local → Raft C → Prop) net net' :
  (∀ ev rf, ok ev rf → ok' ev rf) → net_step_if ok net net' → net_step_if ok' net net'.
Proof. destruct 2; [eapply net_local|eapply net_deliver|eapply net_reply|eapply net_drop|eapply net_restart]; eauto. Qed.

(** A fresh cluster of [n] servers. *)
Definition net_init (n : nat) (net : Net) : Prop :=
  calls net = ∅ ∧ ballots net = [] ∧ length (nodes net) = n ∧
  ∀ i nd, nodes net !! i = Some nd →
    epoch nd = 0%nat ∧ Make n (Z.of_nat i) MakePersister = Ret (raft nd).

Definition reachable (n : nat) (net : Net) : Prop :=
  ∃ net0, net_init n net0 ∧ rtc net_step net0 net.
End net.

Arguments Call : clear implicits.
Arguments Node : clear implicits.
Arguments Net : clear implicits.
Arguments Local : clear implicits.
