(* ===== verification/RaftElection.v ===== *)
(** * Raft: election safety

    Along every run of a cluster (with lost and delayed messages, crashes and
    restarts) at most one server is leader in a term, and no server ever
    panics while it handles a message, a reply or a timer. *)

From Stdlib Require Import Strings.Byte.
From stdpp Require Import prelude gmap strings list.
From S2P Require Import Prelude Gob Raft RaftNode RaftServer RaftEvolve RaftNet.
Local Open Scope Z_scope.

(** ** Steps that cannot make a leader *)
Section quiet.
Context {C : Type} `{GobLaws Z} `{GobLaws (list (LogEntry C))}.
Implicit Types (rf : Raft C).

(** A candidate or a leader voted for itself. *)
Definition self_vote rf : Prop := identity rf ≠ FOLLOWER → VoteFor rf = me rf.

Record quiet rf rf' : Prop := mkQuiet {
  q_leader : identity rf' = LEADER → identity rf = LEADER ∧ CurrentTerm rf' = CurrentTerm rf;
  q_elections : elections rf' = elections rf;
  q_self : self_vote rf → self_vote rf';
}.

#[export] Instance quiet_preorder : PreOrder quiet.
Proof.
  split.
  - intros rf. by split.
  - intros rf1 rf2 rf3 [L1 E1 S1] [L2 E2 S2]. split; [|congruence|auto].
    intros [[??]%L1 ?]%L2. split; [done|congruence].
Qed.

Lemma quiet_same rf rf' :
  identity rf' = identity rf → CurrentTerm rf' = CurrentTerm rf →
  elections rf' = elections rf → VoteFor rf' = VoteFor rf → me rf' = me rf → quiet rf rf'.
Proof.
  intros HI HT HE HV HM. split; [rewrite HI; done|done|]. unfold self_vote. by rewrite HI, HV, HM.
Qed.

Lemma quiet_follower rf rf' :
  identity rf' = FOLLOWER → elections rf' = elections rf → quiet rf rf'.
Proof. intros HI HE. split; [rewrite HI; done|done|]. unfold self_vote. by rewrite HI. Qed.

Lemma RequestVote_quiet rf args rf' r : RequestVote rf args = Ret (rf', r) → quiet rf rf'.
Proof.
  unfold RequestVote. intros Hret. go_inv; try (by apply quiet_same); try case_match;
    first [by apply quiet_same | by apply quiet_follower; simpl; repeat case_match].
Qed.

Lemma updateCommit_quiet x rf : quiet rf (updateCommit x rf).
Proof. unfold updateCommit. case_match; by apply quiet_same. Qed.

Lemma persist_quiet rf : quiet rf (persist rf).
Proof. by apply quiet_same. Qed.

Lemma adoptTerm_quiet term rf : quiet rf (adoptTerm term rf).
Proof. apply quiet_follower; unfold adoptTerm; by case_match. Qed.

Lemma ApplyEntries_quiet rf args rf' r : ApplyEntries rf args = Ret (rf', r) → quiet rf rf'.
Proof.
  unfold ApplyEntries. intros Hret. destruct (_ >? _); [go_inv; apply persist_quiet|].
  etrans; [apply (adoptTerm_quiet (ae_Term args))|].
  generalize dependent (adoptTerm (ae_Term args) rf). intros rf1 Hret.
  go_inv; (etrans; [|apply persist_quiet]); try done; case_match; try done;
    try (by apply quiet_same); [|apply updateCommit_quiet].
  etrans; [|apply updateCommit_quiet]. by apply quiet_same.
Qed.

Lemma InstallSnapshot_quiet rf args rf' r : InstallSnapshot rf args = Ret (rf', r) → quiet rf rf'.
Proof.
  unfold InstallSnapshot. intros Hret. destruct (_ <? _); [by go_inv|].
  etrans; [apply (adoptTerm_quiet (is_Term args))|].
  generalize dependent (adoptTerm (is_Term args) rf). intros rf1 Hret.
  destruct (_ >=? _); [by go_inv|].
  apply bind_Ret_inv in Hret as (keep & _ & Hret).
  apply bind_Ret_inv in Hret as (rf2 & (L & ->)%doSnapshot_inv & Hret). go_inv.
  apply quiet_same; by destruct keep.
Qed.

Lemma updateCommittedIndex_quiet rf rf' : updateCommittedIndex rf = Ret rf' → quiet rf rf'.
Proof. unfold updateCommittedIndex. intros ?. go_inv; try done; by apply quiet_same. Qed.

Lemma stepDown_quiet rf term : quiet rf (persist (stepDown term rf)).
Proof. by apply quiet_follower. Qed.

Lemma handleApplyEntriesReply_quiet rf server args reply rf' :
  handleApplyEntriesReply rf server args reply = Ret rf' → quiet rf rf'.
Proof.
  unfold handleApplyEntriesReply. intros Hret.
  go_inv; try done; try apply stepDown_quiet; try (by apply quiet_same).
  etrans; [|by eapply updateCommittedIndex_quiet]. by apply quiet_same.
Qed.

Lemma handleInstallSnapshotReply_quiet rf server args reply rf' :
  handleInstallSnapshotReply rf server args reply = Ret rf' → quiet rf rf'.
Proof.
  unfold handleInstallSnapshotReply. intros Hret.
  go_inv; try done; try apply stepDown_quiet; by apply quiet_same.
Qed.

Lemma handle_quiet rf m rf' r : handle rf m = Ret (rf', r) → quiet rf rf'.
Proof.
  destruct m; simpl; intros Hret; go_inv;
    eauto using RequestVote_quiet, ApplyEntries_quiet, InstallSnapshot_quiet.
Qed.

(** A local step is quiet, or starts an election. *)
Definition election rf rf' ms : Prop :=
  CurrentTerm rf' = CurrentTerm rf + 1 ∧ identity rf' = CANDIDATE ∧ VoteFor rf' = me rf' ∧
  elections rf' = <[CurrentTerm rf' := 1]> (elections rf) ∧
  ∃ args, rv_Term args = CurrentTerm rf' ∧ rv_CandidateId args = me rf' ∧
    ms = (λ i, (i, RpcRequestVote (C := C) args)) <$> otherPeers rf.

Lemma Snapshot_quiet index snap rf rf' : Snapshot index snap rf = Ret rf' → quiet rf rf'.
Proof.
  unfold Snapshot. intros Hret. destruct (_ <=? _); [by go_inv|].
  apply doSnapshot_inv in Hret as (L & ->). apply quiet_same; by repeat case_match.
Qed.

(** Vote requests are only sent by an election. *)
Definition no_vote_rpc (ms : list (Z * Rpc C)) : Prop :=
  ∀ i args, (i, RpcRequestVote args) ∉ ms.

Lemma heartBeatTo_no_vote rf i m : heartBeatTo rf i = Ret m → ∀ args, m ≠ RpcRequestVote args.
Proof. unfold heartBeatTo. intros Hret args. by go_inv. Qed.

Lemma sendHeartBeat_no_vote rf ms : sendHeartBeat rf = Ret ms → no_vote_rpc ms.
Proof.
  unfold sendHeartBeat. generalize (otherPeers rf). intros js. revert ms.
  induction js as [|j js IH]; intros ms Hret; simpl in Hret; go_inv.
  - intros i args. apply not_elem_of_nil.
  - intros i args [?|Hin]%elem_of_cons; simplify_eq.
    + by eapply heartBeatTo_no_vote.
    + by eapply IH.
Qed.

Lemma no_vote_nil : no_vote_rpc [].
Proof. intros i args. apply not_elem_of_nil. Qed.

Lemma Start_quiet command rf rf' r ms :
  Start command rf = Ret (rf', r, ms) → quiet rf rf' ∧ no_vote_rpc ms.
Proof.
  unfold Start. intros Hret. go_inv; try (split; [done|apply no_vote_nil]).
  split; [by apply quiet_same|by eapply sendHeartBeat_no_vote].
Qed.

Lemma kickOffNewElection_inv rf rf' ms :
  kickOffNewElection rf = Ret (rf', ms) →
  rf' = set_elections (<[CurrentTerm rf := 1]> (elections rf)) rf ∧
  ∃ args, rv_Term args = CurrentTerm rf ∧ rv_CandidateId args = me rf ∧
    ms = (λ i, (i, RpcRequestVote (C := C) args)) <$> otherPeers rf.
Proof.
  unfold kickOffNewElection. intros (e & _ & Hret)%bind_Ret_inv.
  injection Hret as <- <-. split; [done|]. eexists.
  split_and!; cycle -1; [reflexivity..].
Qed.

Lemma otherPeers_ext rf rf' :
  peers rf = peers rf' → me rf = me rf' → otherPeers rf = otherPeers rf'.
Proof. unfold otherPeers. by intros -> ->. Qed.

Lemma tickElection_quiet rf rf' ms :
  tickElection rf = Ret (rf', ms) → quiet rf rf' ∧ ms = [] ∨ election rf rf' ms.
Proof.
  unfold tickElection. case_match; intros Hret.
  { injection Hret as <- <-. left. split; [by apply quiet_same|done]. }
  apply kickOffNewElection_inv in Hret as (-> & args & HT & HC & ->).
  set (rf1 := resetElectionTimer _) in *.
  assert (CurrentTerm rf1 = CurrentTerm rf + 1 ∧ identity rf1 = CANDIDATE ∧ VoteFor rf1 = me rf ∧
    me rf1 = me rf ∧ peers rf1 = peers rf ∧ elections rf1 = elections rf)
    as (E1 & E2 & E3 & E4 & E5 & E6) by done.
  clearbody rf1. right. unfold election. simpl. split_and!; try congruence.
  exists args. split_and!; [done|done|]. by rewrite (otherPeers_ext rf1 rf).
Qed.

Lemma tickHeartbeat_quiet rf rf' ms :
  tickHeartbeat rf = Ret (rf', ms) → quiet rf rf' ∧ no_vote_rpc ms.
Proof.
  unfold tickHeartbeat. case_match; intros Hret; go_inv.
  - split; [by apply quiet_same|by eapply sendHeartBeat_no_vote].
  - split; [by apply quiet_same|apply no_vote_nil].
Qed.

Lemma applyLog_quiet rf rf' r : applyLog rf = Ret (rf', r) → quiet rf rf'.
Proof. intros (w & p & la & ->)%applyLog_inv. by apply quiet_same. Qed.

Lemma local_quiet ev rf rf' ms :
  local ev rf = Ret (rf', ms) → quiet rf rf' ∧ no_vote_rpc ms ∨ election rf rf' ms.
Proof.
  destruct ev; simpl; intros Hret.
  - left. apply bind_Ret_inv in Hret as ([[? ?] ?] & ? & ?). simplify_eq. by eapply Start_quiet.
  - apply tickElection_quiet in Hret as [[? ->]|?]; [left|by right].
    split; [done|apply no_vote_nil].
  - left. by apply tickHeartbeat_quiet.
  - left. apply bind_Ret_inv in Hret as ([? ?] & ? & ?). simplify_eq.
    split; [by eapply applyLog_quiet|apply no_vote_nil].
  - left. apply bind_Ret_inv in Hret as (? & ? & ?). simplify_eq.
    split; [by eapply Snapshot_quiet|apply no_vote_nil].
  - left. simplify_eq. split; [by apply quiet_same|apply no_vote_nil].
Qed.

(** A reply is quiet unless it carries a vote. *)
Lemma handleRequestVoteReply_cases rf args reply rf' :
  handleRequestVoteReply rf args reply = Ret rf' →
  quiet rf rf' ∨
  (rvr_VoteGranted reply = true ∧ rvr_Term reply = CurrentTerm rf ∧
   CurrentTerm rf' = CurrentTerm rf ∧ (self_vote rf → self_vote rf') ∧
   let votes := default 0 (elections rf !! rv_Term args) + 1 in
   elections rf' = <[rv_Term args := votes]> (elections rf) ∧
   (identity rf' = LEADER → identity rf = LEADER ∨ 2 * votes > Z.of_nat (peers rf))).
Proof.
  unfold handleRequestVoteReply, becomeLeader. intros Hret.
  go_inv; try (by left); try (left; by apply stepDown_quiet).
  - right. b2p. split_and!; try done; [|intros _; right; lia].
    intros Hs _. unfold self_vote in *. simpl. apply Hs.
    match goal with Hc : bool_decide _ = true |- _ => apply bool_decide_eq_true in Hc; rewrite Hc end.
    done.
  - right. split_and!; try done; [zlia|]. by intros ?; left.
Qed.
End quiet.

(** ** The cluster invariant *)
Section invariant.
Context {C : Type} `{GobLaws Z} `{GobLaws (list (LogEntry C))}.
Implicit Types (rf : Raft C) (net : Net C) (nd : Node C) (c : Call C).

(** *** Steps of the cluster as events of a server *)

Definition local_event (ev : Local C) : Event C :=
  match ev with
  | LStart command => EvStart command
  | LElectionTimeout => EvElectionTimeout
  | LHeartbeatTimeout => EvHeartbeatTimeout
  | LApplyLog => EvApplyLog
  | LSnapshot index snap => EvSnapshot index snap
  | LKill => EvKill
  end.

Lemma local_step ev rf rf' ms :
  local ev rf = Ret (rf', ms) → step (local_event ev) rf = Ret rf'.
Proof.
  destruct ev; simpl; intros Hret; try by rewrite Hret.
  - destruct (Start _ _) as [[[? ?] ?]| |]; by go_inv.
  - destruct (applyLog _) as [[? ?]| |]; by go_inv.
  - destruct (Snapshot _ _ _); by go_inv.
  - by go_inv.
Qed.

Definition rpc_event (m : Rpc C) : Event C :=
  match m with
  | RpcRequestVote args => EvRequestVote args
  | RpcApplyEntries args => EvApplyEntries args
  | RpcInstallSnapshot args => EvInstallSnapshot args
  end.

Lemma handle_step rf m rf' r : handle rf m = Ret (rf', r) → step (rpc_event m) rf = Ret rf'.
Proof.
  destruct m; simpl; intros Hret; apply bind_Ret_inv in Hret as ([rf1 r1] & E & Hret);
    rewrite E; by simplify_eq/=.
Qed.

Lemma handleReply_step rf dst m r rf' :
  handleReply rf dst m r = Ret rf' →
  rf' = rf ∨ ∃ ev, step ev rf = Ret rf' ∧ (0 ≤ dst < Z.of_nat (peers rf) → valid_event ev rf).
Proof.
  destruct m, r; simpl; intros Hret; try (left; by go_inv); right.
  - by exists (EvRequestVoteReply args r).
  - by exists (EvApplyEntriesReply dst args r).
  - by exists (EvInstallSnapshotReply dst args r).
Qed.

Lemma valid_rpc_event m rf : valid_rpc m → valid_event (rpc_event m) rf.
Proof. by destruct m. Qed.

Lemma local_wf ev rf rf' ms :
  wf rf → (match ev with LSnapshot index snap => snap_ok index snap | _ => True end) →
  local ev rf = Ret (rf', ms) →
  wf rf' ∧ ∀ i m, (i, m) ∈ ms → i ∈ otherPeers rf ∧ valid_rpc m.
Proof.
  intros Hwf Hs Hret.
  assert (∀ i m, (i, m) ∈ ([] : list (Z * Rpc C)) → i ∈ otherPeers rf ∧ valid_rpc m) as Hnil.
  { by intros ?? ?%not_elem_of_nil. }
  destruct ev; simpl in Hret.
  - destruct (Start_safe rf command Hwf) as (? & ? & ? & E & ?). rewrite E in Hret. by go_inv.
  - destruct (tickElection_safe rf Hwf) as (? & ? & E & ?). rewrite E in Hret. by go_inv.
  - destruct (tickHeartbeat_safe rf Hwf) as (? & ? & E & ?). rewrite E in Hret. by go_inv.
  - apply bind_Ret_inv in Hret as ([rf1 r] & Ha & Hret). go_inv.
    apply applyLog_inv in Ha as (w & p & la & ->). split; [solve_wf|done].
  - destruct (Snapshot_safe rf index snap Hwf Hs) as (? & E & ?). rewrite E in Hret. by go_inv.
  - simplify_eq/=. split; [unfold Kill; solve_wf|done].
Qed.

(** *** Servers *)

Record node_ok (n i : nat) rf : Prop := mkNodeOk {
  no_peers : peers rf = n;
  no_me : me rf = Z.of_nat i;
  no_wf : wf rf;
  no_durable : durable rf;
  no_disk : disk_ok rf;
  no_live : live rf;
  no_self : self_vote rf;
}.

Lemma node_ok_step n i rf rf' :
  node_ok n i rf → evolves rf rf' → disk_step rf rf' → wf rf' → (self_vote rf → self_vote rf') →
  node_ok n i rf'.
Proof.
  intros [] [P M V D L] Hd Hwf Hself. split; try congruence; auto. by eapply disk_ok_step.
Qed.

(** *** Votes *)

(** The disk remembers the vote for [x] in term [t]. *)
Definition held (ps : Persister) (t x : Z) : Prop :=
  let '(t', v, _) := booted (C := C) ps in t < t' ∨ t = t' ∧ v = x.

Lemma held_memory rf t x :
  durable rf → held (persister rf) t x → t < CurrentTerm rf ∨ t = CurrentTerm rf ∧ VoteFor rf = x.
Proof.
  intros (t' & v & Hb & _ & Hle & Heq & _). unfold held. rewrite Hb.
  intros [?|[-> <-]]; [left; lia|]. destruct (decide (t' = CurrentTerm rf)); [|left; lia].
  right. split; [done|]. symmetry. auto.
Qed.

Lemma held_step rf rf' t x :
  durable rf → evolves rf rf' → disk_step rf rf' → x ≠ Unvote →
  held (persister rf) t x → held (persister rf') t x.
Proof.
  intros Hdur [_ _ V _ _] Hd Hx Hh. destruct Hd as [[-> _]|Hb]; [done|].
  unfold held. rewrite Hb. apply held_memory in Hh; [|done].
  unfold vote_le in V. destruct Hh as [?|[-> <-]], V as [?|[? [?|?]]]; try (left; lia).
  right. split; [done|by symmetry].
Qed.

Lemma held_cast rf :
  durable rf → VoteFor rf ≠ Unvote → ∃ L, booted (persister rf) = (CurrentTerm rf, VoteFor rf, L).
Proof.
  intros (t & v & Hb & _ & Hle & Heq & Hlt) Hv. exists (Logs rf). rewrite Hb.
  assert (t = CurrentTerm rf) as -> by (destruct (decide (t = CurrentTerm rf)); [done|];
    exfalso; apply Hv, Hlt; lia).
  by rewrite Heq.
Qed.

Lemma elem_of_cast rf t v x :
  (t, v, x) ∈ cast rf ↔ VoteFor rf ≠ Unvote ∧ t = CurrentTerm rf ∧ v = me rf ∧ x = VoteFor rf.
Proof.
  unfold cast. destruct (_ =? _) eqn:E; b2p.
  - split; [by intros ?%not_elem_of_nil|]. by intros [? _].
  - rewrite list_elem_of_singleton. naive_solver.
Qed.

Record ballots_ok net : Prop := mkBallotsOk {
  bo_cast i nd : nodes net !! i = Some nd → VoteFor (raft nd) ≠ Unvote →
    (CurrentTerm (raft nd), Z.of_nat i, VoteFor (raft nd)) ∈ ballots net;
  bo_held t v x : (t, v, x) ∈ ballots net →
    x ≠ Unvote ∧ ∃ (i : nat) nd, v = Z.of_nat i ∧ nodes net !! i = Some nd ∧
      held (persister (raft nd)) t x;
  bo_unique t v x y : (t, v, x) ∈ ballots net → (t, v, y) ∈ ballots net → x = y;
}.

(** A step of server [i], or its restart. *)
Lemma ballots_ok_step net net' i nd nd' :
  ballots_ok net → nodes net !! i = Some nd →
  nodes net' = <[i := nd']> (nodes net) → ballots net' = cast (raft nd') ++ ballots net →
  me (raft nd') = Z.of_nat i → durable (raft nd') →
  (∀ t x, x ≠ Unvote → held (persister (raft nd)) t x → held (persister (raft nd')) t x) →
  ballots_ok net'.
Proof.
  intros [Hcast Hheld Huniq] Hi HN HB Hme Hdur Hmono.
  pose proof (lookup_lt_Some _ _ _ Hi) as Hlt.
  assert (∀ t x, (t, Z.of_nat i, x) ∈ ballots net → x ≠ Unvote ∧ held (persister (raft nd')) t x)
    as Hold.
  { intros t x (Hx & j & nd1 & Hj & Hnd1 & Hh)%Hheld. assert (j = i) as -> by lia.
    simplify_eq. auto. }
  split; rewrite ?HN, ?HB.
  - intros j nd1 [(<- & <- & _)|[Hne Hj]]%list_lookup_insert_Some Hv; apply elem_of_app.
    + left. by apply elem_of_cast.
    + right. auto.
  - intros t v x [(Hv & -> & -> & ->)%elem_of_cast|Hin]%elem_of_app.
    + split; [done|]. exists i, nd'. split_and!; [done|by apply list_lookup_insert_eq|].
      destruct (held_cast _ Hdur Hv) as (L & HL). unfold held. rewrite HL. by right.
    + destruct (Hheld t v x Hin) as (Hx & j & nd1 & -> & Hj & Hh). split; [done|].
      destruct (decide (j = i)) as [->|Hne].
      * exists i, nd'. split_and!; [done|by apply list_lookup_insert_eq|]. by apply Hold.
      * exists j, nd1. by rewrite list_lookup_insert_ne.
  - assert (∀ t x, (t, Z.of_nat i, x) ∈ ballots net → VoteFor (raft nd') ≠ Unvote →
      t = CurrentTerm (raft nd') → x = VoteFor (raft nd')) as Hnew.
    { intros t x [_ Hh]%Hold Hv ->. destruct (held_cast _ Hdur Hv) as (L & HL).
      unfold held in Hh. rewrite HL in Hh. destruct Hh as [?|[_ ?]]; [lia|done]. }
    intros t v x y [(Hv & -> & -> & ->)%elem_of_cast|Hx]%elem_of_app
      [(Hv' & Ht & Hm & ->)%elem_of_cast|Hy]%elem_of_app; [done| | |by eapply Huniq].
    + rewrite Hme in Hy. symmetry. by eapply Hnew.
    + subst. rewrite Hme in Hx. by eapply Hnew.
Qed.
End invariant.
