(* ===== verification/RaftCluster.v ===== *)
(** * Raft: runs of a cluster

    The invariant of [net_step]: what the calls in flight carry, and what the
    vote counters of the candidates count.  It gives election safety and that
    no handler, reply or timer of a reachable cluster panics. *)

From Stdlib Require Import Strings.Byte.
From stdpp Require Import prelude gmap strings list sets.
From S2P Require Import Prelude Gob Raft RaftNode RaftServer RaftEvolve RaftNet RaftElection.
Local Open Scope Z_scope.

Section cluster.
Context {C : Type} `{GobLaws Z} `{GobLaws (list (LogEntry C))}.
Implicit Types (rf : Raft C) (net : Net C) (nd : Node C) (c : Call C).

Lemma add_calls_lookup i e k ms (cs : gmap nat (Call C)) j :
  add_calls i e k ms cs !! j =
  if decide (k ≤ j < k + length ms)%nat
  then (λ p : Z * Rpc C, mkCall i e p.1 p.2 None) <$> ms !! (j - k)%nat else cs !! j.
Proof.
  revert k cs. induction ms as [|[dst m] ms IH]; intros k cs; simpl.
  { case_decide; [lia|done]. }
  rewrite IH. destruct (decide (j = k)) as [->|Hne].
  { rewrite decide_False, decide_True by lia. by rewrite lookup_insert_eq, Nat.sub_diag. }
  destruct (decide (S k ≤ j < S k + length ms)%nat).
  { rewrite decide_True by lia. by replace (j - k)%nat with (S (j - S k)) by lia. }
  rewrite decide_False by lia. by rewrite lookup_insert_ne.
Qed.

(** *** Calls in flight *)

Record call_ok (n : nat) net (k : nat) c : Prop := mkCallOk {
  cl_key : (k < next_call net)%nat;
  cl_src : (c_src c < n)%nat;
  cl_dst : 0 ≤ c_dst c < Z.of_nat n;
  cl_rpc : valid_rpc (c_rpc c);
  cl_epoch nd : nodes net !! c_src c = Some nd → (c_epoch c ≤ epoch nd)%nat;
  cl_vote args : c_rpc c = RpcRequestVote args →
    rv_CandidateId args = Z.of_nat (c_src c) ∧ c_dst c ≠ Z.of_nat (c_src c) ∧
    ∀ r, c_reply c = Some (RepRequestVote r) → rvr_VoteGranted r = true →
      rvr_Term r = rv_Term args ∧
      (rv_Term args, c_dst c, Z.of_nat (c_src c)) ∈ ballots net;
}.

Definition calls_ok (n : nat) net : Prop :=
  ∀ k c, calls net !! k = Some c → call_ok n net k c.

Lemma call_ok_mono n net net' k c :
  (next_call net ≤ next_call net')%nat →
  (∀ i nd', nodes net' !! i = Some nd' → ∃ nd, nodes net !! i = Some nd ∧ (epoch nd ≤ epoch nd')%nat) →
  (∀ b, b ∈ ballots net → b ∈ ballots net') →
  call_ok n net k c → call_ok n net' k c.
Proof.
  intros Hk Hn Hb [? ? ? ? He Hv]. split; [lia|done..| |].
  - intros nd' (nd & Hnd & ?)%Hn. apply He in Hnd. lia.
  - intros args Ha. destruct (Hv args Ha) as (? & ? & Hr). split_and!; [done..|].
    intros r Hr1 Hr2. destruct (Hr r Hr1 Hr2). auto.
Qed.

(** A granted vote is recorded by the voter. *)
Lemma RequestVote_grants rf args rf' r :
  RequestVote rf args = Ret (rf', r) → rvr_VoteGranted r = true →
  rvr_Term r = rv_Term args ∧ CurrentTerm rf' = rv_Term args ∧ VoteFor rf' = rv_CandidateId args.
Proof.
  unfold RequestVote. intros Hret Hg. destruct (_ || _) eqn:Hguard; [by go_inv|].
  apply orb_false_iff in Hguard as [Hlt _]. go_inv.
  split_and!; [|done|done]. repeat case_match; simpl; zlia.
Qed.

Lemma handle_reply_kind rf m rf' r args :
  handle rf (RpcRequestVote (C := C) args) = Ret (rf', m) → m = RepRequestVote r →
  RequestVote rf args = Ret (rf', r).
Proof. simpl. intros ([? ?] & E & ?)%bind_Ret_inv ->. rewrite E. by simplify_eq/=. Qed.

(** *** Vote counters *)

(** [c] asks for a vote for incarnation [e] of server [i] in term [t]. *)
Definition asks (i e : nat) (t : Z) c : Prop :=
  c_src c = i ∧ c_epoch c = e ∧ ∃ args, c_rpc c = RpcRequestVote args ∧ rv_Term args = t.

(** [S] voted for [i] in term [t]. *)
Definition backed net (i : nat) (t : Z) (S : gset Z) : Prop :=
  ∀ v, v ∈ S → (t, v, Z.of_nat i) ∈ ballots net.

Record counters_ok (n : nat) net : Prop := mkCountersOk {
  co_count i nd t x : nodes net !! i = Some nd → elections (raft nd) !! t = Some x →
    t ≤ CurrentTerm (raft nd) ∧
    ∃ S : gset Z, Z.of_nat (size S) = x ∧ backed net i t S ∧
      ∀ k c, calls net !! k = Some c → asks i (epoch nd) t c → c_dst c ∉ S;
  co_pending i nd t k c : nodes net !! i = Some nd → calls net !! k = Some c →
    asks i (epoch nd) t c → is_Some (elections (raft nd) !! t);
  co_distinct i e t k1 k2 c1 c2 : calls net !! k1 = Some c1 → calls net !! k2 = Some c2 →
    asks i e t c1 → asks i e t c2 → c_dst c1 = c_dst c2 → k1 = k2;
  co_leader i nd : nodes net !! i = Some nd → identity (raft nd) = LEADER →
    ∃ S : gset Z, 2 * Z.of_nat (size S) > Z.of_nat n ∧ backed net i (CurrentTerm (raft nd)) S;
}.

(** The vote requests in flight in [net'] already were in [net]. *)
Definition no_new_asks net net' : Prop :=
  ∀ k c' i e t, calls net' !! k = Some c' → asks i e t c' →
    ∃ c, calls net !! k = Some c ∧ asks i e t c ∧ c_dst c = c_dst c'.

Lemma backed_mono net net' i t S :
  (∀ b, b ∈ ballots net → b ∈ ballots net') → backed net i t S → backed net' i t S.
Proof. intros Hb HS v Hv. auto. Qed.

(** Steps in which every server stays quiet. *)
Lemma counters_quiet n net net' :
  counters_ok n net →
  (∀ i nd', nodes net' !! i = Some nd' → ∃ nd, nodes net !! i = Some nd ∧ epoch nd' = epoch nd ∧
     quiet (raft nd) (raft nd') ∧ CurrentTerm (raft nd) ≤ CurrentTerm (raft nd')) →
  (∀ b, b ∈ ballots net → b ∈ ballots net') → no_new_asks net net' →
  counters_ok n net'.
Proof.
  intros [Hcount Hpend Hdist Hlead] Hnodes Hb Hasks. split.
  - intros i nd' t x Hi Hx. destruct (Hnodes i nd' Hi) as (nd & Hnd & He & Hq & Hle).
    rewrite (q_elections _ _ Hq) in Hx. destruct (Hcount i nd t x Hnd Hx) as (Ht & S & HS & Hbk & Hd).
    split; [lia|]. exists S. split_and!; [done|by eapply backed_mono|].
    intros k c' Hk Ha. rewrite He in Ha. destruct (Hasks k c' i _ t Hk Ha) as (c & Hc & Hac & <-).
    by eapply Hd.
  - intros i nd' t k c' Hi Hk Ha. destruct (Hnodes i nd' Hi) as (nd & Hnd & He & Hq & Hle).
    rewrite (q_elections _ _ Hq). rewrite He in Ha.
    destruct (Hasks k c' i _ t Hk Ha) as (c & Hc & Hac & _). by eapply Hpend.
  - intros i e t k1 k2 c1 c2 H1' H2' A1 A2 Heq.
    destruct (Hasks k1 c1 i e t H1' A1) as (d1 & ? & ? & E1).
    destruct (Hasks k2 c2 i e t H2' A2) as (d2 & ? & ? & E2).
    eapply Hdist; [done..|]. congruence.
  - intros i nd' Hi Hl. destruct (Hnodes i nd' Hi) as (nd & Hnd & He & Hq & Hle).
    destruct (q_leader _ _ Hq Hl) as [Hl' ->]. destruct (Hlead i nd Hnd Hl') as (S & ? & ?).
    exists S. split; [done|by eapply backed_mono].
Qed.

(** A restarted server has no elections and no calls of its incarnation. *)
Lemma counters_restart n net net' i nd rf' :
  counters_ok n net → calls_ok n net → nodes net !! i = Some nd →
  nodes net' = <[i := mkNode rf' (S (epoch nd))]> (nodes net) → calls net' = calls net →
  (∀ b, b ∈ ballots net → b ∈ ballots net') →
  elections rf' = ∅ → identity rf' = FOLLOWER → counters_ok n net'.
Proof.
  intros [Hcount Hpend Hdist Hlead] Hcalls Hi HN HC Hb He Hid.
  assert (∀ k c t, calls net !! k = Some c → ¬ asks i (S (epoch nd)) t c) as Hnone.
  { intros k c t Hk (Hs & Hep & _). destruct (Hcalls k c Hk) as [_ _ _ _ Hle _].
    rewrite Hs in Hle. specialize (Hle nd Hi). lia. }
  split; rewrite ?HN, ?HC; try done.
  - intros j nd1 t x [(<- & <- & _)|[Hne Hj]]%list_lookup_insert_Some Hx; simpl in *.
    { by rewrite He, lookup_empty in Hx. }
    destruct (Hcount j nd1 t x Hj Hx) as (? & S & ? & ? & ?). split; [done|]. exists S.
    split_and!; [done|by eapply backed_mono|done].
  - intros j nd1 t k c [(<- & <- & _)|[Hne Hj]]%list_lookup_insert_Some Hk Ha; simpl in *.
    + by destruct (Hnone k c t).
    + by eapply Hpend.
  - intros j nd1 [(<- & <- & _)|[Hne Hj]]%list_lookup_insert_Some Hl; simpl in *; [congruence|].
    destruct (Hlead j nd1 Hj Hl) as (S & ? & ?). exists S. split; [done|by eapply backed_mono].
Qed.

(** *** Elections *)

Definition send (i : nat) nd rf' ms net : Net C :=
  with_calls (add_calls i (epoch nd) (next_call net) ms) (next_call net + length ms)
    (put_raft i nd rf' net).

(** A request in flight after server [i] started an election is an old one,
    or one of this election. *)
Lemma election_asks n net i nd rf' args k c j e t :
  calls_ok n net → rv_Term args = CurrentTerm rf' →
  calls (send i nd rf' ((λ i, (i, RpcRequestVote args)) <$> otherPeers (raft nd)) net) !! k = Some c →
  asks j e t c →
  (k < next_call net)%nat ∧ calls net !! k = Some c ∨
  (next_call net ≤ k)%nat ∧ j = i ∧ e = epoch nd ∧ t = CurrentTerm rf' ∧
  otherPeers (raft nd) !! (k - next_call net)%nat = Some (c_dst c).
Proof.
  intros Hcalls Ha1 Hk (Hs & He & args' & Hr & Ht). simpl in Hk.
  rewrite add_calls_lookup in Hk. case_decide.
  - rewrite list_lookup_fmap in Hk.
    destruct (otherPeers _ !! _) as [d|] eqn:Hd; simplify_eq/=. right. split_and!; [lia|done..].
  - left. split; [|done]. by destruct (Hcalls k c Hk).
Qed.

Lemma otherPeers_NoDup rf : NoDup (otherPeers rf).
Proof. apply NoDup_filter, NoDup_seqZ. Qed.

Lemma counters_election n net i nd rf' ms :
  counters_ok n net → calls_ok n net → nodes net !! i = Some nd →
  me rf' = Z.of_nat i → me (raft nd) = Z.of_nat i → election (raft nd) rf' ms →
  counters_ok n (send i nd rf' ms net).
Proof.
  intros [Hcount Hpend Hdist Hlead] Hcalls Hi Hme Hme0 (HT & Hid & HV & HE & args & Ha1 & Ha2 & ->).
  set (net' := send _ _ _ _ _).
  assert (∀ b, b ∈ ballots net → b ∈ ballots net') as Hb.
  { intros b Hb. apply elem_of_app. by right. }
  (* no old request of this incarnation is of this term *)
  assert (∀ k c, calls net !! k = Some c → ¬ asks i (epoch nd) (CurrentTerm rf') c) as Hold.
  { intros k c Hk Ha. destruct (Hpend i nd _ k c Hi Hk Ha) as [x Hx].
    destruct (Hcount i nd _ x Hi Hx). lia. }
  assert (∀ j nd1 t x, nodes net !! j = Some nd1 → elections (raft nd1) !! t = Some x →
    t ≤ CurrentTerm (raft nd1) ∧ ∃ S : gset Z, Z.of_nat (size S) = x ∧ backed net' j t S ∧
    ∀ k c, calls net' !! k = Some c → asks j (epoch nd1) t c →
      (j = i → t ≠ CurrentTerm rf') → c_dst c ∉ S) as Hkeep.
  { intros j nd1 t x Hj Hx. destruct (Hcount j nd1 t x Hj Hx) as (? & S & ? & ? & Hd).
    split; [done|]. exists S. split_and!; [done|by eapply backed_mono|]. intros k c Hk Ha Hne.
    destruct (election_asks _ _ _ _ _ _ _ _ _ _ _ Hcalls Ha1 Hk Ha) as [[_ Hk']|(_ & ? & _ & ? & _)];
      [by eapply Hd|naive_solver]. }
  split.
  - intros j nd1 t x [(<- & <- & _)|[Hne Hj]]%list_lookup_insert_Some Hx; simpl in *.
    2:{ destruct (Hkeep j nd1 t x Hj Hx) as (? & S & ? & ? & Hd). split; [done|]. exists S.
        split_and!; [done..|]. intros. eapply Hd; [done..|]. congruence. }
    rewrite HE in Hx. apply lookup_insert_Some in Hx as [[<- <-]|[Hne Hx]].
    + split; [done|]. exists {[ Z.of_nat i ]}. rewrite size_singleton. split_and!; [done| |].
      * intros v ->%elem_of_singleton. apply elem_of_app. left. apply elem_of_cast.
        rewrite HV, Hme. split_and!; try done. unfold Unvote. lia.
      * intros k c Hk Ha.
        destruct (election_asks _ _ _ _ _ _ _ _ _ _ _ Hcalls Ha1 Hk Ha)
          as [[_ Hk']|(_ & _ & _ & _ & Hd)]; [by destruct (Hold k c Hk')|].
        apply list_elem_of_lookup_2, otherPeers_range in Hd as [_ Hd].
        rewrite elem_of_singleton. congruence.
    + destruct (Hkeep i nd t x Hi Hx) as (? & S & ? & ? & Hd). split; [lia|]. exists S.
      split_and!; [done..|]. intros. eapply Hd; [done..|]. congruence.
  - intros j nd1 t k c [(<- & <- & _)|[Hne Hj]]%list_lookup_insert_Some Hk Ha; simpl in *;
      destruct (election_asks _ _ _ _ _ _ _ _ _ _ _ Hcalls Ha1 Hk Ha) as [[_ Hk']|(_ & ? & _ & -> & _)];
      try done.
    + rewrite HE. apply lookup_insert_is_Some'. right. by eapply Hpend.
    + rewrite HE, lookup_insert_eq. by eexists.
    + by eapply Hpend.
  - intros j e t k1 k2 c1 c2 Hk1 Hk2 A1 A2 Hd.
    destruct (election_asks _ _ _ _ _ _ _ _ _ _ _ Hcalls Ha1 Hk1 A1) as [[_ O1]|(? & -> & -> & -> & N1)],
      (election_asks _ _ _ _ _ _ _ _ _ _ _ Hcalls Ha1 Hk2 A2) as [[_ O2]|(? & ? & ? & ? & N2)];
      subst; [by eapply Hdist|by destruct (Hold k1 c1)|by destruct (Hold k2 c2)|].
    rewrite <-Hd in N2. pose proof (NoDup_lookup _ _ _ _ (otherPeers_NoDup (raft nd)) N1 N2). lia.
  - intros j nd1 [(<- & <- & _)|[Hne Hj]]%list_lookup_insert_Some Hl; simpl in *; [congruence|].
    destruct (Hlead j nd1 Hj Hl) as (S & ? & ?). exists S. split; [done|by eapply backed_mono].
Qed.

(** *** A vote arrives *)

Definition receive (k : nat) (i : nat) nd rf' net : Net C :=
  with_calls (delete k) (next_call net) (put_raft i nd rf' net).

Lemma receive_calls k i nd rf' net k' c :
  calls (receive k i nd rf' net) !! k' = Some c → k ≠ k' ∧ calls net !! k' = Some c.
Proof. unfold receive. simpl. by rewrite lookup_delete_Some. Qed.

Lemma receive_asks k i nd rf' net : no_new_asks net (receive k i nd rf' net).
Proof. intros k' c' j e t [_ Hk]%receive_calls Ha. by eauto. Qed.

Lemma counters_vote n net k c nd args r rf' :
  counters_ok n net → calls_ok n net → calls net !! k = Some c →
  c_rpc c = RpcRequestVote args → c_reply c = Some (RepRequestVote r) →
  nodes net !! c_src c = Some nd → epoch nd = c_epoch c → peers (raft nd) = n →
  handleRequestVoteReply (raft nd) args r = Ret rf' →
  counters_ok n (receive k (c_src c) nd rf' net).
Proof.
  intros Hcnt Hcalls Hk Hrpc Hrep Hi He Hn Hret. set (net' := receive _ _ _ _ _).
  assert (∀ b, b ∈ ballots net → b ∈ ballots net') as Hb.
  { intros b Hb. apply elem_of_app. by right. }
  assert (∀ k' c', calls net' !! k' = Some c' → k ≠ k' ∧ calls net !! k' = Some c') as Hdel.
  { intros k' c'. apply receive_calls. }
  destruct (handleRequestVoteReply_cases _ _ _ _ Hret) as [Hq|(Hg & HT & HT' & _ & HE & Hlead')].
  { eapply counters_quiet; [done| |done|apply receive_asks].
    intros j nd' [(<- & <- & _)|[_ Hj]]%list_lookup_insert_Some; [|by exists nd'].
    exists nd. split_and!; [done..|]. apply handleRequestVoteReply_evolves in Hret as [_ _ V _ _].
    unfold vote_le in V. simpl. lia. }
  destruct (cl_vote _ _ _ _ (Hcalls k c Hk) args Hrpc) as (_ & _ & Hgr).
  destruct (Hgr r Hrep Hg) as [Hrt Hbal]. rewrite Hrt in HT.
  destruct Hcnt as [Hcount Hpend Hdist Hlead].
  assert (asks (c_src c) (epoch nd) (rv_Term args) c) as Hask by (split_and!; eauto).
  destruct (Hpend _ _ _ _ _ Hi Hk Hask) as [x Hx].
  destruct (Hcount _ _ _ _ Hi Hx) as (Hle & S & HS & Hbk & Hd). rewrite Hx in HE, Hlead'. simpl in HE, Hlead'.
  assert (c_dst c ∉ S) as Hnew by by eapply Hd.
  assert (backed net' (c_src c) (rv_Term args) (S ∪ {[ c_dst c ]}) ∧
    Z.of_nat (size (S ∪ {[ c_dst c ]})) = x + 1) as [HbkS HsizeS].
  { split.
    - intros v [Hv| ->%elem_of_singleton]%elem_of_union; [by apply Hb, Hbk|by apply Hb].
    - rewrite size_union, size_singleton; [lia|]. by apply disjoint_singleton_r. }
  split.
  - intros j nd1 t y [(<- & <- & _)|[Hne Hj]]%list_lookup_insert_Some Hy; simpl in *.
    + rewrite HE in Hy. apply lookup_insert_Some in Hy as [[<- <-]|[Hne Hy]].
      * split; [lia|]. exists (S ∪ {[ c_dst c ]}). split_and!; [done..|].
        intros k' c' [Hne Hk']%Hdel Ha [Hin|Hin%elem_of_singleton]%elem_of_union.
        { by eapply Hd. }
        apply Hne. by eapply Hdist.
      * destruct (Hcount _ nd t y Hi Hy) as (? & S' & ? & ? & Hd'). split; [lia|]. exists S'.
        split_and!; [done|by eapply backed_mono|]. intros k' c' [_ Hk']%Hdel Ha. by eapply Hd'.
    + destruct (Hcount j nd1 t y Hj Hy) as (? & S' & ? & ? & Hd'). split; [lia|]. exists S'.
      split_and!; [done|by eapply backed_mono|]. intros k' c' [_ Hk']%Hdel Ha. by eapply Hd'.
  - intros j nd1 t k' c' [(<- & <- & _)|[Hne Hj]]%list_lookup_insert_Some [_ Hk']%Hdel Ha;
      simpl in *; [|by eapply Hpend].
    rewrite HE. apply lookup_insert_is_Some'. right. by eapply Hpend.
  - intros j e t k1 k2 c1 c2 [_ Hk1]%Hdel [_ Hk2]%Hdel. by eapply Hdist.
  - intros j nd1 [(<- & <- & _)|[Hne Hj]]%list_lookup_insert_Some Hl; simpl in *.
    + destruct (Hlead' Hl) as [Hl0|Hmaj].
      * destruct (Hlead _ nd Hi Hl0) as (S' & ? & ?). exists S'. split; [done|].
        rewrite HT'. by eapply backed_mono.
      * exists (S ∪ {[ c_dst c ]}). split; [lia|]. rewrite HT', <-HT. done.
    + destruct (Hlead j nd1 Hj Hl) as (S' & ? & ?). exists S'. split; [done|by eapply backed_mono].
Qed.

(** *** The invariant *)

Record net_inv (n : nat) net : Prop := mkNetInv {
  ni_len : length (nodes net) = n;
  ni_nodes i nd : nodes net !! i = Some nd → node_ok n i (raft nd);
  ni_ballots : ballots_ok net;
  ni_calls : calls_ok n net;
  ni_counters : counters_ok n net;
}.

(** A change of one server that [evolves] allows. *)
Record progress rf rf' : Prop := mkProgress {
  pr_evolves : evolves rf rf';
  pr_disk : disk_step rf rf';
  pr_wf : wf rf';
  pr_self : self_vote rf → self_vote rf';
}.

Lemma step_progress ev rf rf' :
  wf rf → valid_event ev rf → (self_vote rf → self_vote rf') → step ev rf = Ret rf' →
  progress rf rf'.
Proof.
  intros Hwf Hv Hself Hret. destruct (step_safe ev rf Hwf Hv) as (rf1 & Hret' & Hwf').
  rewrite Hret in Hret'. simplify_eq. split; [by eapply step_evolves|by eapply step_disk|done..].
Qed.

Lemma net_inv_servers n net net' i nd rf' :
  net_inv n net → nodes net !! i = Some nd → progress (raft nd) rf' →
  nodes net' = <[i := mkNode rf' (epoch nd)]> (nodes net) →
  ballots net' = cast rf' ++ ballots net →
  calls_ok n net' → counters_ok n net' → net_inv n net'.
Proof.
  intros [Hlen Hnodes Hbal _ _] Hi [Hev Hd Hwf Hself] HN HB Hcalls Hcnt.
  pose proof (Hnodes i nd Hi) as Hok. pose proof (node_ok_step _ _ _ _ Hok Hev Hd Hwf Hself) as Hok'.
  split; [by rewrite HN, length_insert| | |done|done].
  - intros j nd1. rewrite HN. intros [(<- & <- & _)|[_ Hj]]%list_lookup_insert_Some; auto.
  - eapply ballots_ok_step; [done..| | |]; [apply Hok'|apply Hok'|].
    intros t x Hx. apply held_step; [apply Hok|done..].
Qed.

Lemma progress_term rf rf' : progress rf rf' → CurrentTerm rf ≤ CurrentTerm rf'.
Proof. intros [[_ _ V _ _] _ _ _]. unfold vote_le in V. lia. Qed.

(** The counters after a quiet step of one server. *)
Lemma counters_one n net net' i nd rf' :
  net_inv n net → nodes net !! i = Some nd → progress (raft nd) rf' → quiet (raft nd) rf' →
  nodes net' = <[i := mkNode rf' (epoch nd)]> (nodes net) →
  ballots net' = cast rf' ++ ballots net → no_new_asks net net' → counters_ok n net'.
Proof.
  intros Hinv Hi Hp Hq HN HB Ha. eapply counters_quiet; [apply Hinv| | |done].
  - intros j nd'. rewrite HN. intros [(<- & <- & _)|[_ Hj]]%list_lookup_insert_Some.
    + exists nd. split_and!; [done..|by apply progress_term].
    + by exists nd'.
  - intros b Hb. rewrite HB. apply elem_of_app. by right.
Qed.

Lemma calls_ok_old n net net' i nd rf' k c :
  nodes net !! i = Some nd → nodes net' = <[i := mkNode rf' (epoch nd)]> (nodes net) →
  ballots net' = cast rf' ++ ballots net → (next_call net ≤ next_call net')%nat →
  call_ok n net k c → call_ok n net' k c.
Proof.
  intros Hi HN HB Hk. apply call_ok_mono; [done| |].
  - intros j nd'. rewrite HN. intros [(<- & <- & _)|[_ Hj]]%list_lookup_insert_Some; eauto.
  - intros b Hb. rewrite HB. apply elem_of_app. by right.
Qed.

Lemma calls_ok_send n net i nd rf' ms :
  net_inv n net → nodes net !! i = Some nd →
  (∀ j m, (j, m) ∈ ms → j ∈ otherPeers (raft nd) ∧ valid_rpc m) →
  no_vote_rpc ms ∨ election (raft nd) rf' ms → me rf' = Z.of_nat i →
  calls_ok n (send i nd rf' ms net).
Proof.
  intros Hinv Hi Hms Hvotes Hme k c Hk. pose proof (ni_nodes _ _ Hinv i nd Hi) as Hok.
  simpl in Hk. rewrite add_calls_lookup in Hk. case_decide.
  2:{ eapply calls_ok_old; [done|done|done|simpl; lia|]. by apply (ni_calls _ _ Hinv). }
  apply fmap_Some in Hk as ([j m] & Hjm & ->). apply list_elem_of_lookup_2 in Hjm.
  destruct (Hms j m Hjm) as [Hj Hm]. apply otherPeers_range in Hj as [Hj Hjme].
  rewrite (no_peers _ _ _ Hok) in Hj. rewrite (no_me _ _ _ Hok) in Hjme.
  pose proof (lookup_lt_Some _ _ _ Hi) as Hlt. rewrite (ni_len _ _ Hinv) in Hlt.
  split; simpl; [lia|done|done|done| |].
  - intros nd' [(_ & <- & _)|[? _]]%list_lookup_insert_Some; done.
  - intros args ->. destruct Hvotes as [Hno|(_ & _ & _ & _ & args' & _ & Hc & ->)].
    { by destruct (Hno j args). }
    apply list_elem_of_fmap in Hjm as (? & ? & _). simplify_eq. split_and!; [congruence|done|done].
Qed.

Lemma local_progress ev rf rf' ms :
  wf rf → (match ev with LSnapshot index snap => snap_ok index snap | _ => True end) →
  local ev rf = Ret (rf', ms) → progress rf rf'.
Proof.
  intros Hwf Hs Hret. pose proof (local_step _ _ _ _ Hret) as Hstep.
  split; [by eapply step_evolves|by eapply step_disk|by eapply local_wf|].
  destruct (local_quiet _ _ _ _ Hret) as [[Hq _]|(_ & _ & HV & _)]; [apply Hq|].
  by intros _ _.
Qed.

Lemma net_inv_local n net i nd ev rf' ms :
  net_inv n net → nodes net !! i = Some nd → local ev (raft nd) = Ret (rf', ms) →
  (match ev with LSnapshot index snap => snap_ok index snap | _ => True end) →
  net_inv n (send i nd rf' ms net).
Proof.
  intros Hinv Hi Hret Hs. destruct (ni_nodes _ _ Hinv i nd Hi) as [Hpe Hme Hwf _ _ _ _].
  pose proof (local_progress _ _ _ _ Hwf Hs Hret) as Hp.
  destruct (local_wf _ _ _ _ Hwf Hs Hret) as [_ Hms].
  assert (me rf' = Z.of_nat i) as Hme' by (rewrite (ev_me _ _ (pr_evolves _ _ Hp)); done).
  pose proof (local_quiet _ _ _ _ Hret) as Hcases.
  assert (calls_ok n (send i nd rf' ms net)) as Hcalls.
  { apply calls_ok_send; [done..| |done]. destruct Hcases as [[_ ?]|?]; auto. }
  eapply net_inv_servers; [done..| ]. destruct Hcases as [[Hq Hno]|Hel].
  - eapply counters_one; [done..|]. intros k c j e t Hk Ha. simpl in Hk.
    rewrite add_calls_lookup in Hk. case_decide; [|by eauto].
    apply fmap_Some in Hk as ([d m] & Hdm & ->). destruct Ha as (_ & _ & args & Hm & _).
    simpl in Hm. subst m. by destruct (Hno d args); eapply list_elem_of_lookup_2.
  - by eapply counters_election; [apply Hinv|apply Hinv|..].
Qed.

(** [deliver]: the handler of a call ran. *)
Definition answer (k : nat) c nd rf' (r : Reply) net : Net C :=
  with_calls (insert k (mkCall (c_src c) (c_epoch c) (c_dst c) (c_rpc c) (Some r)))
    (next_call net) (put_raft (Z.to_nat (c_dst c)) nd rf' net).

Lemma answer_calls k c nd rf' r net k' c' :
  calls (answer k c nd rf' r net) !! k' = Some c' →
  k = k' ∧ mkCall (c_src c) (c_epoch c) (c_dst c) (c_rpc c) (Some r) = c' ∨
  k ≠ k' ∧ calls net !! k' = Some c'.
Proof. unfold answer. simpl. by rewrite lookup_insert_Some. Qed.

Lemma net_inv_deliver n net k c nd rf' r :
  net_inv n net → calls net !! k = Some c →
  nodes net !! Z.to_nat (c_dst c) = Some nd → handle (raft nd) (c_rpc c) = Ret (rf', r) →
  net_inv n (answer k c nd rf' r net).
Proof.
  intros Hinv Hk Hi Hret. pose proof (ni_calls _ _ Hinv k c Hk) as Hc.
  destruct (ni_nodes _ _ Hinv _ nd Hi) as [Hpe Hme Hwf _ _ _ _].
  pose proof (handle_quiet _ _ _ _ Hret) as Hq.
  assert (progress (raft nd) rf') as Hp.
  { eapply step_progress; [done|apply valid_rpc_event, Hc|apply Hq|by eapply handle_step]. }
  eapply net_inv_servers; [done..| |].
  - intros k' c' [[<- <-]|[Hne Hk']]%answer_calls.
    2:{ eapply calls_ok_old; [done..|]. by apply Hinv. }
    destruct (calls_ok_old n net (answer k c nd rf' r net) _ nd rf' k c Hi eq_refl eq_refl (le_n _) Hc)
      as [? ? ? ? ? Hv].
    split; simpl; try done. intros args Ha. destruct (Hv args Ha) as (Hcand & ? & _). split_and!; [done..|].
    intros r0 ? Hg. simplify_eq. rewrite Ha in Hret. apply handle_reply_kind with (r := r0) in Hret; [|done].
    destruct (RequestVote_grants _ _ _ _ Hret Hg) as (Ht & HT & HV). split; [done|].
    apply elem_of_app. left. apply elem_of_cast. rewrite HV, HT.
    rewrite (ev_me _ _ (pr_evolves _ _ Hp)), Hme. destruct Hc as [_ _ ? _ _ _].
    split_and!; [unfold Unvote; lia|done|lia|done].
  - eapply counters_one; [done..|].
    intros k' c' j e t [[<- <-]|[Hne Hk']]%answer_calls Ha; [|by eauto]. by exists c.
Qed.

Lemma net_inv_reply n net k c nd r rf' :
  net_inv n net → calls net !! k = Some c → c_reply c = Some r →
  nodes net !! c_src c = Some nd → epoch nd = c_epoch c →
  handleReply (raft nd) (c_dst c) (c_rpc c) r = Ret rf' →
  net_inv n (receive k (c_src c) nd rf' net).
Proof.
  intros Hinv Hk Hr Hi He Hret. pose proof (ni_calls _ _ Hinv k c Hk) as Hc.
  destruct (ni_nodes _ _ Hinv _ nd Hi) as [Hpe Hme Hwf _ _ _ _].
  assert (calls_ok n (receive k (c_src c) nd rf' net)) as Hcalls.
  { intros k' c' [_ Hk']%receive_calls. eapply calls_ok_old; [done..|]. by apply Hinv. }
  assert (quiet (raft nd) rf' ∨ ∃ args vr, c_rpc c = RpcRequestVote args ∧ r = RepRequestVote vr ∧
    handleRequestVoteReply (raft nd) args vr = Ret rf' ∧ (self_vote (raft nd) → self_vote rf'))
    as Hcases.
  { destruct (c_rpc c), r; simpl in Hret; try (left; by simplify_eq); [right|left|left].
    - eexists _, _. split_and!; [done..|].
      destruct (handleRequestVoteReply_cases _ _ _ _ Hret) as [Hq|(_ & _ & _ & Hself & _)]; [apply Hq|done].
    - by eapply handleApplyEntriesReply_quiet.
    - by eapply handleInstallSnapshotReply_quiet. }
  assert (progress (raft nd) rf') as Hp.
  { destruct (handleReply_step _ _ _ _ _ Hret) as [->|(ev & Hev & Hv)]; [by split; [|left|..]|].
    eapply step_progress; [done|apply Hv; rewrite Hpe; apply Hc| |done].
    destruct Hcases as [Hq|(? & ? & _ & _ & _ & ?)]; [apply Hq|done]. }
  eapply net_inv_servers; [done..|]. destruct Hcases as [Hq|(args & vr & Hm & -> & Hvr & _)].
  - eapply counters_one; [done..|apply receive_asks].
  - by eapply counters_vote; [apply Hinv|apply Hinv|..].
Qed.

Lemma net_inv_drop n net k :
  net_inv n net → net_inv n (with_calls (delete k) (next_call net) net).
Proof.
  intros [? ? [] Hcalls Hcnt].
  assert (∀ k' c, calls (with_calls (delete k) (next_call net) net) !! k' = Some c →
    calls net !! k' = Some c) as Hdel by (intros k' c; simpl; by intros [_ ?]%lookup_delete_Some).
  split; [done|done|done| |].
  - intros k' c Hk%Hdel. by destruct (Hcalls k' c Hk).
  - eapply counters_quiet; [done| |done|].
    + intros i nd Hi. by exists nd.
    + intros k' c i e t Hk%Hdel Ha. by eauto.
Qed.

Lemma node_ok_restart n i rf rf' :
  node_ok n i rf → Make (peers rf) (me rf) (persister rf) = Ret rf' →
  node_ok n i rf' ∧ persister rf' = persister rf ∧ elections rf' = ∅ ∧ identity rf' = FOLLOWER.
Proof.
  intros [Hpe Hme Hwf Hdur Hdisk _ _] Hret.
  destruct (Make_recovers rf Hwf Hdur Hdisk) as (t & v & Hb & _ & Hret' & Hwf' & Hdur').
  rewrite Hret in Hret'. simplify_eq. split_and!; [|done..].
  split; [done|done|done|done| |apply boot_live|by intros []].
  unfold disk_ok in *. simpl. by rewrite Hb in *.
Qed.

Lemma net_inv_restart n net i nd rf' :
  net_inv n net → nodes net !! i = Some nd →
  Make (peers (raft nd)) (me (raft nd)) (persister (raft nd)) = Ret rf' →
  net_inv n (mkNet (<[i := mkNode rf' (S (epoch nd))]> (nodes net)) (calls net) (next_call net)
               (cast rf' ++ ballots net)).
Proof.
  intros Hinv Hi Hret. destruct (node_ok_restart _ _ _ _ (ni_nodes _ _ Hinv i nd Hi) Hret)
    as (Hok & Hps & He & Hid).
  assert (∀ b, b ∈ ballots net → b ∈ cast rf' ++ ballots net) as Hb.
  { intros b Hb. apply elem_of_app. by right. }
  split; simpl.
  - rewrite length_insert. apply Hinv.
  - intros j nd1 [(<- & <- & _)|[_ Hj]]%list_lookup_insert_Some; [done|by apply Hinv].
  - eapply (ballots_ok_step net _ i nd (mkNode rf' (S (epoch nd)))); [apply Hinv|done|done|done|..];
      [apply Hok|apply Hok|]. simpl. by rewrite Hps.
  - intros k c Hk. eapply call_ok_mono; [simpl; done| |exact Hb|by apply Hinv]. simpl.
    intros j nd1 [(<- & <- & _)|[_ Hj]]%list_lookup_insert_Some; [|by eauto]. exists nd. simpl.
    split; [done|lia].
  - by eapply counters_restart; [apply Hinv|apply Hinv|..].
Qed.

Lemma net_inv_step n net net' : net_step net net' → net_inv n net → net_inv n net'.
Proof.
  destruct 1; intros Hinv;
    eauto using net_inv_local, net_inv_deliver, net_inv_reply, net_inv_drop, net_inv_restart.
Qed.

Lemma net_inv_init n net : net_init n net → net_inv n net.
Proof.
  intros (HC & HB & Hlen & Hnodes).
  assert (∀ i nd, nodes net !! i = Some nd →
    raft nd = boot_state n (Z.of_nat i) MakePersister 0 Unvote [zeroEntry] 0 [] ∧ wf (raft nd) ∧
    durable (raft nd) ∧ disk_ok (raft nd)) as Hfresh.
  { intros i nd Hi. destruct (Hnodes i nd Hi) as [_ Hmake].
    pose proof (lookup_lt_Some _ _ _ Hi).
    destruct (Make_fresh n (Z.of_nat i)) as (rf & Hrf & ? & ? & ? & _ & Heq); [lia|].
    rewrite Hmake in Hrf. injection Hrf as ->. by split_and!. }
  split; [done| | | |].
  - intros i nd Hi. destruct (Hfresh i nd Hi) as (Heq & ? & ? & ?).
    split; try done; rewrite Heq; [done..|apply boot_live|by intros []].
  - split; rewrite ?HB.
    + intros i nd Hi. destruct (Hfresh i nd Hi) as (-> & _). done.
    + by intros t v x ?%not_elem_of_nil.
    + by intros t v x y ?%not_elem_of_nil.
  - intros k c. by rewrite HC, lookup_empty.
  - split; rewrite ?HC.
    + intros i nd t x Hi. destruct (Hfresh i nd Hi) as (-> & _). simpl. by rewrite lookup_empty.
    + intros i nd t k c _. by rewrite lookup_empty.
    + intros i e t k1 k2 c1 c2. by rewrite lookup_empty.
    + intros i nd Hi. by destruct (Hfresh i nd Hi) as (-> & _).
Qed.

Lemma reachable_inv n net : reachable n net → net_inv n net.
Proof.
  intros (net0 & Hinit & Hsteps). apply net_inv_init in Hinit.
  induction Hsteps; eauto using net_inv_step.
Qed.

(** *** Quorums *)

Lemma quorums_meet (n : nat) (S1 S2 : gset Z) :
  (∀ v, v ∈ S1 ∪ S2 → 0 ≤ v < Z.of_nat n) →
  2 * Z.of_nat (size S1) > Z.of_nat n → 2 * Z.of_nat (size S2) > Z.of_nat n →
  ∃ v, v ∈ S1 ∧ v ∈ S2.
Proof.
  intros Hr H1' H2'. destruct (decide (S1 ∩ S2 = ∅)) as [He|Hne].
  - exfalso. assert (S1 ## S2) as Hd by (intros v ? ?; apply (not_elem_of_empty (C := gset Z) v);
      rewrite <-He; by apply elem_of_intersection).
    assert (S1 ∪ S2 ⊆ list_to_set (seqZ 0 (Z.of_nat n))) as Hsub.
    { intros v Hv. apply elem_of_list_to_set, elem_of_seqZ. pose proof (Hr v Hv). lia. }
    apply subseteq_size in Hsub. rewrite size_union in Hsub by done.
    rewrite size_list_to_set, length_seqZ in Hsub by apply NoDup_seqZ. lia.
  - apply set_choose_L in Hne as [v [? ?]%elem_of_intersection]. by exists v.
Qed.

Lemma backed_range n net i t S v :
  net_inv n net → backed net i t S → v ∈ S → 0 ≤ v < Z.of_nat n.
Proof.
  intros Hinv HS Hv. apply HS in Hv. apply (bo_held _ (ni_ballots _ _ Hinv)) in Hv
    as (_ & j & nd & -> & Hj%lookup_lt_Some & _). rewrite (ni_len _ _ Hinv) in Hj. lia.
Qed.

(** Votes are never forgotten. *)
Lemma ballots_grow net net' b : rtc net_step net net' → b ∈ ballots net → b ∈ ballots net'.
Proof.
  induction 1 as [|net net1 net' Hstep _ IH]; [done|]. intros Hb. apply IH.
  destruct Hstep; simpl; rewrite ?elem_of_app; auto.
Qed.

(** A leader has, from then on, the votes of a majority for its term. *)
Lemma leader_backed n net net' i nd :
  reachable n net → rtc net_step net net' → nodes net !! i = Some nd → identity (raft nd) = LEADER →
  ∃ S : gset Z, 2 * Z.of_nat (size S) > Z.of_nat n ∧ backed net' i (CurrentTerm (raft nd)) S.
Proof.
  intros Hinv%reachable_inv Hsteps Hi Li. destruct (co_leader _ _ (ni_counters _ _ Hinv) i nd Hi Li) as (S & Hq & Hb).
  exists S. split; [done|]. eapply backed_mono, Hb. intros b. by apply ballots_grow.
Qed.

Lemma backed_unique n net i j t S1 S2 :
  net_inv n net → 2 * Z.of_nat (size S1) > Z.of_nat n → 2 * Z.of_nat (size S2) > Z.of_nat n →
  backed net i t S1 → backed net j t S2 → i = j.
Proof.
  intros Hinv Hq1 Hq2 Hb1 Hb2. destruct (quorums_meet n S1 S2) as (v & Hv1 & Hv2); [|done..|].
  { intros v [Hv|Hv]%elem_of_union; eauto using backed_range. }
  apply Hb1 in Hv1. apply Hb2 in Hv2. pose proof (bo_unique _ (ni_ballots _ _ Hinv) _ _ _ _ Hv1 Hv2). lia.
Qed.

Lemma reachable_steps n net net' : reachable n net → rtc net_step net net' → reachable n net'.
Proof. intros (net0 & ? & ?) ?. exists net0. split; [done|]. by etrans. Qed.

(** C4: election safety.  In every run of a cluster with lost, delayed and
    reordered messages, crashes and restarts, a server that leads a term and
    a server that leads the same term, then or at any later time, are the same
    server. *)
Theorem election_safety n net net' i j ndi ndj :
  reachable n net → rtc net_step net net' → nodes net !! i = Some ndi → nodes net' !! j = Some ndj →
  identity (raft ndi) = LEADER → identity (raft ndj) = LEADER →
  CurrentTerm (raft ndi) = CurrentTerm (raft ndj) → i = j.
Proof.
  intros Hr Hsteps Hi Hj Li Lj HT. pose proof (reachable_steps _ _ _ Hr Hsteps) as Hr'.
  destruct (leader_backed n net net' i ndi Hr Hsteps Hi Li) as (S1 & Hq1 & Hb1).
  destruct (leader_backed n net' net' j ndj Hr' (rtc_refl _ _) Hj Lj) as (S2 & Hq2 & Hb2).
  rewrite HT in Hb1. exact (backed_unique n net' i j _ S1 S2 (reachable_inv _ _ Hr') Hq1 Hq2 Hb1 Hb2).
Qed.

Lemma handle_returns rf m : wf rf → valid_rpc m → returns (handle rf m).
Proof.
  intros Hwf Hm. destruct m; simpl.
  - destruct (RequestVote_safe rf args Hwf) as (? & ? & -> & _). by eexists.
  - destruct (ApplyEntries_safe rf args Hwf Hm) as (? & ? & -> & _). by eexists.
  - destruct (InstallSnapshot_safe rf args Hwf Hm) as (? & ? & -> & _). by eexists.
Qed.

Lemma handleReply_returns rf dst m r :
  wf rf → 0 ≤ dst < Z.of_nat (peers rf) → returns (handleReply rf dst m r).
Proof.
  intros Hwf Hdst. destruct m, r; simpl; try by eexists.
  - destruct (handleRequestVoteReply_safe rf args r Hwf) as (? & -> & _). by eexists.
  - destruct (handleApplyEntriesReply_safe rf dst args r Hwf Hdst) as (? & -> & _). by eexists.
  - destruct (handleInstallSnapshotReply_safe rf dst args r Hwf Hdst) as (? & -> & _). by eexists.
Qed.

Lemma local_returns ev rf : wf rf → valid_event (local_event ev) rf → returns (local ev rf).
Proof.
  intros Hwf Hv. destruct ev; simpl in *.
  - destruct (Start_safe rf command Hwf) as (? & ? & ? & -> & _). by eexists.
  - destruct (tickElection_safe rf Hwf) as (? & ? & -> & _). by eexists.
  - destruct (tickHeartbeat_safe rf Hwf) as (? & ? & -> & _). by eexists.
  - destruct (applyLog_safe rf Hwf Hv) as (? & ? & -> & _). by eexists.
  - destruct (Snapshot_safe rf index snap Hwf Hv) as (? & -> & _). by eexists.
  - by eexists.
Qed.

(** C6: no step of a reachable cluster panics or hangs: every message in
    flight can be handled by the server it is addressed to, every reply by
    the server that waits for it, every timer, [Start], [Kill] and
    well-formed [Snapshot] by every server, and every server can restart
    from its disk.  [applyLog] needs the committed index inside the log. *)
Theorem cluster_no_panic n net :
  reachable n net →
  (∀ k c, calls net !! k = Some c →
     (∃ nd, nodes net !! Z.to_nat (c_dst c) = Some nd ∧ returns (handle (raft nd) (c_rpc c))) ∧
     (∀ nd r, nodes net !! c_src c = Some nd →
        returns (handleReply (raft nd) (c_dst c) (c_rpc c) r))) ∧
  (∀ i nd, nodes net !! i = Some nd →
     (∀ ev, valid_event (local_event ev) (raft nd) → returns (local ev (raft nd))) ∧
     returns (Make (C := C) (peers (raft nd)) (me (raft nd)) (persister (raft nd)))).
Proof.
  intros Hinv%reachable_inv. split.
  - intros k c Hk. destruct (ni_calls _ _ Hinv k c Hk) as [_ _ Hdst Hrpc _ _]. split.
    + destruct (lookup_lt_is_Some_2 (nodes net) (Z.to_nat (c_dst c))) as [nd Hnd].
      { rewrite (ni_len _ _ Hinv). lia. }
      exists nd. split; [done|]. apply handle_returns; [|done]. by eapply no_wf, Hinv.
    + intros nd r Hnd. destruct (ni_nodes _ _ Hinv _ nd Hnd) as [Hpe _ Hwf _ _ _ _].
      apply handleReply_returns; [done|]. by rewrite Hpe.
  - intros i nd Hnd. destruct (ni_nodes _ _ Hinv _ nd Hnd) as [_ _ Hwf Hdur Hdisk _ _]. split.
    + intros ev Hv. by apply local_returns.
    + destruct (Make_recovers _ Hwf Hdur Hdisk) as (? & ? & _ & _ & -> & _). by eexists.
Qed.
End cluster.
