(* ===== verification/RaftLog.v ===== *)
(** * Raft: log matching

    The logs of a cluster as prefixes of the logs of its leaders.  [T] maps a
    term to the whole log of the leader of that term, from index 0 and without
    the trimming of snapshots; it only grows.  Every log, every request in
    flight and every snapshot is a piece of these. *)

From Stdlib Require Import Strings.Byte.
From stdpp Require Import prelude gmap strings list sets.
From S2P Require Import Prelude Gob Raft RaftNode RaftServer RaftEvolve RaftNet RaftElection RaftCluster.
Local Open Scope Z_scope.

(** ** Histories of leader logs *)
Section history.
Context {C : Type}.
Implicit Types (T : gmap Z (list (LogEntry C))) (g L E : list (LogEntry C)).

(** Up to each of its entries, [g] is the log of the leader of the entry's
    term. *)
Definition clog T g : Prop :=
  ∀ (k : nat) e, g !! k = Some e → ∃ L, T !! Term e = Some L ∧ take (S k) g = take (S k) L.

Definition grows T T' : Prop := ∀ t L, T !! t = Some L → ∃ L', T' !! t = Some L' ∧ L `prefix_of` L'.

#[export] Instance grows_preorder : PreOrder grows.
Proof.
  split.
  - intros T t L HL. by exists L.
  - intros T1 T2 T3 G1 G2 t L HL. destruct (G1 t L HL) as (L1 & H1 & P1), (G2 t L1 H1) as (L2 & H2 & P2).
    exists L2. split; [done|by etrans].
Qed.

Lemma take_prefix g L (k : nat) : g `prefix_of` L → (k ≤ length g)%nat → take k L = take k g.
Proof. intros [r ->] Hk. by apply take_app_le. Qed.

Lemma take_S_eq_lookup g L (k : nat) : take (S k) g = take (S k) L → g !! k = L !! k.
Proof. intros Heq. rewrite <-(lookup_take_lt g (S k)), Heq by lia. by rewrite lookup_take_lt by lia. Qed.

Lemma take_eq_lookup g L (m k : nat) : take m g = take m L → (k < m)%nat → g !! k = L !! k.
Proof. intros Heq Hk. rewrite <-(lookup_take_lt g m), Heq by lia. by rewrite lookup_take_lt by lia. Qed.

Lemma take_eq_mono g L (m k : nat) : take m g = take m L → (k ≤ m)%nat → take k g = take k L.
Proof. intros Heq Hk. rewrite <-(Nat.min_l k m) by lia. by rewrite <-!take_take, Heq. Qed.

Lemma clog_grows T T' g : grows T T' → clog T g → clog T' g.
Proof.
  intros HG Hg k e Hk. destruct (Hg k e Hk) as (L & HL & Heq).
  destruct (HG _ _ HL) as (L' & HL' & HP). exists L'. split; [done|].
  rewrite Heq. symmetry. apply take_prefix; [done|].
  pose proof (lookup_lt_Some _ _ _ Hk). apply (f_equal length) in Heq. rewrite !length_take in Heq. lia.
Qed.

Lemma clog_take T g m : clog T g → clog T (take m g).
Proof.
  intros Hg k e [Hk Hm]%lookup_take_Some. destruct (Hg k e Hk) as (L & HL & Heq).
  exists L. split; [done|]. by rewrite take_take, Nat.min_l by lia.
Qed.

(** Two logs agree up to an index at which they have entries of one term. *)
Lemma clog_agree T g1 g2 (k : nat) e1 e2 :
  clog T g1 → clog T g2 → g1 !! k = Some e1 → g2 !! k = Some e2 → Term e1 = Term e2 →
  take (S k) g1 = take (S k) g2.
Proof.
  intros H1 H2 E1 E2 Heq. destruct (H1 k e1 E1) as (L1 & HL1 & ->), (H2 k e2 E2) as (L2 & HL2 & ->).
  congruence.
Qed.

(** The leader of term [t] appends [e]. *)
Lemma clog_append T g t e :
  T !! t = Some g → Term e = t → clog T g → grows T (<[t := g ++ [e]]> T) ∧ clog (<[t := g ++ [e]]> T) (g ++ [e]).
Proof.
  intros HT Ht Hg. assert (grows T (<[t := g ++ [e]]> T)) as HG.
  { intros u L HL. destruct (decide (u = t)) as [->|Hne].
    - rewrite lookup_insert_eq. simplify_eq. eexists. split; [done|by eexists].
    - rewrite lookup_insert_ne by done. by exists L. }
  split; [done|]. intros k x [Hk|[Hle [Hz Hx]%list_lookup_singleton_Some]]%lookup_app_Some.
  - destruct (clog_grows _ _ _ HG Hg k x Hk) as (L & HL & Heq). exists L. split; [done|].
    rewrite <-Heq. apply take_app_le. apply lookup_lt_Some in Hk. lia.
  - subst x. rewrite Ht, lookup_insert_eq. by eexists.
Qed.

Lemma grows_insert T t g : T !! t = None → grows T (<[t := g]> T).
Proof.
  intros HT u L HL. exists L. split; [|done]. rewrite lookup_insert_ne by congruence. done.
Qed.

(** *** Merging entries into a log *)

Lemma conflicts_true g E :
  conflicts g E = true → ∃ (j : nat) x y, g !! j = Some x ∧ E !! j = Some y ∧ Term x ≠ Term y.
Proof.
  unfold conflicts. rewrite existsb_exists. intros ([x y] & Hin%list_elem_of_In & Ht).
  apply list_elem_of_lookup in Hin as (j & Hj). apply lookup_zip_Some in Hj as [Hx Hy].
  exists j, x, y. split_and!; [done|done|zlia].
Qed.

(** A log takes entries of the leader log [L] after an entry it shares with
    [L]: it stays, or becomes a prefix of [L] that is not shorter than what
    the two had in common. *)
Lemma merge_cases T g L E (p : nat) e0 e1 :
  clog T g → clog T L → g !! p = Some e0 → L !! p = Some e1 → Term e0 = Term e1 →
  E `prefix_of` drop (S p) L →
  take (S p) g = take (S p) L ∧ (S p + length E ≤ length L)%nat ∧
  (mergeLog g (S p) E = g ∧ take (S p + length E) g = take (S p + length E) L ∨
   mergeLog g (S p) E = take (S p + length E) L ∧
   ∀ m : nat, (m ≤ length g)%nat → take m g = take m L → (m ≤ S p + length E)%nat).
Proof.
  intros Hg HL He0 He1 Ht HE. pose proof (clog_agree _ _ _ _ _ _ Hg HL He0 He1 Ht) as Hpre.
  pose proof (lookup_lt_Some _ _ _ He0). pose proof (lookup_lt_Some _ _ _ He1).
  assert (E = take (length E) (drop (S p) L)) as HEq.
  { destruct HE as [r ->]. by rewrite take_app_length. }
  assert (S p + length E ≤ length L)%nat as Hlen.
  { apply prefix_length in HE. rewrite length_drop in HE. lia. }
  assert (∀ (j : nat) y, E !! j = Some y → L !! (S p + j)%nat = Some y) as HEL.
  { intros j y Hj. rewrite HEq in Hj. apply lookup_take_Some in Hj as [Hj _]. by rewrite lookup_drop in Hj. }
  assert (take (S p) g ++ E = take (S p + length E) L) as Hjoin.
  { rewrite Hpre, HEq at 1. by rewrite take_take_drop. }
  split_and!; [done|done|]. unfold mergeLog. destruct (conflicts _ _) eqn:Hc.
  { right. split; [done|]. intros m Hm Heq.
    destruct (conflicts_true _ _ Hc) as (j & x & y & Hx & Hy & Hne). rewrite lookup_drop in Hx.
    pose proof (lookup_lt_Some _ _ _ Hy). destruct (decide (m ≤ S p + length E)%nat); [done|exfalso].
    rewrite (take_eq_lookup _ _ m (S p + j) Heq), (HEL j y Hy) in Hx by lia. congruence. }
  rewrite (app_assoc (take (S p) g) E), Hjoin.
  destruct (decide (S p + length E ≤ length g)%nat) as [Hle|Hgt].
  2:{ right. rewrite drop_ge, app_nil_r by lia. split; [done|]. intros m Hm _. lia. }
  left. assert (take (S p + length E) g = take (S p + length E) L) as Heq.
  { destruct (decide (length E = 0)%nat) as [HE0|HE0].
    { by rewrite HE0, Nat.add_0_r. }
    destruct (lookup_lt_is_Some_2 g (p + length E)) as [x Hx]; [lia|].
    destruct (lookup_lt_is_Some_2 E (length E - 1)) as [y Hy]; [lia|].
    replace (S p + length E)%nat with (S (p + length E)) by lia.
    eapply clog_agree; [exact Hg|exact HL|done| |].
    - rewrite <-(HEL _ _ Hy). f_equal. lia.
    - apply (no_conflict_terms (drop (S p) g) E (length E - 1) x y Hc); [|done].
      rewrite lookup_drop, <-Hx. f_equal. lia. }
  split; [|done]. by rewrite <-Heq, take_drop.
Qed.

(** *** A server's log as the end of a whole log *)

(** The first entry of [Logs] stands for the last one the snapshot covers: it
    has its term, and perhaps no command. *)
Definition tracks g (rf : Raft C) : Prop :=
  let d := Z.to_nat (DiscardCount rf) in
  ∃ e0 e, g !! d = Some e0 ∧ Logs rf = e :: drop (S d) g ∧ Term e = Term e0.

Lemma tracks_length g rf : tracks g rf → (Z.to_nat (DiscardCount rf) + length (Logs rf) = length g)%nat.
Proof.
  intros (e0 & e & He0%lookup_lt_Some & -> & _). rewrite length_cons, length_drop. lia.
Qed.

Lemma tracks_same g rf rf' :
  Logs rf' = Logs rf → DiscardCount rf' = DiscardCount rf → tracks g rf → tracks g rf'.
Proof. unfold tracks. by intros -> ->. Qed.

Lemma tracks_index g rf (j : nat) e :
  tracks g rf → Logs rf !! j = Some e →
  ∃ e', g !! (Z.to_nat (DiscardCount rf) + j)%nat = Some e' ∧ Term e' = Term e ∧ ((0 < j)%nat → e' = e).
Proof.
  intros (e0 & e1 & He0 & HL & Ht) Hj. rewrite HL in Hj. destruct j as [|j]; simplify_eq/=.
  - exists e0. rewrite Nat.add_0_r. split_and!; [done|done|lia].
  - rewrite lookup_drop in Hj. exists e. split_and!; [|done|done].
    by rewrite <-Hj, Nat.add_succ_comm.
Qed.

Lemma tracks_entry g rf k e :
  0 ≤ DiscardCount rf → tracks g rf → entry_at rf k = Some e →
  0 ≤ k ∧ ∃ e', g !! Z.to_nat k = Some e' ∧ Term e' = Term e ∧ (DiscardCount rf < k → e' = e).
Proof.
  intros HD Htr He. unfold entry_at, RealIndex in He. case_match; [|done].
  destruct (tracks_index _ _ _ _ Htr He) as (e' & Hg & Ht & Heq). split; [zlia|]. exists e'. split_and!; [|done|].
  - rewrite <-Hg. f_equal. zlia.
  - intros. apply Heq. lia.
Qed.

(** Trimming to [index]. *)
Lemma tracks_drop g rf rf' index :
  0 ≤ DiscardCount rf < index → index ≤ RaftIndex rf (zlen (Logs rf) - 1) → tracks g rf →
  DiscardCount rf' = index → Logs rf' = drop (Z.to_nat (index - DiscardCount rf)) (Logs rf) → tracks g rf'.
Proof.
  intros HD Hi Htr HD' HL'. pose proof (tracks_length _ _ Htr) as Hlen.
  destruct Htr as (e0 & e & He0 & HL & _). unfold tracks. rewrite HD', HL'. unfold RaftIndex in Hi.
  destruct (lookup_lt_is_Some_2 g (Z.to_nat index)) as [x Hx]; [lia|].
  exists x, x. split_and!; [done| |done]. rewrite <-(drop_S g x (Z.to_nat index)) by done.
  rewrite HL. destruct (Z.to_nat (index - DiscardCount rf)) as [|c] eqn:Hc; [lia|]. simpl.
  rewrite drop_drop. f_equal. lia.
Qed.

Lemma tracks_append g rf rf' e :
  tracks g rf → DiscardCount rf' = DiscardCount rf → Logs rf' = Logs rf ++ [e] → tracks (g ++ [e]) rf'.
Proof.
  intros (e0 & e1 & He0 & HL & Ht) HD HL'. exists e0, e1. rewrite HD, HL', HL.
  pose proof (lookup_lt_Some _ _ _ He0). split_and!; [by apply lookup_app_l_Some| |done].
  simpl. by rewrite drop_app_le by lia.
Qed.

(** The merge of [ApplyEntries] is a merge of the whole log. *)
Lemma tracks_merge g rf rf' (p : nat) E :
  tracks g rf → (Z.to_nat (DiscardCount rf) ≤ p < length g)%nat →
  DiscardCount rf' = DiscardCount rf →
  Logs rf' = mergeLog (Logs rf) (S (p - Z.to_nat (DiscardCount rf))) E → tracks (mergeLog g (S p) E) rf'.
Proof.
  intros (e0 & e & He0 & HL & Ht) Hp HD HL'. unfold tracks. rewrite HD.
  set (d := Z.to_nat (DiscardCount rf)) in *. exists e0, e. split_and!; [|rewrite HL', HL|done].
  { rewrite mergeLog_prefix by lia. done. }
  unfold mergeLog. simpl. rewrite !drop_drop.
  replace (S d + (p - d))%nat with (S p) by lia. replace (S d + (p - d + length E))%nat with (S p + length E)%nat by lia.
  assert (take (p - d) (drop (S d) g) = drop (S d) (take (S p) g)) as ->.
  { by rewrite skipn_firstn_comm. }
  case_match; (rewrite drop_app_le; [done|rewrite length_take; lia]).
Qed.
End history.

(** ** What an operation does to the log *)
Section effects.
Context {C : Type} `{GobLaws Z} `{GobLaws (list (LogEntry C))}.
Implicit Types (rf : Raft C) (T : gmap Z (list (LogEntry C))).

Definition same_log rf rf' : Prop := Logs rf' = Logs rf ∧ DiscardCount rf' = DiscardCount rf.

(** The log is trimmed to [index]. *)
Definition trimmed rf rf' (index : Z) : Prop :=
  DiscardCount rf < index ∧ index ≤ RaftIndex rf (zlen (Logs rf) - 1) ∧ DiscardCount rf' = index ∧
  Logs rf' = drop (Z.to_nat (index - DiscardCount rf)) (Logs rf).

Lemma RequestVote_log rf args rf' r : RequestVote rf args = Ret (rf', r) → same_log rf rf'.
Proof. unfold RequestVote. intros Hret. go_inv; try done; split; simpl; by repeat case_match. Qed.

Lemma adoptTerm_log term rf : same_log rf (adoptTerm term rf).
Proof. split; apply adoptTerm_core. Qed.

Lemma ApplyEntries_log rf args rf' r :
  wf rf → valid_ae args → ApplyEntries rf args = Ret (rf', r) →
  same_log rf rf' ∨
  CurrentTerm rf ≤ ae_Term args ∧ prev_matches rf args ∧ CurrentTerm rf' = ae_Term args ∧
  DiscardCount rf' = DiscardCount rf ∧
  Logs rf' = mergeLog (Logs rf) (S (Z.to_nat (RealIndex rf (ae_PrevLogIndex args)))) (ae_Entries args).
Proof.
  intros Hwf Hv Hret. destruct (decide (ae_Term args < CurrentTerm rf)).
  { left. rewrite ApplyEntries_stale in Hret by done. by go_inv. }
  destruct (decide (ae_PrevLogIndex args < lastIncludedIndex rf)).
  { left. rewrite ApplyEntries_behind in Hret by (done || lia). go_inv. apply adoptTerm_log. }
  destruct (ReplicateCheck_prev rf args Hwf) as ([] & _ & Hiff).
  - right. destruct (ApplyEntries_accept rf args) as (rf1 & Hret' & _ & ? & _ & ? & _ & ?);
      [done|done|lia|by apply Hiff|]. rewrite Hret in Hret'. simplify_eq. split_and!; [lia|by apply Hiff|done..].
  - left. destruct (ApplyEntries_reject rf args) as (r1 & Hret' & _); [done|lia|lia|by rewrite <-Hiff|].
    rewrite Hret in Hret'. simplify_eq. apply adoptTerm_log.
Qed.

(** [doSnapshot] after [lastIncludedIndex] was moved to an index of the log. *)
Lemma doSnapshot_trims rf rf' rf0 :
  DiscardCount rf = DiscardCount rf0 → Logs rf = Logs rf0 → Logs rf ≠ [] →
  DiscardCount rf < lastIncludedIndex rf → lastIncludedIndex rf ≤ RaftIndex rf (zlen (Logs rf) - 1) →
  doSnapshot rf = Ret rf' → trimmed rf0 rf' (lastIncludedIndex rf).
Proof.
  intros HD HL Hne Hlt Hle Hret. rewrite doSnapshot_spec in Hret by done. injection Hret as <-.
  unfold trimmed, RaftIndex in *. rewrite <-HD, <-HL. split_and!; [done|done|done|]. simpl.
  f_equal. unfold covered. lia.
Qed.

Lemma Snapshot_log index snap rf rf' :
  wf rf → index ≤ RaftIndex rf (zlen (Logs rf) - 1) → Snapshot index snap rf = Ret rf' →
  same_log rf rf' ∨ trimmed rf rf' index.
Proof.
  intros Hwf Hi Hret. unfold Snapshot in Hret. destruct (index <=? _) eqn:Hle; [go_inv; by left|right].
  pose proof (wf_discard _ Hwf).
  apply (doSnapshot_trims _ _ rf) in Hret; simpl in *; [done|by repeat case_match..| | |];
    [by repeat case_match; apply Hwf|repeat case_match; simpl; zlia|].
  unfold RaftIndex in *. by repeat case_match.
Qed.

Lemma InstallSnapshot_log rf args rf' r :
  wf rf → InstallSnapshot rf args = Ret (rf', r) →
  same_log rf rf' ∨
  trimmed rf rf' (is_LastIncludedIndex args) ∨
  DiscardCount rf < is_LastIncludedIndex args ∧ DiscardCount rf' = is_LastIncludedIndex args ∧
  Logs rf' = [mkEntry None (is_LastIncludedTerm args)].
Proof.
  intros Hwf Hret. unfold InstallSnapshot in Hret. destruct (_ <? _); [go_inv; by left|].
  pose proof (adoptTerm_wf (is_Term args) rf Hwf) as Hwf1. destruct (adoptTerm_log (is_Term args) rf) as [HL HD].
  set (rf1 := adoptTerm _ _) in *. clearbody rf1. unfold trimmed, same_log, RaftIndex. rewrite <-HL, <-HD.
  destruct (_ >=? _) eqn:Hlt; [go_inv; by left|right]. pose proof (wf_discard _ Hwf1).
  apply bind_Ret_inv in Hret as (keep & Hkeep & Hret).
  apply bind_Ret_inv in Hret as (rf2 & Hdo & Hret). injection Hret as <- <-. destruct keep.
  - left. unfold RealIndex in Hkeep. simpl in Hkeep. destruct (_ && _) eqn:Hr; [|done].
    apply (doSnapshot_trims _ _ rf1) in Hdo; simpl in *; try done; [by apply Hwf1|zlia|unfold RaftIndex; simpl; zlia].
  - right. rewrite doSnapshot_spec in Hdo by done. injection Hdo as <-. simpl. unfold covered. simpl.
    rewrite Z.min_l, Z.max_l by lia. split_and!; [zlia|done..].
Qed.

(** How the role of a server and its term change together. *)
Inductive role_step rf rf' : Prop :=
  | role_same : CurrentTerm rf' = CurrentTerm rf → identity rf' = identity rf → role_step rf rf'
  | role_follow : CurrentTerm rf ≤ CurrentTerm rf' → identity rf' = FOLLOWER → role_step rf rf'
  | role_elect : CurrentTerm rf' = CurrentTerm rf + 1 → identity rf' = CANDIDATE → role_step rf rf'
  | role_win : CurrentTerm rf' = CurrentTerm rf → identity rf = CANDIDATE → identity rf' = LEADER →
      role_step rf rf'.

(** Replies do not touch the log. *)
Lemma updateCommittedIndex_same rf rf' :
  updateCommittedIndex rf = Ret rf' →
  same_log rf rf' ∧ CurrentTerm rf' = CurrentTerm rf ∧ identity rf' = identity rf.
Proof. unfold updateCommittedIndex. intros ?. by go_inv. Qed.

Lemma handleReply_log rf dst m r rf' :
  handleReply rf dst m r = Ret rf' → same_log rf rf' ∧ role_step rf rf'.
Proof.
  destruct m, r; simpl; intros Hret; try (go_inv; by split; [|apply role_same]).
  - unfold handleRequestVoteReply, becomeLeader in Hret.
    go_inv; (split; [done|]); try (by apply role_same); [apply role_follow; [simpl; zlia|done]|].
    b2p. apply role_win; [done| |done]. by eapply bool_decide_eq_true.
  - unfold handleApplyEntriesReply in Hret.
    go_inv; try (by split; [|apply role_same]); [split; [done|apply role_follow; [simpl; zlia|done]]|].
    apply updateCommittedIndex_same in Hret as (? & ? & ?). split; [done|by apply role_same].
  - unfold handleInstallSnapshotReply in Hret.
    go_inv; (split; [done|]); try (by apply role_same). apply role_follow; [simpl; zlia|done].
Qed.

(** Local steps other than [Start] and [Snapshot]. *)
Lemma Start_log command rf rf' r ms :
  Start command rf = Ret (rf', r, ms) →
  rf' = rf ∧ ms = [] ∨
  identity rf = LEADER ∧ rf' = persist (set_Logs (Logs rf ++ [mkEntry command (CurrentTerm rf)]) rf) ∧
  sendHeartBeat rf' = Ret ms.
Proof.
  unfold Start. intros Hret. go_inv; [by left| |by left]. right. split_and!; [done|done|done].
Qed.

Lemma tickHeartbeat_log rf rf' ms :
  tickHeartbeat rf = Ret (rf', ms) →
  same_log rf rf' ∧ CurrentTerm rf' = CurrentTerm rf ∧ identity rf' = identity rf ∧
  (ms = [] ∨ identity rf = LEADER ∧ sendHeartBeat (set_heartbeatTimer false rf) = Ret ms).
Proof.
  unfold tickHeartbeat. intros Hret. go_inv; split_and!; try done; [by right|by left].
Qed.

Lemma tickElection_log rf rf' ms :
  tickElection rf = Ret (rf', ms) →
  same_log rf rf' ∧
  (rf' = set_electionTimer false rf ∧ ms = [] ∨
   identity rf' = CANDIDATE ∧ CurrentTerm rf' = CurrentTerm rf + 1 ∧
   ∀ j m, (j, m) ∈ ms → ∃ args, m = RpcRequestVote args).
Proof.
  unfold tickElection, kickOffNewElection. intros Hret. go_inv; [by split; [|left]|]. split; [done|right].
  split_and!; [done|done|]. intros j m (? & ? & _)%list_elem_of_fmap. simplify_eq. by eexists.
Qed.
(** [sendHeartBeat] sends the end of the log, after an entry of the log. *)
Lemma heartBeatTo_args rf i m :
  wf rf → heartBeatTo rf i = Ret m →
  (∃ args e, m = RpcInstallSnapshot args ∧ is_Term args = CurrentTerm rf ∧
     is_LastIncludedIndex args = DiscardCount rf ∧ Logs rf !! 0%nat = Some e ∧
     Term e = is_LastIncludedTerm args) ∨
  (∃ args (j : nat) e, m = RpcApplyEntries args ∧ ae_Term args = CurrentTerm rf ∧ Logs rf !! j = Some e ∧
     ae_PrevLogIndex args = DiscardCount rf + Z.of_nat j ∧ ae_PrevLogTerm args = Term e ∧
     ae_Entries args = drop (S j) (Logs rf) ∧ ae_LeaderCommit args = committedIndex rf).
Proof.
  intros Hwf Hret. pose proof (wf_logs_len _ Hwf). pose proof (wf_discard _ Hwf).
  unfold heartBeatTo in Hret. apply bind_Ret_inv in Hret as (next & _ & Hret). destruct (_ <=? _) eqn:Hn.
  { apply bind_Ret_inv in Hret as (e & [_ He]%go_index_Ret & Hret). injection Hret as <-. left.
    eexists _, e. split_and!; done. }
  right. destruct (_ >=? _) eqn:Hlast.
  - destruct (next =? 0) eqn:?; [done|]. destruct (_ <? 0) eqn:Hp; [done|]. unfold RealIndex, RaftIndex in *.
    apply bind_Ret_inv in Hret as (e & [_ He]%go_index_Ret & Hret).
    rewrite go_slice_from_in_range, bind_Ret in Hret by zlia. injection Hret as <-.
    replace (Z.to_nat (next - DiscardCount rf)) with (S (Z.to_nat (next - 1 - DiscardCount rf))) by zlia.
    eexists _, _, e. split_and!; [done|done|exact He|simpl; zlia|done..].
  - unfold RealIndex, RaftIndex in *. apply bind_Ret_inv in Hret as (e & [_ He]%go_index_Ret & Hret).
    injection Hret as <-. eexists _, _, e. split_and!; [done|done|exact He|simpl; zlia|done| |done].
    rewrite drop_ge by zlia. done.
Qed.

Lemma sendHeartBeat_to rf ms j m :
  sendHeartBeat rf = Ret ms → (j, m) ∈ ms → heartBeatTo rf j = Ret m.
Proof.
  unfold sendHeartBeat. generalize (otherPeers rf). intros js. revert ms.
  induction js as [|i js IH]; intros ms Hret Hin; simpl in Hret; go_inv.
  - by apply not_elem_of_nil in Hin.
  - apply elem_of_cons in Hin as [?|?]; simplify_eq; eauto.
Qed.

(** *** Candidates *)

(** The server will not become leader of term [t] any more, unless it is. *)
Definition settled (t : Z) rf : Prop :=
  t < CurrentTerm rf ∨ t = CurrentTerm rf ∧ identity rf ≠ CANDIDATE.

(** Only elections make candidates and leaders. *)
Definition seated rf : Prop := identity rf ≠ FOLLOWER → 0 < CurrentTerm rf.

Lemma role_settled t rf rf' : role_step rf rf' → settled t rf → settled t rf'.
Proof.
  unfold settled. intros [HT HI|HT HI|HT HI|HT HC HI].
  - by rewrite HT, HI.
  - intros [?|[-> _]]; [left; lia|]. destruct (decide (CurrentTerm rf < CurrentTerm rf')); [by left|right].
    split; [lia|congruence].
  - intros ?. left. lia.
  - rewrite HT, HC, HI. intros [?|[_ ?]]; [by left|done].
Qed.

Lemma role_seated rf rf' : 0 ≤ CurrentTerm rf → role_step rf rf' → seated rf → seated rf'.
Proof.
  unfold seated. intros ? [HT HI|HT HI|HT HI|HT HC HI].
  - by rewrite HT, HI.
  - by rewrite HI.
  - intros _ _. lia.
  - rewrite HT, HC, HI. auto.
Qed.

Lemma vote_le_term rf rf' : vote_le rf rf' → CurrentTerm rf ≤ CurrentTerm rf'.
Proof. unfold vote_le. lia. Qed.

Lemma InstallSnapshot_identity rf args rf' r :
  InstallSnapshot rf args = Ret (rf', r) →
  rf' = rf ∨ identity rf' = FOLLOWER ∧ CurrentTerm rf' = is_Term args.
Proof.
  unfold InstallSnapshot. intros Hret. destruct (_ <? _) eqn:Hlt; [go_inv; by left|right].
  destruct (adoptTerm_core (is_Term args) rf) as (_ & _ & _ & _ & HI & _).
  pose proof (adoptTerm_term (is_Term args) rf ltac:(lia)) as HT.
  set (rf1 := adoptTerm _ _) in *. clearbody rf1. destruct (_ >=? _); [by go_inv|].
  apply bind_Ret_inv in Hret as (keep & _ & Hret).
  apply bind_Ret_inv in Hret as (rf2 & (L & ->)%doSnapshot_inv & Hret). injection Hret as <- <-.
  by destruct keep.
Qed.

Lemma ApplyEntries_identity rf args rf' r :
  ApplyEntries rf args = Ret (rf', r) →
  rf' = persist rf ∨ identity rf' = FOLLOWER ∧ CurrentTerm rf' = ae_Term args.
Proof.
  unfold ApplyEntries. intros Hret. destruct (_ >? _) eqn:Hlt; [go_inv; by left|right].
  destruct (adoptTerm_core (ae_Term args) rf) as (_ & _ & _ & _ & HI & _).
  pose proof (adoptTerm_term (ae_Term args) rf ltac:(lia)) as HT.
  set (rf1 := adoptTerm _ _) in *. clearbody rf1. unfold updateCommit in Hret.
  go_inv; try done; simpl; by repeat case_match.
Qed.

Lemma handle_role rf m rf' r : handle rf m = Ret (rf', r) → role_step rf rf'.
Proof.
  intros Hret. assert (CurrentTerm rf ≤ CurrentTerm rf') as Hle.
  { by eapply vote_le_term, ev_vote, step_evolves, handle_step. }
  destruct m; simpl in Hret; apply bind_Ret_inv in Hret as ([rf1 r1] & Hret & Heq); injection Heq as <- <-.
  - assert (identity rf1 = identity rf ∧ CurrentTerm rf1 = CurrentTerm rf ∨ identity rf1 = FOLLOWER) as [[??]|HF].
    { unfold RequestVote in Hret. go_inv; try (by left); simpl; repeat case_match; auto. }
    + by apply role_same.
    + by apply role_follow.
  - apply ApplyEntries_identity in Hret as [->|[HF _]]; [by apply role_same|by apply role_follow].
  - apply InstallSnapshot_identity in Hret as [->|[HF _]]; [by apply role_same|by apply role_follow].
Qed.

Lemma local_role ev rf rf' ms : local ev rf = Ret (rf', ms) → role_step rf rf'.
Proof.
  destruct ev; simpl; intros Hret.
  - apply bind_Ret_inv in Hret as ([[rf1 x] y] & Hs & Hret). injection Hret as <- <-.
    apply Start_log in Hs as [[-> _]|(_ & -> & _)]; by apply role_same.
  - apply tickElection_log in Hret as (_ & [[-> _]|(? & ? & _)]); [by apply role_same|by apply role_elect].
  - apply tickHeartbeat_log in Hret as (_ & ? & ? & _). by apply role_same.
  - apply bind_Ret_inv in Hret as ([rf1 x] & Ha & Hret). injection Hret as <- <-.
    apply applyLog_inv in Ha as (w & p & la & ->). by apply role_same.
  - apply bind_Ret_inv in Hret as (rf1 & Hs & Hret). injection Hret as <- <-. unfold Snapshot in Hs.
    destruct (_ <=? _); [injection Hs as <-; by apply role_same|]. apply doSnapshot_inv in Hs as (L & ->).
    apply role_same; simpl; by repeat case_match.
  - injection Hret as <- <-. by apply role_same.
Qed.
End effects.

(** ** The invariant *)
Section matching.
Context {C : Type} `{GobLaws Z} `{GobLaws (list (LogEntry C))}.
Implicit Types (rf : Raft C) (net : Net C) (nd : Node C) (c : Call C) (T : gmap Z (list (LogEntry C))).

(** What a request says about the log of the leader of its term. *)
Definition carries T (m : Rpc C) : Prop :=
  match m with
  | RpcRequestVote _ => True
  | RpcApplyEntries args => ∃ L (p : nat) e, T !! ae_Term args = Some L ∧ ae_PrevLogIndex args = Z.of_nat p ∧
      L !! p = Some e ∧ Term e = ae_PrevLogTerm args ∧ ae_Entries args `prefix_of` drop (S p) L
  | RpcInstallSnapshot args => ∃ L (p : nat) e, T !! is_Term args = Some L ∧ is_LastIncludedIndex args = Z.of_nat p ∧
      L !! p = Some e ∧ Term e = is_LastIncludedTerm args
  end.

Lemma carries_grows T T' m : grows T T' → carries T m → carries T' m.
Proof.
  intros HG. destruct m; simpl; [done|intros (L & p & e & HL & Hp & He & Ht & HE)|intros (L & p & e & HL & Hp & He & Ht)];
    destruct (HG _ _ HL) as (L' & HL' & HP); exists L', p, e; split_and!; try done;
    try (by eapply prefix_lookup_Some).
  destruct HP as [r ->]. rewrite drop_app_le by (apply lookup_lt_Some in He; lia). by apply prefix_app_r.
Qed.

(** Server [i] won the election of term [t], and will not win it again. *)
Definition elected (n : nat) net (t : Z) : Prop :=
  ∃ (i : nat) nd (S : gset Z), nodes net !! i = Some nd ∧ 2 * Z.of_nat (size S) > Z.of_nat n ∧
    backed net i t S ∧ (t, Z.of_nat i, Z.of_nat i) ∈ ballots net ∧ settled t (raft nd).

Record log_inv (n : nat) net T : Prop := mkLogInv {
  lg_base : T !! 0 = Some [zeroEntry];
  lg_hist t L : T !! t = Some L → clog T L;
  lg_elected t : is_Some (T !! t) → t ≠ 0 → elected n net t;
  lg_node i nd : nodes net !! i = Some nd → seated (raft nd) ∧ ∃ g, clog T g ∧ tracks g (raft nd);
  lg_leader i nd : nodes net !! i = Some nd → identity (raft nd) = LEADER →
    ∃ L, T !! CurrentTerm (raft nd) = Some L ∧ tracks L (raft nd);
  lg_calls k c : calls net !! k = Some c → carries T (c_rpc c);
}.

(** One server changes. *)
Lemma log_inv_update n net net' T T' i nd nd' :
  log_inv n net T → nodes net !! i = Some nd → nodes net' = <[i := nd']> (nodes net) →
  (∀ b, b ∈ ballots net → b ∈ ballots net') → grows T T' → T' !! 0 = T !! 0 →
  (∀ t L, T' !! t = Some L → clog T' L) →
  (∀ t, is_Some (T' !! t) → is_Some (T !! t) ∨ elected n net' t) →
  (∀ t, settled t (raft nd) → (t, Z.of_nat i, Z.of_nat i) ∈ ballots net → settled t (raft nd')) →
  (seated (raft nd) → seated (raft nd')) →
  (∃ g, clog T' g ∧ tracks g (raft nd')) →
  (identity (raft nd') = LEADER → ∃ L, T' !! CurrentTerm (raft nd') = Some L ∧ tracks L (raft nd')) →
  (∀ j nd1, j ≠ i → nodes net !! j = Some nd1 → identity (raft nd1) = LEADER →
     T' !! CurrentTerm (raft nd1) = T !! CurrentTerm (raft nd1)) →
  (∀ k c, calls net' !! k = Some c → carries T' (c_rpc c)) →
  log_inv n net' T'.
Proof.
  intros [Hb Hh He Hn Hl _] Hi HN HB HG H0' Hh' He' Hset Hseat Hlog Hlead Hother Hcalls.
  pose proof (lookup_lt_Some _ _ _ Hi) as Hlt. split; [by rewrite H0'|done| | | |done].
  - intros t Ht Hne. destruct (He' t Ht) as [Hold|?]; [|done].
    destruct (He t Hold Hne) as (j & nd1 & S & Hj & HS & Hbk & Hself & Hs).
    assert (backed net' j t S) by (by eapply backed_mono). destruct (decide (j = i)) as [->|Hji].
    + exists i, nd', S. rewrite HN, list_lookup_insert_eq by done. simplify_eq. split_and!; auto.
    + exists j, nd1, S. rewrite HN, list_lookup_insert_ne by done. split_and!; auto.
  - intros j nd1. rewrite HN. intros [(<- & <- & _)|[Hne Hj]]%list_lookup_insert_Some.
    + split; [|done]. apply Hseat. by eapply Hn.
    + destruct (Hn j nd1 Hj) as [? (g & ? & ?)]. split; [done|]. exists g. split; [by eapply clog_grows|done].
  - intros j nd1. rewrite HN. intros [(<- & <- & _)|[Hne Hj]]%list_lookup_insert_Some Hid; [auto|].
    rewrite (Hother j nd1) by done. by eapply Hl.
Qed.

(** A server that keeps its log and its leadership. *)
Lemma log_inv_quiet n net net' T i nd nd' :
  log_inv n net T → nodes net !! i = Some nd → nodes net' = <[i := nd']> (nodes net) →
  (∀ b, b ∈ ballots net → b ∈ ballots net') →
  (∀ t, settled t (raft nd) → (t, Z.of_nat i, Z.of_nat i) ∈ ballots net → settled t (raft nd')) →
  (seated (raft nd) → seated (raft nd')) →
  (∃ g, clog T g ∧ tracks g (raft nd')) →
  (identity (raft nd') = LEADER → ∃ L, T !! CurrentTerm (raft nd') = Some L ∧ tracks L (raft nd')) →
  (∀ k c, calls net' !! k = Some c → carries T (c_rpc c)) →
  log_inv n net' T.
Proof.
  intros Hinv Hi HN HB Hs Hse Hg Hl Hc. eapply (log_inv_update n net net' T T i nd nd'); try done; [apply Hinv|auto].
Qed.
(** *** Local steps *)

(** A service only takes snapshots of what the log reaches. *)
Definition in_log (ev : Local C) rf : Prop :=
  well_formed ev rf ∧
  match ev with LSnapshot index _ => index ≤ RaftIndex rf (zlen (Logs rf) - 1) | _ => True end.

Definition log_step : Net C → Net C → Prop := net_step_if in_log.

Lemma send_calls i nd rf' ms net k c :
  calls (send i nd rf' ms net) !! k = Some c →
  calls net !! k = Some c ∨ ∃ j m, (j, m) ∈ ms ∧ c = mkCall i (epoch nd) j m None.
Proof.
  simpl. rewrite add_calls_lookup. case_decide; [|by left].
  intros ([j m] & Hjm & ->)%fmap_Some. right. exists j, m. split; [by eapply list_elem_of_lookup_2|done].
Qed.

Lemma sends_carried T i nd rf' ms net :
  (∀ k c, calls net !! k = Some c → carries T (c_rpc c)) → (∀ j m, (j, m) ∈ ms → carries T m) →
  ∀ k c, calls (send i nd rf' ms net) !! k = Some c → carries T (c_rpc c).
Proof. intros Hold Hnew k c [Hk|(j & m & Hjm & ->)]%send_calls; [by eapply Hold|by eapply Hnew]. Qed.

Lemma heartbeat_carries T rf L ms j m :
  wf rf → T !! CurrentTerm rf = Some L → tracks L rf → sendHeartBeat rf = Ret ms → (j, m) ∈ ms → carries T m.
Proof.
  intros Hwf HL Htr Hret Hin. pose proof (wf_discard _ Hwf). pose proof (wf_lii _ Hwf).
  pose proof (sendHeartBeat_to _ _ _ _ Hret Hin) as Hm.
  destruct (heartBeatTo_args _ _ _ Hwf Hm) as [(args & e & -> & HT & Hi & He & Ht)
    |(args & k & e & -> & HT & He & Hp & Ht & HE & _)]; simpl; rewrite HT, HL.
  - destruct (tracks_index _ _ _ _ Htr He) as (e' & He' & Ht' & _). rewrite Nat.add_0_r in He'.
    exists L, (Z.to_nat (DiscardCount rf)), e'. split_and!; [done|lia|done|congruence].
  - destruct (tracks_index _ _ _ _ Htr He) as (e' & He' & Ht' & _).
    exists L, (Z.to_nat (DiscardCount rf) + k)%nat, e'. split_and!; [done|lia|done|congruence|].
    destruct Htr as (e0 & e1 & _ & HLogs & _). rewrite HE, HLogs. simpl. by rewrite drop_drop, <-Nat.add_succ_l.
Qed.

Lemma cast_grows net i nd rf' ms b : b ∈ ballots net → b ∈ ballots (send i nd rf' ms net).
Proof. intros. simpl. apply elem_of_app. by right. Qed.

Lemma leaders_distinct n net i j nd nd1 :
  net_inv n net → nodes net !! i = Some nd → nodes net !! j = Some nd1 → identity (raft nd) = LEADER →
  identity (raft nd1) = LEADER → CurrentTerm (raft nd1) = CurrentTerm (raft nd) → j = i.
Proof.
  intros Hnet Hi Hj Hid Hid1 Ht. destruct (co_leader _ _ (ni_counters _ _ Hnet) i nd Hi Hid) as (S & HS & Hb).
  destruct (co_leader _ _ (ni_counters _ _ Hnet) j nd1 Hj Hid1) as (S1 & HS1 & Hb1). rewrite Ht in Hb1.
  exact (backed_unique n net j i _ S1 S Hnet HS1 HS Hb1 Hb).
Qed.

(** A leader appends. *)
Lemma log_inv_append n net T i nd command r rf' ms :
  net_inv n net → log_inv n net T → nodes net !! i = Some nd → identity (raft nd) = LEADER →
  Start command (raft nd) = Ret (rf', r, ms) → rf' = persist (set_Logs (Logs (raft nd) ++ [mkEntry command (CurrentTerm (raft nd))]) (raft nd)) →
  sendHeartBeat rf' = Ret ms →
  ∃ L, T !! CurrentTerm (raft nd) = Some L ∧ tracks L (raft nd) ∧
    let T' := <[CurrentTerm (raft nd) := L ++ [mkEntry command (CurrentTerm (raft nd))]]> T in
    grows T T' ∧ log_inv n (send i nd rf' ms net) T'.
Proof.
  intros Hnet Hinv Hi Hid Hret Heq Hsend. destruct (lg_leader _ _ _ Hinv i nd Hi Hid) as (L & HL & Htr).
  exists L. split_and!; [done|done|]. set (t := CurrentTerm (raft nd)) in *. set (e := mkEntry command t) in *. simpl.
  destruct (clog_append T L t e HL eq_refl (lg_hist _ _ _ Hinv t L HL)) as [HG Hc]. split; [done|].
  assert (tracks (L ++ [e]) rf') as Htr' by (eapply tracks_append; [exact Htr|by rewrite Heq..]).
  pose proof (ni_nodes _ _ Hnet i nd Hi) as Hok.
  assert (0 < t) as Ht0.
  { destruct (lg_node _ _ _ Hinv i nd Hi) as [Hs _]. apply Hs. congruence. }
  assert (wf rf') as Hwf'.
  { destruct (Start_safe (raft nd) command) as (? & ? & ? & Hret' & ? & _); [apply Hok|].
    rewrite Hret in Hret'. by simplify_eq. }
  eapply (log_inv_update n net _ T _ i nd (mkNode rf' (epoch nd))); try done.
  - intros b. by apply cast_grows.
  - by rewrite lookup_insert_ne by lia.
  - intros u L' [[<- <-]|[Hne HL']]%lookup_insert_Some; [done|]. eapply clog_grows; [done|by eapply lg_hist].
  - intros u [<-|[_ Hu]]%lookup_insert_is_Some; [left; by eexists|by left].
  - intros u Hs _. simpl. eapply role_settled, Hs. rewrite Heq. by apply role_same.
  - intros Hs. simpl. eapply role_seated, Hs; [apply Hok|]. rewrite Heq. by apply role_same.
  - by exists (L ++ [e]).
  - intros _. exists (L ++ [e]). simpl. rewrite Heq at 1. simpl. by rewrite lookup_insert_eq.
  - intros j nd1 Hne Hj Hid1. rewrite lookup_insert_ne; [done|]. intros Ht. destruct Hne.
    by eapply (leaders_distinct n net).
  - apply sends_carried.
    + intros k c Hk. eapply carries_grows; [done|by eapply lg_calls].
    + intros j m Hjm. eapply (heartbeat_carries _ rf' (L ++ [e])); [done| |done|done|done].
      rewrite Heq. simpl. by rewrite lookup_insert_eq.
Qed.
(** A server keeps its log, perhaps trimmed, and does not win an election. *)
Lemma log_inv_keep n net net' T i nd nd' :
  net_inv n net → log_inv n net T → nodes net !! i = Some nd → nodes net' = <[i := nd']> (nodes net) →
  (∀ b, b ∈ ballots net → b ∈ ballots net') → role_step (raft nd) (raft nd') →
  (identity (raft nd) = CANDIDATE → identity (raft nd') ≠ LEADER) →
  (∀ g, tracks g (raft nd) → tracks g (raft nd')) →
  (∀ k c, calls net' !! k = Some c → carries T (c_rpc c)) → log_inv n net' T.
Proof.
  intros Hnet Hinv Hi HN HB Hrole Hwin Htr Hc. pose proof (ni_nodes _ _ Hnet i nd Hi) as Hok.
  eapply (log_inv_quiet n net net' T i nd nd'); try done.
  - intros t Hs _. by eapply role_settled.
  - intros Hs. eapply role_seated; [apply Hok|done|done].
  - destruct (lg_node _ _ _ Hinv i nd Hi) as [_ (g & Hg & Hgt)]. exists g. auto.
  - intros HL. destruct Hrole as [HT HI|HT HI|HT HI|HT HC HI]; [|congruence|congruence|by apply Hwin in HC].
    rewrite HI in HL. destruct (lg_leader _ _ _ Hinv i nd Hi HL) as (L & HLt & HLtr). exists L.
    rewrite HT. auto.
Qed.

Lemma trimmed_tracks rf rf' index g : 0 ≤ DiscardCount rf → trimmed rf rf' index → tracks g rf → tracks g rf'.
Proof. intros ? (? & ? & ? & ?) ?. by eapply tracks_drop. Qed.

Lemma wf_discard_nonneg rf : wf rf → 0 ≤ DiscardCount rf.
Proof. intros Hwf. rewrite (wf_discard _ Hwf). apply Hwf. Qed.

Lemma local_keeps_log ev rf rf' ms :
  wf rf → in_log ev rf → local ev rf = Ret (rf', ms) →
  ((∀ g, tracks g rf → tracks g rf') ∧ ∀ command, ev = LStart command → rf' = rf) ∨
  ∃ command, ev = LStart command ∧ identity rf = LEADER ∧
    rf' = persist (set_Logs (Logs rf ++ [mkEntry command (CurrentTerm rf)]) rf) ∧ sendHeartBeat rf' = Ret ms.
Proof.
  intros Hwf [_ Hin] Hret. assert (same_log rf rf' → ∀ g, tracks g rf → tracks g rf') as Hsame.
  { intros [??] g. by apply tracks_same. }
  destruct ev; simpl in Hret.
  - apply bind_Ret_inv in Hret as ([[rf1 x] y] & Hs & Hret). injection Hret as <- <-.
    apply Start_log in Hs as [[-> _]|(? & ? & ?)]; [left; split; [by apply Hsame|done]|right]. by eexists.
  - left. split; [|done]. apply Hsame. by apply tickElection_log in Hret as [? _].
  - left. split; [|done]. apply Hsame. by apply tickHeartbeat_log in Hret as [? _].
  - left. split; [|done]. apply bind_Ret_inv in Hret as ([rf1 x] & Ha & Hret). injection Hret as <- <-.
    apply applyLog_inv in Ha as (w & p & la & ->). by apply Hsame.
  - left. split; [|done]. apply bind_Ret_inv in Hret as (rf1 & Hs & Hret). injection Hret as <- <-.
    apply Snapshot_log in Hs as [?|?]; [by apply Hsame| |done|done].
    intros g. eapply trimmed_tracks; [by apply wf_discard_nonneg|done].
  - left. split; [|done]. apply Hsame. injection Hret as <- <-. done.
Qed.

Lemma local_carries n net T i nd ev rf' ms j m :
  net_inv n net → log_inv n net T → nodes net !! i = Some nd → local ev (raft nd) = Ret (rf', ms) →
  (∀ command, ev = LStart command → rf' = raft nd) → (j, m) ∈ ms → carries T m.
Proof.
  intros Hnet Hinv Hi Hret Hns Hjm. destruct ev; simpl in Hret.
  - rewrite (Hns command) in Hret by done.
    apply bind_Ret_inv in Hret as ([[rf1 x] y] & Hs & Hret). injection Hret as -> ->.
    apply Start_log in Hs as [[_ -> ]|(_ & Heq & _)]; [by apply not_elem_of_nil in Hjm|].
    apply (f_equal (length ∘ Logs)) in Heq. simpl in Heq. rewrite length_app in Heq. simpl in Heq. lia.
  - apply tickElection_log in Hret as (_ & [[_ -> ]|(_ & _ & Hms)]); [by apply not_elem_of_nil in Hjm|].
    by destruct (Hms j m Hjm) as [args ->].
  - apply tickHeartbeat_log in Hret as (_ & _ & _ & [-> | [Hid Hs]]); [by apply not_elem_of_nil in Hjm|].
    destruct (lg_leader _ _ _ Hinv i nd Hi Hid) as (L & HL & Htr).
    eapply (heartbeat_carries T (set_heartbeatTimer false (raft nd)) L); [|done|done|done|done].
    eapply wf_core, ni_nodes; [|done|done]. done.
  - apply bind_Ret_inv in Hret as ([rf1 x] & Ha & Hret). injection Hret as <- <-. by apply not_elem_of_nil in Hjm.
  - apply bind_Ret_inv in Hret as (rf1 & Hs & Hret). injection Hret as <- <-. by apply not_elem_of_nil in Hjm.
  - injection Hret as <- <-. by apply not_elem_of_nil in Hjm.
Qed.

Lemma local_never_wins ev rf rf' ms : local ev rf = Ret (rf', ms) → identity rf = CANDIDATE → identity rf' ≠ LEADER.
Proof.
  intros Hret HC HL. destruct (local_quiet _ _ _ _ Hret) as [[Hq _]|(_ & HI & _)]; [|congruence].
  apply q_leader in Hq; [|done]. destruct Hq. congruence.
Qed.

Lemma log_inv_local n net T i nd ev rf' ms :
  net_inv n net → log_inv n net T → nodes net !! i = Some nd → local ev (raft nd) = Ret (rf', ms) →
  (∀ g, tracks g (raft nd) → tracks g rf') → (∀ command, ev = LStart command → rf' = raft nd) →
  log_inv n (send i nd rf' ms net) T.
Proof.
  intros Hnet Hinv Hi Hret Htr Hns.
  eapply (log_inv_keep n net _ T i nd (mkNode rf' (epoch nd))); try done.
  - intros b. by apply cast_grows.
  - by eapply local_role.
  - by eapply local_never_wins.
  - apply sends_carried; [by apply Hinv|]. intros j m. by eapply local_carries.
Qed.
(** *** Requests *)

(** Where an accepted request joins the log. *)
Lemma prev_in_log g rf args (p : nat) :
  wf rf → tracks g rf → prev_matches rf args → ae_PrevLogIndex args = Z.of_nat p →
  (Z.to_nat (DiscardCount rf) ≤ p < length g)%nat ∧
  ∃ e, g !! p = Some e ∧ Term e = ae_PrevLogTerm args.
Proof.
  intros Hwf Htr (e & He & Ht) Hp. pose proof (wf_discard_nonneg _ Hwf) as HD. rewrite Hp in He.
  destruct (tracks_entry _ _ _ _ HD Htr He) as (_ & e' & He' & Ht' & _). rewrite Nat2Z.id in He'.
  pose proof (lookup_lt_Some _ _ _ He'). unfold entry_at in He. case_match; [|done]. split; [zlia|].
  exists e'. split; [done|congruence].
Qed.

Lemma merged_tracks g rf rf' args (p : nat) :
  wf rf → tracks g rf → prev_matches rf args → ae_PrevLogIndex args = Z.of_nat p →
  DiscardCount rf' = DiscardCount rf →
  Logs rf' = mergeLog (Logs rf) (S (Z.to_nat (RealIndex rf (ae_PrevLogIndex args)))) (ae_Entries args) →
  tracks (mergeLog g (S p) (ae_Entries args)) rf'.
Proof.
  intros Hwf Htr Hprev Hp HD HL. destruct (prev_in_log _ _ _ _ Hwf Htr Hprev Hp) as [Hr _].
  pose proof (wf_discard_nonneg _ Hwf). eapply tracks_merge; [exact Htr|done|done|].
  rewrite HL, Hp. unfold RealIndex. do 2 f_equal. lia.
Qed.

Lemma handle_keeps_log T g rf m rf' r :
  wf rf → valid_rpc m → clog T g → tracks g rf → (∀ t L, T !! t = Some L → clog T L) → carries T m →
  handle rf m = Ret (rf', r) → ∃ g', clog T g' ∧ tracks g' rf'.
Proof.
  intros Hwf Hv Hg Htr HT Hc Hret. pose proof (wf_discard_nonneg _ Hwf) as HD.
  destruct m as [args|args|args]; simpl in Hret, Hc;
    apply bind_Ret_inv in Hret as ([rf1 r1] & Hret & Heq); injection Heq as <- <-.
  - exists g. split; [done|]. apply RequestVote_log in Hret as [??]. by eapply tracks_same.
  - destruct Hc as (L & p & e & HL & Hp & He & Ht & HE).
    apply ApplyEntries_log in Hret as [[? ?]|(_ & Hprev & _ & HD' & HL')]; [ | |done|done].
    { exists g. split; [done|by eapply tracks_same]. }
    destruct (prev_in_log _ _ _ _ Hwf Htr Hprev Hp) as (_ & e0 & He0 & Ht0).
    exists (mergeLog g (S p) (ae_Entries args)). split; [|by eapply merged_tracks].
    destruct (merge_cases T g L (ae_Entries args) p e0 e) as (_ & _ & [[-> _]|[-> _]]);
      [done|by eapply HT|done|done|congruence|done|done|]. apply clog_take. by eapply HT.
  - destruct Hc as (L & p & e & HL & Hp & He & Ht).
    apply InstallSnapshot_log in Hret as [[? ?]|[?|(Hlt & HD' & HL')]]; [| | |done].
    + exists g. split; [done|by eapply tracks_same].
    + exists g. split; [done|by eapply trimmed_tracks].
    + exists (take (S p) L). split; [apply clog_take; by eapply HT|]. unfold tracks. rewrite HD', HL', Hp, Nat2Z.id.
      exists e, (mkEntry None (is_LastIncludedTerm args)). split_and!; [by rewrite lookup_take_lt by lia| |done].
      by rewrite drop_ge by (rewrite length_take; lia).
Qed.

Lemma handle_never_wins rf m rf' r : handle rf m = Ret (rf', r) → identity rf = CANDIDATE → identity rf' ≠ LEADER.
Proof. intros Hret%handle_quiet HC HL. apply q_leader in Hret; [|done]. destruct Hret. congruence. Qed.

Lemma handle_stays_leader rf m rf' r :
  handle rf m = Ret (rf', r) → identity rf' = LEADER → identity rf = LEADER ∧ CurrentTerm rf' = CurrentTerm rf.
Proof. intros Hret%handle_quiet HL. by apply q_leader in Hret. Qed.

(** A server that is leader after a request kept its log. *)
Lemma handle_leader_log rf m rf' r :
  wf rf → valid_rpc m → handle rf m = Ret (rf', r) → identity rf' = LEADER → same_log rf rf'.
Proof.
  intros Hwf Hv Hret HL. destruct m as [args|args|args]; simpl in Hret;
    apply bind_Ret_inv in Hret as ([rf1 r1] & Hret & Heq); injection Heq as <- <-.
  - by eapply RequestVote_log.
  - apply ApplyEntries_identity in Hret as [->|[HF _]]; [done|congruence].
  - apply InstallSnapshot_identity in Hret as [->|[HF _]]; [done|congruence].
Qed.

Lemma log_inv_deliver n net T k c nd rf' r :
  net_inv n net → log_inv n net T → calls net !! k = Some c →
  nodes net !! Z.to_nat (c_dst c) = Some nd → handle (raft nd) (c_rpc c) = Ret (rf', r) →
  log_inv n (answer k c nd rf' r net) T.
Proof.
  intros Hnet Hinv Hk Hi Hret. pose proof (ni_nodes _ _ Hnet _ nd Hi) as Hok.
  pose proof (cl_rpc _ _ _ _ (ni_calls _ _ Hnet k c Hk)) as Hv.
  eapply (log_inv_quiet n net _ T _ nd (mkNode rf' (epoch nd))); [done|exact Hi|done|..].
  - intros b Hb. simpl. apply elem_of_app. by right.
  - intros t Hs _. by eapply role_settled, Hs; eapply handle_role.
  - intros Hs. by eapply role_seated, Hs; [apply Hok|]; eapply handle_role.
  - destruct (lg_node _ _ _ Hinv _ nd Hi) as [_ (g & Hg & Hgt)].
    eapply handle_keeps_log; [apply Hok|done|done|done|apply Hinv|by eapply lg_calls|done].
  - intros HL. simpl in *. destruct (handle_stays_leader _ _ _ _ Hret HL) as [HL0 ->].
    destruct (lg_leader _ _ _ Hinv _ nd Hi HL0) as (L & HLt & HLtr). exists L. split; [done|].
    destruct (handle_leader_log _ _ _ _ (no_wf _ _ _ Hok) Hv Hret HL). by eapply tracks_same.
  - intros k' c' [[_ <-]|[_ Hk']]%answer_calls; simpl; by eapply lg_calls.
Qed.

(** *** Replies, losses and restarts *)

(** The candidate wins: its log becomes the log of the term. *)
Lemma log_inv_win n net T k c nd r rf' :
  net_inv n net → net_inv n (receive k (c_src c) nd rf' net) → log_inv n net T →
  nodes net !! c_src c = Some nd → handleReply (raft nd) (c_dst c) (c_rpc c) r = Ret rf' →
  identity (raft nd) = CANDIDATE → identity rf' = LEADER →
  T !! CurrentTerm rf' = None ∧ CurrentTerm rf' = CurrentTerm (raft nd) ∧
  ∃ g, clog T g ∧ tracks g rf' ∧
    grows T (<[CurrentTerm rf' := g]> T) ∧ log_inv n (receive k (c_src c) nd rf' net) (<[CurrentTerm rf' := g]> T).
Proof.
  intros Hnet Hnet' Hinv Hi Hret HC HL. pose proof (ni_nodes _ _ Hnet _ nd Hi) as Hok.
  pose proof (lookup_lt_Some _ _ _ Hi) as Hlt.
  destruct (handleReply_log _ _ _ _ _ Hret) as [[HLg HD] Hrole]. set (net' := receive _ _ _ _ _) in *.
  assert (CurrentTerm rf' = CurrentTerm (raft nd)) as HT by (destruct Hrole; congruence).
  assert (nodes net' !! c_src c = Some (mkNode rf' (epoch nd))) as Hi' by (by apply list_lookup_insert_eq).
  destruct (co_leader _ _ (ni_counters _ _ Hnet') _ _ Hi' HL) as (S & HS & Hbk). simpl in Hbk.
  destruct (lg_node _ _ _ Hinv _ nd Hi) as [Hseat (g & Hg & Hgt)].
  assert (0 < CurrentTerm rf') as Ht0 by (rewrite HT; apply Hseat; congruence).
  assert (∀ b, b ∈ ballots net → b ∈ ballots net') as Hb by (intros b Hb; apply elem_of_app; by right).
  assert (T !! CurrentTerm rf' = None) as HN.
  { destruct (T !! CurrentTerm rf') as [L|] eqn:E; [exfalso|done].
    destruct (lg_elected _ _ _ Hinv (CurrentTerm rf')) as (j & nd1 & S1 & Hj & HS1 & Hbk1 & _ & Hset); [by eexists|lia|].
    assert (j = c_src c) as ->.
    { eapply (backed_unique n net' _ _ _ S1 S Hnet'); [done|done| |done]. by eapply backed_mono. }
    rewrite Hi in Hj. injection Hj as <-. destruct Hset as [?|[_ ?]]; [lia|done]. }
  assert (grows T (<[CurrentTerm rf' := g]> T)) as HG by by apply grows_insert.
  split_and!; [done|done|]. exists g. split_and!; [done|by eapply tracks_same|done|].
  eapply (log_inv_update n net net' T _ (c_src c) nd (mkNode rf' (epoch nd))); try done.
  - by rewrite lookup_insert_ne by lia.
  - intros t L [[<- <-]|[_ HLt]]%lookup_insert_Some; (eapply clog_grows; [done|]); [done|by eapply lg_hist].
  - intros t [<-|[_ ?]]%lookup_insert_is_Some; [right|by left]. exists (c_src c), (mkNode rf' (epoch nd)), S.
    split_and!; [done|done|done| |right; simpl; split; [done|congruence]].
    pose proof (no_self _ _ _ (ni_nodes _ _ Hnet' _ _ Hi')) as Hself. simpl in Hself.
    pose proof (no_me _ _ _ (ni_nodes _ _ Hnet' _ _ Hi')) as Hme. simpl in Hme.
    apply elem_of_app. left. apply elem_of_cast. rewrite Hself, Hme by congruence.
    split_and!; [unfold Unvote; lia|done..].
  - intros t Hs _. by eapply role_settled.
  - intros Hs. by eapply role_seated; [apply Hok|..].
  - exists g. split; [by eapply clog_grows|by eapply tracks_same].
  - intros _. exists g. split; [by rewrite lookup_insert_eq|by eapply tracks_same].
  - intros j nd1 _ Hj Hid. rewrite lookup_insert_ne; [done|]. intros Heq.
    destruct (lg_leader _ _ _ Hinv j nd1 Hj Hid) as (L & HL1 & _). congruence.
  - intros k' c' [_ Hk']%receive_calls. eapply carries_grows; [done|by eapply lg_calls].
Qed.

Lemma log_inv_reply n net T k c nd r rf' :
  net_inv n net → log_inv n net T → nodes net !! c_src c = Some nd →
  handleReply (raft nd) (c_dst c) (c_rpc c) r = Ret rf' →
  (identity (raft nd) = CANDIDATE → identity rf' ≠ LEADER) →
  log_inv n (receive k (c_src c) nd rf' net) T.
Proof.
  intros Hnet Hinv Hi Hret Hwin. destruct (handleReply_log _ _ _ _ _ Hret) as [[HLg HD] Hrole].
  eapply (log_inv_keep n net _ T _ nd (mkNode rf' (epoch nd))); try done.
  - intros b Hb. apply elem_of_app. by right.
  - intros g. by apply tracks_same.
  - intros k' c' [_ Hk']%receive_calls. by eapply lg_calls.
Qed.

Lemma log_inv_drop n net T k : log_inv n net T → log_inv n (with_calls (delete k) (next_call net) net) T.
Proof.
  intros [? ? ? ? ? Hc]. split; try done. intros k' c. simpl. intros [_ ?]%lookup_delete_Some. by eapply Hc.
Qed.

Lemma log_inv_restart n net T i nd rf' :
  net_inv n net → log_inv n net T → nodes net !! i = Some nd →
  Make (peers (raft nd)) (me (raft nd)) (persister (raft nd)) = Ret rf' →
  log_inv n (mkNet (<[i := mkNode rf' (S (epoch nd))]> (nodes net)) (calls net) (next_call net)
               (cast rf' ++ ballots net)) T.
Proof.
  intros Hnet Hinv Hi Hret. destruct (ni_nodes _ _ Hnet i nd Hi) as [_ _ Hwf Hdur Hdisk _ _].
  destruct (Make_recovers _ Hwf Hdur Hdisk) as (t' & v' & Hb & _ & Hret' & _).
  rewrite Hret in Hret'. injection Hret' as ->.
  eapply (log_inv_quiet n net _ T i nd); [done|done|done|..]; simpl.
  - intros b Hbl. apply elem_of_app. by right.
  - intros t _ Hbal. destruct (bo_held _ (ni_ballots _ _ Hnet) _ _ _ Hbal) as (_ & j & nd1 & Hij & Hj & Hh).
    assert (j = i) as -> by lia. rewrite Hi in Hj. injection Hj as <-. unfold held in Hh. rewrite Hb in Hh.
    unfold settled. simpl. destruct Hh as [?|[-> _]]; [by left|by right].
  - intros _ ?. done.
  - destruct (lg_node _ _ _ Hinv i nd Hi) as [_ (g & Hg & Htr)]. exists g. split; [done|].
    eapply tracks_same, Htr; [done|]. simpl. by rewrite (wf_discard _ Hwf).
  - done.
  - apply Hinv.
Qed.
(** *** Runs *)

Lemma log_step_net net net' : log_step net net' → net_step net net'.
Proof. apply net_step_mono. by intros ev rf []. Qed.

Lemma log_steps_net net net' : rtc log_step net net' → rtc net_step net net'.
Proof. apply rtc_subrel. intros ??. apply log_step_net. Qed.

Definition log_reachable (n : nat) net : Prop := ∃ net0, net_init n net0 ∧ rtc log_step net0 net.

Lemma log_inv_step n net net' T :
  log_step net net' → net_inv n net → log_inv n net T → ∃ T', grows T T' ∧ log_inv n net' T'.
Proof.
  intros Hstep Hnet Hinv. pose proof (net_inv_step _ _ _ (log_step_net _ _ Hstep) Hnet) as Hnet'.
  destruct Hstep as [net i nd ev rf' ms Hi Hret Hok|net k c nd rf' r Hk Hrep Hi Hret
    |net k c nd r rf' Hk Hrep Hi He Hret|net k|net i nd rf' Hi Hret].
  - destruct (local_keeps_log _ _ _ _ (no_wf _ _ _ (ni_nodes _ _ Hnet i nd Hi)) Hok Hret)
      as [[Htr Hns]|(command & -> & Hid & Heq & Hs)]; [exists T; split; [done|by eapply log_inv_local]|].
    simpl in Hret. apply bind_Ret_inv in Hret as ([[rf1 x] y] & Hst & Hret). injection Hret as <- <-.
    destruct (log_inv_append _ _ _ _ _ _ _ _ _ Hnet Hinv Hi Hid Hst Heq Hs) as (L & _ & _ & HG & ?).
    by eexists.
  - exists T. split; [done|by eapply log_inv_deliver].
  - destruct (decide (identity (raft nd) = CANDIDATE ∧ identity rf' = LEADER)) as [[HC HL]|Hwin].
    + destruct (log_inv_win _ _ _ _ _ _ _ _ Hnet Hnet' Hinv Hi Hret HC HL) as (_ & _ & g & _ & _ & HG & ?).
      by eexists.
    + exists T. split; [done|eapply log_inv_reply; [done|done|done|done|tauto]].
  - exists T. split; [done|by apply log_inv_drop].
  - exists T. split; [done|by eapply log_inv_restart].
Qed.

Lemma log_inv_init n net : net_init n net → log_inv n net {[0 := [zeroEntry]]}.
Proof.
  intros Hinit. pose proof (net_inv_init _ _ Hinit) as Hnet. destruct Hinit as (HC & HB & Hlen & Hnodes).
  assert (clog {[0 := [zeroEntry]]} [zeroEntry (C := C)]) as Hz.
  { intros k e [-> <-]%list_lookup_singleton_Some. eexists. split; [by apply lookup_singleton_eq|done]. }
  assert (∀ i nd, nodes net !! i = Some nd →
    raft nd = boot_state n (Z.of_nat i) MakePersister 0 Unvote [zeroEntry] 0 []) as Hfresh.
  { intros i nd Hi. destruct (Hnodes i nd Hi) as [_ Hmake]. pose proof (lookup_lt_Some _ _ _ Hi).
    destruct (Make_fresh (C := C) n (Z.of_nat i)) as (rf & Hrf & _ & _ & _ & _ & Heq); [lia|].
    rewrite Hmake in Hrf. congruence. }
  split.
  - apply lookup_singleton_eq.
  - intros t L [<- <-]%lookup_singleton_Some. done.
  - intros t [L [Ht _]%lookup_singleton_Some] Hne. by destruct Hne.
  - intros i nd ->%Hfresh. split; [by intros []|]. exists [zeroEntry]. split; [done|]. by exists zeroEntry, zeroEntry.
  - by intros i nd ->%Hfresh.
  - intros k c. by rewrite HC, lookup_empty.
Qed.

Lemma log_inv_steps n net net' T :
  rtc log_step net net' → net_inv n net → log_inv n net T → ∃ T', grows T T' ∧ log_inv n net' T'.
Proof.
  intros Hsteps. revert T. induction Hsteps as [net|net net1 net' Hstep _ IH]; intros T Hnet Hinv; [by exists T|].
  destruct (log_inv_step _ _ _ _ Hstep Hnet Hinv) as (T1 & HG1 & Hinv1).
  destruct (IH T1) as (T' & HG' & Hinv'); [by eapply net_inv_step, Hnet; apply log_step_net|done|].
  exists T'. split; [by etrans|done].
Qed.

Lemma log_reachable_net n net : log_reachable n net → reachable n net.
Proof. intros (net0 & ? & ?). exists net0. split; [done|by apply log_steps_net]. Qed.

Lemma log_reachable_inv n net : log_reachable n net → net_inv n net ∧ ∃ T, log_inv n net T.
Proof.
  intros Hr. split; [by apply reachable_inv, log_reachable_net|]. destruct Hr as (net0 & Hinit & Hsteps).
  destruct (log_inv_steps _ _ _ _ Hsteps (net_inv_init _ _ Hinit) (log_inv_init _ _ Hinit)) as (T & _ & ?).
  by exists T.
Qed.

(** C14: Log matching.  In every run in which the services only take snapshots of
    what the log reaches, with lost and delayed messages, crashes, restarts
    and installed snapshots: if two logs, now or at a later time, have entries
    of the same term at an index, then they have entries of the same terms at
    every index before it they both still have, and the same commands at
    those neither has in a snapshot. *)
Theorem log_matching n net net' i j ndi ndj k ei ej :
  log_reachable n net → rtc log_step net net' → nodes net !! i = Some ndi → nodes net' !! j = Some ndj →
  entry_at (raft ndi) k = Some ei → entry_at (raft ndj) k = Some ej → Term ei = Term ej →
  ∀ k' ei' ej', k' ≤ k → entry_at (raft ndi) k' = Some ei' → entry_at (raft ndj) k' = Some ej' →
    Term ei' = Term ej' ∧
    (DiscardCount (raft ndi) < k' → DiscardCount (raft ndj) < k' → ei' = ej').
Proof.
  intros [Hnet (T & Hinv)]%log_reachable_inv Hsteps Hi Hj Ei Ej Ht k' ei' ej' Hk Ei' Ej'.
  destruct (log_inv_steps _ _ _ _ Hsteps Hnet Hinv) as (T' & HG & Hinv').
  assert (net_inv n net') as Hnet' by (eapply (rtc_ind_r (λ net', net_inv n net')); [done| |exact Hsteps];
    intros ? ? _ Hs ?; eapply net_inv_step; [by apply log_step_net|done]).
  destruct (lg_node _ _ _ Hinv i ndi Hi) as [_ (gi & Hgi & Ti)], (lg_node _ _ _ Hinv' j ndj Hj) as [_ (gj & Hgj & Tj)].
  apply (clog_grows _ _ _ HG) in Hgi.
  pose proof (wf_discard_nonneg _ (no_wf _ _ _ (ni_nodes _ _ Hnet i ndi Hi))) as Di.
  pose proof (wf_discard_nonneg _ (no_wf _ _ _ (ni_nodes _ _ Hnet' j ndj Hj))) as Dj.
  destruct (tracks_entry _ _ _ _ Di Ti Ei) as (K & xi & Xi & Txi & _), (tracks_entry _ _ _ _ Dj Tj Ej) as (_ & xj & Xj & Txj & _).
  destruct (tracks_entry _ _ _ _ Di Ti Ei') as (K' & yi & Yi & Tyi & Ci), (tracks_entry _ _ _ _ Dj Tj Ej') as (_ & yj & Yj & Tyj & Cj).
  pose proof (clog_agree _ _ _ _ _ _ Hgi Hgj Xi Xj ltac:(congruence)) as Heq.
  rewrite (take_eq_lookup _ _ _ _ Heq), Yj in Yi by lia. injection Yi as <-. split; [congruence|].
  intros Hdi Hdj. rewrite <-Ci, <-Cj by done. done.
Qed.
End matching.
