(* ===== verification/RaftOffice.v ===== *)
(** * Raft: leaders in office

    Requests that only leaders send ([ApplyEntries], [InstallSnapshot]) come
    from the server that won their term, and while that server is in its term
    (and has not crashed) it still is leader.  This holds in every run. *)

From Stdlib Require Import Strings.Byte.
From stdpp Require Import prelude gmap strings list sets.
From S2P Require Import Prelude Gob Raft RaftNode RaftServer RaftEvolve RaftNet RaftElection RaftCluster RaftLog.
Local Open Scope Z_scope.

Section office.
Context {C : Type} `{GobLaws Z} `{GobLaws (list (LogEntry C))}.
Implicit Types (rf : Raft C) (net : Net C) (nd : Node C) (c : Call C).

(** *** Terms on disk *)

Definition disk_term rf : Z := (booted (C := C) (persister rf)).1.1.

Lemma disk_term_ext rf rf' : persister rf' = persister rf → disk_term rf' = disk_term rf.
Proof. unfold disk_term. by intros ->. Qed.

Lemma disk_term_persist rf : disk_term (persist rf) = CurrentTerm rf.
Proof. unfold disk_term. by rewrite persist_booted. Qed.

Lemma disk_term_le rf : durable rf → disk_term rf ≤ CurrentTerm rf.
Proof. intros (t & v & Hb & _ & Hle & _). unfold disk_term. by rewrite Hb. Qed.

Lemma disk_term_step rf rf' :
  durable rf → CurrentTerm rf ≤ CurrentTerm rf' → disk_step rf rf' → disk_term rf ≤ disk_term rf'.
Proof.
  intros Hd Hle [[Hp _]|Hb]; unfold disk_term.
  - by rewrite Hp.
  - rewrite Hb. simpl. pose proof (disk_term_le rf Hd). unfold disk_term in *. lia.
Qed.

Lemma event_disk_term ev rf rf' : durable rf → step ev rf = Ret rf' → disk_term rf ≤ disk_term rf'.
Proof.
  intros Hd Hret. apply disk_term_step; [done| |by eapply step_disk].
  by eapply vote_le_term, ev_vote, step_evolves.
Qed.

(** A vote is on disk. *)
Lemma ballot_disk n net t x (i : nat) nd :
  net_inv n net → (t, Z.of_nat i, x) ∈ ballots net → nodes net !! i = Some nd → t ≤ disk_term (raft nd).
Proof.
  intros Hnet Hb Hi. destruct (bo_held _ (ni_ballots _ _ Hnet) _ _ _ Hb) as (_ & j & nd1 & Hij & Hj & Hh).
  assert (j = i) as -> by lia. rewrite Hi in Hj. injection Hj as <-. unfold held in Hh. unfold disk_term.
  destruct (booted _) as [[t' v'] L']. simpl. destruct Hh as [?|[-> _]]; lia.
Qed.

Lemma ballot_term n net t x (i : nat) nd :
  net_inv n net → (t, Z.of_nat i, x) ∈ ballots net → nodes net !! i = Some nd → t ≤ CurrentTerm (raft nd).
Proof.
  intros Hnet Hb Hi. etrans; [by eapply ballot_disk|]. apply disk_term_le. by apply (ni_nodes _ _ Hnet i).
Qed.

Lemma leader_disk n net (i : nat) nd :
  net_inv n net → nodes net !! i = Some nd → identity (raft nd) ≠ FOLLOWER →
  disk_term (raft nd) = CurrentTerm (raft nd) ∧
  (CurrentTerm (raft nd), Z.of_nat i, Z.of_nat i) ∈ ballots net.
Proof.
  intros Hnet Hi Hid. pose proof (ni_nodes _ _ Hnet i nd Hi) as Hok.
  assert ((CurrentTerm (raft nd), Z.of_nat i, Z.of_nat i) ∈ ballots net) as Hb.
  { pose proof (no_self _ _ _ Hok Hid) as HV. rewrite (no_me _ _ _ Hok) in HV.
    pose proof (bo_cast _ (ni_ballots _ _ Hnet) i nd Hi) as Hc. rewrite HV in Hc. apply Hc. unfold Unvote. lia. }
  split; [|done]. apply Z.le_antisymm; [apply disk_term_le, Hok|by eapply ballot_disk].
Qed.

(** *** Steps of a leader *)

Lemma local_stays ev rf rf' ms : local ev rf = Ret (rf', ms) → identity rf = LEADER → identity rf' = LEADER.
Proof.
  intros Hret HL. destruct ev; simpl in Hret.
  - apply bind_Ret_inv in Hret as ([[rf1 x] y] & Hs & Hret). injection Hret as <- <-.
    by apply Start_log in Hs as [[-> _]|(_ & -> & _)].
  - unfold tickElection in Hret. by destruct (decide _); [injection Hret as <- <-|].
  - apply tickHeartbeat_log in Hret as (_ & _ & -> & _). done.
  - apply bind_Ret_inv in Hret as ([rf1 x] & Ha & Hret). injection Hret as <- <-.
    by apply applyLog_inv in Ha as (w & p & la & ->).
  - apply bind_Ret_inv in Hret as (rf1 & Hs & Hret). injection Hret as <- <-. unfold Snapshot in Hs.
    destruct (_ <=? _); [by injection Hs as <-|]. apply doSnapshot_inv in Hs as (L & ->). simpl. by repeat case_match.
  - by injection Hret as <- <-.
Qed.

Lemma handleReply_stays rf dst m r rf' :
  handleReply rf dst m r = Ret rf' → identity rf = LEADER → CurrentTerm rf' = CurrentTerm rf → identity rf' = LEADER.
Proof.
  intros Hret HL HT. destruct m, r; simpl in Hret; try (by injection Hret as <-).
  - unfold handleRequestVoteReply, becomeLeader in Hret. go_inv; try done. simpl in HT. zlia.
  - unfold handleApplyEntriesReply in Hret. go_inv; try done; [simpl in HT; zlia|].
    by apply updateCommittedIndex_same in Hret as (_ & _ & ->).
  - unfold handleInstallSnapshotReply in Hret. go_inv; try done. simpl in HT. zlia.
Qed.

(** The term of a request that only a leader sends. *)
Definition lead_term (m : Rpc C) : option Z :=
  match m with
  | RpcRequestVote _ => None
  | RpcApplyEntries args => Some (ae_Term args)
  | RpcInstallSnapshot args => Some (is_Term args)
  end.

Lemma handle_stays rf m rf' r :
  handle rf m = Ret (rf', r) → wf rf → self_vote rf → identity rf = LEADER → CurrentTerm rf' = CurrentTerm rf →
  (∀ args, m = RpcRequestVote args → rv_CandidateId args ≠ me rf) → lead_term m ≠ Some (CurrentTerm rf) →
  identity rf' = LEADER.
Proof.
  intros Hret Hwf Hself HL HT Hv Hl. destruct m as [args|args|args]; simpl in Hret, Hl;
    apply bind_Ret_inv in Hret as ([rf1 r1] & Hret & Heq); injection Heq as <- <-.
  - unfold RequestVote in Hret. destruct (_ || _) eqn:Hg; [by go_inv|]. exfalso.
    pose proof (Hself ltac:(congruence)) as HV. specialize (Hv args eq_refl). pose proof (wf_me _ Hwf).
    rewrite HV in Hg. unfold Unvote in Hg. apply orb_false_iff in Hg as [Hlt Hg].
    destruct (decide (rv_Term args = CurrentTerm rf)) as [Heq|].
    + rewrite Heq, Z.eqb_refl in Hg. destruct (me rf =? -1) eqn:?; [zlia|].
      destruct (me rf =? rv_CandidateId args) eqn:?; [zlia|done].
    + go_inv; simpl in HT; repeat case_match; simpl in *; zlia.
  - apply ApplyEntries_identity in Hret as [->|[_ HT']]; [done|congruence].
  - apply InstallSnapshot_identity in Hret as [->|[_ HT']]; [done|congruence].
Qed.

(** ** The invariant *)

(** A majority voted for server [i] in term [t]. *)
Definition majority (n : nat) net (i : nat) t : Prop :=
  ∃ S : gset Z, 2 * Z.of_nat (size S) > Z.of_nat n ∧ backed net i t S.

Record office_call (n : nat) net c t : Prop := mkOfficeCall {
  oc_dst : c_dst c ≠ Z.of_nat (c_src c);
  oc_backed : majority n net (c_src c) t;
  oc_self : (t, Z.of_nat (c_src c), Z.of_nat (c_src c)) ∈ ballots net;
  oc_leader nd : nodes net !! c_src c = Some nd → epoch nd = c_epoch c → CurrentTerm (raft nd) = t →
    identity (raft nd) = LEADER;
}.

Definition office_inv (n : nat) net : Prop :=
  ∀ k c t, calls net !! k = Some c → lead_term (c_rpc c) = Some t → office_call n net c t.

Lemma majority_mono n net net' i t : (∀ b, b ∈ ballots net → b ∈ ballots net') → majority n net i t → majority n net' i t.
Proof. intros Hb (S & HS & HSb). exists S. split; [done|by eapply backed_mono]. Qed.

(** One server changes. *)
Lemma office_call_keep n net net' i nd nd' c t :
  net_inv n net → office_call n net c t → nodes net !! i = Some nd → nodes net' = <[i := nd']> (nodes net) →
  (∀ b, b ∈ ballots net → b ∈ ballots net') →
  (epoch nd' = c_epoch c → c_src c = i → epoch nd' = epoch nd ∧ CurrentTerm (raft nd) ≤ CurrentTerm (raft nd') ∧
     (identity (raft nd) = LEADER → CurrentTerm (raft nd') = CurrentTerm (raft nd) → identity (raft nd') = LEADER)) →
  office_call n net' c t.
Proof.
  intros Hnet [Hd Hb Hs Hl] Hi HN HB He. split; [done|by eapply majority_mono|auto|].
  intros nd1. rewrite HN. intros [(Hsrc & <- & _)|[Hne Hj]]%list_lookup_insert_Some Hep HT; [subst i|by apply Hl].
  destruct (He Hep eq_refl) as (Heq & Hle & Hstay). pose proof (ballot_term _ _ _ _ _ _ Hnet Hs Hi).
  assert (CurrentTerm (raft nd) = t) as HT0 by lia. apply Hstay; [|congruence].
  apply Hl; [done|congruence|done].
Qed.

(** The caller and the receiver of a leader's request are not leaders of the
    same term. *)
Lemma office_foreign n net c t nd :
  net_inv n net → office_call n net c t → 0 ≤ c_dst c → nodes net !! Z.to_nat (c_dst c) = Some nd →
  identity (raft nd) = LEADER → CurrentTerm (raft nd) ≠ t.
Proof.
  intros Hnet [Hd (S & HS & HSb) _ _] Hdst Hi HL <-.
  destruct (co_leader _ _ (ni_counters _ _ Hnet) _ nd Hi HL) as (S1 & HS1 & HSb1).
  pose proof (backed_unique n net _ _ _ S1 S Hnet HS1 HS HSb1 HSb). lia.
Qed.
(** *** Steps *)

Lemma heartbeat_leads rf ms j m t :
  wf rf → sendHeartBeat rf = Ret ms → (j, m) ∈ ms → lead_term m = Some t → t = CurrentTerm rf.
Proof.
  intros Hwf Hs Hjm Ht. pose proof (sendHeartBeat_to _ _ _ _ Hs Hjm) as Hm.
  destruct (heartBeatTo_args _ _ _ Hwf Hm) as [(args & e & -> & HT & _)|(args & k & e & -> & HT & _)];
    simpl in Ht; congruence.
Qed.

(** Only leaders send such requests. *)
Lemma local_leads ev rf rf' ms j m t :
  wf rf → wf rf' → local ev rf = Ret (rf', ms) → (j, m) ∈ ms → lead_term m = Some t →
  identity rf' = LEADER ∧ t = CurrentTerm rf'.
Proof.
  intros Hwf Hwf' Hret Hjm Ht. destruct ev; simpl in Hret.
  - apply bind_Ret_inv in Hret as ([[rf1 x] y] & Hs & Hret). injection Hret as <- <-.
    apply Start_log in Hs as [[_ -> ]|(HL & Heq & Hs)]; [by apply not_elem_of_nil in Hjm|].
    split; [by rewrite Heq|by eapply heartbeat_leads].
  - apply tickElection_log in Hret as (_ & [[_ -> ]|(_ & _ & Hms)]); [by apply not_elem_of_nil in Hjm|].
    destruct (Hms j m Hjm) as [args ->]. done.
  - apply tickHeartbeat_log in Hret as (_ & -> & -> & [-> |[HL Hs]]); [by apply not_elem_of_nil in Hjm|].
    split; [done|]. eapply (heartbeat_leads (set_heartbeatTimer false rf)); [|done|done|done].
    by eapply wf_core, Hwf.
  - apply bind_Ret_inv in Hret as ([rf1 x] & Ha & Hret). injection Hret as <- <-. by apply not_elem_of_nil in Hjm.
  - apply bind_Ret_inv in Hret as (rf1 & Hs & Hret). injection Hret as <- <-. by apply not_elem_of_nil in Hjm.
  - injection Hret as <- <-. by apply not_elem_of_nil in Hjm.
Qed.

Lemma office_local n net i nd ev rf' ms :
  net_inv n net → net_inv n (send i nd rf' ms net) → office_inv n net → nodes net !! i = Some nd →
  well_formed ev (raft nd) → local ev (raft nd) = Ret (rf', ms) → office_inv n (send i nd rf' ms net).
Proof.
  intros Hnet Hnet' Hinv Hi Hok Hret k c t Hk Ht. pose proof (lookup_lt_Some _ _ _ Hi) as Hlt.
  pose proof (ni_nodes _ _ Hnet i nd Hi) as Hn.
  assert (nodes (send i nd rf' ms net) !! i = Some (mkNode rf' (epoch nd))) as Hi' by (by apply list_lookup_insert_eq).
  apply send_calls in Hk as [Hk|(j & m & Hjm & ->)].
  - eapply (office_call_keep n net _ i nd (mkNode rf' (epoch nd))); [done|by eapply Hinv|done|done|..].
    + intros b. by apply cast_grows.
    + intros _ _. split_and!; [done|by eapply vote_le_term, ev_vote, step_evolves, local_step|].
      intros HL _. by eapply local_stays.
  - destruct (local_wf _ _ _ _ (no_wf _ _ _ Hn) Hok Hret) as [Hwf' Hms].
    destruct (local_leads _ _ _ _ _ _ _ (no_wf _ _ _ Hn) Hwf' Hret Hjm Ht) as [HL ->].
    split; simpl.
    + destruct (Hms j m Hjm) as [[_ Hne]%otherPeers_range _]. by rewrite (no_me _ _ _ Hn) in Hne.
    + exact (co_leader _ _ (ni_counters _ _ Hnet') _ _ Hi' HL).
    + apply (leader_disk n _ i (mkNode rf' (epoch nd)) Hnet' Hi'). simpl. by rewrite HL.
    + rewrite list_lookup_insert_eq by done. by intros nd1 [= <-] _ _.
Qed.

Lemma office_deliver n net k c nd rf' r :
  net_inv n net → office_inv n net → calls net !! k = Some c → nodes net !! Z.to_nat (c_dst c) = Some nd →
  handle (raft nd) (c_rpc c) = Ret (rf', r) → office_inv n (answer k c nd rf' r net).
Proof.
  intros Hnet Hinv Hk Hi Hret k' c' t Hk' Ht. pose proof (ni_nodes _ _ Hnet _ nd Hi) as Hn.
  pose proof (ni_calls _ _ Hnet k c Hk) as Hc.
  assert (∃ c0, office_call n net c0 t ∧ c_src c0 = c_src c' ∧ c_dst c0 = c_dst c' ∧ c_epoch c0 = c_epoch c')
    as (c0 & Hoc & Es & Ed & Ee).
  { apply answer_calls in Hk' as [[<- <-]|[_ Hk']]; [exists c|exists c']; (split; [by eapply Hinv|done]). }
  assert (office_call n (answer k c nd rf' r net) c0 t) as [P1 P2 P3 P4].
  { eapply (office_call_keep n net _ _ nd (mkNode rf' (epoch nd))); [done|done|exact Hi|done|..].
    - intros b Hb. simpl. apply elem_of_app. by right.
    - intros _ _. split_and!; [done|by eapply vote_le_term, ev_vote, step_evolves, handle_step|]. intros HL HT. eapply handle_stays; [done|apply Hn|apply Hn|done|done|..].
      + intros args Ha. rewrite (no_me _ _ _ Hn). destruct Hc as [_ _ Hd _ _ Hv].
        destruct (Hv args Ha) as (-> & Hne & _). lia.
      + intros Hlt. eapply office_foreign; [done|by eapply Hinv|apply Hc|done|done|done]. }
  rewrite Es in *. rewrite Ed in P1. rewrite Ee in P4. by split.
Qed.

Lemma office_inv_step n net net' : net_step net net' → net_inv n net → office_inv n net → office_inv n net'.
Proof.
  intros Hstep Hnet Hinv. pose proof (net_inv_step _ _ _ Hstep Hnet) as Hnet'.
  destruct Hstep as [net i nd ev rf' ms Hi Hret Hok|net k c nd rf' r Hk Hrep Hi Hret
    |net k c nd r rf' Hk Hrep Hi He Hret|net k|net i nd rf' Hi Hret].
  - by eapply office_local.
  - by eapply office_deliver.
  - intros k' c' t [_ Hk']%receive_calls Ht.
    eapply (office_call_keep n net _ _ nd (mkNode rf' (epoch nd))); [done|by eapply Hinv|exact Hi|done|..].
    + intros b Hb. simpl. apply elem_of_app. by right.
    + intros _ _. split_and!; [done| |intros HL HT; by eapply handleReply_stays].
      destruct (handleReply_step _ _ _ _ _ Hret) as [->|(ev & Hev & _)]; [done|].
      by eapply vote_le_term, ev_vote, step_evolves.
  - intros k' c' t Hk' Ht. simpl in Hk'. apply lookup_delete_Some in Hk' as [_ Hk'].
    by destruct (Hinv k' c' t Hk' Ht).
  - intros k c t Hk Ht. simpl in Hk. pose proof (ni_calls _ _ Hnet k c Hk) as Hc.
    eapply (office_call_keep n net _ i nd (mkNode rf' (S (epoch nd)))); [done|by eapply Hinv|exact Hi|done|..].
    + intros b Hb. simpl. apply elem_of_app. by right.
    + simpl. intros He <-. pose proof (cl_epoch _ _ _ _ Hc nd Hi). lia.
Qed.

Lemma office_inv_init n net : net_init n net → office_inv n net.
Proof. intros (HC & _) k c t. by rewrite HC, lookup_empty. Qed.

(** *** Votes on disk *)

Definition disk_votes net : Prop :=
  ∀ i nd t v L, nodes net !! i = Some nd → booted (persister (raft nd)) = (t, v, L) → v ≠ Unvote →
    (t, Z.of_nat i, v) ∈ ballots net.

Lemma disk_votes_one net net' i nd nd' :
  disk_votes net → nodes net !! i = Some nd → nodes net' = <[i := nd']> (nodes net) →
  ballots net' = cast (raft nd') ++ ballots net → me (raft nd') = Z.of_nat i →
  disk_step (raft nd) (raft nd') → disk_votes net'.
Proof.
  intros Hinv Hi HN HB Hme Hd j nd1 t v L. rewrite HN, HB, elem_of_app.
  intros [(<- & <- & _)|[_ Hj]]%list_lookup_insert_Some Hb Hv; [|right; by eapply Hinv].
  destruct Hd as [[Hp _]|Hd]; [right; rewrite Hp in Hb; by eapply Hinv|left].
  rewrite Hd in Hb. injection Hb as <- <- <-. by apply elem_of_cast.
Qed.

Lemma disk_votes_step n net net' : net_step net net' → net_inv n net → disk_votes net → disk_votes net'.
Proof.
  intros Hstep Hnet Hinv.
  assert (∀ ev i nd rf', nodes net !! i = Some nd → step ev (raft nd) = Ret rf' →
    me rf' = Z.of_nat i ∧ disk_step (raft nd) rf') as Hstp.
  { intros ev i nd rf' Hi Hret. split; [|by eapply step_disk].
    rewrite (ev_me _ _ (step_evolves _ _ _ Hret)). by apply (ni_nodes _ _ Hnet i). }
  destruct Hstep as [net i nd ev rf' ms Hi Hret Hok|net k c nd rf' r Hk Hrep Hi Hret
    |net k c nd r rf' Hk Hrep Hi He Hret|net k|net i nd rf' Hi Hret].
  - destruct (Hstp _ _ _ _ Hi (local_step _ _ _ _ Hret)). by eapply disk_votes_one.
  - destruct (Hstp _ _ _ _ Hi (handle_step _ _ _ _ Hret)). by eapply (disk_votes_one net _ _ nd (mkNode rf' (epoch nd))).
  - assert (me rf' = Z.of_nat (c_src c) ∧ disk_step (raft nd) rf') as [??].
    { destruct (handleReply_step _ _ _ _ _ Hret) as [->|(ev & Hev & _)]; [|by eapply Hstp].
      split; [by apply (ni_nodes _ _ Hnet)|by left]. }
    by eapply (disk_votes_one net _ _ nd (mkNode rf' (epoch nd))).
  - done.
  - destruct (node_ok_restart _ _ _ _ (ni_nodes _ _ Hnet i nd Hi) Hret) as (Hok & Hps & _).
    intros j nd1 t v L. simpl. rewrite elem_of_app.
    intros [(<- & <- & _)|[_ Hj]]%list_lookup_insert_Some Hb Hv; right; [|by eapply Hinv].
    simpl in Hb. rewrite Hps in Hb. by eapply Hinv.
Qed.

Lemma disk_votes_init n net : net_init n net → disk_votes net.
Proof.
  intros (_ & _ & Hlen & Hnodes) i nd t v L Hi Hb Hv. destruct (Hnodes i nd Hi) as [_ Hmake].
  pose proof (lookup_lt_Some _ _ _ Hi).
  destruct (Make_fresh (C := C) n (Z.of_nat i)) as (rf & Hrf & _ & _ & _ & _ & Heq); [lia|].
  assert (raft nd = rf) as E by congruence. rewrite E, Heq in Hb. unfold booted in Hb. simpl in Hb. congruence.
Qed.
End office.
