(* ===== verification/RaftSafety.v ===== *)
(** * Raft: state machine safety

    In runs in which the services take no snapshots, no two servers ever
    apply different commands at the same index, and what one server has
    committed is in the log of every later leader.  The history variables of
    the proof are the logs of the leaders ([T] of RaftLog.v), the log a
    candidate had when it started its election ([Els]), and who acknowledged
    which prefix of a leader's log ([A]). *)

From Stdlib Require Import Strings.Byte.
From stdpp Require Import prelude gmap strings list sets.
From S2P Require Import Prelude Gob Raft RaftNode RaftServer RaftCommit RaftEvolve RaftNet RaftElection RaftCluster RaftLog RaftOffice.
Local Open Scope Z_scope.

(** ** Entries of leader logs *)
Section entries.
Context {C : Type}.
Implicit Types (T : gmap Z (list (LogEntry C))) (g L : list (LogEntry C)) (k : nat) (t u : Z).

(** [L] has an entry of term [t] at [k]. *)
Definition has L k t : Prop := ∃ e, L !! k = Some e ∧ Term e = t.

(** The leader of [t] put an entry at [k]. *)
Definition put T t k : Prop := ∃ L, T !! t = Some L ∧ has L k t.

(** The leader of [u] does not have that entry. *)
Definition lacks T u k t : Prop := ∃ L, T !! u = Some L ∧ ¬ has L k t.

(** Some leader after [t], up to term [hi], does not have it. *)
Definition overwritten T t k (hi : Z) : Prop := ∃ u, t < u ≤ hi ∧ lacks T u k t.

(** Leaders only append entries of their own term. *)
Definition appends T T' : Prop :=
  ∀ t L, T !! t = Some L → ∃ r, T' !! t = Some (L ++ r) ∧ ∀ e, e ∈ r → Term e = t.

#[export] Instance appends_preorder : PreOrder appends.
Proof.
  split.
  - intros T t L HL. exists []. rewrite app_nil_r. split; [done|]. by intros e ?%not_elem_of_nil.
  - intros T1 T2 T3 A1 A2 t L HL. destruct (A1 t L HL) as (r1 & H1 & R1), (A2 t _ H1) as (r2 & H2 & R2).
    exists (r1 ++ r2). rewrite app_assoc. split; [done|]. intros e [?|?]%elem_of_app; auto.
Qed.

Lemma appends_grows T T' : appends T T' → grows T T'.
Proof. intros HA t L HL. destruct (HA t L HL) as (r & ? & _). eexists. split; [done|by eexists]. Qed.

#[export] Instance has_dec L k t : Decision (has L k t).
Proof.
  refine (match L !! k as o return L !! k = o → _ with
    | Some e => λ E, match decide (Term e = t) with left H => left _ | right H => right _ end
    | None => λ E, right _ end eq_refl); unfold has; naive_solver.
Defined.

Lemma has_take g L (k m : nat) t : take m g = take m L → (k < m)%nat → has g k t → has L k t.
Proof. intros Heq Hk (e & He & Ht). exists e. by rewrite <-(take_eq_lookup _ _ _ _ Heq Hk). Qed.

Lemma has_app L r k t : has L k t → has (L ++ r) k t.
Proof. intros (e & He & Ht). exists e. split; [by apply lookup_app_l_Some|done]. Qed.

Lemma has_prefix L L' k t : L `prefix_of` L' → has L k t → has L' k t.
Proof. intros [r ->]. apply has_app. Qed.

Lemma has_length L k t : has L k t → (k < length L)%nat.
Proof. intros (e & He & _). by eapply lookup_lt_Some. Qed.

Lemma put_mono T T' t k : appends T T' → put T t k → put T' t k.
Proof.
  intros HA (L & HL & Hh). destruct (HA t L HL) as (r & HL' & _). eexists. split; [done|]. by apply has_app.
Qed.

(** An entry below the end of a leader's log was there already. *)
Lemma put_old T T' t k L : appends T T' → T !! t = Some L → (k < length L)%nat → put T' t k → put T t k.
Proof.
  intros HA HL Hk (L' & HL' & e & He & Ht). destruct (HA t L HL) as (r & Hr & _). simplify_eq.
  exists L. split; [done|]. exists e. by rewrite lookup_app_l in He by lia.
Qed.

Lemma lacks_mono T T' u k t : appends T T' → t ≠ u → lacks T u k t → lacks T' u k t.
Proof.
  intros HA Hne (L & HL & Hno). destruct (HA u L HL) as (r & HL' & Hr). eexists. split; [done|].
  intros (e & [He|[_ He]]%lookup_app_Some & Ht); [apply Hno; by exists e|].
  apply Hne. rewrite <-Ht. apply Hr. by eapply list_elem_of_lookup_2.
Qed.

Lemma overwritten_mono T T' t k hi hi' :
  appends T T' → hi ≤ hi' → overwritten T t k hi → overwritten T' t k hi'.
Proof.
  intros HA Hle (u & Hu & Hl). exists u. split; [lia|]. eapply lacks_mono; [done|lia|done].
Qed.

(** Logs that have the entry agree with its leader up to it. *)
Lemma has_agree T g L k t :
  clog T g → clog T L → has g k t → has L k t → take (S k) g = take (S k) L.
Proof.
  intros Hg HL (e & He & Ht) (e' & He' & Ht'). eapply clog_agree; [exact Hg|exact HL|done|done|congruence].
Qed.

(** A vote is only given to a log that has the entries of the voter's log, or
    that was made by a leader that does not have them. *)
Lemma up_to_date T g L k t e e' :
  clog T g → clog T L → terms_sorted g → (∀ u Lu, T !! u = Some Lu → terms_sorted Lu) →
  last g = Some e → last L = Some e' →
  Term e < Term e' ∨ Term e = Term e' ∧ (length g ≤ length L)%nat →
  has g k t → has L k t ∨ overwritten T t k (Term e').
Proof.
  intros Hg HL Hs HT He He' Hord (x & Hx & Ht). rewrite last_lookup in He, He'.
  pose proof (lookup_lt_Some _ _ _ Hx) as Hk.
  assert (t ≤ Term e) as Hte. { rewrite <-Ht. apply (Hs k (pred (length g))); [lia|done|done]. }
  destruct (HL _ _ He') as (Lw & HLw & HeqL). pose proof (lookup_lt_Some _ _ _ He') as HlenL.
  replace (S (pred (length L))) with (length L) in HeqL by lia.
  pose proof (take_eq_lookup _ _ _ (pred (length L)) HeqL ltac:(lia)) as HeqE. rewrite He' in HeqE.
  rewrite take_ge in HeqL by lia.
  destruct Hord as [Hlt|[Heq Hle]].
  - destruct (decide (has Lw k t)) as [Hh|Hno]; [left|right; exists (Term e'); split; [lia|by exists Lw]].
    destruct (decide (k < length L)%nat) as [Hkl|Hkl].
    { rewrite HeqL. eapply (has_take Lw _ k (S k)); [by rewrite take_take, Nat.min_l by lia|lia|done]. }
    exfalso. destruct Hh as (y & Hy & Hty). 
    pose proof (HT _ _ HLw (pred (length L)) k e' y ltac:(lia) (eq_sym HeqE) Hy). lia.
  - left. destruct (Hg _ _ He) as (Lu & HLu & HeqG). rewrite Heq, HLw in HLu. injection HLu as <-.
    exists x. split; [|done]. rewrite HeqL, lookup_take_lt by lia.
    rewrite <-(take_eq_lookup _ _ _ k HeqG) by lia. done.
Qed.
End entries.

(** ** The invariant *)
Section safety.
Context {C : Type} `{GobLaws Z} `{GobLaws (list (LogEntry C))}.
Implicit Types (rf : Raft C) (net : Net C) (nd : Node C) (c : Call C).
Implicit Types (T : gmap Z (list (LogEntry C))) (L : list (LogEntry C)) (A : list (Z * Z * nat)).
Implicit Types (Els : gmap (Z * Z) (list (LogEntry C))) (k m : nat) (t u v : Z).

(** [v] acknowledged the log of the leader of [t] up to [k]. *)
Definition acked A v t k : Prop := ∃ m, (v, t, m) ∈ A ∧ (k ≤ m)%nat.

(** An entry of its leader's own term on a majority of the servers. *)
Definition committed (n : nat) T A t k : Prop :=
  put T t k ∧ ∃ S : gset Z, 2 * Z.of_nat (size S) > Z.of_nat n ∧ ∀ v, v ∈ S → acked A v t k.

(** The log [L] is committed up to index [x], by an entry of a term up to [hi]. *)
Definition commit_ok (n : nat) T A (x hi : Z) L : Prop :=
  x ≤ 0 ∨ ∃ t m Lt, committed n T A t m ∧ T !! t = Some Lt ∧ t ≤ hi ∧ x ≤ Z.of_nat m ∧
    take (S (Z.to_nat x)) L = take (S (Z.to_nat x)) Lt.

(** What a request was sent with, and what a positive reply means. *)
Definition call_safe (n : nat) T A Els c : Prop :=
  match c_rpc c with
  | RpcRequestVote args => ∃ L e, Els !! (rv_Term args, Z.of_nat (c_src c)) = Some L ∧ last L = Some e ∧
      Term e = rv_LastLogTerm args ∧ rv_LastLogIndex args = zlen L - 1
  | RpcApplyEntries args =>
      let upto := ae_PrevLogIndex args + zlen (ae_Entries args) in
      ae_LeaderCommit args ≤ upto ∧
      (∃ L, T !! ae_Term args = Some L ∧ commit_ok n T A (ae_LeaderCommit args) (ae_Term args) L) ∧
      ∀ r, c_reply c = Some (RepApplyEntries r) → aer_Success r = true →
        aer_Term r = ae_Term args ∧ (c_dst c, ae_Term args, Z.to_nat upto) ∈ A
  | RpcInstallSnapshot args => is_LastIncludedIndex args = 0
  end.

Record node_safe (n i : nat) T A Els rf : Prop := mkNodeSafe {
  sn_plain : lastIncludedIndex rf = 0;
  sn_zero : Logs rf !! 0%nat = Some zeroEntry;
  sn_cand : identity rf = CANDIDATE → Els !! (CurrentTerm rf, Z.of_nat i) = Some (Logs rf);
  sn_self : identity rf = LEADER → acked A (Z.of_nat i) (CurrentTerm rf) (pred (length (Logs rf)));
  sn_match (j : nat) (m : Z) : identity rf = LEADER → matchIndex rf !! j = Some m → 0 < m →
    acked A (Z.of_nat j) (CurrentTerm rf) (Z.to_nat m);
  sn_commit : commit_ok n T A (committedIndex rf) (disk_term rf) (Logs rf);
}.

(** What a voter acknowledged before term [t] is in [L], or was overwritten
    before [t]. *)
Definition keeps T A v t L : Prop :=
  ∀ t0 k, t0 < t → acked A v t0 k → put T t0 k → has L k t0 ∨ overwritten T t0 k (t - 1).

Record safe_inv (n : nat) net T A Els : Prop := mkSafeInv {
  sf_node i nd : nodes net !! i = Some nd → node_safe n i T A Els (raft nd);
  sf_hist t L : T !! t = Some L → 0 ≤ t ∧ terms_sorted L;
  sf_els t x L : Els !! (t, x) = Some L → clog T L ∧ (∃ e, last L = Some e ∧ Term e < t) ∧ (t, x, x) ∈ ballots net;
  sf_ballot t v x : (t, v, x) ∈ ballots net → is_Some (Els !! (t, x));
  sf_vote t v x L : (t, v, x) ∈ ballots net → T !! t = None → Els !! (t, x) = Some L → keeps T A v t L;
  sf_won t L : T !! t = Some L → t ≠ 0 → ∃ S : gset Z, 2 * Z.of_nat (size S) > Z.of_nat n ∧
    ∀ v, v ∈ S → (∃ x, (t, v, x) ∈ ballots net) ∧ keeps T A v t L;
  sf_ack v t m : (v, t, m) ∈ A → ∃ (i : nat) nd L, v = Z.of_nat i ∧ nodes net !! i = Some nd ∧
    t ≤ disk_term (raft nd) ∧ T !! t = Some L ∧ (m < length L)%nat ∧
    ∀ k, (k ≤ m)%nat → has L k t → has (Logs (raft nd)) k t ∨ overwritten T t k (disk_term (raft nd));
  sf_calls k c : calls net !! k = Some c → call_safe n T A Els c;
}.

Lemma acked_mono A A' v t k : (∀ a, a ∈ A → a ∈ A') → acked A v t k → acked A' v t k.
Proof. intros HA (m & Hm & Hk). exists m. auto. Qed.

Lemma committed_mono n T T' A A' t k :
  appends T T' → (∀ a, a ∈ A → a ∈ A') → committed n T A t k → committed n T' A' t k.
Proof.
  intros HT HA [Hp (S & HS & Ha)]. split; [by eapply put_mono|]. exists S. split; [done|].
  intros v Hv. eapply acked_mono; [done|auto].
Qed.

Lemma commit_ok_mono n T T' A A' x hi hi' L L' :
  appends T T' → (∀ a, a ∈ A → a ∈ A') → hi ≤ hi' →
  (0 < x → take (S (Z.to_nat x)) L = take (S (Z.to_nat x)) L') →
  commit_ok n T A x hi L → commit_ok n T' A' x hi' L'.
Proof.
  intros HT HA Hle HL [?|(t & m & Lt & Hc & HLt & Ht & Hx & Heq)]; [by left|].
  destruct (decide (x ≤ 0)); [by left|right]. destruct (HT t Lt HLt) as (r & Hr & _).
  exists t, m, (Lt ++ r). split_and!; [by eapply committed_mono|done|lia|done|]. rewrite <-HL, Heq by lia.
  symmetry. apply take_app_le. destruct Hc as [(L0 & ? & Hh%has_length) _]. simplify_eq. lia.
Qed.

(** The committed part lies inside the log. *)
Lemma commit_ok_length n T A x hi L : commit_ok n T A x hi L → 0 < x → (Z.to_nat x < length L)%nat.
Proof.
  intros [?|(t & m & Lt & [(L0 & ? & Hh%has_length) _] & HLt & _ & Hx & Heq)] ?; [lia|]. simplify_eq.
  apply (f_equal length) in Heq. rewrite !length_take in Heq. lia.
Qed.

(** *** Leader completeness *)

Lemma leader_completeness_inv n net T A Els t k u L :
  net_inv n net → safe_inv n net T A Els → committed n T A t k → t < u → T !! u = Some L → has L k t.
Proof.
  intros Hnet Hinv [Hp (S1 & HS1 & Ha)]. revert L.
  assert (0 ≤ t) as Ht0 by (destruct Hp as (L0 & HL0 & _); by eapply (sf_hist _ _ _ _ _ Hinv)).
  induction u as [u IH] using (well_founded_induction (Z.lt_wf t)). intros L Htu HL.
  destruct (sf_won _ _ _ _ _ Hinv u L HL ltac:(lia)) as (S2 & HS2 & Hv2).
  destruct (quorums_meet n S1 S2) as (v & Hv & Hv'); [|done|done|].
  - intros v [Hv|Hv]%elem_of_union.
    + destruct (Ha v Hv) as (m & Hm & _). destruct (sf_ack _ _ _ _ _ Hinv _ _ _ Hm) as (i & nd & _ & -> & Hi & _).
      apply lookup_lt_Some in Hi. rewrite (ni_len _ _ Hnet) in Hi. lia.
    + destruct (Hv2 v Hv) as [[x Hb] _]. apply (bo_held _ (ni_ballots _ _ Hnet)) in Hb as (_ & i & nd & -> & Hi & _).
      apply lookup_lt_Some in Hi. rewrite (ni_len _ _ Hnet) in Hi. lia.
  - destruct (Hv2 v Hv') as [_ Hk]. destruct (Hk t k Htu (Ha v Hv) Hp) as [?|(w & Hw & Lw & HLw & Hno)]; [done|].
    destruct Hno. apply (IH w); [lia|lia|done].
Qed.

(** *** How the history grows *)

(** New acknowledgements are made by server [i] in its current term. *)
Definition acks_step (i : nat) rf' T' A A' : Prop :=
  ∀ v t m, (v, t, m) ∈ A' → (v, t, m) ∈ A ∨
    v = Z.of_nat i ∧ t = CurrentTerm rf' ∧ t ≤ disk_term rf' ∧
    ∃ L, T' !! t = Some L ∧ (m < length L)%nat ∧ ∀ k, (k ≤ m)%nat → has L k t → has (Logs rf') k t.

(** A vote of term [t] binds the voter for the terms before. *)
Lemma keeps_mono n net T T' A A' Els i nd nd' v t x L :
  net_inv n net → safe_inv n net T A Els → nodes net !! i = Some nd → appends T T' →
  acks_step i (raft nd') T' A A' → disk_term (raft nd) ≤ CurrentTerm (raft nd') →
  (t, v, x) ∈ ballots net → keeps T A v t L → keeps T' A' v t L.
Proof.
  intros Hnet Hinv Hi HT HA Hle Hb Hk t0 k Ht0 (m & Hm & Hkm) Hp.
  destruct (HA _ _ _ Hm) as [Hold|(-> & -> & _)].
  - destruct (sf_ack _ _ _ _ _ Hinv _ _ _ Hold) as (j & ndj & L0 & _ & _ & _ & HL0 & Hlen & _).
    destruct (Hk t0 k Ht0) as [?|Ho]; [by exists m|eapply put_old; [done|done|lia|done]|by left|right].
    by eapply overwritten_mono.
  - pose proof (ballot_disk _ _ _ _ _ _ Hnet Hb Hi). lia.
Qed.

Lemma keeps_prefix T A v t L L' : L `prefix_of` L' → keeps T A v t L → keeps T A v t L'.
Proof.
  intros HP Hk t0 k Ht Ha Hp. destruct (Hk t0 k Ht Ha Hp) as [?|?]; [left|by right]. by eapply has_prefix.
Qed.

Lemma node_safe_mono n i T T' A A' Els Els' rf :
  appends T T' → (∀ a, a ∈ A → a ∈ A') → Els ⊆ Els' → node_safe n i T A Els rf → node_safe n i T' A' Els' rf.
Proof.
  intros HT HA HE [Hp Hz Hc Hs Hm Hcm]. split; [done|done| | | |].
  - intros HC. eapply lookup_weaken; [by apply Hc|done].
  - intros HL. eapply acked_mono; [done|auto].
  - intros j m HL Hj Hpos. eapply acked_mono; [done|auto].
  - by eapply commit_ok_mono.
Qed.

Lemma call_safe_mono n T T' A A' Els Els' c :
  appends T T' → (∀ a, a ∈ A → a ∈ A') → Els ⊆ Els' → call_safe n T A Els c → call_safe n T' A' Els' c.
Proof.
  intros HT HA HE. unfold call_safe. destruct (c_rpc c); [| |done].
  - intros (L & e & HL & ?). exists L, e. split; [by eapply lookup_weaken|done].
  - intros (Hc & (L & HL & Hok) & Hr). split_and!; [done| |].
    + destruct (HT _ _ HL) as (r & HL' & _). eexists. split; [done|].
      eapply commit_ok_mono; [done|done|done| |done]. intros Hpos. symmetry. apply take_app_le.
      pose proof (commit_ok_length _ _ _ _ _ _ Hok Hpos). lia.
    + intros r Hr1 Hr2. destruct (Hr r Hr1 Hr2). auto.
Qed.

(** One server changes. *)
Lemma safe_inv_update n net net' T T' A A' Els Els' i nd nd' :
  net_inv n net → safe_inv n net T A Els → nodes net !! i = Some nd →
  nodes net' = <[i := nd']> (nodes net) → ballots net' = cast (raft nd') ++ ballots net →
  me (raft nd') = Z.of_nat i →
  appends T T' → (∀ a, a ∈ A → a ∈ A') → Els ⊆ Els' →
  disk_term (raft nd) ≤ disk_term (raft nd') → disk_term (raft nd) ≤ CurrentTerm (raft nd') →
  (* the server *)
  node_safe n i T' A' Els' (raft nd') →
  (∀ t k, acked A (Z.of_nat i) t k → put T t k → has (Logs (raft nd)) k t →
     has (Logs (raft nd')) k t ∨ overwritten T' t k (disk_term (raft nd'))) →
  (* the leaders' logs *)
  (∀ t L, T' !! t = Some L → 0 ≤ t ∧ terms_sorted L) →
  (∀ t L, T !! t = None → T' !! t = Some L → ∃ S : gset Z, 2 * Z.of_nat (size S) > Z.of_nat n ∧
     ∀ v, v ∈ S → (∃ x, (t, v, x) ∈ ballots net') ∧ keeps T' A' v t L) →
  (* elections and votes *)
  (∀ t x L, Els' !! (t, x) = Some L → Els !! (t, x) = Some L ∨
     clog T' L ∧ (∃ e, last L = Some e ∧ Term e < t) ∧ (t, x, x) ∈ ballots net') →
  (∀ x, VoteFor (raft nd') = x → x ≠ Unvote →
     (CurrentTerm (raft nd'), Z.of_nat i, x) ∈ ballots net ∨
     ∃ L, Els' !! (CurrentTerm (raft nd'), x) = Some L ∧
       (T' !! CurrentTerm (raft nd') = None → keeps T' A' (Z.of_nat i) (CurrentTerm (raft nd')) L)) →
  acks_step i (raft nd') T' A A' →
  (∀ k c, calls net' !! k = Some c → call_safe n T' A' Els' c) →
  safe_inv n net' T' A' Els'.
Proof.
  intros Hnet Hinv Hi HN HB Hme HT HA HE Hdisk HdiskT Hnode Hold Hhist Hwon Hels Hvote Hacks Hcalls.
  pose proof (lookup_lt_Some _ _ _ Hi) as Hlt.
  assert (∀ b, b ∈ ballots net → b ∈ ballots net') as Hb by (intros b ?; rewrite HB; apply elem_of_app; by right).
  assert (∀ t v x, (t, v, x) ∈ ballots net' → (t, v, x) ∈ ballots net ∨
    v = Z.of_nat i ∧ ∃ L, Els' !! (t, x) = Some L ∧ (T' !! t = None → keeps T' A' v t L)) as Hnew.
  { intros t v x. rewrite HB. intros [(Hv & -> & -> & ->)%elem_of_cast|?]%elem_of_app; [|by left].
    rewrite Hme. destruct (Hvote _ eq_refl Hv) as [?|?]; [by left|by right]. }
  split.
  - intros j nd1. rewrite HN. intros [(<- & <- & _)|[_ Hj]]%list_lookup_insert_Some; [done|].
    eapply node_safe_mono; [done..|by eapply sf_node].
  - done.
  - intros t x L HL. destruct (Hels t x L HL) as [HL0|?]; [|done].
    destruct (sf_els _ _ _ _ _ Hinv t x L HL0) as (Hc & He & Hbal). split_and!; [|done|auto].
    eapply clog_grows; [by apply appends_grows|done].
  - intros t v x Hbal. destruct (Hnew t v x Hbal) as [Hbal0|(_ & L & HL & _)]; [|by eexists].
    destruct (sf_ballot _ _ _ _ _ Hinv t v x Hbal0) as [L HL]. exists L. by eapply lookup_weaken.
  - intros t v x L Hbal HTn HL. destruct (Hnew t v x Hbal) as [Hbal0|(_ & L' & HL' & Hk)]; [|simplify_eq; auto].
    destruct (sf_ballot _ _ _ _ _ Hinv t v x Hbal0) as [L0 HL0].
    pose proof (lookup_weaken _ _ _ _ HL0 HE) as HL1. assert (L0 = L) as -> by congruence.
    eapply keeps_mono; [done..|]. eapply sf_vote; [done|done| |done].
    destruct (T !! t) as [Lt|] eqn:E; [|done]. destruct (HT t Lt E) as (r & ? & _). congruence.
  - intros t L HL Hne. destruct (T !! t) as [L0|] eqn:E; [|by eapply Hwon].
    destruct (HT t L0 E) as (r & HL' & _). assert (L = L0 ++ r) as -> by congruence.
    destruct (sf_won _ _ _ _ _ Hinv t L0 E Hne) as (S & HS & Hq). exists S. split; [done|].
    intros v Hv. destruct (Hq v Hv) as [[x Hx] Hk]. split; [by eauto|].
    eapply keeps_prefix; [by eexists|]. by eapply keeps_mono.
  - intros v t m Hm. destruct (Hacks v t m Hm) as [Hm0|(-> & -> & Hd & L & HL & Hlen & Hh)].
    2:{ exists i, nd', L. rewrite HN, list_lookup_insert_eq by done. split_and!; auto. }
    destruct (sf_ack _ _ _ _ _ Hinv v t m Hm0) as (j & ndj & L0 & -> & Hj & Hd & HL0 & Hlen & Hh).
    destruct (HT t L0 HL0) as (r & HL' & _).
    assert (∀ k, (k ≤ m)%nat → has (L0 ++ r) k t → has L0 k t) as Hcut.
    { intros k Hk (e & He & Ht). exists e. by rewrite lookup_app_l in He by lia. }
    destruct (decide (j = i)) as [->|Hne].
    + exists i, nd', (L0 ++ r). rewrite HN, list_lookup_insert_eq by done. assert (ndj = nd) as -> by congruence.
      split_and!; [done|done|lia|done|rewrite length_app; lia|].
      intros k Hk Hh'. apply Hcut in Hh'; [|done]. destruct (Hh k Hk Hh') as [?|Ho].
      * apply Hold; [by exists m|by exists L0|done].
      * right. by eapply overwritten_mono.
    + exists j, ndj, (L0 ++ r). rewrite HN, list_lookup_insert_ne by done.
      split_and!; [done|done|lia|done|rewrite length_app; lia|].
      intros k Hk Hh'. apply Hcut in Hh'; [|done]. destruct (Hh k Hk Hh') as [?|Ho]; [by left|right].
      eapply overwritten_mono; [done|reflexivity|done].
  - done.
Qed.

(** A server that keeps its log and acknowledges nothing. *)
Lemma safe_inv_keep n net net' T A Els i nd nd' :
  net_inv n net → safe_inv n net T A Els → nodes net !! i = Some nd →
  nodes net' = <[i := nd']> (nodes net) → ballots net' = cast (raft nd') ++ ballots net →
  me (raft nd') = Z.of_nat i →
  disk_term (raft nd) ≤ disk_term (raft nd') → disk_term (raft nd) ≤ CurrentTerm (raft nd') →
  node_safe n i T A Els (raft nd') → Logs (raft nd') = Logs (raft nd) →
  (∀ x, VoteFor (raft nd') = x → x ≠ Unvote →
     (CurrentTerm (raft nd'), Z.of_nat i, x) ∈ ballots net ∨
     ∃ L, Els !! (CurrentTerm (raft nd'), x) = Some L ∧
       (T !! CurrentTerm (raft nd') = None → keeps T A (Z.of_nat i) (CurrentTerm (raft nd')) L)) →
  (∀ k c, calls net' !! k = Some c → call_safe n T A Els c) →
  safe_inv n net' T A Els.
Proof.
  intros Hnet Hinv Hi HN HB Hme Hd HdT Hn HL Hv Hc.
  eapply (safe_inv_update n net net' T T A A Els Els i nd nd'); try done.
  - intros t k _ _ Hh. left. by rewrite HL.
  - apply Hinv.
  - intros t L. congruence.
  - intros t x L ?. by left.
  - intros v t m ?. by left.
Qed.

(** The whole log is in [Logs]. *)
Lemma tracks_plain n net T A Els i nd g :
  net_inv n net → log_inv n net T → safe_inv n net T A Els → nodes net !! i = Some nd →
  clog T g → tracks g (raft nd) → g = Logs (raft nd).
Proof.
  intros Hnet Hlog Hinv Hi Hg (e0 & e & He0 & HL & Ht).
  pose proof (sf_node _ _ _ _ _ Hinv i nd Hi) as [Hp Hz _ _ _ _].
  rewrite (wf_discard _ (no_wf _ _ _ (ni_nodes _ _ Hnet i nd Hi))), Hp in *. simpl in He0, HL.
  rewrite HL in Hz. injection Hz as ->. destruct (Hg 0%nat e0 He0) as (L & HLt & Htk).
  rewrite <-Ht in HLt. simpl in HLt. rewrite (lg_base _ _ _ Hlog) in HLt. injection HLt as <-. rewrite HL.
  destruct g as [|a g]; [done|]. simpl in *. rewrite drop_0. congruence.
Qed.

Lemma plain_log n net T A Els i nd :
  net_inv n net → log_inv n net T → safe_inv n net T A Els → nodes net !! i = Some nd →
  clog T (Logs (raft nd)) ∧ DiscardCount (raft nd) = 0 ∧
  (identity (raft nd) = LEADER → T !! CurrentTerm (raft nd) = Some (Logs (raft nd))).
Proof.
  intros Hnet Hlog Hinv Hi. pose proof (λ g, tracks_plain _ _ _ _ _ _ _ g Hnet Hlog Hinv Hi) as Heq.
  destruct (lg_node _ _ _ Hlog i nd Hi) as [_ (g & Hg & Htr)]. split_and!.
  - by rewrite <-(Heq g).
  - rewrite (wf_discard _ (no_wf _ _ _ (ni_nodes _ _ Hnet i nd Hi))). by apply (sf_node _ _ _ _ _ Hinv i nd Hi).
  - intros HL. destruct (lg_leader _ _ _ Hlog i nd Hi HL) as (L & HLt & Htr').
    rewrite <-(Heq L); [done| |done]. by eapply lg_hist.
Qed.
End safety.
