(* ===== verification/RaftSafetySteps.v ===== *)
(** * Raft: every step keeps the safety invariant

    One lemma per kind of step of a run without snapshots: what the step does
    to a server, and that the history can be extended so that [safe_inv] of
    RaftSafety.v still holds. *)

From Stdlib Require Import Strings.Byte.
From stdpp Require Import prelude gmap strings list sets.
From S2P Require Import Prelude Gob Raft RaftNode RaftServer RaftCommit RaftEvolve RaftNet RaftElection RaftCluster RaftLog RaftOffice RaftSafety.
Local Open Scope Z_scope.

Section steps.
Context {C : Type} `{GobLaws Z} `{GobLaws (list (LogEntry C))}.
Implicit Types (rf : Raft C) (net : Net C) (nd : Node C) (c : Call C).
Implicit Types (T : gmap Z (list (LogEntry C))) (L : list (LogEntry C)) (A : list (Z * Z * nat)).
Implicit Types (Els : gmap (Z * Z) (list (LogEntry C))) (k m : nat) (t u v : Z).

(** The services take no snapshots. *)
Definition plain (ev : Local C) rf : Prop := match ev with LSnapshot _ _ => False | _ => True end.

Definition plain_step : Net C → Net C → Prop := net_step_if plain.

Lemma plain_log_step net net' : plain_step net net' → log_step net net'.
Proof. apply net_step_mono. by intros [] rf. Qed.

(** *** Quiet changes of a server *)

(** The log, the commit index and the term on disk do not go back; a
    candidate or leader already was one, and the leader's knowledge stays. *)
Record calm rf rf' : Prop := mkCalm {
  ca_logs : Logs rf' = Logs rf;
  ca_lii : lastIncludedIndex rf' = lastIncludedIndex rf;
  ca_commit : committedIndex rf' = committedIndex rf;
  ca_role : identity rf' ≠ FOLLOWER → identity rf' = identity rf ∧ CurrentTerm rf' = CurrentTerm rf;
  ca_match (j : nat) (m : Z) : identity rf' = LEADER → matchIndex rf' !! j = Some m → 0 < m → matchIndex rf !! j = Some m;
}.

(** No vote but the one the server already had. *)
Definition no_vote rf rf' : Prop :=
  VoteFor rf' = Unvote ∨ VoteFor rf' = VoteFor rf ∧ CurrentTerm rf' = CurrentTerm rf.

Lemma node_safe_calm n i T A Els rf rf' :
  calm rf rf' → disk_term rf ≤ disk_term rf' → node_safe n i T A Els rf → node_safe n i T A Els rf'.
Proof.
  intros [EL EI EC ER EM] Hd [Hp Hz Hc Hs Hm Hcm]. split.
  - congruence.
  - congruence.
  - intros HC. destruct ER as [HR ->]; [congruence|]. rewrite EL. apply Hc. congruence.
  - intros HL. destruct ER as [HR ->]; [congruence|]. rewrite EL. apply Hs. congruence.
  - intros j m HL Hj Hpos. pose proof (EM j m HL Hj Hpos). destruct ER as [HR ->]; [congruence|].
    eapply Hm; [congruence|done|done].
  - rewrite EL, EC. by eapply commit_ok_mono.
Qed.

(** The vote a server holds is recorded. *)
Lemma no_vote_old n net i nd rf' x (P : Prop) :
  net_inv n net → nodes net !! i = Some nd → no_vote (raft nd) rf' → VoteFor rf' = x → x ≠ Unvote →
  (CurrentTerm rf', Z.of_nat i, x) ∈ ballots net ∨ P.
Proof.
  intros Hnet Hi [HV|[HV HT]] <- Hx; [done|left]. rewrite HV in *. rewrite HT.
  by apply (bo_cast _ (ni_ballots _ _ Hnet)).
Qed.

(** What every event does to term, disk and name. *)
Lemma event_facts n net i nd ev rf' :
  net_inv n net → nodes net !! i = Some nd → step ev (raft nd) = Ret rf' →
  me rf' = Z.of_nat i ∧ disk_term (raft nd) ≤ disk_term rf' ∧ disk_term (raft nd) ≤ CurrentTerm rf'.
Proof.
  intros Hnet Hi Hret. pose proof (ni_nodes _ _ Hnet i nd Hi) as Hn. pose proof (step_evolves _ _ _ Hret) as Hev.
  split_and!; [rewrite (ev_me _ _ Hev); apply Hn|eapply event_disk_term; [apply Hn|done]|].
  etrans; [apply disk_term_le, Hn|]. by eapply vote_le_term, ev_vote.
Qed.

(** A calm step of one server. *)
Lemma safe_inv_calm n net net' T A Els i nd nd' :
  net_inv n net → safe_inv n net T A Els → nodes net !! i = Some nd →
  nodes net' = <[i := nd']> (nodes net) → ballots net' = cast (raft nd') ++ ballots net →
  me (raft nd') = Z.of_nat i → disk_term (raft nd) ≤ disk_term (raft nd') →
  disk_term (raft nd) ≤ CurrentTerm (raft nd') →
  calm (raft nd) (raft nd') → no_vote (raft nd) (raft nd') →
  (∀ k c, calls net' !! k = Some c → call_safe n T A Els c) → safe_inv n net' T A Els.
Proof.
  intros Hnet Hinv Hi HN HB Hme Hd HdT Hcalm Hv Hc. eapply (safe_inv_keep n net net' T A Els i nd nd'); try done.
  - eapply node_safe_calm; [done|done|by eapply sf_node].
  - apply Hcalm.
  - intros x. by eapply no_vote_old.
Qed.

(** *** Local steps *)

Lemma heartbeat_safe n T A Els rf ms j q (i e : nat) :
  wf rf → DiscardCount rf = 0 → T !! CurrentTerm rf = Some (Logs rf) →
  commit_ok n T A (committedIndex rf) (CurrentTerm rf) (Logs rf) →
  sendHeartBeat rf = Ret ms → (j, q) ∈ ms → call_safe n T A Els (mkCall i e j q None).
Proof.
  intros Hwf HD HT Hc Hs Hjm. pose proof (sendHeartBeat_to _ _ _ _ Hs Hjm) as Hm.
  destruct (heartBeatTo_args _ _ _ Hwf Hm) as [(args & x & -> & _ & Hl & _)
    |(args & k & x & -> & Ht & Hx & Hp & _ & HE & HC)]; unfold call_safe; simpl; [congruence|].
  rewrite Ht, HC, HE, Hp, HD. apply lookup_lt_Some in Hx. split_and!; [|by exists (Logs rf)|done].
  rewrite length_drop. destruct (decide (committedIndex rf ≤ 0)); [lia|].
  pose proof (commit_ok_length _ _ _ _ _ _ Hc). lia.
Qed.

Lemma node_commit n net T A Els i nd :
  net_inv n net → safe_inv n net T A Els → nodes net !! i = Some nd →
  commit_ok n T A (committedIndex (raft nd)) (CurrentTerm (raft nd)) (Logs (raft nd)).
Proof.
  intros Hnet Hinv Hi. eapply commit_ok_mono; [done|done| |done|apply (sf_node _ _ _ _ _ Hinv i nd Hi)].
  apply disk_term_le, (ni_nodes _ _ Hnet i nd Hi).
Qed.

Lemma sends_safe n net T A Els i nd rf' ms :
  (∀ k c, calls net !! k = Some c → call_safe n T A Els c) →
  (∀ j q, (j, q) ∈ ms → call_safe n T A Els (mkCall i (epoch nd) j q None)) →
  ∀ k c, calls (send i nd rf' ms net) !! k = Some c → call_safe n T A Els c.
Proof. intros Hold Hnew k c [Hk|(j & m & Hjm & ->)]%send_calls; [by eapply Hold|by apply Hnew]. Qed.

(** A leader appends. *)
Lemma safe_append n net T A Els i nd command r rf' ms L :
  net_inv n net → log_inv n net T → safe_inv n net T A Els → nodes net !! i = Some nd →
  identity (raft nd) = LEADER → T !! CurrentTerm (raft nd) = Some L → tracks L (raft nd) →
  Start command (raft nd) = Ret (rf', r, ms) →
  rf' = persist (set_Logs (Logs (raft nd) ++ [mkEntry command (CurrentTerm (raft nd))]) (raft nd)) →
  sendHeartBeat rf' = Ret ms →
  let T' := <[CurrentTerm (raft nd) := L ++ [mkEntry command (CurrentTerm (raft nd))]]> T in
  ∃ A', appends T T' ∧ (∀ a, a ∈ A → a ∈ A') ∧ safe_inv n (send i nd rf' ms net) T' A' Els.
Proof.
  intros Hnet Hlog Hinv Hi HL HTL _ Hret Heq Hsend. set (t := CurrentTerm (raft nd)) in *.
  destruct (plain_log _ _ _ _ _ _ _ Hnet Hlog Hinv Hi) as (Hc & HD & Hlead).
  specialize (Hlead HL). fold t in Hlead. assert (L = Logs (raft nd)) as -> by congruence.
  set (e := mkEntry command t) in *. set (g := Logs (raft nd)) in *. simpl. set (T' := <[t := g ++ [e]]> T).
  pose proof (ni_nodes _ _ Hnet i nd Hi) as Hn. pose proof (sf_node _ _ _ _ _ Hinv i nd Hi) as Hs.
  assert (appends T T') as HA.
  { intros u L HLu. destruct (decide (u = t)) as [->|Hne].
    - exists [e]. unfold T'. rewrite lookup_insert_eq. split; [congruence|]. by intros x ->%list_elem_of_singleton.
    - exists []. unfold T'. rewrite lookup_insert_ne, app_nil_r by done. split; [done|]. by intros x ?%not_elem_of_nil. }
  assert (wf rf') as Hwf'.
  { destruct (Start_safe (raft nd) command) as (? & ? & ? & Hret' & ? & _); [apply Hn|].
    rewrite Hret in Hret'. by simplify_eq. }
  assert (Logs rf' = g ++ [e] ∧ CurrentTerm rf' = t ∧ disk_term rf' = t ∧ committedIndex rf' = committedIndex (raft nd))
    as (EL & ET & ED & EC) by (rewrite Heq; unfold disk_term; by rewrite persist_booted).
  assert (T' !! t = Some (g ++ [e])) as HT' by apply lookup_insert_eq.
  set (A' := (Z.of_nat i, t, length g) :: A). exists A'.
  assert (∀ a, a ∈ A → a ∈ A') as HAA by (intros; by right).
  assert (commit_ok n T' A' (committedIndex rf') t (Logs rf')) as Hco.
  { rewrite EC, EL. pose proof (node_commit _ _ _ _ _ _ _ Hnet Hinv Hi) as Hc0.
    eapply commit_ok_mono; [exact HA|done|done| |exact Hc0]. intros Hpos. symmetry. apply take_app_le.
    pose proof (commit_ok_length _ _ _ _ _ _ Hc0 Hpos). unfold g. lia. }
  split_and!; [done|done|]. destruct (event_facts n net i nd (EvStart command) rf' Hnet Hi) as (Eme & Ed1 & Ed2).
  { simpl. by rewrite Hret. }
  eapply (safe_inv_update n net _ T T' A A' Els Els i nd (mkNode rf' (epoch nd))); simpl; try done.
  - split.
    + rewrite Heq. apply Hs.
    + rewrite EL. apply lookup_app_l_Some, Hs.
    + rewrite Heq. simpl. congruence.
    + intros _. rewrite EL, ET, length_app. simpl. exists (length g). split; [by left|lia].
    + intros j m _ Hj Hpos. rewrite ET. rewrite Heq in Hj. eapply acked_mono; [done|]. by apply Hs.
    + by rewrite ED.
  - intros u k _ _ Hh. left. rewrite EL. by apply has_app.
  - intros u L [[<- <-]|[_ HLu]]%lookup_insert_Some; [|by eapply sf_hist].
    split; [apply Hn|]. rewrite <-EL. apply Hwf'.
  - intros u L Hu [[<- <-]|[_ HLu]]%lookup_insert_Some; congruence.
  - intros u x L ?. by left.
  - intros x. eapply no_vote_old; [done|done|]. rewrite Heq. by right.
  - intros v u m [Ha|?]%elem_of_cons; [|by left]. right. injection Ha as -> -> ->. rewrite ET, ED, EL.
    split_and!; [done|done|done|]. exists (g ++ [e]). rewrite length_app. split_and!; [done|simpl; lia|done].
  - apply (sends_safe n net _ _ _ i nd rf').
    + intros k c Hk. eapply call_safe_mono; [done|done|done|by eapply sf_calls].
    + intros j m Hjm. eapply heartbeat_safe; [done| | |by rewrite ET|done|done].
      * by rewrite Heq.
      * by rewrite ET, EL.
Qed.

Lemma persist_same rf :
  Logs (persist rf) = Logs rf ∧ lastIncludedIndex (persist rf) = lastIncludedIndex rf ∧
  committedIndex (persist rf) = committedIndex rf ∧ CurrentTerm (persist rf) = CurrentTerm rf ∧
  VoteFor (persist rf) = VoteFor rf ∧ identity (persist rf) = identity rf ∧ DiscardCount (persist rf) = DiscardCount rf.
Proof. done. Qed.

(** A server stands for election. *)
Lemma tickElection_starts rf rf' ms :
  tickElection rf = Ret (rf', ms) → identity rf ≠ LEADER →
  Logs rf' = Logs rf ∧ lastIncludedIndex rf' = lastIncludedIndex rf ∧ committedIndex rf' = committedIndex rf ∧
  CurrentTerm rf' = CurrentTerm rf + 1 ∧ disk_term rf' = CurrentTerm rf + 1 ∧ VoteFor rf' = me rf ∧
  identity rf' = CANDIDATE ∧
  ∃ e, last (Logs rf) = Some e ∧ ∀ j q, (j, q) ∈ ms → ∃ args, q = RpcRequestVote args ∧
    rv_Term args = CurrentTerm rf + 1 ∧ rv_LastLogTerm args = Term e ∧
    rv_LastLogIndex args = RaftIndex rf (zlen (Logs rf) - 1).
Proof.
  unfold tickElection. intros Hret HnL. destruct (decide _) as [?|_]; [done|].
  set (rf0 := set_VoteFor _ _) in *.
  assert (Logs rf0 = Logs rf ∧ lastIncludedIndex rf0 = lastIncludedIndex rf ∧ committedIndex rf0 = committedIndex rf ∧
    CurrentTerm rf0 = CurrentTerm rf + 1 ∧ VoteFor rf0 = me rf ∧ identity rf0 = CANDIDATE ∧
    DiscardCount rf0 = DiscardCount rf) as (EL & EI & EC & ET & EV & Eid & ED) by done.
  clearbody rf0. pose proof (disk_term_persist rf0) as Hdt.
  destruct (persist_same rf0) as (EL1 & EI1 & EC1 & ET1 & EV1 & Eid1 & ED1).
  revert Hret. generalize dependent (persist rf0). intros rf1 Hdt EL1 EI1 EC1 ET1 EV1 Eid1 ED1 Hret. unfold kickOffNewElection in Hret. simpl in Hret.
  apply bind_Ret_inv in Hret as (e & [_ He]%go_index_Ret & Hret).
  rewrite EL1, EL in He. injection Hret as <- <-. simpl. split_and!; [congruence..|by rewrite (disk_term_ext rf1), Hdt|congruence|congruence|].
  exists e. split; [rewrite last_lookup, <-He; f_equal; lia|].
  intros j q (? & ? & _)%list_elem_of_fmap. simplify_eq. eexists. split; [done|]. simpl. split_and!; [congruence|done|].
  unfold RaftIndex. simpl. congruence.
Qed.

(** What a server acknowledged before it stood is in its log. *)
Lemma log_keeps n net T A Els i nd t L :
  safe_inv n net T A Els → nodes net !! i = Some nd → disk_term (raft nd) ≤ t - 1 →
  L = Logs (raft nd) → keeps T A (Z.of_nat i) t L.
Proof.
  intros Hinv Hi Hd -> t0 k Ht0 (m & Hm & Hk) (L0 & HL0 & Hh).
  destruct (sf_ack _ _ _ _ _ Hinv _ _ _ Hm) as (j & nd1 & L & Hij & Hj & _ & HL & _ & Hk').
  assert (j = i) as -> by lia. simplify_eq. destruct (Hk' k Hk Hh) as [?|?]; [by left|right].
  by eapply overwritten_mono.
Qed.

Lemma safe_election n net T A Els i nd rf' ms :
  net_inv n net → log_inv n net T → safe_inv n net T A Els → nodes net !! i = Some nd →
  tickElection (raft nd) = Ret (rf', ms) → identity (raft nd) ≠ LEADER →
  ∃ Els', safe_inv n (send i nd rf' ms net) T A Els'.
Proof.
  intros Hnet Hlog Hinv Hi Hret HnL. pose proof (ni_nodes _ _ Hnet i nd Hi) as Hn.
  pose proof (sf_node _ _ _ _ _ Hinv i nd Hi) as Hs. pose proof (disk_term_le _ (no_durable _ _ _ Hn)) as Hdle.
  destruct (plain_log _ _ _ _ _ _ _ Hnet Hlog Hinv Hi) as (Hc & HD & _).
  destruct (tickElection_starts _ _ _ Hret HnL) as (EL & EI & EC & ET & ED & EV & Eid & e & He & Hms).
  destruct (event_facts n net i nd EvElectionTimeout rf' Hnet Hi) as (Eme & Ed1 & Ed2); [simpl; by rewrite Hret|].
  set (t := CurrentTerm (raft nd) + 1) in *. set (g := Logs (raft nd)) in *.
  set (Els' := <[(t, Z.of_nat i) := g]> Els). exists Els'.
  assert (Els ⊆ Els') as HE.
  { apply insert_subseteq. destruct (Els !! (t, Z.of_nat i)) as [L|] eqn:E; [exfalso|done].
    destruct (sf_els _ _ _ _ _ Hinv _ _ _ E) as (_ & _ & Hb).
    pose proof (ballot_term _ _ _ _ _ _ Hnet Hb Hi). unfold t in *. lia. }
  assert (Els' !! (t, Z.of_nat i) = Some g) as HEg by apply lookup_insert_eq.
  rewrite (no_me _ _ _ Hn) in EV.
  eapply (safe_inv_update n net _ T T A A Els Els' i nd (mkNode rf' (epoch nd))); simpl; try done.
  - split.
    + rewrite EI. apply Hs.
    + rewrite EL. apply Hs.
    + intros _. by rewrite ET, EL.
    + congruence.
    + congruence.
    + rewrite EC, EL. eapply commit_ok_mono; [done|done|exact Ed1|done|apply Hs].
  - intros u k _ _ Hh. left. by rewrite EL.
  - apply Hinv.
  - congruence.
  - intros u x L [[[= <- <-] <-]|[_ ?]]%lookup_insert_Some; [right|by left]. split_and!; [done| |].
    + exists e. split; [done|]. unfold t. enough (Term e ≤ CurrentTerm (raft nd)) by lia.
      apply (wf_terms _ (no_wf _ _ _ Hn)). rewrite last_lookup in He. by eapply list_elem_of_lookup_2.
    + apply elem_of_app. left. apply elem_of_cast. rewrite EV, ET, Eme. split_and!; [unfold Unvote; lia|done..].
  - intros x <- _. right. exists g. rewrite EV, ET. split; [done|]. intros _.
    eapply log_keeps; [done|done|unfold t; lia|done].
  - intros v u m ?. by left.
  - apply (sends_safe n net _ _ _ i nd rf').
    + intros k c Hk. eapply call_safe_mono; [done|done|done|by eapply sf_calls].
    + intros j q Hjq. destruct (Hms j q Hjq) as (args & -> & Ha1 & Ha2 & Ha3).
      exists g, e. rewrite Ha1, Ha2, Ha3. unfold RaftIndex. rewrite HD. split_and!; [done|done|done|lia].
Qed.

(** Every local step. *)
Lemma safe_quiet_local n net T A Els i nd ev rf' ms :
  net_inv n net → log_inv n net T → safe_inv n net T A Els → nodes net !! i = Some nd →
  step (local_event ev) (raft nd) = Ret rf' → calm (raft nd) rf' → no_vote (raft nd) rf' →
  (ms = [] ∨ ∃ rf1, identity rf1 = LEADER ∧ core rf1 = core (raft nd) ∧ identity (raft nd) = LEADER ∧
     committedIndex rf1 = committedIndex (raft nd) ∧ sendHeartBeat rf1 = Ret ms) →
  safe_inv n (send i nd rf' ms net) T A Els.
Proof.
  intros Hnet Hlog Hinv Hi Hev Hcalm Hv Hms. pose proof (ni_nodes _ _ Hnet i nd Hi) as Hn.
  destruct (event_facts n net i nd _ rf' Hnet Hi Hev) as (Eme & Ed1 & Ed2).
  eapply (safe_inv_calm n net _ T A Els i nd (mkNode rf' (epoch nd))); try done.
  apply sends_safe; [apply Hinv|]. intros j q Hjq.
  destruct Hms as [-> |(rf1 & _ & Hcore & HL & HC & Hs)]; [by apply not_elem_of_nil in Hjq|].
  destruct (plain_log _ _ _ _ _ _ _ Hnet Hlog Hinv Hi) as (_ & HD & Hlead).
  assert (wf rf1) as Hwf1 by (eapply wf_core; [by symmetry|apply Hn]).
  pose proof (node_commit _ _ _ _ _ _ _ Hnet Hinv Hi) as Hc. specialize (Hlead HL).
  unfold core in Hcore. injection Hcore as _ _ ET EL ED _ _ _ _.
  eapply (heartbeat_safe n T A Els rf1); [done|congruence|congruence|by rewrite HC, ET, EL|done|done].
Qed.

Lemma applyLog_calm rf rf' r : applyLog rf = Ret (rf', r) → calm rf rf' ∧ no_vote rf rf'.
Proof. intros (w & p & la & ->)%applyLog_inv. by split; [|right]. Qed.

Lemma safe_local n net T A Els i nd ev rf' ms :
  net_inv n net → log_inv n net T → safe_inv n net T A Els → nodes net !! i = Some nd →
  local ev (raft nd) = Ret (rf', ms) → plain ev (raft nd) → (∀ command, ev = LStart command → rf' = raft nd) →
  ∃ Els', safe_inv n (send i nd rf' ms net) T A Els'.
Proof.
  intros Hnet Hlog Hinv Hi Hret Hp Hns. pose proof (local_step _ _ _ _ Hret) as Hev.
  assert (calm (raft nd) rf' → no_vote (raft nd) rf' → ms = [] →
    ∃ Els', safe_inv n (send i nd rf' ms net) T A Els') as Hquiet.
  { intros ???. exists Els. eapply (safe_quiet_local n net T A Els i nd ev); try done. by left. }
  destruct ev; simpl in Hret.
  - apply bind_Ret_inv in Hret as ([[rf1 x] y] & Hs & Hret). injection Hret as -> ->.
    apply Start_log in Hs as [[_ ->]|(_ & Heq & _)].
    + rewrite (Hns command) in * by done. apply Hquiet; [done|by right|done].
    + rewrite (Hns command) in Heq by done.
      apply (f_equal (length ∘ Logs)) in Heq. simpl in Heq. rewrite length_app in Heq. simpl in Heq. lia.
  - destruct (decide (identity (raft nd) = LEADER)) as [HL|HL]; [|by eapply safe_election].
    unfold tickElection in Hret. simpl in Hret. rewrite decide_True in Hret by done. injection Hret as <- <-.
    apply Hquiet; [done|by right|done].
  - unfold tickHeartbeat in Hret. simpl in Hret. destruct (decide _) as [HL|HL].
    + apply bind_Ret_inv in Hret as (ms1 & Hs & Hret). injection Hret as <- <-. exists Els.
      eapply (safe_quiet_local n net T A Els i nd LHeartbeatTimeout); [done..|by right|right].
      by exists (set_heartbeatTimer false (raft nd)).
    + injection Hret as <- <-. apply Hquiet; [done|by right|done].
  - apply bind_Ret_inv in Hret as ([rf1 x] & Ha & Hret). injection Hret as <- <-.
    apply applyLog_calm in Ha as [??]. by apply Hquiet.
  - done.
  - injection Hret as <- <-. apply Hquiet; [done|by right|done].
Qed.
End steps.
