(* ===== verification/RaftSafetyRpc.v ===== *)
(** * Raft: requests keep the safety invariant

    The handlers of the three requests, as steps of a run without snapshots:
    a vote goes to a log that has all the voter acknowledged, an accepted
    [ApplyEntries] is an acknowledgement and keeps what is committed, and
    [InstallSnapshot] finds nothing to install. *)

From Stdlib Require Import Strings.Byte.
From stdpp Require Import prelude gmap strings list sets.
From S2P Require Import Prelude Gob Raft RaftNode RaftServer RaftCommit RaftEvolve RaftNet RaftElection RaftCluster RaftLog RaftOffice RaftSafety RaftSafetySteps.
Local Open Scope Z_scope.

Section requests.
Context {C : Type} `{GobLaws Z} `{GobLaws (list (LogEntry C))}.
Implicit Types (rf : Raft C) (net : Net C) (nd : Node C) (c : Call C).
Implicit Types (T : gmap Z (list (LogEntry C))) (g L E : list (LogEntry C)) (A : list (Z * Z * nat)).
Implicit Types (Els : gmap (Z * Z) (list (LogEntry C))) (k m : nat) (t u v : Z).

(** *** What the handlers do *)

Lemma RequestVote_outcome rf args rf' r :
  RequestVote rf args = Ret (rf', r) →
  calm rf rf' ∧
  (no_vote rf rf' ∨
   CurrentTerm rf ≤ rv_Term args ∧ CurrentTerm rf' = rv_Term args ∧ VoteFor rf' = rv_CandidateId args ∧
   ∃ e, last (Logs rf) = Some e ∧
     (Term e < rv_LastLogTerm args ∨
      Term e = rv_LastLogTerm args ∧ RaftIndex rf (zlen (Logs rf) - 1) ≤ rv_LastLogIndex args)).
Proof.
  unfold RequestVote. intros Hret. destruct (_ || _) eqn:Hg.
  { injection Hret as <- <-. split; [done|left; by right]. }
  apply orb_false_iff in Hg as [Hlt _]. set (rf1 := if rv_Term args >? CurrentTerm rf then _ else rf) in *.
  assert (Logs rf1 = Logs rf ∧ lastIncludedIndex rf1 = lastIncludedIndex rf ∧ committedIndex rf1 = committedIndex rf ∧
    DiscardCount rf1 = DiscardCount rf ∧ matchIndex rf1 = matchIndex rf ∧ no_vote rf rf1 ∧
    (identity rf1 ≠ FOLLOWER → identity rf1 = identity rf ∧ CurrentTerm rf1 = CurrentTerm rf))
    as (EL & EI & EC & ED & EM & EV & ER).
  { subst rf1. destruct (rv_Term args >? _); [|split_and!; [done..|by right|done]].
    simpl. split_and!; [by case_match..|by left|done]. }
  clearbody rf1. apply bind_Ret_inv in Hret as (e & [_ He]%go_index_Ret & Hret). rewrite EL in He, Hret.
  destruct (negb _) eqn:Hok; injection Hret as <- <-.
  - split; [|by left]. split; simpl; [done|done|done|done|]. intros j m _. by rewrite EM.
  - split; [by split|right]. simpl. split_and!; [zlia|done|done|]. exists e. unfold RaftIndex in *.
    rewrite ED in Hok. split; [rewrite last_lookup, <-He; f_equal; lia|].
    apply negb_false_iff, orb_true_iff in Hok as [?|?]; [left|right]; zlia.
Qed.

Lemma adoptTerm_calm t rf : calm rf (adoptTerm t rf) ∧ no_vote rf (adoptTerm t rf).
Proof.
  unfold adoptTerm, no_vote. simpl. destruct (_ <? _); simpl; (split; [by split|]); [by left|by right].
Qed.

Lemma calm_persist rf rf' : calm rf rf' → calm rf (persist rf').
Proof. by intros []. Qed.

(** [ApplyEntries] always writes to the disk before it replies. *)
Lemma ApplyEntries_writes rf args rf' r :
  ApplyEntries rf args = Ret (rf', r) →
  disk_term rf' = CurrentTerm rf' ∧ lastIncludedIndex rf' = lastIncludedIndex rf ∧ no_vote rf rf' ∧
  me rf' = me rf.
Proof.
  intros Hret. assert (me rf' = me rf) as Hme by by eapply ev_me, ApplyEntries_evolves.
  unfold ApplyEntries in Hret. destruct (_ >? _) eqn:Hlt.
  { injection Hret as <- <-. rewrite disk_term_persist. split_and!; [done|done|by right|done]. }
  destruct (adoptTerm_calm (ae_Term args) rf) as [[_ EI _ _ _] EV].
  set (rf1 := adoptTerm _ _) in *. clearbody rf1. unfold updateCommit in Hret.
  assert (∀ rf2, lastIncludedIndex rf2 = lastIncludedIndex rf1 → VoteFor rf2 = VoteFor rf1 →
    CurrentTerm rf2 = CurrentTerm rf1 → me (persist rf2) = me rf → disk_term (persist rf2) = CurrentTerm (persist rf2) ∧
    lastIncludedIndex (persist rf2) = lastIncludedIndex rf ∧ no_vote rf (persist rf2) ∧ me (persist rf2) = me rf) as Hp.
  { intros rf2 E1 E2 E3 E4. rewrite disk_term_persist. unfold no_vote in *. simpl. rewrite E1, E2, E3. done. }
  go_inv; apply Hp; try done; repeat case_match; done.
Qed.

(** With no snapshot there is nothing to install. *)
Lemma InstallSnapshot_plain rf args rf' r :
  InstallSnapshot rf args = Ret (rf', r) → is_LastIncludedIndex args = 0 → 0 ≤ lastIncludedIndex rf →
  calm rf rf' ∧ no_vote rf rf'.
Proof.
  unfold InstallSnapshot. intros Hret Hi Hl. destruct (_ <? _); [injection Hret as <- <-; split; [done|by right]|].
  destruct (adoptTerm_calm (is_Term args) rf) as [Hc Hv]. pose proof (ca_lii _ _ Hc) as EI.
  destruct (_ >=? _) eqn:Hg; [injection Hret as <- <-; done|]. rewrite Hi, EI in Hg. zlia.
Qed.

(** *** Votes *)

Lemma safe_vote n net T A Els k c nd args rf' r :
  net_inv n net → log_inv n net T → safe_inv n net T A Els → calls net !! k = Some c →
  nodes net !! Z.to_nat (c_dst c) = Some nd → c_rpc c = RpcRequestVote args →
  RequestVote (raft nd) args = Ret (rf', r) → safe_inv n (answer k c nd rf' (RepRequestVote r) net) T A Els.
Proof.
  intros Hnet Hlog Hinv Hk Hi Hrpc Hret. pose proof (ni_calls _ _ Hnet k c Hk) as Hc.
  pose proof (ni_nodes _ _ Hnet _ nd Hi) as Hn. pose proof (disk_term_le _ (no_durable _ _ _ Hn)) as Hdle.
  destruct (event_facts n net _ nd (EvRequestVote args) rf' Hnet Hi) as (Eme & Ed1 & Ed2); [by simpl; rewrite Hret|].
  destruct (RequestVote_outcome _ _ _ _ Hret) as [Hcalm Hv].
  assert (∀ k' c', calls (answer k c nd rf' (RepRequestVote r) net) !! k' = Some c' → call_safe n T A Els c') as Hcalls.
  { intros k' c' [[_ <-]|[_ Hk']]%answer_calls; [|by eapply sf_calls].
    pose proof (sf_calls _ _ _ _ _ Hinv k c Hk) as Hs. unfold call_safe in *. simpl. by rewrite Hrpc in *. }
  eapply (safe_inv_keep n net _ T A Els _ nd (mkNode rf' (epoch nd))); [done|done|exact Hi|done|done|done|done|done|..].
  - eapply node_safe_calm; [done|done|by eapply sf_node].
  - apply Hcalm.
  - intros x Hx Hne. destruct Hv as [Hv|(Hle & ET & EV & e & He & Hok)]; [by eapply no_vote_old|right].
    destruct (cl_vote _ _ _ _ Hc args Hrpc) as (Hcand & _).
    pose proof (sf_calls _ _ _ _ _ Hinv k c Hk) as Hs. unfold call_safe in Hs. rewrite Hrpc in Hs.
    destruct Hs as (L & e' & HL & He' & Ht & Hlen). simpl in *. rewrite ET, <-Hx, EV, Hcand.
    exists L. split; [done|]. intros HTn t0 k0 Ht0 (m & Hm & Hkm) (L0 & HL0 & Hh).
    destruct (sf_els _ _ _ _ _ Hinv _ _ _ HL) as (HcL & (e1 & He1 & Hlt) & _).
    assert (e1 = e') as -> by congruence.
    destruct (plain_log _ _ _ _ _ _ _ Hnet Hlog Hinv Hi) as (Hcg & HD & _). unfold RaftIndex in Hok. rewrite HD in Hok.
    assert (∀ h, h ≤ rv_Term args → overwritten T t0 k0 h → overwritten T t0 k0 (rv_Term args - 1)) as Hcut.
    { intros h Hh' (w & Hw & Lw & HLw & Hno). exists w. split; [|by exists Lw].
      enough (w ≠ rv_Term args) by lia. congruence. }
    destruct (sf_ack _ _ _ _ _ Hinv _ _ _ Hm) as (j & ndj & L1 & Hij & Hj & _ & HL1 & _ & Hk').
    assert (j = Z.to_nat (c_dst c)) as -> by lia. simplify_eq.
    destruct (Hk' k0 Hkm Hh) as [Hg|Ho]; [|right; eapply Hcut, Ho; lia].
    destruct (up_to_date T (Logs (raft nd)) L k0 t0 e e') as [?|Ho]; try done.
    + apply Hn.
    + intros w Lw HLw. by eapply sf_hist.
    + destruct Hok as [?|[? ?]]; [left; lia|right; split; lia].
    + by left.
    + right. eapply Hcut, Ho. lia.
  - done.
Qed.

(** *** Snapshots *)

Lemma safe_install n net T A Els k c nd args rf' r :
  net_inv n net → safe_inv n net T A Els → calls net !! k = Some c →
  nodes net !! Z.to_nat (c_dst c) = Some nd → c_rpc c = RpcInstallSnapshot args →
  InstallSnapshot (raft nd) args = Ret (rf', r) → safe_inv n (answer k c nd rf' (RepInstallSnapshot r) net) T A Els.
Proof.
  intros Hnet Hinv Hk Hi Hrpc Hret. pose proof (ni_nodes _ _ Hnet _ nd Hi) as Hn.
  pose proof (sf_calls _ _ _ _ _ Hinv k c Hk) as Hs. unfold call_safe in Hs. rewrite Hrpc in Hs.
  destruct (event_facts n net _ nd (EvInstallSnapshot args) rf' Hnet Hi) as (Eme & Ed1 & Ed2); [by simpl; rewrite Hret|].
  destruct (InstallSnapshot_plain _ _ _ _ Hret Hs) as [Hcalm Hv]; [apply Hn|].
  eapply (safe_inv_calm n net _ T A Els _ nd (mkNode rf' (epoch nd))); [done|done|exact Hi|done..|].
  intros k' c' [[_ <-]|[_ Hk']]%answer_calls; [|by eapply sf_calls]. unfold call_safe. simpl. by rewrite Hrpc.
Qed.

(** *** Entries *)

Lemma commit_ok_le n T A x x' hi L : commit_ok n T A x hi L → x' ≤ x → commit_ok n T A x' hi L.
Proof.
  intros [?|(t & m & Lt & ? & ? & ? & ? & Heq)] Hle; [left; lia|]. right. exists t, m, Lt. split_and!; [done..|lia|].
  eapply take_eq_mono; [done|lia].
Qed.

(** The log of the leader of [u] has what a server up to [u] committed. *)
Lemma committed_in_leader n net T A Els x hi u L g :
  net_inv n net → log_inv n net T → safe_inv n net T A Els → T !! u = Some L → hi ≤ u →
  commit_ok n T A x hi g → 0 < x → take (S (Z.to_nat x)) g = take (S (Z.to_nat x)) L.
Proof.
  intros Hnet Hlog Hinv HL Hhi [?|(t & m & Lt & Hc & HLt & Ht & Hx & Heq)] Hpos; [lia|]. rewrite Heq.
  destruct (decide (t = u)) as [->|Hne]; [congruence|].
  pose proof (leader_completeness_inv n net T A Els t m u L Hnet Hinv Hc ltac:(lia) HL) as Hh.
  destruct Hc as [(L0 & HL0 & Hh0) _]. assert (L0 = Lt) as -> by congruence.
  eapply take_eq_mono; [|instantiate (1 := S m); lia].
  eapply has_agree; [by eapply lg_hist|by eapply lg_hist|done|done].
Qed.

(** A follower that takes entries of leader [u]: its new log [g'] agrees with
    the leader's up to [q], and is [g] or what the leader sent. *)
Definition merged g g' L (q : nat) : Prop :=
  take (S q) g' = take (S q) L ∧ (q < length L)%nat ∧
  (g' = g ∨ g' = take (S q) L ∧ ∀ m : nat, (m ≤ length g)%nat → take m g = take m L → (m ≤ S q)%nat).

Lemma merged_has T g g' L (q : nat) t u k :
  clog T g → clog T L → T !! u = Some L → merged g g' L q → t ≤ u → put T t k → has g k t →
  has g' k t ∨ overwritten T t k u.
Proof.
  intros Hg HL HTL (_ & _ & [->|[-> Hmax]]) Htu Hp Hh; [by left|].
  destruct (decide (has L k t)) as [HhL|HhL].
  - left. pose proof (has_agree _ _ _ _ _ Hg HL Hh HhL) as Heq. pose proof (has_length _ _ _ Hh).
    pose proof (Hmax (S k) ltac:(lia) Heq). eapply (has_take L _ k (S k)); [|lia|done].
    by rewrite take_take, Nat.min_l by lia.
  - right. exists u. split; [|by exists L]. destruct (decide (t = u)) as [->|]; [|lia].
    destruct Hp as (L0 & HL0 & Hh0). congruence.
Qed.

Lemma merged_commit n net T A Els x hi u L g g' (q : nat) :
  net_inv n net → log_inv n net T → safe_inv n net T A Els → T !! u = Some L → hi ≤ u →
  merged g g' L q → commit_ok n T A x hi g → commit_ok n T A x u g'.
Proof.
  intros Hnet Hlog Hinv HL Hhi (_ & _ & Hm) Hc. eapply commit_ok_mono; [done|done|exact Hhi| |done]. intros Hpos.
  destruct Hm as [->|[-> Hmax]]; [done|].
  pose proof (committed_in_leader _ _ _ _ _ _ _ _ _ _ Hnet Hlog Hinv HL Hhi Hc Hpos) as Heq.
  pose proof (commit_ok_length _ _ _ _ _ _ Hc Hpos). pose proof (Hmax (S (Z.to_nat x)) ltac:(lia) Heq).
  by rewrite Heq, take_take, Nat.min_l by lia.
Qed.

Lemma merged_by T g L E (p : nat) e0 e1 :
  clog T g → clog T L → g !! p = Some e0 → L !! p = Some e1 → Term e0 = Term e1 → E `prefix_of` drop (S p) L →
  merged g (mergeLog g (S p) E) L (p + length E).
Proof.
  intros Hg HL He0 He1 Ht HE. destruct (merge_cases T g L E p e0 e1) as (Hpre & Hlen & Hm); [done..|].
  split_and!; [|lia|].
  - destruct Hm as [[-> Heq]|[-> _]]; [done|]. by rewrite take_take, Nat.min_id.
  - destruct Hm as [[-> _]|[-> Hmax]]; [by left|right]. split; [done|]. exact Hmax.
Qed.

(** The index an accepted request commits up to is committed. *)
Lemma accept_commit n net T A Els u L g g' (p : nat) rf args :
  net_inv n net → log_inv n net T → safe_inv n net T A Els → T !! u = Some L → disk_term rf ≤ u →
  g = Logs rf → merged g g' L (p + length (ae_Entries args)) → ae_PrevLogIndex args = Z.of_nat p →
  ae_LeaderCommit args ≤ ae_PrevLogIndex args + zlen (ae_Entries args) →
  commit_ok n T A (ae_LeaderCommit args) u L → commit_ok n T A (committedIndex rf) (disk_term rf) g →
  commit_ok n T A (new_commit rf args) u g'.
Proof.
  intros Hnet Hlog Hinv HL Hd -> Hm Hp Hub HcL Hcg. unfold new_commit.
  destruct (_ >? _); [|by eapply merged_commit].
  set (x := Z.min _ _). assert (x ≤ ae_LeaderCommit args) as Hx by lia.
  eapply commit_ok_mono; [done|done|reflexivity| |by eapply commit_ok_le]. intros Hpos.
  destruct Hm as (Heq & _). symmetry. eapply take_eq_mono; [done|lia].
Qed.

Lemma safe_entries n net T A Els k c nd args rf' r :
  net_inv n net → log_inv n net T → safe_inv n net T A Els → calls net !! k = Some c →
  nodes net !! Z.to_nat (c_dst c) = Some nd → c_rpc c = RpcApplyEntries args →
  ApplyEntries (raft nd) args = Ret (rf', r) →
  ∃ A', (∀ a, a ∈ A → a ∈ A') ∧ safe_inv n (answer k c nd rf' (RepApplyEntries r) net) T A' Els.
Proof.
  intros Hnet Hlog Hinv Hk Hi Hrpc Hret. pose proof (ni_nodes _ _ Hnet _ nd Hi) as Hn.
  pose proof (ni_calls _ _ Hnet k c Hk) as Hcall. pose proof (sf_node _ _ _ _ _ Hinv _ nd Hi) as Hnode.
  pose proof (sf_calls _ _ _ _ _ Hinv k c Hk) as Hs. unfold call_safe in Hs. rewrite Hrpc in Hs.
  pose proof (cl_rpc _ _ _ _ Hcall) as Hval. rewrite Hrpc in Hval. simpl in Hval.
  pose proof (lg_calls _ _ _ Hlog k c Hk) as Hcar. rewrite Hrpc in Hcar. simpl in Hcar.
  destruct (event_facts n net _ nd (EvApplyEntries args) rf' Hnet Hi) as (Eme & Ed1 & Ed2); [by simpl; rewrite Hret|].
  destruct (ApplyEntries_writes _ _ _ _ Hret) as (Edt & EI & EV & _).
  destruct (plain_log _ _ _ _ _ _ _ Hnet Hlog Hinv Hi) as (Hcg & HD & _).
  destruct Hcar as (L & p & e & HL & Hp & He & Ht & HE). destruct Hs as (Hub & (L0 & HL0 & HcL) & Hrep).
  assert (L0 = L) as -> by congruence. set (i := Z.to_nat (c_dst c)) in *.
  assert (calm (raft nd) rf' → aer_Success r = false → safe_inv n (answer k c nd rf' (RepApplyEntries r) net) T A Els) as Hrefuse.
  { intros Hcalm Hr. eapply (safe_inv_calm n net _ T A Els i nd (mkNode rf' (epoch nd))); [done|done|exact Hi|done..|].
    intros k' c' [[_ <-]|[_ Hk']]%answer_calls; [|by eapply sf_calls]. unfold call_safe. simpl. rewrite Hrpc.
    split_and!; [done|by exists L|]. intros r' [= <-]. congruence. }
  destruct (decide (ae_Term args < CurrentTerm (raft nd))) as [?|Hle].
  { exists A. split; [done|]. rewrite ApplyEntries_stale in Hret by done. injection Hret as <- <-. by apply Hrefuse. }
  assert (lastIncludedIndex (raft nd) ≤ ae_PrevLogIndex args) as Hprev by (rewrite (sn_plain _ _ _ _ _ _ Hnode); lia).
  destruct (ReplicateCheck_prev (raft nd) args (no_wf _ _ _ Hn)) as (b & _ & Hiff). destruct b.
  2:{ destruct (ApplyEntries_reject (raft nd) args) as (r1 & Hret' & _ & Hf & _); [apply Hn|lia|done|by rewrite <-Hiff|].
      rewrite Hret in Hret'. injection Hret' as -> ->. exists A. split; [done|]. apply Hrefuse; [|done].
      apply calm_persist, adoptTerm_calm. }
  destruct (ApplyEntries_accept (raft nd) args) as (rf1 & Hret' & Hwf' & ET & Eid & _ & EC & EL);
    [apply Hn|done|lia|by apply Hiff|]. rewrite Hret in Hret'. injection Hret' as <- ->.
  assert (∃ e0, Logs (raft nd) !! p = Some e0 ∧ Term e0 = ae_PrevLogTerm args) as (e0 & He0 & Ht0).
  { destruct Hiff as [Hiff _]. destruct (Hiff eq_refl) as (e0 & He0 & Ht0). exists e0. split; [|done].
    unfold entry_at, RealIndex in He0. rewrite HD, Hp in He0. case_match; [|done]. rewrite <-He0. f_equal. lia. }
  set (q := (p + length (ae_Entries args))%nat) in *.
  assert (merged (Logs (raft nd)) (Logs rf') L q) as Hm.
  { rewrite EL. unfold RealIndex. rewrite HD, Hp, Z.sub_0_r, Nat2Z.id.
    eapply (merged_by T); [done|by eapply lg_hist|done|done|congruence|done]. }
  set (u := ae_Term args) in *. set (A' := (Z.of_nat i, u, q) :: A). exists A'.
  assert (∀ a, a ∈ A → a ∈ A') as HAA by (intros; by right). split; [done|].
  assert (Z.of_nat i = c_dst c) as Ei by (pose proof (cl_dst _ _ _ _ Hcall); lia).
  assert (disk_term (raft nd) ≤ u) as Hdu by lia.
  eapply (safe_inv_update n net _ T T A A' Els Els i nd (mkNode rf' (epoch nd))); try done.
  - split; simpl.
    + rewrite EI. apply Hnode.
    + destruct Hm as (_ & _ & [->|[-> _]]); [apply Hnode|]. rewrite lookup_take_lt by lia.
      pose proof (sn_zero _ _ _ _ _ _ Hnode) as Hz.
      destruct (merge_cases T (Logs (raft nd)) L (ae_Entries args) p e0 e) as (Hpre & _);
        [done|by eapply lg_hist|done|done|congruence|done|].
      rewrite <-(take_eq_lookup _ _ _ 0 Hpre) by lia. done.
    + congruence.
    + congruence.
    + congruence.
    + rewrite EC, Edt, ET. eapply commit_ok_mono; [reflexivity|exact HAA|reflexivity|reflexivity|].
      eapply accept_commit; try done. apply Hnode.
  - intros t j (m & Hma & _) Hpt Hh. simpl. rewrite Edt, ET.
    eapply merged_has; [done|by eapply lg_hist|done|done| |done|done].
    destruct (sf_ack _ _ _ _ _ Hinv _ _ _ Hma) as (j1 & nd1 & _ & Hij & Hj & ? & _).
    assert (j1 = i) as -> by lia. simplify_eq. lia.
  - apply Hinv.
  - congruence.
  - intros t x L1 ?. by left.
  - intros x. by eapply no_vote_old.
  - intros v t m [Ha|?]%elem_of_cons; [right|by left]. injection Ha as -> -> ->. simpl. rewrite Edt, ET.
    split_and!; [done|done|done|]. exists L. destruct Hm as (Heq & Hlen & _). split_and!; [done|done|].
    intros j Hj. eapply has_take; [symmetry; exact Heq|lia].
  - intros k' c' [[_ <-]|[_ Hk']]%answer_calls; [|eapply call_safe_mono; [done..|by eapply sf_calls]].
    unfold call_safe. simpl. rewrite Hrpc. split_and!; [done| |].
    + exists L. split; [done|]. eapply commit_ok_mono; [reflexivity|exact HAA|reflexivity|reflexivity|exact HcL].
    + intros r' Hr _. injection Hr as <-. split; [done|]. rewrite <-Ei, Hp. apply elem_of_cons. left. f_equal. unfold q. lia.
Qed.

Lemma safe_deliver n net T A Els k c nd rf' r :
  net_inv n net → log_inv n net T → safe_inv n net T A Els → calls net !! k = Some c →
  nodes net !! Z.to_nat (c_dst c) = Some nd → handle (raft nd) (c_rpc c) = Ret (rf', r) →
  ∃ A', (∀ a, a ∈ A → a ∈ A') ∧ safe_inv n (answer k c nd rf' r net) T A' Els.
Proof.
  intros Hnet Hlog Hinv Hk Hi Hret. destruct (c_rpc c) as [args|args|args] eqn:Hrpc; simpl in Hret;
    apply bind_Ret_inv in Hret as ([rf1 r1] & Hret & Heq); injection Heq as <- <-.
  - exists A. split; [done|by eapply safe_vote].
  - by eapply safe_entries.
  - exists A. split; [done|by eapply safe_install].
Qed.
End requests.
