(* ===== verification/RaftSafetyReply.v ===== *)
(** * Raft: replies and restarts keep the safety invariant

    A candidate that wins makes its log the log of its term; a leader commits
    what a majority acknowledged in its own term; a restarted server is one
    that has committed nothing yet. *)

From Stdlib Require Import Strings.Byte.
From stdpp Require Import prelude gmap strings list sets.
From S2P Require Import Prelude Gob Raft RaftNode RaftServer RaftCommit RaftEvolve RaftNet RaftElection RaftCluster RaftLog RaftOffice RaftSafety RaftSafetySteps RaftSafetyRpc.
Local Open Scope Z_scope.

Section replies.
Context {C : Type} `{GobLaws Z} `{GobLaws (list (LogEntry C))}.
Implicit Types (rf : Raft C) (net : Net C) (nd : Node C) (c : Call C).
Implicit Types (T : gmap Z (list (LogEntry C))) (g L E : list (LogEntry C)) (A : list (Z * Z * nat)).
Implicit Types (Els : gmap (Z * Z) (list (LogEntry C))) (k m : nat) (t u v : Z).

(** *** What replies do *)

Definition wins rf rf' : Prop :=
  identity rf = CANDIDATE ∧ identity rf' = LEADER ∧ Logs rf' = Logs rf ∧
  lastIncludedIndex rf' = lastIncludedIndex rf ∧ committedIndex rf' = committedIndex rf ∧
  CurrentTerm rf' = CurrentTerm rf ∧ persister rf' = persister rf ∧ no_vote rf rf' ∧
  ∀ (j : nat) (m : Z), matchIndex rf' !! j = Some m → m = 0.

Lemma stepDown_calm t rf : calm rf (persist (stepDown t rf)) ∧ no_vote rf (persist (stepDown t rf)).
Proof. split; [done|by left]. Qed.

Lemma vote_reply rf args r rf' :
  wf rf → handleRequestVoteReply rf args r = Ret rf' → calm rf rf' ∧ no_vote rf rf' ∨ wins rf rf'.
Proof.
  intros Hwf Hret. unfold handleRequestVoteReply in Hret.
  destruct (_ <? _); [injection Hret as <-; left; split; [done|by right]|].
  destruct (_ >? _); [injection Hret as <-; left; apply stepDown_calm|].
  destruct (rvr_VoteGranted r); [|injection Hret as <-; left; split; [done|by right]].
  destruct (_ && _) eqn:Hw; [right|injection Hret as <-; left; split; [done|by right]].
  apply andb_true_iff in Hw as [_ Hid%bool_decide_eq_true].
  match type of Hret with becomeLeader ?x = _ => destruct (becomeLeader_safe x) as (rf1 & Hret' & _ & ->); [solve_wf|] end.
  rewrite Hret in Hret'. injection Hret' as ->.
  unfold wins. simpl in *. split_and!; try done; [by right|]. intros j m Hj. by apply lookup_replicate in Hj as [-> _].
Qed.

Lemma install_reply rf dst args r rf' :
  handleInstallSnapshotReply rf dst args r = Ret rf' → is_LastIncludedIndex args = 0 →
  calm rf rf' ∧ no_vote rf rf'.
Proof.
  intros Hret Hz. unfold handleInstallSnapshotReply in Hret.
  destruct (_ <? _); [injection Hret as <-; split; [done|by right]|].
  destruct (_ >? _); [injection Hret as <-; apply stepDown_calm|].
  apply bind_Ret_inv in Hret as (x & _ & Hret). destruct (_ <=? _); [|injection Hret as <-; split; [done|by right]].
  apply bind_Ret_inv in Hret as (mi & [_ ->]%go_set_Ret & Hret).
  apply bind_Ret_inv in Hret as (ni & _ & Hret). injection Hret as <-. split; [|by right].
  split; try done. simpl. rewrite Hz. intros j m _ [(_ & <- & _)|[_ ?]]%list_lookup_insert_Some ?; [lia|done].
Qed.

(** [matchIndex] moves to the end of what a request carried. *)
Lemma entries_reply rf dst args r rf' :
  handleApplyEntriesReply rf dst args r = Ret rf' →
  calm rf rf' ∧ no_vote rf rf' ∨
  aer_Success r = true ∧ CurrentTerm rf ≤ aer_Term r ∧ 0 ≤ dst < zlen (matchIndex rf) ∧ ∃ rf1 ni,
    rf1 = set_nextIndex ni (set_matchIndex
      (<[Z.to_nat dst := ae_PrevLogIndex args + zlen (ae_Entries args)]> (matchIndex rf)) rf) ∧
    length ni = length (nextIndex rf) ∧ updateCommittedIndex rf1 = Ret rf'.
Proof.
  intros Hret. unfold handleApplyEntriesReply in Hret.
  destruct (_ <? _) eqn:Hlt; [injection Hret as <-; left; split; [done|by right]|].
  assert (∀ x, (ni ← go_set (nextIndex rf) dst x; Ret (set_nextIndex ni rf)) = Ret rf' → calm rf rf' ∧ no_vote rf rf')
    as Hnext.
  { intros x (ni & _ & Hr)%bind_Ret_inv. injection Hr as <-. split; [done|by right]. }
  destruct (negb _) eqn:Hs; [left|].
  { destruct (_ >? _); [destruct (_ >? _); injection Hret as <-; [apply stepDown_calm|split; [done|by right]]|].
    destruct (_ =? _); [by eapply Hnext|].
    apply bind_Ret_inv in Hret as (x & _ & Hret). apply bind_Ret_inv in Hret as (b & _ & Hret).
    destruct (negb b); [by eapply Hnext|]. apply bind_Ret_inv in Hret as (y & _ & Hret).
    apply bind_Ret_inv in Hret as (e & _ & Hret). destruct (negb (Term e =? _)); [done|by eapply Hnext]. }
  apply negb_false_iff in Hs.
  destruct (_ >? _); [|injection Hret as <-; left; split; [done|by right]].
  apply bind_Ret_inv in Hret as (x & _ & Hret).
  destruct (_ =? _); [|injection Hret as <-; left; split; [done|by right]].
  apply bind_Ret_inv in Hret as (mi & [Hr ->]%go_set_Ret & Hret).
  apply bind_Ret_inv in Hret as (ni & [_ Hni]%go_set_Ret & Hret). right. split_and!; [done|zlia|lia|lia|].
  eexists _, ni. split_and!; [done| |].
  - rewrite Hni. simpl. by rewrite length_insert.
  - rewrite <-Hret. repeat f_equal. lia.
Qed.

(** *** Commitment *)

(** A majority of acknowledgements of an entry of the leader's term. *)
Lemma quorum_committed n T A i rf (x : Z) e :
  peers rf = n → me rf = Z.of_nat i → 0 < x → DiscardCount rf = 0 → T !! CurrentTerm rf = Some (Logs rf) →
  acked A (Z.of_nat i) (CurrentTerm rf) (pred (length (Logs rf))) →
  (∀ (j : nat) (m : Z), matchIndex rf !! j = Some m → 0 < m → acked A (Z.of_nat j) (CurrentTerm rf) (Z.to_nat m)) →
  quorum_at rf x = true → entry_at rf x = Some e → Term e = CurrentTerm rf →
  commit_ok n T A x (CurrentTerm rf) (Logs rf).
Proof.
  intros Hpe Hme Hx HD HT Hself Hmatch Hq He Ht. unfold entry_at, RealIndex in He. rewrite HD, Z.sub_0_r in He.
  case_match; [|done]. right. exists (CurrentTerm rf), (Z.to_nat x), (Logs rf).
  split_and!; [|done|done|lia|done]. split; [exists (Logs rf); split; [done|by exists e]|].
  set (js := filter (λ j, has_entry rf x j) (otherPeers rf)).
  assert (NoDup js) as Hnd by apply NoDup_filter, otherPeers_NoDup.
  assert (Z.of_nat i ∉ (list_to_set js : gset Z)) as Hni.
  { rewrite elem_of_list_to_set. unfold js. rewrite list_elem_of_filter. intros [_ [_ Hne]%otherPeers_range]. done. }
  exists ({[ Z.of_nat i ]} ∪ list_to_set js). split.
  - rewrite size_union, size_singleton, size_list_to_set by (done || by apply disjoint_singleton_l).
    unfold quorum_at, holders in Hq. fold js in Hq. apply andb_true_iff in Hq as [_ Hq]. rewrite Hpe in Hq. zlia.
  - intros v [->%elem_of_singleton|Hv%elem_of_list_to_set]%elem_of_union.
    + destruct Hself as (m & Hm & Hle). exists m. split; [done|]. apply lookup_lt_Some in He. lia.
    + unfold js in Hv. apply list_elem_of_filter in Hv as [Hh [Hr _]%otherPeers_range].
      unfold has_entry in Hh. destruct (matchIndex rf !! Z.to_nat v) as [m|] eqn:E; [|done].
      apply Is_true_true in Hh. destruct (Hmatch _ _ E) as (m' & Hm' & Hle); [zlia|].
      rewrite Z2Nat.id in Hm' by lia. exists m'. split; [done|zlia].
Qed.

(** A leader whose [matchIndex] is backed moves its commit index. *)
Lemma node_safe_commit n i T A Els rf rf1 rf' :
  wf rf1 → peers rf1 = n → me rf1 = Z.of_nat i → disk_term rf1 = CurrentTerm rf1 → identity rf1 = LEADER →
  T !! CurrentTerm rf1 = Some (Logs rf1) → DiscardCount rf1 = 0 → node_safe n i T A Els rf1 →
  updateCommittedIndex rf1 = Ret rf' → node_safe n i T A Els rf'.
Proof.
  intros Hwf Hpe Hme Hd HL HT HD Hs Hu.
  destruct (updateCommittedIndex_moves _ _ Hwf Hu) as [->|(res & e & -> & _ & Hq & He & Ht)]; [done|].
  destruct Hs as [Hp Hz Hc Hself Hm Hcm]. split; try done. simpl. rewrite (disk_term_ext rf1), Hd by done.
  destruct (decide (0 < res)) as [Hpos|]; [|left; lia]. eapply (quorum_committed n T A i rf1); try done; auto.
Qed.

Lemma safe_entries_reply n net T A Els k c nd args r rf' :
  net_inv n net → log_inv n net T → office_inv n net → safe_inv n net T A Els →
  calls net !! k = Some c → c_reply c = Some (RepApplyEntries r) → c_rpc c = RpcApplyEntries args →
  nodes net !! c_src c = Some nd → epoch nd = c_epoch c →
  handleApplyEntriesReply (raft nd) (c_dst c) args r = Ret rf' → safe_inv n (receive k (c_src c) nd rf' net) T A Els.
Proof.
  intros Hnet Hlog Hoff Hinv Hk Hrep Hrpc Hi Hep Hret. pose proof (ni_nodes _ _ Hnet _ nd Hi) as Hn.
  destruct (event_facts n net _ nd (EvApplyEntriesReply (c_dst c) args r) rf' Hnet Hi Hret) as (Eme & Ed1 & Ed2).
  assert (∀ k' c', calls (receive k (c_src c) nd rf' net) !! k' = Some c' → call_safe n T A Els c') as Hcalls.
  { intros k' c' [_ Hk']%receive_calls. by eapply sf_calls. }
  destruct (entries_reply _ _ _ _ _ Hret) as [[Hcalm Hv]|(Hok & Hle & Hdst & rf1 & ni & Heq & Hni & Hu)].
  { by eapply (safe_inv_calm n net _ T A Els _ nd (mkNode rf' (epoch nd))). }
  pose proof (Hoff k c (ae_Term args) Hk ltac:(by rewrite Hrpc)) as [_ _ Hself Hlead].
  pose proof (sf_calls _ _ _ _ _ Hinv k c Hk) as Hs. unfold call_safe in Hs. rewrite Hrpc in Hs.
  destruct Hs as (_ & _ & Hr). destruct (Hr r Hrep Hok) as [Ht Hack].
  pose proof (ballot_term _ _ _ _ _ _ Hnet Hself Hi) as Hle'.
  assert (CurrentTerm (raft nd) = ae_Term args) as HT by lia. specialize (Hlead nd Hi Hep HT).
  pose proof (sf_node _ _ _ _ _ Hinv _ nd Hi) as Hs. rewrite <-HT in Hack.
  destruct (plain_log _ _ _ _ _ _ _ Hnet Hlog Hinv Hi) as (_ & HD & HTL). specialize (HTL Hlead).
  destruct (leader_disk _ _ _ _ Hnet Hi) as [Hdisk _]; [congruence|].
  pose proof (updateCommittedIndex_same _ _ Hu) as ([EL _] & ET & EI).
  assert (node_safe n (c_src c) T A Els rf1) as Hs1.
  { rewrite Heq. destruct Hs as [Hp Hz Hc Hsf Hm Hcm]. split; simpl; try done. intros j m HL.
    intros [(<- & <- & _)|[_ ?]]%list_lookup_insert_Some Hpos; [|by apply Hm].
    rewrite Z2Nat.id by lia. eexists. split; [exact Hack|lia]. }
  assert (wf rf1) as Hwf1.
  { rewrite Heq. apply wf_set_nextIndex; [simpl; rewrite Hni; apply Hn|].
    apply wf_set_matchIndex; [rewrite length_insert; apply Hn|apply Hn]. }
  assert (VoteFor rf' = VoteFor rf1) as EV.
  { destruct (updateCommittedIndex_moves _ _ Hwf1 Hu) as [->|(? & ? & -> & _)]; done. }
  eapply (safe_inv_keep n net _ T A Els _ nd (mkNode rf' (epoch nd))); [done|done|exact Hi|done|done|done|done|done|..].
  - eapply (node_safe_commit n (c_src c) T A Els rf'  rf1); rewrite ?Heq; try done; [by rewrite <-Heq|apply Hn|apply Hn|..].
    + by rewrite <-Heq.
    + by rewrite <-Heq.
  - simpl. by rewrite EL, Heq.
  - intros x. eapply no_vote_old; [done|done|]. right. simpl. by rewrite EV, ET, Heq.
  - done.
Qed.

(** The log of the winner becomes the log of the term. *)
Lemma safe_win n net T A Els k c nd rf' g :
  net_inv n net → net_inv n (receive k (c_src c) nd rf' net) → log_inv n net T → safe_inv n net T A Els →
  nodes net !! c_src c = Some nd → me rf' = Z.of_nat (c_src c) → wins (raft nd) rf' →
  T !! CurrentTerm rf' = None → clog T g → tracks g rf' → wf rf' →
  let T' := <[CurrentTerm rf' := g]> T in
  ∃ A', appends T T' ∧ (∀ a, a ∈ A → a ∈ A') ∧ safe_inv n (receive k (c_src c) nd rf' net) T' A' Els.
Proof.
  intros Hnet Hnet' Hlog Hinv Hi Hme (HC & HL & EL & EI & EC & ET & EP & EV & EM) HTn Hg Htr Hwf'.
  pose proof (sf_node _ _ _ _ _ Hinv _ nd Hi) as Hs. set (net' := receive _ _ _ _ _) in *.
  destruct (leader_disk _ _ _ _ Hnet Hi) as [Hdisk Hbal]; [congruence|].
  assert (disk_term rf' = CurrentTerm rf') as Hd' by (rewrite (disk_term_ext (raft nd)) by done; congruence).
  assert (g = Logs rf') as ->.
  { assert (tracks g (raft nd)) as Htr0.
    { eapply tracks_same, Htr; [done|]. rewrite (wf_discard _ Hwf'), EI.
      apply (wf_discard _ (no_wf _ _ _ (ni_nodes _ _ Hnet _ nd Hi))). }
    pose proof (tracks_plain _ _ _ _ _ _ _ _ Hnet Hlog Hinv Hi Hg Htr0). congruence. }
  set (t := CurrentTerm rf') in *. set (T' := <[t := Logs rf']> T). simpl.
  assert (T' !! t = Some (Logs rf')) as HT' by apply lookup_insert_eq.
  assert (appends T T') as HA.
  { intros u L HLu. exists []. unfold T'. rewrite lookup_insert_ne, app_nil_r by congruence. split; [done|].
    by intros x ?%not_elem_of_nil. }
  set (A' := (Z.of_nat (c_src c), t, pred (length (Logs rf'))) :: A). exists A'.
  assert (∀ a, a ∈ A → a ∈ A') as HAA by (intros; by right). split_and!; [done|done|].
  assert (0 < length (Logs rf'))%nat as Hlen by (pose proof (wf_logs_len _ Hwf'); lia).
  assert (acks_step (c_src c) rf' T' A A') as Hacks.
  { intros v u m [Ha|?]%elem_of_cons; [right|by left]. injection Ha as -> -> ->. rewrite Hd'.
    split_and!; [done|done|done|]. exists (Logs rf'). split_and!; [done|lia|done]. }
  assert (∀ b, b ∈ ballots net' → b ∈ ballots net) as Hold.
  { intros [[u v] x] [(Hv & -> & -> & ->)%elem_of_cast|?]%elem_of_app; [|done]. rewrite Hme.
    destruct EV as [?|[-> _]]; [done|]. pose proof (bo_cast _ (ni_ballots _ _ Hnet) _ nd Hi) as Hcast.
    unfold t in *. rewrite ET. apply Hcast. destruct (ni_nodes _ _ Hnet _ nd Hi) as [_ _ _ _ _ _ Hself].
    rewrite Hself by congruence. pose proof (wf_me _ (no_wf _ _ _ (ni_nodes _ _ Hnet _ nd Hi))). unfold Unvote. lia. }
  eapply (safe_inv_update n net net' T T' A A' Els Els _ nd (mkNode rf' (epoch nd))); try done.
  - simpl. lia.
  - simpl. unfold t in *. lia.
  - destruct Hs as [Hp Hz Hc Hsf Hm Hcm]. split; simpl.
    + congruence.
    + congruence.
    + congruence.
    + intros _. exists (pred (length (Logs rf'))). split; [by left|done].
    + intros j m _ Hj%EM ?. lia.
    + rewrite EC, EL. eapply commit_ok_mono; [exact HA|exact HAA| |done|exact Hcm]. lia.
  - intros u j _ _ Hh. left. simpl. by rewrite EL.
  - intros u L [[<- <-]|[_ ?]]%lookup_insert_Some; [|by eapply sf_hist]. split; apply Hwf'.
  - intros u L Hu [[<- <-]|[_ ?]]%lookup_insert_Some; [|congruence].
    destruct (co_leader _ _ (ni_counters _ _ Hnet') (c_src c) (mkNode rf' (epoch nd))) as (S & HS & HSb); [|done|].
    { apply list_lookup_insert_eq. by eapply lookup_lt_Some. }
    exists S. split; [done|]. intros v Hv. split; [by eexists; apply HSb|].
    pose proof (Hold _ (HSb v Hv)) as Hb. simpl in Hb. fold t in Hb.
    eapply (keeps_mono n net T T' A A' Els (c_src c) nd (mkNode rf' (epoch nd))); try done; [simpl; unfold t in *; lia|].
    eapply sf_vote; [done|exact Hb|done|]. fold t in ET. rewrite EL. change (CurrentTerm rf') with t. rewrite ET. by apply Hs.
  - intros u x L ?. by left.
  - intros x. eapply no_vote_old; [done|done|done].
  - intros k' c' [_ Hk']%receive_calls. eapply call_safe_mono; [done..|by eapply sf_calls].
Qed.
End replies.
