(* ===== verification/RaftStateMachine.v ===== *)
(** * Raft: state machine safety and leader completeness

    The safety invariant over whole runs without snapshots, and what it gives
    the services: no two servers ever deliver different commands at an index,
    and what one server knows to be committed is in the log of every leader of
    its term or a later one. *)

From Stdlib Require Import Strings.Byte.
From stdpp Require Import prelude gmap strings list sets.
From S2P Require Import Prelude Gob Raft RaftNode RaftServer RaftCommit RaftEvolve RaftNet RaftElection RaftCluster RaftLog RaftOffice RaftSafety RaftSafetySteps RaftSafetyRpc RaftSafetyReply.
Local Open Scope Z_scope.

Section runs.
Context {C : Type} `{GobLaws Z} `{GobLaws (list (LogEntry C))}.
Implicit Types (rf : Raft C) (net : Net C) (nd : Node C) (c : Call C).
Implicit Types (T : gmap Z (list (LogEntry C))) (g L E : list (LogEntry C)) (A : list (Z * Z * nat)).
Implicit Types (Els : gmap (Z * Z) (list (LogEntry C))) (m : nat) (t u v : Z).

(** *** Losses and restarts *)

Lemma safe_drop n net T A Els k :
  safe_inv n net T A Els → safe_inv n (with_calls (delete k) (next_call net) net) T A Els.
Proof.
  intros [? ? ? ? ? ? ? Hc]. split; try done. intros k' c. simpl. intros [_ ?]%lookup_delete_Some. by eapply Hc.
Qed.

Lemma safe_restart n net T A Els i nd rf' :
  net_inv n net → disk_votes net → safe_inv n net T A Els → nodes net !! i = Some nd →
  Make (peers (raft nd)) (me (raft nd)) (persister (raft nd)) = Ret rf' →
  safe_inv n (mkNet (<[i := mkNode rf' (S (epoch nd))]> (nodes net)) (calls net) (next_call net)
                (cast rf' ++ ballots net)) T A Els.
Proof.
  intros Hnet Hdv Hinv Hi Hret. destruct (ni_nodes _ _ Hnet i nd Hi) as [_ Hme Hwf Hdur Hdisk _ _].
  destruct (Make_recovers _ Hwf Hdur Hdisk) as (t & v & Hb & _ & Hret' & _).
  rewrite Hret in Hret'. injection Hret' as ->. pose proof (sf_node _ _ _ _ _ Hinv i nd Hi) as Hs.
  assert (disk_term (raft nd) = t) as Hd by (unfold disk_term; by rewrite Hb).
  eapply (safe_inv_keep n net _ T A Els i nd (mkNode _ (S (epoch nd)))); [done|done|exact Hi|done|done|done|..].
  - apply Z.eq_le_incl, disk_term_ext. done.
  - simpl. lia.
  - split; simpl; try done; [apply Hs|apply Hs|]. left. rewrite (sn_plain _ _ _ _ _ _ Hs). done.
  - done.
  - simpl. intros x <- Hx. left. by eapply Hdv.
  - intros k c Hk. by eapply sf_calls.
Qed.

Lemma safe_same n net T A Els k c nd :
  net_inv n net → safe_inv n net T A Els → nodes net !! c_src c = Some nd →
  safe_inv n (receive k (c_src c) nd (raft nd) net) T A Els.
Proof.
  intros Hnet Hinv Hi. pose proof (ni_nodes _ _ Hnet _ nd Hi) as Hn.
  eapply (safe_inv_calm n net _ T A Els _ nd (mkNode (raft nd) (epoch nd))); [done|done|exact Hi|done|done|apply Hn|done|..].
  - apply disk_term_le, Hn.
  - done.
  - by right.
  - intros k' c' [_ Hk']%receive_calls. by eapply sf_calls.
Qed.

(** *** The invariant of a run *)

Record run_inv (n : nat) net T A Els : Prop := mkRunInv {
  ri_net : net_inv n net;
  ri_log : log_inv n net T;
  ri_office : office_inv n net;
  ri_disk : disk_votes net;
  ri_safe : safe_inv n net T A Els;
}.

(** A reply, unless it makes a leader. *)
Lemma safe_reply n net T A Els k c nd r rf' :
  net_inv n net → log_inv n net T → office_inv n net → safe_inv n net T A Els →
  calls net !! k = Some c → c_reply c = Some r → nodes net !! c_src c = Some nd → epoch nd = c_epoch c →
  handleReply (raft nd) (c_dst c) (c_rpc c) r = Ret rf' →
  (identity (raft nd) = CANDIDATE → identity rf' ≠ LEADER) →
  safe_inv n (receive k (c_src c) nd rf' net) T A Els.
Proof.
  intros Hnet Hlog Hoff Hinv Hk Hrep Hi Hep Hret Hwin. pose proof (ni_nodes _ _ Hnet _ nd Hi) as Hn.
  destruct (handleReply_step _ _ _ _ _ Hret) as [->|(ev & Hev & _)]; [by eapply safe_same|].
  destruct (event_facts n net _ nd ev rf' Hnet Hi Hev) as (Eme & Ed1 & Ed2).
  assert (calm (raft nd) rf' → no_vote (raft nd) rf' → safe_inv n (receive k (c_src c) nd rf' net) T A Els) as Hcalm.
  { intros Hc Hv. eapply (safe_inv_calm n net _ T A Els _ nd (mkNode rf' (epoch nd))); [done|done|exact Hi|done..|].
    intros k' c' [_ Hk']%receive_calls. by eapply sf_calls. }
  destruct (c_rpc c) as [args|args|args] eqn:Hrpc, r as [r|r|r]; simpl in Hret;
    try (injection Hret as <-; by eapply safe_same).
  - destruct (vote_reply _ _ _ _ (no_wf _ _ _ Hn) Hret) as [[??]|(? & ? & _)]; [by apply Hcalm|].
    exfalso. by apply Hwin.
  - by eapply safe_entries_reply.
  - pose proof (sf_calls _ _ _ _ _ Hinv k c Hk) as Hs. unfold call_safe in Hs. rewrite Hrpc in Hs.
    destruct (install_reply _ _ _ _ _ Hret Hs). by apply Hcalm.
Qed.

(** What the steps of a run do to the history. *)
Definition extends T A T' A' : Prop := appends T T' ∧ ∀ a, a ∈ A → a ∈ A'.

(** What every entry of the history is, after the entries before it. *)
Definition holds_only (P : list (LogEntry C) → option C → Prop) T : Prop :=
  ∀ t L (k : nat) e, T !! t = Some L → L !! S k = Some e → P (take (S k) L) (Command e).

(** A step that takes no snapshot and in which leaders start commands [P]. *)
Definition starts (P : list (LogEntry C) → option C → Prop) (ev : Local C) rf : Prop :=
  plain ev rf ∧ ∀ command, ev = LStart command → identity rf = LEADER → P (Logs rf) command.

Lemma holds_only_win P T t g : holds_only P T → clog T g → holds_only P (<[t := g]> T).
Proof.
  intros HP Hg u L k e [[<- <-]|[_ HL]]%lookup_insert_Some Hk; [|by eapply HP].
  destruct (Hg _ _ Hk) as (L & HL & Heq). erewrite take_eq_mono; [|exact Heq|lia]. eapply (HP _ L k e); [done|].
  rewrite <-Hk. symmetry. by apply take_S_eq_lookup.
Qed.

Lemma holds_only_append P T t L command :
  holds_only P T → T !! t = Some L → L ≠ [] → P L command → holds_only P (<[t := L ++ [mkEntry command t]]> T).
Proof.
  intros HP HL Hne Hc u L' k e [[<- <-]|[_ HL']]%lookup_insert_Some Hk; [|by eapply HP].
  apply lookup_app_Some in Hk as [Hk|[Hge [Hz <-]%list_lookup_singleton_Some]].
  - rewrite take_app_le by (apply lookup_lt_Some in Hk; lia). by eapply HP.
  - simpl. by rewrite take_app_length' by lia.
Qed.

Lemma run_inv_step P n net net' T A Els :
  net_step_if (starts P) net net' → holds_only P T → run_inv n net T A Els →
  ∃ T' A' Els', extends T A T' A' ∧ holds_only P T' ∧ run_inv n net' T' A' Els'.
Proof.
  intros Hst HP [Hnet Hlog Hoff Hdv Hinv].
  assert (plain_step net net') as Hstep by (eapply net_step_mono, Hst; by intros ev rf [? _]).
  pose proof (log_step_net _ _ (plain_log_step _ _ Hstep)) as Hstep'.
  pose proof (net_inv_step _ _ _ Hstep' Hnet) as Hnet'. pose proof (office_inv_step _ _ _ Hstep' Hnet Hoff) as Hoff'.
  pose proof (disk_votes_step _ _ _ Hstep' Hnet Hdv) as Hdv'. clear Hstep'. clear Hstep.
  destruct Hst as [net i nd ev rf' ms Hi Hret [Hok HPc]|net k c nd rf' r Hk Hrep Hi Hret
    |net k c nd r rf' Hk Hrep Hi He Hret|net k|net i nd rf' Hi Hret].
  - assert (in_log ev (raft nd)) as Hin by by destruct ev.
    destruct (local_keeps_log _ _ _ _ (no_wf _ _ _ (ni_nodes _ _ Hnet i nd Hi)) Hin Hret)
      as [[Htr Hns]|(command & -> & Hid & Heq & Hs)].
    + destruct (safe_local _ _ _ _ _ _ _ _ _ _ Hnet Hlog Hinv Hi Hret Hok Hns) as (Els' & Hinv').
      exists T, A, Els'. split_and!; [done|done|]. split; try done. by eapply log_inv_local.
    + simpl in Hret. apply bind_Ret_inv in Hret as ([[rf1 x] y] & Hst & Hret). injection Hret as <- <-.
      destruct (log_inv_append _ _ _ _ _ _ _ _ _ Hnet Hlog Hi Hid Hst Heq Hs) as (L & HL & Htr & _ & Hlog').
      destruct (safe_append _ _ _ _ _ _ _ _ _ _ _ _ Hnet Hlog Hinv Hi Hid HL Htr Hst Heq Hs) as (A' & HT & HA & Hinv').
      eexists _, A', Els. split_and!; [done| |done].
      destruct (plain_log _ _ _ _ _ _ _ Hnet Hlog Hinv Hi) as (_ & _ & Hlead). specialize (Hlead Hid).
      apply holds_only_append; [done|done| |].
      * assert (L = Logs (raft nd)) as -> by congruence. pose proof (wf_logs_len _ (no_wf _ _ _ (ni_nodes _ _ Hnet i nd Hi))).
        by destruct (Logs (raft nd)).
      * assert (L = Logs (raft nd)) as -> by congruence. by apply HPc.
  - destruct (safe_deliver _ _ _ _ _ _ _ _ _ _ Hnet Hlog Hinv Hk Hi Hret) as (A' & HA & Hinv').
    exists T, A', Els. split_and!; [done|done|]. split; try done. by eapply log_inv_deliver.
  - destruct (decide (identity (raft nd) = CANDIDATE ∧ identity rf' = LEADER)) as [[HC HL]|Hwin].
    + destruct (log_inv_win _ _ _ _ _ _ _ _ Hnet Hnet' Hlog Hi Hret HC HL) as (HTn & _ & g & Hg & Htr & _ & Hlog').
      assert (nodes (receive k (c_src c) nd rf' net) !! c_src c = Some (mkNode rf' (epoch nd))) as Hi'.
      { apply list_lookup_insert_eq. by eapply lookup_lt_Some. }
      pose proof (ni_nodes _ _ Hnet' _ _ Hi') as Hn'.
      assert (wins (raft nd) rf') as Hw.
      { destruct (c_rpc c) as [args|args|args] eqn:Hrpc, r as [r|r|r]; simpl in Hret;
          try (injection Hret as <-; congruence).
        - apply vote_reply in Hret as [[Hc _]|?]; [|done|by apply (ni_nodes _ _ Hnet _ nd Hi)].
          apply ca_role in Hc as [? _]; congruence.
        - apply handleApplyEntriesReply_quiet, q_leader in Hret as [? _]; [congruence|done].
        - apply handleInstallSnapshotReply_quiet, q_leader in Hret as [? _]; [congruence|done]. }
      destruct (safe_win n net T A Els k c nd rf' g) as (A' & HT & HA & Hinv'); try done; [apply Hn'|apply Hn'|].
      eexists _, A', Els. split_and!; [done|by apply holds_only_win|done].
    + assert (identity (raft nd) = CANDIDATE → identity rf' ≠ LEADER) by tauto.
      exists T, A, Els. split_and!; [done|done|]. split; try done; [by eapply log_inv_reply|by eapply safe_reply].
  - exists T, A, Els. split_and!; [done|done|]. split; try done; [by apply log_inv_drop|by apply safe_drop].
  - exists T, A, Els. split_and!; [done|done|]. split; try done; [by eapply log_inv_restart|by eapply safe_restart].
Qed.

#[export] Instance extends_preorder : PreOrder (λ H1 H2 : gmap Z (list (LogEntry C)) * list (Z * Z * nat), extends H1.1 H1.2 H2.1 H2.2).
Proof.
  split; [done|]. intros [T1 A1] [T2 A2] [T3 A3] [??] [??]. split; simpl in *; [by etrans|auto].
Qed.

Lemma run_inv_init n net : net_init n net → run_inv n net {[0 := [zeroEntry]]} [] ∅.
Proof.
  intros Hinit. pose proof (log_inv_init _ _ Hinit) as Hlog. pose proof (net_inv_init _ _ Hinit) as Hnet.
  split; [done|done|by eapply office_inv_init|by eapply disk_votes_init|].
  destruct Hinit as (HC & HB & Hlen & Hnodes). split.
  - intros i nd Hi. destruct (Hnodes i nd Hi) as [_ Hmake]. pose proof (lookup_lt_Some _ _ _ Hi).
    destruct (Make_fresh (C := C) n (Z.of_nat i)) as (rf & Hrf & _ & _ & _ & _ & Heq); [lia|].
    assert (raft nd = rf) as -> by congruence. rewrite Heq. split; try done. by left.
  - intros t L [<- <-]%lookup_singleton_Some. split; [done|apply terms_sorted_singleton].
  - intros t x L. by rewrite lookup_empty.
  - intros t v x. rewrite HB. by intros ?%not_elem_of_nil.
  - intros t v x L. rewrite HB. by intros ?%not_elem_of_nil.
  - by intros t L [<- _]%lookup_singleton_Some Hne.
  - by intros v t m ?%not_elem_of_nil.
  - intros k c. by rewrite HC, lookup_empty.
Qed.

Lemma run_inv_steps n net net' T A Els :
  rtc plain_step net net' → run_inv n net T A Els → ∃ T' A' Els', extends T A T' A' ∧ run_inv n net' T' A' Els'.
Proof.
  intros Hsteps. revert T A Els. induction Hsteps as [net|net net1 net' Hstep _ IH]; intros T A Els Hinv.
  { by exists T, A, Els. }
  destruct (run_inv_step (λ _ _, True) n net net1 T A Els) as (T1 & A1 & Els1 & [HT1 HA1] & _ & Hinv1); [|done|done|].
  { eapply net_step_mono, Hstep. by intros ev rf ?. }
  destruct (IH _ _ _ Hinv1) as (T' & A' & Els' & [HT HA] & Hinv'). exists T', A', Els'.
  split; [split; [by etrans|auto]|done].
Qed.

Definition plain_reachable (n : nat) net : Prop := ∃ net0, net_init n net0 ∧ rtc plain_step net0 net.

Lemma plain_reachable_inv n net : plain_reachable n net → ∃ T A Els, run_inv n net T A Els.
Proof.
  intros (net0 & Hinit & Hsteps). destruct (run_inv_steps _ _ _ _ _ _ Hsteps (run_inv_init _ _ Hinit)) as (T' & A' & Els' & _ & ?). by exists T', A', Els'.
Qed.

(** *** Committed prefixes *)

Lemma commits_agree n net T A Els x hi1 hi2 g1 g2 :
  run_inv n net T A Els → 0 < x → commit_ok n T A x hi1 g1 → commit_ok n T A x hi2 g2 →
  take (S (Z.to_nat x)) g1 = take (S (Z.to_nat x)) g2.
Proof.
  intros [Hnet Hlog _ _ Hinv] Hx. revert g1 g2 hi1 hi2.
  assert (∀ g1 g2 t1 t2 m1 m2 L1 L2, t1 ≤ t2 → committed n T A t1 m1 → T !! t1 = Some L1 → x ≤ Z.of_nat m1 →
    take (S (Z.to_nat x)) g1 = take (S (Z.to_nat x)) L1 → committed n T A t2 m2 → T !! t2 = Some L2 →
    take (S (Z.to_nat x)) g2 = take (S (Z.to_nat x)) L2 → take (S (Z.to_nat x)) g1 = take (S (Z.to_nat x)) g2) as Hle.
  { intros g1 g2 t1 t2 m1 m2 L1 L2 Ht Hc1 HL1 Hx1 E1 Hc2 HL2 E2. rewrite E2.
    eapply (committed_in_leader n net T A Els x t1 t2); [done..| |done]. right. by exists t1, m1, L1. }
  intros g1 g2 hi1 hi2 [?|(t1 & m1 & L1 & ? & ? & _ & ? & ?)] [?|(t2 & m2 & L2 & ? & ? & _ & ? & ?)]; [lia..|].
  destruct (decide (t1 ≤ t2)); [by eapply Hle|symmetry; apply (Hle g2 g1 t2 t1 m2 m1 L2 L1); try done; lia].
Qed.

(** The committed prefix is in the log: [applyLog] stays in range. *)
Lemma plain_commit_in_range n net T A Els i nd :
  run_inv n net T A Els → nodes net !! i = Some nd → commit_in_range (raft nd).
Proof.
  intros [Hnet Hlog _ _ Hinv] Hi. pose proof (sn_commit _ _ _ _ _ _ (sf_node _ _ _ _ _ Hinv i nd Hi)) as Hc.
  destruct (plain_log _ _ _ _ _ _ _ Hnet Hlog Hinv Hi) as (_ & HD & _). unfold commit_in_range, RaftIndex. rewrite HD.
  pose proof (wf_logs_len _ (no_wf _ _ _ (ni_nodes _ _ Hnet i nd Hi))).
  destruct (decide (0 < committedIndex (raft nd))) as [Hp|]; [|lia].
  pose proof (commit_ok_length _ _ _ _ _ _ Hc Hp). lia.
Qed.

Lemma entry_at_plain rf k : DiscardCount rf = 0 → 0 ≤ k → entry_at rf k = Logs rf !! Z.to_nat k.
Proof. intros HD Hk. unfold entry_at, RealIndex. rewrite HD, Z.sub_0_r. case_match; [done|zlia]. Qed.

(** C3: State machine safety.  In every run in which the services take no
    snapshots, with lost and delayed messages, crashes and restarts: when two
    servers (or one server twice), now and at any later time, deliver commands
    with the same index to their services, the commands are the same. *)
Theorem state_machine_safety n net net' i j ndi ndj rfi rfj msi msj mi mj :
  plain_reachable n net → rtc plain_step net net' →
  nodes net !! i = Some ndi → nodes net' !! j = Some ndj →
  applyLog (raft ndi) = Ret (rfi, Some msi) → applyLog (raft ndj) = Ret (rfj, Some msj) →
  mi ∈ msi → mj ∈ msj → CommandValid mi = true → CommandValid mj = true → CommandIndex mi = CommandIndex mj →
  msg_Command mi = msg_Command mj.
Proof.
  intros (T & A & Els & Hinv)%plain_reachable_inv Hsteps Hi Hj Ai Aj Mi Mj Vi Vj Hidx.
  destruct (run_inv_steps _ _ _ _ _ _ Hsteps Hinv) as (T' & A' & Els' & [HT HA] & Hinv').
  pose proof (plain_commit_in_range _ _ _ _ _ _ _ Hinv Hi) as Ri.
  pose proof (plain_commit_in_range _ _ _ _ _ _ _ Hinv' Hj) as Rj.
  pose proof Hinv as [Ni Gi _ _ Si]. pose proof Hinv' as [Nj Gj _ _ Sj].
  destruct (plain_log _ _ _ _ _ _ _ Ni Gi Si Hi) as (_ & Di & _), (plain_log _ _ _ _ _ _ _ Nj Gj Sj Hj) as (_ & Dj & _).
  destruct (applyLog_messages _ _ _ _ (no_wf _ _ _ (ni_nodes _ _ Ni i ndi Hi)) Ri Ai Mi Vi) as ([_ Ci] & Li & ->).
  destruct (applyLog_messages _ _ _ _ (no_wf _ _ _ (ni_nodes _ _ Nj j ndj Hj)) Rj Aj Mj Vj) as ([_ Cj] & Lj & ->).
  pose proof (sf_node _ _ _ _ _ Si i ndi Hi) as Hni. pose proof (sf_node _ _ _ _ _ Sj j ndj Hj) as Hnj.
  rewrite (sn_plain _ _ _ _ _ _ Hni) in Li. rewrite <-Hidx in *. set (k := CommandIndex mi) in *.
  rewrite !entry_at_plain by (done || lia). f_equal.
  assert (commit_ok n T' A' k (disk_term (raft ndi)) (Logs (raft ndi))) as Ki.
  { eapply commit_ok_mono; [exact HT|exact HA|reflexivity|reflexivity|]. eapply commit_ok_le; [apply Hni|done]. }
  assert (commit_ok n T' A' k (disk_term (raft ndj)) (Logs (raft ndj))) as Kj by (eapply commit_ok_le; [apply Hnj|done]).
  eapply take_S_eq_lookup, commits_agree; done.
Qed.

(** C13: Leader completeness.  In the same runs: an entry a server knows to be
    committed is, at the same index, in the log of every later leader of its
    term or a higher one. *)
Theorem leader_completeness n net net' i j ndi ndj k e :
  plain_reachable n net → rtc plain_step net net' →
  nodes net !! i = Some ndi → nodes net' !! j = Some ndj →
  identity (raft ndj) = LEADER → CurrentTerm (raft ndi) ≤ CurrentTerm (raft ndj) →
  k ≤ committedIndex (raft ndi) → entry_at (raft ndi) k = Some e → entry_at (raft ndj) k = Some e.
Proof.
  intros (T & A & Els & Hinv)%plain_reachable_inv Hsteps Hi Hj HL Hle Hk He.
  destruct (run_inv_steps _ _ _ _ _ _ Hsteps Hinv) as (T' & A' & Els' & [HT HA] & Hinv').
  pose proof Hinv as [Ni Gi _ _ Si]. pose proof Hinv' as [Nj Gj _ _ Sj].
  destruct (plain_log _ _ _ _ _ _ _ Ni Gi Si Hi) as (_ & Di & _), (plain_log _ _ _ _ _ _ _ Nj Gj Sj Hj) as (_ & Dj & Hlead).
  pose proof (sf_node _ _ _ _ _ Si i ndi Hi) as Hni. pose proof (sf_node _ _ _ _ _ Sj j ndj Hj) as Hnj.
  assert (0 ≤ k) as Hk0 by (unfold entry_at in He; rewrite Di in He; case_match; [zlia|done]).
  rewrite entry_at_plain in He |- * by done.
  destruct (decide (k = 0)) as [->|Hne].
  { change (Z.to_nat 0) with 0%nat in *. rewrite (sn_zero _ _ _ _ _ _ Hni) in He. injection He as <-. apply (sn_zero _ _ _ _ _ _ Hnj). }
  rewrite <-He. symmetry. apply take_S_eq_lookup.
  eapply (committed_in_leader n net' T' A' Els' k (CurrentTerm (raft ndi))); [done|done|done|by apply Hlead|done| |lia].
  eapply commit_ok_mono; [exact HT|exact HA|reflexivity|reflexivity|]. eapply commit_ok_le; [|exact Hk].
  apply (node_commit n net T A Els i ndi); done.
Qed.

(** In the same runs [applyLog] always finds the entries it delivers: no
    server panics, whatever it was told is committed. *)
Theorem plain_apply_returns n net i nd :
  plain_reachable n net → nodes net !! i = Some nd →
  ∃ rf' r, applyLog (raft nd) = Ret (rf', r) ∧ wf rf' ∧ commit_in_range (raft nd).
Proof.
  intros (T & A & Els & Hinv)%plain_reachable_inv Hi. pose proof (plain_commit_in_range _ _ _ _ _ _ _ Hinv Hi) as Hr.
  destruct (applyLog_safe (raft nd)) as (rf' & r & Hret & Hwf'); [|done|by exists rf', r].
  apply (ni_nodes _ _ (ri_net _ _ _ _ _ Hinv) i nd Hi).
Qed.
End runs.
