(* ===== verification/Replicated.v ===== *)
(** * Services replicated with Raft

    What [kvraft], [shardctrler] and [shardkv] have in common: every server is
    its Raft, the messages on its apply channel and a state machine that
    executes them.

    - A [StateMachine] is the abstract specification: what one committed
      command does to the replicated state, which commands may be executed
      where, and that executing them keeps it so.
    - A [Service] is an implementation: the server, what its applier does with
      one message, how it starts on a persister; its laws say that it
      implements the machine.
    - [sys_step] is the service as a whole, on the cluster of RaftNet.v.

    The theorem of this file ([sys_one_log]) is proved against the two classes
    alone: in runs without snapshots all servers are at all times where
    prefixes of one log of commands lead. *)

From Stdlib Require Import Strings.Byte.
From stdpp Require Import prelude gmap strings list sets.
From S2P Require Import Prelude Gob Raft RaftNode RaftServer RaftCommit RaftEvolve RaftApply RaftNet RaftElection RaftCluster RaftLog RaftOffice RaftSafety RaftSafetySteps RaftSafetyRpc RaftSafetyReply RaftStateMachine.
Local Open Scope Z_scope.

(** ** State machines *)

(** [sm_ok st c]: the command [c] may be executed in the state [st], and also
    after other such commands. *)
Class StateMachine (C St : Type) := {
  sm_next : St → C → outcome St;
  sm_wf : St → Prop;
  sm_ok : St → C → Prop;
  sm_exec (st : St) (c : C) : sm_wf st → sm_ok st c →
    ∃ st', sm_next st c = Ret st' ∧ sm_wf st' ∧ ∀ c', sm_ok st c' → sm_ok st' c';
}.

Section machine.
Context `{StateMachine C St}.
Implicit Types (st : St) (c : C) (log : list C).

Definition sm_run (st : St) (log : list C) : outcome St := foldM (λ c st, sm_next st c) log st.

(** Every command was [sm_ok] after some prefix of the log before it. *)
Definition fit (st : St) (log : list C) : Prop :=
  ∀ (k : nat) c, log !! k = Some c →
    ∃ (j : nat) st', (j ≤ k)%nat ∧ sm_run st (take j log) = Ret st' ∧ sm_ok st' c.

Lemma sm_run_snoc st log c : sm_run st (log ++ [c]) = (st' ← sm_run st log; sm_next st' c).
Proof.
  unfold sm_run. rewrite foldM_app. destruct (foldM _ log st) as [st'| |]; [|done..]. simpl. by destruct (sm_next st' c).
Qed.

Lemma fit_take st log k : fit st log → fit st (take k log).
Proof.
  intros Hf k' c [Hc Hk]%lookup_take_Some. destruct (Hf k' c Hc) as (j & st' & Hj & Hr & Hok).
  exists j, st'. rewrite take_take, Nat.min_l by lia. done.
Qed.

(** A fit log runs, and what may be executed after a prefix may be executed
    after all of it. *)
Lemma fit_runs st log :
  sm_wf st → fit st log →
  ∃ st', sm_run st log = Ret st' ∧ sm_wf st' ∧
    ∀ (j : nat) stj, sm_run st (take j log) = Ret stj → ∀ c, sm_ok stj c → sm_ok st' c.
Proof.
  intros Hwf. induction log as [|c log IH] using rev_ind; intros Hf.
  { exists st. split_and!; [done|done|]. intros j stj. rewrite take_nil. by intros [= <-]. }
  pose proof (fit_take _ _ (length log) Hf) as Hf'. rewrite take_app_length in Hf'.
  destruct (IH Hf') as (st1 & Hr1 & Hwf1 & Hok1).
  destruct (Hf (length log) c) as (j & stj & Hj & Hr & Hok); [by rewrite lookup_app_r, Nat.sub_diag by done|].
  rewrite take_app_le in Hr by done.
  destruct (sm_exec st1 c Hwf1 (Hok1 j stj Hr c Hok)) as (st' & Hn & Hwf' & Hkeep).
  exists st'. rewrite sm_run_snoc, Hr1. split_and!; [done|done|]. intros i sti Hi c' Hc'.
  destruct (decide (i ≤ length log)%nat).
  - rewrite take_app_le in Hi by done. apply Hkeep. by eapply Hok1.
  - rewrite take_ge in Hi by (rewrite length_app; simpl; lia). rewrite sm_run_snoc, Hr1, bind_Ret, Hn in Hi. by injection Hi as <-.
Qed.

(** The command at a position of a fit log is executed there. *)
Lemma fit_next st log (k : nat) c :
  sm_wf st → fit st log → log !! k = Some c →
  ∃ st1 st2, sm_run st (take k log) = Ret st1 ∧ sm_wf st1 ∧ sm_ok st1 c ∧ sm_next st1 c = Ret st2 ∧
    sm_run st (take (S k) log) = Ret st2.
Proof.
  intros Hwf Hf Hk. destruct (fit_runs st (take k log) Hwf (fit_take _ _ _ Hf)) as (st1 & Hr1 & Hwf1 & Hok).
  destruct (Hf k c Hk) as (j & stj & Hj & Hr & Hokj).
  assert (sm_ok st1 c) as Hok1 by (apply (Hok j stj); [rewrite take_take, Nat.min_l by lia; done|done]).
  destruct (sm_exec st1 c Hwf1 Hok1) as (st2 & Hn & _). exists st1, st2. split_and!; [done..|].
  by rewrite (take_S_r log k c), sm_run_snoc, Hr1 by done.
Qed.

Lemma fit_snoc st log c (j : nat) st' :
  fit st log → (j ≤ length log)%nat → sm_run st (take j log) = Ret st' → sm_ok st' c → fit st (log ++ [c]).
Proof.
  intros Hf Hj Hr Hok k c' Hk. apply lookup_app_Some in Hk as [Hk|[Hge [Hz <-]%list_lookup_singleton_Some]].
  - destruct (Hf k c' Hk) as (i & sti & Hi & ? & ?). pose proof (lookup_lt_Some _ _ _ Hk). exists i, sti.
    by rewrite take_app_le by lia.
  - exists j, st'. rewrite take_app_le by done. split_and!; [lia|done..].
Qed.
End machine.

(** ** Services *)

(** [sv_handles rf s m o]: with its Raft [rf], the applier of [s] makes of the
    message [m] the outcome [o] (a relation, since a service may look at a map
    in any order); [sv_init p] is the state of a server started with the
    parameters [p] on a persister without a snapshot. *)
Class Service (C Srv Par St : Type) `{StateMachine C St} := {
  sv_applied : Srv → Z;
  sv_state : Srv → St;
  sv_handles : Raft C → Srv → ApplyMsg C → outcome Srv → Prop;
  sv_start : nat → Z → Persister → Par → outcome Srv;
  sv_init : Par → St;
  sv_init_wf p : sm_wf (sv_init p);
  sv_handle_command rf s m c o st' :
    CommandValid m = true → CommandIndex m = sv_applied s + 1 → msg_Command m = Some c →
    sm_next (sv_state s) c = Ret st' → sv_handles rf s m o →
    ∃ s', o = Ret s' ∧ sv_applied s' = sv_applied s + 1 ∧ sv_state s' = st';
  sv_start_fresh k i ps p s :
    ps_snapshot ps = [] → sv_start k i ps p = Ret s → sv_applied s = 0 ∧ sv_state s = sv_init p;
}.

(** The service part of a server and its apply channel.  The Raft of the server
    is the one of the network. *)
Record App (C Srv : Type) := mkApp { a_srv : Srv; a_chan : list (ApplyMsg C) }.
Arguments mkApp {C Srv} _ _.
Arguments a_srv {C Srv} _.
Arguments a_chan {C Srv} _.
Record Sys (C Srv : Type) := mkSys { s_net : Net C; s_apps : list (App C Srv) }.
Arguments mkSys {C Srv} _ _.
Arguments s_net {C Srv} _.
Arguments s_apps {C Srv} _.

(** What the cluster does by itself: the handlers start commands and [applyLog]
    sends messages in steps of their own, and there are no snapshots. *)
Definition raft_event {C} (ev : Local C) (_ : Raft C) : Prop :=
  match ev with
  | LStart _ | LApplyLog | LSnapshot _ _ => False
  | LElectionTimeout | LHeartbeatTimeout | LKill => True
  end.

Section system.
Context {C Srv Par St : Type} `{Service C Srv Par St} `{GobLaws Z} `{GobLaws (list (LogEntry C))}.
Implicit Types (net : Net C) (nd : Node C) (rf : Raft C) (s : Srv) (app : App C Srv) (sys : Sys C Srv).
Implicit Types (T : gmap Z (list (LogEntry C))) (A : list (Z * Z * nat)) (Els : gmap (Z * Z) (list (LogEntry C))).
Implicit Types (g L : list (LogEntry C)) (G : Srv → C → Prop).

(** [G s c]: a handler or a background goroutine of the server [s] may start
    the command [c].  All servers have the parameters [p], as far as they
    matter for the replicated state. *)
Inductive sys_step G (p : Par) : Sys C Srv → Sys C Srv → Prop :=
  | sys_raft net net' apps :
      net_step_if raft_event net net' → epoch <$> nodes net' = epoch <$> nodes net →
      sys_step G p (mkSys net apps) (mkSys net' apps)
  | sys_start net apps i nd app c rf' ms :
      nodes net !! i = Some nd → apps !! i = Some app → local (LStart (Some c)) (raft nd) = Ret (rf', ms) →
      G (a_srv app) c → sys_step G p (mkSys net apps) (mkSys (send i nd rf' ms net) apps)
  | sys_apply net apps i nd app rf' r :
      nodes net !! i = Some nd → apps !! i = Some app → applyLog (raft nd) = Ret (rf', r) →
      sys_step G p (mkSys net apps)
        (mkSys (send i nd rf' [] net) (<[i := mkApp (a_srv app) (a_chan app ++ default [] r)]> apps))
  | sys_handle net apps i nd app m ms s' :
      nodes net !! i = Some nd → apps !! i = Some app → a_chan app = m :: ms →
      sv_handles (raft nd) (a_srv app) m (Ret s') →
      sys_step G p (mkSys net apps) (mkSys net (<[i := mkApp s' ms]> apps))
  | sys_restart net apps i nd rf' p' s' :
      nodes net !! i = Some nd →
      Make (peers (raft nd)) (Raft.me (raft nd)) (persister (raft nd)) = Ret rf' →
      sv_start (peers (raft nd)) (Raft.me (raft nd)) (persister (raft nd)) p' = Ret s' → sv_init p' = sv_init p →
      sys_step G p (mkSys net apps)
        (mkSys (mkNet (<[i := mkNode rf' (S (epoch nd))]> (nodes net)) (calls net) (next_call net)
                  (cast rf' ++ ballots net))
               (<[i := mkApp s' []]> apps)).

Definition sys_init (p : Par) (n : nat) sys : Prop :=
  net_init n (s_net sys) ∧ length (s_apps sys) = n ∧
  ∀ i app, s_apps sys !! i = Some app →
    a_chan app = [] ∧ ∃ p', sv_start n (Z.of_nat i) MakePersister p' = Ret (a_srv app) ∧ sv_init p' = sv_init p.

Definition sys_reachable G p (n : nat) sys : Prop := ∃ sys0, sys_init p n sys0 ∧ rtc (sys_step G p) sys0 sys.

Lemma sys_step_weaken G1 G2 p sys sys' :
  (∀ s c, G1 s c → G2 s c) → sys_step G1 p sys sys' → sys_step G2 p sys sys'.
Proof.
  intros HG. destruct 1; [by apply sys_raft|eapply sys_start|eapply sys_apply|eapply sys_handle|eapply sys_restart]; eauto.
Qed.

(** ** Raft without snapshots *)

(** There is no snapshot to send or to start from. *)
Definition bare rf : Prop := snapshot rf = [] ∧ applySnappending rf = false ∧ 0 ≤ lastApplied rf.

Lemma bare_fields rf rf' : apply_fields rf' = apply_fields rf → bare rf → bare rf'.
Proof. unfold apply_fields, bare. by intros [= -> _ -> ->]. Qed.

Lemma InstallSnapshot_fields rf args rf' r :
  InstallSnapshot rf args = Ret (rf', r) → is_LastIncludedIndex args = 0 → 0 ≤ lastIncludedIndex rf →
  apply_fields rf' = apply_fields rf.
Proof.
  unfold InstallSnapshot. intros Hret Hi Hl. destruct (_ <? _); [by injection Hret as <- <-|].
  pose proof (adoptTerm_fields (is_Term args) rf) as Hf. assert (lastIncludedIndex (adoptTerm (is_Term args) rf) = lastIncludedIndex rf) as EI.
  { unfold apply_fields in Hf. congruence. }
  destruct (_ >=? _) eqn:Hg; [by injection Hret as <- <-|]. rewrite Hi, EI in Hg. zlia.
Qed.

(** What concerns applying stays, and the term on disk does not go back. *)
Definition keeps rf rf' : Prop := apply_fields rf' = apply_fields rf ∧ disk_term rf ≤ disk_term rf'.

(** A step of the cluster that is not a restart keeps every server. *)
Lemma raft_step_keeps n net net' T A Els i nd' :
  run_inv n net T A Els → net_step_if raft_event net net' → epoch <$> nodes net' = epoch <$> nodes net →
  nodes net' !! i = Some nd' → ∃ nd, nodes net !! i = Some nd ∧ keeps (raft nd) (raft nd').
Proof.
  intros Hinv Hstep He Hi'. pose proof (ri_net _ _ _ _ _ Hinv) as Hnet.
  assert (∀ j nd rf' ev, nodes net !! j = Some nd → apply_fields rf' = apply_fields (raft nd) →
    (rf' = raft nd ∨ step ev (raft nd) = Ret rf') → <[j := mkNode rf' (epoch nd)]> (nodes net) !! i = Some nd' →
    ∃ nd, nodes net !! i = Some nd ∧ keeps (raft nd) (raft nd')) as Hone.
  { intros j nd rf' ev Hj Hf Hor [(<- & <- & _)|[_ Hk]]%list_lookup_insert_Some; [|by exists nd'].
    exists nd. split; [done|]. split; [done|]. simpl. destruct Hor as [->|Hs]; [done|].
    by apply (event_facts _ _ _ _ _ _ Hnet Hj Hs). }
  destruct Hstep as [net j nd ev rf' ms Hj Hret Hok|net k c nd rf' r Hk Hrep Hj Hret
    |net k c nd r rf' Hk Hrep Hj Hep Hret|net k|net j nd rf' Hj Hret]; simpl in *.
  - apply local_step in Hret. eapply Hone; [done| |by right|done]. eapply step_silent, Hret. by destruct ev.
  - pose proof (handle_step _ _ _ _ Hret) as Hs. eapply Hone; [done| |by right|done]. destruct (c_rpc c) as [args|args|args] eqn:Hrpc.
    1,2: by eapply step_silent, Hs.
    pose proof (sf_calls _ _ _ _ _ (ri_safe _ _ _ _ _ Hinv) k c Hk) as Hsafe. unfold call_safe in Hsafe. rewrite Hrpc in Hsafe.
    simpl in Hret. apply bind_Ret_inv in Hret as ([rf1 r1] & Hret & Heq). injection Heq as -> _.
    eapply InstallSnapshot_fields; [done|done|]. by rewrite (sn_plain _ _ _ _ _ _ (sf_node _ _ _ _ _ (ri_safe _ _ _ _ _ Hinv) _ nd Hj)).
  - assert (apply_fields rf' = apply_fields (raft nd)) as Hf.
    { destruct (c_rpc c), r; simpl in Hret; try (by injection Hret as ->).
      + by eapply handleRequestVoteReply_fields.
      + by eapply handleApplyEntriesReply_fields.
      + by eapply handleInstallSnapshotReply_fields. }
    destruct (handleReply_step _ _ _ _ _ Hret) as [->|(ev & Hs & _)]; eapply Hone; [done|done|by left|done|done|done|by right|done].
    Unshelve. exact EvKill.
  - by exists nd'.
  - exfalso. apply (f_equal (lookup j)) in He. rewrite !list_lookup_fmap, list_lookup_insert_eq, Hj in He
      by by eapply lookup_lt_Some. injection He as He. lia.
Qed.

(** ** The commands of a log *)

(** The commands of [g] up to index [x]. *)
Definition cmds g : list C := omap Command (tail g).
Definition ops_to g (x : Z) : list C := omap Command (take (Z.to_nat x) (tail g)).

Lemma ops_to_nonpos g x : x ≤ 0 → ops_to g x = [].
Proof. intros Hx. unfold ops_to. by replace (Z.to_nat x) with 0%nat by lia. Qed.

Lemma take_S_tail (g1 g2 : list (LogEntry C)) k : take (S k) g1 = take (S k) g2 → take k (tail g1) = take k (tail g2).
Proof. destruct g1, g2; simpl; intros Heq; by simplify_eq. Qed.

Lemma ops_to_eq g1 g2 x : take (S (Z.to_nat x)) g1 = take (S (Z.to_nat x)) g2 → ops_to g1 x = ops_to g2 x.
Proof. intros Heq. unfold ops_to. f_equal. by apply take_S_tail. Qed.

Lemma ops_to_agree n net T A Els x hi1 hi2 g1 g2 :
  run_inv n net T A Els → commit_ok n T A x hi1 g1 → commit_ok n T A x hi2 g2 → ops_to g1 x = ops_to g2 x.
Proof.
  intros Hinv Hc1 Hc2. destruct (decide (0 < x)) as [Hx|]; [|by rewrite !ops_to_nonpos by lia].
  eapply ops_to_eq, commits_agree; done.
Qed.

Lemma ops_to_snoc g y e c :
  0 ≤ y → g !! Z.to_nat (y + 1) = Some e → Command e = Some c → ops_to g (y + 1) = ops_to g y ++ [c].
Proof.
  intros Hy Hg Hc. unfold ops_to. replace (Z.to_nat (y + 1)) with (S (Z.to_nat y)) in * by lia.
  rewrite (take_S_r (tail g) (Z.to_nat y) e) by by destruct g. rewrite omap_app. simpl. by rewrite Hc.
Qed.

(** ** What the history of terms holds *)

Section fit.
Context (P : C → Prop) (st0 : St) (Hst0 : sm_wf st0).

(** A command that was fit after some prefix of the log before it. *)
Definition fits (g : list (LogEntry C)) (command : option C) : Prop :=
  ∃ c, command = Some c ∧ P c ∧
    ∃ (j : nat) st, (j ≤ length (tail g))%nat ∧ sm_run st0 (take j (cmds g)) = Ret st ∧ sm_ok st c.

Lemma history_commands T t L :
  holds_only fits T → T !! t = Some L → ∀ e, e ∈ tail L → is_Some (Command e).
Proof.
  intros HT HL e (k & Hk)%list_elem_of_lookup. destruct (HT t L k e HL) as (c & -> & _); [by destruct L|done].
Qed.

Lemma history_fit T t L :
  holds_only fits T → T !! t = Some L → fit st0 (cmds L) ∧ Forall P (cmds L).
Proof.
  intros HT HL. pose proof (history_commands _ _ _ HT HL) as Hall. split.
  - intros k c Hk. unfold cmds in Hk. rewrite omap_lookup_all in Hk by done.
    apply bind_Some in Hk as (e & He & Hc). destruct (HT t L k e HL) as (c' & Hc' & _ & j & st & Hj & Hr & Hok); [by destruct L|].
    assert (tail (take (S k) L) = take k (tail L)) as Ht by by destruct L.
    assert (cmds (take (S k) L) = take k (cmds L)) as Hcm.
    { unfold cmds. rewrite Ht. by apply omap_take_all. }
    rewrite Ht, length_take in Hj. rewrite Hcm, take_take, Nat.min_l in Hr by lia.
    exists j, st. split_and!; [lia|done|congruence].
  - apply Forall_forall. intros c (e & He & Hc)%list_elem_of_omap.
    apply list_elem_of_lookup in He as (k & Hk). destruct (HT t L k e HL) as (c' & ? & ? & _); [by destruct L|congruence].
Qed.

(** A committed prefix is one of a log of the history. *)
Lemma committed_prefix n T A x hi g :
  holds_only fits T → commit_ok n T A x hi g → 0 < x →
  ∃ t L, T !! t = Some L ∧ take (S (Z.to_nat x)) g = take (S (Z.to_nat x)) L ∧
    ops_to g x = take (Z.to_nat x) (cmds L) ∧ zlen (ops_to g x) = x.
Proof.
  intros HT Hc Hx. pose proof (commit_ok_length _ _ _ _ _ _ Hc Hx) as Hlen.
  destruct Hc as [?|(t & m & L & _ & HL & _ & _ & Heq)]; [lia|]. exists t, L.
  pose proof (history_commands _ _ _ HT HL) as Hall.
  assert (ops_to L x = take (Z.to_nat x) (cmds L)) as Hops by (by apply omap_take_all).
  rewrite (ops_to_eq _ _ _ Heq). split_and!; [done..|]. rewrite Hops, length_take. unfold cmds.
  rewrite omap_length_all by done. apply (f_equal length) in Heq. rewrite !length_take in Heq. destruct L as [|e L]; cbn [tail length] in *; lia.
Qed.

Lemma committed_runs n T A x hi g :
  holds_only fits T → commit_ok n T A x hi g →
  ∃ st, sm_run st0 (ops_to g x) = Ret st ∧ sm_wf st ∧ Forall P (ops_to g x).
Proof.
  intros HT Hc. destruct (decide (0 < x)) as [Hx|]; [|rewrite ops_to_nonpos by lia; by exists st0].
  destruct (committed_prefix _ _ _ _ _ _ HT Hc Hx) as (t & L & HL & _ & -> & _).
  destruct (history_fit _ _ _ HT HL) as [Hf HP]. destruct (fit_runs st0 _ Hst0 (fit_take _ _ (Z.to_nat x) Hf)) as (st & ? & ? & _).
  exists st. split_and!; [done..|by apply Forall_take].
Qed.

Lemma length_ops_to n T A x hi g y :
  holds_only fits T → commit_ok n T A x hi g → 0 ≤ y ≤ x → zlen (ops_to g y) = y.
Proof.
  intros HT Hc Hy. destruct (decide (y = 0)) as [->|]; [done|].
  assert (commit_ok n T A y hi g) as Hcy by (eapply commit_ok_le; [done|lia]).
  by destruct (committed_prefix _ _ _ _ _ _ HT Hcy ltac:(lia)) as (t & L & _ & _ & _ & ?).
Qed.

Lemma ops_to_prefix n T A x hi g y :
  holds_only fits T → commit_ok n T A x hi g → 0 ≤ y ≤ x → ops_to g y = take (Z.to_nat y) (ops_to g x).
Proof.
  intros HT Hc Hy. destruct (decide (y = 0)) as [->|]; [done|].
  destruct (committed_prefix _ _ _ _ _ _ HT Hc ltac:(lia)) as (t & L & HL & Heq & -> & _).
  rewrite take_take, Nat.min_l by lia. rewrite (ops_to_eq g L y).
  - apply omap_take_all. by eapply history_commands.
  - eapply take_eq_mono; [exact Heq|lia].
Qed.

Lemma committed_command n T A x hi g :
  holds_only fits T → commit_ok n T A x hi g → 0 < x → ∃ e c, g !! Z.to_nat x = Some e ∧ Command e = Some c.
Proof.
  intros HT Hc Hx. pose proof (commit_ok_length _ _ _ _ _ _ Hc Hx) as Hlen.
  destruct (committed_prefix _ _ _ _ _ _ HT Hc Hx) as (t & L & HL & Heq & _ & _).
  destruct (lookup_lt_is_Some_2 g (Z.to_nat x) Hlen) as [e He]. exists e.
  destruct (history_commands _ _ _ HT HL e) as [c Hcmd]; [|by exists c].
  apply list_elem_of_lookup. exists (Z.to_nat x - 1)%nat. erewrite (take_eq_lookup g L) in He; [|exact Heq|lia].
  destruct L; simpl; [done|]. destruct (Z.to_nat x) eqn:?; [lia|]. simpl in *. by rewrite Nat.sub_0_r.
Qed.
End fit.

(** ** The invariant *)
Section invariant.
Context (G : Srv → C → Prop) (p : Par).
Context (HG : ∀ s c, G s c → sm_wf (sv_state s) → sm_ok (sv_state s) c).
Notation st0 := (sv_init p).
(** What is in the logs was started. *)
Notation ok := (fits (λ c, ∃ s, G s c) st0).

(** A state is where a committed prefix leads; [hi] bounds the term it was
    committed in. *)
Definition at_log (n : nat) T A (hi : Z) s : Prop :=
  0 ≤ sv_applied s ∧ ∃ g, commit_ok n T A (sv_applied s) hi g ∧ sm_run st0 (ops_to g (sv_applied s)) = Ret (sv_state s).

(** A message on the channel carries a committed command. *)
Definition delivers (n : nat) T A (hi : Z) (m : ApplyMsg C) : Prop :=
  CommandValid m = true ∧ 1 ≤ CommandIndex m ∧ ∃ g e, commit_ok n T A (CommandIndex m) hi g ∧
    g !! Z.to_nat (CommandIndex m) = Some e ∧ msg_Command m = Command e.

Record app_ok (n : nat) T A rf app : Prop := mkAppOk {
  ao_bare : bare rf;
  ao_state : at_log n T A (disk_term rf) (a_srv app);
  ao_chan : consume (sv_applied (a_srv app)) (a_chan app) = Some (lastApplied rf);
  ao_msgs : Forall (delivers n T A (disk_term rf)) (a_chan app);
}.

Record sys_inv (n : nat) sys T A Els : Prop := mkSysInv {
  si_run : run_inv n (s_net sys) T A Els;
  si_ops : holds_only ok T;
  si_apps i nd app : nodes (s_net sys) !! i = Some nd → s_apps sys !! i = Some app → app_ok n T A (raft nd) app;
  si_len : length (s_apps sys) = n;
}.

Lemma at_log_wf n T A hi s : holds_only ok T → at_log n T A hi s → sm_wf (sv_state s).
Proof using G.
  intros HP (_ & g & Hc & Hst). destruct (committed_runs _ _ (sv_init_wf p) _ _ _ _ _ _ HP Hc) as (st & Hr & Hwf & _).
  rewrite Hst in Hr. by injection Hr as ->.
Qed.

Lemma commit_ok_extends n T A T' A' x hi hi' g : extends T A T' A' → hi ≤ hi' → commit_ok n T A x hi g → commit_ok n T' A' x hi' g.
Proof. intros [HT HA] Hhi. by apply commit_ok_mono. Qed.

Lemma at_log_extends n T A T' A' hi hi' s : extends T A T' A' → hi ≤ hi' → at_log n T A hi s → at_log n T' A' hi' s.
Proof. intros He Hhi [? (g & ? & ?)]. split; [done|]. exists g. split; [by eapply commit_ok_extends|done]. Qed.

Lemma delivers_extends n T A T' A' hi hi' m : extends T A T' A' → hi ≤ hi' → delivers n T A hi m → delivers n T' A' hi' m.
Proof.
  intros He Hhi (? & ? & g & e & ? & ? & ?). split_and!; [done..|]. exists g, e.
  split_and!; [by eapply commit_ok_extends|done..].
Qed.

Lemma app_ok_keeps n T A T' A' rf rf' app :
  extends T A T' A' → keeps rf rf' → app_ok n T A rf app → app_ok n T' A' rf' app.
Proof.
  intros He [Hf Hd] [? ? Hc Hm]. split.
  - by eapply bare_fields.
  - by eapply at_log_extends.
  - unfold apply_fields in Hf. congruence.
  - eapply Forall_impl; [exact Hm|]. intros m. by apply delivers_extends.
Qed.

Lemma app_ok_extends n T A T' A' rf app : extends T A T' A' → app_ok n T A rf app → app_ok n T' A' rf app.
Proof. intros He. by apply app_ok_keeps. Qed.

(** What the applier makes of the next message. *)
Lemma handle_message n net T A Els rf s m ms o :
  run_inv n net T A Els → holds_only ok T → app_ok n T A rf (mkApp s (m :: ms)) → sv_handles rf s m o →
  ∃ s', o = Ret s' ∧ app_ok n T A rf (mkApp s' ms).
Proof.
  intros Hinv HP [Hb [Hla (g & Hc & Hst)] Hch Hm] Ho. simpl in *.
  apply Forall_cons in Hm as [(Hv & Hi1 & g' & e & Hc' & He & Hcmd) Hms].
  unfold consume1 in Hch. rewrite Hv in Hch. destruct (_ =? _) eqn:Hidx; simpl in Hch; [|done]. b2p.
  rewrite <-Hidx in *. destruct (committed_command _ _ _ _ _ _ _ _ HP Hc') as (e' & c & He' & Hcc); [lia|].
  assert (e' = e) as -> by congruence.
  destruct (committed_runs _ _ (sv_init_wf p) _ _ _ _ _ _ HP Hc') as (st' & Hr & _ & _).
  rewrite (ops_to_snoc _ _ e c), sm_run_snoc in Hr by done.
  rewrite (ops_to_agree n net T A Els (sv_applied s) (disk_term rf) (disk_term rf) g' g Hinv) in Hr
    by ((eapply commit_ok_le; [exact Hc'|lia]) || done).
  rewrite Hst, bind_Ret in Hr.
  destruct (sv_handle_command rf s m c o st' Hv) as (s' & -> & Hla' & Hst'); [done|congruence|done|done|].
  exists s'. split; [done|]. split; simpl; [done| |by rewrite Hla'|done]. split; [lia|]. exists g'. rewrite Hla'. split; [done|].
  rewrite (ops_to_snoc _ _ e c), sm_run_snoc by done.
  rewrite (ops_to_agree n net T A Els (sv_applied s) (disk_term rf) (disk_term rf) g' g Hinv)
    by ((eapply commit_ok_le; [exact Hc'|lia]) || done).
  by rewrite Hst, bind_Ret, Hst'.
Qed.

(** The applier takes the messages of a channel. *)
Inductive handles_all rf : Srv → list (ApplyMsg C) → outcome Srv → Prop :=
  | handles_nil s : handles_all rf s [] (Ret s)
  | handles_cons s m ms s' o : sv_handles rf s m (Ret s') → handles_all rf s' ms o → handles_all rf s (m :: ms) o
  | handles_fail s m ms o : sv_handles rf s m o → (∀ s', o ≠ Ret s') → handles_all rf s (m :: ms) o.

Lemma handle_channel n net T A Els rf s ms o :
  run_inv n net T A Els → holds_only ok T → app_ok n T A rf (mkApp s ms) → handles_all rf s ms o →
  ∃ s', o = Ret s' ∧ app_ok n T A rf (mkApp s' []).
Proof.
  intros Hinv HP Hok Hall. induction Hall as [s|s m ms s' o Hh _ IH|s m ms o Hh Hno]; [by exists s|..];
    destruct (handle_message _ _ _ _ _ _ _ _ _ _ Hinv HP Hok Hh) as (s1 & Heq & Hok1).
  - injection Heq as <-. by apply IH.
  - by destruct (Hno s1).
Qed.

(** *** Steps *)

(** What [applyLog] sends. *)
Lemma apply_messages n net T A Els i nd rf' r s ms :
  run_inv n net T A Els → nodes net !! i = Some nd → applyLog (raft nd) = Ret (rf', r) →
  app_ok n T A (raft nd) (mkApp s ms) → app_ok n T A rf' (mkApp s (ms ++ default [] r)).
Proof.
  intros Hinv Hi Hret [Hb Hst Hch Hm]. simpl in *. pose proof Hinv as [Hnet Hlog _ _ Hsafe].
  pose proof (no_wf _ _ _ (ni_nodes _ _ Hnet i nd Hi)) as Hwf. pose proof (plain_commit_in_range _ _ _ _ _ _ _ Hinv Hi) as Hr.
  pose proof (sf_node _ _ _ _ _ Hsafe i nd Hi) as Hn. destruct (plain_log _ _ _ _ _ _ _ Hnet Hlog Hsafe Hi) as (_ & HD & _).
  destruct Hb as (Hsnap & Hpend & Hla). destruct (Raft.dead (raft nd)) eqn:Hd.
  { unfold applyLog, Raft.killed in Hret. rewrite Hd in Hret. simpl in Hret. injection Hret as <- <-. simpl. by rewrite app_nil_r. }
  pose proof (applyLog_spec (raft nd) Hwf Hr Hd) as Hspec. cbv zeta in Hspec. rewrite Hpend in Hspec.
  destruct (_ && _) eqn:Hblock.
  { rewrite Hret in Hspec. injection Hspec as -> ->. simpl. rewrite app_nil_r. by split. }
  destruct Hspec as (t & Hspec). rewrite Hret in Hspec. injection Hspec as -> ->. simpl in *.
  rewrite andb_true_r in Hblock. apply Z.leb_gt in Hblock.
  rewrite (proj2 (Z.ltb_lt (lastApplied (raft nd)) (committedIndex (raft nd))) Hblock).
  rewrite (sn_plain _ _ _ _ _ _ Hn) in *. rewrite (Z.max_l (lastApplied (raft nd)) 0) by lia. rewrite Z.max_r by lia.
  split; simpl.
  - split_and!; [done|done|simpl; lia].
  - done.
  - rewrite consume_app, Hch. simpl. rewrite consume_commands. f_equal. lia.
  - apply Forall_app. split; [done|]. apply Forall_forall. intros m (Hv & Hidx & Hcmd)%command_msgs_elem.
    split; [done|]. split; [lia|].
    assert (commit_ok n T A (CommandIndex m) (disk_term (raft nd)) (Logs (raft nd))) as Hc.
    { eapply commit_ok_le; [apply Hn|lia]. }
    pose proof (commit_ok_length _ _ _ _ _ _ Hc ltac:(lia)) as Hlen.
    destruct (lookup_lt_is_Some_2 (Logs (raft nd)) (Z.to_nat (CommandIndex m)) Hlen) as [e He].
    exists (Logs (raft nd)), e. split_and!; [done|done|].
    rewrite Hcmd, entry_at_plain, He by (done || lia). done.
Qed.

Lemma app_ok_fresh n T A rf s :
  bare rf → lastApplied rf = 0 → sv_applied s = 0 → sv_state s = st0 → app_ok n T A rf (mkApp s []).
Proof.
  intros Hb Hla Hkv Hst. split; [done| |simpl; congruence|by constructor]. split; [simpl; lia|].
  exists []. simpl. rewrite Hkv, Hst. split; [by left|done].
Qed.

(** What a leader may start fits its log. *)
Lemma guard_fits n net T A Els i nd app c :
  run_inv n net T A Els → holds_only ok T → nodes net !! i = Some nd → app_ok n T A (raft nd) app →
  identity (raft nd) = LEADER → G (a_srv app) c → ok (Logs (raft nd)) (Some c).
Proof.
  intros Hinv HP Hi [_ [Hla (g & Hc & Hst)] _ _] HL HGc. pose proof Hinv as [Hnet Hlog _ _ Hsafe].
  destruct (plain_log _ _ _ _ _ _ _ Hnet Hlog Hsafe Hi) as (_ & _ & Hlead). specialize (Hlead HL).
  destruct (committed_runs _ _ (sv_init_wf p) _ _ _ _ _ _ HP Hc) as (st & Hr & Hwf & _).
  assert (st = sv_state (a_srv app)) as -> by congruence. exists c. split; [done|]. split; [by exists (a_srv app)|].
  exists (Z.to_nat (sv_applied (a_srv app))), (sv_state (a_srv app)). split; [|split; [|by apply HG]].
  - destruct (decide (0 < sv_applied (a_srv app))) as [Hpos|]; [|lia].
    assert (commit_ok n T A (sv_applied (a_srv app)) (disk_term (raft nd)) (Logs (raft nd))) as Hc'.
    { eapply commit_ok_mono; [reflexivity|done|reflexivity| |exact Hc]. intros _.
      eapply (committed_in_leader n net T A Els); [done..|exact Hlead|apply disk_term_le, (ni_nodes _ _ Hnet i nd Hi)|done|done]. }
    apply commit_ok_length in Hc'; [|done]. destruct (Logs (raft nd)); simpl in *; lia.
  - rewrite <-Hst. f_equal. destruct (decide (0 < sv_applied (a_srv app))) as [Hpos|].
    + rewrite (ops_to_eq g (Logs (raft nd))).
      * symmetry. apply omap_take_all. by eapply history_commands.
      * eapply (committed_in_leader n net T A Els); [done..|exact Hlead|apply disk_term_le, (ni_nodes _ _ Hnet i nd Hi)|done|done].
    + rewrite ops_to_nonpos by lia. by replace (Z.to_nat (sv_applied (a_srv app))) with 0%nat by lia.
Qed.

Lemma keeps_start i nd net c rf' ms n :
  net_inv n net → nodes net !! i = Some nd → local (LStart (Some c)) (raft nd) = Ret (rf', ms) → keeps (raft nd) rf'.
Proof.
  intros Hnet Hi Hret%local_step. split; [by eapply step_silent, Hret|by apply (event_facts _ _ _ _ _ _ Hnet Hi Hret)].
Qed.

Lemma sys_inv_step n sys sys' T A Els :
  sys_step G p sys sys' → sys_inv n sys T A Els → ∃ T' A' Els', extends T A T' A' ∧ sys_inv n sys' T' A' Els'.
Proof.
  intros Hstep [Hinv HP Happs Hlen]. pose proof (ri_net _ _ _ _ _ Hinv) as Hnet.
  destruct Hstep as [net net' apps Hs He|net apps i nd app c rf' ms Hi Ha Hret HGc|net apps i nd app rf' r Hi Ha Hret
    |net apps i nd app m ms s' Hi Ha Hch Hret|net apps i nd rf' p' s' Hi Hret Hstart Hp]; simpl in *.
  - destruct (run_inv_step ok n net net' T A Els) as (T' & A' & Els' & Hext & HP' & Hinv'); [|done|done|].
    { eapply net_step_mono, Hs. intros ev rf Hev. split; [by destruct ev|]. by intros command ->. }
    exists T', A', Els'. split; [done|]. split; simpl; [done|done| |done]. intros j nd' app Hj Happ.
    destruct (raft_step_keeps _ _ _ _ _ _ _ _ Hinv Hs He Hj) as (nd & Hj0 & Hk).
    eapply app_ok_keeps; [done|done|by apply (Happs j)].
  - destruct (run_inv_step ok n net (send i nd rf' ms net) T A Els) as (T' & A' & Els' & Hext & HP' & Hinv'); [|done|done|].
    { eapply (net_local _ net i nd (LStart (Some c))); [done|exact Hret|]. split; [done|]. intros command [= <-] HL.
      eapply guard_fits; [done|done|done|by apply (Happs i)|done|done]. }
    exists T', A', Els'. split; [done|]. split; simpl; [done|done| |done]. intros j nd' app' Hj Happ.
    apply list_lookup_insert_Some in Hj as [(<- & <- & _)|[_ Hj]].
    + eapply app_ok_keeps; [done| |by apply (Happs i)]. by eapply keeps_start.
    + eapply app_ok_extends; [done|by apply (Happs j)].
  - destruct (run_inv_step ok n net (send i nd rf' [] net) T A Els) as (T' & A' & Els' & Hext & HP' & Hinv'); [|done|done|].
    { eapply (net_local _ net i nd LApplyLog); [done| |by split]. simpl. by rewrite Hret. }
    exists T', A', Els'. split; [done|]. split; simpl; [done|done| |by rewrite length_insert].
    intros j nd' app' Hj Happ. destruct (decide (j = i)) as [->|Hne].
    + rewrite list_lookup_insert_eq in Hj by by eapply lookup_lt_Some. rewrite list_lookup_insert_eq in Happ by by eapply lookup_lt_Some.
      injection Hj as <-. injection Happ as <-. eapply app_ok_extends; [done|]. simpl.
      eapply apply_messages; [done|done|done|]. destruct app as [s ms]. by apply (Happs i).
    + rewrite list_lookup_insert_ne in Hj by done. rewrite list_lookup_insert_ne in Happ by done. eapply app_ok_extends; [done|by apply (Happs j)].
  - exists T, A, Els. split; [done|]. split; simpl; [done|done| |by rewrite length_insert].
    intros j nd' app' Hj Happ. destruct (decide (j = i)) as [->|Hne].
    + rewrite list_lookup_insert_eq in Happ by by eapply lookup_lt_Some. injection Happ as <-.
      assert (nd' = nd) as -> by congruence. pose proof (Happs i nd app Hi Ha) as Hok. destruct app as [s chan]. simpl in *. subst chan.
      destruct (handle_message _ _ _ _ _ _ _ _ _ _ Hinv HP Hok Hret) as (s1 & [= <-] & Hok1). exact Hok1.
    + rewrite list_lookup_insert_ne in Happ by done. by apply (Happs j).
  - destruct (run_inv_step ok n net _ T A Els (net_restart _ net i nd rf' Hi Hret) HP Hinv)
      as (T' & A' & Els' & Hext & HP' & Hinv').
    exists T', A', Els'. split; [done|]. split; simpl; [done|done| |by rewrite length_insert].
    intros j nd' app' Hj Happ. destruct (decide (j = i)) as [->|Hne].
    2:{ rewrite list_lookup_insert_ne in Hj by done. rewrite list_lookup_insert_ne in Happ by done. eapply app_ok_extends; [done|by apply (Happs j)]. }
    rewrite list_lookup_insert_eq in Hj by by eapply lookup_lt_Some. injection Hj as <-. simpl.
    destruct (lookup_lt_is_Some_2 apps i) as [app Ha].
    { apply lookup_lt_Some in Hi. rewrite Hlen, <-(ni_len _ _ Hnet). done. }
    rewrite list_lookup_insert_eq in Happ by by eapply lookup_lt_Some. injection Happ as <-.
    destruct (ao_bare _ _ _ _ _ (Happs i nd app Hi Ha)) as (Hsnap & _ & _).
    destruct (ni_nodes _ _ Hnet i nd Hi) as [_ _ Hwf Hdur Hdisk _ _].
    destruct (Make_recovers _ Hwf Hdur Hdisk) as (t & v & Hb & _ & Hret' & _).
    rewrite Hret in Hret'. injection Hret' as ->.
    pose proof (sn_plain _ _ _ _ _ _ (sf_node _ _ _ _ _ (ri_safe _ _ _ _ _ Hinv) i nd Hi)) as Hlii.
    destruct Hdur as (? & ? & _ & Hps & _). rewrite Hsnap in Hps.
    destruct (sv_start_fresh _ _ _ _ _ Hps Hstart) as [Hla Hst].
    apply app_ok_fresh; [|simpl; done|done|congruence]. split_and!; simpl; [done|done|lia].
Qed.

Lemma sys_inv_init n sys : sys_init p n sys → ∃ T A Els, sys_inv n sys T A Els.
Proof.
  intros (Hnet & Hlen & Happs). pose proof (run_inv_init _ _ Hnet) as Hinv.
  eexists _, _, _. split; [exact Hinv| | |done].
  - intros t L k e HL Hk. apply lookup_singleton_Some in HL as [_ <-]. done.
  - intros i nd app Hi Ha. destruct Hnet as (_ & _ & _ & Hnodes). destruct (Hnodes i nd Hi) as [_ Hmake].
    destruct (Happs i app Ha) as (Hchan & p' & Hstart & Hp). destruct app as [s chan]. simpl in *. subst chan.
    destruct (sv_start_fresh _ _ MakePersister _ _ eq_refl Hstart) as [Hla Hst].
    pose proof (lookup_lt_Some _ _ _ Ha) as Hlt. destruct (Make_fresh (C := C) n (Z.of_nat i)) as (rf & Hrf & _ & _ & _ & _ & ->); [lia|].
    assert (raft nd = boot_state n (Z.of_nat i) MakePersister 0 Unvote [zeroEntry] 0 []) as -> by congruence.
    apply app_ok_fresh; [done|done|done|congruence].
Qed.

Lemma sys_inv_steps n sys sys' T A Els :
  rtc (sys_step G p) sys sys' → sys_inv n sys T A Els → ∃ T' A' Els', extends T A T' A' ∧ sys_inv n sys' T' A' Els'.
Proof.
  intros Hsteps. revert T A Els. induction Hsteps as [sys|sys sys1 sys' Hstep _ IH]; intros T A Els Hinv.
  { by exists T, A, Els. }
  destruct (sys_inv_step _ _ _ _ _ _ Hstep Hinv) as (T1 & A1 & Els1 & [HT1 HA1] & Hinv1).
  destruct (IH _ _ _ Hinv1) as (T' & A' & Els' & [HT HA] & Hinv'). exists T', A', Els'.
  split; [split; [by etrans|auto]|done].
Qed.
End invariant.

(** ** One log *)

(** The server has executed a prefix of [log]. *)
Definition at_prefix (st0 : St) (log : list C) s : Prop :=
  0 ≤ sv_applied s ≤ zlen log ∧ sm_run st0 (take (Z.to_nat (sv_applied s)) log) = Ret (sv_state s).

Lemma sys_inv_weaken G1 G2 p n sys T A Els :
  (∀ s c, G1 s c → G2 s c) → sys_inv G1 p n sys T A Els → sys_inv G2 p n sys T A Els.
Proof.
  intros HG [? HP ? ?]. split; [done| |done|done]. intros t L k e HL Hk.
  destruct (HP t L k e HL Hk) as (c & -> & [s Hs] & j & st & ? & ? & ?). exists c. split_and!; [done|by eauto|by exists j, st].
Qed.

(** The log [log] starts with the commands of the committed prefix [s] has
    executed. *)
Definition in_log_of (n : nat) T A (log : list C) s : Prop :=
  ∀ hi g, commit_ok n T A (sv_applied s) hi g → take (Z.to_nat (sv_applied s)) log = ops_to g (sv_applied s).

(** States that committed prefixes lead to follow the longest of them. *)
Lemma common_log G p n net T A Els (ss : list Srv) :
  run_inv n net T A Els → holds_only (fits (λ c, ∃ s, G s c) (sv_init p)) T → Forall (λ s, ∃ hi, at_log p n T A hi s) ss →
  ∃ log, Forall (λ s, at_prefix (sv_init p) log s ∧ in_log_of n T A log s) ss ∧
    fit (sv_init p) log ∧ Forall (λ c, ∃ s, G s c) log.
Proof.
  intros Hinv HP Hss.
  assert (∃ x hi g, 0 ≤ x ∧ commit_ok n T A x hi g ∧ Forall (λ s, sv_applied s ≤ x) ss) as (x & hi & g & Hx & Hg & Hall).
  { clear HP. induction Hss as [|s ss (hi1 & Hla & g1 & Hg1 & _) _ (x & hi & g & Hx & Hg & Hall)].
    { exists 0, 0, []. split_and!; [lia|by left|constructor]. }
    destruct (decide (sv_applied s ≤ x)) as [Hle|Hgt]; [by exists x, hi, g; auto|].
    exists (sv_applied s), hi1, g1. split_and!; [done|done|]. constructor; [lia|].
    eapply Forall_impl; [exact Hall|]. simpl. lia. }
  exists (ops_to g x). split_and!.
  - rewrite Forall_forall in Hss. rewrite Forall_forall in Hall. apply Forall_forall. intros s Hs.
    destruct (Hss s Hs) as (hi1 & Hla & g1 & Hg1 & Hst). specialize (Hall s Hs).
    assert (in_log_of n T A (ops_to g x) s) as Hin.
    { intros hi2 g2 Hg2. rewrite <-(ops_to_prefix _ _ n T A x hi g _ HP Hg) by lia.
      eapply ops_to_agree; [done| |exact Hg2]. eapply commit_ok_le; [exact Hg|lia]. }
    split; [|done]. split; [rewrite (length_ops_to _ _ n T A x hi g x HP Hg) by lia; lia|].
    by rewrite (Hin hi1 g1 Hg1).
  - destruct (decide (0 < x)) as [Hpos|]; [|rewrite ops_to_nonpos by lia; by intros k c Hk].
    destruct (committed_prefix _ _ _ _ _ _ _ _ HP Hg Hpos) as (t & L & HL & _ & -> & _).
    apply fit_take. by eapply history_fit.
  - destruct (committed_runs _ _ (sv_init_wf p) _ _ _ _ _ _ HP Hg) as (st & _ & _ & ?). done.
Qed.

(** Where the servers of a system are, now and with the messages on their
    channels handled. *)
Lemma sys_states G p n sys T A Els i app :
  sys_inv G p n sys T A Els → s_apps sys !! i = Some app →
  ∃ nd, nodes (s_net sys) !! i = Some nd ∧ at_log p n T A (disk_term (raft nd)) (a_srv app) ∧
    ∀ o, handles_all (raft nd) (a_srv app) (a_chan app) o → ∃ s', o = Ret s' ∧ at_log p n T A (disk_term (raft nd)) s'.
Proof.
  intros [Hinv HP Happs Hlen] Ha. destruct (lookup_lt_is_Some_2 (nodes (s_net sys)) i) as [nd Hi].
  { rewrite (ni_len _ _ (ri_net _ _ _ _ _ Hinv)), <-Hlen. by eapply lookup_lt_Some. }
  pose proof (Happs i nd app Hi Ha) as Hok. exists nd. split; [done|]. split; [apply Hok|]. intros o Ho. destruct app as [s chan].
  destruct (handle_channel _ _ _ _ _ _ _ _ _ _ _ Hinv HP Hok Ho) as (s' & -> & Hok'). exists s'. split; [done|apply Hok'].
Qed.

(** What a server has executed was started. *)
Lemma executed_started G p n T A s hi g c :
  holds_only (fits (λ c, ∃ s, G s c) (sv_init p)) T → commit_ok n T A (sv_applied s) hi g →
  c ∈ ops_to g (sv_applied s) → ∃ s, G s c.
Proof.
  intros HP Hc Hin. destruct (committed_runs _ _ (sv_init_wf p) _ _ _ _ _ _ HP Hc) as (st & _ & _ & Hall).
  rewrite Forall_forall in Hall. by apply Hall.
Qed.

(** *** Committed logs

    [is_log n T A log]: [log] is what the cluster has agreed on up to some index. *)
Definition is_log (n : nat) T A (log : list C) : Prop :=
  ∃ hi g, commit_ok n T A (zlen log) hi g ∧ ops_to g (zlen log) = log.

Lemma is_log_nil n T A : is_log n T A [].
Proof. exists 0, []. split; [by left|]. by apply ops_to_nonpos. Qed.

Lemma is_log_extends n T A T' A' log : extends T A T' A' → is_log n T A log → is_log n T' A' log.
Proof. intros He (hi & g & Hc & Hl). exists hi, g. split; [by eapply commit_ok_extends|done]. Qed.

(** Of two committed logs one continues the other. *)
Lemma is_log_prefix (P : C → Prop) st0 n net T A Els log1 log2 :
  run_inv n net T A Els → holds_only (fits P st0) T → is_log n T A log1 → is_log n T A log2 →
  (length log1 ≤ length log2)%nat → log1 `prefix_of` log2.
Proof.
  intros Hinv HP (hi1 & g1 & Hc1 & Hl1) (hi2 & g2 & Hc2 & Hl2) Hle.
  assert (log1 = take (length log1) log2) as ->; [|apply prefix_take].
  rewrite <-Hl1 at 1. rewrite <-Hl2. rewrite (ops_to_agree n net T A Els (zlen log1) hi1 hi2 g1 g2 Hinv Hc1).
  - rewrite (ops_to_prefix P st0 n T A (zlen log2) hi2 g2 (zlen log1) HP Hc2) by lia. by rewrite Nat2Z.id.
  - eapply commit_ok_le; [exact Hc2|lia].
Qed.

(** A committed log may be executed, and what is in it was started. *)
Lemma is_log_fit (P : C → Prop) st0 n T A log :
  sm_wf st0 → holds_only (fits P st0) T → is_log n T A log → fit st0 log ∧ Forall P log.
Proof.
  intros Hwf HP (hi & g & Hc & Hl). split.
  - rewrite <-Hl. destruct (decide (0 < zlen log)) as [Hpos|]; [|rewrite ops_to_nonpos by lia; by intros k c Hk].
    destruct (committed_prefix _ _ _ _ _ _ _ _ HP Hc Hpos) as (t & L & HL & _ & -> & _). apply fit_take. by eapply history_fit.
  - destruct (committed_runs _ _ Hwf _ _ _ _ _ _ HP Hc) as (st & _ & _ & Hall). by rewrite Hl in Hall.
Qed.

(** What a state has executed is such a log. *)
Lemma at_log_is_log G p n T A hi s :
  holds_only (fits (λ c, ∃ s, G s c) (sv_init p)) T → at_log p n T A hi s →
  ∃ log, is_log n T A log ∧ zlen log = sv_applied s ∧ sm_run (sv_init p) log = Ret (sv_state s).
Proof.
  intros HP (Hla & g & Hc & Hst).
  assert (zlen (ops_to g (sv_applied s)) = sv_applied s) as Hlen by (eapply length_ops_to; [exact HP|exact Hc|]; split; [done|lia]).
  exists (ops_to g (sv_applied s)). split_and!; [|done|done]. exists hi, g. by rewrite Hlen.
Qed.

(** A log that has got further than a server is what the server follows. *)
Lemma is_log_follows G p n net T A Els log hi s :
  run_inv n net T A Els → holds_only (fits (λ c, ∃ s, G s c) (sv_init p)) T → is_log n T A log → at_log p n T A hi s →
  sv_applied s ≤ zlen log → at_prefix (sv_init p) log s.
Proof.
  intros Hinv HP Hlog Hat Hle. destruct (at_log_is_log G p n T A hi s HP Hat) as (log1 & Hlog1 & Hlen & Hr).
  pose proof Hat as [Hla _]. split; [lia|].
  destruct (is_log_prefix _ _ _ _ _ _ _ _ _ Hinv HP Hlog1 Hlog) as [k ->]; [lia|].
  rewrite <-Hlen, Nat2Z.id. by rewrite take_app_length.
Qed.

(** The furthest of a log and of what some states have executed. *)
Lemma is_log_furthest G p n net T A Els log (ss : list Srv) :
  run_inv n net T A Els → holds_only (fits (λ c, ∃ s, G s c) (sv_init p)) T → is_log n T A log →
  Forall (λ s, ∃ hi, at_log p n T A hi s) ss →
  ∃ log', is_log n T A log' ∧ log `prefix_of` log' ∧ Forall (at_prefix (sv_init p) log') ss.
Proof.
  intros Hinv HP Hlog Hss.
  assert (∃ log', is_log n T A log' ∧ (length log ≤ length log')%nat ∧ Forall (λ s, sv_applied s ≤ zlen log') ss)
    as (log' & Hlog' & Hle & Hall).
  { induction Hss as [|s ss [hi Hat] _ (log1 & Hlog1 & Hle & Hall)]; [by exists log|].
    destruct (decide (sv_applied s ≤ zlen log1)); [exists log1; by auto|].
    destruct (at_log_is_log G p n T A hi s HP Hat) as (log2 & Hlog2 & Hlen & _). exists log2. split_and!; [done|lia|].
    constructor; [lia|]. eapply Forall_impl; [exact Hall|]. simpl. lia. }
  exists log'. split_and!; [done|by eapply is_log_prefix|]. rewrite Forall_forall in Hss. rewrite Forall_forall in Hall.
  apply Forall_forall. intros s Hs. destruct (Hss s Hs) as [hi Hat]. eapply is_log_follows; try done. by apply Hall.
Qed.

(** The longest of some committed logs. *)
Lemma is_log_longest (P : C → Prop) st0 n net T A Els (logs : list (list C)) :
  run_inv n net T A Els → holds_only (fits P st0) T → Forall (is_log n T A) logs →
  ∃ log, (log = [] ∨ log ∈ logs) ∧ Forall (λ l, l `prefix_of` log) logs.
Proof.
  intros Hinv HP Hall. assert (∃ log, is_log n T A log ∧ (log = [] ∨ log ∈ logs) ∧ Forall (λ l, l `prefix_of` log) logs)
    as (log & _ & ?); [|by exists log].
  induction Hall as [|l logs Hl _ (log & Hlog & Hin & Hpre)]; [exists []; split_and!; [apply is_log_nil|by left|done]|].
  destruct (decide (length l ≤ length log)%nat).
  - exists log. split_and!; [done|destruct Hin as [?|?]; [by left|right; by right]|]. constructor; [by eapply is_log_prefix|done].
  - exists l. split_and!; [done|right; by left|]. constructor; [done|]. eapply Forall_impl; [exact Hpre|]. intros l' Hl'.
    etrans; [exact Hl'|]. eapply is_log_prefix; try done. lia.
Qed.

(** The servers of a system, and a log that was committed before. *)
Lemma sys_furthest G p n sys T A Els log :
  sys_inv G p n sys T A Els → is_log n T A log →
  ∃ log', is_log n T A log' ∧ log `prefix_of` log' ∧ fit (sv_init p) log' ∧ Forall (λ c, ∃ s, G s c) log' ∧
    ∀ i app, s_apps sys !! i = Some app → at_prefix (sv_init p) log' (a_srv app).
Proof.
  intros Hinv Hlog. destruct (is_log_furthest G p n (s_net sys) T A Els log (a_srv <$> s_apps sys)) as (log' & Hlog' & Hp & Hall);
    [apply Hinv|apply Hinv|done| |].
  - apply Forall_fmap, Forall_lookup. intros i app Ha. destruct (sys_states _ _ _ _ _ _ _ _ _ Hinv Ha) as (nd & _ & Hat & _). by eexists.
  - rewrite Forall_fmap, Forall_lookup in Hall.
    destruct (is_log_fit _ _ n T A log' (sv_init_wf p) (si_ops _ _ _ _ _ _ _ Hinv) Hlog'). by exists log'.
Qed.

(** Now the commands [G] may be started, later also [G']: there is one log of
    which all servers have executed prefixes now and later; what they have
    executed now was started until now, and the applier never panics. *)
Theorem sys_one_log G G' p n sys sys' :
  (∀ s c, G s c → G' s c) → (∀ s c, G' s c → sm_wf (sv_state s) → sm_ok (sv_state s) c) →
  sys_reachable G p n sys → rtc (sys_step G' p) sys sys' →
  ∃ log, fit (sv_init p) log ∧ Forall (λ c, ∃ s, G' s c) log ∧
    (∀ i app, s_apps sys !! i = Some app → at_prefix (sv_init p) log (a_srv app) ∧
      ∀ c, c ∈ take (Z.to_nat (sv_applied (a_srv app))) log → ∃ s, G s c) ∧
    (∀ i app, s_apps sys' !! i = Some app → at_prefix (sv_init p) log (a_srv app) ∧
      ∀ nd o, nodes (s_net sys') !! i = Some nd → handles_all (raft nd) (a_srv app) (a_chan app) o → ∃ s', o = Ret s').
Proof.
  intros Hsub HG (sys0 & Hinit & Hsteps0) Hsteps.
  assert (∀ s c, G s c → sm_wf (sv_state s) → sm_ok (sv_state s) c) as HG0 by (intros s c Hs; by apply HG, Hsub).
  destruct (sys_inv_init G p _ _ Hinit) as (T0 & A0 & Els0 & Hinv0).
  destruct (sys_inv_steps G p HG0 _ _ _ _ _ _ Hsteps0 Hinv0) as (T & A & Els & _ & Hinv).
  destruct (sys_inv_steps G' p HG _ _ _ _ _ _ Hsteps (sys_inv_weaken G G' _ _ _ _ _ _ Hsub Hinv)) as (T' & A' & Els' & Hext & Hinv').
  destruct (common_log G' p n (s_net sys') T' A' Els' ((a_srv <$> s_apps sys) ++ (a_srv <$> s_apps sys')))
    as (log & Hall & Hfit & Hst); [apply Hinv'|apply Hinv'| |].
  - rewrite Forall_app, !Forall_fmap. split; apply Forall_lookup; intros i app Ha; simpl.
    + destruct (sys_states _ _ _ _ _ _ _ _ _ Hinv Ha) as (nd & _ & Hat & _). eexists. eapply at_log_extends; [done|reflexivity|exact Hat].
    + destruct (sys_states _ _ _ _ _ _ _ _ _ Hinv' Ha) as (nd & _ & Hat & _). by eexists.
  - exists log. rewrite Forall_app, !Forall_fmap, !Forall_lookup in Hall. destruct Hall as (Hnow & Hlater).
    split_and!; [done|done|..].
    + intros i app Ha. destruct (Hnow i app Ha) as [Hf Hin]. split; [done|]. intros c.
      destruct (sys_states _ _ _ _ _ _ _ _ _ Hinv Ha) as (nd & _ & [_ (g & Hc & _)] & _). simpl in Hin.
      rewrite (Hin (disk_term (raft nd)) g) by by eapply commit_ok_extends.
      eapply executed_started; [apply Hinv|exact Hc].
    + intros i app Ha. split; [by apply (Hlater i)|]. intros nd o Hi Ho.
      destruct (sys_states _ _ _ _ _ _ _ _ _ Hinv' Ha) as (nd' & Hi' & _ & Hch). assert (nd' = nd) as -> by congruence.
      destruct (Hch o Ho) as (s' & -> & _). by exists s'.
Qed.
End system.
