(* ===== verification/RaftExample.v ===== *)
(** * Raft: an executable cluster

    A scheduler that performs the steps of [plain_step] in a given order, and a
    concrete instance of the development (commands are natural numbers, the
    persister uses the stream format of [CountableGob]): three servers that
    elect a leader and replicate a command.  The concrete states below
    instantiate the hypotheses of the theorems. *)

From Stdlib Require Import Strings.Byte.
From stdpp Require Import prelude gmap countable strings list.
From S2P Require Import Prelude Gob Raft RaftNode RaftServer RaftEvolve RaftNet RaftLog RaftSafetySteps RaftStateMachine.
Local Open Scope Z_scope.

Section scheduler.
Context {C : Type} `{Gob Z} `{Gob (list (LogEntry C))}.

Inductive Action :=
  | ALocal (i : nat) (ev : Local C)
  | ADeliver (k : nat)
  | AReply (k : nat)
  | ADrop (k : nat)
  | ARestart (i : nat).

Definition of_outcome {A} (m : outcome A) : option A :=
  match m with Ret a => Some a | _ => None end.

Lemma of_outcome_Some {A} (m : outcome A) a : of_outcome m = Some a → m = Ret a.
Proof. destruct m; simpl; congruence. Qed.

Definition act_local (i : nat) (ev : Local C) (net : Net C) : option (Net C) :=
  nd ← nodes net !! i;
  '(rf', ms) ← of_outcome (local ev (raft nd));
  Some (with_calls (add_calls i (epoch nd) (next_call net) ms)
          (next_call net + length ms)%nat (put_raft i nd rf' net)).

Definition act (a : Action) (net : Net C) : option (Net C) :=
  match a with
  | ALocal i ev =>
      match ev with LSnapshot _ _ => None | _ => act_local i ev net end
  | ADeliver k =>
      c ← calls net !! k;
      match c_reply c with
      | Some _ => None
      | None =>
          nd ← nodes net !! Z.to_nat (c_dst c);
          '(rf', r) ← of_outcome (handle (raft nd) (c_rpc c));
          Some (with_calls (insert k (mkCall (c_src c) (c_epoch c) (c_dst c) (c_rpc c) (Some r)))
                  (next_call net) (put_raft (Z.to_nat (c_dst c)) nd rf' net))
      end
  | AReply k =>
      c ← calls net !! k;
      r ← c_reply c;
      nd ← nodes net !! c_src c;
      if decide (epoch nd = c_epoch c) then
        rf' ← of_outcome (handleReply (raft nd) (c_dst c) (c_rpc c) r);
        Some (with_calls (delete k) (next_call net) (put_raft (c_src c) nd rf' net))
      else None
  | ADrop k => Some (with_calls (delete k) (next_call net) net)
  | ARestart i =>
      nd ← nodes net !! i;
      rf' ← of_outcome (Make (peers (raft nd)) (me (raft nd)) (persister (raft nd)));
      Some (mkNet (<[i := mkNode rf' (S (epoch nd))]> (nodes net)) (calls net) (next_call net)
              (cast rf' ++ ballots net))
  end.

Fixpoint acts (l : list Action) (net : Net C) : option (Net C) :=
  match l with
  | [] => Some net
  | a :: l => net' ← act a net; acts l net'
  end.

Lemma act_local_sound i ev net net' :
  (match ev with LSnapshot _ _ => False | _ => True end) →
  act_local i ev net = Some net' → plain_step net net'.
Proof.
  intros Hev (nd & Hi & ([rf' ms] & Hret%of_outcome_Some & ?)%bind_Some)%bind_Some.
  simplify_eq. eapply net_local; [done..|]. by destruct ev.
Qed.

Lemma act_sound a net net' : act a net = Some net' → plain_step net net'.
Proof.
  destruct a; unfold act; intros Hact.
  { destruct ev; try done; (eapply act_local_sound; [|exact Hact]; done). }
  all: repeat (simplify_option_eq || case_match);
    repeat match goal with Ho : of_outcome _ = Some _ |- _ => apply of_outcome_Some in Ho end.
  - by eapply net_deliver.
  - by eapply net_reply.
  - apply net_drop.
  - by eapply net_restart.
Qed.

Lemma acts_sound l net net' : acts l net = Some net' → rtc plain_step net net'.
Proof.
  revert net. induction l as [|a l IH]; intros net Hacts; simplify_option_eq; [done|].
  eapply rtc_l; [by eapply act_sound|by apply IH].
Qed.
End scheduler.
Arguments Action : clear implicits.

(** ** The concrete cluster *)

#[export] Instance LogEntry_eq_dec `{EqDecision C} : EqDecision (LogEntry C).
Proof. solve_decision. Defined.
#[export] Instance LogEntry_countable `{Countable C} : Countable (LogEntry C).
Proof.
  refine (inj_countable' (λ e, (Command e, Term e)) (λ p, mkEntry p.1 p.2) _). by intros [].
Defined.

Definition ZGob : Gob Z := CountableGob Z.
Definition LogGob : Gob (list (LogEntry nat)) := CountableGob (list (LogEntry nat)).
Definition ZGobLaws : @GobLaws Z ZGob := CountableGobLaws Z.
Definition LogGobLaws : @GobLaws (list (LogEntry nat)) LogGob :=
  CountableGobLaws (list (LogEntry nat)).
#[export] Existing Instances ZGob LogGob ZGobLaws LogGobLaws.

Definition boot (n i : nat) : Node nat :=
  mkNode (boot_state n (Z.of_nat i) MakePersister 0 Unvote [zeroEntry] 0 []) 0.

Definition cluster0 : Net nat := mkNet (boot 3 <$> [0; 1; 2]%nat) ∅ 0 [].

Lemma cluster0_init : net_init 3 cluster0.
Proof.
  split_and!; [done..|]. intros i nd Hi. unfold cluster0 in Hi. cbn [nodes] in Hi.
  rewrite list_lookup_fmap in Hi. apply fmap_Some in Hi as (j & Hj & ->).
  assert (j = i ∧ (i < 3)%nat) as [-> Hlt].
  { destruct i as [|[|[|i]]]; simplify_eq/=; auto with lia. }
  split; [done|]. by destruct (Make_fresh (C := nat) 3 (Z.of_nat i)) as (rf & -> & _ & _ & _ & _ & ->); [lia|].
Qed.

(** Server 0 is elected with the vote of server 1, accepts a command and
    replicates it to server 1; the request to server 2 is lost. *)
Definition schedule : list (Action nat) :=
  [ALocal 0 LElectionTimeout; ADeliver 0; AReply 0; ADrop 1;
   ALocal 0 (LStart (Some 7%nat)); ADeliver 2; AReply 2].

Definition cluster1 : Net nat := default cluster0 (acts schedule cluster0).

Lemma cluster1_steps : rtc plain_step cluster0 cluster1.
Proof. apply (acts_sound schedule). vm_compute. reflexivity. Qed.

Lemma cluster1_plain : plain_reachable 3 cluster1.
Proof. exists cluster0. split; [apply cluster0_init|apply cluster1_steps]. Qed.

Lemma cluster1_log : log_reachable 3 cluster1.
Proof.
  exists cluster0. split; [apply cluster0_init|]. eapply rtc_subrel; [apply plain_log_step|apply cluster1_steps].
Qed.

Lemma cluster1_reachable : reachable 3 cluster1.
Proof. apply log_reachable_net, cluster1_log. Qed.

Definition node1 (i : nat) : Node nat := default (boot 3 0) (nodes cluster1 !! i).

Lemma node1_lookup (i : nat) : (i < 3)%nat → nodes cluster1 !! i = Some (node1 i).
Proof. intros. destruct i as [|[|[|i]]]; [vm_compute; reflexivity..|lia]. Qed.

(** The leader committed the command. *)
Example cluster1_leader :
  identity (raft (node1 0)) = LEADER ∧ CurrentTerm (raft (node1 0)) = 1 ∧
  Logs (raft (node1 0)) = [zeroEntry; mkEntry (Some 7%nat) 1] ∧
  Logs (raft (node1 1)) = [zeroEntry; mkEntry (Some 7%nat) 1] ∧
  committedIndex (raft (node1 0)) = 1 ∧ committedIndex (raft (node1 1)) = 0.
Proof. vm_compute. by split_and!. Qed.

(** The next heartbeat tells server 1 that the command is committed. *)
Definition cluster2 : Net nat :=
  default cluster0 (acts [ALocal 0 LHeartbeatTimeout; ADeliver 4; ADeliver 5] cluster1).

Lemma cluster2_steps : rtc plain_step cluster1 cluster2.
Proof. apply (acts_sound [ALocal 0 LHeartbeatTimeout; ADeliver 4; ADeliver 5]). vm_compute. reflexivity. Qed.

Definition node2 (i : nat) : Node nat := default (boot 3 0) (nodes cluster2 !! i).

Lemma node2_lookup (i : nat) : (i < 3)%nat → nodes cluster2 !! i = Some (node2 i).
Proof. intros. destruct i as [|[|[|i]]]; [vm_compute; reflexivity..|lia]. Qed.

(** Server 0 loses contact; server 1 is elected with the vote of server 2. *)
Definition cluster3 : Net nat :=
  default cluster0 (acts [ALocal 1 LElectionTimeout; ADeliver 7; AReply 7] cluster2).

Lemma cluster3_steps : rtc plain_step cluster2 cluster3.
Proof. apply (acts_sound [ALocal 1 LElectionTimeout; ADeliver 7; AReply 7]). vm_compute. reflexivity. Qed.

Definition node3 (i : nat) : Node nat := default (boot 3 0) (nodes cluster3 !! i).

Lemma node3_lookup (i : nat) : (i < 3)%nat → nodes cluster3 !! i = Some (node3 i).
Proof. intros. destruct i as [|[|[|i]]]; [vm_compute; reflexivity..|lia]. Qed.

Example cluster3_leader :
  identity (raft (node3 1)) = LEADER ∧ CurrentTerm (raft (node3 1)) = 2 ∧
  committedIndex (raft (node2 1)) = 1 ∧ committedIndex (raft (node2 2)) = 1.
Proof. vm_compute. by split_and!. Qed.
