(* ===== verification/RaftTheorems.v ===== *)
(** * Raft: the contract of a server

    What the operations of one server promise, stated on log indices the way
    the service sees them: runs and crashes, the search over terms, log
    replication, snapshots, the commit rule.  The witnesses use the concrete
    cluster of [RaftExample]. *)

From Stdlib Require Import Strings.Byte.
From stdpp Require Import prelude gmap strings list.
From S2P Require Import Prelude Gob Raft RaftNode RaftServer RaftCommit RaftEvolve RaftApply.
From S2P Require Import RaftNet RaftElection RaftCluster RaftLog RaftSafetySteps RaftStateMachine RaftExample.
Local Open Scope Z_scope.

(** ** Runs of one server *)
Section runs.
Context {C : Type} `{GobLaws Z} `{GobLaws (list (LogEntry C))}.
Implicit Types (rf : Raft C).

(** C21: crash recovery.  After any run of a fresh server, a restart from
    the persister succeeds with the log, the snapshot and its index as they
    were before the crash; the term and the vote are not ahead of the old
    ones, and if the server had voted in its term the vote is still there. *)
Theorem crash_recovery n i rf0 rf :
  0 ≤ i < Z.of_nat n → Make n i MakePersister = Ret rf0 → valid_run rf0 rf →
  ∃ rf', Make n i (persister rf) = Ret rf' ∧ wf rf' ∧ Logs rf' = Logs rf ∧
    snapshot rf' = snapshot rf ∧ lastIncludedIndex rf' = lastIncludedIndex rf ∧
    identity rf' = FOLLOWER ∧ vote_le rf' rf ∧
    (VoteFor rf ≠ Unvote → CurrentTerm rf' = CurrentTerm rf ∧ VoteFor rf' = VoteFor rf).
Proof.
  intros Hi Hmake Hrun. destruct (valid_run_make n i rf0 rf Hi Hmake Hrun) as (Hwf & Hdur & Hd & <- & <-).
  destruct (Make_recovers rf Hwf Hdur Hd) as (t & v & Hb & Hle & Hret & Hwf' & _).
  eexists. split_and!; [done..|]. intros Hv.
  destruct (held_cast rf Hdur Hv) as (L & HL). rewrite Hb in HL. by simplify_eq.
Qed.

(** along every run the term never decreases and, within a term, a vote
    once cast never changes. *)
Theorem run_vote_stable rf rf' :
  wf rf → disk_ok rf → valid_run rf rf' →
  CurrentTerm rf ≤ CurrentTerm rf' ∧
  (CurrentTerm rf = CurrentTerm rf' → VoteFor rf ≠ Unvote → VoteFor rf' = VoteFor rf).
Proof.
  intros Hwf Hd Hrun. destruct (valid_run_keeps _ _ Hrun Hwf Hd) as (_ & _ & [_ _ V _ _]).
  unfold vote_le in V. split; [lia|]. intros. destruct V as [?|[_ [?|?]]]; [lia|done|done].
Qed.

(** no server falls silent.  Along every run of a fresh server, a
    leader's heartbeat timer and every other server's election timer are
    armed, and the [applyLog] goroutine waits only when nothing committed
    and no snapshot is left to deliver (no wake-up is lost). *)
Theorem run_stays_live n i rf0 rf :
  0 ≤ i < Z.of_nat n → Make n i MakePersister = Ret rf0 → valid_run rf0 rf →
  (identity rf = LEADER → heartbeatTimer rf = true) ∧
  (identity rf ≠ LEADER → electionTimer rf = true) ∧
  (applyLogWaiting rf = true → committedIndex rf ≤ lastApplied rf ∧ applySnappending rf = false).
Proof.
  intros Hi Hmake Hrun. destruct (Make_fresh (C := C) n i Hi) as (? & Hrf & Hwf0 & _ & Hd0 & Hl0 & _).
  rewrite Hmake in Hrf. injection Hrf as <-.
  destruct (valid_run_keeps _ _ Hrun Hwf0 Hd0) as (_ & _ & [_ _ _ _ Hl]). by apply Hl.
Qed.

(** a well-formed server handles every event without a panic and stays
    well-formed (log non-empty and sorted by term, terms at most the
    current one, snapshot index and discard count in step, per-peer arrays
    of the right length). *)
Theorem server_keeps_wf ev rf :
  wf rf → valid_event ev rf → ∃ rf', step ev rf = Ret rf' ∧ wf rf'.
Proof. apply step_safe. Qed.

(** [persist] followed by [readPersist] gives back term, vote and log,
    whatever the server started with. *)
Theorem persist_roundtrip rf rf0 :
  readPersist (ReadRaftState (persister (persist rf))) rf0 =
  set_Logs (Logs rf) (set_VoteFor (VoteFor rf) (set_CurrentTerm (CurrentTerm rf) rf0)).
Proof.
  unfold readPersist. by destruct (persist_decodes rf) as [-> ->].
Qed.
End runs.

(** ** The log *)
Section log.
Context {C : Type} `{GobLaws Z} `{GobLaws (list (LogEntry C))}.
Implicit Types (rf : Raft C).

(** C28: [findFirstIndex] terminates on every well-formed log and returns
    the first index whose term is at least [term]: all entries before it
    are of smaller terms, all entries from it on are not. *)
Theorem findFirstIndex_correct rf term :
  wf rf →
  ∃ r, findFirstIndex rf term = Ret r ∧ 0 ≤ r ≤ zlen (Logs rf) ∧
    (∀ (i : nat) x, Z.of_nat i < r → Logs rf !! i = Some x → Term x < term) ∧
    (∀ (i : nat) x, r ≤ Z.of_nat i → Logs rf !! i = Some x → term ≤ Term x).
Proof. apply findFirstIndex_safe. Qed.

(** the two loops of [ApplyEntries] (cut the log at the first conflict,
    then copy entry by entry) compute [mergeLog]: the entries replace the
    log from [k] on, and a longer log is kept unless it conflicts. *)
Theorem replicate_loops_merge (L : list (LogEntry C)) (k : nat) E :
  (k ≤ length L)%nat →
  (L' ← truncateConflict L (Z.of_nat k) E; copyEntries L' (Z.of_nat k) E)
  = Ret (mergeLog L k E).
Proof. apply replicate_loops. Qed.

Lemma entry_at_shift rf rf' (L : list (LogEntry C)) k :
  DiscardCount rf' = DiscardCount rf → Logs rf' = L →
  entry_at rf' k = if DiscardCount rf <=? k then L !! Z.to_nat (k - DiscardCount rf) else None.
Proof. intros HD HL. unfold entry_at, RealIndex. by rewrite HD, HL. Qed.

(** replication.  A request that passes the consistency check is
    acknowledged; afterwards the server holds every entry sent at its
    index, its log up to the previous index is untouched, and if nothing
    conflicts no entry is lost. *)
Theorem ApplyEntries_replicates rf args :
  wf rf → valid_ae args → CurrentTerm rf ≤ ae_Term args → prev_matches rf args →
  ∃ rf' reply, ApplyEntries rf args = Ret (rf', reply) ∧ aer_Success reply = true ∧ wf rf' ∧
    (∀ (j : nat) e, ae_Entries args !! j = Some e →
       entry_at rf' (ae_PrevLogIndex args + 1 + Z.of_nat j) = Some e) ∧
    (∀ k, k ≤ ae_PrevLogIndex args → entry_at rf' k = entry_at rf k) ∧
    (conflicts (drop (S (Z.to_nat (RealIndex rf (ae_PrevLogIndex args)))) (Logs rf)) (ae_Entries args) = false →
       ∀ k, is_Some (entry_at rf k) → is_Some (entry_at rf' k)).
Proof.
  intros Hwf Hv Hle Hprev.
  destruct (ApplyEntries_accept rf args Hwf Hv Hle Hprev) as (rf' & Hret & Hwf' & _ & _ & HD & _ & HL).
  exists rf'. eexists. split_and!; [done|done|done| | |].
  all: destruct Hprev as (e0 & He0 & _); unfold entry_at in He0; case_match; [|done];
    pose proof (lookup_lt_Some _ _ _ He0) as Hlt; unfold RealIndex in *; b2p.
  - intros j e Hj. rewrite (entry_at_shift rf rf' _ _ HD HL). destruct (_ <=? _) eqn:?; [|zlia].
    unfold RealIndex. replace (Z.to_nat _) with (S (Z.to_nat (ae_PrevLogIndex args - DiscardCount rf)) + j)%nat by lia.
    apply mergeLog_entries; [lia|done].
  - intros k Hk. rewrite (entry_at_shift rf rf' _ _ HD HL). unfold entry_at, RealIndex.
    destruct (_ <=? k) eqn:?; [|done]. apply mergeLog_prefix; zlia.
  - intros Hc k. rewrite (entry_at_shift rf rf' _ _ HD HL). unfold entry_at, RealIndex.
    destruct (_ <=? k) eqn:?; [|done]. rewrite !lookup_lt_is_Some. unfold mergeLog. rewrite Hc.
    rewrite !length_app, length_take, length_drop. lia.
Qed.

(** a request whose previous entry the server does not hold is refused
    without touching the log, and the reply tells the leader where to go on:
    the length of the log if it is too short, otherwise an index not after
    the previous one where an entry of the conflicting term is. *)
Theorem ApplyEntries_refuses rf args :
  wf rf → CurrentTerm rf ≤ ae_Term args → lastIncludedIndex rf ≤ ae_PrevLogIndex args →
  ¬ prev_matches rf args →
  ∃ rf' reply, ApplyEntries rf args = Ret (rf', reply) ∧ aer_Success reply = false ∧
    aer_Term reply = ae_Term args ∧ Logs rf' = Logs rf ∧ committedIndex rf' = committedIndex rf ∧
    aer_XLen reply = RaftIndex rf (zlen (Logs rf)) ∧
    (aer_XIndex reply = InvalidIndex ∧ aer_XLen reply ≤ ae_PrevLogIndex args ∨
     ∃ e, entry_at rf (aer_XIndex reply) = Some e ∧ Term e = aer_XTerm reply ∧
          aer_XIndex reply ≤ ae_PrevLogIndex args).
Proof.
  intros Hwf Hle Hlii Hno. destruct (ApplyEntries_reject rf args Hwf Hle Hlii Hno)
    as (reply & Hret & HT & HS & HX & Hhint).
  destruct (adoptTerm_core (ae_Term args) rf) as (HL & _ & HC & _).
  eexists _, _. by split_and!.
Qed.
End log.

(** ** Snapshots *)
Section snapshots.
Context {C : Type} `{GobLaws Z} `{GobLaws (list (LogEntry C))}.
Implicit Types (rf : Raft C).

(** What [doSnapshot] leaves of the log. *)
Lemma doSnapshot_entries rf rf' :
  Logs rf ≠ [] → DiscardCount rf ≤ lastIncludedIndex rf → doSnapshot rf = Ret rf' →
  lastIncludedIndex rf ≤ RaftIndex rf (zlen (Logs rf) - 1) →
  DiscardCount rf' = lastIncludedIndex rf ∧
  ∀ k, lastIncludedIndex rf ≤ k → entry_at rf' k = entry_at rf k.
Proof.
  intros Hne Hlow Hret Hhigh. rewrite doSnapshot_spec in Hret by done. injection Hret as <-.
  split; [done|]. intros k Hk. unfold entry_at, RealIndex, RaftIndex in *. simpl.
  destruct (lastIncludedIndex rf <=? k) eqn:?; [|zlia].
  destruct (DiscardCount rf <=? k) eqn:?; [|zlia].
  rewrite lookup_drop. f_equal. unfold covered. lia.
Qed.

(** [Snapshot] with an index the log still reaches discards exactly the
    entries before it: the entry at the index and all later ones keep their
    place, the snapshot is stored and persisted, and neither the committed
    nor the applied index falls behind it. *)
Theorem Snapshot_trims rf index snap :
  wf rf → snap_ok index snap → lastIncludedIndex rf < index →
  index ≤ RaftIndex rf (zlen (Logs rf) - 1) →
  ∃ rf', Snapshot index snap rf = Ret rf' ∧ wf rf' ∧ lastIncludedIndex rf' = index ∧
    snapshot rf' = snap ∧ ReadSnapshot (persister rf') = snap ∧
    index ≤ committedIndex rf' ∧ index ≤ lastApplied rf' ∧
    (∀ k, index ≤ k → entry_at rf' k = entry_at rf k) ∧
    (∀ k, k < index → entry_at rf' k = None).
Proof.
  intros Hwf Hsnap Hlt Hin. destruct (Snapshot_safe rf index snap Hwf Hsnap) as (rf' & Hret & Hwf').
  exists rf'. pose proof Hret as Hret'. unfold Snapshot in Hret'. destruct (_ <=? _) eqn:?; [zlia|].
  rewrite clone_id in Hret'. set (rf1 := if lastApplied _ <=? _ then _ else _) in Hret'.
  assert (Logs rf1 = Logs rf ∧ DiscardCount rf1 = DiscardCount rf ∧ index ≤ committedIndex rf1 ∧
    index ≤ lastApplied rf1) as (HL & HD & HC & HA).
  { subst rf1. repeat case_match; simpl in *; b2p; split_and!; try done; lia. }
  clearbody rf1. pose proof (wf_discard _ Hwf).
  destruct (doSnapshot_entries (set_snapshot snap (set_lastIncludedIndex index rf1)) rf') as [HD' Hk];
    [simpl; rewrite HL; apply Hwf|simpl; lia|done|unfold RaftIndex in *; simpl; rewrite HL, HD; lia|].
  apply doSnapshot_inv in Hret' as (L & ->). simpl in *.
  split_and!; try done; [by unfold ReadSnapshot; simpl; rewrite !clone_id| |].
  - intros k Hik. rewrite Hk by done. unfold entry_at, RealIndex. simpl. by rewrite HL, HD.
  - intros k Hik. unfold entry_at. simpl. case_match; [zlia|done].
Qed.

Lemma doSnapshot_fields rf rf' :
  doSnapshot rf = Ret rf' →
  snapshot rf' = snapshot rf ∧ lastIncludedIndex rf' = lastIncludedIndex rf.
Proof. by intros (L & ->)%doSnapshot_inv. Qed.

(** The log already holds the last entry of the snapshot, after the first
    position. *)
Definition snap_matches rf (args : InstallSnapshotArgs) : Prop :=
  ∃ e, DiscardCount rf < is_LastIncludedIndex args ∧
    entry_at rf (is_LastIncludedIndex args) = Some e ∧ Term e = is_LastIncludedTerm args.

(** The test of [InstallSnapshot]. *)
Definition keepSuffix rf (args : InstallSnapshotArgs) : outcome bool :=
  let realIndex := RealIndex rf (is_LastIncludedIndex args) in
  if (realIndex >? 0) && (realIndex <? zlen (Logs rf)) then
    e ← go_index (Logs rf) realIndex; Ret (Term e =? is_LastIncludedTerm args)
  else Ret false.

Lemma keepSuffix_spec rf args :
  ∃ b, keepSuffix rf args = Ret b ∧ (b = true ↔ snap_matches rf args).
Proof.
  unfold keepSuffix, snap_matches, entry_at, RealIndex. destruct (_ && _) eqn:Hr.
  - b2p. destruct (go_index_in_range (Logs rf) (is_LastIncludedIndex args - DiscardCount rf))
      as (e & -> & He); [lia|]. eexists. split; [done|]. rewrite Z.eqb_eq. split.
    + intros Ht. exists e. case_match; [|zlia]. split_and!; [lia|done|done].
    + intros (e' & _ & He' & Ht). case_match; [|done]. congruence.
  - exists false. split; [done|]. split; [done|]. intros (e & Hlt & He & _). case_match; [|done].
    apply lookup_lt_Some in He. apply andb_false_iff in Hr as [Hr|Hr]; zlia.
Qed.

(** [doSnapshot] as [InstallSnapshot] calls it. *)
Lemma install_log rf args (b : bool) rf' :
  Logs rf ≠ [] → DiscardCount rf ≤ is_LastIncludedIndex args → (b = true → snap_matches rf args) →
  doSnapshot (if b then set_snapshot (is_Data args) (set_lastIncludedIndex (is_LastIncludedIndex args) rf)
              else set_Logs [mkEntry None (is_LastIncludedTerm args)]
                     (set_snapshot (is_Data args) (set_lastIncludedIndex (is_LastIncludedIndex args) rf)))
    = Ret rf' →
  (if b then ∀ k, is_LastIncludedIndex args ≤ k → entry_at rf' k = entry_at rf k
   else Logs rf' = [mkEntry None (is_LastIncludedTerm args)]).
Proof.
  intros Hne HD Hb Hret. destruct b.
  - destruct (Hb eq_refl) as (e & _ & He & _). unfold entry_at, RealIndex in He. case_match; [|done].
    apply lookup_lt_Some in He.
    eapply doSnapshot_entries in Hret as [_ Hk]; [exact Hk|done|done|]. unfold RaftIndex. simpl. lia.
  - rewrite doSnapshot_spec in Hret by done. injection Hret as <-. unfold covered. simpl.
    by rewrite Z.min_l, Z.max_l by lia.
Qed.

(** [InstallSnapshot] of a newer snapshot.  The server adopts the
    snapshot and its index, and hands it to the [applyLog] goroutine, which
    is awake.  If the log holds the last entry the snapshot covers, that
    entry and all later ones stay; otherwise the whole log is replaced by
    the snapshot.  Either way log and snapshot are on disk. *)
Theorem InstallSnapshot_installs rf args :
  wf rf → durable rf → valid_is args → CurrentTerm rf ≤ is_Term args →
  lastIncludedIndex rf < is_LastIncludedIndex args →
  ∃ rf' reply, InstallSnapshot rf args = Ret (rf', reply) ∧ wf rf' ∧ durable rf' ∧
    isr_Term reply = is_Term args ∧ snapshot rf' = is_Data args ∧
    lastIncludedIndex rf' = is_LastIncludedIndex args ∧
    applySnappending rf' = true ∧ applyLogWaiting rf' = false ∧
    (snap_matches rf args → ∀ k, is_LastIncludedIndex args ≤ k → entry_at rf' k = entry_at rf k) ∧
    (¬ snap_matches rf args → Logs rf' = [mkEntry None (is_LastIncludedTerm args)]).
Proof.
  intros Hwf Hdur Hv Hle Hlt.
  destruct (InstallSnapshot_safe rf args Hwf Hv) as (rf' & reply & Hret & Hwf').
  exists rf', reply. pose proof (ev_durable _ _ (InstallSnapshot_evolves _ _ _ _ Hret) Hdur) as Hdur'.
  pose proof Hret as Hret'. unfold InstallSnapshot in Hret'.
  destruct (_ <? _) eqn:?; [zlia|]. pose proof (adoptTerm_term (is_Term args) rf Hle) as HT.
  destruct (adoptTerm_core (is_Term args) rf) as (HL & HD & _).
  pose proof (adoptTerm_fields (is_Term args) rf) as HI. pose proof (wf_discard _ Hwf).
  destruct (keepSuffix_spec rf args) as (b & Hb & Hiff).
  set (rf1 := adoptTerm (is_Term args) rf) in *. clearbody rf1. injection HI as _ HI _.
  destruct (_ >=? _) eqn:?; [zlia|]. rewrite clone_id in Hret'.
  change (RealIndex (set_snapshot _ _) _) with (RealIndex rf1 (is_LastIncludedIndex args)) in Hret'.
  simpl Logs in Hret'. fold (keepSuffix rf1 args) in Hret'.
  assert (keepSuffix rf1 args = Ret b) as Hb1 by (unfold keepSuffix, RealIndex in *; by rewrite HL, HD).
  rewrite Hb1, bind_Ret in Hret'. apply bind_Ret_inv in Hret' as (rf2 & Hdo & Hret').
  assert (∀ k, entry_at rf1 k = entry_at rf k) as Hent
    by (intros k; unfold entry_at, RealIndex; by rewrite HL, HD).
  pose proof (install_log rf1 args b rf2) as Hlog.
  assert (snapshot rf2 = is_Data args ∧ lastIncludedIndex rf2 = is_LastIncludedIndex args) as [HS2 HI2].
  { apply doSnapshot_fields in Hdo as [-> ->]. by destruct b. }
  injection Hret' as <- <-. split_and!; try done.
  - change (entry_at (signalApply _)) with (entry_at rf2). intros Hm%Hiff k Hk. subst b. rewrite <-Hent. apply Hlog; [by rewrite HL; apply Hwf|lia| |done|done].
    intros _. unfold snap_matches in *. setoid_rewrite Hent. rewrite HD. by apply Hiff.
  - change (Logs (signalApply _)) with (Logs rf2). intros Hm. destruct b; [by destruct Hm; apply Hiff|].
    apply Hlog; [by rewrite HL; apply Hwf|lia|done|done].
Qed.
End snapshots.

(** ** The commit rule *)
Section commit.
Context {C : Type} `{GobLaws Z} `{GobLaws (list (LogEntry C))}.
Implicit Types (rf : Raft C).

(** C29: the commit rule.  [updateCommittedIndex] always returns, never
    moves the committed index back, and moves it only to an entry of the
    leader's own term that the leader and enough peers for a majority hold;
    no later entry of the log has such a majority. *)
Theorem updateCommittedIndex_rule rf :
  wf rf →
  ∃ rf', updateCommittedIndex rf = Ret rf' ∧ committedIndex rf ≤ committedIndex rf' ∧
    (committedIndex rf < committedIndex rf' →
       quorum_at rf (committedIndex rf') = true ∧
       (∃ e, entry_at rf (committedIndex rf') = Some e ∧ Term e = CurrentTerm rf) ∧
       applyLogWaiting rf' = false) ∧
    (∀ k e, committedIndex rf' < k → entry_at rf k = Some e → Term e = CurrentTerm rf →
       quorum_at rf k = false).
Proof.
  intros Hwf. destruct (updateCommittedIndex_cases rf Hwf)
    as [[-> Hlt]|(low & res & Hlow & Hcur & Hlt & Hsearch & ->)].
  { exists rf. split_and!; [done|lia|lia|]. intros k e _ He Ht. unfold entry_at in He. case_match; [|done].
    apply list_elem_of_lookup_2, Hlt in He. lia. }
  destruct (searchCommit_finds (length (Logs rf)) rf low (zlen (Logs rf) - 1)) as (r & Hr & Hmax & Hcase);
    [done|lia|]. rewrite Hsearch in Hr. injection Hr as <-.
  eexists. split; [done|]. set (rf' := if _ =? _ then _ else _).
  assert (committedIndex rf' = res ∧ (committedIndex rf < res → applyLogWaiting rf' = false)) as [-> HW].
  { subst rf'. case_match; simpl; [|done]. b2p. split; [done|lia]. }
  split_and!.
  - destruct Hcase as [?|[? _]]; lia.
  - intros Hgt. destruct Hcase as [?|(_ & Hq & m & -> & Hm)]; [lia|]. split_and!; [done| |by apply HW].
    destruct (lookup_lt_is_Some_2 (Logs rf) (Z.to_nat m)) as [e He]; [lia|]. exists e.
    unfold entry_at, RealIndex, RaftIndex. rewrite Z.add_simpl_r. case_match; [|zlia].
    split; [done|]. apply (Hcur (Z.to_nat m)); [lia|done].
  - intros k e Hk He Ht. unfold entry_at in He. destruct (_ <=? k) eqn:HDk; [|done].
    pose proof (lookup_lt_Some _ _ _ He). unfold RealIndex in *.
    replace k with (RaftIndex rf (k - DiscardCount rf)) by (unfold RaftIndex; lia).
    apply Hmax; unfold RaftIndex; [lia| |destruct Hcase as [?|[? _]]; lia].
    b2p. split; [|lia]. destruct (decide (low ≤ k - DiscardCount rf)); [done|].
    apply (Hlt (Z.to_nat (k - DiscardCount rf))) in He; lia.
Qed.
End commit.

(** ** Delivery to the service *)
Section delivery.
Context {C : Type} `{GobLaws Z} `{GobLaws (list (LogEntry C))}.
Implicit Types (rf : Raft C).

(** C27: the stream of [ApplyMsg]s since the last start.  The service of a
    server that restarts from its disk starts at the snapshot's index; what
    [applyLog] then sends it, across any interleaving with RPCs, timers,
    snapshots it takes and snapshots it receives, never makes it see a
    command out of order or twice, nor skip one that no snapshot covers. *)
Theorem apply_stream_in_order rf rf0 rf1 ms :
  wf rf → durable rf → disk_ok rf →
  Make (peers rf) (me rf) (persister rf) = Ret rf0 → server_run rf0 rf1 ms →
  ∃ s, consume (lastIncludedIndex rf) ms = Some s ∧ lastApplied rf1 ≤ s.
Proof.
  intros Hwf Hdur Hd Hmake Hrun.
  destruct (Make_recovers rf Hwf Hdur Hd) as (t & v & _ & _ & Hret & Hwf0 & _).
  rewrite Hmake in Hret. injection Hret as ->.
  apply server_run_stream in Hrun as (_ & s & Hs & [Hle _]); [by exists s|done|].
  split; simpl; [done|by rewrite Z.max_id].
Qed.

(** one turn of [applyLog] of a running server delivers everything
    that is ready: afterwards the applied index has reached the committed
    one and no snapshot is pending, and every command it sent is the
    command the log holds at that index. *)
Theorem applyLog_delivers rf :
  wf rf → commit_in_range rf → dead rf = false →
  ∃ rf' ms, applyLog rf = Ret (rf', Some ms) ∧ wf rf' ∧ committedIndex rf' = committedIndex rf ∧
    committedIndex rf ≤ lastApplied rf' ∧ applySnappending rf' = false ∧
    (∀ m, m ∈ ms → CommandValid m = true →
       lastApplied rf < CommandIndex m ≤ committedIndex rf ∧
       msg_Command m = entry_at rf (CommandIndex m) ≫= Command) ∧
    (applySnappending rf = true → ∃ t, mkApplyMsg false None 0 true (snapshot rf) t (lastIncludedIndex rf) ∈ ms).
Proof.
  intros Hwf Hr Hd. pose proof (applyLog_spec rf Hwf Hr Hd) as Hspec. cbv zeta in Hspec.
  destruct (_ && _) eqn:Hb; [|destruct Hspec as (t & Hspec)]; rewrite Hspec.
  - b2p. eexists _, _. split_and!; [done|solve_wf|done|simpl; lia|done| |congruence].
    by intros m ?%not_elem_of_nil.
  - eexists _, _. split_and!; [done|solve_wf|done| |done| |].
    + simpl. case_match; zlia.
    + intros m [Hm|Hm]%elem_of_app Hcv.
      { destruct (applySnappending rf); [|by apply not_elem_of_nil in Hm].
        apply list_elem_of_singleton in Hm. by subst. }
      destruct (lastApplied rf <? committedIndex rf) eqn:?; [|by apply not_elem_of_nil in Hm].
      apply command_msgs_elem in Hm as (_ & ? & ?). split; [lia|done].
    + intros Hp. exists t. rewrite Hp. apply elem_of_app. left. by left.
Qed.
End delivery.

(** ** Behaviours that deviate from the protocol *)
Section deviations.
Context {C : Type} `{GobLaws Z} `{GobLaws (list (LogEntry C))}.
Implicit Types (rf : Raft C).

(** The leader on an acknowledgement of the entries it sent last. *)
Lemma leader_counts_ack leader args (server : Z) :
  wf leader → CurrentTerm leader = ae_Term args → 0 ≤ server < Z.of_nat (peers leader) →
  ae_Entries args ≠ [] → nextIndex leader !! Z.to_nat server = Some (ae_PrevLogIndex args + 1) →
  ∃ leader', handleApplyEntriesReply leader server args (mkApplyEntriesReply (ae_Term args) true 0 0 0)
      = Ret leader' ∧
    matchIndex leader' !! Z.to_nat server = Some (ae_PrevLogIndex args + zlen (ae_Entries args)).
Proof.
  intros Hwf HT Hs HE Hnext. unfold handleApplyEntriesReply. simpl. rewrite HT.
  destruct (ae_Term args <? ae_Term args) eqn:?; [zlia|]. destruct (_ >? 0) eqn:?.
  2:{ destruct (ae_Entries args); [done|]. rewrite length_cons in *. zlia. }
  rewrite (proj2 (go_index_Ret _ _ _) (conj (proj1 Hs) Hnext)), bind_Ret, Z.eqb_refl.
  rewrite (go_set_in_range (matchIndex leader)), bind_Ret by (rewrite (wf_match _ Hwf); lia). simpl nextIndex.
  rewrite go_set_in_range, bind_Ret by (rewrite (wf_next _ Hwf); lia).
  set (leader1 := set_nextIndex _ _).
  assert (wf leader1) as Hwf1 by (subst leader1; solve_wf).
  destruct (updateCommittedIndex_cases leader1 Hwf1) as [[-> _]|(low & res & _ & _ & _ & _ & ->)];
    eexists; (split; [done|]); subst leader1; try case_match; simpl;
    rewrite list_lookup_insert_eq by (rewrite (wf_match _ Hwf); lia); f_equal; lia.
Qed.

(** C30: a request whose previous index lies inside the server's snapshot
    is acknowledged as a success although none of its entries is stored;
    the leader that reads the reply raises [matchIndex] for the server to
    the last entry it sent.  (The commit rule then counts this server.) *)
Theorem ApplyEntries_false_ack rf args leader (server : Z) :
  wf rf → CurrentTerm rf ≤ ae_Term args → ae_PrevLogIndex args < lastIncludedIndex rf →
  wf leader → CurrentTerm leader = ae_Term args → 0 ≤ server < Z.of_nat (peers leader) →
  ae_Entries args ≠ [] →
  nextIndex leader !! Z.to_nat server = Some (ae_PrevLogIndex args + 1) →
  ∃ rf' reply leader',
    ApplyEntries rf args = Ret (rf', reply) ∧ Logs rf' = Logs rf ∧
    handleApplyEntriesReply leader server args reply = Ret leader' ∧
    matchIndex leader' !! Z.to_nat server = Some (ae_PrevLogIndex args + zlen (ae_Entries args)).
Proof.
  intros Hwf Hle Hprev Hwfl HT Hs HE Hnext.
  destruct (leader_counts_ack leader args server Hwfl HT Hs HE Hnext) as (leader' & ? & ?).
  eexists _, _, leader'. split_and!; [by apply ApplyEntries_behind| |done|done].
  simpl. by destruct (adoptTerm_core (ae_Term args) rf) as (-> & _).
Qed.

Definition idle (net : Net C) : Prop :=
  calls net = ∅ ∧ ∀ i nd, nodes net !! i = Some nd → identity (raft nd) ≠ LEADER.

Lemma single_otherPeers i rf : node_ok 1 i rf → otherPeers rf = [].
Proof.
  intros [Hpe Hme [Hr _ _ _ _ _ _ _ _ _] _ _ _ _]. apply elem_of_nil_inv.
  intros j [? ?]%otherPeers_range. lia.
Qed.

Lemma single_idle net net' : net_inv 1 net → idle net → net_step net net' → idle net'.
Proof.
  intros Hinv [HC Hl] Hstep. destruct Hstep; rewrite ?HC, ?lookup_empty in *; try done.
  - pose proof (ni_nodes _ _ Hinv i nd H3) as Hok.
    destruct (local_wf _ _ _ _ (no_wf _ _ _ Hok) H5 H4) as [_ Hms].
    assert (ms = []) as ->.
    { apply elem_of_nil_inv. intros [j m] Hjm. destruct (Hms j m Hjm) as [Hj _].
      rewrite (single_otherPeers _ _ Hok) in Hj. by apply not_elem_of_nil in Hj. }
    split; [done|]. intros j nd1 [(<- & <- & _)|[_ Hj]]%list_lookup_insert_Some; [|by eapply Hl]. simpl.
    destruct (local_quiet _ _ _ _ H4) as [[Hq _]|(_ & -> & _)]; [|done].
    intros [? _]%(q_leader _ _ Hq). by eapply Hl.
  - split; [|done]. simpl. by rewrite HC, delete_empty.
  - split; [done|]. intros j nd1 [(<- & <- & _)|[_ Hj]]%list_lookup_insert_Some; [|by eapply Hl]. simpl.
    destruct (node_ok_restart _ _ _ _ (ni_nodes _ _ Hinv i nd H3) H4) as (_ & _ & _ & ->). done.
Qed.

(** in a cluster of one server the server never becomes leader: a
    majority is only looked for when a vote arrives, and nobody is asked. *)
Theorem single_server_never_leads net i nd :
  reachable (C := C) 1 net → nodes net !! i = Some nd → identity (raft nd) ≠ LEADER.
Proof.
  intros (net0 & Hinit & Hsteps) Hnd.
  assert (net_inv 1 net0 ∧ idle net0) as [Hinv Hidle].
  { split; [by apply net_inv_init|]. destruct Hinit as (HC & _ & Hlen & Hn). split; [done|].
    intros j nd1 Hj. destruct (Hn j nd1 Hj) as [_ Hm]. pose proof (lookup_lt_Some _ _ _ Hj).
    destruct (Make_fresh (C := C) 1 (Z.of_nat j)) as (rf & Hrf & _ & _ & _ & _ & Heq); [lia|].
    rewrite Hm in Hrf. injection Hrf as ->. by rewrite Heq. }
  clear Hinit. induction Hsteps as [|net1 net2 net3 Hstep _ IH]; [by eapply Hidle|].
  apply IH; eauto using net_inv_step, single_idle.
Qed.
End deviations.

(** ** Concrete instances *)
Section instances.
Lemma node1_ok (i : nat) : (i < 3)%nat → node_ok 3 i (raft (node1 i)).
Proof.
  intros. apply (ni_nodes _ _ (reachable_inv _ _ cluster1_reachable)). by apply node1_lookup.
Qed.

Definition snap1 : list byte := gob_enc [] 1.

Lemma snap1_ok : snap_ok 1 snap1.
Proof.
  right. split; [apply gob_enc_ne_nil|]. eexists. exact (gob_dec_enc_self (A := Z) [] 1).
Qed.

(** What server 0 of [cluster1] sends to server 2. *)
Definition args1 : ApplyEntriesArgs nat := mkApplyEntriesArgs 1 0 0 0 [mkEntry (Some 7%nat) 1] 1.

Lemma args1_valid : valid_ae args1.
Proof.
  split.
  - intros i j x y Hij Hi Hj. destruct i as [|[|i]], j as [|[|j]]; simplify_eq/=; lia.
  - intros x ->%list_elem_of_singleton. done.
Qed.

(** A fresh server and the same server after [args1]. *)
Definition fresh2 : Raft nat := raft (boot 3 2).
Definition caught2 : Raft nat :=
  match step (EvApplyEntries args1) fresh2 with Ret rf => rf | _ => fresh2 end.

Lemma fresh2_make : Make 3 2 MakePersister = Ret fresh2.
Proof. by destruct (Make_fresh (C := nat) 3 2) as (? & -> & _ & _ & _ & _ & ->). Qed.

Lemma fresh2_ok : wf fresh2 ∧ durable fresh2 ∧ disk_ok fresh2.
Proof.
  destruct (Make_fresh (C := nat) 3 2) as (rf & Hrf & ? & ? & ? & _); [lia|].
  rewrite fresh2_make in Hrf. injection Hrf as ->. done.
Qed.

Lemma caught2_step : step (EvApplyEntries args1) fresh2 = Ret caught2.
Proof. vm_compute. reflexivity. Qed.

Lemma caught2_run : valid_run fresh2 caught2.
Proof.
  apply rtc_once. exists (EvApplyEntries args1). split; [apply args1_valid|apply caught2_step].
Qed.

Lemma caught2_wf : wf caught2.
Proof.
  destruct fresh2_ok as (? & _ & ?). by destruct (valid_run_keeps _ _ caught2_run) as (? & _).
Qed.

Lemma caught2_range : commit_in_range caught2.
Proof. vm_compute. congruence. Qed.

Lemma election_safety_witness :
  identity (raft (node1 0)) = LEADER ∧ 0%nat = 0%nat.
Proof.
  split; [vm_compute; reflexivity|].
  apply (election_safety 3 cluster1 cluster1 0 0 (node1 0) (node1 0));
    [apply cluster1_reachable|apply rtc_refl|apply node1_lookup; lia|apply node1_lookup; lia|vm_compute; reflexivity..].
Defined.

(** What the leader delivers, and later server 1. *)
Definition delivered (nd : Node nat) : list (ApplyMsg nat) :=
  match applyLog (raft nd) with Ret (_, Some ms) => ms | _ => [] end.

Definition message7 : ApplyMsg nat := mkApplyMsg true (Some 7%nat) 1 false [] 0 0.

Lemma delivers7 : delivered (node1 0) = [message7] ∧ delivered (node2 1) = [message7].
Proof. vm_compute. by split. Qed.

Lemma applyLog_delivered (nd : Node nat) :
  delivered nd ≠ [] → ∃ rf', applyLog (raft nd) = Ret (rf', Some (delivered nd)).
Proof. unfold delivered. destruct (applyLog (raft nd)) as [[rf' [ms|]]| |]; [by eexists|done..]. Qed.

Lemma state_machine_safety_witness :
  message7 ∈ delivered (node1 0) ∧ message7 ∈ delivered (node2 1) ∧ msg_Command message7 = msg_Command message7.
Proof.
  destruct delivers7 as [E1 E2].
  destruct (applyLog_delivered (node1 0)) as [r1 A1]; [by rewrite E1|].
  destruct (applyLog_delivered (node2 1)) as [r2 A2]; [by rewrite E2|].
  rewrite E1 in A1 |- *. rewrite E2 in A2 |- *. split_and!; [by left|by left|].
  eapply (state_machine_safety 3 cluster1 cluster2 0 1 (node1 0) (node2 1) r1 r2 [message7] [message7] message7 message7);
    [apply cluster1_plain|apply cluster2_steps|apply node1_lookup; lia|apply node2_lookup; lia|exact A1|exact A2
    |by left|by left|reflexivity..].
Defined.

(** The command committed in term 1 is in the log of the leader of term 2. *)
Lemma leader_completeness_witness :
  CurrentTerm (raft (node3 1)) = 2 ∧ entry_at (raft (node3 1)) 1 = Some (mkEntry (Some 7%nat) 1).
Proof.
  split; [vm_compute; reflexivity|].
  apply (leader_completeness 3 cluster1 cluster3 0 1 (node1 0) (node3 1));
    [apply cluster1_plain|etrans; [apply cluster2_steps|apply cluster3_steps]|apply node1_lookup; lia
    |apply node3_lookup; lia|vm_compute; congruence..].
Defined.

Lemma plain_apply_returns_witness : ∃ rf' r, applyLog (raft (node1 0)) = Ret (rf', r) ∧ wf rf'.
Proof.
  destruct (plain_apply_returns 3 cluster1 0 (node1 0)) as (rf' & r & ? & ? & _);
    [apply cluster1_plain|apply node1_lookup; lia|]. exists rf', r. split; assumption.
Defined.

Lemma log_matching_witness :
  entry_at (raft (node1 0)) 1 = Some (mkEntry (Some 7%nat) 1) ∧ Term (C := nat) zeroEntry = Term (C := nat) zeroEntry.
Proof.
  split; [vm_compute; reflexivity|].
  refine (proj1 (log_matching 3 cluster1 cluster1 0 1 (node1 0) (node1 1) 1 (mkEntry (Some 7%nat) 1)
    (mkEntry (Some 7%nat) 1) cluster1_log (rtc_refl _ _) _ _ _ _ eq_refl 0 zeroEntry zeroEntry _ _ _));
    [apply node1_lookup; lia|apply node1_lookup; lia|vm_compute; reflexivity|vm_compute; reflexivity|lia
    |vm_compute; reflexivity..].
Defined.

Lemma cluster_no_panic_witness :
  returns (local LHeartbeatTimeout (raft (node1 0))).
Proof.
  destruct (cluster_no_panic 3 cluster1 cluster1_reachable) as [_ Hl].
  destruct (Hl 0%nat (node1 0)) as [Hev _]; [apply node1_lookup; lia|]. apply Hev. exact I.
Defined.

Lemma crash_recovery_witness :
  ∃ rf', Make 3 2 (persister caught2) = Ret rf' ∧ Logs rf' = Logs caught2.
Proof.
  destruct (crash_recovery 3 2 fresh2 caught2) as (rf' & ? & _ & ? & _);
    [lia|apply fresh2_make|apply caught2_run|exists rf'; split_and!; assumption].
Defined.

Lemma run_vote_stable_witness : CurrentTerm fresh2 ≤ CurrentTerm caught2.
Proof. apply (run_vote_stable fresh2 caught2); [apply fresh2_ok|apply fresh2_ok|apply caught2_run]. Defined.

Lemma run_stays_live_witness : electionTimer caught2 = true.
Proof.
  apply (run_stays_live 3 2 fresh2 caught2); [lia|apply fresh2_make|apply caught2_run|].
  vm_compute. discriminate.
Defined.

Lemma server_keeps_wf_witness : ∃ rf', step EvElectionTimeout (raft (node1 1)) = Ret rf' ∧ wf rf'.
Proof. apply (server_keeps_wf EvElectionTimeout); [apply node1_ok; lia|exact I]. Defined.

Lemma persist_roundtrip_witness :
  CurrentTerm (readPersist (ReadRaftState (persister (persist caught2))) fresh2) = CurrentTerm caught2.
Proof. rewrite (persist_roundtrip caught2 fresh2). reflexivity. Defined.

Lemma findFirstIndex_correct_witness :
  ∃ r, findFirstIndex (raft (node1 0)) 1 = Ret r ∧ 0 ≤ r ≤ zlen (Logs (raft (node1 0))).
Proof.
  destruct (findFirstIndex_correct (raft (node1 0)) 1) as (r & ? & ? & _); [apply node1_ok; lia|].
  exists r; split; assumption.
Defined.

Lemma replicate_loops_merge_witness :
  (L' ← truncateConflict [zeroEntry; mkEntry (Some 1%nat) 1; mkEntry (Some 2%nat) 1] 1
          [mkEntry (Some 5%nat) 2];
   copyEntries L' 1 [mkEntry (Some 5%nat) 2]) = Ret [zeroEntry; mkEntry (Some 5%nat) 2].
Proof.
  apply (replicate_loops_merge [zeroEntry; mkEntry (Some 1%nat) 1; mkEntry (Some 2%nat) 1] 1
           [mkEntry (Some 5%nat) 2]). simpl. lia.
Defined.

Lemma fresh2_prev : prev_matches fresh2 args1.
Proof. by exists zeroEntry. Qed.

Lemma ApplyEntries_replicates_witness :
  ∃ rf' reply, ApplyEntries fresh2 args1 = Ret (rf', reply) ∧
    entry_at rf' 1 = Some (mkEntry (Some 7%nat) 1).
Proof.
  destruct (ApplyEntries_replicates fresh2 args1) as (rf' & reply & ? & _ & _ & He & _);
    [apply fresh2_ok|apply args1_valid|vm_compute; congruence|apply fresh2_prev|].
  exists rf', reply. split; [assumption|]. apply (He 0%nat). reflexivity.
Defined.

Lemma ApplyEntries_refuses_witness :
  ∃ rf' reply, ApplyEntries fresh2 (mkApplyEntriesArgs 1 0 5 1 [] 0) = Ret (rf', reply) ∧
    aer_Success reply = false ∧ Logs rf' = Logs fresh2.
Proof.
  destruct (ApplyEntries_refuses fresh2 (mkApplyEntriesArgs 1 0 5 1 [] 0))
    as (rf' & reply & ? & ? & _ & ? & _);
    [apply fresh2_ok|vm_compute; congruence|vm_compute; congruence|by intros (e & ? & _)|].
  exists rf', reply; split_and!; assumption.
Defined.

Lemma Snapshot_trims_witness :
  ∃ rf', Snapshot 1 snap1 (raft (node1 0)) = Ret rf' ∧ lastIncludedIndex rf' = 1.
Proof.
  destruct (Snapshot_trims (raft (node1 0)) 1 snap1) as (rf' & ? & _ & ? & _);
    [apply node1_ok; lia|apply snap1_ok|vm_compute; reflexivity|vm_compute; congruence|exists rf'; split_and!; assumption].
Defined.

Lemma InstallSnapshot_installs_witness :
  ∃ rf' reply, InstallSnapshot fresh2 (mkInstallSnapshotArgs 1 0 1 1 snap1) = Ret (rf', reply) ∧
    lastIncludedIndex rf' = 1.
Proof.
  destruct (InstallSnapshot_installs fresh2 (mkInstallSnapshotArgs 1 0 1 1 snap1))
    as (rf' & reply & ? & _ & _ & _ & _ & ? & _);
    [apply fresh2_ok|apply fresh2_ok|split; [done|apply snap1_ok]|vm_compute; congruence
    |vm_compute; reflexivity|exists rf', reply; split_and!; assumption].
Defined.

Lemma updateCommittedIndex_rule_witness :
  ∃ rf', updateCommittedIndex (raft (node1 0)) = Ret rf' ∧
    committedIndex (raft (node1 0)) ≤ committedIndex rf'.
Proof.
  destruct (updateCommittedIndex_rule (raft (node1 0))) as (rf' & ? & ? & _);
    [apply node1_ok; lia|exists rf'; split_and!; assumption].
Defined.

(** The service of the restarted server receives the command. *)
Lemma apply_stream_in_order_witness :
  ∃ rf' ms s, applyLog caught2 = Ret (rf', Some ms) ∧ length ms = 1%nat ∧ consume 0 ms = Some s.
Proof.
  destruct (applyLog caught2) as [[rf' [ms|]]| |] eqn:Ha; [|by vm_compute in Ha..].
  destruct (apply_stream_in_order fresh2 fresh2 rf' ms) as (s & Hs & _);
    [apply fresh2_ok..|apply fresh2_make| |].
  - apply (run_apply fresh2 caught2 rf' [] ms); [|apply caught2_range|done].
    apply (run_event fresh2 fresh2 caught2 [] (EvApplyEntries args1)); [constructor|exact I| |].
    + apply args1_valid.
    + apply caught2_step.
  - exists rf', ms, s. split_and!; [done| |exact Hs]. vm_compute in Ha. by simplify_eq.
Defined.

Lemma applyLog_delivers_witness :
  ∃ rf' ms, applyLog caught2 = Ret (rf', Some ms) ∧ committedIndex caught2 ≤ lastApplied rf'.
Proof.
  destruct (applyLog_delivers caught2) as (rf' & ms & ? & _ & _ & ? & _);
    [apply caught2_wf|apply caught2_range|vm_compute; reflexivity|exists rf', ms; split_and!; assumption].
Defined.

(** Server 2 holds the snapshot up to index 1 when [args1] arrives. *)
Definition snapped2 : Raft nat :=
  match step (EvInstallSnapshot (mkInstallSnapshotArgs 1 0 1 1 snap1)) fresh2 with
  | Ret rf => rf | _ => fresh2 end.

Lemma snapped2_wf : wf snapped2.
Proof.
  destruct (step_safe (EvInstallSnapshot (mkInstallSnapshotArgs 1 0 1 1 snap1)) fresh2)
    as (rf' & Hret & Hwf); [apply fresh2_ok|split; [done|apply snap1_ok]|].
  unfold snapped2. by rewrite Hret.
Qed.

Lemma ApplyEntries_false_ack_witness :
  ∃ rf' reply leader', ApplyEntries snapped2 args1 = Ret (rf', reply) ∧
    handleApplyEntriesReply (raft (node1 0)) 2 args1 reply = Ret leader' ∧
    matchIndex leader' !! 2%nat = Some 1.
Proof.
  destruct (ApplyEntries_false_ack snapped2 args1 (raft (node1 0)) 2)
    as (rf' & reply & leader' & ? & _ & ? & ?);
    [apply snapped2_wf|vm_compute; congruence|vm_compute; reflexivity|apply node1_ok; lia
    |vm_compute; reflexivity|vm_compute; split; congruence|done|vm_compute; reflexivity|].
  exists rf', reply, leader'; split_and!; assumption.
Defined.

Definition alone : Net nat :=
  default (mkNet [boot 1 0] ∅ 0 []) (acts [ALocal 0 LElectionTimeout] (mkNet [boot 1 0] ∅ 0 [])).

Lemma alone_reachable : reachable 1 alone.
Proof.
  exists (mkNet [boot 1 0] ∅ 0 []). split.
  - split_and!; [done..|]. intros [|i] nd Hi; [|done]. injection Hi as <-. split; [done|].
    by destruct (Make_fresh (C := nat) 1 (Z.of_nat 0)) as (? & -> & _ & _ & _ & _ & ->).
  - apply log_steps_net. eapply rtc_subrel; [apply plain_log_step|].
    apply (acts_sound [ALocal 0 LElectionTimeout]). vm_compute. reflexivity.
Qed.

Lemma single_server_never_leads_witness :
  ∃ nd, nodes alone !! 0%nat = Some nd ∧ identity (raft nd) ≠ LEADER.
Proof.
  destruct (nodes alone !! 0%nat) as [nd|] eqn:Hnd; [|by vm_compute in Hnd].
  exists nd. split; [done|]. apply (single_server_never_leads alone 0 nd alone_reachable Hnd).
Defined.
End instances.
