(* ===== verification/RaftConfig.v ===== *)
(** * The Raft tester

    src/src/raft/config.go: the harness that starts, crashes, connects and
    disconnects Raft servers on the simulated network of Labrpc.v, and checks
    what they do: that applied commands agree and come in order, that a term
    has one leader, that servers agree on terms.

    - Names of ends are strings, names of servers are their numbers.
    - [cfg.saved[i]] is the persister the running server [i] writes to; the
      model of Raft keeps the persister in the server, so what [saved] holds
      for a running server is read from there ([savedNow]).
    - [log.Fatalf] and [t.Fatal] end the program: [Panic Fatal].
    - [randstring] is an argument, and so is [%v] of a command ([fmtC]).
    - A reader goroutine is one definition per message.  Loops that sample the
      servers get the samples as arguments, since time passes between them. *)

From Stdlib Require Import Strings.Byte.
From stdpp Require Import prelude gmap strings list.
From S2P Require Import Prelude Gob Strconv Labrpc Raft.
Local Open Scope Z_scope.

Record config (C : Type) := mkConfig {
  cfg_net : Network (string + Z);
  n : Z;
  rafts : list (option (Raft C));
  applyErr : list string;
  connected : list bool;
  saved : list (option Persister);
  endnames : list (option (list string));
  logs : list (gmap Z (option C));
  lastAppl : list Z;
  maxIndex : Z;
}.
Arguments mkConfig {C} _ _ _ _ _ _ _ _ _ _.
Arguments cfg_net {C} _.
Arguments n {C} _.
Arguments rafts {C} _.
Arguments applyErr {C} _.
Arguments connected {C} _.
Arguments saved {C} _.
Arguments endnames {C} _.
Arguments logs {C} _.
Arguments lastAppl {C} _.
Arguments maxIndex {C} _.

Section config.
Context {C : Type} `{EqDecision C} `{Gob Z} `{Gob (list (LogEntry C))} `{Gob (list (option C))}.
Context (fmtC : option C → string).

Abbreviation config := (config C).
Implicit Types cfg : config.

Definition set_cnet (x : Network (string + Z)) cfg : config :=
  mkConfig x (n cfg) (rafts cfg) (applyErr cfg) (connected cfg) (saved cfg) (endnames cfg) (logs cfg)
    (lastAppl cfg) (maxIndex cfg).
Definition set_rafts (x : list (option (Raft C))) cfg : config :=
  mkConfig (cfg_net cfg) (n cfg) x (applyErr cfg) (connected cfg) (saved cfg) (endnames cfg) (logs cfg)
    (lastAppl cfg) (maxIndex cfg).
Definition set_connected (x : list bool) cfg : config :=
  mkConfig (cfg_net cfg) (n cfg) (rafts cfg) (applyErr cfg) x (saved cfg) (endnames cfg) (logs cfg)
    (lastAppl cfg) (maxIndex cfg).
Definition set_saved (x : list (option Persister)) cfg : config :=
  mkConfig (cfg_net cfg) (n cfg) (rafts cfg) (applyErr cfg) (connected cfg) x (endnames cfg) (logs cfg)
    (lastAppl cfg) (maxIndex cfg).
Definition set_endnames (x : list (option (list string))) cfg : config :=
  mkConfig (cfg_net cfg) (n cfg) (rafts cfg) (applyErr cfg) (connected cfg) (saved cfg) x (logs cfg)
    (lastAppl cfg) (maxIndex cfg).
Definition set_applied (ls : list (gmap Z (option C))) (la : list Z) (mi : Z) cfg : config :=
  mkConfig (cfg_net cfg) (n cfg) (rafts cfg) (applyErr cfg) (connected cfg) (saved cfg) (endnames cfg) ls
    la mi.

(** ** Checking what is applied *)

(** The loop over the servers: the message of the last disagreement. *)
Fixpoint disagreement (i : Z) (m : ApplyMsg C) (j : Z) (ls : list (gmap Z (option C))) (err : string) : string :=
  match ls with
  | [] => err
  | l :: ls =>
      let err :=
        match l !! CommandIndex m with
        | Some old =>
            if decide (old = msg_Command m) then err
            else "commit index=" +:+ FormatInt (CommandIndex m) +:+ " server=" +:+ FormatInt i +:+ " " +:+
                 fmtC (msg_Command m) +:+ " != server=" +:+ FormatInt j +:+ " " +:+ fmtC old
        | None => err
        end in
      disagreement i m (j + 1) ls err
  end.

Definition checkLogs (i : Z) (m : ApplyMsg C) cfg : outcome (string * bool * config) :=
  let err_msg := disagreement i m 0 (logs cfg) "" in
  log ← go_index (logs cfg) i;
  let prevok := bool_decide (is_Some (log !! (CommandIndex m - 1))) in
  ls ← go_set (logs cfg) i (<[CommandIndex m := msg_Command m]> log);
  let mi := if CommandIndex m >? maxIndex cfg then CommandIndex m else maxIndex cfg in
  Ret (err_msg, prevok, set_applied ls (lastAppl cfg) mi cfg).

Definition outOfOrder (i index : Z) : string :=
  "server " +:+ FormatInt i +:+ " apply out of order " +:+ FormatInt index.

(** One message of [applier]. *)
Definition applier (i : Z) (m : ApplyMsg C) cfg : outcome config :=
  if negb (CommandValid m) then Ret cfg
  else
    '(err_msg, prevok, cfg) ← checkLogs i m cfg;
    let err_msg := if (CommandIndex m >? 1) && negb prevok then outOfOrder i (CommandIndex m) else err_msg in
    if decide (err_msg = "") then Ret cfg else Panic Fatal.

(** [xlog] as a map from its indices. *)
Fixpoint indexed (j : Z) (xlog : list (option C)) : gmap Z (option C) :=
  match xlog with
  | [] => ∅
  | x :: xlog => <[j := x]> (indexed (j + 1) xlog)
  end.

Definition ingestSnap (i : Z) (snapshot : list byte) (index : Z) cfg : outcome (string * config) :=
  match gob_dec (A := Z) snapshot 0%nat with
  | None => Panic Fatal
  | Some (lastIncludedIndex, pos) =>
      match gob_dec (A := list (option C)) snapshot pos with
      | None => Panic Fatal
      | Some (xlog, _) =>
          if negb (index =? -1) && negb (index =? lastIncludedIndex) then
            Ret ("server " +:+ FormatInt i +:+ " snapshot doesn't match m.SnapshotIndex", cfg)
          else
            ls ← go_set (logs cfg) i (indexed 0 xlog);
            la ← go_set (lastAppl cfg) i lastIncludedIndex;
            Ret ("", set_applied ls la (maxIndex cfg) cfg)
      end
  end.

Definition SnapShotInterval : Z := 10.

(** The commands 0 .. [index] of [log]. *)
Definition xlogOf (log : gmap Z (option C)) (index : Z) : list (option C) :=
  (λ j, default None (log !! j)) <$> seqZ 0 (index + 1).

Definition makeSnap (log : gmap Z (option C)) (index : Z) : list byte :=
  gob_enc (gob_enc [] index) (xlogOf log index).

(** The call [rf.Snapshot] of [applierSnap]. *)
Definition takeSnap (i index : Z) cfg : outcome config :=
  log ← go_index (logs cfg) i;
  r ← go_index (rafts cfg) i;
  match r with
  | None => Ret cfg
  | Some rf =>
      rf ← Snapshot index (makeSnap log index) rf;
      rs ← go_set (rafts cfg) i (Some rf);
      Ret (set_rafts rs cfg)
  end.

(** One message of [applierSnap]. *)
Definition applierSnap (i : Z) (m : ApplyMsg C) cfg : outcome config :=
  if SnapshotValid m then
    '(err_msg, cfg) ← ingestSnap i (msg_Snapshot m) (SnapshotIndex m) cfg;
    if decide (err_msg = "") then Ret cfg else Panic Fatal
  else if CommandValid m then
    la ← go_index (lastAppl cfg) i;
    '(err_msg, cfg) ←
      (if negb (CommandIndex m =? la + 1) then
         Ret ("server " +:+ FormatInt i +:+ " apply out of order, expected index " +:+ FormatInt (la + 1) +:+
              ", got " +:+ FormatInt (CommandIndex m), cfg)
       else
         '(err_msg, prevok, cfg) ← checkLogs i m cfg;
         Ret (if (CommandIndex m >? 1) && negb prevok then outOfOrder i (CommandIndex m) else err_msg, cfg));
    la ← go_set (lastAppl cfg) i (CommandIndex m);
    let cfg := set_applied (logs cfg) la (maxIndex cfg) cfg in
    cfg ← (if Z.rem (CommandIndex m + 1) SnapShotInterval =? 0 then takeSnap i (CommandIndex m) cfg else Ret cfg);
    if decide (err_msg = "") then Ret cfg else Panic Fatal
  else Ret cfg.

(** ** Connections *)

(** [cfg.endnames[i][j]] *)
Definition endname_at (i j : Z) cfg : outcome string :=
  row ← go_index (endnames cfg) i;
  match row with
  | None => Panic IndexOutOfRange
  | Some row => go_index row j
  end.

Definition enableEnd (i j : Z) (yes : bool) cfg : outcome config :=
  e ← endname_at i j cfg;
  Ret (set_cnet (Enable (inl e) yes (cfg_net cfg)) cfg).

Definition connect (i : Z) cfg : outcome config :=
  cs ← go_set (connected cfg) i true;
  let cfg := set_connected cs cfg in
  cfg ← go_for (Z.to_nat (n cfg)) 0 (λ j cfg,
    c ← go_index (connected cfg) j;
    if c : bool then enableEnd i j true cfg else Ret cfg) cfg;
  go_for (Z.to_nat (n cfg)) 0 (λ j cfg,
    c ← go_index (connected cfg) j;
    if c : bool then enableEnd j i true cfg else Ret cfg) cfg.

Definition has_ends (i : Z) cfg : outcome bool :=
  row ← go_index (endnames cfg) i; Ret (bool_decide (is_Some row)).

Definition disconnect (i : Z) cfg : outcome config :=
  cs ← go_set (connected cfg) i false;
  let cfg := set_connected cs cfg in
  cfg ← go_for (Z.to_nat (n cfg)) 0 (λ j cfg,
    b ← has_ends i cfg;
    if b : bool then enableEnd i j false cfg else Ret cfg) cfg;
  go_for (Z.to_nat (n cfg)) 0 (λ j cfg,
    b ← has_ends j cfg;
    if b : bool then enableEnd j i false cfg else Ret cfg) cfg.

(** ** Starting and crashing *)

(** What the persister [cfg.saved[i]] holds now. *)
Definition savedNow (i : Z) cfg : outcome (option Persister) :=
  r ← go_index (rafts cfg) i;
  match r with
  | Some rf => Ret (Some (persister rf))
  | None => go_index (saved cfg) i
  end.

Definition crash1 (i : Z) cfg : outcome config :=
  cfg ← disconnect i cfg;
  let cfg := set_cnet (DeleteServer (inr i) (cfg_net cfg)) cfg in
  ps ← savedNow i cfg;
  rs ← go_set (rafts cfg) i None;
  let cfg := set_rafts rs cfg in
  let ps := Copy <$> ps in
  let ps := (λ ps, Save (mkPersister [] []) (ReadRaftState ps) (ReadSnapshot ps)) <$> ps in
  sv ← go_set (saved cfg) i ps;
  Ret (set_saved sv cfg).

(** Fresh client ends with the given names. *)
Definition makeEnds (i : Z) (names : list string) cfg : outcome config :=
  es ← go_set (endnames cfg) i (Some names);
  let cfg := set_endnames es cfg in
  go_for (Z.to_nat (n cfg)) 0 (λ j cfg,
    e ← endname_at i j cfg;
    rn ← MakeEnd (inl e) (cfg_net cfg);
    Ret (set_cnet (Connect (inl e) (inr j) rn) cfg)) cfg.

(** [names] are the [cfg.n] random names, [srv] is the new server object. *)
Definition start1 (i : Z) (names : list string) (srv : nat) cfg : outcome config :=
  cfg ← crash1 i cfg;
  cfg ← makeEnds i names cfg;
  la ← go_set (lastAppl cfg) i 0;
  let cfg := set_applied (logs cfg) la (maxIndex cfg) cfg in
  ps ← go_index (saved cfg) i;
  '(ps, cfg) ←
    match ps with
    | Some ps =>
        let ps := Copy ps in
        if zlen (ReadSnapshot ps) >? 0 then
          '(err, cfg) ← ingestSnap i (ReadSnapshot ps) (-1) cfg;
          if decide (err = "") then Ret (ps, cfg) else Panic Fatal
        else Ret (ps, cfg)
    | None => Ret (MakePersister, cfg)
    end;
  sv ← go_set (saved cfg) i (Some ps);
  let cfg := set_saved sv cfg in
  rf ← Make (Z.to_nat (n cfg)) i ps;
  rs ← go_set (rafts cfg) i (Some rf);
  let cfg := set_rafts rs cfg in
  Ret (set_cnet (AddServer (inr i) srv (cfg_net cfg)) cfg).

Definition setunreliable (unrel : bool) cfg : config := set_cnet (Reliable (negb unrel) (cfg_net cfg)) cfg.
Definition setlongreordering (longrel : bool) cfg : config := set_cnet (LongReordering longrel (cfg_net cfg)) cfg.

(** [names j] are the names of the ends of server [j]. *)
Definition make_config (k : nat) (unreliable : bool) (names : Z → list string) (srv : Z → nat) : outcome config :=
  let cfg := mkConfig MakeNetwork (Z.of_nat k) (replicate k None) (replicate k "") (replicate k false)
               (replicate k None) (replicate k None) (replicate k ∅) (replicate k 0) 0 in
  let cfg := setunreliable unreliable cfg in
  let cfg := set_cnet (LongDelays true (cfg_net cfg)) cfg in
  cfg ← go_for k 0 (λ i cfg,
    ls ← go_set (logs cfg) i ∅;
    start1 i (names i) (srv i) (set_applied ls (lastAppl cfg) (maxIndex cfg) cfg)) cfg;
  go_for k 0 connect cfg.

(** ** Leaders, terms and agreement *)

(** What [GetState] gave for the connected servers, in order. *)
Definition sample := list (option (Z * bool)).

Fixpoint leadersFrom (i : Z) (ss : sample) (leaders : gmap Z (list Z)) : gmap Z (list Z) :=
  match ss with
  | [] => leaders
  | Some (term, true) :: ss =>
      leadersFrom (i + 1) ss (<[term := default [] (leaders !! term) ++ [i]]> leaders)
  | _ :: ss => leadersFrom (i + 1) ss leaders
  end.

(** [range leaders], in any order. *)
Fixpoint lastTerm (ls : list (Z * list Z)) (last : Z) : outcome Z :=
  match ls with
  | [] => Ret last
  | (term, l) :: ls =>
      if zlen l >? 1 then Panic Fatal
      else lastTerm ls (if term >? last then term else last)
  end.

(** One iteration of [checkOneLeader]; [None]: no leader, try again. *)
Definition pollLeader (ss : sample) : outcome (option Z) :=
  let leaders := leadersFrom 0 ss ∅ in
  lastTermWithLeader ← lastTerm (map_to_list leaders) (-1);
  if bool_decide (leaders = ∅) then Ret None
  else l ← go_index (default [] (leaders !! lastTermWithLeader)) 0; Ret (Some l).

(** The samples of the ten iterations. *)
Fixpoint checkOneLeader (samples : list sample) : outcome Z :=
  match samples with
  | [] => Panic Fatal
  | ss :: samples =>
      r ← pollLeader ss;
      match r with Some l => Ret l | None => checkOneLeader samples end
  end.

Fixpoint checkTerms (ss : sample) (term : Z) : outcome Z :=
  match ss with
  | [] => Ret term
  | Some (xterm, _) :: ss =>
      if term =? -1 then checkTerms ss xterm
      else if negb (term =? xterm) then Panic Fatal
      else checkTerms ss term
  | None :: ss => checkTerms ss term
  end.

Fixpoint checkNoLeader (ss : sample) : outcome unit :=
  match ss with
  | [] => Ret tt
  | Some (_, true) :: _ => Panic Fatal
  | _ :: ss => checkNoLeader ss
  end.

Fixpoint countCommitted (index : Z) (errs : list string) (ls : list (gmap Z (option C))) (count : Z)
    (cmd : option C) : outcome (Z * option C) :=
  match errs, ls with
  | err :: errs, l :: ls =>
      if decide (err = "") then
        match l !! index with
        | Some cmd1 =>
            if (count >? 0) && negb (bool_decide (cmd = cmd1)) then Panic Fatal
            else countCommitted index errs ls (count + 1) cmd1
        | None => countCommitted index errs ls count cmd
        end
      else Panic Fatal
  | _, _ => Ret (count, cmd)
  end.

Definition nCommitted (index : Z) cfg : outcome (Z * option C) :=
  countCommitted index (applyErr cfg) (logs cfg) 0 None.

(** *** Waiting for agreement *)

(** The terms of the servers; [GetState] of a server that is not running
    fails. *)
Fixpoint movedOn (startTerm : Z) (rs : list (option (Raft C))) : outcome bool :=
  match rs with
  | [] => Ret false
  | None :: _ => Panic NilDereference
  | Some rf :: rs => if (GetState rf).1 >? startTerm then Ret true else movedOn startTerm rs
  end.

(** After the loop of [wait]. *)
Definition waitEnd (index want : Z) cfg : outcome (option (option C)) :=
  '(nd, cmd) ← nCommitted index cfg;
  if nd <? want then Panic Fatal else Ret (Some cmd).

(** [seen iters]: what the tester sees in an iteration, when it counts and when
    it looks at the terms; [last]: what it sees after the loop. *)
Fixpoint waitLoop (index want startTerm : Z) (k iters : nat) (seen : nat → config * config) (last : config)
    : outcome (option (option C)) :=
  match k with
  | O => waitEnd index want last
  | S k =>
      '(nd, _) ← nCommitted index (seen iters).1;
      if nd >=? want then waitEnd index want last
      else
        moved ← (if startTerm >? -1 then movedOn startTerm (rafts (seen iters).2) else Ret false);
        if (moved : bool) then Ret None else waitLoop index want startTerm k (S iters) seen last
  end.

(** [wait]: a command, or -1 ([None]) when a server has gone to a later
    term. *)
Definition wait (index want startTerm : Z) (seen : nat → config * config) (last : config)
    : outcome (option (option C)) :=
  waitLoop index want startTerm 30 0 seen last.

(** [one]: try all servers once, from the one after [starts]; the index if one
    of them is the leader. *)
Fixpoint tryStart (k : nat) (cmd : option C) (starts : Z) cfg : outcome (Z * option Z * config) :=
  match k with
  | O => Ret (starts, None, cfg)
  | S k =>
      let starts := Z.rem (starts + 1) (n cfg) in
      c ← go_index (connected cfg) starts;
      r ← (if c : bool then go_index (rafts cfg) starts else Ret None);
      match r with
      | None => tryStart k cmd starts cfg
      | Some rf =>
          '(rf, (index1, _, ok), _) ← Start cmd rf;
          rs ← go_set (rafts cfg) starts (Some rf);
          let cfg := set_rafts rs cfg in
          if ok : bool then Ret (starts, Some index1, cfg) else tryStart k cmd starts cfg
      end
  end.

(** Whether the command is committed at [index] in one of the samples the
    tester takes within two seconds. *)
Fixpoint agreed (index : Z) (cmd : option C) (expectedServers : Z) (samples : list config) : outcome bool :=
  match samples with
  | [] => Ret false
  | cfg :: samples =>
      '(nd, cmd1) ← nCommitted index cfg;
      if (nd >? 0) && (nd >=? expectedServers) && bool_decide (cmd1 = cmd) then Ret true
      else agreed index cmd expectedServers samples
  end.

(** The rounds of [one] until ten seconds are over or the test is [finished]:
    what the world makes of the configuration after the attempts, as the
    samples of the wait and the configuration of the next round. *)
Fixpoint oneLoop (cmd : option C) (expectedServers : Z) (retry finished : bool)
    (rounds : list (config → list config * config)) (starts : Z) cfg : outcome Z :=
  match rounds with
  | [] => if finished then Ret (-1) else Panic Fatal
  | world :: rounds =>
      '(starts, r, cfg) ← tryStart (Z.to_nat (n cfg)) cmd starts cfg;
      let '(samples, next) := world cfg in
      match r with
      | Some index =>
          b ← agreed index cmd expectedServers samples;
          if (b : bool) then Ret index
          else if retry then oneLoop cmd expectedServers retry finished rounds starts next
          else Panic Fatal
      | None => oneLoop cmd expectedServers retry finished rounds starts next
      end
  end.

Definition one (cmd : option C) (expectedServers : Z) (retry finished : bool)
    (rounds : list (config → list config * config)) cfg : outcome Z :=
  oneLoop cmd expectedServers retry finished rounds 0 cfg.

(** *** Statistics *)

(** The fields [t0], [rpcs0], [bytes0], [cmds0] and [maxIndex0]. *)
Record Stats := mkStats { t0 : Z; rpcs0 : Z; bytes0 : Z; cmds0 : Z; maxIndex0 : Z }.

(** [heap]: the server objects of the network. *)
Definition rpcCount {Obj X Y} (heap : gmap nat (Server Obj X Y)) (server : Z) cfg : outcome Z :=
  GetCount (cfg_net cfg) heap (inr server).
Definition rpcTotal cfg : Z := GetTotalCount (cfg_net cfg).
Definition bytesTotal cfg : Z := GetTotalBytes (cfg_net cfg).

(** [failed]: whether the test has failed; times are in nanoseconds. *)
Definition checkTimeout (failed : bool) (start now : Z) : outcome unit :=
  if negb failed && (now - start >? 120 * 1000000000) then Panic Fatal else Ret tt.

Definition cleanup (failed : bool) (start now : Z) cfg : outcome config :=
  let cfg := set_rafts (map (option_map Kill) (rafts cfg)) cfg in
  let cfg := set_cnet (Cleanup (cfg_net cfg)) cfg in
  _ ← checkTimeout failed start now; Ret cfg.

Definition begin (now : Z) cfg : Stats := mkStats now (rpcTotal cfg) (bytesTotal cfg) 0 (maxIndex cfg).

(** The numbers [end] prints: time, peers, RPCs, bytes, agreements. *)
Definition report (failed : bool) (start now : Z) (s : Stats) cfg : outcome (option (Z * Z * Z * Z * Z)) :=
  _ ← checkTimeout failed start now;
  Ret (if negb failed
       then Some (now - t0 s, n cfg, rpcTotal cfg - rpcs0 s, bytesTotal cfg - bytes0 s, maxIndex cfg - maxIndex0 s)
       else None).

Fixpoint LogSizeLoop (ps : list (option Persister)) (logsize : Z) : outcome Z :=
  match ps with
  | [] => Ret logsize
  | None :: _ => Panic NilDereference
  | Some p :: ps => LogSizeLoop ps (if RaftStateSize p >? logsize then RaftStateSize p else logsize)
  end.

Definition LogSize cfg : outcome Z :=
  ps ← go_for (Z.to_nat (n cfg)) 0 (λ i ps, p ← savedNow i cfg; Ret (ps ++ [p])) [];
  LogSizeLoop ps 0.
End config.
