(* ===== verification/RaftConfigProps.v ===== *)
(** * The Raft tester: what its checks mean

    The harness of RaftConfig.v on the network of Labrpc.v and the servers of
    Raft.v.

    - Two servers can talk exactly when both are connected, whatever sequence
      of connections, disconnections, crashes and restarts came before
      ([config_links]).
    - The check for two leaders never fails, even though it looks at the
      servers one after the other ([checkOneLeader_sound]).
    - The order check of [applierSnap] accepts what Raft sends unless Raft sends
      a snapshot that is older than what it has applied, which it may do
      ([applierSnap_accepts], [stale_snapshot_fatal]).
    - What [one] and [wait] return was held by as many servers as they were asked
      for ([one_agreement], [wait_holding]). *)

From Stdlib Require Import Strings.Byte.
From stdpp Require Import prelude gmap strings list.
From S2P Require Import Prelude Gob Strconv Labrpc Raft RaftNode RaftServer RaftEvolve RaftApply RaftNet RaftElection RaftCluster RaftExample RaftTheorems RaftConfig.
Local Open Scope Z_scope.

(** ** Connections *)
Section links.
Context {C : Type} `{EqDecision C} `{Gob Z} `{Gob (list (LogEntry C))} `{Gob (list (option C))}.
Context (fmtC : option C → string).
Implicit Types (cfg : config C) (rn : Network (string + Z)).

Definition name_at cfg (i j : Z) : option string :=
  if (0 <=? i) && (0 <=? j) && (j <? n cfg) then
    row ← endnames cfg !! Z.to_nat i; row ← row; row !! Z.to_nat j
  else None.

Definition is_connected cfg (i : Z) : bool := default false (connected cfg !! Z.to_nat i).

(** End [i] to [j] is enabled when both are connected, and leads to [j]. *)
Record links_ok cfg : Prop := {
  lk_len : zlen (connected cfg) = n cfg;
  lk_rows : zlen (endnames cfg) = n cfg;
  lk_inj i j i' j' e : name_at cfg i j = Some e → name_at cfg i' j' = Some e → i = i' ∧ j = j';
  lk_ends i j e : name_at cfg i j = Some e → inl e ∈ ends (cfg_net cfg);
  lk_enabled i j e : name_at cfg i j = Some e →
    enabled (cfg_net cfg) !! inl e = Some (is_connected cfg i && is_connected cfg j);
  lk_target i j e : name_at cfg i j = Some e → connections (cfg_net cfg) !! inl e = Some (Some (inr j));
}.

Definition enable_all (es : list string) (yes : bool) rn : Network (string + Z) :=
  foldl (λ rn e, Enable (inl e) yes rn) rn es.

Lemma enable_all_other es yes rn :
  ends (enable_all es yes rn) = ends rn ∧ connections (enable_all es yes rn) = connections rn.
Proof. revert rn. induction es as [|e es IH]; intros rn; simpl; [done|]. by destruct (IH (Enable (inl e) yes rn)) as [-> ->]. Qed.

Lemma enable_all_enabled es yes rn e :
  enabled (enable_all es yes rn) !! inl e = if decide (e ∈ es) then Some yes else enabled rn !! inl e.
Proof.
  revert rn. induction es as [|e' es IH]; intros rn.
  { by rewrite decide_False by apply not_elem_of_nil. }
  unfold enable_all in *. cbn [foldl]. rewrite IH. destruct (decide (e ∈ es)) as [Hin|Hin]; [by rewrite decide_True by by right|].
  destruct (decide (e' = e)) as [->|Hne]; simpl.
  - rewrite lookup_insert_eq. by rewrite decide_True by by left.
  - rewrite lookup_insert_ne by congruence. rewrite decide_False; [done|]. by intros [?|?]%elem_of_cons.
Qed.

Lemma set_cnet_twice rn rn' cfg : set_cnet rn (set_cnet rn' cfg) = set_cnet rn cfg.
Proof. done. Qed.

Lemma set_cnet_id cfg : set_cnet (cfg_net cfg) cfg = cfg.
Proof. by destruct cfg. Qed.

(** A loop that enables or disables ends. *)
Lemma go_for_enable k from body (f : Z → option string) yes cfg rn cfg' :
  (∀ j rn cfg', body j (set_cnet rn cfg) = Ret cfg' → 0 ≤ j < from + Z.of_nat k →
     cfg' = set_cnet (match f j with Some e => Enable (inl e) yes rn | None => rn end) cfg) →
  0 ≤ from → go_for k from body (set_cnet rn cfg) = Ret cfg' →
  cfg' = set_cnet (enable_all (omap f (seqZ from (Z.of_nat k))) yes rn) cfg.
Proof.
  revert from rn. induction k as [|k IH]; intros from rn Hb Hf; simpl go_for; [by intros [= <-]|].
  intros (c1 & Hb1 & Hb2)%bind_Ret_inv. apply Hb in Hb1 as ->; [|lia]. apply IH in Hb2 as ->; [|intros; apply Hb; [done|lia]|lia].
  rewrite (seqZ_cons from) by lia. replace (Z.pred (Z.of_nat (S k))) with (Z.of_nat k) by lia. simpl.
  by destruct (f from).
Qed.

Lemma endname_at_Ret i j cfg e : 0 ≤ j < n cfg → endname_at i j cfg = Ret e → name_at cfg i j = Some e.
Proof.
  unfold endname_at, name_at. intros Hj (row & [Hi Hrow]%go_index_Ret & He)%bind_Ret_inv.
  destruct row as [row|]; [|done]. apply go_index_Ret in He as [_ He].
  rewrite (proj2 (Z.leb_le 0 i)), (proj2 (Z.leb_le 0 j)), (proj2 (Z.ltb_lt j _)) by lia. simpl. by rewrite Hrow.
Qed.

Lemma enableEnd_Ret i j yes cfg cfg' :
  0 ≤ j < n cfg → enableEnd i j yes cfg = Ret cfg' →
  ∃ e, name_at cfg i j = Some e ∧ cfg' = set_cnet (Enable (inl e) yes (cfg_net cfg)) cfg.
Proof.
  intros Hj (e & He & [= <-])%bind_Ret_inv. exists e. split; [|done]. by apply endname_at_Ret.
Qed.

(** The ends the loops of [connect] and [disconnect] touch. *)
Definition outs (P : Z → bool) (i : Z) cfg : list string :=
  omap (λ j, if P j then name_at cfg i j else None) (seqZ 0 (n cfg)).
Definition ins (P : Z → bool) (i : Z) cfg : list string :=
  omap (λ j, if P j then name_at cfg j i else None) (seqZ 0 (n cfg)).

Lemma elem_of_outs P i cfg e : e ∈ outs P i cfg ↔ ∃ j, 0 ≤ j < n cfg ∧ P j = true ∧ name_at cfg i j = Some e.
Proof.
  unfold outs. rewrite list_elem_of_omap. setoid_rewrite elem_of_seqZ. split.
  - intros (j & Hj & He). exists j. destruct (P j); [|done]. split_and!; [lia|lia|done|done].
  - intros (j & Hj & HP & He). exists j. rewrite HP. split; [lia|done].
Qed.

Lemma elem_of_ins P i cfg e : e ∈ ins P i cfg ↔ ∃ j, 0 ≤ j < n cfg ∧ P j = true ∧ name_at cfg j i = Some e.
Proof.
  unfold ins. rewrite list_elem_of_omap. setoid_rewrite elem_of_seqZ. split.
  - intros (j & Hj & He). exists j. destruct (P j); [|done]. split_and!; [lia|lia|done|done].
  - intros (j & Hj & HP & He). exists j. rewrite HP. split; [lia|done].
Qed.

Lemma is_connected_index cfg j c : go_index (connected cfg) j = Ret c → is_connected cfg j = c.
Proof. intros [_ Hc]%go_index_Ret. unfold is_connected. by rewrite Hc. Qed.

Lemma connect_spec i cfg cfg' :
  links_ok cfg → connect i cfg = Ret cfg' →
  0 ≤ i < n cfg ∧
  let cfg1 := set_connected (<[Z.to_nat i := true]> (connected cfg)) cfg in
  let P := is_connected cfg1 in
  cfg' = set_cnet (enable_all (ins P i cfg) true (enable_all (outs P i cfg) true (cfg_net cfg))) cfg1.
Proof.
  intros Hl (cs & Hcs & Hret)%bind_Ret_inv. apply go_set_Ret in Hcs as [Hi ->]. rewrite (lk_len _ Hl) in Hi.
  split; [done|]. cbv zeta in *. set (cfg1 := set_connected _ cfg) in *. apply bind_Ret_inv in Hret as (cfg2 & Hout & Hin).
  assert (Z.of_nat (Z.to_nat (n cfg)) = n cfg) as Hn by lia.
  rewrite <-(set_cnet_id cfg1) in Hout.
  apply (go_for_enable _ _ _ (λ j, if is_connected cfg1 j then name_at cfg i j else None) true) in Hout as ->; [| |lia].
  - simpl in Hin. apply (go_for_enable _ _ _ (λ j, if is_connected cfg1 j then name_at cfg j i else None) true) in Hin as ->; [| |lia].
    + by rewrite Hn.
    + intros j rn c' (c & Hc & He)%bind_Ret_inv Hj. apply (is_connected_index cfg1) in Hc as ->. destruct c; [|by simplify_eq].
      apply enableEnd_Ret in He as (e & He & ->); [|simpl; lia]. by rewrite (He : name_at cfg j i = Some e).
  - intros j rn c' (c & Hc & He)%bind_Ret_inv Hj. simpl in Hj.
    apply (is_connected_index cfg1) in Hc as ->. destruct c; [|by simplify_eq].
    apply enableEnd_Ret in He as (e & He & ->); [|simpl; lia]. by rewrite (He : name_at cfg i j = Some e).
Qed.

Lemma is_connected_insert cfg i b j :
  0 ≤ i < n cfg → zlen (connected cfg) = n cfg → 0 ≤ j →
  is_connected (set_connected (<[Z.to_nat i := b]> (connected cfg)) cfg) j =
    if decide (j = i) then b else is_connected cfg j.
Proof.
  intros Hi Hl Hj. unfold is_connected. simpl. destruct (decide (j = i)) as [->|Hne].
  - by rewrite list_lookup_insert_eq by lia.
  - by rewrite list_lookup_insert_ne by lia.
Qed.

Lemma name_at_range cfg i j e : zlen (endnames cfg) = n cfg → name_at cfg i j = Some e → 0 ≤ i < n cfg ∧ 0 ≤ j < n cfg.
Proof.
  intros Hl. unfold name_at. destruct (_ && _) eqn:Hb; [|done]. b2p.
  destruct (endnames cfg !! Z.to_nat i) as [row|] eqn:Hr; [|done]. apply lookup_lt_Some in Hr. lia.
Qed.

(** Changing whether [i] is connected and the ends that follow from it. *)
Lemma links_ok_update cfg i b rn :
  links_ok cfg → 0 ≤ i < n cfg → ends rn = ends (cfg_net cfg) → connections rn = connections (cfg_net cfg) →
  (∀ a c e, name_at cfg a c = Some e →
     enabled rn !! inl e = Some ((if decide (a = i) then b else is_connected cfg a) &&
                                 (if decide (c = i) then b else is_connected cfg c))) →
  links_ok (set_cnet rn (set_connected (<[Z.to_nat i := b]> (connected cfg)) cfg)).
Proof.
  intros [L1 L2 L3 L4 L5 L6] Hi He Hc Hen. split; simpl.
  - by rewrite length_insert.
  - done.
  - exact L3.
  - intros a c e Hn. rewrite He. by eapply L4.
  - intros a c e Hn. rewrite (Hen a c e Hn). destruct (name_at_range _ _ _ _ L2 Hn) as [Ha Hc'].
    pose proof (is_connected_insert cfg i b a Hi L1 ltac:(lia)) as Ea.
    pose proof (is_connected_insert cfg i b c Hi L1 ltac:(lia)) as Ec.
    unfold is_connected in *. simpl in *. by rewrite Ea, Ec.
  - intros a c e Hn. rewrite Hc. by eapply L6.
Qed.

Lemma connect_links i cfg cfg' : links_ok cfg → connect i cfg = Ret cfg' → links_ok cfg'.
Proof.
  intros Hl Hc. destruct (connect_spec _ _ _ Hl Hc) as [Hi ->]. clear Hc.
  set (cfg1 := set_connected _ _). set (P := is_connected cfg1).
  apply links_ok_update; [done|done| | |].
  1,2: by rewrite !(proj1 (enable_all_other _ _ _)) || by rewrite !(proj2 (enable_all_other _ _ _)).
  intros a c e Hn. destruct (name_at_range _ _ _ _ (lk_rows _ Hl) Hn) as [Ha Hc].
  assert (∀ j, 0 ≤ j → P j = if decide (j = i) then true else is_connected cfg j) as HP
    by (intros; apply is_connected_insert; [done|apply Hl|done]).
  rewrite !enable_all_enabled. destruct (decide (e ∈ ins P i cfg)) as [Hin|Hin].
  { apply elem_of_ins in Hin as (j & Hj & HPj & Hn'). destruct (lk_inj _ Hl _ _ _ _ _ Hn Hn') as [-> ->].
    rewrite HP in HPj by lia. rewrite (decide_True (P := i = i)) by done. by rewrite HPj. }
  destruct (decide (e ∈ outs P i cfg)) as [Hout|Hout].
  { apply elem_of_outs in Hout as (j & Hj & HPj & Hn'). destruct (lk_inj _ Hl _ _ _ _ _ Hn Hn') as [-> ->].
    rewrite HP in HPj by lia. rewrite (decide_True (P := i = i)) by done. by rewrite HPj. }
  rewrite elem_of_ins in Hin. rewrite elem_of_outs in Hout. rewrite (lk_enabled _ Hl _ _ _ Hn). f_equal.
  pose proof (HP a ltac:(lia)) as Pa. pose proof (HP c ltac:(lia)) as Pc.
  destruct (decide (a = i)) as [->|Hai], (decide (c = i)) as [->|Hci]; [| | |done].
  - destruct Hout. by exists i.
  - destruct (is_connected cfg c) eqn:Ec; [|by rewrite andb_false_r]. destruct Hout. by exists c.
  - destruct (is_connected cfg a) eqn:Ea; [|done]. destruct Hin. by exists a.
Qed.

Definition has_row cfg (i : Z) : bool := bool_decide (is_Some (mjoin (endnames cfg !! Z.to_nat i))).

Lemma has_ends_Ret i cfg b : has_ends i cfg = Ret b → has_row cfg i = b.
Proof.
  intros (row & [_ Hr]%go_index_Ret & [= <-])%bind_Ret_inv. unfold has_row. by rewrite Hr.
Qed.

Lemma name_at_row cfg i j e : name_at cfg i j = Some e → has_row cfg i = true.
Proof.
  unfold name_at, has_row. destruct (_ && _); [|done]. destruct (endnames cfg !! Z.to_nat i) as [[row|]|]; [|done|done].
  intros _. by apply bool_decide_eq_true_2.
Qed.

Lemma disconnect_spec i cfg cfg' :
  links_ok cfg → disconnect i cfg = Ret cfg' →
  0 ≤ i < n cfg ∧
  cfg' = set_cnet (enable_all (ins (has_row cfg) i cfg) false
           (enable_all (outs (λ _, has_row cfg i) i cfg) false (cfg_net cfg)))
           (set_connected (<[Z.to_nat i := false]> (connected cfg)) cfg).
Proof.
  intros Hl (cs & Hcs & Hret)%bind_Ret_inv. apply go_set_Ret in Hcs as [Hi ->]. rewrite (lk_len _ Hl) in Hi.
  split; [done|]. cbv zeta in *. set (cfg1 := set_connected _ cfg) in *. apply bind_Ret_inv in Hret as (cfg2 & Hout & Hin).
  assert (Z.of_nat (Z.to_nat (n cfg)) = n cfg) as Hn by lia.
  rewrite <-(set_cnet_id cfg1) in Hout.
  apply (go_for_enable _ _ _ (λ j, if has_row cfg i then name_at cfg i j else None) false) in Hout as ->; [| |lia].
  - simpl in Hin. apply (go_for_enable _ _ _ (λ j, if has_row cfg j then name_at cfg j i else None) false) in Hin as ->; [| |lia].
    + by rewrite Hn.
    + intros j rn c' (b & Hb & He)%bind_Ret_inv Hj. apply has_ends_Ret in Hb. rewrite (Hb : has_row cfg j = b).
      destruct b; [|by simplify_eq]. apply enableEnd_Ret in He as (e & He & ->); [|simpl; lia].
      by rewrite (He : name_at cfg j i = Some e).
  - intros j rn c' (b & Hb & He)%bind_Ret_inv Hj. simpl in Hj. apply has_ends_Ret in Hb. rewrite (Hb : has_row cfg i = b).
    destruct b; [|by simplify_eq]. apply enableEnd_Ret in He as (e & He & ->); [|simpl; lia].
    by rewrite (He : name_at cfg i j = Some e).
Qed.

Lemma disconnect_links i cfg cfg' : links_ok cfg → disconnect i cfg = Ret cfg' → links_ok cfg' ∧ is_connected cfg' i = false.
Proof.
  intros Hl Hd. destruct (disconnect_spec _ _ _ Hl Hd) as [Hi ->]. clear Hd. split.
  2: { unfold is_connected. simpl. rewrite list_lookup_insert_eq; [done|]. rewrite <-(lk_len _ Hl) in Hi. lia. }
  apply links_ok_update; [done|done| | |].
  1,2: by rewrite !(proj1 (enable_all_other _ _ _)) || by rewrite !(proj2 (enable_all_other _ _ _)).
  intros a c e Hn. destruct (name_at_range _ _ _ _ (lk_rows _ Hl) Hn) as [Ha Hc]. pose proof (name_at_row _ _ _ _ Hn) as Hrow.
  rewrite !enable_all_enabled. destruct (decide (e ∈ ins _ i cfg)) as [Hin|Hin].
  { apply elem_of_ins in Hin as (j & Hj & HPj & Hn'). destruct (lk_inj _ Hl _ _ _ _ _ Hn Hn') as [-> ->].
    rewrite (decide_True (P := i = i)) by done. by rewrite andb_false_r. }
  destruct (decide (e ∈ outs _ i cfg)) as [Hout|Hout].
  { apply elem_of_outs in Hout as (j & Hj & HPj & Hn'). destruct (lk_inj _ Hl _ _ _ _ _ Hn Hn') as [-> ->].
    by rewrite (decide_True (P := i = i)) by done. }
  rewrite elem_of_ins in Hin. rewrite elem_of_outs in Hout.
  rewrite !decide_False; [by apply (lk_enabled _ Hl)| |].
  - intros ->. apply Hin. by exists a.
  - intros ->. apply Hout. by exists c.
Qed.

(** Fields the links do not depend on. *)
Lemma links_ok_ext cfg cfg' :
  n cfg' = n cfg → connected cfg' = connected cfg → endnames cfg' = endnames cfg →
  ends (cfg_net cfg') = ends (cfg_net cfg) → enabled (cfg_net cfg') = enabled (cfg_net cfg) →
  connections (cfg_net cfg') = connections (cfg_net cfg) → links_ok cfg → links_ok cfg'.
Proof.
  intros E1 E2 E3 E4 E5 E6 [L1 L2 L3 L4 L5 L6].
  assert (∀ i j, name_at cfg' i j = name_at cfg i j) as En by (intros; unfold name_at; by rewrite E1, E3).
  assert (∀ i, is_connected cfg' i = is_connected cfg i) as Ec by (intros; unfold is_connected; by rewrite E2).
  split; [by rewrite E2, E1|by rewrite E3, E1| | | |]; setoid_rewrite En.
  - exact L3.
  - by rewrite E4.
  - rewrite E5. by setoid_rewrite Ec.
  - by rewrite E6.
Qed.

Lemma crash1_links i cfg cfg' : links_ok cfg → crash1 i cfg = Ret cfg' → links_ok cfg' ∧ is_connected cfg' i = false.
Proof.
  intros Hl (cfg1 & Hd & Hret)%bind_Ret_inv. destruct (disconnect_links _ _ _ Hl Hd) as [Hl1 Hc].
  apply bind_Ret_inv in Hret as (ps & _ & (rs & _ & (sv & _ & [= <-])%bind_Ret_inv)%bind_Ret_inv).
  split; [|exact Hc]. by apply (links_ok_ext cfg1).
Qed.

(** The ends made so far for the names before [j]. *)
Record ends_made (cfg0 : config C) (i : Z) (names : list string) (j : Z) cfg : Prop := {
  em_same : cfg = set_cnet (cfg_net cfg) cfg0;
  em_ends e : inl e ∈ ends (cfg_net cfg) ↔ inl e ∈ ends (cfg_net cfg0) ∨ e ∈ take (Z.to_nat j) names;
  em_fresh e : e ∈ take (Z.to_nat j) names → inl e ∉ ends (cfg_net cfg0);
  em_nodup : NoDup (take (Z.to_nat j) names);
  em_old e : inl e ∈ ends (cfg_net cfg0) → enabled (cfg_net cfg) !! inl e = enabled (cfg_net cfg0) !! inl e ∧
    connections (cfg_net cfg) !! inl e = connections (cfg_net cfg0) !! inl e;
  em_new k e : 0 ≤ k < j → names !! Z.to_nat k = Some e →
    enabled (cfg_net cfg) !! inl e = Some false ∧ connections (cfg_net cfg) !! inl e = Some (Some (inr k));
}.

Lemma ends_made_step cfg0 i names j cfg cfg' :
  endnames cfg0 !! Z.to_nat i = Some (Some names) → 0 ≤ j →
  ends_made cfg0 i names j cfg →
  (e ← endname_at i j cfg; rn ← MakeEnd (inl e) (cfg_net cfg);
   Ret (set_cnet (Connect (inl e) (inr j) rn) cfg)) = Ret cfg' →
  ends_made cfg0 i names (j + 1) cfg'.
Proof.
  intros Hrow Hj [M1 M2 M3 M4 M5 M6] (e & He & (rn & Hm & [= <-])%bind_Ret_inv)%bind_Ret_inv.
  assert (names !! Z.to_nat j = Some e) as Hnm.
  { rewrite M1 in He. unfold endname_at in He. apply bind_Ret_inv in He as (row & [_ Hr]%go_index_Ret & He).
    simpl in Hr. rewrite Hrow in Hr. injection Hr as <-. by apply go_index_Ret in He as [_ ?]. }
  unfold MakeEnd in Hm. destruct (decide (inl e ∈ ends (cfg_net cfg))) as [|Hfresh]; [done|]. injection Hm as <-.
  rewrite M2 in Hfresh. assert (inl e ∉ ends (cfg_net cfg0)) as Hf0 by tauto. assert (e ∉ take (Z.to_nat j) names) as Hft by tauto.
  replace (Z.to_nat (j + 1)) with (S (Z.to_nat j)) in * by lia.
  split; simpl; rewrite ?Z2Nat.inj_add, ?Nat.add_1_r by lia; rewrite ?(take_S_r _ _ _ Hnm).
  - by rewrite M1.
  - intros e'. rewrite elem_of_union, elem_of_singleton, M2, elem_of_app, list_elem_of_singleton. naive_solver.
  - intros e' [?| ->%list_elem_of_singleton]%elem_of_app; auto.
  - by apply NoDup_snoc.
  - intros e' He'. destruct (M5 e' He') as [E1 E2]. rewrite !lookup_insert_ne by naive_solver. done.
  - intros k e' Hk He'. destruct (decide (k = j)) as [->|Hne].
    + assert (e' = e) as -> by congruence. by rewrite !lookup_insert_eq.
    + destruct (M6 k e') as [E1 E2]; [lia|done|]. assert (e' ≠ e) as Hee.
      { intros ->. apply Hft. apply list_elem_of_lookup. exists (Z.to_nat k). rewrite lookup_take_lt by lia. done. }
      rewrite !lookup_insert_ne by naive_solver. done.
Qed.

Lemma name_at_row_set cfg i names a c :
  0 ≤ i < n cfg → zlen (endnames cfg) = n cfg → zlen names = n cfg →
  name_at (set_endnames (<[Z.to_nat i := Some names]> (endnames cfg)) cfg) a c =
    if decide (a = i) then (if decide (0 ≤ c) then names !! Z.to_nat c else None) else name_at cfg a c.
Proof.
  intros Hi Hl Hn. unfold name_at. simpl. destruct (decide (a = i)) as [->|Hne].
  - rewrite list_lookup_insert_eq by lia. simpl. rewrite (proj2 (Z.leb_le 0 i)) by lia. simpl.
    destruct (decide (0 ≤ c)) as [Hc|Hc]; [rewrite (proj2 (Z.leb_le 0 c)) by lia|by rewrite (proj2 (Z.leb_gt 0 c)) by lia].
    simpl. destruct (Z.ltb_spec c (n cfg)); [done|]. symmetry. apply lookup_ge_None_2. lia.
  - destruct (Z.leb_spec 0 a); [|done]. simpl. rewrite list_lookup_insert_ne by lia. done.
Qed.

Lemma makeEnds_links i names cfg cfg' :
  links_ok cfg → is_connected cfg i = false → 0 ≤ i < n cfg → zlen names = n cfg →
  makeEnds i names cfg = Ret cfg' → links_ok cfg'.
Proof.
  intros Hl Hoff Hi Hn (es & Hes & Hloop)%bind_Ret_inv. apply go_set_Ret in Hes as [_ ->]. simpl in Hloop.
  pose proof (name_at_row_set cfg i names) as Hname. set (cfg1 := set_endnames _ cfg) in *.
  apply (go_for_inv (ends_made cfg1 i names)) in Hloop.
  2: { split; simpl; try done; try lia; try (intros e; rewrite ?elem_of_nil; tauto); try by intros e ?%not_elem_of_nil.
       by constructor. }
  2: { intros j c c' Hj Hm Hb. eapply (ends_made_step cfg1 i names j c c'); [|lia|done|exact Hb].
       simpl. rewrite list_lookup_insert_eq; [done|]. rewrite <-(lk_rows _ Hl) in Hi. lia. }
  replace (0 + Z.of_nat (Z.to_nat (n cfg))) with (n cfg) in Hloop by lia.
  destruct Hloop as [M1 M2 M3 M4 M5 M6]. rewrite take_ge in M2, M3, M4 by lia.
  assert (∀ a c, name_at cfg' a c = if decide (a = i) then (if decide (0 ≤ c) then names !! Z.to_nat c else None) else name_at cfg a c) as En.
  { intros a c. rewrite M1. apply Hname; [done|apply Hl|done]. }
  assert (∀ a, is_connected cfg' a = is_connected cfg a) as Ec by (intros; by rewrite M1).
  assert (∀ c e, (if decide (0 ≤ c) then names !! Z.to_nat c else None) = Some e → 0 ≤ c < n cfg ∧ e ∈ names) as Hnew.
  { intros c e He. destruct (decide (0 ≤ c)); [|done]. pose proof (lookup_lt_Some _ _ _ He).
    split; [lia|]. by eapply list_elem_of_lookup_2. }
  split; [by rewrite M1; apply Hl|rewrite M1; simpl; rewrite length_insert; apply Hl| | | |]; setoid_rewrite En.
  - intros a c a' c' e. destruct (decide (a = i)) as [->|Ha], (decide (a' = i)) as [->|Ha'].
    + destruct (decide (0 ≤ c)); [|done]. destruct (decide (0 ≤ c')); [|done]. intros He He'.
      pose proof (NoDup_lookup _ _ _ _ M4 He He'). split; [done|lia].
    + intros [_ He]%Hnew He'%(lk_ends _ Hl). by destruct (M3 e He).
    + intros He'%(lk_ends _ Hl) [_ He]%Hnew. by destruct (M3 e He).
    + apply (lk_inj _ Hl).
  - intros a c e He. rewrite M2. destruct (decide (a = i)) as [->|Ha]; [right; by apply (Hnew c)|left; by eapply (lk_ends _ Hl)].
  - intros a c e He. rewrite !Ec. destruct (decide (a = i)) as [->|Ha].
    + destruct (Hnew c e He) as [Hc _]. rewrite decide_True in He by lia. rewrite Hoff. by apply (M6 c e).
    + rewrite (proj1 (M5 e (lk_ends _ Hl _ _ _ He))). by apply (lk_enabled _ Hl).
  - intros a c e He. destruct (decide (a = i)) as [->|Ha].
    + destruct (Hnew c e He) as [Hc _]. rewrite decide_True in He by lia. by apply (M6 c e).
    + rewrite (proj2 (M5 e (lk_ends _ Hl _ _ _ He))). by apply (lk_target _ Hl a).
Qed.

Lemma ingestSnap_inv i snap index cfg err cfg' :
  ingestSnap i snap index cfg = Ret (err, cfg') → ∃ ls la mi, cfg' = set_applied ls la mi cfg.
Proof.
  unfold ingestSnap. intros Hi. repeat (case_match; try done); simplify_eq; [by exists (logs cfg'), (lastAppl cfg'), (maxIndex cfg'); destruct cfg'|].
  apply bind_Ret_inv in Hi as (? & _ & (? & _ & [= <- <-])%bind_Ret_inv). by eexists _, _, _.
Qed.

Lemma start1_links i names srv cfg cfg' :
  links_ok cfg → zlen names = n cfg → start1 i names srv cfg = Ret cfg' → links_ok cfg' ∧ n cfg' = n cfg.
Proof.
  intros Hl Hn (cfg1 & Hc & Hret)%bind_Ret_inv. destruct (crash1_links _ _ _ Hl Hc) as [Hl1 Hoff].
  assert (n cfg1 = n cfg ∧ 0 ≤ i < n cfg) as [En Hi].
  { unfold crash1 in Hc. apply bind_Ret_inv in Hc as (c0 & Hd & Hc). apply disconnect_spec in Hd as [Hi ->]; [|done].
    apply bind_Ret_inv in Hc as (? & _ & (? & _ & (? & _ & [= <-])%bind_Ret_inv)%bind_Ret_inv). done. }
  apply bind_Ret_inv in Hret as (cfg2 & Hm & Hret).
  assert (n cfg2 = n cfg1) as En2.
  { apply bind_Ret_inv in Hm as (es & _ & Hm). apply (go_for_keeps (λ c, n c = n cfg1)) in Hm; [done|done|].
    intros j c c' Hc' (e & _ & (rn & _ & [= <-])%bind_Ret_inv)%bind_Ret_inv. done. }
  apply makeEnds_links in Hm; [|done|done|lia|lia].
  apply bind_Ret_inv in Hret as (la & _ & (ps & _ & ([ps' cfg3] & Hps & (sv & _ & (rf & _ & (rs & _ & [= <-])%bind_Ret_inv)%bind_Ret_inv)%bind_Ret_inv)%bind_Ret_inv)%bind_Ret_inv).
  assert (∃ ls la' mi, cfg3 = set_applied ls la' mi cfg2) as (ls & la' & mi & ->).
  { destruct ps as [ps|]; [|by simplify_eq; eexists _, _, _]. cbv zeta in Hps.
    destruct (zlen (ReadSnapshot (Copy ps)) >? 0); [|by simplify_eq; eexists _, _, _].
    apply bind_Ret_inv in Hps as ([err c3] & Hi3 & Hps). destruct (decide _); [|done]. simplify_eq.
    apply ingestSnap_inv in Hi3 as (? & ? & ? & ->). by eexists _, _, _. }
  split; [by apply (links_ok_ext cfg2)|]. simpl. congruence.
Qed.

(** What a test does to the servers. *)
Inductive cfg_op :=
  | OpConnect (i : Z)
  | OpDisconnect (i : Z)
  | OpCrash (i : Z)
  | OpStart (i : Z) (names : list string) (srv : nat)
  | OpApply (i : Z) (m : ApplyMsg C)
  | OpApplySnap (i : Z) (m : ApplyMsg C).

Definition cfg_step (op : cfg_op) cfg : outcome (config C) :=
  match op with
  | OpConnect i => connect i cfg
  | OpDisconnect i => disconnect i cfg
  | OpCrash i => crash1 i cfg
  | OpStart i names srv => if decide (zlen names = n cfg) then start1 i names srv cfg else Ret cfg
  | OpApply i m => applier fmtC i m cfg
  | OpApplySnap i m => applierSnap fmtC i m cfg
  end.

Fixpoint cfg_run (ops : list cfg_op) cfg : outcome (config C) :=
  match ops with
  | [] => Ret cfg
  | op :: ops => cfg ← cfg_step op cfg; cfg_run ops cfg
  end.

(** The readers of the apply channels do not touch the network. *)
Definition same_links cfg cfg' : Prop :=
  n cfg' = n cfg ∧ connected cfg' = connected cfg ∧ endnames cfg' = endnames cfg ∧ cfg_net cfg' = cfg_net cfg.

Lemma checkLogs_same i m cfg err prevok cfg' :
  checkLogs fmtC i m cfg = Ret (err, prevok, cfg') → same_links cfg cfg'.
Proof. intros (log & _ & (ls & _ & [= _ _ <-])%bind_Ret_inv)%bind_Ret_inv. done. Qed.

Lemma applier_same i m cfg cfg' : applier fmtC i m cfg = Ret cfg' → same_links cfg cfg'.
Proof.
  unfold applier. destruct (negb _); [by intros [= <-]|]. intros ([[err prevok] c] & Hc & Hret)%bind_Ret_inv.
  destruct (decide _); [|done]. injection Hret as <-. by eapply checkLogs_same.
Qed.

Lemma takeSnap_same i index cfg cfg' : takeSnap i index cfg = Ret cfg' → same_links cfg cfg'.
Proof.
  intros (log & _ & ([rf|] & _ & Hret)%bind_Ret_inv)%bind_Ret_inv; [|by simplify_eq].
  by apply bind_Ret_inv in Hret as (? & _ & (? & _ & [= <-])%bind_Ret_inv).
Qed.

Lemma applierSnap_same i m cfg cfg' : applierSnap fmtC i m cfg = Ret cfg' → same_links cfg cfg'.
Proof.
  unfold applierSnap. destruct (SnapshotValid m); [|destruct (CommandValid m); [|by intros [= <-]]].
  - intros ([err c] & Hi & Hret)%bind_Ret_inv. destruct (decide _); [|done]. injection Hret as <-.
    by apply ingestSnap_inv in Hi as (? & ? & ? & ->).
  - intros (la & _ & ([err c] & Hc & (la' & _ & (c2 & Ht & Hret)%bind_Ret_inv)%bind_Ret_inv)%bind_Ret_inv)%bind_Ret_inv.
    destruct (decide _); [|done]. injection Hret as <-.
    assert (same_links cfg c) as S1.
    { destruct (negb _); [by simplify_eq|]. apply bind_Ret_inv in Hc as ([[? ?] c1] & Hc & [= _ <-]). by eapply checkLogs_same. }
    destruct S1 as (E1 & E2 & E3 & E4). clear Hc. destruct (_ =? _); [|by simplify_eq].
    destruct (takeSnap_same _ _ _ _ Ht) as (F1 & F2 & F3 & F4). simpl in *. split_and!; congruence.
Qed.

Lemma same_links_ok cfg cfg' : same_links cfg cfg' → links_ok cfg → links_ok cfg'.
Proof. intros (E1 & E2 & E3 & E4). apply links_ok_ext; [done|done|done|by rewrite E4..]. Qed.

Lemma cfg_step_links op cfg cfg' : links_ok cfg → cfg_step op cfg = Ret cfg' → links_ok cfg'.
Proof.
  intros Hl Hs. destruct op; simpl in Hs.
  - by eapply connect_links.
  - by eapply disconnect_links.
  - by eapply crash1_links.
  - case_decide; [|by simplify_eq]. by eapply start1_links.
  - eapply same_links_ok, Hl. by eapply applier_same.
  - eapply same_links_ok, Hl. by eapply applierSnap_same.
Qed.

Lemma cfg_run_links ops cfg cfg' : links_ok cfg → cfg_run ops cfg = Ret cfg' → links_ok cfg'.
Proof.
  revert cfg. induction ops as [|op ops IH]; intros cfg Hl; simpl; [by intros [= <-]|].
  intros (c1 & Hs & Hr)%bind_Ret_inv. by eapply IH, Hr; eapply cfg_step_links.
Qed.

Lemma name_at_none cfg i j k : endnames cfg = replicate k None → name_at cfg i j = None.
Proof.
  intros Hr. unfold name_at. rewrite Hr. destruct (_ && _); [|done].
  destruct (replicate k None !! Z.to_nat i) as [row|] eqn:Hrow; [|done]. by apply lookup_replicate in Hrow as [-> _].
Qed.

Lemma make_config_links k unreliable names srv cfg :
  (∀ i, zlen (names i) = Z.of_nat k) → make_config k unreliable names srv = Ret cfg → links_ok cfg.
Proof.
  intros Hn (cfg1 & Hstart & Hconn)%bind_Ret_inv.
  apply (go_for_keeps (λ c, links_ok c ∧ n c = Z.of_nat k)) in Hstart as [Hl1 _].
  - eapply (go_for_keeps links_ok), Hconn; [done|]. intros j c c' Hl Hc. by eapply connect_links.
  - split; [|done]. split; simpl; rewrite ?length_replicate; try done;
      intros * Hnm; by rewrite (name_at_none _ _ _ k) in Hnm.
  - intros i c c' [Hl Hk] (ls & _ & Hs)%bind_Ret_inv. apply start1_links in Hs as [? Hk'].
    + split; [done|]. simpl in Hk'. congruence.
    + by apply (links_ok_ext c).
    + simpl. by rewrite Hn, Hk.
Qed.

(** Connections mean what the tests think: after any sequence of connections,
    disconnections, crashes, restarts and applied messages, a request from
    server [i] to server [j] finds its end enabled exactly when both servers
    are connected, and the end leads to [j]. *)
Theorem config_links k unreliable names srv ops cfg0 cfg i j e :
  (∀ i, zlen (names i) = Z.of_nat k) → make_config k unreliable names srv = Ret cfg0 →
  cfg_run ops cfg0 = Ret cfg → name_at cfg i j = Some e →
  ∃ server, readEndnameInfo (cfg_net cfg) (inl e) =
    (is_connected cfg i && is_connected cfg j, Some (inr j), server,
     reliable (cfg_net cfg), longReordering (cfg_net cfg)).
Proof.
  intros Hn Hmk Hrun Hname. pose proof (cfg_run_links _ _ _ (make_config_links _ _ _ _ _ Hn Hmk) Hrun) as Hl.
  eexists. unfold readEndnameInfo. rewrite (lk_enabled _ Hl _ _ _ Hname), (lk_target _ Hl _ _ _ Hname). done.
Qed.
(** ** Agreement *)

Lemma countCommitted_spec index errs ls count cmd k cmd' :
  0 ≤ count → countCommitted index errs ls count cmd = Ret (k, cmd') →
  count ≤ k ∧ (0 < count → cmd' = cmd) ∧ k - count ≤ zlen (filter (λ l : gmap Z (option C), l !! index = Some cmd') ls).
Proof.
  revert ls count cmd. induction errs as [|err errs IH]; intros [|l ls] count cmd Hc; simpl;
    try (intros [= <- <-]; split_and!; first [lia|done]; fail).
  destruct (decide (err = "")); [|done]. rewrite filter_cons. destruct (l !! index) as [cmd1|] eqn:Hl.
  - destruct ((count >? 0) && negb (bool_decide (cmd = cmd1))) eqn:Hguard; [done|].
    intros (Hk & Hsame & Hn)%IH; [|lia]. rewrite <-(Hsame ltac:(lia)) in *. rewrite decide_True by done.
    cbn [length]. split_and!; [lia| |lia]. intros Hpos.
    apply andb_false_iff in Hguard as [Hguard|Hguard]; [zlia|].
    apply negb_false_iff, bool_decide_eq_true in Hguard. done.
  - intros (Hk & Hsame & Hn)%IH; [|done]. rewrite decide_False by done. by split_and!.
Qed.

(** The servers whose log holds [cmd] at [index]. *)
Definition holding (index : Z) (cmd : option C) cfg : Z :=
  zlen (filter (λ l : gmap Z (option C), l !! index = Some cmd) (logs cfg)).

Lemma nCommitted_holding index cfg k cmd : nCommitted index cfg = Ret (k, cmd) → k ≤ holding index cmd cfg.
Proof. intros (? & _ & ?)%countCommitted_spec; [|done]. unfold holding. lia. Qed.

Lemma agreed_sound index cmd expected samples :
  agreed index cmd expected samples = Ret true → ∃ cfg, cfg ∈ samples ∧ Z.max 1 expected ≤ holding index cmd cfg.
Proof.
  induction samples as [|cfg samples IH]; [done|]. simpl. intros ([nd cmd1] & Hn%nCommitted_holding & Heq)%bind_Ret_inv.
  destruct ((nd >? 0) && (nd >=? expected)) eqn:Hnd; simpl in Heq;
    [|destruct (IH Heq) as (c & ? & ?); exists c; split; [by right|done] ].
  case_bool_decide; [|destruct (IH Heq) as (c & ? & ?); exists c; split; [by right|done] ].
  subst cmd1. exists cfg. split; [by left|]. zlia.
Qed.

(** An index that [one] returns was seen to hold the command at as many servers
    as it was asked for, within two seconds of an attempt. *)
Theorem one_agreement cmd expected retry finished rounds cfg index :
  one cmd expected retry finished rounds cfg = Ret index → index ≠ -1 →
  ∃ world cfg0 seen, world ∈ rounds ∧ seen ∈ (world cfg0).1 ∧ Z.max 1 expected ≤ holding index cmd seen.
Proof.
  unfold one. generalize 0 at 1 as starts. intros starts. revert starts cfg.
  induction rounds as [|world rounds IH]; intros starts cfg Hone Hi; simpl in Hone.
  { destruct finished; [|done]. by injection Hone as <-. }
  assert (Hrec : ∀ starts next, oneLoop cmd expected retry finished rounds starts next = Ret index →
    ∃ w cfg0 seen, w ∈ world :: rounds ∧ seen ∈ (w cfg0).1 ∧ Z.max 1 expected ≤ holding index cmd seen).
  { intros starts' next Hnext. destruct (IH _ _ Hnext Hi) as (w & cfg0 & seen & ? & ?).
    exists w, cfg0, seen. split; [by right|done]. }
  apply bind_Ret_inv in Hone as ([ [starts' r] cfg1] & _ & Hone). destruct (world cfg1) as [samples next] eqn:Hw.
  destruct r as [index1|]; [|by eapply Hrec].
  apply bind_Ret_inv in Hone as ([|] & Hag & Hone); [|destruct retry; [by eapply Hrec|done] ].
  injection Hone as <-. apply agreed_sound in Hag as (seen & Hin & Hh).
  exists world, cfg1, seen. rewrite Hw. split; [by left|done].
Qed.

Lemma waitEnd_holding index want cfg cmd : waitEnd index want cfg = Ret (Some cmd) → want ≤ holding index cmd cfg.
Proof.
  unfold waitEnd. intros ([nd cmd1] & Hn%nCommitted_holding & Heq)%bind_Ret_inv. simpl in Heq.
  destruct (nd <? want) eqn:Hlt; [done|]. injection Heq as <-. zlia.
Qed.

(** What [wait] returns is held by as many servers as it was asked for. *)
Theorem wait_holding index want startTerm seen last cmd :
  wait index want startTerm seen last = Ret (Some cmd) → want ≤ holding index cmd last.
Proof.
  unfold wait. generalize 30%nat. intros k. generalize 0%nat. induction k as [|k IH]; intros iters; simpl; [apply waitEnd_holding|].
  intros ([nd cmd0] & _ & Heq)%bind_Ret_inv. simpl in Heq. destruct (nd >=? want); [by apply waitEnd_holding|].
  apply bind_Ret_inv in Heq as ([|] & _ & Heq); [done|]. by eapply IH.
Qed.
End links.

(** ** Leaders *)
Section leaders.
Context {C : Type} `{GobLaws Z} `{GobLaws (list (LogEntry C))}.
Implicit Types (net : Net C) (ss : sample).

(** The servers that a sample shows as leaders of [t], from number [i] on. *)
Fixpoint leading (t i : Z) ss : list Z :=
  match ss with
  | [] => []
  | Some (t', true) :: ss => if decide (t' = t) then i :: leading t (i + 1) ss else leading t (i + 1) ss
  | _ :: ss => leading t (i + 1) ss
  end.

Lemma leadersFrom_lookup i ss leaders t :
  leadersFrom i ss leaders !! t =
    match leading t i ss with [] => leaders !! t | l => Some (default [] (leaders !! t) ++ l) end.
Proof.
  revert i leaders. induction ss as [|[[t' []]|] ss IH]; intros i leaders; simpl; [done| |apply IH|apply IH].
  rewrite IH. destruct (decide (t' = t)) as [->|Hne].
  - rewrite lookup_insert_eq. destruct (leading t (i + 1) ss); [done|]. simpl. by rewrite <-app_assoc.
  - by rewrite lookup_insert_ne.
Qed.

Lemma elem_of_leading t i ss l :
  l ∈ leading t i ss ↔ i ≤ l ∧ ss !! Z.to_nat (l - i) = Some (Some (t, true)).
Proof.
  revert i. induction ss as [|s ss IH]; intros i; simpl.
  { rewrite elem_of_nil. naive_solver. }
  assert (l ∈ leading t (i + 1) ss ↔ i < l ∧ (s :: ss) !! Z.to_nat (l - i) = Some (Some (t, true))) as IH'.
  { rewrite IH. split; intros [Hl He]; split; try lia.
    - by replace (Z.to_nat (l - i)) with (S (Z.to_nat (l - (i + 1)))) by lia.
    - by replace (Z.to_nat (l - i)) with (S (Z.to_nat (l - (i + 1)))) in He by lia. }
  assert (i ≤ l ∧ (s :: ss) !! Z.to_nat (l - i) = Some (Some (t, true)) ↔
    (l = i ∧ s = Some (t, true)) ∨ (i < l ∧ (s :: ss) !! Z.to_nat (l - i) = Some (Some (t, true)))) as ->.
  { split.
    - intros [Hl He]. destruct (decide (l = i)) as [->|]; [|right; split; [lia|done]].
      left. rewrite Z.sub_diag in He. by injection He as ->.
    - intros [[-> ->]|[? ?]]; [split; [lia|by rewrite Z.sub_diag]|split; [lia|done]]. }
  rewrite <-IH'. destruct s as [[t' []]|]; [|naive_solver|naive_solver].
  destruct (decide (t' = t)) as [->|Hne]; [rewrite elem_of_cons|]; naive_solver.
Qed.

(** At most one leader per term, and terms that are not negative. *)
Definition sample_ok ss : Prop :=
  (∀ i t, ss !! i = Some (Some (t, true)) → 0 ≤ t) ∧
  (∀ i j t, ss !! i = Some (Some (t, true)) → ss !! j = Some (Some (t, true)) → i = j).

Lemma leading_NoDup t i ss : NoDup (leading t i ss).
Proof.
  revert i. induction ss as [|[[t' []]|] ss IH]; intros i; simpl; [constructor| |done|done].
  destruct (decide (t' = t)); [|done]. apply NoDup_cons. split; [|done]. rewrite elem_of_leading. lia.
Qed.

Lemma leading_one t ss : sample_ok ss → leading t 0 ss = [] ∨ ∃ l, leading t 0 ss = [l].
Proof.
  intros [_ Hone]. pose proof (leading_NoDup t 0 ss) as Hnd.
  destruct (leading t 0 ss) as [|l [|l' ls]] eqn:Hl; [by left|right; by exists l|exfalso].
  assert (l ∈ leading t 0 ss ∧ l' ∈ leading t 0 ss) as [Hi%elem_of_leading Hi'%elem_of_leading]
    by (rewrite Hl; split; [by left|right; by left]).
  destruct Hi as [? Hi], Hi' as [? Hi']. pose proof (Hone _ _ _ Hi Hi').
  apply NoDup_cons in Hnd as [Hnin _]. apply Hnin. assert (l = l') as -> by lia. by left.
Qed.

Lemma lastTerm_max ls last :
  Forall (λ p, zlen p.2 ≤ 1) ls →
  ∃ t, lastTerm ls last = Ret t ∧ last ≤ t ∧ (t = last ∨ t ∈ ls.*1) ∧ (∀ t', t' ∈ ls.*1 → t' ≤ t).
Proof.
  intros Hall. revert last. induction Hall as [|[t l] ls Hl _ IH]; intros last; simpl.
  { exists last. split_and!; [done|lia|by left|]. by intros t' ?%not_elem_of_nil. }
  simpl in Hl. destruct (zlen l >? 1) eqn:Hgt; [zlia|].
  destruct (IH (if t >? last then t else last)) as (t1 & -> & Hge & Hor & Hmax). exists t1.
  destruct (t >? last) eqn:Ht; (split_and!; [done|zlia| |]).
  - destruct Hor as [->|?]; [right; by left|right; by right].
  - intros t' [->|?]%elem_of_cons; [zlia|auto].
  - destruct Hor as [->|?]; [by left|right; by right].
  - intros t' [->|?]%elem_of_cons; [zlia|auto].
Qed.

(** A poll of a sample without two leaders of a term finds the leader of the
    highest term, if there is a leader. *)
Lemma pollLeader_spec ss :
  sample_ok ss →
  (pollLeader ss = Ret None ∧ ∀ i t, ss !! i ≠ Some (Some (t, true))) ∨
  (∃ (l : nat) t, pollLeader ss = Ret (Some (Z.of_nat l)) ∧ ss !! l = Some (Some (t, true)) ∧
     ∀ i t', ss !! i = Some (Some (t', true)) → t' ≤ t ∧ (t' = t → i = l)).
Proof.
  intros Hok. assert (∀ t, leadersFrom 0 ss ∅ !! t = match leading t 0 ss with [] => None | l => Some l end) as Hlook
    by (intros t; by rewrite leadersFrom_lookup, lookup_empty).
  assert (∀ t l, leadersFrom 0 ss ∅ !! t = Some l → leading t 0 ss = l ∧ ∃ x, l = [x]) as Hval.
  { intros t l Ht. rewrite Hlook in Ht. destruct (leading_one t ss Hok) as [E|[x E]]; rewrite E in Ht |- *; simplify_eq/=.
    split; [done|]. by exists x. }
  destruct (lastTerm_max (map_to_list (leadersFrom 0 ss ∅)) (-1)) as (t & Hlt & Hge & Hor & Hmax).
  { apply Forall_forall. intros [t l] Hin%elem_of_map_to_list. by destruct (Hval t l Hin) as [_ [x ->]]. }
  unfold pollLeader. rewrite Hlt, bind_Ret. case_bool_decide as Hem.
  - left. split; [done|]. intros i t' Hi. assert (Z.of_nat i ∈ leading t' 0 ss) as Hin.
    { apply elem_of_leading. split; [lia|]. by rewrite Z.sub_0_r, Nat2Z.id. }
    specialize (Hlook t'). rewrite Hem, lookup_empty in Hlook. destruct (leading t' 0 ss); [|done]. by apply not_elem_of_nil in Hin.
  - right. assert (t ∈ (map_to_list (leadersFrom 0 ss ∅)).*1) as Ht.
    { destruct Hor as [->|?]; [|done]. exfalso. apply map_choose in Hem as (t' & l & Ht').
      assert (t' ∈ (map_to_list (leadersFrom 0 ss ∅)).*1) as Hin.
      { apply list_elem_of_fmap. exists (t', l). split; [done|]. by apply elem_of_map_to_list. }
      pose proof (Hmax t' Hin). destruct (Hval _ _ Ht') as [El [x ->]].
      assert (x ∈ leading t' 0 ss) as [_ Hx]%elem_of_leading by (rewrite El; by left).
      pose proof (proj1 Hok _ _ Hx). lia. }
    apply list_elem_of_fmap in Ht as ([t0 l] & -> & Hin%elem_of_map_to_list). destruct (Hval _ _ Hin) as [El [x ->]].
    simpl in *. assert (x ∈ leading t0 0 ss) as [Hx0 Hx]%elem_of_leading by (rewrite El; by left).
    rewrite Z.sub_0_r in Hx. exists (Z.to_nat x), t0. rewrite Hin. simpl. split_and!; [by rewrite Z2Nat.id|done|].
    intros i t' Hi. split; [|intros ->; by eapply (proj2 Hok)].
    apply Hmax. apply list_elem_of_fmap. destruct (leading_one t' ss Hok) as [E|[y E]].
    + assert (Z.of_nat i ∈ leading t' 0 ss) as Hli by (apply elem_of_leading; split; [lia|by rewrite Z.sub_0_r, Nat2Z.id]).
      rewrite E in Hli. by apply not_elem_of_nil in Hli.
    + exists (t', [y]). split; [done|]. apply elem_of_map_to_list. by rewrite Hlook, E.
Qed.

(** [polls i net conn ss net']: between the states [net] and [net'] of the
    cluster the harness asked the servers [i], [i + 1], ... that [conn] says
    are connected, one after the other; meanwhile the cluster runs. *)
Inductive polls : nat → Net C → list bool → sample → Net C → Prop :=
  | polls_end i net : polls i net [] [] net
  | polls_skip i net conn ss net' :
      polls (S i) net conn ss net' → polls i net (false :: conn) (None :: ss) net'
  | polls_ask i net net1 nd conn ss net' :
      rtc net_step net net1 → nodes net1 !! i = Some nd →
      polls (S i) net1 conn ss net' → polls i net (true :: conn) (Some (GetState (raft nd)) :: ss) net'.

Lemma polls_steps i net conn ss net' : polls i net conn ss net' → rtc net_step net net'.
Proof. induction 1; [done|done|by etrans]. Qed.

(** Whoever the sample shows as a leader has a majority of votes. *)
Lemma polls_leader n i net conn ss net' k t :
  reachable n net → polls i net conn ss net' → ss !! k = Some (Some (t, true)) →
  0 ≤ t ∧ ∃ S : gset Z, 2 * Z.of_nat (size S) > Z.of_nat n ∧ backed net' (i + k) t S.
Proof.
  intros Hr Hp. revert k Hr. induction Hp as [|i net conn ss net' Hp IH|i net net1 nd conn ss net' Hst Hnd Hp IH];
    intros k Hr Hk; [done| |].
  - destruct k as [|k]; [done|]. simpl in Hk. destruct (IH k Hr Hk) as [? (S & ? & Hb)].
    split; [done|]. exists S. split; [done|]. by rewrite Nat.add_succ_r.
  - pose proof (reachable_steps _ _ _ Hr Hst) as Hr1. destruct k as [|k].
    + unfold GetState in Hk. simpl in Hk. injection Hk as <- Hl. apply bool_decide_eq_true_1 in Hl. split.
      * by apply (wf_term _ (no_wf _ _ _ (ni_nodes _ _ (reachable_inv _ _ Hr1) _ _ Hnd))).
      * rewrite Nat.add_0_r. apply (leader_backed n net1 net' i nd); [done|by eapply polls_steps|done|done].
    + simpl in Hk. destruct (IH k Hr1 Hk) as [? (S & ? & Hb)]. split; [done|]. exists S. split; [done|].
      by rewrite Nat.add_succ_r.
Qed.

Lemma polls_sample_ok n net conn ss net' : reachable n net → polls 0 net conn ss net' → sample_ok ss.
Proof.
  intros Hr Hp. pose proof (reachable_steps _ _ _ Hr (polls_steps _ _ _ _ _ Hp)) as Hr'. split.
  - intros i t Hi. by apply (polls_leader n 0 net conn ss net' i t).
  - intros i j t Hi Hj. destruct (polls_leader n 0 net conn ss net' i t Hr Hp Hi) as (_ & S1 & Hq1 & Hb1).
    destruct (polls_leader n 0 net conn ss net' j t Hr Hp Hj) as (_ & S2 & Hq2 & Hb2).
    exact (backed_unique n net' i j t S1 S2 (reachable_inv _ _ Hr') Hq1 Hq2 Hb1 Hb2).
Qed.

(** The iterations, while the cluster runs on. *)
Inductive poll_runs : Net C → list sample → Prop :=
  | poll_runs_end net : poll_runs net []
  | poll_runs_next net net1 net2 conn ss samples :
      rtc net_step net net1 → polls 0 net1 conn ss net2 → poll_runs net2 samples → poll_runs net (ss :: samples).

(** [checkOneLeader] on a cluster that runs while it is being asked: it never
    finds two leaders of one term.  It returns as soon as an iteration sees a
    leader, with a server that led the highest term seen in that iteration and
    was the only one to do so; it fails only if no iteration saw a leader. *)
Theorem checkOneLeader_sound n net samples :
  reachable n net → poll_runs net samples →
  match checkOneLeader samples with
  | Ret l => ∃ ss (k : nat) t, ss ∈ samples ∧ l = Z.of_nat k ∧ ss !! k = Some (Some (t, true)) ∧
      ∀ i t', ss !! i = Some (Some (t', true)) → t' ≤ t ∧ (t' = t → i = k)
  | Panic p => p = Fatal ∧ ∀ ss i t, ss ∈ samples → ss !! i ≠ Some (Some (t, true))
  | NoFuel => False
  end.
Proof.
  intros Hr Hruns. revert Hr. induction Hruns as [net|net net1 net2 conn ss samples Hst Hp Hruns IH]; intros Hr; simpl.
  { split; [done|]. by intros ss i t ?%not_elem_of_nil. }
  pose proof (reachable_steps _ _ _ Hr Hst) as Hr1.
  pose proof (reachable_steps _ _ _ Hr1 (polls_steps _ _ _ _ _ Hp)) as Hr2.
  destruct (pollLeader_spec ss) as [[-> Hnone]|(l & t & -> & Hl & Hmax)]; [exact (polls_sample_ok n net1 conn ss net2 Hr1 Hp)| |]; simpl.
  - specialize (IH Hr2). destruct (checkOneLeader samples) as [l|p|]; [| |done].
    + destruct IH as (ss' & k & t & Hin & ?). exists ss', k, t. split; [by right|done].
    + destruct IH as [-> Hno]. split; [done|]. intros ss' i t [->|?]%elem_of_cons; [apply Hnone|by apply Hno].
  - exists ss, l, t. split_and!; [by left|done|done|done].
Qed.
End leaders.

(** ** The order of applied messages *)
Section order.
Context {C : Type} `{EqDecision C} `{GobLaws Z} `{GobLaws (list (LogEntry C))} `{GobLaws (list (option C))}.
Context (fmtC : option C → string) (i : Z) (ref : Z → option C).
Implicit Types (cfg : config C) (m : ApplyMsg C).

(** What [applierSnap] expects after it has applied [s]: the next command, or
    a snapshot that is not older. *)
Definition expect1 (s : Z) m : option Z :=
  if SnapshotValid m then if s <=? SnapshotIndex m then Some (SnapshotIndex m) else None
  else if CommandValid m then if s + 1 =? CommandIndex m then Some (s + 1) else None
  else Some s.

(** The messages of [ref]: its commands, and the harness's own snapshots. *)
Definition msg_ok m : Prop :=
  if SnapshotValid m then
    msg_Snapshot m = gob_enc (gob_enc [] (SnapshotIndex m)) (ref <$> seqZ 0 (SnapshotIndex m + 1))
  else msg_Command m = ref (CommandIndex m).

Record tester_ok cfg (s : Z) : Prop := {
  tk_i : 0 ≤ i;
  tk_rafts : (Z.to_nat i < length (rafts cfg))%nat;
  tk_wf rf : rafts cfg !! Z.to_nat i = Some (Some rf) → wf rf;
  tk_last : lastAppl cfg !! Z.to_nat i = Some s;
  tk_nonneg : 0 ≤ s;
  tk_agree j log k v : logs cfg !! j = Some log → log !! k = Some v → v = ref k;
  tk_log : ∃ log, logs cfg !! Z.to_nat i = Some log ∧ ∀ k, 1 ≤ k ≤ s → log !! k = Some (ref k);
}.

Lemma disagreement_none m j ls :
  (∀ l v, l ∈ ls → l !! CommandIndex m = Some v → v = msg_Command m) → disagreement fmtC i m j ls "" = "".
Proof.
  revert j. induction ls as [|l ls IH]; intros j Hall; simpl; [done|].
  destruct (l !! CommandIndex m) as [v|] eqn:Hl.
  - rewrite decide_True by (eapply Hall; [by left|done]). apply IH. intros l' v' ?. apply Hall. by right.
  - apply IH. intros l' v' ?. apply Hall. by right.
Qed.

Lemma indexed_lookup (j k : Z) (xlog : list (option C)) :
  indexed j xlog !! k = if decide (j ≤ k) then xlog !! Z.to_nat (k - j) else None.
Proof.
  revert j. induction xlog as [|x xlog IH]; intros j; simpl.
  { rewrite lookup_empty. by destruct (decide _). }
  destruct (decide (k = j)) as [->|Hne].
  - rewrite lookup_insert_eq, decide_True by lia. by rewrite Z.sub_diag.
  - rewrite lookup_insert_ne, IH by done. destruct (decide (j ≤ k)).
    + rewrite decide_True by lia. by replace (Z.to_nat (k - j)) with (S (Z.to_nat (k - (j + 1)))) by lia.
    + by rewrite decide_False by lia.
Qed.

Lemma ref_log_lookup len k : 0 ≤ k < len → (ref <$> seqZ 0 len) !! Z.to_nat k = Some (ref k).
Proof. intros Hk. rewrite list_lookup_fmap, lookup_seqZ_lt by lia. simpl. f_equal. f_equal. lia. Qed.

Lemma ingest_ref index cfg s :
  tester_ok cfg s → 0 ≤ index →
  ∃ cfg', ingestSnap i (gob_enc (gob_enc [] index) (ref <$> seqZ 0 (index + 1))) index cfg = Ret ("", cfg') ∧ tester_ok cfg' index.
Proof.
  intros [T1 T2 T3 T4 T5 T6 (log & T7 & _)] Hi. unfold ingestSnap.
  assert (gob_dec (gob_enc (gob_enc [] index) (ref <$> seqZ 0 (index + 1))) 0 = Some (index, length (gob_enc [] index))) as ->.
  { apply (gob_dec_enc [] index). apply gob_enc_prefix. }
  rewrite gob_dec_enc_self. rewrite (Z.eqb_refl index), andb_false_r.
  rewrite (go_set_in_range (logs cfg)), bind_Ret by (apply lookup_lt_Some in T7; lia).
  rewrite go_set_in_range, bind_Ret by (apply lookup_lt_Some in T4; lia).
  eexists. split; [done|]. split; simpl; try done.
  - rewrite list_lookup_insert_eq; [done|]. by apply lookup_lt_Some in T4.
  - intros j log' k v. destruct (decide (j = Z.to_nat i)) as [->|Hne].
    + rewrite list_lookup_insert_eq by by apply lookup_lt_Some in T7. intros [= <-]. rewrite indexed_lookup.
      destruct (decide (0 ≤ k)); [|done]. rewrite Z.sub_0_r. intros Hk. pose proof (lookup_lt_Some _ _ _ Hk) as Hlt.
      rewrite length_fmap, length_seqZ in Hlt. rewrite ref_log_lookup in Hk by lia. by injection Hk.
    + rewrite list_lookup_insert_ne by done. apply T6.
  - eexists. rewrite list_lookup_insert_eq by by apply lookup_lt_Some in T7. split; [done|].
    intros k Hk. rewrite indexed_lookup, decide_True by lia. rewrite Z.sub_0_r. apply ref_log_lookup. lia.
Qed.

Lemma checkLogs_ref m cfg s :
  tester_ok cfg s → msg_Command m = ref (CommandIndex m) → CommandIndex m = s + 1 →
  ∃ prevok cfg', checkLogs fmtC i m cfg = Ret ("", prevok, cfg') ∧ ((CommandIndex m >? 1) && negb prevok) = false ∧
    rafts cfg' = rafts cfg ∧ lastAppl cfg' = lastAppl cfg ∧
    (∀ j log k v, logs cfg' !! j = Some log → log !! k = Some v → v = ref k) ∧
    (∃ log, logs cfg' !! Z.to_nat i = Some log ∧ ∀ k, 1 ≤ k ≤ s + 1 → log !! k = Some (ref k)).
Proof.
  intros [T1 T2 T3 T4 T5 T6 (log & T7 & T8)] Hm Hidx. unfold checkLogs.
  rewrite disagreement_none. 2: { intros l v [j Hj]%list_elem_of_lookup Hl. rewrite Hm. by eapply T6. }
  rewrite (proj2 (go_index_Ret _ _ _) (conj T1 T7)), bind_Ret. pose proof (lookup_lt_Some _ _ _ T7) as Hlt.
  rewrite go_set_in_range, bind_Ret by lia. eexists _, _. split; [done|]. simpl. split_and!; [|done|done| |].
  - destruct (CommandIndex m >? 1) eqn:Hgt; [|done]. rewrite bool_decide_eq_true_2; [done|].
    exists (ref (CommandIndex m - 1)). apply T8. zlia.
  - intros j log' k v. destruct (decide (j = Z.to_nat i)) as [->|Hne]; [|rewrite list_lookup_insert_ne by done; apply T6].
    rewrite list_lookup_insert_eq by done. intros [= <-] [[<- <-]|[_ ?]]%lookup_insert_Some; [done|by eapply T6].
  - eexists. rewrite list_lookup_insert_eq by done. split; [done|]. intros k Hk.
    destruct (decide (k = CommandIndex m)) as [->|Hne]; [by rewrite lookup_insert_eq, Hm|].
    rewrite lookup_insert_ne by done. apply T8. lia.
Qed.

Lemma takeSnap_ref cfg s :
  tester_ok cfg s → ∃ cfg', takeSnap i s cfg = Ret cfg' ∧ tester_ok cfg' s.
Proof.
  intros Ht. pose proof Ht as [T1 T2 T3 T4 T5 T6 (log & T7 & T8)]. unfold takeSnap.
  rewrite (proj2 (go_index_Ret _ _ _) (conj T1 T7)), bind_Ret.
  destruct (lookup_lt_is_Some_2 _ _ T2) as [r Hr]. rewrite (proj2 (go_index_Ret _ _ _) (conj T1 Hr)), bind_Ret.
  destruct r as [rf|]; [|by exists cfg].
  destruct (Snapshot_safe rf s (makeSnap log s) (T3 _ Hr)) as (rf' & -> & Hwf).
  { right. split; [apply gob_enc_ne_nil|]. exists (length (gob_enc [] s)). apply (gob_dec_enc [] s). apply gob_enc_prefix. }
  rewrite bind_Ret, go_set_in_range, bind_Ret by lia. eexists. split; [done|]. split; simpl; try done.
  - by rewrite length_insert.
  - intros rf0. rewrite list_lookup_insert_eq by done. by intros [= <-].
  - by exists log.
Qed.

Fixpoint expect (s : Z) (ms : list (ApplyMsg C)) : option Z :=
  match ms with
  | [] => Some s
  | m :: ms => s' ← expect1 s m; expect s' ms
  end.

(** The server as it is when the harness handles the message. *)
Definition with_raft (r : option (Raft C)) cfg : config C := set_rafts (<[Z.to_nat i := r]> (rafts cfg)) cfg.

Fixpoint tester_run (ms : list (ApplyMsg C * option (Raft C))) cfg : outcome (config C) :=
  match ms with
  | [] => Ret cfg
  | (m, r) :: ms => cfg ← applierSnap fmtC i m (with_raft r cfg); tester_run ms cfg
  end.

Lemma with_raft_ok r cfg s : (∀ rf, r = Some rf → wf rf) → tester_ok cfg s → tester_ok (with_raft r cfg) s.
Proof.
  intros Hr [T1 T2 T3 T4 T5 T6 T7]. split; simpl; try done; [by rewrite length_insert|].
  intros rf. rewrite list_lookup_insert_eq by done. intros [= ->]. by apply Hr.
Qed.

Lemma applierSnap_step m cfg s s' :
  tester_ok cfg s → msg_ok m → expect1 s m = Some s' →
  ∃ cfg', applierSnap fmtC i m cfg = Ret cfg' ∧ tester_ok cfg' s'.
Proof.
  intros Ht Hm He. unfold expect1, msg_ok, applierSnap in *. destruct (SnapshotValid m).
  { destruct (s <=? SnapshotIndex m) eqn:Hle; [|done]. injection He as <-. rewrite Hm.
    destruct (ingest_ref (SnapshotIndex m) cfg s Ht) as (cfg' & -> & Hok); [pose proof (tk_nonneg _ _ Ht); zlia|].
    rewrite bind_Ret, decide_True by done. by exists cfg'. }
  destruct (CommandValid m); [|simplify_eq; by exists cfg].
  destruct (s + 1 =? CommandIndex m) eqn:Hidx; [|done]. injection He as <-. apply Z.eqb_eq in Hidx. symmetry in Hidx.
  pose proof Ht as [T1 T2 T3 T4 T5 T6 T7]. rewrite (proj2 (go_index_Ret _ _ _) (conj T1 T4)), bind_Ret.
  destruct (checkLogs_ref m cfg s Ht Hm Hidx) as (prevok & cfg1 & Hc & Hp & Er & Ela & Hag & Hlog).
  rewrite (proj2 (Z.eqb_eq _ _) Hidx). simpl. rewrite Hc, !bind_Ret, Hp. rewrite Hidx.
  pose proof (lookup_lt_Some _ _ _ T4) as Hlt. rewrite Ela, go_set_in_range, bind_Ret by lia.
  assert (tester_ok (set_applied (logs cfg1) (<[Z.to_nat i := s + 1]> (lastAppl cfg)) (maxIndex cfg1) cfg1) (s + 1)) as Hok.
  { split; simpl; rewrite ?Er; try done; [by rewrite list_lookup_insert_eq|lia]. }
  destruct (_ =? 0).
  - destruct (takeSnap_ref _ _ Hok) as (cfg2 & -> & Hok2). rewrite bind_Ret, decide_True by done. by exists cfg2.
  - rewrite bind_Ret, decide_True by done. by eexists.
Qed.

(** C34: The order check is passed by every stream that is in order: commands
    without gaps, snapshots that are not older than what was applied, all of
    one agreed log; the harness then has applied what the stream covers, and
    the snapshots it takes in between never make the server fail. *)
Theorem applierSnap_accepts ms cfg s s' :
  tester_ok cfg s → Forall (λ p, msg_ok p.1 ∧ ∀ rf, p.2 = Some rf → wf rf) ms → expect s ms.*1 = Some s' →
  ∃ cfg', tester_run ms cfg = Ret cfg' ∧ tester_ok cfg' s'.
Proof.
  intros Ht Hall. revert cfg s Ht. induction Hall as [|[m r] ms [Hm Hr] _ IH]; intros cfg s Ht He; simpl in *.
  { injection He as <-. by exists cfg. }
  destruct (expect1 s m) as [s1|] eqn:Hs1; [|done]. simpl in He.
  destruct (applierSnap_step m (with_raft r cfg) s s1) as (cfg1 & -> & Ht1); [by apply with_raft_ok|done|done|].
  rewrite bind_Ret. by eapply IH.
Qed.
End order.

(** ** A stale snapshot *)
Section stale.
Context {C : Type} `{EqDecision C} `{GobLaws Z} `{GobLaws (list (LogEntry C))} `{GobLaws (list (option C))}.
Context (fmtC : option C → string) (i : Z) (ref : Z → option C).
Implicit Types (rf : Raft C) (cfg : config C) (m : ApplyMsg C).

(** A snapshot newer than the server's own is taken, whatever the server has
    applied. *)
Lemma InstallSnapshot_pending rf args rf' reply :
  CurrentTerm rf ≤ is_Term args → lastIncludedIndex rf < is_LastIncludedIndex args →
  InstallSnapshot rf args = Ret (rf', reply) →
  dead rf' = dead rf ∧ committedIndex rf' = committedIndex rf ∧ lastApplied rf' = lastApplied rf ∧
  lastIncludedIndex rf' = is_LastIncludedIndex args ∧ snapshot rf' = is_Data args ∧ applySnappending rf' = true.
Proof.
  intros Ht Hlt Hret. unfold InstallSnapshot in Hret. destruct (_ <? _) eqn:?; [zlia|].
  assert (dead (adoptTerm (is_Term args) rf) = dead rf) as Hdead by (unfold adoptTerm; destruct (_ <? is_Term args); reflexivity).
  destruct (adoptTerm_core (is_Term args) rf) as (_ & _ & HC & _).
  pose proof (adoptTerm_fields (is_Term args) rf) as HI. set (rf1 := adoptTerm (is_Term args) rf) in *. clearbody rf1.
  injection HI as ? ? ? ?. destruct (_ >=? _) eqn:?; [zlia|]. rewrite clone_id in Hret.
  apply bind_Ret_inv in Hret as (b & _ & (rf2 & (L & ->)%doSnapshot_inv & [= <- <-])%bind_Ret_inv).
  by destruct b; split_and!.
Qed.

(** With nothing left to apply [applyLog] sends the pending snapshot. *)
Lemma applyLog_pending rf :
  wf rf → dead rf = false → committedIndex rf ≤ lastApplied rf → applySnappending rf = true →
  ∃ t, applyLog rf = Ret (set_applySnappending false rf,
    Some [mkApplyMsg false None 0 true (snapshot rf) t (lastIncludedIndex rf)]).
Proof.
  intros Hwf Hd Hc Hp. unfold applyLog, killed. rewrite Hd, Hp, andb_false_r. simpl.
  destruct (Logs rf) as [|e l] eqn:HL; [by destruct (wf_logs _ Hwf)|]. exists (Term e).
  rewrite (go_index_lookup _ 0 e) by done. rewrite clone_id, bind_Ret. simpl. by rewrite (proj2 (Z.ltb_ge _ _) Hc).
Qed.

(** Without one it sends the commands after the last applied one. *)
Lemma applyLog_next rf :
  wf rf → dead rf = false → commit_in_range rf → applySnappending rf = false →
  lastIncludedIndex rf ≤ lastApplied rf → lastApplied rf < committedIndex rf →
  ∃ rf' ms, applyLog rf = Ret (rf', Some
    (mkApplyMsg true (entry_at rf (lastApplied rf + 1) ≫= Command) (lastApplied rf + 1) false [] 0 0 :: ms)).
Proof.
  intros Hwf Hd Hr Hp Hle Hlt. pose proof (applyLog_spec rf Hwf Hr Hd) as Hs. cbv zeta in Hs. rewrite Hp in Hs.
  rewrite (proj2 (Z.leb_gt _ _) Hlt), (proj2 (Z.ltb_lt _ _) Hlt), (Z.max_l _ _ Hle) in Hs. simpl in Hs.
  destruct Hs as (_ & ->). destruct (Z.to_nat (committedIndex rf - lastApplied rf)) as [|k] eqn:Hk; [lia|].
  by eexists _, _.
Qed.

Lemma takeSnap_total k cfg s :
  tester_ok i ref cfg s → ∃ cfg', takeSnap i k cfg = Ret cfg'.
Proof.
  intros [T1 T2 T3 T4 T5 T6 (log & T7 & T8)]. unfold takeSnap.
  rewrite (proj2 (go_index_Ret _ _ _) (conj T1 T7)), bind_Ret.
  destruct (lookup_lt_is_Some_2 _ _ T2) as [r Hr]. rewrite (proj2 (go_index_Ret _ _ _) (conj T1 Hr)), bind_Ret.
  destruct r as [rf|]; [|by exists cfg].
  destruct (Snapshot_safe rf k (makeSnap log k) (T3 _ Hr)) as (rf' & -> & Hwf).
  { right. split; [apply gob_enc_ne_nil|]. exists (length (gob_enc [] k)). apply (gob_dec_enc [] k). apply gob_enc_prefix. }
  rewrite bind_Ret, go_set_in_range, bind_Ret by lia. by eexists.
Qed.

(** The tester stops at a command that is not the next one. *)
Lemma applierSnap_gap m cfg s :
  tester_ok i ref cfg s → SnapshotValid m = false → CommandValid m = true → CommandIndex m ≠ s + 1 →
  applierSnap fmtC i m cfg = Panic Fatal.
Proof.
  intros Ht Hs Hc Hne. unfold applierSnap. rewrite Hs, Hc. pose proof Ht as [T1 T2 T3 T4 T5 T6 T7].
  rewrite (proj2 (go_index_Ret _ _ _) (conj T1 T4)), bind_Ret, (proj2 (Z.eqb_neq _ _) Hne). simpl.
  pose proof (lookup_lt_Some _ _ _ T4) as Hlt. rewrite go_set_in_range, bind_Ret by lia.
  destruct (_ =? 0); [|by rewrite bind_Ret].
  set (cfg1 := set_applied _ _ _ cfg). destruct (takeSnap_total (CommandIndex m)
    (set_applied (logs cfg) (lastAppl cfg) (maxIndex cfg) cfg) s) as (cfg2 & Hsnap); [by destruct cfg|].
  assert (∃ cfg3, takeSnap i (CommandIndex m) cfg1 = Ret cfg3) as (cfg3 & ->); [|by rewrite bind_Ret].
  unfold takeSnap in *. simpl in *. destruct (go_index (logs cfg) i); simpl in *; [|done|done].
  destruct (go_index (rafts cfg) i) as [[rf|]| |]; simpl in *; [|by eexists|done|done].
  destruct (Snapshot _ _ rf); simpl in *; [|done|done]. destruct (go_set _ _ _); simpl in *; [by eexists|done|done].
Qed.

(** C35: A flaw: stale snapshots.  A server that has applied everything it knows
    to be committed gets a snapshot that is newer than its own one but older
    than what it has applied.  It takes it all the same and sends it to the
    service, after the commands the snapshot covers.  The services skip it
    ([consume]); the tester's [applierSnap] takes it as its new state, and then
    stops the test at the next command Raft sends it, whenever that is and
    whatever the server's state [rf3] is by then. *)
Theorem stale_snapshot_fatal rf args cfg :
  wf rf → dead rf = false → committedIndex rf ≤ lastApplied rf →
  CurrentTerm rf ≤ is_Term args → is_LastIncludedTerm args ≤ is_Term args →
  lastIncludedIndex rf < is_LastIncludedIndex args < lastApplied rf →
  is_Data args = gob_enc (gob_enc [] (is_LastIncludedIndex args)) (ref <$> seqZ 0 (is_LastIncludedIndex args + 1)) →
  tester_ok i ref cfg (lastApplied rf) →
  ∃ rf1 reply rf2 m cfg',
    InstallSnapshot rf args = Ret (rf1, reply) ∧ applyLog rf1 = Ret (rf2, Some [m]) ∧
    SnapshotValid m = true ∧ SnapshotIndex m = is_LastIncludedIndex args ∧ lastApplied rf2 = lastApplied rf ∧
    consume (lastApplied rf) [m] = Some (lastApplied rf) ∧
    applierSnap fmtC i m cfg = Ret cfg' ∧ tester_ok i ref cfg' (is_LastIncludedIndex args) ∧
    ∀ rf3 r, wf rf3 → dead rf3 = false → commit_in_range rf3 → applySnappending rf3 = false →
      lastApplied rf3 = lastApplied rf2 → lastIncludedIndex rf3 ≤ lastApplied rf3 → lastApplied rf3 < committedIndex rf3 →
      (∀ rf', r = Some rf' → wf rf') →
      ∃ rf4 m' ms, applyLog rf3 = Ret (rf4, Some (m' :: ms)) ∧
        consume (lastApplied rf) [m; m'] = Some (lastApplied rf + 1) ∧
        applierSnap fmtC i m' (with_raft i r cfg') = Panic Fatal.
Proof.
  intros Hwf Hd Hc Ht Hlt [Hnew Hstale] Hdata Hok.
  assert (valid_is args) as Hv.
  { split; [done|]. right. rewrite Hdata. split; [apply gob_enc_ne_nil|]. eexists. apply (gob_dec_enc [] (is_LastIncludedIndex args)).
    apply gob_enc_prefix. }
  destruct (InstallSnapshot_safe rf args Hwf Hv) as (rf1 & reply & Hret & Hwf1).
  destruct (InstallSnapshot_pending _ _ _ _ Ht Hnew Hret) as (Ed & Ec & Ea & Ei & Es & Ep).
  destruct (applyLog_pending rf1 Hwf1) as (t & Happ); [congruence|by rewrite Ec, Ea|done|].
  destruct (ingest_ref i ref (is_LastIncludedIndex args) cfg (lastApplied rf) Hok) as (cfg' & Hing & Hok').
  { pose proof (wf_lii _ Hwf). lia. }
  rewrite Ei, Es, Hdata in Happ. do 5 eexists. split_and!; [exact Hret|exact Happ|done|done|done| | |exact Hok'|].
  - unfold consume, consume1. simpl. by rewrite Z.max_l by lia.
  - unfold applierSnap. simpl. rewrite Hing, bind_Ret. by rewrite decide_True.
  - simpl. rewrite Ea. intros rf3 r Hwf3 Hd3 Hr3 Hp3 Ha3 Hl3 Hc3 Hr. rewrite <-Ha3.
    destruct (applyLog_next rf3 Hwf3 Hd3 Hr3 Hp3 Hl3 Hc3) as (rf4 & ms & ->). do 3 eexists. split_and!; [done| |].
    + unfold consume, consume1. simpl. rewrite Z.max_l by lia. by rewrite Z.eqb_refl.
    + apply (applierSnap_gap _ _ (is_LastIncludedIndex args)); [by apply with_raft_ok|done|done|simpl; lia].
Qed.
End stale.

(** *** A run *)
Section stale_run.
#[local] Instance OptGob : Gob (list (option nat)) := CountableGob (list (option nat)).
#[local] Instance OptGobLaws : GobLaws (list (option nat)) := CountableGobLaws (list (option nat)).

(** One new entry of term 1 after index [p], with all of it committed. *)
Definition one_entry (p : Z) (x : nat) : ApplyEntriesArgs nat :=
  mkApplyEntriesArgs 1 0 p (if p =? 0 then 0 else 1) [mkEntry (Some x) 1] (p + 1).

(** A snapshot of index 1 from a leader that has applied only that. *)
Definition old_snapshot : InstallSnapshotArgs :=
  mkInstallSnapshotArgs 1 0 1 1 (gob_enc (gob_enc [] 1) [None; Some 7%nat]).

Definition after_event (ev : Event nat) (rf : Raft nat) : Raft nat :=
  match step ev rf with Ret rf => rf | _ => rf end.
Definition after_apply (rf : Raft nat) : Raft nat * list (ApplyMsg nat) :=
  match applyLog rf with Ret (rf, Some ms) => (rf, ms) | _ => (rf, []) end.

(** Two commands are applied, then the snapshot of the first arrives, then a
    third command. *)
Definition stale0 : Raft nat := after_event (EvApplyEntries (one_entry 0 7)) fresh2.
Definition stale1 : Raft nat := after_event (EvApplyEntries (one_entry 1 8)) stale0.
Definition stale2 : Raft nat := after_event (EvInstallSnapshot old_snapshot) (after_apply stale1).1.
Definition stale3 : Raft nat := after_event (EvApplyEntries (one_entry 2 9)) (after_apply stale2).1.

Lemma one_entry_valid p x : valid_ae (one_entry p x).
Proof.
  split.
  - intros a b u v Hab Ha Hb. destruct a as [|[|a]], b as [|[|b]]; simplify_eq/=; try lia. destruct (p =? 0); lia.
  - intros u ->%list_elem_of_singleton. done.
Qed.

Lemma step_wf ev (rf rf' : Raft nat) : wf rf → valid_event ev rf → step ev rf = Ret rf' → wf rf'.
Proof. intros Hwf Hv Hs. destruct (step_safe ev rf Hwf Hv) as (rf1 & Hs1 & ?). by rewrite Hs in Hs1; injection Hs1 as ->. Qed.

Lemma applyLog_wf (rf rf' : Raft nat) r : wf rf → commit_in_range rf → applyLog rf = Ret (rf', r) → wf rf'.
Proof. intros Hwf Hr Hs. destruct (applyLog_safe rf Hwf Hr) as (rf1 & r1 & Hs1 & ?). by rewrite Hs in Hs1; injection Hs1 as -> _. Qed.

Lemma old_snapshot_valid : valid_is old_snapshot.
Proof.
  split; [done|]. right. split; [apply gob_enc_ne_nil|]. eexists. apply (gob_dec_enc [] 1). apply gob_enc_prefix.
Qed.

Lemma stale_steps :
  step (EvApplyEntries (one_entry 0 7)) fresh2 = Ret stale0 ∧
  step (EvApplyEntries (one_entry 1 8)) stale0 = Ret stale1 ∧
  step (EvInstallSnapshot old_snapshot) (after_apply stale1).1 = Ret stale2 ∧
  step (EvApplyEntries (one_entry 2 9)) (after_apply stale2).1 = Ret stale3.
Proof. vm_compute. repeat split. Qed.

Lemma stale_applies :
  applyLog stale1 = Ret ((after_apply stale1).1, Some (after_apply stale1).2) ∧
  applyLog stale2 = Ret ((after_apply stale2).1, Some (after_apply stale2).2).
Proof. vm_compute. repeat split. Qed.

Lemma stale_ranges : commit_in_range stale1 ∧ commit_in_range stale2 ∧ commit_in_range stale3.
Proof. vm_compute. repeat split; congruence. Qed.

Lemma stale_wf : wf (after_apply stale1).1 ∧ wf stale3.
Proof.
  destruct stale_steps as (S0 & S1 & S2 & S3), stale_applies as (A1 & A2), stale_ranges as (R1 & R2 & _).
  pose proof (proj1 fresh2_ok) as W.
  pose proof (step_wf (EvApplyEntries (one_entry 0 7)) _ _ W (one_entry_valid 0 7) S0) as W0.
  pose proof (step_wf (EvApplyEntries (one_entry 1 8)) _ _ W0 (one_entry_valid 1 8) S1) as W1.
  pose proof (applyLog_wf _ _ _ W1 R1 A1) as W1'. split; [exact W1'|].
  pose proof (step_wf (EvInstallSnapshot old_snapshot) _ _ W1' old_snapshot_valid S2) as W2.
  pose proof (applyLog_wf _ _ _ W2 R2 A2) as W2'.
  exact (step_wf (EvApplyEntries (one_entry 2 9)) _ _ W2' (one_entry_valid 2 9) S3).
Qed.

Definition tester0 : config nat :=
  mkConfig MakeNetwork 3 (replicate 3 None) (replicate 3 "") (replicate 3 false) (replicate 3 None) (replicate 3 None)
    (replicate 3 ∅) (replicate 3 0) 0.

(** ** Instances *)

Definition two_commands (k : Z) : option nat := if k =? 1 then Some 7%nat else if k =? 2 then Some 8%nat else None.

Lemma tester0_ok : tester_ok 2 two_commands tester0 0.
Proof.
  split; [lia|simpl; lia| |reflexivity|lia| |].
  - intros rf Hrf. vm_compute in Hrf. discriminate.
  - intros j log k v Hj Hk. apply lookup_replicate in Hj as [-> _]. by rewrite lookup_empty in Hk.
  - exists ∅. split; [reflexivity|lia].
Qed.

Definition tester2 : config nat :=
  match tester_run (λ _, "") 2 ((λ m, (m, None)) <$> (after_apply stale1).2) tester0 with Ret cfg => cfg | _ => tester0 end.

Lemma tester2_ok : tester_ok 2 two_commands tester2 2.
Proof.
  assert (logs tester2 = [∅; ∅; {[1 := Some 7%nat; 2 := Some 8%nat]}]) as Hlogs by (vm_compute; reflexivity).
  split; [lia|vm_compute; lia| |vm_compute; reflexivity|lia| |].
  - intros rf Hrf. vm_compute in Hrf. discriminate.
  - rewrite Hlogs. intros [|[|[|j] ] ] log k v; simpl; [intros [= <-]; by rewrite lookup_empty..| |done].
    intros [= <-] [[<- <-]|[_ [<- <-]%lookup_singleton_Some] ]%lookup_insert_Some; reflexivity.
  - eexists. rewrite Hlogs. split; [reflexivity|]. intros k Hk. assert (k = 1 ∨ k = 2) as [->| ->] by lia; reflexivity.
Qed.

(** The third command is fatal. *)
Lemma stale_snapshot_fatal_witness :
  ∃ m m' cfg', SnapshotValid m = true ∧ applierSnap (λ _, "") 2 m tester2 = Ret cfg' ∧
    applierSnap (λ _, "") 2 m' (with_raft 2 None cfg') = Panic Fatal.
Proof.
  destruct stale_wf as [W2 W3].
  destruct (stale_snapshot_fatal (λ _, "") 2 two_commands (after_apply stale1).1 old_snapshot tester2 W2)
    as (rf1 & reply & rf2 & m & cfg' & _ & _ & Hm & _ & Ha & _ & Happ & _ & Hnext).
  - vm_compute. reflexivity.
  - vm_compute. discriminate.
  - vm_compute. discriminate.
  - vm_compute. discriminate.
  - vm_compute. split; reflexivity.
  - vm_compute. reflexivity.
  - assert (lastApplied (after_apply stale1).1 = 2) as -> by (vm_compute; reflexivity). exact tester2_ok.
  - destruct (Hnext stale3 None W3) as (rf4 & m' & ms & _ & _ & Hf).
    + vm_compute. reflexivity.
    + apply stale_ranges.
    + vm_compute. reflexivity.
    + rewrite Ha. vm_compute. reflexivity.
    + vm_compute. discriminate.
    + vm_compute. reflexivity.
    + discriminate.
    + exists m, m', cfg'. split_and!; [exact Hm|exact Happ|exact Hf].
Defined.

Lemma applierSnap_accepts_witness :
  ∃ cfg', tester_run (λ _, "") 2 ((λ m, (m, None)) <$> (after_apply stale1).2) tester0 = Ret cfg' ∧
    tester_ok 2 two_commands cfg' 2.
Proof.
  apply (applierSnap_accepts (λ _, "") 2 two_commands ((λ m, (m, None)) <$> (after_apply stale1).2) tester0 0 2 tester0_ok).
  - vm_compute. repeat constructor; discriminate.
  - vm_compute. reflexivity.
Defined.

Definition poll1 : sample := (λ nd, Some (GetState (raft nd))) <$> nodes cluster1.

Lemma poll1_polls : polls 0 cluster1 [true; true; true] poll1 cluster1.
Proof.
  assert (poll1 = [Some (GetState (raft (node1 0))); Some (GetState (raft (node1 1))); Some (GetState (raft (node1 2)))]) as ->
    by (vm_compute; reflexivity).
  do 3 (eapply polls_ask; [apply rtc_refl|apply node1_lookup; lia|]). apply polls_end.
Qed.

Lemma checkOneLeader_sound_witness :
  checkOneLeader [poll1] = Ret 0 ∧
  ∃ ss (k : nat) t, ss ∈ [poll1] ∧ 0 = Z.of_nat k ∧ ss !! k = Some (Some (t, true)) ∧
    ∀ i t', ss !! i = Some (Some (t', true)) → t' ≤ t ∧ (t' = t → i = k).
Proof.
  assert (checkOneLeader [poll1] = Ret 0) as Hr by (vm_compute; reflexivity). split; [exact Hr|].
  assert (poll_runs cluster1 [poll1]) as Hp.
  { eapply poll_runs_next; [apply rtc_refl|apply poll1_polls|apply poll_runs_end]. }
  pose proof (checkOneLeader_sound 3 cluster1 [poll1] cluster1_reachable Hp) as Hs. rewrite Hr in Hs. exact Hs.
Defined.

Definition two_names (i : Z) : list string := if i =? 0 then ["e00"; "e01"] else ["e10"; "e11"].

Definition two_servers : config nat :=
  match make_config 2 false two_names Z.to_nat with Ret cfg => cfg | _ => tester0 end.
Definition split_servers : config nat :=
  match cfg_run (λ _, "") [OpDisconnect 1] two_servers with Ret cfg => cfg | _ => tester0 end.

Lemma config_links_witness :
  ∃ server, readEndnameInfo (cfg_net split_servers) (inl "e01") =
    (is_connected split_servers 0 && is_connected split_servers 1, Some (inr 1), server,
     reliable (cfg_net split_servers), longReordering (cfg_net split_servers)).
Proof.
  apply (config_links (λ _, "") 2 false two_names Z.to_nat [OpDisconnect 1] two_servers split_servers 0 1 "e01").
  - intros i. unfold two_names. destruct (i =? 0); reflexivity.
  - vm_compute. reflexivity.
  - vm_compute. reflexivity.
  - vm_compute. reflexivity.
Defined.

Example split_links :
  enabled (cfg_net two_servers) !! inl "e01" = Some true ∧ enabled (cfg_net split_servers) !! inl "e01" = Some false.
Proof. vm_compute. by split. Qed.
End stale_run.
