(* ===== verification/Bitset.v ===== *)
(** * The bit sets of the linearizability checker

    src/src/porcupine/bitset.go: a set of operation numbers as a slice of
    64-bit words, and the proof that it implements finite sets of integers. *)

From stdpp Require Import prelude numbers gmap strings list sorting.
From S2P Require Import Prelude.
Local Open Scope Z_scope.

(** Conversion of an [int] to [uint] (64 bits). *)
Definition uint64 (z : Z) : Z := z mod 2 ^ 64.

(** [bits.OnesCount64]. *)
Definition OnesCount64 (v : Z) : Z :=
  foldr (λ i acc, Z.b2z (Z.testbit v i) + acc) 0 (seqZ 0 64).

Abbreviation bitset := (list Z).

Definition newBitset (bits : Z) : bitset :=
  let extra := if bits mod 64 =? 0 then 0 else 1 in
  let chunks := bits / 64 + extra in
  replicate (Z.to_nat chunks) 0.

Definition clone (b : bitset) : bitset := b.

Definition bitsetIndex (pos : Z) : Z * Z := (pos / 64, pos mod 64).

Definition set (b : bitset) (pos : Z) : outcome bitset :=
  let '(major, minor) := bitsetIndex pos in
  w ← go_index b major;
  go_set b major (Z.lor w (uint64 (Z.shiftl 1 minor))).

Definition clear (b : bitset) (pos : Z) : outcome bitset :=
  let '(major, minor) := bitsetIndex pos in
  w ← go_index b major;
  go_set b major (Z.ldiff w (uint64 (Z.shiftl 1 minor))).

Definition get (b : bitset) (pos : Z) : outcome bool :=
  let '(major, minor) := bitsetIndex pos in
  w ← go_index b major;
  Ret (negb (Z.land w (uint64 (Z.shiftl 1 minor)) =? 0)).

Definition popcnt (b : bitset) : Z :=
  uint64 (foldl (λ total v, total + OnesCount64 v) 0 b).

Definition hash (b : bitset) : Z := foldl Z.lxor (popcnt b) b.

Fixpoint equalsLoop (b b2 : bitset) : bool :=
  match b, b2 with
  | v :: b', v2 :: b2' => if v =? v2 then equalsLoop b' b2' else false
  | _, _ => true
  end.

Definition equals (b b2 : bitset) : bool :=
  if zlen b =? zlen b2 then equalsLoop b b2 else false.

(** ** The set a bit set stands for

    [bit b p] is bit [p] of the data; [words b] says that every word fits 64
    bits; [members b] lists the positions that are set. *)
Definition word (b : bitset) (p : Z) : Z := default 0 (b !! Z.to_nat (p / 64)).

Definition bit (b : bitset) (p : Z) : bool := Z.testbit (word b p) (p mod 64).

Definition words (b : bitset) : Prop := Forall (λ w, 0 ≤ w < 2 ^ 64) b.

Definition members (b : bitset) : gset Z :=
  list_to_set (filter (λ p, bit b p = true) (seqZ 0 (64 * zlen b))).

Lemma pow64 : 2 ^ 64 = 18446744073709551616.
Proof. reflexivity. Qed.

Lemma minor_range p : 0 ≤ p mod 64 < 64.
Proof. apply Z.mod_pos_bound. lia. Qed.

Lemma major_range (b : bitset) p : 0 ≤ p < 64 * zlen b → 0 ≤ p / 64 < zlen b.
Proof. intros. split; [apply Z.div_pos; lia|apply Z.div_lt_upper_bound; lia]. Qed.

Lemma bit_mask m : 0 ≤ m < 64 → uint64 (Z.shiftl 1 m) = 2 ^ m.
Proof.
  intros Hm. unfold uint64. rewrite Z.shiftl_1_l. apply Z.mod_small.
  split; [apply Z.pow_nonneg; lia|apply Z.pow_lt_mono_r; lia].
Qed.

Lemma testbit_pow m k : 0 ≤ m → Z.testbit (2 ^ m) k = (k =? m).
Proof. intros. rewrite Z.pow2_bits_eqb by done. apply Z.eqb_sym. Qed.

Lemma major_lookup (b : bitset) p :
  0 ≤ p < 64 * zlen b → b !! Z.to_nat (p / 64) = Some (word b p).
Proof.
  intros Hp%major_range. unfold word. destruct (lookup_lt_is_Some_2 b (Z.to_nat (p / 64))) as [w Hw]; [lia|].
  by rewrite Hw.
Qed.

Lemma major_index (b : bitset) p :
  0 ≤ p < 64 * zlen b → go_index b (p / 64) = Ret (word b p).
Proof.
  intros Hp. apply go_index_Ret. pose proof (major_range _ _ Hp). split; [lia|]. by apply major_lookup.
Qed.

Lemma same_position p q : p mod 64 = q mod 64 → p / 64 = q / 64 → p = q.
Proof. pose proof (Z.div_mod p 64). pose proof (Z.div_mod q 64). lia. Qed.

(** Updating the word of [p] with [f], where [f] acts bit by bit. *)
Lemma update_bit (b : bitset) p (f : Z → Z) (g : bool → bool) :
  0 ≤ p < 64 * zlen b →
  (∀ w k, 0 ≤ k → Z.testbit (f w) k = if k =? p mod 64 then g (Z.testbit w k) else Z.testbit w k) →
  (∀ w, 0 ≤ w < 2 ^ 64 → 0 ≤ f w < 2 ^ 64) →
  let b' := <[Z.to_nat (p / 64) := f (word b p)]> b in
  go_set b (p / 64) (f (word b p)) = Ret b' ∧ length b' = length b ∧
  (words b → words b') ∧ ∀ q, 0 ≤ q → bit b' q = if q =? p then g (bit b p) else bit b q.
Proof.
  intros Hp Hf Hw b'. pose proof (major_range _ _ Hp). pose proof (minor_range p).
  split_and!; [by apply go_set_in_range|apply length_insert| |].
  - intros Hb. apply Forall_insert; [done|]. apply Hw.
    unfold words in Hb. rewrite Forall_lookup in Hb. eapply Hb, major_lookup, Hp.
  - intros q Hq. unfold bit, word, b'. destruct (decide (p / 64 = q / 64)) as [He|Hne].
    + rewrite <-He, (list_lookup_insert_eq b) by lia. simpl default. rewrite Hf by apply minor_range.
      destruct (Z.eqb_spec (q mod 64) (p mod 64)) as [Hm|Hm], (Z.eqb_spec q p) as [->|Hqp]; try done.
      destruct Hqp. by apply same_position.
    + pose proof (Z.div_pos q 64). rewrite (list_lookup_insert_ne b) by lia.
      destruct (Z.eqb_spec q p) as [->|]; done.
Qed.

Lemma word_bits_bound w : 0 ≤ w → (∀ k, 64 ≤ k → Z.testbit w k = false) → w < 2 ^ 64.
Proof.
  intros Hw Hk. destruct (decide (w = 0)) as [->|]; [lia|].
  apply Z.log2_lt_pow2; [lia|]. apply Z.nle_gt. intros Hle.
  specialize (Hk _ Hle). rewrite Z.bit_log2 in Hk by lia. done.
Qed.

Lemma word_high_bits w k : 0 ≤ w < 2 ^ 64 → 64 ≤ k → Z.testbit w k = false.
Proof.
  intros Hw Hk. destruct (decide (w = 0)) as [->|]; [apply Z.bits_0|].
  apply Z.bits_above_log2; [lia|]. enough (Z.log2 w < 64) by lia. apply Z.log2_lt_pow2; lia.
Qed.

(** *** What each operation does to the bits *)

Lemma set_spec (b : bitset) p :
  0 ≤ p < 64 * zlen b →
  ∃ b', set b p = Ret b' ∧ length b' = length b ∧ (words b → words b') ∧
    ∀ q, 0 ≤ q → bit b' q = if q =? p then true else bit b q.
Proof.
  intros Hp. unfold set, bitsetIndex. rewrite major_index, bind_Ret by done.
  pose proof (minor_range p). rewrite bit_mask by done.
  destruct (update_bit b p (λ w, Z.lor w (2 ^ (p mod 64))) (λ _, true) Hp) as (? & ? & ? & ?); [| |eauto].
  - intros w k Hk. rewrite Z.lor_spec, testbit_pow by lia.
    destruct (k =? _); by rewrite ?orb_true_r, ?orb_false_r.
  - intros w Hw. assert (0 ≤ Z.lor w (2 ^ (p mod 64))) by (apply Z.lor_nonneg; split; [|apply Z.pow_nonneg]; lia).
    split; [done|]. apply word_bits_bound; [done|]. intros k Hk.
    rewrite Z.lor_spec, testbit_pow, word_high_bits by lia. simpl. lia.
Qed.

Lemma clear_spec (b : bitset) p :
  0 ≤ p < 64 * zlen b →
  ∃ b', clear b p = Ret b' ∧ length b' = length b ∧ (words b → words b') ∧
    ∀ q, 0 ≤ q → bit b' q = if q =? p then false else bit b q.
Proof.
  intros Hp. unfold clear, bitsetIndex. rewrite major_index, bind_Ret by done.
  pose proof (minor_range p). rewrite bit_mask by done.
  destruct (update_bit b p (λ w, Z.ldiff w (2 ^ (p mod 64))) (λ _, false) Hp) as (? & ? & ? & ?); [| |eauto].
  - intros w k Hk. rewrite Z.ldiff_spec, testbit_pow by lia.
    destruct (k =? _); simpl; by rewrite ?andb_true_r, ?andb_false_r.
  - intros w Hw. assert (0 ≤ Z.ldiff w (2 ^ (p mod 64))) by (apply Z.ldiff_nonneg; lia).
    split; [done|]. apply word_bits_bound; [done|]. intros k Hk.
    by rewrite Z.ldiff_spec, (word_high_bits w) by lia.
Qed.

Lemma get_spec (b : bitset) p : 0 ≤ p < 64 * zlen b → get b p = Ret (bit b p).
Proof.
  intros Hp. unfold get, bitsetIndex. rewrite major_index, bind_Ret by done.
  pose proof (minor_range p). rewrite bit_mask by done. unfold bit. f_equal.
  set (w := word b p). destruct (Z.testbit w (p mod 64)) eqn:Hb.
  - apply negb_true_iff, Z.eqb_neq. intros Hz. apply (f_equal (λ v, Z.testbit v (p mod 64))) in Hz.
    rewrite Z.land_spec, Hb, testbit_pow, Z.eqb_refl, Z.bits_0 in Hz by lia. done.
  - apply negb_false_iff, Z.eqb_eq, Z.bits_inj'. intros k Hk.
    rewrite Z.land_spec, testbit_pow, Z.bits_0 by lia.
    destruct (Z.eqb_spec k (p mod 64)) as [->|]; by rewrite ?Hb, ?andb_false_r.
Qed.

Lemma bit_new n p : bit (newBitset n) p = false.
Proof.
  unfold bit, word, newBitset. cbv zeta. destruct (replicate _ _ !! _) as [w|] eqn:Hw; [|apply Z.bits_0].
  apply lookup_replicate in Hw as [-> _]. apply Z.bits_0.
Qed.

Lemma words_new n : words (newBitset n).
Proof. apply Forall_replicate. rewrite pow64. lia. Qed.

Lemma length_new n : 0 ≤ n → n ≤ 64 * zlen (newBitset n) < n + 64.
Proof.
  intros Hn. unfold newBitset. rewrite length_replicate. cbv zeta.
  pose proof (Z.div_mod n 64). pose proof (minor_range n). pose proof (Z.div_pos n 64).
  destruct (n mod 64 =? 0) eqn:?; zlia.
Qed.

Lemma equalsLoop_eq b b2 : length b = length b2 → equalsLoop b b2 = true ↔ b = b2.
Proof.
  revert b2. induction b as [|v b IH]; intros [|v2 b2] Hl; simplify_eq/=; [done|].
  destruct (Z.eqb_spec v v2) as [->|Hne]; [|naive_solver]. rewrite IH by done. naive_solver.
Qed.

Lemma equals_eq b b2 : equals b b2 = true ↔ b = b2.
Proof.
  unfold equals. destruct (Z.eqb_spec (zlen b) (zlen b2)) as [Hl|Hl].
  - apply equalsLoop_eq. lia.
  - split; [done|]. by intros ->.
Qed.

(** Two bit sets of one size are equal when their bits are. *)
Lemma bits_ext b b2 :
  words b → words b2 → length b = length b2 →
  (∀ p, 0 ≤ p < 64 * zlen b → bit b p = bit b2 p) → b = b2.
Proof.
  intros Hw Hw2 Hl Hbits. apply list_eq_same_length with (length b); [done..|].
  intros i w w2 Hi Hlw Hlw2. unfold words in *. rewrite Forall_lookup in Hw, Hw2.
  pose proof (Hw _ _ Hlw). pose proof (Hw2 _ _ Hlw2). apply Z.bits_inj'. intros k Hk.
  destruct (decide (k < 64)); [|by rewrite !word_high_bits by lia].
  specialize (Hbits (64 * Z.of_nat i + k)). unfold bit, word in Hbits.
  replace ((64 * Z.of_nat i + k) / 64) with (Z.of_nat i) in Hbits by (apply Z.div_unique with k; lia).
  replace ((64 * Z.of_nat i + k) mod 64) with k in Hbits by (apply Z.mod_unique with (Z.of_nat i); lia).
  rewrite Nat2Z.id in Hbits. rewrite Hlw, Hlw2 in Hbits. apply Hbits. lia.
Qed.

Lemma elem_of_members b p : p ∈ members b ↔ 0 ≤ p < 64 * zlen b ∧ bit b p = true.
Proof.
  unfold members. rewrite elem_of_list_to_set, list_elem_of_filter, elem_of_seqZ. naive_solver lia.
Qed.

(** *** Counting *)

Lemma bit_cons_low w b p : 0 ≤ p < 64 → bit (w :: b) p = Z.testbit w p.
Proof. intros. unfold bit, word. by rewrite Z.div_small, Z.mod_small. Qed.

Lemma bit_cons_high w b p : 0 ≤ p → bit (w :: b) (64 + p) = bit b p.
Proof.
  intros Hp. unfold bit, word. replace (64 + p) with (p + 1 * 64) by lia.
  rewrite Z.div_add, Z.mod_add, Z2Nat.inj_add by (try lia; apply Z.div_pos; lia).
  by rewrite Nat.add_comm.
Qed.

Lemma count_filter (f : Z → bool) (l : list Z) :
  foldr (λ i acc, Z.b2z (f i) + acc) 0 l = zlen (filter (λ p, f p = true) l).
Proof.
  induction l as [|i l IH]; [done|]. rewrite filter_cons. simpl. rewrite IH.
  destruct (f i); simpl; lia.
Qed.

Lemma length_bits b :
  zlen (filter (λ p, bit b p = true) (seqZ 0 (64 * zlen b))) = foldr (λ v acc, OnesCount64 v + acc) 0 b.
Proof.
  induction b as [|w b IH]; [done|]. simpl foldr. rewrite <-IH.
  replace (64 * zlen (w :: b)) with (64 + 64 * zlen b) by (simpl; lia).
  rewrite seqZ_app, filter_app, length_app, Nat2Z.inj_add by lia. f_equal.
  - unfold OnesCount64. rewrite count_filter.
    rewrite (filter_ext_in (λ p, bit (w :: b) p = true) (λ p, Z.testbit w p = true)); [reflexivity|].
    intros p Hp%elem_of_seqZ. by rewrite bit_cons_low by lia.
  - replace (0 + 64) with (64 + 0) by lia.
    rewrite <-(fmap_add_seqZ 64 0), filter_of_fmap, length_fmap.
    rewrite (filter_ext_in ((λ p, bit (w :: b) p = true) ∘ Z.add 64) (λ p, bit b p = true)); [reflexivity|].
    intros p Hp%elem_of_seqZ. unfold compose. by rewrite bit_cons_high by lia.
Qed.

Lemma foldl_total (b : bitset) t :
  foldl (λ total v, total + OnesCount64 v) t b = t + foldr (λ v acc, OnesCount64 v + acc) 0 b.
Proof. revert t. induction b as [|w b IH]; intros t; simpl; [lia|]. rewrite IH. lia. Qed.

Lemma popcnt_size b : 64 * zlen b < 2 ^ 64 → popcnt b = Z.of_nat (size (members b)).
Proof.
  intros Hl. unfold popcnt, members. rewrite foldl_total, <-length_bits, size_list_to_set.
  - apply Z.mod_small. rewrite pow64 in *.
    pose proof (length_filter (λ p, bit b p = true) (seqZ 0 (64 * zlen b))) as Hf.
    rewrite length_seqZ in Hf. lia.
  - apply NoDup_filter, NoDup_seqZ.
Qed.

(** *** The set operations *)

Lemma members_update b b' p v :
  0 ≤ p < 64 * zlen b → length b' = length b →
  (∀ q, 0 ≤ q → bit b' q = if q =? p then v else bit b q) →
  members b' = if v : bool then {[p]} ∪ members b else members b ∖ {[p]}.
Proof.
  intros Hp Hl Hbit. apply set_eq. intros q. rewrite elem_of_members, Hl.
  destruct v; rewrite ?elem_of_union, ?elem_of_difference, elem_of_singleton, elem_of_members;
    (destruct (decide (0 ≤ q)); [rewrite Hbit by done; destruct (Z.eqb_spec q p) as [->|]; intuition congruence|]);
    intuition (subst; lia).
Qed.

Lemma index_panics (b : bitset) p : 64 * zlen b ≤ p → go_index b (p / 64) = Panic IndexOutOfRange.
Proof.
  intros Hp. unfold go_index. destruct (Z.ltb_spec (p / 64) (zlen b)) as [Hlt|]; [|by rewrite andb_false_r].
  pose proof (Z.div_mod p 64). pose proof (minor_range p). lia.
Qed.

Lemma members_inj b b2 :
  words b → words b2 → length b = length b2 → members b = members b2 → b = b2.
Proof.
  intros Hw Hw2 Hl Hm. apply bits_ext; [done..|]. intros p Hp. apply eq_bool_prop_intro.
  rewrite !Is_true_true. pose proof (elem_of_members b p) as H1. pose proof (elem_of_members b2 p) as H2.
  rewrite Hm in H1. rewrite Hl in *. tauto.
Qed.

(** A bit set of [n] positions implements finite sets of the
    numbers below its capacity: it starts empty; [set], [clear] and [get] are
    insertion, removal and membership, and panic beyond the capacity;
    [popcnt] is the number of elements; [equals] holds exactly for equal
    sets. *)
Theorem bitset_implements_sets n :
  0 ≤ n →
  (words (newBitset n) ∧ n ≤ 64 * zlen (newBitset n) < n + 64 ∧ members (newBitset n) = ∅) ∧
  ∀ b, words b → 64 * zlen b < 2 ^ 64 →
    (∀ p, 0 ≤ p < 64 * zlen b →
       (∃ b', set b p = Ret b' ∧ words b' ∧ length b' = length b ∧ members b' = {[p]} ∪ members b) ∧
       (∃ b', clear b p = Ret b' ∧ words b' ∧ length b' = length b ∧ members b' = members b ∖ {[p]}) ∧
       get b p = Ret (bool_decide (p ∈ members b))) ∧
    (∀ p, 64 * zlen b ≤ p → set b p = Panic IndexOutOfRange ∧ clear b p = Panic IndexOutOfRange ∧
       get b p = Panic IndexOutOfRange) ∧
    popcnt b = Z.of_nat (size (members b)) ∧
    (∀ b2, words b2 → length b2 = length b → equals b b2 = bool_decide (members b = members b2)).
Proof.
  intros Hn. split; [split_and!; [apply words_new|by apply length_new..|]|].
  { apply set_eq. intros p. rewrite elem_of_members, bit_new. set_solver. }
  intros b Hw Hcap. split_and!.
  - intros p Hp. split_and!.
    + destruct (set_spec b p Hp) as (b' & -> & Hl & Hw' & Hbit). exists b'.
      split_and!; [done|by apply Hw'|done|by apply (members_update b b' p true)].
    + destruct (clear_spec b p Hp) as (b' & -> & Hl & Hw' & Hbit). exists b'.
      split_and!; [done|by apply Hw'|done|by apply (members_update b b' p false)].
    + rewrite get_spec by done. f_equal. apply eq_bool_prop_intro.
      rewrite Is_true_true, bool_decide_spec, elem_of_members. tauto.
  - intros p Hp. unfold set, clear, get, bitsetIndex. by rewrite index_panics.
  - by apply popcnt_size.
  - intros b2 Hw2 Hl. apply eq_bool_prop_intro. rewrite Is_true_true, equals_eq, bool_decide_spec.
    split; [by intros ->|]. by apply members_inj.
Qed.

Lemma bitset_implements_sets_witness :
  popcnt (newBitset 70) = Z.of_nat (size (members (newBitset 70))) ∧ members (newBitset 70) = ∅.
Proof.
  destruct (bitset_implements_sets 70) as [(Hw & _ & Hm) Hall]; [lia|].
  destruct (Hall (newBitset 70) Hw) as (_ & _ & Hp & _); [vm_compute; reflexivity|].
  split; [exact Hp|exact Hm].
Defined.

Example bitset_two_words :
  (b ← set (newBitset 70) 3; b ← set b 69; b ← clear b 3; Ret (b, popcnt b)) = Ret ([0; 32], 1).
Proof. reflexivity. Qed.
