(* ===== verification/Porcupine.v ===== *)
(** * The linearizability checker

    src/src/porcupine: model.go, checker.go and porcupine.go.  A history is a
    list of operations with call and return times (or of call and return
    events).  [checkSingle] turns it into a doubly linked list of call and
    return entries and searches for a linearization by taking calls out of the
    list ([lift]) and putting them back ([unlift]); [checkParallel] searches
    the parts of a history in goroutines that share a kill flag.

    The nodes live in an explicit heap: a pointer is [None] for [nil] or the
    position of its node.  An [interface{}] that holds a call's input or a
    return's output is a sum; handing [Step] the wrong one is a failed type
    assertion.  The pointers [*[]int] of [longest] are positions in a store of
    sequences.  [sort.Sort], the order of [range] over a map, and [%v] are
    arguments. *)

From stdpp Require Import prelude gmap strings list.
From S2P Require Import Prelude Bitset.
Local Open Scope Z_scope.

(** ** model.go *)

Record Operation (X Y : Type) := mkOperation {
  ClientId : Z;
  Input : X;
  Call : Z;
  Output : Y;
  Return : Z;
}.
Arguments mkOperation {X Y}.
Arguments ClientId {X Y}.
Arguments Input {X Y}.
Arguments Call {X Y}.
Arguments Output {X Y}.
Arguments Return {X Y}.

Inductive EventKind := CallEvent | ReturnEvent.
#[export] Instance EventKind_eq_dec : EqDecision EventKind.
Proof. solve_decision. Defined.

Record Event (X Y : Type) := mkEvent {
  ev_ClientId : Z;
  ev_Kind : EventKind;
  ev_Value : X + Y;
  ev_Id : Z;
}.
Arguments mkEvent {X Y}.
Arguments ev_ClientId {X Y}.
Arguments ev_Kind {X Y}.
Arguments ev_Value {X Y}.
Arguments ev_Id {X Y}.

(** A [Model]; the function fields that may be [nil] are options. *)
Record Model (X Y St : Type) := mkModel {
  Partition : option (list (Operation X Y) → list (list (Operation X Y)));
  PartitionEvent : option (list (Event X Y) → list (list (Event X Y)));
  Init : St;
  Step : St → X → Y → bool * St;
  Equal : option (St → St → bool);
  DescribeOperation : option (X → Y → string);
  DescribeState : option (St → string);
}.
Arguments mkModel {X Y St}.
Arguments Partition {X Y St}.
Arguments PartitionEvent {X Y St}.
Arguments Init {X Y St}.
Arguments Step {X Y St}.
Arguments Equal {X Y St}.
Arguments DescribeOperation {X Y St}.
Arguments DescribeState {X Y St}.

Definition NoPartition {X Y} (history : list (Operation X Y)) : list (list (Operation X Y)) := [history].

Definition NoPartitionEvent {X Y} (history : list (Event X Y)) : list (list (Event X Y)) := [history].

Definition ShallowEqual {St} `{EqDecision St} (state1 state2 : St) : bool := bool_decide (state1 = state2).

Definition DefaultDescribeOperation {X Y} (fmtX : X → string) (fmtY : Y → string) (input : X) (output : Y) : string :=
  fmtX input +:+ " -> " +:+ fmtY output.

Definition DefaultDescribeState {St} (fmtS : St → string) (state : St) : string := fmtS state.

Inductive CheckResult := Unknown | Ok | Illegal.
#[export] Instance CheckResult_eq_dec : EqDecision CheckResult.
Proof. solve_decision. Defined.

(** ** checker.go: entries *)

Inductive entryKind := callEntry | returnEntry.
#[export] Instance entryKind_eq_dec : EqDecision entryKind.
Proof. solve_decision. Defined.

Record entry (X Y : Type) := mkEntry {
  kind : entryKind;
  value : X + Y;
  id : Z;
  time : Z;
  clientId : Z;
}.
Arguments mkEntry {X Y}.
Arguments kind {X Y}.
Arguments value {X Y}.
Arguments id {X Y}.
Arguments time {X Y}.
Arguments clientId {X Y}.

Record linearizationInfo (X Y : Type) := mkInfo {
  history : list (list (entry X Y));
  partialLinearizations : list (list (list Z));
}.
Arguments mkInfo {X Y}.
Arguments history {X Y}.
Arguments partialLinearizations {X Y}.

Section entries.
Context {X Y : Type}.

Definition Less (a b : entry X Y) : bool :=
  if negb (time a =? time b) then time a <? time b
  else bool_decide (kind a = callEntry) && bool_decide (kind b = returnEntry).

Fixpoint entriesFrom (i : Z) (history : list (Operation X Y)) : list (entry X Y) :=
  match history with
  | [] => []
  | elem :: history' =>
      mkEntry callEntry (inl (Input elem)) i (Call elem) (ClientId elem) ::
      mkEntry returnEntry (inr (Output elem)) i (Return elem) (ClientId elem) ::
      entriesFrom (i + 1) history'
  end.

Definition makeEntries (sortByTime : list (entry X Y) → list (entry X Y)) (history : list (Operation X Y))
    : list (entry X Y) :=
  sortByTime (entriesFrom 0 history).

Fixpoint renumberLoop (events : list (Event X Y)) (m : gmap Z Z) (i : Z) : list (Event X Y) :=
  match events with
  | [] => []
  | v :: events' =>
      match m !! ev_Id v with
      | Some r => mkEvent (ev_ClientId v) (ev_Kind v) (ev_Value v) r :: renumberLoop events' m i
      | None =>
          mkEvent (ev_ClientId v) (ev_Kind v) (ev_Value v) i ::
          renumberLoop events' (<[ev_Id v := i]> m) (i + 1)
      end
  end.

Definition renumber (events : list (Event X Y)) : list (Event X Y) := renumberLoop events ∅ 0.

Definition convertEntries (events : list (Event X Y)) : list (entry X Y) :=
  imap (λ i elem,
    mkEntry (match ev_Kind elem with ReturnEvent => returnEntry | CallEvent => callEntry end)
      (ev_Value elem) (ev_Id elem) (Z.of_nat i) (ev_ClientId elem)) events.
End entries.

(** ** checker.go: the linked list of entries *)

Abbreviation loc := nat.

Record node (X Y : Type) := mkNode {
  n_value : option (X + Y);
  n_match : option loc;
  n_id : Z;
  n_next : option loc;
  n_prev : option loc;
}.
Arguments mkNode {X Y}.
Arguments n_value {X Y}.
Arguments n_match {X Y}.
Arguments n_id {X Y}.
Arguments n_next {X Y}.
Arguments n_prev {X Y}.

Section nodes.
Context {X Y : Type}.

Abbreviation heap := (list (node X Y)).

Definition set_next (p : option loc) (n : node X Y) : node X Y :=
  mkNode (n_value n) (n_match n) (n_id n) p (n_prev n).

Definition set_prev (p : option loc) (n : node X Y) : node X Y :=
  mkNode (n_value n) (n_match n) (n_id n) (n_next n) p.

(** [*p] and [p.f = v]. *)
Definition load (h : heap) (p : option loc) : outcome (node X Y) :=
  match p with
  | None => Panic NilDereference
  | Some l => match h !! l with Some n => Ret n | None => Panic NilDereference end
  end.

Definition store (h : heap) (p : option loc) (f : node X Y → node X Y) : outcome heap :=
  match p with
  | None => Panic NilDereference
  | Some l => match h !! l with Some n => Ret (<[l := f n]> h) | None => Panic NilDereference end
  end.

Definition insertBefore (h : heap) (n : option loc) (mark : option loc) : outcome heap :=
  match mark with
  | None => Ret h
  | Some _ =>
      m ← load h mark;
      let beforeMark := n_prev m in
      h ← store h mark (set_prev n);
      h ← store h n (set_next mark);
      match beforeMark with
      | None => Ret h
      | Some _ =>
          h ← store h n (set_prev beforeMark);
          store h beforeMark (set_next n)
      end
  end.

Fixpoint lengthLoop (fuel : nat) (h : heap) (n : option loc) (l : Z) : outcome Z :=
  match fuel with
  | O => NoFuel
  | S fuel' =>
      match n with
      | None => Ret l
      | Some _ => nd ← load h n; lengthLoop fuel' h (n_next nd) (l + 1)
      end
  end.

Definition node_length (h : heap) (n : option loc) : outcome Z := lengthLoop (S (length h)) h n 0.

(** The loop of [makeLinkedEntries]; it runs from the last entry to the
    first. *)
Fixpoint linkLoop (entries : list (entry X Y)) (h : heap) (root : option loc) (mtch : gmap Z loc)
    : outcome (heap * option loc) :=
  match entries with
  | [] => Ret (h, root)
  | elem :: entries' =>
      let n := length h in
      match kind elem with
      | returnEntry =>
          let h := h ++ [mkNode (Some (value elem)) None (id elem) None None] in
          let mtch := <[id elem := n]> mtch in
          h ← insertBefore h (Some n) root;
          linkLoop entries' h (Some n) mtch
      | callEntry =>
          let h := h ++ [mkNode (Some (value elem)) (mtch !! id elem) (id elem) None None] in
          h ← insertBefore h (Some n) root;
          linkLoop entries' h (Some n) mtch
      end
  end.

Definition makeLinkedEntries (entries : list (entry X Y)) : outcome (heap * option loc) :=
  linkLoop (reverse entries) [] None ∅.

Definition lift (h : heap) (e : option loc) : outcome heap :=
  nd ← load h e;
  h ← store h (n_prev nd) (set_next (n_next nd));
  nd ← load h e;
  h ← store h (n_next nd) (set_prev (n_prev nd));
  nd ← load h e;
  let mtch := n_match nd in
  md ← load h mtch;
  h ← store h (n_prev md) (set_next (n_next md));
  md ← load h mtch;
  match n_next md with
  | None => Ret h
  | Some _ => store h (n_next md) (set_prev (n_prev md))
  end.

Definition unlift (h : heap) (e : option loc) : outcome heap :=
  nd ← load h e;
  let mtch := n_match nd in
  md ← load h mtch;
  h ← store h (n_prev md) (set_next mtch);
  md ← load h mtch;
  h ← match n_next md with
      | None => Ret h
      | Some _ => store h (n_next md) (set_prev mtch)
      end;
  nd ← load h e;
  h ← store h (n_prev nd) (set_next e);
  nd ← load h e;
  store h (n_next nd) (set_prev e).
End nodes.

(** ** checker.go: the search *)

Record cacheEntry (St : Type) := mkCacheEntry {
  linearized : bitset;
  cstate : St;
}.
Arguments mkCacheEntry {St}.
Arguments linearized {St}.
Arguments cstate {St}.

Record callsEntry (St : Type) := mkCallsEntry {
  ce_entry : option loc;
  ce_state : St;
}.
Arguments mkCallsEntry {St}.
Arguments ce_entry {St}.
Arguments ce_state {St}.

(** The variables of the loop of [checkSingle]. *)
Record search (X Y St : Type) := mkSearch {
  s_heap : list (node X Y);
  s_entry : option loc;
  s_state : St;
  s_linearized : bitset;
  s_cache : gmap Z (list (cacheEntry St));
  s_calls : list (callsEntry St);
  s_longest : list (option nat);
  s_seqs : list (list Z);
}.
Arguments mkSearch {X Y St}.
Arguments s_heap {X Y St}.
Arguments s_entry {X Y St}.
Arguments s_state {X Y St}.
Arguments s_linearized {X Y St}.
Arguments s_cache {X Y St}.
Arguments s_calls {X Y St}.
Arguments s_longest {X Y St}.
Arguments s_seqs {X Y St}.

(** What [checkSingle] returns: the verdict, and [longest] with the store its
    pointers point into. *)
Definition single_result : Type := bool * (list (option nat) * list (list Z)).

Section search.
Context {X Y St : Type} (model : Model X Y St).

Definition callEqual (a b : St) : outcome bool :=
  match Equal model with
  | Some eq => Ret (eq a b)
  | None => Panic NilDereference
  end.

Fixpoint containsLoop (elems : list (cacheEntry St)) (e : cacheEntry St) : outcome bool :=
  match elems with
  | [] => Ret false
  | elem :: elems' =>
      if equals (linearized e) (linearized elem) then
        eq ← callEqual (cstate e) (cstate elem);
        if eq : bool then Ret true else containsLoop elems' e
      else containsLoop elems' e
  end.

Definition cacheContains (cache : gmap Z (list (cacheEntry St))) (e : cacheEntry St) : outcome bool :=
  containsLoop (default [] (cache !! hash (linearized e))) e.

(** [model.Step(state, entry.value, matching.value)] *)
Definition callStep (st : St) (v w : option (X + Y)) : outcome (bool * St) :=
  match v, w with
  | Some (inl input), Some (inr output) => Ret (Step model st input output)
  | _, _ => Panic TypeAssertion
  end.

Fixpoint callIds (h : list (node X Y)) (calls : list (callsEntry St)) : outcome (list Z) :=
  match calls with
  | [] => Ret []
  | v :: calls' =>
      nd ← load h (ce_entry v);
      ids ← callIds h calls';
      Ret (n_id nd :: ids)
  end.

(** [longest[k] == nil || callsLen > len( *longest[k])] *)
Definition improves (seqs : list (list Z)) (callsLen : Z) (cur : option nat) : bool :=
  match cur with
  | None => true
  | Some p => match seqs !! p with Some seq => zlen seq <? callsLen | None => false end
  end.

(** The loop that updates [longest]; [seq] is the pointer to the sequence
    made in this turn, once it exists. *)
Fixpoint longestLoop (h : list (node X Y)) (ids : list Z) (calls : list (callsEntry St))
    (longest : list (option nat)) (seqs : list (list Z)) (seq : option nat)
    : outcome (list (option nat) * list (list Z)) :=
  match calls with
  | [] => Ret (longest, seqs)
  | v :: calls' =>
      nd ← load h (ce_entry v);
      cur ← go_index longest (n_id nd);
      if improves seqs (zlen ids) cur then
        let '(seqs, p) := match seq with Some p => (seqs, p) | None => (seqs ++ [ids], length seqs) end in
        longest ← go_set longest (n_id nd) (Some p);
        longestLoop h ids calls' longest seqs (Some p)
      else longestLoop h ids calls' longest seqs seq
  end.

Definition updateLongest (computePartial : bool) (s : search X Y St)
    : outcome (list (option nat) * list (list Z)) :=
  if computePartial then
    ids ← callIds (s_heap s) (s_calls s);
    longestLoop (s_heap s) ids (s_calls s) (s_longest s) (s_seqs s) None
  else Ret (s_longest s, s_seqs s).

(** The branch for a call entry. *)
Definition tryCall (head : option loc) (s : search X Y St) (nd : node X Y) : outcome (search X Y St) :=
  matching ← load (s_heap s) (n_match nd);
  r ← callStep (s_state s) (n_value nd) (n_value matching);
  let '(ok, newState) := r : bool * St in
  let skip := mkSearch (s_heap s) (n_next nd) (s_state s) (s_linearized s) (s_cache s) (s_calls s)
    (s_longest s) (s_seqs s) in
  if ok then
    newLinearized ← set (clone (s_linearized s)) (uint64 (n_id nd));
    let newCacheEntry := mkCacheEntry newLinearized newState in
    hit ← cacheContains (s_cache s) newCacheEntry;
    if negb hit then
      let hsh := hash newLinearized in
      let cache := <[hsh := default [] (s_cache s !! hsh) ++ [newCacheEntry]]> (s_cache s) in
      let calls := s_calls s ++ [mkCallsEntry (s_entry s) (s_state s)] in
      linearized ← set (s_linearized s) (uint64 (n_id nd));
      h ← lift (s_heap s) (s_entry s);
      hd ← load h head;
      Ret (mkSearch h (n_next hd) newState linearized cache calls (s_longest s) (s_seqs s))
    else Ret skip
  else Ret skip.

(** The branch for a return entry when there is a call to take back. *)
Definition backtrack (computePartial : bool) (s : search X Y St) : outcome (search X Y St) :=
  lg ← updateLongest computePartial s;
  callsTop ← go_index (s_calls s) (zlen (s_calls s) - 1);
  nd ← load (s_heap s) (ce_entry callsTop);
  linearized ← clear (s_linearized s) (uint64 (n_id nd));
  calls ← go_slice_to (s_calls s) (zlen (s_calls s) - 1);
  h ← unlift (s_heap s) (ce_entry callsTop);
  nd ← load h (ce_entry callsTop);
  Ret (mkSearch h (n_next nd) (ce_state callsTop) linearized (s_cache s) calls lg.1 lg.2).

(** After the loop: the complete linearization. *)
Definition finishSearch (n : Z) (s : search X Y St) : outcome single_result :=
  seq ← callIds (s_heap s) (s_calls s);
  longest ← go_fill (Z.to_nat n) (s_longest s) (Some (length (s_seqs s)));
  Ret (true, (longest, s_seqs s ++ [seq])).

(** One turn of the loop: the new variables, or the result. *)
Definition turn (computePartial : bool) (n : Z) (head : option loc) (kill : bool) (s : search X Y St)
    : outcome (search X Y St + single_result) :=
  hd ← load (s_heap s) head;
  match n_next hd with
  | None => r ← finishSearch n s; Ret (inr r)
  | Some _ =>
      if kill then Ret (inr (false, (s_longest s, s_seqs s)))
      else
        nd ← load (s_heap s) (s_entry s);
        match n_match nd with
        | Some _ => s' ← tryCall head s nd; Ret (inl s')
        | None =>
            if zlen (s_calls s) =? 0 then Ret (inr (false, (s_longest s, s_seqs s)))
            else s' ← backtrack computePartial s; Ret (inl s')
        end
  end.

(** The code before the loop. *)
Definition startSearch (history : list (entry X Y)) : outcome (Z * option loc * search X Y St) :=
  r ← makeLinkedEntries history;
  let '(h, e) := r : list (node X Y) * option loc in
  len ← node_length h e;
  let n := Z.quot len 2 in
  let lin := newBitset (uint64 n) in
  let longest := replicate (Z.to_nat n) None in
  let head := Some (length h) in
  h ← insertBefore (h ++ [mkNode None None (-1) None None]) head e;
  Ret (n, head, mkSearch h e (Init model) lin ∅ [] longest []).

(** The loop; [kill k] is what the load of the kill flag sees in turn [k]. *)
Fixpoint checkLoop (fuel : nat) (computePartial : bool) (n : Z) (head : option loc) (kill : nat → bool)
    (k : nat) (s : search X Y St) : outcome single_result :=
  match fuel with
  | O => NoFuel
  | S fuel' =>
      r ← turn computePartial n head (kill k) s;
      match r with
      | inl s' => checkLoop fuel' computePartial n head kill (S k) s'
      | inr res => Ret res
      end
  end.

Definition checkSingle (fuel : nat) (history : list (entry X Y)) (computePartial : bool) (kill : nat → bool)
    : outcome single_result :=
  r ← startSearch history;
  let '(n, head, s) := r : Z * option loc * search X Y St in
  checkLoop fuel computePartial n head kill 0 s.
End search.

(** [fillDefault]; [fmtX], [fmtY] and [fmtS] are the [%v] of inputs, outputs
    and states. *)
Definition fillDefault {X Y St} `{EqDecision St} (fmtX : X → string) (fmtY : Y → string) (fmtS : St → string)
    (model : Model X Y St) : Model X Y St :=
  mkModel
    (match Partition model with Some f => Some f | None => Some NoPartition end)
    (match PartitionEvent model with Some f => Some f | None => Some NoPartitionEvent end)
    (Init model) (Step model)
    (match Equal model with Some f => Some f | None => Some ShallowEqual end)
    (match DescribeOperation model with Some f => Some f | None => Some (DefaultDescribeOperation fmtX fmtY) end)
    (match DescribeState model with Some f => Some f | None => Some (DefaultDescribeState fmtS) end).

(** ** checker.go: the goroutines of [checkParallel] *)

Inductive goroutine (X Y St : Type) :=
  | Starting (subhistory : list (entry X Y))
  | Running (n : Z) (head : option loc) (s : search X Y St)
  | Finished.
Arguments Starting {X Y St}.
Arguments Running {X Y St}.
Arguments Finished {X Y St}.

(** Where the caller is: in its [select] loop, after [break loop], returned,
    or gone with a panic of one of the goroutines. *)
Inductive phase (X Y : Type) :=
  | Selecting
  | Leaving
  | Returned (result : CheckResult) (info : linearizationInfo X Y)
  | Crashed (p : panic).
Arguments Selecting {X Y}.
Arguments Leaving {X Y}.
Arguments Returned {X Y}.
Arguments Crashed {X Y}.

Record par (X Y St : Type) := mkPar {
  p_gos : list (goroutine X Y St);
  p_results : list bool;
  p_longest : list (list (option nat) * list (list Z));
  p_kill : bool;
  p_count : Z;
  p_ok : bool;
  p_timedOut : bool;
  p_phase : phase X Y;
}.
Arguments mkPar {X Y St}.
Arguments p_gos {X Y St}.
Arguments p_results {X Y St}.
Arguments p_longest {X Y St}.
Arguments p_kill {X Y St}.
Arguments p_count {X Y St}.
Arguments p_ok {X Y St}.
Arguments p_timedOut {X Y St}.
Arguments p_phase {X Y St}.

(** Who moves: a goroutine (one turn of its loop), the caller receiving a
    result, the timeout, the caller building its answer. *)
Inductive event := Turn (i : nat) | Receive | TimerFires | Answer.

Section parallel.
Context {X Y St : Type} (model : Model X Y St) (rangeSet : gset nat → list nat).

Definition set_go (i : nat) (g : goroutine X Y St) (c : par X Y St) : par X Y St :=
  mkPar (<[i := g]> (p_gos c)) (p_results c) (p_longest c) (p_kill c) (p_count c) (p_ok c) (p_timedOut c) (p_phase c).

Definition set_phase (ph : phase X Y) (c : par X Y St) : par X Y St :=
  mkPar (p_gos c) (p_results c) (p_longest c) (p_kill c) (p_count c) (p_ok c) (p_timedOut c) ph.

(** [longest[i] = l; results <- ok] and the end of the goroutine. *)
Definition sendResult (i : nat) (res : single_result) (c : par X Y St) : par X Y St :=
  mkPar (<[i := Finished]> (p_gos c)) (p_results c ++ [res.1]) (<[i := res.2]> (p_longest c))
    (p_kill c) (p_count c) (p_ok c) (p_timedOut c) (p_phase c).

Definition goStep (computeInfo : bool) (i : nat) (c : par X Y St) : option (par X Y St) :=
  match p_gos c !! i with
  | Some (Starting sub) =>
      match startSearch model sub with
      | Ret (n, head, s) => Some (set_go i (Running n head s) c)
      | Panic p => Some (set_phase (Crashed p) c)
      | NoFuel => None
      end
  | Some (Running n head s) =>
      match turn model computeInfo n head (p_kill c) s with
      | Ret (inl s') => Some (set_go i (Running n head s') c)
      | Ret (inr res) => Some (sendResult i res c)
      | Panic p => Some (set_phase (Crashed p) c)
      | NoFuel => None
      end
  | _ => None
  end.

(** [case result := <-results] of the [select]. *)
Definition receiveResult (len : Z) (computeInfo : bool) (result : bool) (rest : list bool) (c : par X Y St)
    : par X Y St :=
  let count := p_count c + 1 in
  let ok := p_ok c && result in
  if negb ok && negb computeInfo then
    mkPar (p_gos c) rest (p_longest c) true count ok (p_timedOut c) Leaving
  else
    mkPar (p_gos c) rest (p_longest c) (p_kill c) count ok (p_timedOut c)
      (if len <=? count then Leaving else Selecting).

(** The distinct sequences [longest] points to. *)
Definition partialsOf (lg : list (option nat) * list (list Z)) : list (list Z) :=
  omap (λ k, lg.2 !! k) (rangeSet (list_to_set (omap (λ v, v) lg.1))).

Definition resultOf (ok timedOut : bool) : CheckResult :=
  if negb ok then Illegal else if timedOut then Unknown else Ok.

Definition answer (history : list (list (entry X Y))) (computeInfo : bool) (c : par X Y St) : phase X Y :=
  let info := if computeInfo then mkInfo history (partialsOf <$> p_longest c) else mkInfo [] [] in
  Returned (resultOf (p_ok c) (p_timedOut c)) info.

Definition parStep (history : list (list (entry X Y))) (computeInfo : bool) (timeout : Z) (ev : event)
    (c : par X Y St) : option (par X Y St) :=
  match p_phase c, ev with
  | Crashed _, _ => None
  | _, Turn i => goStep computeInfo i c
  | Selecting, Receive =>
      match p_results c with
      | result :: rest => Some (receiveResult (zlen history) computeInfo result rest c)
      | [] => None
      end
  | Selecting, TimerFires =>
      if 0 <? timeout then
        Some (mkPar (p_gos c) (p_results c) (p_longest c) true (p_count c) (p_ok c) true Leaving)
      else None
  | Leaving, Receive =>
      match p_results c with
      | _ :: rest =>
          if computeInfo && (p_count c <? zlen history) then
            Some (mkPar (p_gos c) rest (p_longest c) (p_kill c) (p_count c + 1) (p_ok c) (p_timedOut c) Leaving)
          else None
      | [] => None
      end
  | Leaving, Answer =>
      if computeInfo && (p_count c <? zlen history) then None
      else Some (set_phase (answer history computeInfo c) c)
  | _, _ => None
  end.

Definition startParallel (history : list (list (entry X Y))) : par X Y St :=
  mkPar (Starting <$> history) [] (replicate (length history) ([], [])) false 0 true false Selecting.

(** A schedule; a step that is not possible is skipped. *)
Definition runParallel (history : list (list (entry X Y))) (computeInfo : bool) (timeout : Z)
    (sched : list event) (c : par X Y St) : par X Y St :=
  foldl (λ c ev, default c (parStep history computeInfo timeout ev c)) c sched.

Definition checkParallel (history : list (list (entry X Y))) (computeInfo : bool) (timeout : Z)
    (sched : list event) : outcome (CheckResult * linearizationInfo X Y) :=
  match p_phase (runParallel history computeInfo timeout sched (startParallel history)) with
  | Returned r info => Ret (r, info)
  | Crashed p => Panic p
  | _ => NoFuel
  end.
End parallel.

(** ** The entry points: checker.go and porcupine.go *)
Section check.
Context {X Y St : Type} `{EqDecision St}.
Context (fmtX : X → string) (fmtY : Y → string) (fmtS : St → string).
Context (sortByTime : list (entry X Y) → list (entry X Y)) (rangeSet : gset nat → list nat).
Implicit Types (model : Model X Y St) (sched : list event).

Definition callNil {A} (f : option A) : outcome A :=
  match f with Some g => Ret g | None => Panic NilDereference end.

Definition checkEvents model (history : list (Event X Y)) (verbose : bool) (timeout : Z) sched
    : outcome (CheckResult * linearizationInfo X Y) :=
  let model := fillDefault fmtX fmtY fmtS model in
  partition ← callNil (PartitionEvent model);
  let l := (λ subhistory, convertEntries (renumber subhistory)) <$> partition history in
  checkParallel model rangeSet l verbose timeout sched.

Definition checkOperations model (history : list (Operation X Y)) (verbose : bool) (timeout : Z) sched
    : outcome (CheckResult * linearizationInfo X Y) :=
  let model := fillDefault fmtX fmtY fmtS model in
  partition ← callNil (Partition model);
  let l := makeEntries sortByTime <$> partition history in
  checkParallel model rangeSet l verbose timeout sched.

Definition CheckOperations model history sched : outcome bool :=
  r ← checkOperations model history false 0 sched;
  Ret (bool_decide (r.1 = Ok)).

Definition CheckOperationsTimeout model history timeout sched : outcome CheckResult :=
  r ← checkOperations model history false timeout sched;
  Ret r.1.

Definition CheckOperationsVerbose model history timeout sched : outcome (CheckResult * linearizationInfo X Y) :=
  checkOperations model history true timeout sched.

Definition CheckEvents model history sched : outcome bool :=
  r ← checkEvents model history false 0 sched;
  Ret (bool_decide (r.1 = Ok)).

Definition CheckEventsTimeout model history timeout sched : outcome CheckResult :=
  r ← checkEvents model history false timeout sched;
  Ret r.1.

Definition CheckEventsVerbose model history timeout sched : outcome (CheckResult * linearizationInfo X Y) :=
  checkEvents model history true timeout sched.
End check.
