(* ===== verification/PorcupineList.v ===== *)
(** * The linked list of the linearizability checker

    [chain h p L]: from the node [p], the nodes [L] are doubly linked in the
    heap [h].  [makeLinkedEntries] builds the chain of the entries; [lift]
    takes a call and its return out of a chain, and [unlift] afterwards gives
    back exactly the same heap. *)

From stdpp Require Import prelude gmap strings list.
From S2P Require Import Prelude Bitset Porcupine.
Local Open Scope Z_scope.

Section chains.
Context {X Y : Type}.
Implicit Types (h : list (node X Y)) (l p q r e : loc) (L A B C : list loc).

Definition next h l : option loc := h !! l ≫= n_next.

Definition prev h l : option loc := h !! l ≫= n_prev.

(** What [lift] and [unlift] leave alone. *)
Definition content h l : option (option (X + Y) * option loc * Z) :=
  (λ n, (n_value n, n_match n, n_id n)) <$> h !! l.

Fixpoint chain h p L : Prop :=
  match L with
  | [] => is_Some (h !! p) ∧ next h p = None
  | l :: L' => next h p = Some l ∧ prev h l = Some p ∧ chain h l L'
  end.

(** The node before the ones that follow [A]. *)
Definition pred p A : loc := default p (last A).

Definition unlink h p (x : option loc) : list (node X Y) :=
  let h1 := alter (set_next x) p h in
  match x with None => h1 | Some q => alter (set_prev (Some p)) q h1 end.

Definition relink h p l (x : option loc) : list (node X Y) :=
  let h1 := alter (set_next (Some l)) p h in
  match x with None => h1 | Some q => alter (set_prev (Some l)) q h1 end.

Lemma store_alter h l f n : h !! l = Some n → store h (Some l) f = Ret (alter f l h).
Proof.
  intros Hl. unfold store. rewrite Hl. f_equal. apply list_eq. intros i.
  destruct (decide (i = l)) as [->|Hne].
  - rewrite list_lookup_insert_eq by (by eapply lookup_lt_Some). by rewrite list_lookup_alter_eq, Hl.
  - by rewrite list_lookup_insert_ne, list_lookup_alter_ne by done.
Qed.

Lemma load_Some h l n : h !! l = Some n → load h (Some l) = Ret n.
Proof. intros Hl. unfold load. by rewrite Hl. Qed.

Lemma next_alter_next h l i x : is_Some (h !! l) →
  next (alter (set_next x) l h) i = if decide (i = l) then x else next h i.
Proof.
  intros [n Hn]. unfold next. case_decide as Hi; [subst|by rewrite list_lookup_alter_ne].
  by rewrite list_lookup_alter_eq, Hn.
Qed.

Lemma next_alter_prev h l i x : next (alter (set_prev x) l h) i = next h i.
Proof.
  unfold next. destruct (decide (i = l)) as [->|]; [|by rewrite list_lookup_alter_ne].
  rewrite list_lookup_alter_eq. by destruct (h !! l).
Qed.

Lemma prev_alter_prev h l i x : is_Some (h !! l) →
  prev (alter (set_prev x) l h) i = if decide (i = l) then x else prev h i.
Proof.
  intros [n Hn]. unfold prev. case_decide as Hi; [subst|by rewrite list_lookup_alter_ne].
  by rewrite list_lookup_alter_eq, Hn.
Qed.

Lemma prev_alter_next h l i x : prev (alter (set_next x) l h) i = prev h i.
Proof.
  unfold prev. destruct (decide (i = l)) as [->|]; [|by rewrite list_lookup_alter_ne].
  rewrite list_lookup_alter_eq. by destruct (h !! l).
Qed.

Lemma alter_is_Some h l i f : is_Some (alter f l h !! i) ↔ is_Some (h !! i).
Proof. by rewrite !lookup_lt_is_Some, length_alter. Qed.

Lemma content_alter h l i f :
  (∀ n, n_value (f n) = n_value n ∧ n_match (f n) = n_match n ∧ n_id (f n) = n_id n) →
  content (alter f l h) i = content h i.
Proof.
  intros Hf. unfold content. destruct (decide (i = l)) as [->|]; [|by rewrite list_lookup_alter_ne].
  rewrite list_lookup_alter_eq. destruct (h !! l) as [n|]; simpl; [|done].
  by destruct (Hf n) as (-> & -> & ->).
Qed.

Lemma content_unlink h p x i : content (unlink h p x) i = content h i.
Proof. unfold unlink. destruct x; by rewrite ?content_alter. Qed.

Lemma length_unlink h p x : length (unlink h p x) = length h.
Proof. unfold unlink. destruct x; by rewrite ?length_alter. Qed.

Lemma next_is_Some h l x : next h l = Some x → is_Some (h !! l).
Proof. unfold next. destruct (h !! l); [eauto|done]. Qed.

Lemma prev_is_Some h l x : prev h l = Some x → is_Some (h !! l).
Proof. unfold prev. destruct (h !! l); [eauto|done]. Qed.

Lemma chain_is_Some h p L l : chain h p L → l ∈ p :: L → is_Some (h !! l).
Proof.
  revert p. induction L as [|x L IH]; intros p; simpl.
  - intros [? _] ->%list_elem_of_singleton. done.
  - intros (Hn & Hp & Hc) [->|Hin]%elem_of_cons; [by eapply next_is_Some|by eapply IH].
Qed.

Lemma chain_frame h h' p L :
  (∀ x, x ∈ p :: L → next h' x = next h x) → (∀ x, x ∈ L → prev h' x = prev h x) →
  length h' = length h → chain h p L → chain h' p L.
Proof.
  intros Hn Hp Hl. revert p Hn Hp. induction L as [|x L IH]; intros p Hn Hp; simpl.
  - rewrite Hn by constructor. by rewrite !lookup_lt_is_Some, Hl.
  - intros (H1 & H2 & H3). rewrite Hn, Hp by constructor. split_and!; [done..|].
    apply IH; [| |done]; intros y Hy; [apply Hn|apply Hp]; by right.
Qed.

Lemma pred_cons p x A : pred p (x :: A) = pred x A.
Proof. unfold pred. rewrite last_cons. by destruct (last A). Qed.

Lemma pred_in p A : pred p A ∈ p :: A.
Proof.
  unfold pred. destruct (last A) as [x|] eqn:Hl; simpl; [|by left].
  right. by apply last_Some_elem_of.
Qed.

Lemma chain_app h p A B : chain h p (A ++ B) → chain h (pred p A) B.
Proof.
  revert p. induction A as [|x A IH]; intros p; [done|]. simpl. intros (_ & _ & Hc).
  rewrite pred_cons. by apply IH.
Qed.

Lemma chain_head h p L : chain h p L → next h p = head L.
Proof. destruct L; simpl; tauto. Qed.

Lemma chain_at h p A l B :
  chain h p (A ++ l :: B) →
  ∃ n, h !! l = Some n ∧ n_next n = head B ∧ n_prev n = Some (pred p A) ∧ next h (pred p A) = Some l.
Proof.
  intros Hc%chain_app. simpl in Hc. destruct Hc as (Hn & Hp & Hc%chain_head).
  unfold prev, next in *. destruct (h !! l) as [n|] eqn:Hl; simplify_eq/=. eauto.
Qed.

(** Unlinking a node takes it out of the chain. *)
Lemma chain_unlink h p A l B :
  NoDup (p :: A ++ l :: B) → chain h p (A ++ l :: B) → chain (unlink h (pred p A) (head B)) p (A ++ B).
Proof.
  revert p. induction A as [|x A IH]; intros p Hnd; simpl.
  - intros (Hn & Hp & Hc). apply NoDup_cons in Hnd as [Hpl [HlB HB]%NoDup_cons].
    pose proof (next_is_Some _ _ _ Hn) as Hsp. unfold pred. simpl.
    destruct B as [|b B]; simpl in *.
    + rewrite alter_is_Some, next_alter_next by done. by rewrite decide_True.
    + destruct Hc as (_ & Hb & Hc). pose proof (prev_is_Some _ _ _ Hb) as Hsb.
      apply NoDup_cons in HB as [HbB _]. rewrite next_alter_prev, next_alter_next by done. rewrite decide_True by done.
      rewrite prev_alter_prev by (by rewrite alter_is_Some). rewrite decide_True by done. split_and!; [done..|].
      revert Hc. apply chain_frame; [| |by rewrite !length_alter].
      * intros y Hy. rewrite next_alter_prev, next_alter_next by done.
        rewrite decide_False by (intros ->; apply Hpl; by right). done.
      * intros y Hy. rewrite prev_alter_prev by (by rewrite alter_is_Some).
        rewrite decide_False by (by intros ->). by rewrite prev_alter_next.
  - intros (Hn & Hp & Hc). rewrite pred_cons. apply NoDup_cons in Hnd as [Hpx HndA].
    assert (pred x A ≠ p) as Hne.
    { intros Heq. apply Hpx. pose proof (pred_in x A) as Hin. rewrite Heq in Hin.
      apply elem_of_cons in Hin as [->|Hin]; [by left|right]. apply elem_of_app. by left. }
    assert (∀ b, head B = Some b → b ≠ x ∧ b ≠ p ∧ is_Some (h !! b)) as HB.
    { intros b Hb. destruct B as [|b' B]; simplify_eq/=. split_and!.
      - intros ->. apply NoDup_cons in HndA as [Hx _]. apply Hx. apply elem_of_app. right. right. by left.
      - intros ->. apply Hpx. right. apply elem_of_app. right. right. by left.
      - eapply chain_is_Some; [exact Hc|]. right. apply elem_of_app. right. right. by left. }
    assert (is_Some (h !! pred x A)) as Hsp.
    { eapply chain_is_Some; [exact Hc|]. pose proof (pred_in x A) as [->|Hin]%elem_of_cons; [by left|].
      right. apply elem_of_app. by left. }
    split_and!; [| |by apply IH].
    + unfold unlink. cbv zeta. destruct (head B); rewrite ?next_alter_prev, next_alter_next by done;
        by rewrite decide_False.
    + unfold unlink. cbv zeta. destruct (head B) as [b|]; [|by rewrite prev_alter_next].
      destruct (HB b eq_refl) as (? & ? & ?).
      rewrite prev_alter_prev by (by rewrite alter_is_Some). rewrite decide_False by done. by rewrite prev_alter_next.
Qed.

(** Linking it again gives back the heap. *)
Lemma relink_unlink h p A l B :
  NoDup (p :: A ++ l :: B) → chain h p (A ++ l :: B) →
  relink (unlink h (pred p A) (head B)) (pred p A) l (head B) = h.
Proof.
  intros Hnd Hc. destruct (chain_at _ _ _ _ _ Hc) as (n & Hl & Hn & Hp & Hq).
  apply chain_app in Hc. simpl in Hc. destruct Hc as (_ & _ & Hc).
  assert (∀ b, head B = Some b → b ≠ pred p A ∧ prev h b = Some l) as HB.
  { intros b Hb. destruct B as [|b' B]; simplify_eq/=. split; [|tauto]. intros ->.
    pose proof (pred_in p A) as Hin. rewrite app_comm_cons in Hnd. apply NoDup_app in Hnd as (_ & Hd & _).
    apply (Hd _ Hin). right. by left. }
  set (q := pred p A) in *. unfold next in Hq. destruct (h !! q) as [m|] eqn:Hhq; [|done]. simpl in Hq.
  assert (set_next (Some l) (set_next (head B) m) = m) as Hm by (destruct m; simplify_eq/=; done).
  apply list_eq. intros i. unfold relink, unlink. cbv zeta. destruct (head B) as [b|].
  - destruct (HB b eq_refl) as [Hbq Hbp]. unfold prev in Hbp.
    destruct (h !! b) as [m'|] eqn:Hhb; [|done]. simpl in Hbp.
    destruct (decide (i = b)) as [->|Hib].
    + rewrite list_lookup_alter_eq, list_lookup_alter_ne, list_lookup_alter_eq, list_lookup_alter_ne, Hhb by done.
      simpl. destruct m'; simplify_eq/=. done.
    + rewrite (list_lookup_alter_ne _ _ b i) by done. destruct (decide (i = q)) as [->|Hiq].
      * rewrite list_lookup_alter_eq, list_lookup_alter_ne, list_lookup_alter_eq, Hhq by done. simpl. by rewrite Hm.
      * by rewrite !list_lookup_alter_ne by done.
  - destruct (decide (i = q)) as [->|Hiq].
    + rewrite !list_lookup_alter_eq, Hhq. simpl. by rewrite Hm.
    + by rewrite !list_lookup_alter_ne by done.
Qed.

Lemma unlink_lookup_ne h p x i : i ≠ p → x ≠ Some i → unlink h p x !! i = h !! i.
Proof.
  intros Hp Hx. unfold unlink. cbv zeta. destruct x as [q|]; [|by apply list_lookup_alter_ne].
  by rewrite !list_lookup_alter_ne by congruence.
Qed.

Lemma neighbours_ne p A l B : NoDup (p :: A ++ l :: B) → l ≠ pred p A ∧ head B ≠ Some l.
Proof.
  rewrite app_comm_cons. intros (_ & Hd & [Hl _]%NoDup_cons)%NoDup_app. split.
  - intros ->. apply (Hd _ (pred_in p A)). by left.
  - intros Hh. apply Hl. destruct B; simplify_eq/=. by left.
Qed.

(** The two stores that unlink or link a node whose neighbours are [p] and
    [x]. *)
Lemma two_stores h p l x y z n :
  h !! l = Some n → l ≠ p → is_Some (h !! p) → (∀ q, x = Some q → is_Some (h !! q)) →
  ∃ ha, store h (Some p) (set_next y) = Ret ha ∧ ha !! l = Some n ∧
    (match x with None => Ret ha | Some _ => store ha x (set_prev z) end) =
    Ret (let h1 := alter (set_next y) p h in
         match x with None => h1 | Some q => alter (set_prev z) q h1 end).
Proof.
  intros Hl Hne [np Hnp] Hq. exists (alter (set_next y) p h).
  rewrite (store_alter h p _ np) by done. rewrite list_lookup_alter_ne by done. split_and!; [done..|].
  destruct x as [q|]; [|done].
  destruct (proj2 (alter_is_Some h p q (set_next y)) (Hq q eq_refl)) as [nq Hnq].
  by rewrite (store_alter _ q _ nq).
Qed.

Lemma chain_neighbours h p A l B :
  chain h p (A ++ l :: B) → is_Some (h !! pred p A) ∧ (∀ q, head B = Some q → is_Some (h !! q)).
Proof.
  intros Hc. split; [by destruct (chain_at _ _ _ _ _ Hc) as (? & _ & _ & _ & ?%next_is_Some)|].
  intros q Hq. eapply chain_is_Some; [exact Hc|]. right. apply elem_of_app. right. right.
  destruct B; simplify_eq/=. by left.
Qed.

Lemma head_after B r C : ∃ q, head (B ++ r :: C) = Some q.
Proof. destruct B; simpl; eauto. Qed.

(** A pair of nodes of a chain: what is left when the first is unlinked. *)
Lemma NoDup_unlinked p A e B : NoDup (p :: A ++ e :: B) → NoDup (p :: A ++ B).
Proof.
  rewrite !app_comm_cons. intros (? & Hd & [_ ?]%NoDup_cons)%NoDup_app.
  apply NoDup_app. split_and!; [done| |done]. intros x Hx Hx'. apply (Hd x Hx). by right.
Qed.

Section lifting.
Context h p A e B r C (n : node X Y).
Hypothesis (Hnd : NoDup (p :: A ++ e :: B ++ r :: C)).
Hypothesis (Hc : chain h p (A ++ e :: B ++ r :: C)).
Hypothesis (He : h !! e = Some n) (Hm : n_match n = Some r).

Definition lifted1 : list (node X Y) := unlink h (pred p A) (head (B ++ r :: C)).

Definition lifted2 : list (node X Y) := unlink lifted1 (pred p (A ++ B)) (head C).

Lemma node_e : n_next n = head (B ++ r :: C) ∧ n_prev n = Some (pred p A).
Proof. destruct (chain_at _ _ _ _ _ Hc) as (n' & He' & ? & ? & _). by simplify_eq. Qed.

Lemma lifted1_e : lifted1 !! e = Some n.
Proof. destruct (neighbours_ne _ _ _ _ Hnd). unfold lifted1. by rewrite unlink_lookup_ne. Qed.

Lemma lifted1_chain : chain lifted1 p ((A ++ B) ++ r :: C) ∧ NoDup (p :: (A ++ B) ++ r :: C).
Proof.
  rewrite <-app_assoc. split; [by apply (chain_unlink _ _ _ e)|by apply (NoDup_unlinked p A e)].
Qed.

Lemma node_r : ∃ nr, lifted1 !! r = Some nr ∧ lifted2 !! r = Some nr ∧
  n_next nr = head C ∧ n_prev nr = Some (pred p (A ++ B)).
Proof.
  destruct lifted1_chain as [Hc1 Hnd1]. destruct (chain_at _ _ _ _ _ Hc1) as (nr & Hr & ? & ? & _).
  destruct (neighbours_ne _ _ _ _ Hnd1). exists nr. unfold lifted2. by rewrite unlink_lookup_ne.
Qed.

Lemma lift_unlinks : lift h (Some e) = Ret lifted2.
Proof.
  destruct node_e as [Hn Hp]. destruct (neighbours_ne _ _ _ _ Hnd) as [Hne _].
  destruct (chain_neighbours _ _ _ _ _ Hc) as [Hsp Hsq]. destruct (head_after B r C) as [q Hq].
  destruct (two_stores h _ e (head (B ++ r :: C)) (head (B ++ r :: C)) (Some (pred p A)) n He Hne Hsp Hsq)
    as (ha & Hst & Hae & Hst').
  assert (store ha (head (B ++ r :: C)) (set_prev (Some (pred p A))) = Ret lifted1) as Hst2.
  { revert Hst'. unfold lifted1, unlink. by rewrite Hq. }
  unfold lift. rewrite (load_Some _ _ _ He). simpl. rewrite Hn, Hp, Hst. simpl. rewrite Hae. simpl.
  rewrite Hn, Hp, Hst2. simpl. rewrite lifted1_e. simpl. rewrite Hm.
  destruct node_r as (nr & Hr & _ & Hrn & Hrp). simpl. rewrite Hr. simpl.
  destruct lifted1_chain as [Hc1 Hnd1]. destruct (neighbours_ne _ _ _ _ Hnd1) as [Hner _].
  destruct (chain_neighbours _ _ _ _ _ Hc1) as [Hsp1 Hsq1].
  destruct (two_stores lifted1 _ r (head C) (head C) (Some (pred p (A ++ B))) nr Hr Hner Hsp1 Hsq1)
    as (hb & Hst1 & Hbr & Hst1').
  rewrite Hrn, Hrp, Hst1. simpl. rewrite Hbr. simpl. rewrite Hrn, Hrp. exact Hst1'.
Qed.

Lemma unlift_links : unlift lifted2 (Some e) = Ret h.
Proof.
  destruct lifted1_chain as [Hc1 Hnd1]. destruct (neighbours_ne _ _ _ _ Hnd1) as [Hner _].
  destruct node_r as (nr & _ & Hr2 & Hrn & Hrp).
  assert (∀ l, is_Some (lifted1 !! l) → is_Some (lifted2 !! l)) as Hdom.
  { intros l. unfold lifted2. by rewrite !lookup_lt_is_Some, length_unlink. }
  destruct (chain_neighbours _ _ _ _ _ Hc1) as [Hsp1 Hsq1].
  destruct (two_stores lifted2 _ r (head C) (Some r) (Some r) nr Hr2 Hner (Hdom _ Hsp1) (λ q Hq, Hdom _ (Hsq1 q Hq)))
    as (hb & Hst1 & Hbr & Hst1').
  assert (∃ n2, lifted2 !! e = Some n2 ∧ n_match n2 = Some r) as (n2 & He2 & Hm2).
  { assert (content lifted2 e = content h e) as Hct by (unfold lifted2, lifted1; by rewrite !content_unlink).
    unfold content in Hct. rewrite He in Hct. destruct (lifted2 !! e) as [n2|]; simplify_eq/=. exists n2. split; congruence. }
  unfold unlift. rewrite (load_Some _ _ _ He2). simpl. rewrite Hm2. simpl. rewrite Hr2. simpl.
  rewrite Hrp, Hst1. simpl. rewrite Hbr. simpl. rewrite Hrn, Hst1'.
  pose proof (relink_unlink _ _ _ _ _ Hnd1 Hc1) as Hrl. unfold relink in Hrl. fold lifted2 in Hrl.
  cbv zeta in Hrl |- *. rewrite Hrl. simpl.
  rewrite lifted1_e. simpl. destruct node_e as [Hn Hp]. destruct (neighbours_ne _ _ _ _ Hnd) as [Hne _].
  destruct (chain_neighbours _ _ _ _ _ Hc) as [Hsp Hsq].
  assert (∀ l, is_Some (h !! l) → is_Some (lifted1 !! l)) as Hdom1.
  { intros l. unfold lifted1. by rewrite !lookup_lt_is_Some, length_unlink. }
  destruct (two_stores lifted1 _ e (head (B ++ r :: C)) (Some e) (Some e) n lifted1_e Hne (Hdom1 _ Hsp)
    (λ q Hq, Hdom1 _ (Hsq q Hq))) as (ha & Hst & Hae & Hst').
  destruct (head_after B r C) as [q Hq].
  assert (store ha (head (B ++ r :: C)) (set_prev (Some e)) =
    Ret (relink lifted1 (pred p A) e (head (B ++ r :: C)))) as Hst2.
  { revert Hst'. unfold relink. by rewrite Hq. }
  rewrite Hp, Hst. simpl. rewrite Hae. simpl. rewrite Hn, Hst2. unfold lifted1. by rewrite relink_unlink.
Qed.

Lemma lifted2_chain : chain lifted2 p (A ++ B ++ C).
Proof.
  destruct lifted1_chain as [Hc1 Hnd1]. rewrite app_assoc. by apply (chain_unlink _ _ _ r).
Qed.
End lifting.

Lemma lift_pair h p A e B r C n :
  NoDup (p :: A ++ e :: B ++ r :: C) → chain h p (A ++ e :: B ++ r :: C) →
  h !! e = Some n → n_match n = Some r →
  ∃ h', lift h (Some e) = Ret h' ∧ chain h' p (A ++ B ++ C) ∧
    (∀ l, content h' l = content h l) ∧ length h' = length h ∧ unlift h' (Some e) = Ret h.
Proof.
  intros Hnd Hc He Hm. exists (lifted2 h p A B r C). split_and!.
  - by apply (lift_unlinks h p A e B r C n).
  - by apply (lifted2_chain h p A e B r C).
  - intros l. unfold lifted2, lifted1. by rewrite !content_unlink.
  - unfold lifted2, lifted1. by rewrite !length_unlink.
  - by apply (unlift_links h p A e B r C n).
Qed.

(** [lift] takes the call [e] and its return [r] out of the chain
    and changes nothing else than links; [unlift] of the result is the heap
    before, bit for bit. *)
Theorem lift_unlift h p A e B r C n :
  NoDup (p :: A ++ e :: B ++ r :: C) → chain h p (A ++ e :: B ++ r :: C) →
  h !! e = Some n → n_match n = Some r →
  ∃ h', lift h (Some e) = Ret h' ∧ chain h' p (A ++ B ++ C) ∧
    (∀ l, content h' l = content h l) ∧ length h' = length h ∧ unlift h' (Some e) = Ret h.
Proof. apply lift_pair. Qed.
End chains.
