(* ===== verification/Linearizability.v ===== *)
(** * Linearizability

    What it means for a history to be linearizable, independently of how it is
    checked: some order of the operations contains every pair of operations of
    which one returned before the other was called, and the sequential
    specification accepts the operations in that order. *)

From stdpp Require Import prelude gmap strings list sorting.
From S2P Require Import Prelude.
Local Open Scope Z_scope.

(** ** Order in a list *)

Section before.
Context {T : Type}.
Implicit Types (L : list T) (x y z : T).

(** [x] occurs before [y]. *)
Fixpoint before L x y : Prop :=
  match L with
  | [] => False
  | z :: L' => (z = x ∧ y ∈ L') ∨ before L' x y
  end.

Lemma before_in L x y : before L x y → x ∈ L ∧ y ∈ L.
Proof.
  induction L as [|z L IH]; simpl; [done|]. rewrite !elem_of_cons.
  intros [[-> Hy]|[? ?]%IH]; tauto.
Qed.

Lemma before_irrefl L x : NoDup L → ¬ before L x x.
Proof.
  induction L as [|z L IH]; simpl; [tauto|]. intros [Hz HL]%NoDup_cons [[-> ?]|?]; [done|]. by apply IH.
Qed.

Lemma before_asym L x y : NoDup L → before L x y → ¬ before L y x.
Proof.
  induction L as [|z L IH]; simpl; [tauto|]. intros [Hz HL]%NoDup_cons [[-> Hy]|Hxy] [[-> Hx]|Hyx].
  - done.
  - by apply before_in in Hyx as [_ ?].
  - by apply before_in in Hxy as [_ ?].
  - by apply IH.
Qed.

Lemma before_total L x y : x ∈ L → y ∈ L → x ≠ y → before L x y ∨ before L y x.
Proof.
  induction L as [|z L IH]; simpl; [by intros ?%not_elem_of_nil|].
  rewrite !elem_of_cons. intros [->|Hx] [->|Hy] Hne; tauto.
Qed.

Lemma before_filter (P : T → Prop) `{∀ x, Decision (P x)} L x y :
  before (filter P L) x y ↔ before L x y ∧ P x ∧ P y.
Proof.
  induction L as [|z L IH]; [simpl; tauto|]. rewrite filter_cons. case_decide; simpl; rewrite IH;
    [rewrite list_elem_of_filter|]; naive_solver.
Qed.

Lemma before_app L L' x y :
  before (L ++ L') x y ↔ before L x y ∨ (x ∈ L ∧ y ∈ L') ∨ before L' x y.
Proof.
  induction L as [|z L IH]; simpl; [rewrite elem_of_nil; tauto|].
  rewrite IH, elem_of_app, elem_of_cons. naive_solver.
Qed.

Lemma before_split L x y : before L x y → ∃ A B C, L = A ++ x :: B ++ y :: C.
Proof.
  induction L as [|z L IH]; simpl; [done|]. intros [[-> Hy]|(A & B & C & ->)%IH].
  - apply list_elem_of_split in Hy as (B & C & ->). by exists [], B, C.
  - by exists (z :: A), B, C.
Qed.

Lemma before_lookup L x y : before L x y ↔ ∃ i j : nat, (i < j)%nat ∧ L !! i = Some x ∧ L !! j = Some y.
Proof.
  induction L as [|z L IH]; simpl.
  - split; [done|]. by intros (? & ? & _ & ? & _).
  - rewrite IH. split.
    + intros [[-> [j Hj]%list_elem_of_lookup]|(i & j & ? & ? & ?)];
        [exists 0%nat, (S j)|exists (S i), (S j)]; split_and!; (done || lia).
    + intros ([|i] & [|j] & Hij & Hi & Hj); simplify_eq/=; try lia; [left|right].
      * split; [done|]. by eapply list_elem_of_lookup_2.
      * exists i, j. split_and!; [lia|done..].
Qed.
End before.

Lemma before_fmap {T T'} (f : T → T') (L : list T) x y : before L x y → before (f <$> L) (f x) (f y).
Proof.
  induction L as [|z L IH]; simpl; [done|]. intros [[-> Hy]|?]; [left|tauto].
  split; [done|]. by apply list_elem_of_fmap_2.
Qed.

Lemma before_fmap_inv {T T'} (f : T → T') (L : list T) x y :
  (∀ a b, a ∈ L → b ∈ L → f a = f b → a = b) → x ∈ L → y ∈ L → before (f <$> L) (f x) (f y) → before L x y.
Proof.
  intros Hinj Hx Hy (i & j & Hij & Hi & Hj)%before_lookup. apply before_lookup. exists i, j. split; [done|].
  apply list_lookup_fmap_Some in Hi as (x' & Hfx & Hi). apply list_lookup_fmap_Some in Hj as (y' & Hfy & Hj).
  pose proof (list_elem_of_lookup_2 _ _ _ Hi). pose proof (list_elem_of_lookup_2 _ _ _ Hj).
  by rewrite (Hinj x x'), (Hinj y y').
Qed.

Lemma StronglySorted_before {T} (R : relation T) (L : list T) x y :
  StronglySorted R L → before L x y → R x y.
Proof.
  induction L as [|z L IH]; simpl; [done|]. intros [Hz HL]%StronglySorted_cons [[-> Hy]|Hxy]; [|by apply IH].
  rewrite Forall_forall in Hz. by apply Hz.
Qed.

(** Lists of the same elements in the same order are equal. *)
Lemma before_eq {T} (l1 l2 : list T) :
  NoDup l1 → l1 ≡ₚ l2 → (∀ x y, before l1 x y → before l2 x y) → l1 = l2.
Proof.
  revert l2. induction l1 as [|x l1 IH]; intros l2 Hnd Hp Hb; [by apply Permutation_nil_l in Hp|].
  destruct l2 as [|z l2]; [by apply Permutation_nil_r in Hp|].
  assert (NoDup (z :: l2)) as Hnd2 by (by rewrite <-Hp). apply NoDup_cons in Hnd as [Hx Hnd].
  apply NoDup_cons in Hnd2 as [Hz Hnd2].
  assert (z = x) as ->.
  { assert (z ∈ x :: l1) as [->|Hin]%elem_of_cons by (rewrite Hp; by left); [done|exfalso].
    destruct (Hb x z) as [[-> _]|[_ ?]%before_in]; [by left|done|done]. }
  f_equal. apply (inj (cons x)) in Hp. apply IH; [done..|]. intros a b Hab.
  destruct (Hb a b) as [[-> _]|?]; [by right| |done]. apply before_in in Hab as [? _]. done.
Qed.

(** ** Sequential acceptance *)

Section accepts.
Context {X Y St : Type} (step : St → X → Y → bool * St).

Fixpoint accepts (st : St) (ops : list (X * Y)) : bool :=
  match ops with
  | [] => true
  | o :: ops' => let '(ok, st') := step st o.1 o.2 in ok && accepts st' ops'
  end.

Fixpoint final (st : St) (ops : list (X * Y)) : St :=
  match ops with
  | [] => st
  | o :: ops' => final (step st o.1 o.2).2 ops'
  end.

Lemma accepts_app st l1 l2 : accepts st (l1 ++ l2) = accepts st l1 && accepts (final st l1) l2.
Proof.
  revert st. induction l1 as [|o l1 IH]; intros st; simpl; [done|].
  destruct (step st o.1 o.2) as [ok st']. simpl. by rewrite IH, andb_assoc.
Qed.

Lemma final_app st l1 l2 : final st (l1 ++ l2) = final (final st l1) l2.
Proof. revert st. induction l1 as [|o l1 IH]; intros st; simpl; [done|apply IH]. Qed.

(** [linearization calls prec op st π]: [π] orders the operations [calls],
    respects [prec] and is accepted from [st]. *)
Definition linearization {T} (calls : list T) (prec : T → T → Prop) (op : T → X * Y) (st : St) (π : list T) : Prop :=
  π ≡ₚ calls ∧ (∀ a b, a ∈ calls → b ∈ calls → prec a b → before π a b) ∧ accepts st (op <$> π) = true.

Definition linearizable {T} (calls : list T) (prec : T → T → Prop) (op : T → X * Y) (st : St) : Prop :=
  ∃ π, linearization calls prec op st π.

Lemma linearizable_Permutation {T} (calls calls' : list T) prec op st :
  calls ≡ₚ calls' → linearizable calls prec op st → linearizable calls' prec op st.
Proof.
  intros Hp (π & Hπ & Hord & Hacc). exists π. split_and!; [by rewrite Hπ| |done].
  intros a b. rewrite <-Hp. apply Hord.
Qed.

(** Renaming the operations. *)
Lemma linearizable_fmap {T T'} (f : T → T') (calls : list T) prec prec' op op' st :
  (∀ a b, a ∈ calls → b ∈ calls → f a = f b → a = b) →
  (∀ a b, a ∈ calls → b ∈ calls → prec' (f a) (f b) ↔ prec a b) →
  (∀ a, a ∈ calls → op' (f a) = op a) →
  linearizable (f <$> calls) prec' op' st ↔ linearizable calls prec op st.
Proof.
  intros Hinj Hprec Hop.
  assert (∀ π, π ≡ₚ calls → op' <$> (f <$> π) = op <$> π) as Hmap.
  { intros π Hπ. rewrite <-list_fmap_compose. apply list_fmap_ext. intros i a Ha. simpl. apply Hop.
    rewrite <-Hπ. by eapply list_elem_of_lookup_2. }
  split; intros (π & Hperm & Hord & Hacc).
  - destruct (Permutation_map_inv _ _ Hperm) as (π' & -> & Hπ'). symmetry in Hπ'. exists π'. split_and!; [done| |].
    + intros a b Ha Hb Hab. apply (before_fmap_inv f); [|by rewrite Hπ'..|].
      * intros x y. rewrite Hπ'. apply Hinj.
      * apply Hord; [by apply list_elem_of_fmap_2..|]. by apply Hprec.
    + by rewrite <-Hmap.
  - exists (f <$> π). split_and!; [by rewrite Hperm| |by rewrite Hmap].
    intros ? ? (a & -> & Ha)%list_elem_of_fmap (b & -> & Hb)%list_elem_of_fmap Hp. apply before_fmap.
    apply Hord; [done..|]. by apply Hprec.
Qed.
End accepts.
