(* ===== verification/PorcupineSearch.v ===== *)
(** * The search of the linearizability checker

    The search takes calls out of the list of entries one by one.  [reach]
    says which sequences of calls can be taken, and [reach_linearization] that
    the ones that empty the list are exactly the linearizations.  Then the
    loop of [checkSingle]: from any state it either empties the list or comes
    back, after finitely many turns, to where it was, having shown that
    nothing from there is a linearization ([search_from]). *)

From stdpp Require Import prelude gmap strings list relations.
From S2P Require Import Prelude Bitset Porcupine PorcupineList Linearizability.
Local Open Scope Z_scope.

Section reach.
Context {X Y St : Type} (step : St → X → Y → bool * St).
Context (mt : loc → option loc) (op : loc → X * Y).
Implicit Types (L : list loc) (c r : loc) (π : list loc).

(** A list of call and return entries: every call has its return later in the
    list, every return its call, and no two calls share a return. *)
Record wf_list L : Prop := {
  wl_nodup : NoDup L;
  wl_call : ∀ c r, c ∈ L → mt c = Some r → before L c r ∧ mt r = None;
  wl_return : ∀ r, r ∈ L → mt r = None → ∃ c, c ∈ L ∧ mt c = Some r;
  wl_inj : ∀ c c' r, c ∈ L → c' ∈ L → mt c = Some r → mt c' = Some r → c = c';
}.

Definition calls_of L : list loc := filter (λ c, is_Some (mt c)) L.

(** The operation of [a] returned before that of [b] was called. *)
Definition precedes L (a b : loc) : Prop := ∃ r, mt a = Some r ∧ before L r b.

Definition remove L c r : list loc := filter (λ x, x ≠ c ∧ x ≠ r) L.

(** [c] can be linearized next: no operation returned before it was called. *)
Definition enabled L c r : Prop :=
  c ∈ L ∧ mt c = Some r ∧ ∀ r', r' ∈ L → mt r' = None → ¬ before L r' c.

Fixpoint reach L (st : St) π L' (st' : St) : Prop :=
  match π with
  | [] => L' = L ∧ st' = st
  | c :: π' => ∃ r, enabled L c r ∧ (step st (op c).1 (op c).2).1 = true ∧
      reach (remove L c r) (step st (op c).1 (op c).2).2 π' L' st'
  end.

Lemma reach_snoc L st π L1 st1 c r :
  reach L st π L1 st1 → enabled L1 c r → (step st1 (op c).1 (op c).2).1 = true →
  reach L st (π ++ [c]) (remove L1 c r) (step st1 (op c).1 (op c).2).2.
Proof.
  revert L st. induction π as [|c' π IH]; intros L st; simpl.
  - intros [-> ->] He Hs. by exists r.
  - intros (r' & He' & Hs' & Hr) He Hs. exists r'. split_and!; [done..|]. by apply IH.
Qed.

Lemma wf_remove L c r : wf_list L → c ∈ L → mt c = Some r → wf_list (remove L c r).
Proof.
  intros [Hnd Hcall Hret Hinj] Hc Hr. destruct (Hcall _ _ Hc Hr) as [Hb Hrn]. unfold remove. constructor.
  - by apply NoDup_filter.
  - intros c' r' [[Hne1 Hne2] Hc']%list_elem_of_filter Hr'. destruct (Hcall _ _ Hc' Hr') as [Hb' Hrn'].
    split; [|done]. apply before_filter. split_and!; [done..| |]; intros ->; [congruence|].
    by apply Hne1, (Hinj _ _ r).
  - intros r' [[Hne1 Hne2] Hr']%list_elem_of_filter Hn. destruct (Hret _ Hr' Hn) as (c' & Hc' & Hm).
    exists c'. split; [|done]. apply list_elem_of_filter. split_and!; [intros ->|intros ->|done]; congruence.
  - intros c1 c2 r' [_ H1]%list_elem_of_filter [_ H2]%list_elem_of_filter. by apply Hinj.
Qed.

Lemma wf_enabled L c r : wf_list L → enabled L c r → wf_list (remove L c r).
Proof. intros Hw (? & ? & _). by apply wf_remove. Qed.

Lemma wf_reach L st π L' st' : wf_list L → reach L st π L' st' → wf_list L'.
Proof.
  revert L st. induction π as [|c π IH]; intros L st Hw; simpl; [by intros [-> _]|].
  intros (r & (Hc & Hr & _) & _ & Hre). eapply IH; [|exact Hre]. by apply wf_remove.
Qed.

Lemma calls_nil L : wf_list L → calls_of L = [] → L = [].
Proof.
  intros Hw Hn. destruct L as [|l L]; [done|exfalso].
  assert (∀ c, c ∈ l :: L → mt c = None) as Hall.
  { intros c Hc. destruct (mt c) as [r|] eqn:Hr; [|done].
    assert (c ∈ calls_of (l :: L)) as Hin by (apply list_elem_of_filter; by rewrite Hr).
    rewrite Hn in Hin. by apply not_elem_of_nil in Hin. }
  destruct (wl_return _ Hw l) as (c & Hc & Hm); [by left|apply Hall; by left|].
  rewrite Hall in Hm by done. done.
Qed.

Lemma calls_remove L c r :
  wf_list L → c ∈ L → mt c = Some r → calls_of L ≡ₚ c :: calls_of (remove L c r).
Proof.
  intros Hw Hc Hr. destruct (wl_call _ Hw _ _ Hc Hr) as [_ Hrn].
  apply NoDup_Permutation.
  - apply NoDup_filter, Hw.
  - constructor; [|apply NoDup_filter, (wf_remove L c r Hw Hc Hr)].
    unfold calls_of, remove. rewrite !list_elem_of_filter. tauto.
  - intros x. unfold calls_of, remove. rewrite elem_of_cons, !list_elem_of_filter.
    destruct (decide (x = c)) as [->|Hne]; [split; [by left|intros _; by rewrite Hr]|].
    split; [intros [[y Hy] Hx]|intros [?|[? [_ ?]]]]; [|done|done].
    right. split_and!; [by rewrite Hy|done| |done]. intros ->. congruence.
Qed.

Lemma precedes_remove L c r a b :
  wf_list L → c ∈ L → mt c = Some r → a ∈ remove L c r → b ∈ remove L c r →
  precedes (remove L c r) a b ↔ precedes L a b.
Proof.
  intros Hw Hc Hr [[Ha1 Ha2] HaL]%list_elem_of_filter [[Hb1 Hb2] HbL]%list_elem_of_filter.
  unfold precedes, remove. setoid_rewrite before_filter. split.
  - intros (r' & ? & ? & _). eauto.
  - intros (r' & Hr' & Hbf). exists r'. split_and!; [done..| | |done|done]; intros ->.
    + destruct (wl_call _ Hw _ _ HaL Hr'). congruence.
    + by apply Ha1, (wl_inj _ Hw _ _ r).
Qed.

(** The first call of a linearization is enabled. *)
Lemma first_enabled L st c π :
  wf_list L → linearization step (calls_of L) (precedes L) op st (c :: π) → ∃ r, enabled L c r.
Proof.
  intros Hw (Hp & Hord & _). assert (c ∈ calls_of L) as Hc by (rewrite <-Hp; by left).
  pose proof (proj1 (list_elem_of_filter _ _ _) Hc) as [[r Hr] HcL]. exists r. split_and!; [done..|].
  intros r' Hr' Hn Hbf. destruct (wl_return _ Hw _ Hr' Hn) as (c' & Hc' & Hm).
  assert (before (c :: π) c' c) as Hbc.
  { apply Hord; [apply list_elem_of_filter; by rewrite Hm|done|by exists r']. }
  assert (NoDup (c :: π)) as [Hnin _]%NoDup_cons by (rewrite Hp; apply NoDup_filter, Hw).
  destruct Hbc as [[-> ?]|[_ ?]%before_in]; done.
Qed.

Lemma linearization_cons L st c r π :
  wf_list L → enabled L c r →
  linearization step (calls_of L) (precedes L) op st (c :: π) ↔
  (step st (op c).1 (op c).2).1 = true ∧
  linearization step (calls_of (remove L c r)) (precedes (remove L c r)) op (step st (op c).1 (op c).2).2 π.
Proof.
  intros Hw (Hc & Hr & Hen). pose proof (calls_remove L c r Hw Hc Hr) as Hcr.
  assert (∀ x, x ∈ calls_of (remove L c r) → x ∈ remove L c r ∧ x ∈ calls_of L ∧ x ≠ c) as Hsub.
  { intros x Hx. assert (x ∈ remove L c r) as Hx' by (by apply list_elem_of_filter in Hx as [_ ?]).
    split_and!; [done|rewrite Hcr; by right|]. by apply list_elem_of_filter in Hx' as [[? _] _]. }
  unfold linearization. simpl. rewrite Hcr. destruct (step st (op c).1 (op c).2) as [ok st'] eqn:Hs. simpl.
  rewrite andb_true_iff. split.
  - intros (Hp & Hord & -> & Hacc). apply (inj (cons c)) in Hp. split_and!; [done..| |done].
    intros a b Ha Hb Hab. destruct (Hsub a Ha) as (Ha' & ? & ?), (Hsub b Hb) as (Hb' & ? & ?).
    rewrite precedes_remove in Hab by done. by destruct (Hord a b) as [[-> _]|?].
  - intros (-> & Hp & Hord & Hacc). split_and!; [by rewrite Hp| |done..].
    assert (∀ x, precedes L x c → x ∉ L) as Hnc.
    { intros x (r' & Hr' & Hbf) Hx. destruct (wl_call _ Hw _ _ Hx Hr') as [[_ ?]%before_in ?]. by apply (Hen r'). }
    assert (c ∉ calls_of (remove L c r)) as Hcn by (intros Hin; by destruct (Hsub c Hin) as (_ & _ & ?)).
    intros a b Ha Hb Hab. rewrite Hcr in Ha, Hb.
    apply elem_of_cons in Ha as [->|Ha]; apply elem_of_cons in Hb as [->|Hb].
    + by destruct (Hnc _ Hab).
    + left. split; [done|]. by rewrite Hp.
    + destruct (Hnc _ Hab). destruct (Hsub a Ha) as (_ & Hin & _). by apply list_elem_of_filter in Hin as [_ ?].
    + right. destruct (Hsub a Ha) as (Ha' & _), (Hsub b Hb) as (Hb' & _). apply Hord; [done..|].
      by rewrite precedes_remove.
Qed.

(** Emptying the list and linearizing are the same. *)
Lemma reach_linearization L st π :
  wf_list L →
  (∃ st', reach L st π [] st') ↔ linearization step (calls_of L) (precedes L) op st π.
Proof.
  revert L st. induction π as [|c π IH]; intros L st Hw; simpl.
  - split.
    + intros (st' & <- & _). split_and!; [done|by intros ? ? ?%not_elem_of_nil|done].
    + intros (Hp%Permutation_nil_l & _ & _). exists st. split; [|done]. symmetry. by apply calls_nil.
  - split.
    + intros (st' & r & He & Hs & Hre). apply (linearization_cons L st c r); [done..|]. split; [done|].
      apply IH; [by eapply wf_enabled|by exists st'].
    + intros Hlin. destruct (first_enabled _ _ _ _ Hw Hlin) as [r He].
      destruct (proj1 (linearization_cons L st c r π Hw He) Hlin) as [Hs Hlin'].
      destruct (proj2 (IH _ _ (wf_enabled _ _ _ Hw He)) Hlin') as [st' Hre]. by exists st', r.
Qed.
End reach.

Lemma reach_subset {X Y St} (step : St → X → Y → bool * St) mt op L st π L' st' c :
  reach step mt op L st π L' st' → c ∈ π → c ∈ L ∧ is_Some (mt c).
Proof.
  revert L st. induction π as [|c' π IH]; intros L st; simpl; [by intros _ ?%not_elem_of_nil|].
  intros (r & (Hc & Hr & _) & _ & Hre) [->|Hin]%elem_of_cons; [by rewrite Hr|].
  destruct (IH _ _ Hre Hin) as [HcL ?]. split; [|done]. by apply list_elem_of_filter in HcL as [_ ?].
Qed.

(** What can be taken is the beginning of an order of the operations. *)
Lemma reach_partial {X Y St} (step : St → X → Y → bool * St) mt op L st π L' st' :
  wf_list mt L → reach step mt op L st π L' st' →
  NoDup π ∧ accepts step st (op <$> π) = true ∧
  ∀ a b, a ∈ calls_of mt L → b ∈ π → precedes mt L a b → before π a b.
Proof.
  revert L st. induction π as [|c π IH]; intros L st Hw Hre; simpl.
  { split_and!; [constructor|done|by intros ? ? ? ?%not_elem_of_nil]. }
  destruct Hre as (r & (Hc & Hr & Hen) & Hok & Hre). pose proof (wf_remove _ _ _ _ Hw Hc Hr) as Hw'.
  destruct (IH _ _ Hw' Hre) as (Hnd & Hacc & Hord). destruct (step st _ _) as [ok st1]. simpl in *. subst ok.
  assert (∀ x, x ∈ π → x ∈ remove L c r) as Hsub by (intros x Hx; by eapply reach_subset).
  assert (c ∉ π) as Hcπ by (intros [[? _] _]%Hsub%list_elem_of_filter; done).
  split_and!; [by constructor|done|].
  intros a b [[ra Ha] HaL]%list_elem_of_filter Hb Hab.
  assert (b ≠ c) as Hbc.
  { intros ->. destruct Hab as (r' & Hr' & Hbf).
    destruct (wl_call _ _ Hw _ _ HaL Hr') as [[_ ?]%before_in ?]. by apply (Hen r'). }
  apply elem_of_cons in Hb as [?|Hb]; [done|].
  destruct (decide (a = c)) as [->|Hac]; [by left|right].
  assert (a ∈ remove L c r) as Ha'.
  { apply list_elem_of_filter. split_and!; [done| |done]. intros ->.
    destruct (wl_call _ _ Hw _ _ Hc Hr). congruence. }
  apply Hord; [|done|by rewrite precedes_remove by auto].
  apply list_elem_of_filter. by rewrite Ha.
Qed.

Section search.
Context {X Y St : Type} (model : Model X Y St) (eqf : St → St → bool).
Context (h0 : list (node X Y)) (hd : loc) (L0 : list loc) (n : Z) (blen : nat).
Context (mt : loc → option loc) (idn : loc → Z) (op : loc → X * Y) (computePartial : bool).
Implicit Types (s : search X Y St) (b : bitset) (st : St) (π : list loc) (c r l : loc).

(** The entries of a history in the heap. *)
Record layout : Prop := {
  ly_wf : wf_list mt L0;
  ly_hd : hd ∉ L0;
  ly_call : ∀ c r, c ∈ L0 → mt c = Some r →
    content h0 c = Some (Some (inl (op c).1), Some r, idn c) ∧
    content h0 r = Some (Some (inr (op c).2), None, idn c) ∧ idn r = idn c;
  ly_id : ∀ l, l ∈ L0 → 0 ≤ idn l < n;
  ly_inj : ∀ c c', c ∈ L0 → c' ∈ L0 → is_Some (mt c) → is_Some (mt c') → idn c = idn c' → c = c';
  ly_cap : n ≤ 64 * Z.of_nat blen;
  ly_small : n < 2 ^ 64;
}.

Hypothesis Hly : layout.
Hypothesis Heq : Equal model = Some eqf.
Hypothesis Hobs : ∀ a a' : St, eqf a a' = true → ∀ ops, accepts (Step model) a ops = accepts (Step model) a' ops.

(** The entries that are left when the operations of [b] are linearized. *)
Definition remaining b : list loc := filter (λ l, bit b (idn l) = false) L0.

Definition reaches := reach (Step model) mt op.

Definition dead b st : Prop := ¬ ∃ π st', reaches (remaining b) st π [] st'.

(** [b'] is [b] with the operation of [c]. *)
Definition adds b c b' : Prop :=
  length b' = length b ∧ words b' ∧ ∀ q, 0 ≤ q → bit b' q = if q =? idn c then true else bit b q.

Lemma id_pair c r l : c ∈ L0 → mt c = Some r → l ∈ L0 → idn l = idn c ↔ l = c ∨ l = r.
Proof.
  intros Hc Hr Hl. destruct (ly_call Hly _ _ Hc Hr) as (_ & _ & Hid). split; [|by intros [-> | ->]].
  intros He. destruct (mt l) as [r'|] eqn:Hm.
  - left. by apply (ly_inj Hly).
  - right. destruct (wl_return _ _ (ly_wf Hly) _ Hl Hm) as (c' & Hc' & Hm').
    destruct (ly_call Hly _ _ Hc' Hm') as (_ & _ & Hid').
    assert (c' = c) as -> by (apply (ly_inj Hly); [done..|congruence]). congruence.
Qed.

Lemma remaining_adds b c r b' :
  c ∈ L0 → mt c = Some r → adds b c b' → remaining b' = remove (remaining b) c r.
Proof.
  intros Hc Hr (_ & _ & Hbits). unfold remaining, remove. rewrite list_filter_filter. apply filter_ext_in.
  intros x Hx. pose proof (ly_id Hly x Hx). rewrite Hbits by lia.
  pose proof (id_pair c r x Hc Hr Hx). destruct (Z.eqb_spec (idn x) (idn c)); intuition congruence.
Qed.

Lemma content_call s c r :
  (∀ l, content (s_heap s) l = content h0 l) → c ∈ L0 → mt c = Some r →
  ∃ nc nr, s_heap s !! c = Some nc ∧ s_heap s !! r = Some nr ∧
    n_value nc = Some (inl (op c).1) ∧ n_match nc = Some r ∧ n_id nc = idn c ∧
    n_value nr = Some (inr (op c).2) ∧ n_match nr = None ∧ n_id nr = idn r.
Proof.
  intros Hct Hc Hr. destruct (ly_call Hly _ _ Hc Hr) as (H1 & H2 & Hid). rewrite <-Hct in H1, H2.
  unfold content in *. destruct (s_heap s !! c) as [nc|], (s_heap s !! r) as [nr|]; simplify_eq/=.
  exists nc, nr. split_and!; congruence.
Qed.

Lemma content_node s l :
  (∀ l, content (s_heap s) l = content h0 l) → l ∈ L0 →
  ∃ nd, s_heap s !! l = Some nd ∧ n_match nd = mt l ∧ n_id nd = idn l.
Proof.
  intros Hct Hl. destruct (mt l) as [r|] eqn:Hm.
  - destruct (content_call s l r Hct Hl Hm) as (nc & _ & ? & _ & _ & ? & ? & _). eauto.
  - destruct (wl_return _ _ (ly_wf Hly) _ Hl Hm) as (c & Hc & Hm').
    destruct (content_call s c l Hct Hc Hm') as (_ & nr & _ & ? & _ & _ & _ & _ & ? & ?). eauto.
Qed.

(** *** The invariant of the loop *)

Definition in_cache (cache : gmap Z (list (cacheEntry St))) (e : cacheEntry St) : Prop :=
  ∃ k es, cache !! k = Some es ∧ e ∈ es.

(** [longest] points to sequences that can be linearized. *)
Record longest_ok (longest : list (option nat)) (seqs : list (list Z)) : Prop := {
  lo_len : length longest = Z.to_nat n;
  lo_ptr : ∀ p, Some p ∈ longest → (p < length seqs)%nat;
  lo_seqs : ∀ seq, seq ∈ seqs → ∃ π L' st', reaches L0 (Init model) π L' st' ∧ seq = idn <$> π;
}.

Record inv s b st π : Prop := {
  iv_lin : s_linearized s = b;
  iv_state : s_state s = st;
  iv_words : words b;
  iv_len : length b = blen;
  iv_chain : chain (s_heap s) hd (remaining b);
  iv_content : ∀ l, content (s_heap s) l = content h0 l;
  iv_calls : ce_entry <$> s_calls s = Some <$> π;
  iv_path : reaches L0 (Init model) π (remaining b) st;
  iv_cache : ∀ e, in_cache (s_cache s) e →
    dead (linearized e) (cstate e) ∨ ∀ i, 0 ≤ i < n → bit (linearized e) i = true → bit b i = true;
  iv_longest : longest_ok (s_longest s) (s_seqs s);
}.

Lemma remaining_sub b l : l ∈ remaining b → l ∈ L0 ∧ bit b (idn l) = false.
Proof. intros [? ?]%list_elem_of_filter. done. Qed.

Lemma remaining_NoDup b : NoDup (hd :: remaining b).
Proof.
  constructor; [|apply NoDup_filter, (ly_wf Hly)]. intros [? _]%remaining_sub. by apply (ly_hd Hly).
Qed.

Lemma remaining_wf s b st π : inv s b st π → wf_list mt (remaining b).
Proof. intros Hi. eapply wf_reach; [apply Hly|apply (iv_path _ _ _ _ Hi)]. Qed.

Lemma uint64_id l : l ∈ L0 → uint64 (idn l) = idn l.
Proof. intros Hl. pose proof (ly_id Hly l Hl). pose proof (ly_small Hly). apply Z.mod_small. lia. Qed.

Lemma set_adds s b st π l :
  inv s b st π → l ∈ L0 → ∃ b', set b (uint64 (idn l)) = Ret b' ∧ adds b l b'.
Proof.
  intros Hi Hl. rewrite uint64_id by done. pose proof (ly_id Hly l Hl). pose proof (ly_cap Hly).
  destruct (set_spec b (idn l)) as (b' & -> & ? & Hw & Hb); [rewrite (iv_len _ _ _ _ Hi); lia|].
  exists b'. split; [done|]. split_and!; [done|by apply Hw, Hi|done].
Qed.

Lemma clear_adds s b st π l b' :
  inv s b st π → l ∈ remaining b → adds b l b' → clear b' (uint64 (idn l)) = Ret b.
Proof.
  intros Hi [Hl Hbit]%remaining_sub (Hlen & Hw & Hb). rewrite uint64_id by done.
  pose proof (ly_id Hly l Hl). pose proof (ly_cap Hly). pose proof (iv_len _ _ _ _ Hi).
  destruct (clear_spec b' (idn l)) as (b2 & -> & Hl2 & Hw2 & Hb2); [rewrite Hlen; lia|].
  f_equal. apply bits_ext; [by apply Hw2|apply Hi|congruence|].
  intros q Hq. rewrite Hb2 by lia. destruct (Z.eqb_spec q (idn l)) as [->|Hne]; [done|].
  rewrite Hb by lia. by destruct (Z.eqb_spec q (idn l)).
Qed.

(** *** The cache *)

Lemma containsLoop_sound es e :
  ∃ hit, containsLoop model es e = Ret hit ∧
    (hit = true → ∃ e', e' ∈ es ∧ linearized e = linearized e' ∧ eqf (cstate e) (cstate e') = true).
Proof.
  induction es as [|e1 es (hit & IH & Hhit)]; simpl; [by exists false|].
  assert (hit = true → ∃ e', e' ∈ e1 :: es ∧ linearized e = linearized e' ∧ eqf (cstate e) (cstate e') = true) as Hl.
  { intros (e' & ? & ?)%Hhit. exists e'. split; [by right|done]. }
  destruct (equals (linearized e) (linearized e1)) eqn:Hb; [|by exists hit].
  apply equals_eq in Hb. unfold callEqual. rewrite Heq. simpl.
  destruct (eqf (cstate e) (cstate e1)) eqn:He; [|by exists hit].
  exists true. split; [done|]. intros _. exists e1. split; [by left|done].
Qed.

Lemma cacheContains_sound cache e :
  ∃ hit, cacheContains model cache e = Ret hit ∧
    (hit = true → ∃ e', in_cache cache e' ∧ linearized e = linearized e' ∧ eqf (cstate e) (cstate e') = true).
Proof.
  unfold cacheContains. destruct (containsLoop_sound (default [] (cache !! hash (linearized e))) e) as (hit & -> & Hhit).
  exists hit. split; [done|]. intros (e' & Hin & ?)%Hhit. exists e'. split; [|done].
  destruct (cache !! _) as [es|] eqn:Hc; [|by apply not_elem_of_nil in Hin]. by eexists _, es.
Qed.

Lemma in_cache_insert cache k e e' :
  in_cache (<[k := default [] (cache !! k) ++ [e]]> cache) e' → in_cache cache e' ∨ e' = e.
Proof.
  intros (k' & es & Hk & Hin). destruct (decide (k' = k)) as [->|Hne].
  - rewrite lookup_insert_eq in Hk. injection Hk as <-. apply elem_of_app in Hin as [Hin|Hin].
    + left. destruct (cache !! k) as [es|] eqn:Hc; [|by apply not_elem_of_nil in Hin]. by exists k, es.
    + right. by apply list_elem_of_singleton in Hin.
  - rewrite lookup_insert_ne in Hk by done. left. by exists k', es.
Qed.

Lemma dead_equal b st st' :
  wf_list mt (remaining b) → eqf st st' = true → dead b st' → dead b st.
Proof.
  intros Hw He Hd (π & st1 & Hr). apply Hd.
  destruct (proj1 (reach_linearization (Step model) mt op _ st π Hw)) as (Hp & Ho & Ha); [by exists st1|].
  exists π. apply reach_linearization; [done|]. split_and!; [done..|]. rewrite <-Ha. symmetry. by apply Hobs.
Qed.

(** A hit in the cache shows that the new state leads nowhere. *)
Lemma hit_dead s b st π c b' st' :
  inv s b st π → c ∈ remaining b → adds b c b' → wf_list mt (remaining b') →
  ∃ hit, cacheContains model (s_cache s) (mkCacheEntry b' st') = Ret hit ∧ (hit = true → dead b' st').
Proof.
  intros Hi [Hc Hbit]%remaining_sub Hadd Hw.
  destruct (cacheContains_sound (s_cache s) (mkCacheEntry b' st')) as (hit & -> & Hhit).
  exists hit. split; [done|]. intros (e' & Hin & Hl & He)%Hhit. simpl in *.
  destruct (iv_cache _ _ _ _ Hi e' Hin) as [Hd|Hsub].
  - rewrite <-Hl in Hd. by eapply dead_equal.
  - pose proof (ly_id Hly c Hc). destruct Hadd as (_ & _ & Hb).
    specialize (Hsub (idn c)). rewrite <-Hl, Hb, Z.eqb_refl in Hsub by lia. rewrite Hbit in Hsub.
    by discriminate Hsub.
Qed.

(** *** [longest] *)

Lemma callIds_path s b st π : inv s b st π → callIds (s_heap s) (s_calls s) = Ret (idn <$> π).
Proof.
  intros Hi. assert (∀ c, c ∈ π → c ∈ L0) as Hsub.
  { intros c Hc. by destruct (reach_subset _ _ _ _ _ _ _ _ c (iv_path _ _ _ _ Hi) Hc). }
  pose proof (iv_calls _ _ _ _ Hi) as Hcs. revert Hcs Hsub. generalize (s_calls s) as cs.
  clear -Hi Hly. revert π Hi. intros π0 Hi cs. revert cs.
  generalize π0 as π. induction π as [|c π IH]; intros [|v cs] Hcs Hsub; simplify_eq/=; [done|]. rename select (ce_entry v = _) into Hv.
  destruct (content_node s c (iv_content _ _ _ _ Hi)) as (nd & Hnd & _ & Hid); [apply Hsub; by left|].
  rewrite Hv. simpl. rewrite Hnd. simpl. rewrite IH; [by simpl; rewrite Hid|done|].
  intros ? ?. apply Hsub. by right.
Qed.

Lemma longestLoop_ok s b st π0 ids (cs : list (callsEntry St)) π longest seqs seq :
  inv s b st π0 → (∃ π' L' st', reaches L0 (Init model) π' L' st' ∧ ids = idn <$> π') →
  ce_entry <$> cs = Some <$> π → (∀ c, c ∈ π → c ∈ L0) →
  longest_ok longest seqs → (∀ p, seq = Some p → (p < length seqs)%nat) →
  ∃ longest' seqs', longestLoop (s_heap s) ids cs longest seqs seq = Ret (longest', seqs') ∧
    longest_ok longest' seqs'.
Proof.
  intros Hi Hids. revert π longest seqs seq. induction cs as [|v cs IH]; intros [|c π] longest seqs seq Hcs Hsub Hlo Hseq;
    simplify_eq/=; [by exists longest, seqs|]. rename select (ce_entry v = _) into Hv. rewrite Hv.
  destruct (content_node s c (iv_content _ _ _ _ Hi)) as (nd & Hnd & _ & Hid); [apply Hsub; by left|].
  simpl. rewrite Hnd. simpl. rewrite Hid. pose proof (ly_id Hly c (Hsub c (list_elem_of_here _ _))) as Hrange.
  assert (∀ x, x ∈ π → x ∈ L0) as Hsub' by (intros ? ?; apply Hsub; by right).
  pose proof (lo_len _ _ Hlo) as Hlen.
  destruct (go_index_in_range longest (idn c)) as (cur & -> & _); [lia|]. simpl.
  destruct (improves seqs (zlen ids) cur); [|by eapply IH].
  assert (∃ seqs1 p, match seq with Some p => (seqs, p) | None => (seqs ++ [ids], length seqs) end = (seqs1, p) ∧
    (p < length seqs1)%nat ∧ (length seqs ≤ length seqs1)%nat ∧ (∀ x, x ∈ seqs1 → x ∈ seqs ∨ x = ids))
    as (seqs1 & p & -> & Hp & Hle & Hin).
  { destruct seq as [p|]; [by exists seqs, p; auto|]. exists (seqs ++ [ids]), (length seqs).
    rewrite length_app. simpl. split_and!; [done|lia..|].
    intros x [?|?%list_elem_of_singleton]%elem_of_app; auto. }
  rewrite go_set_in_range by lia. simpl. apply (IH π); [done|done| |by intros ? [= <-]].
  constructor.
  - by rewrite length_insert.
  - intros q [i Hq]%list_elem_of_lookup. destruct (decide (i = Z.to_nat (idn c))) as [->|Hne].
    + rewrite list_lookup_insert_eq in Hq by lia. by injection Hq as <-.
    + rewrite list_lookup_insert_ne in Hq by done.
      pose proof (lo_ptr _ _ Hlo q (list_elem_of_lookup_2 _ _ _ Hq)). lia.
  - intros x [Hx| ->]%Hin; [by apply (lo_seqs _ _ Hlo)|done].
Qed.

Lemma updateLongest_ok s b st π :
  inv s b st π → ∃ longest seqs, updateLongest computePartial s = Ret (longest, seqs) ∧ longest_ok longest seqs.
Proof.
  intros Hi. unfold updateLongest. destruct computePartial; [|by eexists _, _; split; [done|apply Hi]].
  rewrite (callIds_path _ _ _ _ Hi). simpl.
  apply (longestLoop_ok s b st π (idn <$> π) (s_calls s) π); [done| |apply Hi| |apply Hi|done].
  - eexists _, _, _. split; [apply Hi|done].
  - intros c Hc. by destruct (reach_subset _ _ _ _ _ _ _ _ c (iv_path _ _ _ _ Hi) Hc).
Qed.

(** *** One turn *)

Definition set_entry (p : option loc) s : search X Y St :=
  mkSearch (s_heap s) p (s_state s) (s_linearized s) (s_cache s) (s_calls s) (s_longest s) (s_seqs s).

Definition hopeless (L : list loc) st : Prop := ¬ ∃ π st', reaches L st π [] st'.

Lemma remove_split L A c B r :
  wf_list mt L → L = A ++ c :: B → mt c = Some r →
  ∃ B1 B2, B = B1 ++ r :: B2 ∧ remove L c r = A ++ B1 ++ B2.
Proof.
  intros Hw -> Hr. pose proof (wl_nodup _ _ Hw) as Hnd.
  destruct (wl_call _ _ Hw c r) as [Hbf _]; [apply elem_of_app; right; by left|done|].
  pose proof Hnd as (HA & HAB & [HcB HB]%NoDup_cons)%NoDup_app.
  assert (c ∉ A) as HcA by (intros ?; apply (HAB c); [done|by left]).
  assert (r ∈ B) as HrB.
  { apply before_app in Hbf as [[? _]%before_in|[[? _]|Hbf]]; [done..|].
    simpl in Hbf. destruct Hbf as [[_ ?]|[? _]%before_in]; done. }
  apply list_elem_of_split in HrB as (B1 & B2 & ->). exists B1, B2. split; [done|]. unfold remove.
  apply NoDup_app in HB as (_ & HB12 & [HrB2 _]%NoDup_cons).
  rewrite filter_app, filter_cons_False, filter_app, filter_cons_False by tauto.
  assert (∀ l : list loc, c ∉ l → r ∉ l → filter (λ x, x ≠ c ∧ x ≠ r) l = l) as Hid.
  { intros l. induction l as [|y l IH]; [done|].
    intros [? ?]%not_elem_of_cons [? ?]%not_elem_of_cons. rewrite filter_cons_True by (split; congruence).
    by rewrite IH. }
  rewrite not_elem_of_app, not_elem_of_cons in HcB. destruct HcB as (HcB1 & _ & HcB2).
  rewrite (Hid A), (Hid B1), (Hid B2); [done|done|done|done| |done|].
  - intros Hin. apply (HB12 _ Hin). by left.
  - intros Hin. apply (HAB _ Hin). right. apply elem_of_app. right. by left.
Qed.

Lemma chain_next s b st π A l B :
  inv s b st π → remaining b = A ++ l :: B →
  ∃ nd, s_heap s !! l = Some nd ∧ n_match nd = mt l ∧ n_id nd = idn l ∧ n_next nd = head B.
Proof.
  intros Hi Hrem. pose proof (iv_chain _ _ _ _ Hi) as Hc. rewrite Hrem in Hc.
  destruct (chain_at _ _ _ _ _ Hc) as (nd & Hnd & Hn & _).
  assert (l ∈ remaining b) as [Hl _]%remaining_sub by (rewrite Hrem; apply elem_of_app; right; by left).
  destruct (content_node s l (iv_content _ _ _ _ Hi) Hl) as (nd' & Hnd' & ? & ?). simplify_eq. eauto.
Qed.

Lemma head_not_nil s b st π A l B :
  inv s b st π → remaining b = A ++ l :: B → ∃ nh p, s_heap s !! hd = Some nh ∧ n_next nh = Some p.
Proof.
  intros Hi Hrem. pose proof (iv_chain _ _ _ _ Hi) as Hc. pose proof (chain_head _ _ _ Hc) as Hh.
  destruct (chain_is_Some _ _ _ hd Hc) as [nh Hnh]; [by left|]. rewrite Hrem in Hh.
  unfold next in Hh. rewrite Hnh in Hh. simpl in Hh. exists nh. destruct A; simpl in Hh; eauto.
Qed.

Lemma enabled_prefix L A c B r :
  L = A ++ c :: B → NoDup L → (∀ x, x ∈ A → is_Some (mt x)) → mt c = Some r → enabled mt L c r.
Proof.
  intros -> Hnd HA Hr. split_and!; [apply elem_of_app; right; by left|done|].
  intros r' _ Hn Hbf. apply NoDup_app in Hnd as (_ & HAB & [HcB _]%NoDup_cons).
  apply before_app in Hbf as [[Hin _]%before_in|[[Hin _]|Hbf]].
  - destruct (HA _ Hin). congruence.
  - destruct (HA _ Hin). congruence.
  - simpl in Hbf. destruct Hbf as [[_ ?]|[_ ?]%before_in]; done.
Qed.

(** Taking the call [c]: the new state satisfies the invariant, and [unlift]
    would give back the heap. *)
Lemma take_call s b st π A c B r b' :
  inv s b st π → remaining b = A ++ c :: B → (∀ x, x ∈ A → is_Some (mt x)) → mt c = Some r →
  s_entry s = Some c → adds b c b' → (Step model st (op c).1 (op c).2).1 = true →
  let st' := (Step model st (op c).1 (op c).2).2 in
  let e := mkCacheEntry b' st' in
  let cache := <[hash b' := default [] (s_cache s !! hash b') ++ [e]]> (s_cache s) in
  ∃ h nh, lift (s_heap s) (Some c) = Ret h ∧ h !! hd = Some nh ∧ n_next nh = head (remaining b') ∧
    unlift h (Some c) = Ret (s_heap s) ∧
    inv (mkSearch h (head (remaining b')) st' b' cache (s_calls s ++ [mkCallsEntry (Some c) st])
      (s_longest s) (s_seqs s)) b' st' (π ++ [c]).
Proof.
  intros Hi Hrem HA Hr He Hadd Hok st' e cache. pose proof (remaining_wf _ _ _ _ Hi) as Hw.
  assert (c ∈ remaining b) as Hc by (rewrite Hrem; apply elem_of_app; right; by left).
  destruct (remaining_sub _ _ Hc) as [HcL _].
  pose proof (remaining_adds b c r b' HcL Hr Hadd) as Hrem'.
  destruct (remove_split _ A c B r Hw Hrem Hr) as (B1 & B2 & -> & Hsplit). rewrite Hsplit in Hrem'.
  destruct (chain_next _ _ _ _ _ _ _ Hi Hrem) as (nc & Hnc & Hm & _ & _). rewrite Hr in Hm.
  pose proof (remaining_NoDup b) as Hnd. pose proof (iv_chain _ _ _ _ Hi) as Hch. rewrite Hrem in Hnd, Hch.
  destruct (lift_pair _ _ _ _ _ _ _ _ Hnd Hch Hnc Hm) as (h & Hlift & Hch' & Hct & _ & Hun).
  rewrite <-Hrem' in Hch'. destruct (chain_is_Some _ _ _ hd Hch') as [nh Hnh]; [by left|].
  exists h, nh. split_and!; [done|done| |done|].
  - pose proof (chain_head _ _ _ Hch') as Hh. unfold next in Hh. by rewrite Hnh in Hh.
  - destruct Hadd as (Hlen & Hwd & Hbits). constructor; simpl; try done.
    + rewrite Hlen. apply Hi.
    + intros l. rewrite Hct. apply Hi.
    + rewrite !fmap_app. simpl. by rewrite (iv_calls _ _ _ _ Hi).
    + rewrite Hrem', <-Hsplit. eapply reach_snoc; [apply (iv_path _ _ _ _ Hi)| |done].
      eapply enabled_prefix; [done|apply Hw|done|done].
    + intros e' [Hin|Hin]%in_cache_insert.
      * destruct (iv_cache _ _ _ _ Hi e' Hin) as [?|Hsub]; [by left|right].
        intros i Hr' Hbit. rewrite Hbits by lia. rewrite (Hsub i Hr' Hbit). by destruct (i =? idn c).
      * right. intros i _. subst e'. done.
    + apply Hi.
Qed.

Definition step_of st c : bool * St := Step model st (op c).1 (op c).2.

(** A turn at a call: it is skipped, and then leads nowhere, or taken. *)
Lemma turn_call s b st π A c B r :
  inv s b st π → remaining b = A ++ c :: B → (∀ x, x ∈ A → is_Some (mt x)) → mt c = Some r →
  s_entry s = Some c →
  ∃ s', turn model computePartial n (Some hd) false s = Ret (inl s') ∧
    ((s' = set_entry (head B) s ∧ ((step_of st c).1 = true → hopeless (remove (remaining b) c r) (step_of st c).2)) ∨
     ((step_of st c).1 = true ∧ ∃ b', adds b c b' ∧ inv s' b' (step_of st c).2 (π ++ [c]) ∧
        s_entry s' = head (remaining b') ∧ s_calls s' = s_calls s ++ [mkCallsEntry (Some c) st] ∧
        unlift (s_heap s') (Some c) = Ret (s_heap s) ∧
        ∀ e, in_cache (s_cache s') e → in_cache (s_cache s) e ∨ e = mkCacheEntry b' (step_of st c).2)).
Proof.
  intros Hi Hrem HA Hr He. assert (c ∈ remaining b) as Hc by (rewrite Hrem; apply elem_of_app; right; by left).
  destruct (remaining_sub _ _ Hc) as [HcL _].
  destruct (head_not_nil _ _ _ _ _ _ _ Hi Hrem) as (nh & p & Hnh & Hnx).
  destruct (chain_next _ _ _ _ _ _ _ Hi Hrem) as (nc & Hnc & Hm & Hid & Hnext). rewrite Hr in Hm.
  destruct (content_call s c r (iv_content _ _ _ _ Hi) HcL Hr) as (nc' & nr & Hnc' & Hnr & Hv & _ & _ & Hvr & _).
  rewrite Hnc in Hnc'. injection Hnc' as <-.
  unfold turn. simpl. rewrite Hnh. simpl. rewrite Hnx, He. simpl. rewrite Hnc. simpl. rewrite Hm.
  unfold tryCall. rewrite Hm. simpl. rewrite Hnr. simpl. rewrite Hv, Hvr, Hnext, Hid, He. simpl.
  rewrite (iv_state _ _ _ _ Hi), (iv_lin _ _ _ _ Hi). fold (step_of st c).
  destruct (step_of st c) as [ok st'] eqn:Hst. simpl.
  assert (mkSearch (s_heap s) (head B) st b (s_cache s) (s_calls s) (s_longest s) (s_seqs s) = set_entry (head B) s)
    as -> by (unfold set_entry; by rewrite (iv_state _ _ _ _ Hi), (iv_lin _ _ _ _ Hi)).
  destruct ok; [|by eexists; split; [done|left]].
  destruct (set_adds _ _ _ _ c Hi HcL) as (b' & Hset & Hadd). unfold clone. rewrite Hset. simpl.
  pose proof (remaining_adds b c r b' HcL Hr Hadd) as Hrem'.
  assert (wf_list mt (remaining b')) as Hw'.
  { rewrite Hrem'. apply wf_remove; [by eapply remaining_wf|done|done]. }
  destruct (hit_dead s b st π c b' st' Hi Hc Hadd Hw') as (hit & -> & Hhit). simpl.
  destruct hit; simpl.
  - eexists. split; [done|]. left. split; [done|]. intros _. rewrite <-Hrem'. by apply Hhit.
  - destruct (take_call s b st π A c B r b' Hi Hrem HA Hr He Hadd) as (h & nh' & Hl & Hh & Hn & Hun & Hinv);
      [by fold (step_of st c); rewrite Hst|].
    fold (step_of st c) in Hinv. rewrite Hst in Hinv. simpl in Hinv.
    rewrite Hl. simpl. rewrite Hh. simpl. rewrite Hn. eexists. split; [done|]. right. split; [done|].
    exists b'. split_and!; [done|exact Hinv|done|done|done|].
    intros e. apply in_cache_insert.
Qed.

(** A turn at a return takes the last call back. *)
Lemma turn_return s1 b' st' s b st π A c B P r Q :
  inv s1 b' st' (π ++ [c]) → remaining b' = P ++ r :: Q → mt r = None → s_entry s1 = Some r →
  inv s b st π → remaining b = A ++ c :: B → adds b c b' →
  s_calls s1 = s_calls s ++ [mkCallsEntry (Some c) st] → unlift (s_heap s1) (Some c) = Ret (s_heap s) →
  ∃ longest seqs, longest_ok longest seqs ∧
    turn model computePartial n (Some hd) false s1 =
    Ret (inl (mkSearch (s_heap s) (head B) st b (s_cache s1) (s_calls s) longest seqs)).
Proof.
  intros Hi1 Hrem1 Hr He1 Hi Hrem Hadd Hcs Hun.
  assert (c ∈ remaining b) as Hc by (rewrite Hrem; apply elem_of_app; right; by left).
  destruct (remaining_sub _ _ Hc) as [HcL _].
  destruct (updateLongest_ok _ _ _ _ Hi1) as (longest & seqs & Hup & Hlo). exists longest, seqs. split; [done|].
  destruct (head_not_nil _ _ _ _ _ _ _ Hi1 Hrem1) as (nh & p & Hnh & Hnx).
  destruct (chain_next _ _ _ _ _ _ _ Hi1 Hrem1) as (nr & Hnr & Hm & _). rewrite Hr in Hm.
  destruct (chain_next _ _ _ _ _ _ _ Hi Hrem) as (nc & Hnc & _ & _ & Hnext).
  destruct (content_node s1 c (iv_content _ _ _ _ Hi1) HcL) as (nc1 & Hnc1 & _ & Hid1).
  unfold turn. simpl. rewrite Hnh. simpl. rewrite Hnx, He1. simpl. rewrite Hnr. simpl. rewrite Hm.
  assert ((zlen (s_calls s1) =? 0) = false) as -> by (apply Z.eqb_neq; rewrite Hcs, length_app; simpl; lia).
  unfold backtrack. rewrite Hup. simpl.
  assert (go_index (s_calls s1) (zlen (s_calls s1) - 1) = Ret (mkCallsEntry (Some c) st)) as ->.
  { rewrite Hcs, length_app. simpl. apply go_index_Ret. split; [lia|].
    replace (Z.to_nat _) with (length (s_calls s)) by lia. by rewrite lookup_app_r, Nat.sub_diag by lia. }
  simpl. rewrite Hnc1. simpl. rewrite Hid1, (iv_lin _ _ _ _ Hi1), (clear_adds s b st π c b' Hi Hc Hadd). simpl.
  rewrite go_slice_to_in_range by (rewrite Hcs, length_app; simpl; lia). simpl. rewrite Hun. simpl.
  rewrite Hnc. simpl. rewrite Hnext, Hcs, length_app. simpl.
  replace (Z.to_nat _) with (length (s_calls s)) by lia. by rewrite take_app_length.
Qed.

(** *** The whole search *)

Definition tstep s s' : Prop :=
  turn model computePartial n (Some hd) false s = Ret (inl s') ∧ longest_ok (s_longest s') (s_seqs s').

Definition succeeds s : Prop := ∃ s1 b1 st1 π1, rtc tstep s s1 ∧ inv s1 b1 st1 π1 ∧ remaining b1 = [].

(** The search has come back to the first return entry. *)
Definition fails s b st π : Prop :=
  ∃ s1, rtc tstep s s1 ∧ inv s1 b st π ∧ s_heap s1 = s_heap s ∧ s_calls s1 = s_calls s ∧
    (∃ P r Q, remaining b = P ++ r :: Q ∧ mt r = None ∧ s_entry s1 = Some r) ∧
    (∀ e, in_cache (s_cache s1) e → in_cache (s_cache s) e ∨ dead (linearized e) (cstate e)) ∧
    hopeless (remaining b) st.

Lemma succeeds_rtc s s' : rtc tstep s s' → succeeds s' → succeeds s.
Proof. intros Hs (s1 & b1 & st1 & π1 & ? & ?). exists s1, b1, st1, π1. split; [by etrans|done]. Qed.

Lemma fails_rtc s s' b st π :
  rtc tstep s s' → s_heap s' = s_heap s → s_calls s' = s_calls s →
  (∀ e, in_cache (s_cache s') e → in_cache (s_cache s) e ∨ dead (linearized e) (cstate e)) →
  fails s' b st π → fails s b st π.
Proof.
  intros Hs Hh Hcs Hc (s1 & ? & ? & Hh1 & Hcs1 & ? & Hc1 & ?). exists s1.
  split_and!; [by etrans|done|congruence|congruence|done| |done].
  intros e [?|?]%Hc1; [by apply Hc|by right].
Qed.

Lemma inv_entry s b st π p : inv s b st π → inv (set_entry p s) b st π.
Proof. intros []. by constructor. Qed.

(** Nothing can be linearized when no call before the first return can. *)
Lemma hopeless_prefix b st P r Q :
  wf_list mt (remaining b) → remaining b = P ++ r :: Q → mt r = None →
  (∀ c r', c ∈ P → mt c = Some r' → (step_of st c).1 = true → hopeless (remove (remaining b) c r') (step_of st c).2) →
  hopeless (remaining b) st.
Proof.
  intros Hw Hrem Hr Hall (π & st' & Hre). destruct π as [|c π]; simpl in Hre.
  - destruct Hre as [Hnil _]. rewrite Hrem in Hnil. by destruct P.
  - destruct Hre as (r' & (Hc & Hm & Hen) & Hok & Hre). apply (Hall c r'); [|done|done|by exists π, st'].
    assert (r ∈ remaining b) as Hrin by (rewrite Hrem; apply elem_of_app; right; by left).
    specialize (Hen r Hrin Hr). rewrite Hrem in Hc, Hen.
    apply elem_of_app in Hc as [?|[->|HcQ]%elem_of_cons]; [done|congruence|].
    destruct Hen. apply before_app. right. right. by left.
Qed.

(** The calls [P2] that have not been tried, after [P1]. *)
Lemma search_calls s b st π P1 P2 r Q :
  (∀ s' b' st' π', (length (remaining b') < length (remaining b))%nat → inv s' b' st' π' →
     s_entry s' = head (remaining b') → succeeds s' ∨ fails s' b' st' π') →
  inv s b st π → remaining b = (P1 ++ P2) ++ r :: Q → mt r = None → (∀ x, x ∈ P1 ++ P2 → is_Some (mt x)) →
  s_entry s = head (P2 ++ r :: Q) →
  (∀ c r', c ∈ P1 → mt c = Some r' → (step_of st c).1 = true → hopeless (remove (remaining b) c r') (step_of st c).2) →
  succeeds s ∨ fails s b st π.
Proof.
  intros IHm. revert s P1. induction P2 as [|c P2 IH]; intros s P1 Hi Hrem Hr HP He Hdead.
  { right. rewrite app_nil_r in *. exists s. split_and!; [done|done|done|done|by exists P1, r, Q|by left|].
    eapply hopeless_prefix; [by eapply remaining_wf|done..]. }
  destruct (HP c) as [rc Hrc]; [apply elem_of_app; right; by left|].
  assert (remaining b = P1 ++ c :: P2 ++ r :: Q) as Hrem1 by (by rewrite Hrem, <-app_assoc).
  assert (remaining b = ((P1 ++ [c]) ++ P2) ++ r :: Q) as Hrem2 by (by rewrite Hrem, <-!app_assoc).
  assert (∀ x, x ∈ (P1 ++ [c]) ++ P2 → is_Some (mt x)) as HP2
    by (intros x; rewrite <-(app_assoc P1); apply HP).
  assert (∀ x, x ∈ P1 → is_Some (mt x)) as HP1 by (intros; apply HP, elem_of_app; by left).
  destruct (turn_call s b st π P1 c (P2 ++ r :: Q) rc Hi Hrem1 HP1 Hrc He) as (s' & Hturn & Hor).
  assert (∀ (Hd : (step_of st c).1 = true → hopeless (remove (remaining b) c rc) (step_of st c).2) c' r',
    c' ∈ P1 ++ [c] → mt c' = Some r' → (step_of st c').1 = true →
    hopeless (remove (remaining b) c' r') (step_of st c').2) as Hdead2.
  { intros Hd c' r' [Hin|Hin]%elem_of_app Hm; [by apply Hdead|].
    apply list_elem_of_singleton in Hin as ->. rewrite Hrc in Hm. by injection Hm as <-. }
  destruct Hor as [[-> Hskip]|(Hok & b' & Hadd & Hi' & He' & Hcs' & Hun & Hcache)].
  - destruct (IH (set_entry (head (P2 ++ r :: Q)) s) (P1 ++ [c])) as [Hs|Hf]; try done;
      [by apply inv_entry|by apply Hdead2|left|right].
    + eapply succeeds_rtc; [|done]. apply rtc_once. split; [done|apply Hi].
    + eapply fails_rtc; [apply rtc_once; split; [done|apply Hi]|done|done|by left|done].
  - assert (c ∈ remaining b) as Hc by (rewrite Hrem1; apply elem_of_app; right; by left).
    destruct (remaining_sub _ _ Hc) as [HcL _]. pose proof (remaining_adds b c rc b' HcL Hrc Hadd) as Hrem'.
    destruct (IHm s' b' (step_of st c).2 (π ++ [c])) as [Hs|Hf]; [|done|done| |].
    { rewrite Hrem'. apply length_filter_lt with c; [done|]. tauto. }
    { left. eapply succeeds_rtc; [|done]. apply rtc_once. split; [done|apply Hi']. }
    destruct Hf as (s1 & Hsteps & Hi1 & Hh1 & Hcs1 & (P & r1 & Q1 & HP1' & Hr1 & He1) & Hc1 & Hd1).
    destruct (turn_return s1 b' (step_of st c).2 s b st π P1 c (P2 ++ r :: Q) P r1 Q1) as (lg & sq & Hlo & Hback); try done.
    { congruence. }
    { by rewrite Hh1. }
    set (s2 := mkSearch (s_heap s) (head (P2 ++ r :: Q)) st b (s_cache s1) (s_calls s) lg sq) in *.
    assert (rtc tstep s s2) as Hs2.
    { eapply rtc_l; [split; [exact Hturn|apply Hi']|]. etrans; [exact Hsteps|]. by apply rtc_once. }
    assert (∀ e, in_cache (s_cache s2) e → in_cache (s_cache s) e ∨ dead (linearized e) (cstate e)) as Hc2.
    { intros e [[?| ->]%Hcache|?]%Hc1; [by left|by right|by right]. }
    assert (inv s2 b st π) as Hi2.
    { destruct Hi. constructor; try done. intros e [?|?]%Hc2; [auto|by left]. }
    destruct (IH s2 (P1 ++ [c])) as [Hs|Hf]; try done; [|left|right].
    + apply Hdead2. intros _. by rewrite <-Hrem'.
    + by eapply succeeds_rtc.
    + by eapply fails_rtc.
Qed.

Lemma takeWhile_calls (L : list loc) :
  wf_list mt L → L ≠ [] → ∃ P r Q, L = P ++ r :: Q ∧ mt r = None ∧ ∀ x, x ∈ P → is_Some (mt x).
Proof.
  intros Hw Hne. assert (∃ r, r ∈ L ∧ mt r = None) as (r & Hr & Hm).
  { destruct L as [|l L]; [done|]. destruct (mt l) as [r|] eqn:Hl; [|exists l; split; [by left|done]].
    destruct (wl_call _ _ Hw l r) as [[_ ?]%before_in ?]; [by left|done|by exists r]. }
  clear Hw Hne. induction L as [|l L IH]; [by apply not_elem_of_nil in Hr|].
  destruct (mt l) as [x|] eqn:Hl.
  - apply elem_of_cons in Hr as [->|Hr]; [congruence|]. destruct (IH Hr) as (P & r1 & Q & -> & ? & HP).
    exists (l :: P), r1, Q. split_and!; [done..|]. intros y [->|?]%elem_of_cons; [by rewrite Hl|by apply HP].
  - exists [], l, L. split_and!; [done..|]. by intros ? ?%not_elem_of_nil.
Qed.

Theorem search_from s b st π :
  inv s b st π → s_entry s = head (remaining b) → succeeds s ∨ fails s b st π.
Proof.
  remember (length (remaining b)) as m eqn:Hm. revert s b st π Hm.
  induction (lt_wf m) as [m _ IH]. intros s b st π -> Hi He.
  destruct (decide (remaining b = [])) as [Hnil|Hne]; [left; by exists s, b, st, π|].
  destruct (takeWhile_calls _ (remaining_wf _ _ _ _ Hi) Hne) as (P & r & Q & Hrem & Hr & HP).
  apply (search_calls s b st π [] P r Q); try done.
  - intros. by eapply IH.
  - by rewrite He, Hrem.
  - by intros ? ? ?%not_elem_of_nil.
Qed.

Lemma turn_finished s b st π :
  inv s b st π → remaining b = [] →
  ∃ longest seqs, turn model computePartial n (Some hd) false s = Ret (inr (true, (longest, seqs))) ∧
    longest_ok longest seqs ∧ last seqs = Some (idn <$> π).
Proof.
  intros Hi Hnil. pose proof (iv_chain _ _ _ _ Hi) as Hc. rewrite Hnil in Hc. destruct Hc as [[nh Hnh] Hn].
  unfold next in Hn. rewrite Hnh in Hn. simpl in Hn. unfold turn. simpl. rewrite Hnh. simpl. rewrite Hn.
  unfold finishSearch. rewrite (callIds_path _ _ _ _ Hi). simpl.
  rewrite go_fill_len by apply (lo_len _ _ (iv_longest _ _ _ _ Hi)). simpl.
  eexists _, _. split_and!; [done| |by rewrite last_snoc]. constructor.
  - by rewrite length_replicate.
  - intros p [i [Hi' _]%lookup_replicate]%list_elem_of_lookup. injection Hi' as ->. rewrite length_app. simpl. lia.
  - intros seq [Hs|Hs]%elem_of_app; [by apply (lo_seqs _ _ (iv_longest _ _ _ _ Hi))|].
    apply list_elem_of_singleton in Hs as ->. eexists _, _, _. split; [apply Hi|done].
Qed.

(** From its initial state the search ends, after finitely many turns that do
    not panic, and finds a linearization exactly when there is one. *)
Definition verdict (res : single_result) : Prop :=
  longest_ok res.2.1 res.2.2 ∧
  (res.1 = true ↔ linearizable (Step model) (calls_of mt L0) (precedes mt L0) op (Init model)) ∧
  (res.1 = true → ∃ π, last res.2.2 = Some (idn <$> π) ∧
     linearization (Step model) (calls_of mt L0) (precedes mt L0) op (Init model) π).

Theorem search_decides s b :
  inv s b (Init model) [] → remaining b = L0 → s_entry s = head L0 →
  ∃ s1 res, rtc tstep s s1 ∧ turn model computePartial n (Some hd) false s1 = Ret (inr res) ∧ verdict res.
Proof.
  intros Hi Hrem He. rewrite <-Hrem in He. destruct (search_from _ _ _ _ Hi He) as [Hs|Hf].
  - destruct Hs as (s1 & b1 & st1 & π1 & Hs & Hi1 & Hnil).
    destruct (turn_finished _ _ _ _ Hi1 Hnil) as (longest & seqs & Hend & Hlo & Hlast).
    assert (linearization (Step model) (calls_of mt L0) (precedes mt L0) op (Init model) π1) as Hlin.
    { apply reach_linearization; [apply Hly|]. exists st1. rewrite <-Hnil. apply (iv_path _ _ _ _ Hi1). }
    eexists _, _. split_and!; [done..|]. split_and!; [done|by split; [exists π1|]|by exists π1].
  - destruct Hf as (s1 & Hs & Hi1 & _ & Hcs & (P & r & Q & HP & Hr & He1) & _ & Hd).
    exists s1, (false, (s_longest s1, s_seqs s1)). split_and!; [done| |split_and!; [apply Hi1| |done]].
    + destruct (head_not_nil _ _ _ _ _ _ _ Hi1 HP) as (nh & p & Hnh & Hnx).
      destruct (chain_next _ _ _ _ _ _ _ Hi1 HP) as (nr & Hnr & Hm & _). rewrite Hr in Hm.
      unfold turn. simpl. rewrite Hnh. simpl. rewrite Hnx, He1. simpl. rewrite Hnr. simpl. rewrite Hm, Hcs.
      pose proof (iv_calls _ _ _ _ Hi) as Hnil. by apply fmap_nil_inv in Hnil as ->.
    + split; [done|]. intros [π Hlin]. exfalso. apply Hd. exists π.
      apply reach_linearization; [rewrite Hrem; apply Hly|]. by rewrite Hrem.
Qed.
End search.
