(* ===== verification/PorcupineEntries.v ===== *)
(** * The entries of a history and the start of the search

    [complete es ops]: the entries [es] are the calls and returns of the
    operations [ops], every call before its return.  [makeLinkedEntries]
    turns them into a chain, and [startSearch] into a state that satisfies the
    invariant of the search. *)

From stdpp Require Import prelude gmap strings list relations.
From S2P Require Import Prelude Bitset Porcupine PorcupineList Linearizability PorcupineSearch.
Local Open Scope Z_scope.

(** The locations of the chain: the first entry is allocated last. *)
Fixpoint down (k : nat) : list loc :=
  match k with
  | O => []
  | S k' => k' :: down k'
  end.

Lemma elem_of_down k l : l ∈ down k ↔ (l < k)%nat.
Proof.
  induction k as [|k IH]; simpl; [rewrite elem_of_nil; lia|]. rewrite elem_of_cons, IH. lia.
Qed.

Lemma NoDup_down k : NoDup (down k).
Proof. induction k; simpl; constructor; [rewrite elem_of_down; lia|done]. Qed.

Lemma before_down k x y : before (down k) x y ↔ (y < x < k)%nat.
Proof. induction k as [|k IH]; simpl; [lia|]. rewrite IH, elem_of_down. lia. Qed.

Lemma length_down k : length (down k) = k.
Proof. induction k; simpl; congruence. Qed.

Section linking.
Context {X Y : Type}.
Implicit Types (h : list (node X Y)) (nd : node X Y) (es res : list (entry X Y)) (e : entry X Y).

(** A chain whose first node has no predecessor. *)
Definition rooted h (L : list loc) : Prop :=
  match L with
  | [] => True
  | l :: L' => prev h l = None ∧ chain h l L'
  end.

Lemma content_app h nd l : (l < length h)%nat → content (h ++ [nd]) l = content h l.
Proof. intros Hl. unfold content. by rewrite lookup_app_l. Qed.

Lemma chain_app_heap h nd l L : chain h l L → chain (h ++ [nd]) l L.
Proof.
  revert l. induction L as [|x L IH]; intros l; simpl.
  - intros [[n Hn] ?]. unfold next in *. rewrite lookup_app_l by (by eapply lookup_lt_Some).
    by rewrite Hn in *.
  - intros (Hn & Hp & Hc). pose proof (next_is_Some _ _ _ Hn) as [n Hn']. pose proof (prev_is_Some _ _ _ Hp) as [m Hm'].
    split_and!; [| |by apply IH]; unfold next, prev in *; by rewrite lookup_app_l by (by eapply lookup_lt_Some).
Qed.

(** [insertBefore] puts a new node in front. *)
Lemma insertBefore_front h nd L :
  rooted h L → NoDup L → (∀ l, l ∈ L → (l < length h)%nat) → n_next nd = None → n_prev nd = None →
  ∃ h', insertBefore (h ++ [nd]) (Some (length h)) (head L) = Ret h' ∧
    chain h' (length h) L ∧ prev h' (length h) = None ∧ length h' = S (length h) ∧
    ∀ l, content h' l = content (h ++ [nd]) l.
Proof.
  intros Hroot Hnd Hlt Hnx Hpv.
  assert ((h ++ [nd]) !! length h = Some nd) as Hnew by (by rewrite lookup_app_r, Nat.sub_diag).
  destruct L as [|m L].
  { simpl. exists (h ++ [nd]). unfold next, prev. rewrite Hnew, length_app. simpl.
    split_and!; [done|by eexists|done|done|lia|done]. }
  destruct Hroot as [Hm Hc]. apply (chain_app_heap h nd) in Hc.
  pose proof (Hlt m (list_elem_of_here _ _)) as Hml.
  destruct (lookup_lt_is_Some_2 h m Hml) as [nm Hnm].
  assert ((h ++ [nd]) !! m = Some nm) as Hnm' by (by rewrite lookup_app_l).
  assert (n_prev nm = None) as Hpm by (unfold prev in Hm; by rewrite Hnm in Hm).
  set (h1 := h ++ [nd]) in *. unfold insertBefore. cbn [head]. rewrite (load_Some _ _ _ Hnm'), bind_Ret, Hpm. cbv zeta.
  rewrite (store_alter h1 m _ nm Hnm'), bind_Ret.
  assert (alter (set_prev (Some (length h))) m h1 !! length h = Some nd) as Hnew1
    by (rewrite list_lookup_alter_ne by lia; done).
  assert (is_Some (alter (set_prev (Some (length h))) m h1 !! length h)) as Hs1 by (by rewrite Hnew1).
  rewrite (store_alter _ (length h) _ nd Hnew1), bind_Ret. eexists. cbn [chain]. split_and!; [done|..].
  - rewrite next_alter_next by done. by rewrite decide_True.
  - rewrite prev_alter_next, prev_alter_prev by (by rewrite Hnm'). by rewrite decide_True.
  - apply NoDup_cons in Hnd as [HmL _]. revert Hc. apply chain_frame; [| |by rewrite !length_alter].
    + intros x Hx. rewrite next_alter_next, next_alter_prev by done. rewrite decide_False; [done|].
      intros ->. pose proof (Hlt _ Hx). lia.
    + intros x Hx. rewrite prev_alter_next, prev_alter_prev by (by rewrite Hnm').
      rewrite decide_False; [done|]. by intros ->.
  - rewrite prev_alter_next, prev_alter_prev by (by rewrite Hnm'). rewrite decide_False by lia.
    unfold prev. by rewrite Hnew.
  - rewrite !length_alter. unfold h1. rewrite length_app. simpl. lia.
  - intros l. by rewrite !content_alter.
Qed.

(** ** [makeLinkedEntries] *)

Definition is_return (res : list (entry X Y)) (i : Z) (r : loc) : Prop :=
  ∃ e, res !! r = Some e ∧ kind e = returnEntry ∧ id e = i.

(** The heap after the entries [res] (from the last to the first). *)
Record linked res h (mtch : gmap Z loc) : Prop := {
  lk_length : length h = length res;
  lk_match : ∀ i r, mtch !! i = Some r ↔ is_return res i r;
  lk_content : ∀ l e, res !! l = Some e →
    ∃ m, content h l = Some (Some (value e), m, id e) ∧
      match kind e with
      | returnEntry => m = None
      | callEntry => ∀ r, m = Some r ↔ (r < l)%nat ∧ is_return res (id e) r
      end;
  lk_rooted : rooted h (down (length res));
}.

Definition unique_returns res : Prop := ∀ i r r', is_return res i r → is_return res i r' → r = r'.

Lemma is_return_snoc res e i r :
  is_return (res ++ [e]) i r ↔ is_return res i r ∨ (r = length res ∧ kind e = returnEntry ∧ id e = i).
Proof.
  unfold is_return. split.
  - intros (e' & [He|[Hlen He]]%lookup_app_Some & Hk & Hi); [left; eauto|right].
    apply list_lookup_singleton_Some in He as [? <-]. split_and!; [lia|done..].
  - intros [(e' & He & Hk & Hi)|(-> & Hk & Hi)]; [exists e'|exists e]; split_and!; try done.
    + by apply lookup_app_l_Some.
    + by rewrite lookup_app_r, Nat.sub_diag.
Qed.

Lemma is_return_lt res i r : is_return res i r → (r < length res)%nat.
Proof. intros (e & He & _). by eapply lookup_lt_Some. Qed.

Lemma linked_snoc res h mtch e nd :
  linked res h mtch → unique_returns (res ++ [e]) →
  n_value nd = Some (value e) → n_id nd = id e → n_next nd = None → n_prev nd = None →
  n_match nd = match kind e with returnEntry => None | callEntry => mtch !! id e end →
  ∃ h', insertBefore (h ++ [nd]) (Some (length h)) (head (down (length res))) = Ret h' ∧
    linked (res ++ [e]) h' (match kind e with returnEntry => <[id e := length h]> mtch | callEntry => mtch end).
Proof.
  intros [Hlen Hmt Hct Hroot] Huniq Hv Hid Hnx Hpv Hm.
  destruct (insertBefore_front h nd (down (length res)) Hroot (NoDup_down _)) as (h' & Hins & Hc & Hp & Hl & Hcont);
    [intros l; rewrite elem_of_down; lia|done|done|].
  exists h'. split; [done|]. constructor.
  - rewrite length_app. simpl. lia.
  - intros i r. rewrite is_return_snoc, <-Hmt. destruct (kind e) eqn:Hk.
    + split; [by left|]. by intros [?|(_ & ? & _)].
    + destruct (decide (i = id e)) as [->|Hne].
      * rewrite lookup_insert_eq. split; [intros [= <-]; right; by rewrite <-Hlen|].
        intros [Hold|(-> & _ & _)]; [|by rewrite Hlen]. rewrite Hmt in Hold.
        f_equal. rewrite Hlen. apply (Huniq (id e)); rewrite is_return_snoc; [by right|by left].
      * rewrite lookup_insert_ne by done. split; [by left|]. by intros [?|(_ & _ & ?)].
  - intros l e' [Hl'|[Hge Hl']]%lookup_app_Some.
    + destruct (Hct l e' Hl') as (m & Hcm & Hkm). pose proof (lookup_lt_Some _ _ _ Hl').
      exists m. rewrite Hcont, content_app by lia. split; [done|]. destruct (kind e'); [|done].
      intros r. rewrite Hkm, is_return_snoc. intuition lia.
    + apply list_lookup_singleton_Some in Hl' as [Hl0 <-]. assert (l = length h) as -> by lia.
      exists (n_match nd). rewrite Hcont. unfold content. rewrite lookup_app_r, Nat.sub_diag by done. simpl.
      rewrite Hv, Hid, Hm. split; [done|]. destruct (kind e) eqn:Hk; [|done].
      intros r. rewrite Hmt, is_return_snoc. split.
      * intros Hr. pose proof (is_return_lt _ _ _ Hr). split; [lia|by left].
      * intros [_ [?|(_ & ? & _)]]; [done|congruence].
  - rewrite length_app, Nat.add_1_r. simpl. by rewrite Hlen in Hp, Hc.
Qed.

Lemma linkLoop_linked todo res h mtch :
  linked res h mtch → unique_returns (res ++ todo) →
  ∃ h' mtch', linkLoop todo h (head (down (length res))) mtch = Ret (h', head (down (length (res ++ todo)))) ∧
    linked (res ++ todo) h' mtch'.
Proof.
  revert res h mtch. induction todo as [|e todo IH]; intros res h mtch Hlk Huniq; simpl.
  - rewrite app_nil_r in *. by exists h, mtch.
  - assert (res ++ e :: todo = (res ++ [e]) ++ todo) as Heq by (by rewrite <-app_assoc). rewrite Heq in *. clear Heq.
    assert (unique_returns (res ++ [e])) as Hu.
    { intros i r r' (e1 & He1 & ? & ?) (e2 & He2 & ? & ?).
      apply (Huniq i); [exists e1|exists e2]; split_and!; try done; by apply lookup_app_l_Some. }
    assert (∀ h' mt', linked (res ++ [e]) h' mt' → ∃ h'' mt'',
      linkLoop todo h' (Some (length h)) mt' = Ret (h'', head (down (length ((res ++ [e]) ++ todo)))) ∧
      linked ((res ++ [e]) ++ todo) h'' mt'') as Hgo.
    { intros h' mt' Hlk'. destruct (IH _ _ _ Hlk' Huniq) as (h'' & mt'' & Hloop & ?).
      rewrite length_app, Nat.add_1_r, <-(lk_length _ _ _ Hlk) in Hloop. eauto. }
    destruct (kind e) eqn:Hk.
    + destruct (linked_snoc res h mtch e (mkNode (Some (value e)) (mtch !! id e) (id e) None None) Hlk Hu)
        as (h' & Hins & Hlk'); [done..|by rewrite Hk|]. simpl in Hins. rewrite Hins. simpl. rewrite Hk in Hlk'. by apply Hgo.
    + destruct (linked_snoc res h mtch e (mkNode (Some (value e)) None (id e) None None) Hlk Hu)
        as (h' & Hins & Hlk'); [done..|by rewrite Hk|]. simpl in Hins. rewrite Hins. simpl. rewrite Hk in Hlk'. by apply Hgo.
Qed.

Lemma makeLinkedEntries_linked es :
  unique_returns (reverse es) →
  ∃ h mtch, makeLinkedEntries es = Ret (h, head (down (length es))) ∧ linked (reverse es) h mtch.
Proof.
  intros Hu. destruct (linkLoop_linked (reverse es) [] [] ∅) as (h & mtch & Hloop & Hlk); [|done|].
  - constructor; [done| |done|done]. intros i r. rewrite lookup_empty. split; [done|]. by intros (? & ? & _).
  - exists h, mtch. split; [|done]. unfold makeLinkedEntries. simpl in Hloop.
    by rewrite length_reverse in Hloop.
Qed.

Lemma lengthLoop_chain fuel h l L acc :
  chain h l L → (length L + 2 ≤ fuel)%nat → lengthLoop fuel h (Some l) acc = Ret (acc + 1 + zlen L).
Proof.
  revert fuel l acc. induction L as [|x L IH]; intros [|fuel] l acc; simpl; try lia.
  - intros [[n Hn] Hnx] Hf. rewrite Hn. simpl. unfold next in Hnx. rewrite Hn in Hnx. simpl in Hnx. rewrite Hnx.
    destruct fuel; [lia|]. simpl. f_equal. lia.
  - intros (Hnx & _ & Hc) Hf. unfold next in Hnx. destruct (h !! l) as [n|]; [|done]. simpl in *. rewrite Hnx.
    rewrite IH by (done || lia). f_equal. lia.
Qed.

Lemma node_length_down k h : rooted h (down k) → length h = k → node_length h (head (down k)) = Ret (Z.of_nat k).
Proof.
  intros Hr Hl. unfold node_length. destruct k as [|k]; [done|]. simpl head. destruct Hr as [_ Hc].
  rewrite (lengthLoop_chain _ _ _ _ _ Hc) by (rewrite length_down; lia). f_equal. rewrite length_down. lia.
Qed.
End linking.

(** ** Complete histories *)

(** The return of operation [a] comes before the call of operation [b]. *)
Definition entry_prec {X Y} (es : list (entry X Y)) (a b : Z) : Prop :=
  ∃ (i j : nat) r c, (i < j)%nat ∧ es !! i = Some r ∧ kind r = returnEntry ∧ id r = a ∧
    es !! j = Some c ∧ kind c = callEntry ∧ id c = b.

Record complete {X Y} (es : list (entry X Y)) (ops : list (X * Y)) : Prop := {
  cp_length : zlen es = 2 * zlen ops;
  cp_both : ∀ k, 0 ≤ k < zlen ops → ∃ (i j : nat) c r, (i < j)%nat ∧
    es !! i = Some c ∧ kind c = callEntry ∧ id c = k ∧ es !! j = Some r ∧ kind r = returnEntry ∧ id r = k;
  cp_unique : ∀ (i j : nat) e e', es !! i = Some e → es !! j = Some e' → kind e = kind e' → id e = id e' → i = j;
  cp_value : ∀ (i : nat) e, es !! i = Some e → 0 ≤ id e ∧
    ∃ o, ops !! Z.to_nat (id e) = Some o ∧
      value e = match kind e with callEntry => inl o.1 | returnEntry => inr o.2 end;
}.

Section start.
Context {X Y St : Type} (model : Model X Y St).
Context (es : list (entry X Y)) (ops : list (X * Y)) (o0 : X * Y).
Hypothesis Hcomp : complete es ops.

Definition res : list (entry X Y) := reverse es.

Lemma res_lookup (l : nat) e : res !! l = Some e → es !! (length es - S l)%nat = Some e ∧ (l < length es)%nat.
Proof.
  intros Hl. pose proof (lookup_lt_Some _ _ _ Hl) as Hlt. unfold res in *. rewrite length_reverse in Hlt.
  split; [|done]. by rewrite reverse_lookup in Hl.
Qed.

Lemma res_lookup_r (i : nat) e : es !! i = Some e → res !! (length es - S i)%nat = Some e.
Proof.
  intros Hi. pose proof (lookup_lt_Some _ _ _ Hi). unfold res. rewrite reverse_lookup by lia.
  by replace (length es - S (length es - S i))%nat with i by lia.
Qed.

Lemma res_unique (l l' : nat) e e' :
  res !! l = Some e → res !! l' = Some e' → kind e = kind e' → id e = id e' → l = l'.
Proof.
  intros [H1 ?]%res_lookup [H2 ?]%res_lookup Hk Hi. pose proof (cp_unique _ _ Hcomp _ _ _ _ H1 H2 Hk Hi). lia.
Qed.

Lemma res_unique_returns : unique_returns res.
Proof.
  intros i r r' (e & He & Hk & Hi) (e' & He' & Hk' & Hi'). apply (res_unique r r' e e'); congruence.
Qed.

(** The return of a call. *)
Lemma res_return (l : nat) e : res !! l = Some e → kind e = callEntry → ∃ r, (r < l)%nat ∧ is_return res (id e) r.
Proof.
  intros Hl Hk. destruct (res_lookup _ _ Hl) as [He Hlt].
  destruct (cp_value _ _ Hcomp _ _ He) as (Hpos & o & Ho & _). pose proof (lookup_lt_Some _ _ _ Ho).
  destruct (cp_both _ _ Hcomp (id e)) as (i & j & c & r & Hij & Hc & Hkc & Hic & Hr & Hkr & Hir); [lia|].
  exists (length es - S j)%nat. pose proof (lookup_lt_Some _ _ _ Hr).
  assert (i = (length es - S l)%nat) by (eapply (cp_unique _ _ Hcomp); [done|exact He|congruence..]).
  split; [lia|]. exists r. split; [by apply res_lookup_r|done].
Qed.

Lemma res_call (l : nat) e :
  res !! l = Some e → kind e = returnEntry → ∃ c ce, (l < c)%nat ∧ res !! c = Some ce ∧ kind ce = callEntry ∧ id ce = id e.
Proof.
  intros Hl Hk. destruct (res_lookup _ _ Hl) as [He Hlt].
  destruct (cp_value _ _ Hcomp _ _ He) as (Hpos & o & Ho & _). pose proof (lookup_lt_Some _ _ _ Ho).
  destruct (cp_both _ _ Hcomp (id e)) as (i & j & c & r & Hij & Hc & Hkc & Hic & Hr & Hkr & Hir); [lia|].
  exists (length es - S i)%nat, c.
  assert (j = (length es - S l)%nat) by (eapply (cp_unique _ _ Hcomp); [done|exact He|congruence..]).
  split_and!; [lia|by apply res_lookup_r|done..].
Qed.

Section heap.
Context (h : list (node X Y)) (mtch : gmap Z loc).
Hypothesis Hlk : linked res h mtch.

Definition mt_of (l : loc) : option loc := content h l ≫= λ c, c.1.2.

Definition id_of (l : loc) : Z := from_option (λ c, c.2) 0 (content h l).

Definition op_of (l : loc) : X * Y := default o0 (ops !! Z.to_nat (id_of l)).

Lemma res_at (l : loc) : l ∈ down (length es) → ∃ e, res !! l = Some e.
Proof. rewrite elem_of_down. intros Hl. apply lookup_lt_is_Some_2. unfold res. by rewrite length_reverse. Qed.

Lemma id_of_res l e : res !! l = Some e → id_of l = id e.
Proof. intros Hl. unfold id_of. by destruct (lk_content _ _ _ Hlk l e Hl) as (m & -> & _). Qed.

Lemma mt_of_return l e : res !! l = Some e → kind e = returnEntry → mt_of l = None.
Proof. intros Hl Hk. unfold mt_of. destruct (lk_content _ _ _ Hlk l e Hl) as (m & -> & Hm). by rewrite Hk in Hm. Qed.

Lemma mt_of_call l e r :
  res !! l = Some e → kind e = callEntry → mt_of l = Some r ↔ (r < l)%nat ∧ is_return res (id e) r.
Proof.
  intros Hl Hk. unfold mt_of. destruct (lk_content _ _ _ Hlk l e Hl) as (m & -> & Hm). rewrite Hk in Hm. apply Hm.
Qed.

Lemma mt_of_Some l e r : res !! l = Some e → mt_of l = Some r → kind e = callEntry.
Proof. intros Hl Hm. destruct (kind e) eqn:Hk; [done|]. by rewrite (mt_of_return l e Hl Hk) in Hm. Qed.

Lemma mt_of_None l e : res !! l = Some e → mt_of l = None → kind e = returnEntry.
Proof.
  intros Hl Hm. destruct (kind e) eqn:Hk; [|done]. destruct (res_return l e Hl Hk) as (r & Hr).
  apply (mt_of_call l e r Hl Hk) in Hr. congruence.
Qed.

Lemma wf_down : wf_list mt_of (down (length es)).
Proof.
  constructor.
  - apply NoDup_down.
  - intros c r [e He]%res_at Hm. pose proof (mt_of_Some c e r He Hm) as Hk.
    apply (mt_of_call c e r He Hk) in Hm as [Hlt (er & Her & Hkr & _)]. split; [|by eapply mt_of_return].
    apply before_down. apply res_lookup in He as [_ ?]. lia.
  - intros r [e He]%res_at Hm. pose proof (mt_of_None r e He Hm) as Hk.
    destruct (res_call r e He Hk) as (c & ce & Hlt & Hc & Hkc & Hi). exists c.
    rewrite elem_of_down. split; [by apply res_lookup in Hc as [_ ?]|]. apply (mt_of_call c ce r Hc Hkc).
    split; [done|]. by exists e.
  - intros c c' r [e He]%res_at [e' He']%res_at Hm Hm'.
    pose proof (mt_of_Some c e r He Hm) as Hk. pose proof (mt_of_Some c' e' r He' Hm') as Hk'.
    apply (mt_of_call c e r He Hk) in Hm as [_ (er & Her & _ & Hir)].
    apply (mt_of_call c' e' r He' Hk') in Hm' as [_ (er' & Her' & _ & Hir')].
    apply (res_unique c c' e e'); congruence.
Qed.

Lemma op_of_res l e : res !! l = Some e →
  value e = match kind e with callEntry => inl (op_of l).1 | returnEntry => inr (op_of l).2 end ∧ 0 ≤ id e < zlen ops.
Proof.
  intros Hl. destruct (res_lookup _ _ Hl) as [He _]. destruct (cp_value _ _ Hcomp _ _ He) as (Hpos & o & Ho & Hv).
  unfold op_of. rewrite (id_of_res _ _ Hl), Ho. simpl. pose proof (lookup_lt_Some _ _ _ Ho). split; [done|lia].
Qed.

(** The heap with the head node satisfies what the search needs. *)
Lemma layout_down h0 hd blen :
  (∀ l, l ∈ down (length es) → content h0 l = content h l) → hd ∉ down (length es) →
  zlen ops ≤ 64 * Z.of_nat blen → zlen ops < 2 ^ 64 →
  layout h0 hd (down (length es)) (zlen ops) blen mt_of id_of op_of.
Proof.
  intros Hct Hhd Hcap Hsm. constructor; [apply wf_down|done| | | |done|done].
  - intros c r Hc Hm. destruct (res_at c Hc) as [e He]. pose proof (mt_of_Some c e r He Hm) as Hk.
    pose proof (proj1 (mt_of_call c e r He Hk) Hm) as [Hlt (er & Her & Hkr & Hir)].
    assert (r ∈ down (length es)) as Hr by (apply elem_of_down; by apply res_lookup in Her as [_ ?]).
    assert (id_of r = id_of c) as Hid by (rewrite (id_of_res _ _ He), (id_of_res _ _ Her); done).
    rewrite !Hct by done. split_and!; [| |done].
    + destruct (lk_content _ _ _ Hlk c e He) as (m & Hcc & _). pose proof (op_of_res c e He) as [Hv _].
      unfold mt_of in Hm. rewrite Hcc in *. simpl in Hm. rewrite Hk in Hv. rewrite Hv, Hm, (id_of_res _ _ He). done.
    + destruct (lk_content _ _ _ Hlk r er Her) as (m & Hcc & Hmr). pose proof (op_of_res r er Her) as [Hv _].
      rewrite Hkr in Hv, Hmr. rewrite Hcc, Hv, Hmr. unfold op_of. rewrite Hid, (id_of_res _ _ He). by rewrite Hir.
  - intros l [e He]%res_at. rewrite (id_of_res _ _ He). apply (op_of_res l e He).
  - intros c c' [e He]%res_at [e' He']%res_at [r Hm] [r' Hm'] Hid.
    rewrite (id_of_res _ _ He), (id_of_res _ _ He') in Hid. apply (res_unique c c' e e'); [done..| |done].
    by rewrite (mt_of_Some _ _ _ He Hm), (mt_of_Some _ _ _ He' Hm').
Qed.

Lemma precedes_entry a b :
  a ∈ calls_of mt_of (down (length es)) → b ∈ calls_of mt_of (down (length es)) →
  precedes mt_of (down (length es)) a b ↔ entry_prec es (id_of a) (id_of b).
Proof.
  intros [[ra Ha] [ea Hea]%res_at]%list_elem_of_filter [[rb Hb] [eb Heb]%res_at]%list_elem_of_filter.
  pose proof (mt_of_Some _ _ _ Hea Ha) as Hka. pose proof (mt_of_Some _ _ _ Heb Hb) as Hkb.
  rewrite (id_of_res _ _ Hea), (id_of_res _ _ Heb).
  pose proof (proj1 (mt_of_call a ea ra Hea Hka) Ha) as [_ (er & Her & Hkr & Hir)].
  destruct (res_lookup _ _ Her) as [Her' ?]. destruct (res_lookup _ _ Heb) as [Heb' ?].
  unfold precedes. rewrite Ha. split.
  - intros (r & [= <-] & Hbf%before_down). exists (length es - S ra)%nat, (length es - S b)%nat, er, eb.
    split_and!; (done || lia).
  - intros (i & j & r & c & Hij & Hr & Hkr' & Hir' & Hc & Hkc & Hic). exists ra. split; [done|]. apply before_down.
    assert (i = (length es - S ra)%nat) by (eapply (cp_unique _ _ Hcomp); [done|exact Her'|congruence..]).
    assert (j = (length es - S b)%nat) by (eapply (cp_unique _ _ Hcomp); [done|exact Heb'|congruence..]). lia.
Qed.

(** The calls are the operations. *)
Definition tag_of (l : loc) : nat * (X * Y) := (Z.to_nat (id_of l), op_of l).

Lemma tag_inj a b :
  a ∈ calls_of mt_of (down (length es)) → b ∈ calls_of mt_of (down (length es)) → tag_of a = tag_of b → a = b.
Proof.
  intros [[ra Ha] [ea Hea]%res_at]%list_elem_of_filter [[rb Hb] [eb Heb]%res_at]%list_elem_of_filter Heq.
  injection Heq as Hid _. rewrite (id_of_res _ _ Hea), (id_of_res _ _ Heb) in Hid.
  pose proof (op_of_res _ _ Hea) as [_ ?]. pose proof (op_of_res _ _ Heb) as [_ ?].
  apply (res_unique a b ea eb); [done..| |lia]. by rewrite (mt_of_Some _ _ _ Hea Ha), (mt_of_Some _ _ _ Heb Hb).
Qed.

(** Every operation has its call in the chain. *)
Lemma call_of_id k : 0 ≤ k < zlen ops → ∃ c, c ∈ calls_of mt_of (down (length es)) ∧ id_of c = k.
Proof.
  intros Hk. destruct (cp_both _ _ Hcomp k Hk) as (i & j & c & r & _ & Hc%res_lookup_r & Hkc & Hic & _).
  exists (length es - S i)%nat. rewrite (id_of_res _ _ Hc). split; [|done]. apply list_elem_of_filter. split.
  - destruct (res_return _ _ Hc Hkc) as (r' & Hr'). exists r'. by apply (mt_of_call _ _ _ Hc Hkc).
  - apply elem_of_down. by apply res_lookup in Hc as [_ ?].
Qed.

Lemma id_of_range l : l ∈ down (length es) → 0 ≤ id_of l < zlen ops.
Proof. intros [e He]%res_at. rewrite (id_of_res _ _ He). apply (op_of_res l e He). Qed.

Lemma calls_tagged : tag_of <$> calls_of mt_of (down (length es)) ≡ₚ imap pair ops.
Proof.
  apply NoDup_Permutation.
  - apply NoDup_fmap_2_strong; [|apply NoDup_filter, NoDup_down]. apply tag_inj.
  - apply NoDup_alt. intros i j [x o] Hi Hj. rewrite list_lookup_imap in Hi, Hj.
    destruct (ops !! i), (ops !! j); simplify_eq/=; done.
  - intros [k o]. rewrite list_elem_of_fmap, elem_of_lookup_imap. split.
    + intros (l & Htag & [_ [e He]%res_at]%list_elem_of_filter). injection Htag as -> ->.
      pose proof (op_of_res _ _ He) as [_ ?]. unfold op_of. rewrite (id_of_res _ _ He).
      destruct (lookup_lt_is_Some_2 ops (Z.to_nat (id e))) as [o Ho]; [lia|]. exists (Z.to_nat (id e)), o.
      by rewrite Ho.
    + intros (k' & o' & [= <- <-] & Ho). pose proof (lookup_lt_Some _ _ _ Ho).
      destruct (call_of_id (Z.of_nat k)) as (c & Hc & Hid); [lia|]. exists c. split; [|done].
      unfold tag_of, op_of. by rewrite Hid, Nat2Z.id, Ho.
Qed.
End heap.
End start.

(** ** The start of the search *)

Section check_entries.
Context {X Y St : Type} (model : Model X Y St) (es : list (entry X Y)) (ops : list (X * Y)).

(** The operations can be ordered as the specification wants. *)
Definition entries_linearizable : Prop :=
  linearizable (Step model) (imap pair ops) (λ a b, entry_prec es (Z.of_nat a.1) (Z.of_nat b.1)) snd (Init model).

(** [seq] orders some of the operations, and every operation that returned
    before one of them was called is in its place. *)
Definition partial_linearization (seq : list Z) : Prop :=
  NoDup seq ∧ (∀ k, k ∈ seq → 0 ≤ k < zlen ops) ∧
  (∀ a b, 0 ≤ a < zlen ops → b ∈ seq → entry_prec es a b → before seq a b) ∧
  accepts (Step model) (Init model) (omap (λ k, ops !! Z.to_nat k) seq) = true.

Definition longest_sound (longest : list (option nat)) (seqs : list (list Z)) : Prop :=
  (∀ p, Some p ∈ longest → (p < length seqs)%nat) ∧ (∀ seq, seq ∈ seqs → partial_linearization seq).

Definition decides (res : single_result) : Prop :=
  longest_sound res.2.1 res.2.2 ∧ (res.1 = true ↔ entries_linearizable) ∧
  (res.1 = true → ∃ seq, last res.2.2 = Some seq ∧ partial_linearization seq ∧ seq ≡ₚ seqZ 0 (zlen ops)).

(** A turn of the search that goes on, with [longest] sound after it. *)
Definition goes_on (computePartial : bool) (n : Z) (head : option loc) (s s' : search X Y St) : Prop :=
  turn model computePartial n head false s = Ret (inl s') ∧ longest_sound (s_longest s') (s_seqs s').

(** The search ends with the right verdict. *)
Definition runs_to_verdict (computePartial : bool) (n : Z) (head : option loc) (s : search X Y St) : Prop :=
  longest_sound (s_longest s) (s_seqs s) ∧
  ∃ s1 r, rtc (goes_on computePartial n head) s s1 ∧
    turn model computePartial n head false s1 = Ret (inr r) ∧ decides r.

Lemma runs_checkLoop computePartial n head s :
  runs_to_verdict computePartial n head s →
  ∃ fuel r, decides r ∧ ∀ fuel' k, (fuel ≤ fuel')%nat →
    checkLoop model fuel' computePartial n head (λ _, false) k s = Ret r.
Proof.
  intros (_ & s1 & r & Hs & Hend & Hd). induction Hs as [s|s s' s1 [Hstep _] _ IH].
  - exists 1%nat, r. split; [done|]. intros [|fuel'] k Hle; [lia|]. simpl. by rewrite Hend.
  - destruct (IH Hend) as (fuel & r' & Hd' & Hfuel). exists (S fuel), r'. split; [done|].
    intros [|fuel'] k Hle; [lia|]. simpl. rewrite Hstep. simpl. apply Hfuel. lia.
Qed.

Section nonempty.
Context (o0 : X * Y) (h : list (node X Y)) (mtch : gmap Z loc).
Hypothesis Hcomp : complete es ops.
Hypothesis Hlk : linked (res es) h mtch.

Abbreviation L0 := (down (length es)).

Lemma path_partial π L' st' :
  reach (Step model) (mt_of h) (op_of ops o0 h) L0 (Init model) π L' st' → partial_linearization (id_of h <$> π).
Proof.
  intros Hre. pose proof (wf_down es ops Hcomp h mtch Hlk) as Hw.
  destruct (reach_partial _ _ _ _ _ _ _ _ Hw Hre) as (Hnd & Hacc & Hord).
  assert (∀ c, c ∈ π → c ∈ calls_of (mt_of h) L0 ∧ ∃ e, res es !! c = Some e ∧ kind e = callEntry) as Hsub.
  { intros c Hc. destruct (reach_subset _ _ _ _ _ _ _ _ c Hre Hc) as [HcL [r Hr]].
    split; [apply list_elem_of_filter; by rewrite Hr|]. destruct (res_at es c HcL) as [e He]. exists e. split; [done|].
    by eapply (mt_of_Some es). }
  assert (∀ c e, c ∈ π → res es !! c = Some e → 0 ≤ id e < zlen ops ∧ id_of h c = id e) as Hid.
  { intros c e _ He. split; [by eapply (op_of_res es ops o0 Hcomp h)|by eapply (id_of_res es)]. }
  split_and!.
  - apply NoDup_fmap_2_strong; [|done]. intros a b Ha Hb Heq.
    destruct (Hsub a Ha) as (_ & ea & Hea & Hka), (Hsub b Hb) as (_ & eb & Heb & Hkb).
    destruct (Hid a ea Ha Hea) as [_ Hia], (Hid b eb Hb Heb) as [_ Hib].
    apply (res_unique es ops Hcomp a b ea eb); congruence.
  - intros k (c & -> & Hc)%list_elem_of_fmap. destruct (Hsub c Hc) as (_ & e & He & _).
    destruct (Hid c e Hc He) as [? ->]. done.
  - intros a b Ha (c & -> & Hc)%list_elem_of_fmap Hab. destruct (Hsub c Hc) as (Hcc & e & He & Hk).
    destruct (call_of_id es ops Hcomp h mtch Hlk a Ha) as (ca & Hca & <-). apply before_fmap.
    apply Hord; [done..|]. by apply (precedes_entry es ops Hcomp h mtch Hlk).
  - rewrite <-Hacc. f_equal. clear -Hid Hsub Hcomp Hlk. induction π as [|c π IH]; [done|].
    rewrite !fmap_cons. simpl. destruct (Hsub c (list_elem_of_here _ _)) as (_ & e & He & _).
    destruct (Hid c e (list_elem_of_here _ _) He) as [? Hie]. unfold op_of at 1. rewrite Hie.
    destruct (lookup_lt_is_Some_2 ops (Z.to_nat (id e))) as [o Ho]; [lia|]. rewrite Ho. simpl. f_equal.
    apply IH; intros; [apply Hsub|eapply Hid; [|done]]; by right.
Qed.

Lemma verdict_decides n r :
  verdict model L0 n (mt_of h) (id_of h) (op_of ops o0 h) r → decides r.
Proof.
  intros ([_ Hptr Hseqs] & Hiff & Hyes). pose proof (wf_down es ops Hcomp h mtch Hlk) as Hw. split_and!.
  - split; [done|]. intros seq (π & L' & st' & Hre & ->)%Hseqs. by eapply path_partial.
  - rewrite Hiff. unfold entries_linearizable.
    rewrite <-(linearizable_fmap (Step model) (tag_of ops o0 h) (calls_of (mt_of h) L0) (precedes (mt_of h) L0)
      (λ a b, entry_prec es (Z.of_nat a.1) (Z.of_nat b.1)) (op_of ops o0 h) snd (Init model)).
    + pose proof (calls_tagged es ops o0 Hcomp h mtch Hlk) as Hp.
      split; apply linearizable_Permutation; [done|by symmetry].
    + apply (tag_inj es ops o0 Hcomp h mtch Hlk).
    + intros a b Ha Hb. simpl.
      pose proof (id_of_range es ops o0 Hcomp h mtch Hlk a (proj2 (proj1 (list_elem_of_filter _ _ _) Ha))).
      pose proof (id_of_range es ops o0 Hcomp h mtch Hlk b (proj2 (proj1 (list_elem_of_filter _ _ _) Hb))).
      rewrite !Z2Nat.id by lia. symmetry. by apply (precedes_entry es ops Hcomp h mtch Hlk).
    + done.
  - intros (π & Hlast & Hlin)%Hyes. exists (id_of h <$> π). split; [done|]. pose proof Hlin as (Hp & _ & _).
    apply reach_linearization in Hlin as [st' Hre]; [|done]. pose proof (path_partial _ _ _ Hre) as Hpart.
    split; [done|]. destruct Hpart as (Hnd & Hrange & _). apply NoDup_Permutation; [done|apply NoDup_seqZ|].
    intros k. rewrite elem_of_seqZ. split; [intros ?%Hrange; lia|]. intros Hk.
    destruct (call_of_id es ops Hcomp h mtch Hlk k) as (c & Hc & <-); [lia|].
    apply list_elem_of_fmap_2. by rewrite Hp.
Qed.
End nonempty.

Hypothesis Hcomp : complete es ops.
Hypothesis Hsmall : zlen ops < 2 ^ 64.

(** [Equal] may only identify states the specification cannot tell apart. *)
Definition equal_ok (eqf : St → St → bool) : Prop :=
  ∀ a a', eqf a a' = true → ∀ l, accepts (Step model) a l = accepts (Step model) a' l.

Lemma startSearch_shape :
  ∃ h h' mtch, linked (res es) h mtch ∧ length h = length es ∧
    chain h' (length es) (down (length es)) ∧ (∀ l, l ∈ down (length es) → content h' l = content h l) ∧
    startSearch model es = Ret (zlen ops, Some (length es),
      mkSearch h' (head (down (length es))) (Init model) (newBitset (zlen ops)) ∅ []
        (replicate (Z.to_nat (zlen ops)) None) []).
Proof.
  destruct (makeLinkedEntries_linked es (res_unique_returns es ops Hcomp)) as (h & mtch & Hmk & Hlk).
  pose proof (lk_length _ _ _ Hlk) as Hlen. pose proof (lk_rooted _ _ _ Hlk) as Hroot.
  rewrite length_reverse in Hlen, Hroot.
  destruct (insertBefore_front h (mkNode None None (-1) None None) (down (length es)) Hroot (NoDup_down _))
    as (h' & Hins & Hc & _ & _ & Hct); [intros l; rewrite elem_of_down; lia|done..|].
  exists h, h', mtch. split_and!; [done|done|by rewrite <-Hlen at 1| |].
  { intros l Hl%elem_of_down. rewrite Hct, content_app by lia. done. }
  unfold startSearch. rewrite Hmk, bind_Ret. rewrite (node_length_down _ _ Hroot Hlen), bind_Ret.
  rewrite Hins, bind_Ret. rewrite (cp_length _ _ Hcomp), Hlen.
  assert (Z.quot (2 * zlen ops) 2 = zlen ops) as -> by (rewrite Z.mul_comm; apply Z.quot_mul; lia).
  unfold uint64. rewrite Z.mod_small by lia. done.
Qed.

(** The search of a complete history starts, runs without a panic and ends
    with the right verdict. *)
Theorem startSearch_runs computePartial eqf :
  Equal model = Some eqf → equal_ok eqf →
  ∃ n head s, startSearch model es = Ret (n, head, s) ∧ runs_to_verdict computePartial n head s.
Proof.
  intros Heq Hobs. destruct startSearch_shape as (h & h' & mtch & Hlk & Hlen & Hc & Hct & Hstart).
  eexists _, _, _. split; [exact Hstart|]. split.
  { split; [|by intros ? ?%not_elem_of_nil]. intros p Hp. simpl in Hp.
    by apply elem_of_replicate_inv in Hp. }
  destruct ops as [|o0 ops'] eqn:Hops.
  { assert (length es = 0%nat) as He by (pose proof (cp_length _ _ Hcomp) as Hl; simpl in Hl; lia).
    rewrite He in *. destruct Hc as [[nh Hnh] Hn]. unfold next in Hn. rewrite Hnh in Hn. simpl in Hn.
    eexists _, (true, ([], [[]])). split_and!; [done| |split_and!].
    - unfold turn. simpl. rewrite Hnh. simpl. by rewrite Hn.
    - split; [by intros ? ?%not_elem_of_nil|]. intros seq ->%list_elem_of_singleton.
      split_and!; [constructor|by intros ? ?%not_elem_of_nil|by intros ? ? _ ?%not_elem_of_nil|done].
    - split; [intros _|done]. exists []. rewrite Hops. split_and!; [done|by intros ? ? ?%not_elem_of_nil|done].
    - intros _. exists []. split_and!; [done| |by rewrite Hops].
      split_and!; [constructor|by intros ? ?%not_elem_of_nil|by intros ? ? _ ?%not_elem_of_nil|done]. }
  rewrite <-Hops in *. pose proof (length_new (zlen ops) ltac:(lia)) as Hcap.
  assert (layout h' (length es) (down (length es)) (zlen ops) (length (newBitset (zlen ops))) (mt_of h) (id_of h)
    (op_of ops o0 h)) as Hly.
  { apply (layout_down es ops o0 Hcomp h mtch Hlk); [done|rewrite elem_of_down; lia|lia|done]. }
  assert (remaining (down (length es)) (id_of h) (newBitset (zlen ops)) = down (length es)) as Hrem.
  { unfold remaining. generalize (down (length es)) as L. intros L. clear. induction L as [|l L IH]; [done|].
    rewrite filter_cons_True by apply bit_new. by rewrite IH. }
  set (s := mkSearch h' _ _ _ _ _ _ _).
  destruct (search_decides model eqf h' (length es) (down (length es)) (zlen ops) (length (newBitset (zlen ops)))
    (mt_of h) (id_of h) (op_of ops o0 h) computePartial Hly Heq Hobs s (newBitset (zlen ops)))
    as (s1 & r & Hs & Hend & Hv); [|done|done|].
  { unfold s. constructor; cbn [s_heap s_calls s_cache s_longest s_seqs s_linearized s_state]; try done.
    - apply words_new.
    - by rewrite Hrem.
    - intros e (? & ? & Hk & _). by rewrite lookup_empty in Hk.
    - constructor; [by rewrite length_replicate| |by intros ? ?%not_elem_of_nil].
      intros p Hp. by apply elem_of_replicate_inv in Hp. }
  exists s1, r. split_and!; [|done|by eapply (verdict_decides o0 h mtch)].
  revert Hs. apply rtc_subrel. intros x y [Hturn [_ Hptr Hseqs]]. split; [done|]. split; [done|].
  intros seq (π & L' & st' & Hre & ->)%Hseqs. by eapply (path_partial o0 h mtch).
Qed.
End check_entries.
