(* ===== verification/PorcupineParallel.v ===== *)
(** * The goroutines of the linearizability checker

    [checkParallel] under every interleaving of its goroutines, the caller and
    the timeout: its answer is right, its partial linearizations are what
    their name says, no goroutine panics, and it returns as soon as nothing
    can move any more, which happens after finitely many steps, unless there
    is nothing to check and no timeout. *)

From stdpp Require Import prelude gmap strings list relations.
From S2P Require Import Prelude Bitset Porcupine PorcupineList Linearizability PorcupineSearch PorcupineEntries.
Local Open Scope Z_scope.

Section parallel.
Context {X Y St : Type} (model : Model X Y St) (rangeSet : gset nat → list nat) (eqf : St → St → bool).
Context (parts : list (list (entry X Y))) (opss : list (list (X * Y))) (computeInfo : bool) (timeout : Z).
Hypothesis rangeSet_elements : ∀ S, rangeSet S ≡ₚ elements S.
Hypothesis Heq : Equal model = Some eqf.
Hypothesis Hobs : equal_ok model eqf.
Hypothesis Hparts : Forall2 complete parts opss.
Hypothesis Hsmall : Forall (λ ops : list (X * Y), zlen ops < 2 ^ 64) opss.
Implicit Types (c : par X Y St) (i : nat).

Lemma sum_list_insert (ws : list nat) i w w' :
  ws !! i = Some w → (sum_list (<[i := w']> ws) + w = sum_list ws + w')%nat.
Proof.
  revert i. induction ws as [|x ws IH]; intros [|i] Hi; simplify_eq/=; [lia|]. specialize (IH i Hi). lia.
Qed.

(** The goroutines that have sent their result. *)
Definition sent (gs : list (goroutine X Y St)) : nat :=
  sum_list ((λ g, match g with Finished => 1%nat | _ => 0%nat end) <$> gs).

Lemma sent_insert (gs : list (goroutine X Y St)) i g g' :
  gs !! i = Some g → g ≠ Finished →
  sent (<[i := g']> gs) = (sent gs + match g' with Finished => 1 | _ => 0 end)%nat.
Proof.
  intros Hi Hg. unfold sent. rewrite list_fmap_insert.
  assert (((λ g, match g with Finished => 1%nat | _ => 0%nat end) <$> gs) !! i = Some 0%nat) as Hw
    by (rewrite list_lookup_fmap, Hi; by destruct g).
  pose proof (sum_list_insert _ i _ (match g' with Finished => 1%nat | _ => 0%nat end) Hw). lia.
Qed.

(** Part [i] is linearizable. *)
Definition part_ok i : Prop :=
  ∀ es ops, parts !! i = Some es → opss !! i = Some ops → entries_linearizable model es ops.

Definition go_ok i (g : goroutine X Y St) : Prop :=
  ∀ es ops, parts !! i = Some es → opss !! i = Some ops →
    match g with
    | Starting sub => sub = es
    | Running n head s => runs_to_verdict model es ops computeInfo n head s
    | Finished => True
    end.

(** The results that were sent, in order: who sent them ([fin]), which of
    them were received. *)
Record accounted c (fin : list nat) (recvd : list bool) : Prop := {
  ac_nodup : NoDup fin;
  ac_fin : ∀ i, i ∈ fin ↔ p_gos c !! i = Some Finished;
  ac_verdict : Forall2 (λ i r, r = true ↔ part_ok i) fin (recvd ++ p_results c);
  ac_count : p_count c = zlen recvd;
  ac_ok : p_ok c = true ↔ ∀ r, r ∈ recvd → r = true;
}.

(** The verdict, once the [select] loop is over. *)
Definition settled c : Prop :=
  (p_ok c = false → ∃ i, (i < length parts)%nat ∧ ¬ part_ok i) ∧
  (p_ok c = true → p_timedOut c = true ∨ ∀ i, part_ok i) ∧
  (p_timedOut c = true → 0 < timeout).

(** The partial linearizations of every part. *)
Definition info_ok (info : linearizationInfo X Y) : Prop :=
  if computeInfo then
    history info = parts ∧ length (partialLinearizations info) = length parts ∧
    ∀ i l es ops seq, partialLinearizations info !! i = Some l → parts !! i = Some es → opss !! i = Some ops →
      seq ∈ l → partial_linearization model es ops seq
  else info = mkInfo [] [].

Definition phase_ok c : Prop :=
  match p_phase c with
  | Selecting => p_kill c = false ∧ p_timedOut c = false ∧ (parts ≠ [] → p_count c < zlen parts) ∧
      ∃ fin recvd, accounted c fin recvd
  | Leaving => settled c
  | Returned r info => settled c ∧ r = resultOf (p_ok c) (p_timedOut c) ∧ info_ok info
  | Crashed _ => False
  end.

Record par_ok c : Prop := {
  po_gos : length (p_gos c) = length parts;
  po_lglen : length (p_longest c) = length parts;
  po_sent : Z.of_nat (sent (p_gos c)) = p_count c + zlen (p_results c);
  po_go : ∀ i g, p_gos c !! i = Some g → go_ok i g;
  po_longest : ∀ i lg es ops, p_longest c !! i = Some lg → parts !! i = Some es → opss !! i = Some ops →
    longest_sound model es ops lg.1 lg.2;
  po_phase : phase_ok c;
}.

Lemma part_at i : (i < length parts)%nat →
  ∃ es ops, parts !! i = Some es ∧ opss !! i = Some ops ∧ complete es ops ∧ zlen ops < 2 ^ 64.
Proof.
  intros Hi. destruct (lookup_lt_is_Some_2 parts i Hi) as [es Hes].
  destruct (Forall2_lookup_l _ _ _ _ _ Hparts Hes) as (ops & Hops & Hc). exists es, ops. split_and!; try done.
  by eapply (Forall_lookup_1 (λ ops : list (X * Y), zlen ops < 2 ^ 64)).
Qed.

(** A killed search ends. *)
Lemma turn_killed n head s x :
  turn model computeInfo n head false s = Ret x →
  ∃ r, turn model computeInfo n head true s = Ret (inr r) ∧ (x = inr r ∨ r = (false, (s_longest s, s_seqs s))).
Proof.
  unfold turn. destruct (load (s_heap s) head) as [nd| |]; simpl; [|done..].
  destruct (n_next nd); [by eauto|]. destruct (finishSearch n s) as [r| |]; simpl; intros; simplify_eq. eauto.
Qed.

(** One turn of a search that runs to its verdict. *)
Lemma turn_runs es ops kill n head s :
  runs_to_verdict model es ops computeInfo n head s →
  ∃ x, turn model computeInfo n head kill s = Ret x ∧
    match x with
    | inl s' => kill = false ∧ runs_to_verdict model es ops computeInfo n head s'
    | inr r => longest_sound model es ops r.2.1 r.2.2 ∧ (kill = false → decides model es ops r)
    end.
Proof.
  intros [Hl (s1 & r & Hs & Hend & Hd)]. destruct kill.
  - assert (∃ x, turn model computeInfo n head false s = Ret x ∧
      match x with inl _ => True | inr r' => decides model es ops r' end) as (x & Hx & Hdx).
    { inversion Hs as [|? s2 ? [Ht _] _]; subst; [by exists (inr r)|by exists (inl s2)]. }
    destruct (turn_killed _ _ _ _ Hx) as (r' & -> & Hor). exists (inr r'). split; [done|].
    destruct Hor as [-> | ->]; [|by split]. destruct Hdx as (? & _). by split.
  - inversion Hs as [|? s2 ? [Ht Hl2] Hs2]; subst.
    + exists (inr r). split; [done|]. split; [apply Hd|done].
    + exists (inl s2). split; [done|]. split; [done|]. split; [done|]. by exists s1, r.
Qed.

(** *** Steps of a goroutine *)

Lemma settled_go c c' :
  p_ok c' = p_ok c → p_timedOut c' = p_timedOut c → settled c → settled c'.
Proof. unfold settled. by intros -> ->. Qed.

Lemma go_moves c i g g' :
  par_ok c → p_gos c !! i = Some g → g ≠ Finished → g' ≠ Finished → go_ok i g' → par_ok (set_go i g' c).
Proof.
  intros [Hlen Hll Hsent Hgo Hlg Hph] Hi Hg Hg' Hok. constructor; simpl.
  - by rewrite length_insert.
  - done.
  - rewrite (sent_insert _ _ g) by done. destruct g'; [by rewrite Nat.add_0_r..|done].
  - intros j x. destruct (decide (j = i)) as [->|Hne].
    + rewrite list_lookup_insert_eq by (by eapply lookup_lt_Some). by intros [= <-].
    + rewrite list_lookup_insert_ne by done. apply Hgo.
  - done.
  - unfold phase_ok in *. simpl. destruct (p_phase c); try done.
    destruct Hph as (? & ? & ? & fin & recvd & [? Hfin ? ? ?]). split_and!; [done..|]. exists fin, recvd.
    constructor; simpl; try done. intros j. rewrite Hfin. destruct (decide (j = i)) as [->|Hne].
    + rewrite list_lookup_insert_eq by (by eapply lookup_lt_Some). rewrite Hi. split; congruence.
    + by rewrite list_lookup_insert_ne by done.
Qed.

Lemma go_sends c i n head s r es ops :
  par_ok c → p_gos c !! i = Some (Running n head s) → parts !! i = Some es → opss !! i = Some ops →
  longest_sound model es ops r.2.1 r.2.2 → (p_kill c = false → decides model es ops r) →
  par_ok (sendResult i r c).
Proof.
  intros [Hlen Hll Hsent Hgo Hlg Hph] Hi Hes Hops Hls Hd. pose proof (lookup_lt_Some _ _ _ Hi) as Hlt. constructor; simpl.
  - by rewrite length_insert.
  - by rewrite length_insert.
  - rewrite (sent_insert _ _ (Running n head s)) by done. rewrite length_app. simpl. lia.
  - intros j x. destruct (decide (j = i)) as [->|Hne].
    + rewrite list_lookup_insert_eq by done. by intros [= <-].
    + rewrite list_lookup_insert_ne by done. apply Hgo.
  - intros j lg es' ops' Hj Hes' Hops'. destruct (decide (j = i)) as [->|Hne].
    + simplify_eq. apply list_lookup_insert_Some in Hj as [(_ & <- & _)|(? & _)]; done.
    + rewrite list_lookup_insert_ne in Hj by done. by eapply Hlg.
  - unfold phase_ok in *. simpl. destruct (p_phase c) eqn:Hphase; try done.
    + destruct Hph as (Hk & Ht & ? & fin & recvd & [Hnd Hfin Hv Hc Ho]). split_and!; [done..|].
      exists (fin ++ [i]), recvd. constructor; simpl.
      * apply NoDup_app. split_and!; [done| |apply NoDup_singleton]. intros j Hj ->%list_elem_of_singleton.
        apply Hfin in Hj. congruence.
      * intros j. rewrite elem_of_app, Hfin, list_elem_of_singleton. destruct (decide (j = i)) as [->|Hne].
        -- rewrite list_lookup_insert_eq by done. tauto.
        -- rewrite list_lookup_insert_ne by done. tauto.
      * rewrite app_assoc. apply Forall2_app; [done|]. constructor; [|constructor].
        destruct (Hd Hk) as (_ & -> & _). unfold part_ok. split; [by intros ? ? ? ? ?; simplify_eq|]. eauto.
      * done.
      * done.
Qed.

Lemma goStep_ok c c' i : par_ok c → goStep model computeInfo i c = Some c' → par_ok c'.
Proof.
  intros Hc. unfold goStep. destruct (p_gos c !! i) as [g|] eqn:Hi; [|done].
  destruct (part_at i) as (es & ops & Hes & Hops & Hcomp & Hsm).
  { rewrite <-(po_gos _ Hc). by eapply lookup_lt_Some. }
  pose proof (po_go _ Hc _ _ Hi es ops Hes Hops) as Hg. destruct g as [sub|n head s|]; [| |done].
  - subst sub. destruct (startSearch_runs model es ops Hcomp Hsm computeInfo eqf Heq Hobs) as (n & head & s & -> & Hrun).
    intros [= <-]. eapply go_moves; [done|exact Hi|done|done|]. intros es' ops' ? ?. by simplify_eq.
  - destruct (turn_runs es ops (p_kill c) n head s Hg) as ([s'|r] & -> & Hx); intros [= <-].
    + eapply go_moves; [done|exact Hi|done|done|]. intros es' ops' ? ?. simplify_eq. apply Hx.
    + destruct Hx. by eapply go_sends.
Qed.

(** *** Steps of the caller *)

Lemma received_all c fin recvd :
  length (p_gos c) = length parts → accounted c fin recvd → zlen parts ≤ zlen recvd →
  (∀ r, r ∈ recvd → r = true) → ∀ i, part_ok i.
Proof.
  intros Hc [Hnd Hfin Hv _ _] Hlen Hall i es ops Hes Hops.
  assert (∀ j, j ∈ fin → j ∈ seq 0 (length parts)) as Hsub.
  { intros j Hj%Hfin. apply elem_of_seq. rewrite <-Hc. apply lookup_lt_Some in Hj. lia. }
  pose proof (Forall2_length _ _ _ Hv) as Hl. rewrite length_app in Hl.
  assert (length fin ≤ length parts)%nat as Hle.
  { rewrite <-(length_seq (length parts) 0). apply submseteq_length, NoDup_submseteq; done. }
  assert (seq 0 (length parts) ⊆ fin) as Hincl.
  { intros j Hj. eapply elem_of_submseteq; [exact Hj|].
    apply Permutation_submseteq. symmetry. apply submseteq_length_Permutation; [by apply NoDup_submseteq|].
    rewrite length_seq. lia. }
  assert (i ∈ fin) as [k Hk]%list_elem_of_lookup.
  { apply Hincl. apply elem_of_seq. apply lookup_lt_Some in Hes. lia. }
  destruct (Forall2_lookup_l _ _ _ _ _ Hv Hk) as (r & Hr & Hri).
  assert (p_results c = []) as Hnil by (apply nil_length_inv; lia). rewrite Hnil, app_nil_r in Hr.
  apply (Hri); [|done..]. apply Hall. by eapply list_elem_of_lookup_2.
Qed.

Lemma received_false c fin recvd :
  length (p_gos c) = length parts → accounted c fin recvd → p_ok c = false → ∃ i, (i < length parts)%nat ∧ ¬ part_ok i.
Proof.
  intros Hc [Hnd Hfin Hv _ Hok] Hf.
  assert (∃ r, r ∈ recvd ∧ r = false) as (r & [k Hk]%list_elem_of_lookup & ->).
  { clear -Hok Hf. destruct (decide (false ∈ recvd)) as [?|Hn]; [by exists false|exfalso].
    assert (p_ok c = true) by (apply Hok; intros [|] ?; done). congruence. }
  destruct (Forall2_lookup_r _ _ _ k false Hv) as (i & Hi & Hri).
  { by apply lookup_app_l_Some. }
  exists i. split.
  - rewrite <-Hc. eapply lookup_lt_Some, Hfin. by eapply list_elem_of_lookup_2.
  - intros ?%Hri. done.
Qed.

Lemma receive_ok c result rest :
  par_ok c → p_phase c = Selecting → p_results c = result :: rest →
  par_ok (receiveResult (zlen parts) computeInfo result rest c).
Proof.
  intros Hc Hph Hres. pose proof (po_phase _ Hc) as Hp. unfold phase_ok in Hp. rewrite Hph in Hp.
  destruct Hp as (Hk & Ht & _ & fin & recvd & Hacc).
  assert (∀ kill ph, let c' := mkPar (p_gos c) rest (p_longest c) kill (p_count c + 1) (p_ok c && result) (p_timedOut c) ph in
    accounted c' fin (recvd ++ [result])) as Hacc'.
  { intros kill ph. destruct Hacc as [Hnd Hfin Hv Hcnt Hok]. constructor; simpl; try done.
    - rewrite <-app_assoc. simpl. by rewrite <-Hres.
    - rewrite Hcnt, length_app. simpl. lia.
    - rewrite andb_true_iff, Hok. setoid_rewrite elem_of_app. setoid_rewrite list_elem_of_singleton. naive_solver. }
  assert (∀ kill ph, let c' := mkPar (p_gos c) rest (p_longest c) kill (p_count c + 1) (p_ok c && result) (p_timedOut c) ph in
    phase_ok c' → par_ok c') as Hmk.
  { intros kill ph c' Hph'. destruct Hc as [? ? Hsent]. constructor; try done. simpl. rewrite Hsent, Hres. simpl. lia. }
  assert (∀ kill ph, let c' := mkPar (p_gos c) rest (p_longest c) kill (p_count c + 1) (p_ok c && result) (p_timedOut c) ph in
    p_ok c' = false ∨ zlen parts ≤ p_count c' → settled c') as Hset.
  { intros kill ph c' Hor. specialize (Hacc' kill ph). cbv zeta in Hacc'. fold c' in Hacc'.
    assert (length (p_gos c') = length parts) as Hlen by apply (po_gos _ Hc).
    split_and!; [by eapply received_false| |simpl; congruence].
    intros Hok. right. destruct Hor as [?|Hor]; [congruence|].
    rewrite (ac_count _ _ _ Hacc') in Hor. eapply received_all; [done|exact Hacc'|done|]. by apply (ac_ok _ _ _ Hacc'). }
  unfold receiveResult. cbv zeta. destruct (negb (p_ok c && result) && negb computeInfo) eqn:Hb.
  - apply Hmk. apply Hset. left. simpl. apply andb_true_iff in Hb as [Hb _]. by apply negb_true_iff.
  - destruct (zlen parts <=? p_count c + 1) eqn:Hcnt; apply Hmk.
    + apply Hset. right. simpl. zlia.
    + split_and!; [done..|intros _; simpl; zlia|]. eauto.
Qed.

Lemma answer_ok c : par_ok c → settled c → par_ok (set_phase (answer rangeSet parts computeInfo c) c).
Proof.
  intros Hc Hs. pose proof Hc as [Hlen Hll Hsent Hgo Hlg _]. constructor; try done. unfold phase_ok, answer. simpl.
  split_and!; [done|done|]. unfold info_ok. destruct computeInfo; [|done]. simpl.
  split_and!; [done|by rewrite length_fmap|]. intros i l es ops seq Hl Hes Hops Hin.
  apply list_lookup_fmap_Some in Hl as (lg & -> & Hi). unfold partialsOf in Hin.
  apply list_elem_of_omap in Hin as (k & _ & Hk). apply (Hlg i lg es ops Hi Hes Hops).
  by eapply list_elem_of_lookup_2.
Qed.

Lemma parStep_ok c c' ev :
  par_ok c → parStep model rangeSet parts computeInfo timeout ev c = Some c' → par_ok c'.
Proof.
  intros Hc. pose proof (po_phase _ Hc) as Hp. unfold parStep, phase_ok in *.
  destruct (p_phase c) as [| |r info|p] eqn:Hph; [| | |done].
  - destruct ev as [i| | |]; [by apply goStep_ok| | |done].
    + destruct (p_results c) as [|result rest] eqn:Hr; [done|]. intros [= <-]. by apply receive_ok.
    + destruct (0 <? timeout) eqn:Ht; [|done]. intros [= <-]. destruct Hp as (_ & _ & _ & fin & recvd & Hacc).
      pose proof (po_gos _ Hc) as Hl. destruct Hc. constructor; simpl; try done.
      split_and!; [intros ?; by eapply (received_false c)|by left|intros; zlia].
  - destruct ev as [i| | |]; [by apply goStep_ok| |done|].
    + destruct (p_results c) eqn:Hr; [done|]. case_match; [|done]. intros [= <-]. destruct Hc as [? ? Hsent].
      constructor; try done. simpl. rewrite Hsent, Hr. simpl. lia.
    + case_match; [done|]. intros [= <-]. by apply answer_ok.
  - destruct ev; try done. by apply goStep_ok.
Qed.

Lemma start_ok : par_ok (startParallel parts).
Proof.
  constructor; simpl.
  - by rewrite length_fmap.
  - by rewrite length_replicate.
  - unfold sent. rewrite <-list_fmap_compose. clear. by induction parts.
  - intros i g Hi es ops Hes _. apply list_lookup_fmap_Some in Hi as (sub & -> & Hi). congruence.
  - intros i lg es ops [-> _]%lookup_replicate _ _. split; by intros ? ?%not_elem_of_nil.
  - split_and!; [done..|by destruct parts|]. exists [], []. constructor; simpl; try done.
    + constructor.
    + intros i. rewrite elem_of_nil, list_lookup_fmap. split; [done|]. by destruct (parts !! i).
    + split; [|done]. by intros _ ? ?%not_elem_of_nil.
Qed.

Lemma run_ok sched c : par_ok c → par_ok (runParallel model rangeSet parts computeInfo timeout sched c).
Proof.
  revert c. induction sched as [|ev sched IH]; intros c Hc; [done|]. simpl. apply IH.
  destruct (parStep model rangeSet parts computeInfo timeout ev c) as [c'|] eqn:Hs; [|done].
  by eapply parStep_ok.
Qed.

(** The answer under every schedule. *)
Lemma checkParallel_sound sched :
  match checkParallel model rangeSet parts computeInfo timeout sched with
  | Ret (r, info) =>
      (r = Ok → ∀ i, part_ok i) ∧ (r = Illegal → ∃ i, (i < length parts)%nat ∧ ¬ part_ok i) ∧
      (r = Unknown → 0 < timeout) ∧ info_ok info
  | Panic _ => False
  | NoFuel => True
  end.
Proof.
  unfold checkParallel. pose proof (po_phase _ (run_ok sched _ start_ok)) as Hp. unfold phase_ok in Hp.
  destruct (p_phase _) as [| |r info|p]; [done|done| |done]. destruct Hp as ((Hf & Ht & Hto) & -> & Hinfo).
  unfold resultOf. destruct (p_ok _), (p_timedOut _); simpl; split_and!; try done; try (by intros _; auto).
  intros _. by destruct (Ht eq_refl).
Qed.

(** *** Termination *)

(** The turns a goroutine has left at most. *)
Definition turns_left (computePartial : bool) (n : Z) (head : option loc) (s : search X Y St) (k : nat) : Prop :=
  ∃ s1 r, nsteps (λ s s', turn model computePartial n head false s = Ret (inl s')) k s s1 ∧
    turn model computePartial n head false s1 = Ret (inr r).

Definition weight (g : goroutine X Y St) (w : nat) : Prop :=
  match g with
  | Starting sub => ∃ n head s k, startSearch model sub = Ret (n, head, s) ∧ turns_left computeInfo n head s k ∧ w = (k + 3)%nat
  | Running n head s => ∃ k, turns_left computeInfo n head s k ∧ w = (k + 2)%nat
  | Finished => w = 0%nat
  end.

Definition rank (ph : phase X Y) : nat :=
  match ph with Selecting => 2 | Leaving => 1 | _ => 0 end.

(** A bound on the steps from [c]. *)
Definition bound c (b : nat) : Prop :=
  ∃ ws, Forall2 weight (p_gos c) ws ∧ b = (sum_list ws + length (p_results c) + rank (p_phase c))%nat.

Lemma weight_insert (gs : list (goroutine X Y St)) ws i g g' w w' :
  Forall2 weight gs ws → gs !! i = Some g → ws !! i = Some w → weight g' w' →
  Forall2 weight (<[i := g']> gs) (<[i := w']> ws).
Proof. intros. by apply Forall2_insert. Qed.

Lemma goStep_bound c c' i b :
  par_ok c → goStep model computeInfo i c = Some c' → bound c b → ∃ b', bound c' b' ∧ (b' < b)%nat.
Proof.
  intros Hc Hstep (ws & Hws & ->). unfold goStep in Hstep. destruct (p_gos c !! i) as [g|] eqn:Hi; [|done].
  destruct (Forall2_lookup_l _ _ _ _ _ Hws Hi) as (w & Hw & Hgw).
  destruct (part_at i) as (es & ops & Hes & Hops & _ & _).
  { rewrite <-(po_gos _ Hc). by eapply lookup_lt_Some. }
  pose proof (po_go _ Hc _ _ Hi es ops Hes Hops) as Hg.
  assert (∀ g' w' k, weight g' w' → (w' + k < w)%nat →
    ∃ ws', Forall2 weight (<[i := g']> (p_gos c)) ws' ∧ (sum_list ws' + k < sum_list ws)%nat) as Hdec.
  { intros g' w' k Hw' Hlt. exists (<[i := w']> ws). split; [by eapply weight_insert|].
    pose proof (sum_list_insert ws i w w' Hw). lia. }
  destruct g as [sub|n head s|]; [| |done].
  - destruct Hgw as (n & head & s & k & Hst & Hk & ->). rewrite Hst in Hstep. injection Hstep as <-.
    destruct (Hdec (Running n head s) (k + 2)%nat 0%nat) as (ws' & ? & ?); [by exists k|lia|].
    eexists. split; [by exists ws'|]. simpl. lia.
  - destruct Hgw as (k & (s1 & r & Hn & Hend) & ->).
    destruct (turn_runs es ops (p_kill c) n head s Hg) as ([s'|r'] & Ht & Hx); rewrite Ht in Hstep; injection Hstep as <-.
    + destruct Hx as [Hk _]. rewrite Hk in Ht. inversion Hn as [|k' ? s2 ? Hs2 Hn2]; subst; [congruence|].
      rewrite Ht in Hs2. injection Hs2 as <-.
      destruct (Hdec (Running n head s') (k' + 2)%nat 0%nat) as (ws' & ? & ?); [by exists k'; split; [exists s1, r|]|lia|].
      eexists. split; [by exists ws'|]. simpl. lia.
    + destruct (Hdec Finished 0%nat 1%nat) as (ws' & ? & ?); [done|lia|].
      eexists. split; [by exists ws'|]. simpl. rewrite length_app. simpl. lia.
Qed.

Lemma parStep_bound c c' ev b :
  par_ok c → parStep model rangeSet parts computeInfo timeout ev c = Some c' → bound c b →
  ∃ b', bound c' b' ∧ (b' < b)%nat.
Proof.
  intros Hc Hstep Hb. unfold parStep in Hstep.
  destruct (p_phase c) as [| |r info|p] eqn:Hph; [| | |done]; destruct ev as [i| | |]; try done;
    try (by eapply goStep_bound); destruct Hb as (ws & Hws & ->).
  - destruct (p_results c) as [|result rest] eqn:Hr; [done|]. injection Hstep as <-.
    unfold receiveResult. case_match; eexists; (split; [by exists ws|]); simpl; rewrite Hph; [simpl; lia|].
    case_match; simpl; lia.
  - case_match; [|done]. injection Hstep as <-. eexists. split; [by exists ws|]. simpl. rewrite Hph. simpl. lia.
  - destruct (p_results c) as [|result rest] eqn:Hr; [done|]. case_match; [|done]. injection Hstep as <-.
    eexists. split; [by exists ws|]. simpl. rewrite Hph. simpl. lia.
  - case_match; [done|]. injection Hstep as <-. eexists. split; [by exists ws|]. simpl. rewrite Hph. simpl. lia.
Qed.

Lemma start_bound : ∃ b, bound (startParallel parts) b.
Proof.
  assert (∀ sub, sub ∈ parts → ∃ w, weight (Starting sub) w) as Hw.
  { intros sub [i Hi]%list_elem_of_lookup. destruct (part_at i) as (es & ops & Hes & _ & Hcomp & Hsm).
    { by eapply lookup_lt_Some. }
    rewrite Hi in Hes. injection Hes as <-.
    destruct (startSearch_runs model sub ops Hcomp Hsm computeInfo eqf Heq Hobs) as (n & head & s & Hst & _ & s1 & r & Hs & Hend & _).
    apply rtc_nsteps in Hs as [k Hk]. exists (k + 3)%nat, n, head, s, k. split_and!; [done| |done]. exists s1, r.
    split; [|done]. clear -Hk. induction Hk as [|k x y z [Hxy _] _ IH]; econstructor; eauto. }
  assert (∃ ws, Forall2 weight (Starting <$> parts) ws) as [ws Hws].
  { clear -Hw. induction parts as [|sub l IH]; [by exists []|].
    destruct (Hw sub) as [w Hsub]; [by left|]. destruct IH as [ws Hws]; [intros; apply Hw; by right|].
    exists (w :: ws). by constructor. }
  eexists. by exists ws.
Qed.

(** How many steps of a schedule are possible when their turn comes. *)
Fixpoint effective (sched : list event) c : nat :=
  match sched with
  | [] => 0
  | ev :: sched' =>
      match parStep model rangeSet parts computeInfo timeout ev c with
      | Some c' => S (effective sched' c')
      | None => effective sched' c
      end
  end.

Lemma effective_bound sched c b : par_ok c → bound c b → (effective sched c ≤ b)%nat.
Proof.
  revert c b. induction sched as [|ev sched IH]; intros c b Hc Hb; simpl; [lia|].
  destruct (parStep model rangeSet parts computeInfo timeout ev c) as [c'|] eqn:Hs; [|by apply IH].
  destruct (parStep_bound _ _ _ _ Hc Hs Hb) as (b' & Hb' & Hlt).
  specialize (IH c' b' (parStep_ok _ _ _ Hc Hs) Hb'). lia.
Qed.

Lemma sent_all (gs : list (goroutine X Y St)) :
  (∀ i g, gs !! i = Some g → g = Finished) → sent gs = length gs.
Proof.
  induction gs as [|g gs IH]; intros Hall; [done|]. unfold sent. simpl. rewrite (Hall 0%nat g eq_refl).
  f_equal. apply IH. intros i. apply (Hall (S i)).
Qed.

Lemma stuck_finished c :
  par_ok c → (∀ i, goStep model computeInfo i c = None) → ∀ i g, p_gos c !! i = Some g → g = Finished.
Proof.
  intros Hc Hstuck i g Hi. specialize (Hstuck i). unfold goStep in Hstuck. rewrite Hi in Hstuck.
  destruct (part_at i) as (es & ops & Hes & Hops & Hcomp & Hsm).
  { rewrite <-(po_gos _ Hc). by eapply lookup_lt_Some. }
  pose proof (po_go _ Hc _ _ Hi es ops Hes Hops) as Hg. destruct g as [sub|n head s|]; [| |done].
  - subst sub. destruct (startSearch_runs model es ops Hcomp Hsm computeInfo eqf Heq Hobs) as (? & ? & ? & Hst & _).
    by rewrite Hst in Hstuck.
  - destruct (turn_runs es ops (p_kill c) n head s Hg) as ([?|?] & Ht & _); by rewrite Ht in Hstuck.
Qed.

(** When nothing can move, the caller has returned. *)
Lemma stuck_returned c :
  par_ok c → parts ≠ [] ∨ 0 < timeout →
  (∀ ev, parStep model rangeSet parts computeInfo timeout ev c = None) → ∃ r info, p_phase c = Returned r info.
Proof.
  intros Hc Hne Hstuck. destruct (p_phase c) as [| |r info|p] eqn:Hph; [exfalso..|by eauto|].
  3:{ pose proof (po_phase _ Hc) as Hp. unfold phase_ok in Hp. by rewrite Hph in Hp. }
  1,2: assert (∀ i g, p_gos c !! i = Some g → g = Finished) as Hfin
    by (apply stuck_finished; [done|]; intros i; specialize (Hstuck (Turn i)); unfold parStep in Hstuck;
        by rewrite Hph in Hstuck).
  - pose proof (Hstuck Receive) as Hr. pose proof (Hstuck TimerFires) as Ht. unfold parStep in Hr, Ht.
    rewrite Hph in Hr, Ht. destruct (p_results c) eqn:Hres; [|done].
    destruct (0 <? timeout) eqn:Hto; [done|]. destruct Hne as [Hne|?]; [|zlia].
    pose proof (po_phase _ Hc) as Hp. unfold phase_ok in Hp. rewrite Hph in Hp.
    destruct Hp as (_ & _ & Hcnt & _). specialize (Hcnt Hne). pose proof (po_sent _ Hc) as Hs.
    rewrite (sent_all _ Hfin), Hres, (po_gos _ Hc) in Hs. simpl in Hs. lia.
  - pose proof (Hstuck Receive) as Hr. pose proof (Hstuck Answer) as Ha. unfold parStep in Hr, Ha.
    rewrite Hph in Hr, Ha. destruct (computeInfo && (p_count c <? zlen parts)) eqn:Hb; [|done].
    destruct (p_results c) eqn:Hres; [|done]. pose proof (po_sent _ Hc) as Hs.
    rewrite (sent_all _ Hfin), Hres, (po_gos _ Hc) in Hs. simpl in Hs. zlia.
Qed.

(** Something can move until the caller has returned. *)
Lemma moves_or_returned c :
  par_ok c → parts ≠ [] ∨ 0 < timeout →
  (∃ ev c', parStep model rangeSet parts computeInfo timeout ev c = Some c') ∨ ∃ r info, p_phase c = Returned r info.
Proof.
  intros Hc Hne. set (evs := [Receive; TimerFires; Answer] ++ (Turn <$> seq 0 (length parts))).
  destruct (decide (Exists (λ ev, is_Some (parStep model rangeSet parts computeInfo timeout ev c)) evs)) as [Hex|Hnone].
  { left. apply Exists_exists in Hex as (ev & _ & c' & Hc'). eauto. }
  right. apply stuck_returned; [done..|]. intros ev. apply not_Exists_Forall in Hnone; [|apply _].
  rewrite Forall_forall in Hnone. apply eq_None_not_Some. destruct ev as [i| | |].
  2-4: apply Hnone; unfold evs; rewrite !elem_of_app, !elem_of_cons; tauto.
  destruct (decide (i < length parts)%nat) as [Hi|Hi].
  - apply Hnone. unfold evs. apply elem_of_app. right. apply list_elem_of_fmap_2. apply elem_of_seq. lia.
  - assert (goStep model computeInfo i c = None) as Hg.
    { unfold goStep. by rewrite lookup_ge_None_2 by (rewrite (po_gos _ Hc); lia). }
    unfold parStep. rewrite Hg. destruct (p_phase c); apply is_Some_None.
Qed.

Lemma run_app sched sched' c :
  runParallel model rangeSet parts computeInfo timeout (sched ++ sched') c =
  runParallel model rangeSet parts computeInfo timeout sched' (runParallel model rangeSet parts computeInfo timeout sched c).
Proof. unfold runParallel. by rewrite foldl_app. Qed.

Lemma can_return c b :
  par_ok c → parts ≠ [] ∨ 0 < timeout → bound c b →
  ∃ sched, (length sched ≤ b)%nat ∧
    ∃ r info, p_phase (runParallel model rangeSet parts computeInfo timeout sched c) = Returned r info.
Proof.
  intros Hc Hne. revert c Hc. induction (lt_wf b) as [b _ IH]. intros c Hc Hb.
  destruct (moves_or_returned c Hc Hne) as [(ev & c' & Hs)|Hret]; [|exists []; split; [simpl; lia|done]].
  destruct (parStep_bound _ _ _ _ Hc Hs Hb) as (b' & Hb' & Hlt).
  destruct (IH b' Hlt c' (parStep_ok _ _ _ Hc Hs) Hb') as (sched & Hl & Hret).
  exists (ev :: sched). split; [simpl; lia|]. simpl. by rewrite Hs.
Qed.

Lemma bound_run sched c b :
  par_ok c → bound c b → ∃ b', bound (runParallel model rangeSet parts computeInfo timeout sched c) b' ∧ (b' ≤ b)%nat.
Proof.
  revert c b. induction sched as [|ev sched IH]; intros c b Hc Hb; simpl; [eauto|].
  destruct (parStep model rangeSet parts computeInfo timeout ev c) as [c'|] eqn:Hs; simpl; [|by apply IH].
  destruct (parStep_bound _ _ _ _ Hc Hs Hb) as (b1 & Hb1 & ?).
  destruct (IH c' b1 (parStep_ok _ _ _ Hc Hs) Hb1) as (b2 & ? & ?). exists b2. split; [done|lia].
Qed.

(** Every schedule does at most [N] steps, any schedule can be continued to
    the caller's return, and when nothing can move it has returned. *)
Lemma checkParallel_ends :
  parts ≠ [] ∨ 0 < timeout →
  ∃ N, ∀ sched,
    (effective sched (startParallel parts) ≤ N)%nat ∧
    (∃ sched', (length sched' ≤ N)%nat ∧
       returns (checkParallel model rangeSet parts computeInfo timeout (sched ++ sched'))) ∧
    ((∀ ev, parStep model rangeSet parts computeInfo timeout ev
        (runParallel model rangeSet parts computeInfo timeout sched (startParallel parts)) = None) →
     returns (checkParallel model rangeSet parts computeInfo timeout sched)).
Proof.
  intros Hne. destruct start_bound as [N HN]. exists N. intros sched. split_and!.
  - by apply effective_bound; [apply start_ok|].
  - destruct (bound_run sched _ _ start_ok HN) as (b & Hb & Hle).
    destruct (can_return _ _ (run_ok sched _ start_ok) Hne Hb) as (sched' & Hl & r & info & Hph).
    exists sched'. split; [lia|]. unfold checkParallel. rewrite run_app, Hph. eauto with godb.
  - intros Hstuck. destruct (stuck_returned _ (run_ok sched _ start_ok) Hne Hstuck) as (r & info & Hph).
    unfold checkParallel. rewrite Hph. eauto with godb.
Qed.
End parallel.
