(* ===== verification/PorcupineEvents.v ===== *)
(** * Histories of events

    [renumber] replaces the ids of a history of call and return events by
    0, 1, 2, ... in the order in which they first appear; the entries
    [convertEntries] makes of the result are complete, so [checkEvents]
    decides whether the history of events is linearizable. *)

From stdpp Require Import prelude gmap strings list relations.
From S2P Require Import Prelude Bitset Porcupine PorcupineList Linearizability PorcupineSearch PorcupineEntries PorcupineParallel.
Local Open Scope Z_scope.

Section events.
Context {X Y : Type}.
Implicit Types (evs : list (Event X Y)) (v : Event X Y) (pre F : list Z) (x : Z).

(** ** [renumber] *)

(** The distinct ids, those of [pre] first, in order of first appearance. *)
Fixpoint firsts pre evs : list Z :=
  match evs with
  | [] => pre
  | v :: evs' => firsts (if decide (ev_Id v ∈ pre) then pre else pre ++ [ev_Id v]) evs'
  end.

Definition position F x : nat := from_option fst 0%nat (list_find (λ y, y = x) F).

Definition relabel F v : Event X Y := mkEvent (ev_ClientId v) (ev_Kind v) (ev_Value v) (Z.of_nat (position F (ev_Id v))).

Lemma position_lookup F x : x ∈ F → F !! position F x = Some x.
Proof.
  intros Hx. destruct (list_find_elem_of (λ y, y = x) F x Hx eq_refl) as [[i y] Hf].
  unfold position. rewrite Hf. simpl. by apply list_find_Some in Hf as (? & -> & _).
Qed.

Lemma position_inj F x y : x ∈ F → y ∈ F → position F x = position F y → x = y.
Proof. intros Hx%position_lookup Hy%position_lookup Heq. rewrite Heq in Hx. congruence. Qed.

Lemma position_of F x (k : nat) : NoDup F → F !! k = Some x → position F x = k.
Proof.
  intros Hnd Hk. assert (x ∈ F) as Hx by (by eapply list_elem_of_lookup_2).
  eapply NoDup_lookup; [exact Hnd|by apply position_lookup|done].
Qed.

Lemma firsts_NoDup pre evs : NoDup pre → NoDup (firsts pre evs).
Proof.
  revert pre. induction evs as [|v evs IH]; intros pre Hnd; simpl; [done|]. apply IH. case_decide; [done|].
  apply NoDup_app. split_and!; [done| |apply NoDup_singleton]. by intros x Hx ->%list_elem_of_singleton.
Qed.

Lemma firsts_prefix pre evs : pre `prefix_of` firsts pre evs.
Proof.
  revert pre. induction evs as [|v evs IH]; intros pre; simpl; [done|]. etrans; [|apply IH].
  case_decide; [done|]. by apply prefix_app_r.
Qed.

Lemma elem_of_firsts pre evs x : x ∈ firsts pre evs ↔ x ∈ pre ∨ x ∈ ev_Id <$> evs.
Proof.
  revert pre. induction evs as [|v evs IH]; intros pre; simpl; [rewrite elem_of_nil; tauto|].
  rewrite IH, elem_of_cons. case_decide; [naive_solver|]. rewrite elem_of_app, list_elem_of_singleton. tauto.
Qed.

(** The map of the source holds the position of every id seen so far. *)
Lemma renumberLoop_relabel evs m pre :
  NoDup pre → (∀ x r, m !! x = Some r ↔ ∃ k : nat, pre !! k = Some x ∧ r = Z.of_nat k) →
  renumberLoop evs m (zlen pre) = relabel (firsts pre evs) <$> evs.
Proof.
  revert m pre. induction evs as [|v evs IH]; intros m pre Hnd Hm; simpl; [done|].
  destruct (m !! ev_Id v) as [r|] eqn:Hr.
  - pose proof (proj1 (Hm _ _) Hr) as (k & Hk & ->).
    rewrite decide_True by (by eapply list_elem_of_lookup_2). f_equal; [|by apply IH].
    unfold relabel. f_equal. f_equal. symmetry. apply position_of; [by apply firsts_NoDup|].
    eapply prefix_lookup_Some; [done|apply firsts_prefix].
  - assert (ev_Id v ∉ pre) as Hn.
    { intros [k Hk]%list_elem_of_lookup. enough (m !! ev_Id v = Some (Z.of_nat k)) by congruence. apply Hm. eauto. }
    rewrite decide_False by done. assert (NoDup (pre ++ [ev_Id v])) as Hnd'.
    { apply NoDup_app. split_and!; [done| |apply NoDup_singleton]. by intros x Hx ->%list_elem_of_singleton. }
    f_equal.
    + unfold relabel. f_equal. f_equal. symmetry. apply position_of; [by apply firsts_NoDup|].
      eapply prefix_lookup_Some; [|apply firsts_prefix]. by rewrite lookup_app_r, Nat.sub_diag.
    + replace (zlen pre + 1) with (zlen (pre ++ [ev_Id v])) by (rewrite length_app; simpl; lia).
      apply IH; [done|]. intros x r. rewrite lookup_insert_Some, Hm. split.
      * intros [[<- <-]|[Hne (k & Hk & ->)]]; [exists (length pre)|exists k]; (split; [|done]).
        -- by rewrite lookup_app_r, Nat.sub_diag.
        -- by apply lookup_app_l_Some.
      * intros (k & [Hk|[Hge Hk]]%lookup_app_Some & ->).
        -- right. split; [|by exists k]. intros <-. by apply Hn; eapply list_elem_of_lookup_2.
        -- apply list_lookup_singleton_Some in Hk as [? <-]. left. split; [done|]. lia.
Qed.

Lemma renumber_relabel evs : renumber evs = relabel (firsts [] evs) <$> evs.
Proof.
  apply (renumberLoop_relabel evs ∅ []); [constructor|]. intros x r. rewrite lookup_empty. split; [done|].
  by intros (k & ? & _).
Qed.

(** ** Histories *)

(** Every operation [x] has one call event and, later, one return event, with
    the input and the output of [op x]. *)
Record event_history evs (op : Z → X * Y) : Prop := {
  eh_unique : ∀ (i j : nat) v v', evs !! i = Some v → evs !! j = Some v' → ev_Kind v = ev_Kind v' → ev_Id v = ev_Id v' → i = j;
  eh_both : ∀ x, x ∈ ev_Id <$> evs → ∃ (i j : nat) c r, (i < j)%nat ∧
    evs !! i = Some c ∧ ev_Kind c = CallEvent ∧ ev_Id c = x ∧
    evs !! j = Some r ∧ ev_Kind r = ReturnEvent ∧ ev_Id r = x;
  eh_value : ∀ (i : nat) v, evs !! i = Some v →
    ev_Value v = match ev_Kind v with CallEvent => inl (op (ev_Id v)).1 | ReturnEvent => inr (op (ev_Id v)).2 end;
}.

(** The return of [a] comes before the call of [b]. *)
Definition event_prec evs (a b : Z) : Prop :=
  ∃ (i j : nat) r c, (i < j)%nat ∧ evs !! i = Some r ∧ ev_Kind r = ReturnEvent ∧ ev_Id r = a ∧
    evs !! j = Some c ∧ ev_Kind c = CallEvent ∧ ev_Id c = b.

Definition events_linearizable {St} (step : St → X → Y → bool * St) (st : St) evs (op : Z → X * Y) : Prop :=
  linearizable step (firsts [] evs) (event_prec evs) op st.

Section complete.
Context evs (op : Z → X * Y).
Hypothesis Hevs : event_history evs op.

Abbreviation F := (firsts [] evs).

Definition entry_of (i : nat) v : entry X Y :=
  mkEntry (match ev_Kind v with ReturnEvent => returnEntry | CallEvent => callEntry end)
    (ev_Value v) (Z.of_nat (position F (ev_Id v))) (Z.of_nat i) (ev_ClientId v).

Lemma entries_lookup (i : nat) e :
  convertEntries (renumber evs) !! i = Some e ↔ ∃ v, evs !! i = Some v ∧ e = entry_of i v.
Proof.
  unfold convertEntries. rewrite list_lookup_imap, renumber_relabel, list_lookup_fmap.
  destruct (evs !! i) as [v|]; simpl; naive_solver.
Qed.

Lemma id_in (i : nat) v : evs !! i = Some v → ev_Id v ∈ F.
Proof. intros Hi. apply elem_of_firsts. right. apply list_elem_of_fmap_2. by eapply list_elem_of_lookup_2. Qed.

Lemma kind_entry v k : kind (entry_of k v) = callEntry ↔ ev_Kind v = CallEvent.
Proof. unfold entry_of. simpl. by destruct (ev_Kind v). Qed.

(** Of each kind there are as many events as operations. *)
Lemma kind_count (kd : EventKind) (P : Event X Y → Prop) `{∀ v, Decision (P v)} :
  (∀ v, P v ↔ ev_Kind v = kd) → length (filter P evs) = length F.
Proof.
  intros HP. rewrite <-(length_fmap ev_Id). apply Permutation_length, NoDup_Permutation.
  - apply NoDup_fmap_2_strong.
    + intros v v' [Hv [i Hi]%list_elem_of_lookup]%list_elem_of_filter [Hv' [j Hj]%list_elem_of_lookup]%list_elem_of_filter Hid.
      apply HP in Hv, Hv'. assert (i = j) by (eapply (eh_unique _ _ Hevs); [done..|congruence|done]). congruence.
    + apply NoDup_filter, NoDup_alt. intros i j v Hi Hj. by eapply (eh_unique _ _ Hevs).
  - apply firsts_NoDup. constructor.
  - intros x. rewrite elem_of_firsts, elem_of_nil. split.
    + intros (v & -> & [_ Hv]%list_elem_of_filter)%list_elem_of_fmap. right. by apply list_elem_of_fmap_2.
    + intros [?|Hx]; [done|]. destruct (eh_both _ _ Hevs x Hx) as (i & j & c & r & _ & Hc & Hkc & <- & Hr & Hkr & Hid).
      destruct kd; [|rewrite <-Hid]; apply list_elem_of_fmap_2, list_elem_of_filter; rewrite HP;
        (split; [done|by eapply list_elem_of_lookup_2]).
Qed.

Lemma entries_complete : complete (convertEntries (renumber evs)) (op <$> F).
Proof.
  assert (NoDup F) as HF by (apply firsts_NoDup; constructor). constructor.
  - unfold convertEntries. rewrite length_imap, renumber_relabel, !length_fmap.
    pose proof (kind_count CallEvent (λ v, ev_Kind v = CallEvent) (λ v, iff_refl _)) as Hc.
    pose proof (kind_count ReturnEvent (λ v, ¬ ev_Kind v = CallEvent)) as Hr.
    pose proof (Permutation_length (filter_app_complement (λ v, ev_Kind v = CallEvent) evs)) as Hl.
    rewrite length_app, Hc, Hr in Hl; [lia|]. intros v. by destruct (ev_Kind v).
  - intros k Hk. rewrite length_fmap in Hk. destruct (lookup_lt_is_Some_2 F (Z.to_nat k)) as [x Hx]; [lia|].
    assert (x ∈ F) as HxF by (by eapply list_elem_of_lookup_2).
    apply elem_of_firsts in HxF as [?%not_elem_of_nil|HxF]; [done|].
    destruct (eh_both _ _ Hevs x HxF) as (i & j & c & r & Hij & Hc & Hkc & Hic & Hr & Hkr & Hir).
    exists i, j, (entry_of i c), (entry_of j r). rewrite !entries_lookup. unfold entry_of. simpl.
    rewrite Hkc, Hkr, Hic, Hir, (position_of F x (Z.to_nat k) HF Hx). unfold entry_of.
    split_and!; try done; [exists c|lia|exists r|lia]; rewrite ?Hkc, ?Hkr, ?Hic, ?Hir, (position_of F x (Z.to_nat k) HF Hx); done.
  - intros i j e e' (v & Hv & ->)%entries_lookup (v' & Hv' & ->)%entries_lookup Hk Hid. unfold entry_of in Hk, Hid. simpl in Hk, Hid.
    eapply (eh_unique _ _ Hevs); [done..| |].
    + destruct (ev_Kind v), (ev_Kind v'); done.
    + apply (position_inj F); [by eapply id_in..|lia].
  - intros i e (v & Hv & ->)%entries_lookup. unfold entry_of. simpl. split; [lia|].
    exists (op (ev_Id v)). rewrite Nat2Z.id, list_lookup_fmap, (position_lookup F (ev_Id v)) by (by eapply id_in).
    split; [done|]. rewrite (eh_value _ _ Hevs i v Hv). by destruct (ev_Kind v).
Qed.

Lemma entry_prec_events a b :
  a ∈ F → b ∈ F →
  entry_prec (convertEntries (renumber evs)) (Z.of_nat (position F a)) (Z.of_nat (position F b)) ↔ event_prec evs a b.
Proof.
  intros Ha Hb. split.
  - intros (i & j & r & c & Hij & (vr & Hr & ->)%entries_lookup & Hkr & Hir & (vc & Hc & ->)%entries_lookup & Hkc & Hic).
    exists i, j, vr, vc. unfold entry_of in *. simpl in *. split_and!; try done.
    + by destruct (ev_Kind vr).
    + apply (position_inj F); [by eapply id_in|done|lia].
    + by destruct (ev_Kind vc).
    + apply (position_inj F); [by eapply id_in|done|lia].
  - intros (i & j & r & c & Hij & Hr & Hkr & <- & Hc & Hkc & <-). exists i, j, (entry_of i r), (entry_of j c).
    rewrite !entries_lookup. simpl. rewrite Hkr, Hkc. split_and!; eauto.
Qed.

Lemma entries_events {St} (model : Model X Y St) :
  entries_linearizable model (convertEntries (renumber evs)) (op <$> F) ↔
  events_linearizable (Step model) (Init model) evs op.
Proof.
  assert (NoDup F) as HF by (apply firsts_NoDup; constructor).
  unfold entries_linearizable, events_linearizable.
  assert (imap pair (op <$> F) = (λ x, (position F x, op x)) <$> F) as ->.
  { apply list_eq. intros i. rewrite list_lookup_imap, !list_lookup_fmap. destruct (F !! i) as [x|] eqn:Hx; simpl; [|done].
    by rewrite (position_of F x i HF Hx). }
  apply linearizable_fmap; [| |done].
  - intros a b Ha Hb [= Hp _]. by eapply position_inj.
  - intros a b Ha Hb. simpl. by apply entry_prec_events.
Qed.
End complete.

(** ** [checkEvents] *)
Section check.
Context {St : Type} `{EqDecision St}.
Context (fmtX : X → string) (fmtY : Y → string) (fmtS : St → string) (rangeSet : gset nat → list nat).
Context (model : Model X Y St) (op : Z → X * Y) evs (verbose : bool) (timeout : Z).

(** The answer of [checkEvents] for a model that does not partition
    events: under every interleaving it does not panic, [Ok] means that the
    history of events is linearizable, [Illegal] that it is not, and
    [Unknown] is only answered with a timeout; and it can always return. *)
Theorem checkEvents_decides :
  (∀ eqf, Equal model = Some eqf → equal_ok model eqf) → PartitionEvent model = None →
  event_history evs op → zlen evs < 2 ^ 63 →
  (∃ sched, returns (checkEvents fmtX fmtY fmtS rangeSet model evs verbose timeout sched)) ∧
  ∀ sched,
    match checkEvents fmtX fmtY fmtS rangeSet model evs verbose timeout sched with
    | Ret (r, _) =>
        (r = Ok → events_linearizable (Step model) (Init model) evs op) ∧
        (r = Illegal → ¬ events_linearizable (Step model) (Init model) evs op) ∧ (r = Unknown → 0 < timeout)
    | Panic _ => False
    | NoFuel => True
    end.
Proof.
  intros Hequal Hpart Hevs Hlen. set (full := fillDefault fmtX fmtY fmtS model).
  assert (∃ eqf, Equal full = Some eqf ∧ equal_ok full eqf) as (eqf & Heq & Hobs).
  { simpl. destruct (Equal model) as [eqf|] eqn:Heq; [exists eqf; split; [done|]; by apply (Hequal eqf)|].
    exists ShallowEqual. split; [done|]. intros a a' Ha. unfold ShallowEqual in Ha.
    by apply bool_decide_eq_true in Ha as ->. }
  set (es := convertEntries (renumber evs)). set (ops := op <$> firsts [] evs).
  assert (∀ sched, checkEvents fmtX fmtY fmtS rangeSet model evs verbose timeout sched =
    checkParallel full rangeSet [es] verbose timeout sched) as Hrun.
  { intros sched. unfold checkEvents. simpl. by rewrite Hpart. }
  pose proof (entries_complete evs op Hevs) as Hcomp. fold es ops in Hcomp.
  assert (Forall2 complete [es] [ops]) as Hc by (constructor; [exact Hcomp|constructor]).
  assert (Forall (λ ops : list (X * Y), zlen ops < 2 ^ 64) [ops]) as Hs.
  { constructor; [|constructor]. pose proof (cp_length _ _ Hcomp) as Hl. unfold es, convertEntries in Hl.
    rewrite length_imap, renumber_relabel, length_fmap in Hl. rewrite pow64.
    change (2 ^ 63) with 9223372036854775808 in Hlen. lia. }
  assert (part_ok full [es] [ops] 0 ↔ events_linearizable (Step model) (Init model) evs op) as Hok.
  { pose proof (entries_events evs op full) as He. unfold part_ok. split.
    - intros Hp. apply He. by apply Hp.
    - intros Hl es' ops' [= <-] [= <-]. by apply He. }
  split.
  - destruct (checkParallel_ends full rangeSet eqf [es] [ops] verbose timeout Heq Hobs Hc Hs) as [N HN]; [by left|].
    destruct (HN []) as (_ & (sched & _ & Hret) & _). exists sched. by rewrite Hrun.
  - intros sched. rewrite Hrun.
    pose proof (checkParallel_sound full rangeSet eqf [es] [ops] verbose timeout Heq Hobs Hc Hs sched) as Hp.
    destruct (checkParallel _ _ _ _ _ _) as [[r info]|p|]; [|done|done]. destruct Hp as (H1 & H2 & H3 & _).
    split_and!; [|intros (i & Hi & Hno)%H2|done].
    + intros Hr. apply Hok. by apply H1.
    + simpl in Hi. assert (i = 0%nat) as -> by lia. by rewrite <-Hok.
Qed.
End check.
End events.

(** A register: writes and reads of one value. *)
Section example.
Definition register_step (st : Z) (i : option Z) (o : Z) : bool * Z :=
  match i with Some w => (true, w) | None => (bool_decide (o = st), st) end.

Definition register : Model (option Z) Z Z := mkModel None None 0 register_step None None None.

(** A read (id 9) of 1 overlaps the write (id 7) of 1. *)
Definition register_events : list (Event (option Z) Z) :=
  [mkEvent 0 CallEvent (inl (Some 1)) 7; mkEvent 1 CallEvent (inl None) 9;
   mkEvent 1 ReturnEvent (inr 1) 9; mkEvent 0 ReturnEvent (inr 0) 7].

Definition register_op (x : Z) : option Z * Z := if x =? 7 then (Some 1, 0) else (None, 1).

Lemma register_history : event_history register_events register_op.
Proof.
  constructor.
  - intros i j v v' Hi Hj. do 4 (destruct i as [|i]; [do 4 (destruct j as [|j]; [by simplify_eq/=|]); by simplify_eq/=|]).
    by simplify_eq/=.
  - intros x Hx. assert (x = 7 ∨ x = 9) as [-> | ->] by (unfold register_events in Hx; set_solver).
    + eexists 0%nat, 3%nat, _, _. split_and!; (reflexivity || lia).
    + eexists 1%nat, 2%nat, _, _. split_and!; (reflexivity || lia).
  - intros i v Hi. do 4 (destruct i as [|i]; [by simplify_eq/=|]). by simplify_eq/=.
Qed.

Definition register_sched : list event := mjoin (replicate 20 [Turn 0; Receive; Answer]).

Lemma register_accepted :
  ∃ info, checkEvents (λ _, "") (λ _, "") (λ _, "") elements register register_events false 0 register_sched = Ret (Ok, info).
Proof. eexists. vm_compute. reflexivity. Qed.

Lemma checkEvents_decides_witness : events_linearizable register_step 0 register_events register_op.
Proof.
  destruct (checkEvents_decides (λ _, "") (λ _, "") (λ _, "") elements register register_op register_events false 0)
    as [_ Hall].
  - intros eqf Heq. discriminate Heq.
  - reflexivity.
  - apply register_history.
  - vm_compute. reflexivity.
  - specialize (Hall register_sched). destruct register_accepted as [info Hr].
    rewrite Hr in Hall. destruct Hall as (Hok & _). apply Hok. reflexivity.
Defined.
End example.
