(* ===== verification/PorcupineHistory.v ===== *)
(** * Histories of operations

    The entries [makeEntries] makes of a history of operations are complete,
    and one operation precedes another among them exactly when it returned
    before the other was called.  [history_linearizable] is linearizability of
    a history; for a specification that keeps independent objects apart it is
    local: a history is linearizable when the history of every object is. *)

From stdpp Require Import prelude gmap strings list sorting relations.
From S2P Require Import Prelude Bitset Porcupine PorcupineList Linearizability PorcupineSearch PorcupineEntries.
Local Open Scope Z_scope.

Section histories.
Context {X Y : Type}.
Implicit Types (history : list (Operation X Y)) (o : Operation X Y).

Definition op_pair o : X * Y := (Input o, Output o).

(** Every operation is called no later than it returns. *)
Definition timed history : Prop := Forall (λ o, Call o ≤ Return o) history.

(** Some order of the operations is accepted and keeps every pair of which
    one returned before the other was called. *)
Definition history_linearizable {St} (step : St → X → Y → bool * St) (st : St) history : Prop :=
  linearizable step (imap pair history) (λ a b, Return a.2 < Call b.2) (λ a, op_pair a.2) st.

(** ** The entries *)

Definition call_of (k : Z) o : entry X Y := mkEntry callEntry (inl (Input o)) k (Call o) (ClientId o).

Definition return_of (k : Z) o : entry X Y := mkEntry returnEntry (inr (Output o)) k (Return o) (ClientId o).

Lemma elem_of_entriesFrom i history e :
  e ∈ entriesFrom i history ↔
  ∃ (k : nat) o, history !! k = Some o ∧ (e = call_of (i + Z.of_nat k) o ∨ e = return_of (i + Z.of_nat k) o).
Proof.
  revert i. induction history as [|o history IH]; intros i; simpl.
  - split; [by intros ?%not_elem_of_nil|]. by intros (k & o & ? & _).
  - rewrite !elem_of_cons, IH. split.
    + intros [->|[->|(k & o' & Hk & He)]].
      * exists 0%nat, o. split; [done|]. left. unfold call_of. f_equal. lia.
      * exists 0%nat, o. split; [done|]. right. unfold return_of. f_equal. lia.
      * exists (S k), o'. split; [done|]. replace (i + Z.of_nat (S k)) with (i + 1 + Z.of_nat k) by lia. done.
    + intros ([|k] & o' & Hk & He); simplify_eq/=.
      * rewrite Z.add_0_r in He. tauto.
      * right. right. exists k, o'. replace (i + 1 + Z.of_nat k) with (i + Z.of_nat (S k)) by lia. done.
Qed.

Lemma length_entriesFrom i history : zlen (entriesFrom i history) = 2 * zlen history.
Proof. revert i. induction history as [|o history IH]; intros i; simpl; [done|]. specialize (IH (i + 1)). lia. Qed.

Lemma NoDup_entriesFrom i history : NoDup ((λ e, (kind e, id e)) <$> entriesFrom i history).
Proof.
  revert i. induction history as [|o history IH]; intros i; simpl; [constructor|].
  assert (∀ kd, (kd, i) ∉ (λ e, (kind e, id e)) <$> entriesFrom (i + 1) history) as Hn.
  { intros kd (e & He & (k & o' & _ & Hor)%elem_of_entriesFrom)%list_elem_of_fmap.
    destruct Hor as [-> | ->]; simpl in He; injection He as _ Hi; lia. }
  constructor; [|constructor; [apply Hn|apply IH]]. rewrite elem_of_cons. intros [?|?]; [done|]. by apply (Hn callEntry).
Qed.

(** ** Sorting *)

Definition le_time (a b : entry X Y) : Prop := Less b a = false.

Lemma le_time_spec a b :
  le_time a b ↔ time a < time b ∨ (time a = time b ∧ (kind a = callEntry ∨ kind b = returnEntry)).
Proof.
  unfold le_time, Less. destruct (Z.eqb_spec (time b) (time a)) as [He|He]; simpl.
  - destruct (kind a), (kind b); simpl; intuition (congruence || lia).
  - rewrite Z.ltb_ge. lia.
Qed.

#[local] Instance le_time_trans : Transitive le_time.
Proof.
  intros a b c. rewrite !le_time_spec. destruct (kind a), (kind b), (kind c); intuition (congruence || lia).
Qed.

Section sorted.
Context (sortByTime : list (entry X Y) → list (entry X Y)).
Hypothesis sort_perm : ∀ l, sortByTime l ≡ₚ l.
Hypothesis sort_sorted : ∀ l, Sorted (λ a b, Less b a = false) (sortByTime l).

Lemma sorted_lookup l (i j : nat) a b :
  (i < j)%nat → sortByTime l !! i = Some a → sortByTime l !! j = Some b → le_time a b.
Proof.
  pose proof (sort_sorted l) as Hs. apply Sorted_StronglySorted in Hs; [|apply le_time_trans].
  intros Hij Hi Hj. eapply StronglySorted_before; [exact Hs|]. apply before_lookup. eauto.
Qed.

Lemma entry_lookup history (k : nat) o :
  history !! k = Some o → ∃ i j : nat,
    makeEntries sortByTime history !! i = Some (call_of (Z.of_nat k) o) ∧
    makeEntries sortByTime history !! j = Some (return_of (Z.of_nat k) o).
Proof.
  intros Hk. unfold makeEntries.
  assert (∀ e, (e = call_of (Z.of_nat k) o ∨ e = return_of (Z.of_nat k) o) →
    ∃ i : nat, sortByTime (entriesFrom 0 history) !! i = Some e) as He.
  { intros e He. apply list_elem_of_lookup. rewrite sort_perm. apply elem_of_entriesFrom. by exists k, o. }
  destruct (He _ (or_introl eq_refl)) as [i Hi], (He _ (or_intror eq_refl)) as [j Hj]. eauto.
Qed.

Lemma entry_inv history (i : nat) e :
  makeEntries sortByTime history !! i = Some e →
  ∃ (k : nat) o, history !! k = Some o ∧ (e = call_of (Z.of_nat k) o ∨ e = return_of (Z.of_nat k) o).
Proof.
  intros Hi%list_elem_of_lookup_2. unfold makeEntries in Hi. rewrite sort_perm in Hi.
  by apply elem_of_entriesFrom in Hi.
Qed.

Lemma makeEntries_complete history :
  timed history → complete (makeEntries sortByTime history) (op_pair <$> history).
Proof.
  intros Ht. constructor.
  - unfold makeEntries. rewrite sort_perm, length_entriesFrom, length_fmap. done.
  - intros k Hk. rewrite length_fmap in Hk. destruct (lookup_lt_is_Some_2 history (Z.to_nat k)) as [o Ho]; [lia|].
    destruct (entry_lookup history (Z.to_nat k) o Ho) as (i & j & Hi & Hj). rewrite Z2Nat.id in Hi, Hj by lia.
    exists i, j, (call_of k o), (return_of k o). split_and!; try done.
    destruct (decide (i = j)) as [->|Hne]; [by rewrite Hi in Hj|]. apply Nat.nle_gt. intros Hle.
    pose proof (sorted_lookup _ j i _ _ ltac:(lia) Hj Hi) as Hs. apply le_time_spec in Hs. simpl in Hs.
    unfold timed in Ht. rewrite Forall_lookup in Ht. specialize (Ht _ _ Ho). simpl in Ht. intuition (done || lia).
  - intros i j e e' Hi Hj Hk Hid.
    assert (NoDup ((λ e, (kind e, id e)) <$> makeEntries sortByTime history)) as Hnd
      by (unfold makeEntries; rewrite sort_perm; apply NoDup_entriesFrom).
    eapply NoDup_lookup; [exact Hnd|by rewrite list_lookup_fmap, Hi|rewrite list_lookup_fmap, Hj; simpl; congruence].
  - intros i e (k & o & Hk & Hor)%entry_inv.
    assert (id e = Z.of_nat k) as Hid by (by destruct Hor as [-> | ->]).
    split; [lia|]. exists (op_pair o). rewrite Hid, Nat2Z.id, list_lookup_fmap, Hk. split; [done|].
    by destruct Hor as [-> | ->].
Qed.

Lemma entry_prec_time history (a b : nat) oa ob :
  history !! a = Some oa → history !! b = Some ob →
  entry_prec (makeEntries sortByTime history) (Z.of_nat a) (Z.of_nat b) ↔ Return oa < Call ob.
Proof.
  intros Ha Hb. split.
  - intros (i & j & r & c & Hij & Hr & Hkr & Hir & Hc & Hkc & Hic).
    pose proof (sorted_lookup _ i j _ _ Hij Hr Hc) as Hs. apply le_time_spec in Hs.
    destruct (entry_inv _ _ _ Hr) as (k & o & Hk & [-> | ->]); [done|].
    destruct (entry_inv _ _ _ Hc) as (k' & o' & Hk' & [-> | ->]); [|done]. simpl in *.
    assert (k = a) as -> by lia. assert (k' = b) as -> by lia. simplify_eq. intuition (done || lia).
  - intros Hlt. destruct (entry_lookup _ _ _ Ha) as (_ & i & _ & Hi). destruct (entry_lookup _ _ _ Hb) as (j & _ & Hj & _).
    exists i, j, (return_of (Z.of_nat a) oa), (call_of (Z.of_nat b) ob). split_and!; try done.
    destruct (decide (i = j)) as [->|Hne]; [by rewrite Hi in Hj|]. apply Nat.nle_gt. intros Hle.
    pose proof (sorted_lookup _ j i _ _ ltac:(lia) Hj Hi) as Hs. apply le_time_spec in Hs. simpl in Hs. lia.
Qed.

(** What the search decides is linearizability of the history. *)
Lemma entries_history {St} (model : Model X Y St) history :
  entries_linearizable model (makeEntries sortByTime history) (op_pair <$> history) ↔
  history_linearizable (Step model) (Init model) history.
Proof.
  unfold entries_linearizable, history_linearizable.
  assert (imap pair (op_pair <$> history) = (λ a : nat * Operation X Y, (a.1, op_pair a.2)) <$> imap pair history) as ->.
  { rewrite imap_fmap, fmap_imap. done. }
  apply linearizable_fmap; [| |done].
  - intros ? ? (i & o & -> & Hi)%elem_of_lookup_imap (j & o' & -> & Hj)%elem_of_lookup_imap [= -> _]. congruence.
  - intros ? ? (i & o & -> & Hi)%elem_of_lookup_imap (j & o' & -> & Hj)%elem_of_lookup_imap. simpl.
    by apply entry_prec_time.
Qed.
End sorted.
End histories.

(** ** Histories recorded of a log

    The operations [history] are the events [ret] of a log [l] that a
    specification accepts: the history is linearizable when an operation that
    returned before another was called comes before it in the log. *)
Section log.
Context {X Y St E : Type} (step : St → X → Y → bool * St) (op : E → X * Y).

Lemma log_linearizable (history : list (Operation X Y)) (l ret : list E) st :
  NoDup l → l ≡ₚ ret → accepts step st (op <$> l) = true → Forall2 (λ o e, op_pair o = op e) history ret →
  (∀ (i j : nat) o e o' e', history !! i = Some o → ret !! i = Some e → history !! j = Some o' → ret !! j = Some e' →
     Return o < Call o' → before l e e') →
  history_linearizable step st history.
Proof.
  intros Hnd Hp Hacc Hm Hord. set (calls := zip (imap pair history) ret).
  assert (length (imap pair history) = length ret) as Hlen by (rewrite length_imap; by eapply Forall2_length).
  assert (NoDup ret) as Hndr by (by rewrite <-Hp).
  assert (∀ a, a ∈ calls → history !! a.1.1 = Some a.1.2 ∧ ret !! a.1.1 = Some a.2 ∧ op_pair a.1.2 = op a.2) as Hcalls.
  { intros [[i o] e] [j Hj]%list_elem_of_lookup. unfold calls in Hj. apply lookup_zip_with_Some in Hj as (x & y & [= -> ->] & Hx & Hy).
    rewrite list_lookup_imap in Hx. destruct (history !! j) as [o'|] eqn:Ho; simplify_eq/=.
    split_and!; [done..|]. by eapply (Forall2_lookup_lr _ _ _ _ _ _ Hm). }
  set (prec := λ a b : nat * Operation X Y * E, Return a.1.2 < Call b.1.2).
  set (prec' := λ e e' : E, ∃ a b, a ∈ calls ∧ b ∈ calls ∧ a.2 = e ∧ b.2 = e' ∧ prec a b).
  assert (∀ a b, a ∈ calls → b ∈ calls → a.2 = b.2 → a = b) as Hinj.
  { intros [[i o] e] [[j o'] e'] (Hi & Hri & _)%Hcalls (Hj & Hrj & _)%Hcalls Heq. simpl in *. subst e'.
    assert (i = j) as -> by (by eapply NoDup_lookup). congruence. }
  assert (linearizable step (calls.*2) prec' op st) as Hlin.
  { assert (calls.*2 = ret) as -> by (apply snd_zip; lia). exists l. split_and!; [done| |done].
    intros e e' _ _ (a & b & Ha & Hb & <- & <- & Hab).
    destruct (Hcalls a Ha) as (Hi & Hri & _), (Hcalls b Hb) as (Hj & Hrj & _). by eapply (Hord a.1.1 b.1.1). }
  apply (linearizable_fmap _ snd calls prec prec' (λ a, op a.2) op) in Hlin; [|done| |done].
  2:{ intros a b Ha Hb. unfold prec'. split; [|by eauto 10].
      intros (a' & b' & Ha' & Hb' & Heqa & Heqb & Hab). by rewrite (Hinj a a'), (Hinj b b'). }
  unfold history_linearizable. assert (imap pair history = calls.*1) as -> by (symmetry; apply fst_zip; lia).
  apply (linearizable_fmap _ fst calls prec (λ a b, Return a.2 < Call b.2) (λ a, op a.2) (λ a, op_pair a.2));
    [|done| |done].
  - intros [[i o] e] [[j o'] e'] (? & Hri & _)%Hcalls (? & Hrj & _)%Hcalls [= -> ->]. simpl in *. congruence.
  - intros a Ha. by destruct (Hcalls a Ha) as (_ & _ & ->).
Qed.
End log.
