(* ===== verification/Locality.v ===== *)
(** * Linearizability is local

    A store of independent objects, each specified by [step], is itself a
    specification ([store_step]).  A history of the store is linearizable
    exactly when the history of every object is ([linearizable_local]): this
    is what checking a history part by part rests on.  From the orders of the
    objects an order of all operations is made by giving every operation a
    point in time: the latest call among the operations up to it in the order
    of its object. *)

From stdpp Require Import prelude gmap strings list sorting relations.
From S2P Require Import Prelude Porcupine Linearizability PorcupineHistory.
Local Open Scope Z_scope.

Lemma untag {T} (l : list T) : (imap pair l).*2 = l.
Proof.
  apply list_eq. intros i. rewrite list_lookup_fmap, list_lookup_imap. by destruct (l !! i).
Qed.

Section store.
Context {X Y St K : Type} `{Countable K} (step : St → X → Y → bool * St) (init : St) (key : X → K).

Definition store_step (m : gmap K St) (x : X) (y : Y) : bool * gmap K St :=
  let '(ok, st') := step (default init (m !! key x)) x y in (ok, <[key x := st']> m).

Lemma store_accepts m (ops : list (X * Y)) :
  accepts store_step m ops = true ↔
  ∀ k, accepts step (default init (m !! k)) (filter (λ o, key o.1 = k) ops) = true.
Proof.
  revert m. induction ops as [|[x y] ops IH]; intros m; simpl; [done|]. unfold store_step at 1.
  destruct (step (default init (m !! key x)) x y) as [ok st'] eqn:Hs. rewrite andb_true_iff, IH. split.
  - intros [-> Hall] k. rewrite filter_cons. simpl. specialize (Hall k). case_decide as Hk.
    + subst k. rewrite lookup_insert_eq in Hall. simpl. by rewrite Hs.
    + by rewrite lookup_insert_ne in Hall.
  - intros Hall. split.
    + specialize (Hall (key x)). rewrite filter_cons_True in Hall by done. simpl in Hall. rewrite Hs in Hall.
      by apply andb_true_iff in Hall as [? _].
    + intros k. specialize (Hall k). rewrite filter_cons in Hall. simpl in Hall. case_decide as Hk.
      * subst k. simpl in Hall. rewrite Hs in Hall. apply andb_true_iff in Hall as [_ ?]. by rewrite lookup_insert_eq.
      * by rewrite lookup_insert_ne.
Qed.

Context (history : list (Operation X Y)).

Definition tagged : list (nat * Operation X Y) := imap pair history.

Definition key_of (a : nat * Operation X Y) : K := key (Input a.2).

Definition real_time (a b : nat * Operation X Y) : Prop := Return a.2 < Call b.2.

Definition object (k : K) : list (nat * Operation X Y) := filter (λ a, key_of a = k) tagged.

Lemma tagged_unique a b : a ∈ tagged → b ∈ tagged → a.1 = b.1 → a = b.
Proof.
  intros (i & o & -> & Hi)%elem_of_lookup_imap (j & o' & -> & Hj)%elem_of_lookup_imap. simpl. intros ->. congruence.
Qed.

Lemma tagged_NoDup : NoDup tagged.
Proof.
  apply NoDup_alt. intros i j a Hi Hj. unfold tagged in *. rewrite list_lookup_imap in Hi, Hj.
  destruct (history !! i), (history !! j); simplify_eq/=. done.
Qed.

(** Only the operations matter, not their numbers. *)
Lemma linearizable_untag {T St'} (step' : St' → X → Y → bool * St') st (l : list (T * Operation X Y)) :
  NoDup l →
  linearizable step' l (λ a b, Return a.2 < Call b.2) (λ a, op_pair a.2) st ↔
  history_linearizable step' st l.*2.
Proof.
  intros Hnd. set (T3 := (nat * (T * Operation X Y))%type).
  set (prec := λ a b : T3, Return a.2.2 < Call b.2.2). set (op := λ a : T3, op_pair a.2.2).
  transitivity (linearizable step' (imap pair l) prec op st).
  - assert (l = (snd : T3 → _) <$> imap pair l) as Hl.
    { symmetry. apply untag. }
    rewrite Hl at 1. apply linearizable_fmap; [|done|done].
    intros ? ? (i & a & -> & Hi)%elem_of_lookup_imap (j & b & -> & Hj)%elem_of_lookup_imap. simpl. intros ->.
    f_equal. by eapply NoDup_lookup.
  - unfold history_linearizable. assert (imap pair l.*2 = (λ a : T3, (a.1, a.2.2)) <$> imap pair l) as ->.
    { by rewrite imap_fmap, fmap_imap. }
    symmetry. apply linearizable_fmap; [|done|done].
    intros ? ? (i & a & -> & Hi)%elem_of_lookup_imap (j & b & -> & Hj)%elem_of_lookup_imap. simpl. intros [= -> _].
    congruence.
Qed.

Lemma object_history k : (object k).*2 = filter (λ o, key (Input o) = k) history.
Proof.
  transitivity (filter (λ o, key (Input o) = k) tagged.*2); [symmetry; apply filter_of_fmap|].
  unfold tagged. by rewrite untag.
Qed.

Lemma filter_ops k (π : list (nat * Operation X Y)) :
  filter (λ o, key o.1 = k) ((λ a, op_pair a.2) <$> π) = (λ a, op_pair a.2) <$> filter (λ a, key_of a = k) π.
Proof. apply filter_of_fmap. Qed.

(** *** From the store to its objects *)

Lemma store_to_object k :
  history_linearizable store_step ∅ history → history_linearizable step init (filter (λ o, key (Input o) = k) history).
Proof.
  intros (π & Hp & Hord & Hacc). rewrite <-object_history.
  apply (proj1 (linearizable_untag step init (object k) (NoDup_filter _ _ tagged_NoDup))).
  exists (filter (λ a, key_of a = k) π). split_and!.
  - unfold object. by rewrite Hp.
  - intros a b [Ha Hat]%list_elem_of_filter [Hb Hbt]%list_elem_of_filter Hab. apply before_filter. split_and!; [|done..].
    by apply Hord.
  - rewrite store_accepts in Hacc. specialize (Hacc k). rewrite lookup_empty in Hacc. simpl in Hacc.
    by rewrite filter_ops in Hacc.
Qed.

(** *** From the objects to the store *)

Section merge.
Context (f : K → list (nat * Operation X Y)).
Hypothesis Htimed : timed history.
Hypothesis Hperm : ∀ k, f k ≡ₚ object k.
Hypothesis Hord : ∀ k a b, a ∈ object k → b ∈ object k → real_time a b → before (f k) a b.

(** The place of an operation in the order of its object. *)
Definition place (a : nat * Operation X Y) : nat :=
  from_option fst 0%nat (list_find (λ b, b.1 = a.1) (f (key_of a))).

(** Its point in time. *)
Definition point (a : nat * Operation X Y) : Z :=
  foldr Z.max (Call a.2) ((λ b, Call b.2) <$> take (S (place a)) (f (key_of a))).

Definition point_le (a b : nat * Operation X Y) : Prop :=
  point a < point b ∨ (point a = point b ∧ (place a ≤ place b)%nat).

#[local] Instance point_le_dec : RelDecision point_le.
Proof. intros a b. unfold point_le. apply _. Defined.
#[local] Instance point_le_trans : Transitive point_le.
Proof. intros a b c. unfold point_le. lia. Qed.
#[local] Instance point_le_total : Total point_le.
Proof. intros a b. unfold point_le. lia. Qed.

Lemma elem_of_object k a : a ∈ object k ↔ a ∈ tagged ∧ key_of a = k.
Proof. unfold object. rewrite list_elem_of_filter. tauto. Qed.

Lemma f_NoDup k : NoDup (f k).
Proof. rewrite Hperm. apply NoDup_filter, tagged_NoDup. Qed.

Lemma place_lookup a : a ∈ tagged → f (key_of a) !! place a = Some a.
Proof.
  intros Ha. assert (a ∈ f (key_of a)) as Hin by (rewrite Hperm; by apply elem_of_object).
  destruct (list_find_elem_of (λ b : nat * Operation X Y, b.1 = a.1) _ a Hin eq_refl) as [[i b] Hf].
  unfold place. rewrite Hf. simpl. apply list_find_Some in Hf as (Hi & Hb & _). rewrite Hi. f_equal.
  apply tagged_unique; [|done|done]. assert (b ∈ f (key_of a)) as Hb' by (by eapply list_elem_of_lookup_2).
  rewrite Hperm in Hb'. by apply elem_of_object in Hb' as [? _].
Qed.

Lemma max_ge z l v : v ∈ z :: l → v ≤ foldr Z.max z l.
Proof.
  induction l as [|w l IH]; simpl; [intros ->%list_elem_of_singleton; lia|].
  rewrite !elem_of_cons in *. intros [Hv|[->|Hv]]; [specialize (IH (or_introl Hv))| |specialize (IH (or_intror Hv))]; lia.
Qed.

Lemma max_in z l : foldr Z.max z l ∈ z :: l.
Proof.
  induction l as [|w l IH]; simpl; [by left|]. rewrite !elem_of_cons in *.
  destruct (Z.max_spec w (foldr Z.max z l)) as [[_ ->]|[_ ->]]; tauto.
Qed.

(** A point lies between call and return. *)
Lemma point_call a : a ∈ tagged → Call a.2 ≤ point a.
Proof. intros _. apply max_ge. by left. Qed.

Lemma point_return a : a ∈ tagged → point a ≤ Return a.2.
Proof.
  intros Ha. pose proof (place_lookup a Ha) as Hpl.
  assert (Call a.2 ≤ Return a.2) as Hself.
  { apply elem_of_lookup_imap in Ha as (i & o & -> & Hi). unfold timed in Htimed. rewrite Forall_lookup in Htimed.
    by apply (Htimed i o). }
  pose proof (max_in (Call a.2) ((λ b, Call b.2) <$> take (S (place a)) (f (key_of a)))) as Hin. fold (point a) in Hin.
  apply elem_of_cons in Hin as [->|(b & -> & [i Hi]%list_elem_of_lookup)%list_elem_of_fmap]; [done|].
  apply lookup_take_Some in Hi as [Hi Hlt]. destruct (decide (i = place a)) as [->|Hne].
  { rewrite Hpl in Hi. by injection Hi as <-. }
  apply Z.nlt_ge. intros Hrt. assert (b ∈ object (key_of a)) as Hb by (rewrite <-Hperm; by eapply list_elem_of_lookup_2).
  apply (before_asym (f (key_of a)) a b (f_NoDup _)).
  - apply Hord; [by apply elem_of_object|done|done].
  - apply before_lookup. exists i, (place a). split_and!; [lia|done..].
Qed.

Lemma point_mono a b :
  a ∈ tagged → b ∈ tagged → key_of a = key_of b → (place a ≤ place b)%nat → point a ≤ point b.
Proof.
  intros Ha Hb Hk Hle. unfold point at 1.
  pose proof (max_in (Call a.2) ((λ b, Call b.2) <$> take (S (place a)) (f (key_of a)))) as Hin.
  assert (∀ c, c ∈ take (S (place a)) (f (key_of a)) → Call c.2 ≤ point b) as Hall.
  { intros c [i Hi]%list_elem_of_lookup. apply lookup_take_Some in Hi as [Hi Hlt]. unfold point. apply max_ge. right.
    apply (list_elem_of_fmap_2 (λ b : nat * Operation X Y, Call b.2)). apply list_elem_of_lookup. exists i.
    apply lookup_take_Some. rewrite <-Hk. split; [done|lia]. }
  apply elem_of_cons in Hin as [->|(c & -> & Hc)%list_elem_of_fmap]; [|by apply Hall].
  apply Hall. apply list_elem_of_lookup. exists (place a). apply lookup_take_Some.
  split; [by apply place_lookup|lia].
Qed.

Definition merged : list (nat * Operation X Y) := merge_sort point_le tagged.

Lemma merged_before a b : before merged a b → a ∈ tagged ∧ b ∈ tagged ∧ point_le a b.
Proof.
  intros Hab. destruct (before_in _ _ _ Hab) as [Ha Hb]. unfold merged in *.
  rewrite merge_sort_Permutation in Ha, Hb. split_and!; [done..|].
  eapply StronglySorted_before; [|exact Hab]. apply StronglySorted_merge_sort; apply _.
Qed.

Lemma merged_object k : filter (λ a, key_of a = k) merged = f k.
Proof.
  apply before_eq.
  - apply NoDup_filter. unfold merged. rewrite merge_sort_Permutation. apply tagged_NoDup.
  - rewrite Hperm. unfold merged, object. by rewrite merge_sort_Permutation.
  - intros a b (Hab & <- & Hkb)%before_filter. destruct (merged_before _ _ Hab) as (Ha & Hb & Hle).
    apply before_lookup. exists (place a), (place b). rewrite <-Hkb at 2.
    split_and!; [|by apply place_lookup|by apply place_lookup].
    destruct (decide (place a = place b)) as [He|Hne].
    + exfalso. pose proof (place_lookup a Ha) as H1. pose proof (place_lookup b Hb) as H2.
      rewrite He in H1. rewrite Hkb, H1 in H2. injection H2 as ->.
      apply (before_irrefl merged b); [|done]. unfold merged. rewrite merge_sort_Permutation. apply tagged_NoDup.
    + apply Nat.nle_gt. intros Hge. pose proof (point_mono b a Hb Ha Hkb Hge). unfold point_le in Hle. lia.
Qed.

Lemma merged_linearization :
  (∀ k, accepts step init ((λ a, op_pair a.2) <$> f k) = true) → history_linearizable store_step ∅ history.
Proof.
  intros Hacc. exists merged. split_and!.
  - apply merge_sort_Permutation.
  - intros a b Ha Hb Hrt.
    assert (Return a.2 < Call b.2) as Hlt by exact Hrt.
    pose proof (point_return a Ha). pose proof (point_call b Hb).
    destruct (before_total merged a b) as [?|Hba]; [by unfold merged; rewrite merge_sort_Permutation..| |done|].
    + intros ->. lia.
    + apply merged_before in Hba as (_ & _ & [?|[? _]]); lia.
  - apply store_accepts. intros k. rewrite filter_ops, merged_object, lookup_empty. apply Hacc.
Qed.
End merge.

(** *** Locality *)

(** A choice for every object. *)
Lemma choose_orders (P : K → list (nat * Operation X Y) → Prop) (ks : list K) :
  (∀ k, k ∈ ks → ∃ π, P k π) → ∃ f, (∀ k, k ∈ ks → P k (f k)) ∧ (∀ k, k ∉ ks → f k = []).
Proof.
  induction ks as [|k ks IH]; intros Hall.
  { exists (λ _, []). split; [by intros ? ?%not_elem_of_nil|done]. }
  destruct IH as (f & Hf & Hn); [intros; apply Hall; by right|]. destruct (Hall k) as [π Hπ]; [by left|].
  exists (λ k', if decide (k' = k) then π else f k'). split.
  - intros k' Hk'. case_decide as Hd; [by subst|]. apply Hf. by apply elem_of_cons in Hk' as [?|?].
  - intros k' [Hne Hk']%not_elem_of_cons. rewrite decide_False by done. by apply Hn.
Qed.

Theorem linearizable_local :
  timed history →
  history_linearizable store_step ∅ history ↔
  ∀ k, history_linearizable step init (filter (λ o, key (Input o) = k) history).
Proof.
  intros Ht. split; [intros Hl k; by apply store_to_object|]. intros Hall.
  destruct (choose_orders (λ k π, linearization step (object k) real_time (λ a, op_pair a.2) init π)
    (key_of <$> tagged)) as (f & Hf & Hn).
  { intros k _. specialize (Hall k). rewrite <-object_history in Hall.
    by apply (proj2 (linearizable_untag step init (object k) (NoDup_filter _ _ tagged_NoDup))). }
  assert (∀ k, linearization step (object k) real_time (λ a, op_pair a.2) init (f k)) as Hlin.
  { intros k. destruct (decide (k ∈ key_of <$> tagged)) as [Hk|Hk]; [by apply Hf|].
    rewrite Hn by done. assert (object k = []) as ->; [|split_and!; [done|by intros ? ? ?%not_elem_of_nil|done]].
    destruct (object k) as [|a l] eqn:Ho; [done|]. exfalso. apply Hk.
    assert (a ∈ object k) as [Ha <-]%elem_of_object by (rewrite Ho; by left). by apply list_elem_of_fmap_2. }
  apply (merged_linearization f Ht); intros k; destruct (Hlin k) as (Hp & Ho & Ha); done.
Qed.
End store.
