(* ===== verification/Models.v ===== *)
(** * The sequential model of the key/value services

    [KvModel] (src/src/models/kv.go) is what the testers check the services
    against: one key's value, its initial state and the [Step] that says which
    outputs are legal, as a [Model] of the linearizability checker. *)

From stdpp Require Import prelude gmap strings list sorting.
From S2P Require Import Prelude Porcupine.
Local Open Scope Z_scope.

Record KvInput := mkKvInput {
  in_Op : Z;            (* 0 => get, 1 => put, 2 => append *)
  in_Key : string;
  in_Value : string;
}.

Record KvOutput := mkKvOutput { out_Value : string }.

Definition KvModel_Init : string := "".

Definition KvModel_Step (state : string) (inp : KvInput) (out : KvOutput) : bool * string :=
  if in_Op inp =? 0 then (bool_decide (out_Value out = state), state)
  else if in_Op inp =? 1 then (true, in_Value inp)
  else if in_Op inp =? 2 then (true, state +:+ in_Value inp)
  else (bool_decide (out_Value out = state), state +:+ in_Value inp).

(** [Partition]: the history of each key, in the order of the keys.  The map
    [m] of the source, then the sorted keys. *)
Definition groupByKey (history : list (Operation KvInput KvOutput))
    : gmap string (list (Operation KvInput KvOutput)) :=
  foldl (λ m v, let key := in_Key (Input v) in <[key := default [] (m !! key) ++ [v]]> m) ∅ history.

Definition KvModel_Partition (history : list (Operation KvInput KvOutput))
    : list (list (Operation KvInput KvOutput)) :=
  let m := groupByKey history in
  let keys := merge_sort String.le (elements (dom m)) in
  (λ k, default [] (m !! k)) <$> keys.

Definition KvModel_DescribeOperation (inp : KvInput) (out : KvOutput) : string :=
  if in_Op inp =? 0 then "get('" +:+ in_Key inp +:+ "') -> '" +:+ out_Value out +:+ "'"
  else if in_Op inp =? 1 then "put('" +:+ in_Key inp +:+ "', '" +:+ in_Value inp +:+ "')"
  else if in_Op inp =? 2 then "append('" +:+ in_Key inp +:+ "', '" +:+ in_Value inp +:+ "')"
  else "<invalid>".

Definition KvModel : Model KvInput KvOutput string :=
  mkModel (Some KvModel_Partition) None KvModel_Init KvModel_Step None (Some KvModel_DescribeOperation) None.

(** *** [Partition] *)

Lemma groupByKey_snoc history v :
  groupByKey (history ++ [v]) =
  <[in_Key (Input v) := default [] (groupByKey history !! in_Key (Input v)) ++ [v]]> (groupByKey history).
Proof. unfold groupByKey. by rewrite foldl_app. Qed.

Lemma groupByKey_lookup history k :
  groupByKey history !! k =
  let l := filter (λ v, in_Key (Input v) = k) history in if decide (l = []) then None else Some l.
Proof.
  induction history as [|v history IH] using rev_ind; [done|]. cbv zeta in *.
  rewrite groupByKey_snoc, filter_app, filter_cons, filter_nil.
  destruct (decide (in_Key (Input v) = k)) as [<-|Hne].
  - rewrite lookup_insert_eq, IH. rewrite (decide_False (P := _ ++ _ = [])) by (by intros [_ ?]%app_eq_nil).
    case_decide as Hnil; simpl; [by rewrite Hnil|done].
  - rewrite lookup_insert_ne, app_nil_r by done. apply IH.
Qed.

(** [Partition] splits a history by key: its parts are exactly the
    non-empty sub-histories of one key, each in its original order. *)
Theorem Partition_by_key history p :
  p ∈ KvModel_Partition history ↔
  p ≠ [] ∧ ∃ k, p = filter (λ v, in_Key (Input v) = k) history.
Proof.
  unfold KvModel_Partition. rewrite list_elem_of_fmap. setoid_rewrite merge_sort_Permutation.
  setoid_rewrite elem_of_elements. setoid_rewrite elem_of_dom. split.
  - intros (k & -> & [l Hl]). rewrite Hl. simpl. rewrite groupByKey_lookup in Hl. cbv zeta in Hl.
    case_decide; simplify_eq. eauto.
  - intros (Hne & k & ->). exists k. rewrite groupByKey_lookup. cbv zeta.
    rewrite decide_False by done. simpl. eauto.
Qed.
