(* ===== verification/PorcupineProps.v ===== *)
(** * The linearizability checker: theorems

    [checkSingle] decides linearizability of one history; [checkOperations]
    answers rightly under every interleaving and comes to an end; the checker
    with [KvModel] decides linearizability of a key/value store, key by key.
    One flaw: with nothing to check and no timeout it waits for ever. *)

From stdpp Require Import prelude gmap strings list sorting relations.
From S2P Require Import Prelude Bitset Porcupine PorcupineList Linearizability PorcupineSearch PorcupineEntries PorcupineParallel PorcupineHistory Locality Models.
Local Open Scope Z_scope.

Section checker.
Context {X Y St : Type} `{EqDecision St}.
Context (fmtX : X → string) (fmtY : Y → string) (fmtS : St → string).
Context (sortByTime : list (entry X Y) → list (entry X Y)) (rangeSet : gset nat → list nat).
Hypothesis sort_perm : ∀ l, sortByTime l ≡ₚ l.
Hypothesis sort_sorted : ∀ l, Sorted (λ a b, Less b a = false) (sortByTime l).
Implicit Types (model : Model X Y St) (history : list (Operation X Y)) (sched : list event).

(** [Equal], where a model has one, only identifies states that accept the
    same operations. *)
Definition equal_sound model : Prop := ∀ eqf, Equal model = Some eqf → equal_ok model eqf.

(** A history the checker is meant for: its times make sense and its length
    fits an [int]. *)
Definition checkable history : Prop := timed history ∧ zlen history < 2 ^ 63.

Definition parts_of model history : list (list (Operation X Y)) := default NoPartition (Partition model) history.

Lemma fillDefault_equal model :
  equal_sound model → ∃ eqf, Equal (fillDefault fmtX fmtY fmtS model) = Some eqf ∧
    equal_ok (fillDefault fmtX fmtY fmtS model) eqf.
Proof.
  intros He. unfold equal_sound in He. simpl. destruct (Equal model) as [eqf|] eqn:Heq.
  - exists eqf. split; [done|]. by apply (He eqf).
  - exists ShallowEqual. split; [done|]. intros a a' Ha. unfold ShallowEqual in Ha.
    by apply bool_decide_eq_true in Ha as ->.
Qed.

Lemma checkable_complete history :
  checkable history → complete (makeEntries sortByTime history) (op_pair <$> history) ∧
    zlen (op_pair <$> history) < 2 ^ 64.
Proof.
  intros [Ht Hl]. split; [by apply makeEntries_complete|]. rewrite length_fmap, pow64.
  change (2 ^ 63) with 9223372036854775808 in Hl. lia.
Qed.

(** C25: [checkSingle] decides linearizability: for every history of
    operations it returns, whatever [sort.Sort] does with ties, and its
    verdict is [true] exactly when some order of the operations is accepted
    by the model and respects real time; then the last sequence it recorded is
    such an order. *)
Theorem checkSingle_decides model history computePartial eqf :
  Equal model = Some eqf → equal_ok model eqf → checkable history →
  ∃ fuel ok longest seqs,
    (∀ fuel', (fuel ≤ fuel')%nat →
       checkSingle model fuel' (makeEntries sortByTime history) computePartial (λ _, false) = Ret (ok, (longest, seqs))) ∧
    (ok = true ↔ history_linearizable (Step model) (Init model) history) ∧
    (ok = true → ∃ seq, last seqs = Some seq ∧ seq ≡ₚ seqZ 0 (zlen history) ∧
       partial_linearization model (makeEntries sortByTime history) (op_pair <$> history) seq).
Proof.
  intros Heq Hobs Hh. destruct (checkable_complete _ Hh) as [Hc Hs].
  destruct (startSearch_runs model _ _ Hc Hs computePartial eqf Heq Hobs) as (n & head & s & Hst & Hrun).
  destruct (runs_checkLoop _ _ _ _ _ _ _ Hrun) as (fuel & [ok [longest seqs]] & (_ & Hiff & Hyes) & Hloop).
  exists fuel, ok, longest, seqs. split_and!.
  - intros fuel' Hle. unfold checkSingle. rewrite Hst, bind_Ret. by apply Hloop.
  - simpl in Hiff. rewrite Hiff. by apply entries_history.
  - intros (seq & Hlast & Hpart & Hp)%Hyes. exists seq. rewrite length_fmap in Hp. done.
Qed.

Section operations.
Context model history (verbose : bool) (timeout : Z).
Hypothesis Hequal : equal_sound model.
Hypothesis Hcheck : Forall checkable (parts_of model history).

Abbreviation full := (fillDefault fmtX fmtY fmtS model).
Abbreviation entries := (@fmap list list_fmap _ _ (makeEntries sortByTime) (parts_of model history)).
Abbreviation opss := (@fmap list list_fmap _ _ (@fmap list list_fmap _ _ (@op_pair X Y)) (parts_of model history)).

Lemma checkOperations_parallel sched :
  checkOperations fmtX fmtY fmtS sortByTime rangeSet model history verbose timeout sched =
  checkParallel full rangeSet entries verbose timeout sched.
Proof. unfold checkOperations, parts_of. simpl. by destruct (Partition model). Qed.

Lemma parts_complete : Forall2 complete entries opss ∧ Forall (λ ops : list (X * Y), zlen ops < 2 ^ 64) opss.
Proof.
  split.
  - apply Forall2_fmap, Forall_Forall2_diag. eapply Forall_impl; [exact Hcheck|]. intros p Hp. by apply checkable_complete.
  - apply Forall_fmap. eapply Forall_impl; [exact Hcheck|]. intros p Hp. by apply checkable_complete.
Qed.

Lemma part_ok_history i part :
  parts_of model history !! i = Some part →
  part_ok full entries opss i ↔ history_linearizable (Step model) (Init model) part.
Proof.
  intros Hi. unfold part_ok. rewrite !list_lookup_fmap, Hi. simpl.
  rewrite <-(entries_history sortByTime sort_perm sort_sorted full). naive_solver.
Qed.

Lemma check_answer sched :
  match checkOperations fmtX fmtY fmtS sortByTime rangeSet model history verbose timeout sched with
  | Ret (r, _) =>
      (r = Ok → ∀ part, part ∈ parts_of model history → history_linearizable (Step model) (Init model) part) ∧
      (r = Illegal → ∃ part, part ∈ parts_of model history ∧ ¬ history_linearizable (Step model) (Init model) part) ∧
      (r = Unknown → 0 < timeout)
  | Panic _ => False
  | NoFuel => True
  end.
Proof.
  rewrite checkOperations_parallel. destruct (fillDefault_equal model Hequal) as (eqf & Heq & Hobs).
  destruct parts_complete as [Hc Hs].
  pose proof (checkParallel_sound full rangeSet eqf entries opss verbose timeout Heq Hobs Hc Hs sched) as Hp.
  destruct (checkParallel _ _ _ _ _ _) as [[r info]|p|]; [|done|done]. destruct Hp as (Hok & Hill & Hun & _). split_and!.
  - intros Hr part [i Hi]%list_elem_of_lookup. apply (part_ok_history i part Hi). by apply Hok.
  - intros (i & Hi & Hno)%Hill. rewrite length_fmap in Hi. destruct (lookup_lt_is_Some_2 _ _ Hi) as [part Hpart].
    exists part. split; [by eapply list_elem_of_lookup_2|]. by rewrite <-(part_ok_history i part Hpart).
  - done.
Qed.

(** C23: The answer of [checkOperations] under every interleaving of its
    goroutines and every timeout: it never panics; [Ok] means every part of
    the history is linearizable, [Illegal] that one is not, and [Unknown] is
    only answered when there is a timeout. *)
Theorem checkOperations_sound sched :
  match checkOperations fmtX fmtY fmtS sortByTime rangeSet model history verbose timeout sched with
  | Ret (r, _) =>
      (r = Ok → ∀ part, part ∈ parts_of model history → history_linearizable (Step model) (Init model) part) ∧
      (r = Illegal → ∃ part, part ∈ parts_of model history ∧ ¬ history_linearizable (Step model) (Init model) part) ∧
      (r = Unknown → 0 < timeout)
  | Panic _ => False
  | NoFuel => True
  end.
Proof.
  apply check_answer.
Qed.

(** The [info] of a verbose check. *)
Lemma check_info sched r info :
  verbose = true → checkOperations fmtX fmtY fmtS sortByTime rangeSet model history verbose timeout sched = Ret (r, info) →
  Porcupine.history info = entries ∧ length (partialLinearizations info) = length (parts_of model history) ∧
  ∀ i part l seq, partialLinearizations info !! i = Some l → parts_of model history !! i = Some part → seq ∈ l →
    partial_linearization full (makeEntries sortByTime part) (op_pair <$> part) seq.
Proof.
  intros Hv. rewrite checkOperations_parallel. destruct (fillDefault_equal model Hequal) as (eqf & Heq & Hobs).
  destruct parts_complete as [Hc Hs]. intros Hr.
  pose proof (checkParallel_sound full rangeSet eqf entries opss verbose timeout Heq Hobs Hc Hs sched) as Hp.
  rewrite Hr in Hp. destruct Hp as (_ & _ & _ & Hinfo). unfold info_ok in Hinfo. rewrite Hv in Hinfo.
  destruct Hinfo as (Hh & Hlen & Hall). rewrite length_fmap in Hlen. split_and!; [done|done|].
  intros i part l seq Hl Hi Hin. eapply (Hall i l); [done|by rewrite list_lookup_fmap, Hi..|done].
Qed.

(** The sequences a verbose check returns for a part of the history
    are partial linearizations of it: distinct operations, accepted in this
    order, with everything that returned before one of them was called in its
    place. *)
Theorem checkOperations_partials sched r info i part l seq :
  checkOperations fmtX fmtY fmtS sortByTime rangeSet model history verbose timeout sched = Ret (r, info) →
  partialLinearizations info !! i = Some l → parts_of model history !! i = Some part → seq ∈ l →
  partial_linearization full (makeEntries sortByTime part) (op_pair <$> part) seq.
Proof.
  rewrite checkOperations_parallel. destruct (fillDefault_equal model Hequal) as (eqf & Heq & Hobs).
  destruct parts_complete as [Hc Hs]. intros Hr Hl Hi Hin.
  pose proof (checkParallel_sound full rangeSet eqf entries opss verbose timeout Heq Hobs Hc Hs sched) as Hp.
  rewrite Hr in Hp. destruct Hp as (_ & _ & _ & Hinfo). unfold info_ok in Hinfo. destruct verbose.
  - destruct Hinfo as (_ & _ & Hall). eapply (Hall i l); [done|by rewrite list_lookup_fmap, Hi..|done].
  - by rewrite Hinfo in Hl.
Qed.

(** C24: [checkOperations] comes to an end: no interleaving makes more
    than [N] steps, every schedule can be continued to a return within [N]
    steps, and when nobody can move the caller has returned; provided there is
    something to check or a timeout. *)
Theorem checkOperations_terminates :
  parts_of model history ≠ [] ∨ 0 < timeout →
  ∃ N, ∀ sched,
    (effective full rangeSet entries verbose timeout sched (startParallel entries) ≤ N)%nat ∧
    (∃ sched', (length sched' ≤ N)%nat ∧
       returns (checkOperations fmtX fmtY fmtS sortByTime rangeSet model history verbose timeout (sched ++ sched'))) ∧
    ((∀ ev, parStep full rangeSet entries verbose timeout ev
        (runParallel full rangeSet entries verbose timeout sched (startParallel entries)) = None) →
     returns (checkOperations fmtX fmtY fmtS sortByTime rangeSet model history verbose timeout sched)).
Proof.
  intros Hne. destruct (fillDefault_equal model Hequal) as (eqf & Heq & Hobs). destruct parts_complete as [Hc Hs].
  destruct (checkParallel_ends full rangeSet eqf entries opss verbose timeout Heq Hobs Hc Hs) as [N HN].
  { destruct Hne as [Hne|?]; [left|by right]. by intros ?%fmap_nil_inv. }
  exists N. intros sched. destruct (HN sched) as (? & (sched' & ? & ?) & ?).
  rewrite checkOperations_parallel. split_and!; [done| |done]. exists sched'. by rewrite checkOperations_parallel.
Qed.

Lemma check_ends :
  parts_of model history ≠ [] ∨ 0 < timeout →
  ∃ sched, returns (checkOperations fmtX fmtY fmtS sortByTime rangeSet model history verbose timeout sched).
Proof.
  intros Hne. destruct (fillDefault_equal model Hequal) as (eqf & Heq & Hobs). destruct parts_complete as [Hc Hs].
  destruct (checkParallel_ends full rangeSet eqf entries opss verbose timeout Heq Hobs Hc Hs) as [N HN].
  { destruct Hne as [Hne|?]; [left|by right]. by intros ?%fmap_nil_inv. }
  destruct (HN []) as (_ & (sched' & _ & ?) & _). exists sched'. by rewrite checkOperations_parallel.
Qed.
End operations.
End checker.

(** ** The key/value model *)

Section kv.
Context (fmtX : KvInput → string) (fmtY : KvOutput → string) (fmtS : string → string).
Context (sortByTime : list (entry KvInput KvOutput) → list (entry KvInput KvOutput)) (rangeSet : gset nat → list nat).
Implicit Types (history : list (Operation KvInput KvOutput)) (sched : list event).

(** The sequential key/value store: every key behaves as [KvModel] says. *)
Definition kv_store_step := store_step KvModel_Step KvModel_Init in_Key.

Lemma nothing_moves {X Y St} (model : Model X Y St) verbose timeout sched :
  timeout ≤ 0 → checkParallel model rangeSet [] verbose timeout sched = NoFuel.
Proof.
  intros Ht. unfold checkParallel.
  assert (runParallel model rangeSet [] verbose timeout sched (startParallel []) = startParallel []) as ->; [|done].
  induction sched as [|ev sched IH]; [done|]. simpl.
  assert (parStep model rangeSet [] verbose timeout ev (startParallel []) = None) as ->; [|exact IH].
  destruct ev; try done. unfold parStep. cbn [startParallel p_phase]. destruct (0 <? timeout) eqn:?; [zlia|done].
Qed.

(** A flaw: when the partition has no part, as for the empty history
    with [KvModel], the caller waits for a result no goroutine will send;
    without a timeout the check never returns. *)
Theorem CheckOperations_empty_blocks sched :
  CheckOperations fmtX fmtY fmtS sortByTime rangeSet KvModel [] sched = NoFuel.
Proof.
  unfold CheckOperations, checkOperations. simpl.
  assert (makeEntries sortByTime <$> KvModel_Partition [] = []) as -> by reflexivity. by rewrite nothing_moves.
Qed.

Hypothesis sort_perm : ∀ l, sortByTime l ≡ₚ l.
Hypothesis sort_sorted : ∀ l, Sorted (λ a b, Less b a = false) (sortByTime l).

Lemma parts_checkable history : checkable history → Forall checkable (parts_of KvModel history).
Proof.
  intros [Ht Hl]. rewrite Forall_forall. intros part Hpart. unfold parts_of in Hpart. simpl in Hpart.
  apply Partition_by_key in Hpart as (_ & k & ->). split.
  - apply Forall_forall. intros o [_ Ho]%list_elem_of_filter. unfold timed in Ht. rewrite Forall_forall in Ht. by apply Ht.
  - pose proof (length_filter (λ v : Operation KvInput KvOutput, in_Key (Input v) = k) history). lia.
Qed.

Lemma KvModel_equal : equal_sound KvModel.
Proof. done. Qed.

Lemma parts_not_nil history : history ≠ [] → parts_of KvModel history ≠ [].
Proof.
  intros Hne Hnil. destruct history as [|o history]; [done|].
  assert (filter (λ v, in_Key (Input v) = in_Key (Input o)) (o :: history) ∈ parts_of KvModel (o :: history)) as Hin.
  { apply Partition_by_key. split; [by rewrite filter_cons_True|by eexists]. }
  rewrite Hnil in Hin. by apply not_elem_of_nil in Hin.
Qed.

(** Every key's part is linearizable exactly when the history of the store
    is. *)
Lemma parts_linearizable history :
  timed history →
  history_linearizable kv_store_step ∅ history ↔
  ∀ part, part ∈ parts_of KvModel history → history_linearizable KvModel_Step KvModel_Init part.
Proof.
  intros Ht. unfold kv_store_step. rewrite linearizable_local by done. split.
  - intros Hall part (_ & k & ->)%Partition_by_key. apply Hall.
  - intros Hall k. destruct (decide (filter (λ o, in_Key (Input o) = k) history = [])) as [->|Hne].
    + exists []. split_and!; [done|by intros ? ? ?%not_elem_of_nil|done].
    + apply Hall, Partition_by_key. by split; [|exists k].
Qed.

Lemma check_kv_answer history sched b :
  history ≠ [] → checkable history →
  CheckOperations fmtX fmtY fmtS sortByTime rangeSet KvModel history sched = Ret b →
  (b = true ↔ history_linearizable kv_store_step ∅ history).
Proof.
  intros Hne Hc Hb. pose proof (parts_checkable _ Hc) as Hparts. pose proof KvModel_equal as Heq.
  unfold CheckOperations in Hb. apply bind_Ret_inv in Hb as ([r info] & Hr & [= <-]). simpl.
  pose proof (check_answer fmtX fmtY fmtS sortByTime rangeSet sort_perm sort_sorted KvModel history false 0 Heq Hparts sched) as Hs.
  rewrite Hr in Hs. destruct Hs as (Hok & Hill & Hun). rewrite bool_decide_eq_true, parts_linearizable by apply Hc.
  split; [by intros ->; apply Hok|]. intros Hall. destruct r; [specialize (Hun eq_refl); lia|done|].
  destruct (Hill eq_refl) as (part & Hin & Hno). by destruct Hno; apply Hall.
Qed.

(** C8: [CheckOperations] with [KvModel] decides linearizability of
    histories of a key/value store: on a history that is not empty it can
    always return, and whenever it returns, its answer is [true] exactly when
    the whole history, over all keys, is linearizable. *)
Theorem CheckOperations_KvModel history :
  history ≠ [] → checkable history →
  (∃ sched, returns (CheckOperations fmtX fmtY fmtS sortByTime rangeSet KvModel history sched)) ∧
  ∀ sched b, CheckOperations fmtX fmtY fmtS sortByTime rangeSet KvModel history sched = Ret b →
    (b = true ↔ history_linearizable kv_store_step ∅ history).
Proof.
  intros Hne Hc. pose proof (parts_checkable _ Hc) as Hparts. pose proof KvModel_equal as Heq.
  split.
  - unfold CheckOperations. destruct (check_ends fmtX fmtY fmtS sortByTime rangeSet sort_perm sort_sorted KvModel history false 0 Heq Hparts)
      as (sched & [r info] & Hr); [left; by apply parts_not_nil|].
    exists sched. rewrite Hr. simpl. apply returns_Ret.
  - intros sched b Hb. by eapply check_kv_answer.
Qed.
End kv.

(** ** Concrete histories *)

Section instances.
Local Open Scope string_scope.
Local Open Scope Z_scope.

#[local] Instance le_time_dec {X Y} : RelDecision (@le_time X Y) := λ a b, decide (Less b a = false).

#[local] Instance le_time_total {X Y} : Total (@le_time X Y).
Proof.
  intros a b. rewrite !le_time_spec.
  destruct (Z.lt_trichotomy (time a) (time b)) as [?|[?|?]]; [tauto| |tauto].
  assert (time b = time a) by done. destruct (kind a), (kind b); tauto.
Qed.

Definition timeSort {X Y} (l : list (entry X Y)) : list (entry X Y) := merge_sort le_time l.

Lemma timeSort_perm {X Y} (l : list (entry X Y)) : timeSort l ≡ₚ l.
Proof. apply merge_sort_Permutation. Qed.

Lemma timeSort_sorted {X Y} (l : list (entry X Y)) : Sorted (λ a b, Less b a = false) (timeSort l).
Proof. apply (Sorted_merge_sort le_time). Qed.

Definition rangeAll (S : gset nat) : list nat := elements S.

Definition show_in (i : KvInput) : string := in_Key i.

Definition show_out (o : KvOutput) : string := out_Value o.

Definition show_st (st : string) : string := st.

Definition kput (c : Z) (k v : string) (t1 t2 : Z) : Operation KvInput KvOutput :=
  mkOperation c (mkKvInput 1 k v) t1 (mkKvOutput "") t2.

Definition kget (c : Z) (k v : string) (t1 t2 : Z) : Operation KvInput KvOutput :=
  mkOperation c (mkKvInput 0 k "") t1 (mkKvOutput v) t2.

(** Concurrent operations of three clients on two keys; one get overlaps the
    put it reads. *)
Definition good_history : list (Operation KvInput KvOutput) :=
  [kput 0 "x" "a" 1 6; kget 1 "x" "a" 2 3; kget 1 "x" "a" 7 8; kput 2 "y" "b" 1 2; kget 2 "y" "b" 3 9].

(** A get that misses a put that returned before. *)
Definition bad_history : list (Operation KvInput KvOutput) :=
  [kput 0 "x" "a" 1 2; kget 1 "x" "" 3 4; kput 2 "y" "b" 1 2].

Definition round_robin (k : nat) : list event :=
  mjoin (replicate k [Turn 0; Turn 1; Receive; Answer]).

Definition check_kv (history : list (Operation KvInput KvOutput)) (k : nat) : outcome bool :=
  CheckOperations show_in show_out show_st timeSort rangeAll KvModel history (round_robin k).

Example good_accepted : check_kv good_history 20 = Ret true.
Proof. vm_compute. reflexivity. Qed.

Example bad_rejected : check_kv bad_history 20 = Ret false.
Proof. vm_compute. reflexivity. Qed.

Example killed_unknown :
  CheckOperationsTimeout show_in show_out show_st timeSort rangeAll KvModel good_history 1
    [Turn 0; Turn 1; TimerFires; Answer] = Ret Unknown.
Proof. vm_compute. reflexivity. Qed.

Lemma checkable_dec (history : list (Operation KvInput KvOutput)) :
  forallb (λ o, Call o <=? Return o) history = true → (length history < 100)%nat → checkable history.
Proof.
  intros Hf Hl. split.
  - apply Forall_forall. intros o Ho. apply list_elem_of_In in Ho. rewrite forallb_forall in Hf.
    specialize (Hf o Ho). zlia.
  - change (2 ^ 63) with 9223372036854775808. lia.
Qed.

Lemma good_checkable : checkable good_history.
Proof. apply checkable_dec; vm_compute; [reflexivity|lia]. Qed.

Lemma bad_checkable : checkable bad_history.
Proof. apply checkable_dec; vm_compute; [reflexivity|lia]. Qed.

Lemma checkSingle_decides_witness :
  ∃ fuel ok longest seqs,
    checkSingle (fillDefault show_in show_out show_st KvModel) fuel (makeEntries timeSort bad_history) true (λ _, false) =
      Ret (ok, (longest, seqs)) ∧
    (ok = true ↔ history_linearizable KvModel_Step KvModel_Init bad_history).
Proof.
  destruct (checkSingle_decides timeSort timeSort_perm timeSort_sorted (fillDefault show_in show_out show_st KvModel)
    bad_history true ShallowEqual) as (fuel & ok & longest & seqs & Hrun & Hiff & _).
  - reflexivity.
  - intros a a' Ha. apply bool_decide_eq_true in Ha. rewrite Ha. reflexivity.
  - apply bad_checkable.
  - exists fuel, ok, longest, seqs. split; [apply Hrun; reflexivity|exact Hiff].
Defined.

Lemma checkOperations_sound_witness :
  ∃ part, part ∈ parts_of KvModel bad_history ∧ ¬ history_linearizable KvModel_Step KvModel_Init part.
Proof.
  pose proof (checkOperations_sound show_in show_out show_st timeSort rangeAll timeSort_perm timeSort_sorted
    KvModel bad_history false 0 KvModel_equal (parts_checkable _ bad_checkable) (round_robin 20)) as Hs.
  assert (∃ info, checkOperations show_in show_out show_st timeSort rangeAll KvModel bad_history false 0 (round_robin 20) =
    Ret (Illegal, info)) as [info Hr] by (eexists; vm_compute; reflexivity).
  rewrite Hr in Hs. destruct Hs as (_ & Hill & _). apply Hill. reflexivity.
Defined.

Lemma checkOperations_partials_witness :
  ∃ part, parts_of KvModel bad_history !! 0%nat = Some part ∧
    partial_linearization (fillDefault show_in show_out show_st KvModel) (makeEntries timeSort part) (op_pair <$> part) [0].
Proof.
  assert (∃ info, checkOperations show_in show_out show_st timeSort rangeAll KvModel bad_history true 0 (round_robin 20) =
    Ret (Illegal, info) ∧ partialLinearizations info !! 0%nat = Some [[0]]) as (info & Hr & Hl).
  { eexists. split; vm_compute; reflexivity. }
  eexists. split; [vm_compute; reflexivity|].
  eapply (checkOperations_partials show_in show_out show_st timeSort rangeAll timeSort_perm timeSort_sorted
    KvModel bad_history true 0 KvModel_equal (parts_checkable _ bad_checkable) (round_robin 20) Illegal info 0 _ [[0]]);
    [exact Hr|exact Hl|vm_compute; reflexivity|by left].
Defined.

(** The entries of the part of key x of [bad_history] with a head node in
    front: locations 4, then 3, 2 (the put and its return), 1, 0. *)
Definition bad_heap : outcome (list (node KvInput KvOutput)) :=
  r ← makeLinkedEntries (makeEntries timeSort (take 2 bad_history));
  insertBefore (r.1 ++ [mkNode None None (-1) None None]) (Some 4%nat) r.2.

Lemma lift_unlift_witness :
  ∃ h h', bad_heap = Ret h ∧ lift h (Some 3%nat) = Ret h' ∧ chain h' 4 [1; 0]%nat ∧ unlift h' (Some 3%nat) = Ret h.
Proof.
  destruct bad_heap as [h| |] eqn:Hh; [|exfalso; vm_compute in Hh; discriminate..].
  exists h. vm_compute in Hh. injection Hh as Hh.
  destruct (h !! 3%nat) as [n|] eqn:Hn; [|exfalso; rewrite <-Hh in Hn; discriminate].
  destruct (lift_unlift h 4 [] 3 [] 2 [1; 0]%nat n) as (h' & Hl & Hc & _ & _ & Hu).
  - repeat constructor; set_solver.
  - rewrite <-Hh. simpl. split_and!; try reflexivity. eexists. reflexivity.
  - exact Hn.
  - rewrite <-Hh in Hn. injection Hn as <-. reflexivity.
  - exists h'. split; [reflexivity|]. split; [exact Hl|]. split; [exact Hc|exact Hu].
Defined.

Lemma checkOperations_terminates_witness :
  ∃ N, (effective (fillDefault show_in show_out show_st KvModel) rangeAll
          (makeEntries timeSort <$> parts_of KvModel good_history) false 0 (round_robin 3)
          (startParallel (makeEntries timeSort <$> parts_of KvModel good_history)) ≤ N)%nat.
Proof.
  destruct (checkOperations_terminates show_in show_out show_st timeSort rangeAll timeSort_perm timeSort_sorted
    KvModel good_history false 0 KvModel_equal (parts_checkable _ good_checkable)) as [N HN].
  - left. apply parts_not_nil. discriminate.
  - exists N. apply (HN (round_robin 3)).
Defined.

Lemma CheckOperations_KvModel_witness :
  history_linearizable kv_store_step ∅ good_history ∧ ¬ history_linearizable kv_store_step ∅ bad_history.
Proof.
  destruct (CheckOperations_KvModel show_in show_out show_st timeSort rangeAll timeSort_perm timeSort_sorted
    good_history) as [_ Hgood]; [discriminate|apply good_checkable|].
  destruct (CheckOperations_KvModel show_in show_out show_st timeSort rangeAll timeSort_perm timeSort_sorted
    bad_history) as [_ Hbad]; [discriminate|apply bad_checkable|].
  split.
  - apply (Hgood (round_robin 20) true); [|reflexivity]. vm_compute. reflexivity.
  - intros Hl. apply (Hbad (round_robin 20) false) in Hl; [discriminate|]. vm_compute. reflexivity.
Defined.
End instances.
