(* ===== verification/Visualization.v ===== *)
(** * The history visualizer

    src/src/porcupine/visualization.go: the data [computeVisualizationData]
    makes of a history and the partial linearizations the checker found, and
    that it neither panics nor misrepresents what the checker answered.

    The page the data is put into ([html], a constant of 780 lines of markup),
    [json.Marshal], [os.Create] and the writer are arguments of [Visualize] and
    [VisualizePath]; [sort.Slice] is [sortByLen]. *)

From stdpp Require Import prelude gmap strings list sorting.
From S2P Require Import Prelude Porcupine Linearizability PorcupineEntries PorcupineParallel PorcupineHistory Locality Models PorcupineProps.
Local Open Scope Z_scope.

(** ** The data *)

Record historyElement := mkHistoryElement {
  he_ClientId : Z;
  he_Start : Z;
  he_End : Z;
  he_Description : string;
}.

Record linearizationStep := mkLinearizationStep {
  ls_Index : Z;
  ls_StateDescription : string;
}.

Record partitionVisualizationData := mkPartitionData {
  pv_History : list historyElement;
  pv_PartialLinearizations : list (list linearizationStep);
  pv_Largest : gmap Z Z;
}.

(** The zero value. *)
Definition noElement : historyElement := mkHistoryElement 0 0 0 "".

Section visualize.
Context {X Y St : Type} `{EqDecision St}.
Context (fmtX : X → string) (fmtY : Y → string) (fmtS : St → string).
Context (sortByLen : list (list Z) → list (list Z)).
Implicit Types (model : Model X Y St) (es : list (entry X Y)).

(** [model.DescribeOperation(callValue[id], returnValue)] *)
Definition callDescribe model (v w : option (X + Y)) : outcome string :=
  describe ← callNil (DescribeOperation model);
  match v, w with
  | Some (inl input), Some (inr output) => Ret (describe input output)
  | _, _ => Panic TypeAssertion
  end.

Definition start_element (e : entry X Y) (el : historyElement) : historyElement :=
  mkHistoryElement (clientId e) (time e) (he_End el) (he_Description el).

Definition end_element (e : entry X Y) (desc : string) (el : historyElement) : historyElement :=
  mkHistoryElement (he_ClientId el) (he_Start el) (time e) desc.

(** The loop over the entries of a partition; the state is [history],
    [callValue] and [returnValue]. *)
Fixpoint historyLoop model es (hist : list historyElement) (callValue returnValue : gmap Z (X + Y))
    : outcome (list historyElement * gmap Z (X + Y) * gmap Z (X + Y)) :=
  match es with
  | [] => Ret (hist, callValue, returnValue)
  | elem :: es' =>
      match kind elem with
      | callEntry =>
          el ← go_index hist (id elem);
          hist ← go_set hist (id elem) (start_element elem el);
          historyLoop model es' hist (<[id elem := value elem]> callValue) returnValue
      | returnEntry =>
          el ← go_index hist (id elem);
          desc ← callDescribe model (callValue !! id elem) (Some (value elem));
          hist ← go_set hist (id elem) (end_element elem desc el);
          historyLoop model es' hist callValue (<[id elem := value elem]> returnValue)
      end
  end.

(** The loop over one partial linearization, the [i]-th, of length [len]. *)
Fixpoint stepLoop model (callValue returnValue : gmap Z (X + Y)) (i len : Z) (partial : list Z) (state : St)
    (largestSize largestIndex : gmap Z Z) : outcome (list linearizationStep * gmap Z Z * gmap Z Z) :=
  match partial with
  | [] => Ret ([], largestSize, largestIndex)
  | histId :: partial' =>
      r ← callStep model state (callValue !! histId) (returnValue !! histId);
      let '(ok, state) := r : bool * St in
      if negb ok then Panic (Explicit "valid partial linearization returned non-ok result from model step")
      else
        describe ← callNil (DescribeState model);
        let stateDesc := describe state in
        let '(largestSize, largestIndex) :=
          if default 0 (largestSize !! histId) <? len
          then (<[histId := len]> largestSize, <[histId := i]> largestIndex)
          else (largestSize, largestIndex) in
        '(steps, largestSize, largestIndex) ←
          stepLoop model callValue returnValue i len partial' state largestSize largestIndex;
        Ret (mkLinearizationStep histId stateDesc :: steps, largestSize, largestIndex)
  end.

(** The loop over the partial linearizations, from the [i]-th on. *)
Fixpoint partialsLoop model (callValue returnValue : gmap Z (X + Y)) (i : Z) (partials : list (list Z))
    (largestSize largestIndex : gmap Z Z) : outcome (list (list linearizationStep) * gmap Z Z) :=
  match partials with
  | [] => Ret ([], largestIndex)
  | partial :: partials' =>
      '(steps, largestSize, largestIndex) ←
        stepLoop model callValue returnValue i (zlen partial) partial (Init model) largestSize largestIndex;
      '(rest, largestIndex) ← partialsLoop model callValue returnValue (i + 1) partials' largestSize largestIndex;
      Ret (steps :: rest, largestIndex)
  end.

(** One turn of the outer loop; the sorted [partials] replace those of
    [info], which [sort.Slice] sorts in place. *)
Definition visualizePartition model es (partials : list (list Z))
    : outcome (partitionVisualizationData * list (list Z)) :=
  let n := Z.quot (zlen es) 2 in
  '(hist, callValue, returnValue) ← historyLoop model es (replicate (Z.to_nat n) noElement) ∅ ∅;
  let partials := sortByLen partials in
  '(linearizations, largestIndex) ← partialsLoop model callValue returnValue 0 partials ∅ ∅;
  Ret (mkPartitionData hist linearizations largestIndex, partials).

Fixpoint visualizeLoop model (partition : Z) (parts : list (list (entry X Y))) (partials : list (list (list Z)))
    : outcome (list partitionVisualizationData * list (list (list Z))) :=
  match parts with
  | [] => Ret ([], partials)
  | es :: parts' =>
      l ← go_index partials partition;
      '(d, l) ← visualizePartition model es l;
      partials ← go_set partials partition l;
      '(data, partials) ← visualizeLoop model (partition + 1) parts' partials;
      Ret (d :: data, partials)
  end.

(** The data, and [info] as it is afterwards. *)
Definition computeVisualizationData model (info : linearizationInfo X Y)
    : outcome (list partitionVisualizationData * linearizationInfo X Y) :=
  let model := fillDefault fmtX fmtY fmtS model in
  '(data, partials) ← visualizeLoop model 0 (history info) (partialLinearizations info);
  Ret (data, mkInfo (history info) partials).

(** *** [Visualize] *)
Section output.
Context {Error Writer : Type}.
Context (marshal : list partitionVisualizationData → string + Error) (html : string → string).
Context (write : Writer → string → Writer * option Error) (create : string → Writer + Error).

Definition Visualize model (info : linearizationInfo X Y) (output : Writer) : outcome (Writer * option Error) :=
  '(data, _) ← computeVisualizationData model info;
  match marshal data with
  | inr err => Ret (output, Some err)
  | inl jsonData =>
      let '(output, err) := write output (html jsonData) in
      match err with Some err => Ret (output, Some err) | None => Ret (output, None) end
  end.

(** The file, if it could be created, and the error. *)
Definition VisualizePath model (info : linearizationInfo X Y) (path : string) : outcome (option Writer * option Error) :=
  match create path with
  | inr err => Ret (None, Some err)
  | inl f => '(f, err) ← Visualize model info f; Ret (Some f, err)
  end.
End output.
End visualize.

(** ** What is drawn *)
Section drawn.
Context {X Y St : Type} `{EqDecision St}.
Implicit Types (model : Model X Y St) (part : list (Operation X Y)).

(** The element of an operation. *)
Definition element_of (describe : X → Y → string) (o : Operation X Y) : historyElement :=
  mkHistoryElement (ClientId o) (Call o) (Return o) (describe (Input o) (Output o)).

(** The steps of a sequence of operations from state [st]. *)
Fixpoint draw model (describe : St → string) part (st : St) (seq : list Z) : list linearizationStep :=
  match seq with
  | [] => []
  | k :: seq' =>
      match part !! Z.to_nat k with
      | Some o =>
          let st' := (Step model st (Input o) (Output o)).2 in
          mkLinearizationStep k (describe st') :: draw model describe part st' seq'
      | None => []
      end
  end.

(** *** The history *)
Section entries.
Context (sortByTime : list (entry X Y) → list (entry X Y)).
Hypothesis sort_perm : ∀ l, sortByTime l ≡ₚ l.
Hypothesis sort_sorted : ∀ l, Sorted (λ a b, Less b a = false) (sortByTime l).
Context (model : Model X Y St) (describe : X → Y → string) (part : list (Operation X Y)).
Hypothesis Hdescribe : DescribeOperation model = Some describe.
Hypothesis Htimed : timed part.

(** The variables of the loop after the entries [done]. *)
Record drawn (done : list (entry X Y)) (hist : list historyElement) (cv rv : gmap Z (X + Y)) : Prop := {
  dr_length : length hist = length part;
  dr_call (k : nat) o : part !! k = Some o → call_of (Z.of_nat k) o ∈ done →
    cv !! Z.of_nat k = Some (inl (Input o)) ∧
    ∃ el, hist !! k = Some el ∧ he_ClientId el = ClientId o ∧ he_Start el = Call o;
  dr_return (k : nat) o : part !! k = Some o → return_of (Z.of_nat k) o ∈ done →
    rv !! Z.of_nat k = Some (inr (Output o)) ∧
    ∃ el, hist !! k = Some el ∧ he_End el = Return o ∧ he_Description el = describe (Input o) (Output o);
}.

Lemma drawn_start : drawn [] (replicate (length part) noElement) ∅ ∅.
Proof. split; [apply length_replicate|by intros k o _ ?%not_elem_of_nil..]. Qed.

Lemma historyLoop_drawn pre todo hist cv rv :
  makeEntries sortByTime part = pre ++ todo → drawn pre hist cv rv →
  ∃ hist' cv' rv', historyLoop model todo hist cv rv = Ret (hist', cv', rv') ∧ drawn (pre ++ todo) hist' cv' rv'.
Proof.
  revert pre hist cv rv. induction todo as [|e todo IH]; intros pre hist cv rv Hes [Hlen Hcall Hret]; simpl.
  { rewrite app_nil_r. by exists hist, cv, rv. }
  destruct (entry_inv sortByTime sort_perm part (length pre) e) as (k & o & Hk & He).
  { rewrite Hes. by rewrite lookup_app_r, Nat.sub_diag by lia. }
  assert (id e = Z.of_nat k) as Hid by (by destruct He as [-> | ->]).
  pose proof (lookup_lt_Some _ _ _ Hk) as Hlt. rewrite cons_middle, app_assoc in Hes.
  destruct (go_index_in_range hist (Z.of_nat k)) as (el & Hel & Hkel); [lia|]. rewrite Nat2Z.id in Hkel.
  destruct He as [-> | ->]; simpl; rewrite Hel, bind_Ret.
  - rewrite go_set_in_range, bind_Ret, Nat2Z.id by lia. rewrite cons_middle, app_assoc. apply IH; [done|]. split.
    + by rewrite length_insert.
    + intros j o' Hj Hin. destruct (decide (j = k)) as [->|Hne].
      { rewrite lookup_insert_eq, list_lookup_insert_eq by lia. simplify_eq. split; [done|by eexists]. }
      rewrite lookup_insert_ne, list_lookup_insert_ne by lia. apply Hcall; [done|].
      apply elem_of_app in Hin as [?|Hin%list_elem_of_singleton]; [done|].
      exfalso. apply Hne. apply (f_equal id) in Hin. simpl in Hin. lia.
    + intros j o' Hj Hin. apply elem_of_app in Hin as [Hin|Hin%list_elem_of_singleton]; [|done].
      destruct (Hret j o' Hj Hin) as [? (el' & Hel' & ? & ?)]. split; [done|]. destruct (decide (j = k)) as [->|Hne].
      * rewrite list_lookup_insert_eq by lia. assert (el' = el) as -> by congruence. by eexists.
      * rewrite list_lookup_insert_ne by done. by exists el'.
  - assert (call_of (Z.of_nat k) o ∈ pre) as Hin.
    { destruct (entry_lookup sortByTime sort_perm part k o Hk) as (i & j & Hi & Hj).
      assert (makeEntries sortByTime part !! length pre = Some (return_of (Z.of_nat k) o)) as Hpos.
      { rewrite Hes. rewrite <-app_assoc. by rewrite lookup_app_r, Nat.sub_diag by lia. }
      destruct (decide (i < length pre)%nat) as [Hi'|Hi'].
      { rewrite Hes, <-app_assoc, lookup_app_l in Hi by lia. by eapply list_elem_of_lookup_2. }
      exfalso. destruct (decide (i = length pre)) as [->|]; [by rewrite Hpos in Hi|].
      pose proof (sorted_lookup sortByTime sort_sorted _ (length pre) i _ _ ltac:(lia) Hpos Hi) as Hs.
      apply le_time_spec in Hs. simpl in Hs. pose proof (proj1 (Forall_lookup _ _) Htimed k o Hk) as Ht. simpl in Ht.
      intuition (done || lia). }
    destruct (Hcall k o Hk Hin) as [Hcv (el' & Hel' & Hc1 & Hc2)]. assert (el' = el) as -> by congruence.
    unfold callDescribe. rewrite Hdescribe, Hcv. simpl.
    rewrite go_set_in_range, bind_Ret, Nat2Z.id by lia. rewrite cons_middle, app_assoc. apply IH; [done|]. split.
    + by rewrite length_insert.
    + intros j o' Hj Hin'. apply elem_of_app in Hin' as [Hin'|Hin'%list_elem_of_singleton]; [|done].
      destruct (Hcall j o' Hj Hin') as [? (el' & Hel2 & ? & ?)]. split; [done|]. destruct (decide (j = k)) as [->|Hne].
      * rewrite list_lookup_insert_eq by lia. assert (el' = el) as -> by congruence. by eexists.
      * rewrite list_lookup_insert_ne by done. by exists el'.
    + intros j o' Hj Hin'. destruct (decide (j = k)) as [->|Hne].
      { rewrite lookup_insert_eq, list_lookup_insert_eq by lia. simplify_eq. split; [done|by eexists]. }
      rewrite lookup_insert_ne, list_lookup_insert_ne by lia. apply Hret; [done|].
      apply elem_of_app in Hin' as [?|Hin'%list_elem_of_singleton]; [done|].
      exfalso. apply Hne. apply (f_equal id) in Hin'. simpl in Hin'. lia.
Qed.

(** The history is drawn as it happened. *)
Lemma historyLoop_history :
  ∃ cv rv, historyLoop model (makeEntries sortByTime part) (replicate (length part) noElement) ∅ ∅ =
      Ret (element_of describe <$> part, cv, rv) ∧
    ∀ (k : nat) o, part !! k = Some o → cv !! Z.of_nat k = Some (inl (Input o)) ∧ rv !! Z.of_nat k = Some (inr (Output o)).
Proof.
  destruct (historyLoop_drawn [] (makeEntries sortByTime part) (replicate (length part) noElement) ∅ ∅)
    as (hist & cv & rv & Hl & [Hlen Hcall Hret]); [done|apply drawn_start|]. exists cv, rv. simpl in *.
  assert (∀ (k : nat) o, part !! k = Some o → call_of (Z.of_nat k) o ∈ makeEntries sortByTime part ∧
    return_of (Z.of_nat k) o ∈ makeEntries sortByTime part) as Hin.
  { intros k o Hk. destruct (entry_lookup sortByTime sort_perm part k o Hk) as (i & j & Hi & Hj).
    split; by eapply list_elem_of_lookup_2. }
  split.
  - rewrite Hl. do 3 f_equal. apply list_eq. intros k. rewrite list_lookup_fmap.
    destruct (part !! k) as [o|] eqn:Hk; simpl.
    2:{ apply lookup_ge_None in Hk. apply lookup_ge_None. lia. }
    destruct (Hin k o Hk) as [Hc Hr]. destruct (Hcall k o Hk Hc) as (_ & el & Hel & ? & ?).
    destruct (Hret k o Hk Hr) as (_ & el' & Hel' & ? & ?). rewrite Hel. f_equal. assert (el' = el) as -> by congruence.
    destruct el. simpl in *. unfold element_of. congruence.
  - intros k o Hk. destruct (Hin k o Hk) as [Hc Hr]. split; [by apply Hcall|by apply Hret].
Qed.
End entries.

(** *** The partial linearizations *)
Section partials.
Context (model : Model X Y St) (describe : St → string) (part : list (Operation X Y)).
Context (cv rv : gmap Z (X + Y)).
Hypothesis Hdescribe : DescribeState model = Some describe.
Hypothesis Hvalues : ∀ (k : nat) o, part !! k = Some o →
  cv !! Z.of_nat k = Some (inl (Input o)) ∧ rv !! Z.of_nat k = Some (inr (Output o)).

Abbreviation ops := (@fmap list list_fmap _ _ (@op_pair X Y) part).

Definition ops_of (seq : list Z) : list (X * Y) := omap (λ k, ops !! Z.to_nat k) seq.

Definition in_part (seq : list Z) : Prop := ∀ k, k ∈ seq → 0 ≤ k < zlen part.

Lemma stepLoop_draws i len seq st (size index : gmap Z Z) :
  in_part seq → accepts (Step model) st (ops_of seq) = true →
  ∃ size' index', stepLoop model cv rv i len seq st size index = Ret (draw model describe part st seq, size', index') ∧
    ∀ k, let new := bool_decide (k ∈ seq ∧ default 0 (size !! k) < len) in
      size' !! k = (if new then Some len else size !! k) ∧ index' !! k = if new then Some i else index !! k.
Proof.
  revert st size index. induction seq as [|h seq IH]; intros st size index Hin Hacc.
  { exists size, index. split; [done|]. intros k. rewrite bool_decide_false; [done|]. by intros [?%not_elem_of_nil _]. }
  destruct (lookup_lt_is_Some_2 part (Z.to_nat h)) as [o Ho]; [by pose proof (Hin h (list_elem_of_here _ _)); lia|].
  pose proof (Hin h (list_elem_of_here _ _)) as Hh. destruct (Hvalues _ _ Ho) as [Hcv Hrv].
  rewrite Z2Nat.id in Hcv, Hrv by lia. unfold ops_of in Hacc. simpl in Hacc.
  rewrite list_lookup_fmap, Ho in Hacc. simpl in Hacc.
  simpl. rewrite Hcv, Hrv, Ho. simpl. destruct (Step model st (Input o) (Output o)) as [ok st'] eqn:Hst.
  apply andb_true_iff in Hacc as [-> Hacc]. simpl. rewrite Hdescribe. simpl.
  set (m := if default 0 (size !! h) <? len then _ else _).
  assert (∃ size1 index1, m = (size1, index1) ∧ ∀ k,
    let new := bool_decide (k = h ∧ default 0 (size !! k) < len) in
    size1 !! k = (if new then Some len else size !! k) ∧ index1 !! k = if new then Some i else index !! k)
    as (size1 & index1 & -> & H1').
  { subst m. destruct (_ <? len) eqn:Hlt; eexists _, _; (split; [done|]); intros k.
    - destruct (decide (k = h)) as [->|Hne].
      + rewrite !lookup_insert_eq, bool_decide_true by (split; [done|zlia]). done.
      + rewrite !lookup_insert_ne, bool_decide_false by naive_solver. done.
    - rewrite bool_decide_false; [done|]. intros [-> ?]. zlia. }
  destruct (IH st' size1 index1) as (size2 & index2 & -> & H2'); [intros k Hk; apply Hin; by right|done|].
  exists size2, index2. split; [done|]. intros k. destruct (H2' k) as [-> ->], (H1' k) as [-> ->].
  destruct (decide (k = h)) as [->|Hne].
  - destruct (decide (default 0 (size !! h) < len)) as [Hlt|Hlt].
    + rewrite (bool_decide_true (h = h ∧ _)) by done. rewrite bool_decide_false by (simpl; naive_solver lia).
      rewrite bool_decide_true by (split; [by left|done]). done.
    + rewrite (bool_decide_false (h = h ∧ _)) by naive_solver. rewrite !bool_decide_false by naive_solver. done.
  - rewrite (bool_decide_false (k = h ∧ _)) by naive_solver.
    erewrite (bool_decide_ext (k ∈ seq ∧ _)); [done|]. rewrite elem_of_cons. naive_solver.
Qed.

(** Longest first. *)
Definition longest_first (partials : list (list Z)) : Prop := StronglySorted (λ a b, zlen b ≤ zlen a) partials.

Lemma partialsLoop_draws i partials (size index : gmap Z Z) :
  (∀ seq, seq ∈ partials → in_part seq ∧ accepts (Step model) (Init model) (ops_of seq) = true) →
  longest_first partials → (∀ k x, size !! k = Some x → ∀ seq, seq ∈ partials → zlen seq ≤ x) →
  (∀ k, size !! k = None ↔ index !! k = None) →
  ∃ index', partialsLoop model cv rv i partials size index =
      Ret (draw model describe part (Init model) <$> partials, index') ∧
    ∀ k, index' !! k = match index !! k with
      | Some x => Some x
      | None => (λ p, i + Z.of_nat p.1) <$> list_find (λ seq, k ∈ seq) partials
      end.
Proof.
  revert i size index. induction partials as [|seq partials IH]; intros i size index Hok Hsort Hmax Hdom.
  { exists index. split; [done|]. intros k. simpl. by destruct (index !! k). }
  destruct (Hok seq (list_elem_of_here _ _)) as [Hin Hacc].
  destruct (stepLoop_draws i (zlen seq) seq (Init model) size index Hin Hacc) as (size1 & index1 & Hs & H1').
  inversion Hsort as [|? ? Hsort' Hall]. subst. rewrite Forall_forall in Hall. simpl. rewrite Hs. simpl.
  assert (∀ k, (k ∈ seq ∧ default 0 (size !! k) < zlen seq) ↔ k ∈ seq ∧ index !! k = None) as Hnew.
  { intros k. split; intros [Hk Hlt]; (split; [done|]).
    - apply Hdom. destruct (size !! k) as [x|] eqn:E; [|done]. pose proof (Hmax k x E seq (list_elem_of_here _ _)).
      simpl in Hlt. lia.
    - apply Hdom in Hlt as ->. simpl. destruct seq; [by apply not_elem_of_nil in Hk|simpl; lia]. }
  destruct (IH (i + 1) size1 index1) as (index2 & -> & H2').
  - intros p Hp. apply Hok. by right.
  - done.
  - intros k x Hx p Hp. rewrite (proj1 (H1' k)) in Hx. case_bool_decide.
    + injection Hx as <-. by apply Hall.
    + eapply Hmax; [done|by right].
  - intros k. destruct (H1' k) as [-> ->]. case_bool_decide; [done|]. apply Hdom.
  - exists index2. split; [done|]. intros k. rewrite H2', (proj2 (H1' k)).
    rewrite (bool_decide_ext _ _ (Hnew k)). simpl. destruct (index !! k) as [x|] eqn:Ek.
    + rewrite bool_decide_false by naive_solver. done.
    + destruct (decide (k ∈ seq)) as [Hk|Hk].
      * rewrite bool_decide_true by done. simpl. f_equal. lia.
      * rewrite bool_decide_false by naive_solver. destruct (list_find _ partials) as [[j p]|]; [|done]. simpl. f_equal. lia.
Qed.
End partials.

(** *** The whole *)
Section whole.
Context (fmtX : X → string) (fmtY : Y → string) (fmtS : St → string).
Context (sortByTime : list (entry X Y) → list (entry X Y)) (rangeSet : gset nat → list nat).
Context (sortByLen : list (list Z) → list (list Z)).
Hypothesis sort_perm : ∀ l, sortByTime l ≡ₚ l.
Hypothesis sort_sorted : ∀ l, Sorted (λ a b, Less b a = false) (sortByTime l).
Hypothesis len_perm : ∀ l, sortByLen l ≡ₚ l.
Hypothesis len_sorted : ∀ l, Sorted (λ a b, zlen b ≤ zlen a) (sortByLen l).

(** What a model without its own description says. *)
Definition describe_op model : X → Y → string := default (DefaultDescribeOperation fmtX fmtY) (DescribeOperation model).

Definition describe_st model : St → string := default (DefaultDescribeState fmtS) (DescribeState model).

(** The data of a part with partial linearizations [l], longest first. *)
Record pictures model part (d : partitionVisualizationData) (l : list (list Z)) : Prop := {
  pi_history : pv_History d = element_of (describe_op model) <$> part;
  pi_partials : pv_PartialLinearizations d = draw model (describe_st model) part (Init model) <$> l;
  pi_sorted : longest_first l;
  pi_largest k : pv_Largest d !! k = (λ p, Z.of_nat p.1) <$> list_find (λ seq, k ∈ seq) l;
}.

Lemma draw_fill model describe part st seq :
  draw (fillDefault fmtX fmtY fmtS model) describe part st seq = draw model describe part st seq.
Proof.
  revert st. induction seq as [|k seq IH]; intros st; simpl; [done|]. destruct (part !! _); [|done]. by rewrite IH.
Qed.

Lemma visualizePartition_pictures model part l :
  timed part →
  (∀ seq, seq ∈ l → partial_linearization model (makeEntries sortByTime part) (op_pair <$> part) seq) →
  ∃ d, visualizePartition sortByLen (fillDefault fmtX fmtY fmtS model) (makeEntries sortByTime part) l =
      Ret (d, sortByLen l) ∧ pictures model part d (sortByLen l).
Proof.
  intros Ht Hl. unfold visualizePartition.
  assert (Z.to_nat (Z.quot (zlen (makeEntries sortByTime part)) 2) = length part) as ->.
  { unfold makeEntries. rewrite sort_perm, length_entriesFrom, Z.mul_comm, Z.quot_mul by done. lia. }
  destruct (historyLoop_history sortByTime sort_perm sort_sorted (fillDefault fmtX fmtY fmtS model) (describe_op model) part)
    as (cv & rv & -> & Hvals); [simpl; unfold describe_op; by destruct (DescribeOperation model)|done|].
  rewrite bind_Ret. assert (longest_first (sortByLen l)) as Hsort.
  { apply Sorted_StronglySorted; [|apply len_sorted]. intros a b c. lia. }
  destruct (partialsLoop_draws (fillDefault fmtX fmtY fmtS model) (describe_st model) part cv rv) with
    (i := 0) (partials := sortByLen l) (size := (∅ : gmap Z Z)) (index := (∅ : gmap Z Z)) as (index & -> & Hidx).
  - simpl. unfold describe_st. by destruct (DescribeState model).
  - exact Hvals.
  - intros seq Hseq. rewrite len_perm in Hseq. destruct (Hl seq Hseq) as (_ & Hr & _ & Hacc).
    split; [|exact Hacc]. intros k Hk. pose proof (Hr k Hk) as Hk'. rewrite length_fmap in Hk'. done.
  - done.
  - intros k x. by rewrite lookup_empty.
  - done.
  - rewrite bind_Ret. eexists. split; [done|]. split; simpl; [done|apply list_fmap_ext; intros; apply draw_fill|done|].
    intros k. rewrite Hidx, lookup_empty.
    by destruct (list_find _ _).
Qed.

Lemma visualizeLoop_pictures model (pre : list (list (list Z))) parts (ls : list (list (list Z))) :
  length ls = length parts → Forall timed parts →
  (∀ (i : nat) part l seq, parts !! i = Some part → ls !! i = Some l → seq ∈ l →
     partial_linearization model (makeEntries sortByTime part) (op_pair <$> part) seq) →
  ∃ data, visualizeLoop sortByLen (fillDefault fmtX fmtY fmtS model) (zlen pre) (makeEntries sortByTime <$> parts) (pre ++ ls) =
      Ret (data, pre ++ (sortByLen <$> ls)) ∧ length data = length parts ∧
    ∀ (i : nat) part d l, parts !! i = Some part → data !! i = Some d → ls !! i = Some l →
      pictures model part d (sortByLen l).
Proof.
  revert pre ls. induction parts as [|part parts IH]; intros pre ls Hlen Ht Hl; destruct ls as [|l ls]; try done.
  { exists []. done. }
  inversion Ht as [|? ? Ht1 Ht2]. subst. rewrite fmap_cons. cbn [visualizeLoop].
  destruct (go_index_in_range (pre ++ l :: ls) (zlen pre)) as (l' & -> & Hl').
  { rewrite length_app. simpl. lia. }
  rewrite Nat2Z.id, lookup_app_r, Nat.sub_diag in Hl' by lia. injection Hl' as <-.
  destruct (visualizePartition_pictures model part l Ht1) as (d & Hd & Hpic); [intros seq; by apply (Hl 0%nat)|].
  rewrite bind_Ret, Hd, bind_Ret, go_set_in_range by (rewrite length_app; simpl; lia).
  rewrite bind_Ret, Nat2Z.id, insert_app_r_alt, Nat.sub_diag by lia. simpl.
  rewrite cons_middle, app_assoc. destruct (IH (pre ++ [sortByLen l]) ls) as (data & Hdata & Hlen' & Hall).
  - simpl in Hlen. lia.
  - done.
  - intros i p l0 seq Hi Hl0. by apply (Hl (S i)).
  - rewrite length_app in Hdata. simpl in Hdata. replace (Z.of_nat (length pre + 1)) with (zlen pre + 1) in Hdata by lia.
    rewrite Hdata. simpl. exists (d :: data). split_and!; [by rewrite <-app_assoc|simpl; lia|].
    intros [|i] p d0 l0 Hp Hd0 Hl0; simplify_eq/=; [done|by eapply Hall].
Qed.

(** C26: The visualizer shows what the checker found.  For the [info] of every
    verbose check that returns, under every interleaving, timeout and verdict,
    [computeVisualizationData] does not panic: the partial linearizations are
    accepted by the model and every index is in range.  Each part is drawn as
    it happened: every operation with its client, its times and its
    description; every partial linearization, longest first, with the states
    the model goes through; and for every operation the longest partial
    linearization it is in. *)
Theorem visualize_verbose model hist timeout sched r info :
  equal_sound model → Forall checkable (parts_of model hist) →
  CheckOperationsVerbose fmtX fmtY fmtS sortByTime rangeSet model hist timeout sched = Ret (r, info) →
  ∃ data, computeVisualizationData fmtX fmtY fmtS sortByLen model info =
      Ret (data, mkInfo (history info) (sortByLen <$> partialLinearizations info)) ∧
    length data = length (parts_of model hist) ∧
    ∀ (i : nat) part d l, parts_of model hist !! i = Some part → data !! i = Some d →
      partialLinearizations info !! i = Some l → pictures model part d (sortByLen l).
Proof.
  intros Heq Hc Hr. unfold CheckOperationsVerbose in Hr.
  destruct (check_info fmtX fmtY fmtS sortByTime rangeSet sort_perm sort_sorted model hist true timeout Heq Hc sched r info)
    as (Hh & Hlen & Hp); [done|done|]. unfold computeVisualizationData. rewrite Hh.
  destruct (visualizeLoop_pictures model [] (parts_of model hist) (partialLinearizations info)) as (data & Hdata & Hlen' & Hall).
  - done.
  - eapply Forall_impl; [exact Hc|]. by intros p [? _].
  - intros i part l seq Hi Hl Hin. by apply (Hp i part l seq).
  - simpl in Hdata. change (Z.of_nat 0) with 0 in Hdata. rewrite Hdata. simpl. exists data. done.
Qed.
End whole.
End drawn.

(** ** An example *)

Definition longer (a b : list Z) : Prop := zlen b ≤ zlen a.

#[export] Instance longer_dec : RelDecision longer := λ a b, decide (zlen b ≤ zlen a).

#[export] Instance longer_total : Total longer.
Proof. intros a b. unfold longer. lia. Qed.

Definition lenSort (l : list (list Z)) : list (list Z) := merge_sort longer l.

Lemma lenSort_perm l : lenSort l ≡ₚ l.
Proof. apply merge_sort_Permutation. Qed.

Lemma lenSort_sorted l : Sorted (λ a b, zlen b ≤ zlen a) (lenSort l).
Proof. apply (Sorted_merge_sort longer). Qed.

Definition bad_info : linearizationInfo KvInput KvOutput :=
  match CheckOperationsVerbose show_in show_out show_st timeSort rangeAll KvModel bad_history 0 (round_robin 20) with
  | Ret (_, info) => info
  | _ => mkInfo [] []
  end.

Lemma bad_checked :
  CheckOperationsVerbose show_in show_out show_st timeSort rangeAll KvModel bad_history 0 (round_robin 20) =
  Ret (Illegal, bad_info).
Proof. vm_compute. reflexivity. Qed.

(** Only the put of [bad_history] can be linearized; the stale get cannot. *)
Lemma visualize_verbose_witness :
  ∃ data, computeVisualizationData show_in show_out show_st lenSort KvModel bad_info =
      Ret (data, mkInfo (history bad_info) (lenSort <$> partialLinearizations bad_info)) ∧
    pv_Largest <$> data !! 0%nat = Some {[ 0 := 0 ]}.
Proof.
  destruct (visualize_verbose show_in show_out show_st timeSort rangeAll lenSort timeSort_perm timeSort_sorted
    lenSort_perm lenSort_sorted KvModel bad_history 0 (round_robin 20) Illegal bad_info KvModel_equal
    (parts_checkable _ bad_checkable) bad_checked) as (data & Hdata & _).
  exists data. split; [exact Hdata|]. vm_compute in Hdata. injection Hdata as <-. vm_compute. reflexivity.
Defined.
