(* ===== verification/TestNames.v ===== *)
(** * Names and handles of the tests

    What every config.go of the services (src/src/kvsrv, kvraft, shardctrler,
    shardkv) starts with: [randstring], which names the ends of the simulated
    network, and [random_handles], which shuffles the servers a clerk is given.

    - [crypto/rand] and [math/rand] are arguments: the bytes read, the number
      [rand.Intn] gave.
    - Base64 is the encoding of RFC 4648 with the alphabet for URLs, as
      [base64.URLEncoding] has it.
    - The names of two ends differ unless the random bytes agree on the 15 bytes
      that the 20 characters show ([randstring_injective]); the clerk gets every
      handle once ([random_handles_perm]). *)

From Stdlib Require Import Strings.Byte Ascii String.
From stdpp Require Import prelude strings list.
From S2P Require Import Prelude Strconv.
Local Open Scope Z_scope.

(** ** Base64 *)

Definition encodeURL : string := "ABCDEFGHIJKLMNOPQRSTUVWXYZabcdefghijklmnopqrstuvwxyz0123456789-_".

Definition padChar : ascii := "="%char.

Definition digit64 (v : Z) : ascii := default padChar (chars encodeURL !! Z.to_nat (v mod 64)).

Definition byteVal (b : byte) : Z := Z.of_N (Byte.to_N b).

(** The four characters of three bytes. *)
Definition group64 (a b c : byte) : list ascii :=
  let val := byteVal a * 2 ^ 16 + byteVal b * 2 ^ 8 + byteVal c in
  [digit64 (val / 2 ^ 18); digit64 (val / 2 ^ 12); digit64 (val / 2 ^ 6); digit64 val].

Fixpoint encode64 (src : list byte) : list ascii :=
  match src with
  | [] => []
  | [a] => take 2 (group64 a "000" "000") ++ [padChar; padChar]
  | [a; b] => take 3 (group64 a b "000") ++ [padChar]
  | a :: b :: c :: src => group64 a b c ++ encode64 src
  end.

Definition EncodeToString (src : list byte) : string := string_of_list_ascii (encode64 src).

(** [b]: the [2 * n] bytes that [crand.Read] gave. *)
Definition randstring (n : Z) (b : list byte) : outcome string :=
  s ← go_slice_to (chars (EncodeToString b)) n;
  Ret (string_of_list_ascii s).

(** [rnd i] is what [rand.Intn(i + 1)] gave. *)
Definition random_handles {A} (rnd : Z → Z) (kvh : list A) : outcome (list A) :=
  let sa := kvh in
  go_for (length sa) 0 (λ i sa,
    let j := rnd i in
    x ← go_index sa j;
    y ← go_index sa i;
    sa ← go_set sa i x;
    go_set sa j y) sa.

(** ** The names *)

Lemma chars_string (l : list ascii) : chars (string_of_list_ascii l) = l.
Proof. apply list_ascii_of_string_of_list_ascii. Qed.

Lemma byteVal_range b : 0 ≤ byteVal b < 256.
Proof. destruct b; by vm_compute. Qed.

Lemma byteVal_inj a b : byteVal a = byteVal b → a = b.
Proof.
  intros Hab. assert (Byte.of_N (Byte.to_N a) = Byte.of_N (Byte.to_N b)) as Hn.
  { f_equal. unfold byteVal in Hab. lia. }
  rewrite !Byte.of_to_N in Hn. by injection Hn.
Qed.

Lemma digit64_inj x y : digit64 x = digit64 y → x mod 64 = y mod 64.
Proof.
  unfold digit64. assert (length (chars encodeURL) = 64%nat) as Hl by done.
  assert (∀ v, ∃ c, chars encodeURL !! Z.to_nat (v mod 64) = Some c) as Hd.
  { intros v. pose proof (Z.mod_pos_bound v 64 ltac:(lia)). apply lookup_lt_is_Some_2. rewrite Hl. lia. }
  assert (NoDup (chars encodeURL)) as Hnd by (by apply (bool_decide_unpack _); vm_compute).
  destruct (Hd x) as [cx Hx], (Hd y) as [cy Hy]. rewrite Hx, Hy. simpl. intros ->.
  pose proof (NoDup_lookup _ _ _ _ Hnd Hx Hy). pose proof (Z.mod_pos_bound x 64 ltac:(lia)).
  pose proof (Z.mod_pos_bound y 64 ltac:(lia)). lia.
Qed.

Lemma group64_inj a b c a' b' c' : group64 a b c = group64 a' b' c' → a = a' ∧ b = b' ∧ c = c'.
Proof.
  unfold group64. intros [= H3%digit64_inj H2%digit64_inj H1%digit64_inj H0%digit64_inj].
  pose proof (byteVal_range a). pose proof (byteVal_range b). pose proof (byteVal_range c).
  pose proof (byteVal_range a'). pose proof (byteVal_range b'). pose proof (byteVal_range c').
  assert (byteVal a = byteVal a' ∧ byteVal b = byteVal b' ∧ byteVal c = byteVal c') as (?&?&?).
  { change (2 ^ 18) with 262144 in *. change (2 ^ 16) with 65536 in *. change (2 ^ 12) with 4096 in *.
    change (2 ^ 8) with 256 in *. change (2 ^ 6) with 64 in *. Z.to_euclidean_division_equations. lia. }
  split_and!; by apply byteVal_inj.
Qed.

Lemma encode64_app pre (k : nat) post : length pre = (3 * k)%nat → encode64 (pre ++ post) = encode64 pre ++ encode64 post.
Proof.
  revert pre. induction k as [|k IH]; intros pre Hl; [by destruct pre|].
  destruct pre as [|a [|b [|c pre]]]; simpl in Hl; try lia.
  simpl ((a :: b :: c :: pre) ++ post). cbn [encode64]. rewrite IH by lia. done.
Qed.

Lemma length_encode64 pre (k : nat) : length pre = (3 * k)%nat → length (encode64 pre) = (4 * k)%nat.
Proof.
  revert pre. induction k as [|k IH]; intros pre Hl; [by destruct pre|].
  destruct pre as [|a [|b [|c pre]]]; simpl in Hl; try lia.
  cbn [encode64]. rewrite length_app, IH by lia. simpl. lia.
Qed.

Lemma encode64_inj (k : nat) pre pre' :
  length pre = (3 * k)%nat → length pre' = (3 * k)%nat → encode64 pre = encode64 pre' → pre = pre'.
Proof.
  revert pre pre'. induction k as [|k IH]; intros pre pre' Hl Hl'; [by destruct pre, pre'|].
  destruct pre as [|a [|b [|c pre]]]; simpl in Hl; try lia.
  destruct pre' as [|a' [|b' [|c' pre']]]; simpl in Hl'; try lia.
  cbn [encode64]. intros [Hg Hr]%app_inj_1; [|done]. apply group64_inj in Hg as (-> & -> & ->).
  by rewrite (IH pre pre') by (lia || done).
Qed.

Lemma randstring_eq b :
  length b = 40%nat → randstring 20 b = Ret (string_of_list_ascii (encode64 (take 15 b))) ∧ length (take 15 b) = 15%nat.
Proof.
  intros Hl. assert (length (take 15 b) = 15%nat) as H15 by (rewrite length_take; lia). split; [|done].
  unfold randstring, EncodeToString. rewrite chars_string.
  rewrite <-(take_drop 15 b) at 1. rewrite (encode64_app _ 5) by done.
  pose proof (length_encode64 _ 5 H15) as He. rewrite go_slice_to_in_range by (rewrite length_app; lia). simpl.
  change (Pos.to_nat 20) with 20%nat. by rewrite take_app_length' by done.
Qed.

(** the name of an end tells the first 15 of the bytes it was made of:
    [randstring(20)] returns 20 characters, and two of them are equal only if
    the random bytes agree in those 15 bytes. *)
Theorem randstring_injective b b' s s' :
  length b = 40%nat → length b' = 40%nat → randstring 20 b = Ret s → randstring 20 b' = Ret s' →
  length (chars s) = 20%nat ∧ (s = s' ↔ take 15 b = take 15 b').
Proof.
  intros Hb Hb' Hs Hs'. destruct (randstring_eq b Hb) as [E H15], (randstring_eq b' Hb') as [E' H15'].
  rewrite E in Hs. rewrite E' in Hs'. injection Hs as <-. injection Hs' as <-. split.
  { rewrite chars_string. by apply (length_encode64 _ 5). }
  split; [|by intros ->]. intros Heq%(f_equal list_ascii_of_string).
  rewrite !list_ascii_of_string_of_list_ascii in Heq. by apply (encode64_inj 5).
Qed.

(** ** The handles *)

Lemma swap_permutation {A} (l : list A) (i j : nat) x y :
  l !! i = Some x → l !! j = Some y → <[i := y]> (<[j := x]> l) ≡ₚ l.
Proof.
  intros Hi Hj. destruct (decide (i = j)) as [->|Hne].
  { rewrite list_insert_insert_eq. simplify_eq. by rewrite list_insert_id. }
  assert (<[j := x]> l !! i = Some x) as Hi' by by rewrite list_lookup_insert_ne.
  assert (x :: <[i := y]> (<[j := x]> l) ≡ₚ y :: <[j := x]> l) as H1.
  { rewrite (insert_take_drop _ i) by by apply lookup_lt_Some in Hi'.
    rewrite <-(take_drop_middle (<[j := x]> l) i x) at 3 by done. solve_Permutation. }
  assert (y :: <[j := x]> l ≡ₚ x :: l) as H2.
  { rewrite (insert_take_drop l j) by by apply lookup_lt_Some in Hj.
    rewrite <-(take_drop_middle l j y) at 3 by done. solve_Permutation. }
  rewrite H2 in H1. by apply Permutation_cons_inv in H1.
Qed.

(** Whatever numbers [rand.Intn] gives, the clerk gets every handle exactly
    once. *)
Lemma random_handles_perm {A} (rnd : Z → Z) (kvh : list A) :
  (∀ i, 0 ≤ i → 0 ≤ rnd i ≤ i) → ∃ sa, random_handles rnd kvh = Ret sa ∧ sa ≡ₚ kvh.
Proof.
  intros Hr. apply (go_for_returns (λ sa, sa ≡ₚ kvh)); [done|]. intros i sa Hi Hp.
  pose proof (Permutation_length Hp) as Hl. specialize (Hr i ltac:(lia)). cbv zeta.
  destruct (go_index_in_range sa (rnd i)) as (x & -> & Hx); [lia|]. simpl.
  destruct (go_index_in_range sa i) as (y & -> & Hy); [lia|]. simpl.
  rewrite go_set_in_range by lia. simpl. rewrite go_set_in_range by (rewrite length_insert; lia).
  eexists. split; [done|]. rewrite <-Hp. by apply swap_permutation.
Qed.

Definition bytes40 (b : byte) : list byte := b :: replicate 39 "000"%byte.

Lemma randstring_injective_witness :
  randstring 20 (bytes40 "001") = Ret "AQAAAAAAAAAAAAAAAAAA" ∧
  (("AQAAAAAAAAAAAAAAAAAA" = "AgAAAAAAAAAAAAAAAAAA")%string ↔
     take 15 (bytes40 "001") = take 15 (bytes40 "002")).
Proof.
  split; [by vm_compute|].
  refine (proj2 (randstring_injective (bytes40 "001") (bytes40 "002") _ _ _ _ _ _)); by vm_compute.
Defined.
