(* ===== verification/Harness.v ===== *)
(** * The testers of the replicated services

    src/src/kvraft/config.go, of which src/src/shardctrler/config.go is a copy
    with another kind of server: the harness that starts, shuts down and
    connects the servers of a replicated service and its clerks on the
    simulated network of Labrpc.v.

    - What the harness needs of a server is the class [TestServer];
      KvRaftConfig.v and ShardCtrlerConfig.v have the instances and the parts
      the two files do not share.
    - Ends are strings, servers their numbers, as in RaftConfig.v.  A server
      object with the services of a server and its Raft is a number; so is the
      pointer to a clerk.
    - [cfg.saved[i]] is the persister of the running server [i]: what it holds
      is read from the server ([savedNow]), as in RaftConfig.v.
    - Random bytes and numbers, the time and [t.Failed()] are arguments. *)

From Stdlib Require Import Strings.Byte.
From stdpp Require Import prelude gmap strings list.
From S2P Require Import Prelude Gob Labrpc Raft TestNames.
Local Open Scope Z_scope.

(** A server [Srv] whose Raft agrees on commands [C], started with the
    parameters [P] (the snapshot threshold, if there is one). *)
Class TestServer (Srv C P : Type) := {
  ts_rf : Srv → Raft C;
  ts_Kill : Srv → Srv;
  ts_Start : nat → Z → Persister → P → outcome Srv;
}.

(** What the theorems rely on: the Raft of a started server is the one that
    [Make] gives on the same persister, and [Kill] ends it. *)
Class TestServerLaws Srv C P `{Gob Z} `{Gob (list (LogEntry C))} `{TestServer Srv C P} := {
  ts_start_make (k : nat) (i : Z) (ps : Persister) (p : P) :
    (s ← ts_Start k i ps p; Ret (ts_rf s)) = Make k i ps;
  ts_kill_rf (s : Srv) : ts_rf (ts_Kill s) = Raft.Kill (ts_rf s);
}.

Record config (Srv P : Type) := mkConfig {
  cfg_net : Network (string + Z);
  n : Z;
  kvservers : list (option Srv);
  saved : list (option Persister);
  endnames : list (option (list string));
  clerks : gmap nat (list string);
  nextClientId : Z;
  params : P;
  start : Z;
  t0 : Z;
  rpcs0 : Z;
  ops : Z;
}.
Arguments mkConfig {Srv P} _ _ _ _ _ _ _ _ _ _ _ _.
Arguments cfg_net {Srv P} _.
Arguments n {Srv P} _.
Arguments kvservers {Srv P} _.
Arguments saved {Srv P} _.
Arguments endnames {Srv P} _.
Arguments clerks {Srv P} _.
Arguments nextClientId {Srv P} _.
Arguments params {Srv P} _.
Arguments start {Srv P} _.
Arguments t0 {Srv P} _.
Arguments rpcs0 {Srv P} _.
Arguments ops {Srv P} _.

Section config.
Context {Srv C P : Type} `{TestServer Srv C P}.

Abbreviation config := (config Srv P).
Implicit Types cfg : config.

Definition set_cnet (x : Network (string + Z)) cfg : config :=
  mkConfig x (n cfg) (kvservers cfg) (saved cfg) (endnames cfg) (clerks cfg) (nextClientId cfg) (params cfg)
    (start cfg) (t0 cfg) (rpcs0 cfg) (ops cfg).
Definition set_kvservers (x : list (option Srv)) cfg : config :=
  mkConfig (cfg_net cfg) (n cfg) x (saved cfg) (endnames cfg) (clerks cfg) (nextClientId cfg) (params cfg)
    (start cfg) (t0 cfg) (rpcs0 cfg) (ops cfg).
Definition set_saved (x : list (option Persister)) cfg : config :=
  mkConfig (cfg_net cfg) (n cfg) (kvservers cfg) x (endnames cfg) (clerks cfg) (nextClientId cfg) (params cfg)
    (start cfg) (t0 cfg) (rpcs0 cfg) (ops cfg).
Definition set_endnames (x : list (option (list string))) cfg : config :=
  mkConfig (cfg_net cfg) (n cfg) (kvservers cfg) (saved cfg) x (clerks cfg) (nextClientId cfg) (params cfg)
    (start cfg) (t0 cfg) (rpcs0 cfg) (ops cfg).
Definition set_clerks (x : gmap nat (list string)) (next : Z) cfg : config :=
  mkConfig (cfg_net cfg) (n cfg) (kvservers cfg) (saved cfg) (endnames cfg) x next (params cfg)
    (start cfg) (t0 cfg) (rpcs0 cfg) (ops cfg).
Definition set_stats (t rpcs o : Z) cfg : config :=
  mkConfig (cfg_net cfg) (n cfg) (kvservers cfg) (saved cfg) (endnames cfg) (clerks cfg) (nextClientId cfg)
    (params cfg) (start cfg) t rpcs o.

(** ** Connections *)

(** [cfg.endnames[i][j]] *)
Definition endname_at (i j : Z) cfg : outcome string :=
  row ← go_index (endnames cfg) i;
  match row with
  | None => Panic IndexOutOfRange
  | Some row => go_index row j
  end.

(** [cfg.endnames[i] != nil] *)
Definition has_ends (i : Z) cfg : outcome bool :=
  row ← go_index (endnames cfg) i; Ret (bool_decide (is_Some row)).

Definition enableEnd (i j : Z) (yes : bool) cfg : outcome config :=
  e ← endname_at i j cfg;
  Ret (set_cnet (Enable (inl e) yes (cfg_net cfg)) cfg).

Definition connectUnlocked (i : Z) (to : list Z) cfg : outcome config :=
  cfg ← go_for (length to) 0 (λ j cfg, t ← go_index to j; enableEnd i t true cfg) cfg;
  go_for (length to) 0 (λ j cfg, t ← go_index to j; enableEnd t i true cfg) cfg.

Definition connect (i : Z) (to : list Z) cfg : outcome config := connectUnlocked i to cfg.

(** The test of the second loop is on row [j], not on row [from[j]]. *)
Definition disconnectUnlocked (i : Z) (from : list Z) cfg : outcome config :=
  cfg ← go_for (length from) 0 (λ j cfg,
    b ← has_ends i cfg;
    if b : bool then f ← go_index from j; enableEnd i f false cfg else Ret cfg) cfg;
  go_for (length from) 0 (λ j cfg,
    b ← has_ends j cfg;
    if b : bool then f ← go_index from j; enableEnd f i false cfg else Ret cfg) cfg.

Definition disconnect (i : Z) (from : list Z) cfg : outcome config := disconnectUnlocked i from cfg.

Definition All cfg : list Z := seqZ 0 (n cfg).

Definition ConnectAll cfg : outcome config :=
  go_for (Z.to_nat (n cfg)) 0 (λ i cfg, connectUnlocked i (All cfg) cfg) cfg.

(** One of the two loops of [partition]. *)
Definition isolate (p q : list Z) cfg : outcome config :=
  go_for (length p) 0 (λ k cfg,
    i ← go_index p k;
    cfg ← disconnectUnlocked i q cfg;
    connectUnlocked i p cfg) cfg.

Definition partition (p1 p2 : list Z) cfg : outcome config :=
  cfg ← isolate p1 p2 cfg;
  isolate p2 p1 cfg.

(** ** Clerks *)

Definition ConnectClientUnlocked (ck : nat) (to : list Z) cfg : outcome config :=
  let endnames := default [] (clerks cfg !! ck) in
  go_for (length to) 0 (λ j cfg,
    t ← go_index to j; s ← go_index endnames t;
    Ret (set_cnet (Enable (inl s) true (cfg_net cfg)) cfg)) cfg.

Definition ConnectClient (ck : nat) (to : list Z) cfg : outcome config := ConnectClientUnlocked ck to cfg.

Definition DisconnectClientUnlocked (ck : nat) (from : list Z) cfg : outcome config :=
  let endnames := default [] (clerks cfg !! ck) in
  go_for (length from) 0 (λ j cfg,
    f ← go_index from j; s ← go_index endnames f;
    Ret (set_cnet (Enable (inl s) false (cfg_net cfg)) cfg)) cfg.

Definition DisconnectClient (ck : nat) (from : list Z) cfg : outcome config := DisconnectClientUnlocked ck from cfg.

(** [names], [ends]: the two slices made for the clerk; [bs j] are the random
    bytes of its [j]-th name. *)
Definition clientEnds (bs : Z → list byte) cfg : outcome (list string * list (string + Z) * config) :=
  go_for (Z.to_nat (n cfg)) 0 (λ j '(names, ends, cfg),
    s ← randstring 20 (bs j);
    names ← go_set names j s;
    rn ← MakeEnd (inl s) (cfg_net cfg);
    ends ← go_set ends j (inl s);
    Ret (names, ends, set_cnet (Connect (inl s) (inr j) rn) cfg))
    (replicate (Z.to_nat (n cfg)) "", replicate (Z.to_nat (n cfg)) (inl ""), cfg).

(** [ck] is the new pointer; [MakeClerk] is given the handles in the order of
    the first result. *)
Definition makeClient (to : list Z) (ck : nat) (bs : Z → list byte) (rnd : Z → Z) cfg
    : outcome (list (string + Z) * config) :=
  '(names, ends, cfg) ← clientEnds bs cfg;
  handles ← random_handles rnd ends;
  let cfg := set_clerks (<[ck := names]> (clerks cfg)) (nextClientId cfg + 1) cfg in
  cfg ← ConnectClientUnlocked ck to cfg;
  Ret (handles, cfg).

(** [os.Remove] of the names removes files, which there are none of. *)
Definition deleteClient (ck : nat) cfg : config :=
  set_clerks (delete ck (clerks cfg)) (nextClientId cfg) cfg.

(** ** Starting and shutting down *)

(** What the persister [cfg.saved[i]] holds now. *)
Definition savedNow (i : Z) cfg : outcome (option Persister) :=
  r ← go_index (kvservers cfg) i;
  match r with
  | Some kv => Ret (Some (persister (ts_rf kv)))
  | None => go_index (saved cfg) i
  end.

Definition ShutdownServer (i : Z) cfg : outcome config :=
  cfg ← disconnectUnlocked i (All cfg) cfg;
  let cfg := set_cnet (DeleteServer (inr i) (cfg_net cfg)) cfg in
  ps ← savedNow i cfg;
  sv ← go_set (saved cfg) i (Copy <$> ps);
  let cfg := set_saved sv cfg in
  kv ← go_index (kvservers cfg) i;
  match kv with
  | Some _ => ks ← go_set (kvservers cfg) i None; Ret (set_kvservers ks cfg)
  | None => Ret cfg
  end.

(** The fresh names of server [i]'s ends. *)
Definition freshNames (i : Z) (bs : Z → list byte) cfg : outcome config :=
  es ← go_set (endnames cfg) i (Some (replicate (Z.to_nat (n cfg)) ""));
  go_for (Z.to_nat (n cfg)) 0 (λ j cfg,
    s ← randstring 20 (bs j);
    row ← go_index (endnames cfg) i;
    row ← go_set (default [] row) j s;
    es ← go_set (endnames cfg) i (Some row);
    Ret (set_endnames es cfg)) (set_endnames es cfg).

(** The fresh ends. *)
Definition freshEnds (i : Z) cfg : outcome config :=
  go_for (Z.to_nat (n cfg)) 0 (λ j cfg,
    e ← endname_at i j cfg;
    rn ← MakeEnd (inl e) (cfg_net cfg);
    Ret (set_cnet (Connect (inl e) (inr j) rn) cfg)) cfg.

(** [srv] is the new server object with the two services. *)
Definition StartServer (i : Z) (bs : Z → list byte) (srv : nat) cfg : outcome config :=
  cfg ← freshNames i bs cfg;
  cfg ← freshEnds i cfg;
  ps ← savedNow i cfg;
  let ps := match ps with Some ps => Copy ps | None => MakePersister end in
  sv ← go_set (saved cfg) i (Some ps);
  let cfg := set_saved sv cfg in
  kv ← ts_Start (Z.to_nat (n cfg)) i ps (params cfg);
  ks ← go_set (kvservers cfg) i (Some kv);
  let cfg := set_kvservers ks cfg in
  Ret (set_cnet (AddServer (inr i) srv (cfg_net cfg)) cfg).

(** [names i] are the random bytes of the names of server [i], [srv i] its
    server object; [now] is the time. *)
Definition make_config (k : nat) (unreliable : bool) (p : P) (now : Z) (bs : Z → Z → list byte) (srv : Z → nat)
    : outcome config :=
  let cfg := mkConfig MakeNetwork (Z.of_nat k) (replicate k None) (replicate k None) (replicate k None) ∅
               (Z.of_nat k + 1000) p now 0 0 0 in
  cfg ← go_for k 0 (λ i cfg, StartServer i (bs i) (srv i) cfg) cfg;
  cfg ← ConnectAll cfg;
  Ret (set_cnet (Reliable (negb unreliable) (cfg_net cfg)) cfg).

(** ** Sizes *)

(** [saved[i].RaftStateSize()] or [saved[i].SnapshotSize()]; the largest. *)
Definition maxSize (size : Persister → Z) cfg : outcome Z :=
  go_for (Z.to_nat (n cfg)) 0 (λ i largest,
    ps ← savedNow i cfg;
    match ps with
    | None => Panic NilDereference
    | Some ps => let n := size ps in Ret (if n >? largest then n else largest)
    end) 0.

Definition LogSize cfg : outcome Z := maxSize RaftStateSize cfg.
Definition SnapshotSize cfg : outcome Z := maxSize Raft.SnapshotSize cfg.

(** ** Partitions with the leader in the minority *)

(** The servers but [l] are put into [p1] while there is room, the others into
    [p2], whose last place is [l]'s. *)
Definition splitServers (k l : Z) : outcome (list Z * list Z) :=
  '(p1, p2, _) ← go_for (Z.to_nat k) 0 (λ i '(p1, p2, j),
      if negb (i =? l) then
        if j <? zlen p1 then p1 ← go_set p1 j i; Ret (p1, p2, j + 1)
        else p2 ← go_set p2 (j - zlen p1) i; Ret (p1, p2, j + 1)
      else Ret (p1, p2, j))
    (replicate (Z.to_nat (Z.quot k 2 + 1)) 0, replicate (Z.to_nat (Z.quot k 2)) 0, 0);
  p2 ← go_set p2 (zlen p2 - 1) l;
  Ret (p1, p2).

(** ** The end of a test *)

(** [failed] is [t.Failed()]; times are in nanoseconds. *)
Definition checkTimeout (failed : bool) (now : Z) cfg : outcome unit :=
  if negb failed && (now - start cfg >? 120 * 10 ^ 9) then Panic Fatal else Ret tt.

Definition cleanup (failed : bool) (now : Z) cfg : outcome config :=
  let cfg := set_kvservers (fmap (M := list) (fmap (M := option) ts_Kill) (kvservers cfg)) cfg in
  let cfg := set_cnet (Cleanup (cfg_net cfg)) cfg in
  _ ← checkTimeout failed now cfg;
  Ret cfg.

Definition rpcTotal cfg : Z := GetTotalCount (cfg_net cfg).
Definition begin (now : Z) cfg : config := set_stats now (rpcTotal cfg) 0 cfg.
Definition op cfg : config := set_stats (t0 cfg) (rpcs0 cfg) (int32 (ops cfg + 1)) cfg.

(** The numbers printed: peers, RPCs, operations; nothing if the test has
    failed. *)
Definition report (failed : bool) (now : Z) cfg : outcome (option (Z * Z * Z)) :=
  _ ← checkTimeout failed now cfg;
  Ret (if negb failed then Some (n cfg, rpcTotal cfg - rpcs0 cfg, ops cfg) else None).
End config.
