(* ===== verification/KvSrv.v ===== *)
(** * The single-server key/value service

    src/src/kvsrv: the server's handlers (server.go) and the clerk's retry
    loops (client.go), and the system of one server, any number of clerks and
    a network that loses requests and replies.

    A clerk's [Get] or [PutAppend] is a loop around [Call]; each turn of the
    loop is one of: the request is lost (nothing happens), the handler runs
    and the reply is lost, the handler runs and the reply arrives.  The loop of
    [PutAppend] is followed by the same kind of loop around [Succeed].  A
    [Call] returns before the next one is made, and labrpc runs a handler at
    most once per [Call]. *)

From stdpp Require Import prelude gmap strings list.
From S2P Require Import Prelude Strconv Linearizability Models.
Local Open Scope Z_scope.

(** ** Server *)

Record KVServer := mkKVServer {
  pairs : gmap string string;
  results : gmap string string;
}.

Record PutAppendArgs := mkPutAppendArgs {
  pa_Key : string; pa_Value : string; pa_ClientID : Z; pa_CallID : Z }.
Record GetArgs := mkGetArgs { g_Key : string; g_ClientID : Z; g_CallID : Z }.
Record SucceedArgs := mkSucceedArgs { s_ClientID : Z; s_CallID : Z }.

Definition getKey (clientID callID : Z) : string :=
  FormatInt clientID +:+ "," +:+ FormatInt callID.

Definition Get (kv : KVServer) (args : GetArgs) : KVServer * string :=
  (kv, match pairs kv !! g_Key args with Some v => v | None => "" end).

Definition Put (kv : KVServer) (args : PutAppendArgs) : KVServer * string :=
  let key := getKey (pa_ClientID args) (pa_CallID args) in
  match results kv !! key with
  | Some v => (kv, v)
  | None =>
      let value := "" in
      (mkKVServer (<[pa_Key args := pa_Value args]> (pairs kv)) (<[key := value]> (results kv)), value)
  end.

Definition Append (kv : KVServer) (args : PutAppendArgs) : KVServer * string :=
  let key := getKey (pa_ClientID args) (pa_CallID args) in
  match results kv !! key with
  | Some v => (kv, v)
  | None =>
      let value := match pairs kv !! pa_Key args with Some v => v | None => "" end in
      (mkKVServer (<[pa_Key args := value +:+ pa_Value args]> (pairs kv)) (<[key := value]> (results kv)),
       value)
  end.

Definition Succeed (kv : KVServer) (args : SucceedArgs) : KVServer * bool :=
  let key := getKey (s_ClientID args) (s_CallID args) in
  (mkKVServer (pairs kv) (delete key (results kv)), true).

Definition StartKVServer : KVServer := mkKVServer ∅ ∅.

(** ** Clerk *)

(** The three calls of a clerk. *)
Inductive Cmd :=
  | CGet (key : string)
  | CPut (key value : string)
  | CAppend (key value : string).

(** Where a clerk is in its code: between calls, in the first loop, in the
    [Succeed] loop (with the reply of the first). *)
Inductive Phase :=
  | Idle
  | Calling (cmd : Cmd) (callID : Z)
  | Succeeding (cmd : Cmd) (callID : Z) (value : string).

Record Clerk := mkClerk { NextCallID : Z; phase : Phase }.

Definition MakeClerk : Clerk := mkClerk 0 Idle.

(** [callID := ck.NextCallID; ck.NextCallID++] and the loop is entered. *)
Definition invoke (ck : Clerk) (cmd : Cmd) : Clerk :=
  mkClerk (NextCallID ck + 1) (Calling cmd (NextCallID ck)).

(** The handler the clerk's [Call] runs. *)
Definition serve (kv : KVServer) (client : Z) (callID : Z) (cmd : Cmd) : KVServer * string :=
  match cmd with
  | CGet key => Get kv (mkGetArgs key client callID)
  | CPut key value => Put kv (mkPutAppendArgs key value client callID)
  | CAppend key value => Append kv (mkPutAppendArgs key value client callID)
  end.

Definition is_write (cmd : Cmd) : bool :=
  match cmd with CGet _ => false | _ => true end.

(** What a clerk does with the reply of its [Call]: [Get] returns, [PutAppend]
    goes on to [Succeed]. *)
Definition gotReply (ck : Clerk) (cmd : Cmd) (callID : Z) (value : string) : Clerk :=
  mkClerk (NextCallID ck) (if is_write cmd then Succeeding cmd callID value else Idle).

(** ** The system *)

(** An operation with its result: client, call, command, value. *)
Record Event := mkEvent { e_client : Z; e_call : Z; e_cmd : Cmd; e_value : string }.

(** [log] (the order in which operations took effect) and [returned] (what
    the clerks' callers got) are history variables. *)
Record Sys := mkSys {
  server : KVServer;
  clerks : gmap Z Clerk;
  log : list Event;
  returned : list Event;
}.

(** Whether a handler run is the one that takes effect. *)
Definition takes_effect (kv : KVServer) (client callID : Z) (cmd : Cmd) : bool :=
  is_write cmd && bool_decide (results kv !! getKey client callID = None).

Definition log_write (kv : KVServer) (c n : Z) (cmd : Cmd) (v : string) : list Event :=
  if takes_effect kv c n cmd then [mkEvent c n cmd v] else [].

Inductive sys_step : Sys → Sys → Prop :=
  | sys_invoke sys c ck cmd :
      clerks sys !! c = Some ck → phase ck = Idle →
      sys_step sys (mkSys (server sys) (<[c := invoke ck cmd]> (clerks sys)) (log sys) (returned sys))
  | sys_reply_lost sys c ck cmd n kv' v :
      clerks sys !! c = Some ck → phase ck = Calling cmd n → serve (server sys) c n cmd = (kv', v) →
      sys_step sys (mkSys kv' (clerks sys) (log sys ++ log_write (server sys) c n cmd v) (returned sys))
  | sys_reply_get sys c ck key n kv' v :
      clerks sys !! c = Some ck → phase ck = Calling (CGet key) n →
      serve (server sys) c n (CGet key) = (kv', v) →
      sys_step sys (mkSys kv' (<[c := gotReply ck (CGet key) n v]> (clerks sys))
                      (log sys ++ [mkEvent c n (CGet key) v])
                      (returned sys ++ [mkEvent c n (CGet key) v]))
  | sys_reply_write sys c ck cmd n kv' v :
      clerks sys !! c = Some ck → phase ck = Calling cmd n → is_write cmd = true →
      serve (server sys) c n cmd = (kv', v) →
      sys_step sys (mkSys kv' (<[c := gotReply ck cmd n v]> (clerks sys))
                      (log sys ++ log_write (server sys) c n cmd v) (returned sys))
  | sys_succeed_lost sys c ck cmd n v kv' b :
      clerks sys !! c = Some ck → phase ck = Succeeding cmd n v →
      Succeed (server sys) (mkSucceedArgs c n) = (kv', b) →
      sys_step sys (mkSys kv' (clerks sys) (log sys) (returned sys))
  | sys_succeed sys c ck cmd n v kv' b :
      clerks sys !! c = Some ck → phase ck = Succeeding cmd n v →
      Succeed (server sys) (mkSucceedArgs c n) = (kv', b) →
      sys_step sys (mkSys kv' (<[c := mkClerk (NextCallID ck) Idle]> (clerks sys)) (log sys)
                      (returned sys ++ [mkEvent c n cmd v])).

(** One server, and clerks with distinct client ids. *)
Definition sys_init (ids : gset Z) : Sys :=
  mkSys StartKVServer (gset_to_gmap MakeClerk ids) [] [].

Definition sys_reachable (ids : gset Z) (sys : Sys) : Prop := rtc sys_step (sys_init ids) sys.

(** ** The specification *)

Definition spec_next (m : gmap string string) (cmd : Cmd) : gmap string string :=
  match cmd with
  | CGet _ => m
  | CPut key value => <[key := value]> m
  | CAppend key value => <[key := default "" (m !! key) +:+ value]> m
  end.

Definition spec_value (m : gmap string string) (cmd : Cmd) : string :=
  match cmd with
  | CGet key => default "" (m !! key)
  | CPut _ _ => ""
  | CAppend key _ => default "" (m !! key)
  end.

(** The log is a legal sequential history that leads from [m] to [m']. *)
Fixpoint replays (m : gmap string string) (l : list Event) (m' : gmap string string) : Prop :=
  match l with
  | [] => m = m'
  | e :: l => e_value e = spec_value m (e_cmd e) ∧ replays (spec_next m (e_cmd e)) l m'
  end.

Lemma replays_snoc m l m1 e :
  replays m l m1 → e_value e = spec_value m1 (e_cmd e) →
  replays m (l ++ [e]) (spec_next m1 (e_cmd e)).
Proof.
  revert m. induction l as [|e0 l IH]; intros m; simpl; [by intros ->|].
  intros [? ?] ?. split; auto.
Qed.

(** As the testers see a command: [KvInput] of the model. *)
Definition cmd_key (cmd : Cmd) : string :=
  match cmd with CGet key | CPut key _ | CAppend key _ => key end.

Definition cmd_input (cmd : Cmd) : KvInput :=
  match cmd with
  | CGet key => mkKvInput 0 key ""
  | CPut key value => mkKvInput 1 key value
  | CAppend key value => mkKvInput 3 key value
  end.

Definition history_of (key : string) (l : list Event) : list (KvInput * KvOutput) :=
  (λ e, (cmd_input (e_cmd e), mkKvOutput (e_value e))) <$> filter (λ e, cmd_key (e_cmd e) = key) l.

(** A legal history is accepted by [KvModel], key by key. *)
Lemma replays_accepts m l m' key :
  replays m l m' →
  accepts KvModel_Step (default "" (m !! key)) (history_of key l) = true ∧
  final KvModel_Step (default "" (m !! key)) (history_of key l) = default "" (m' !! key).
Proof.
  revert m. unfold history_of. induction l as [|e l IH]; intros m; simpl; [by intros ->|].
  intros [Hv Hr]. apply IH in Hr as [Ha Hf]. rewrite filter_cons. case_decide as Hk.
  - rewrite fmap_cons. simpl. unfold KvModel_Step. subst key.
    destruct (e_cmd e) as [k|k v|k v]; simpl in *.
    + rewrite bool_decide_true by done. simpl. auto.
    + rewrite lookup_insert_eq in *. simpl in *. auto.
    + rewrite lookup_insert_eq in *. simpl in *. rewrite bool_decide_true by done. simpl. auto.
  - assert (spec_next m (e_cmd e) !! key = m !! key) as Heq; [|by rewrite Heq in *].
    destruct (e_cmd e); simpl in *; [done|by rewrite lookup_insert_ne..].
Qed.

(** ** The invariant *)

Lemma getKey_inj c n c' n' : getKey c n = getKey c' n' → c = c' ∧ n = n'.
Proof. apply comma_inj. Qed.

Definition logged (l : list Event) (c n : Z) : Prop := ∃ e, e ∈ l ∧ e_client e = c ∧ e_call e = n.

(** What the server and the log say about clerk [c]. *)
Definition clerk_ok (sys : Sys) (c : Z) (ck : Clerk) : Prop :=
  match phase ck with
  | Idle => True
  | Calling cmd n =>
      n < NextCallID ck ∧
      match results (server sys) !! getKey c n with
      | Some v => is_write cmd = true ∧ mkEvent c n cmd v ∈ log sys
      | None => ¬ logged (log sys) c n
      end
  | Succeeding cmd n v => n < NextCallID ck ∧ mkEvent c n cmd v ∈ log sys
  end.

(** The call a saved result belongs to. *)
Definition pending_call (ck : Clerk) (n : Z) : Prop :=
  match phase ck with
  | Idle => False
  | Calling _ m | Succeeding _ m _ => m = n
  end.

Record sys_inv (sys : Sys) : Prop := mkSysInv {
  si_replays : replays ∅ (log sys) (pairs (server sys));
  si_nodup : NoDup ((λ e, (e_client e, e_call e)) <$> log sys);
  si_past e : e ∈ log sys → ∃ ck, clerks sys !! e_client e = Some ck ∧ e_call e < NextCallID ck;
  si_clerk c ck : clerks sys !! c = Some ck → clerk_ok sys c ck;
  si_results key v : results (server sys) !! key = Some v →
    ∃ c ck n, key = getKey c n ∧ clerks sys !! c = Some ck ∧ pending_call ck n;
  si_returned e : e ∈ returned sys → e ∈ log sys;
}.

(** The handler either finds the saved result, or applies the command. *)
Lemma serve_cases kv c n cmd kv' v :
  serve kv c n cmd = (kv', v) →
  (is_write cmd = false ∧ kv' = kv ∧ v = spec_value (pairs kv) cmd) ∨
  (is_write cmd = true ∧ kv' = kv ∧ results kv !! getKey c n = Some v) ∨
  (takes_effect kv c n cmd = true ∧ v = spec_value (pairs kv) cmd ∧
   kv' = mkKVServer (spec_next (pairs kv) cmd) (<[getKey c n := v]> (results kv))).
Proof.
  destruct cmd as [key|key value|key value]; simpl; unfold Get, Put, Append, takes_effect; simpl; intros Heq.
  - left. simplify_eq. split_and!; [done|done|]. by destruct (_ !! key).
  - right. destruct (results kv !! _) eqn:Hr; simplify_eq; [by left|right]. by rewrite bool_decide_true.
  - right. destruct (results kv !! _) eqn:Hr; simplify_eq; [by left|right]. rewrite bool_decide_true by done.
    simpl. by destruct (pairs kv !! key).
Qed.

Lemma logged_snoc l e c n : logged (l ++ [e]) c n ↔ logged l c n ∨ e_client e = c ∧ e_call e = n.
Proof.
  unfold logged. setoid_rewrite elem_of_app. setoid_rewrite list_elem_of_singleton. naive_solver.
Qed.

Lemma nodup_snoc l e :
  NoDup ((λ e, (e_client e, e_call e)) <$> l) → ¬ logged l (e_client e) (e_call e) →
  NoDup ((λ e, (e_client e, e_call e)) <$> (l ++ [e])).
Proof.
  intros Hl Hn. rewrite fmap_app. apply NoDup_app. split_and!; [done| |apply NoDup_singleton].
  intros x Hx%list_elem_of_fmap ->%list_elem_of_singleton. destruct Hx as (e' & Heq & ?). simplify_eq.
  apply Hn. by exists e'.
Qed.

(** Another clerk does not notice a change of results and log that concerns
    call [n] of clerk [c]. *)
Lemma clerk_ok_other sys sys' c c' ck :
  c' ≠ c → clerk_ok sys c' ck →
  (∀ m, results (server sys') !! getKey c' m = results (server sys) !! getKey c' m) →
  (∀ e, e ∈ log sys → e ∈ log sys') → (∀ m, logged (log sys') c' m → logged (log sys) c' m) →
  clerk_ok sys' c' ck.
Proof.
  unfold clerk_ok. intros Hne Hok Hr Hl Hlog. destruct (phase ck) as [|cmd m|cmd m v]; [done| |].
  - rewrite Hr. destruct Hok as [? Hok]. split; [done|]. destruct (_ !! _); [|by auto]. destruct Hok. auto.
  - destruct Hok. auto.
Qed.

Lemma results_insert_other kv c n v c' m :
  c' ≠ c → <[getKey c n := v]> (results kv) !! getKey c' m = results kv !! getKey c' m.
Proof. intros Hne. apply lookup_insert_ne. by intros [? ?]%getKey_inj. Qed.

(** A handler run whose reply is lost. *)
Lemma inv_exec sys c ck cmd n kv' v :
  sys_inv sys → clerks sys !! c = Some ck → phase ck = Calling cmd n →
  serve (server sys) c n cmd = (kv', v) →
  let sys' := mkSys kv' (clerks sys) (log sys ++ log_write (server sys) c n cmd v) (returned sys) in
  sys_inv sys' ∧ (is_write cmd = true → mkEvent c n cmd v ∈ log sys').
Proof.
  intros Hinv Hc Hph Hserve. pose proof (si_clerk _ Hinv c ck Hc) as Hck.
  unfold clerk_ok in Hck. rewrite Hph in Hck. destruct Hck as [Hn Hck]. unfold log_write.
  destruct (serve_cases _ _ _ _ _ _ Hserve) as [(Hw & -> & Hv)|[(Hw & -> & Hr)|(Ht & Hv & ->)]].
  - unfold takes_effect. rewrite Hw. simpl. rewrite app_nil_r. by destruct sys.
  - unfold takes_effect. rewrite Hw, Hr, bool_decide_false by done. simpl. rewrite app_nil_r.
    rewrite Hr in Hck. split; [by destruct sys|]. intros _. apply Hck.
  - rewrite Ht. unfold takes_effect in Ht. apply andb_true_iff in Ht as [Hw Hr%bool_decide_eq_true].
    rewrite Hr in Hck. destruct Hinv as [Hrep Hnd Hpast Hcl Hres Hret].
    split; [|intros _; apply elem_of_app; right; by left]. split; simpl.
    + by apply (replays_snoc _ _ _ (mkEvent c n cmd v)).
    + by apply nodup_snoc.
    + intros e [He|He%list_elem_of_singleton]%elem_of_app; [by apply Hpast|]. subst. by exists ck.
    + intros c' ck' Hc'. destruct (decide (c' = c)) as [->|Hne].
      * simplify_eq. unfold clerk_ok. rewrite Hph. simpl. split; [done|]. rewrite lookup_insert_eq.
        split; [done|]. apply elem_of_app. right. by left.
      * eapply (clerk_ok_other sys); [done|by apply Hcl|..]; simpl.
        -- intros m. by apply results_insert_other.
        -- intros e He. apply elem_of_app. by left.
        -- intros m [?|[? _]]%logged_snoc; [done|]. simpl in *. congruence.
    + intros key w [[<- <-]|[Hne Hk]]%lookup_insert_Some; [|by apply (Hres key w)].
      exists c, ck, n. split_and!; [done|done|]. unfold pending_call. by rewrite Hph.
    + intros e He. apply elem_of_app. left. auto.
Qed.

(** Clerk [c] moves on in its code. *)
Lemma inv_clerk sys c ck ck' ret :
  sys_inv sys → clerks sys !! c = Some ck → NextCallID ck ≤ NextCallID ck' →
  clerk_ok (mkSys (server sys) (clerks sys) (log sys) ret) c ck' →
  (∀ n, pending_call ck n → is_Some (results (server sys) !! getKey c n) → pending_call ck' n) →
  (∀ e, e ∈ ret → e ∈ log sys) →
  sys_inv (mkSys (server sys) (<[c := ck']> (clerks sys)) (log sys) ret).
Proof.
  intros [Hrep Hnd Hpast Hcl Hres Hret] Hc Hle Hok Hpend Hr. split; simpl; try done.
  - intros e He. destruct (Hpast e He) as (ck0 & Hck0 & Hlt).
    destruct (decide (e_client e = c)) as [Heq|Hne].
    + rewrite Heq in *. simplify_eq. exists ck'. rewrite lookup_insert_eq. split; [done|lia].
    + exists ck0. by rewrite lookup_insert_ne.
  - intros c' ck0 [[<- <-]|[Hne Hc']]%lookup_insert_Some; [done|].
    exact (Hcl c' ck0 Hc').
  - intros key v Hk. destruct (Hres key v Hk) as (c0 & ck0 & n & -> & Hc0 & Hp).
    destruct (decide (c0 = c)) as [->|Hne].
    + simplify_eq. exists c, ck', n. rewrite lookup_insert_eq. split_and!; [done..|]. by eauto.
    + exists c0, ck0, n. by rewrite lookup_insert_ne.
Qed.

(** [Succeed] forgets the result of a call the clerk is done with. *)
Lemma inv_succeed sys c ck cmd n v :
  sys_inv sys → clerks sys !! c = Some ck → phase ck = Succeeding cmd n v →
  sys_inv (mkSys (Succeed (server sys) (mkSucceedArgs c n)).1 (clerks sys) (log sys) (returned sys)).
Proof.
  intros [Hrep Hnd Hpast Hcl Hres Hret] Hc Hph. unfold Succeed. simpl. split; simpl; try done.
  - intros c' ck' Hc'. destruct (decide (c' = c)) as [->|Hne].
    + simplify_eq. pose proof (Hcl c ck Hc) as Hok. unfold clerk_ok in *. by rewrite Hph in *.
    + eapply (clerk_ok_other sys); [done|by apply Hcl| |done|done]. intros m. simpl.
      apply lookup_delete_ne. intros [? _]%getKey_inj. congruence.
  - intros key w [_ Hk]%lookup_delete_Some. by apply (Hres key w).
Qed.

Lemma inv_init ids : sys_inv (sys_init ids).
Proof.
  split; simpl; try done; try by intros e ?%not_elem_of_nil.
  - apply NoDup_nil_2.
  - intros c ck [_ <-]%lookup_gset_to_gmap_Some. done.
Qed.

(** A [Get] that returns is logged when its reply was computed. *)
Lemma inv_log_get sys c ck key n :
  sys_inv sys → clerks sys !! c = Some ck → phase ck = Idle → n < NextCallID ck →
  ¬ logged (log sys) c n →
  let e := mkEvent c n (CGet key) (spec_value (pairs (server sys)) (CGet key)) in
  sys_inv (mkSys (server sys) (clerks sys) (log sys ++ [e]) (returned sys ++ [e])).
Proof.
  intros [Hrep Hnd Hpast Hcl Hres Hret] Hc Hph Hlt Hnl e. split; simpl; try done.
  - by apply (replays_snoc _ _ _ e).
  - by apply nodup_snoc.
  - intros e' [He| ->%list_elem_of_singleton]%elem_of_app; [by apply Hpast|]. by exists ck.
  - intros c' ck' Hc'. destruct (decide (c' = c)) as [->|Hne].
    + simplify_eq. unfold clerk_ok. by rewrite Hph.
    + eapply (clerk_ok_other sys); [done|by apply Hcl|done|..]; simpl.
      * intros e' He. apply elem_of_app. by left.
      * intros m [?|[? _]]%logged_snoc; [done|]. simpl in *. congruence.
  - intros e' [He|He]%elem_of_app; apply elem_of_app; [left; auto|by right].
Qed.

Lemma inv_invoke sys c ck cmd :
  sys_inv sys → clerks sys !! c = Some ck → phase ck = Idle →
  sys_inv (mkSys (server sys) (<[c := invoke ck cmd]> (clerks sys)) (log sys) (returned sys)).
Proof.
  intros Hinv Hc Hph. apply (inv_clerk _ _ ck); [done|done|simpl; lia| | |apply Hinv].
  - unfold clerk_ok. simpl. split; [lia|]. destruct (results _ !! _) as [v|] eqn:Hr.
    + destruct (si_results _ Hinv _ _ Hr) as (c0 & ck0 & n & [<- <-]%getKey_inj & Hc0 & Hp).
      simplify_eq. unfold pending_call in Hp. by rewrite Hph in Hp.
    + intros (e & He & <- & Hcall). destruct (si_past _ Hinv e He) as (ck0 & Hck0 & Hlt).
      simplify_eq. lia.
  - intros n Hp. unfold pending_call in Hp. by rewrite Hph in Hp.
Qed.

Lemma inv_step sys sys' : sys_step sys sys' → sys_inv sys → sys_inv sys'.
Proof.
  destruct 1 as [sys c ck cmd Hc Hph|sys c ck cmd n kv' v Hc Hph Hs|sys c ck key n kv' v Hc Hph Hs
    |sys c ck cmd n kv' v Hc Hph Hw Hs|sys c ck cmd n v kv' b Hc Hph Hs|sys c ck cmd n v kv' b Hc Hph Hs];
    intros Hinv; pose proof (si_clerk _ Hinv c ck Hc) as Hck; unfold clerk_ok in Hck; rewrite Hph in Hck.
  - by apply inv_invoke.
  - by destruct (inv_exec _ _ _ _ _ _ _ Hinv Hc Hph Hs).
  - destruct Hck as [Hn Hck].
    destruct (serve_cases _ _ _ _ _ _ Hs) as [(_ & -> & ->)|[(? & _)|(? & _)]]; [|done..].
    destruct (results _ !! _) eqn:Hr; [by destruct Hck|].
    set (ck' := gotReply ck (CGet key) n _).
    refine (inv_log_get (mkSys (server sys) (<[c := ck']> (clerks sys)) (log sys) (returned sys))
      c ck' key n _ _ _ _ _); simpl; [|by rewrite lookup_insert_eq|done|done|done].
    apply (inv_clerk _ _ ck); [done|done|simpl; lia|done| |apply Hinv].
    intros m Hp. unfold pending_call in Hp. rewrite Hph in Hp. subst m. rewrite Hr. by intros [].
  - destruct (inv_exec _ _ _ _ _ _ _ Hinv Hc Hph Hs) as [Hi Hin].
    apply (inv_clerk _ _ ck _ _ Hi); [done|simpl; lia| | |apply Hi].
    + unfold clerk_ok, gotReply. rewrite Hw. simpl. split; [apply Hck|by apply Hin].
    + intros m Hp _. unfold pending_call, gotReply in *. rewrite Hph in Hp. rewrite Hw. done.
  - pose proof (inv_succeed _ _ _ _ _ _ Hinv Hc Hph) as Hi. by rewrite Hs in Hi.
  - pose proof (inv_succeed _ _ _ _ _ _ Hinv Hc Hph) as Hi. rewrite Hs in Hi.
    apply (inv_clerk _ _ ck _ _ Hi); [done|simpl; lia|done| |].
    + intros m Hp. unfold pending_call in Hp. rewrite Hph in Hp. subst m. simpl.
      unfold Succeed in Hs. injection Hs as <- _. simpl. rewrite lookup_delete_eq. by intros [].
    + intros e [He| ->%list_elem_of_singleton]%elem_of_app; [by apply Hinv|]. apply Hck.
Qed.

Lemma reachable_sys_inv ids sys : sys_reachable ids sys → sys_inv sys.
Proof.
  intros Hr. assert (sys_inv (sys_init ids)) as Hi by apply inv_init. revert Hi. unfold sys_reachable in Hr.
  generalize dependent (sys_init ids). intros sys0 Hr Hi. induction Hr; eauto using inv_step.
Qed.

(** ** Theorems *)

(** keys of saved results never collide: [getKey] is injective. *)
Theorem getKey_injective c n c' n' : getKey c n = getKey c' n' → c = c' ∧ n = n'.
Proof. apply comma_inj. Qed.

(** C19: exactly once.  With any number of clerks retrying over a network
    that loses requests and replies, the operations take effect one after
    the other as a sequential history of the map the server holds: no call
    takes effect twice, and every value a clerk returns to its caller is the
    result its call had when it took effect. *)
Theorem kvsrv_exactly_once ids sys :
  sys_reachable ids sys →
  replays ∅ (log sys) (pairs (server sys)) ∧
  NoDup ((λ e, (e_client e, e_call e)) <$> log sys) ∧
  (∀ e, e ∈ returned sys → e ∈ log sys).
Proof. intros [? ? _ _ _ ?]%reachable_sys_inv. by split_and!. Qed.

(** the history of every key is accepted by the testers' [KvModel]. *)
Theorem kvsrv_refines_KvModel ids sys key :
  sys_reachable ids sys → accepts KvModel_Step KvModel_Init (history_of key (log sys)) = true.
Proof.
  intros [Hr _ _ _ _ _]%reachable_sys_inv. by apply (replays_accepts _ _ _ key) in Hr as [? _].
Qed.

(** The clerks that are in a call, and the key of the call. *)
Definition busy (ck : Clerk) : bool := match phase ck with Idle => false | _ => true end.
Definition in_call (cs : gmap Z Clerk) : gmap Z Clerk := filter (λ e, busy e.2 = true) cs.

Definition call_key (e : Z * Clerk) : string :=
  match phase e.2 with
  | Idle => ""
  | Calling _ n | Succeeding _ n _ => getKey e.1 n
  end.

Lemma pending_in_call cs c ck n :
  cs !! c = Some ck → pending_call ck n → in_call cs !! c = Some ck ∧ call_key (c, ck) = getKey c n.
Proof.
  unfold pending_call, call_key, in_call, busy. intros Hc Hp. rewrite map_lookup_filter_Some. simpl.
  destruct (phase ck); [done|by subst|by subst].
Qed.

(** C39: the server's memory of results does not leak: every saved result
    belongs to the call some clerk is still in, so there are at most as many
    saved results as clerks in a call, and an idle system saves none. *)
Theorem kvsrv_results_bounded ids sys :
  sys_reachable ids sys →
  (∀ key v, results (server sys) !! key = Some v →
     ∃ c ck n, key = getKey c n ∧ clerks sys !! c = Some ck ∧ pending_call ck n) ∧
  (size (results (server sys)) ≤ size (in_call (clerks sys)))%nat ∧
  ((∀ c ck, clerks sys !! c = Some ck → phase ck = Idle) → results (server sys) = ∅).
Proof.
  intros Hinv%reachable_sys_inv. split_and!; [apply (si_results _ Hinv)| |].
  - rewrite <-!length_map_to_list, <-(length_fmap fst), <-(length_fmap call_key).
    apply submseteq_length, NoDup_submseteq; [apply NoDup_fst_map_to_list|].
    intros key ([key' v] & -> & Hk%elem_of_map_to_list)%list_elem_of_fmap.
    destruct (si_results _ Hinv _ v Hk) as (c & ck & n & -> & Hc & Hp).
    destruct (pending_in_call _ _ _ _ Hc Hp) as [Hin Hkey].
    apply list_elem_of_fmap. exists (c, ck). split; [done|]. by apply elem_of_map_to_list.
  - intros Hidle. apply map_empty. intros key.
    destruct (results _ !! key) as [v|] eqn:Hk; [|done].
    destruct (si_results _ Hinv key v Hk) as (c & ck & n & _ & Hc & Hp).
    unfold pending_call in Hp. by rewrite (Hidle c ck Hc) in Hp.
Qed.

(** ** A concrete run: an append whose first reply is lost *)
Section example.
Definition ck1 : Clerk := invoke MakeClerk (CAppend "k" "v").

Definition run1 : Sys :=
  mkSys (mkKVServer {["k" := "v"]} ∅) {[5 := mkClerk 1 Idle]}
    [mkEvent 5 0 (CAppend "k" "v") ""] [mkEvent 5 0 (CAppend "k" "v") ""].

Lemma run1_reachable : sys_reachable {[5]} run1.
Proof.
  unfold sys_reachable, sys_init. rewrite gset_to_gmap_singleton.
  eapply rtc_l; [eapply (sys_invoke _ 5 MakeClerk (CAppend "k" "v")); done|].
  eapply rtc_l; [by eapply (sys_reply_lost _ 5 ck1 (CAppend "k" "v") 0)|].
  eapply rtc_l; [by eapply (sys_reply_write _ 5 ck1 (CAppend "k" "v") 0)|].
  eapply rtc_l; [by eapply (sys_succeed _ 5 (mkClerk 1 (Succeeding (CAppend "k" "v") 0 "")))|].
  apply rtc_refl.
Qed.

Lemma getKey_injective_witness : 12 = 12 ∧ 3 = 3.
Proof. apply (getKey_injective 12 3 12 3). reflexivity. Defined.

Lemma kvsrv_exactly_once_witness : NoDup ((λ e, (e_client e, e_call e)) <$> log run1).
Proof. apply (kvsrv_exactly_once {[5]} run1 run1_reachable). Defined.

Lemma kvsrv_refines_KvModel_witness : accepts KvModel_Step KvModel_Init (history_of "k" (log run1)) = true.
Proof. apply (kvsrv_refines_KvModel {[5]} run1 "k" run1_reachable). Defined.

Lemma kvsrv_results_bounded_witness : results (server run1) = ∅.
Proof.
  destruct (kvsrv_results_bounded {[5]} run1 run1_reachable) as (_ & _ & Hidle). apply Hidle.
  intros c ck Hc. unfold run1 in Hc. cbn [clerks] in Hc.
  apply lookup_singleton_Some in Hc as [_ <-]. reflexivity.
Defined.
End example.
