(* ===== verification/KvSrvLinear.v ===== *)
(** * Histories of the single-server key/value service

    The testers of src/src/kvsrv/test_test.go wrap every call of a clerk in
    two readings of a monotonic clock and record it as an operation of the
    linearizability checker.  Here the system of KvSrv.v runs with a clock and
    this recording; once the clerks are idle the recorded history is
    linearizable, and the checker of PorcupineProps.v can only accept it. *)

From stdpp Require Import prelude gmap strings list sorting relations.
From S2P Require Import Prelude Bitset Porcupine Linearizability PorcupineHistory Locality Models PorcupineProps Strconv KvSrv.
Local Open Scope Z_scope.

(** The system, the clock, when the running call of each client started, and
    the operations recorded so far. *)
Record TSys := mkTSys {
  t_sys : Sys;
  t_now : Z;
  t_starts : gmap Z Z;
  t_ops : list (Operation KvInput KvOutput);
}.

(** The output a tester records: [Put] returns nothing. *)
Definition recorded_value (e : KvSrv.Event) : string :=
  match e_cmd e with CPut _ _ => "" | _ => e_value e end.

Definition record_op (t : TSys) (e : KvSrv.Event) : Operation KvInput KvOutput :=
  mkOperation (e_client e) (cmd_input (e_cmd e)) (default 0 (t_starts t !! e_client e))
    (mkKvOutput (recorded_value e)) (t_now t).

Inductive timed_step : TSys → TSys → Prop :=
  | timed_tick t now :
      t_now t ≤ now → timed_step t (mkTSys (t_sys t) now (t_starts t) (t_ops t))
  | timed_invoke t c ck cmd :
      clerks (t_sys t) !! c = Some ck → phase ck = Idle →
      timed_step t (mkTSys (mkSys (server (t_sys t)) (<[c := invoke ck cmd]> (clerks (t_sys t)))
          (log (t_sys t)) (returned (t_sys t)))
        (t_now t) (<[c := t_now t]> (t_starts t)) (t_ops t))
  | timed_move t sys' new :
      sys_step (t_sys t) sys' →
      (∀ c ck, clerks (t_sys t) !! c = Some ck → phase ck = Idle → clerks sys' !! c = Some ck) →
      returned sys' = returned (t_sys t) ++ new →
      timed_step t (mkTSys sys' (t_now t) (t_starts t) (t_ops t ++ (record_op t <$> new))).

Definition timed_init (ids : gset Z) (now : Z) : TSys := mkTSys (sys_init ids) now ∅ [].

Definition timed_reachable (ids : gset Z) (now : Z) (t : TSys) : Prop := rtc timed_step (timed_init ids now) t.

(** ** The invariant

    [tl] is the log with the time at which each operation took effect. *)

Definition op_matches (tl : list (KvSrv.Event * Z)) (o : Operation KvInput KvOutput) (e : KvSrv.Event) : Prop :=
  ∃ τ, (e, τ) ∈ tl ∧ Call o ≤ τ ≤ Return o ∧ Input o = cmd_input (e_cmd e) ∧ Output o = mkKvOutput (recorded_value e).

Record timed_inv (t : TSys) (tl : list (KvSrv.Event * Z)) : Prop := {
  ti_sys : sys_inv (t_sys t);
  ti_log : tl.*1 = log (t_sys t);
  ti_sorted : StronglySorted (λ a b : KvSrv.Event * Z, a.2 ≤ b.2) tl;
  ti_le : ∀ a, a ∈ tl → a.2 ≤ t_now t;
  ti_start : ∀ c ck n, clerks (t_sys t) !! c = Some ck → pending_call ck n →
    ∃ s, t_starts t !! c = Some s ∧ s ≤ t_now t ∧
      ∀ e τ, (e, τ) ∈ tl → e_client e = c → e_call e = n → s ≤ τ;
  ti_ops : Forall2 (op_matches tl) (t_ops t) (returned (t_sys t));
  ti_pending : ∀ e, e ∈ log (t_sys t) → e ∈ returned (t_sys t) ∨
    ∃ ck, clerks (t_sys t) !! e_client e = Some ck ∧ pending_call ck (e_call e);
  ti_done : ∀ e ck, e ∈ returned (t_sys t) → clerks (t_sys t) !! e_client e = Some ck → ¬ pending_call ck (e_call e);
  ti_nodup : NoDup (returned (t_sys t));
}.

(** One event more in the log, at the present time. *)
Definition extend (tl : list (KvSrv.Event * Z)) (new : list KvSrv.Event) (now : Z) : list (KvSrv.Event * Z) :=
  tl ++ ((λ e, (e, now)) <$> new).

Lemma extend_elem tl new now a : a ∈ extend tl new now ↔ a ∈ tl ∨ (a.1 ∈ new ∧ a.2 = now).
Proof.
  unfold extend. rewrite elem_of_app, list_elem_of_fmap. destruct a as [e τ]. simpl. split.
  - intros [?|(e' & [= -> ->] & ?)]; auto.
  - intros [?|[? ->]]; eauto.
Qed.

Lemma extend_sorted tl new now :
  StronglySorted (λ a b : KvSrv.Event * Z, a.2 ≤ b.2) tl → (∀ a, a ∈ tl → a.2 ≤ now) →
  StronglySorted (λ a b : KvSrv.Event * Z, a.2 ≤ b.2) (extend tl new now).
Proof.
  intros Hs Hle. unfold extend. apply StronglySorted_app. split_and!; [|done|].
  - intros a b Ha (e & -> & _)%list_elem_of_fmap. simpl. by apply Hle.
  - clear. induction new as [|e new IH]; simpl; constructor; [done|]. apply Forall_forall.
    intros b (e' & -> & _)%list_elem_of_fmap. done.
Qed.

Lemma op_matches_mono tl new now o e : op_matches tl o e → op_matches (extend tl new now) o e.
Proof. intros (τ & Hin & ?). exists τ. split; [|done]. apply extend_elem. by left. Qed.

Lemma extend_log tl new now : (extend tl new now).*1 = tl.*1 ++ new.
Proof.
  unfold extend. rewrite fmap_app. f_equal. induction new as [|e new IH]; [done|]. simpl. by f_equal.
Qed.

Lemma pending_fun ck n m : pending_call ck n → pending_call ck m → m = n.
Proof. unfold pending_call. destruct (phase ck); [done| |]; congruence. Qed.

Lemma same_call sys e e' :
  sys_inv sys → e ∈ log sys → e' ∈ log sys → e_client e = e_client e' → e_call e = e_call e' → e = e'.
Proof.
  intros Hinv [i Hi]%list_elem_of_lookup [j Hj]%list_elem_of_lookup Hc Hn.
  assert (i = j) as ->; [|congruence]. eapply NoDup_lookup; [apply (si_nodup _ Hinv)| |].
  - by rewrite list_lookup_fmap, Hi.
  - rewrite list_lookup_fmap, Hj. simpl. congruence.
Qed.

Lemma inv_tick t tl now :
  timed_inv t tl → t_now t ≤ now → timed_inv (mkTSys (t_sys t) now (t_starts t) (t_ops t)) tl.
Proof.
  intros [] Hle. constructor; simpl; try done.
  - intros a Ha. specialize (ti_le0 a Ha). lia.
  - intros c ck n Hc Hp. destruct (ti_start0 c ck n Hc Hp) as (s & ? & ? & ?). exists s. split_and!; [done|lia|done].
Qed.

Lemma inv_timed_invoke t tl c ck cmd :
  timed_inv t tl → clerks (t_sys t) !! c = Some ck → phase ck = Idle →
  timed_inv (mkTSys (mkSys (server (t_sys t)) (<[c := invoke ck cmd]> (clerks (t_sys t)))
      (log (t_sys t)) (returned (t_sys t)))
    (t_now t) (<[c := t_now t]> (t_starts t)) (t_ops t)) tl.
Proof.
  intros Hinv Hc Hph. pose proof (ti_sys _ _ Hinv) as Hsys. destruct Hinv. constructor; simpl; try done.
  - by apply inv_invoke.
  - intros c' ck' n [[<- <-]|[Hne Hc']]%lookup_insert_Some Hp.
    + exists (t_now t). rewrite lookup_insert_eq. split_and!; [done|done|]. intros e τ Hin Hcl Hcall.
      assert (e ∈ log (t_sys t)) as He by (rewrite <-ti_log0; by apply (list_elem_of_fmap_2 fst _ (e, τ))).
      destruct (si_past _ Hsys e He) as (ck0 & Hck0 & Hlt). rewrite Hcl, Hc in Hck0. injection Hck0 as <-.
      unfold pending_call, invoke in Hp. simpl in Hp. lia.
    + rewrite lookup_insert_ne by done. by apply (ti_start0 c' ck').
  - intros e He. destruct (ti_pending0 e He) as [?|(ck' & Hck' & Hp)]; [by left|].
    destruct (decide (e_client e = c)) as [Heq|Hne].
    + rewrite Heq, Hc in Hck'. injection Hck' as <-. unfold pending_call in Hp. by rewrite Hph in Hp.
    + right. exists ck'. by rewrite lookup_insert_ne.
  - intros e ck' He [[Heq <-]|[Hne Hc']]%lookup_insert_Some; [|by apply ti_done0].
    destruct (si_past _ Hsys e (si_returned _ Hsys e He)) as (ck0 & Hck0 & Hlt).
    rewrite <-Heq, Hc in Hck0. injection Hck0 as <-. unfold pending_call, invoke. simpl. lia.
Qed.

(** A clerk in call [n] moves: it may log the call, and it may return. *)
Lemma inv_timed_move t tl sys' c ck ck' n newl newr :
  timed_inv t tl → sys_inv sys' → clerks (t_sys t) !! c = Some ck → pending_call ck n →
  clerks sys' = <[c := ck']> (clerks (t_sys t)) → log sys' = log (t_sys t) ++ newl →
  returned sys' = returned (t_sys t) ++ newr → (∀ e, e ∈ newl → e_client e = c ∧ e_call e = n) →
  ((newr = [] ∧ pending_call ck' n) ∨
   (∃ e, newr = [e] ∧ e_client e = c ∧ e_call e = n ∧ e ∈ log sys' ∧ phase ck' = Idle)) →
  timed_inv (mkTSys sys' (t_now t) (t_starts t) (t_ops t ++ (record_op t <$> newr))) (extend tl newl (t_now t)).
Proof.
  intros [_ Hlog Hsort Hle Hstart Hops Hpend Hdone Hnd] Hsys' Hc Hp Hcl Hl Hr Hnewl Hor.
  destruct (Hstart c ck n Hc Hp) as (s & Hs & Hsn & Hse).
  assert (∀ e τ, (e, τ) ∈ extend tl newl (t_now t) → e_client e = c → e_call e = n → s ≤ τ) as Hse'.
  { intros e τ [Hin|[_ Heq]]%extend_elem ? ?; [by eapply Hse|]. simpl in Heq. lia. }
  assert (∀ a, a ∈ extend tl newl (t_now t) → a.2 ≤ t_now t) as Hle'.
  { intros a [?|[_ ->]]%extend_elem; [by apply Hle|lia]. }
  assert ((extend tl newl (t_now t)).*1 = log sys') as Hlog' by (by rewrite extend_log, Hlog, Hl).
  constructor; simpl; try done.
  - by apply extend_sorted.
  - rewrite Hcl. intros c' ck0 m [[<- <-]|[Hne Hc']]%lookup_insert_Some Hm.
    + destruct Hor as [[_ Hp']|(e & _ & _ & _ & _ & Hidle)]; [|unfold pending_call in Hm; by rewrite Hidle in Hm].
      rewrite (pending_fun _ _ _ Hp' Hm). by exists s.
    + destruct (Hstart c' ck0 m Hc' Hm) as (s' & ? & ? & Hs'). exists s'. split_and!; [done..|].
      intros e τ [Hin|[He _]]%extend_elem Hce Hne'; [by eapply Hs'|]. destruct (Hnewl e He) as [? _]. congruence.
  - rewrite Hr. apply Forall2_app.
    + eapply Forall2_impl; [exact Hops|]. intros o e. apply op_matches_mono.
    + destruct Hor as [[-> _]|(e & -> & Hce & Hne & Hin & _)]; [constructor|]. constructor; [|constructor].
      rewrite <-Hlog' in Hin. apply list_elem_of_fmap in Hin as ([e' τ] & -> & Hin). exists τ.
      unfold record_op. simpl. simpl in Hce, Hne. rewrite Hce, Hs. simpl.
      split_and!; [done|by eapply Hse'|by apply (Hle' (e', τ))|done|done].
  - intros e He. rewrite Hr, Hcl. destruct (decide (e_client e = c ∧ e_call e = n)) as [[Hce Hne]|Hother].
    + destruct Hor as [[_ Hp']|(e' & -> & Hce' & Hne' & Hin & _)].
      * right. exists ck'. rewrite Hce, Hne. by rewrite lookup_insert_eq.
      * left. rewrite (same_call _ e e' Hsys') by congruence. apply elem_of_app. right. by left.
    + rewrite Hl in He. apply elem_of_app in He as [He|He]; [|by destruct Hother; apply Hnewl].
      destruct (Hpend e He) as [?|(ck0 & Hck0 & Hp0)]; [left; apply elem_of_app; by left|right].
      destruct (decide (e_client e = c)) as [Heq|Hne]; [|exists ck0; by rewrite lookup_insert_ne].
      rewrite Heq, Hc in Hck0. injection Hck0 as <-. pose proof (pending_fun _ _ _ Hp Hp0). tauto.
  - intros e ck0. rewrite Hr, Hcl. intros He [[Heq <-]|[Hne Hc0]]%lookup_insert_Some Hp0.
    + destruct Hor as [[-> Hp']|(e' & _ & _ & _ & _ & Hidle)].
      * rewrite app_nil_r in He. pose proof (pending_fun _ _ _ Hp' Hp0) as Hen.
        apply (Hdone e ck He); [by rewrite <-Heq|by rewrite Hen].
      * unfold pending_call in Hp0. by rewrite Hidle in Hp0.
    + apply elem_of_app in He as [He|He]; [by eapply Hdone|].
      destruct Hor as [[-> _]|(e' & -> & Hce & _)]; [by apply not_elem_of_nil in He|].
      apply list_elem_of_singleton in He as ->. congruence.
  - rewrite Hr. destruct Hor as [[-> _]|(e & -> & Hce & Hne & _)]; [by rewrite app_nil_r|].
    apply NoDup_app. split_and!; [done| |apply NoDup_singleton]. intros x Hx ->%list_elem_of_singleton.
    apply (Hdone e ck Hx); [by rewrite Hce|by rewrite Hne].
Qed.

Lemma inv_timed_step t t' tl : timed_step t t' → timed_inv t tl → ∃ tl', timed_inv t' tl'.
Proof.
  destruct 1 as [t now Hle|t c ck cmd Hc Hph|t sys' new Hstep Hidle Hnew]; intros Hinv.
  - exists tl. by apply inv_tick.
  - exists tl. by apply inv_timed_invoke.
  - pose proof (inv_step _ _ Hstep (ti_sys _ _ Hinv)) as Hsys'. destruct t as [sys now starts ops]. simpl in *.
    assert (∀ c ck cmd n kv v, clerks sys !! c = Some ck → phase ck = Calling cmd n → serve (server sys) c n cmd = (kv, v) →
      ∀ e, e ∈ log_write (server sys) c n cmd v → e_client e = c ∧ e_call e = n) as Hlw.
    { intros c ck cmd n kv v _ _ _ e. unfold log_write. case_match; [|by intros ?%not_elem_of_nil].
      by intros ->%list_elem_of_singleton. }
    destruct Hstep as [sys c ck cmd Hc Hph|sys c ck cmd n kv' v Hc Hph Hs|sys c ck key n kv' v Hc Hph Hs
      |sys c ck cmd n kv' v Hc Hph Hw Hs|sys c ck cmd n v kv' b Hc Hph Hs|sys c ck cmd n v kv' b Hc Hph Hs]; simpl in *.
    1: { exfalso. specialize (Hidle c ck Hc Hph). rewrite lookup_insert_eq in Hidle.
         injection Hidle as Heq. apply (f_equal phase) in Heq. unfold invoke in Heq. simpl in Heq. congruence. }
    all: assert (pending_call ck n) as Hp by (unfold pending_call; by rewrite Hph).
    + assert (new = []) as -> by (apply (app_inv_head (returned sys)); by rewrite app_nil_r).
      eexists. eapply (inv_timed_move (mkTSys sys now starts ops) tl _ c ck ck n _ []); simpl; try done; [by rewrite insert_id|by eapply Hlw|].
      by left.
    + assert (new = [KvSrv.mkEvent c n (CGet key) v]) as -> by (by apply (app_inv_head (returned sys))).
      eexists. eapply (inv_timed_move (mkTSys sys now starts ops) tl _ c ck _ n); simpl; try done.
      * intros e ->%list_elem_of_singleton. done.
      * right. eexists. split_and!; [done..| |done]. apply elem_of_app. right. by left.
    + assert (new = []) as -> by (apply (app_inv_head (returned sys)); by rewrite app_nil_r).
      eexists. eapply (inv_timed_move (mkTSys sys now starts ops) tl _ c ck _ n _ []); simpl; try done; [by eapply Hlw|].
      left. split; [done|]. unfold pending_call, gotReply. by rewrite Hw.
    + assert (new = []) as -> by (apply (app_inv_head (returned sys)); by rewrite app_nil_r).
      eexists. eapply (inv_timed_move (mkTSys sys now starts ops) tl _ c ck ck n [] []); simpl; try done;
        [by rewrite insert_id|by rewrite app_nil_r|by intros ? ?%not_elem_of_nil|]. by left.
    + assert (new = [KvSrv.mkEvent c n cmd v]) as -> by (by apply (app_inv_head (returned sys))).
      eexists. eapply (inv_timed_move (mkTSys sys now starts ops) tl _ c ck _ n [] _); simpl; try done;
        [by rewrite app_nil_r|by intros ? ?%not_elem_of_nil|].
      right. eexists. split_and!; [done..| |done].
      pose proof (si_clerk _ (ti_sys _ _ Hinv) c ck Hc) as Hck. unfold clerk_ok in Hck. rewrite Hph in Hck. apply Hck.
Qed.

Lemma inv_timed_init ids now : timed_inv (timed_init ids now) [].
Proof.
  constructor; simpl; try done; try (by intros ? ?%not_elem_of_nil); try (by intros ? ? ?%not_elem_of_nil).
  - apply inv_init.
  - constructor.
  - intros c ck n [_ <-]%lookup_gset_to_gmap_Some. done.
  - constructor.
Qed.

Lemma reachable_timed_inv ids now t : timed_reachable ids now t → ∃ tl, timed_inv t tl.
Proof.
  intros Hr. assert (∃ tl, timed_inv (timed_init ids now) tl) as Hi by (exists []; apply inv_timed_init).
  revert Hi. unfold timed_reachable in Hr. generalize dependent (timed_init ids now). intros t0 Hr Hi.
  induction Hr as [|t0 t1 t2 Hs _ IH]; [done|]. apply IH. destruct Hi as [tl Hi]. by eapply inv_timed_step.
Qed.

(** ** Linearizability *)

Definition kv_op (e : KvSrv.Event) : KvInput * KvOutput := (cmd_input (e_cmd e), mkKvOutput (recorded_value e)).

Lemma replays_recorded m l m' e : replays m l m' → e ∈ l → recorded_value e = e_value e.
Proof.
  revert m. induction l as [|e0 l IH]; intros m; simpl; [by intros _ ?%not_elem_of_nil|].
  intros [Hv Hr] [->|Hin]%elem_of_cons; [|by eapply IH]. unfold recorded_value. rewrite Hv. by destruct (e_cmd e0).
Qed.

Lemma input_key cmd : in_Key (cmd_input cmd) = cmd_key cmd.
Proof. by destruct cmd. Qed.

(** The log is a sequential history of the store. *)
Lemma replays_store l m' : replays ∅ l m' → accepts kv_store_step ∅ (kv_op <$> l) = true.
Proof.
  intros Hr. apply store_accepts. intros k. rewrite lookup_empty.
  destruct (replays_accepts _ _ _ k Hr) as [Ha _]. rewrite lookup_empty in Ha. rewrite <-Ha. f_equal.
  unfold history_of. rewrite filter_of_fmap.
  rewrite (filter_ext_in _ (λ e, cmd_key (e_cmd e) = k)) by (intros e _; simpl; by rewrite input_key).
  apply list_fmap_ext. intros i e Hi. unfold kv_op. rewrite (replays_recorded _ _ _ e Hr); [done|].
  apply list_elem_of_lookup_2 in Hi. by apply list_elem_of_filter in Hi as [_ ?].
Qed.

(** The operations, paired with the events they record. *)
Lemma ops_linearizable (ops : list (Operation KvInput KvOutput)) (l ret : list KvSrv.Event) (tl : list (KvSrv.Event * Z)) m' :
  replays ∅ l m' → NoDup l → l ≡ₚ ret → tl.*1 = l →
  StronglySorted (λ a b : KvSrv.Event * Z, a.2 ≤ b.2) tl → Forall2 (op_matches tl) ops ret →
  history_linearizable kv_store_step ∅ ops.
Proof.
  intros Hr Hnd Hp Htl Hsort Hm.
  assert (∀ e τ τ', (e, τ) ∈ tl → (e, τ') ∈ tl → τ = τ') as Huniq.
  { intros e τ τ' [i Hi]%list_elem_of_lookup [j Hj]%list_elem_of_lookup. assert (i = j) as ->; [|congruence].
    eapply (NoDup_lookup tl.*1); [by rewrite Htl|by rewrite list_lookup_fmap, Hi|by rewrite list_lookup_fmap, Hj]. }
  apply (log_linearizable kv_store_step kv_op ops l ret); [done|done|by eapply replays_store| |].
  - eapply Forall2_impl; [exact Hm|]. intros o e (τ & _ & _ & Hin & Hout). unfold op_pair, kv_op. by rewrite Hin, Hout.
  - intros i j o e o' e' Ho He Ho' He' Hlt.
    destruct (Forall2_lookup_lr _ _ _ _ _ _ Hm Ho He) as (τ & Hτ & Hcall & _).
    destruct (Forall2_lookup_lr _ _ _ _ _ _ Hm Ho' He') as (τ' & Hτ' & Hcall' & _).
    destruct (before_total l e e') as [?|Hba]; [rewrite Hp; by eapply list_elem_of_lookup_2..| |done|exfalso].
    { intros <-. pose proof (Huniq _ _ _ Hτ Hτ'). lia. }
    rewrite <-Htl in Hba. apply before_lookup in Hba as (n & m & Hnm & Hn & Hm').
    apply list_lookup_fmap_Some in Hn as ([e1 t1] & He1 & Hn). apply list_lookup_fmap_Some in Hm' as ([e2 t2] & He2 & Hm').
    simpl in He1, He2. subst e1 e2.
    assert (t1 ≤ t2) by (apply (StronglySorted_before _ tl (e', t1) (e, t2) Hsort), before_lookup; eauto).
    pose proof (Huniq _ _ _ Hτ (list_elem_of_lookup_2 _ _ _ Hm')).
    pose proof (Huniq _ _ _ Hτ' (list_elem_of_lookup_2 _ _ _ Hn)). lia.
Qed.

Lemma idle_history ids now t :
  timed_reachable ids now t → (∀ c ck, clerks (t_sys t) !! c = Some ck → phase ck = Idle) →
  history_linearizable kv_store_step ∅ (t_ops t) ∧ timed (t_ops t).
Proof.
  intros Hr Hidle. destruct (reachable_timed_inv _ _ _ Hr) as [tl Hinv]. pose proof (ti_sys _ _ Hinv) as Hsys.
  assert (NoDup (log (t_sys t))) as Hnd by (eapply NoDup_fmap_1, (si_nodup _ Hsys)).
  split.
  - eapply (ops_linearizable (t_ops t) (log (t_sys t)) (returned (t_sys t)) tl);
      [apply (si_replays _ Hsys)|done| |apply (ti_log _ _ Hinv)|apply (ti_sorted _ _ Hinv)|apply (ti_ops _ _ Hinv)].
    apply NoDup_Permutation; [done|apply (ti_nodup _ _ Hinv)|]. intros e. split; [|apply (si_returned _ Hsys)]. intros He.
    destruct (ti_pending _ _ Hinv e He) as [?|(ck & Hck & Hp)]; [done|].
    unfold pending_call in Hp. by rewrite (Hidle _ _ Hck) in Hp.
  - apply Forall_forall. intros o [i Hi]%list_elem_of_lookup.
    destruct (Forall2_lookup_l _ _ _ _ _ (ti_ops _ _ Hinv) Hi) as (e & _ & τ & _ & Hle & _). lia.
Qed.

(** C12: The service is linearizable: whatever the network loses, once
    the clients' calls have returned, the operations they recorded, with the
    times at which each was called and returned, can be ordered so that the
    order respects real time and is a sequential history of a key/value
    store.  So the linearizability checker, run on the recorded history with
    [KvModel], accepts it whenever it answers. *)
Theorem kvsrv_linearizable fmtX fmtY fmtS sortByTime rangeSet ids now t :
  (∀ l, sortByTime l ≡ₚ l) → (∀ l, Sorted (λ a b, Less b a = false) (sortByTime l)) →
  timed_reachable ids now t → (∀ c ck, clerks (t_sys t) !! c = Some ck → phase ck = Idle) →
  history_linearizable kv_store_step ∅ (t_ops t) ∧
  (zlen (t_ops t) < 2 ^ 63 → t_ops t ≠ [] → ∀ sched b,
     CheckOperations fmtX fmtY fmtS sortByTime rangeSet KvModel (t_ops t) sched = Ret b → b = true).
Proof.
  intros Hperm Hsort Hr Hidle. destruct (idle_history _ _ _ Hr Hidle) as [Hlin Ht]. split; [done|].
  intros Hlen Hne sched b Hb. eapply (check_kv_answer fmtX fmtY fmtS sortByTime rangeSet Hperm Hsort); [done|by split|exact Hb|done].
Qed.

(** A run with a clock: an append whose first reply is lost. *)
Section example.
Definition appended : KvSrv.Event := KvSrv.mkEvent 5 0 (CAppend "k" "v") "".

Definition calling : Clerk := mkClerk 1 (Calling (CAppend "k" "v") 0).

Definition succeeding : Clerk := mkClerk 1 (Succeeding (CAppend "k" "v") 0 "").

Definition served : KVServer := mkKVServer {["k" := "v"]} {[getKey 5 0 := ""]}.

Definition timed1 : TSys := mkTSys (mkSys StartKVServer {[5 := calling]} [] []) 1 {[5 := 1]} [].

Definition timed2 : TSys := mkTSys (mkSys served {[5 := calling]} [appended] []) 1 {[5 := 1]} [].

Definition timed3 : TSys := mkTSys (mkSys served {[5 := succeeding]} [appended] []) 3 {[5 := 1]} [].

Definition timed4 : TSys :=
  mkTSys (mkSys (mkKVServer {["k" := "v"]} ∅) {[5 := mkClerk 1 Idle]} [appended] [appended]) 3 {[5 := 1]}
    [mkOperation 5 (mkKvInput 3 "k" "v") 1 (mkKvOutput "") 3].

Lemma busy_keeps (m' : gmap Z Clerk) (ck : Clerk) :
  phase ck ≠ Idle → ∀ c ck', ({[5 := ck]} : gmap Z Clerk) !! c = Some ck' → phase ck' = Idle → m' !! c = Some ck'.
Proof. intros Hph c ck' [_ <-]%lookup_singleton_Some. done. Qed.

Lemma timed4_reachable : timed_reachable {[5]} 1 timed4.
Proof.
  unfold timed_reachable, timed_init, sys_init. rewrite gset_to_gmap_singleton.
  eapply (rtc_l _ _ timed1).
  { exact (timed_invoke (mkTSys (mkSys StartKVServer {[5 := MakeClerk]} [] []) 1 ∅ []) 5 MakeClerk (CAppend "k" "v")
      eq_refl eq_refl). }
  eapply (rtc_l _ _ timed2).
  { apply (timed_move timed1 (t_sys timed2) []); [|by apply busy_keeps|done].
    by apply (sys_reply_lost (t_sys timed1) 5 calling (CAppend "k" "v") 0 served ""). }
  eapply rtc_l; [by apply (timed_tick timed2 3)|].
  eapply (rtc_l _ _ timed3).
  { apply (timed_move (mkTSys (t_sys timed2) 3 (t_starts timed2) (t_ops timed2)) (t_sys timed3) []); [|by apply busy_keeps|done].
    by apply (sys_reply_write (t_sys timed2) 5 calling (CAppend "k" "v") 0 served ""). }
  eapply (rtc_l _ _ timed4); [|apply rtc_refl].
  apply (timed_move timed3 (t_sys timed4) [appended]); [|by apply busy_keeps|done].
  by apply (sys_succeed (t_sys timed3) 5 succeeding (CAppend "k" "v") 0 "" (mkKVServer {["k" := "v"]} ∅) true).
Qed.

Lemma kvsrv_linearizable_witness : history_linearizable kv_store_step ∅ (t_ops timed4).
Proof.
  apply (kvsrv_linearizable show_in show_out show_st timeSort rangeAll {[5]} 1 timed4
    timeSort_perm timeSort_sorted timed4_reachable).
  intros c ck Hc. unfold timed4 in Hc. cbn [clerks t_sys] in Hc.
  apply lookup_singleton_Some in Hc as [_ <-]. reflexivity.
Defined.
End example.
