(* ===== verification/KvRaft.v ===== *)
(** * The replicated key/value service

    src/src/kvraft: the server (server.go), which replicates its operations
    through Raft, and the clerk (client.go).

    A handler ([Get], [Put], [Append]) is split where it waits: [..._enter] is
    the code up to the wait loop, [waitOp] one evaluation of the loop's
    condition and, once it is false, the rest of the handler.  The [applier]
    goroutine is a function from one [ApplyMsg] to the new state.
    [makeSnapshot] takes the lock only while it encodes, so encoding and the
    call of [rf.Snapshot] are separate functions.

    [LastOp] maps to pointers in the source; the objects are never written
    after they are stored, so they are values here. *)

From Stdlib Require Import Strings.Byte.
From stdpp Require Import prelude gmap strings list.
From S2P Require Import Prelude Gob Raft RaftNode RaftApply.
Local Open Scope Z_scope.

Record Op := mkOp {
  ClientId : Z;
  CallId : Z;
  GetValid : bool;
  PutValid : bool;
  AppendValid : bool;
  Key : string;
  Value : string;
}.

Record LastOperation := mkLastOperation { lo_CallId : Z; Result : string }.

#[export] Instance Op_eq_dec : EqDecision Op.
Proof. solve_decision. Defined.
#[export] Instance Op_countable : Countable Op.
Proof.
  refine (inj_countable'
    (λ o, (ClientId o, CallId o, GetValid o, PutValid o, AppendValid o, Key o, Value o))
    (λ '(c, i, g, p, a, k, v), mkOp c i g p a k v) _). by intros [].
Defined.
#[export] Instance LastOperation_eq_dec : EqDecision LastOperation.
Proof. solve_decision. Defined.
#[export] Instance LastOperation_countable : Countable LastOperation.
Proof.
  refine (inj_countable' (λ v, (lo_CallId v, Result v)) (λ p, mkLastOperation p.1 p.2) _). by intros [].
Defined.

Record KVServer := mkKVServer {
  me : Z;
  rf : Raft Op;
  dead : bool;
  maxraftstate : Z;
  Data : gmap string string;
  LastOp : gmap Z LastOperation;
  LastApplied : Z;
}.

Definition set_rf (x : Raft Op) (kv : KVServer) : KVServer :=
  mkKVServer (me kv) x (dead kv) (maxraftstate kv) (Data kv) (LastOp kv) (LastApplied kv).

(** Replace the replicated state. *)
Definition set_state (d : gmap string string) (l : gmap Z LastOperation) (i : Z) (kv : KVServer)
    : KVServer :=
  mkKVServer (me kv) (rf kv) (dead kv) (maxraftstate kv) d l i.

Inductive Err := OK | ErrNoKey | ErrWrongLeader.

Record PutAppendArgs := mkPutAppendArgs {
  pa_Key : string; pa_Value : string; pa_ClientID : Z; pa_CallID : Z }.
Record GetArgs := mkGetArgs { g_Key : string; g_ClientID : Z; g_CallID : Z }.
Record PutAppendReply := mkPutAppendReply { par_Err : Err }.
Record GetReply := mkGetReply { gr_Err : Err; gr_Value : string }.

(** ** RPC handlers *)
Section handlers.
Context `{Gob Z} `{Gob (list (LogEntry Op))}.
Implicit Types kv : KVServer.

Definition Check kv (clientId callId startTerm : Z) : bool :=
  let '(currentTerm, _) := GetState (rf kv) in
  (currentTerm =? startTerm) &&
  match LastOp kv !! clientId with
  | Some v => lo_CallId v <? callId
  | None => true
  end.

(** The test for an old request: [Some] is the answer to give, with the
    saved result if this is the client's last call. *)
Definition oldRequest kv (clientId callId : Z) : option (Err * string) :=
  match LastOp kv !! clientId with
  | Some v =>
      if callId <=? lo_CallId v then
        if callId =? lo_CallId v then Some (OK, Result v) else Some (ErrWrongLeader, "")
      else None
  | None => None
  end.

(** The handlers up to the wait loop: a reply, or the term the operation was
    started in; and the messages Raft sends. *)
Definition startOp kv (op : Op) : outcome (KVServer * (Err + Z) * list (Z * Rpc Op)) :=
  '(rf', (_, startTerm, isLeader), ms) ← Start (Some op) (rf kv);
  Ret (set_rf rf' kv, if (isLeader : bool) then inr startTerm else inl ErrWrongLeader, ms).

Definition Get_enter kv (args : GetArgs) : outcome (KVServer * (GetReply + Z) * list (Z * Rpc Op)) :=
  match oldRequest kv (g_ClientID args) (g_CallID args) with
  | Some (err, v) => Ret (kv, inl (mkGetReply err v), [])
  | None =>
      let op := mkOp (g_ClientID args) (g_CallID args) true false false (g_Key args) "" in
      '(kv, r, ms) ← startOp kv op;
      Ret (kv, match r with inl err => inl (mkGetReply err "") | inr t => inr t end, ms)
  end.

Definition Put_enter kv (args : PutAppendArgs)
    : outcome (KVServer * (PutAppendReply + Z) * list (Z * Rpc Op)) :=
  match oldRequest kv (pa_ClientID args) (pa_CallID args) with
  | Some (err, _) => Ret (kv, inl (mkPutAppendReply err), [])
  | None =>
      let op := mkOp (pa_ClientID args) (pa_CallID args) false true false (pa_Key args) (pa_Value args) in
      '(kv, r, ms) ← startOp kv op;
      Ret (kv, match r with inl err => inl (mkPutAppendReply err) | inr t => inr t end, ms)
  end.

Definition Append_enter kv (args : PutAppendArgs)
    : outcome (KVServer * (PutAppendReply + Z) * list (Z * Rpc Op)) :=
  match oldRequest kv (pa_ClientID args) (pa_CallID args) with
  | Some (err, _) => Ret (kv, inl (mkPutAppendReply err), [])
  | None =>
      let op := mkOp (pa_ClientID args) (pa_CallID args) false false true (pa_Key args) (pa_Value args) in
      '(kv, r, ms) ← startOp kv op;
      Ret (kv, match r with inl err => inl (mkPutAppendReply err) | inr t => inr t end, ms)
  end.

(** From the wait loop on; [None] while [Check] makes the handler wait. *)
Definition waitOp kv (clientId callId startTerm : Z) : option (Err * string) :=
  if Check kv clientId callId startTerm then None
  else
    let '(currentTerm, _) := GetState (rf kv) in
    if negb (currentTerm =? startTerm) then Some (ErrWrongLeader, "")
    else
      match LastOp kv !! clientId with
      | Some v => if lo_CallId v =? callId then Some (OK, Result v) else Some (ErrWrongLeader, "")
      | None => Some (ErrWrongLeader, "")
      end.

Definition Get_wait kv (args : GetArgs) (startTerm : Z) : option GetReply :=
  '(err, v) ← waitOp kv (g_ClientID args) (g_CallID args) startTerm; Some (mkGetReply err v).

Definition PutAppend_wait kv (args : PutAppendArgs) (startTerm : Z) : option PutAppendReply :=
  '(err, _) ← waitOp kv (pa_ClientID args) (pa_CallID args) startTerm; Some (mkPutAppendReply err).
Definition Put_wait kv (args : PutAppendArgs) := PutAppend_wait kv args.
Definition Append_wait kv (args : PutAppendArgs) := PutAppend_wait kv args.

Definition Kill kv : KVServer :=
  mkKVServer (me kv) (Raft.Kill (rf kv)) true (maxraftstate kv) (Data kv) (LastOp kv) (LastApplied kv).
Definition killed kv : bool := dead kv.
End handlers.

(** ** The state machine *)

(** The new data and the saved result of an operation that is executed. *)
Definition execute (data : gmap string string) (op : Op) : gmap string string * string :=
  if GetValid op then
    (data, match data !! Key op with Some v => v | None => "" end)
  else if PutValid op then (<[Key op := Value op]> data, "")
  else if AppendValid op then
    let value := match data !! Key op with Some v => v | None => "" end in
    (<[Key op := value +:+ Value op]> data, "")
  else (data, "").

(** [execOp]; the boolean tells whether the waiting handlers are woken. *)
Definition execOp (kv : KVServer) (op : Op) (index : Z) : outcome (KVServer * bool) :=
  if LastApplied kv >=? index then Panic (Explicit "kv.lastApplied >= m.CommandIndex")
  else if negb (LastApplied kv + 1 =? index) then Panic (Explicit "kv.lastApplied + 1 != m.CommandIndex")
  else
    let kv := set_state (Data kv) (LastOp kv) (LastApplied kv + 1) kv in
    if match LastOp kv !! ClientId op with Some v => lo_CallId v >=? CallId op | None => false end
    then Ret (kv, false)
    else
      let '(data, result) := execute (Data kv) op in
      Ret (set_state data (<[ClientId op := mkLastOperation (CallId op) result]> (LastOp kv))
             (LastApplied kv) kv, true).

(** ** Snapshots *)
Section snapshots.
Context `{Gob Z} `{Gob (list (LogEntry Op))} `{Gob (gmap string string)} `{Gob (gmap Z LastOperation)}.
Implicit Types kv : KVServer.

Definition encodeSnapshot (index : Z) (data : gmap string string) (lastOp : gmap Z LastOperation)
    : list byte :=
  let w := gob_enc [] index in
  let w := gob_enc w data in
  gob_enc w lastOp.

(** The locked part of one iteration of [makeSnapshot]: what it then passes
    to [rf.Snapshot], if the Raft state has grown enough. *)
Definition makeSnapshot kv : option (Z * list byte) :=
  if RaftStateSize (persister (rf kv)) >=? maxraftstate kv
  then Some (LastApplied kv, encodeSnapshot (LastApplied kv) (Data kv) (LastOp kv))
  else None.

(** Three [Decode] calls whose errors are only logged: a failed one leaves
    its variable as it was, and so do the ones after it. *)
Definition decodeLogged (snapshot : list byte) : Z * gmap string string * gmap Z LastOperation :=
  match gob_dec snapshot 0%nat with
  | None => (0, ∅, ∅)
  | Some (index, p) =>
      match gob_dec snapshot p with
      | None => (index, ∅, ∅)
      | Some (data, p) =>
          match gob_dec snapshot p with
          | None => (index, data, ∅)
          | Some (lastOp, _) => (index, data, lastOp)
          end
      end
  end.

Definition applySnapshot kv (snapshotIndex : Z) (snapshot : list byte) : outcome KVServer :=
  let '(index, data, lastOp) := decodeLogged snapshot in
  if negb (index =? snapshotIndex) then Panic (Explicit "applySnapshot():index != snapshotIndex")
  else if snapshotIndex <? LastApplied kv then Ret kv
  else Ret (set_state data lastOp snapshotIndex kv).

Definition decodeSnapshot (snapshot : list byte)
    : option (Z * gmap string string * gmap Z LastOperation) :=
  '(lastApplied, p) ← gob_dec snapshot 0%nat;
  '(data, p) ← gob_dec snapshot p;
  '(lastOp, _) ← gob_dec snapshot p;
  Some (lastApplied, data, lastOp).

Definition restoreState kv (snapshot : list byte) : KVServer :=
  if zlen snapshot <? 1 then kv
  else match decodeSnapshot snapshot with
       | None => kv
       | Some (lastApplied, data, lastOp) => set_state data lastOp lastApplied kv
       end.

(** One message of [applier].  A nil command fails the type assertion
    [m.Command.(Op)]. *)
Definition applier kv (m : ApplyMsg Op) : outcome KVServer :=
  if CommandValid m then
    match msg_Command m with
    | Some op => '(kv, _) ← execOp kv op (CommandIndex m); Ret kv
    | None => Panic (Explicit "interface conversion: interface {} is nil, not kvraft.Op")
    end
  else if SnapshotValid m then applySnapshot kv (SnapshotIndex m) (msg_Snapshot m)
  else Ret kv.

Fixpoint appliers kv (ms : list (ApplyMsg Op)) : outcome KVServer :=
  match ms with
  | [] => Ret kv
  | m :: ms => kv ← applier kv m; appliers kv ms
  end.

Definition StartKVServer (n : nat) (i : Z) (ps : Persister) (maxraftstate : Z) : outcome KVServer :=
  rf ← Make n i ps;
  let kv := mkKVServer i rf false maxraftstate ∅ ∅ 0 in
  Ret (restoreState kv (ReadSnapshot ps)).
End snapshots.

(** ** Clerk *)

Record Clerk := mkClerk {
  servers : nat;
  ck_ClientID : Z;
  NextCallID : Z;
  lastLeader : Z;
}.

Definition InvalidServer : Z := -1.

Definition MakeClerk (n : nat) (nrand : Z) : Clerk := mkClerk n nrand 0 InvalidServer.

(** One round of the clerk's loop.  [call i] is the outcome of the RPC to
    server [i]: [Some v] if it returned in time with [Err == OK]; [first] is
    the call to [lastLeader] and may differ from the later call to it. *)
Section clerk.
Context {R : Type}.

Fixpoint tryServers (call : Z → option R) (js : list Z) : option (Z * R) :=
  match js with
  | [] => None
  | i :: js => match call i with Some v => Some (i, v) | None => tryServers call js end
  end.

Definition clerkRound (ck : Clerk) (first : option R) (call : Z → option R) : option (Clerk * R) :=
  match (if lastLeader ck =? InvalidServer then None else first) with
  | Some v => Some (ck, v)
  | None =>
      match tryServers call (seqZ 0 (Z.of_nat (servers ck))) with
      | Some (i, v) => Some (mkClerk (servers ck) (ck_ClientID ck) (NextCallID ck) i, v)
      | None => None
      end
  end.

(** The loop: rounds until one succeeds; [None] if none of them did. *)
Fixpoint clerkLoop (ck : Clerk) (rounds : list (option R * (Z → option R))) : option (Clerk * R) :=
  match rounds with
  | [] => None
  | (first, call) :: rounds =>
      match clerkRound ck first call with
      | Some r => Some r
      | None => clerkLoop ck rounds
      end
  end.

(** [Get] and [PutAppend]: the arguments of the RPC carry the call id taken
    from [NextCallID]. *)
Definition clerkOp (ck : Clerk) (rounds : Z → list (option R * (Z → option R))) : option (Clerk * R) :=
  let callID := NextCallID ck in
  let ck := mkClerk (servers ck) (ck_ClientID ck) (NextCallID ck + 1) (lastLeader ck) in
  clerkLoop ck (rounds callID).
End clerk.
