(* ===== verification/KvRaftProps.v ===== *)
(** * The replicated key/value service: theorems

    Replicas that apply the same committed log agree, whether they got there
    by commands or by snapshots; a call takes effect at most once however
    often it appears in the log; a handler that answers [OK] answers with the
    result of the call it was asked for. *)

From Stdlib Require Import Strings.Byte.
From stdpp Require Import prelude gmap countable strings list.
From S2P Require Import Prelude Gob Raft RaftNode RaftApply RaftExample KvRaft.
Local Open Scope Z_scope.

(** ** The log as a specification *)

Definition machine : Type := gmap string string * gmap Z LastOperation.

Definition duplicate (m : machine) (op : Op) : bool :=
  match m.2 !! ClientId op with Some v => lo_CallId v >=? CallId op | None => false end.

(** One committed operation. *)
Definition exec1 (m : machine) (op : Op) : machine :=
  if duplicate m op then m
  else ((execute m.1 op).1, <[ClientId op := mkLastOperation (CallId op) (execute m.1 op).2]> m.2).

Definition run_ops (ops : list Op) : machine := foldl exec1 (∅, ∅) ops.

Lemma run_ops_snoc ops op : run_ops (ops ++ [op]) = exec1 (run_ops ops) op.
Proof. unfold run_ops. by rewrite foldl_app. Qed.

Definition state (kv : KVServer) : machine := (Data kv, LastOp kv).

Lemma execOp_next kv op :
  ∃ kv' b, execOp kv op (LastApplied kv + 1) = Ret (kv', b) ∧ state kv' = exec1 (state kv) op ∧
    LastApplied kv' = LastApplied kv + 1 ∧ b = negb (duplicate (state kv) op).
Proof.
  unfold execOp. destruct (_ >=? _) eqn:?; [zlia|]. rewrite Z.eqb_refl. simpl.
  unfold exec1, duplicate, state. simpl.
  destruct (match LastOp kv !! ClientId op with Some _ => _ | None => _ end); [by eexists _, _|].
  destruct (execute (Data kv) op) as [d r]. by eexists _, _.
Qed.

(** ** At most once *)

(** The call id of [op] is above every earlier one of its client. *)
Definition newer (before : list Op) (op : Op) : Prop :=
  ∀ op', op' ∈ before → ClientId op' = ClientId op → CallId op' < CallId op.

#[export] Instance newer_dec before op : Decision (newer before op).
Proof.
  refine (cast_if (decide (Forall (λ op', ClientId op' = ClientId op → CallId op' < CallId op) before)));
    unfold newer; by rewrite <-Forall_forall.
Defined.

Lemma not_newer before op :
  ¬ newer before op → ∃ op', op' ∈ before ∧ ClientId op' = ClientId op ∧ CallId op ≤ CallId op'.
Proof.
  intros Hn. destruct (decide (Exists (λ op', ClientId op' = ClientId op ∧ CallId op ≤ CallId op') before))
    as [(op' & Hin & Hc & Hle)%Exists_exists|Hno]; [by exists op'|].
  destruct Hn. intros op' Hin Hc. apply Z.nle_gt. intros Hle. apply Hno, Exists_exists. by exists op'.
Qed.

(** The operations of a log that count: those with a newer call id. *)
Fixpoint effective (before ops : list Op) : list Op :=
  match ops with
  | [] => []
  | op :: ops => (if decide (newer before op) then [op] else []) ++ effective (before ++ [op]) ops
  end.

Lemma effective_app before ops1 ops2 :
  effective before (ops1 ++ ops2) = effective before ops1 ++ effective (before ++ ops1) ops2.
Proof.
  revert before. induction ops1 as [|op ops1 IH]; intros before; simpl; [by rewrite app_nil_r|].
  rewrite IH, <-!app_assoc. done.
Qed.

Lemma effective_elem ops op : op ∈ effective [] ops → op ∈ ops.
Proof.
  induction ops as [|op' ops IH] using rev_ind; [done|]. rewrite effective_app, !elem_of_app. simpl.
  rewrite app_nil_r. intros [?|Hin]; [auto|]. right. case_decide; [done|by apply not_elem_of_nil in Hin].
Qed.

(** The table of last operations holds the greatest call id of each client. *)
Lemma run_ops_last ops c :
  match (run_ops ops).2 !! c with
  | Some v => (∃ op, op ∈ ops ∧ ClientId op = c ∧ CallId op = lo_CallId v) ∧
      ∀ op, op ∈ ops → ClientId op = c → CallId op ≤ lo_CallId v
  | None => ∀ op, op ∈ ops → ClientId op ≠ c
  end.
Proof.
  induction ops as [|op ops IH] using rev_ind.
  { unfold run_ops. simpl. rewrite lookup_empty. by intros ? ?%not_elem_of_nil. }
  assert (∀ op', op' ∈ ops ++ [op] ↔ op' ∈ ops ∨ op' = op) as Hin
    by (intros op'; by rewrite elem_of_app, list_elem_of_singleton).
  rewrite run_ops_snoc. unfold exec1, duplicate. destruct (decide (ClientId op = c)) as [<-|Hne].
  - destruct ((run_ops ops).2 !! ClientId op) as [v|] eqn:Hv.
    + destruct IH as [(op0 & ? & ? & ?) Hmax]. destruct (lo_CallId v >=? CallId op) eqn:Hc.
      * rewrite Hv. setoid_rewrite Hin. split; [by exists op0; auto|].
        intros op1 [?| ->] ?; [by apply Hmax|zlia].
      * simpl. rewrite lookup_insert_eq. setoid_rewrite Hin. split; [by exists op; auto|]. simpl.
        intros op1 [Hop| ->] Heq; [|done]. specialize (Hmax op1 Hop Heq). zlia.
    + simpl. rewrite lookup_insert_eq. setoid_rewrite Hin. split; [by exists op; auto|]. simpl.
      intros op1 [Hop| ->] Heq; [|done]. by destruct (IH op1).
  - match goal with |- context [(if ?b then ?x else ?y).2 !! c] => set (m := if b then x else y) end. assert (m.2 !! c = (run_ops ops).2 !! c) as ->.
    { subst m. repeat case_match; simpl; by rewrite ?lookup_insert_ne by done. }
    clear m. destruct ((run_ops ops).2 !! c) as [v|]; setoid_rewrite Hin.
    + destruct IH as [(op0 & ? & ? & ?) Hmax]. split; [by exists op0; auto|].
      intros op1 [?| ->] ?; [by apply Hmax|done].
    + intros op1 [?| ->]; [by apply IH|done].
Qed.

Lemma duplicate_newer ops op : duplicate (run_ops ops) op = negb (bool_decide (newer ops op)).
Proof.
  pose proof (run_ops_last ops (ClientId op)) as Hlast. unfold duplicate.
  destruct ((run_ops ops).2 !! ClientId op) as [v|].
  - destruct Hlast as [(op0 & Hin & Hc & Hid) Hmax]. case_bool_decide as Hn; simpl.
    + specialize (Hn op0 Hin Hc). zlia.
    + apply not_false_iff_true. intros Hlt. apply Hn. intros op1 Hin1 Hc1.
      specialize (Hmax op1 Hin1 Hc1). zlia.
  - rewrite bool_decide_true; [done|]. intros op1 Hin Hc. by destruct (Hlast op1 Hin).
Qed.

Definition execute_all (ops : list Op) : gmap string string := foldl (λ d op, (execute d op).1) ∅ ops.

(** At most once: the data of a replica is the effect of the calls
    whose id is newer than all before them, each once and in log order; a
    call retried into the log several times is executed a single time. *)
Theorem kvraft_at_most_once ops :
  (run_ops ops).1 = execute_all (effective [] ops) ∧
  NoDup ((λ op, (ClientId op, CallId op)) <$> effective [] ops) ∧
  (∀ op, op ∈ ops → ∃ op', op' ∈ effective [] ops ∧ ClientId op' = ClientId op ∧ CallId op ≤ CallId op').
Proof.
  induction ops as [|op ops (IH1 & IH2 & IH3)] using rev_ind.
  { split_and!; [done|apply NoDup_nil_2|by intros ? ?%not_elem_of_nil]. }
  rewrite run_ops_snoc, effective_app. simpl. rewrite app_nil_r. unfold exec1.
  rewrite duplicate_newer. case_decide as Hn.
  - rewrite bool_decide_true by done. simpl. split_and!.
    + unfold execute_all in *. by rewrite foldl_app, <-IH1.
    + rewrite fmap_app. apply NoDup_app. split_and!; [done| |apply NoDup_singleton].
      intros x (op' & -> & Hin%effective_elem)%list_elem_of_fmap Heq%list_elem_of_singleton.
      injection Heq as Hc Hi. specialize (Hn op' Hin Hc). lia.
    + intros op' [Hin| ->%list_elem_of_singleton]%elem_of_app.
      * destruct (IH3 op' Hin) as (op1 & ? & ? & ?). exists op1. rewrite elem_of_app. auto.
      * exists op. rewrite elem_of_app, list_elem_of_singleton. split_and!; [by right|done|lia].
  - rewrite bool_decide_false by done. simpl. rewrite app_nil_r. split_and!; [done..|].
    intros op' [Hin| ->%list_elem_of_singleton]%elem_of_app; [by apply IH3|].
    apply not_newer in Hn as (op1 & Hin & Hc & Hle).
    destruct (IH3 op1 Hin) as (op2 & ? & ? & ?). exists op2. split_and!; [done|congruence|lia].
Qed.

(** ** Replicas and snapshots *)
Section replicas.
Context `{GobLaws Z} `{GobLaws (gmap string string)} `{GobLaws (gmap Z LastOperation)}.
Implicit Types (kv : KVServer) (ops : list Op).

(** A replica is where the first [LastApplied] operations of the log lead. *)
Definition follows ops kv : Prop :=
  0 ≤ LastApplied kv ≤ zlen ops ∧ state kv = run_ops (take (Z.to_nat (LastApplied kv)) ops).

(** The snapshot of the log up to [index]. *)
Definition snapshot_at ops (index : Z) : list byte :=
  let m := run_ops (take (Z.to_nat index) ops) in encodeSnapshot index m.1 m.2.

(** What Raft may deliver of the log [ops]; raft index 1 is the first
    operation. *)
Definition msg_of ops (m : ApplyMsg Op) : Prop :=
  if CommandValid m then
    1 ≤ CommandIndex m ∧ ∃ op, ops !! Z.to_nat (CommandIndex m - 1) = Some op ∧ msg_Command m = Some op
  else if SnapshotValid m then
    0 ≤ SnapshotIndex m ≤ zlen ops ∧ msg_Snapshot m = snapshot_at ops (SnapshotIndex m)
  else True.

Lemma encodeSnapshot_decodes index d l :
  gob_dec (encodeSnapshot index d l) 0%nat = Some (index, length (gob_enc [] index)) ∧
  gob_dec (encodeSnapshot index d l) (length (gob_enc [] index)) =
    Some (d, length (gob_enc (gob_enc [] index) d)) ∧
  gob_dec (encodeSnapshot index d l) (length (gob_enc (gob_enc [] index) d)) =
    Some (l, length (encodeSnapshot index d l)).
Proof.
  unfold encodeSnapshot. set (w1 := gob_enc [] index). set (w2 := gob_enc w1 d). set (w3 := gob_enc w2 l).
  assert (w2 `prefix_of` w3) as H23 by apply gob_enc_prefix.
  assert (w1 `prefix_of` w2) as H12 by apply gob_enc_prefix.
  split_and!; [|by apply gob_dec_enc|by apply gob_dec_enc].
  apply (gob_dec_enc [] index). by etrans.
Qed.

Lemma decodeSnapshot_encode index d l :
  decodeSnapshot (encodeSnapshot index d l) = Some (index, d, l) ∧
  decodeLogged (encodeSnapshot index d l) = (index, d, l) ∧ encodeSnapshot index d l ≠ [].
Proof.
  destruct (encodeSnapshot_decodes index d l) as (E1 & E2 & E3).
  unfold decodeSnapshot, decodeLogged. rewrite E1. simpl. rewrite E2. simpl. rewrite E3.
  split_and!; [done|done|apply gob_enc_ne_nil].
Qed.

Lemma take_snoc ops (k : Z) op :
  0 ≤ k → ops !! Z.to_nat k = Some op →
  take (Z.to_nat (k + 1)) ops = take (Z.to_nat k) ops ++ [op].
Proof. intros Hk Hop. replace (Z.to_nat (k + 1)) with (S (Z.to_nat k)) by lia. by apply take_S_r. Qed.

Lemma applier_follows ops kv m s :
  follows ops kv → msg_of ops m → consume1 (LastApplied kv) m = Some s →
  ∃ kv', applier kv m = Ret kv' ∧ follows ops kv' ∧ LastApplied kv' = s.
Proof.
  intros [Hr Hst] Hm Hc. unfold msg_of, consume1, applier in *. destruct (CommandValid m).
  - destruct (_ =? _) eqn:Heq; [|done]. injection Hc as <-. destruct Hm as (? & op & Hop & ->).
    apply Z.eqb_eq in Heq. rewrite <-Heq in *. rewrite Z.add_simpl_r in Hop.
    destruct (execOp_next kv op) as (kv' & b & -> & Hst' & HLA & _). rewrite bind_Ret.
    exists kv'. split_and!; [done| |done]. split.
    + rewrite HLA. apply lookup_lt_Some in Hop. lia.
    + rewrite Hst', HLA, Hst, (take_snoc _ _ op) by (done || lia). by rewrite run_ops_snoc.
  - destruct (SnapshotValid m); [|by exists kv; simplify_eq]. injection Hc as <-.
    destruct Hm as [Hi ->]. unfold applySnapshot, snapshot_at.
    destruct (decodeSnapshot_encode (SnapshotIndex m) (run_ops (take (Z.to_nat (SnapshotIndex m)) ops)).1
      (run_ops (take (Z.to_nat (SnapshotIndex m)) ops)).2) as (_ & -> & _).
    rewrite Z.eqb_refl. simpl. destruct (_ <? _) eqn:?.
    + exists kv. split_and!; [done|done|zlia].
    + eexists. split_and!; [done| |simpl; zlia]. split; [done|]. unfold state. simpl. symmetry. apply surjective_pairing.
Qed.

(** C18: replication.  A replica fed any stream that respects Raft's
    delivery contract ([consume]) and carries the commands and snapshots of
    one log never panics, and ends in the state that log leads to: replicas
    with equal [LastApplied] have equal data and equal duplicate tables. *)
Theorem kvraft_replicas_agree ops kv ms s :
  follows ops kv → Forall (msg_of ops) ms → consume (LastApplied kv) ms = Some s →
  ∃ kv', appliers kv ms = Ret kv' ∧ LastApplied kv' = s ∧
    state kv' = run_ops (take (Z.to_nat s) ops).
Proof.
  intros Hf Hms Hc.
  cut (∃ kv', appliers kv ms = Ret kv' ∧ follows ops kv' ∧ LastApplied kv' = s).
  { intros (kv' & ? & [_ ?] & <-). by exists kv'. }
  revert kv Hf Hc. induction Hms as [|m ms Hm _ IH]; intros kv Hf Hc; simpl in *.
  { exists kv. by simplify_eq. }
  destruct (consume1 _ m) as [s1|] eqn:Hm1; simplify_eq/=.
  destruct (applier_follows _ _ _ _ Hf Hm Hm1) as (kv1 & -> & Hf1 & <-). by apply IH.
Qed.

(** a snapshot of a replica meets Raft's contract (it starts with the
    index it covers), and a server that restarts from it is where the
    replica was. *)
Theorem kvraft_snapshot_restores ops kv kv0 i snap :
  follows ops kv → makeSnapshot kv = Some (i, snap) →
  snap_ok i snap ∧ state (restoreState kv0 snap) = state kv ∧
  LastApplied (restoreState kv0 snap) = LastApplied kv.
Proof.
  intros Hf Hmk. unfold makeSnapshot in Hmk. destruct (_ >=? _); [|done]. injection Hmk as <- <-.
  destruct (encodeSnapshot_decodes (LastApplied kv) (Data kv) (LastOp kv)) as (E1 & _).
  destruct (decodeSnapshot_encode (LastApplied kv) (Data kv) (LastOp kv)) as (E & _ & Hne).
  split.
  - right. split; [done|]. eexists. exact E1.
  - unfold restoreState. rewrite E. destruct (zlen _ <? 1) eqn:Hl; [|done].
    destruct (encodeSnapshot _ _ _); [done|rewrite length_cons in Hl; zlia].
Qed.
End replicas.

(** ** What a handler answers *)
Section answers.
Implicit Types (kv : KVServer) (ops : list Op).

(** The entry of the table for a client comes from a position of the log
    where the call was newer than all before, and holds its result there. *)
Lemma run_ops_entry ops c v :
  (run_ops ops).2 !! c = Some v →
  ∃ (k : nat) op, ops !! k = Some op ∧ ClientId op = c ∧ CallId op = lo_CallId v ∧
    newer (take k ops) op ∧ Result v = (execute (run_ops (take k ops)).1 op).2.
Proof.
  induction ops as [|op ops IH] using rev_ind; [done|]. rewrite run_ops_snoc. unfold exec1.
  rewrite duplicate_newer. case_bool_decide as Hn; simpl; intros Hv.
  - apply lookup_insert_Some in Hv as [[<- <-]|[Hne Hv]].
    + exists (length ops), op. rewrite lookup_app_r, Nat.sub_diag, take_app_length by done. by split_and!.
    + destruct (IH Hv) as (k & op' & Hk & ? & ? & ? & ?). exists k, op'.
      rewrite take_app_le by (apply lookup_lt_Some in Hk; lia).
      split_and!; try done. by apply lookup_app_l_Some.
  - destruct (IH Hv) as (k & op' & Hk & ? & ? & ? & ?). exists k, op'.
    rewrite take_app_le by (apply lookup_lt_Some in Hk; lia).
    split_and!; try done. by apply lookup_app_l_Some.
Qed.

(** a waiting handler that answers [OK] answers for the very call it
    was asked for: the call is in the applied log, it took effect there,
    and the value is the result it had at that point.  The same holds of
    an answer given from the duplicate table without waiting. *)
Theorem kvraft_answers_sound ops kv clientId callId startTerm v :
  follows ops kv →
  waitOp kv clientId callId startTerm = Some (OK, v) ∨ oldRequest kv clientId callId = Some (OK, v) →
  ∃ (k : nat) op, Z.of_nat k < LastApplied kv ∧ ops !! k = Some op ∧ ClientId op = clientId ∧
    CallId op = callId ∧ newer (take k ops) op ∧ v = (execute (run_ops (take k ops)).1 op).2.
Proof.
  intros [Hr Hst] Hans.
  assert (∃ lo, LastOp kv !! clientId = Some lo ∧ lo_CallId lo = callId ∧ Result lo = v)
    as (lo & Hlo & <- & <-).
  { unfold waitOp, oldRequest, Check in Hans. simpl in Hans.
    destruct (LastOp kv !! clientId) as [lo|]; destruct Hans as [Hans|Hans];
      repeat case_match; simplify_eq; exists lo; split_and!; try done; zlia. }
  assert ((run_ops (take (Z.to_nat (LastApplied kv)) ops)).2 !! clientId = Some lo) as Hlo'
    by (by rewrite <-Hst).
  destruct (run_ops_entry _ _ _ Hlo') as (k & op & Hk & ? & ? & Hn & ->).
  apply lookup_take_Some in Hk as [Hk Hlt]. rewrite take_take, Nat.min_l in Hn by lia.
  rewrite take_take, Nat.min_l by lia. exists k, op. split_and!; try done. lia.
Qed.

(** no handler waits for a call that was applied: whatever the term,
    once the log position of the call is applied the wait loop ends. *)
Theorem kvraft_wait_ends ops kv (k : nat) op startTerm :
  follows ops kv → Z.of_nat k < LastApplied kv → ops !! k = Some op →
  is_Some (waitOp kv (ClientId op) (CallId op) startTerm).
Proof.
  intros [Hr Hst] Hk Hop. pose proof (run_ops_last (take (Z.to_nat (LastApplied kv)) ops) (ClientId op)) as Hl.
  rewrite <-Hst in Hl. simpl in Hl. assert (op ∈ take (Z.to_nat (LastApplied kv)) ops) as Hin.
  { apply list_elem_of_lookup. exists k. apply lookup_take_Some. split; [done|lia]. }
  unfold waitOp, Check. simpl. destruct (LastOp kv !! ClientId op) as [v|]; [|by destruct (Hl op)].
  destruct Hl as [_ Hmax]. specialize (Hmax op Hin eq_refl).
  destruct (lo_CallId v <? CallId op) eqn:?; [zlia|]. rewrite andb_false_r. repeat case_match; by eexists.
Qed.
End answers.

(** ** The clerk *)
Section clerk.
Context {R : Type}.
Implicit Types (rounds : list (option R * (Z → option R))).

Lemma tryServers_Some (call : Z → option R) js i v :
  tryServers call js = Some (i, v) → i ∈ js ∧ call i = Some v.
Proof.
  induction js as [|j js IH]; simpl; [done|]. destruct (call j) eqn:Hj; intros; simplify_eq.
  - split; [by left|done].
  - destruct IH; [done|]. split; [by right|done].
Qed.

Lemma tryServers_None (call : Z → option R) js i :
  tryServers call js = None → i ∈ js → call i = None.
Proof.
  induction js as [|j js IH]; simpl; [by intros _ ?%not_elem_of_nil|].
  destruct (call j) eqn:Hj; [done|]. intros Hn [->|?]%elem_of_cons; auto.
Qed.

Lemma clerkLoop_sound ck rounds ck' v :
  clerkLoop ck rounds = Some (ck', v) →
  servers ck' = servers ck ∧ ck_ClientID ck' = ck_ClientID ck ∧ NextCallID ck' = NextCallID ck ∧
  ∃ first call, (first, call) ∈ rounds ∧
    (first = Some v ∧ ck' = ck ∨
     0 ≤ lastLeader ck' < Z.of_nat (servers ck) ∧ call (lastLeader ck') = Some v).
Proof.
  induction rounds as [|[first call] rounds IH]; simpl; [done|]. unfold clerkRound.
  destruct (if lastLeader ck =? InvalidServer then None else first) as [w|] eqn:Hf.
  - intros. simplify_eq. split_and!; [done..|]. exists first, call. split; [by left|left].
    destruct (_ =? _); simplify_eq; done.
  - destruct (tryServers call _) as [[i w]|] eqn:Ht; intros Heq.
    + simplify_eq. apply tryServers_Some in Ht as [?%elem_of_seqZ ?]. split_and!; [done..|].
      exists first, call. split; [by left|right]. simpl. split; [lia|done].
    + destruct (IH Heq) as (? & ? & ? & first' & call' & Hin & ?). split_and!; [done..|].
      exists first', call'. split; [by right|done].
Qed.

(** the clerk.  Each operation uses a fresh call id; what it returns
    is the value of an RPC that some server answered with [OK]; and it
    returns as soon as a round contains a server that answers. *)
Theorem clerk_returns ck (rounds : Z → list (option R * (Z → option R))) :
  (∀ ck' v, clerkOp ck rounds = Some (ck', v) →
     NextCallID ck' = NextCallID ck + 1 ∧ ck_ClientID ck' = ck_ClientID ck ∧
     ∃ first call, (first, call) ∈ rounds (NextCallID ck) ∧
       (first = Some v ∨ ∃ i, 0 ≤ i < Z.of_nat (servers ck) ∧ call i = Some v)) ∧
  (∀ first call i v, (first, call) ∈ rounds (NextCallID ck) →
     0 ≤ i < Z.of_nat (servers ck) → call i = Some v → is_Some (clerkOp ck rounds)).
Proof.
  unfold clerkOp. split.
  - intros ck' v (? & ? & ? & first & call & Hin & Hor)%clerkLoop_sound. split_and!; [done..|].
    exists first, call. split; [done|]. destruct Hor as [[? _]|[? ?]]; [by left|right]. by eexists.
  - intros first call i v Hin Hi Hv. set (ck1 := mkClerk _ _ _ _).
    assert (servers ck1 = servers ck) as Hs by done. clearbody ck1.
    induction (rounds (NextCallID ck)) as [|[f c] l IH]; [by apply not_elem_of_nil in Hin|]. simpl.
    destruct (clerkRound ck1 f c) as [r|] eqn:Hr; [by eexists|].
    apply elem_of_cons in Hin as [Heq|Hin]; [|by apply IH]. injection Heq as <- <-.
    unfold clerkRound in Hr. destruct (if _ =? _ then _ else _); [done|].
    destruct (tryServers call _) as [[? ?]|] eqn:Ht; [done|].
    rewrite (tryServers_None _ _ i Ht) in Hv; [done|]. apply elem_of_seqZ. rewrite Hs. lia.
Qed.
End clerk.

(** ** Concrete instances *)
Section instances.
#[local] Instance DataGob : Gob (gmap string string) := CountableGob _.
#[local] Instance DataGobLaws : GobLaws (gmap string string) := CountableGobLaws _.
#[local] Instance LastOpGob : Gob (gmap Z LastOperation) := CountableGob _.
#[local] Instance LastOpGobLaws : GobLaws (gmap Z LastOperation) := CountableGobLaws _.

(** Client 1 puts, appends, retries the append. *)
Definition put1 : Op := mkOp 1 0 false true false "k" "a".
Definition app1 : Op := mkOp 1 1 false false true "k" "b".
Definition ops1 : list Op := [put1; app1; app1].

Definition server0 : KVServer :=
  mkKVServer 0 (mkRaft 3 MakePersister 0 false 1 FOLLOWER Unvote true true false [zeroEntry]
                  0 0 [0; 0; 0] [0; 0; 0] 0 [] 0 false ∅) false 0 ∅ ∅ 0.

Definition stream1 : list (ApplyMsg Op) :=
  [mkApplyMsg true (Some put1) 1 false [] 0 0; mkApplyMsg false None 0 true (snapshot_at ops1 2) 1 2;
   mkApplyMsg true (Some app1) 3 false [] 0 0].

Definition server3 : KVServer :=
  set_state (run_ops ops1).1 (run_ops ops1).2 3 server0.

Lemma server0_follows : follows ops1 server0.
Proof. split; [simpl; lia|done]. Qed.

Lemma server3_follows : follows ops1 server3.
Proof. split; [simpl; lia|]. symmetry. apply surjective_pairing. Qed.

Example ops1_data : (run_ops ops1).1 !! "k" = Some "ab".
Proof. vm_compute. reflexivity. Qed.

Lemma kvraft_replicas_agree_witness :
  ∃ kv', appliers server0 stream1 = Ret kv' ∧ LastApplied kv' = 3 ∧ state kv' = run_ops ops1.
Proof.
  destruct (kvraft_replicas_agree ops1 server0 stream1 3) as (kv' & ? & ? & ?);
    [apply server0_follows| |reflexivity|by exists kv'].
  repeat constructor; try (eexists; split; reflexivity); simpl; lia.
Defined.

Lemma kvraft_snapshot_restores_witness :
  ∃ i snap, makeSnapshot server3 = Some (i, snap) ∧ state (restoreState server0 snap) = state server3.
Proof.
  destruct (makeSnapshot server3) as [[i snap]|] eqn:Hmk; [|by vm_compute in Hmk].
  exists i, snap. split; [reflexivity|].
  apply (kvraft_snapshot_restores ops1 server3 server0 i snap server3_follows Hmk).
Defined.

Lemma kvraft_answers_sound_witness :
  ∃ (k : nat) op, ops1 !! k = Some op ∧ ClientId op = 1 ∧ CallId op = 1.
Proof.
  destruct (kvraft_answers_sound ops1 server3 1 1 1 "") as (k & op & _ & ? & ? & ? & _);
    [apply server3_follows|left; vm_compute; reflexivity|by exists k, op].
Defined.

Lemma kvraft_wait_ends_witness : is_Some (waitOp server3 1 1 1).
Proof. apply (kvraft_wait_ends ops1 server3 2 app1 1 server3_follows); [simpl; lia|reflexivity]. Defined.
End instances.
