(* ===== verification/KvSystem.v ===== *)
(** * The replicated key/value service as a whole

    The servers of KvRaft.v on the Raft cluster of RaftNet.v, as an instance of
    Replicated.v: the state machine is the log specification of KvRaftProps.v.
    The service takes no snapshots ([maxraftstate] is -1, so [StartKVServer]
    does not start [makeSnapshot]).  Raft's state machine safety and the
    service's replication are put together: at all times, across crashes, all
    servers are at prefixes of one log of operations ([kv_one_log]), and an
    answer once given is the result of the operation in that log
    ([kv_answers_stand]). *)

From Stdlib Require Import Strings.Byte.
From stdpp Require Import prelude gmap strings list sets.
From S2P Require Import Prelude Gob Raft RaftNode RaftServer RaftNet RaftElection RaftCluster KvRaft KvRaftProps Replicated.
Local Open Scope Z_scope.

(** ** The service implements its state machine *)

#[export] Instance kv_machine : StateMachine Op machine.
Proof.
  refine {| sm_next := λ m op, Ret (exec1 m op); sm_wf := λ _, True; sm_ok := λ _ _, True |}. by eauto.
Defined.

Lemma kv_run (m : machine) (ops : list Op) : sm_run m ops = Ret (foldl exec1 m ops).
Proof. revert m. induction ops as [|op ops IH]; intros m; [done|]. apply IH. Qed.

Section system.
Context `{GobLaws Z} `{GobLaws (list (LogEntry Op))} `{GobLaws (gmap string string)} `{GobLaws (gmap Z LastOperation)}.
Implicit Types (kv : KVServer) (ops : list Op) (P : Op → Prop).

Lemma StartKVServer_fresh k i ps max kv :
  ps_snapshot ps = [] → StartKVServer k i ps max = Ret kv → LastApplied kv = 0 ∧ state kv = (∅, ∅).
Proof.
  unfold StartKVServer. intros Hps (r & _ & [= <-])%bind_Ret_inv. unfold restoreState, ReadSnapshot. by rewrite Hps.
Qed.

(** A message is handled while the server's Raft is the one of the network. *)
#[export] Instance kv_service : Service Op KVServer Z machine.
Proof.
  refine {| sv_applied := LastApplied; sv_state := state; sv_start := StartKVServer; sv_init := λ _, (∅, ∅);
    sv_handles := λ rf kv m o, o = applier (set_rf rf kv) m |}.
  - done.
  - intros rf kv m op o st' Hv Hidx Hop Hn ->. injection Hn as <-. unfold applier. rewrite Hv, Hop, Hidx.
    destruct (execOp_next (set_rf rf kv) op) as (kv' & b & Hex & Hst & Hla & _).
    change (LastApplied (set_rf rf kv)) with (LastApplied kv) in *. change (state (set_rf rf kv)) with (state kv) in *.
    rewrite Hex. by exists kv'.
  - intros k i ps max kv Hps Hstart. by eapply StartKVServer_fresh.
Defined.

Lemma kv_follows ops kv : at_prefix (∅, ∅) ops kv ↔ follows ops kv.
Proof.
  unfold at_prefix, follows, run_ops. rewrite kv_run.
  change (sv_state kv) with (state kv). change (sv_applied kv) with (LastApplied kv).
  split; intros [? Hst]; (split; [done|]); [by injection Hst|by rewrite Hst].
Qed.

(** Clients ask for the operations [P] only. *)
Definition kv_step P : Sys Op KVServer → Sys Op KVServer → Prop := sys_step (λ _, P) (-1).
Definition kv_reachable P (n : nat) (sys : Sys Op KVServer) : Prop := sys_reachable (λ _, P) (-1) n sys.

(** ** The theorems *)

Lemma kv_log P n sys sys' :
  kv_reachable P n sys → rtc (kv_step (λ _, True)) sys sys' →
  ∃ ops, (∀ i app, s_apps sys !! i = Some app → follows ops (a_srv app) ∧
      ∀ op, op ∈ take (Z.to_nat (LastApplied (a_srv app))) ops → P op) ∧
    (∀ i app, s_apps sys' !! i = Some app → follows ops (a_srv app) ∧
      ∀ nd o, nodes (s_net sys') !! i = Some nd → handles_all (raft nd) (a_srv app) (a_chan app) o → ∃ kv', o = Ret kv').
Proof.
  intros Hreach Hsteps.
  destruct (sys_one_log (λ _, P) (λ _ _, True) (-1) n sys sys') as (ops & _ & _ & Hnow & Hlater); [done|done|done|done|].
  exists ops. split.
  - intros i app Ha. destruct (Hnow i app Ha) as [Hf HP]. split; [by apply kv_follows|]. intros op Hop. by destruct (HP op Hop).
  - intros i app Ha. destruct (Hlater i app Ha) as [Hf Ho]. split; [by apply kv_follows|done].
Qed.

(** the servers of the key/value service are at all times, across lost and
    delayed messages, crashes and restarts, at prefixes of one log of
    operations: the states of all servers now ([sys]) and at any later time
    ([sys']) are where prefixes of the same [ops] lead, and no server panics on
    the messages on its channel. *)
Theorem kv_one_log n sys sys' :
  kv_reachable (λ _, True) n sys → rtc (kv_step (λ _, True)) sys sys' →
  ∃ ops, (∀ i app, s_apps sys !! i = Some app → follows ops (a_srv app)) ∧
    ∀ j app, s_apps sys' !! j = Some app → follows ops (a_srv app) ∧
      ∀ nd o, nodes (s_net sys') !! j = Some nd → handles_all (raft nd) (a_srv app) (a_chan app) o → ∃ kv', o = Ret kv'.
Proof.
  intros Hreach Hsteps. destruct (kv_log _ _ _ _ Hreach Hsteps) as (ops & Hnow & Hlater).
  exists ops. split; [|done]. intros i app Ha. by apply (Hnow i).
Qed.

(** C7: what a server answers stands, and calls made after an answer come after it:
    if now, when the clients have asked for operations [P] only, a handler on
    server [i] answers [OK] with the value [v] for a call, then there is one
    log that every server follows now and at any later time; the call is an
    operation at a position [k] of the log, took effect there (not for an
    older call) with the result [v]; and every operation of the log that the
    clients have not yet asked for has a later position.  The runs are those
    without snapshots (maxraftstate -1): with snapshots an answered operation
    can be lost, because a server may acknowledge entries it has dropped
    (C30). *)
Theorem kv_answers_stand P n sys sys' i nd app clientId callId startTerm v :
  kv_reachable P n sys → rtc (kv_step (λ _, True)) sys sys' →
  nodes (s_net sys) !! i = Some nd → s_apps sys !! i = Some app →
  waitOp (set_rf (raft nd) (a_srv app)) clientId callId startTerm = Some (OK, v) ∨
    oldRequest (set_rf (raft nd) (a_srv app)) clientId callId = Some (OK, v) →
  ∃ ops (k : nat) op, ops !! k = Some op ∧ ClientId op = clientId ∧ CallId op = callId ∧
    newer (take k ops) op ∧ v = (execute (run_ops (take k ops)).1 op).2 ∧
    (∀ k' op', ops !! k' = Some op' → ¬ P op' → (k < k')%nat) ∧
    (∀ j app', s_apps sys !! j = Some app' → follows ops (a_srv app')) ∧
    (∀ j app', s_apps sys' !! j = Some app' → follows ops (a_srv app')).
Proof.
  intros Hreach Hsteps Hi Ha Hans. destruct (kv_log _ _ _ _ Hreach Hsteps) as (ops & Hnow & Hlater).
  destruct (Hnow i app Ha) as [Hf HP].
  destruct (kvraft_answers_sound ops (set_rf (raft nd) (a_srv app)) clientId callId startTerm v Hf Hans)
    as (k & op & Hk & ? & ? & ? & ? & ?).
  exists ops, k, op. split_and!; try done.
  - intros k' op' Hk' Hno. destruct (decide (k < k')%nat) as [?|Hge]; [done|]. exfalso. apply Hno, HP.
    apply list_elem_of_lookup. exists k'. apply lookup_take_Some. split; [done|]. simpl in Hk. lia.
  - intros j app' Ha'. by apply (Hnow j app' Ha').
  - intros j app' Ha'. by apply (Hlater j app' Ha').
Qed.
End system.
