(* ===== verification/Clients.v ===== *)
(** * Clients with clocks

    The clients of a service, as the tests run them: each makes one call at a
    time and records it with the times at which it was made and returned
    (kvraft/test_test.go, shardkv/test_test.go).  The service moves by steps of
    its own and answers; answers may be lost or delayed and, once given, may
    reach the client at any later time.

    What the service has to promise is an invariant that says of every answer
    how it came about ([inv], [answered]); then the recorded histories are
    linearizable if the calls can be put in one order that the specification
    accepts and that agrees with the answers ([calls_linearizable]). *)

From Stdlib Require Import Strings.Byte.
From stdpp Require Import prelude gmap strings list.
From S2P Require Import Prelude Porcupine Linearizability PorcupineHistory.
Local Open Scope Z_scope.

(** An answer [OK]: the client, the call and the value. *)
Record Answer := mkAnswer { an_Client : Z; an_Call : Z; an_Value : string }.

(** The operations clients call, and what is recorded of a call. *)
Class Calls (Op X Y : Type) := {
  cl_Client : Op → Z;
  cl_Call : Op → Z;
  cl_good : Op → Prop;
  cl_input : Op → X;
  cl_output : Op → string → Y;
}.

(** The service [w]; the clock; every call made so far, with its time; the
    running call of each client; the answers on the network; what was recorded.
    A client is named by its [ClientID]. *)
Record TSys (W Op X Y : Type) := mkTSys {
  t_world : W;
  t_now : Z;
  t_asked : list (Op * Z);
  t_busy : gmap Z (Op * Z);
  t_answers : list Answer;
  t_ops : list (Operation X Y);
}.
Arguments mkTSys {W Op X Y} _ _ _ _ _ _.
Arguments t_world {W Op X Y} _.
Arguments t_now {W Op X Y} _.
Arguments t_asked {W Op X Y} _.
Arguments t_busy {W Op X Y} _.
Arguments t_answers {W Op X Y} _.
Arguments t_ops {W Op X Y} _.

Section clients.
Context {W Op X Y : Type} `{Calls Op X Y}.
Context (step : (Op → Prop) → W → W → Prop) (answers : W → Answer → Prop).
Implicit Types (t : TSys W Op X Y) (op : Op) (a : Answer).

(** The clerk's next call id. *)
Definition next_call t (c : Z) : Z := zlen (filter (λ x, cl_Client x.1 = c) (t_asked t)).

(** What a test records of a call. *)
Definition record op (start : Z) (v : string) (now : Z) : Operation X Y :=
  mkOperation (cl_Client op) (cl_input op) start (cl_output op v) now.

Definition asked t op : Prop := op ∈ (t_asked t).*1.

Inductive timed_step : TSys W Op X Y → TSys W Op X Y → Prop :=
  | timed_tick t now :
      t_now t ≤ now → timed_step t (mkTSys (t_world t) now (t_asked t) (t_busy t) (t_answers t) (t_ops t))
  | timed_invoke t op :
      cl_good op → t_busy t !! cl_Client op = None → cl_Call op = next_call t (cl_Client op) →
      timed_step t (mkTSys (t_world t) (t_now t) (t_asked t ++ [(op, t_now t)])
        (<[cl_Client op := (op, t_now t)]> (t_busy t)) (t_answers t) (t_ops t))
  | timed_service t w' :
      step (asked t) (t_world t) w' →
      timed_step t (mkTSys w' (t_now t) (t_asked t) (t_busy t) (t_answers t) (t_ops t))
  | timed_answer t a :
      answers (t_world t) a →
      timed_step t (mkTSys (t_world t) (t_now t) (t_asked t) (t_busy t) (t_answers t ++ [a]) (t_ops t))
  | timed_return t op start a :
      t_busy t !! cl_Client op = Some (op, start) → a ∈ t_answers t →
      an_Client a = cl_Client op → an_Call a = cl_Call op →
      timed_step t (mkTSys (t_world t) (t_now t) (t_asked t) (delete (cl_Client op) (t_busy t)) (t_answers t)
        (t_ops t ++ [record op start (an_Value a) (t_now t)])).

(** No client has called. *)
Definition timed_start (w : W) (now : Z) : TSys W Op X Y := mkTSys w now [] ∅ [] [].

Definition timed_reachable (init : W → Prop) (now : Z) t : Prop :=
  ∃ w, init w ∧ rtc timed_step (timed_start w now) t.

(** Steps of the service while the clients wait. *)
Lemma service_steps t w' :
  rtc (step (asked t)) (t_world t) w' →
  rtc timed_step t (mkTSys w' (t_now t) (t_asked t) (t_busy t) (t_answers t) (t_ops t)).
Proof.
  destruct t as [w now ask busy ans ops]. unfold asked. simpl. intros Hsteps.
  induction Hsteps as [w|w w1 w2 Hs _ IH]; [done|].
  eapply rtc_l; [|exact IH]. by apply (timed_service (mkTSys w now ask busy ans ops)).
Qed.

(** ** The invariant

    [inv P w γ]: the service only works on operations in [P]; [γ] is its
    history.  [answered l γ a d]: with the history [γ], the answer [a] was given
    when the calls in [l] had been made; [d] says how. *)
Section invariant.
Context {Gh D : Type} (inv : (Op → Prop) → W → Gh → Prop) (ext : Gh → Gh → Prop).
Context (answered : list Op → Gh → Answer → D → Prop).
Context (ext_refl : ∀ γ, ext γ γ).
Context (inv_weaken : ∀ (P Q : Op → Prop) w γ, (∀ op, P op → Q op) → inv P w γ → inv Q w γ).
Context (inv_step : ∀ P w w' γ, step P w w' → inv P w γ → ∃ γ', ext γ γ' ∧ inv P w' γ').
Context (inv_answer : ∀ (l : list Op) w γ a, inv (λ op, op ∈ l) w γ → answers w a → ∃ d, answered l γ a d).
Context (answered_ext : ∀ l γ γ' a d, ext γ γ' → answered l γ a d → answered l γ' a d).

(** A returned call: the operation, its answer, how it came about and how many
    calls had been made then. *)
Record Done := mkDone { d_op : Op; d_answer : Answer; d_how : D; d_calls : nat }.

Definition answer_ok t γ a (how : D) (m : nat) : Prop :=
  (m ≤ length (t_asked t))%nat ∧ answered (take m (t_asked t)).*1 γ a how.

Record done_ok t γ (o : Operation X Y) (d : Done) : Prop := mkDoneOk {
  do_asked : (d_op d, Call o) ∈ t_asked t;
  do_client : an_Client (d_answer d) = cl_Client (d_op d);
  do_call : an_Call (d_answer d) = cl_Call (d_op d);
  do_answer : answer_ok t γ (d_answer d) (d_how d) (d_calls d);
  do_record : o = record (d_op d) (Call o) (an_Value (d_answer d)) (Return o);
  do_time : Call o ≤ Return o;
  do_before x : x ∈ take (d_calls d) (t_asked t) → x.2 ≤ Return o;
}.

Definition call_key op : Z * Z := (cl_Client op, cl_Call op).

(** [done]: the calls that have returned, in order. *)
Record timed_inv t γ (done : list Done) : Prop := mkTimedInv {
  ti_world : inv (asked t) (t_world t) γ;
  ti_ops x : x ∈ t_asked t → cl_good x.1 ∧ x.2 ≤ t_now t;
  ti_ids x : x ∈ t_asked t → cl_Call x.1 < next_call t (cl_Client x.1);
  ti_keys : NoDup ((λ x, call_key x.1) <$> t_asked t);
  ti_answers a : a ∈ t_answers t → ∃ how m, answer_ok t γ a how m ∧ ∀ x, x ∈ take m (t_asked t) → x.2 ≤ t_now t;
  ti_busy c op s : t_busy t !! c = Some (op, s) → cl_Client op = c ∧ (op, s) ∈ t_asked t;
  ti_done : Forall2 (done_ok t γ) (t_ops t) done;
  ti_doneK : NoDup (d_op <$> done);
  ti_left x : x ∈ t_asked t → t_busy t !! cl_Client x.1 = Some x ∨ x.1 ∈ d_op <$> done;
  ti_running c op s : t_busy t !! c = Some (op, s) → op ∉ d_op <$> done;
}.

(** *** Steps *)

Lemma answer_ok_mono t t' γ γ' a how m new :
  ext γ γ' → t_asked t' = t_asked t ++ new → answer_ok t γ a how m → answer_ok t' γ' a how m.
Proof using answered_ext.
  intros Hext Hask [Hm Hans]. unfold answer_ok. rewrite Hask, length_app, take_app_le by done. split; [lia|by eapply answered_ext].
Qed.

Lemma done_ok_mono t t' γ γ' o d new :
  ext γ γ' → t_asked t' = t_asked t ++ new → done_ok t γ o d → done_ok t' γ' o d.
Proof using answered_ext.
  intros Hext Hask []. split; try done.
  - rewrite Hask. apply elem_of_app. by left.
  - by eapply answer_ok_mono.
  - destruct do_answer0 as [Hm _]. rewrite Hask, take_app_le by done. done.
Qed.

(** Time passes and the service moves. *)
Lemma inv_world t w' now γ γ' done :
  timed_inv t γ done → ext γ γ' → t_now t ≤ now → inv (asked t) w' γ' →
  timed_inv (mkTSys w' now (t_asked t) (t_busy t) (t_answers t) (t_ops t)) γ' done.
Proof using answered_ext.
  intros [] Hext Hle Hw. split; try done.
  - intros x Hx. destruct (ti_ops0 x Hx). simpl. split; [done|lia].
  - intros a Ha. destruct (ti_answers0 a Ha) as (how & m & Hok & Hx). exists how, m. split.
    + eapply (answer_ok_mono t _ _ _ _ _ _ []); [done|by rewrite app_nil_r|done].
    + simpl. intros x Hin. specialize (Hx x Hin). lia.
  - eapply Forall2_impl; [exact ti_done0|]. intros o d. eapply (done_ok_mono t _ _ _ _ _ []); [done|by rewrite app_nil_r].
Qed.

Lemma next_call_snoc t op s c :
  zlen (filter (λ x, cl_Client x.1 = c) (t_asked t ++ [(op, s)])) =
    next_call t c + (if decide (cl_Client op = c) then 1 else 0).
Proof. unfold next_call. rewrite filter_app, filter_cons, filter_nil, length_app. simpl. destruct (decide _); simpl; lia. Qed.

Lemma inv_ask t op γ done :
  timed_inv t γ done → cl_good op → t_busy t !! cl_Client op = None → cl_Call op = next_call t (cl_Client op) →
  timed_inv (mkTSys (t_world t) (t_now t) (t_asked t ++ [(op, t_now t)])
    (<[cl_Client op := (op, t_now t)]> (t_busy t)) (t_answers t) (t_ops t)) γ done.
Proof using answered_ext ext_refl inv_weaken.
  intros [Hw Hops Hids Hkeys Hans Hbusy Hdone HdoneK Hleft Hrun] Hop Hidle Hid.
  set (t' := mkTSys _ _ _ _ _ _). assert (t_asked t' = t_asked t ++ [(op, t_now t)]) as Hask by done.
  assert (op ∉ (t_asked t).*1) as Hnew.
  { intros (x & Heq & Hx)%list_elem_of_fmap. specialize (Hids x Hx). rewrite <-Heq in Hids. lia. }
  assert (∀ d, d ∈ done → d_op d ∈ (t_asked t).*1) as Hdone_asked.
  { intros d (i & Hi)%list_elem_of_lookup. destruct (Forall2_lookup_r _ _ _ _ _ Hdone Hi) as (o & _ & Hd).
    apply list_elem_of_fmap. exists (d_op d, Call o). split; [done|apply Hd]. }
  split.
  - eapply inv_weaken; [|exact Hw]. intros op' Hin. unfold asked in *. rewrite Hask, fmap_app. apply elem_of_app. by left.
  - rewrite Hask. intros x [Hx|Hx]%elem_of_app; [by apply Hops|]. apply list_elem_of_singleton in Hx as ->. split; [done|simpl; lia].
  - rewrite Hask. intros x Hx. unfold next_call at 1. rewrite Hask, next_call_snoc. apply elem_of_app in Hx as [Hx|Hx].
    + specialize (Hids x Hx). case_decide; lia.
    + apply list_elem_of_singleton in Hx as ->. simpl. rewrite decide_True by done. lia.
  - rewrite Hask, fmap_app. apply NoDup_app. split_and!; [done| |apply NoDup_singleton].
    intros k (x & -> & Hx)%list_elem_of_fmap Hk. simpl in Hk. apply list_elem_of_singleton in Hk. injection Hk as Hc Hi.
    specialize (Hids x Hx). rewrite Hc in Hids. lia.
  - intros a Ha. destruct (Hans a Ha) as (how & m & Hok & Hx). exists how, m. split; [by eapply answer_ok_mono|].
    pose proof Hok as (Hm & _). rewrite Hask, take_app_le by done. done.
  - intros c op' s. simpl. intros [[<- [= <- <-]]|[Hne Hb]]%lookup_insert_Some.
    + split; [done|]. apply elem_of_app. right. by left.
    + destruct (Hbusy c op' s Hb). split; [done|]. apply elem_of_app. by left.
  - eapply Forall2_impl; [exact Hdone|]. intros o d. by apply done_ok_mono with (new := [(op, t_now t)]).
  - done.
  - rewrite Hask. intros x [Hx|Hx]%elem_of_app; simpl.
    + destruct (Hleft x Hx) as [Hb|Hd]; [|by right]. left. rewrite lookup_insert_ne; [done|]. intros Heq. by rewrite <-Heq, Hidle in Hb.
    + apply list_elem_of_singleton in Hx as ->. left. by rewrite lookup_insert_eq.
  - intros c op' s. simpl. intros [[<- [= <- <-]]|[Hne Hb]]%lookup_insert_Some; [|by eapply Hrun].
    intros (d & Heq & Hd)%list_elem_of_fmap. apply Hnew. rewrite Heq. by apply Hdone_asked.
Qed.

Lemma inv_answers t a γ done :
  timed_inv t γ done → answers (t_world t) a →
  timed_inv (mkTSys (t_world t) (t_now t) (t_asked t) (t_busy t) (t_answers t ++ [a]) (t_ops t)) γ done.
Proof using answered_ext inv_answer.
  intros [] Ha. split; try done.
  2:{ eapply Forall2_impl; [exact ti_done0|]. intros o d []. by split. }
  intros a' [Ha'|Ha']%elem_of_app; [by apply ti_answers0|].
  apply list_elem_of_singleton in Ha' as ->. destruct (inv_answer _ _ _ _ ti_world0 Ha) as [how Hhow].
  exists how, (length (t_asked t)). unfold answer_ok. simpl. rewrite firstn_all. split; [done|]. intros x Hx. by apply ti_ops0.
Qed.

Lemma inv_return t op start a γ done :
  timed_inv t γ done → t_busy t !! cl_Client op = Some (op, start) → a ∈ t_answers t →
  an_Client a = cl_Client op → an_Call a = cl_Call op →
  ∃ d, timed_inv (mkTSys (t_world t) (t_now t) (t_asked t) (delete (cl_Client op) (t_busy t)) (t_answers t)
    (t_ops t ++ [record op start (an_Value a) (t_now t)])) γ (done ++ [d]).
Proof.
  intros [Hw Hops Hids Hkeys Hans Hbusy Hdone HdoneK Hleft Hrun] Hb Ha Hc Hcall.
  destruct (Hans a Ha) as (how & m & Hok & Hx). exists (mkDone op a how m). destruct (Hbusy _ _ _ Hb) as [_ Hin].
  split; try done; simpl.
  - intros c op' s [Hne Hb']%lookup_delete_Some. by apply Hbusy.
  - apply Forall2_app.
    + eapply Forall2_impl; [exact Hdone|]. intros o d []. by split.
    + constructor; [|constructor]. split; try done. by apply Hops in Hin as [_ ?].
  - rewrite fmap_app. apply NoDup_app. split_and!; [done| |apply NoDup_singleton].
    intros x Hx' Heq. simpl in Heq. apply list_elem_of_singleton in Heq as ->. by apply (Hrun _ _ _ Hb).
  - intros x Hx'. rewrite fmap_app. destruct (decide (cl_Client x.1 = cl_Client op)) as [Heq|Hne].
    + right. apply elem_of_app. destruct (Hleft x Hx') as [Hb'|Hd]; [|by left]. right. rewrite Heq, Hb in Hb'.
      injection Hb' as <-. by left.
    + destruct (Hleft x Hx') as [Hb'|Hd]; [left; by rewrite lookup_delete_ne|right; apply elem_of_app; by left].
  - intros c op' s [Hne Hb']%lookup_delete_Some. rewrite fmap_app, not_elem_of_app. split; [by eapply Hrun|].
    simpl. intros Heq. apply list_elem_of_singleton in Heq as ->. destruct (Hbusy _ _ _ Hb') as [Heq _]. congruence.
Qed.

Lemma timed_step_inv t t' γ done : timed_step t t' → timed_inv t γ done → ∃ γ' done', timed_inv t' γ' done'.
Proof using answered_ext ext_refl inv_weaken inv_step inv_answer.
  intros Hstep Hinv. destruct Hstep as [t now Hle|t op Hop Hidle Hid|t w' Hs|t a Ha|t op start a Hb Ha Hc Hcall].
  - exists γ, done. by eapply inv_world; [..|apply Hinv].
  - exists γ, done. by apply inv_ask.
  - destruct (inv_step _ _ _ _ Hs (ti_world _ _ _ Hinv)) as (γ' & Hext & Hw'). exists γ', done. by eapply inv_world.
  - exists γ, done. by apply inv_answers.
  - destruct (inv_return _ _ _ _ _ _ Hinv Hb Ha Hc Hcall) as [d ?]. by exists γ, (done ++ [d]).
Qed.

Lemma timed_reachable_inv (init : W → Prop) now t :
  (∀ w, init w → ∃ γ, inv (λ op, op ∈ []) w γ) → timed_reachable init now t → ∃ γ done, timed_inv t γ done.
Proof using answered_ext ext_refl inv_weaken inv_step inv_answer.
  intros Hinit (w & Hw & Hsteps). assert (∃ γ done, timed_inv (timed_start w now) γ done) as Hinv.
  { destruct (Hinit w Hw) as [γ Hγ]. exists γ, []. by split; try (by intros ? ?%not_elem_of_nil); try (by constructor). }
  clear Hw. induction Hsteps as [|t0 t1 t2 Hs _ IH]; [done|]. apply IH. destruct Hinv as (γ & done & Hinv). by eapply timed_step_inv.
Qed.

(** ** Linearizability *)

Lemma asked_unique t γ done op op' s s' :
  timed_inv t γ done → (op, s) ∈ t_asked t → (op', s') ∈ t_asked t → call_key op = call_key op' → op = op' ∧ s = s'.
Proof.
  intros Hinv (i & Hi)%list_elem_of_lookup (j & Hj)%list_elem_of_lookup Hk. assert (i = j) as ->; [|by simplify_eq].
  eapply (NoDup_lookup _ i j (call_key op) (ti_keys _ _ _ Hinv)); rewrite list_lookup_fmap, ?Hi, ?Hj; simpl; congruence.
Qed.

Lemma asked_op t γ done op op' :
  timed_inv t γ done → asked t op → asked t op' → call_key op = call_key op' → op = op'.
Proof.
  intros Hinv ([x s] & -> & Hx)%list_elem_of_fmap ([y s'] & -> & Hy)%list_elem_of_fmap Hk. simpl in *.
  by eapply (asked_unique t γ done x y s s').
Qed.

(** A call that was made after another had returned is not among those that had
    been made when that was answered. *)
Lemma later_call t γ done o d o' d' :
  timed_inv t γ done → done_ok t γ o d → done_ok t γ o' d' → Return o < Call o' → d_op d' ∉ (take (d_calls d) (t_asked t)).*1.
Proof.
  intros Hinv Hd Hd' Hlt (x & Heq & Hx)%list_elem_of_fmap. pose proof (do_before _ _ _ _ Hd x Hx).
  assert ((x.1, x.2) ∈ t_asked t) as Hx'.
  { rewrite <-surjective_pairing. apply elem_of_take in Hx as (i & Hi & _). by eapply list_elem_of_lookup_2. }
  destruct (asked_unique _ _ _ _ _ _ _ Hinv (do_asked _ _ _ _ Hd') Hx') as [_ Heq']; [by rewrite Heq|]. lia.
Qed.

Lemma done_asked t γ o d : done_ok t γ o d → asked t (d_op d).
Proof. intros []. apply list_elem_of_fmap. by exists (d_op d, Call o). Qed.

Lemma done_answers t γ done d : timed_inv t γ done → d ∈ done → ∃ o, done_ok t γ o d.
Proof.
  intros Hinv (i & Hi)%list_elem_of_lookup. destruct (Forall2_lookup_r _ _ _ _ _ (ti_done _ _ _ Hinv) Hi) as (o & _ & ?). by exists o.
Qed.

Lemma asked_take t m op : op ∈ (take m (t_asked t)).*1 → asked t op.
Proof.
  intros (x & -> & Hx)%list_elem_of_fmap. apply list_elem_of_fmap. exists x. split; [done|].
  apply elem_of_take in Hx as (i & Hi & _). by eapply list_elem_of_lookup_2.
Qed.

Lemma history_timed t γ done : timed_inv t γ done → timed (t_ops t).
Proof.
  intros Hinv. apply Forall_forall. intros o (i & Hi)%list_elem_of_lookup.
  destruct (Forall2_lookup_l _ _ _ _ _ (ti_done _ _ _ Hinv) Hi) as (d & _ & Hok). apply Hok.
Qed.

(** The calls whose input is in [sel], as the events [l] in an order that the
    specification accepts.  Every answer is the output of an event of its call,
    and calls that had not been made when it was given come later. *)
Lemma calls_linearizable {St E} (spec : St → X → Y → bool * St) (st : St) (sel : X → Prop) `{∀ x, Decision (sel x)}
    (l : list E) (op_of : E → Op) (ev : E → X * Y) t γ done :
  timed_inv t γ done → t_busy t = ∅ → NoDup l → accepts spec st (ev <$> l) = true →
  (∀ e, e ∈ l → asked t (op_of e) ∧ sel (cl_input (op_of e))) →
  (∀ e e', e ∈ l → e' ∈ l → op_of e = op_of e' → e = e') →
  (∀ o d, d ∈ done → done_ok t γ o d → sel (cl_input (d_op d)) →
     ∃ e, e ∈ l ∧ op_of e = d_op d ∧ ev e = (cl_input (d_op d), cl_output (d_op d) (an_Value (d_answer d))) ∧
       ∀ e', e' ∈ l → op_of e' ∉ (take (d_calls d) (t_asked t)).*1 → before l e e') →
  history_linearizable spec st (filter (λ o, sel (Input o)) (t_ops t)).
Proof.
  intros Hinv Hidle Hnd Hacc Hin Hinj Hans.
  set (h := filter (λ o, sel (Input o)) (t_ops t)). set (ds := filter (λ d, sel (cl_input (d_op d))) done).
  assert (Forall2 (done_ok t γ) h ds) as Hds.
  { apply Forall2_filter; [|apply Hinv]. intros o d Hd. by rewrite (do_record _ _ _ _ Hd). }
  set (at_event := λ d e, e ∈ l ∧ op_of e = d_op d ∧ ev e = (cl_input (d_op d), cl_output (d_op d) (an_Value (d_answer d))) ∧
    ∀ e', e' ∈ l → op_of e' ∉ (take (d_calls d) (t_asked t)).*1 → before l e e').
  destruct (Forall2_choice at_event ds) as [ret Hret].
  { intros d Hd. pose proof Hd as (i & Hi)%list_elem_of_lookup. destruct (Forall2_lookup_r _ _ _ _ _ Hds Hi) as (o & _ & Hok).
    apply list_elem_of_filter in Hd as [Hsel Hd]. by apply (Hans o d). }
  assert (NoDup (d_op <$> ds)) as HdsK.
  { eapply sublist_NoDup; [apply (ti_doneK _ _ _ Hinv)|]. apply fmap_sublist, sublist_filter. }
  assert (∀ (i : nat) o e, h !! i = Some o → ret !! i = Some e → ∃ d, ds !! i = Some d ∧ done_ok t γ o d ∧ at_event d e) as Hat.
  { intros i o e Ho He. destruct (Forall2_lookup_r _ _ _ _ _ Hret He) as (d & Hd & Hev).
    pose proof (Forall2_lookup_lr _ _ _ _ _ _ Hds Ho Hd) as Hok. by exists d. }
  apply (log_linearizable spec ev h l ret); [done| |done| |].
  - apply NoDup_Permutation; [done| |].
    + apply NoDup_alt. intros i j e Hi Hj.
      destruct (Forall2_lookup_r _ _ _ _ _ Hret Hi) as (d & Hd & _ & Ho & _).
      destruct (Forall2_lookup_r _ _ _ _ _ Hret Hj) as (d' & Hd' & _ & Ho' & _).
      eapply (NoDup_lookup _ i j (d_op d) HdsK); rewrite list_lookup_fmap, ?Hd, ?Hd'; simpl; congruence.
    + intros e. split.
      * intros He. destruct (Hin e He) as [(x & Hx & Hask)%list_elem_of_fmap Hsel].
        destruct (ti_left _ _ _ Hinv x Hask) as [Hb|Hd]; [by rewrite Hidle, lookup_empty in Hb|].
        apply list_elem_of_fmap in Hd as (d & Heq & Hd). assert (d ∈ ds) as (i & Hi)%list_elem_of_lookup.
        { apply list_elem_of_filter. split; [congruence|done]. }
        destruct (Forall2_lookup_l _ _ _ _ _ Hret Hi) as (e' & He' & Hin' & Ho & _).
        assert (e = e') as -> by (apply Hinj; [done|done|congruence]). by eapply list_elem_of_lookup_2.
      * intros (i & Hi)%list_elem_of_lookup. by destruct (Forall2_lookup_r _ _ _ _ _ Hret Hi) as (d & _ & ? & _).
  - apply Forall2_same_length_lookup. split; [rewrite (Forall2_length _ _ _ Hds); by eapply Forall2_length|].
    intros i o e Ho He. destruct (Hat i o e Ho He) as (d & _ & Hok & _ & _ & -> & _). by rewrite (do_record _ _ _ _ Hok).
  - intros i j o e o' e' Ho He Ho' He' Hlt. destruct (Hat i o e Ho He) as (d & _ & Hok & _ & _ & _ & Hlater).
    destruct (Hat j o' e' Ho' He') as (d' & _ & Hok' & Hin' & Hop' & _). apply Hlater; [done|]. rewrite Hop'.
    by eapply later_call.
Qed.

(** All calls. *)
Lemma all_linearizable {St E} (spec : St → X → Y → bool * St) (st : St) (l : list E) (op_of : E → Op) (ev : E → X * Y) t γ done :
  timed_inv t γ done → t_busy t = ∅ → NoDup l → accepts spec st (ev <$> l) = true →
  (∀ e, e ∈ l → asked t (op_of e)) → (∀ e e', e ∈ l → e' ∈ l → op_of e = op_of e' → e = e') →
  (∀ o d, d ∈ done → done_ok t γ o d →
     ∃ e, e ∈ l ∧ op_of e = d_op d ∧ ev e = (cl_input (d_op d), cl_output (d_op d) (an_Value (d_answer d))) ∧
       ∀ e', e' ∈ l → op_of e' ∉ (take (d_calls d) (t_asked t)).*1 → before l e e') →
  history_linearizable spec st (t_ops t).
Proof.
  intros Hinv Hidle Hnd Hacc Hin Hinj Hans.
  assert (∃ (sel : X → Prop) (_ : ∀ x, Decision (sel x)), ∀ x, sel x) as (sel & Hdec & Hsel) by by exists (λ _, True), (λ _, left I).
  rewrite <-(filter_all (λ o : Operation X Y, sel (Input o)) (t_ops t)) by done.
  eapply (calls_linearizable spec st sel l op_of ev t γ done); try done; [by intros e He; split; [apply Hin|]|].
  intros o d Hd Hok _. by eapply Hans.
Qed.
End invariant.
End clients.
