(* ===== verification/KvRaftLinear.v ===== *)
(** * Histories of the replicated key/value service

    The testers of src/src/kvraft/test_test.go wrap every call of a clerk in
    two readings of a monotonic clock and record it as an operation of the
    linearizability checker ([Get], [Put], [Append] of the tests).  Here the
    service of KvSystem.v runs with a clock, clients and this recording: servers
    start what clients have asked for, any number of times and in any order,
    crash and restart; handlers answer; a client that has an answer to its call
    returns.  Once no call is running, the recorded history is linearizable, and
    the checker of PorcupineProps.v can only accept it.  The clients are those of
    Clients.v. *)

From Stdlib Require Import Strings.Byte.
From stdpp Require Import prelude gmap strings list sets sorting.
From S2P Require Import Prelude Gob Raft RaftNode RaftServer RaftCommit RaftEvolve RaftApply RaftNet RaftElection RaftCluster RaftLog RaftOffice RaftSafety RaftSafetySteps RaftStateMachine Replicated Porcupine Linearizability PorcupineHistory Locality Models PorcupineProps KvRaft KvRaftProps KvSystem Clients.
Local Open Scope Z_scope.

Notation History := (list (Operation KvInput KvOutput)).

(** ** The log as a history of the store *)

(** The operations [Get_enter], [Put_enter] and [Append_enter] start. *)
Definition client_op (op : Op) : Prop :=
  match GetValid op, PutValid op, AppendValid op with
  | true, false, false => Value op = ""
  | false, true, false | false, false, true => True
  | _, _, _ => False
  end.

(** The input a tester records for the call. *)
Definition op_input (op : Op) : KvInput :=
  mkKvInput (if GetValid op then 0 else if PutValid op then 1 else 2) (Key op) (Value op).

(** The output it records: [Put] and [Append] return nothing. *)
Definition op_output (op : Op) (v : string) : KvOutput := mkKvOutput (if GetValid op then v else "").

(** The operation at position [k] of the log takes effect. *)
Definition effective_at (log : list Op) (k : nat) : Prop := ∃ op, log !! k = Some op ∧ newer (take k log) op.

#[export] Instance effective_at_dec log k : Decision (effective_at log k).
Proof.
  unfold effective_at. destruct (log !! k) as [op|]; [|right; by intros (? & ? & _)].
  destruct (decide (newer (take k log) op)); [left; by exists op|right]. by intros (? & [= <-] & ?).
Defined.

Definition positions (log : list Op) : list nat := filter (effective_at log) (seq 0 (length log)).

(** What is recorded for the operation at position [k]. *)
Definition event_at (log : list Op) (k : nat) : KvInput * KvOutput :=
  let op := default (mkOp 0 0 false false false "" "") (log !! k) in
  (op_input op, op_output op (execute (run_ops (take k log)).1 op).2).

Lemma positions_elem log k : k ∈ positions log ↔ effective_at log k.
Proof.
  unfold positions. rewrite list_elem_of_filter, elem_of_seq. split; [by intros []|]. intros He. split; [done|].
  destruct He as (op & Hop & _). apply lookup_lt_Some in Hop. lia.
Qed.

Lemma positions_NoDup log : NoDup (positions log).
Proof. apply NoDup_filter, NoDup_seq. Qed.

(** A call takes effect at one position. *)
Lemma effective_unique log i j op : effective_at log i → effective_at log j → log !! i = Some op → log !! j = Some op → i = j.
Proof.
  assert (∀ i j, effective_at log j → log !! i = Some op → log !! j = Some op → ¬ (i < j)%nat) as Hlt.
  { intros i' j' (op' & Hj' & Hn) Hi Hj Hlt. assert (op' = op) as -> by congruence.
    specialize (Hn op). assert (op ∈ take j' log) as Hin; [|specialize (Hn Hin eq_refl); lia].
    apply list_elem_of_lookup. exists i'. by apply lookup_take_Some. }
  intros Hi Hj Hi' Hj'. pose proof (Hlt i j Hj Hi' Hj'). pose proof (Hlt j i Hi Hj' Hi'). lia.
Qed.

Lemma seq_before n (i j : nat) : (i < j < n)%nat → before (seq 0 n) i j.
Proof. intros Hij. apply before_lookup. exists i, j. rewrite !lookup_seq. split_and!; lia. Qed.

Lemma positions_before log i j : effective_at log i → effective_at log j → (i < j)%nat → before (positions log) i j.
Proof.
  intros Hi Hj Hlt. apply before_filter. split_and!; [|done..]. apply seq_before.
  destruct Hj as (op & Hop & _). apply lookup_lt_Some in Hop. lia.
Qed.

Lemma positions_snoc log op :
  positions (log ++ [op]) = positions log ++ (if decide (newer log op) then [length log] else []).
Proof.
  unfold positions. rewrite length_app, seq_app, filter_app. simpl. f_equal.
  - apply filter_ext_in. intros k Hk%elem_of_seq. unfold effective_at.
    rewrite lookup_app_l, take_app_le by lia. done.
  - rewrite filter_cons, filter_nil. assert (effective_at (log ++ [op]) (length log) ↔ newer log op) as Hiff.
    { unfold effective_at. rewrite lookup_app_r, Nat.sub_diag, take_app_length by done. simpl. split; [|by eexists].
      by intros (? & [= <-] & ?). }
    destruct (decide (effective_at _ _)), (decide (newer log op)); tauto.
Qed.

Lemma event_at_app log op k : (k < length log)%nat → event_at (log ++ [op]) k = event_at log k.
Proof. intros Hk. unfold event_at. rewrite lookup_app_l, take_app_le by lia. done. Qed.

(** The model's store [st] and the service's data have the same values. *)
Definition same_data (st d : gmap string string) : Prop := ∀ k, default "" (st !! k) = default "" (d !! k).

Lemma store_step_execute st d op :
  client_op op → same_data st d →
  (kv_store_step st (op_input op) (op_output op (execute d op).2)).1 = true ∧
  same_data (kv_store_step st (op_input op) (op_output op (execute d op).2)).2 (execute d op).1.
Proof.
  intros Hop Hsame. unfold client_op in Hop. unfold kv_store_step, store_step, KvModel_Step, KvModel_Init, execute, op_input, op_output.
  pose proof (Hsame (Key op)) as Hk.
  destruct (GetValid op), (PutValid op), (AppendValid op); try done; simpl.
  - split; [apply bool_decide_eq_true; rewrite Hk; by destruct (d !! Key op)|].
    intros k. destruct (decide (k = Key op)) as [->|Hne]; [rewrite lookup_insert_eq|by rewrite lookup_insert_ne]. simpl. done.
  - split; [done|]. intros k. destruct (decide (k = Key op)) as [->|Hne]; [by rewrite !lookup_insert_eq|by rewrite !lookup_insert_ne].
  - split; [done|]. intros k. destruct (decide (k = Key op)) as [->|Hne]; [|by rewrite !lookup_insert_ne].
    rewrite !lookup_insert_eq. simpl. rewrite Hk. by destruct (d !! Key op).
Qed.

(** The effective operations of a log, in its order, are a sequential history
    of the store. *)
Lemma log_accepted log :
  Forall client_op log →
  accepts kv_store_step ∅ (event_at log <$> positions log) = true ∧
  same_data (final kv_store_step ∅ (event_at log <$> positions log)) (run_ops log).1.
Proof.
  induction log as [|op log IH] using rev_ind; [done|]. intros [Hl [Hop _]%Forall_cons]%Forall_app.
  destruct (IH Hl) as [Hacc Hsame]. rewrite positions_snoc, fmap_app.
  assert (event_at (log ++ [op]) <$> positions log = event_at log <$> positions log) as ->.
  { apply list_fmap_ext. intros i k Hk. apply list_elem_of_lookup_2, positions_elem in Hk as (? & Hk & _).
    apply event_at_app. by eapply lookup_lt_Some. }
  rewrite run_ops_snoc. unfold exec1. rewrite duplicate_newer.
  destruct (decide (newer log op)) as [Hn|Hn].
  2:{ rewrite bool_decide_false by done. simpl. by rewrite app_nil_r. }
  rewrite bool_decide_true by done. simpl.
  assert (event_at (log ++ [op]) (length log) = (op_input op, op_output op (execute (run_ops log).1 op).2)) as ->.
  { unfold event_at. by rewrite lookup_app_r, Nat.sub_diag, take_app_length by done. }
  rewrite accepts_app, final_app, Hacc. simpl.
  destruct (store_step_execute _ _ _ Hop Hsame) as [Hok Hs]. destruct (kv_store_step _ _ _) as [ok st']. simpl in *. by rewrite Hok.
Qed.

(** ** The service with its clients *)

#[export] Instance kv_calls : Calls Op KvInput KvOutput := {
  cl_Client := KvRaft.ClientId;
  cl_Call := CallId;
  cl_good := client_op;
  cl_input := op_input;
  cl_output := op_output;
}.

Notation KvTSys := (TSys (Sys Op KVServer) Op KvInput KvOutput).

(** What [waitOp] or the test for an old request answers on a server. *)
Definition answers (r : Raft Op) (kv : KVServer) (a : Answer) : Prop :=
  (∃ startTerm, waitOp (set_rf r kv) (an_Client a) (an_Call a) startTerm = Some (OK, an_Value a)) ∨
  oldRequest (set_rf r kv) (an_Client a) (an_Call a) = Some (OK, an_Value a).

Definition sys_answers (sys : Sys Op KVServer) (a : Answer) : Prop :=
  ∃ i nd app, nodes (s_net sys) !! i = Some nd ∧ s_apps sys !! i = Some app ∧ answers (raft nd) (a_srv app) a.

Section timed.
Context `{GobLaws Z} `{GobLaws (list (LogEntry Op))} `{GobLaws (gmap string string)} `{GobLaws (gmap Z LastOperation)}.
Implicit Types (t : KvTSys) (kv : KVServer) (op : Op) (a : Answer) (log : list Op).

(** [n] servers that have just started; no client has called. *)
Definition kv_timed_reachable (n : nat) (now : Z) t : Prop := timed_reachable kv_step sys_answers (sys_init (-1) n) now t.

(** ** What the service promises *)

(** The history of the terms and of the acknowledgements. *)
Definition KvHistory : Type := gmap Z (list (LogEntry Op)) * list (Z * Z * nat).

Definition kv_inv (n : nat) (P : Op → Prop) (sys : Sys Op KVServer) (γ : KvHistory) : Prop :=
  ∃ Els, sys_inv (λ _, P) (-1) n sys γ.1 γ.2 Els.

Definition kv_ext (γ γ' : KvHistory) : Prop := extends γ.1 γ.2 γ'.1 γ'.2.

(** The answer was given by a server that had executed the committed [log], all
    of which had been asked for. *)
Definition kv_answered (n : nat) (l : list Op) (γ : KvHistory) a log : Prop :=
  is_log n γ.1 γ.2 log ∧ (∀ op, op ∈ log → op ∈ l) ∧ ∃ r kv, answers r kv a ∧ LastApplied kv = zlen log ∧ follows log kv.

Lemma asked_guard (P : Op → Prop) kv op : P op → sm_wf (sv_state kv) → sm_ok (sv_state kv) op.
Proof. done. Qed.

Lemma kv_inv_step n P sys sys' γ : kv_step P sys sys' → kv_inv n P sys γ → ∃ γ', kv_ext γ γ' ∧ kv_inv n P sys' γ'.
Proof.
  intros Hs [Els Hsys]. destruct (sys_inv_step (λ _, P) (-1) (asked_guard P) _ _ _ _ _ _ Hs Hsys) as (T' & A' & Els' & Hext & Hsys').
  exists (T', A'). split; [done|by exists Els'].
Qed.

Lemma kv_inv_answer n (l : list Op) sys γ a :
  kv_inv n (λ op, op ∈ l) sys γ → sys_answers sys a → ∃ log, kv_answered n l γ a log.
Proof.
  intros [Els Hsys] (i & nd & app & _ & Ha & Hans). pose proof (si_ops _ _ _ _ _ _ _ Hsys) as HP.
  destruct (sys_states _ _ _ _ _ _ _ _ _ Hsys Ha) as (nd' & _ & Hat & _).
  destruct (at_log_is_log _ _ _ _ _ _ _ HP Hat) as (log & Hlog & Hlen & Hr).
  destruct (is_log_fit _ _ n _ _ log (sv_init_wf _) HP Hlog) as [_ Hst]. rewrite Forall_forall in Hst.
  exists log. split_and!; [done|by intros op [_ ?]%Hst|]. exists (raft nd), (a_srv app). split_and!; [done|done|].
  apply kv_follows. change (sv_applied (a_srv app)) with (LastApplied (a_srv app)) in Hlen. split.
  - change (0 ≤ LastApplied (a_srv app) ≤ zlen log). lia.
  - change (sv_applied (a_srv app)) with (LastApplied (a_srv app)). by rewrite <-Hlen, Nat2Z.id, firstn_all.
Qed.

Lemma kv_answered_ext n l γ γ' a log : kv_ext γ γ' → kv_answered n l γ a log → kv_answered n l γ' a log.
Proof. intros He (Hlog & ? & ?). split_and!; [by eapply is_log_extends|done|done]. Qed.

Lemma kv_timed_inv n now t : kv_timed_reachable n now t → ∃ γ done, timed_inv (kv_inv n) (kv_answered n) t γ done.
Proof.
  apply (timed_reachable_inv kv_step sys_answers (kv_inv n) kv_ext (kv_answered n)).
  - done.
  - intros P Q w γ HPQ [Els Hsys]. exists Els. eapply sys_inv_weaken; [|exact Hsys]. intros s op. apply HPQ.
  - apply kv_inv_step.
  - apply kv_inv_answer.
  - apply kv_answered_ext.
  - intros sys Hs. destruct (sys_inv_init (λ _ op, op ∈ []) (-1) _ _ Hs) as (T & A & Els & Hsys). exists (T, A). by exists Els.
Qed.

(** ** Linearizability *)

(** An answered call is at a position of the log the server had executed, with
    its result there. *)
Lemma answered_position n t γ done o d :
  timed_inv (kv_inv n) (kv_answered n) t γ done → done_ok (kv_answered n) t γ o d →
  ∃ k : nat, effective_at (d_how d) k ∧ d_how d !! k = Some (d_op d) ∧
    event_at (d_how d) k = (cl_input (d_op d), cl_output (d_op d) (an_Value (d_answer d))).
Proof.
  intros Hinv Hok. destruct d as [op a log m]. pose proof Hok as [_ Hc Hcall (_ & _ & Hin & r & kv & Hans & _ & Hf) _ _ _]. simpl in *.
  assert (follows log (set_rf r kv)) as Hf' by exact Hf.
  assert (∃ (k : nat) op', Z.of_nat k < LastApplied kv ∧ log !! k = Some op' ∧ KvRaft.ClientId op' = an_Client a ∧
    CallId op' = an_Call a ∧ newer (take k log) op' ∧ an_Value a = (execute (run_ops (take k log)).1 op').2)
    as (k & op' & _ & Hk & Hc' & Hcall' & Hn & Hv).
  { destruct Hans as [[startTerm Hans]|Hans].
    - by apply (kvraft_answers_sound log (set_rf r kv) (an_Client a) (an_Call a) startTerm); [|left].
    - by apply (kvraft_answers_sound log (set_rf r kv) (an_Client a) (an_Call a) 0); [|right]. }
  assert (op' = op) as ->.
  { eapply asked_op; [exact Hinv|by eapply asked_take, Hin, list_elem_of_lookup_2|by eapply (done_asked _ _ _ _ (mkDone op a log m))|].
    unfold call_key. simpl. congruence. }
  exists k. split_and!; [by exists op|done|]. unfold event_at. rewrite Hk. simpl. by rewrite Hv.
Qed.

Lemma effective_prefix log1 log k : log1 `prefix_of` log → effective_at log1 k → effective_at log k.
Proof.
  intros [l ->] (op & Hop & Hn). exists op. split; [by apply lookup_app_l_Some|].
  apply lookup_lt_Some in Hop. by rewrite take_app_le by lia.
Qed.

Lemma event_prefix log1 log k : log1 `prefix_of` log → (k < length log1)%nat → event_at log k = event_at log1 k.
Proof. intros [l ->] Hk. unfold event_at. by rewrite lookup_app_l, take_app_le by lia. Qed.

(** The log that all answers were given at prefixes of. *)
Lemma answers_log n t γ done :
  timed_inv (kv_inv n) (kv_answered n) t γ done →
  ∃ log, (∀ op, op ∈ log → asked t op) ∧ ∀ d, d ∈ done → d_how d `prefix_of` log.
Proof.
  intros Hinv. pose proof (ti_world _ _ _ _ _ Hinv) as [Els Hsys].
  destruct (is_log_longest _ _ n (s_net (t_world t)) γ.1 γ.2 Els (d_how <$> done) (si_run _ _ _ _ _ _ _ Hsys) (si_ops _ _ _ _ _ _ _ Hsys))
    as (log & Hin & Hall).
  - apply Forall_fmap, Forall_forall. intros d Hd. destruct (done_answers _ _ _ _ _ _ Hinv Hd) as (o & Hok).
    by destruct (do_answer _ _ _ _ _ Hok) as (_ & ? & _).
  - rewrite Forall_fmap, Forall_forall in Hall. exists log. split; [|done]. destruct Hin as [->|Hin]; [by intros op ?%not_elem_of_nil|].
    intros op Hop. apply list_elem_of_fmap in Hin as (d & -> & Hd). destruct (done_answers _ _ _ _ _ _ Hinv Hd) as (o & Hok).
    destruct (do_answer _ _ _ _ _ Hok) as (_ & _ & Hl & _). by eapply asked_take, Hl.
Qed.

Lemma asked_history n now t :
  kv_timed_reachable n now t → t_busy t = ∅ → history_linearizable kv_store_step ∅ (t_ops t) ∧ timed (t_ops t).
Proof.
  intros (γ & done & Hinv)%kv_timed_inv Hidle. split; [|by eapply history_timed].
  destruct (answers_log _ _ _ _ Hinv) as (log & Hask & Hpre).
  set (op_of := λ k : nat, default (mkOp 0 0 false false false "" "") (log !! k)).
  assert (∀ k, effective_at log k → log !! k = Some (op_of k)) as Hop_of.
  { intros k (op & Hop & _). unfold op_of. by rewrite Hop. }
  eapply (all_linearizable (kv_inv n) (kv_answered n) kv_store_step ∅ (positions log) op_of (event_at log));
    [exact Hinv|exact Hidle|apply positions_NoDup| | | |].
  - apply log_accepted. apply Forall_forall. intros op (x & -> & Hx)%Hask%list_elem_of_fmap. by apply (ti_ops _ _ _ _ _ Hinv).
  - intros k Hk%positions_elem. by eapply Hask, list_elem_of_lookup_2, Hop_of.
  - intros k k' Hk%positions_elem Hk'%positions_elem Heq. eapply effective_unique; [done..|by apply Hop_of|]. rewrite Heq. by apply Hop_of.
  - intros o d Hd Hok. specialize (Hpre d Hd). destruct (answered_position _ _ _ _ _ _ Hinv Hok) as (k & He & Hk & Hev).
    pose proof (lookup_lt_Some _ _ _ Hk) as Hlt. pose proof (effective_prefix _ _ _ Hpre He) as He'.
    exists k. split_and!; [by apply positions_elem|unfold op_of; by rewrite (prefix_lookup_Some _ _ _ _ Hk Hpre)|by rewrite (event_prefix _ _ _ Hpre Hlt)|].
    intros k' Hk'%positions_elem Hnew. apply positions_before; [done..|]. apply Nat.lt_nge. intros Hle. apply Hnew.
    destruct (do_answer _ _ _ _ _ Hok) as (_ & _ & Hl & _). apply Hl. destruct Hpre as [l Hl']. pose proof (Hop_of k' Hk') as Hop'.
    rewrite Hl', lookup_app_l in Hop' by lia. by eapply list_elem_of_lookup_2.
Qed.

(** C2: the replicated service is linearizable: whatever messages the network
    loses, delays or repeats, and whenever servers crash and start again, once
    the clients' calls have returned, the operations they recorded, with the
    times at which each was called and returned, can be ordered so that the
    order respects real time and is a sequential history of a key/value
    store.  So the linearizability checker, run on the recorded history with
    [KvModel], accepts it whenever it answers.  This is for runs without
    snapshots (maxraftstate -1): with snapshots a committed operation can be
    lost, because a server may acknowledge entries it has dropped (C30). *)
Theorem kvraft_linearizable fmtX fmtY fmtS sortByTime rangeSet n now t :
  (∀ l, sortByTime l ≡ₚ l) → (∀ l, Sorted (λ x y, Less y x = false) (sortByTime l)) →
  kv_timed_reachable n now t → t_busy t = ∅ →
  history_linearizable kv_store_step ∅ (t_ops t) ∧
  (zlen (t_ops t) < 2 ^ 63 → t_ops t ≠ [] → ∀ sched b,
     CheckOperations fmtX fmtY fmtS sortByTime rangeSet KvModel (t_ops t) sched = Ret b → b = true).
Proof.
  intros Hperm Hsort Hr Hidle. destruct (asked_history _ _ _ Hr Hidle) as [Hlin Ht]. split; [done|].
  intros Hlen Hne sched b Hb. eapply (check_kv_answer fmtX fmtY fmtS sortByTime rangeSet Hperm Hsort); [done|by split|exact Hb|done].
Qed.
End timed.
