(* ===== verification/Schedule.v ===== *)
(** * Runs of replicated services

    A scheduler that performs the steps of Replicated.v in a given order, for
    a service whose applier is given as a function.  The runs it makes meet the
    hypotheses of the theorems on the services. *)

From Stdlib Require Import Strings.Byte.
From stdpp Require Import prelude gmap countable strings list.
From S2P Require Import Prelude Gob Raft RaftNode RaftServer RaftEvolve RaftNet RaftElection RaftCluster RaftSafetySteps RaftStateMachine RaftExample Replicated.
Local Open Scope Z_scope.

Inductive SysAction (C : Type) :=
  | SRaft (a : Action C)
  | SStart (i : nat) (c : C)
  | SApply (i : nat)
  | SHandle (i : nat)
  | SRestart (i : nat).
Arguments SRaft {C} _.
Arguments SStart {C} _ _.
Arguments SApply {C} _.
Arguments SHandle {C} _.
Arguments SRestart {C} _.

(** The steps of Raft that are steps of the service by themselves. *)
Definition allowed {C} (a : Action C) : bool :=
  match a with
  | ALocal _ (LStart _) | ALocal _ LApplyLog | ALocal _ (LSnapshot _ _) | ARestart _ => false
  | _ => true
  end.

Section scheduler.
Context {C Srv Par St : Type} `{Service C Srv Par St} `{Gob Z} `{Gob (list (LogEntry C))}.
Context (handle : Raft C → Srv → ApplyMsg C → outcome Srv) (p : Par).
Context (handle_ok : ∀ rf s m s', handle rf s m = Ret s' → sv_handles rf s m (Ret s')).
Context (G : Srv → C → Prop) `{!∀ s c, Decision (G s c)}.
Implicit Types (net : Net C) (sys : Sys C Srv).

Definition sact (a : SysAction C) sys : option (Sys C Srv) :=
  match a with
  | SRaft a => if allowed a then net' ← act a (s_net sys); Some (mkSys net' (s_apps sys)) else None
  | SStart i c =>
      nd ← nodes (s_net sys) !! i;
      app ← s_apps sys !! i;
      '(rf', ms) ← of_outcome (local (LStart (Some c)) (raft nd));
      if decide (G (a_srv app) c) then Some (mkSys (send i nd rf' ms (s_net sys)) (s_apps sys)) else None
  | SApply i =>
      nd ← nodes (s_net sys) !! i;
      app ← s_apps sys !! i;
      '(rf', r) ← of_outcome (applyLog (raft nd));
      Some (mkSys (send i nd rf' [] (s_net sys)) (<[i := mkApp (a_srv app) (a_chan app ++ default [] r)]> (s_apps sys)))
  | SHandle i =>
      nd ← nodes (s_net sys) !! i;
      app ← s_apps sys !! i;
      match a_chan app with
      | [] => None
      | m :: ms =>
          s' ← of_outcome (handle (raft nd) (a_srv app) m);
          Some (mkSys (s_net sys) (<[i := mkApp s' ms]> (s_apps sys)))
      end
  | SRestart i =>
      nd ← nodes (s_net sys) !! i;
      rf' ← of_outcome (Make (peers (raft nd)) (Raft.me (raft nd)) (persister (raft nd)));
      s' ← of_outcome (sv_start (peers (raft nd)) (Raft.me (raft nd)) (persister (raft nd)) p);
      Some (mkSys (mkNet (<[i := mkNode rf' (S (epoch nd))]> (nodes (s_net sys))) (calls (s_net sys))
                     (next_call (s_net sys)) (cast rf' ++ ballots (s_net sys)))
              (<[i := mkApp s' []]> (s_apps sys)))
  end.

Fixpoint sacts (l : list (SysAction C)) sys : option (Sys C Srv) :=
  match l with
  | [] => Some sys
  | a :: l => sys' ← sact a sys; sacts l sys'
  end.

Lemma put_raft_epochs (i : nat) (nd : Node C) rf' net :
  nodes net !! i = Some nd → epoch <$> <[i := mkNode rf' (epoch nd)]> (nodes net) = epoch <$> nodes net.
Proof.
  intros Hi. rewrite list_fmap_insert. apply list_insert_id. simpl. by rewrite list_lookup_fmap, Hi.
Qed.

Lemma act_allowed (a : Action C) net net' :
  allowed a = true → act a net = Some net' →
  net_step_if raft_event net net' ∧ epoch <$> nodes net' = epoch <$> nodes net.
Proof.
  intros Hok Hact. destruct a as [i ev|k|k|k|i]; [|unfold act in Hact..]; [|simplify_option_eq..].
  { assert (act_local i ev net = Some net') as Hl by by destruct ev. unfold act_local in Hl. apply bind_Some in Hl as (nd & Hi & ([rf' ms] & Hret%of_outcome_Some & ?)%bind_Some). simplify_eq.
    split; [eapply net_local; [exact Hi|exact Hret|by destruct ev]|by apply put_raft_epochs]. }
  all: repeat (simplify_option_eq || case_match);
    repeat match goal with Ho : of_outcome _ = Some _ |- _ => apply of_outcome_Some in Ho end.
  - split; [by eapply net_deliver|by apply put_raft_epochs].
  - split; [by eapply net_reply|by apply put_raft_epochs].
  - split; [apply net_drop|done].
Qed.

Lemma sact_sound a sys sys' : sact a sys = Some sys' → sys_step G p sys sys'.
Proof using handle_ok.
  destruct sys as [net apps]. destruct a as [a|i c|i|i|i]; cbn [sact s_net s_apps]; intros Hact;
    repeat (simplify_option_eq || case_match);
    repeat match goal with Ho : of_outcome _ = Some _ |- _ => apply of_outcome_Some in Ho end.
  - apply sys_raft; by eapply act_allowed.
  - by eapply sys_start.
  - by eapply sys_apply.
  - eapply sys_handle; [done..|by apply handle_ok].
  - by eapply sys_restart.
Qed.

Lemma sacts_sound l sys sys' : sacts l sys = Some sys' → rtc (sys_step G p) sys sys'.
Proof using handle_ok.
  revert sys. induction l as [|a l IH]; intros sys Hacts; simplify_option_eq; [done|].
  eapply rtc_l; [by eapply sact_sound|by apply IH].
Qed.
End scheduler.

(** ** Three servers that have just started *)

Section start.
Context {C Srv Par St : Type} `{Service C Srv Par St} `{GobLaws Z} `{GobLaws (list (LogEntry C))}.

Definition node0 (i : nat) : Node C :=
  mkNode (boot_state 3 (Z.of_nat i) MakePersister 0 Unvote [zeroEntry] 0 []) 0.
Definition boot_sys (srv : nat → Srv) : Sys C Srv :=
  mkSys (mkNet (node0 <$> [0; 1; 2]%nat) ∅ 0 []) ((λ i, mkApp (srv i) []) <$> [0; 1; 2]%nat).

Lemma boot_sys_init (p : Par) (srv : nat → Srv) :
  (∀ i, (i < 3)%nat → sv_start 3 (Z.of_nat i) MakePersister p = Ret (srv i)) → sys_init p 3 (boot_sys srv).
Proof.
  intros Hsrv. assert (∀ (i j : nat), [0; 1; 2]%nat !! i = Some j → j = i ∧ (i < 3)%nat) as Hlook.
  { intros [|[|[|i]]] j Hj; simplify_eq/=; auto with lia. }
  split; [|split; [done|]].
  - split_and!; [done..|]. intros i nd Hi. cbn [boot_sys s_net nodes] in Hi.
    rewrite list_lookup_fmap in Hi. apply fmap_Some in Hi as (j & [-> Hlt]%Hlook & ->).
    split; [done|]. by destruct (Make_fresh (C := C) 3 (Z.of_nat i)) as (rf & -> & _ & _ & _ & _ & ->); [lia|].
  - intros i app Hi. cbn [boot_sys s_apps] in Hi.
    rewrite list_lookup_fmap in Hi. apply fmap_Some in Hi as (j & [-> Hlt]%Hlook & ->).
    split; [done|]. exists p. split; [by apply Hsrv|done].
Qed.
End start.
