(* ===== verification/KvSystemExample.v ===== *)
(** * The replicated key/value service: a run

    A run of three servers: server 0 is elected, replicates a put, applies it
    and answers; then it leads on, tells server 1 that the put is committed,
    crashes and starts again.  The run meets the hypotheses of the theorems on
    the whole service. *)

From Stdlib Require Import Strings.Byte.
From stdpp Require Import prelude gmap countable strings list.
From S2P Require Import Prelude Gob Raft RaftNode RaftServer RaftEvolve RaftNet RaftElection RaftCluster RaftSafetySteps RaftStateMachine RaftExample Porcupine Linearizability PorcupineHistory Locality Models PorcupineProps Replicated Schedule KvRaft KvRaftProps KvSystem Clients KvRaftLinear.
Local Open Scope Z_scope.

Section run.
#[local] Instance GobOf `{Countable A} : Gob A := CountableGob A.
#[local] Instance GobLawsOf `{Countable A} : GobLaws A := CountableGobLaws A.

Definition kv0 (i : nat) : KVServer := mkKVServer (Z.of_nat i) (raft (node0 i)) false (-1) ∅ ∅ 0.
Definition sys0 : Sys Op KVServer := boot_sys kv0.

Lemma sys0_init : sys_init (-1) 3 sys0.
Proof.
  apply boot_sys_init. intros i Hi. simpl. unfold StartKVServer.
  by destruct (Make_fresh (C := Op) 3 (Z.of_nat i)) as (rf & -> & _ & _ & _ & _ & ->); [lia|].
Qed.

(** The applier as a function. *)
Definition kv_handle (rf : Raft Op) (kv : KVServer) (m : ApplyMsg Op) : outcome KVServer := applier (set_rf rf kv) m.

Lemma kv_handle_ok rf kv m kv' : kv_handle rf kv m = Ret kv' → sv_handles rf kv m (Ret kv').
Proof. by intros <-. Qed.

(** Client 9 puts "x"; only this has been asked for. *)
Definition put9 : Op := mkOp 9 0 false true false "x" "1".
Definition asked (op : Op) : Prop := op = put9.
#[local] Instance asked_dec op : Decision (asked op) := decide (op = put9).

Definition run_put : list (SysAction Op) :=
  [SRaft (ALocal 0 LElectionTimeout); SRaft (ADeliver 0); SRaft (AReply 0); SRaft (ADrop 1);
   SStart 0 put9; SRaft (ADeliver 2); SRaft (AReply 2); SApply 0; SHandle 0].

Definition get9 : Op := mkOp 9 1 true false false "x" "".

Definition run_later : list (SysAction Op) :=
  [SStart 0 get9; SRaft (ALocal 0 LHeartbeatTimeout); SRaft (ADeliver 6); SRaft (AReply 6);
   SApply 1; SHandle 1; SRestart 0].

Definition sys1 : Sys Op KVServer := default sys0 (sacts kv_handle (-1) (λ _, asked) run_put sys0).
Definition sys2 : Sys Op KVServer := default sys0 (sacts kv_handle (-1) (λ _ _, True) run_later sys1).

Lemma sys1_reachable : kv_reachable asked 3 sys1.
Proof. exists sys0. split; [apply sys0_init|]. apply (sacts_sound kv_handle (-1) kv_handle_ok (λ _, asked) run_put). vm_compute. reflexivity. Qed.

Lemma sys1_reachable_any : kv_reachable (λ _, True) 3 sys1.
Proof. exists sys0. split; [apply sys0_init|]. apply (sacts_sound kv_handle (-1) kv_handle_ok (λ _ _, True) run_put). vm_compute. reflexivity. Qed.

Lemma sys2_steps : rtc (kv_step (λ _, True)) sys1 sys2.
Proof. apply (sacts_sound kv_handle (-1) kv_handle_ok (λ _ _, True) run_later). vm_compute. reflexivity. Qed.

Definition nd1 (i : nat) : Node Op := default (node0 0) (nodes (s_net sys1) !! i).
Definition app1 (i : nat) : App Op KVServer := default (mkApp (kv0 0) []) (s_apps sys1 !! i).
Definition app2 (i : nat) : App Op KVServer := default (mkApp (kv0 0) []) (s_apps sys2 !! i).

(** Server 0 has applied the put; later it is server 1 that has. *)
Lemma kv_one_log_witness :
  LastApplied (a_srv (app1 0)) = 1 ∧ LastApplied (a_srv (app2 0)) = 0 ∧
  ∃ ops, follows ops (a_srv (app1 0)) ∧ follows ops (a_srv (app2 1)).
Proof.
  split_and!; [vm_compute; reflexivity..|].
  destruct (kv_one_log 3 sys1 sys2 sys1_reachable_any sys2_steps) as (ops & H1' & H2'). exists ops. split.
  - apply (H1' 0%nat). vm_compute. reflexivity.
  - apply (H2' 1%nat). vm_compute. reflexivity.
Defined.

(** Server 0 has answered the put, nothing else was asked for; the get that is
    started later comes later. *)
Lemma kv_answers_stand_witness :
  waitOp (set_rf (raft (nd1 0)) (a_srv (app1 0))) 9 0 1 = Some (OK, "") ∧
  ∃ ops (k : nat) op, ops !! k = Some op ∧ ClientId op = 9 ∧
    (∀ k', ops !! k' = Some get9 → (k < k')%nat) ∧ follows ops (a_srv (app2 1)).
Proof.
  assert (waitOp (set_rf (raft (nd1 0)) (a_srv (app1 0))) 9 0 1 = Some (OK, "")) as Hans by (vm_compute; reflexivity).
  split; [exact Hans|].
  destruct (kv_answers_stand asked 3 sys1 sys2 0 (nd1 0) (app1 0) 9 0 1 "" sys1_reachable sys2_steps)
    as (ops & k & op & Hk & Hc & _ & _ & _ & Hlater & _ & H2').
  - vm_compute. reflexivity.
  - vm_compute. reflexivity.
  - left. exact Hans.
  - exists ops, k, op. split_and!; [exact Hk|exact Hc| |].
    + intros k' Hk'. apply (Hlater k' get9 Hk'). unfold asked, get9, put9. congruence.
    + apply (H2' 1%nat). vm_compute. reflexivity.
Defined.

(** ** A recorded history *)

(** A client puts "x", server 0 is elected, commits and answers, and the
    client returns two ticks later. *)
Definition called (sys : Sys Op KVServer) : KvTSys := mkTSys sys 1 [(put9, 1)] {[9 := (put9, 1)]} [] [].
Definition returned (sys : Sys Op KVServer) : KvTSys :=
  mkTSys sys 3 [(put9, 1)] ∅ [mkAnswer 9 0 ""]
    [Porcupine.mkOperation 9 (mkKvInput 1 "x" "1") 1 (mkKvOutput "") 3].

#[local] Instance asked_calls_dec (t : KvTSys) op : Decision (Clients.asked t op).
Proof. unfold Clients.asked. apply _. Defined.

Lemma call_returns sys nd app :
  nodes (s_net sys) !! 0%nat = Some nd → s_apps sys !! 0%nat = Some app →
  waitOp (set_rf (raft nd) (a_srv app)) 9 0 1 = Some (OK, "") → rtc (timed_step kv_step sys_answers) (called sys) (returned sys).
Proof.
  intros Hi Ha Hans. eapply rtc_l.
  { apply (timed_answer _ _ (called sys) (mkAnswer 9 0 "")). exists 0%nat, nd, app. split_and!; [done|done|]. left. by exists 1. }
  eapply rtc_l; [by apply (timed_tick _ _ _ 3)|]. simpl.
  eapply rtc_l; [|apply rtc_refl].
  assert (delete 9 ({[9 := (put9, 1)]} : gmap Z (Op * Z)) = ∅) as Hd by (vm_compute; reflexivity).
  unfold returned. rewrite <-Hd.
  pose proof (timed_return kv_step sys_answers (mkTSys sys 3 [(put9, 1)] {[9 := (put9, 1)]} [mkAnswer 9 0 ""] []) put9 1
    (mkAnswer 9 0 "") eq_refl) as Hr.
  cbn [t_world t_now t_asked t_answers t_ops an_Value t_busy] in Hr. apply Hr; [left|reflexivity..].
Qed.

Lemma returned_reachable : kv_timed_reachable 3 1 (returned sys1).
Proof.
  exists sys0. split; [apply sys0_init|].
  eapply (rtc_l _ _ (called sys0)); [exact (timed_invoke _ _ (timed_start sys0 1) put9 I eq_refl eq_refl)|].
  transitivity (called sys1).
  { apply (service_steps kv_step sys_answers (called sys0)).
    apply (sacts_sound kv_handle (-1) kv_handle_ok (λ _, Clients.asked (called sys0)) run_put). vm_compute. reflexivity. }
  apply (call_returns sys1 (nd1 0) (app1 0)); vm_compute; reflexivity.
Qed.

Lemma kvraft_linearizable_witness : history_linearizable kv_store_step ∅ (t_ops (returned sys1)).
Proof.
  apply (kvraft_linearizable show_in show_out show_st timeSort rangeAll 3 1 (returned sys1) timeSort_perm timeSort_sorted
    returned_reachable). reflexivity.
Defined.
End run.
