(* ===== verification/ShardCtrler.v ===== *)
(** * The shard controller

    src/src/shardctrler: a replicated service that keeps a sequence of
    configurations, each an assignment of the [NShards] shards to replica
    groups (server.go, common.go).

    - A handler is split where it waits: [enter] is the code up to the wait
      loop, [waitOp] one evaluation of the loop's condition and the rest.
    - [applier] counts a message under the lock, releases it, and then calls
      [execOp]; other handlers may run in between, so [applierCount] and
      [execOp] are separate steps.  Only the applier writes [configs] and
      [lastOp], so the several short critical sections of [execJoin] and the
      others read what a single one would.
    - [for gid := range config.Groups] visits a map in an unspecified order:
      [makeShardBalance] takes the order as an argument. *)

From stdpp Require Import prelude gmap strings list sorting.
From S2P Require Import Prelude Gob Raft.
Local Open Scope Z_scope.

Definition NShards : Z := 10.
Definition InvalidGid : Z := 0.

Record Config := mkConfig {
  Num : Z;
  Shards : list Z;                 (* [NShards]int *)
  Groups : gmap Z (list string);
}.

Record Identifier := mkIdentifier { ClientId : Z; CallId : Z }.

Record JoinArgs := mkJoinArgs { j_Identifier : Identifier; Servers : gmap Z (list string) }.
Record LeaveArgs := mkLeaveArgs { l_Identifier : Identifier; GIDs : list Z }.
Record MoveArgs := mkMoveArgs { m_Identifier : Identifier; Shard : Z; GID : Z }.
Record QueryArgs := mkQueryArgs { q_Identifier : Identifier; q_Num : Z }.

Inductive OpType := Join | Leave | Move | Query.

#[export] Instance OpType_eq_dec : EqDecision OpType.
Proof. solve_decision. Defined.

(** [Args interface{}] *)
Inductive OpArgs :=
  | AJoin (args : JoinArgs)
  | ALeave (args : LeaveArgs)
  | AMove (args : MoveArgs)
  | AQuery (args : QueryArgs).

Record Op := mkOp { op_OpType : OpType; Args : OpArgs }.

(** [CloneConfig] of a zero value is the result of an operation that has none. *)
Record LastOperation := mkLastOperation { lo_CallId : Z; lo_Config : Config }.

Definition zeroConfig : Config := mkConfig 0 (replicate 10 0) ∅.

Record ShardCtrler := mkShardCtrler {
  me : Z;
  rf : Raft Op;
  dead : bool;
  configs : list Config;
  lastOp : gmap Z LastOperation;
  lastApplied : Z;
}.

(** The common shape of the four replies. *)
Record Reply := mkReply { WrongLeader : bool; r_Config : Config }.

(** ** Copies *)

Definition cloneStringSlice (a : list string) : list string := take (length a) a.
Definition cloneMap (a : gmap Z (list string)) : gmap Z (list string) := cloneStringSlice <$> a.
Definition CloneConfig (a : Config) : Config := mkConfig (Num a) (Shards a) (cloneMap (Groups a)).

(** ** [makeShardBalance] *)

(** The first loop: [i] is the index of the first of the remaining shards. *)
Fixpoint collectShards (groups : gmap Z (list string)) (x : Z) (i : Z) (rest : list Z)
    (cnt : gmap Z Z) (r : Z) (shards : list Z) : gmap Z Z * Z * list Z :=
  match rest with
  | [] => (cnt, r, shards)
  | gid :: rest =>
      match groups !! gid with
      | Some _ =>
          let cnt := match cnt !! gid with Some _ => cnt | None => <[gid := 0]> cnt end in
          let c := default 0 (cnt !! gid) in
          if c >=? x then
            if c =? x then
              if r =? 0 then collectShards groups x (i + 1) rest cnt r (shards ++ [i])
              else collectShards groups x (i + 1) rest (<[gid := c + 1]> cnt) (r - 1) shards
            else collectShards groups x (i + 1) rest cnt r (shards ++ [i])
          else collectShards groups x (i + 1) rest (<[gid := c + 1]> cnt) r shards
      | None => collectShards groups x (i + 1) rest cnt r (shards ++ [i])
      end
  end.

(** [config.Shards[shards[len(shards)-1]] = gid; shards = shards[:len(shards)-1]] *)
Definition giveShard (conf shards : list Z) (gid : Z) : outcome (list Z * list Z) :=
  i ← go_index shards (zlen shards - 1);
  conf ← go_set conf i gid;
  shards ← go_slice_to shards (zlen shards - 1);
  Ret (conf, shards).

(** [for i < x], [n] iterations. *)
Fixpoint fillGroup (n : nat) (conf shards : list Z) (gid : Z) : outcome (list Z * list Z) :=
  match n with
  | O => Ret (conf, shards)
  | S n => '(conf, shards) ← giveShard conf shards gid; fillGroup n conf shards gid
  end.

(** The last loop, over [t]. *)
Fixpoint assignShards (x : Z) (t : list (Z * Z)) (conf : list Z) (r : Z) (shards : list Z)
    : outcome (list Z) :=
  match t with
  | [] => Ret conf
  | (gid, i) :: t =>
      '(conf, shards) ← fillGroup (Z.to_nat (x - i)) conf shards gid;
      if (Z.max i x =? x) && (r >? 0) then
        '(conf, shards) ← giveShard conf shards gid;
        assignShards x t conf (r - 1) shards
      else assignShards x t conf r shards
  end.

Definition gid_le (a b : Z * Z) : Prop := a.1 ≤ b.1.
#[export] Instance gid_le_dec a b : Decision (gid_le a b).
Proof. unfold gid_le. apply _. Defined.

Definition makeShardBalance (order : list Z) (config : Config) : outcome Config :=
  let groupNum := Z.of_nat (size (Groups config)) in
  if groupNum =? 0 then
    Ret (mkConfig (Num config) ((λ _, InvalidGid) <$> Shards config) (Groups config))
  else
    let x := Z.quot NShards groupNum in
    let r := Z.rem NShards groupNum in
    let '(cnt, r, shards) := collectShards (Groups config) x 0 (Shards config) ∅ r [] in
    let t := (λ gid, (gid, default 0 (cnt !! gid))) <$> order in
    let t := merge_sort gid_le t in
    conf ← assignShards x t (Shards config) r shards;
    Ret (mkConfig (Num config) conf (Groups config)).

(** ** Operations *)

Section exec.
Implicit Types sc : ShardCtrler.

Definition executed sc (id : Identifier) : bool :=
  match lastOp sc !! ClientId id with Some v => lo_CallId v >=? CallId id | None => false end.

(** Append a configuration, record the operation (and wake the handlers). *)
Definition commitConfig sc (id : Identifier) (config : Config) : ShardCtrler :=
  mkShardCtrler (me sc) (rf sc) (dead sc) (configs sc ++ [config])
    (<[ClientId id := mkLastOperation (CallId id) zeroConfig]> (lastOp sc)) (lastApplied sc).

(** [Config{Num: Num, Shards: config.Shards, Groups: cloneMap(config.Groups)}] *)
Definition nextConfig sc : outcome Config :=
  let num := zlen (configs sc) in
  config ← go_index (configs sc) (num - 1);
  Ret (mkConfig num (Shards config) (cloneMap (Groups config))).

Definition execJoin (order : gmap Z (list string) → list Z) sc (args : JoinArgs) : outcome ShardCtrler :=
  if executed sc (j_Identifier args) then Ret sc
  else
    newConfig ← nextConfig sc;
    let newConfig := mkConfig (Num newConfig) (Shards newConfig) (Servers args ∪ Groups newConfig) in
    newConfig ← makeShardBalance (order (Groups newConfig)) newConfig;
    Ret (commitConfig sc (j_Identifier args) newConfig).

Definition execLeave (order : gmap Z (list string) → list Z) sc (args : LeaveArgs) : outcome ShardCtrler :=
  if executed sc (l_Identifier args) then Ret sc
  else
    newConfig ← nextConfig sc;
    let newConfig := mkConfig (Num newConfig) (Shards newConfig)
                       (foldl (λ m gid, delete gid m) (Groups newConfig) (GIDs args)) in
    newConfig ← makeShardBalance (order (Groups newConfig)) newConfig;
    Ret (commitConfig sc (l_Identifier args) newConfig).

Definition execMove sc (args : MoveArgs) : outcome ShardCtrler :=
  if executed sc (m_Identifier args) then Ret sc
  else
    newConfig ← nextConfig sc;
    conf ← go_set (Shards newConfig) (Shard args) (GID args);
    Ret (commitConfig sc (m_Identifier args) (mkConfig (Num newConfig) conf (Groups newConfig))).

Definition execQuery sc (args : QueryArgs) : outcome ShardCtrler :=
  if executed sc (q_Identifier args) then Ret sc
  else
    config ← (if (q_Num args =? -1) || (q_Num args >=? zlen (configs sc))
              then go_index (configs sc) (zlen (configs sc) - 1)
              else go_index (configs sc) (q_Num args));
    Ret (mkShardCtrler (me sc) (rf sc) (dead sc) (configs sc)
           (<[ClientId (q_Identifier args) :=
                mkLastOperation (CallId (q_Identifier args)) (CloneConfig config)]> (lastOp sc))
           (lastApplied sc)).

(** A failed type assertion [op.Args.(JoinArgs)] panics. *)
Definition execOp (order : gmap Z (list string) → list Z) sc (op : Op) : outcome ShardCtrler :=
  match op_OpType op, Args op with
  | Join, AJoin args => execJoin order sc args
  | Leave, ALeave args => execLeave order sc args
  | Move, AMove args => execMove sc args
  | Query, AQuery args => execQuery sc args
  | _, _ => Panic (Explicit "interface conversion")
  end.

(** The first critical section of [applier]. *)
Definition applierCount sc (index : Z) : outcome ShardCtrler :=
  if negb (lastApplied sc + 1 =? index) then Panic (Explicit "sc.lastApplied + 1 != m.CommandIndex")
  else Ret (mkShardCtrler (me sc) (rf sc) (dead sc) (configs sc) (lastOp sc) (lastApplied sc + 1)).

Definition applier (order : gmap Z (list string) → list Z) sc (m : ApplyMsg Op) : outcome ShardCtrler :=
  if CommandValid m then
    sc ← applierCount sc (CommandIndex m);
    match msg_Command m with
    | Some op => execOp order sc op
    | None => Panic (Explicit "interface conversion")
    end
  else Ret sc.
End exec.

(** ** RPC handlers *)
Section handlers.
Context `{Gob Z} `{Gob (list (LogEntry Op))}.
Implicit Types sc : ShardCtrler.

Definition check sc (startTerm index : Z) : bool :=
  let '(currentTerm, _) := GetState (rf sc) in
  (currentTerm =? startTerm) && (lastApplied sc <? index).

Definition checkExecuted sc (clientId callId : Z) (opType : OpType) : option Reply :=
  match lastOp sc !! clientId with
  | None => None
  | Some v =>
      if lo_CallId v <? callId then None
      else
        let eq := lo_CallId v =? callId in
        match opType with
        | Query =>
            if eq then Some (mkReply false (CloneConfig (lo_Config v)))
            else Some (mkReply true zeroConfig)
        | _ => Some (mkReply (negb eq) zeroConfig)
        end
  end.

(** The handlers up to the wait loop: a reply, or the index and the term of
    the started operation; and the messages Raft sends. *)
Definition enter sc (id : Identifier) (op : Op)
    : outcome (ShardCtrler * (Reply + Z * Z) * list (Z * Rpc Op)) :=
  match checkExecuted sc (ClientId id) (CallId id) (op_OpType op) with
  | Some reply => Ret (sc, inl reply, [])
  | None =>
      '(rf', (index, startTerm, isLeader), ms) ← Start (Some op) (rf sc);
      let sc := mkShardCtrler (me sc) rf' (dead sc) (configs sc) (lastOp sc) (lastApplied sc) in
      Ret (sc, if (isLeader : bool) then inr (index, startTerm) else inl (mkReply true zeroConfig), ms)
  end.

Definition Join_enter sc (args : JoinArgs) := enter sc (j_Identifier args) (mkOp Join (AJoin args)).
Definition Leave_enter sc (args : LeaveArgs) := enter sc (l_Identifier args) (mkOp Leave (ALeave args)).
Definition Move_enter sc (args : MoveArgs) := enter sc (m_Identifier args) (mkOp Move (AMove args)).
Definition Query_enter sc (args : QueryArgs) := enter sc (q_Identifier args) (mkOp Query (AQuery args)).

(** From the wait loop on; [None] while the handler has to wait. *)
Definition waitOp sc (opType : OpType) (id : Identifier) (index startTerm : Z) : option Reply :=
  if check sc startTerm index then None
  else
    let '(currentTerm, _) := GetState (rf sc) in
    if negb (currentTerm =? startTerm) then Some (mkReply true zeroConfig)
    else
      match lastOp sc !! ClientId id with
      | Some v =>
          if lo_CallId v =? CallId id then
            Some (mkReply false (match opType with
                                 | Query => CloneConfig (lo_Config v)
                                 | _ => zeroConfig
                                 end))
          else Some (mkReply true zeroConfig)
      | None => Some (mkReply true zeroConfig)
      end.

Definition Join_wait sc (args : JoinArgs) := waitOp sc Join (j_Identifier args).
Definition Leave_wait sc (args : LeaveArgs) := waitOp sc Leave (l_Identifier args).
Definition Move_wait sc (args : MoveArgs) := waitOp sc Move (m_Identifier args).
Definition Query_wait sc (args : QueryArgs) := waitOp sc Query (q_Identifier args).

Definition Kill sc : ShardCtrler :=
  mkShardCtrler (me sc) (Raft.Kill (rf sc)) true (configs sc) (lastOp sc) (lastApplied sc).
Definition killed sc : bool := dead sc.

Definition StartServer (n : nat) (i : Z) (ps : Persister) : outcome ShardCtrler :=
  rf ← Make n i ps;
  Ret (mkShardCtrler i rf false [zeroConfig] ∅ 0).
End handlers.

(** ** Clerk *)

Record Clerk := mkClerk {
  servers : nat;
  ClientID : Z;
  NextCallID : Z;
  lastLeader : Z;
}.

Definition InvalidServer : Z := -1.

Definition MakeClerk (n : nat) (nrand : Z) : Clerk := mkClerk n nrand 0 InvalidServer.

Definition makeIdentifier (ck : Clerk) : Clerk * Identifier :=
  (mkClerk (servers ck) (ClientID ck) (NextCallID ck + 1) (lastLeader ck),
   mkIdentifier (ClientID ck) (NextCallID ck)).

(** [makeCall(...) && !reply.WrongLeader]; [None]: the call failed or timed
    out. *)
Definition accepted (r : option Reply) : option Config :=
  match r with Some reply => if WrongLeader reply then None else Some (r_Config reply) | None => None end.

Fixpoint tryServers (call : Z → option Reply) (js : list Z) : option (Z * Config) :=
  match js with
  | [] => None
  | i :: js => match accepted (call i) with Some v => Some (i, v) | None => tryServers call js end
  end.

(** One turn of the loop: [first] is the call to [lastLeader], [call i] the
    later one to server [i]. *)
Definition clerkRound (ck : Clerk) (first : option Reply) (call : Z → option Reply) : option (Clerk * Config) :=
  match (if lastLeader ck =? InvalidServer then None else accepted first) with
  | Some v => Some (ck, v)
  | None =>
      match tryServers call (seqZ 0 (Z.of_nat (servers ck))) with
      | Some (i, v) => Some (mkClerk (servers ck) (ClientID ck) (NextCallID ck) i, v)
      | None => None
      end
  end.

Fixpoint clerkLoop (ck : Clerk) (rounds : list (option Reply * (Z → option Reply))) : option (Clerk * Config) :=
  match rounds with
  | [] => None
  | (first, call) :: rounds =>
      match clerkRound ck first call with
      | Some r => Some r
      | None => clerkLoop ck rounds
      end
  end.

(** The operations; what the network does depends on the arguments sent.
    [None]: the clerk is still trying after these rounds. *)
Definition clerk_Query (ck : Clerk) (num : Z) (rounds : QueryArgs → list (option Reply * (Z → option Reply)))
    : option (Clerk * Config) :=
  let '(ck, id) := makeIdentifier ck in clerkLoop ck (rounds (mkQueryArgs id num)).
Definition clerk_Join (ck : Clerk) (groups : gmap Z (list string))
    (rounds : JoinArgs → list (option Reply * (Z → option Reply))) : option Clerk :=
  let '(ck, id) := makeIdentifier ck in fst <$> clerkLoop ck (rounds (mkJoinArgs id groups)).
Definition clerk_Leave (ck : Clerk) (gids : list Z)
    (rounds : LeaveArgs → list (option Reply * (Z → option Reply))) : option Clerk :=
  let '(ck, id) := makeIdentifier ck in fst <$> clerkLoop ck (rounds (mkLeaveArgs id gids)).
Definition clerk_Move (ck : Clerk) (shard gid : Z)
    (rounds : MoveArgs → list (option Reply * (Z → option Reply))) : option Clerk :=
  let '(ck, id) := makeIdentifier ck in fst <$> clerkLoop ck (rounds (mkMoveArgs id shard gid)).
