(* ===== verification/ShardBalance.v ===== *)
(** * The shard controller: balancing

    [makeShardBalance] always returns, gives every shard to an existing group,
    gives each group [NShards / n] shards or one more, does not depend on the
    iteration order of the map of groups, and does not take a shard from a
    group that has no more than its share.

    The proof marks the shards still to be handed out ([None]) and follows how
    many shards each group holds through the two loops. *)

From stdpp Require Import prelude gmap strings list sorting.
From S2P Require Import Prelude ShardCtrler.
Local Open Scope Z_scope.

(** ** Counting *)
Section counting.
Context `{EqDecision A}.
Implicit Types (l : list A).

Definition occ (y : A) l : Z := zlen (filter (λ z, z = y) l).

Lemma occ_app y l1 l2 : occ y (l1 ++ l2) = occ y l1 + occ y l2.
Proof. unfold occ. rewrite filter_app, length_app. lia. Qed.

Lemma occ_cons y z l : occ y (z :: l) = (if decide (z = y) then 1 else 0) + occ y l.
Proof. unfold occ. rewrite filter_cons. case_decide; simpl; lia. Qed.

Lemma occ_insert y l (j : nat) old new :
  l !! j = Some old →
  occ y (<[j := new]> l) =
  occ y l - (if decide (old = y) then 1 else 0) + (if decide (new = y) then 1 else 0).
Proof.
  intros Hj. pose proof (lookup_lt_Some _ _ _ Hj). rewrite insert_take_drop by done.
  rewrite <-(take_drop_middle l j old Hj) at 3. rewrite !occ_app, !occ_cons. lia.
Qed.

Lemma occ_nonneg y l : 0 ≤ occ y l.
Proof. unfold occ. lia. Qed.

(** Sums over a list of keys. *)
Definition sum_over (f : A → Z) l : Z := foldr (λ y s, f y + s) 0 l.

Lemma sum_over_ext f g l : (∀ y, y ∈ l → f y = g y) → sum_over f l = sum_over g l.
Proof.
  induction l as [|y l IH]; intros Hfg; simpl; [done|].
  rewrite Hfg by (by left). rewrite IH; [done|]. intros. apply Hfg. by right.
Qed.

Lemma sum_over_linear f g l : sum_over (λ y, f y + g y) l = sum_over f l + sum_over g l.
Proof. induction l; simpl; lia. Qed.

Lemma sum_over_const z l : sum_over (λ _, z) l = z * zlen l.
Proof. induction l; simpl; lia. Qed.

Lemma sum_over_update f l y d :
  NoDup l → y ∈ l →
  sum_over (λ z, if decide (z = y) then f z + d else f z) l = sum_over f l + d.
Proof.
  induction 1 as [|z l Hz _ IH]; [by intros ?%not_elem_of_nil|]. simpl.
  intros [->|Hy]%elem_of_cons.
  - rewrite decide_True by done.
    rewrite (sum_over_ext (λ z0, if decide (z0 = z) then f z0 + d else f z0) f); [lia|].
    intros w Hw. rewrite decide_False; [done|]. by intros ->.
  - rewrite decide_False by (by intros ->). rewrite IH by done. lia.
Qed.

Lemma sum_over_nonneg f l : (∀ y, y ∈ l → 0 ≤ f y) → 0 ≤ sum_over f l.
Proof.
  induction l as [|y l IH]; intros Hf; simpl; [lia|].
  pose proof (Hf y ltac:(by left)). specialize (IH ltac:(intros; apply Hf; by right)). lia.
Qed.
End counting.

(** ** Marked assignments *)

(** The assignment with the shards of [todo] taken out. *)
Definition marked (conf todo : list Z) : list (option Z) :=
  imap (λ i gid, if decide (Z.of_nat i ∈ todo) then None else Some gid) conf.

Definition held_by (conf todo : list Z) (gid : Z) : Z := occ (Some gid) (marked conf todo).

Lemma marked_length conf todo : length (marked conf todo) = length conf.
Proof. apply length_imap. Qed.

Lemma marked_lookup conf todo (i : nat) :
  marked conf todo !! i =
  (λ gid, if decide (Z.of_nat i ∈ todo) then None else Some gid) <$> conf !! i.
Proof. apply list_lookup_imap. Qed.

Lemma marked_nil conf : marked conf [] = Some <$> conf.
Proof. apply list_eq. intros i. rewrite marked_lookup, list_lookup_fmap. by destruct (conf !! i). Qed.

(** Handing out the shard [j]. *)
Lemma marked_give conf todo (j : nat) gid :
  (j < length conf)%nat → Z.of_nat j ∉ todo →
  marked (<[j := gid]> conf) todo = <[j := Some gid]> (marked conf (todo ++ [Z.of_nat j])).
Proof.
  intros Hj Hn. apply list_eq. intros i. rewrite marked_lookup.
  destruct (decide (i = j)) as [->|Hne].
  - rewrite !list_lookup_insert_eq by (by rewrite ?marked_length). simpl. by rewrite decide_False.
  - rewrite !list_lookup_insert_ne, marked_lookup by done. destruct (conf !! i); [|done]. simpl. f_equal.
    assert (Z.of_nat i ∈ todo ++ [Z.of_nat j] ↔ Z.of_nat i ∈ todo) as Hiff.
    { rewrite elem_of_app, list_elem_of_singleton. split; [intros [?|?]; [done|lia]|by left]. }
    destruct (decide (Z.of_nat i ∈ todo)); [by rewrite decide_True by tauto|by rewrite decide_False by tauto].
Qed.

Lemma held_by_give conf todo (j : nat) gid gid' :
  (j < length conf)%nat → Z.of_nat j ∉ todo →
  held_by (<[j := gid]> conf) todo gid' =
  held_by conf (todo ++ [Z.of_nat j]) gid' + (if decide (gid = gid') then 1 else 0).
Proof.
  intros Hj Hn. unfold held_by. rewrite marked_give by done.
  destruct (lookup_lt_is_Some_2 conf j Hj) as [g Hg].
  rewrite (occ_insert _ _ _ None).
  - rewrite decide_False by done.
    destruct (decide (Some gid = Some gid')), (decide (gid = gid')); try lia; simplify_eq.
  - rewrite marked_lookup, Hg. simpl. f_equal. apply decide_True. apply elem_of_app. right. by left.
Qed.

(** Looking at one more shard. *)
Lemma marked_snoc conf todo gid :
  (∀ j, j ∈ todo → j < zlen conf) →
  marked (conf ++ [gid]) todo = marked conf todo ++ [Some gid] ∧
  marked (conf ++ [gid]) (todo ++ [zlen conf]) = marked conf todo ++ [None].
Proof.
  intros Hlt. unfold marked. rewrite !imap_app. simpl. split.
  - f_equal. rewrite decide_False; [done|]. rewrite Nat.add_0_r. intros Hin. specialize (Hlt _ Hin). lia.
  - f_equal.
    + apply imap_ext. intros i g Hi. apply lookup_lt_Some in Hi.
      assert (Z.of_nat i ∈ todo ++ [zlen conf] ↔ Z.of_nat i ∈ todo) as Hiff.
      { rewrite elem_of_app, list_elem_of_singleton. split; [intros [?|?]; [done|lia]|by left]. }
      destruct (decide (Z.of_nat i ∈ todo)); [by rewrite decide_True by tauto|by rewrite decide_False by tauto].
    + rewrite decide_True; [done|]. rewrite Nat.add_0_r. apply elem_of_app. right. by left.
Qed.

(** ** The first loop *)
Section collect.
Context (groups : gmap Z (list string)) (keys : list Z).
Context (Hkeys : ∀ g, g ∈ keys ↔ is_Some (groups !! g)) (Hnodup : NoDup keys).
Context (x r0 : Z) (Hx : 0 ≤ x).

Definition count (cnt : gmap Z Z) (g : Z) : Z := default 0 (cnt !! g).

(** How many groups have their share and one more. *)
Definition full (cnt : gmap Z Z) : Z := sum_over (λ g, if decide (count cnt g = x + 1) then 1 else 0) keys.

(** After the shards [p] were looked at. *)
Record collected (p : list Z) (cnt : gmap Z Z) (r : Z) (todo : list Z) : Prop := mkCollected {
  cd_nodup : NoDup todo;
  cd_range j : j ∈ todo → 0 ≤ j < zlen p;
  cd_held g : held_by p todo g = count cnt g;
  cd_valid g : Some g ∈ marked p todo → g ∈ keys;
  cd_share g : 0 ≤ count cnt g ≤ x + 1;
  cd_sum : sum_over (count cnt) keys + zlen todo = zlen p;
  cd_full : full cnt + r = r0;
  cd_r : 0 ≤ r;
  cd_moved j g : j ∈ todo → p !! Z.to_nat j = Some g → g ∈ keys → x < occ g p;
}.

Lemma held_le_occ p todo g : held_by p todo g ≤ occ g p.
Proof.
  unfold held_by. induction p as [|g' p IH] using rev_ind; [done|].
  unfold marked. rewrite imap_app, !occ_app. fold (marked p todo). simpl.
  unfold occ at 2 4. rewrite !filter_cons, !filter_nil.
  destruct (decide (Z.of_nat _ ∈ todo)); repeat case_decide; simplify_eq/=; lia.
Qed.

(** Shard [zlen p] is put aside. *)
Lemma collected_aside p cnt r todo gid :
  collected p cnt r todo → (gid ∈ keys → x ≤ count cnt gid) →
  collected (p ++ [gid]) cnt r (todo ++ [zlen p]).
Proof.
  intros [Hnd Hr Hh Hv Hs Hsum Hf Hr0 Hm] Hg.
  assert (∀ j, j ∈ todo → j < zlen p) as Hlt by (intros j ?%Hr; lia).
  destruct (marked_snoc p todo gid Hlt) as [_ Hmk].
  assert (∀ g, held_by (p ++ [gid]) (todo ++ [zlen p]) g = held_by p todo g) as Hheld.
  { intros g. unfold held_by. rewrite Hmk, occ_app. unfold occ at 2. simpl. lia. }
  split; try done.
  - apply NoDup_app. split_and!; [done| |apply NoDup_singleton].
    intros j Hj ->%list_elem_of_singleton. apply Hlt in Hj. lia.
  - intros j [Hj|Hj%list_elem_of_singleton]%elem_of_app; rewrite length_app; simpl;
      [apply Hr in Hj|]; lia.
  - intros g. by rewrite Hheld.
  - intros g. rewrite Hmk. intros [?|?%list_elem_of_singleton]%elem_of_app; [by apply Hv|done].
  - rewrite !length_app. simpl. lia.
  - intros j g [Hj|Hj%list_elem_of_singleton]%elem_of_app Hl Hgk; rewrite occ_app.
    + rewrite lookup_app_l in Hl by (apply Hr in Hj; lia).
      specialize (Hm j g Hj Hl Hgk). pose proof (occ_nonneg g [gid]). lia.
    + subst j. rewrite Nat2Z.id, lookup_app_r, Nat.sub_diag in Hl by done. simplify_eq/=.
      specialize (Hg Hgk). rewrite <-Hh in Hg. pose proof (held_le_occ p todo g).
      unfold occ at 2. rewrite filter_cons, filter_nil, decide_True by done. simpl. lia.
Qed.

(** Shard [zlen p] stays with its group. *)
Lemma collected_stay p cnt r r' todo gid :
  collected p cnt r todo → gid ∈ keys → count cnt gid ≤ x → 0 ≤ r' →
  r' = (if decide (count cnt gid = x) then r - 1 else r) →
  collected (p ++ [gid]) (<[gid := count cnt gid + 1]> cnt) r' todo.
Proof.
  intros [Hnd Hr Hh Hv Hs Hsum Hf Hr0 Hm] Hg Hle Hr' Heq.
  assert (∀ j, j ∈ todo → j < zlen p) as Hlt by (intros j ?%Hr; lia).
  destruct (marked_snoc p todo gid Hlt) as [Hmk _].
  assert (∀ g, count (<[gid := count cnt gid + 1]> cnt) g =
    if decide (g = gid) then count cnt g + 1 else count cnt g) as Hcount.
  { intros g. unfold count. destruct (decide (g = gid)) as [->|];
      [by rewrite lookup_insert_eq|by rewrite lookup_insert_ne]. }
  split; try done.
  - intros j Hj. rewrite length_app. simpl. apply Hr in Hj. lia.
  - intros g. unfold held_by. rewrite Hmk, occ_app, Hcount. fold (held_by p todo g). rewrite Hh.
    unfold occ. rewrite filter_cons, filter_nil. destruct (decide (g = gid)) as [->|Hne];
      [rewrite decide_True by done|rewrite decide_False by congruence]; simpl; lia.
  - intros g. rewrite Hmk. intros [?|?%list_elem_of_singleton]%elem_of_app; [by apply Hv|congruence].
  - intros g. rewrite Hcount. destruct (decide (g = gid)) as [->|]; [|by apply Hs]. specialize (Hs gid). lia.
  - rewrite (sum_over_ext _ _ _ (λ g _, Hcount g)), sum_over_update, length_app by done. simpl. lia.
  - unfold full in *.
    rewrite (sum_over_ext _ (λ g, if decide (g = gid) then
      (if decide (count cnt g = x + 1) then 1 else 0) + (if decide (count cnt gid = x) then 1 else 0)
      else if decide (count cnt g = x + 1) then 1 else 0)).
    + rewrite sum_over_update by done. subst r'. case_decide; lia.
    + intros g _. rewrite Hcount. destruct (decide (g = gid)) as [->|]; [|done]. repeat case_decide; lia.
  - intros j g Hj Hl Hgk. rewrite lookup_app_l in Hl by (apply Hr in Hj; lia). rewrite occ_app.
    specialize (Hm j g Hj Hl Hgk). pose proof (occ_nonneg g [gid]). lia.
Qed.

(** [cnt[gid] = 0] for a group without an entry changes no count. *)
Lemma collected_zero p cnt r todo gid :
  collected p cnt r todo → cnt !! gid = None → collected p (<[gid := 0]> cnt) r todo.
Proof.
  intros [Hnd Hr Hh Hv Hs Hsum Hf Hr0 Hm] Hnone.
  assert (∀ g, count (<[gid := 0]> cnt) g = count cnt g) as Hcount.
  { intros g. unfold count. destruct (decide (g = gid)) as [->|];
      [by rewrite lookup_insert_eq, Hnone|by rewrite lookup_insert_ne]. }
  split; try done.
  - intros g. by rewrite Hcount.
  - intros g. by rewrite Hcount.
  - by rewrite (sum_over_ext _ _ _ (λ g _, Hcount g)).
  - unfold full in *. rewrite <-Hf. f_equal. apply sum_over_ext. intros g _. by rewrite Hcount.
Qed.

Lemma collectShards_spec rest p cnt r todo cnt' r' todo' :
  collected p cnt r todo →
  collectShards groups x (zlen p) rest cnt r todo = (cnt', r', todo') →
  collected (p ++ rest) cnt' r' todo'.
Proof.
  revert p cnt r todo. induction rest as [|gid rest IH]; intros p cnt r todo Hc Heq; simpl in Heq.
  { simplify_eq. by rewrite app_nil_r. }
  rewrite (cons_middle gid p rest), app_assoc.
  replace (zlen p + 1) with (zlen (p ++ [gid])) in Heq by (rewrite length_app; simpl; lia).
  destruct (groups !! gid) as [names|] eqn:Hgrp.
  2:{ eapply IH; [|exact Heq]. apply collected_aside; [done|].
      intros [? Hg]%Hkeys. by rewrite Hg in Hgrp. }
  assert (gid ∈ keys) as Hg by (apply Hkeys; by eexists).
  set (cnt1 := match cnt !! gid with Some _ => cnt | None => _ end) in Heq.
  assert (collected p cnt1 r todo) as Hc1.
  { subst cnt1. destruct (cnt !! gid) eqn:Hn; [done|by apply collected_zero]. }
  clearbody cnt1. clear Hc. fold (count cnt1 gid) in Heq.
  destruct (count cnt1 gid >=? x) eqn:?; [destruct (count cnt1 gid =? x) eqn:?|].
  - destruct (r =? 0) eqn:?; (eapply IH; [|exact Heq]).
    + apply collected_aside; [done|]. zlia.
    + apply (collected_stay _ _ r); [done|done|zlia|pose proof (cd_r _ _ _ _ Hc1); zlia|].
      rewrite decide_True by zlia. done.
  - eapply IH; [|exact Heq]. apply collected_aside; [done|]. zlia.
  - eapply IH; [|exact Heq]. apply (collected_stay _ _ r); [done|done|zlia|apply (cd_r _ _ _ _ Hc1)|].
    rewrite decide_False by zlia. done.
Qed.
End collect.

(** ** The last loop *)

(** [n] shards are handed to [gid]. *)
Record handed (n : nat) (gid : Z) (conf todo conf' todo' : list Z) : Prop := mkHanded {
  ha_len : length conf' = length conf;
  ha_prefix : todo' `prefix_of` todo;
  ha_todo : length todo = (length todo' + n)%nat;
  ha_held g : held_by conf' todo' g = held_by conf todo g + (if decide (gid = g) then Z.of_nat n else 0);
  ha_valid g : Some g ∈ marked conf' todo' → g = gid ∨ Some g ∈ marked conf todo;
  ha_kept (i : nat) : Z.of_nat i ∉ todo → conf' !! i = conf !! i;
}.

Lemma giveShard_spec conf todo (j : nat) gid :
  (j < length conf)%nat → Z.of_nat j ∉ todo →
  giveShard conf (todo ++ [Z.of_nat j]) gid = Ret (<[j := gid]> conf, todo) ∧
  handed 1 gid conf (todo ++ [Z.of_nat j]) (<[j := gid]> conf) todo.
Proof.
  intros Hj Hn. split.
  - unfold giveShard. rewrite length_app. simpl length.
    replace (Z.of_nat (length todo + 1) - 1) with (zlen todo) by lia.
    rewrite (go_index_lookup _ (length todo) (Z.of_nat j)) by (by rewrite lookup_app_r, Nat.sub_diag).
    rewrite bind_Ret, go_set_in_range, bind_Ret, Nat2Z.id by lia.
    rewrite go_slice_to_in_range, bind_Ret, Nat2Z.id by (rewrite length_app; lia).
    by rewrite take_app_length.
  - split.
    + apply length_insert.
    + by apply prefix_app_r.
    + rewrite length_app. simpl. done.
    + intros g. by apply held_by_give.
    + intros g. rewrite marked_give by done. intros [i Hi]%list_elem_of_lookup.
      apply list_lookup_insert_Some in Hi as [(<- & ? & _)|[_ Hi]]; [left; congruence|right].
      by eapply list_elem_of_lookup_2.
    + intros i Hi. apply list_lookup_insert_ne. intros ->. apply Hi, elem_of_app. right. by left.
Qed.

Lemma handed_trans n m gid conf todo conf1 todo1 conf2 todo2 :
  handed n gid conf todo conf1 todo1 → handed m gid conf1 todo1 conf2 todo2 →
  handed (n + m) gid conf todo conf2 todo2.
Proof.
  intros [L1 P1 T1 H1 V1 K1] [L2 P2 T2 H2 V2 K2]. split.
  - congruence.
  - by etrans.
  - lia.
  - intros g. rewrite H2, H1. case_decide; lia.
  - intros g [->|Hin]%V2; [by left|by apply V1].
  - intros i Hi. rewrite K2, K1; [done..|]. intros Hin. apply Hi. by eapply elem_of_prefix.
Qed.

Lemma handed_0 gid conf todo : handed 0 gid conf todo conf todo.
Proof.
  split; [done|done|lia| |by right|done]. intros g. case_decide; lia.
Qed.

Lemma fillGroup_spec n conf todo gid :
  (n ≤ length todo)%nat → NoDup todo → (∀ j, j ∈ todo → 0 ≤ j < zlen conf) →
  ∃ conf' todo', fillGroup n conf todo gid = Ret (conf', todo') ∧ handed n gid conf todo conf' todo'.
Proof.
  revert conf todo. induction n as [|n IH]; intros conf todo Hn Hnd Hr; simpl.
  { exists conf, todo. split; [done|apply handed_0]. }
  destruct todo as [|j todo] using rev_ind; [simpl in Hn; lia|clear IHtodo].
  apply NoDup_app in Hnd as (Hnd & Hdisj & _).
  assert (0 ≤ j < zlen conf) as Hj by (apply Hr, elem_of_app; right; by left).
  replace j with (Z.of_nat (Z.to_nat j)) in * by lia. set (k := Z.to_nat j) in *. clearbody k.
  assert (Z.of_nat k ∉ todo) as Hk by (intros Hin; apply (Hdisj _ Hin); by left).
  destruct (giveShard_spec conf todo k gid) as [-> Hh]; [lia|done|]. rewrite bind_Ret.
  destruct (IH (<[k := gid]> conf) todo) as (conf' & todo' & -> & Hh').
  { rewrite length_app in Hn. simpl in Hn. lia. }
  { done. }
  { intros i Hi. rewrite length_insert. apply Hr, elem_of_app. by left. }
  exists conf', todo'. split; [done|]. by eapply (handed_trans 1 n).
Qed.

Section assign.
Context (keys : list Z) (x : Z) (c : Z → Z) (conf0 todo0 : list Z).
Context (Hshare : ∀ g, 0 ≤ c g ≤ x + 1).

Definition lacking (g : Z) : Z := Z.max 0 (x - c g).
Definition can_take (g : Z) : Z := if decide (c g ≤ x) then 1 else 0.

Lemma can_take_nonneg l : 0 ≤ sum_over can_take l.
Proof. apply sum_over_nonneg. intros. unfold can_take. case_decide; lia. Qed.

(** When the groups [rem] are still to be visited. *)
Record assigning (rem conf : list Z) (r : Z) (todo : list Z) : Prop := mkAssigning {
  as_len : length conf = length conf0;
  as_nodup : NoDup todo;
  as_range j : j ∈ todo → 0 ≤ j < zlen conf;
  as_valid g : Some g ∈ marked conf todo → g ∈ keys;
  as_rem g : g ∈ rem → held_by conf todo g = c g;
  as_done g : g ∈ keys → g ∉ rem → x ≤ held_by conf todo g ≤ x + 1;
  as_todo : zlen todo = sum_over lacking rem + r;
  as_r : 0 ≤ r ≤ sum_over can_take rem;
  as_sub j : j ∈ todo → j ∈ todo0;
  as_kept (i : nat) : Z.of_nat i ∉ todo0 → conf !! i = conf0 !! i;
}.

(** One group gets what it lacks, and one more if [more]. *)
Lemma assigning_group g rem conf r todo n conf' todo' (more : bool) :
  g ∈ keys → g ∉ rem → assigning (g :: rem) conf r todo → handed n g conf todo conf' todo' →
  Z.of_nat n = lacking g + (if more then 1 else 0) →
  (if more then c g ≤ x ∧ 0 < r else x < c g ∨ r = 0) →
  assigning rem conf' (if more then r - 1 else r) todo'.
Proof.
  intros Hg Hnrem [Hl Hnd Hr Hv Hrem Hdone Ht Hrr Hsub Hk] [L P T HH V K] Hn Hmore.
  assert (∀ j, j ∈ todo' → j ∈ todo) as Hin by (intros j Hj; by eapply elem_of_prefix).
  assert (held_by conf todo g = c g) as Hcg by (apply Hrem; by left).
  simpl in Ht, Hrr. unfold lacking in Hn, Ht at 1. unfold can_take in Hrr at 1. pose proof (Hshare g) as Hsg.
  pose proof (can_take_nonneg rem) as Hnn.
  split.
  - congruence.
  - destruct P as [k ->]. by apply NoDup_app in Hnd as [? _].
  - intros j Hj. rewrite L. auto.
  - intros g' [->|?]%V; auto.
  - intros g' Hg'. rewrite HH, Hrem by (by right). rewrite decide_False by (by intros ->). lia.
  - intros g' Hkey Hnot. rewrite HH. destruct (decide (g = g')) as [<-|Hne].
    + rewrite Hcg. destruct more; lia.
    + rewrite Z.add_0_r. apply Hdone; [done|]. by apply not_elem_of_cons.
  - fold lacking in Ht |- *. destruct more; lia.
  - destruct more, (decide (c g ≤ x)); lia.
  - auto.
  - intros i Hi. rewrite K by auto. by apply Hk.
Qed.

Lemma assignShards_spec rem conf r todo :
  NoDup rem → (∀ g, g ∈ rem → g ∈ keys) → assigning rem conf r todo →
  ∃ conf', assignShards x ((λ g, (g, c g)) <$> rem) conf r todo = Ret conf' ∧
    assigning [] conf' 0 [].
Proof.
  intros Hnd. revert conf r todo. induction Hnd as [|g rem Hg Hnd IH]; intros conf r todo Hkeys Ha.
  { exists conf. split; [done|]. destruct (as_r _ _ _ _ Ha) as [? ?]. simpl in *.
    pose proof (as_todo _ _ _ _ Ha) as Ht. simpl in Ht. assert (r = 0) as -> by lia.
    destruct todo; [done|rewrite length_cons in Ht; lia]. }
  rewrite fmap_cons. simpl.
  pose proof (as_todo _ _ _ _ Ha) as Ht. pose proof (as_r _ _ _ _ Ha) as Hr. simpl in Ht, Hr.
  assert (0 ≤ sum_over lacking rem) as Hnn.
  { apply sum_over_nonneg. intros. unfold lacking. lia. }
  destruct (fillGroup_spec (Z.to_nat (x - c g)) conf todo g) as (conf1 & todo1 & -> & Hh1);
    [unfold lacking in *; lia|apply Ha|apply Ha|]. rewrite bind_Ret. pose proof (Hshare g) as Hsg.
  assert (∀ b : bool, (if b then c g ≤ x ∧ 0 < r else x < c g ∨ r = 0) →
    ∀ conf2 todo2, handed (Z.to_nat (x - c g) + (if b then 1 else 0)) g conf todo conf2 todo2 →
    assigning rem conf2 (if b then r - 1 else r) todo2) as Hnext.
  { intros b Hb conf2 todo2 Hh. eapply assigning_group; [|done|done|done| |done]; [apply Hkeys; by left|].
    unfold lacking. destruct b; lia. }
  assert (∀ g', g' ∈ rem → g' ∈ keys) as Hkeys' by (intros; apply Hkeys; by right).
  destruct ((Z.max (c g) x =? x) && (r >? 0)) eqn:Hmore; b2p.
  - destruct (fillGroup_spec 1 conf1 todo1 g) as (conf2 & todo2 & Hf & Hh2).
    { pose proof (ha_todo _ _ _ _ _ _ Hh1). unfold lacking in *. lia. }
    { destruct (ha_prefix _ _ _ _ _ _ Hh1) as [k Hk]. pose proof (as_nodup _ _ _ _ Ha) as Hn.
      rewrite Hk in Hn. by apply NoDup_app in Hn as [? _]. }
    { intros j Hj. rewrite (ha_len _ _ _ _ _ _ Hh1). apply (as_range _ _ _ _ Ha).
      eapply elem_of_prefix; [done|apply Hh1]. }
    simpl in Hf. destruct (giveShard conf1 todo1 g) as [[conf3 todo3]| |]; try done. simpl in *.
    injection Hf as -> ->. apply IH; [done|].
    apply (Hnext true); [lia|]. by eapply handed_trans.
  - apply IH; [done|]. apply (Hnext false); [|by rewrite Nat.add_0_r].
    apply andb_false_iff in Hmore as [?|?]; b2p; lia.
Qed.
End assign.

(** ** Both loops *)

Lemma collected_assigning keys x r0 conf cnt r todo :
  0 ≤ x → 0 ≤ r0 < zlen keys → zlen conf = x * zlen keys + r0 →
  collected keys x r0 conf cnt r todo →
  assigning keys x (count cnt) conf todo keys conf r todo.
Proof.
  intros Hx Hr0 Hlen [Hnd Hr Hh Hv Hs Hsum Hf Hr1 Hm]. unfold full in Hf.
  assert (sum_over (lacking x (count cnt)) keys =
    x * zlen keys - sum_over (count cnt) keys + (r0 - r)) as Hlack.
  { rewrite (sum_over_ext _ (λ g, x + ((- count cnt g) + (if decide (count cnt g = x + 1) then 1 else 0)))).
    - rewrite !sum_over_linear, sum_over_const.
      assert (sum_over (λ g, - count cnt g) keys = - sum_over (count cnt) keys) as ->.
      { clear. induction keys; simpl; lia. }
      lia.
    - intros g _. unfold lacking. specialize (Hs g). case_decide; lia. }
  assert (sum_over (can_take x (count cnt)) keys = zlen keys - (r0 - r)) as Htake.
  { rewrite (sum_over_ext _ (λ g, 1 + - (if decide (count cnt g = x + 1) then 1 else 0))).
    - rewrite sum_over_linear, sum_over_const.
      assert (∀ f, sum_over (λ g, - f g) keys = - sum_over f keys) as ->.
      { clear. intros f. induction keys; simpl; lia. }
      lia.
    - intros g _. unfold can_take. specialize (Hs g). repeat case_decide; lia. }
  split; try done; lia.
Qed.

Lemma merge_sort_keys (c : Z → Z) (order : list Z) :
  ∃ ks, merge_sort gid_le ((λ g, (g, c g)) <$> order) = (λ g, (g, c g)) <$> ks ∧ ks ≡ₚ order.
Proof.
  set (t := (λ g, (g, c g)) <$> order). exists ((merge_sort gid_le t).*1).
  pose proof (merge_sort_Permutation gid_le t) as Hp. split.
  - rewrite <-list_fmap_compose. rewrite <-(list_fmap_id (merge_sort gid_le t)) at 1.
    apply list_fmap_ext. intros i [g n] Hi. simpl.
    apply list_elem_of_lookup_2 in Hi. rewrite Hp in Hi. subst t.
    apply list_elem_of_fmap in Hi as (? & ? & _). by simplify_eq.
  - rewrite Hp. subst t. rewrite <-list_fmap_compose. by rewrite list_fmap_id.
Qed.

(** A valid order in which [for gid := range groups] may visit the map. *)
Definition range_order (groups : gmap Z (list string)) (order : list Z) : Prop :=
  order ≡ₚ elements (dom groups).

Lemma range_order_facts groups order :
  range_order groups order →
  NoDup order ∧ (∀ g, g ∈ order ↔ is_Some (groups !! g)) ∧ length order = size groups.
Proof.
  intros Ho. unfold range_order in Ho. split_and!.
  - rewrite Ho. apply NoDup_elements.
  - intros g. rewrite Ho, elem_of_elements, elem_of_dom. done.
  - rewrite (Permutation_length Ho). change (size (dom groups) = size groups). apply size_dom.
Qed.

Lemma makeShardBalance_balances config order :
  zlen (Shards config) = NShards → Groups config ≠ ∅ → range_order (Groups config) order →
  ∃ conf, makeShardBalance order config = Ret (mkConfig (Num config) conf (Groups config)) ∧
    length conf = length (Shards config) ∧
    (∀ g, g ∈ conf → is_Some (Groups config !! g)) ∧
    (∀ g, is_Some (Groups config !! g) →
       Z.quot NShards (zlen order) ≤ occ g conf ≤ Z.quot NShards (zlen order) + 1) ∧
    (∀ (i : nat) g, Shards config !! i = Some g → is_Some (Groups config !! g) →
       occ g (Shards config) ≤ Z.quot NShards (zlen order) → conf !! i = Some g).
Proof.
  intros Hlen Hne Ho. destruct (range_order_facts _ _ Ho) as (Hnd & Hin & Hsize).
  unfold makeShardBalance. rewrite <-Hsize. destruct (zlen order =? 0) eqn:Hz.
  { exfalso. apply Hne, map_size_empty_inv. zlia. }
  b2p. set (x := Z.quot NShards (zlen order)). set (r0 := Z.rem NShards (zlen order)).
  assert (0 ≤ x ∧ 0 ≤ r0 < zlen order ∧ NShards = x * zlen order + r0) as (Hx & Hr0 & Hdiv).
  { subst x r0. pose proof (Z.quot_rem' NShards (zlen order)).
    pose proof (Z.rem_bound_pos NShards (zlen order) ltac:(unfold NShards; lia) ltac:(lia)).
    pose proof (Z.quot_pos NShards (zlen order) ltac:(unfold NShards; lia) ltac:(lia)). lia. }
  destruct (collectShards _ _ _ _ _ _ _) as [[cnt r] todo] eqn:Hcol.
  destruct (merge_sort_keys (count cnt) order) as (ks & Hks & Hperm).
  change (λ gid, (gid, default 0 (cnt !! gid))) with (λ gid, (gid, count cnt gid)). rewrite Hks.
  assert (NoDup ks) as Hndk by (by rewrite Hperm).
  assert (∀ g, g ∈ ks ↔ is_Some (Groups config !! g)) as Hink by (intros g; by rewrite Hperm).
  assert (collected ks x r0 (Shards config) cnt r todo) as Hc.
  { apply (collectShards_spec (Groups config) ks Hink Hndk x r0 (Shards config) [] ∅ r0 []); [|done].
    assert (sum_over (λ _, 0) ks = 0) as Hz0 by (rewrite sum_over_const; lia).
    split; simpl; try done; try (by intros ? ?%not_elem_of_nil); try apply NoDup_nil_2;
      try (intros; unfold count; rewrite lookup_empty; simpl; lia).
    - rewrite (sum_over_ext _ (λ _, 0)); [lia|]. intros g _. unfold count. by rewrite lookup_empty.
    - unfold full. rewrite (sum_over_ext _ (λ _, 0)); [lia|]. intros g _. unfold count.
      rewrite lookup_empty. simpl. by rewrite decide_False by lia.
    - lia. }
  pose proof (cd_share _ _ _ _ _ _ _ Hc) as Hshare.
  assert (zlen ks = zlen order) as Hlk by (by rewrite Hperm).
  apply collected_assigning in Hc as Ha; [|done|lia|lia].
  destruct (assignShards_spec ks x (count cnt) (Shards config) todo Hshare ks (Shards config) r todo)
    as (conf & -> & Hfin); [done|done|done|]. rewrite bind_Ret.
  exists conf. split_and!; [done|apply Hfin| | |].
  all: pose proof (marked_nil conf) as Hmk.
  - intros g Hg. apply Hink, (as_valid _ _ _ _ _ _ _ _ _ Hfin). rewrite Hmk. by apply list_elem_of_fmap_2.
  - intros g Hg%Hink. pose proof (as_done _ _ _ _ _ _ _ _ _ Hfin g Hg (not_elem_of_nil g)) as Hd.
    unfold held_by in Hd. rewrite Hmk in Hd.
    assert (occ (Some g) (Some <$> conf) = occ g conf) as <-; [|done].
    clear. induction conf as [|g' conf IH]; [done|]. rewrite fmap_cons, !occ_cons, IH.
    destruct (decide (g' = g)) as [->|]; [by rewrite decide_True|by rewrite decide_False by congruence].
  - intros i g Hi Hg%Hink Hocc. rewrite (as_kept _ _ _ _ _ _ _ _ _ Hfin); [done|]. intros Hto.
    pose proof (cd_moved _ _ _ _ _ _ _ Hc _ g Hto) as Hm. rewrite Nat2Z.id in Hm.
    specialize (Hm Hi Hg). lia.
Qed.
