(* ===== verification/ShardCtrlerProps.v ===== *)
(** * The shard controller: theorems

    The sequence of configurations is numbered without gaps and only grows;
    every [Join] and [Leave] yields a balanced configuration; replicas that
    execute the same operations agree although they iterate over their maps in
    different orders; a [Query] gets the configuration it asks for. *)

From stdpp Require Import prelude gmap strings list sorting.
From S2P Require Import Prelude Raft ShardCtrler ShardBalance.
Local Open Scope Z_scope.

(** ** Balance *)

(** Every shard has an existing group and the groups' numbers of shards differ
    by at most one; without groups every shard is unassigned. *)
Definition balanced (config : Config) : Prop :=
  zlen (Shards config) = NShards ∧
  (Groups config = ∅ → ∀ g, g ∈ Shards config → g = InvalidGid) ∧
  (Groups config ≠ ∅ → ∀ g, g ∈ Shards config → is_Some (Groups config !! g)) ∧
  (∀ g g', is_Some (Groups config !! g) → is_Some (Groups config !! g') →
     occ g (Shards config) ≤ occ g' (Shards config) + 1).

Lemma makeShardBalance_balanced config order :
  zlen (Shards config) = NShards → range_order (Groups config) order →
  ∃ config', makeShardBalance order config = Ret config' ∧ balanced config' ∧
    Num config' = Num config ∧ Groups config' = Groups config.
Proof.
  intros Hlen Ho. destruct (decide (Groups config = ∅)) as [He|Hne].
  - unfold makeShardBalance. rewrite He, map_size_empty. simpl. eexists. split_and!; [done| |done|done].
    split_and!; simpl; [by rewrite length_fmap| |done|].
    + intros _ g (? & -> & _)%list_elem_of_fmap. done.
    + intros g g' [? ?]. by rewrite lookup_empty in *.
  - destruct (makeShardBalance_balances config order Hlen Hne Ho) as (conf & -> & Hl & Hv & Hb & _).
    eexists. split_and!; [done| |done|done]. split_and!; simpl; [by rewrite Hl|done|done|].
    intros g g' Hg%Hb Hg'%Hb. lia.
Qed.

(** C20: [makeShardBalance] always returns (it never takes a shard from an
    empty list), whatever the order in which the groups are visited; the
    result is balanced, and a shard whose group still exists and has no more
    than its share of the shards stays where it is. *)
Theorem makeShardBalance_correct config order :
  zlen (Shards config) = NShards → range_order (Groups config) order →
  ∃ config', makeShardBalance order config = Ret config' ∧ balanced config' ∧
    Num config' = Num config ∧ Groups config' = Groups config ∧
    (∀ (i : nat) g, Shards config !! i = Some g → is_Some (Groups config !! g) →
       occ g (Shards config) ≤ Z.quot NShards (Z.of_nat (size (Groups config))) →
       Shards config' !! i = Some g).
Proof.
  intros Hlen Ho. destruct (makeShardBalance_balanced config order Hlen Ho) as (config' & Hret & Hb & HN & HG).
  exists config'. split_and!; [done..|]. intros i g Hi Hg Hocc.
  assert (Groups config ≠ ∅) as Hne by (intros He; rewrite He, lookup_empty in Hg; by destruct Hg).
  destruct (makeShardBalance_balances config order Hlen Hne Ho) as (conf & Hret' & _ & _ & _ & Hk).
  rewrite Hret in Hret'. simplify_eq. apply Hk; [done|done|].
  destruct (range_order_facts _ _ Ho) as (_ & _ & ->). done.
Qed.

(** ** The order of the map *)

#[export] Instance gid_le_total : Total gid_le.
Proof. intros a b. unfold gid_le. lia. Qed.
#[export] Instance gid_le_trans : Transitive gid_le.
Proof. intros a b c. unfold gid_le. lia. Qed.

Lemma merge_sort_order (c : Z → Z) order1 order2 :
  order1 ≡ₚ order2 →
  merge_sort gid_le ((λ g, (g, c g)) <$> order1) = merge_sort gid_le ((λ g, (g, c g)) <$> order2).
Proof.
  intros Hp. set (t1 := (λ g, (g, c g)) <$> order1). set (t2 := (λ g, (g, c g)) <$> order2).
  destruct (merge_sort_keys c order1) as (k1 & E1 & P1). destruct (merge_sort_keys c order2) as (k2 & E2 & P2).
  fold t1 in E1. fold t2 in E2.
  assert (∀ ks t, merge_sort gid_le t = (λ g, (g, c g)) <$> ks → StronglySorted (≤) ks) as Hsorted.
  { intros ks t E. assert (StronglySorted gid_le (merge_sort gid_le t)) as Hs
      by apply (Sorted_StronglySorted _), Sorted_merge_sort, _.
    rewrite E in Hs. clear E. induction ks as [|g ks IH]; [constructor|]. rewrite fmap_cons in Hs.
    inversion_clear Hs as [|? ? Hs' Hall]. constructor; [by apply IH|].
    rewrite Forall_fmap in Hall. exact Hall. }
  rewrite E1, E2. f_equal. apply (StronglySorted_unique (≤)); [by eapply Hsorted..|].
  by rewrite P1, P2.
Qed.

Lemma makeShardBalance_order config order1 order2 :
  range_order (Groups config) order1 → range_order (Groups config) order2 →
  makeShardBalance order1 config = makeShardBalance order2 config.
Proof.
  intros H1 H2. unfold range_order in *. unfold makeShardBalance. destruct (_ =? _); [done|].
  destruct (collectShards _ _ _ _ _ _ _) as [[cnt r] todo].
  by rewrite (merge_sort_order (λ gid, default 0 (cnt !! gid)) order1 order2) by (by rewrite H1, H2).
Qed.

Definition valid_order (order : gmap Z (list string) → list Z) : Prop := ∀ m, range_order m (order m).

Lemma execOp_order order1 order2 sc op :
  valid_order order1 → valid_order order2 → execOp order1 sc op = execOp order2 sc op.
Proof.
  intros H1 H2. unfold execOp. destruct (op_OpType op), (Args op); try done.
  - unfold execJoin. destruct (executed _ _); [done|]. destruct (nextConfig sc); simpl; [|done..].
    by erewrite makeShardBalance_order.
  - unfold execLeave. destruct (executed _ _); [done|]. destruct (nextConfig sc); simpl; [|done..].
    by erewrite makeShardBalance_order.
Qed.

Fixpoint execOps (order : nat → gmap Z (list string) → list Z) (k : nat) (sc : ShardCtrler) (ops : list Op)
    : outcome ShardCtrler :=
  match ops with
  | [] => Ret sc
  | op :: ops => sc ← execOp (order k) sc op; execOps order (S k) sc ops
  end.

(** replicas agree.  Executing the same operations from the same state
    gives the same result although every iteration over a map of groups may
    visit it in a different order on every replica and every time. *)
Theorem ctrler_replicas_agree order1 order2 k sc ops :
  (∀ i, valid_order (order1 i)) → (∀ i, valid_order (order2 i)) →
  execOps order1 k sc ops = execOps order2 k sc ops.
Proof.
  intros H1 H2. revert k sc. induction ops as [|op ops IH]; intros k sc; simpl; [done|].
  rewrite (execOp_order _ (order2 k)) by done. destruct (execOp (order2 k) sc op); simpl; [apply IH|done..].
Qed.

(** ** The sequence of configurations *)

Record sc_wf (sc : ShardCtrler) : Prop := mkScWf {
  sw_ne : configs sc ≠ [];
  sw_num (k : nat) c : configs sc !! k = Some c → Num c = Z.of_nat k;
  sw_shards (k : nat) c : configs sc !! k = Some c → zlen (Shards c) = NShards;
}.

(** The tester's contract: the arguments have the type the operation says,
    [Move] names an existing shard, [Query] a number not below -1. *)
Definition valid_op (op : Op) : Prop :=
  match op_OpType op, Args op with
  | Join, AJoin _ | Leave, ALeave _ => True
  | Move, AMove args => 0 ≤ Shard args < NShards
  | Query, AQuery args => -1 ≤ q_Num args
  | _, _ => False
  end.

Lemma nextConfig_ok sc :
  sc_wf sc → ∃ last, configs sc !! (length (configs sc) - 1)%nat = Some last ∧
    nextConfig sc = Ret (mkConfig (zlen (configs sc)) (Shards last) (cloneMap (Groups last))) ∧
    zlen (Shards last) = NShards.
Proof.
  intros [Hne _ Hs]. assert (0 < length (configs sc))%nat by (destruct (configs sc); [done|simpl; lia]).
  destruct (lookup_lt_is_Some_2 (configs sc) (length (configs sc) - 1)) as [last Hl]; [lia|].
  exists last. split_and!; [done| |by eapply Hs]. unfold nextConfig.
  replace (zlen (configs sc) - 1) with (Z.of_nat (length (configs sc) - 1)) by lia.
  by rewrite (go_index_lookup _ _ last).
Qed.

Lemma commitConfig_wf sc id config :
  sc_wf sc → Num config = zlen (configs sc) → zlen (Shards config) = NShards →
  sc_wf (commitConfig sc id config).
Proof.
  intros [Hne Hn Hs] HN HS. split; simpl.
  - by destruct (configs sc).
  - intros k c [Hk|[Hk Hc]]%lookup_app_Some; [by apply Hn|].
    apply list_lookup_singleton_Some in Hc as [? <-]. lia.
  - intros k c [Hk|[_ [_ <-]%list_lookup_singleton_Some]]%lookup_app_Some; [by eapply Hs|done].
Qed.

Lemma cloneMap_id (a : gmap Z (list string)) : cloneMap a = a.
Proof.
  unfold cloneMap. apply map_eq. intros k. rewrite lookup_fmap. destruct (a !! k) as [l|]; [|done]. simpl.
  f_equal. unfold cloneStringSlice. by apply take_ge.
Qed.

(** The groups an operation asks for, from the groups there are. *)
Definition requested (op : OpArgs) (groups : gmap Z (list string)) : gmap Z (list string) :=
  match op with
  | AJoin args => Servers args ∪ groups
  | ALeave args => foldl (λ m gid, delete gid m) groups (GIDs args)
  | _ => groups
  end.

Definition op_id (op : OpArgs) : Identifier :=
  match op with
  | AJoin args => j_Identifier args
  | ALeave args => l_Identifier args
  | AMove args => m_Identifier args
  | AQuery args => q_Identifier args
  end.

(** [Join] and [Leave] that are not duplicates. *)
Lemma execOp_regroup order sc op :
  valid_order order → sc_wf sc → valid_op op → op_OpType op = Join ∨ op_OpType op = Leave →
  executed sc (op_id (Args op)) = false →
  ∃ last config, configs sc !! (length (configs sc) - 1)%nat = Some last ∧
    execOp order sc op = Ret (commitConfig sc (op_id (Args op)) config) ∧ balanced config ∧
    Groups config = requested (Args op) (Groups last) ∧ Num config = zlen (configs sc).
Proof.
  intros Ho Hwf Hv Hty Hex. destruct (nextConfig_ok sc Hwf) as (last & Hl & Hnc & Hs).
  unfold execOp, valid_op in *. exists last.
  destruct (op_OpType op), (Args op) as [args|args|args|args]; try done; try (by destruct Hty).
  - unfold execJoin. simpl in Hex. rewrite Hex, Hnc, bind_Ret. simpl.
    destruct (makeShardBalance_balanced (mkConfig (zlen (configs sc)) (Shards last)
      (Servers args ∪ cloneMap (Groups last))) (order (Servers args ∪ cloneMap (Groups last))))
      as (c & -> & Hb & HN & HG); [done|apply Ho|]. rewrite bind_Ret. exists c. split_and!; try done.
    rewrite HG. simpl. by rewrite cloneMap_id.
  - unfold execLeave. simpl in Hex. rewrite Hex, Hnc, bind_Ret. simpl.
    set (g := foldl _ _ _). destruct (makeShardBalance_balanced (mkConfig (zlen (configs sc)) (Shards last) g) (order g))
      as (c & -> & Hb & HN & HG); [done|apply Ho|]. rewrite bind_Ret. exists c. split_and!; try done.
    rewrite HG. simpl. subst g. by rewrite cloneMap_id.
Qed.

(** An operation succeeds, keeps the state well-formed and adds at most one
    configuration. *)
Lemma execOp_step order sc op :
  valid_order order → sc_wf sc → valid_op op →
  ∃ sc', execOp order sc op = Ret sc' ∧ sc_wf sc' ∧
    (if executed sc (op_id (Args op)) then sc' = sc
     else configs sc' = configs sc ∨ ∃ c, configs sc' = configs sc ++ [c]).
Proof.
  intros Ho Hwf Hv. destruct (executed sc (op_id (Args op))) eqn:Hex.
  { exists sc. split_and!; [|done|done]. unfold execOp, valid_op in *.
    destruct (op_OpType op), (Args op); try done; simpl in Hex;
      unfold execJoin, execLeave, execMove, execQuery; by rewrite Hex. }
  destruct (decide (op_OpType op = Join ∨ op_OpType op = Leave)) as [Hty|Hty].
  { destruct (execOp_regroup order sc op) as (last & c & Hl & -> & Hb & HG & HN); [done..|].
    eexists. split_and!; [done|by apply commitConfig_wf, Hb|right; by exists c]. }
  destruct (nextConfig_ok sc Hwf) as (last & Hl & Hnc & Hs). unfold execOp, valid_op in *.
  destruct (op_OpType op), (Args op) as [args|args|args|args]; try done; try (by destruct Hty; auto); simpl in Hex.
  - unfold execMove. rewrite Hex, Hnc, bind_Ret. simpl. rewrite go_set_in_range, bind_Ret by lia.
    eexists. split_and!; [done| |right; by eexists]. apply commitConfig_wf; [done|done|]. simpl.
    by rewrite length_insert.
  - unfold execQuery. rewrite Hex. assert (0 < length (configs sc))%nat
      by (destruct (configs sc) eqn:E; [by destruct (sw_ne _ Hwf)|simpl; lia]).
    set (m := if _ || _ then _ else _). assert (∃ c, m = Ret c) as (c & ->).
    { subst m. destruct (_ || _) eqn:Hq.
      - destruct (go_index_in_range (configs sc) (zlen (configs sc) - 1)) as (c & -> & _); [lia|by eexists].
      - b2p. destruct (go_index_in_range (configs sc) (q_Num args)) as (c & -> & _); [lia|by eexists]. }
    rewrite bind_Ret. eexists. split_and!; [done| |by left]. by destruct Hwf.
Qed.

(** C38: the controller's state machine.  From a well-formed state every
    operation that keeps the tester's contract succeeds, and the result is
    well-formed: configurations are numbered by their position and assign all
    shards.  Configurations are never changed, at most one is added; a [Join]
    or [Leave] that is not a duplicate adds a balanced one with exactly the
    groups it asks for, and a duplicate adds nothing. *)
Theorem ctrler_exec_ok order sc op :
  valid_order order → sc_wf sc → valid_op op →
  ∃ sc', execOp order sc op = Ret sc' ∧ sc_wf sc' ∧
    (if executed sc (op_id (Args op)) then sc' = sc
     else configs sc' = configs sc ∨ ∃ c, configs sc' = configs sc ++ [c]) ∧
    (executed sc (op_id (Args op)) = false → op_OpType op = Join ∨ op_OpType op = Leave →
       ∃ last c, configs sc !! (length (configs sc) - 1)%nat = Some last ∧
         configs sc' = configs sc ++ [c] ∧ balanced c ∧
         Groups c = requested (Args op) (Groups last)).
Proof.
  intros Ho Hwf Hv. destruct (execOp_step order sc op Ho Hwf Hv) as (sc' & Hret & Hwf' & Hgrow).
  exists sc'. split_and!; [done..|]. intros Hex Hty.
  destruct (execOp_regroup order sc op) as (last & c & Hl & Hret' & Hb & HG & _); [done..|].
  exists last, c. rewrite Hret in Hret'. injection Hret' as ->. done.
Qed.

(** a [Query] that is not a duplicate is answered with the configuration
    of the number it asks for if there is one, and with the latest one for -1
    and for numbers not yet reached. *)
Theorem ctrler_query_answer sc args term index :
  sc_wf sc → executed sc (q_Identifier args) = false → -1 ≤ q_Num args →
  ∃ sc' c, execQuery sc args = Ret sc' ∧ configs sc' = configs sc ∧
    Num c = (if decide (0 ≤ q_Num args < zlen (configs sc)) then q_Num args else zlen (configs sc) - 1) ∧
    configs sc !! Z.to_nat (Num c) = Some c ∧
    (CurrentTerm (rf sc) = term → index ≤ lastApplied sc →
     waitOp sc' Query (q_Identifier args) index term = Some (mkReply false c)).
Proof.
  intros Hwf Hex Hq. assert (0 < length (configs sc))%nat
    by (destruct (configs sc) eqn:E; [by destruct (sw_ne _ Hwf)|simpl; lia]).
  set (num := if decide (0 ≤ q_Num args < zlen (configs sc)) then q_Num args else zlen (configs sc) - 1).
  assert (0 ≤ num < zlen (configs sc)) as Hnum by (subst num; case_decide; lia).
  destruct (go_index_in_range (configs sc) num Hnum) as (c & Hc & Hl).
  assert (Num c = num) as HN by (rewrite (sw_num _ Hwf _ _ Hl); lia).
  assert (CloneConfig c = c) as Hclone by (unfold CloneConfig; rewrite cloneMap_id; by destruct c).
  eexists _, c. split.
  { unfold execQuery. rewrite Hex.
    assert ((if (q_Num args =? -1) || (q_Num args >=? zlen (configs sc))
             then go_index (configs sc) (zlen (configs sc) - 1)
             else go_index (configs sc) (q_Num args)) = Ret c) as ->; [|done].
    rewrite <-Hc. subst num. destruct (_ || _) eqn:Hor; case_decide; b2p; try done; try lia. }
  split_and!; [done|done|by rewrite HN|].
  - simpl. intros HT Hi. unfold waitOp, check. simpl. rewrite HT, Z.eqb_refl. simpl.
    destruct (_ <? _) eqn:?; [zlia|]. rewrite lookup_insert_eq. simpl. rewrite Z.eqb_refl. by rewrite !Hclone.
Qed.

(** ** Concrete instances *)
Section instances.
Definition order0 (m : gmap Z (list string)) : list Z := elements (dom m).
Lemma order0_valid : valid_order order0.
Proof. intros m. unfold range_order, order0. done. Qed.

Definition raft0 : Raft Op :=
  mkRaft 3 MakePersister 0 false 1 LEADER 0 true true false [zeroEntry]
    0 0 [0; 0; 0] [0; 0; 0] 0 [] 0 false ∅.
Definition sc0 : ShardCtrler := mkShardCtrler 0 raft0 false [zeroConfig] ∅ 1.

Lemma sc0_wf : sc_wf sc0.
Proof.
  split; [done|..]; intros [|k] c Hk; simplify_eq/=; try done.
Qed.

(** Three groups join. *)
Definition join3 : Op :=
  mkOp Join (AJoin (mkJoinArgs (mkIdentifier 7 0) {[1 := ["a"]; 2 := ["b"]; 3 := ["c"]]})).

Definition config3 : Config := mkConfig 1 (replicate 10 0) {[1 := ["a"]; 2 := ["b"]; 3 := ["c"]]}.

Example balance3 :
  (c ← makeShardBalance [3; 1; 2] config3; Ret (Shards c)) = Ret [3; 3; 3; 2; 2; 2; 1; 1; 1; 1].
Proof. vm_compute. reflexivity. Qed.

Lemma makeShardBalance_correct_witness :
  ∃ config', makeShardBalance (order0 (Groups config3)) config3 = Ret config' ∧ balanced config'.
Proof.
  destruct (makeShardBalance_correct config3 (order0 (Groups config3))) as (c & ? & ? & _);
    [reflexivity|apply order0_valid|by exists c].
Defined.

Lemma ctrler_replicas_agree_witness :
  execOps (λ _, order0) 0 sc0 [join3] = execOps (λ _ m, reverse (order0 m)) 0 sc0 [join3].
Proof.
  apply (ctrler_replicas_agree (λ _, order0) (λ _ m, reverse (order0 m)) 0 sc0 [join3]).
  - intros _. apply order0_valid.
  - intros _ m. unfold range_order, order0. by rewrite reverse_Permutation.
Defined.

Lemma ctrler_exec_ok_witness : ∃ sc', execOp order0 sc0 join3 = Ret sc' ∧ sc_wf sc'.
Proof.
  destruct (ctrler_exec_ok order0 sc0 join3) as (sc' & ? & ? & _);
    [apply order0_valid|apply sc0_wf|exact I|by exists sc'].
Defined.

Lemma ctrler_query_answer_witness :
  ∃ sc' c, execQuery sc0 (mkQueryArgs (mkIdentifier 7 0) (-1)) = Ret sc' ∧ Num c = 0.
Proof.
  destruct (ctrler_query_answer sc0 (mkQueryArgs (mkIdentifier 7 0) (-1)) 1 1) as (sc' & c & ? & _ & ? & _);
    [apply sc0_wf|reflexivity|simpl; lia|by exists sc', c].
Defined.
End instances.
