(* ===== verification/CtrlerSystem.v ===== *)
(** * The shard controller as a whole

    The servers of ShardCtrler.v on the Raft cluster of RaftNet.v, as an
    instance of Replicated.v.  The replicated state is the sequence of
    configurations and the table of the clients' last operations; executing an
    operation depends on nothing else ([execOp_image]) and not on the order in
    which a server visits its maps.  So all servers are at all times at
    prefixes of one log of operations, and a configuration, once any server has
    it, is the configuration of that number on every server at any later time
    ([ctrler_one_log], [ctrler_configs_fixed]).

    [applier] is one step here.  A handler that runs between its two critical
    sections finds [lastOp] as it was before and answers from that, or
    [WrongLeader]. *)

From Stdlib Require Import Strings.Byte.
From stdpp Require Import prelude gmap countable strings list.
From S2P Require Import Prelude Gob Raft RaftNode RaftServer RaftNet RaftElection RaftCluster RaftSafetySteps RaftStateMachine RaftEvolve RaftExample Replicated Schedule ShardCtrler ShardBalance ShardCtrlerProps.
Local Open Scope Z_scope.

(** ** The replicated state *)

Definition CtrlState : Type := list Config * gmap Z LastOperation.

Definition sc_image (sc : ShardCtrler) : CtrlState := (configs sc, lastOp sc).
Definition of_image (st : CtrlState) : ShardCtrler := mkShardCtrler 0 raft0 false st.1 st.2 0.
Definition with_image (sc sc1 : ShardCtrler) : ShardCtrler :=
  mkShardCtrler (me sc) (rf sc) (dead sc) (configs sc1) (lastOp sc1) (lastApplied sc).

(** The server with the Raft of the network. *)
Definition set_rf (rf' : Raft Op) (sc : ShardCtrler) : ShardCtrler :=
  mkShardCtrler (me sc) rf' (dead sc) (configs sc) (lastOp sc) (lastApplied sc).

Definition ctrl_exec (st : CtrlState) (op : Op) : outcome CtrlState :=
  sc ← execOp order0 (of_image st) op; Ret (sc_image sc).

Lemma execOp_image order sc op :
  execOp order sc op = (sc1 ← execOp order (of_image (sc_image sc)) op; Ret (with_image sc sc1)).
Proof.
  unfold execOp. destruct sc as [me rf dead cs last la]. destruct (op_OpType op), (Args op) as [args|args|args|args]; try done.
  - unfold execJoin, executed, nextConfig. simpl. destruct (match _ with Some _ => _ | None => false end); [done|].
    destruct (go_index _ _); simpl; [|done..]. by destruct (makeShardBalance _ _).
  - unfold execLeave, executed, nextConfig. simpl. destruct (match _ with Some _ => _ | None => false end); [done|].
    destruct (go_index _ _); simpl; [|done..]. by destruct (makeShardBalance _ _).
  - unfold execMove, executed, nextConfig. simpl. destruct (match _ with Some _ => _ | None => false end); [done|].
    destruct (go_index _ _); simpl; [|done..]. by destruct (go_set _ _ _).
  - unfold execQuery, executed. simpl. destruct (match _ with Some _ => _ | None => false end); [done|].
    by destruct (if _ : bool then _ else _).
Qed.

Lemma execOp_exec order sc op st' :
  valid_order order → ctrl_exec (sc_image sc) op = Ret st' →
  ∃ sc', execOp order sc op = Ret sc' ∧ sc_image sc' = st' ∧ lastApplied sc' = lastApplied sc.
Proof.
  intros Ho (sc1 & Hex & [= <-])%bind_Ret_inv. rewrite execOp_image, (execOp_order order order0), Hex by (done || apply order0_valid).
  by eexists.
Qed.

Lemma sc_wf_image sc sc' : configs sc = configs sc' → sc_wf sc → sc_wf sc'.
Proof. intros He [? ? ?]. by split; rewrite <-He. Qed.

#[global] Instance ctrl_machine : StateMachine Op CtrlState.
Proof.
  refine {| sm_next := ctrl_exec; sm_wf := λ st, sc_wf (of_image st); sm_ok := λ _ op, valid_op op |}.
  intros st op Hwf Hok. destruct (execOp_step order0 (of_image st) op) as (sc' & Hret & Hwf' & _);
    [apply order0_valid|done..|]. unfold ctrl_exec. rewrite Hret. eexists. split_and!; [done| |done].
  by eapply sc_wf_image, Hwf'.
Defined.

(** ** Runs *)

(** The state a log of operations leads to. *)
Definition ctrl_run (ops : list Op) : outcome CtrlState := sm_run ([zeroConfig], ∅) ops.

(** The server has executed a prefix of [ops]. *)
Definition sc_follows (ops : list Op) (sc : ShardCtrler) : Prop :=
  0 ≤ lastApplied sc ≤ zlen ops ∧ ctrl_run (take (Z.to_nat (lastApplied sc)) ops) = Ret (sc_image sc).

Lemma start_wf : sc_wf (of_image ([zeroConfig], ∅)).
Proof. split; [done|..]; intros [|k] c Hk; simplify_eq/=; done. Qed.

Lemma valid_fit (st : CtrlState) ops : Forall valid_op ops → fit st ops.
Proof.
  intros Hall k op Hk. rewrite Forall_lookup in Hall. exists 0%nat, st. split_and!; [lia|done|by eapply Hall].
Qed.

(** The configurations an operation was answered with are among those there are. *)
Definition answers_in (st : CtrlState) : Prop := ∀ client lo, st.2 !! client = Some lo → lo_Config lo ∈ st.1.

Lemma ctrl_exec_step st op st' :
  sc_wf (of_image st) → valid_op op → zeroConfig ∈ st.1 → answers_in st → ctrl_exec st op = Ret st' →
  st.1 `prefix_of` st'.1 ∧ answers_in st'.
Proof.
  intros Hwf Hv Hz Hans (sc' & Hret & [= <-])%bind_Ret_inv.
  destruct (execOp_step order0 (of_image st) op) as (sc'' & Hret' & _ & Hgrow); [apply order0_valid|done..|].
  assert (sc'' = sc') as -> by congruence. clear Hret'.
  assert (st.1 `prefix_of` configs sc') as Hpre.
  { destruct (executed _ _); [by subst sc'|]. destruct Hgrow as [->|[c ->]]; [done|by apply prefix_app_r]. }
  split; [done|]. unfold execOp in Hret.
  assert (∀ id config, answers_in (sc_image (commitConfig (of_image st) id config))) as Hcommit.
  { intros id config client lo Hl. simpl in *. apply lookup_insert_Some in Hl as [[_ <-]|[_ Hl]]; apply elem_of_app; left; [done|by eapply Hans]. }
  destruct (op_OpType op), (Args op) as [args|args|args|args]; try done.
  - unfold execJoin in Hret. destruct (executed _ _); [by injection Hret as <-|].
    apply bind_Ret_inv in Hret as (c1 & _ & (c2 & _ & [= <-])%bind_Ret_inv). apply Hcommit.
  - unfold execLeave in Hret. destruct (executed _ _); [by injection Hret as <-|].
    apply bind_Ret_inv in Hret as (c1 & _ & (c2 & _ & [= <-])%bind_Ret_inv). apply Hcommit.
  - unfold execMove in Hret. destruct (executed _ _); [by injection Hret as <-|].
    apply bind_Ret_inv in Hret as (c1 & _ & (c2 & _ & [= <-])%bind_Ret_inv). apply Hcommit.
  - unfold execQuery in Hret. destruct (executed _ _); [by injection Hret as <-|].
    apply bind_Ret_inv in Hret as (c & Hc & [= <-]). intros client lo Hl. simpl in *.
    apply lookup_insert_Some in Hl as [[_ <-]|[_ Hl]]; [|by eapply Hans]. simpl.
    replace (CloneConfig c) with c by (unfold CloneConfig; rewrite cloneMap_id; by destruct c).
    destruct (_ || _); apply go_index_Ret in Hc as [_ Hc]; by eapply list_elem_of_lookup_2.
Qed.

Lemma ctrl_run_snoc ops op : ctrl_run (ops ++ [op]) = (st ← ctrl_run ops; ctrl_exec st op).
Proof. exact (sm_run_snoc (C := Op) ([zeroConfig], ∅) ops op). Qed.

Lemma ctrl_run_wf ops :
  Forall valid_op ops →
  ∃ st, ctrl_run ops = Ret st ∧ sc_wf (of_image st) ∧ zeroConfig ∈ st.1 ∧ answers_in st.
Proof.
  induction ops as [|op ops IH] using rev_ind; intros Hv.
  { eexists. split_and!; [done|apply start_wf|by left|]. intros client lo. simpl. by rewrite lookup_empty. }
  apply Forall_app in Hv as [Hv [Hop _]%Forall_cons]. destruct (IH Hv) as (st & Hr & Hwf & Hz & Hans).
  destruct (sm_exec (StateMachine := ctrl_machine) st op Hwf Hop) as (st' & Hn & Hwf' & _). rewrite ctrl_run_snoc, Hr, bind_Ret. simpl in Hn.
  destruct (ctrl_exec_step st op st' Hwf Hop Hz Hans Hn) as [Hpre Hans']. exists st'. split_and!; [done|done| |done].
  destruct Hpre as [l ->]. apply elem_of_app. by left.
Qed.

Lemma ctrl_run_grows ops1 ops2 st1 st2 :
  Forall valid_op (ops1 ++ ops2) → ctrl_run ops1 = Ret st1 → ctrl_run (ops1 ++ ops2) = Ret st2 → st1.1 `prefix_of` st2.1.
Proof.
  revert st2. induction ops2 as [|op ops2 IH] using rev_ind; intros st2 Hv Hr1.
  { rewrite app_nil_r, Hr1. by intros [= <-]. }
  rewrite app_assoc in Hv. rewrite app_assoc. apply Forall_app in Hv as [Hv [Hop _]%Forall_cons].
  destruct (ctrl_run_wf _ Hv) as (st & Hr & Hwf & Hz & Hans). rewrite ctrl_run_snoc, Hr, bind_Ret. intros Hn. etrans; [by apply IH|]. by eapply ctrl_exec_step.
Qed.

(** A server has the first of the configurations of the log it follows. *)
Lemma follows_run ops sc st :
  Forall valid_op ops → sc_follows ops sc → ctrl_run ops = Ret st → configs sc `prefix_of` st.1.
Proof.
  intros Hv [_ Hr1] Hr. rewrite <-(take_drop (Z.to_nat (lastApplied sc)) ops) in Hv, Hr.
  by apply (ctrl_run_grows _ _ (sc_image sc) st) in Hr.
Qed.

(** Servers that follow one log have the same configurations, one of them
    perhaps more. *)
Lemma follows_prefix ops sc1 sc2 :
  Forall valid_op ops → sc_follows ops sc1 → sc_follows ops sc2 → lastApplied sc1 ≤ lastApplied sc2 →
  configs sc1 `prefix_of` configs sc2.
Proof.
  intros Hv [? Hr1] [? Hr2] Hle.
  replace (Z.to_nat (lastApplied sc2)) with
    (Z.to_nat (lastApplied sc1) + (Z.to_nat (lastApplied sc2) - Z.to_nat (lastApplied sc1)))%nat in Hr2 by lia.
  rewrite <-take_take_drop in Hr2. apply (ctrl_run_grows _ _ (sc_image sc1) (sc_image sc2)) in Hr2; [done| |done].
  rewrite take_take_drop. by apply Forall_take.
Qed.

Lemma follows_agree ops sc1 sc2 k c1 c2 :
  Forall valid_op ops → sc_follows ops sc1 → sc_follows ops sc2 →
  configs sc1 !! k = Some c1 → configs sc2 !! k = Some c2 → c1 = c2.
Proof.
  intros Hv H1 H2 Hc1 Hc2. destruct (decide (lastApplied sc1 ≤ lastApplied sc2)).
  - pose proof (prefix_lookup_Some _ _ _ _ Hc1 (follows_prefix ops sc1 sc2 Hv H1 H2 ltac:(lia))). congruence.
  - pose proof (prefix_lookup_Some _ _ _ _ Hc2 (follows_prefix ops sc2 sc1 Hv H2 H1 ltac:(lia))). congruence.
Qed.

(** What a handler answers, at once or after the wait loop. *)
Definition sc_answers (r : Raft Op) (sc : ShardCtrler) (ty : OpType) (id : Identifier) (reply : Reply) : Prop :=
  (∃ index term, waitOp (set_rf r sc) ty id index term = Some reply) ∨
  checkExecuted (set_rf r sc) (ClientId id) (CallId id) ty = Some reply.

Lemma answers_configs ops r sc id c :
  Forall valid_op ops → sc_follows ops sc → sc_answers r sc Query id (mkReply false c) →
  configs sc !! Z.to_nat (Num c) = Some c.
Proof.
  intros Hv [? Hr] Hans.
  destruct (ctrl_run_wf _ (Forall_take _ (Z.to_nat (lastApplied sc)) _ Hv)) as (st & Hr' & Hwf & _ & Hin).
  assert (st = sc_image sc) as -> by congruence.
  assert (∀ lo, lastOp sc !! ClientId id = Some lo → CloneConfig (lo_Config lo) = c → configs sc !! Z.to_nat (Num c) = Some c) as Hlo.
  { intros lo Hlo <-. unfold CloneConfig. rewrite cloneMap_id. simpl.
    pose proof (Hin _ _ Hlo) as (k & Hk)%list_elem_of_lookup. simpl in Hk. pose proof (sw_num _ Hwf k _ Hk) as HN.
    replace (Z.to_nat (Num (lo_Config lo))) with k by lia. rewrite Hk. by destruct (lo_Config lo). }
  destruct Hans as [(index & term & Hw)|Hw].
  - unfold waitOp in Hw. simpl in Hw. repeat (case_match; try done). simplify_eq. by eapply Hlo.
  - unfold checkExecuted in Hw. simpl in Hw. repeat (case_match; try done). simplify_eq. by eapply Hlo.
Qed.

Section system.
Context `{GobLaws Z} `{GobLaws (list (LogEntry Op))}.
Implicit Types (sc : ShardCtrler) (sys : Sys Op ShardCtrler).

#[global] Instance ctrl_service : Service Op ShardCtrler unit CtrlState.
Proof.
  refine {| sv_applied := lastApplied; sv_state := sc_image; sv_start := λ n i ps _, StartServer n i ps;
    sv_init := λ _, ([zeroConfig], ∅);
    sv_handles := λ rf sc m o, ∃ order, valid_order order ∧ o = applier order (set_rf rf sc) m |}.
  - intros _. split; [done|..]; intros [|k] c Hk; simplify_eq/=; done.
  - intros rf sc m op o st' Hv Hidx Hop Hn (order & Ho & ->). unfold applier, applierCount. rewrite Hv, Hidx, Hop. simpl.
    rewrite Z.eqb_refl. simpl.
    destruct (execOp_exec order (mkShardCtrler (me sc) rf (dead sc) (configs sc) (lastOp sc) (lastApplied sc + 1)) op st' Ho Hn)
      as (sc' & -> & <- & Hla). by exists sc'.
  - intros k i ps _ sc _ (r & _ & [= <-])%bind_Ret_inv. done.
Defined.

(** Executing a valid operation does not panic. *)
Lemma ctrl_guard (sc : ShardCtrler) (op : Op) : valid_op op → sm_wf (sv_state sc) → sm_ok (sv_state sc) op.
Proof. done. Qed.

(** [P]: the operations clients send.  The handlers start whatever they are
    sent. *)
Context (P : Op → Prop).

Definition ctrl_step : Sys Op ShardCtrler → Sys Op ShardCtrler → Prop := sys_step (λ _, P) ().
Definition ctrl_reachable (n : nat) sys : Prop := sys_reachable (λ _, P) () n sys.

(** The clients keep the contract: the servers do not check the operations,
    and an operation outside of it panics when it is executed. *)
Context (P_valid : ∀ op, P op → valid_op op).

Lemma ctrl_log n sys sys' :
  ctrl_reachable n sys → rtc ctrl_step sys sys' →
  ∃ ops, Forall valid_op ops ∧
    (∀ i app, s_apps sys !! i = Some app → sc_follows ops (a_srv app)) ∧
    ∀ j app, s_apps sys' !! j = Some app → sc_follows ops (a_srv app) ∧
      ∀ nd o, nodes (s_net sys') !! j = Some nd → handles_all (raft nd) (a_srv app) (a_chan app) o → ∃ sc', o = Ret sc'.
Proof.
  intros Hreach Hsteps.
  destruct (sys_one_log (λ _, P) (λ _, P) () n sys sys') as (ops & _ & Hv & Hnow & Hlater);
    [done|intros sc op Hop _; by apply P_valid|done|done|].
  exists ops. split_and!; [|intros i app Ha; by apply (Hnow i)|done].
  eapply Forall_impl; [exact Hv|]. intros op [_ ?]. by apply P_valid.
Qed.

(** ** The theorems *)

(** C10: the servers of the shard controller are at all times, across lost and
    delayed messages, crashes and restarts, and whatever the order in which
    each server visits its maps, at prefixes of one log of operations: the
    states of all servers now ([sys]) and at any later time ([sys']) are where
    prefixes of the same [ops] lead; the sequence of configurations is numbered
    without gaps and every configuration assigns all shards; and no server
    panics on the messages on its channel.  This is for clients that send only
    valid operations ([P_valid]: arguments of the operation's type, a [Move] of
    an existing shard, a [Query] number not below -1); the handlers accept any
    operation, and [execMove] and [execQuery] panic on other numbers. *)
Theorem ctrler_one_log n sys sys' :
  ctrl_reachable n sys → rtc ctrl_step sys sys' →
  ∃ ops, Forall valid_op ops ∧
    (∀ i app, s_apps sys !! i = Some app → sc_follows ops (a_srv app)) ∧
    ∀ j app, s_apps sys' !! j = Some app → sc_follows ops (a_srv app) ∧ sc_wf (a_srv app) ∧
      ∀ nd o, nodes (s_net sys') !! j = Some nd → handles_all (raft nd) (a_srv app) (a_chan app) o → ∃ sc', o = Ret sc'.
Proof.
  intros Hreach Hsteps. destruct (ctrl_log n sys sys' Hreach Hsteps) as (ops & Hv & Hnow & Hlater).
  exists ops. split_and!; [done|done|]. intros j app Ha. destruct (Hlater j app Ha) as [Hf Ho]. split_and!; [done| |done].
  destruct (ctrl_run_wf _ (Forall_take _ (Z.to_nat (lastApplied (a_srv app))) _ Hv)) as (st & Hr & Hwf & _).
  destruct Hf as [_ Hf]. assert (st = sc_image (a_srv app)) as -> by congruence. by eapply sc_wf_image, Hwf.
Qed.

(** C11: a configuration is fixed once and for all.  If now a server answers a
    [Query] with [c] and now or at any later time a server, the same or another
    one, answers a [Query] with [c'] of the same number, then [c'] is [c], and
    this is the configuration at that place in the sequence of every server
    that has got so far.  (The clients send valid operations only, as in
    C10.) *)
Theorem ctrler_configs_fixed n sys sys' i app nd id c j app' nd' id' c' :
  ctrl_reachable n sys → rtc ctrl_step sys sys' →
  s_apps sys !! i = Some app → s_apps sys' !! j = Some app' →
  sc_answers (raft nd) (a_srv app) Query id (mkReply false c) →
  sc_answers (raft nd') (a_srv app') Query id' (mkReply false c') → Num c = Num c' →
  c = c' ∧ ∀ k app'' c'', s_apps sys' !! k = Some app'' → configs (a_srv app'') !! Z.to_nat (Num c) = Some c'' → c'' = c.
Proof.
  intros Hreach Hsteps Ha Ha' Hans Hans' HN. destruct (ctrl_log n sys sys' Hreach Hsteps) as (ops & Hv & Hnow & Hlater).
  pose proof (answers_configs _ _ _ _ _ Hv (Hnow _ _ Ha) Hans) as Hc.
  pose proof (answers_configs _ _ _ _ _ Hv (proj1 (Hlater _ _ Ha')) Hans') as Hc'. rewrite <-HN in Hc'. split.
  - eapply (follows_agree ops); [done|by eapply Hnow|by eapply Hlater|done|done].
  - intros k app'' c'' Hk Hc''. eapply (follows_agree ops); [done|by eapply Hlater|by eapply Hnow|done|done].
Qed.
End system.

(** ** A run

    Server 0 is elected; group 1 joins, and then a client asks for the latest
    configuration.  Later server 1 has executed both as well. *)
Section run.
#[local] Instance GobOf `{Countable A} : Gob A := CountableGob A.
#[local] Instance GobLawsOf `{Countable A} : GobLaws A := CountableGobLaws A.

#[local] Instance Identifier_eq_dec : EqDecision Identifier.
Proof. solve_decision. Defined.
#[local] Instance JoinArgs_eq_dec : EqDecision JoinArgs.
Proof. solve_decision. Defined.
#[local] Instance LeaveArgs_eq_dec : EqDecision LeaveArgs.
Proof. solve_decision. Defined.
#[local] Instance MoveArgs_eq_dec : EqDecision MoveArgs.
Proof. solve_decision. Defined.
#[local] Instance QueryArgs_eq_dec : EqDecision QueryArgs.
Proof. solve_decision. Defined.
#[local] Instance OpArgs_eq_dec : EqDecision OpArgs.
Proof. solve_decision. Defined.
#[local] Instance Op_eq_dec : EqDecision Op.
Proof. solve_decision. Defined.

(** An operation as a sum of tuples. *)
Definition arg_key (a : OpArgs) : Z * Z * (gmap Z (list string) + list Z + (Z * Z) + Z) :=
  match a with
  | AJoin a => (ClientId (j_Identifier a), CallId (j_Identifier a), inl (inl (inl (Servers a))))
  | ALeave a => (ClientId (l_Identifier a), CallId (l_Identifier a), inl (inl (inr (GIDs a))))
  | AMove a => (ClientId (m_Identifier a), CallId (m_Identifier a), inl (inr (Shard a, GID a)))
  | AQuery a => (ClientId (q_Identifier a), CallId (q_Identifier a), inr (q_Num a))
  end.
Definition key_arg (k : Z * Z * (gmap Z (list string) + list Z + (Z * Z) + Z)) : OpArgs :=
  let id := mkIdentifier k.1.1 k.1.2 in
  match k.2 with
  | inl (inl (inl g)) => AJoin (mkJoinArgs id g)
  | inl (inl (inr l)) => ALeave (mkLeaveArgs id l)
  | inl (inr (s, g)) => AMove (mkMoveArgs id s g)
  | inr q => AQuery (mkQueryArgs id q)
  end.
Definition ty_num (ty : OpType) : nat := match ty with Join => 0 | Leave => 1 | Move => 2 | Query => 3 end.
Definition num_ty (k : nat) : OpType := match k with 0 => Join | 1 => Leave | 2 => Move | _ => Query end%nat.

#[local] Instance Op_countable : Countable Op.
Proof.
  refine (inj_countable' (λ op, (ty_num (op_OpType op), arg_key (Args op))) (λ k, mkOp (num_ty k.1) (key_arg k.2)) _).
  by intros [ [] [ [ [] ? ] | [ [] ? ] | [ [] ? ? ] | [ [] ? ] ] ].
Defined.

Definition ctrl_handle (rf : Raft Op) (sc : ShardCtrler) (m : ApplyMsg Op) : outcome ShardCtrler :=
  applier order0 (set_rf rf sc) m.

Lemma ctrl_handle_ok rf sc m sc' : ctrl_handle rf sc m = Ret sc' → sv_handles rf sc m (Ret sc').
Proof. intros <-. exists order0. split; [apply order0_valid|done]. Qed.

#[local] Instance valid_op_dec op : Decision (valid_op op).
Proof. unfold valid_op. destruct (op_OpType op), (Args op); apply _. Defined.

Definition ctrl0 (i : nat) : ShardCtrler := mkShardCtrler (Z.of_nat i) (raft (node0 i)) false [zeroConfig] ∅ 0.
Definition csys0 : Sys Op ShardCtrler := boot_sys ctrl0.

Lemma csys0_init : sys_init () 3 csys0.
Proof.
  apply boot_sys_init. intros i Hi. simpl. unfold StartServer.
  by destruct (Make_fresh (C := Op) 3 (Z.of_nat i)) as (rf & -> & _ & _ & _ & _ & ->); [lia|].
Qed.

Definition join1 : Op := mkOp Join (AJoin (mkJoinArgs (mkIdentifier 7 0) {[1 := ["a"]]})).
Definition query1 : Op := mkOp Query (AQuery (mkQueryArgs (mkIdentifier 8 0) (-1))).

Definition crun : list (SysAction Op) :=
  [SRaft (ALocal 0 LElectionTimeout); SRaft (ADeliver 0); SRaft (AReply 0); SRaft (ADrop 1);
   SStart 0 join1; SStart 0 query1; SRaft (ADeliver 4); SRaft (AReply 4); SApply 0; SHandle 0; SHandle 0].
Definition clater : list (SysAction Op) :=
  [SRaft (ALocal 0 LHeartbeatTimeout); SRaft (ADeliver 6); SRaft (AReply 6); SApply 1; SHandle 1; SHandle 1; SRestart 0].

Definition csys1 : Sys Op ShardCtrler := default csys0 (sacts ctrl_handle () (λ _, valid_op) crun csys0).
Definition csys2 : Sys Op ShardCtrler := default csys0 (sacts ctrl_handle () (λ _, valid_op) clater csys1).

Lemma csys1_reachable : ctrl_reachable valid_op 3 csys1.
Proof.
  exists csys0. split; [apply csys0_init|]. apply (sacts_sound ctrl_handle () ctrl_handle_ok (λ _, valid_op) crun).
  vm_compute. reflexivity.
Qed.

Lemma csys2_steps : rtc (ctrl_step valid_op) csys1 csys2.
Proof. apply (sacts_sound ctrl_handle () ctrl_handle_ok (λ _, valid_op) clater). vm_compute. reflexivity. Qed.

Definition capp1 (i : nat) : App Op ShardCtrler := default (mkApp (ctrl0 0) []) (s_apps csys1 !! i).
Definition capp2 (i : nat) : App Op ShardCtrler := default (mkApp (ctrl0 0) []) (s_apps csys2 !! i).
Definition cnd1 (i : nat) : Node Op := default (node0 0) (nodes (s_net csys1) !! i).
Definition cnd2 (i : nat) : Node Op := default (node0 0) (nodes (s_net csys2) !! i).

Definition group1 : Config := mkConfig 1 (replicate 10 1) {[1 := ["a"]]}.

Lemma ctrler_one_log_witness :
  configs (a_srv (capp1 0)) = [zeroConfig; group1] ∧ configs (a_srv (capp2 0)) = [zeroConfig] ∧
  ∃ ops, sc_follows ops (a_srv (capp1 0)) ∧ sc_follows ops (a_srv (capp2 1)).
Proof.
  split_and!; [vm_compute; reflexivity..|].
  destruct (ctrler_one_log valid_op (λ _ Hv, Hv) 3 csys1 csys2 csys1_reachable csys2_steps) as (ops & _ & H1' & H2'). exists ops. split.
  - apply (H1' 0%nat). vm_compute. reflexivity.
  - apply (H2' 1%nat). vm_compute. reflexivity.
Defined.

(** Server 0 has answered the query, later the same query would be answered by
    server 1. *)
Lemma ctrler_configs_fixed_witness :
  ∃ c, checkExecuted (set_rf (raft (cnd2 1)) (a_srv (capp2 1))) 8 0 Query = Some (mkReply false c) ∧ group1 = c ∧
    ∀ app, s_apps csys2 !! 1%nat = Some app → ∀ c', configs (a_srv app) !! 1%nat = Some c' → c' = group1.
Proof.
  destruct (ctrler_configs_fixed valid_op (λ _ Hv, Hv) 3 csys1 csys2 0 (capp1 0) (cnd1 0) (mkIdentifier 8 0) group1 1 (capp2 1) (cnd2 1)
    (mkIdentifier 8 0) group1 csys1_reachable csys2_steps) as [Heq Hall]; [vm_compute; reflexivity..| | |reflexivity|].
  - left. exists 2, 1. vm_compute. reflexivity.
  - right. vm_compute. reflexivity.
  - exists group1. split_and!; [vm_compute; reflexivity|exact Heq|]. intros app Ha c' Hc'. by eapply (Hall 1%nat).
Defined.
End run.
