(* ===== verification/ShardKv.v ===== *)
(** * The sharded key/value service

    src/src/shardkv: replica groups that each serve the shards the current
    configuration gives them, and hand shards over when it changes
    (server.go, common.go, client.go).

    - [interface{}] commands of the Raft log are [Command].
    - A handler waits on the channel of its log index ([notifyChan]); it is
      split there: [..._enter] is the code before the receive, [..._finish] the
      code after it, applied to the command received.  The channels have a
      buffer of one.
    - The background goroutines ([queryConfig], [tryReqShardData], [tryGC])
      are one definition per turn; what the shard controller's clerk and the
      RPCs to other groups return is an argument. *)

From Stdlib Require Import Strings.Byte Ascii.
From stdpp Require Import prelude gmap strings list.
From S2P Require Import Prelude Gob Raft.
From S2P Require ShardCtrler.
Local Open Scope Z_scope.

Abbreviation Config := ShardCtrler.Config.
Abbreviation NShards := ShardCtrler.NShards.

Inductive OpType := Get | Put | Append | ErrChangeGroup.

#[export] Instance OpType_eq_dec : EqDecision OpType.
Proof. solve_decision. Defined.

Record Op := mkOp {
  op_OpType : OpType;
  ClientId : Z;
  CallId : Z;
  Key : string;
  Value : string;
}.

Record GCOp := mkGCOp { gc_CfgNum : Z; gc_Shard : Z }.

#[export] Instance GCOp_eq_dec : EqDecision GCOp.
Proof. solve_decision. Defined.

Record LastOperation := mkLastOperation { lo_CallId : Z; Result : string }.

Record MigrateShardArgs := mkMigrateShardArgs { ma_ConfigNum : Z; ma_Shard : Z }.
Record MigrateShardReply := mkMigrateShardReply {
  mr_ConfigNum : Z;
  mr_Shard : Z;
  mr_ErrWrongLeader : bool;
  mr_Data : gmap string string;
  mr_LastOperation : gmap Z LastOperation;
}.
Record GCArgs := mkGCArgs { ga_CfgNum : Z; ga_Shard : Z }.

Inductive Command :=
  | COp (op : Op)
  | CConfig (c : Config)
  | CMigrate (m : MigrateShardReply)
  | CGC (g : GCOp).

Record ShardKV := mkShardKV {
  me : Z;
  rf : Raft Command;
  gid : Z;
  maxraftstate : Z;
  dead : bool;
  Data : gmap string string;
  notifyChan : gmap Z (list Command);
  LastOp : gmap Z LastOperation;
  LastApplied : Z;
  kv_Config : Config;
  MyShards : gset Z;
  DataForMigration : gmap Z (gmap Z (gmap string string));
  ShardDataReqs : gmap Z Z;
  GCList : gmap Z (gset Z);
}.

(** ** Updates *)

Definition set_rf (x : Raft Command) (kv : ShardKV) : ShardKV :=
  mkShardKV (me kv) x (gid kv) (maxraftstate kv) (dead kv) (Data kv) (notifyChan kv) (LastOp kv)
    (LastApplied kv) (kv_Config kv) (MyShards kv) (DataForMigration kv) (ShardDataReqs kv) (GCList kv).

Definition set_notifyChan (x : gmap Z (list Command)) (kv : ShardKV) : ShardKV :=
  mkShardKV (me kv) (rf kv) (gid kv) (maxraftstate kv) (dead kv) (Data kv) x (LastOp kv)
    (LastApplied kv) (kv_Config kv) (MyShards kv) (DataForMigration kv) (ShardDataReqs kv) (GCList kv).

(** The data and the duplicate table. *)
Definition set_data (d : gmap string string) (l : gmap Z LastOperation) (kv : ShardKV) : ShardKV :=
  mkShardKV (me kv) (rf kv) (gid kv) (maxraftstate kv) (dead kv) d (notifyChan kv) l
    (LastApplied kv) (kv_Config kv) (MyShards kv) (DataForMigration kv) (ShardDataReqs kv) (GCList kv).

Definition set_LastApplied (x : Z) (kv : ShardKV) : ShardKV :=
  mkShardKV (me kv) (rf kv) (gid kv) (maxraftstate kv) (dead kv) (Data kv) (notifyChan kv) (LastOp kv)
    x (kv_Config kv) (MyShards kv) (DataForMigration kv) (ShardDataReqs kv) (GCList kv).

(** Configuration, shards and migration state. *)
Definition set_shards (c : Config) (s : gset Z) (m : gmap Z (gmap Z (gmap string string)))
    (r : gmap Z Z) (g : gmap Z (gset Z)) (kv : ShardKV) : ShardKV :=
  mkShardKV (me kv) (rf kv) (gid kv) (maxraftstate kv) (dead kv) (Data kv) (notifyChan kv) (LastOp kv)
    (LastApplied kv) c s m r g.

(** ** Shards *)

(** [key[0] % NShards], 0 for the empty key. *)
Definition key2shard (key : string) : Z :=
  let shard := match key with String c _ => Z.of_N (N_of_ascii c) | EmptyString => 0 end in
  Z.rem shard NShards.

Definition checkRightGroup (kv : ShardKV) (key : string) : bool :=
  bool_decide (key2shard key ∈ MyShards kv).

(** [equalOp], with its comparison of [op2.CallId] to itself. *)
Definition equalOp (a b : Command) : bool :=
  match a, b with
  | COp op1, COp op2 =>
      bool_decide (op_OpType op1 = op_OpType op2) && (ClientId op1 =? ClientId op2) &&
      (CallId op2 =? CallId op2)
  | CConfig c1, CConfig c2 => ShardCtrler.Num c1 =? ShardCtrler.Num c2
  | CMigrate m1, CMigrate m2 => (mr_ConfigNum m1 =? mr_ConfigNum m2) && (mr_Shard m1 =? mr_Shard m2)
  | CGC g1, CGC g2 => (gc_CfgNum g1 =? gc_CfgNum g2) && (gc_Shard g1 =? gc_Shard g2)
  | _, _ => false
  end.

(** ** Notification channels *)

(** [kv.index2notifyChan(index)]: the channel is created if it is missing. *)
Definition index2notifyChan (kv : ShardKV) (index : Z) : ShardKV * list Command :=
  match notifyChan kv !! index with
  | Some ch => (kv, ch)
  | None => (set_notifyChan (<[index := []]> (notifyChan kv)) kv, [])
  end.

(** [kv.index2notifyChan(index) <- command]; [None] when the send blocks. *)
Definition notify (kv : ShardKV) (index : Z) (command : Command) : option ShardKV :=
  let '(kv, ch) := index2notifyChan kv index in
  match ch with
  | [] => Some (set_notifyChan (<[index := [command]]> (notifyChan kv)) kv)
  | _ => None
  end.

(** [<-kv.index2notifyChan(index)]; [None] when the receive blocks. *)
Definition await (kv : ShardKV) (index : Z) : ShardKV * option Command :=
  let '(kv, ch) := index2notifyChan kv index in
  match ch with
  | [] => (kv, None)
  | c :: ch => (set_notifyChan (<[index := ch]> (notifyChan kv)) kv, Some c)
  end.

(** ** Execution of committed commands *)

Section exec.
Implicit Types kv : ShardKV.

(** Shard [i] under the old and the new configuration. *)
Definition gainShard kv (oldNum : Z) (i : Z) (s : gset Z) (r : gmap Z Z) : gset Z * gmap Z Z :=
  if negb (oldNum =? 0) then (s, <[i := oldNum]> r) else (s ∪ {[i]}, r).

(** The loop over the shards: [MyShards], [ShardDataReqs], [lostShards]. *)
Fixpoint diffShards kv (old new : Config) (js : list Z) (s : gset Z) (r : gmap Z Z) (lost : list Z)
    : outcome (gset Z * gmap Z Z * list Z) :=
  match js with
  | [] => Ret (s, r, lost)
  | i :: js =>
      gid1 ← go_index (ShardCtrler.Shards old) i;
      gid2 ← go_index (ShardCtrler.Shards new) i;
      if negb (gid1 =? gid2) && ((gid1 =? gid kv) || (gid2 =? gid kv)) then
        if gid1 =? gid kv then diffShards kv old new js s r (lost ++ [i])
        else
          let '(s, r) := gainShard kv (ShardCtrler.Num old) i s r in
          diffShards kv old new js s r lost
      else diffShards kv old new js s r lost
  end.

(** The loop over the lost shards: [MyShards], [Data], [DataForMigration]. *)
Fixpoint loseShards (oldNum : Z) (lost : list Z) (s : gset Z) (d : gmap string string)
    (m : gmap Z (gmap Z (gmap string string)))
    : gset Z * gmap string string * gmap Z (gmap Z (gmap string string)) :=
  match lost with
  | [] => (s, d, m)
  | shard :: lost =>
      let s := s ∖ {[shard]} in
      let data := filter (λ e, key2shard e.1 = shard) d in
      let d := filter (λ e, key2shard e.1 ≠ shard) d in
      let m := <[oldNum := <[shard := data]> (default ∅ (m !! oldNum))]> m in
      loseShards oldNum lost s d m
  end.

Definition execApplyConfig kv (newConfig : Config) : outcome ShardKV :=
  if ShardCtrler.Num newConfig <=? ShardCtrler.Num (kv_Config kv) then Ret kv
  else
    let oldConfig := kv_Config kv in
    '(s, r, lost) ←
      diffShards kv oldConfig newConfig (seqZ 0 NShards) (MyShards kv) (ShardDataReqs kv) [];
    let '(s, d, m) := loseShards (ShardCtrler.Num oldConfig) lost s (Data kv) (DataForMigration kv) in
    Ret (set_shards newConfig s m r (GCList kv) (set_data d (LastOp kv) kv)).

(** [if lop, ok := kv.LastOp[k]; !ok || lop.CallId <= v.CallId { kv.LastOp[k] = v }] *)
Definition mergeLastOp (mine theirs : gmap Z LastOperation) : gmap Z LastOperation :=
  union_with (λ lop v, Some (if lo_CallId lop <=? lo_CallId v then v else lop)) mine theirs.

Definition execMigrationDataSync kv (m : MigrateShardReply) : ShardKV :=
  if negb (mr_ConfigNum m =? ShardCtrler.Num (kv_Config kv) - 1) then kv
  else
    let kv :=
      if decide (mr_Shard m ∈ MyShards kv) then kv
      else
        let kv := set_shards (kv_Config kv) (MyShards kv ∪ {[mr_Shard m]}) (DataForMigration kv)
                    (ShardDataReqs kv) (GCList kv) kv in
        set_data (mr_Data m ∪ Data kv) (mergeLastOp (LastOp kv) (mr_LastOperation m)) kv in
    match ShardDataReqs kv !! mr_Shard m with
    | Some _ =>
        set_shards (kv_Config kv) (MyShards kv) (DataForMigration kv)
          (delete (mr_Shard m) (ShardDataReqs kv))
          (<[mr_ConfigNum m := default ∅ (GCList kv !! mr_ConfigNum m) ∪ {[mr_Shard m]}]> (GCList kv)) kv
    | None => kv
    end.

Definition execGC kv (g : GCOp) : ShardKV :=
  match DataForMigration kv !! gc_CfgNum g with
  | None => kv
  | Some ms =>
      match ms !! gc_Shard g with
      | None => kv
      | Some _ =>
          let ms := delete (gc_Shard g) ms in
          let m := <[gc_CfgNum g := ms]> (DataForMigration kv) in
          let m := if decide (size ms = 0%nat) then delete (gc_CfgNum g) m else m in
          set_shards (kv_Config kv) (MyShards kv) m (ShardDataReqs kv) (GCList kv) kv
      end
  end.

Definition executeOp (d : gmap string string) (op : Op) : gmap string string * string :=
  match op_OpType op with
  | Get => (d, match d !! Key op with Some v => v | None => "" end)
  | Put => (<[Key op := Value op]> d, "")
  | Append =>
      let value := match d !! Key op with Some v => v | None => "" end in
      (<[Key op := value +:+ Value op]> d, "")
  | ErrChangeGroup => (d, "")
  end.

(** The client operation of [execCommand]; returns the command the handler
    is notified with. *)
Definition execClientOp kv (op : Op) : ShardKV * Command :=
  if match LastOp kv !! ClientId op with Some v => lo_CallId v >=? CallId op | None => false end
  then (kv, COp op)
  else if negb (checkRightGroup kv (Key op)) then
    (kv, COp (mkOp ErrChangeGroup (ClientId op) (CallId op) (Key op) (Value op)))
  else
    let '(d, result) := executeOp (Data kv) op in
    (set_data d (<[ClientId op := mkLastOperation (CallId op) result]> (LastOp kv)) kv, COp op).

(** [execCommand] up to the deferred notification. *)
Definition execCommand kv (command : Command) (index : Z) : outcome (ShardKV * Command) :=
  if negb (LastApplied kv + 1 =? index) then Panic (Explicit "kv.lastApplied + 1 != index")
  else
    let kv := set_LastApplied (LastApplied kv + 1) kv in
    match command with
    | CConfig c => kv ← execApplyConfig kv c; Ret (kv, command)
    | CMigrate m => Ret (execMigrationDataSync kv m, command)
    | CGC g => Ret (execGC kv g, command)
    | COp op => Ret (execClientOp kv op)
    end.
End exec.

(** ** RPC handlers *)

Inductive Err := OK | ErrNoKey | ErrWrongGroup | ErrWrongLeader | NoErr.

Record Identifier := mkIdentifier { id_ClientId : Z; id_CallId : Z }.
Record GetArgs := mkGetArgs { g_Key : string; g_Identifier : Identifier }.
Record PutAppendArgs := mkPutAppendArgs {
  pa_Key : string; pa_Value : string; pa_Op : string; pa_Identifier : Identifier }.
Record GetReply := mkGetReply { gr_Err : Err; gr_Value : string }.
Record PutAppendReply := mkPutAppendReply { par_Err : Err }.

Section handlers.
Context `{Gob Z} `{Gob (list (LogEntry Command))}.
Implicit Types kv : ShardKV.

(** [rf.Start(c)]: the index, or [None] if this server is not the leader. *)
Definition startCommand kv (c : Command) : outcome (ShardKV * option Z * list (Z * Rpc Command)) :=
  '(rf', (index, _, isLeader), ms) ← Start (Some c) (rf kv);
  Ret (set_rf rf' kv, if (isLeader : bool) then Some index else None, ms).

(** Guard and [Start] of [Get] and [PutAppend]: an error, or the index to
    wait for. *)
Definition startOp kv (op : Op) : outcome (ShardKV * (Err + Z) * list (Z * Rpc Command)) :=
  if negb (checkRightGroup kv (Key op)) then Ret (kv, inl ErrWrongGroup, [])
  else
    '(kv, r, ms) ← startCommand kv (COp op);
    Ret (kv, match r with Some index => inr index | None => inl ErrWrongLeader end, ms).

Definition getOp (args : GetArgs) : Op :=
  mkOp Get (id_ClientId (g_Identifier args)) (id_CallId (g_Identifier args)) (g_Key args) "".

Definition Get_enter kv (args : GetArgs) := startOp kv (getOp args).

(** After the receive: the answer for [op] when [currOp] was executed at its
    index. *)
Definition answerOp kv (op : Op) (currOp : Command) : Err * string :=
  if negb (equalOp (COp op) currOp) then
    match currOp with
    | COp c => if decide (op_OpType c = ErrChangeGroup) then (ErrWrongGroup, "") else (ErrWrongLeader, "")
    | _ => (ErrWrongLeader, "")
    end
  else
    match LastOp kv !! ClientId op with
    | Some v => if lo_CallId v =? CallId op then (OK, Result v) else (ErrWrongLeader, "")
    | None => (ErrWrongLeader, "")
    end.

Definition Get_finish kv (args : GetArgs) (currOp : Command) : GetReply :=
  let '(err, v) := answerOp kv (getOp args) currOp in mkGetReply err v.

Definition putAppendOp (args : PutAppendArgs) : option Op :=
  let mk t := Some (mkOp t (id_ClientId (pa_Identifier args)) (id_CallId (pa_Identifier args))
                      (pa_Key args) (pa_Value args)) in
  if decide (pa_Op args = "Put") then mk Put
  else if decide (pa_Op args = "Append") then mk Append
  else None.

(** An unknown operation leaves the reply empty. *)
Definition PutAppend_enter kv (args : PutAppendArgs)
    : outcome (ShardKV * (Err + Z) * list (Z * Rpc Command)) :=
  match putAppendOp args with
  | None => Ret (kv, inl NoErr, [])
  | Some op => startOp kv op
  end.

Definition PutAppend_finish kv (args : PutAppendArgs) (currOp : Command) : PutAppendReply :=
  match putAppendOp args with
  | None => mkPutAppendReply NoErr
  | Some op => mkPutAppendReply (answerOp kv op currOp).1
  end.

Definition refuse : MigrateShardReply := mkMigrateShardReply 0 0 true ∅ ∅.

(** [range] over the maps copies them. *)
Definition cloneDataAndLastOperation kv (cfgNum shard : Z) : gmap string string * gmap Z LastOperation :=
  (default ∅ (default ∅ (DataForMigration kv !! cfgNum) !! shard), LastOp kv).

Definition MigrateShard kv (args : MigrateShardArgs) : MigrateShardReply :=
  if negb (GetState (rf kv)).2 then refuse
  else if ma_ConfigNum args >? ShardCtrler.Num (kv_Config kv) then refuse
  else
    match DataForMigration kv !! ma_ConfigNum args with
    | None => refuse
    | Some ms =>
        match ms !! ma_Shard args with
        | None => refuse
        | Some _ =>
            let '(data, lastOperation) :=
              cloneDataAndLastOperation kv (ma_ConfigNum args) (ma_Shard args) in
            mkMigrateShardReply (ma_ConfigNum args) (ma_Shard args) false data lastOperation
        end
    end.

(** [GC] replies [ErrWrongLeader = true] ([inl]) or waits. *)
Definition GC_enter kv (args : GCArgs) : outcome (ShardKV * (bool + Z) * list (Z * Rpc Command)) :=
  '(kv, r, ms) ← startCommand kv (CGC (mkGCOp (ga_CfgNum args) (ga_Shard args)));
  Ret (kv, match r with Some index => inr index | None => inl true end, ms).

Definition GC_finish (args : GCArgs) (currOp : Command) : bool :=
  negb (equalOp currOp (CGC (mkGCOp (ga_CfgNum args) (ga_Shard args)))).

(** *** Background goroutines *)

(** One turn of [queryConfig]; [query] is [kv.sc.Query]. *)
Definition queryConfig kv (query : Z → Config) : outcome (ShardKV * list (Z * Rpc Command)) :=
  if (GetState (rf kv)).2 && bool_decide (size (ShardDataReqs kv) = 0%nat) then
    let config := query (ShardCtrler.Num (kv_Config kv) + 1) in
    if ShardCtrler.Num config =? ShardCtrler.Num (kv_Config kv) + 1 then
      '(kv, _, ms) ← startCommand kv (CConfig config); Ret (kv, ms)
    else Ret (kv, [])
  else Ret (kv, []).

(** The servers of the group that held [shard] under [config]. *)
Definition holders (config : Config) (shard : Z) : outcome (list string) :=
  g ← go_index (ShardCtrler.Shards config) shard;
  Ret (default [] (ShardCtrler.Groups config !! g)).

(** The loop of one request goroutine: the first accepted reply.  [call] is
    the reply of a server, [None] if the call failed or timed out. *)
Fixpoint askServers {R} (refused : R → bool) (call : string → option R) (servers : list string) : option R :=
  match servers with
  | [] => None
  | server :: servers =>
      match call server with
      | Some reply => if refused reply then askServers refused call servers else Some reply
      | None => askServers refused call servers
      end
  end.

(** The goroutine [tryReqShardData] starts for one request. *)
Definition reqShardData kv (shard : Z) (config : Config)
    (call : string → MigrateShardArgs → option MigrateShardReply)
    : outcome (ShardKV * list (Z * Rpc Command)) :=
  let args := mkMigrateShardArgs (ShardCtrler.Num config) shard in
  servers ← holders config shard;
  match askServers mr_ErrWrongLeader (λ server, call server args) servers with
  | Some reply => '(kv, _, ms) ← startCommand kv (CMigrate reply); Ret (kv, ms)
  | None => Ret (kv, [])
  end.

(** The goroutine [tryGC] starts for one shard; a GC reply is
    [ErrWrongLeader]. *)
Definition reqGC kv (shard : Z) (config : Config) (call : string → GCArgs → option bool) : outcome ShardKV :=
  let args := mkGCArgs (ShardCtrler.Num config) shard in
  servers ← holders config shard;
  match askServers id (λ server, call server args) servers with
  | Some _ =>
      let l := default ∅ (GCList kv !! ShardCtrler.Num config) ∖ {[shard]} in
      let g := if decide (is_Some (GCList kv !! ShardCtrler.Num config))
               then <[ShardCtrler.Num config := l]> (GCList kv) else GCList kv in
      let g := if decide (size l = 0%nat) then delete (ShardCtrler.Num config) g else g in
      Ret (set_shards (kv_Config kv) (MyShards kv) (DataForMigration kv) (ShardDataReqs kv) g kv)
  | None => Ret kv
  end.

Definition Kill kv : ShardKV :=
  mkShardKV (me kv) (Raft.Kill (rf kv)) (gid kv) (maxraftstate kv) true (Data kv) (notifyChan kv)
    (LastOp kv) (LastApplied kv) (kv_Config kv) (MyShards kv) (DataForMigration kv) (ShardDataReqs kv)
    (GCList kv).
Definition killed kv : bool := dead kv.
End handlers.

(** ** Snapshots *)
Section snapshots.
Context `{Gob Z} `{Gob (list (LogEntry Command))} `{Gob (gmap string string)}
  `{Gob (gmap Z LastOperation)} `{Gob Config} `{Gob (gset Z)}
  `{Gob (gmap Z (gmap Z (gmap string string)))} `{Gob (gmap Z Z)} `{Gob (gmap Z (gset Z))}.
Implicit Types kv : ShardKV.

(** What a snapshot holds, in the order it is encoded. *)
Record Image := mkImage {
  im_LastApplied : Z;
  im_Data : gmap string string;
  im_LastOp : gmap Z LastOperation;
  im_Config : Config;
  im_MyShards : gset Z;
  im_DataForMigration : gmap Z (gmap Z (gmap string string));
  im_ShardDataReqs : gmap Z Z;
  im_GCList : gmap Z (gset Z);
}.

Definition image kv : Image :=
  mkImage (LastApplied kv) (Data kv) (LastOp kv) (kv_Config kv) (MyShards kv) (DataForMigration kv)
    (ShardDataReqs kv) (GCList kv).

Definition encodeImage (i : Image) : list byte :=
  let w := gob_enc [] (im_LastApplied i) in
  let w := gob_enc w (im_Data i) in
  let w := gob_enc w (im_LastOp i) in
  let w := gob_enc w (im_Config i) in
  let w := gob_enc w (im_MyShards i) in
  let w := gob_enc w (im_DataForMigration i) in
  let w := gob_enc w (im_ShardDataReqs i) in
  gob_enc w (im_GCList i).

(** The locked part of a turn of [makeSnapshot]. *)
Definition makeSnapshot kv : option (Z * list byte) :=
  if RaftStateSize (persister (rf kv)) >=? maxraftstate kv
  then Some (LastApplied kv, encodeImage (image kv)) else None.

(** Eight [Decode] calls. *)
Definition decodeImage (s : list byte) : option Image :=
  '(i, p) ← gob_dec s 0%nat;
  '(d, p) ← gob_dec s p;
  '(l, p) ← gob_dec s p;
  '(c, p) ← gob_dec s p;
  '(sh, p) ← gob_dec s p;
  '(m, p) ← gob_dec s p;
  '(r, p) ← gob_dec s p;
  '(g, _) ← gob_dec s p;
  Some (mkImage i d l c sh m r g).

Definition set_image (i : Image) kv : ShardKV :=
  set_LastApplied (im_LastApplied i)
    (set_shards (im_Config i) (im_MyShards i) (im_DataForMigration i) (im_ShardDataReqs i) (im_GCList i)
       (set_data (im_Data i) (im_LastOp i) kv)).

Definition applySnapshot kv (snapshotIndex : Z) (snapshot : list byte) : outcome ShardKV :=
  match decodeImage snapshot with
  | None => Panic Fatal
  | Some i =>
      if negb (im_LastApplied i =? snapshotIndex)
      then Panic (Explicit "applySnapshot():index != snapshotIndex")
      else if snapshotIndex <? LastApplied kv then Ret kv
      else Ret (set_image i kv)
  end.

Definition restoreState kv (snapshot : list byte) : ShardKV :=
  if zlen snapshot <? 1 then kv
  else match decodeImage snapshot with
       | None => kv
       | Some i => set_image i kv
       end.

(** One message of [applier] (the notification apart). *)
Definition applier kv (m : ApplyMsg Command) : outcome ShardKV :=
  if CommandValid m then
    match msg_Command m with
    | Some c => '(kv, _) ← execCommand kv c (CommandIndex m); Ret kv
    | None => Panic (Explicit "interface conversion: interface {} is nil, not shardkv.Op")
    end
  else if SnapshotValid m then applySnapshot kv (SnapshotIndex m) (msg_Snapshot m)
  else Ret kv.

Definition StartServer (n : nat) (i : Z) (ps : Persister) (maxraftstate gid : Z) : outcome ShardKV :=
  rf ← Make n i ps;
  let kv := mkShardKV i rf gid maxraftstate false ∅ ∅ ∅ 0 ShardCtrler.zeroConfig ∅ ∅ ∅ ∅ in
  Ret (restoreState kv (ReadSnapshot ps)).
End snapshots.

(** ** Clerk *)

Record Clerk := mkClerk { ck_config : Config; ck_ClientID : Z; NextCallID : Z }.

Definition MakeClerk (nrand : Z) : Clerk := mkClerk ShardCtrler.zeroConfig nrand 0.

Definition makeIdentifier (ck : Clerk) : Clerk * Identifier :=
  (mkClerk (ck_config ck) (ck_ClientID ck) (NextCallID ck + 1), mkIdentifier (ck_ClientID ck) (NextCallID ck)).

Section clerk.
Context {R : Type}.

(** Which errors end the operation: [OK] and [ErrNoKey] for [Get], [OK] for
    [PutAppend]. *)
Context (accept : Err → bool).

(** The servers of the key's group are asked in order; [ErrWrongGroup] ends
    the round.  [call s] is the reply of server [s], [None] if the call failed
    or timed out. *)
Fixpoint tryGroup (call : string → option (Err * R)) (servers : list string) : option R :=
  match servers with
  | [] => None
  | s :: servers =>
      match call s with
      | Some (err, v) =>
          if accept err then Some v
          else match err with ErrWrongGroup => None | _ => tryGroup call servers end
      | None => tryGroup call servers
      end
  end.

Definition clerkRound (config : Config) (key : string) (call : string → option (Err * R)) : outcome (option R) :=
  g ← go_index (ShardCtrler.Shards config) (key2shard key);
  match ShardCtrler.Groups config !! g with
  | Some servers => Ret (tryGroup call servers)
  | None => Ret None
  end.

(** The loop: after a failed round the configuration is queried again.  A
    round is what its calls and its query give. *)
Fixpoint clerkLoop (ck : Clerk) (key : string) (rounds : list ((string → option (Err * R)) * Config))
    : outcome (Clerk * option R) :=
  match rounds with
  | [] => Ret (ck, None)
  | (call, next) :: rounds =>
      r ← clerkRound (ck_config ck) key call;
      match r with
      | Some v => Ret (ck, Some v)
      | None => clerkLoop (mkClerk next (ck_ClientID ck) (NextCallID ck)) key rounds
      end
  end.
End clerk.

(** The operations; what the network does depends on the arguments sent. *)
Definition clerk_Get (ck : Clerk) (key : string)
    (rounds : GetArgs → list ((string → option (Err * string)) * Config)) : outcome (Clerk * option string) :=
  let '(ck, id) := makeIdentifier ck in
  let args := mkGetArgs key id in
  clerkLoop (λ err, match err with OK | ErrNoKey => true | _ => false end) ck key (rounds args).

Definition clerk_PutAppend (ck : Clerk) (key value op : string)
    (rounds : PutAppendArgs → list ((string → option (Err * ())) * Config)) : outcome (Clerk * option ()) :=
  let '(ck, id) := makeIdentifier ck in
  let args := mkPutAppendArgs key value op id in
  clerkLoop (λ err, match err with OK => true | _ => false end) ck key (rounds args).

Definition clerk_Put (ck : Clerk) (key value : string) := clerk_PutAppend ck key value "Put".
Definition clerk_Append (ck : Clerk) (key value : string) := clerk_PutAppend ck key value "Append".
