(* ===== verification/ShardKvProps.v ===== *)
(** * The sharded key/value service: theorems

    A group holds data only for the shards it serves; when a configuration
    takes a shard away, exactly its keys move to the migration store, and the
    group that gets the shard ends up with exactly these keys and a duplicate
    table that covers the old group's; snapshots restore the whole state. *)

From Stdlib Require Import Strings.Byte Ascii.
From stdpp Require Import prelude gmap countable strings list.
From S2P Require Import Prelude Gob Raft RaftNode RaftExample ShardKv.
From S2P Require ShardCtrler.
Local Open Scope Z_scope.

(** ** Gained and lost shards *)
Section config.
Context (kv : ShardKV) (old new : Config).
Context (Hold : zlen (ShardCtrler.Shards old) = NShards) (Hnew : zlen (ShardCtrler.Shards new) = NShards).

Definition owner (c : Config) (i : Z) : Z := default 0 (ShardCtrler.Shards c !! Z.to_nat i).
Definition lost (i : Z) : bool := (owner old i =? gid kv) && negb (owner new i =? gid kv).
Definition gained (i : Z) : bool := negb (owner old i =? gid kv) && (owner new i =? gid kv).

Lemma shards_index c i : zlen (ShardCtrler.Shards c) = NShards → 0 ≤ i < NShards →
  go_index (ShardCtrler.Shards c) i = Ret (owner c i).
Proof.
  intros Hc Hi. destruct (go_index_in_range (ShardCtrler.Shards c) i) as (g & -> & Hg); [lia|].
  unfold owner. by rewrite Hg.
Qed.

Lemma lost_true i : lost i = true ↔ owner old i = gid kv ∧ owner new i ≠ gid kv.
Proof. unfold lost. rewrite andb_true_iff, negb_true_iff, Z.eqb_eq, Z.eqb_neq. done. Qed.
Lemma gained_true i : gained i = true ↔ owner old i ≠ gid kv ∧ owner new i = gid kv.
Proof. unfold gained. rewrite andb_true_iff, negb_true_iff, Z.eqb_eq, Z.eqb_neq. done. Qed.

(** One shard of the loop. *)
Lemma diffShards_step i js s r l : 0 ≤ i < NShards →
  diffShards kv old new (i :: js) s r l =
    if gained i then
      if ShardCtrler.Num old =? 0 then diffShards kv old new js (s ∪ {[i]}) r l
      else diffShards kv old new js s (<[i := ShardCtrler.Num old]> r) l
    else diffShards kv old new js s r (if lost i then l ++ [i] else l).
Proof.
  intros Hi. simpl. rewrite !shards_index by done. rewrite !bind_Ret.
  unfold gained, lost, gainShard.
  destruct (owner old i =? gid kv) eqn:Ho, (owner new i =? gid kv) eqn:Hn; b2p; simpl.
  - rewrite (proj2 (Z.eqb_eq _ _)) by congruence. done.
  - rewrite (proj2 (Z.eqb_neq _ _)) by congruence. done.
  - rewrite (proj2 (Z.eqb_neq _ _)) by congruence. simpl. by destruct (ShardCtrler.Num old =? 0).
  - by rewrite andb_false_r.
Qed.

Lemma diffShards_spec js s r l :
  (∀ i, i ∈ js → 0 ≤ i < NShards) →
  ∃ s' r', diffShards kv old new js s r l = Ret (s', r', l ++ filter (λ i, lost i) js) ∧
    (∀ i, i ∈ s' ↔ i ∈ s ∨ i ∈ js ∧ gained i = true ∧ ShardCtrler.Num old = 0) ∧
    (∀ i, i ∈ js → gained i = true → ShardCtrler.Num old ≠ 0 → r' !! i = Some (ShardCtrler.Num old)) ∧
    (∀ i, ¬ (i ∈ js ∧ gained i = true ∧ ShardCtrler.Num old ≠ 0) → r' !! i = r !! i).
Proof.
  revert s r l. induction js as [|i js IH]; intros s r l Hjs.
  { exists s, r. rewrite filter_nil, app_nil_r. split_and!; [done| | |done].
    - intros i. rewrite elem_of_nil. tauto.
    - intros i. by rewrite elem_of_nil. }
  rewrite diffShards_step by (apply Hjs; by left).
  assert (∀ i', i' ∈ js → 0 ≤ i' < NShards) as Hjs' by (intros; apply Hjs; by right).
  setoid_rewrite elem_of_cons. rewrite filter_cons. destruct (gained i) eqn:Hg.
  - assert (lost i = false) as ->.
    { apply not_true_is_false. rewrite lost_true. apply gained_true in Hg. tauto. }
    rewrite decide_False by (by intros []). destruct (Z.eqb_spec (ShardCtrler.Num old) 0) as [Hz|Hz].
    + destruct (IH (s ∪ {[i]}) r l Hjs') as (s' & r' & -> & Hs & Hr & Hr').
      exists s', r'. split_and!; [done| | |].
      * intros i'. rewrite Hs, elem_of_union, elem_of_singleton. naive_solver.
      * done.
      * intros i' Hi'. apply Hr'. tauto.
    + destruct (IH s (<[i := ShardCtrler.Num old]> r) l Hjs') as (s' & r' & -> & Hs & Hr & Hr').
      exists s', r'. split_and!; [done| | |].
      * intros i'. rewrite Hs. split; [tauto|]. intros [?|(_ & _ & ?)]; [by left|done].
      * intros i' Hi' Hg' _. destruct (decide (i' ∈ js)) as [|Hn]; [by apply Hr|].
        destruct Hi' as [->|]; [|done]. rewrite Hr' by tauto. by rewrite lookup_insert_eq.
      * intros i' Hi'. rewrite Hr' by tauto. rewrite lookup_insert_ne; [done|]. naive_solver.
  - destruct (IH s r (if lost i then l ++ [i] else l) Hjs') as (s' & r' & -> & Hs & Hr & Hr').
    exists s', r'. split_and!.
    + do 2 f_equal. destruct (lost i); simpl; [|done]. by rewrite <-app_assoc.
    + intros i'. rewrite Hs. split; [tauto|]. intros [?|([->|?] & ? & ?)]; [tauto|congruence|tauto].
    + intros i' [->|Hi']; [congruence|by apply Hr].
    + intros i' Hi'. apply Hr'. tauto.
Qed.
End config.

(** ** Moving lost shards to the migration store *)

(** [m[n][i]]. *)
Definition stored (m : gmap Z (gmap Z (gmap string string))) (n i : Z) : option (gmap string string) :=
  m !! n ≫= λ ms, ms !! i.

Lemma stored_insert m n i d n' i' :
  stored (<[n := <[i := d]> (default ∅ (m !! n))]> m) n' i' =
    if decide (n' = n ∧ i' = i) then Some d else stored m n' i'.
Proof.
  unfold stored. destruct (decide (n' = n)) as [->|Hn].
  - rewrite lookup_insert_eq. simpl. destruct (decide (i' = i)) as [->|Hi].
    + rewrite lookup_insert_eq. by rewrite decide_True.
    + rewrite lookup_insert_ne by done. rewrite decide_False by tauto.
      by destruct (m !! n).
  - rewrite lookup_insert_ne by done. by rewrite decide_False by tauto.
Qed.

Lemma loseShards_spec n js s d m s' d' m' :
  NoDup js → loseShards n js s d m = (s', d', m') →
  (∀ i, i ∈ s' ↔ i ∈ s ∧ i ∉ js) ∧
  (∀ k, d' !! k = if decide (key2shard k ∈ js) then None else d !! k) ∧
  (∀ i, i ∈ js → stored m' n i = Some (filter (λ e, key2shard e.1 = i) d)) ∧
  (∀ n' i, ¬ (n' = n ∧ i ∈ js) → stored m' n' i = stored m n' i).
Proof.
  intros Hnd. revert s d m. induction Hnd as [|j js Hj Hnd IH]; intros s d m Heq; simpl in Heq.
  { simplify_eq. split_and!; [|done| |done].
    - intros i. rewrite elem_of_nil. tauto.
    - intros i. by rewrite elem_of_nil. }
  destruct (IH _ _ _ Heq) as (Hs & Hd & Hm & Hm'). split_and!.
  - intros i. rewrite Hs. set_solver.
  - intros k. rewrite Hd. destruct (decide (key2shard k ∈ js)) as [Hin|Hin].
    { rewrite decide_True by (by right). done. }
    destruct (decide (key2shard k = j)) as [Hk|Hk].
    + rewrite decide_True by (rewrite Hk; by left). apply map_lookup_filter_None. right. by intros v _ [].
    + rewrite decide_False by (by intros [?|?]%elem_of_cons).
      destruct (d !! k) as [v|] eqn:Hv.
      * by apply map_lookup_filter_Some.
      * apply map_lookup_filter_None. by left.
  - intros i [->|Hi]%elem_of_cons.
    + rewrite Hm' by tauto. rewrite stored_insert. by rewrite decide_True.
    + rewrite Hm by done. f_equal. apply map_eq. intros k. apply option_eq. intros v.
      rewrite !map_lookup_filter_Some. simpl. split; [tauto|]. intros [? <-]. split_and!; [done| |done].
      intros Heqj. by rewrite Heqj in Hi.
  - intros n' i Hni. rewrite Hm'.
    + rewrite stored_insert, decide_False; [done|]. intros [-> ->]. apply Hni. split; [done|by left].
    + intros [-> ?]. apply Hni. split; [done|by right].
Qed.

Lemma key2shard_range k : 0 ≤ key2shard k < NShards.
Proof.
  unfold key2shard. rewrite Z.rem_mod_nonneg; [apply Z.mod_pos_bound; done| |done].
  destruct k; [done|lia].
Qed.

(** ** A new configuration *)

(** Shard [i] of the old configuration leaves, or comes to, the group. *)
Definition loses kv new i := 0 ≤ i < NShards ∧ lost kv (kv_Config kv) new i = true.
Definition gains kv new i := 0 ≤ i < NShards ∧ gained kv (kv_Config kv) new i = true.

Record config_applied (kv : ShardKV) (new : Config) (kv' : ShardKV) : Prop := {
  ca_gid : gid kv' = gid kv;
  ca_LastOp : LastOp kv' = LastOp kv;
  ca_LastApplied : LastApplied kv' = LastApplied kv;
  ca_config : kv_Config kv' = new;
  ca_GCList : GCList kv' = GCList kv;
  ca_mine i : i ∈ MyShards kv' ↔ i ∈ MyShards kv ∧ ¬ loses kv new i ∨
                gains kv new i ∧ ShardCtrler.Num (kv_Config kv) = 0;
  ca_asked i : gains kv new i → ShardCtrler.Num (kv_Config kv) ≠ 0 →
                 ShardDataReqs kv' !! i = Some (ShardCtrler.Num (kv_Config kv));
  ca_reqs i : ¬ (gains kv new i ∧ ShardCtrler.Num (kv_Config kv) ≠ 0) →
                 ShardDataReqs kv' !! i = ShardDataReqs kv !! i;
  ca_kept k : ¬ loses kv new (key2shard k) → Data kv' !! k = Data kv !! k;
  ca_gone k : loses kv new (key2shard k) → Data kv' !! k = None;
  ca_stored i : loses kv new i →
    stored (DataForMigration kv') (ShardCtrler.Num (kv_Config kv)) i =
      Some (filter (λ e, key2shard e.1 = i) (Data kv));
  ca_others n i : ¬ (n = ShardCtrler.Num (kv_Config kv) ∧ loses kv new i) →
    stored (DataForMigration kv') n i = stored (DataForMigration kv) n i;
}.

Lemma elem_of_loses kv new i :
  i ∈ filter (λ i, lost kv (kv_Config kv) new i) (seqZ 0 NShards) ↔ loses kv new i.
Proof.
  rewrite list_elem_of_filter, elem_of_seqZ, Is_true_true. unfold loses. split; intros []; split; try done; lia.
Qed.

Lemma execApplyConfig_stale kv new :
  ShardCtrler.Num new ≤ ShardCtrler.Num (kv_Config kv) → execApplyConfig kv new = Ret kv.
Proof. intros. unfold execApplyConfig. by rewrite (proj2 (Z.leb_le _ _)). Qed.

Lemma execApplyConfig_spec kv new :
  zlen (ShardCtrler.Shards (kv_Config kv)) = NShards → zlen (ShardCtrler.Shards new) = NShards →
  ShardCtrler.Num (kv_Config kv) < ShardCtrler.Num new →
  ∃ kv', execApplyConfig kv new = Ret kv' ∧ config_applied kv new kv'.
Proof.
  intros Hold Hnew Hlt. unfold execApplyConfig. rewrite (proj2 (Z.leb_gt _ _)) by done.
  destruct (diffShards_spec kv (kv_Config kv) new Hold Hnew (seqZ 0 NShards) (MyShards kv)
    (ShardDataReqs kv) []) as (s & r & -> & Hs & Hr & Hr'); [intros i ?%elem_of_seqZ; lia|].
  rewrite bind_Ret. simpl. set (js := filter _ _).
  destruct (loseShards _ js s (Data kv) (DataForMigration kv)) as [[s' d'] m'] eqn:Hl.
  apply loseShards_spec in Hl as (Hs' & Hd & Hm & Hm'); [|apply NoDup_filter, NoDup_seqZ].
  assert (∀ i, i ∈ seqZ 0 NShards ∧ gained kv (kv_Config kv) new i = true ↔ gains kv new i) as Hgain.
  { intros i. rewrite elem_of_seqZ. unfold gains. split; intros []; split; try done; lia. }
  assert (∀ i, i ∈ js ↔ loses kv new i) as Hjs by (intros; apply elem_of_loses).
  eexists. split; [reflexivity|]. split; simpl; try done.
  - intros i. rewrite Hs', Hs, Hjs. rewrite <-Hgain. split; [tauto|].
    intros [?|[[? Hg] ?]]; [tauto|]. split; [tauto|]. intros [_ Hls].
    apply lost_true in Hls. apply gained_true in Hg. tauto.
  - intros i [? ?]%Hgain ?. by apply Hr.
  - intros i Hi. apply Hr'. intros (? & ? & ?). apply Hi. split; [by apply Hgain|done].
  - intros k Hk. rewrite Hd, decide_False; [done|]. by rewrite Hjs.
  - intros k Hk. rewrite Hd, decide_True; [done|]. by rewrite Hjs.
  - intros i Hi. apply Hm. by apply Hjs.
  - intros n i Hi. apply Hm'. by rewrite Hjs.
Qed.

(** ** The invariant of a group's state *)

Record kv_wf (kv : ShardKV) : Prop := {
  wf_gid : gid kv ≠ 0;
  wf_shards : zlen (ShardCtrler.Shards (kv_Config kv)) = NShards;
  (** The shards served and the shards asked for are those the configuration
      gives the group; a shard asked for is not served yet. *)
  wf_owned i : i ∈ MyShards kv ∨ is_Some (ShardDataReqs kv !! i) ↔
                 0 ≤ i < NShards ∧ owner (kv_Config kv) i = gid kv;
  wf_disjoint i : i ∈ MyShards kv → ShardDataReqs kv !! i = None;
  wf_reqs i n : ShardDataReqs kv !! i = Some n → n = ShardCtrler.Num (kv_Config kv) - 1;
  (** Data only for the shards served. *)
  wf_data k v : Data kv !! k = Some v → key2shard k ∈ MyShards kv;
  wf_stored n i d : stored (DataForMigration kv) n i = Some d →
    n < ShardCtrler.Num (kv_Config kv) ∧ ∀ k v, d !! k = Some v → key2shard k = i;
}.

(** What a leader checks before it starts a command: the next configuration
    only when no shard is awaited, a migration only for a shard it awaits. *)
Definition cmd_ok (kv : ShardKV) (c : Command) : Prop :=
  match c with
  | COp _ | CGC _ => True
  | CConfig c =>
      zlen (ShardCtrler.Shards c) = NShards ∧
      (ShardCtrler.Num c ≤ ShardCtrler.Num (kv_Config kv) ∨
       ShardCtrler.Num c = ShardCtrler.Num (kv_Config kv) + 1 ∧ ShardDataReqs kv = ∅)
  | CMigrate m =>
      (∀ k v, mr_Data m !! k = Some v → key2shard k = mr_Shard m) ∧
      (mr_ConfigNum m < ShardCtrler.Num (kv_Config kv) - 1 ∨
       mr_ConfigNum m = ShardCtrler.Num (kv_Config kv) - 1 ∧
         (mr_Shard m ∈ MyShards kv ∨ is_Some (ShardDataReqs kv !! mr_Shard m)))
  end.

(** [l'] remembers at least the calls [l] remembers. *)
Definition covers (l l' : gmap Z LastOperation) : Prop :=
  ∀ c v, l !! c = Some v → ∃ v', l' !! c = Some v' ∧ lo_CallId v ≤ lo_CallId v'.

#[export] Instance covers_preorder : PreOrder covers.
Proof.
  split.
  - intros l c v Hv. by exists v.
  - intros l1 l2 l3 H12 H23 c v Hv. destruct (H12 _ _ Hv) as (v2 & Hv2 & ?).
    destruct (H23 _ _ Hv2) as (v3 & ? & ?). exists v3. split; [done|lia].
Qed.

(** A command's effect: the invariant, commands that were fit to be started
    stay fit, the duplicate table only grows, and stored shards stay until
    they are collected. *)
Record evolves (kv : ShardKV) (c : Command) (kv' : ShardKV) : Prop := {
  ev_wf : kv_wf kv';
  ev_gid : gid kv' = gid kv;
  ev_cmds c' : cmd_ok kv c' → cmd_ok kv' c';
  ev_LastOp : covers (LastOp kv) (LastOp kv');
  ev_stored n i d : stored (DataForMigration kv) n i = Some d → c ≠ CGC (mkGCOp n i) →
    stored (DataForMigration kv') n i = Some d;
}.

Lemma evolves_refl kv c : kv_wf kv → evolves kv c kv.
Proof. intros Hwf. by split. Qed.

Lemma wf_set_LastApplied kv x : kv_wf kv → kv_wf (set_LastApplied x kv).
Proof. intros []. by split. Qed.

Lemma mergeLastOp_covers mine theirs :
  covers mine (mergeLastOp mine theirs) ∧ covers theirs (mergeLastOp mine theirs).
Proof.
  unfold mergeLastOp. split; intros c v Hv; rewrite lookup_union_with, Hv.
  - destruct (theirs !! c) as [w|]; simpl; [|by exists v].
    eexists. split; [reflexivity|]. case_match; zlia.
  - destruct (mine !! c) as [w|]; simpl; [|by exists v].
    eexists. split; [reflexivity|]. case_match; zlia.
Qed.

Lemma loses_iff kv new i :
  loses kv new i ↔ 0 ≤ i < NShards ∧ owner (kv_Config kv) i = gid kv ∧ owner new i ≠ gid kv.
Proof. unfold loses. by rewrite lost_true. Qed.

Lemma gains_iff kv new i :
  gains kv new i ↔ 0 ≤ i < NShards ∧ owner (kv_Config kv) i ≠ gid kv ∧ owner new i = gid kv.
Proof. unfold gains. by rewrite gained_true. Qed.

#[export] Instance loses_dec kv new i : Decision (loses kv new i).
Proof. unfold loses. apply _. Defined.
#[export] Instance gains_dec kv new i : Decision (gains kv new i).
Proof. unfold gains. apply _. Defined.

(** The shards served and awaited after a configuration that was applied when
    none was awaited. *)
Lemma config_shards kv new kv' i :
  kv_wf kv → ShardDataReqs kv = ∅ → config_applied kv new kv' →
  (i ∈ MyShards kv' ↔ 0 ≤ i < NShards ∧ owner new i = gid kv ∧
     (owner (kv_Config kv) i = gid kv ∨ ShardCtrler.Num (kv_Config kv) = 0)) ∧
  (is_Some (ShardDataReqs kv' !! i) ↔ 0 ≤ i < NShards ∧ owner new i = gid kv ∧
     owner (kv_Config kv) i ≠ gid kv ∧ ShardCtrler.Num (kv_Config kv) ≠ 0).
Proof.
  intros Hwf Hreq Ha.
  assert (i ∈ MyShards kv ↔ 0 ≤ i < NShards ∧ owner (kv_Config kv) i = gid kv) as Hmine.
  { rewrite <-(wf_owned _ Hwf), Hreq, lookup_empty. split; [by left|]. by intros [|[]]. }
  split.
  - rewrite (ca_mine _ _ _ Ha), loses_iff, gains_iff, Hmine.
    destruct (decide (owner (kv_Config kv) i = gid kv)), (decide (owner new i = gid kv)); tauto.
  - destruct (decide (gains kv new i ∧ ShardCtrler.Num (kv_Config kv) ≠ 0)) as [[Hi Hz]|Hi].
    + rewrite (ca_asked _ _ _ Ha i Hi Hz). apply gains_iff in Hi. split; [tauto|by eexists].
    + rewrite (ca_reqs _ _ _ Ha i Hi), Hreq, lookup_empty. rewrite gains_iff in Hi.
      split; [by intros []|tauto].
Qed.

Lemma config_stored kv new kv' n i d :
  kv_wf kv → config_applied kv new kv' → stored (DataForMigration kv') n i = Some d →
  n ≤ ShardCtrler.Num (kv_Config kv) ∧ ∀ k v, d !! k = Some v → key2shard k = i.
Proof.
  intros Hwf Ha Hd. destruct (decide (n = ShardCtrler.Num (kv_Config kv) ∧ loses kv new i)) as [[-> Hi]|Hi].
  - rewrite (ca_stored _ _ _ Ha i Hi) in Hd. injection Hd as <-. split; [done|].
    intros k v [_ ?]%map_lookup_filter_Some. done.
  - rewrite (ca_others _ _ _ Ha n i Hi) in Hd. destruct (wf_stored _ Hwf _ _ _ Hd). split; [lia|done].
Qed.

Lemma config_wf kv new kv' :
  kv_wf kv → ShardDataReqs kv = ∅ → zlen (ShardCtrler.Shards new) = NShards →
  ShardCtrler.Num new = ShardCtrler.Num (kv_Config kv) + 1 → config_applied kv new kv' → kv_wf kv'.
Proof.
  intros Hwf Hreq Hn Hnum Ha. pose proof (λ i, config_shards kv new kv' i Hwf Hreq Ha) as Hs.
  split; rewrite ?(ca_config _ _ _ Ha), ?(ca_gid _ _ _ Ha); [apply Hwf|done| | | | |].
  - intros i. destruct (Hs i) as [-> ->].
    destruct (decide (owner (kv_Config kv) i = gid kv)), (decide (ShardCtrler.Num (kv_Config kv) = 0)); tauto.
  - intros i. destruct (Hs i) as [-> Hr]. intros Hi. apply eq_None_not_Some. rewrite Hr. tauto.
  - intros i n Hi. destruct (Hs i) as [_ [Hr _]]. destruct Hr as (? & ? & ? & Hz); [by eexists|].
    rewrite (ca_asked _ _ _ Ha i) in Hi; [injection Hi as <-; lia| |done]. by apply gains_iff.
  - intros k v Hk. apply (ca_mine _ _ _ Ha). left. destruct (decide (loses kv new (key2shard k))) as [Hl|Hl].
    + by rewrite (ca_gone _ _ _ Ha k Hl) in Hk.
    + split; [|done]. rewrite (ca_kept _ _ _ Ha k Hl) in Hk. by eapply wf_data.
  - intros n i d Hd. destruct (config_stored kv new kv' n i d Hwf Ha Hd). split; [lia|done].
Qed.

Lemma config_evolves kv new :
  kv_wf kv → cmd_ok kv (CConfig new) → ∃ kv', execApplyConfig kv new = Ret kv' ∧ evolves kv (CConfig new) kv' ∧
    LastApplied kv' = LastApplied kv.
Proof.
  intros Hwf [Hn Hor].
  destruct (Z.le_gt_cases (ShardCtrler.Num new) (ShardCtrler.Num (kv_Config kv))) as [Hle|Hlt].
  { exists kv. split_and!; [by apply execApplyConfig_stale| |done]. by apply evolves_refl. }
  destruct Hor as [?|[Hnum Hreq]]; [lia|].
  destruct (execApplyConfig_spec kv new) as (kv' & -> & Ha); [apply Hwf|done..|].
  exists kv'. split_and!; [done| |apply Ha].
  split; [by eapply config_wf|apply Ha| |by rewrite (ca_LastOp _ _ _ Ha)|].
  - intros [?|c|m|?]; simpl; rewrite ?(ca_config _ _ _ Ha); [done| | |done].
    + intros [? [?|[? _]]]; split; try done; left; lia.
    + intros [? [?|[? _]]]; split; try done; left; lia.
  - intros n i d Hd _. rewrite (ca_others _ _ _ Ha); [done|]. intros [-> _].
    destruct (wf_stored _ Hwf _ _ _ Hd). lia.
Qed.

Lemma insert_set_lookup (g : gmap Z (gset Z)) (n i : Z) :
  i ∈ default ∅ (<[n := default ∅ (g !! n) ∪ {[i]}]> g !! n).
Proof. rewrite lookup_insert_eq. simpl. set_solver. Qed.

(** A migration reply for a shard the group awaits. *)
Lemma migrate_spec kv m n :
  kv_wf kv → ShardDataReqs kv !! mr_Shard m = Some n → mr_ConfigNum m = ShardCtrler.Num (kv_Config kv) - 1 →
  ∃ g, mr_Shard m ∈ default ∅ (g !! mr_ConfigNum m) ∧
    execMigrationDataSync kv m =
      set_shards (kv_Config kv) (MyShards kv ∪ {[mr_Shard m]}) (DataForMigration kv)
        (delete (mr_Shard m) (ShardDataReqs kv)) g
        (set_data (mr_Data m ∪ Data kv) (mergeLastOp (LastOp kv) (mr_LastOperation m)) kv).
Proof.
  intros Hwf Hreq Hnum. unfold execMigrationDataSync. rewrite (proj2 (Z.eqb_eq _ _)) by done. simpl.
  rewrite decide_False by (intros Hin; by rewrite (wf_disjoint _ Hwf) in Hreq by done).
  simpl. rewrite Hreq. eexists. split; [|reflexivity]. apply insert_set_lookup.
Qed.

Lemma migrate_stale kv m :
  kv_wf kv → cmd_ok kv (CMigrate m) →
  execMigrationDataSync kv m = kv ∨
  mr_ConfigNum m = ShardCtrler.Num (kv_Config kv) - 1 ∧ is_Some (ShardDataReqs kv !! mr_Shard m).
Proof.
  intros Hwf [_ Hor]. unfold execMigrationDataSync.
  destruct (mr_ConfigNum m =? ShardCtrler.Num (kv_Config kv) - 1) eqn:Hn; [|by left]. simpl. b2p.
  destruct Hor as [?|[_ [Hin|?]]]; [lia| |by right]. left.
  rewrite decide_True by done. by rewrite (wf_disjoint _ Hwf _ Hin).
Qed.

Lemma migrate_evolves kv m :
  kv_wf kv → cmd_ok kv (CMigrate m) → evolves kv (CMigrate m) (execMigrationDataSync kv m).
Proof.
  intros Hwf Hok. destruct (migrate_stale kv m Hwf Hok) as [->|[Hnum [n Hreq]]]; [by apply evolves_refl|].
  destruct (migrate_spec kv m n Hwf Hreq Hnum) as (g & _ & ->). destruct Hok as [Hkeys _].
  destruct Hwf as [Hg Hsh Hown Hdis Hrq Hdat Hst].
  split; [split| | | |]; simpl; try done.
  - intros i. rewrite <-Hown. destruct (decide (i = mr_Shard m)) as [->|Hne].
    + rewrite lookup_delete_eq. rewrite Hreq. split; [right; by eexists|]. intros _. left. set_solver.
    + rewrite lookup_delete_ne by done. set_solver.
  - intros i Hi. destruct (decide (i = mr_Shard m)) as [->|Hne]; [by rewrite lookup_delete_eq|].
    rewrite lookup_delete_ne by done. apply Hdis. set_solver.
  - intros i n' [_ Hi]%lookup_delete_Some. by eapply Hrq.
  - intros k v [Hk|[_ Hk]]%lookup_union_Some_raw; [apply Hkeys in Hk|apply Hdat in Hk]; set_solver.
  - intros [?|c|m'|?]; simpl; [done| | |done].
    + intros [? [?|[? Hem]]]; split; try done; [by left|right]. split; [done|]. by rewrite Hem, delete_empty.
    + intros [? [?|[? Hor]]]; (split; [done|]); [by left|right]. split; [done|].
      destruct (decide (mr_Shard m' = mr_Shard m)) as [->|Hne]; [left; set_solver|].
      rewrite lookup_delete_ne by done. set_solver.
  - apply mergeLastOp_covers.
Qed.

Lemma gc_stored kv g n i :
  stored (DataForMigration (execGC kv g)) n i =
    if decide (g = mkGCOp n i) then None else stored (DataForMigration kv) n i.
Proof.
  unfold execGC, stored. destruct g as [gn gi]; simpl.
  destruct (DataForMigration kv !! gn) as [ms|] eqn:Hn.
  2:{ case_decide; simplify_eq; [by rewrite Hn|done]. }
  destruct (ms !! gi) as [d|] eqn:Hi; simpl.
  2:{ case_decide; simplify_eq; [by rewrite Hn|done]. }
  destruct (decide (gn = n)) as [->|Hne].
  - destruct (decide (size (delete gi ms) = 0%nat)) as [Hz|Hz].
    + rewrite lookup_delete_eq. apply map_size_empty_iff in Hz. simpl. rewrite Hn. simpl.
      case_decide; [done|]. destruct (decide (gi = i)) as [->|?]; [done|].
      by rewrite <-(lookup_delete_ne ms gi i), Hz by done.
    + rewrite lookup_insert_eq, Hn. simpl. destruct (decide (gi = i)) as [->|?].
      * rewrite lookup_delete_eq. by rewrite decide_True.
      * rewrite lookup_delete_ne by done. rewrite decide_False; [done|congruence].
  - rewrite (decide_False (P := mkGCOp gn gi = mkGCOp n i)) by congruence.
    destruct (decide (size (delete gi ms) = 0%nat)).
    all: by rewrite ?lookup_delete_ne, ?lookup_insert_ne by done.
Qed.

Lemma gc_fields kv g :
  gid (execGC kv g) = gid kv ∧ kv_Config (execGC kv g) = kv_Config kv ∧
  MyShards (execGC kv g) = MyShards kv ∧ ShardDataReqs (execGC kv g) = ShardDataReqs kv ∧
  Data (execGC kv g) = Data kv ∧ LastOp (execGC kv g) = LastOp kv ∧
  LastApplied (execGC kv g) = LastApplied kv.
Proof. unfold execGC. repeat case_match; done. Qed.

Lemma gc_evolves kv g : kv_wf kv → evolves kv (CGC g) (execGC kv g).
Proof.
  intros [Hg Hsh Hown Hdis Hrq Hdat Hst]. destruct (gc_fields kv g) as (E1 & E2 & E3 & E4 & E5 & E6 & _).
  split; [split| | | |]; rewrite ?E1, ?E2, ?E3, ?E4, ?E5, ?E6; try done.
  - intros n i d. rewrite gc_stored. case_decide; [done|]. apply Hst.
  - intros [?|c|m'|?]; simpl; by rewrite ?E2, ?E3, ?E4.
  - intros n i d Hd Hne. rewrite gc_stored, decide_False; [done|congruence].
Qed.

Lemma op_fields kv op :
  let kv' := (execClientOp kv op).1 in
  gid kv' = gid kv ∧ kv_Config kv' = kv_Config kv ∧ MyShards kv' = MyShards kv ∧
  ShardDataReqs kv' = ShardDataReqs kv ∧ DataForMigration kv' = DataForMigration kv ∧
  LastApplied kv' = LastApplied kv.
Proof. unfold execClientOp. repeat case_match; done. Qed.

Lemma executeOp_dom d op k v :
  (executeOp d op).1 !! k = Some v → k = Key op ∨ is_Some (d !! k).
Proof.
  unfold executeOp. destruct (decide (k = Key op)) as [->|Hne]; [by left|]. intros Hk. right.
  destruct (op_OpType op); simpl in Hk; rewrite ?lookup_insert_ne in Hk by done; by eexists.
Qed.

Lemma op_evolves kv op : kv_wf kv → evolves kv (COp op) (execClientOp kv op).1.
Proof.
  intros [Hg Hsh Hown Hdis Hrq Hdat Hst]. destruct (op_fields kv op) as (E1 & E2 & E3 & E4 & E5 & _).
  split; [split| | | |]; rewrite ?E1, ?E2, ?E3, ?E4, ?E5; try done.
  - intros k v. unfold execClientOp. case_match; [by apply Hdat|].
    destruct (checkRightGroup kv (Key op)) eqn:Hc; [|by apply Hdat]. apply bool_decide_eq_true in Hc.
    destruct (executeOp (Data kv) op) as [d r] eqn:Hex; simpl. intros Hk.
    destruct (executeOp_dom (Data kv) op k v) as [->|[v' ?]]; [by rewrite Hex|done|by eapply Hdat].
  - intros [?|c|m'|?]; simpl; by rewrite ?E2, ?E3, ?E4.
  - unfold execClientOp. case_match; [done|]. destruct (negb _); [done|].
    destruct (executeOp _ _) as [d r]; simpl. intros c v Hv.
    destruct (decide (c = ClientId op)) as [->|Hne]; [|rewrite lookup_insert_ne by done; by exists v].
    rewrite lookup_insert_eq. eexists. split; [reflexivity|]. rewrite Hv in *. simpl. zlia.
Qed.

Lemma exec_evolves kv c :
  kv_wf kv → cmd_ok kv c →
  ∃ kv' r, execCommand kv c (LastApplied kv + 1) = Ret (kv', r) ∧ evolves kv c kv' ∧
    LastApplied kv' = LastApplied kv + 1.
Proof.
  intros Hwf Hok. unfold execCommand. rewrite Z.eqb_refl. simpl.
  set (kv1 := set_LastApplied (LastApplied kv + 1) kv).
  assert (kv_wf kv1) as Hwf1 by by apply wf_set_LastApplied.
  assert (LastApplied kv1 = LastApplied kv + 1) as <- by done.
  cut (∃ kv' r, match c with
      | COp op => Ret (execClientOp kv1 op)
      | CConfig c0 => kv ← execApplyConfig kv1 c0; Ret (kv, c)
      | CMigrate m => Ret (execMigrationDataSync kv1 m, c)
      | CGC g => Ret (execGC kv1 g, c) end = Ret (kv', r) ∧ evolves kv1 c kv' ∧ LastApplied kv' = LastApplied kv1).
  { intros (kv' & r & Heq & [] & HLA). exists kv', r. split_and!; [exact Heq| |done]. by split. }
  destruct c as [op|c|m|g].
  - exists (execClientOp kv1 op).1, (execClientOp kv1 op).2. rewrite <-surjective_pairing.
    split_and!; [done|by apply op_evolves|apply op_fields].
  - destruct (config_evolves kv1 c Hwf1 Hok) as (kv' & -> & ? & ?). by exists kv', (CConfig c).
  - eexists _, _. split_and!; [done|by apply migrate_evolves|]. unfold execMigrationDataSync.
    repeat case_match; done.
  - eexists _, _. split_and!; [done|by apply gc_evolves|apply gc_fields].
Qed.

(** The group's replicated log applied to a replica, in order. *)
Fixpoint runLog (kv : ShardKV) (log : list Command) : outcome ShardKV :=
  match log with
  | [] => Ret kv
  | c :: log => '(kv, _) ← execCommand kv c (LastApplied kv + 1); runLog kv log
  end.

(** Each command was fit to be started in the state after some earlier
    prefix of the log: where its leader was when it called [Start]. *)
Definition log_ok (kv : ShardKV) (log : list Command) : Prop :=
  ∀ (j : nat) c, log !! j = Some c →
    ∃ (j0 : nat) kv0, (j0 ≤ j)%nat ∧ runLog kv (take j0 log) = Ret kv0 ∧ cmd_ok kv0 c.

Lemma log_ok_nil kv : log_ok kv [].
Proof. by intros j c Hj. Qed.

Lemma log_ok_head kv c log : log_ok kv (c :: log) → cmd_ok kv c.
Proof. intros Hl. destruct (Hl 0%nat c eq_refl) as ([|?] & kv0 & ? & Hr & ?); [|lia]. by simplify_eq/=. Qed.

Lemma log_ok_tail kv c log kv' r :
  log_ok kv (c :: log) → execCommand kv c (LastApplied kv + 1) = Ret (kv', r) → evolves kv c kv' → log_ok kv' log.
Proof.
  intros Hl Hex Hev j c' Hj. destruct (Hl (S j) c' Hj) as ([|j0] & kv0 & Hle & Hr & Hok).
  - exists 0%nat, kv'. split_and!; [lia|done|]. simplify_eq/=. by apply (ev_cmds _ _ _ Hev).
  - exists j0, kv0. simpl in Hr. rewrite Hex in Hr. split_and!; [lia|done|done].
Qed.

Lemma runLog_wf kv log :
  kv_wf kv → log_ok kv log →
  ∃ kv', runLog kv log = Ret kv' ∧ kv_wf kv' ∧ gid kv' = gid kv ∧ LastApplied kv' = LastApplied kv + zlen log ∧
    covers (LastOp kv) (LastOp kv') ∧
    (∀ n i d, stored (DataForMigration kv) n i = Some d → CGC (mkGCOp n i) ∉ log →
       stored (DataForMigration kv') n i = Some d).
Proof.
  revert kv. induction log as [|c log IH]; intros kv Hwf Hl.
  { exists kv. split_and!; try done. simpl. lia. }
  destruct (exec_evolves kv c Hwf (log_ok_head _ _ _ Hl)) as (kv1 & r & Hex & Hev & HLA).
  destruct (IH kv1 (ev_wf _ _ _ Hev) (log_ok_tail _ _ _ _ _ Hl Hex Hev)) as (kv' & Hrun & ? & Hg & HL & Hc & Hst).
  exists kv'. simpl. rewrite Hex, bind_Ret. split_and!; [done|done| | | |].
  - by rewrite Hg, (ev_gid _ _ _ Hev).
  - rewrite HL, HLA. lia.
  - by rewrite (ev_LastOp _ _ _ Hev).
  - intros n i d Hd [? ?]%not_elem_of_cons. apply Hst; [|done]. by apply (ev_stored _ _ _ Hev).
Qed.

(** the group invariant.  A replica that applies a log whose commands
    were each fit to be started when they were started never panics, and in
    every state it serves or awaits exactly the shards its configuration
    assigns to the group, and holds data only of shards it serves. *)
Theorem shardkv_log_invariant kv log :
  kv_wf kv → log_ok kv log →
  ∃ kv', runLog kv log = Ret kv' ∧ LastApplied kv' = LastApplied kv + zlen log ∧
    (∀ i, i ∈ MyShards kv' ∨ is_Some (ShardDataReqs kv' !! i) ↔
       0 ≤ i < NShards ∧ owner (kv_Config kv') i = gid kv) ∧
    (∀ i, i ∈ MyShards kv' → ShardDataReqs kv' !! i = None) ∧
    (∀ k v, Data kv' !! k = Some v → key2shard k ∈ MyShards kv').
Proof.
  intros Hwf Hl. destruct (runLog_wf kv log Hwf Hl) as (kv' & Hrun & Hwf' & Hg & ? & _).
  exists kv'. rewrite <-Hg. split_and!; [done|done|apply Hwf'..].
Qed.

(** the hand-over of a shard.  Group [a] applies a configuration that
    takes shard [i] away and then any log that does not collect the shard; the
    reply its leader gives to the group that awaits the shard makes that group
    hold, for every key of the shard, exactly the value [a] had, change no
    other key, and remember every call [a] had executed. *)
Theorem shardkv_handoff (a a' a2 b : ShardKV) (new : Config) log i reply :
  kv_wf a → cmd_ok a (CConfig new) → ShardCtrler.Num (kv_Config a) < ShardCtrler.Num new →
  owner (kv_Config a) i = gid a → owner new i ≠ gid a → 0 ≤ i < NShards →
  execApplyConfig a new = Ret a' → log_ok a' log → CGC (mkGCOp (ShardCtrler.Num (kv_Config a)) i) ∉ log →
  runLog a' log = Ret a2 →
  MigrateShard a2 (mkMigrateShardArgs (ShardCtrler.Num (kv_Config a)) i) = reply →
  mr_ErrWrongLeader reply = false →
  kv_wf b → ShardCtrler.Num (kv_Config b) = ShardCtrler.Num (kv_Config a) + 1 →
  is_Some (ShardDataReqs b !! i) →
  let b' := execMigrationDataSync b reply in
  i ∉ MyShards a' ∧ (∀ k, key2shard k = i → Data a' !! k = None) ∧
  i ∈ MyShards b' ∧ ShardDataReqs b' !! i = None ∧
  i ∈ default ∅ (GCList b' !! ShardCtrler.Num (kv_Config a)) ∧
  (∀ k, Data b' !! k = if decide (key2shard k = i) then Data a !! k else Data b !! k) ∧
  covers (LastOp a) (LastOp b') ∧ covers (LastOp b) (LastOp b').
Proof.
  intros Hwf Hok Hlt Ho Hn Hi Hex Hl Hgc Hrun <- Hacc Hwfb Hnb [n Hreq].
  destruct (config_evolves a new Hwf Hok) as (a1 & Hex1 & Hev & _). rewrite Hex in Hex1. injection Hex1 as <-.
  destruct (execApplyConfig_spec a new) as (a1 & Hex1 & Happ); [apply Hwf|apply Hok|done|].
  rewrite Hex in Hex1. injection Hex1 as <-.
  assert (loses a new i) as Hloses by (split; [done|by apply lost_true]).
  destruct (runLog_wf a' log (ev_wf _ _ _ Hev) Hl) as (a2' & Hrun' & _ & _ & _ & Hcov & Hst).
  rewrite Hrun in Hrun'. injection Hrun' as <-.
  pose proof (Hst _ _ _ (ca_stored _ _ _ Happ i Hloses) Hgc) as Hs2.
  set (reply := MigrateShard a2 _) in *.
  assert (reply = mkMigrateShardReply (ShardCtrler.Num (kv_Config a)) i false
            (filter (λ e, key2shard e.1 = i) (Data a)) (LastOp a2)) as ->.
  { unfold reply, MigrateShard, cloneDataAndLastOperation in *. unfold stored in Hs2.
    destruct (negb _); [done|]. destruct (_ >? _); [done|]. simpl in *.
    destruct (DataForMigration a2 !! _) as [ms|]; [|done]. simpl in *. by rewrite Hs2. }
  destruct (migrate_spec b (mkMigrateShardReply (ShardCtrler.Num (kv_Config a)) i false
    (filter (λ e, key2shard e.1 = i) (Data a)) (LastOp a2)) n Hwfb Hreq) as (g & Hg & ->); [simpl; lia|].
  destruct (mergeLastOp_covers (LastOp b) (LastOp a2)) as [Hcb Hca].
  split_and!; simpl.
  - intros [[_ ?]|[[_ Hgn%gained_true] _]]%(ca_mine _ _ _ Happ); tauto.
  - intros k <-. by apply (ca_gone _ _ _ Happ).
  - set_solver.
  - apply lookup_delete_eq.
  - done.
  - intros k. case_decide as Hk.
    + rewrite lookup_union. assert (Data b !! k = None) as ->.
      { apply eq_None_not_Some. intros [v Hv]. apply (wf_data _ Hwfb) in Hv. rewrite Hk in Hv.
        by rewrite (wf_disjoint _ Hwfb _ Hv) in Hreq. }
      rewrite right_id by apply _. apply option_eq. intros v. rewrite map_lookup_filter_Some. simpl. tauto.
    + rewrite lookup_union_r; [done|]. apply map_lookup_filter_None. right. intros v _. done.
  - rewrite <-Hca, <-Hcov. by rewrite (ev_LastOp _ _ _ Hev).
  - done.
Qed.

(** ** What leaders start, and a shard nobody held *)
Section leaders.
Context `{Gob Z} `{Gob (list (LogEntry Command))}.
Implicit Types kv : ShardKV.

(** The configuration goroutine starts only fit commands. *)
Lemma queryConfig_fit kv query kv' ms :
  (∀ n, zlen (ShardCtrler.Shards (query n)) = NShards) → queryConfig kv query = Ret (kv', ms) →
  kv' = kv ∧ ms = [] ∨
  ∃ c r, cmd_ok kv (CConfig c) ∧ startCommand kv (CConfig c) = Ret (kv', r, ms).
Proof.
  intros Hq. unfold queryConfig. destruct (_ && _) eqn:Hb; [|intros; left; by simplify_eq].
  destruct (_ =? _) eqn:Hn; [|intros; left; by simplify_eq]. intros Heq. right.
  apply bind_Ret_inv in Heq as ([[kv1 r] ms1] & Hst & Heq). simplify_eq.
  exists (query (ShardCtrler.Num (kv_Config kv) + 1)), r. split; [|done]. split; [apply Hq|right].
  b2p. split; [done|]. apply map_size_empty_iff. by eapply bool_decide_eq_true.
Qed.

Lemma askServers_Some {R} (refused : R → bool) call servers r :
  askServers refused call servers = Some r → ∃ s, s ∈ servers ∧ call s = Some r ∧ refused r = false.
Proof.
  induction servers as [|s servers IH]; simpl; [done|]. destruct (call s) as [r'|] eqn:Hc.
  - destruct (refused r') eqn:Hr.
    + intros (s' & ? & ?)%IH. exists s'. split; [by right|done].
    + intros [= ->]. exists s. split; [by left|done].
  - intros (s' & ? & ?)%IH. exists s'. split; [by right|done].
Qed.

(** So does the migration goroutine, of the replies groups give. *)
Lemma reqShardData_fit kv i n config call kv' ms :
  kv_wf kv → ShardDataReqs kv !! i = Some n → ShardCtrler.Num config = n →
  (∀ s args r, call s args = Some r → mr_ErrWrongLeader r = false →
     ∃ a, kv_wf a ∧ r = MigrateShard a args) →
  reqShardData kv i config call = Ret (kv', ms) →
  kv' = kv ∧ ms = [] ∨
  ∃ m r, cmd_ok kv (CMigrate m) ∧ startCommand kv (CMigrate m) = Ret (kv', r, ms).
Proof.
  intros Hwf Hreq Hc Hcall Heq. unfold reqShardData in Heq.
  apply bind_Ret_inv in Heq as (servers & _ & Heq).
  destruct (askServers _ _ _) as [m|] eqn:Ha; [|left; by simplify_eq]. right.
  apply bind_Ret_inv in Heq as ([[kv1 r] ms1] & Hst & Heq). simplify_eq. exists m, r. split; [|done].
  apply askServers_Some in Ha as (s & _ & Hs & Hacc). destruct (Hcall _ _ _ Hs Hacc) as (a & Hwfa & ->).
  unfold MigrateShard in *. destruct (negb _); [done|]. destruct (_ >? _); [done|]. simpl in *.
  destruct (DataForMigration a !! _) as [ds|] eqn:Hds; [|done].
  destruct (ds !! i) as [d|] eqn:Hd; [|done]. simpl. rewrite Hd. simpl. split.
  - apply (wf_stored _ Hwfa (ShardCtrler.Num config) i d). unfold stored. by rewrite Hds.
  - right. split; [by apply (wf_reqs _ Hwf i)|]. right. by eexists.
Qed.

Lemma awaited_stays kv c kv' r i n :
  kv_wf kv → cmd_ok kv c → (∀ m, c = CMigrate m → mr_Shard m ≠ i) → ShardDataReqs kv !! i = Some n →
  execCommand kv c (LastApplied kv + 1) = Ret (kv', r) → ShardDataReqs kv' !! i = Some n.
Proof.
  intros Hwf Hok Hm Hreq Hex. unfold execCommand in Hex. rewrite Z.eqb_refl in Hex. simpl in Hex.
  destruct c as [op|c|m|g]; simplify_eq/=.
  - destruct (op_fields (set_LastApplied (LastApplied kv + 1) kv) op) as (_ & _ & _ & E & _).
    destruct (execClientOp _ op); simplify_eq/=. by rewrite E.
  - destruct Hok as [_ [Hle|[_ Hem]]]; [|by rewrite Hem, lookup_empty in Hreq].
    rewrite execApplyConfig_stale in Hex by done. by simplify_eq/=.
  - specialize (Hm m eq_refl). unfold execMigrationDataSync. repeat case_match; simplify_eq/=; try done.
    all: by rewrite lookup_delete_ne.
  - destruct (gc_fields (set_LastApplied (LastApplied kv + 1) kv) g) as (_ & _ & _ & -> & _). done.
Qed.

Lemma runLog_awaited kv log kv' i n :
  kv_wf kv → log_ok kv log → (∀ m, CMigrate m ∈ log → mr_Shard m ≠ i) →
  ShardDataReqs kv !! i = Some n → runLog kv log = Ret kv' → ShardDataReqs kv' !! i = Some n ∧ kv_wf kv'.
Proof.
  revert kv. induction log as [|c log IH]; intros kv Hwf Hl Hm Hreq Hrun; [by simplify_eq/=|].
  pose proof (log_ok_head _ _ _ Hl) as Hok.
  destruct (exec_evolves kv c Hwf Hok) as (kv1 & r & Hex & Hev & _). simpl in Hrun.
  rewrite Hex, bind_Ret in Hrun. apply (IH kv1); [apply Hev|by eapply log_ok_tail| | |done].
  - intros m ?. apply Hm. by right.
  - eapply awaited_stays; [done|done| |done|done]. intros m ->. apply Hm. by left.
Qed.

(** C37: a shard nobody held.  When a configuration (not the first) gives
    the group a shard that was assigned to no group, the group asks the
    previous holder for its data, and there is none: no request is ever
    sent, no later configuration is ever started, and clients get
    [ErrWrongGroup] for every key of the shard, whatever else is applied. *)
Theorem shardkv_unassigned_wedge kv new i :
  kv_wf kv → cmd_ok kv (CConfig new) → ShardCtrler.Num (kv_Config kv) < ShardCtrler.Num new →
  ShardCtrler.Num (kv_Config kv) ≠ 0 → 0 ≤ i < NShards → owner (kv_Config kv) i = 0 → owner new i = gid kv →
  ShardCtrler.Groups (kv_Config kv) !! 0 = None →
  ∃ kv', execApplyConfig kv new = Ret kv' ∧
    (∀ call, reqShardData kv' i (kv_Config kv) call = Ret (kv', [])) ∧
    ∀ log kv2, log_ok kv' log → (∀ m, CMigrate m ∈ log → mr_Shard m ≠ i) → runLog kv' log = Ret kv2 →
      ShardDataReqs kv2 !! i = Some (ShardCtrler.Num (kv_Config kv)) ∧
      (∀ query, queryConfig kv2 query = Ret (kv2, [])) ∧
      (∀ op, key2shard (Key op) = i → startOp kv2 op = Ret (kv2, inl ErrWrongGroup, [])).
Proof.
  intros Hwf Hok Hlt Hz Hi Ho Hn Hgr.
  destruct (config_evolves kv new Hwf Hok) as (kv' & Hex & Hev & _).
  destruct (execApplyConfig_spec kv new) as (kv1 & Hex1 & Happ); [apply Hwf|apply Hok|done|].
  rewrite Hex in Hex1. injection Hex1 as <-. exists kv'. split; [done|].
  pose proof (wf_gid _ Hwf) as Hg0. split.
  - intros call. unfold reqShardData, holders. rewrite (shards_index (kv_Config kv)) by (done || apply Hwf).
    by rewrite bind_Ret, Ho, Hgr.
  - intros log kv2 Hl Hm Hrun.
    destruct (runLog_awaited kv' log kv2 i (ShardCtrler.Num (kv_Config kv))) as [Hreq Hwf2]; try done.
    { apply Hev. }
    { apply (ca_asked _ _ _ Happ); [|done]. split; [done|]. apply gained_true. split; [congruence|done]. }
    split_and!; [done| |].
    + intros query. unfold queryConfig. rewrite bool_decide_eq_false_2; [by rewrite andb_false_r|].
      intros Hsz%map_size_empty_iff. by rewrite Hsz, lookup_empty in Hreq.
    + intros op Hk. unfold startOp, checkRightGroup. rewrite bool_decide_eq_false_2; [done|].
      rewrite Hk. intros Hin. by rewrite (wf_disjoint _ Hwf2 _ Hin) in Hreq.
Qed.
End leaders.

(** ** Snapshots *)
Section snapshots.
Context `{GobLaws Z} `{Gob (list (LogEntry Command))} `{GobLaws (gmap string string)}
  `{GobLaws (gmap Z LastOperation)} `{GobLaws Config} `{GobLaws (gset Z)}
  `{GobLaws (gmap Z (gmap Z (gmap string string)))} `{GobLaws (gmap Z Z)} `{GobLaws (gmap Z (gset Z))}.

Lemma decodeImage_encode i :
  decodeImage (encodeImage i) = Some i ∧
  gob_dec (encodeImage i) 0%nat = Some (im_LastApplied i, length (gob_enc [] (im_LastApplied i))) ∧
  encodeImage i ≠ [].
Proof.
  destruct i as [i d l c sh m r g]. unfold encodeImage. simpl.
  set (w1 := gob_enc [] i). set (w2 := gob_enc w1 d). set (w3 := gob_enc w2 l). set (w4 := gob_enc w3 c).
  set (w5 := gob_enc w4 sh). set (w6 := gob_enc w5 m). set (w7 := gob_enc w6 r). set (w8 := gob_enc w7 g).
  assert (w7 `prefix_of` w8) as P7 by apply gob_enc_prefix.
  assert (w6 `prefix_of` w8) as P6 by exact (gob_enc_prefix_of w6 r w8 P7).
  assert (w5 `prefix_of` w8) as P5 by exact (gob_enc_prefix_of w5 m w8 P6).
  assert (w4 `prefix_of` w8) as P4 by exact (gob_enc_prefix_of w4 sh w8 P5).
  assert (w3 `prefix_of` w8) as P3 by exact (gob_enc_prefix_of w3 c w8 P4).
  assert (w2 `prefix_of` w8) as P2 by exact (gob_enc_prefix_of w2 l w8 P3).
  assert (w1 `prefix_of` w8) as P1 by exact (gob_enc_prefix_of w1 d w8 P2).
  assert (gob_dec w8 0%nat = Some (i, length w1)) as E1 by by apply (gob_dec_enc []).
  split_and!; [|done|apply gob_enc_ne_nil]. unfold decodeImage. rewrite E1. simpl.
  rewrite (gob_dec_enc w1 d w8 P2 : gob_dec w8 (length w1) = Some (d, length w2)). simpl.
  rewrite (gob_dec_enc w2 l w8 P3 : gob_dec w8 (length w2) = Some (l, length w3)). simpl.
  rewrite (gob_dec_enc w3 c w8 P4 : gob_dec w8 (length w3) = Some (c, length w4)). simpl.
  rewrite (gob_dec_enc w4 sh w8 P5 : gob_dec w8 (length w4) = Some (sh, length w5)). simpl.
  rewrite (gob_dec_enc w5 m w8 P6 : gob_dec w8 (length w5) = Some (m, length w6)). simpl.
  rewrite (gob_dec_enc w6 r w8 P7 : gob_dec w8 (length w6) = Some (r, length w7)). simpl.
  unfold w8. by rewrite gob_dec_enc_self.
Qed.

(** snapshots.  The snapshot a server takes meets Raft's contract (it
    starts with the index it covers); a server that restarts from it, or a
    replica not ahead of it to which it is delivered, gets all eight parts
    of the state; a replica that is ahead keeps its own. *)
Theorem shardkv_snapshot_restores kv kv0 i snap :
  makeSnapshot kv = Some (i, snap) →
  snap_ok i snap ∧ i = LastApplied kv ∧ image (restoreState kv0 snap) = image kv ∧
  ∃ kv', applySnapshot kv0 i snap = Ret kv' ∧
    image kv' = if i <? LastApplied kv0 then image kv0 else image kv.
Proof.
  unfold makeSnapshot. destruct (_ >=? _); [|done]. intros [= <- <-].
  destruct (decodeImage_encode (image kv)) as (E & E1 & Hne). split_and!; [|done| |].
  - right. split; [done|]. eexists. exact E1.
  - unfold restoreState. rewrite E. destruct (zlen _ <? 1) eqn:Hl; [|done].
    destruct (encodeImage _); [done|rewrite length_cons in Hl; zlia].
  - unfold applySnapshot. rewrite E. simpl. rewrite Z.eqb_refl. simpl.
    destruct (LastApplied kv <? LastApplied kv0); by eexists.
Qed.
End snapshots.

(** ** Concrete instances *)
Section instances.
#[local] Instance LastOperation_eq_dec : EqDecision LastOperation.
Proof. solve_decision. Defined.
#[local] Instance LastOperation_countable : Countable LastOperation.
Proof.
  refine (inj_countable' (λ v, (lo_CallId v, Result v)) (λ p, mkLastOperation p.1 p.2) _). by intros [].
Defined.
#[local] Instance Config_eq_dec : EqDecision Config.
Proof. solve_decision. Defined.
#[local] Instance Config_countable : Countable Config.
Proof.
  refine (inj_countable' (λ c, (ShardCtrler.Num c, ShardCtrler.Shards c, ShardCtrler.Groups c))
    (λ p, ShardCtrler.mkConfig p.1.1 p.1.2 p.2) _). by intros [].
Defined.
#[local] Instance OpType_countable : Countable OpType.
Proof.
  refine (inj_countable' (λ t, match t with Get => 0 | Put => 1 | Append => 2 | ErrChangeGroup => 3 end)
    (λ z, if decide (z = 0) then Get else if decide (z = 1) then Put
          else if decide (z = 2) then Append else ErrChangeGroup) _). by intros [].
Defined.
(** A command as a nested sum of tuples. *)
Definition command_code (c : Command) :=
  match c with
  | COp op => inl (inl (op_OpType op, ClientId op, CallId op, Key op, Value op))
  | CConfig c => inl (inr c)
  | CMigrate m => inr (inl (mr_ConfigNum m, mr_Shard m, mr_ErrWrongLeader m, mr_Data m, mr_LastOperation m))
  | CGC g => inr (inr (gc_CfgNum g, gc_Shard g))
  end.
#[local] Instance Op_eq_dec : EqDecision Op.
Proof. solve_decision. Defined.
#[local] Instance MigrateShardReply_eq_dec : EqDecision MigrateShardReply.
Proof. solve_decision. Defined.
#[local] Instance Command_eq_dec : EqDecision Command.
Proof. solve_decision. Defined.
#[local] Instance Command_countable : Countable Command.
Proof.
  refine (inj_countable' command_code (λ s, match s with
    | inl (inl (t, i, n, k, v)) => COp (mkOp t i n k v)
    | inl (inr c) => CConfig c
    | inr (inl (n, s, e, d, l)) => CMigrate (mkMigrateShardReply n s e d l)
    | inr (inr (n, s)) => CGC (mkGCOp n s) end) _). by intros [[]| |[]|[]].
Defined.
#[local] Instance GobOf `{Countable A} : Gob A := CountableGob A.
#[local] Instance GobLawsOf `{Countable A} : GobLaws A := CountableGobLaws A.

Definition raft0 : Raft Command :=
  mkRaft 3 MakePersister 0 false 1 LEADER Unvote true true false [zeroEntry] 0 0 [1; 1; 1] [0; 0; 0] 0 [] 0 false ∅.

Definition fresh (g : Z) : ShardKV :=
  mkShardKV 0 raft0 g 0 false ∅ ∅ ∅ 0 ShardCtrler.zeroConfig ∅ ∅ ∅ ∅.

Lemma owner_zero i : owner ShardCtrler.zeroConfig i = 0.
Proof.
  unfold owner. destruct (_ !! Z.to_nat i) as [x|] eqn:Hx; [|done].
  by apply lookup_replicate in Hx as [-> _].
Qed.

Lemma fresh_wf g : g ≠ 0 → kv_wf (fresh g).
Proof.
  intros Hg. split; try done; simpl. intros i. rewrite owner_zero. split.
  - by intros [?%not_elem_of_empty|[? ?]].
  - by intros [_ <-].
Qed.

(** A log whose commands are each started in the state they are applied to. *)
Fixpoint fit (kv : ShardKV) (log : list Command) : Prop :=
  match log with
  | [] => True
  | c :: log => cmd_ok kv c ∧ match execCommand kv c (LastApplied kv + 1) with
                              | Ret (kv', _) => fit kv' log
                              | _ => False
                              end
  end.

Lemma fit_log_ok kv log : fit kv log → log_ok kv log.
Proof.
  revert kv. induction log as [|c log IH]; intros kv Hf j c' Hj; [done|].
  destruct Hf as [Hok Hf]. destruct j as [|j]; simplify_eq/=.
  { by exists 0%nat, kv. }
  destruct (execCommand kv c _) as [[kv' r]| |] eqn:Hex; [|done..].
  destruct (IH kv' Hf j c' Hj) as (j0 & kv0 & ? & ? & ?). exists (S j0), kv0. simpl.
  rewrite Hex. split_and!; [lia|done|done].
Qed.

Definition cfg (n : Z) (shards : list Z) : Config :=
  ShardCtrler.mkConfig n shards {[1 := ["a"]; 2 := ["b"]]}.
Definition cfg1 : Config := cfg 1 (replicate 10 1).
Definition cfg2 : Config := cfg 2 (replicate 5 1 ++ replicate 5 2).

Definition log1 : list Command :=
  [CConfig cfg1; COp (mkOp Put 7 0 "a" "x"); COp (mkOp Append 7 1 "d" "y"); COp (mkOp Append 7 1 "d" "y")].
Definition group (g : Z) (log : list Command) : ShardKV :=
  match runLog (fresh g) log with Ret kv => kv | _ => fresh g end.

Definition groupA : ShardKV := group 1 log1.
Definition groupB : ShardKV := group 2 [CConfig cfg1; CConfig cfg2].

Example groupA_data : key2shard "a" = 7 ∧ key2shard "d" = 0 ∧ Data groupA !! "a" = Some "x" ∧
  Data groupA !! "d" = Some "y" ∧ ShardDataReqs groupB !! 7 = Some 1 ∧ size (MyShards groupB) = 0%nat.
Proof. vm_compute. by split_and!. Qed.

Ltac fit_tac := apply fit_log_ok; vm_compute; repeat split; auto; intros; discriminate.

Lemma log1_ok : log_ok (fresh 1) log1.
Proof. fit_tac. Qed.
Lemma logB_ok : log_ok (fresh 2) [CConfig cfg1; CConfig cfg2].
Proof. fit_tac. Qed.

Lemma group_wf g log : g ≠ 0 → log_ok (fresh g) log → kv_wf (group g log).
Proof.
  intros Hg Hl. destruct (runLog_wf (fresh g) log (fresh_wf g Hg) Hl) as (kv & Hr & ? & _).
  unfold group. by rewrite Hr.
Qed.

Lemma shardkv_log_invariant_witness :
  ∃ kv', runLog (fresh 1) log1 = Ret kv' ∧ (∀ k v, Data kv' !! k = Some v → key2shard k ∈ MyShards kv').
Proof.
  destruct (shardkv_log_invariant (fresh 1) log1) as (kv' & ? & _ & _ & _ & ?);
    [by apply fresh_wf|apply log1_ok|]. by exists kv'.
Defined.

Definition groupA' : ShardKV := match execApplyConfig groupA cfg2 with Ret kv => kv | _ => groupA end.
Definition logA : list Command := [COp (mkOp Put 8 0 "d" "z")].
Definition groupA2 : ShardKV := match runLog groupA' logA with Ret kv => kv | _ => groupA' end.

Lemma groupA_wf : kv_wf groupA.
Proof. by apply group_wf, log1_ok. Qed.
Lemma groupB_wf : kv_wf groupB.
Proof. by apply group_wf, logB_ok. Qed.

Lemma cfg2_fit : cmd_ok groupA (CConfig cfg2).
Proof. split; [reflexivity|right]. split; vm_compute; reflexivity. Qed.
Lemma groupA'_eq : execApplyConfig groupA cfg2 = Ret groupA'.
Proof. vm_compute. reflexivity. Qed.
Lemma logA_ok : log_ok groupA' logA.
Proof. apply fit_log_ok. vm_compute. by split. Qed.
Lemma logA_nogc n i : CGC (mkGCOp n i) ∉ logA.
Proof. by intros ?%list_elem_of_singleton. Qed.
Lemma groupA2_eq : runLog groupA' logA = Ret groupA2.
Proof. vm_compute. reflexivity. Qed.
Lemma groupB_awaits : is_Some (ShardDataReqs groupB !! 7).
Proof. vm_compute. by eexists. Qed.

Lemma shardkv_handoff_witness :
  Data (execMigrationDataSync groupB (MigrateShard groupA2 (mkMigrateShardArgs 1 7))) !! "a" = Data groupA !! "a".
Proof.
  assert (ShardCtrler.Num (kv_Config groupA) = 1) as Hnum by (vm_compute; reflexivity).
  assert (key2shard "a" = 7) as Hk by (vm_compute; reflexivity).
  edestruct (shardkv_handoff groupA groupA' groupA2 groupB cfg2 logA 7) as (_ & _ & _ & _ & _ & Hd & _);
    [apply groupA_wf|apply cfg2_fit|by rewrite Hnum|vm_compute; reflexivity|by vm_compute|done|apply groupA'_eq
    |apply logA_ok|apply logA_nogc|apply groupA2_eq|reflexivity|vm_compute; reflexivity|apply groupB_wf
    |rewrite Hnum; vm_compute; reflexivity|apply groupB_awaits|].
  specialize (Hd "a"). rewrite Hnum in Hd. rewrite Hd. rewrite Hk. reflexivity.
Defined.

(** A configuration without groups, then one that gives everything to group 1. *)
Definition cfgNone (n : Z) : Config := ShardCtrler.mkConfig n (replicate 10 0) ∅.
Definition cfgAgain : Config := ShardCtrler.mkConfig 3 (replicate 10 1) {[1 := ["a"]]}.
Definition logNone : list Command := [CConfig cfg1; CConfig (cfgNone 2)].
Definition groupN : ShardKV := group 1 logNone.

Lemma logNone_ok : log_ok (fresh 1) logNone.
Proof. fit_tac. Qed.
Lemma groupN_wf : kv_wf groupN.
Proof. by apply group_wf, logNone_ok. Qed.
Lemma cfgAgain_fit : cmd_ok groupN (CConfig cfgAgain).
Proof. split; [reflexivity|right]. split; vm_compute; reflexivity. Qed.

Lemma shardkv_unassigned_wedge_witness :
  ∃ kv', execApplyConfig groupN cfgAgain = Ret kv' ∧ ∀ query, queryConfig kv' query = Ret (kv', []).
Proof.
  destruct (shardkv_unassigned_wedge groupN cfgAgain 7) as (kv' & Hex & _ & Hall);
    [apply groupN_wf|apply cfgAgain_fit|vm_compute; reflexivity|by vm_compute|done|vm_compute; reflexivity
    |vm_compute; reflexivity|vm_compute; reflexivity|].
  exists kv'. split; [exact Hex|]. clear Hex.
  destruct (Hall [] kv') as (_ & Hq & _); [apply log_ok_nil|by intros ? ?%not_elem_of_nil|reflexivity|exact Hq].
Defined.

Lemma shardkv_snapshot_restores_witness :
  ∃ i snap, makeSnapshot groupA = Some (i, snap) ∧ image (restoreState (fresh 1) snap) = image groupA.
Proof.
  destruct (makeSnapshot groupA) as [[i snap]|] eqn:Hmk.
  - exists i, snap. split; [reflexivity|]. by apply (shardkv_snapshot_restores groupA (fresh 1) i snap).
  - exfalso. unfold makeSnapshot in Hmk. revert Hmk. destruct (_ >=? _) eqn:Hb; [done|].
    vm_compute in Hb. discriminate.
Defined.
End instances.
