(* ===== verification/ShardKvSystem.v ===== *)
(** * A replica group as a whole

    The servers of one group of ShardKv.v on the Raft cluster of RaftNet.v, as
    an instance of Replicated.v.  What the replicas share is the server without
    its Raft, its index, its channels and the list of shards to collect
    ([core]): the leader takes shards off [GCList] by itself when another group
    has collected them, so [GCList] is not a function of the log, and nothing
    of the replicated state depends on it.  The state machine executes the
    commands of the log; that they may be executed is [cmd_ok], which stays
    true once it is ([exec_evolves]). *)

From Stdlib Require Import Strings.Byte.
From stdpp Require Import prelude gmap strings list sets.
From S2P Require Import Prelude Gob Raft RaftNode RaftServer RaftNet RaftElection RaftCluster ShardKv ShardKvProps Replicated.
From S2P Require ShardCtrler.
Local Open Scope Z_scope.

(** ** The replicated state *)

Definition core (kv : ShardKV) : ShardKV :=
  mkShardKV 0 raft0 (gid kv) 0 false (Data kv) ∅ (LastOp kv) 0 (kv_Config kv) (MyShards kv) (DataForMigration kv)
    (ShardDataReqs kv) ∅.

Lemma diffShards_gid kv1 kv2 old new js s r l :
  gid kv1 = gid kv2 → diffShards kv1 old new js s r l = diffShards kv2 old new js s r l.
Proof.
  intros Hg. revert s r l. induction js as [|i js IH]; intros s r l; [done|]. simpl. rewrite Hg.
  destruct (go_index _ i) as [g1| |]; [|done..]. simpl. destruct (go_index _ i) as [g2| |]; [|done..]. simpl.
  rewrite !IH. destruct (_ && _); [|done]. destruct (_ =? _); [done|]. unfold gainShard. destruct (negb _); apply IH.
Qed.

(** Executing a command on the replicated part alone. *)
Definition kv_exec (st : ShardKV) (c : Command) : outcome ShardKV :=
  '(st', _) ← execCommand st c (LastApplied st + 1); Ret (core st').

(** A configuration makes of servers with the same replicated state such
    servers. *)
Lemma execApplyConfig_core kv1 kv2 c kv1' :
  core kv1 = core kv2 → execApplyConfig kv1 c = Ret kv1' →
  ∃ kv2', execApplyConfig kv2 c = Ret kv2' ∧ core kv2' = core kv1' ∧ LastApplied kv2' = LastApplied kv2.
Proof.
  unfold execApplyConfig. generalize (seqZ 0 NShards). intros js Hcore. injection Hcore as Hg Hd Hl Hc Hs Hm Hr.
  rewrite <-Hc, <-Hd, <-Hs, <-Hm, <-Hr. destruct (_ <=? _).
  { intros [= <-]. exists kv2. unfold core. by rewrite Hg, Hd, Hl, Hc, Hs, Hm, Hr. }
  rewrite (diffShards_gid kv1 kv2) by done. intros ([[s r] lost'] & -> & Heq)%bind_Ret_inv. rewrite bind_Ret.
  destruct (loseShards _ _ _ _ _) as [[s' d] m]. injection Heq as <-. eexists. split; [done|]. split; [|done].
  unfold core. simpl. by rewrite Hg, Hl.
Qed.

Lemma execCommand_core kv c kv1 r :
  execCommand (core kv) c (LastApplied (core kv) + 1) = Ret (kv1, r) →
  ∃ kv', execCommand kv c (LastApplied kv + 1) = Ret (kv', r) ∧ core kv' = core kv1 ∧ LastApplied kv' = LastApplied kv + 1.
Proof.
  unfold execCommand. rewrite !Z.eqb_refl. cbn [negb].
  set (kvc := set_LastApplied 1 (core kv)). set (kv' := set_LastApplied (LastApplied kv + 1) kv).
  destruct c as [op|c|m|g]; intros Heq.
  - injection Heq as Heq. exists (execClientOp kv' op).1. unfold execClientOp in *. simpl in *.
    destruct (match LastOp kv !! ClientId op with Some _ => _ | None => _ end); [by injection Heq as <- <-|].
    unfold checkRightGroup in *. simpl in *. destruct (negb _); [by injection Heq as <- <-|].
    destruct (executeOp (Data kv) op) as [d v]. by injection Heq as <- <-.
  - apply bind_Ret_inv in Heq as (kv2 & Hex & Heq). injection Heq as <- <-.
    destruct (execApplyConfig_core kvc kv' c kv2) as (kv3 & -> & ? & ?); [done|done|by eexists].
  - injection Heq as <- <-. eexists. split; [done|]. unfold execMigrationDataSync. simpl.
    destruct (negb _); [done|]. destruct (decide _); simpl; destruct (ShardDataReqs kv !! _); done.
  - injection Heq as <- <-. eexists. split; [done|]. unfold execGC. simpl.
    destruct (DataForMigration kv !! _) as [ms|]; [|done]. destruct (ms !! _); done.
Qed.

Lemma core_wf kv : kv_wf (core kv) ↔ kv_wf kv.
Proof. split; intros []; by split. Qed.

Lemma core_cmd_ok kv c : cmd_ok (core kv) c ↔ cmd_ok kv c.
Proof. by destruct c. Qed.

Definition fresh_group (g : positive) : ShardKV :=
  mkShardKV 0 raft0 (Z.pos g) 0 false ∅ ∅ ∅ 0 ShardCtrler.zeroConfig ∅ ∅ ∅ ∅.

Lemma fresh_group_wf g : kv_wf (fresh_group g).
Proof.
  split; simpl; try done. intros i. split; [intros [?%elem_of_empty|[? ?]]; done|]. intros [_ Ho].
  change (owner ShardCtrler.zeroConfig i = Z.pos g) in Ho. by rewrite owner_zero in Ho.
Qed.

#[export] Instance group_machine : StateMachine Command ShardKV.
Proof.
  refine {| sm_next := kv_exec; sm_wf := kv_wf; sm_ok := cmd_ok |}.
  intros st c Hwf Hok. destruct (exec_evolves st c Hwf Hok) as (st' & r & Hex & Hev & _).
  unfold kv_exec. rewrite Hex. exists (core st'). split_and!; [done|apply core_wf, Hev|].
  intros c' Hc'. by apply core_cmd_ok, Hev.
Defined.

Section system.
Context `{GobLaws Z} `{GobLaws (list (LogEntry Command))} `{Gob (gmap string string)}
  `{Gob (gmap Z LastOperation)} `{Gob Config} `{Gob (gset Z)}
  `{Gob (gmap Z (gmap Z (gmap string string)))} `{Gob (gmap Z Z)} `{Gob (gmap Z (gset Z))}.
Implicit Types (kv : ShardKV).

(** The parameters are [maxraftstate] and the group's number, which is
    positive.  The applier meets the channels and the list [GCList] as the
    handlers and [tryGC] have left them. *)
#[export] Instance group_service : Service Command ShardKV (Z * positive) ShardKV.
Proof.
  refine {| sv_applied := LastApplied; sv_state := core;
    sv_start := λ n i ps p, StartServer n i ps p.1 (Z.pos p.2); sv_init := λ p, fresh_group p.2;
    sv_handles := λ rf kv m o, ∃ chans gc,
      o = applier (set_shards (kv_Config kv) (MyShards kv) (DataForMigration kv) (ShardDataReqs kv) gc
                     (set_notifyChan chans (set_rf rf kv))) m |}.
  - intros [max g]. apply fresh_group_wf.
  - intros rf kv m c o st' Hv Hidx Hc Hn (chans & gc & ->). unfold applier. rewrite Hv, Hc, Hidx.
    set (kv0 := set_shards _ _ _ _ _ _). apply bind_Ret_inv in Hn as ([kv1 r] & Hex & [= <-]).
    destruct (execCommand_core kv0 c kv1 r) as (kv' & Hex' & Hcore & Hla); [exact Hex|].
    change (LastApplied kv) with (LastApplied kv0). rewrite Hex'. by exists kv'.
  - intros k i ps [max g] kv Hps (r & _ & [= <-])%bind_Ret_inv. unfold restoreState, ReadSnapshot. by rewrite Hps.
Defined.
End system.

(** ** What the log of a group tells *)
Section log.
Context (g : positive).
Implicit Types (kv st : ShardKV) (log : list Command).
Notation run := (sm_run (fresh_group g)).
Notation fits_in := (fit (fresh_group g)).

(** Where the data in the migration store comes from. *)
Lemma exec_stored st c st' n i d :
  kv_wf st → cmd_ok st c → kv_exec st c = Ret st' → stored (DataForMigration st') n i = Some d →
  stored (DataForMigration st) n i = Some d ∨
  ∃ cfg, c = CConfig cfg ∧ ShardCtrler.Num (kv_Config st) = n ∧ ShardCtrler.Num cfg = n + 1 ∧
    i ∈ MyShards st ∧ owner cfg i ≠ gid st ∧ i ∉ MyShards st' ∧ kv_Config st' = cfg ∧
    d = filter (λ e, key2shard e.1 = i) (Data st) ∧ LastOp st' = LastOp st.
Proof.
  intros Hwf Hok ([kv' r] & Hex & [= <-])%bind_Ret_inv. unfold execCommand in Hex. rewrite Z.eqb_refl in Hex. cbn [negb] in Hex.
  set (st1 := set_LastApplied _ st) in *. cbn [core DataForMigration]. intros Hd. destruct c as [op|c|m|gc].
  - injection Hex as Hex. left. destruct (op_fields st1 op) as (_ & _ & _ & _ & E & _). rewrite Hex in E. simpl in E. by rewrite E in Hd.
  - apply bind_Ret_inv in Hex as (kv1 & Hex & [= <- _]). destruct Hok as [Hz Hor].
    destruct (Z.le_gt_cases (ShardCtrler.Num c) (ShardCtrler.Num (kv_Config st))) as [Hle|Hlt].
    { left. rewrite execApplyConfig_stale in Hex by done. by injection Hex as <-. }
    destruct Hor as [?|[Hnum Hreq]]; [lia|].
    destruct (execApplyConfig_spec st1 c) as (kv2 & Hex2 & Ha); [apply Hwf|done|done|].
    assert (kv2 = kv1) as -> by congruence.
    destruct (decide (n = ShardCtrler.Num (kv_Config st1) ∧ loses st1 c i)) as [[-> Hl]|Hl]; [right|left].
    + rewrite (ca_stored _ _ _ Ha i Hl) in Hd. injection Hd as <-. exists c. pose proof Hl as (Hi & Ho & Hn)%loses_iff.
      split_and!; [done|done|done| |done| |apply Ha|done|apply Ha].
      * destruct (wf_owned _ Hwf i) as [_ [?|[? Hr]]]; [by split|done|]. by rewrite Hreq, lookup_empty in Hr.
      * cbn [core MyShards]. rewrite (ca_mine _ _ _ Ha i). rewrite gains_iff. tauto.
    + by rewrite (ca_others _ _ _ Ha) in Hd.
  - left. injection Hex as <- _. unfold execMigrationDataSync in Hd. destruct (negb _); [done|].
    destruct (decide _); simpl in Hd; destruct (ShardDataReqs st !! mr_Shard m); done.
  - left. injection Hex as <- _. rewrite gc_stored in Hd. by case_decide.
Qed.

Lemma run_snoc_inv log c st : run (log ++ [c]) = Ret st → ∃ st1, run log = Ret st1 ∧ kv_exec st1 c = Ret st.
Proof. rewrite (sm_run_snoc (C := Command)). by intros (st1 & ? & ?)%bind_Ret_inv; exists st1. Qed.

(** What holds after each command of a fit log. *)
Lemma log_induction (Q : list Command → ShardKV → Prop) :
  Q [] (fresh_group g) →
  (∀ log c st st', fits_in (log ++ [c]) → run log = Ret st → kv_wf st → cmd_ok st c → kv_exec st c = Ret st' →
     run (log ++ [c]) = Ret st' → Q log st → Q (log ++ [c]) st') →
  ∀ log st, fits_in log → run log = Ret st → Q log st.
Proof.
  intros H0' Hstep log. induction log as [|c log IH] using rev_ind; intros st Hf Hr; [by injection Hr as <-|].
  pose proof (fit_take _ _ (length log) Hf) as Hf'. rewrite take_app_length in Hf'.
  destruct (fit_next (H := group_machine) (fresh_group g) _ (length log) c (fresh_group_wf g) Hf) as (st1 & st2 & Hr1 & Hwf & Hok & Hn & Hr2).
  { by rewrite lookup_app_r, Nat.sub_diag by done. }
  rewrite take_app_length in Hr1. rewrite take_ge in Hr2 by (rewrite length_app; simpl; lia).
  assert (st2 = st) as -> by congruence. apply (Hstep log c st1 st); try done. by apply IH.
Qed.

Lemma run_wf log st : fits_in log → run log = Ret st → kv_wf st ∧ gid st = Z.pos g.
Proof.
  apply (log_induction (λ _ st, kv_wf st ∧ gid st = Z.pos g)); [split; [apply fresh_group_wf|done]|].
  intros ? c st0 st' _ _ Hwf Hok Hn _ [_ Hg]. destruct (exec_evolves st0 c Hwf Hok) as (st1 & r & Hex & Hev & _).
  unfold kv_exec in Hn. rewrite Hex in Hn. injection Hn as <-. split; [apply core_wf, Hev|]. simpl. by rewrite (ev_gid _ _ _ Hev).
Qed.

Lemma run_covers log st (k : nat) stk :
  fits_in log → run log = Ret st → run (take k log) = Ret stk → covers (LastOp stk) (LastOp st).
Proof.
  intros Hf Hr. revert stk. pattern log, st. apply log_induction; [| |done|done].
  - intros stk. rewrite take_nil. by intros [= <-].
  - intros log' c st1 st' _ Hr1 Hwf Hok Hn Hr' IH stk Hk. destruct (decide (k ≤ length log')%nat).
    + rewrite take_app_le in Hk by done. rewrite (IH _ Hk).
      destruct (exec_evolves st1 c Hwf Hok) as (st2 & r & Hex & Hev & _). unfold kv_exec in Hn. rewrite Hex in Hn.
      injection Hn as <-. apply Hev.
    + rewrite take_ge in Hk by (rewrite length_app; simpl; lia). assert (stk = st') as -> by congruence. done.
Qed.

Lemma stored_origin log st n i d :
  fits_in log → run log = Ret st → stored (DataForMigration st) n i = Some d →
  ∃ (k : nat) c st1 st2, log !! k = Some (CConfig c) ∧ run (take k log) = Ret st1 ∧ run (take (S k) log) = Ret st2 ∧
    ShardCtrler.Num (kv_Config st1) = n ∧ ShardCtrler.Num c = n + 1 ∧ i ∈ MyShards st1 ∧ owner c i ≠ Z.pos g ∧
    i ∉ MyShards st2 ∧ kv_Config st2 = c ∧ d = filter (λ e, key2shard e.1 = i) (Data st1) ∧ covers (LastOp st1) (LastOp st).
Proof.
  intros Hf Hr. pattern log, st. apply log_induction; [| |done|done].
  { simpl. unfold stored. by rewrite lookup_empty. }
  intros log' c st0 st' Hf' Hr0 Hwf Hok Hn Hr' IH Hd.
  destruct (exec_stored _ _ _ _ _ _ Hwf Hok Hn Hd) as [Hd0|(cfg & -> & HN & HN' & Hi & Ho & Hi' & Hc & -> & HL)].
  - destruct (IH Hd0) as (k & c' & st1 & st2 & Hk & Hr1 & Hr2 & H1 & H2 & H3' & H4' & H5' & H6' & H7' & H8').
    pose proof (lookup_lt_Some _ _ _ Hk). exists k, c', st1, st2. split_and!; [|by rewrite take_app_le by lia|by rewrite take_app_le by lia|done..|].
    + by apply lookup_app_l_Some.
    + eapply (run_covers (log' ++ [c]) _ k); [done|done|]. by rewrite take_app_le by lia.
  - exists (length log'), cfg, st0, st'. rewrite take_app_length. rewrite take_ge by (rewrite length_app; simpl; lia).
    rewrite lookup_app_r, Nat.sub_diag by done.
    pose proof (fit_take _ _ (length log') Hf') as Hf0. rewrite take_app_length in Hf0. destruct (run_wf _ _ Hf0 Hr0) as [_ Hg].
    split_and!; try done; [by rewrite <-Hg|by rewrite HL].
Qed.

(** The configuration of a group is one of its log. *)
Lemma config_origin log st :
  fits_in log → run log = Ret st → kv_Config st = ShardCtrler.zeroConfig ∨ CConfig (kv_Config st) ∈ log.
Proof.
  intros Hf Hr. pattern log, st. apply log_induction; [by left| |done|done].
  intros log' c st0 st' _ _ Hwf Hok ([kv' r] & Hex & [= <-])%bind_Ret_inv _ IH.
  assert (kv_Config (core kv') = kv_Config st0 ∨ c = CConfig (kv_Config (core kv'))) as [->| ->];
    [|destruct IH as [?|?]; [by left|right; apply elem_of_app; by left]|right; apply elem_of_app; right; by left].
  cbn [core kv_Config]. unfold execCommand in Hex. rewrite Z.eqb_refl in Hex. cbn [negb] in Hex.
  set (st1 := set_LastApplied _ st0) in *. destruct c as [op|c|m|gc].
  - injection Hex as Hex. left. destruct (op_fields st1 op) as (_ & E & _). by rewrite Hex in E.
  - apply bind_Ret_inv in Hex as (kv1 & Hex & [= <- _]). destruct Hok as [Hz Hor].
    destruct (Z.le_gt_cases (ShardCtrler.Num c) (ShardCtrler.Num (kv_Config st0))) as [Hle|Hlt].
    { left. rewrite execApplyConfig_stale in Hex by done. by injection Hex as <-. }
    destruct (execApplyConfig_spec st1 c) as (kv2 & Hex2 & Ha); [apply Hwf|done|done|].
    assert (kv2 = kv1) as -> by congruence. right. by rewrite (ca_config _ _ _ Ha).
  - left. injection Hex as <- _. unfold execMigrationDataSync. destruct (negb _); [done|].
    destruct (decide _); simpl; destruct (ShardDataReqs st0 !! mr_Shard m); done.
  - left. injection Hex as <- _. by destruct (gc_fields st1 gc) as (_ & -> & _).
Qed.

(** A migration after which a shard is served that was not served before. *)
Lemma migrate_serves st m st' :
  kv_wf st → cmd_ok st (CMigrate m) → kv_exec st (CMigrate m) = Ret st' →
  mr_Shard m ∉ MyShards st → mr_Shard m ∈ MyShards st' →
  mr_ConfigNum m = ShardCtrler.Num (kv_Config st) - 1 ∧ kv_Config st' = kv_Config st ∧
  owner (kv_Config st) (mr_Shard m) = gid st ∧
  (∀ k, key2shard k = mr_Shard m → Data st' !! k = mr_Data m !! k) ∧
  (∀ k, key2shard k ≠ mr_Shard m → Data st' !! k = Data st !! k) ∧
  covers (mr_LastOperation m) (LastOp st') ∧ covers (LastOp st) (LastOp st').
Proof.
  intros Hwf Hok ([kv' r] & Hex & [= <-])%bind_Ret_inv Hno Hin. unfold execCommand in Hex. rewrite Z.eqb_refl in Hex. cbn [negb] in Hex.
  injection Hex as <- _. set (st1 := set_LastApplied _ st) in *. cbn [core MyShards kv_Config Data LastOp] in *.
  assert (kv_wf st1) as Hwf1 by by apply wf_set_LastApplied.
  destruct (migrate_stale st1 m Hwf1 Hok) as [Heq|[Hnum [n Hreq]]]; [by rewrite Heq in Hin|].
  destruct (migrate_spec st1 m n Hwf1 Hreq Hnum) as (gc & _ & ->). cbn [set_shards set_data kv_Config Data LastOp].
  destruct Hok as [Hkeys _]. split_and!; [done|done| | | |apply mergeLastOp_covers..].
  - apply (wf_owned _ Hwf). right. by eexists.
  - intros k Hk. apply lookup_union_l. apply eq_None_not_Some. intros [v Hv]. apply Hno. rewrite <-Hk. by eapply (wf_data _ Hwf).
  - intros k Hk. apply lookup_union_r. apply eq_None_not_Some. intros [v Hv]. by apply Hk, (Hkeys _ v).
Qed.
End log.
