(* ===== verification/ShardTimeline.v ===== *)
(** * The history of a shard

    What the logs of all groups together say about one shard: which group
    serves it in which configuration, what the shard's keys hold, and which
    operations take effect.  The logs are given with what is known about them
    ([family]): the configurations are the controller's, a migration carries what
    the group before had stored, and whatever call it remembers took effect
    somewhere.

    Two positions of the logs at which the shard is served are ordered by the
    configuration and then by the log ([chain], [effect_covered]); an operation
    takes effect once ([effect_once]). *)

From Stdlib Require Import Strings.Byte.
From stdpp Require Import prelude gmap strings list sets.
From S2P Require Import Prelude Gob Raft ShardKv ShardKvProps Replicated ShardKvSystem.
From S2P Require ShardCtrler.
Local Open Scope Z_scope.

Notation epoch st := (ShardCtrler.Num (kv_Config st)).

(** ** One command *)

(** The operation takes effect: it is new, and the group serves its key. *)
Definition takes_effect (st : ShardKV) (op : Op) : Prop :=
  match LastOp st !! ClientId op with Some lo => lo_CallId lo < CallId op | None => True end ∧
  key2shard (Key op) ∈ MyShards st.

#[export] Instance takes_effect_dec st op : Decision (takes_effect st op).
Proof. unfold takes_effect. destruct (LastOp st !! ClientId op); apply _. Defined.

Lemma client_op_cases st op :
  takes_effect st op ∧ (execClientOp st op).1 =
    set_data (executeOp (Data st) op).1
      (<[ClientId op := mkLastOperation (CallId op) (executeOp (Data st) op).2]> (LastOp st)) st ∨
  ¬ takes_effect st op ∧ (execClientOp st op).1 = st.
Proof.
  unfold execClientOp, takes_effect, checkRightGroup.
  destruct (LastOp st !! ClientId op) as [lo|]; [destruct (lo_CallId lo >=? CallId op) eqn:Hge|].
  - right. split; [|done]. intros [? _]. zlia.
  - case_bool_decide; simpl; [left|right; split; [by intros [_ ?]|done]]. split; [split; [zlia|done]|].
    by destruct (executeOp (Data st) op).
  - case_bool_decide; simpl; [left|right; split; [by intros [_ ?]|done]]. split; [done|]. by destruct (executeOp (Data st) op).
Qed.

(** What a command does to shard [i]. *)
Inductive exec_case (st : ShardKV) (c : Command) (st' : ShardKV) (i : Z) : Prop :=
  | case_quiet :
      kv_Config st' = kv_Config st → (i ∈ MyShards st' ↔ i ∈ MyShards st) →
      (∀ key, key2shard key = i → Data st' !! key = Data st !! key) →
      (∀ op, c = COp op → takes_effect st op → key2shard (Key op) ≠ i) → exec_case st c st' i
  | case_op op :
      c = COp op → takes_effect st op → key2shard (Key op) = i → kv_Config st' = kv_Config st →
      MyShards st' = MyShards st → Data st' = (executeOp (Data st) op).1 →
      LastOp st' = <[ClientId op := mkLastOperation (CallId op) (executeOp (Data st) op).2]> (LastOp st) →
      exec_case st c st' i
  | case_config new :
      c = CConfig new → ShardCtrler.Num new = epoch st + 1 → kv_Config st' = new →
      (i ∈ MyShards st ↔ 0 ≤ i < NShards ∧ owner (kv_Config st) i = gid st) →
      (i ∈ MyShards st' ↔ 0 ≤ i < NShards ∧ owner new i = gid st ∧ (owner (kv_Config st) i = gid st ∨ epoch st = 0)) →
      (∀ key, key2shard key = i → owner new i = gid st → Data st' !! key = Data st !! key) → exec_case st c st' i
  | case_gain m :
      c = CMigrate m → mr_Shard m = i → i ∉ MyShards st → i ∈ MyShards st' → kv_Config st' = kv_Config st →
      mr_ConfigNum m = epoch st - 1 → (∀ key, key2shard key = i → Data st' !! key = mr_Data m !! key) →
      covers (mr_LastOperation m) (LastOp st') → exec_case st c st' i.

Lemma exec_cases st c st' i : kv_wf st → cmd_ok st c → kv_exec st c = Ret st' → exec_case st c st' i.
Proof.
  intros Hwf Hok Hn. pose proof Hn as ([kv' r] & Hex & [= <-])%bind_Ret_inv.
  unfold execCommand in Hex. rewrite Z.eqb_refl in Hex. cbn [negb] in Hex. set (st1 := set_LastApplied _ st) in *.
  assert (kv_wf st1) as Hwf1 by by apply wf_set_LastApplied.
  destruct c as [op|c|m|g].
  - injection Hex as Hex. destruct (client_op_cases st1 op) as [[He Heq]|[He Heq]]; rewrite Hex in Heq; simpl in Heq; subst kv'.
    + destruct (decide (key2shard (Key op) = i)) as [Hk|Hk]; [by eapply (case_op _ _ _ _ op)|].
      apply case_quiet; [done|done| |by intros ? [= <-]].
      intros key Hkey. cbn [core set_data Data]. unfold executeOp. assert (key ≠ Key op) by congruence.
      destruct (op_OpType op); simpl; rewrite ?lookup_insert_ne by done; done.
    + apply case_quiet; try done. by intros ? [= <-].
  - apply bind_Ret_inv in Hex as (kv1 & Hex & [= <- _]). destruct Hok as [Hz Hor].
    destruct (Z.le_gt_cases (ShardCtrler.Num c) (epoch st)) as [Hle|Hlt].
    { rewrite execApplyConfig_stale in Hex by done. injection Hex as <-. by apply case_quiet. }
    destruct Hor as [?|[Hnum Hreq]]; [lia|].
    destruct (execApplyConfig_spec st1 c) as (kv2 & Hex2 & Ha); [apply Hwf|done|done|].
    assert (kv2 = kv1) as -> by congruence. destruct (config_shards st1 c kv1 i Hwf1 Hreq Ha) as [Hs _].
    eapply (case_config _ _ _ _ c); [done|done|apply Ha| |exact Hs|].
    + rewrite <-(wf_owned _ Hwf), Hreq, lookup_empty. split; [by left|]. by intros [|[]].
    + intros key Hkey Ho. apply (ca_kept _ _ _ Ha). rewrite loses_iff, Hkey. tauto.
  - destruct (decide (mr_Shard m = i)) as [<-|Hne].
    + destruct (decide (mr_Shard m ∈ MyShards st)) as [Hin|Hno].
      * destruct (migrate_stale st1 m Hwf1 Hok) as [Heq|[_ [n Hreq]]].
        -- injection Hex as <- _. rewrite Heq. by apply case_quiet.
        -- by rewrite (wf_disjoint _ Hwf1 _ Hin) in Hreq.
      * destruct (decide (mr_Shard m ∈ MyShards kv')) as [Hin|Hno'].
        -- destruct (migrate_serves st m (core kv')) as (? & ? & _ & ? & _ & ? & _); [done..|]. by eapply (case_gain _ _ _ _ m).
        -- injection Hex as <- _. destruct (migrate_stale st1 m Hwf1 Hok) as [Heq|[Hnum [n Hreq]]].
           ++ rewrite Heq. by apply case_quiet.
           ++ destruct (migrate_spec st1 m n Hwf1 Hreq Hnum) as (gc & _ & Heq). rewrite Heq in Hno'. simpl in Hno'. set_solver.
    + injection Hex as <- _. destruct (migrate_stale st1 m Hwf1 Hok) as [Heq|[Hnum [n Hreq]]]; [rewrite Heq; by apply case_quiet|].
      destruct (migrate_spec st1 m n Hwf1 Hreq Hnum) as (gc & _ & Heq). rewrite Heq. destruct Hok as [Hkeys _].
      apply case_quiet; [done|simpl; set_solver| |done]. intros key Hkey. simpl. apply lookup_union_r.
      apply eq_None_not_Some. intros [v Hv]. apply Hne. rewrite <-Hkey. symmetry. by eapply Hkeys.
  - injection Hex as <- _. destruct (gc_fields st1 g) as (_ & E2 & E3 & _ & E5 & _).
    apply case_quiet; simpl; rewrite ?E2, ?E3, ?E5; done.
Qed.

(** Where an entry of the duplicate table comes from. *)
Lemma exec_entry st c st' cl lo :
  kv_wf st → cmd_ok st c → kv_exec st c = Ret st' → LastOp st' !! cl = Some lo →
  LastOp st !! cl = Some lo ∨
  (∃ op, c = COp op ∧ takes_effect st op ∧ ClientId op = cl ∧ lo = mkLastOperation (CallId op) (executeOp (Data st) op).2) ∨
  ∃ m, c = CMigrate m ∧ mr_LastOperation m !! cl = Some lo.
Proof.
  intros Hwf Hok ([kv' r] & Hex & [= <-])%bind_Ret_inv Hlo. cbn [core LastOp] in Hlo.
  unfold execCommand in Hex. rewrite Z.eqb_refl in Hex. cbn [negb] in Hex. set (st1 := set_LastApplied _ st) in *.
  assert (kv_wf st1) as Hwf1 by by apply wf_set_LastApplied.
  destruct c as [op|c|m|g].
  - injection Hex as Hex. destruct (client_op_cases st1 op) as [[He Heq]|[He Heq]]; rewrite Hex in Heq; simpl in Heq; subst kv'.
    + simpl in Hlo. apply lookup_insert_Some in Hlo as [[<- <-]|[_ ?]]; [right; left; by exists op|by left].
    + by left.
  - apply bind_Ret_inv in Hex as (kv1 & Hex & [= <- _]). left. destruct Hok as [Hz Hor].
    destruct (Z.le_gt_cases (ShardCtrler.Num c) (epoch st)) as [Hle|Hlt].
    { rewrite execApplyConfig_stale in Hex by done. by injection Hex as <-. }
    destruct (execApplyConfig_spec st1 c) as (kv2 & Hex2 & Ha); [apply Hwf|done|done|].
    assert (kv2 = kv1) as -> by congruence. by rewrite (ca_LastOp _ _ _ Ha) in Hlo.
  - injection Hex as <- _. destruct (migrate_stale st1 m Hwf1 Hok) as [Heq|[Hnum [n Hreq]]]; [left; by rewrite Heq in Hlo|].
    destruct (migrate_spec st1 m n Hwf1 Hreq Hnum) as (gc & _ & Heq). rewrite Heq in Hlo. simpl in Hlo. unfold mergeLastOp in Hlo.
    rewrite lookup_union_with in Hlo. change (LastOp st1) with (LastOp st) in Hlo.
    destruct (LastOp st !! cl) as [l1|] eqn:E1, (mr_LastOperation m !! cl) as [l2|] eqn:E2; simpl in Hlo; simplify_eq; [|by left|right; right; by exists m].
    case_match; [right; right; by exists m|by left].
  - injection Hex as <- _. destruct (gc_fields st1 g) as (_ & _ & _ & _ & _ & E & _). rewrite E in Hlo. by left.
Qed.

(** ** The logs of all groups *)
Section timeline.
Implicit Types (logs : gmap positive (list Command)) (g : positive) (st : ShardKV) (c : Config) (cs : list Config).

(** The first [k] commands of group [g] lead to [st]. *)
Definition reaches logs g (k : nat) st : Prop :=
  ∃ log, logs !! g = Some log ∧ (k ≤ length log)%nat ∧ sm_run (fresh_group g) (take k log) = Ret st.

(** The next one is [cmd]. *)
Definition command_at logs g (k : nat) (cmd : Command) : Prop := ∃ log, logs !! g = Some log ∧ log !! k = Some cmd.

(** In [st] the group serves shard [i] in the configuration number [e]. *)
Definition serves logs (i : Z) g k st (e : Z) : Prop := reaches logs g k st ∧ i ∈ MyShards st ∧ epoch st = e.

(** The operation [op] takes effect there. *)
Definition effect logs g k st (op : Op) : Prop := reaches logs g k st ∧ command_at logs g k (COp op) ∧ takes_effect st op.

(** An operation that took effect is what the entry remembers. *)
Definition origin logs (client : Z) (lo : LastOperation) : Prop :=
  ∃ g k st op, effect logs g k st op ∧ ClientId op = client ∧ lo = mkLastOperation (CallId op) (executeOp (Data st) op).2.

Record family logs cs : Prop := mkFamily {
  fa_fit g log : logs !! g = Some log → fit (fresh_group g) log;
  fa_configs g log c : logs !! g = Some log → CConfig c ∈ log → c ∈ cs;
  fa_unique c c' : c ∈ cs → c' ∈ cs → ShardCtrler.Num c = ShardCtrler.Num c' → c = c';
  fa_moves g log m : logs !! g = Some log → CMigrate m ∈ log →
    ∃ a k st config, config ∈ cs ∧ mr_ConfigNum m = ShardCtrler.Num config ∧ owner config (mr_Shard m) = Z.pos a ∧
      reaches logs a k st ∧ stored (DataForMigration st) (mr_ConfigNum m) (mr_Shard m) = Some (mr_Data m) ∧
      mr_LastOperation m = LastOp st;
  fa_origin g log m client lo : logs !! g = Some log → CMigrate m ∈ log → mr_LastOperation m !! client = Some lo →
    origin logs client lo;
}.

(** *** More of the logs *)

Definition grown logs logs' : Prop :=
  ∀ g log, logs !! g = Some log → ∃ log', logs' !! g = Some log' ∧ log `prefix_of` log'.

#[export] Instance grown_preorder : PreOrder grown.
Proof.
  split; [by intros logs g log Hl; exists log|]. intros l1 l2 l3 H12 H23 g log Hl.
  destruct (H12 g log Hl) as (log2 & Hl2 & Hp). destruct (H23 g log2 Hl2) as (log3 & Hl3 & Hp'). exists log3. split; [done|by etrans].
Qed.

Lemma reaches_grown logs logs' g k st : grown logs logs' → reaches logs g k st → reaches logs' g k st.
Proof.
  intros Hg (log & Hl & Hk & Hr). destruct (Hg g log Hl) as (log' & Hl' & [l ->]). exists (log ++ l).
  split_and!; [done|rewrite length_app; lia|by rewrite take_app_le].
Qed.

Lemma command_grown logs logs' g k cmd : grown logs logs' → command_at logs g k cmd → command_at logs' g k cmd.
Proof.
  intros Hg (log & Hl & Hk). destruct (Hg g log Hl) as (log' & Hl' & Hp). exists log'. split; [done|by eapply prefix_lookup_Some].
Qed.

Lemma serves_grown logs logs' i g k st e : grown logs logs' → serves logs i g k st e → serves logs' i g k st e.
Proof. intros Hg (? & ? & ?). split_and!; [by eapply reaches_grown|done|done]. Qed.

Lemma effect_grown logs logs' g k st op : grown logs logs' → effect logs g k st op → effect logs' g k st op.
Proof. intros Hg (? & ? & ?). split_and!; [by eapply reaches_grown|by eapply command_grown|done]. Qed.

Lemma origin_grown logs logs' client lo : grown logs logs' → origin logs client lo → origin logs' client lo.
Proof. intros Hg (g & k & st & op & ? & ? & ?). exists g, k, st, op. split_and!; [by eapply effect_grown|done|done]. Qed.

Lemma reaches_det logs g k st st' : reaches logs g k st → reaches logs g k st' → st = st'.
Proof. intros (log & Hl & _ & Hr) (log' & Hl' & _ & Hr'). congruence. Qed.

Lemma command_det logs g k cmd cmd1 : command_at logs g k cmd → command_at logs g k cmd1 → cmd = cmd1.
Proof. intros (log & Hl & Hc) (log' & Hl' & Hc'). congruence. Qed.

(** ** Along the log of a group *)
Section family.
Context logs cs (Hfam : family logs cs).

Lemma reaches_0 g log : logs !! g = Some log → reaches logs g 0 (fresh_group g).
Proof. intros Hl. exists log. split_and!; [done|lia|done]. Qed.

Lemma reaches_wf g k st : reaches logs g k st → kv_wf st ∧ gid st = Z.pos g.
Proof using Hfam.
  intros (log & Hl & _ & Hr). by apply (run_wf g _ _ (fit_take _ _ k (fa_fit _ _ Hfam g log Hl))).
Qed.

(** The command at a position leads to the next. *)
Lemma reaches_next g k cmd :
  command_at logs g k cmd →
  ∃ st st', reaches logs g k st ∧ reaches logs g (S k) st' ∧ cmd_ok st cmd ∧ kv_exec st cmd = Ret st'.
Proof using Hfam.
  intros (log & Hl & Hk). pose proof (lookup_lt_Some _ _ _ Hk).
  destruct (fit_next (H := group_machine) (fresh_group g) log k cmd (fresh_group_wf g) (fa_fit _ _ Hfam g log Hl) Hk)
    as (st & st' & Hr & _ & Hok & Hn & Hr').
  exists st, st'. split_and!; [exists log; split_and!; [done|lia|done]|exists log; split_and!; [done|lia|done]|done|done].
Qed.

Lemma reaches_prev g k st' :
  reaches logs g (S k) st' →
  ∃ cmd st, command_at logs g k cmd ∧ reaches logs g k st ∧ kv_wf st ∧ cmd_ok st cmd ∧ kv_exec st cmd = Ret st'.
Proof using Hfam.
  intros Hr. pose proof Hr as (log & Hl & Hk & _). destruct (lookup_lt_is_Some_2 log k) as [cmd Hc]; [lia|].
  assert (command_at logs g k cmd) as Hcmd by by exists log.
  destruct (reaches_next g k cmd Hcmd) as (st & st1 & Hr0 & Hr1 & Hok & Hn).
  rewrite (reaches_det _ _ _ _ _ Hr Hr1). exists cmd, st. split_and!; try done. by eapply reaches_wf.
Qed.

Lemma exec_covers st cmd st' : kv_wf st → cmd_ok st cmd → kv_exec st cmd = Ret st' → covers (LastOp st) (LastOp st').
Proof.
  intros Hwf Hok Hn. destruct (exec_evolves st cmd Hwf Hok) as (st2 & r & Hex & Hev & _). unfold kv_exec in Hn. rewrite Hex in Hn.
  injection Hn as <-. apply Hev.
Qed.

(** A step keeps the configuration or goes to the next one. *)
Lemma exec_epoch st cmd st' :
  kv_wf st → cmd_ok st cmd → kv_exec st cmd = Ret st' →
  kv_Config st' = kv_Config st ∨ ∃ new, cmd = CConfig new ∧ kv_Config st' = new ∧ ShardCtrler.Num new = epoch st + 1.
Proof.
  intros Hwf Hok Hn. destruct (exec_cases st cmd st' 0 Hwf Hok Hn); [by left|by left|right; by exists new|by left].
Qed.

(** Going on, the configuration number grows and calls are not forgotten. *)
Lemma reaches_mono g k k' st st' :
  (k ≤ k')%nat → reaches logs g k st → reaches logs g k' st' → epoch st ≤ epoch st' ∧ covers (LastOp st) (LastOp st').
Proof using Hfam.
  intros Hle. revert st'. induction Hle as [|k' Hle IH]; intros st' Hr Hr'; [by rewrite (reaches_det _ _ _ _ _ Hr Hr')|].
  destruct (reaches_prev g k' st' Hr') as (cmd & st1 & _ & Hr1 & Hwf & Hok & Hn). destruct (IH st1 Hr Hr1) as [He Hc]. split.
  - destruct (exec_epoch _ _ _ Hwf Hok Hn) as [->|(new & _ & -> & ->)]; lia.
  - etrans; [exact Hc|]. by eapply exec_covers.
Qed.

(** Configurations are numbered from the empty one. *)
Lemma reaches_config g k st :
  reaches logs g k st → 0 ≤ epoch st ∧ (epoch st = 0 → kv_Config st = ShardCtrler.zeroConfig) ∧ (0 < epoch st → kv_Config st ∈ cs).
Proof using Hfam.
  revert st. induction k as [|k IH]; intros st Hr.
  - destruct Hr as (log & _ & _ & [= <-]). simpl. split_and!; [done|done|]. intros Hz. exfalso. revert Hz. vm_compute. done.
  - destruct (reaches_prev g k st Hr) as (cmd & st1 & Hcmd & Hr1 & Hwf & Hok & Hn). specialize (IH st1 Hr1).
    destruct (exec_epoch _ _ _ Hwf Hok Hn) as [->|(new & -> & -> & HN)]; [done|]. rewrite HN. split_and!; [lia|lia|]. intros _.
    destruct Hcmd as (log & Hl & Hc). eapply (fa_configs _ _ Hfam); [done|by eapply list_elem_of_lookup_2].
Qed.

(** ** Serving a shard *)

Lemma serves_owner i g k st e :
  serves logs i g k st e → 0 < e ∧ 0 ≤ i < NShards ∧ kv_Config st ∈ cs ∧ owner (kv_Config st) i = Z.pos g.
Proof using Hfam.
  intros (Hr & Hi & <-). destruct (reaches_wf _ _ _ Hr) as [Hwf Hg]. destruct (reaches_config _ _ _ Hr) as (Hge & Hz & Hin).
  destruct (wf_owned _ Hwf i) as [[Hrange Ho] _]; [by left|]. rewrite Hg in Ho.
  assert (epoch st ≠ 0) as Hne by (intros Heq; rewrite (Hz Heq), owner_zero in Ho; done).
  split_and!; [lia|lia|lia|apply Hin; lia|done].
Qed.

(** In a configuration one group serves the shard. *)
Lemma serves_unique i g g' k k' st st' e : serves logs i g k st e → serves logs i g' k' st' e → g = g'.
Proof using Hfam.
  intros Hs Hs'. destruct (serves_owner _ _ _ _ _ Hs) as (_ & _ & Hc & Ho). destruct (serves_owner _ _ _ _ _ Hs') as (_ & _ & Hc' & Ho').
  destruct Hs as (_ & _ & He), Hs' as (_ & _ & He'). rewrite (fa_unique _ _ Hfam _ _ Hc Hc') in Ho by congruence. congruence.
Qed.

(** Until the configuration changes. *)
Lemma serves_stays i g k k' st st' e :
  (k ≤ k')%nat → serves logs i g k st e → reaches logs g k' st' → epoch st' ≤ e → serves logs i g k' st' e.
Proof using Hfam.
  intros Hle Hs. revert st'. induction Hle as [|k' Hle IH]; intros st' Hr' He.
  { pose proof Hs as (Hr & _). by rewrite (reaches_det _ _ _ _ _ Hr' Hr). }
  destruct (reaches_prev g k' st' Hr') as (cmd & st1 & _ & Hr1 & Hwf & Hok & Hn). pose proof Hs as (Hr & _ & Hes).
  destruct (reaches_mono g k k' st st1 Hle Hr Hr1) as [He1 _].
  destruct (exec_cases st1 cmd st' i Hwf Hok Hn) as [E Hi _ _|op _ _ _ E Hi _ _|new _ HN E _ _ _|m _ _ Hno _ E _ _ _].
  - rewrite E in He. destruct (IH st1 Hr1 He) as (_ & Hin & <-). split_and!; [done|by apply Hi|by rewrite E].
  - rewrite E in He. destruct (IH st1 Hr1 He) as (_ & Hin & <-). split_and!; [done|by rewrite Hi|by rewrite E].
  - rewrite E, HN in He. lia.
  - rewrite E in He. destruct (IH st1 Hr1 He) as (_ & Hin & _). done.
Qed.

(** The first position of the log at which it is served. *)
Definition entered i g k st e : Prop :=
  serves logs i g k st e ∧ ∀ j stj, (j < k)%nat → reaches logs g j stj → ¬ serves logs i g j stj e.

Lemma serves_entered i g k st e : serves logs i g k st e → ∃ k0 st0, (k0 ≤ k)%nat ∧ entered i g k0 st0 e.
Proof using Hfam.
  revert st. induction k as [|k IH]; intros st Hs; [exists 0%nat, st; split; [lia|split; [done|intros; lia] ]|].
  pose proof Hs as (Hr & _ & He). destruct (reaches_prev g k st Hr) as (cmd & st1 & _ & Hr1 & _).
  destruct (decide (i ∈ MyShards st1 ∧ epoch st1 = e)) as [[Hi1 He1]|Hno].
  - destruct (IH st1) as (k0 & st0 & Hle & Hent); [by split_and!|]. exists k0, st0. split; [lia|done].
  - exists (S k), st. split; [lia|]. split; [done|]. intros j stj Hj Hrj Hsj. apply Hno.
    pose proof Hsj as (_ & _ & Hej). destruct (reaches_mono g k (S k) st1 st ltac:(lia) Hr1 Hr) as [Hle _].
    by destruct (serves_stays i g j k stj st1 e ltac:(lia) Hsj Hr1 ltac:(lia)) as (_ & ? & ?).
Qed.

(** Group [a] has served the shard in configuration [e] up to its step to the
    next one. *)
Definition leaves i a k st e : Prop :=
  serves logs i a k st e ∧ ∃ new, command_at logs a k (CConfig new) ∧ ShardCtrler.Num new = e + 1.

(** Where the shard comes from: it is new, or the group that had it, perhaps the
    same, has left the configuration before. *)
Lemma entered_from i g k0 st0 e :
  entered i g k0 st0 e →
  (e = 1 ∧ ∀ key, key2shard key = i → Data st0 !! key = None) ∨
  ∃ a k sta, leaves i a k sta (e - 1) ∧ (∀ key, key2shard key = i → Data st0 !! key = Data sta !! key) ∧
    covers (LastOp sta) (LastOp st0).
Proof using Hfam.
  intros [Hs Hfirst]. pose proof Hs as (Hr & Hin & He). destruct k0 as [|k].
  { destruct Hr as (log & _ & _ & [= <-]). by apply elem_of_empty in Hin. }
  destruct (reaches_prev g k st0 Hr) as (cmd & st1 & Hcmd & Hr1 & Hwf & Hok & Hn). destruct (reaches_wf _ _ _ Hr1) as [_ Hg].
  specialize (Hfirst k st1 ltac:(lia) Hr1).
  destruct (exec_cases st1 cmd st0 i Hwf Hok Hn) as [E Hi _ _|op _ _ _ E Hi _ _|new -> HN E Hi1 Hi0 Hd|m -> Hm Hno _ E HN Hd Hc].
  - destruct Hfirst. split_and!; [done|by apply Hi|by rewrite <-E].
  - destruct Hfirst. split_and!; [done|by rewrite <-Hi|by rewrite <-E].
  - apply Hi0 in Hin as (Hrange & Ho & [Ho1|Hz]).
    + right. exists g, k, st1. rewrite <-He, E, HN. split_and!; [split; [split_and!; [done|by apply Hi1|lia]|exists new; split; [done|lia] ]| |].
      * intros key Hkey. by apply Hd.
      * by eapply exec_covers.
    + left. rewrite <-He, E, HN, Hz. split; [done|]. intros key Hkey. rewrite (Hd key Hkey Ho). apply eq_None_not_Some. intros [v Hv].
      apply (wf_data _ Hwf) in Hv. rewrite Hkey in Hv. apply Hi1 in Hv as [_ Ho1]. destruct (reaches_config _ _ _ Hr1) as (_ & Hzero & _).
      rewrite (Hzero Hz), owner_zero, Hg in Ho1. done.
  - right. destruct Hcmd as (log & Hl & Hk). subst i.
    destruct (fa_moves _ _ Hfam g log m Hl) as (a & x & stx & config & _ & HN' & _ & Hrx & Hst & HL); [by eapply list_elem_of_lookup_2|].
    pose proof Hrx as (loga & Hla & Hx & Hrunx).
    destruct (stored_origin a _ _ _ _ _ (fit_take _ _ x (fa_fit _ _ Hfam a loga Hla)) Hrunx Hst)
      as (k' & new & sta & sta' & Hk' & Hra & _ & E1 & E2 & E3 & _ & _ & _ & E7 & E8).
    apply lookup_take_Some in Hk' as [Hk' Hlt]. rewrite take_take, Nat.min_l in Hra by lia.
    exists a, k', sta. assert (e - 1 = mr_ConfigNum m) as -> by (rewrite <-He, E; lia). split_and!.
    + split; [split_and!; [exists loga; split_and!; [done|lia|done]|done|done]|]. exists new. split; [by exists loga|done].
    + intros key Hkey. rewrite Hd, E7 by done. apply option_eq. intros v. rewrite map_lookup_filter_Some. simpl. tauto.
    + etrans; [exact E8|]. by rewrite <-HL.
Qed.

(** Before it was served in a configuration, it was served in all before. *)
Lemma chain i g k st e e0 :
  serves logs i g k st e → 1 ≤ e0 < e → ∃ a ka sta, leaves i a ka sta e0 ∧ covers (LastOp sta) (LastOp st).
Proof using Hfam.
  intros Hs Hlt. remember (Z.to_nat (e - e0)) as d eqn:Hd. revert g k st e Hs Hlt Hd.
  induction d as [|d IH]; intros g k st e Hs Hlt Hd; [lia|].
  destruct (serves_entered i g k st e Hs) as (k0 & st0 & Hle & Hent).
  pose proof Hs as (Hr & _ & _). pose proof Hent as [(Hr0 & _ & _) _]. destruct (reaches_mono g k0 k st0 st Hle Hr0 Hr) as [_ Hcov].
  destruct (entered_from i g k0 st0 e Hent) as [[-> _]|(a & ka & sta & Hl & _ & Hc)]; [lia|].
  destruct (decide (e0 = e - 1)) as [->|Hne].
  - exists a, ka, sta. split; [done|by etrans].
  - destruct (IH a ka sta (e - 1)) as (a' & ka' & sta' & Hl' & Hc'); [apply Hl|lia|lia|].
    exists a', ka', sta'. split; [done|]. etrans; [exact Hc'|]. by etrans.
Qed.

(** ** Operations that take effect *)

Lemma effect_remembered g k st op k' st' :
  effect logs g k st op → (k < k')%nat → reaches logs g k' st' →
  ∃ lo, LastOp st' !! ClientId op = Some lo ∧ CallId op ≤ lo_CallId lo.
Proof using Hfam.
  intros (Hr & Hcmd & He) Hlt Hr'. destruct (reaches_next g k _ Hcmd) as (st1 & st2 & Hr1 & Hr2 & Hok & Hn).
  rewrite (reaches_det _ _ _ _ _ Hr1 Hr) in *. destruct (reaches_wf _ _ _ Hr) as [Hwf _].
  destruct (reaches_mono g (S k) k' st2 st' Hlt Hr2 Hr') as [_ Hc].
  destruct (exec_cases st (COp op) st2 (key2shard (Key op)) Hwf Hok Hn) as [_ _ _ Hno|op' [= <-] _ _ _ _ _ HL|new ? | m ?]; [|clear Hr1|done|done].
  { by destruct (Hno op eq_refl He). }
  destruct (Hc (ClientId op) (mkLastOperation (CallId op) (executeOp (Data st) op).2)) as (lo & ? & ?); [by rewrite HL, lookup_insert_eq|].
  by exists lo.
Qed.

(** An operation takes effect before its group leaves the configuration. *)
Lemma effect_leaves i g k st op e ka sta :
  effect logs g k st op → epoch st = e → leaves i g ka sta e → (k < ka)%nat.
Proof using Hfam.
  intros (Hr & Hcmd & _) He [Hs (new & Hnew & HN)]. apply Nat.nle_gt. intros Hle.
  destruct (decide (k = ka)) as [->|Hne]; [by pose proof (command_det _ _ _ _ _ Hcmd Hnew)|].
  destruct (reaches_next g ka _ Hnew) as (st1 & st2 & Hr1 & Hr2 & Hok & Hn). pose proof Hs as (Hra & _ & Hea).
  rewrite (reaches_det _ _ _ _ _ Hr1 Hra) in *. destruct (reaches_wf _ _ _ Hra) as [Hwf _].
  destruct (reaches_mono g (S ka) k st2 st ltac:(lia) Hr2 Hr) as [Hle2 _].
  destruct Hok as [Hz Hor]. pose proof Hn as ([kv' r] & Hex & [= <-])%bind_Ret_inv.
  unfold execCommand in Hex. rewrite Z.eqb_refl in Hex. cbn [negb] in Hex. set (st3 := set_LastApplied _ sta) in *.
  apply bind_Ret_inv in Hex as (kv1 & Hex & [= <- _]).
  destruct (execApplyConfig_spec st3 new) as (kv2 & Hex2 & Ha); [apply Hwf|done|simpl; lia|].
  assert (kv2 = kv1) as -> by congruence. simpl in Hle2. rewrite (ca_config _ _ _ Ha) in Hle2. lia.
Qed.

(** Later, in the log or in the configuration, the call is remembered. *)
Lemma effect_covered g k st op g' k' st' e :
  effect logs g k st op → serves logs (key2shard (Key op)) g' k' st' e → epoch st < e ∨ epoch st = e ∧ (k < k')%nat →
  ∃ lo, LastOp st' !! ClientId op = Some lo ∧ CallId op ≤ lo_CallId lo.
Proof using Hfam.
  intros Heff Hs' Hord. pose proof Heff as (Hr & _ & [_ Hin]).
  assert (serves logs (key2shard (Key op)) g k st (epoch st)) as Hs by done.
  destruct Hord as [Hlt|[Heq Hlt]].
  - destruct (serves_owner _ _ _ _ _ Hs) as (Hpos & _). destruct (chain _ _ _ _ _ (epoch st) Hs' ltac:(lia)) as (a & ka & sta & Hl & Hc).
    assert (a = g) as -> by (eapply serves_unique; [apply Hl|exact Hs]).
    pose proof (effect_leaves _ _ _ _ _ _ _ _ Heff eq_refl Hl) as Hlt'. pose proof Hl as [(Hra & _) _].
    destruct (effect_remembered _ _ _ _ _ _ Heff Hlt' Hra) as (lo & Hlo & Hle). destruct (Hc _ _ Hlo) as (lo' & ? & ?).
    exists lo'. split; [done|lia].
  - assert (g' = g) as -> by (rewrite Heq in Hs; by eapply serves_unique). pose proof Hs' as (Hr' & _). by eapply effect_remembered.
Qed.

(** A call takes effect once. *)
Lemma effect_once g k st op g' k' st' op' :
  effect logs g k st op → effect logs g' k' st' op' → key2shard (Key op) = key2shard (Key op') → ClientId op = ClientId op' →
  CallId op = CallId op' → g = g' ∧ k = k'.
Proof using Hfam.
  assert (∀ g k st op g' k' st' op', effect logs g k st op → effect logs g' k' st' op' → key2shard (Key op) = key2shard (Key op') →
    ClientId op = ClientId op' → CallId op = CallId op' → ¬ (epoch st < epoch st' ∨ epoch st = epoch st' ∧ (k < k')%nat)) as Hno.
  { clear g k st op g' k' st' op'. intros g k st op g' k' st' op' He He' Hk Hc Hi Hord. pose proof He' as (Hr' & _ & [Hnew Hin']).
    destruct (effect_covered g k st op g' k' st' (epoch st') He) as (lo & Hlo & Hle); [by rewrite Hk|done|].
    rewrite <-Hc, Hlo in Hnew. lia. }
  intros He He' Hk Hc Hi. pose proof (Hno _ _ _ _ _ _ _ _ He He' Hk Hc Hi). pose proof (Hno _ _ _ _ _ _ _ _ He' He ltac:(done) ltac:(done) ltac:(done)).
  assert (epoch st = epoch st' ∧ k = k') as [Hee ->] by lia. split; [|done].
  pose proof He as (Hr & _ & [_ Hin]). pose proof He' as (Hr' & _ & [_ Hin']).
  apply (serves_unique (key2shard (Key op)) g g' k' k' st st' (epoch st)); [done|]. split_and!; [done|by rewrite Hk|done].
Qed.

(** Every remembered call took effect somewhere. *)
Lemma entry_origin g k st client lo : reaches logs g k st → LastOp st !! client = Some lo → origin logs client lo.
Proof using Hfam.
  revert st lo. induction k as [|k IH]; intros st lo Hr Hlo.
  { destruct Hr as (log & _ & _ & [= <-]). simpl in Hlo. by rewrite lookup_empty in Hlo. }
  destruct (reaches_prev g k st Hr) as (cmd & st1 & Hcmd & Hr1 & Hwf & Hok & Hn).
  destruct (exec_entry _ _ _ _ _ Hwf Hok Hn Hlo) as [Hold|[(op & -> & He & Hc & ->)|(m & -> & Hm)]].
  - by eapply IH.
  - exists g, k, st1, op. split_and!; [by split_and!|done|done].
  - destruct Hcmd as (log & Hl & Hk). eapply (fa_origin _ _ Hfam); [done|by eapply list_elem_of_lookup_2|done].
Qed.
End family.

(** An operation that was not in the logs when another had taken effect takes
    effect later. *)
Lemma effect_later logs0 cs0 logs cs a k st op g k' st' op' :
  family logs0 cs0 → family logs cs → grown logs0 logs → effect logs0 a k st op → effect logs g k' st' op' →
  key2shard (Key op) = key2shard (Key op') → (∀ g0 j, ¬ command_at logs0 g0 j (COp op')) →
  epoch st < epoch st' ∨ epoch st = epoch st' ∧ (k < k')%nat.
Proof.
  intros Hf0 Hf Hgr He0 He' Hk Hnew. pose proof (effect_grown _ _ _ _ _ _ Hgr He0) as He.
  pose proof He' as (Hr' & (log & Hl & Hc') & [_ Hin']). pose proof He0 as (Hr0 & (log0 & Hl0 & Hc0) & [_ Hin0]).
  assert (serves logs0 (key2shard (Key op)) a k st (epoch st)) as Hs0 by done.
  assert (serves logs (key2shard (Key op)) g k' st' (epoch st')) as Hs' by (rewrite Hk; done).
  assert (∀ j, (k' ≤ j)%nat → is_Some (log0 !! j) → a = g → False) as Hlog.
  { intros j Hle [c Hj] ->. destruct (Hgr g log0 Hl0) as (log1 & Hl1 & [l ->]). assert (log = log0 ++ l) as -> by congruence.
    apply lookup_lt_Some in Hj. rewrite lookup_app_l in Hc' by lia. apply (Hnew g k'). by exists log0. }
  destruct (Z.lt_trichotomy (epoch st) (epoch st')) as [?|[Heq|Hgt]]; [by left| |].
  - right. split; [done|]. apply Nat.nle_gt. intros Hle. apply (Hlog k Hle); [by eexists|].
    eapply (serves_unique _ _ Hf); [by eapply serves_grown|]. by rewrite Heq.
  - exfalso. destruct (serves_owner _ _ Hf _ _ _ _ _ Hs') as (Hpos & _).
    destruct (chain _ _ Hf0 _ _ _ _ _ (epoch st') Hs0 ltac:(lia)) as (b & kb & stb & [Hsb (new & Hnc & HN)] & _).
    assert (leaves logs (key2shard (Key op)) b kb stb (epoch st')) as Hl'.
    { split; [by eapply serves_grown|]. exists new. split; [by eapply command_grown|done]. }
    assert (b = g) as -> by (eapply (serves_unique _ _ Hf); [apply Hl'|exact Hs']).
    pose proof (effect_leaves _ _ Hf _ _ _ _ _ _ _ _ He' eq_refl Hl') as Hlt. destruct Hnc as (log1 & Hl1 & Hnc).
    destruct (Hgr g log1 Hl1) as (log2 & Hl2 & [l ->]). assert (log = log1 ++ l) as -> by congruence.
    apply lookup_lt_Some in Hnc. rewrite lookup_app_l in Hc' by lia. apply (Hnew g k'). by exists log1.
Qed.
End timeline.
