(* ===== verification/ShardHistory.v ===== *)
(** * The history of a key across groups

    The operations on one key that take effect, in the order of the
    configurations and, within one, of the log of the group that serves the
    key's shard then ([timeline]).  With the results they had they are a
    sequential history of a register ([timeline_accepted]): from one operation to
    the next the key keeps its value, also when the shard moves. *)

From Stdlib Require Import Strings.Byte.
From stdpp Require Import prelude gmap strings list sets sorting.
From S2P Require Import Prelude Porcupine Linearizability PorcupineHistory Models Gob Raft ShardKv ShardKvProps Replicated ShardKvSystem ShardTimeline.
From S2P Require ShardCtrler.
Local Open Scope Z_scope.

(** ** Operations as the register sees them *)

(** The operations [Get] and [PutAppend] start. *)
Definition shard_op (op : Op) : Prop :=
  match op_OpType op with Get => Value op = "" | Put | Append => True | ErrChangeGroup => False end.

(** What a test records of a call (shardkv/test_test.go). *)
Definition op_input (op : Op) : KvInput :=
  mkKvInput (match op_OpType op with Get => 0 | Put => 1 | _ => 2 end) (Key op) (Value op).
Definition op_output (op : Op) (v : string) : KvOutput :=
  mkKvOutput (match op_OpType op with Get => v | _ => "" end).

Lemma register_step d op :
  shard_op op →
  KvModel_Step (default "" (d !! Key op)) (op_input op) (op_output op (executeOp d op).2) =
    (true, default "" ((executeOp d op).1 !! Key op)).
Proof.
  unfold shard_op, KvModel_Step, op_input, op_output, executeOp. destruct (op_OpType op); intros Hop; [| | |done]; simpl.
  - destruct (d !! Key op); by rewrite bool_decide_true.
  - by rewrite lookup_insert_eq.
  - rewrite lookup_insert_eq. simpl. by destruct (d !! Key op).
Qed.

Lemma executeOp_other d op key : key ≠ Key op → (executeOp d op).1 !! key = d !! key.
Proof. intros Hne. unfold executeOp. destruct (op_OpType op); simpl; rewrite ?lookup_insert_ne by done; done. Qed.

(** ** Sorted lists *)

Definition earlier (x y : nat * nat) : Prop := (x.1 < y.1)%nat ∨ (x.1 = y.1 ∧ (x.2 < y.2)%nat).

Lemma sorted_NoDup l : StronglySorted earlier l → NoDup l.
Proof.
  induction 1 as [|x l _ IH Hx]; [constructor|]. constructor; [|done]. intros Hin. rewrite Forall_forall in Hx.
  specialize (Hx x Hin). unfold earlier in Hx. lia.
Qed.

Lemma sorted_before l x y : StronglySorted earlier l → x ∈ l → y ∈ l → earlier x y → before l x y.
Proof.
  intros Hs Hx Hy Hxy. destruct (before_total l x y Hx Hy) as [?|Hyx]; [intros ->; unfold earlier in Hxy; lia|done|].
  pose proof (StronglySorted_before _ _ _ _ Hs Hyx). unfold earlier in *. lia.
Qed.

Section history.
Context (logs : gmap positive (list Command)) (cs : list Config) (Hfam : family logs cs).
Context (Hgood : ∀ g k op, command_at logs g k (COp op) → shard_op op).
Context (key : string).
Notation shard := (key2shard key).
Implicit Types (g : positive) (st : ShardKV) (e k : nat).

(** The group that serves the key in configuration [e]. *)
Definition holder (e : nat) : option positive :=
  match list_find (λ c, ShardCtrler.Num c = Z.of_nat e) cs with
  | Some (_, c) => match owner c shard with Z.pos g => Some g | _ => None end
  | None => None
  end.

Lemma serves_holder g k st e : serves logs shard g k st (Z.of_nat e) → holder e = Some g.
Proof using Hfam.
  intros Hs. destruct (serves_owner _ _ Hfam _ _ _ _ _ Hs) as (_ & _ & Hin & Ho). destruct Hs as (_ & _ & He).
  destruct (list_find_elem_of (λ c, ShardCtrler.Num c = Z.of_nat e) cs (kv_Config st) Hin He) as [[j c] Hf].
  unfold holder. rewrite Hf. apply list_find_Some in Hf as (Hj & Hc & _).
  rewrite (fa_unique _ _ Hfam c (kv_Config st)); [by rewrite Ho|by eapply list_elem_of_lookup_2|done|congruence].
Qed.

(** An operation on the key takes effect at position [k] of the log of [g], in
    configuration [e]. *)
Definition effective g e k : Prop :=
  match logs !! g with
  | Some log =>
      match log !! k, sm_run (fresh_group g) (take k log) with
      | Some (COp op), Ret st => Key op = key ∧ takes_effect st op ∧ epoch st = Z.of_nat e
      | _, _ => False
      end
  | None => False
  end.

#[local] Instance effective_dec g e k : Decision (effective g e k).
Proof. unfold effective. repeat case_match; apply _. Defined.

Lemma effective_iff g e k : effective g e k ↔ ∃ st op, effect logs g k st op ∧ Key op = key ∧ epoch st = Z.of_nat e.
Proof.
  unfold effective. split.
  - destruct (logs !! g) as [log|] eqn:Hl; [|done]. destruct (log !! k) as [cmd|] eqn:Hk; [|done]. destruct cmd as [op|?|?|?]; [|done..].
    destruct (sm_run _ _) as [st| |] eqn:Hr; [|done..]. intros (? & He & ?). exists st, op. split_and!; [|done|done].
    apply lookup_lt_Some in Hk as Hlt. split_and!; [exists log; split_and!; [done|lia|done]|by exists log|apply He..].
  - intros (st & op & ((log & Hl & _ & Hr) & (log' & Hl' & Hk) & He) & ? & ?). rewrite Hl. assert (log' = log) as -> by congruence.
    by rewrite Hk, Hr.
Qed.

Lemma effective_serves g e k : effective g e k → ∃ st, serves logs shard g k st (Z.of_nat e).
Proof. intros (st & op & (? & _ & [_ ?]) & <- & ?)%effective_iff. by exists st. Qed.

(** The positions before [k]. *)
Definition upto g e k : list (nat * nat) := (λ j, (e, j)) <$> filter (effective g e) (seq 0 k).

(** All in configuration [e], and in the configurations up to [N]. *)
Definition segment e : list (nat * nat) :=
  match holder e with Some g => upto g e (length (default [] (logs !! g))) | None => [] end.
Fixpoint timeline (N : nat) : list (nat * nat) :=
  match N with O => [] | S N => timeline N ++ segment (S N) end.

Lemma upto_S g e k : upto g e (S k) = upto g e k ++ (if decide (effective g e k) then [(e, k)] else []).
Proof.
  unfold upto. rewrite seq_S, filter_app, fmap_app. f_equal. rewrite filter_cons, filter_nil. simpl. by destruct (decide _).
Qed.

Lemma elem_of_upto x g e k : x ∈ upto g e k ↔ x.1 = e ∧ (x.2 < k)%nat ∧ effective g e x.2.
Proof.
  unfold upto. rewrite list_elem_of_fmap. setoid_rewrite list_elem_of_filter. setoid_rewrite elem_of_seq. split.
  - intros (j & -> & ? & ?). simpl. split_and!; [done|lia|done].
  - destruct x as [e' j]. simpl. intros (-> & ? & ?). exists j. split_and!; [done..|lia|lia].
Qed.

Lemma upto_none g e k k' : (k ≤ k')%nat → (∀ j, (k ≤ j < k')%nat → ¬ effective g e j) → upto g e k' = upto g e k.
Proof.
  intros Hle Hno. induction Hle as [|k' Hle IH]; [done|]. rewrite upto_S, decide_False by (apply Hno; lia).
  rewrite app_nil_r. apply IH. intros j Hj. apply Hno. lia.
Qed.

Lemma upto_sorted g e k : StronglySorted earlier (upto g e k).
Proof.
  induction k as [|k IH]; [constructor|]. rewrite upto_S. apply StronglySorted_app. split_and!; [|done|].
  - intros x y (Hx & Hlt & _)%elem_of_upto Hy. case_decide; [|by apply not_elem_of_nil in Hy].
    apply list_elem_of_singleton in Hy as ->. right. simpl. lia.
  - case_decide; repeat constructor.
Qed.

Lemma elem_of_segment x e : x ∈ segment e ↔ x.1 = e ∧ ∃ g, holder e = Some g ∧ effective g e x.2.
Proof.
  unfold segment. destruct (holder e) as [g|].
  - rewrite elem_of_upto. split; [intros (? & _ & ?); split; [done|by exists g]|]. intros (? & g' & [= <-] & He). split_and!; [done| |done].
    apply effective_iff in He as (st & op & (_ & (log & -> & Hk) & _) & _). by apply lookup_lt_Some in Hk.
  - split; [by intros ?%not_elem_of_nil|]. by intros (_ & ? & ? & _).
Qed.

Lemma elem_of_timeline x N : x ∈ timeline N ↔ (1 ≤ x.1 ≤ N)%nat ∧ ∃ g, holder x.1 = Some g ∧ effective g x.1 x.2.
Proof.
  induction N as [|N IH]; simpl; [split; [by intros ?%not_elem_of_nil|lia]|]. rewrite elem_of_app, IH, elem_of_segment. split.
  - intros [[? ?]|[Heq ?]]; [split; [lia|done]|]. rewrite Heq. split; [lia|done].
  - intros [? ?]. destruct (decide (x.1 = S N)) as [Heq|]; [right; rewrite <-Heq; done|left; split; [lia|done] ].
Qed.

Lemma timeline_sorted N : StronglySorted earlier (timeline N).
Proof.
  induction N as [|N IH]; [constructor|]. simpl. apply StronglySorted_app. split_and!; [|done|].
  - intros x y [Hx _]%elem_of_timeline [Hy _]%elem_of_segment. left. lia.
  - unfold segment. destruct (holder (S N)); [apply upto_sorted|constructor].
Qed.

(** The operation at a position, and the state it finds. *)
Definition call_at (x : nat * nat) : option (Op * ShardKV) :=
  g ← holder x.1; log ← logs !! g;
  match log !! x.2, sm_run (fresh_group g) (take x.2 log) with
  | Some (COp op), Ret st => Some (op, st)
  | _, _ => None
  end.

Definition op_of (x : nat * nat) : Op := from_option fst (mkOp Get 0 0 "" "") (call_at x).
Definition event_of (x : nat * nat) : KvInput * KvOutput :=
  match call_at x with
  | Some (op, st) => (op_input op, op_output op (executeOp (Data st) op).2)
  | None => (op_input (op_of x), op_output (op_of x) "")
  end.

Lemma effect_at g k st op e :
  effect logs g k st op → Key op = key → epoch st = Z.of_nat e →
  (1 ≤ e)%nat ∧ effective g e k ∧ holder e = Some g ∧ call_at (e, k) = Some (op, st).
Proof using Hfam.
  intros He Hk Hep. pose proof He as (Hr & (log & Hl & Hlk) & [_ Hin]).
  assert (serves logs shard g k st (Z.of_nat e)) as Hs by (split_and!; [done|by rewrite <-Hk|done]).
  pose proof (serves_holder _ _ _ _ Hs) as Hh. destruct (serves_owner _ _ Hfam _ _ _ _ _ Hs) as (Hpos & _).
  split_and!; [lia|apply effective_iff; by exists st, op|done|]. destruct Hr as (log' & Hl' & _ & Hr). assert (log' = log) as -> by congruence.
  unfold call_at. cbn [fst snd]. rewrite Hh. simpl. rewrite Hl. simpl. by rewrite Hlk, Hr.
Qed.

Lemma timeline_effect x N :
  x ∈ timeline N →
  ∃ g st op, effect logs g x.2 st op ∧ Key op = key ∧ epoch st = Z.of_nat x.1 ∧ op_of x = op ∧
    event_of x = (op_input op, op_output op (executeOp (Data st) op).2).
Proof using Hfam.
  intros (_ & g & _ & (st & op & He & Hk & Hep)%effective_iff)%elem_of_timeline.
  destruct (effect_at _ _ _ _ _ He Hk Hep) as (_ & _ & _ & Hc). destruct x as [e k]. exists g, st, op.
  unfold op_of, event_of. cbn [fst snd] in *. rewrite Hc. done.
Qed.

(** ** The key as a register *)

Notation accepted l := (accepts KvModel_Step KvModel_Init (event_of <$> l) = true).
Notation value_after l := (final KvModel_Step KvModel_Init (event_of <$> l)).

Definition register_at l st : Prop := accepted l ∧ value_after l = default "" (Data st !! key).

Lemma effective_op g e k op : effective g e k → command_at logs g k (COp op) → Key op = key.
Proof. intros (st & op' & (_ & Hc & _) & Hk & _)%effective_iff Hc'. by injection (command_det _ _ _ _ _ Hc Hc') as <-. Qed.

(** A command of the group while it serves the key. *)
Lemma register_next l g e k st st' :
  serves logs shard g k st (Z.of_nat e) → serves logs shard g (S k) st' (Z.of_nat e) →
  register_at (l ++ upto g e k) st → register_at (l ++ upto g e (S k)) st'.
Proof using Hfam Hgood.
  intros (Hr & Hin & He) (Hr' & Hin' & He') [Hacc Hfin]. rewrite upto_S, app_assoc.
  destruct (reaches_prev _ _ Hfam g k st' Hr') as (cmd & st1 & Hcmd & Hr1 & Hwf & Hok & Hn).
  rewrite (reaches_det _ _ _ _ _ Hr1 Hr) in *. clear st1 Hr1.
  destruct (exec_cases st cmd st' shard Hwf Hok Hn) as [E _ Hd Hno|op -> Hop Hk E _ Hd _|new -> HN E _ _ _|m _ _ Hno _ _ _ _ _].
  - rewrite decide_False; [rewrite app_nil_r; split; [done|by rewrite Hd]|].
    intros (st1 & op & (Hr1 & Hc & Hop) & Hk & _)%effective_iff. rewrite (reaches_det _ _ _ _ _ Hr1 Hr) in Hop.
    apply (Hno op); [by eapply command_det|done|by rewrite Hk].
  - destruct (decide (Key op = key)) as [Hkey|Hkey].
    + assert (effect logs g k st op) as Heff by done. destruct (effect_at _ _ _ _ _ Heff Hkey He) as (_ & Hyes & _ & Hc).
      rewrite decide_True by done. unfold register_at. rewrite fmap_app, accepts_app, final_app, Hacc, Hfin. simpl.
      unfold event_of. rewrite Hc. rewrite <-Hkey, Hd, register_step by by eapply Hgood. done.
    + rewrite decide_False by (intros Hy; apply Hkey; by eapply effective_op). rewrite app_nil_r. split; [done|].
      by rewrite Hd, executeOp_other.
  - rewrite E, HN in He'. lia.
  - done.
Qed.

Lemma register_serves l g e k0 st0 k st :
  (k0 ≤ k)%nat → serves logs shard g k0 st0 (Z.of_nat e) → serves logs shard g k st (Z.of_nat e) →
  register_at (l ++ upto g e k0) st0 → register_at (l ++ upto g e k) st.
Proof using Hfam Hgood.
  intros Hle Hs0 Hs Hreg. revert st Hs. induction Hle as [|k Hle IH]; intros st Hs.
  { destruct Hs0 as [Hr0 _], Hs as [Hr _]. by rewrite (reaches_det _ _ _ _ _ Hr Hr0). }
  pose proof Hs as (Hr & _ & He). destruct (reaches_prev _ _ Hfam g k st Hr) as (cmd & st1 & _ & Hr1 & _).
  destruct (reaches_mono _ _ Hfam g k (S k) st1 st ltac:(lia) Hr1 Hr) as [Hle1 _].
  pose proof (serves_stays _ _ Hfam _ _ _ _ _ _ _ Hle Hs0 Hr1 ltac:(lia)) as Hs1. eapply register_next; [exact Hs1|done|by apply IH].
Qed.

(** Nothing takes effect after the group has left the configuration. *)
Lemma segment_left g k st e : leaves logs shard g k st (Z.of_nat e) → segment e = upto g e k.
Proof using Hfam.
  intros Hl. pose proof Hl as [Hs _]. unfold segment. rewrite (serves_holder _ _ _ _ Hs). destruct Hs as [(log & -> & Hk & _) _]. simpl.
  apply upto_none; [done|]. intros j Hj (st' & op & Heff & Hkey & He)%effective_iff. subst key.
  pose proof (effect_leaves _ _ Hfam _ _ _ _ _ _ _ _ Heff He Hl). lia.
Qed.

(** What the key holds is what the register holds. *)
Lemma register_value g k st e : serves logs shard g k st (Z.of_nat (S e)) → register_at (timeline e ++ upto g (S e) k) st.
Proof using Hfam Hgood.
  revert g k st. induction e as [e IH] using lt_wf_ind. intros g k st Hs.
  destruct (serves_entered _ _ Hfam _ _ _ _ _ Hs) as (k0 & st0 & Hle & Hent). pose proof Hent as [Hs0 Hfirst].
  apply (register_serves _ g (S e) k0 st0 k st Hle Hs0 Hs).
  assert (upto g (S e) k0 = []) as ->.
  { apply (upto_none g (S e) 0 k0); [lia|]. intros j Hj (stj & Hsj)%effective_serves. pose proof Hsj as [Hrj _].
    by apply (Hfirst j stj ltac:(lia) Hrj). }
  rewrite app_nil_r. destruct (entered_from _ _ Hfam _ _ _ _ _ Hent) as [[He Hd]|(a & ka & sta & Hl & Hd & _)].
  - replace e with 0%nat by lia. split; [done|]. by rewrite Hd.
  - replace (Z.of_nat (S e) - 1) with (Z.of_nat e) in Hl by lia. pose proof Hl as [Hsa _].
    destruct (serves_owner _ _ Hfam _ _ _ _ _ Hsa) as (Hpos & _). destruct e as [|e]; [lia|].
    simpl. rewrite (segment_left _ _ _ _ Hl). destruct (IH e ltac:(lia) a ka sta Hsa) as [Hacc Hfin].
    split; [done|]. by rewrite Hfin, Hd.
Qed.

Lemma upto_accepted g e k : accepted (timeline e) → accepted (timeline e ++ upto g (S e) k).
Proof using Hfam Hgood.
  intros Hacc. induction k as [|k IH]; [by rewrite app_nil_r|]. rewrite upto_S. case_decide as Heff; [|by rewrite app_nil_r].
  rewrite app_assoc, fmap_app, accepts_app, IH. apply effective_iff in Heff as (st & op & Heff & Hk & He).
  destruct (effect_at _ _ _ _ _ Heff Hk He) as (_ & _ & _ & Hc). pose proof Heff as (Hr & Hcmd & [_ Hin]).
  destruct (register_value g k st e) as [_ ->]; [by split_and!; [|rewrite <-Hk|]|]. simpl. unfold event_of. rewrite Hc, <-Hk, register_step; [done|].
  by eapply Hgood.
Qed.

Lemma timeline_accepted N : accepted (timeline N).
Proof using Hfam Hgood.
  induction N as [|N IH]; [done|]. simpl. unfold segment. destruct (holder (S N)); [by apply upto_accepted|by rewrite app_nil_r].
Qed.

(** Every operation on the key that takes effect is there. *)
Lemma effect_listed g k st op N :
  effect logs g k st op → Key op = key → epoch st ≤ Z.of_nat N →
  (Z.to_nat (epoch st), k) ∈ timeline N ∧ op_of (Z.to_nat (epoch st), k) = op ∧
    event_of (Z.to_nat (epoch st), k) = (op_input op, op_output op (executeOp (Data st) op).2).
Proof using Hfam.
  intros Heff Hk HN. pose proof Heff as (Hr & _). destruct (reaches_config _ _ Hfam _ _ _ Hr) as [Hpos _].
  destruct (effect_at g k st op (Z.to_nat (epoch st)) Heff Hk ltac:(lia)) as (Hge & Heff' & Hh & Hc). split_and!.
  - apply elem_of_timeline. simpl. split; [lia|by exists g].
  - unfold op_of. by rewrite Hc.
  - unfold event_of. by rewrite Hc.
Qed.
End history.
