(* ===== verification/ShardCluster.v ===== *)
(** * The sharded service as a whole

    The shard controller and the replica groups together: the controller's
    servers (CtrlerSystem.v) answer queries with configurations; the servers of
    each group (ShardKvSystem.v) start the configurations they were given, ask
    the group that had a shard for it, and start the replies.  All messages
    between the controller and the groups, and between the groups, may be lost,
    delayed and delivered more than once: an answer once given stays available.

    The theorems: there is one sequence of configurations and one log per
    group, and whenever a group starts to serve a shard, it starts with exactly
    the keys and values of the shard that the group before it had when it
    stopped serving it, and remembers every call that group had executed
    ([shardkv_one_history]); in states with the same configuration no two
    groups serve the same shard ([shardkv_one_owner]).

    The servers take no snapshots, and the controller's clients send valid
    operations only ([valid_op]). *)

From Stdlib Require Import Strings.Byte.
From stdpp Require Import prelude gmap strings list sets.
From S2P Require Import Prelude Gob Raft RaftNode RaftServer RaftCommit RaftEvolve RaftApply RaftNet RaftElection RaftCluster RaftLog RaftOffice RaftSafety RaftSafetySteps RaftStateMachine ShardKv ShardKvProps Replicated ShardKvSystem.
From S2P Require ShardCtrler ShardCtrlerProps CtrlerSystem.
Local Open Scope Z_scope.

(** [cl_configs]: what the controller has answered queries with;
    [cl_replies]: what servers of a group have answered [MigrateShard] with. *)
Record Cluster := mkCluster {
  cl_ctrl : Sys ShardCtrler.Op ShardCtrler.ShardCtrler;
  cl_configs : list Config;
  cl_groups : gmap positive (Sys Command ShardKV);
  cl_replies : list (positive * MigrateShardReply);
}.

(** A shard the server has asked for, or would still ask for: the server is at
    a later configuration than [n], and if it is the next one, the shard is
    awaited or has already arrived.  So it was when the request was made, and
    it stays so ([exec_evolves]). *)
Definition requested (kv : ShardKV) (n i : Z) : Prop :=
  n < ShardCtrler.Num (kv_Config kv) - 1 ∨
  n = ShardCtrler.Num (kv_Config kv) - 1 ∧ (i ∈ MyShards kv ∨ is_Some (ShardDataReqs kv !! i)).

(** What the handlers and the goroutines of a server start: the operations [P]
    that clients ask for and collections at any time, the next configuration when no shard is
    awaited ([queryConfig]), a migration that the holder of the shard has
    answered ([tryReqShardData]). *)
Definition may_start (P : Op → Prop) (cl : Cluster) (kv : ShardKV) (c : Command) : Prop :=
  match c with
  | COp op => P op
  | CGC _ => True
  | CConfig c =>
      c ∈ cl_configs cl ∧ ShardCtrler.Num c = ShardCtrler.Num (kv_Config kv) + 1 ∧ size (ShardDataReqs kv) = 0%nat
  | CMigrate m =>
      ∃ holder config, config ∈ cl_configs cl ∧ owner config (mr_Shard m) = Z.pos holder ∧
        (holder, m) ∈ cl_replies cl ∧ mr_ErrWrongLeader m = false ∧
        mr_ConfigNum m = ShardCtrler.Num config ∧ requested kv (ShardCtrler.Num config) (mr_Shard m)
  end.

(** Any commands that were started. *)
Definition started (P : Op → Prop) (cl : Cluster) (c : Command) : Prop := ∃ kv, may_start P cl kv c.

Section cluster.
Context `{GobLaws Z} `{GobLaws (list (LogEntry Command))} `{GobLaws (list (LogEntry ShardCtrler.Op))}
  `{Gob (gmap string string)} `{Gob (gmap Z LastOperation)} `{Gob Config} `{Gob (gset Z)}
  `{Gob (gmap Z (gmap Z (gmap string string)))} `{Gob (gmap Z Z)} `{Gob (gmap Z (gset Z))}.
Context (P : Op → Prop).
Implicit Types (kv st : ShardKV) (cl : Cluster) (g : positive) (log : list Command).

Inductive cluster_step : Cluster → Cluster → Prop :=
  | cluster_ctrl ctrl ctrl' cs groups rs :
      CtrlerSystem.ctrl_step ShardCtrlerProps.valid_op ctrl ctrl' →
      cluster_step (mkCluster ctrl cs groups rs) (mkCluster ctrl' cs groups rs)
  | cluster_query ctrl cs groups rs i nd app id c :
      nodes (s_net ctrl) !! i = Some nd → s_apps ctrl !! i = Some app →
      CtrlerSystem.sc_answers (raft nd) (a_srv app) ShardCtrler.Query id (ShardCtrler.mkReply false c) →
      cluster_step (mkCluster ctrl cs groups rs) (mkCluster ctrl (cs ++ [c]) groups rs)
  | cluster_group ctrl cs groups rs g sys sys' :
      groups !! g = Some sys → sys_step (may_start P (mkCluster ctrl cs groups rs)) (-1, g) sys sys' →
      cluster_step (mkCluster ctrl cs groups rs) (mkCluster ctrl cs (<[g := sys']> groups) rs)
  | cluster_migrate ctrl cs groups rs g sys i nd app args :
      groups !! g = Some sys → nodes (s_net sys) !! i = Some nd → s_apps sys !! i = Some app →
      cluster_step (mkCluster ctrl cs groups rs)
        (mkCluster ctrl cs groups (rs ++ [(g, MigrateShard (set_rf (raft nd) (a_srv app)) args)])).

(** [n] servers each, nothing said yet. *)
Definition cluster_init (n : nat) cl : Prop :=
  sys_init () n (cl_ctrl cl) ∧ cl_configs cl = [] ∧ cl_replies cl = [] ∧
  ∀ g sys, cl_groups cl !! g = Some sys → sys_init (-1, g) n sys.

Definition cluster_reachable (n : nat) cl : Prop := ∃ cl0, cluster_init n cl0 ∧ rtc cluster_step cl0 cl.

(** ** The invariant *)

(** The controller, and where its answers come from. *)
Definition ctrl_ok (n : nat) cl : Prop :=
  ∃ T A Els, sys_inv (λ _, ShardCtrlerProps.valid_op) () n (cl_ctrl cl) T A Els ∧
    ∀ c, c ∈ cl_configs cl → ∃ sc r id hi, at_log () n T A hi sc ∧
      CtrlerSystem.sc_answers r sc ShardCtrler.Query id (ShardCtrler.mkReply false c).

(** A group, and where its replies come from. *)
Definition group_ok (n : nat) cl g (sys : Sys Command ShardKV) : Prop :=
  ∃ T A Els, sys_inv (may_start P cl) (-1, g) n sys T A Els ∧
    ∀ m, (g, m) ∈ cl_replies cl → ∃ kv r hi args, at_log (-1, g) n T A hi kv ∧ m = MigrateShard (set_rf r kv) args.

Record cluster_inv (n : nat) cl : Prop := mkClusterInv {
  ci_ctrl : ctrl_ok n cl;
  ci_groups g sys : cl_groups cl !! g = Some sys → group_ok n cl g sys;
  ci_replies g m : (g, m) ∈ cl_replies cl → is_Some (cl_groups cl !! g);
}.

(** What is started now may be started later. *)
Lemma may_start_mono cl cl' kv c :
  cl_configs cl ⊆ cl_configs cl' → cl_replies cl ⊆ cl_replies cl' → may_start P cl kv c → may_start P cl' kv c.
Proof.
  intros Hc Hr. destruct c as [op|c|m|gc]; simpl; [done|intros (? & ? & ?); auto| |done].
  intros (holder & config & ? & ? & ? & ? & ? & ?). exists holder, config. auto 10.
Qed.

(** An answered configuration is one of the controller's. *)
Lemma ctrl_configs_ok n cl :
  ctrl_ok n cl →
  ∃ ops (st : CtrlerSystem.CtrlState), Forall ShardCtrlerProps.valid_op ops ∧ CtrlerSystem.ctrl_run ops = Ret st ∧
    (∀ i app, s_apps (cl_ctrl cl) !! i = Some app → CtrlerSystem.sc_follows ops (a_srv app)) ∧
    ∀ c, c ∈ cl_configs cl → st.1 !! Z.to_nat (ShardCtrler.Num c) = Some c.
Proof.
  intros (T & A & Els & Hinv & Hans). destruct (list_choice _ _ Hans) as (ss & Hss & Hss').
  destruct (common_log (λ _, ShardCtrlerProps.valid_op) () n (s_net (cl_ctrl cl)) T A Els ((a_srv <$> s_apps (cl_ctrl cl)) ++ ss))
    as (ops & Hall & _ & Hv); [apply Hinv|apply Hinv| |].
  - apply Forall_app. split; [apply Forall_fmap, Forall_lookup; intros i app Ha; simpl|apply Forall_forall; intros sc Hsc].
    + destruct (sys_states _ _ _ _ _ _ _ _ _ Hinv Ha) as (nd & _ & Hat & _). by eexists.
    + destruct (Hss' sc Hsc) as (c & _ & r & id & hi & Hat & _). by exists hi.
  - assert (Forall ShardCtrlerProps.valid_op ops) as Hvalid by (eapply Forall_impl; [exact Hv|]; by intros op [_ ?]).
    destruct (CtrlerSystem.ctrl_run_wf ops Hvalid) as (st & Hr & _). exists ops, st.
    apply Forall_app in Hall as [Hsrv Hans']. rewrite Forall_fmap, Forall_lookup in Hsrv. rewrite Forall_forall in Hans'.
    split_and!; [done|done| |].
    + intros i app Ha. apply (Hsrv i app Ha).
    + intros c Hc. destruct (Hss c Hc) as (sc & Hin & r & id & hi & _ & Hansw). destruct (Hans' sc Hin) as [Hf _].
      pose proof (CtrlerSystem.answers_configs ops r sc id c Hvalid Hf Hansw) as Hk.
      eapply prefix_lookup_Some; [exact Hk|by eapply CtrlerSystem.follows_run].
Qed.

Lemma configs_shards n cl c : ctrl_ok n cl → c ∈ cl_configs cl → zlen (ShardCtrler.Shards c) = NShards.
Proof.
  intros Hok Hc. destruct (ctrl_configs_ok n cl Hok) as (ops & st & Hv & Hr & _ & Hin).
  destruct (CtrlerSystem.ctrl_run_wf ops Hv) as (st' & Hr' & Hwf & _). assert (st' = st) as -> by congruence.
  by eapply (ShardCtrlerProps.sw_shards _ Hwf), Hin.
Qed.

(** What an accepted reply says about the state it was given in. *)
Lemma MigrateShard_accepted kv r args :
  mr_ErrWrongLeader (MigrateShard (set_rf r kv) args) = false →
  let m := MigrateShard (set_rf r kv) args in
  stored (DataForMigration (core kv)) (mr_ConfigNum m) (mr_Shard m) = Some (mr_Data m) ∧
  mr_LastOperation m = LastOp (core kv).
Proof.
  unfold MigrateShard, cloneDataAndLastOperation. destruct (negb _); [done|]. destruct (_ >? _); [done|]. simpl.
  destruct (DataForMigration kv !! ma_ConfigNum args) as [ms|] eqn:Hms; [|done].
  destruct (ms !! ma_Shard args) as [d|] eqn:Hd; [|done]. simpl. intros _. unfold stored. by rewrite Hms, Hd.
Qed.

(** What a server may start, it may execute. *)
Lemma may_start_ok n cl kv c : cluster_inv n cl → may_start P cl kv c → sm_wf (sv_state kv) → sm_ok (sv_state kv) c.
Proof.
  change (cluster_inv n cl → may_start P cl kv c → kv_wf (core kv) → cmd_ok (core kv) c). intros [Hctrl Hgroups Hreps] Hs Hwf. destruct c as [op|c|m|gc]; simpl in Hs; [done| | |done].
  - destruct Hs as (Hc & HN & Hsz). split; [by eapply configs_shards|]. right. split; [done|]. by apply map_size_empty_iff.
  - destruct Hs as (g & config & _ & _ & Hm & Hacc & HN & Hreq). destruct (Hreps g m Hm) as [sys Hg].
    destruct (Hgroups g sys Hg) as (T & A & Els & Hinv & Hans). destruct (Hans m Hm) as (kv0 & r & hi & args & Hat & Heq).
    rewrite Heq in Hacc. pose proof (MigrateShard_accepted _ _ _ Hacc) as [Hst _]. rewrite <-Heq in Hst. cbv zeta in Hst.
    pose proof (at_log_wf _ _ _ _ _ _ _ (si_ops _ _ _ _ _ _ _ Hinv) Hat) as Hwf0. split.
    + by eapply (wf_stored _ Hwf0).
    + rewrite HN. exact Hreq.
Qed.

(** *** Steps *)

Lemma group_ok_mono n cl cl' g sys :
  cl_configs cl ⊆ cl_configs cl' → cl_replies cl ⊆ cl_replies cl' →
  (∀ m, (g, m) ∈ cl_replies cl' → (g, m) ∈ cl_replies cl) → group_ok n cl g sys → group_ok n cl' g sys.
Proof.
  intros Hc Hr Hr' (T & A & Els & Hinv & Hans). exists T, A, Els. split; [|by intros m Hm%Hr'; apply Hans].
  eapply sys_inv_weaken; [|exact Hinv]. intros s c. by apply may_start_mono.
Qed.

Lemma ctrl_step_inv n ctrl ctrl' cs groups rs :
  CtrlerSystem.ctrl_step ShardCtrlerProps.valid_op ctrl ctrl' → ctrl_ok n (mkCluster ctrl cs groups rs) → ctrl_ok n (mkCluster ctrl' cs groups rs).
Proof.
  intros Hstep (T & A & Els & Hinv & Hans).
  destruct (sys_inv_step (λ _, ShardCtrlerProps.valid_op) () CtrlerSystem.ctrl_guard _ _ _ _ _ _ Hstep Hinv) as (T' & A' & Els' & Hext & Hinv').
  exists T', A', Els'. split; [done|]. intros c Hc. destruct (Hans c Hc) as (sc & r & id & hi & Hat & ?).
  exists sc, r, id, hi. split; [|done]. by eapply at_log_extends.
Qed.

Lemma group_step_inv n cl g sys sys' :
  cluster_inv n cl → cl_groups cl !! g = Some sys → sys_step (may_start P cl) (-1, g) sys sys' → group_ok n cl g sys'.
Proof.
  intros Hcl Hg Hstep. destruct (ci_groups _ _ Hcl g sys Hg) as (T & A & Els & Hinv & Hans).
  destruct (sys_inv_step (may_start P cl) (-1, g) (λ kv c, may_start_ok n cl kv c Hcl) _ _ _ _ _ _ Hstep Hinv)
    as (T' & A' & Els' & Hext & Hinv').
  exists T', A', Els'. split; [done|]. intros m Hm. destruct (Hans m Hm) as (kv & r & hi & args & Hat & ?).
  exists kv, r, hi, args. split; [|done]. by eapply at_log_extends.
Qed.

Lemma cluster_inv_step n cl cl' : cluster_step cl cl' → cluster_inv n cl → cluster_inv n cl'.
Proof.
  intros Hstep Hinv. pose proof Hinv as [Hctrl Hgroups Hreps].
  destruct Hstep as [ctrl ctrl' cs groups rs Hs|ctrl cs groups rs i nd app id c Hi Ha Hans
    |ctrl cs groups rs g sys sys' Hg Hs|ctrl cs groups rs g sys i nd app args Hg Hi Ha]; simpl in *.
  - split; [by eapply ctrl_step_inv|exact Hgroups|done].
  - split; [|intros g sys Hg; eapply group_ok_mono; [| | |by apply Hgroups]; simpl; set_solver|done].
    destruct Hctrl as (T & A & Els & Hinv' & Hold). exists T, A, Els. split; [done|]. simpl.
    intros c' [Hc'|Hc']%elem_of_app; [by apply Hold|]. apply list_elem_of_singleton in Hc' as ->.
    destruct (sys_states _ _ _ _ _ _ _ _ _ Hinv' Ha) as (nd' & _ & Hat & _). by eexists _, _, _, _.
  - split; [exact Hctrl| |].
    + intros g' sys1 Hg'. simpl in Hg'. apply lookup_insert_Some in Hg' as [[<- <-]|[Hne Hg']]; [|by apply Hgroups].
      exact (group_step_inv n (mkCluster ctrl cs groups rs) g sys sys' Hinv Hg Hs).
    + simpl. intros g' m Hm. destruct (decide (g' = g)) as [->|]; [rewrite lookup_insert_eq; by eexists|].
      rewrite lookup_insert_ne by done. by eapply Hreps.
  - split; [exact Hctrl| |].
    + intros g' sys1 Hg'. simpl in Hg'. destruct (Hgroups g' sys1 Hg') as (T & A & Els & Hinv' & Hold).
      exists T, A, Els. split.
      { eapply sys_inv_weaken; [|exact Hinv']. intros s c. apply may_start_mono; simpl; set_solver. }
      simpl. intros m [Hm|Hm]%elem_of_app; [by apply Hold|]. apply list_elem_of_singleton in Hm as [= -> ->].
      assert (sys1 = sys) as -> by congruence.
      destruct (sys_states _ _ _ _ _ _ _ _ _ Hinv' Ha) as (nd' & _ & Hat & _). by eexists _, _, _, _.
    + simpl. intros g' m [Hm|Hm]%elem_of_app; [by eapply Hreps|]. apply list_elem_of_singleton in Hm as [= -> ->]. by eexists.
Qed.

Lemma cluster_inv_reachable n cl : cluster_reachable n cl → cluster_inv n cl.
Proof.
  intros (cl0 & (Hctrl & Hcs & Hrs & Hgroups) & Hsteps). assert (cluster_inv n cl0) as Hinv.
  { split.
    - destruct (sys_inv_init (λ _, ShardCtrlerProps.valid_op) () _ _ Hctrl) as (T & A & Els & Hinv).
      exists T, A, Els. split; [done|]. rewrite Hcs. by intros c ?%elem_of_nil.
    - intros g sys Hg. destruct (sys_inv_init (may_start P cl0) (-1, g) _ _ (Hgroups g sys Hg)) as (T & A & Els & Hinv).
      exists T, A, Els. split; [done|]. rewrite Hrs. by intros m ?%elem_of_nil.
    - rewrite Hrs. by intros g m ?%elem_of_nil. }
  clear Hctrl Hcs Hrs Hgroups. induction Hsteps as [|cl0 cl1 cl Hstep _ IH]; [done|]. by apply IH; eapply cluster_inv_step.
Qed.

(** ** One log for each group *)

(** The state of group [g] after the commands [log]. *)
Definition group_run g log : outcome ShardKV := sm_run (fresh_group g) log.

Definition group_follows g log kv : Prop := at_prefix (fresh_group g) log kv.

(** The log of a group: its servers follow it, and what it has answered to
    [MigrateShard] was answered at a prefix of it. *)
Record group_log cl g (sys : Sys Command ShardKV) log : Prop := mkGroupLog {
  gl_fit : fit (fresh_group g) log;
  gl_started c : c ∈ log → started P cl c;
  gl_servers i app : s_apps sys !! i = Some app → group_follows g log (a_srv app);
  gl_safe i app nd o : s_apps sys !! i = Some app → nodes (s_net sys) !! i = Some nd →
    handles_all (raft nd) (a_srv app) (a_chan app) o → ∃ kv', o = Ret kv';
  gl_replies m : (g, m) ∈ cl_replies cl → mr_ErrWrongLeader m = false →
    ∃ (x : nat) st, group_run g (take x log) = Ret st ∧ mr_LastOperation m = LastOp st ∧
      stored (DataForMigration st) (mr_ConfigNum m) (mr_Shard m) = Some (mr_Data m);
}.

Lemma group_has_log n cl g sys : cluster_inv n cl → cl_groups cl !! g = Some sys → ∃ log, group_log cl g sys log.
Proof.
  intros Hcl Hg. destruct (ci_groups _ _ Hcl g sys Hg) as (T & A & Els & Hinv & Hans).
  destruct (list_choice (λ (x : positive * MigrateShardReply) (kv : ShardKV), ∃ r hi args, at_log (-1, g) n T A hi kv ∧
    x.2 = MigrateShard (set_rf r kv) args) (filter (λ x, x.1 = g) (cl_replies cl))) as (ss & Hss & Hss').
  { intros [g' m] [Heq Hm]%list_elem_of_filter. simpl in Heq. subst g'. destruct (Hans m Hm) as (kv & r & hi & args & ?).
    by exists kv, r, hi, args. }
  destruct (common_log (may_start P cl) (-1, g) n (s_net sys) T A Els ((a_srv <$> s_apps sys) ++ ss))
    as (log & Hall & Hfit & Hst); [apply Hinv|apply Hinv| |].
  - apply Forall_app. split; [apply Forall_fmap, Forall_lookup; intros i app Ha; simpl|apply Forall_forall; intros kv Hkv].
    + destruct (sys_states _ _ _ _ _ _ _ _ _ Hinv Ha) as (nd & _ & Hat & _). by eexists.
    + destruct (Hss' kv Hkv) as (x & _ & r & hi & args & Hat & _). by exists hi.
  - apply Forall_app in Hall as [Hsrv Hrep]. rewrite Forall_fmap, Forall_lookup in Hsrv. rewrite Forall_forall in Hst. rewrite Forall_forall in Hrep.
    exists log. split; [exact Hfit|exact Hst|intros i app Ha; apply (Hsrv i app Ha)| |].
    { intros i app nd o Ha Hi Ho. destruct (sys_states _ _ _ _ _ _ _ _ _ Hinv Ha) as (nd' & Hi' & _ & Hch).
      assert (nd' = nd) as -> by congruence. destruct (Hch o Ho) as (kv' & -> & _). by exists kv'. }
    intros m Hm Hacc. destruct (Hss (g, m)) as (kv & Hkv & r & hi & args & _ & Heq); [by apply list_elem_of_filter|].
    simpl in Heq. subst m. destruct (MigrateShard_accepted _ _ _ Hacc) as [Hst' Hla].
    destruct (Hrep kv Hkv) as [[_ Hrun] _]. exists (Z.to_nat (LastApplied kv)), (core kv). split_and!; [exact Hrun|exact Hla|exact Hst'].
Qed.

(** The configuration of a state the log leads through is from the controller. *)
Lemma log_state_config cl g sys log (k : nat) st :
  group_log cl g sys log → group_run g (take k log) = Ret st →
  (kv_Config st = ShardCtrler.zeroConfig ∨ kv_Config st ∈ cl_configs cl) ∧ kv_wf st ∧ gid st = Z.pos g.
Proof.
  intros Hlog Hr. pose proof (fit_take _ _ k (gl_fit _ _ _ _ Hlog)) as Hf.
  destruct (run_wf g _ _ Hf Hr) as [Hwf Hgid]. split_and!; [|done|done].
  destruct (config_origin g _ _ Hf Hr) as [Hz|Hin]; [by left|right].
  destruct (gl_started _ _ _ _ Hlog (CConfig (kv_Config st))) as (kv & Hc & _); [|done].
  apply list_elem_of_lookup in Hin as (x & Hx). apply lookup_take_Some in Hx as [Hx _]. by eapply list_elem_of_lookup_2.
Qed.

(** Configurations of the controller with the same number are the same. *)
Lemma configs_agree n cl c1 c2 :
  cluster_inv n cl → c1 = ShardCtrler.zeroConfig ∨ c1 ∈ cl_configs cl →
  c2 = ShardCtrler.zeroConfig ∨ c2 ∈ cl_configs cl → ShardCtrler.Num c1 = ShardCtrler.Num c2 → c1 = c2.
Proof.
  intros Hcl Hc1 Hc2 HN. destruct (ctrl_configs_ok n cl (ci_ctrl _ _ Hcl)) as (ops & st & Hv & Hr & _ & Hcfg).
  destruct (CtrlerSystem.ctrl_run_wf ops Hv) as (st' & Hr' & Hwf & Hz & _). assert (st' = st) as -> by congruence.
  assert (∀ c, c = ShardCtrler.zeroConfig ∨ c ∈ cl_configs cl → st.1 !! Z.to_nat (ShardCtrler.Num c) = Some c) as Hall.
  { intros c [->|Hc]; [|by apply Hcfg]. apply list_elem_of_lookup in Hz as (k & Hk).
    pose proof (ShardCtrlerProps.sw_num _ Hwf k _ Hk) as HNk. by replace (Z.to_nat _) with k by lia. }
  pose proof (Hall _ Hc1). pose proof (Hall _ Hc2). congruence.
Qed.

(** *** The theorems *)

(** C5: the history of a shard across groups.  At all times there are one
    sequence of configurations [cfgs], which every answer of the controller is
    from and every server of the controller has a prefix of, and one log for
    each group, which all servers of the group have executed prefixes of without
    a panic; and when in its log a group [b] starts to serve a shard that it gets from
    another group, then that group [a] is the one the configuration before
    gave the shard, [a] has stopped serving it in its own log with the step to
    the same configuration, [b] starts with exactly the values the keys of the
    shard had in [a] until then, and remembers every call [a] had executed.
    The runs are those without snapshots (maxraftstate -1): with snapshots one
    log per group is not kept, because a server may acknowledge entries it has
    dropped (C30).  The clients of the controller send valid operations only,
    as in C10. *)
Theorem shardkv_one_history n cl :
  cluster_reachable n cl →
  ∃ (cfgs : list Config) (logs : gmap positive (list Command)),
    (∀ c, c ∈ cl_configs cl → cfgs !! Z.to_nat (ShardCtrler.Num c) = Some c) ∧
    (∀ i app, s_apps (cl_ctrl cl) !! i = Some app → ShardCtrler.configs (a_srv app) `prefix_of` cfgs) ∧
    (∀ g sys, cl_groups cl !! g = Some sys → ∃ log, logs !! g = Some log ∧
       ∀ i app, s_apps sys !! i = Some app → group_follows g log (a_srv app) ∧
         ∀ nd o, nodes (s_net sys) !! i = Some nd → handles_all (raft nd) (a_srv app) (a_chan app) o → ∃ kv', o = Ret kv') ∧
    (∀ b logb (k : nat) m stb stb', is_Some (cl_groups cl !! b) → logs !! b = Some logb → logb !! k = Some (CMigrate m) →
       group_run b (take k logb) = Ret stb → group_run b (take (S k) logb) = Ret stb' →
       mr_Shard m ∉ MyShards stb → mr_Shard m ∈ MyShards stb' →
       ∃ config a loga (k' : nat) sta sta',
         cfgs !! Z.to_nat (ShardCtrler.Num config) = Some config ∧ owner config (mr_Shard m) = Z.pos a ∧
         ShardCtrler.Num (kv_Config stb') = ShardCtrler.Num config + 1 ∧
         logs !! a = Some loga ∧ group_run a (take k' loga) = Ret sta ∧ group_run a (take (S k') loga) = Ret sta' ∧
         ShardCtrler.Num (kv_Config sta) = ShardCtrler.Num config ∧
         ShardCtrler.Num (kv_Config sta') = ShardCtrler.Num config + 1 ∧
         mr_Shard m ∈ MyShards sta ∧ mr_Shard m ∉ MyShards sta' ∧
         (∀ key, key2shard key = mr_Shard m → Data stb' !! key = Data sta !! key) ∧
         covers (LastOp sta) (LastOp stb')).
Proof.
  intros Hcl%cluster_inv_reachable. destruct (ctrl_configs_ok n cl (ci_ctrl _ _ Hcl)) as (ops & st & Hv & Hr & Hsrv & Hcfg).
  destruct (map_choice (λ g sys log, group_log cl g sys log) (cl_groups cl)) as [logs Hlogs]; [by intros; eapply group_has_log|].
  exists st.1, logs. split_and!; [done|intros i app Ha; by eapply CtrlerSystem.follows_run, Hr; [|eapply Hsrv]| |].
  { intros g sys Hg. destruct (Hlogs g sys Hg) as (log & ? & Hl). exists log. split; [done|].
    intros i app Happ. split; [by apply (gl_servers _ _ _ _ Hl i)|]. intros nd o. by apply (gl_safe _ _ _ _ Hl i). }
  intros b logb k m stb stb' [sysb Hb] Hlb Hk Hrb Hrb' Hno Hin.
  destruct (Hlogs b sysb Hb) as (? & Heq & Hlogb). assert (x = logb) as -> by congruence. clear Heq.
  destruct (gl_started _ _ _ _ Hlogb (CMigrate m)) as (kv & a & config & Hc & Ho & Hm & Hacc & HN & _); [by eapply list_elem_of_lookup_2|].
  destruct (ci_replies _ _ Hcl a m Hm) as [sysa Ha]. destruct (Hlogs a sysa Ha) as (loga & Hla & Hloga).
  destruct (fit_next (H := group_machine) _ _ k _ (fresh_group_wf b) (gl_fit _ _ _ _ Hlogb) Hk) as (st1 & st2 & Hr1 & Hwf1 & Hok1 & Hn & Hr2).
  unfold group_run in Hrb, Hrb'. assert (st1 = stb) as -> by congruence. assert (st2 = stb') as -> by congruence.
  destruct (migrate_serves stb m stb' Hwf1 Hok1 Hn Hno Hin) as (Hnum & Hcb & _ & Hdata & _ & Hcov & _).
  destruct (gl_replies _ _ _ _ Hloga m Hm Hacc) as (x & stx & Hrx & HL & Hst).
  pose proof (fit_take _ _ x (gl_fit _ _ _ _ Hloga)) as Hfx.
  destruct (stored_origin a _ _ _ _ _ Hfx Hrx Hst) as (k' & c & sta & sta' & Hk' & Hra & Hra' & E1 & E2 & E3 & E4 & E5 & E6 & E7 & E8).
  apply lookup_take_Some in Hk' as [Hk' Hlt]. rewrite take_take, Nat.min_l in Hra, Hra' by lia.
  exists config, a, loga, k', sta, sta'. split_and!; try done; [by apply Hcfg|by rewrite Hcb; lia|congruence|congruence| |].
  - intros key Hkey. rewrite Hdata by done. rewrite E7. apply option_eq. intros v. rewrite map_lookup_filter_Some. simpl. tauto.
  - by rewrite E8, <-HL.
Qed.

(** C17: one owner.  There is one log for each group that all its servers have
    executed prefixes of, such that two states that the logs of two groups lead
    through, and so the states of their servers, however far behind they are,
    that are at configurations of the same number are at the same
    configuration, and no shard is served in both.  The runs are those of C5:
    no snapshots, valid operations for the controller. *)
Theorem shardkv_one_owner n cl :
  cluster_reachable n cl →
  ∃ logs : gmap positive (list Command),
    (∀ g sys i app, cl_groups cl !! g = Some sys → s_apps sys !! i = Some app →
       ∃ log, logs !! g = Some log ∧ group_follows g log (a_srv app)) ∧
    (∀ g1 g2 log1 log2 (k1 k2 : nat) st1 st2,
       is_Some (cl_groups cl !! g1) → is_Some (cl_groups cl !! g2) → logs !! g1 = Some log1 → logs !! g2 = Some log2 →
       group_run g1 (take k1 log1) = Ret st1 → group_run g2 (take k2 log2) = Ret st2 →
       ShardCtrler.Num (kv_Config st1) = ShardCtrler.Num (kv_Config st2) →
       kv_Config st1 = kv_Config st2 ∧ ∀ i, i ∈ MyShards st1 → i ∈ MyShards st2 → g1 = g2) ∧
    (∀ g1 g2 sys1 sys2 i1 i2 app1 app2,
       cl_groups cl !! g1 = Some sys1 → cl_groups cl !! g2 = Some sys2 →
       s_apps sys1 !! i1 = Some app1 → s_apps sys2 !! i2 = Some app2 →
       ShardCtrler.Num (kv_Config (a_srv app1)) = ShardCtrler.Num (kv_Config (a_srv app2)) →
       kv_Config (a_srv app1) = kv_Config (a_srv app2) ∧
       ∀ i, i ∈ MyShards (a_srv app1) → i ∈ MyShards (a_srv app2) → g1 = g2).
Proof.
  intros Hcl%cluster_inv_reachable.
  destruct (map_choice (λ g sys log, group_log cl g sys log) (cl_groups cl)) as [logs Hlogs]; [by intros; eapply group_has_log|].
  assert (∀ g1 g2 log1 log2 (k1 k2 : nat) st1 st2,
       is_Some (cl_groups cl !! g1) → is_Some (cl_groups cl !! g2) → logs !! g1 = Some log1 → logs !! g2 = Some log2 →
       group_run g1 (take k1 log1) = Ret st1 → group_run g2 (take k2 log2) = Ret st2 →
       ShardCtrler.Num (kv_Config st1) = ShardCtrler.Num (kv_Config st2) →
       kv_Config st1 = kv_Config st2 ∧ ∀ i, i ∈ MyShards st1 → i ∈ MyShards st2 → g1 = g2) as Hstates.
  { intros g1 g2 log1 log2 k1 k2 st1 st2 [sys1 Hg1] [sys2 Hg2] Hl1 Hl2 Hr1 Hr2 HN.
    destruct (Hlogs _ _ Hg1) as (log1' & ? & Hlog1), (Hlogs _ _ Hg2) as (log2' & ? & Hlog2). simplify_eq.
    destruct (log_state_config _ _ _ _ _ _ Hlog1 Hr1) as (Hc1 & Hwf1 & Hgid1).
    destruct (log_state_config _ _ _ _ _ _ Hlog2 Hr2) as (Hc2 & Hwf2 & Hgid2).
    pose proof (configs_agree n cl _ _ Hcl Hc1 Hc2 HN) as Heq. split; [done|]. intros i Hi1 Hi2.
    destruct (wf_owned _ Hwf1 i) as [Ho1 _]. destruct Ho1 as [_ Ho1]; [by left|].
    destruct (wf_owned _ Hwf2 i) as [Ho2 _]. destruct Ho2 as [_ Ho2]; [by left|]. rewrite Heq in Ho1. congruence. }
  assert (∀ g sys i app, cl_groups cl !! g = Some sys → s_apps sys !! i = Some app →
       ∃ log, logs !! g = Some log ∧ group_follows g log (a_srv app)) as Hservers.
  { intros g sys i app Hg Ha. destruct (Hlogs g sys Hg) as (log & Hl & Hlog). exists log. split; [done|].
    by apply (gl_servers _ _ _ _ Hlog i app). }
  exists logs. split_and!; [done|done|]. intros g1 g2 sys1 sys2 i1 i2 app1 app2 Hg1 Hg2 Ha1 Ha2 HN.
  destruct (Hservers _ _ _ _ Hg1 Ha1) as (log1 & Hl1 & _ & Hr1), (Hservers _ _ _ _ Hg2 Ha2) as (log2 & Hl2 & _ & Hr2).
  exact (Hstates g1 g2 log1 log2 _ _ _ _ (mk_is_Some _ _ Hg1) (mk_is_Some _ _ Hg2) Hl1 Hl2 Hr1 Hr2 HN).
Qed.
End cluster.
