(* ===== verification/ShardLogs.v ===== *)
(** * The logs of the groups as they grow

    The sharded service of ShardCluster.v with the log every group has agreed
    on so far ([cluster_logs]): steps extend the logs ([cluster_logs_step]), and
    at any time the logs are as ShardTimeline.v needs them ([logs_family]): what
    is in them was started, and what a group was handed, and the calls it was
    told of, come from the logs of the others. *)

From Stdlib Require Import Strings.Byte.
From stdpp Require Import prelude gmap strings list sets.
From S2P Require Import Prelude Gob Raft RaftNode RaftServer RaftCommit RaftEvolve RaftApply RaftNet RaftElection RaftCluster RaftLog RaftOffice RaftSafety RaftSafetySteps RaftStateMachine ShardKv ShardKvProps Replicated ShardKvSystem ShardTimeline ShardCluster.
From S2P Require ShardCtrler ShardCtrlerProps CtrlerSystem.
Local Open Scope Z_scope.

Section logs.
Context `{GobLaws Z} `{GobLaws (list (LogEntry Command))} `{GobLaws (list (LogEntry ShardCtrler.Op))}
  `{Gob (gmap string string)} `{Gob (gmap Z LastOperation)} `{Gob Config} `{Gob (gset Z)}
  `{Gob (gmap Z (gmap Z (gmap string string)))} `{Gob (gmap Z Z)} `{Gob (gmap Z (gset Z))}.
Implicit Types (kv st : ShardKV) (cl : Cluster) (g : positive) (log : list Command) (P : Op → Prop).
Implicit Types (logs : gmap positive (list Command)).

(** ** Fewer operations *)

Lemma may_start_weaken P Q cl kv c : (∀ op, P op → Q op) → may_start P cl kv c → may_start Q cl kv c.
Proof. intros HPQ. destruct c; simpl; [apply HPQ|done..]. Qed.

Lemma cluster_inv_weaken P Q n cl : (∀ op, P op → Q op) → cluster_inv P n cl → cluster_inv Q n cl.
Proof.
  intros HPQ [Hc Hg Hr]. split; [done| |done]. intros g sys Hs. destruct (Hg g sys Hs) as (T & A & Els & Hinv & Hans).
  exists T, A, Els. split; [|done]. eapply sys_inv_weaken; [|exact Hinv]. intros kv c. by apply may_start_weaken.
Qed.

(** ** The invariant *)

(** [log]: what the group has agreed on; its servers have executed prefixes. *)
Definition agreed P n cl g (sys : Sys Command ShardKV) log : Prop :=
  ∃ T A Els, sys_inv (may_start P cl) (-1, g) n sys T A Els ∧ is_log n T A log ∧
    ∀ i app, s_apps sys !! i = Some app → group_follows g log (a_srv app).

Record cluster_logs P n cl logs : Prop := mkClusterLogs {
  cg_inv : cluster_inv P n cl;
  cg_agreed g sys : cl_groups cl !! g = Some sys → ∃ log, logs !! g = Some log ∧ agreed P n cl g sys log;
  cg_groups g : is_Some (logs !! g) → is_Some (cl_groups cl !! g);
  cg_replies g m : (g, m) ∈ cl_replies cl → mr_ErrWrongLeader m = false →
    ∃ k st, reaches logs g k st ∧ stored (DataForMigration st) (mr_ConfigNum m) (mr_Shard m) = Some (mr_Data m) ∧
      mr_LastOperation m = LastOp st;
  cg_origin g m client lo : (g, m) ∈ cl_replies cl → mr_ErrWrongLeader m = false → mr_LastOperation m !! client = Some lo →
    origin logs client lo;
}.

Lemma logs_agreed P n cl logs g log :
  cluster_logs P n cl logs → logs !! g = Some log → fit (fresh_group g) log ∧ ∀ c, c ∈ log → started P cl c.
Proof.
  intros Hcl Hl. destruct (cg_groups _ _ _ _ Hcl g) as [sys Hs]; [by eexists|].
  destruct (cg_agreed _ _ _ _ Hcl g sys Hs) as (log' & Hl' & T & A & Els & Hinv & Hlog & _). assert (log' = log) as -> by congruence.
  destruct (is_log_fit _ _ n T A log (sv_init_wf (-1, g)) (si_ops _ _ _ _ _ _ _ Hinv) Hlog) as [Hf Hst].
  split; [exact Hf|]. rewrite Forall_forall in Hst. exact Hst.
Qed.

(** The state of a server is in the log of its group. *)
Lemma server_reaches P n cl logs g sys i app :
  cluster_logs P n cl logs → cl_groups cl !! g = Some sys → s_apps sys !! i = Some app →
  ∃ k, reaches logs g k (core (a_srv app)).
Proof.
  intros Hcl Hg Ha. destruct (cg_agreed _ _ _ _ Hcl g sys Hg) as (log & Hl & _ & _ & _ & _ & _ & Hf).
  destruct (Hf i app Ha) as [Hlen Hr]. exists (Z.to_nat (sv_applied (a_srv app))), log. split_and!; [done|lia|exact Hr].
Qed.

Lemma configs_unique n cl c c' :
  ctrl_ok n cl → c ∈ cl_configs cl → c' ∈ cl_configs cl → ShardCtrler.Num c = ShardCtrler.Num c' → c = c'.
Proof.
  intros Hok Hc Hc' HN. destruct (ctrl_configs_ok n cl Hok) as (ops & st & _ & _ & _ & Hcfg).
  pose proof (Hcfg c Hc) as E. rewrite HN, (Hcfg c' Hc') in E. congruence.
Qed.

Lemma logs_family P n cl logs : cluster_logs P n cl logs → family logs (cl_configs cl).
Proof.
  intros Hcl. split.
  - intros g log Hl. by apply (logs_agreed _ _ _ _ _ _ Hcl).
  - intros g log c Hl Hc. destruct (logs_agreed _ _ _ _ _ _ Hcl Hl) as [_ Hst]. by destruct (Hst _ Hc) as (kv & ? & _).
  - intros c c'. by eapply configs_unique, cg_inv.
  - intros g log m Hl Hm. destruct (logs_agreed _ _ _ _ _ _ Hcl Hl) as [_ Hst].
    destruct (Hst _ Hm) as (kv & a & config & Hc & Ho & Hr & Hacc & HN & _). destruct (cg_replies _ _ _ _ Hcl a m Hr Hacc) as (k & st & ? & ? & ?).
    by exists a, k, st, config.
  - intros g log m client lo Hl Hm. destruct (logs_agreed _ _ _ _ _ _ Hcl Hl) as [_ Hst].
    destruct (Hst _ Hm) as (kv & a & config & _ & _ & Hr & Hacc & _). by eapply cg_origin.
Qed.

Lemma logs_operation P n cl logs g k op : cluster_logs P n cl logs → command_at logs g k (COp op) → P op.
Proof.
  intros Hcl (log & Hl & Hc). destruct (logs_agreed _ _ _ _ _ _ Hcl Hl) as [_ Hst].
  by destruct (Hst (COp op)) as (kv & ?); [by eapply list_elem_of_lookup_2|].
Qed.

(** *** Steps *)

Lemma agreed_mono P n cl cl' g sys log :
  cl_configs cl ⊆ cl_configs cl' → cl_replies cl ⊆ cl_replies cl' → agreed P n cl g sys log → agreed P n cl' g sys log.
Proof.
  intros Hc Hr (T & A & Els & Hinv & ?). exists T, A, Els. split; [|done].
  eapply sys_inv_weaken; [|exact Hinv]. intros kv c. by apply may_start_mono.
Qed.

Lemma cluster_logs_weaken P Q n cl logs : (∀ op, P op → Q op) → cluster_logs P n cl logs → cluster_logs Q n cl logs.
Proof.
  intros HPQ [Hi Ha Hg Hr Ho]. split; [by eapply cluster_inv_weaken| |done..].
  intros g sys Hs. destruct (Ha g sys Hs) as (log & Hl & T & A & Els & Hinv & ?). exists log. split; [done|]. exists T, A, Els.
  split; [|done]. eapply sys_inv_weaken; [|exact Hinv]. intros kv c. by apply may_start_weaken.
Qed.

(** The group agrees on more. *)
Lemma agreed_step P n cl g sys sys' log :
  cluster_inv P n cl → agreed P n cl g sys log → sys_step (may_start P cl) (-1, g) sys sys' →
  ∃ log', log `prefix_of` log' ∧ agreed P n cl g sys' log'.
Proof.
  intros Hcl (T & A & Els & Hinv & Hlog & _) Hstep.
  destruct (sys_inv_step (may_start P cl) (-1, g) (λ kv c, may_start_ok P n cl kv c Hcl) _ _ _ _ _ _ Hstep Hinv)
    as (T' & A' & Els' & Hext & Hinv').
  destruct (sys_furthest _ _ _ _ _ _ _ log Hinv') as (log' & Hlog' & Hp & _ & _ & Hf); [by eapply is_log_extends|].
  exists log'. split; [done|]. by exists T', A', Els'.
Qed.

Lemma grown_insert logs g log log' : logs !! g = Some log → log `prefix_of` log' → grown logs (<[g := log']> logs).
Proof.
  intros Hl Hp g' l Hl'. destruct (decide (g' = g)) as [->|Hne].
  - exists log'. rewrite lookup_insert_eq. split; [done|]. congruence.
  - exists l. by rewrite lookup_insert_ne.
Qed.

Lemma logs_group P n ctrl cs groups rs g sys sys' logs :
  let cl := mkCluster ctrl cs groups rs in let cl' := mkCluster ctrl cs (<[g := sys']> groups) rs in
  cluster_inv P n cl' → groups !! g = Some sys → sys_step (may_start P cl) (-1, g) sys sys' → cluster_logs P n cl logs →
  ∃ logs', grown logs logs' ∧ cluster_logs P n cl' logs'.
Proof.
  intros cl cl' Hinv' Hg Hstep Hcl. destruct (cg_agreed _ _ _ _ Hcl g sys Hg) as (log & Hl & Hag).
  destruct (agreed_step _ _ _ _ _ _ _ (cg_inv _ _ _ _ Hcl) Hag Hstep) as (log' & Hp & Hag').
  pose proof (grown_insert _ _ _ _ Hl Hp) as Hgr. exists (<[g := log']> logs). split; [done|].
  destruct Hcl as [_ Ha Hd Hr Ho]. split; [done| | | |].
  - intros g' sys1. simpl. intros [[<- <-]|[Hne Hg']]%lookup_insert_Some.
    + exists log'. rewrite lookup_insert_eq. split; [done|exact Hag'].
    + rewrite lookup_insert_ne by done. destruct (Ha g' sys1 Hg') as (log1 & ? & Hag1). exists log1. split; [done|exact Hag1].
  - intros g' Hs. simpl. destruct (decide (g' = g)) as [->|Hne]; [rewrite lookup_insert_eq; by eexists|].
    rewrite lookup_insert_ne in Hs by done. rewrite lookup_insert_ne by done. by apply Hd.
  - intros g' m Hm Hacc. destruct (Hr g' m Hm Hacc) as (k & st & ? & ? & ?). exists k, st. split_and!; [by eapply reaches_grown|done|done].
  - intros g' m client lo Hm Hacc Hlo. eapply origin_grown; [done|by eapply Ho].
Qed.

Lemma logs_reply P n ctrl cs groups rs g sys i nd app args logs :
  let cl := mkCluster ctrl cs groups rs in
  let cl' := mkCluster ctrl cs groups (rs ++ [(g, MigrateShard (set_rf (raft nd) (a_srv app)) args)]) in
  cluster_inv P n cl' → groups !! g = Some sys → s_apps sys !! i = Some app → cluster_logs P n cl logs → cluster_logs P n cl' logs.
Proof.
  intros cl cl' Hinv' Hg Happ Hcl. destruct (server_reaches _ _ _ _ _ _ _ _ Hcl Hg Happ) as (k & Hr).
  pose proof (logs_family _ _ _ _ Hcl) as Hfam. pose proof Hcl as [_ Hag Hd Hrep Hor]. split; [done| |done| |].
  - intros g' sys1 Hg'. destruct (Hag g' sys1 Hg') as (log & ? & ?). exists log. split; [done|].
    eapply agreed_mono; [| |done]; simpl; set_solver.
  - simpl. intros g' m [Hm|Hm]%elem_of_app Hacc; [by apply Hrep|]. apply list_elem_of_singleton in Hm as [= -> ->].
    exists k, (core (a_srv app)). by destruct (MigrateShard_accepted _ _ _ Hacc).
  - simpl. intros g' m client lo [Hm|Hm]%elem_of_app Hacc Hlo; [by eapply Hor|]. apply list_elem_of_singleton in Hm as [= -> ->].
    destruct (MigrateShard_accepted _ _ _ Hacc) as [_ HL]. cbv zeta in HL. rewrite HL in Hlo. by eapply (entry_origin _ _ Hfam).
Qed.

Lemma cluster_logs_step P n cl cl' logs :
  cluster_step P cl cl' → cluster_logs P n cl logs → ∃ logs', grown logs logs' ∧ cluster_logs P n cl' logs'.
Proof.
  intros Hstep Hcl. pose proof (cluster_inv_step _ _ _ _ Hstep (cg_inv _ _ _ _ Hcl)) as Hinv'.
  destruct Hstep as [ctrl ctrl' cs groups rs Hs|ctrl cs groups rs i nd app id c Hi Ha Hans
    |ctrl cs groups rs g sys sys' Hg Hs|ctrl cs groups rs g sys i nd app args Hg Hi Ha].
  - exists logs. split; [done|]. destruct Hcl. by split.
  - exists logs. split; [done|]. destruct Hcl as [_ Hag Hd Hr Ho]. split; [done| |done..].
    intros g sys Hg. destruct (Hag g sys Hg) as (log & ? & ?). exists log. split; [done|].
    eapply agreed_mono; [| |done]; simpl; set_solver.
  - by eapply logs_group.
  - exists logs. split; [done|]. by eapply logs_reply.
Qed.

Lemma cluster_logs_init P n cl : cluster_init n cl → ∃ logs, cluster_logs P n cl logs.
Proof.
  intros Hinit. assert (cluster_inv P n cl) as Hinv by (apply cluster_inv_reachable; by exists cl).
  pose proof Hinit as (_ & _ & Hrs & Hsys). exists ((λ _, []) <$> cl_groups cl). split; [done| | |by rewrite Hrs; intros g m ?%elem_of_nil|].
  - intros g sys Hg. exists []. rewrite lookup_fmap, Hg. split; [done|].
    destruct (sys_inv_init (may_start P cl) (-1, g) _ _ (Hsys g sys Hg)) as (T & A & Els & Hs). exists T, A, Els.
    split_and!; [done|apply is_log_nil|]. intros i app Ha. destruct (Hsys g sys Hg) as (_ & _ & Happs).
    destruct (Happs i app Ha) as (_ & p' & Hstart & Hp). destruct (sv_start_fresh _ _ MakePersister _ _ eq_refl Hstart) as [Hla Hst].
    unfold group_follows, at_prefix. rewrite Hla, Hst, Hp. split; [simpl; lia|done].
  - intros g. rewrite lookup_fmap. intros [x Hx]. by destruct (cl_groups cl !! g).
  - rewrite Hrs. by intros g m client lo ?%elem_of_nil.
Qed.
End logs.
