(* ===== verification/ShardKvLinear.v ===== *)
(** * Histories of the sharded key/value service

    The test of src/src/shardkv/test_test.go that checks linearizability wraps
    every call of a clerk in two readings of the clock and records it.  Here the
    sharded service of ShardCluster.v runs with a clock and the clients of
    Clients.v, while configurations change and shards move; any server of any
    group may answer.  Once no call is running, the recorded history is
    linearizable ([shardkv_linearizable]): that of each key is, because the
    operations on the key take effect in one order across the groups
    (ShardHistory.v), and linearizability is local (Locality.v). *)

From Stdlib Require Import Strings.Byte.
From stdpp Require Import prelude gmap strings list sets sorting.
From S2P Require Import Prelude Gob Raft RaftNode RaftServer RaftNet RaftElection RaftCluster Replicated Porcupine Linearizability PorcupineHistory Locality Models PorcupineProps ShardKv ShardKvProps ShardKvSystem ShardTimeline ShardHistory ShardCluster ShardLogs Clients.
From S2P Require ShardCtrler ShardCtrlerProps CtrlerSystem.
Local Open Scope Z_scope.

#[export] Instance shard_calls : Calls Op KvInput KvOutput := {
  cl_Client := ClientId;
  cl_Call := CallId;
  cl_good := shard_op;
  cl_input := op_input;
  cl_output := op_output;
}.

Notation ShardTSys := (TSys Cluster Op KvInput KvOutput).

(** What [Get] and [PutAppend] answer on a server, for an operation and with
    whatever command came back on the channel. *)
Definition cluster_answers (cl : Cluster) (a : Answer) : Prop :=
  ∃ g sys i nd app op currOp, cl_groups cl !! g = Some sys ∧ nodes (s_net sys) !! i = Some nd ∧ s_apps sys !! i = Some app ∧
    ClientId op = an_Client a ∧ CallId op = an_Call a ∧
    answerOp (set_rf (raft nd) (a_srv app)) op currOp = (OK, an_Value a).

Section timed.
Context `{GobLaws Z} `{GobLaws (list (LogEntry Command))} `{GobLaws (list (LogEntry ShardCtrler.Op))}
  `{Gob (gmap string string)} `{Gob (gmap Z LastOperation)} `{Gob Config} `{Gob (gset Z)}
  `{Gob (gmap Z (gmap Z (gmap string string)))} `{Gob (gmap Z Z)} `{Gob (gmap Z (gset Z))}.
Implicit Types (t : ShardTSys) (kv : ShardKV) (op : Op) (a : Answer) (logs : gmap positive (list Command)) (key : string).

(** [n] servers each that have just started; no client has called. *)
Definition shard_timed_reachable (n : nat) (now : Z) t : Prop := timed_reachable cluster_step cluster_answers (cluster_init n) now t.

(** ** What the service promises *)

Definition shard_inv (n : nat) (P : Op → Prop) (cl : Cluster) logs : Prop := cluster_logs P n cl logs.

(** The answer is what the operation that took effect for the call resulted in,
    in the logs there were then; [how] has these logs and configurations. *)
Definition shard_answered (l : list Op) logs a (how : gmap positive (list Command) * list Config) : Prop :=
  family how.1 how.2 ∧ grown how.1 logs ∧ (∀ g k op, command_at how.1 g k (COp op) → op ∈ l) ∧
  origin how.1 (an_Client a) (mkLastOperation (an_Call a) (an_Value a)).

Lemma answerOp_OK kv op currOp v :
  answerOp kv op currOp = (OK, v) → LastOp kv !! ClientId op = Some (mkLastOperation (CallId op) v).
Proof.
  unfold answerOp. destruct (negb _); [destruct currOp; [by case_decide|done..]|].
  destruct (LastOp kv !! ClientId op) as [[id r]|]; [|done]. simpl. destruct (id =? CallId op) eqn:Hid; [|done]. intros [= ->]. do 2 f_equal. lia.
Qed.

Lemma shard_inv_answer n (l : list Op) cl logs a :
  shard_inv n (λ op, op ∈ l) cl logs → cluster_answers cl a → ∃ how, shard_answered l logs a how.
Proof.
  intros Hcl (g & sys & i & nd & app & op & currOp & Hg & Hi & Ha & Hc & Hid & Hans%answerOp_OK). exists (logs, cl_configs cl).
  pose proof (logs_family _ _ _ _ Hcl) as Hfam. destruct (server_reaches _ _ _ _ _ _ _ _ Hcl Hg Ha) as (k & Hr).
  split; [done|]. split; [done|]. split.
  - intros g' k' op' Hc'. exact (logs_operation _ _ _ _ _ _ _ Hcl Hc').
  - simpl. eapply (entry_origin _ _ Hfam); [exact Hr|]. rewrite <-Hc, <-Hid. exact Hans.
Qed.

Lemma shard_timed_inv n now t : shard_timed_reachable n now t → ∃ logs done, timed_inv (shard_inv n) shard_answered t logs done.
Proof.
  apply (timed_reachable_inv cluster_step cluster_answers (shard_inv n) grown shard_answered).
  - done.
  - intros P Q cl logs. apply cluster_logs_weaken.
  - intros P cl cl' logs. apply cluster_logs_step.
  - apply shard_inv_answer.
  - intros l logs logs' a how Hgr (? & ? & ? & ?). split; [done|]. split; [by etrans|done].
  - intros cl. apply cluster_logs_init.
Qed.

(** ** Linearizability *)
Section key.
Context (n : nat) t logs done (Hinv : timed_inv (shard_inv n) shard_answered t logs done) (key : string).

Notation cs := (cl_configs (t_world t)).
Definition last_config : nat := Z.to_nat (foldr Z.max 0 (ShardCtrler.Num <$> cs)).
Notation events := (timeline logs cs key last_config).

Lemma asked_family : family logs cs.
Proof using Hinv. eapply logs_family, (ti_world _ _ _ _ _ Hinv). Qed.

Lemma command_asked g k op : command_at logs g k (COp op) → asked t op ∧ shard_op op.
Proof using Hinv.
  intros Hc. assert (asked t op) as Ha by (eapply logs_operation, Hc; apply (ti_world _ _ _ _ _ Hinv)). split; [exact Ha|].
  apply list_elem_of_fmap in Ha as (x & -> & Hx). by apply (ti_ops _ _ _ _ _ Hinv).
Qed.

Lemma effect_config g k st op : effect logs g k st op → epoch st ≤ Z.of_nat last_config.
Proof using Hinv.
  intros (Hr & _ & [_ Hin]).
  destruct (serves_owner _ _ asked_family (key2shard (Key op)) g k st (epoch st)) as (_ & _ & Hc & _); [done|].
  assert (epoch st ≤ foldr Z.max 0 (ShardCtrler.Num <$> cs)); [|unfold last_config; lia].
  apply max_ge. right. by apply list_elem_of_fmap_2.
Qed.

Lemma event_once x y :
  x ∈ events → y ∈ events → op_of logs cs key x = op_of logs cs key y → x = y.
Proof using Hinv.
  intros (g & st & op & He & _ & Hex & <- & _)%timeline_effect (g' & st' & op' & He' & _ & Hey & Hop' & _)%timeline_effect Heq;
    [|apply asked_family..]. rewrite Hop' in Heq. rewrite Heq in He.
  destruct (effect_once _ _ asked_family _ _ _ _ _ _ _ _ He He') as [-> Hk]; [done..|].
  destruct He as [Hr _], He' as [Hr' _]. rewrite Hk in Hr. rewrite (reaches_det _ _ _ _ _ Hr Hr') in Hex.
  apply injective_projections; [|exact Hk]. lia.
Qed.

(** An answered call is in the order, before all that were not yet made. *)
Lemma answered_event o d :
  done_ok shard_answered t logs o d → Key (d_op d) = key →
  ∃ x, x ∈ events ∧ op_of logs cs key x = d_op d ∧
    event_of logs cs key x = (op_input (d_op d), op_output (d_op d) (an_Value (d_answer d))) ∧
    ∀ y, y ∈ events → op_of logs cs key y ∉ (take (d_calls d) (t_asked t)).*1 → before events x y.
Proof using Hinv.
  intros Hok Hkey. destruct (do_answer _ _ _ _ _ Hok) as (_ & Hfam0 & Hgr & Hl & g & k & st & op & He0 & Hc & Hlo).
  injection Hlo as Hid Hv. pose proof asked_family as Hfam. pose proof (effect_grown _ _ _ _ _ _ Hgr He0) as He. pose proof He as (Hr & Hcmd & _).
  destruct (reaches_config _ _ Hfam _ _ _ Hr) as [Hpos _].
  assert (op = d_op d) as ->.
  { eapply asked_op; [exact Hinv|by eapply command_asked|by eapply done_asked|]. unfold call_key. simpl.
    rewrite Hc, <-Hid, (do_client _ _ _ _ _ Hok), (do_call _ _ _ _ _ Hok). done. }
  pose proof (effect_config _ _ _ _ He) as HN. destruct (effect_listed _ _ Hfam key _ _ _ _ last_config He Hkey HN) as (Hin & Hop & Hev).
  eexists. split_and!; [exact Hin|done|by rewrite Hev, Hv|]. intros y Hy Hnew. apply sorted_before; [apply timeline_sorted|done|done|].
  destruct (timeline_effect _ _ Hfam _ _ _ Hy) as (g' & st' & op' & He' & Hk' & Hey & Hop' & _). rewrite Hop' in Hnew.
  destruct (effect_later _ _ _ _ _ _ _ _ _ _ _ _ Hfam0 Hfam Hgr He0 He') as [Hlt|[Heq Hlt]].
  - congruence.
  - intros g0 j Hcmd'. by apply Hnew, (Hl g0 j).
  - left. simpl. lia.
  - right. simpl. lia.
Qed.

Lemma key_linearizable :
  t_busy t = ∅ → history_linearizable KvModel_Step KvModel_Init (filter (λ o, in_Key (Input o) = key) (t_ops t)).
Proof using Hinv.
  intros Hidle. pose proof asked_family as Hfam.
  pose proof (calls_linearizable (shard_inv n) shard_answered KvModel_Step KvModel_Init (λ x, in_Key x = key) events
    (op_of logs cs key) (event_of logs cs key) t logs done Hinv Hidle) as Hlin. apply Hlin.
  - apply sorted_NoDup, timeline_sorted.
  - apply timeline_accepted; [done|]. intros g k op Hc. by eapply command_asked.
  - intros x Hx. destruct (timeline_effect _ _ Hfam _ _ _ Hx) as (g & st & op & (_ & Hc & _) & Hk & _ & -> & _).
    split; [by eapply command_asked|exact Hk].
  - intros x y Hx Hy. by apply event_once.
  - intros o d _ Hok Hk. by apply (answered_event o d).
Qed.
End key.

(** C1: the sharded service is linearizable, across reconfigurations: whatever
    messages are lost, delayed or repeated, whenever servers crash and start
    again, and however the controller's configurations move shards between the
    groups while clients call, once the calls have returned, the operations
    the clients recorded, with the times at which each was called and
    returned, can be ordered so that the order respects real time and is a
    sequential history of one key/value store.  So the linearizability checker,
    run on the recorded history with [KvModel], accepts it whenever it
    answers.  This is for runs without snapshots (maxraftstate -1): with
    snapshots a committed operation can be lost, because a server may
    acknowledge entries it has dropped (C30).  The controller's clients send
    valid operations only, as in C10. *)
Theorem shardkv_linearizable fmtX fmtY fmtS sortByTime rangeSet n now t :
  (∀ l, sortByTime l ≡ₚ l) → (∀ l, Sorted (λ x y, Less y x = false) (sortByTime l)) →
  shard_timed_reachable n now t → t_busy t = ∅ →
  history_linearizable kv_store_step ∅ (t_ops t) ∧
  (zlen (t_ops t) < 2 ^ 63 → t_ops t ≠ [] → ∀ sched b,
     CheckOperations fmtX fmtY fmtS sortByTime rangeSet KvModel (t_ops t) sched = Ret b → b = true).
Proof.
  intros Hperm Hsort (logs & done & Hinv)%shard_timed_inv Hidle. pose proof (history_timed _ _ _ _ _ Hinv) as Ht.
  assert (history_linearizable kv_store_step ∅ (t_ops t)) as Hlin.
  { apply linearizable_local; [exact Ht|]. intros key. by eapply key_linearizable. }
  split; [done|]. intros Hlen Hne sched b Hb.
  eapply (check_kv_answer fmtX fmtY fmtS sortByTime rangeSet Hperm Hsort); [done|by split|exact Hb|done].
Qed.
End timed.
