(* ===== verification/ShardClusterExample.v ===== *)
(** * The sharded service: a run

    A scheduler for the steps of ShardCluster.v, and a run: group 1 joins and
    gets all shards, a client puts a key, group 2 joins and gets half of the
    shards from group 1, among them the one of the key. *)

From Stdlib Require Import Strings.Byte.
From stdpp Require Import prelude gmap countable strings list sets.
From S2P Require Import Prelude Gob Raft RaftNode RaftServer RaftEvolve RaftNet RaftElection RaftCluster RaftSafetySteps RaftStateMachine RaftExample ShardKv ShardKvProps Replicated Schedule ShardKvSystem ShardCluster.
From S2P Require ShardCtrler ShardCtrlerProps CtrlerSystem.
Local Open Scope Z_scope.

#[local] Existing Instances LastOperation_eq_dec LastOperation_countable Config_eq_dec Config_countable
  OpType_countable ShardKvProps.Op_eq_dec MigrateShardReply_eq_dec Command_eq_dec Command_countable CtrlerSystem.Op_countable
  CtrlerSystem.Op_eq_dec CtrlerSystem.valid_op_dec.
#[local] Instance GobOf `{Countable A} : Gob A := CountableGob A.
#[local] Instance GobLawsOf `{Countable A} : GobLaws A := CountableGobLaws A.

(** ** The scheduler *)

Definition may_migrate (cl : Cluster) (kv : ShardKV) (m : MigrateShardReply) : Prop :=
  Exists (λ config, Exists (λ r, owner config (mr_Shard m) = Z.pos r.1 ∧ r.2 = m) (cl_replies cl) ∧
    mr_ErrWrongLeader m = false ∧ mr_ConfigNum m = ShardCtrler.Num config ∧
    requested kv (ShardCtrler.Num config) (mr_Shard m)) (cl_configs cl).

#[local] Instance requested_dec kv n i : Decision (requested kv n i).
Proof. unfold requested. apply _. Defined.
#[local] Instance may_migrate_dec cl kv m : Decision (may_migrate cl kv m).
Proof. unfold may_migrate. apply _. Defined.

Inductive ClusterAction :=
  | DoCtrl (a : SysAction ShardCtrler.Op)
  | DoQuery (i : nat) (id : ShardCtrler.Identifier)
  | DoGroup (g : positive) (a : SysAction Command)
  | DoMigrate (g : positive) (i : nat) (args : MigrateShardArgs).

Section scheduler.
Context (P : Op → Prop) `{∀ op, Decision (P op)}.

Lemma may_migrate_iff cl kv m : may_start P cl kv (CMigrate m) ↔ may_migrate cl kv m.
Proof.
  unfold may_migrate. rewrite Exists_exists. setoid_rewrite Exists_exists. simpl. split.
  - intros (g & config & ? & ? & ? & ? & ? & ?). exists config. split_and!; try done. by exists (g, m).
  - intros (config & ? & ([g m'] & ? & ? & <-) & ? & ? & ?). by exists g, config.
Qed.

#[local] Instance may_start_dec cl kv c : Decision (may_start P cl kv c).
Proof.
  destruct c as [op|c|m|gc]; [simpl; apply _|simpl; apply _| |left; done].
  destruct (decide (may_migrate cl kv m)) as [Hm|Hm]; [left|right]; by rewrite may_migrate_iff.
Defined.

Definition group_handle (rf : Raft Command) (kv : ShardKV) (m : ApplyMsg Command) : outcome ShardKV := applier (set_rf rf kv) m.

Lemma group_handle_ok rf kv m kv' : group_handle rf kv m = Ret kv' → sv_handles rf kv m (Ret kv').
Proof. intros <-. exists (notifyChan kv), (GCList kv). by destruct kv. Qed.

Definition cact (a : ClusterAction) (cl : Cluster) : option Cluster :=
  match a with
  | DoCtrl a =>
      ctrl ← sact CtrlerSystem.ctrl_handle () (λ _, ShardCtrlerProps.valid_op) a (cl_ctrl cl);
      Some (mkCluster ctrl (cl_configs cl) (cl_groups cl) (cl_replies cl))
  | DoQuery i id =>
      nd ← nodes (s_net (cl_ctrl cl)) !! i;
      app ← s_apps (cl_ctrl cl) !! i;
      match ShardCtrler.checkExecuted (CtrlerSystem.set_rf (raft nd) (a_srv app)) (ShardCtrler.ClientId id)
              (ShardCtrler.CallId id) ShardCtrler.Query with
      | Some (ShardCtrler.mkReply false c) =>
          Some (mkCluster (cl_ctrl cl) (cl_configs cl ++ [c]) (cl_groups cl) (cl_replies cl))
      | _ => None
      end
  | DoGroup g a =>
      sys ← cl_groups cl !! g;
      sys' ← sact group_handle (-1, g) (may_start P cl) a sys;
      Some (mkCluster (cl_ctrl cl) (cl_configs cl) (<[g := sys']> (cl_groups cl)) (cl_replies cl))
  | DoMigrate g i args =>
      sys ← cl_groups cl !! g;
      nd ← nodes (s_net sys) !! i;
      app ← s_apps sys !! i;
      Some (mkCluster (cl_ctrl cl) (cl_configs cl) (cl_groups cl)
              (cl_replies cl ++ [(g, MigrateShard (set_rf (raft nd) (a_srv app)) args)]))
  end.

Fixpoint cacts (l : list ClusterAction) (cl : Cluster) : option Cluster :=
  match l with
  | [] => Some cl
  | a :: l => cl' ← cact a cl; cacts l cl'
  end.

Lemma cact_sound a cl cl' : cact a cl = Some cl' → cluster_step P cl cl'.
Proof.
  destruct cl as [ctrl cs groups rs]. destruct a as [a|i id|g a|g i args]; cbn [cact cl_ctrl cl_configs cl_groups cl_replies].
  - intros (ctrl' & Hs & [= <-])%bind_Some. apply cluster_ctrl.
    by apply (sact_sound CtrlerSystem.ctrl_handle () CtrlerSystem.ctrl_handle_ok (λ _, ShardCtrlerProps.valid_op) a).
  - intros (nd & Hi & (app & Ha & Hc)%bind_Some)%bind_Some.
    destruct (ShardCtrler.checkExecuted _ _ _ _) as [[[] c]|] eqn:He; [done| |done]. injection Hc as <-.
    eapply (cluster_query _ _ _ _ _ i nd app id c); [done|done|by right].
  - intros (sys & Hg & (sys' & Hs & [= <-])%bind_Some)%bind_Some. eapply cluster_group; [done|].
    by apply (sact_sound group_handle (-1, g) group_handle_ok (may_start P (mkCluster ctrl cs groups rs)) a).
  - intros (sys & Hg & (nd & Hi & (app & Ha & [= <-])%bind_Some)%bind_Some)%bind_Some. by eapply cluster_migrate.
Qed.

Lemma cacts_sound l cl cl' : cacts l cl = Some cl' → rtc (cluster_step P) cl cl'.
Proof.
  revert cl. induction l as [|a l IH]; intros cl Hacts; simplify_option_eq; [done|].
  eapply rtc_l; [by eapply cact_sound|by apply IH].
Qed.
End scheduler.

(** ** The run *)

Definition group0 (g : positive) (i : nat) : ShardKV :=
  mkShardKV (Z.of_nat i) (raft (node0 i)) (Z.pos g) (-1) false ∅ ∅ ∅ 0 ShardCtrler.zeroConfig ∅ ∅ ∅ ∅.
Definition cluster0 : Cluster :=
  mkCluster CtrlerSystem.csys0 [] (list_to_map ((λ g, (g, boot_sys (group0 g))) <$> [1; 2]%positive)) [].
Definition commit {C} (cs : list C) (k : nat) : list (SysAction C) :=
  (SStart 0 <$> cs) ++ [SRaft (ADeliver k); SRaft (AReply k); SApply 0] ++ replicate (length cs) (SHandle 0).
Definition elect {C} : list (SysAction C) :=
  [SRaft (ALocal 0 LElectionTimeout); SRaft (ADeliver 0); SRaft (AReply 0); SRaft (ADrop 1)].

Definition join g name : ShardCtrler.Op :=
  ShardCtrler.mkOp ShardCtrler.Join (ShardCtrler.AJoin (ShardCtrler.mkJoinArgs (ShardCtrler.mkIdentifier 7 (g - 1)) {[g := [name]]})).
Definition query k num : ShardCtrler.Op :=
  ShardCtrler.mkOp ShardCtrler.Query (ShardCtrler.AQuery (ShardCtrler.mkQueryArgs (ShardCtrler.mkIdentifier 8 k) num)).

(** The controller gets group 1 and is asked for configuration 1, then group 2
    and configuration 2. *)
Definition run_ctrl : list ClusterAction :=
  (DoCtrl <$> elect ++ commit [join 1 "a"; query 0 1] 4) ++ [DoQuery 0 (ShardCtrler.mkIdentifier 8 0)] ++
  (DoCtrl <$> commit [join 2 "b"; query 1 2] 8) ++ [DoQuery 0 (ShardCtrler.mkIdentifier 8 1)].

Definition config1 : Config := ShardCtrler.mkConfig 1 (replicate 10 1) {[1 := ["a"]]}.
Definition config2 : Config := ShardCtrler.mkConfig 2 (replicate 5 1 ++ replicate 5 2) {[1 := ["a"]; 2 := ["b"]]}.

(** The key is of shard 5. *)
Definition put_i : Op := mkOp Put 9 0 "i" "v".
Definition handed : MigrateShardReply := mkMigrateShardReply 1 5 false {[ "i" := "v" ]} {[ 9 := mkLastOperation 0 "" ]}.

Definition run_groups : list ClusterAction :=
  (DoGroup 1 <$> elect ++ commit [CConfig config1] 2 ++ commit [COp put_i] 4 ++ commit [CConfig config2] 6) ++
  (DoGroup 2 <$> elect ++ commit [CConfig config1] 2 ++ commit [CConfig config2] 4) ++
  [DoMigrate 1 0 (mkMigrateShardArgs 1 5)] ++ (DoGroup 2 <$> commit [CMigrate handed] 6).

Definition cluster1 : Cluster := default cluster0 (cacts (λ _, True) (run_ctrl ++ run_groups) cluster0).

Lemma group_cluster0_init : cluster_init 3 cluster0.
Proof.
  split_and!; [apply CtrlerSystem.csys0_init|done|done|]. intros g sys Hg. cbn [cluster0 cl_groups] in Hg.
  assert (sys = boot_sys (group0 g)) as ->.
  { apply elem_of_list_to_map_2 in Hg. apply list_elem_of_fmap in Hg as (g' & Heq & _). injection Heq as -> ->. done. }
  apply boot_sys_init. intros i Hi. cbn [sv_start group_service fst snd]. unfold StartServer.
  by destruct (Make_fresh (C := Command) 3 (Z.of_nat i)) as (rf & -> & _ & _ & _ & _ & ->); [lia|].
Qed.

Lemma group_cluster1_reachable : cluster_reachable (λ _, True) 3 cluster1.
Proof.
  exists cluster0. split; [apply group_cluster0_init|]. apply (cacts_sound (λ _, True) (run_ctrl ++ run_groups)). vm_compute. reflexivity.
Qed.

Definition gsys (g : positive) : Sys Command ShardKV := default (boot_sys (group0 g)) (cl_groups cluster1 !! g).
Definition gapp (g : positive) : App Command ShardKV := default (mkApp (group0 g 0) []) (s_apps (gsys g) !! 0%nat).

(** Server 0 of group 2 serves the key that was put in group 1, which does not
    any more. *)
Lemma shardkv_one_history_witness :
  Data (a_srv (gapp 2)) !! "i" = Some "v" ∧ Data (a_srv (gapp 1)) !! "i" = None ∧
  ∃ (cfgs : list Config) (logs : gmap positive (list Command)), cfgs !! 2%nat = Some config2 ∧
    ∃ log, logs !! 2%positive = Some log ∧ group_follows 2 log (a_srv (gapp 2)).
Proof.
  split; [vm_compute; reflexivity|]. split; [vm_compute; reflexivity|].
  destruct (shardkv_one_history (λ _, True) 3 cluster1 group_cluster1_reachable) as (cfgs & logs & Hc & _ & Hg & _). exists cfgs, logs. split.
  - apply (Hc config2). assert (cl_configs cluster1 = [config1; config2]) as -> by (vm_compute; reflexivity). right. left.
  - destruct (Hg 2%positive (gsys 2)) as (log & Hl & Hf); [vm_compute; reflexivity|]. exists log. split; [exact Hl|].
    apply (Hf 0%nat). vm_compute. reflexivity.
Defined.

Lemma shardkv_one_owner_witness :
  kv_Config (a_srv (gapp 2)) = config2 ∧ kv_Config (a_srv (gapp 1)) = kv_Config (a_srv (gapp 2)).
Proof.
  split; [vm_compute; reflexivity|].
  destruct (shardkv_one_owner (λ _, True) 3 cluster1 group_cluster1_reachable) as (logs & _ & _ & Hservers).
  apply (Hservers 1%positive 2%positive (gsys 1) (gsys 2) 0%nat 0%nat (gapp 1) (gapp 2)); vm_compute; reflexivity.
Defined.
