(* ===== verification/ShardKvLinearExample.v ===== *)
(** * Histories of the sharded service: a run

    A scheduler for the steps of ShardKvLinear.v, and a run: one client puts a
    key while group 1 serves it; group 2 joins and gets the shard; another client
    gets the key from group 2. *)

From Stdlib Require Import Strings.Byte.
From stdpp Require Import prelude gmap countable strings list sets sorting.
From S2P Require Import Prelude Gob Raft RaftNode RaftServer RaftNet RaftElection RaftCluster RaftSafetySteps RaftStateMachine RaftExample Replicated Schedule Porcupine Linearizability PorcupineHistory Models PorcupineProps ShardKv ShardKvProps ShardKvSystem ShardHistory ShardCluster Clients ShardKvLinear ShardClusterExample.
From S2P Require ShardCtrler ShardCtrlerProps CtrlerSystem.
Local Open Scope Z_scope.

#[local] Existing Instances LastOperation_eq_dec LastOperation_countable Config_eq_dec Config_countable
  OpType_countable ShardKvProps.Op_eq_dec MigrateShardReply_eq_dec Command_eq_dec Command_countable CtrlerSystem.Op_countable
  CtrlerSystem.Op_eq_dec CtrlerSystem.valid_op_dec.
#[local] Instance GobOf `{Countable A} : Gob A := CountableGob A.
#[local] Instance GobLawsOf `{Countable A} : GobLaws A := CountableGobLaws A.

(** ** The scheduler *)

Inductive TimedAction :=
  | DoTick (now : Z)
  | DoInvoke (op : Op)
  | DoService (l : list ClusterAction)
  | DoAnswer (g : positive) (i : nat) (op : Op)
  | DoReturn (client : Z) (k : nat).

#[local] Instance shard_op_dec op : Decision (shard_op op).
Proof. unfold shard_op. destruct (op_OpType op); apply _. Defined.
#[local] Instance asked_dec (t : ShardTSys) op : Decision (Clients.asked t op).
Proof. unfold Clients.asked. apply _. Defined.

Definition tact (a : TimedAction) (t : ShardTSys) : option ShardTSys :=
  let '(mkTSys w now ask busy ans ops) := t in
  match a with
  | DoTick now' => if decide (now ≤ now') then Some (mkTSys w now' ask busy ans ops) else None
  | DoInvoke op =>
      match busy !! ClientId op with
      | None =>
          if decide (shard_op op ∧ CallId op = next_call t (ClientId op))
          then Some (mkTSys w now (ask ++ [(op, now)]) (<[ClientId op := (op, now)]> busy) ans ops) else None
      | Some _ => None
      end
  | DoService l => w' ← cacts (Clients.asked t) l w; Some (mkTSys w' now ask busy ans ops)
  | DoAnswer g i op =>
      sys ← cl_groups w !! g;
      nd ← nodes (s_net sys) !! i;
      app ← s_apps sys !! i;
      match answerOp (set_rf (raft nd) (a_srv app)) op (COp op) with
      | (OK, v) => Some (mkTSys w now ask busy (ans ++ [mkAnswer (ClientId op) (CallId op) v]) ops)
      | _ => None
      end
  | DoReturn client k =>
      '(op, start) ← busy !! client;
      a ← ans !! k;
      if decide (ClientId op = client ∧ an_Client a = client ∧ an_Call a = CallId op)
      then Some (mkTSys w now ask (delete client busy) ans (ops ++ [record op start (an_Value a) now])) else None
  end.

Fixpoint tacts (l : list TimedAction) (t : ShardTSys) : option ShardTSys :=
  match l with
  | [] => Some t
  | a :: l => t' ← tact a t; tacts l t'
  end.

Notation shard_step := (timed_step cluster_step cluster_answers).

Lemma tact_sound a t t' : tact a t = Some t' → rtc shard_step t t'.
Proof.
  destruct t as [w now ask busy ans ops]. destruct a as [now'|op|l|g i op|client k]; cbn [tact].
  - case_decide; [|done]. intros [= <-]. apply rtc_once. by apply (timed_tick cluster_step cluster_answers (mkTSys w now ask busy ans ops)).
  - destruct (busy !! ClientId op) eqn:Hb; [done|]. case_decide as Hd; [|done]. destruct Hd as [Hop Hid]. intros [= <-]. apply rtc_once.
    exact (timed_invoke cluster_step cluster_answers (mkTSys w now ask busy ans ops) op Hop Hb Hid).
  - intros (w' & Hw & [= <-])%bind_Some. apply (service_steps cluster_step cluster_answers (mkTSys w now ask busy ans ops)).
    by eapply cacts_sound.
  - intros (sys & Hg & (nd & Hi & (app & Ha & Hans)%bind_Some)%bind_Some)%bind_Some.
    destruct (answerOp _ _ _) as [[] v] eqn:Hv; try done. injection Hans as <-. apply rtc_once.
    apply (timed_answer cluster_step cluster_answers (mkTSys w now ask busy ans ops) (mkAnswer (ClientId op) (CallId op) v)).
    by exists g, sys, i, nd, app, op, (COp op).
  - intros ([op start] & Hb & (a & Ha & Hd)%bind_Some)%bind_Some. case_decide as Hc; [|done]. destruct Hc as (<- & Hc & Hid).
    injection Hd as <-. apply rtc_once. apply list_elem_of_lookup_2 in Ha.
    exact (timed_return cluster_step cluster_answers (mkTSys w now ask busy ans ops) op start a Hb Ha Hc Hid).
Qed.

Lemma tacts_sound l t t' : tacts l t = Some t' → rtc shard_step t t'.
Proof.
  revert t. induction l as [|a l IH]; intros t Hacts; simplify_option_eq; [done|].
  etrans; [by eapply tact_sound|by apply IH].
Qed.

(** ** The run *)

Definition get_i : Op := mkOp Get 10 0 "i" "".

Definition run_put : list ClusterAction := DoGroup 1 <$> elect ++ commit [CConfig config1] 2 ++ commit [COp put_i] 4.
Definition run_move : list ClusterAction :=
  (DoGroup 1 <$> commit [CConfig config2] 6) ++ (DoGroup 2 <$> elect ++ commit [CConfig config1] 2 ++ commit [CConfig config2] 4) ++
  [DoMigrate 1 0 (mkMigrateShardArgs 1 5)] ++ (DoGroup 2 <$> commit [CMigrate handed] 6 ++ commit [COp get_i] 8).

Definition timed_run : list TimedAction :=
  [DoInvoke put_i; DoService (run_ctrl ++ run_put); DoAnswer 1 0 put_i; DoTick 3; DoReturn 9 0; DoTick 4;
   DoInvoke get_i; DoService run_move; DoAnswer 2 0 get_i; DoTick 7; DoReturn 10 1].

Definition timed1 : ShardTSys := default (timed_start cluster0 1) (tacts timed_run (timed_start cluster0 1)).

Lemma timed1_reachable : shard_timed_reachable 3 1 timed1.
Proof.
  exists cluster0. split; [apply group_cluster0_init|]. apply (tacts_sound timed_run). vm_compute. reflexivity.
Qed.

Lemma shardkv_linearizable_witness :
  t_ops timed1 = [mkOperation 9 (mkKvInput 1 "i" "v") 1 (mkKvOutput "") 3;
                  mkOperation 10 (mkKvInput 0 "i" "") 4 (mkKvOutput "v") 7] ∧
  history_linearizable kv_store_step ∅ (t_ops timed1).
Proof.
  split; [vm_compute; reflexivity|].
  apply (shardkv_linearizable show_in show_out show_st timeSort rangeAll 3 1 timed1 timeSort_perm timeSort_sorted timed1_reachable).
  vm_compute. reflexivity.
Defined.
