(* ===== verification/HarnessProps.v ===== *)
(** * The testers of the replicated services: what they do to the network

    For Harness.v, whatever the servers are:

    - after [partition p1 p2] of disjoint groups the servers of a group reach
      each other and nobody reaches the other group ([partition_links]);
    - [make_partition] of an odd number of servers puts the leader in the
      smaller of two groups that are all the servers ([splitServers_odd]); of an
      even number it puts server 0 in both ([splitServers_even]). *)

From Stdlib Require Import Strings.Byte.
From stdpp Require Import prelude gmap strings list.
From S2P Require Import Prelude Gob Labrpc Raft RaftNode RaftServer RaftEvolve TestNames Harness.
Local Open Scope Z_scope.

(** ** Links *)
Section links.
Context {Srv C P : Type} `{Gob Z} `{Gob (list (LogEntry C))} `{TestServer Srv C P}.
Abbreviation config := (config Srv P).
Implicit Types cfg : config.

(** The name of the end from [i] to [j], and whether it is enabled. *)
Definition name_at cfg (i j : Z) : option string :=
  if (0 <=? i) && (0 <=? j) then row ← endnames cfg !! Z.to_nat i; row ← row; row !! Z.to_nat j else None.

Definition link cfg (i j : Z) : option bool := e ← name_at cfg i j; enabled (cfg_net cfg) !! inl e.

(** Every server has had its ends made, and all names differ. *)
Record wired cfg : Prop := {
  wd_rows : zlen (endnames cfg) = n cfg;
  wd_name i j : 0 ≤ i < n cfg → 0 ≤ j < n cfg → is_Some (name_at cfg i j);
  wd_inj i j i' j' e : name_at cfg i j = Some e → name_at cfg i' j' = Some e → i = i' ∧ j = j';
}.

(** Links switched on and off, in order. *)
Abbreviation wire := (Z * Z * bool)%type.
Definition set_wires (l : list wire) cfg : outcome config := foldM (λ '(i, j, b), enableEnd i j b) l cfg.

Lemma set_wires_app l1 l2 cfg : set_wires (l1 ++ l2) cfg = (cfg ← set_wires l1 cfg; set_wires l2 cfg).
Proof. apply foldM_app. Qed.

Lemma endname_at_name i j cfg e : name_at cfg i j = Some e → endname_at i j cfg = Ret e.
Proof.
  unfold name_at, endname_at. destruct (_ && _) eqn:Hb; [|done]. b2p.
  destruct (endnames cfg !! Z.to_nat i) as [row|] eqn:Hr; [|done]. simpl. destruct row as [row|]; [|done]. simpl. intros He.
  rewrite (proj2 (go_index_Ret _ _ (Some row))) by done. simpl. by apply go_index_Ret.
Qed.

(** What [cfg] and [cfg'] share when only links were switched. *)
Definition rewired cfg cfg' : Prop :=
  ∃ en, cfg' = set_cnet (set_ends (ends (cfg_net cfg)) en (connections (cfg_net cfg)) (cfg_net cfg)) cfg.

Lemma rewired_refl cfg : rewired cfg cfg.
Proof. exists (enabled (cfg_net cfg)). destruct cfg as [[] ]. done. Qed.

Lemma rewired_trans cfg1 cfg2 cfg3 : rewired cfg1 cfg2 → rewired cfg2 cfg3 → rewired cfg1 cfg3.
Proof. intros [en1 ->] [en2 ->]. by exists en2. Qed.

Lemma rewired_name cfg cfg' i j : rewired cfg cfg' → name_at cfg' i j = name_at cfg i j.
Proof. by intros [en ->]. Qed.

Lemma rewired_wired cfg cfg' : rewired cfg cfg' → wired cfg → wired cfg'.
Proof. by intros [en ->] [W1 W2 W3]. Qed.

Lemma enableEnd_link cfg i j b :
  wired cfg → is_Some (name_at cfg i j) → ∃ cfg', enableEnd i j b cfg = Ret cfg' ∧ rewired cfg cfg' ∧
    ∀ i' j', link cfg' i' j' = if decide ((i', j') = (i, j)) then Some b else link cfg i' j'.
Proof.
  intros W [e He]. unfold enableEnd. rewrite (endname_at_name _ _ _ _ He). simpl. eexists. split_and!; [done|by eexists|].
  intros i' j'. unfold link. change (name_at (set_cnet _ cfg)) with (name_at cfg). simpl. case_decide as Hij.
  - simplify_eq. rewrite He. simpl. apply lookup_insert_eq.
  - destruct (name_at cfg i' j') as [e'|] eqn:He'; [|done]. simpl. apply lookup_insert_ne. intros [= <-].
    apply Hij. by destruct (wd_inj _ W _ _ _ _ _ He' He) as [-> ->].
Qed.

Definition wire_ok cfg (w : wire) : Prop := is_Some (name_at cfg w.1.1 w.1.2).

(** A link that is switched always the same way. *)
Definition settled (l : list wire) (i j : Z) (b : bool) : Prop :=
  (i, j, b) ∈ l ∧ ∀ b', (i, j, b') ∈ l → b' = b.

Lemma set_wires_links l cfg :
  wired cfg → (∀ w, w ∈ l → wire_ok cfg w) → ∃ cfg', set_wires l cfg = Ret cfg' ∧ rewired cfg cfg' ∧
    (∀ i j b, settled l i j b → link cfg' i j = Some b) ∧
    (∀ i j, (∀ b, (i, j, b) ∉ l) → link cfg' i j = link cfg i j).
Proof.
  induction l as [|[[i0 j0] b0] l IH] using rev_ind; intros W Hok.
  { exists cfg. split_and!; [done|apply rewired_refl| |done]. by intros i j b [[]%not_elem_of_nil _]. }
  destruct IH as (cfg1 & Hr & Hw & Hset & Hkeep); [done|intros; apply Hok, elem_of_app; by left|].
  destruct (enableEnd_link cfg1 i0 j0 b0) as (cfg2 & He & Hw2 & Hl2).
  { by eapply rewired_wired. }
  { rewrite (rewired_name _ _ _ _ Hw). apply (Hok (i0, j0, b0)), elem_of_app. right. by left. }
  exists cfg2. rewrite set_wires_app, Hr. simpl.
  assert (set_wires [(i0, j0, b0)] cfg1 = Ret cfg2) as -> by (unfold set_wires; simpl; by rewrite He).
  split_and!; [done|by eapply rewired_trans| |].
  - intros i j b [Hin Huniq]. rewrite Hl2. case_decide as Hij.
    + simplify_eq. f_equal. apply Huniq, elem_of_app. right. by left.
    + apply Hset. split.
      * apply elem_of_app in Hin as [?|?%list_elem_of_singleton]; [done|]. by simplify_eq.
      * intros b' Hb'. apply Huniq, elem_of_app. by left.
  - intros i j Hno. rewrite Hl2. case_decide as Hij.
    + simplify_eq. exfalso. apply (Hno b0), elem_of_app. right. by left.
    + apply Hkeep. intros b Hb. apply (Hno b), elem_of_app. by left.
Qed.

(** *** The loops *)

Definition outgoing (i : Z) (to : list Z) (b : bool) : list wire := (λ j, (i, j, b)) <$> to.
Definition incoming (i : Z) (to : list Z) (b : bool) : list wire := (λ j, (j, i, b)) <$> to.
Definition both (i : Z) (to : list Z) (b : bool) : list wire := outgoing i to b ++ incoming i to b.

Lemma elem_of_both i to b i' j' b' :
  (i', j', b') ∈ both i to b ↔ b' = b ∧ (i' = i ∧ j' ∈ to ∨ j' = i ∧ i' ∈ to).
Proof. unfold both, outgoing, incoming. rewrite elem_of_app, !list_elem_of_fmap. naive_solver. Qed.

Lemma foldM_wires (to : list Z) (f : Z → wire) cfg :
  foldM (λ t cfg, let '(i, j, b) := f t in enableEnd i j b cfg) to cfg = set_wires (f <$> to) cfg.
Proof.
  revert cfg. unfold set_wires. induction to as [|t to IH]; intros cfg; simpl; [done|].
  destruct (f t) as [[i j] b]. destruct (enableEnd i j b cfg); simpl; [apply IH|done..].
Qed.

Lemma connectUnlocked_wires i to cfg : connectUnlocked i to cfg = set_wires (both i to true) cfg.
Proof.
  unfold connectUnlocked, both. rewrite set_wires_app.
  rewrite (go_for_list (λ t cfg, enableEnd i t true cfg)), (foldM_wires to (λ t, (i, t, true))).
  unfold outgoing. destruct (set_wires _ cfg) as [cfg1| |]; simpl; [|done..].
  by rewrite (go_for_list (λ t cfg, enableEnd t i true cfg)), (foldM_wires to (λ t, (t, i, true))).
Qed.

Lemma has_ends_wired i cfg : wired cfg → 0 ≤ i < n cfg → has_ends i cfg = Ret true.
Proof.
  intros W Hi. destruct (wd_name _ W i 0) as [e He]; [lia..|]. unfold name_at in He.
  destruct (_ && _) eqn:Hb; [|done]. unfold has_ends. destruct (endnames cfg !! Z.to_nat i) as [row|] eqn:Hr; [|done].
  simpl in He. rewrite (proj2 (go_index_Ret _ _ row)) by (split; [lia|done]). simpl. by destruct row.
Qed.

(** A test that is true in every iteration. *)
Lemma go_for_guard (test : Z → config → outcome bool) (f : Z → config → outcome config) (k : nat) from cfg :
  wired cfg → (∀ j cfg', from ≤ j < from + Z.of_nat k → rewired cfg cfg' → test j cfg' = Ret true) →
  (∀ j cfg' cfg'', f j cfg' = Ret cfg'' → rewired cfg' cfg'') →
  go_for k from (λ j cfg, b ← test j cfg; if b : bool then f j cfg else Ret cfg) cfg = go_for k from f cfg.
Proof.
  intros W Ht Hf. rewrite !go_for_seqZ. apply (foldM_ext (rewired cfg)); [apply rewired_refl|].
  intros j cfg' Hj%elem_of_seqZ Hw. rewrite Ht by done. simpl. split; [done|].
  intros cfg'' Hr. by eapply rewired_trans, Hf.
Qed.

Lemma enableEnd_rewired i j b cfg cfg' : enableEnd i j b cfg = Ret cfg' → rewired cfg cfg'.
Proof. unfold enableEnd. intros (e & _ & [= <-])%bind_Ret_inv. by eexists. Qed.

Lemma disconnectUnlocked_wires i from cfg :
  wired cfg → 0 ≤ i < n cfg → zlen from ≤ n cfg → (∀ j, j ∈ from → 0 ≤ j < n cfg) →
  disconnectUnlocked i from cfg = set_wires (both i from false) cfg.
Proof.
  intros W Hi Hl Hfrom. unfold disconnectUnlocked, both. rewrite set_wires_app.
  rewrite (go_for_guard (λ _, has_ends i) (λ j cfg, f ← go_index from j; enableEnd i f false cfg)); [|done| |].
  2:{ intros j cfg' _ Hw. apply has_ends_wired; [by eapply rewired_wired|]. by destruct Hw as [en ->]. }
  2:{ intros j cfg' cfg'' (t & _ & He)%bind_Ret_inv. by eapply enableEnd_rewired. }
  rewrite (go_for_list (λ t cfg, enableEnd i t false cfg)), (foldM_wires from (λ t, (i, t, false))). unfold outgoing.
  destruct (set_wires_links ((λ t, (i, t, false)) <$> from) cfg W) as (cfg1 & Hr & Hw & _).
  { intros w (t & -> & Ht)%list_elem_of_fmap. apply (wd_name _ W); [done|by apply Hfrom]. }
  rewrite Hr. simpl. pose proof (rewired_wired _ _ Hw W) as W1.
  assert (n cfg1 = n cfg) as Hn by by destruct Hw as [en ->].
  rewrite (go_for_guard has_ends (λ j cfg, f ← go_index from j; enableEnd f i false cfg)); [|done| |].
  - by rewrite (go_for_list (λ t cfg, enableEnd t i false cfg)), (foldM_wires from (λ t, (t, i, false))).
  - intros j cfg' Hj Hw'. apply has_ends_wired; [by eapply rewired_wired|]. destruct Hw' as [en ->]. simpl. lia.
  - intros j cfg' cfg'' (t & _ & He)%bind_Ret_inv. by eapply enableEnd_rewired.
Qed.

(** *** Partitions *)

Definition group_wires (p q : list Z) : list wire := mjoin ((λ i, both i q false ++ both i p true) <$> p).

Definition in_range cfg (p : list Z) : Prop := zlen p ≤ n cfg ∧ ∀ i, i ∈ p → 0 ≤ i < n cfg.

Lemma in_range_rewired cfg cfg' p : rewired cfg cfg' → in_range cfg p → in_range cfg' p.
Proof. by intros [en ->]. Qed.

Lemma wire_ok_both cfg i to b w : wired cfg → 0 ≤ i < n cfg → in_range cfg to → w ∈ both i to b → wire_ok cfg w.
Proof.
  intros W Hi [_ Hto]. destruct w as [[i' j'] b']. intros [_ [[-> Hj]|[-> Hj] ] ]%elem_of_both; apply (wd_name _ W); auto.
Qed.

Lemma elem_of_group_wires p q i j b :
  (i, j, b) ∈ group_wires p q ↔
    (b = true ∧ i ∈ p ∧ j ∈ p) ∨ (b = false ∧ (i ∈ p ∧ j ∈ q ∨ j ∈ p ∧ i ∈ q)).
Proof.
  unfold group_wires. rewrite list_elem_of_join. setoid_rewrite list_elem_of_fmap. split.
  - intros (ws & Hin & x & -> & Hx). apply elem_of_app in Hin as [Hin|Hin]; apply elem_of_both in Hin; naive_solver.
  - intros [(-> & Hi & Hj)|(-> & [ [Hi Hj]|[Hj Hi] ])].
    + exists (both i q false ++ both i p true). split; [|by exists i]. apply elem_of_app. right. apply elem_of_both. auto.
    + exists (both i q false ++ both i p true). split; [|by exists i]. apply elem_of_app. left. apply elem_of_both. auto.
    + exists (both j q false ++ both j p true). split; [|by exists j]. apply elem_of_app. left. apply elem_of_both. auto.
Qed.

Lemma group_wires_ok cfg p q w : wired cfg → in_range cfg p → in_range cfg q → w ∈ group_wires p q → wire_ok cfg w.
Proof.
  intros W [_ Hp] [_ Hq]. destruct w as [[i j] b].
  intros [(_ & Hi & Hj)|(_ & [ [Hi Hj]|[Hj Hi] ])]%elem_of_group_wires; apply (wd_name _ W); auto.
Qed.

(** A loop whose iterations switch links. *)
Lemma foldM_set_wires {A} (f : A → config → outcome config) (g : A → list wire) l cfg :
  wired cfg → (∀ x cfg', x ∈ l → rewired cfg cfg' → f x cfg' = set_wires (g x) cfg') →
  (∀ x w, x ∈ l → w ∈ g x → wire_ok cfg w) → foldM f l cfg = set_wires (mjoin (g <$> l)) cfg.
Proof.
  intros W Hf Hok. assert (∀ l', (∀ x, x ∈ l' → x ∈ l) → ∀ cfg1, rewired cfg cfg1 →
    foldM f l' cfg1 = set_wires (mjoin (g <$> l')) cfg1) as Hgen; [|by apply Hgen, rewired_refl].
  induction l' as [|x l' IH]; intros Hl cfg1 Hw; [done|]. cbn [fmap list_fmap mjoin list_join foldM].
  rewrite set_wires_app, (Hf x) by (done || apply Hl; by left).
  destruct (set_wires_links (g x) cfg1 (rewired_wired _ _ Hw W)) as (cfg2 & Hr & Hw2 & _).
  { intros w Hwx. unfold wire_ok. rewrite (rewired_name _ _ _ _ Hw). apply (Hok x); [apply Hl; by left|done]. }
  rewrite Hr. simpl. apply IH; [intros; apply Hl; by right|by eapply rewired_trans].
Qed.

Lemma isolate_wires p q cfg :
  wired cfg → in_range cfg p → in_range cfg q → isolate p q cfg = set_wires (group_wires p q) cfg.
Proof.
  intros W Hp Hq. unfold isolate.
  rewrite (go_for_list (λ i cfg, cfg ← disconnectUnlocked i q cfg; connectUnlocked i p cfg)).
  apply foldM_set_wires; [done| |].
  - intros i cfg1 Hip Hw. pose proof (rewired_wired _ _ Hw W) as W1. pose proof (in_range_rewired _ _ _ Hw Hp) as Hp1.
    pose proof (in_range_rewired _ _ _ Hw Hq) as Hq1. assert (0 ≤ i < n cfg1) as Hi by by apply Hp1.
    rewrite disconnectUnlocked_wires, set_wires_app by (done || apply Hq1).
    destruct (set_wires _ cfg1) as [cfg2| |]; simpl; [apply connectUnlocked_wires|done..].
  - intros i w Hip [Hw|Hw]%elem_of_app; (eapply wire_ok_both, Hw; [done|by apply Hp|done]).
Qed.

Definition all_wires (k : Z) : list wire := mjoin ((λ i, both i (seqZ 0 k) true) <$> seqZ 0 k).

(** [ConnectAll] enables every end. *)
Lemma ConnectAll_links cfg :
  wired cfg → ∃ cfg', ConnectAll cfg = Ret cfg' ∧ rewired cfg cfg' ∧
    ∀ i j, 0 ≤ i < n cfg → 0 ≤ j < n cfg → link cfg' i j = Some true.
Proof.
  intros W. assert (0 ≤ n cfg) as Hn by (pose proof (wd_rows _ W); lia).
  assert (∀ i j b, (i, j, b) ∈ all_wires (n cfg) ↔ b = true ∧ 0 ≤ i < n cfg ∧ 0 ≤ j < n cfg) as Hin.
  { intros i j b. unfold all_wires. rewrite list_elem_of_join. setoid_rewrite list_elem_of_fmap. split.
    - intros (ws & Hb & x & -> & Hx%elem_of_seqZ). apply elem_of_both in Hb as [-> Hb]. rewrite !elem_of_seqZ in Hb. lia.
    - intros (-> & Hi & Hj). exists (both i (seqZ 0 (n cfg)) true).
      split; [apply elem_of_both; rewrite !elem_of_seqZ; split; [done|left; split; [done|lia] ]|].
      exists i. by rewrite elem_of_seqZ. }
  destruct (set_wires_links (all_wires (n cfg)) cfg W) as (cfg' & Hr & Hw & Hset & _).
  { intros [ [i j] b] Hw. apply Hin in Hw as (_ & Hi & Hj). by apply (wd_name _ W). }
  exists cfg'. split_and!; [|done|].
  - rewrite <-Hr. unfold ConnectAll. rewrite go_for_seqZ.
    replace (Z.of_nat (Z.to_nat (n cfg))) with (n cfg) by lia. apply foldM_set_wires; [done| |].
    + intros i cfg1 _ [en ->]. apply connectUnlocked_wires.
    + intros i [ [i' j'] b'] Hi%elem_of_seqZ Hb%elem_of_both. rewrite !elem_of_seqZ in Hb.
      apply (wd_name _ W); simpl; lia.
  - intros i j Hi Hj. apply Hset. split; [by apply Hin|]. by intros b' [-> _]%Hin.
Qed.

(** Whatever was connected before, after [partition p1 p2] of disjoint groups
    of servers the ends between two servers of the same group are enabled, the
    ends between the groups are disabled in both directions, and all others
    are as before; nothing else changes. *)
Lemma partition_links cfg p1 p2 :
  wired cfg → in_range cfg p1 → in_range cfg p2 → p1 ## p2 →
  ∃ cfg', partition p1 p2 cfg = Ret cfg' ∧ rewired cfg cfg' ∧
    ∀ i j, link cfg' i j =
      if decide (i ∈ p1 ∧ j ∈ p1 ∨ i ∈ p2 ∧ j ∈ p2) then Some true
      else if decide (i ∈ p1 ∧ j ∈ p2 ∨ i ∈ p2 ∧ j ∈ p1) then Some false
      else link cfg i j.
Proof.
  intros W Hp1 Hp2 Hdisj. assert (∀ w, w ∈ group_wires p1 p2 ++ group_wires p2 p1 → wire_ok cfg w) as Hok.
  { intros w [Hin|Hin]%elem_of_app; by eapply group_wires_ok in Hin. }
  destruct (set_wires_links _ cfg W Hok) as (cfg' & Hr & Hw & Hset & Hkeep). exists cfg'. split_and!; [|done|].
  - rewrite <-Hr, set_wires_app. unfold partition. rewrite isolate_wires by done.
    destruct (set_wires_links (group_wires p1 p2) cfg W) as (cfg1 & Hr1 & Hw1 & _).
    { intros w Hin. apply Hok, elem_of_app. by left. }
    rewrite Hr1. simpl. apply isolate_wires; [by eapply rewired_wired|by eapply in_range_rewired..].
  - assert (∀ x, x ∈ p1 → x ∈ p2 → False) as Hno by (intros x ? ?; by apply (Hdisj x)).
    intros i j. case_decide as Hsame; [|case_decide as Hacross].
    + apply Hset. split; [rewrite elem_of_app, !elem_of_group_wires; naive_solver|].
      intros b'. rewrite elem_of_app, !elem_of_group_wires. naive_solver.
    + apply Hset. split; [rewrite elem_of_app, !elem_of_group_wires; naive_solver|].
      intros b'. rewrite elem_of_app, !elem_of_group_wires. naive_solver.
    + apply Hkeep. intros b. rewrite elem_of_app, !elem_of_group_wires. naive_solver.
Qed.
End links.

(** ** The two groups of [make_partition] *)

(** The servers but [l]. *)
Definition others (k l : Z) : list Z := filter (λ i, i ≠ l) (seqZ 0 k).

Lemma others_snoc i l : 0 ≤ i → others (i + 1) l = others i l ++ (if decide (i = l) then [] else [i]).
Proof.
  intros Hi. unfold others. rewrite seqZ_app by lia. rewrite filter_app. f_equal. simpl.
  rewrite (filter_cons _ i []) , filter_nil. by repeat case_decide.
Qed.

Lemma length_others i l : 0 ≤ i → zlen (others i l) = if decide (0 ≤ l < i) then i - 1 else i.
Proof.
  intros Hi. pattern i. apply natlike_ind; [by case_decide; [lia|]| |done].
  intros x Hx IH. rewrite <-Z.add_1_r, others_snoc, length_app by done. repeat case_decide; simpl; lia.
Qed.

Lemma elem_of_others k l i : i ∈ others k l ↔ 0 ≤ i < k ∧ i ≠ l.
Proof. unfold others. rewrite list_elem_of_filter, elem_of_seqZ. lia. Qed.

Lemma others_permutation k l : 0 ≤ l < k → others k l ++ [l] ≡ₚ seqZ 0 k.
Proof.
  intros Hl. apply NoDup_Permutation.
  - apply NoDup_snoc; [by intros [_ ?]%elem_of_others|]. apply NoDup_filter, NoDup_seqZ.
  - apply NoDup_seqZ.
  - intros x. rewrite elem_of_app, elem_of_others, list_elem_of_singleton, elem_of_seqZ. lia.
Qed.

(** The groups are the servers but [l], one zero if [k] is even, and [l]. *)
Lemma splitServers_spec k l :
  2 ≤ k → 0 ≤ l < k → ∃ p1 p2, splitServers k l = Ret (p1, p2) ∧ zlen p1 = k / 2 + 1 ∧ zlen p2 = k / 2 ∧
    p1 ++ p2 = others k l ++ replicate (if Z.even k then 1 else 0) 0 ++ [l].
Proof.
  intros Hk Hl. unfold splitServers. rewrite Z.quot_div_nonneg by lia.
  pose proof (Z.div_mod k 2 ltac:(lia)) as Hdiv. pose proof (Z.mod_pos_bound k 2 ltac:(lia)) as Hmod.
  set (a := k / 2) in *.
  destruct (go_for_total (λ i '(p1, p2, j), zlen p1 = a + 1 ∧ zlen p2 = a ∧ j = zlen (others i l) ∧
    p1 ++ p2 = others i l ++ replicate (Z.to_nat (2 * a + 1 - j)) 0) (Z.to_nat k) 0
    (λ i '(p1, p2, j), if negb (i =? l) then
        if j <? zlen p1 then p1 ← go_set p1 j i; Ret (p1, p2, j + 1)
        else p2 ← go_set p2 (j - zlen p1) i; Ret (p1, p2, j + 1)
      else Ret (p1, p2, j))
    (replicate (Z.to_nat (a + 1)) 0, replicate (Z.to_nat a) 0, 0)) as ([ [p1 p2] j] & -> & Hinv).
  - rewrite !length_replicate. split_and!; [lia|lia|done|]. rewrite <-replicate_add. change (others 0 l) with (@nil Z).
    cbn [app]. f_equal. lia.
  - intros i [ [p1 p2] j] Hi (H1 & H2 & Hj & Happ). pose proof (length_others i l ltac:(lia)) as Hlen.
    assert (j < 2 * a + 1) as Hroom by (case_decide; lia).
    assert (∀ x, <[Z.to_nat j := x]> (p1 ++ p2) = (others i l ++ [x]) ++ replicate (Z.to_nat (2 * a + 1 - (j + 1))) 0) as Hset.
    { intros x. rewrite Happ. rewrite insert_app_r_alt by lia. replace (Z.to_nat j - length (others i l))%nat with 0%nat by lia.
      replace (Z.to_nat (2 * a + 1 - j)) with (S (Z.to_nat (2 * a + 1 - (j + 1)))) by lia. by rewrite <-app_assoc. }
    rewrite others_snoc by lia. destruct (i =? l) eqn:Hil; simpl.
    + b2p. eexists. split; [done|]. simpl. rewrite decide_True, app_nil_r by done. done.
    + b2p. rewrite decide_False by done. destruct (j <? zlen p1) eqn:Hb; b2p.
      * rewrite go_set_in_range by lia. simpl. eexists. split; [done|]. simpl. rewrite length_insert, length_app. simpl.
        split_and!; [lia..|]. rewrite <-insert_app_l by lia. apply Hset.
      * rewrite go_set_in_range by lia. simpl. eexists. split; [done|]. simpl. rewrite length_insert, length_app. simpl.
        split_and!; [lia..|]. rewrite <-Hset. rewrite insert_app_r_alt by lia. do 2 f_equal. lia.
  - replace (0 + Z.of_nat (Z.to_nat k)) with k in Hinv by lia. destruct Hinv as (H1 & H2 & -> & Happ). cbn beta iota.
    rewrite length_others, decide_True in Happ by lia. simpl. rewrite go_set_in_range by lia. simpl.
    eexists p1, _. split; [done|]. rewrite length_insert. split_and!; [lia..|].
    replace (Z.to_nat (zlen p2 - 1)) with (length p2 - 1)%nat by lia.
    assert (p1 ++ <[(length p2 - 1)%nat := l]> p2 = <[(length p1 + (length p2 - 1))%nat := l]> (p1 ++ p2)) as ->.
    { rewrite insert_app_r_alt by lia. do 2 f_equal. lia. }
    pose proof (length_others k l ltac:(lia)) as Hlen. rewrite decide_True in Hlen by lia.
    rewrite Happ. rewrite insert_app_r_alt by lia. f_equal. rewrite Zeven_mod. unfold Zeq_bool.
    destruct (Z.eq_dec (k mod 2) 0) as [He|He].
    + replace (Z.to_nat (2 * a + 1 - (k - 1))) with 2%nat by lia. rewrite He. simpl.
      by replace (length p1 + (length p2 - 1) - length (others k l))%nat with 1%nat by lia.
    + replace (Z.to_nat (2 * a + 1 - (k - 1))) with 1%nat by lia. replace (k mod 2) with 1 by lia. simpl.
      by replace (length p1 + (length p2 - 1) - length (others k l))%nat with 0%nat by lia.
Qed.

(** For an odd number of servers, three or more, [make_partition]'s groups are
    all the servers, each in one group, the leader in the smaller one, which
    is less than a majority. *)
Lemma splitServers_odd k l :
  3 ≤ k → Z.odd k = true → 0 ≤ l < k → ∃ p1 p2, splitServers k l = Ret (p1, p2) ∧
    p1 ++ p2 ≡ₚ seqZ 0 k ∧ l ∈ p2 ∧ zlen p1 = k / 2 + 1 ∧ zlen p2 = k / 2.
Proof.
  intros Hk Hodd Hl. destruct (splitServers_spec k l) as (p1 & p2 & Hr & H1 & H2 & Happ); [lia|done|].
  rewrite <-Z.negb_odd, Hodd in Happ. simpl in Happ. exists p1, p2. split_and!; [done| | |done|done].
  - rewrite Happ. by apply others_permutation.
  - assert (p2 ≠ []) as Hne. { intros ->. simpl in H2. pose proof (Z.div_le_mono 3 k 2 ltac:(lia) ltac:(lia)) as Hd. change (3 / 2) with 1 in Hd. lia. }
    destruct (exists_last Hne) as (p2' & x & ->). rewrite app_assoc in Happ. apply app_inj_tail in Happ as [_ ->].
    apply elem_of_app. right. by left.
Qed.

(** for an even number of servers, four or more, with a leader that is not
    server 0, server 0 is in both groups. *)
Theorem splitServers_even k l :
  4 ≤ k → Z.even k = true → 0 < l < k → ∃ p1 p2, splitServers k l = Ret (p1, p2) ∧ 0 ∈ p1 ∧ 0 ∈ p2 ∧ l ∈ p2.
Proof.
  intros Hk Heven Hl. destruct (splitServers_spec k l) as (p1 & p2 & Hr & H1 & H2 & Happ); [lia|lia|].
  rewrite Heven in Happ. simpl in Happ. exists p1, p2. pose proof (Z.div_le_mono 4 k 2 ltac:(lia) ltac:(lia)) as Hdiv.
  change (4 / 2) with 2 in Hdiv. pose proof (Z.div_mod k 2 ltac:(lia)). pose proof (Z.mod_pos_bound k 2 ltac:(lia)).
  pose proof (length_others k l ltac:(lia)) as Hlen. rewrite decide_True in Hlen by lia.
  pose proof Happ as Hd%(f_equal (drop (length p1))). rewrite drop_app_length in Hd.
  rewrite drop_app in Hd. split_and!; [done| | |].
  - pose proof Happ as Ht%(f_equal (lookup 0%nat)). rewrite lookup_app_l in Ht by lia.
    rewrite lookup_app_l in Ht by lia. apply list_elem_of_lookup. exists 0%nat. rewrite Ht. unfold others.
    rewrite seqZ_cons by lia. rewrite filter_cons_True by lia. done.
  - rewrite Hd. apply elem_of_app. right. replace (length p1 - length (others k l))%nat with 0%nat by lia. by left.
  - rewrite Hd. apply elem_of_app. right. replace (length p1 - length (others k l))%nat with 0%nat by lia. right. by left.
Qed.

(** C31: with an odd number of servers, three or more, [partition] of what
    [make_partition] gives for the leader [l] splits all servers into two
    groups: the leader's has less than a majority, the other one has a
    majority, and from then on two servers reach each other exactly when they
    are in the same group, whatever was connected before. *)
Theorem partition_isolates_leader {Srv P} (cfg : config Srv P) l :
  wired cfg → 3 ≤ n cfg → Z.odd (n cfg) = true → 0 ≤ l < n cfg →
  ∃ p1 p2 cfg', splitServers (n cfg) l = Ret (p1, p2) ∧ partition p1 p2 cfg = Ret cfg' ∧
    p1 ++ p2 ≡ₚ seqZ 0 (n cfg) ∧ l ∈ p2 ∧ 2 * zlen p2 < n cfg < 2 * zlen p1 ∧
    ∀ i j, 0 ≤ i < n cfg → 0 ≤ j < n cfg →
      link cfg' i j = Some (bool_decide (i ∈ p1 ∧ j ∈ p1 ∨ i ∈ p2 ∧ j ∈ p2)).
Proof.
  intros W Hn Hodd Hl. destruct (splitServers_odd (n cfg) l Hn Hodd Hl) as (p1 & p2 & Hr & Hperm & Hin & H1 & H2).
  assert (∀ x, x ∈ p1 ∨ x ∈ p2 ↔ 0 ≤ x < n cfg) as Hmem.
  { intros x. rewrite <-elem_of_app, Hperm, elem_of_seqZ. lia. }
  assert (NoDup (p1 ++ p2)) as (Hd1 & Hd & Hd2)%NoDup_app by (rewrite Hperm; apply NoDup_seqZ).
  pose proof (Z.div_mod (n cfg) 2 ltac:(lia)) as Hdm. rewrite <-Z.bit0_mod, Z.bit0_odd, Hodd in Hdm. simpl in Hdm.
  destruct (partition_links cfg p1 p2 W) as (cfg' & Hp & _ & Hlink).
  - split; [lia|]. intros i Hi. apply Hmem. by left.
  - split; [lia|]. intros i Hi. apply Hmem. by right.
  - intros x Hx1 Hx2. by eapply Hd.
  - exists p1, p2, cfg'. split_and!; [done|done|done|done|lia|lia|]. intros i j Hi Hj. rewrite Hlink.
    apply Hmem in Hi, Hj. clear -Hi Hj Hd. repeat case_decide; case_bool_decide; try done; naive_solver.
Qed.
