(* ===== verification/HarnessServers.v ===== *)
(** * The testers of the replicated services: starting and restarting

    For Harness.v, whatever the servers are:

    - [make_config] gives a network where everybody reaches everybody
      ([make_config_connected]);
    - a server that is shut down is cut off, and started again it has the Raft
      state it had persisted ([restart_recovers]);
    - a clerk reaches the servers it was to be connected to, through handles in
      some order ([makeClient_links]). *)

From Stdlib Require Import Strings.Byte.
From stdpp Require Import prelude gmap strings list.
From S2P Require Import Prelude Gob Labrpc Raft RaftNode RaftServer RaftEvolve RaftNet RaftElection TestNames Harness HarnessProps.
Local Open Scope Z_scope.

(** ** Fresh ends *)

(** The network [rn] is [rn0] with an end to each of the servers 0 .. j-1, with
    the names [name k]. *)
Record grown (name : Z → string) (j : Z) (rn0 rn : Network (string + Z)) : Prop := {
  gr_old : rn = set_ends (ends rn) (enabled rn) (connections rn) rn0;
  gr_ends x : x ∈ ends rn ↔ x ∈ ends rn0 ∨ ∃ k, 0 ≤ k < j ∧ x = inl (name k);
  gr_new k : 0 ≤ k < j → enabled rn !! inl (name k) = Some false ∧ connections rn !! inl (name k) = Some (Some (inr k));
  gr_other x : (∀ k, 0 ≤ k < j → x ≠ inl (name k)) →
    enabled rn !! x = enabled rn0 !! x ∧ connections rn !! x = connections rn0 !! x;
}.

(** The names are new and differ. *)
Record fresh (name : Z → string) (k : Z) (rn : Network (string + Z)) : Prop := {
  fr_new j : 0 ≤ j < k → inl (name j) ∉ ends rn;
  fr_inj i j : 0 ≤ i < k → 0 ≤ j < k → name i = name j → i = j;
}.

Lemma grown_refl name rn : grown name 0 rn rn.
Proof. split; [by destruct rn|intros x; split; [by left|intros [?|(k & ? & _)]; [done|lia] ]|lia|done]. Qed.

Lemma grown_step name k j rn0 rn :
  fresh name k rn0 → 0 ≤ j < k → grown name j rn0 rn →
  ∃ rn1, MakeEnd (inl (name j)) rn = Ret rn1 ∧ grown name (j + 1) rn0 (Connect (inl (name j)) (inr j) rn1).
Proof.
  intros [Hnew Hinj] Hj [Hold Hends Hn Ho]. unfold MakeEnd. rewrite decide_False.
  2:{ rewrite Hends. intros [?|(k' & Hk' & [= Heq])]; [by eapply Hnew|]. apply Hinj in Heq; lia. }
  eexists. split; [done|]. split; simpl.
  - rewrite Hold. done.
  - intros x. rewrite elem_of_union, elem_of_singleton, Hends. split.
    + intros [->|[?|(k' & ? & ->)] ]; [right; exists j; split; [lia|done]|by left|right; exists k'; split; [lia|done] ].
    + intros [?|(k' & Hk' & ->)]; [by right; left|]. destruct (decide (k' = j)) as [->|]; [by left|].
      right. right. exists k'. split; [lia|done].
  - intros k' Hk'. destruct (decide (k' = j)) as [->|Hne]; [by rewrite !lookup_insert_eq|].
    assert (inl (name j) ≠ (inl (name k') : string + Z)) as Hd by (intros [= Heq]; apply Hinj in Heq; lia).
    rewrite !lookup_insert_ne by done. apply Hn. lia.
  - intros x Hx. assert (inl (name j) ≠ x) as Hd by (intros Heq; apply (Hx j); [lia|done]).
    rewrite !lookup_insert_ne by done. apply Ho. intros k' Hk'. apply Hx. lia.
Qed.

Section servers.
Context {Srv C P : Type} `{GobLaws Z} `{GobLaws (list (LogEntry C))} `{!TestServer Srv C P, !TestServerLaws Srv C P}.
Abbreviation config := (config Srv P).
Implicit Types cfg : config.

(** The slices have [cfg.n] elements; the ends of the rows that are made exist,
    differ and lead where they should. *)
Record sound cfg : Prop := {
  sd_rows : zlen (endnames cfg) = n cfg;
  sd_servers : zlen (kvservers cfg) = n cfg;
  sd_saved : zlen (saved cfg) = n cfg;
  sd_row i row : endnames cfg !! i = Some (Some row) → zlen row = n cfg;
  sd_inj i j i' j' e : name_at cfg i j = Some e → name_at cfg i' j' = Some e → i = i' ∧ j = j';
  sd_ends i j e : name_at cfg i j = Some e → inl e ∈ ends (cfg_net cfg);
  sd_target i j e : name_at cfg i j = Some e → connections (cfg_net cfg) !! inl e = Some (Some (inr j));
}.

(** Row [i] has been made. *)
Definition has_row cfg (i : Z) : Prop := ∃ row, endnames cfg !! Z.to_nat i = Some (Some row).

Lemma sound_wired cfg : sound cfg → (∀ i, 0 ≤ i < n cfg → has_row cfg i) → wired cfg.
Proof.
  intros S Hrows. split; [apply S| |apply S]. intros i j Hi Hj. destruct (Hrows i Hi) as [row Hrow].
  unfold name_at. rewrite (proj2 (Z.leb_le 0 i)), (proj2 (Z.leb_le 0 j)) by lia. simpl. rewrite Hrow. simpl.
  apply lookup_lt_is_Some_2. pose proof (sd_row _ S _ _ Hrow). lia.
Qed.

Lemma row_name cfg i j e : name_at cfg i j = Some e ↔
  0 ≤ i ∧ 0 ≤ j ∧ ∃ row, endnames cfg !! Z.to_nat i = Some (Some row) ∧ row !! Z.to_nat j = Some e.
Proof.
  unfold name_at. destruct (_ && _) eqn:Hb.
  2:{ split; [done|]. intros (Hi & Hj & _). apply andb_false_iff in Hb as [Hb|Hb]; b2p; lia. }
  b2p. destruct (endnames cfg !! Z.to_nat i) as [ [row|] |]; simpl; naive_solver.
Qed.

(** The random bytes [bs] give the names [name]. *)
Definition names_of (bs : Z → list byte) (name : Z → string) : Prop := ∀ j, randstring 20 (bs j) = Ret (name j).

Lemma freshNames_spec i bs name cfg :
  0 ≤ n cfg → 0 ≤ i < zlen (endnames cfg) → names_of bs name →
  freshNames i bs cfg = Ret (set_endnames (<[Z.to_nat i := Some (name <$> seqZ 0 (n cfg))]> (endnames cfg)) cfg).
Proof.
  intros Hn Hi Hbs. unfold freshNames. rewrite go_set_in_range by done. simpl.
  destruct (go_for_total (λ j cfg', cfg' = set_endnames (<[Z.to_nat i := Some ((name <$> seqZ 0 j) ++
      replicate (Z.to_nat (n cfg - j)) "")]> (endnames cfg)) cfg) (Z.to_nat (n cfg)) 0
    (λ j cfg, s ← randstring 20 (bs j); row ← go_index (endnames cfg) i; row ← go_set (default [] row) j s;
       es ← go_set (endnames cfg) i (Some row); Ret (set_endnames es cfg))
    (set_endnames (<[Z.to_nat i := Some (replicate (Z.to_nat (n cfg)) "")]> (endnames cfg)) cfg)) as (cfg' & -> & ->).
  - simpl. by rewrite Z.sub_0_r.
  - intros j cfg' Hj ->. rewrite Hbs. simpl. rewrite (proj2 (go_index_Ret _ _ (Some ((name <$> seqZ 0 j) ++
      replicate (Z.to_nat (n cfg - j)) "")))) by (split; [lia|rewrite list_lookup_insert_eq by lia; done]). simpl.
    rewrite go_set_in_range by (rewrite length_app, length_fmap, length_seqZ, length_replicate; lia). simpl.
    rewrite go_set_in_range by (rewrite length_insert; lia). simpl. eexists. split; [done|].
    rewrite list_insert_insert_eq. unfold set_endnames. simpl. do 3 f_equal.
    rewrite insert_app_r_alt by (rewrite length_fmap, length_seqZ; lia). rewrite length_fmap, length_seqZ.
    replace (Z.to_nat j - Z.to_nat j)%nat with 0%nat by lia.
    replace (Z.to_nat (n cfg - j)) with (S (Z.to_nat (n cfg - (j + 1)))) by lia. simpl.
    rewrite seqZ_app, fmap_app by lia. by rewrite <-app_assoc.
  - f_equal. replace (0 + Z.of_nat (Z.to_nat (n cfg))) with (n cfg) by lia. rewrite Z.sub_diag. simpl. by rewrite app_nil_r.
Qed.

Lemma freshEnds_spec i name cfg :
  0 ≤ n cfg → fresh name (n cfg) (cfg_net cfg) → (∀ j, 0 ≤ j < n cfg → name_at cfg i j = Some (name j)) →
  ∃ rn, freshEnds i cfg = Ret (set_cnet rn cfg) ∧ grown name (n cfg) (cfg_net cfg) rn.
Proof.
  intros Hn Hf Hnames. unfold freshEnds.
  destruct (go_for_total (λ j cfg', ∃ rn, cfg' = set_cnet rn cfg ∧ grown name j (cfg_net cfg) rn)
    (Z.to_nat (n cfg)) 0 (λ j cfg, e ← endname_at i j cfg; rn ← MakeEnd (inl e) (cfg_net cfg);
       Ret (set_cnet (Connect (inl e) (inr j) rn) cfg)) cfg) as (cfg' & -> & rn & -> & Hg).
  - exists (cfg_net cfg). split; [by destruct cfg|apply grown_refl].
  - intros j cfg' Hj (rn & -> & Hg).
    rewrite (endname_at_name i j (set_cnet rn cfg) (name j)) by (apply (Hnames j); lia). simpl.
    destruct (grown_step name (n cfg) j (cfg_net cfg) rn Hf) as (rn1 & -> & Hg1); [lia|done|]. simpl.
    eexists. split; [done|]. by eexists.
  - exists rn. split; [done|]. by replace (n cfg) with (0 + Z.of_nat (Z.to_nat (n cfg))) by lia.
Qed.

(** The configuration after server [i] was started. *)
Definition started (i : Z) (name : Z → string) (rn : Network (string + Z)) (srv : nat) (ps : Persister) (kv : Srv)
    cfg : config :=
  set_cnet (AddServer (inr i) srv rn)
    (set_kvservers (<[Z.to_nat i := Some kv]> (kvservers cfg))
      (set_saved (<[Z.to_nat i := Some ps]> (saved cfg))
        (set_endnames (<[Z.to_nat i := Some (name <$> seqZ 0 (n cfg))]> (endnames cfg)) cfg))).

Lemma Copy_eq ps : Copy ps = ps.
Proof. by destruct ps. Qed.

Lemma StartServer_spec i bs name srv ps rf cfg :
  sound cfg → 0 ≤ i < n cfg → names_of bs name → fresh name (n cfg) (cfg_net cfg) →
  savedNow i cfg = Ret ps → Make (Z.to_nat (n cfg)) i (default MakePersister ps) = Ret rf →
  ∃ rn kv, StartServer i bs srv cfg = Ret (started i name rn srv (default MakePersister ps) kv cfg) ∧
    ts_rf kv = rf ∧ grown name (n cfg) (cfg_net cfg) rn.
Proof.
  intros Sd Hi Hbs Hf Hps Hmake. unfold StartServer.
  rewrite (freshNames_spec i bs name) by (done || (pose proof (sd_rows _ Sd); lia)). simpl.
  set (cfg1 := set_endnames _ cfg).
  destruct (freshEnds_spec i name cfg1) as (rn & -> & Hg); [simpl; lia|done| |].
  { intros j Hj. simpl in Hj. apply row_name. split_and!; [lia..|]. eexists. split.
    - simpl. apply list_lookup_insert_eq. pose proof (sd_rows _ Sd). lia.
    - rewrite list_lookup_fmap, lookup_seqZ_lt by lia. simpl. do 2 f_equal. lia. }
  simpl. change (savedNow i (set_cnet rn cfg1)) with (savedNow i cfg). rewrite Hps. simpl.
  rewrite go_set_in_range by (rewrite (sd_saved _ Sd); lia). simpl.
  assert (match ps with Some ps => Copy ps | None => MakePersister end = default MakePersister ps) as ->.
  { destruct ps; [apply Copy_eq|done]. }
  pose proof (ts_start_make (Z.to_nat (n cfg)) i (default MakePersister ps) (params cfg)) as Hstart. rewrite Hmake in Hstart.
  apply bind_Ret_inv in Hstart as (kv & -> & [= Hrf]). simpl.
  rewrite go_set_in_range by (rewrite (sd_servers _ Sd); lia). simpl. by exists rn, kv.
Qed.

(** What starting a server does to the rows. *)
Lemma started_name i name rn srv ps kv cfg i' j e :
  sound cfg → 0 ≤ i < n cfg → name_at (started i name rn srv ps kv cfg) i' j = Some e ↔
    (i' = i ∧ 0 ≤ j < n cfg ∧ e = name j ∨ i' ≠ i ∧ name_at cfg i' j = Some e).
Proof.
  intros Sd Hi. rewrite !row_name. simpl. destruct (decide (i' = i)) as [->|Hne].
  - rewrite list_lookup_insert_eq by (pose proof (sd_rows _ Sd); lia). split.
    + intros (_ & Hj & row & [= <-] & He). left. rewrite list_lookup_fmap in He.
      destruct (seqZ 0 (n cfg) !! Z.to_nat j) as [x|] eqn:Hx; [|done]. apply lookup_seqZ in Hx. simpl in He.
      injection He as <-. split_and!; [done|lia|lia|f_equal; lia].
    + intros [(_ & Hj & ->)|[? _] ]; [|done]. split_and!; [lia..|]. eexists. split; [done|].
      rewrite list_lookup_fmap, lookup_seqZ_lt by lia. simpl. do 2 f_equal. lia.
  - split.
    + intros (Hi' & Hj & Hrow). rewrite list_lookup_insert_ne in Hrow by lia. by right.
    + intros [ [? _] |(_ & Hi' & Hj & Hrow)]; [done|]. rewrite list_lookup_insert_ne by lia. done.
Qed.

Lemma started_sound i name rn srv ps kv cfg :
  sound cfg → 0 ≤ i < n cfg → fresh name (n cfg) (cfg_net cfg) → grown name (n cfg) (cfg_net cfg) rn →
  sound (started i name rn srv ps kv cfg) ∧ (∀ i', has_row (started i name rn srv ps kv cfg) i' ↔
    (Z.to_nat i' = Z.to_nat i ∨ has_row cfg i')) ∧
  (∀ j, 0 ≤ j < n cfg → link (started i name rn srv ps kv cfg) i j = Some false) ∧
  (∀ i' j, i' ≠ i → link (started i name rn srv ps kv cfg) i' j = link cfg i' j).
Proof.
  intros Sd Hi Hf Hg. pose proof (λ i' j e, started_name i name rn srv ps kv cfg i' j e Sd Hi) as Hname.
  pose proof (sd_rows _ Sd) as Hrows.
  assert (∀ i' j e, name_at cfg i' j = Some e → ∀ k, 0 ≤ k < n cfg → inl e ≠ (inl (name k) : string + Z)) as Hold.
  { intros i' j e He k Hk [= ->]. eapply (fr_new _ _ _ Hf k Hk), (sd_ends _ Sd _ _ _ He). }
  split_and!.
  - split.
    + simpl. by rewrite length_insert.
    + simpl. rewrite length_insert. apply Sd.
    + simpl. rewrite length_insert. apply Sd.
    + simpl. intros i' row Hrow. destruct (decide (i' = Z.to_nat i)) as [->|Hne].
      * rewrite list_lookup_insert_eq in Hrow by lia. injection Hrow as <-. rewrite length_fmap, length_seqZ. lia.
      * rewrite list_lookup_insert_ne in Hrow by done. by eapply sd_row.
    + intros i1 j1 i2 j2 e. rewrite !Hname.
      intros [(-> & Hj1 & ->)|[Hn1 He1] ] [(-> & Hj2 & Heq)|[Hn2 He2] ].
      * split; [done|]. by apply (fr_inj _ _ _ Hf).
      * exfalso. by eapply (Hold _ _ _ He2 j1 Hj1).
      * subst e. exfalso. by eapply (Hold _ _ _ He1 j2 Hj2).
      * by eapply sd_inj.
    + intros i' j e. rewrite Hname. simpl. rewrite (gr_ends _ _ _ _ Hg).
      intros [(-> & Hj & ->)|[_ He] ]; [right; by exists j|left; by eapply sd_ends].
    + intros i' j e. rewrite Hname. simpl. intros [(-> & Hj & ->)|[_ He] ]; [by apply (gr_new _ _ _ _ Hg)|].
      rewrite (proj2 (gr_other _ _ _ _ Hg (inl e) (Hold _ _ _ He))). by eapply sd_target.
  - intros i'. unfold has_row. simpl. destruct (decide (Z.to_nat i' = Z.to_nat i)) as [->|Hne].
    + rewrite list_lookup_insert_eq by lia. split; [by left|]. intros _. by eexists.
    + rewrite list_lookup_insert_ne by done. split; [by right|]. by intros [?|?].
  - intros j Hj. unfold link. rewrite (proj2 (Hname i j (name j))) by by left. simpl. by apply (gr_new _ _ _ _ Hg).
  - intros i' j Hne. unfold link. destruct (name_at cfg i' j) as [e|] eqn:He.
    + rewrite (proj2 (Hname i' j e)) by by right. simpl. apply (gr_other _ _ _ _ Hg). by eapply Hold.
    + destruct (name_at (started i name rn srv ps kv cfg) i' j) as [e|] eqn:He'; [|done].
      apply Hname in He' as [ [? _] |[_ ?] ]; [done|congruence].
Qed.

(** *** A full set of servers *)

Lemma rewired_sound cfg cfg' : rewired cfg cfg' → sound cfg → sound cfg'.
Proof. by intros [en ->] []. Qed.

(** The random names are 20 characters each and all differ. *)
Record names_ok (k : nat) (bs : Z → Z → list byte) (name : Z → Z → string) : Prop := {
  no_names i : 0 ≤ i < Z.of_nat k → names_of (bs i) (name i);
  no_inj i j i' j' : 0 ≤ i < Z.of_nat k → 0 ≤ i' < Z.of_nat k → 0 ≤ j < Z.of_nat k → 0 ≤ j' < Z.of_nat k →
    name i j = name i' j' → i = i' ∧ j = j';
}.

(** In a new configuration of [k] servers every end is enabled and leads to
    its server, every server is registered and runs on an empty persister:
    whatever the random bytes, as long as no two names collide. *)
Lemma make_config_connected (k : nat) unreliable p now bs srv name :
  names_ok k bs name →
  ∃ cfg, make_config k unreliable p now bs srv = Ret cfg ∧ sound cfg ∧ wired cfg ∧ n cfg = Z.of_nat k ∧
    reliable (cfg_net cfg) = negb unreliable ∧
    (∀ x, x ∈ ends (cfg_net cfg) → ∃ i j, 0 ≤ i < Z.of_nat k ∧ 0 ≤ j < Z.of_nat k ∧ x = inl (name i j)) ∧
    ∀ i, 0 ≤ i < Z.of_nat k →
      servers (cfg_net cfg) !! inr i = Some (Some (srv i)) ∧
      (∃ kv, kvservers cfg !! Z.to_nat i = Some (Some kv) ∧ Make k i MakePersister = Ret (ts_rf kv)) ∧
      (∀ j, 0 ≤ j < Z.of_nat k → link cfg i j = Some true).
Proof.
  intros [Hbs Hinj]. unfold make_config. set (cfg0 := mkConfig MakeNetwork _ _ _ _ _ _ _ _ _ _ _).
  destruct (go_for_total (λ i cfg, sound cfg ∧ n cfg = Z.of_nat k ∧ reliable (cfg_net cfg) = true ∧
      (∀ x, x ∈ ends (cfg_net cfg) → ∃ i' j, 0 ≤ i' < i ∧ 0 ≤ j < Z.of_nat k ∧ x = inl (name i' j)) ∧
      (∀ i', i ≤ i' < Z.of_nat k → savedNow i' cfg = Ret None) ∧
      ∀ i', 0 ≤ i' < i → has_row cfg i' ∧ servers (cfg_net cfg) !! inr i' = Some (Some (srv i')) ∧
        ∃ kv, kvservers cfg !! Z.to_nat i' = Some (Some kv) ∧ Make k i' MakePersister = Ret (ts_rf kv))
    k 0 (λ i cfg, StartServer i (bs i) (srv i) cfg) cfg0) as (cfg & -> & Sd & Hn & Hrel & Hends & _ & Hserv).
  - split_and!; [|done|done|simpl; set_solver| |simpl; lia].
    + split; simpl; rewrite ?length_replicate; try done.
      * intros i row Hrow. by apply lookup_replicate in Hrow as [? _].
      * intros i j i' j' e (_ & _ & row & Hrow & _)%row_name. by apply lookup_replicate in Hrow as [? _].
      * intros i j e (_ & _ & row & Hrow & _)%row_name. by apply lookup_replicate in Hrow as [? _].
      * intros i j e (_ & _ & row & Hrow & _)%row_name. by apply lookup_replicate in Hrow as [? _].
    + intros i' Hi'. unfold savedNow. simpl. rewrite !(proj2 (go_index_Ret _ i' None)); [done|..];
        (split; [lia|apply lookup_replicate; split; [done|lia] ]).
  - intros i cfg Hi (Sd & Hn & Hrel & Hends & Hnone & Hserv). simpl in Hi.
    assert (fresh (name i) (n cfg) (cfg_net cfg)) as Hf.
    { split; rewrite Hn.
      - intros j Hj Hin. apply Hends in Hin as (i' & j' & Hi' & Hj' & [= Heq]).
        apply Hinj in Heq as [-> _]; lia.
      - intros j j' Hj Hj' Heq. by apply Hinj in Heq as [_ ->]; [|lia..]. }
    destruct (Make_fresh (C := C) k i) as (rf & Hmake & _); [lia|].
    destruct (StartServer_spec i (bs i) (name i) (srv i) None rf cfg Sd) as (rn & kv & -> & Hrf & Hg);
      [lia|apply Hbs; lia|done|apply Hnone; lia|by rewrite Hn, Nat2Z.id|].
    destruct (started_sound i (name i) rn (srv i) MakePersister kv cfg Sd) as (Sd' & Hrow & _); [lia|done|done|].
    eexists. split; [done|]. pose proof (sd_servers _ Sd) as Hks. simpl. split_and!; [exact Sd'|done| | | |].
    + by rewrite (gr_old _ _ _ _ Hg).
    + intros x. rewrite (gr_ends _ _ _ _ Hg). intros [(i' & j & ? & ? & ->)%Hends|(j & Hj & ->)].
      * exists i', j. split_and!; [lia..|done].
      * exists i, j. split_and!; [lia..|done].
    + intros i' Hi'. specialize (Hnone i' ltac:(lia)). unfold savedNow in *. simpl.
      unfold go_index in *. rewrite !length_insert. rewrite !list_lookup_insert_ne by lia. done.
    + intros i' Hi'. rewrite Hrow. destruct (decide (i' = i)) as [->|Hne].
      * split_and!; [by left|apply lookup_insert_eq|]. exists kv. rewrite list_lookup_insert_eq by lia. by rewrite Hrf.
      * destruct (Hserv i') as (? & ? & kv' & ? & ?); [lia|]. split_and!; [by right| |].
        { rewrite lookup_insert_ne by congruence. by rewrite (gr_old _ _ _ _ Hg). }
        exists kv'. by rewrite list_lookup_insert_ne by lia.
  - simpl. assert (wired cfg) as W by (apply sound_wired; [done|]; intros i Hi; apply Hserv; lia).
    destruct (ConnectAll_links cfg W) as (cfg' & -> & Hw & Hl). simpl.
    pose proof (rewired_sound _ _ Hw Sd) as Sd'. pose proof (rewired_wired _ _ Hw W) as W'.
    destruct Hw as [en ->]. eexists. split_and!; [done|by destruct Sd'|by destruct W'|done|done|exact Hends|].
    intros i Hi. destruct (Hserv i ltac:(lia)) as (_ & ? & kv & ? & ?). split_and!; [done|by exists kv|].
    intros j Hj. apply (Hl i j); lia.
Qed.

(** *** Restarting *)

Lemma savedNow_running i kv cfg : kvservers cfg !! Z.to_nat i = Some (Some kv) → 0 ≤ i →
  savedNow i cfg = Ret (Some (persister (ts_rf kv))).
Proof. intros Hkv Hi. unfold savedNow. by rewrite (proj2 (go_index_Ret _ i (Some kv))). Qed.

(** The configuration after server [i] was shut down. *)
Definition down (i : Z) (kv : Srv) cfg : config :=
  set_kvservers (<[Z.to_nat i := None]> (kvservers cfg))
    (set_saved (<[Z.to_nat i := Some (persister (ts_rf kv))]> (saved cfg))
      (set_cnet (DeleteServer (inr i) (cfg_net cfg)) cfg)).

Lemma ShutdownServer_spec i kv cfg :
  sound cfg → wired cfg → 0 ≤ i < n cfg → kvservers cfg !! Z.to_nat i = Some (Some kv) →
  ∃ cfg1, ShutdownServer i cfg = Ret (down i kv cfg1) ∧ rewired cfg cfg1 ∧
    (∀ j, 0 ≤ j < n cfg → link cfg1 i j = Some false ∧ link cfg1 j i = Some false).
Proof.
  intros Sd W Hi Hkv. destruct (set_wires_links (both i (All cfg) false) cfg W) as (cfg1 & Hr & Hw & Hset & _).
  { intros w. apply wire_ok_both; [done|done|]. unfold in_range, All. rewrite length_seqZ. split; [lia|].
    intros x. rewrite elem_of_seqZ. lia. }
  exists cfg1. split_and!; [|done|].
  - unfold ShutdownServer. rewrite disconnectUnlocked_wires, Hr; [|done|done| |].
    + simpl. pose proof (sd_servers _ Sd). pose proof (sd_saved _ Sd).
      change (savedNow i (set_cnet (DeleteServer (inr i) (cfg_net cfg1)) cfg1)) with (savedNow i cfg1).
      assert (kvservers cfg1 = kvservers cfg ∧ saved cfg1 = saved cfg) as [Eks Esv] by by destruct Hw as [en ->].
      rewrite (savedNow_running i kv cfg1) by (rewrite ?Eks; done || lia). simpl. rewrite Esv, Eks.
      rewrite go_set_in_range by lia. simpl. rewrite (proj2 (go_index_Ret _ i (Some kv))) by (split; [lia|done]). simpl.
      rewrite go_set_in_range by lia. simpl. unfold down. by rewrite Esv, Eks, Copy_eq.
    + unfold All. rewrite length_seqZ. lia.
    + intros j. unfold All. rewrite elem_of_seqZ. lia.
  - intros j Hj. assert (j ∈ All cfg) as Hin by (unfold All; rewrite elem_of_seqZ; lia).
    split; apply Hset; (split; [apply elem_of_both; naive_solver|by intros b' [-> _]%elem_of_both]).
Qed.

Lemma down_sound i kv cfg : sound cfg → sound (down i kv cfg).
Proof. intros []. split; simpl; rewrite ?length_insert; done. Qed.

(** C22: a running server, which may have been restarted before, is shut down
    and started again: in between it is not registered and no end between it
    and a server is enabled (the clerks' ends are left as they are);
    afterwards, once all are connected again, every server reaches every server
    and the restarted one has the term, the vote, the log and the snapshot that
    are on its disk: the log and the snapshot are those it had, the term and the
    vote are not ahead of those it had, and they are the same if it had
    voted in its term. *)
Theorem restart_recovers i kv bs name srv cfg :
  sound cfg → wired cfg → 0 ≤ i < n cfg → kvservers cfg !! Z.to_nat i = Some (Some kv) →
  lived (Z.to_nat (n cfg)) i (ts_rf kv) →
  names_of bs name → fresh name (n cfg) (cfg_net cfg) →
  ∃ cfg1 cfg2 cfg3 kv', ShutdownServer i cfg = Ret cfg1 ∧ StartServer i bs srv cfg1 = Ret cfg2 ∧
    ConnectAll cfg2 = Ret cfg3 ∧
    kvservers cfg1 !! Z.to_nat i = Some None ∧ servers (cfg_net cfg1) !! inr i = Some None ∧
    (∀ j, 0 ≤ j < n cfg → link cfg1 i j = Some false ∧ link cfg1 j i = Some false) ∧
    sound cfg3 ∧ servers (cfg_net cfg3) !! inr i = Some (Some srv) ∧
    (∀ a b, 0 ≤ a < n cfg → 0 ≤ b < n cfg → link cfg3 a b = Some true) ∧
    kvservers cfg3 !! Z.to_nat i = Some (Some kv') ∧ lived (Z.to_nat (n cfg)) i (ts_rf kv') ∧
    booted (persister (ts_rf kv)) = (CurrentTerm (ts_rf kv'), VoteFor (ts_rf kv'), Logs (ts_rf kv')) ∧
    snapshot (ts_rf kv') = ps_snapshot (persister (ts_rf kv)) ∧
    Logs (ts_rf kv') = Logs (ts_rf kv) ∧ snapshot (ts_rf kv') = snapshot (ts_rf kv) ∧
    lastIncludedIndex (ts_rf kv') = lastIncludedIndex (ts_rf kv) ∧ vote_le (ts_rf kv') (ts_rf kv) ∧
    (VoteFor (ts_rf kv) ≠ Unvote → CurrentTerm (ts_rf kv') = CurrentTerm (ts_rf kv) ∧
       VoteFor (ts_rf kv') = VoteFor (ts_rf kv)).
Proof.
  intros Sd W Hi Hkv Hlived Hbs Hf.
  destruct (lived_keeps (Z.to_nat (n cfg)) i (ts_rf kv)) as (Hwf & Hdur & Hd & Hpe & Hme); [lia|done|].
  destruct (Make_recovers (ts_rf kv) Hwf Hdur Hd) as (t & v & Hb & Hle & Hret & _).
  rewrite Hpe, Hme in *. set (rf' := boot_state _ _ _ _ _ _ _ _) in *.
  destruct (ShutdownServer_spec i kv cfg Sd W Hi Hkv) as (c & Hdown & Hw & Hoff).
  pose proof (down_sound i kv _ (rewired_sound _ _ Hw Sd)) as Sd1. set (cfg1 := down i kv c) in *.
  assert (n cfg1 = n cfg ∧ length (kvservers c) = length (kvservers cfg) ∧ length (saved c) = length (saved cfg))
    as (Hn & Hks & Hsv) by by destruct Hw as [en ->].
  pose proof (sd_servers _ Sd) as Hlk. pose proof (sd_saved _ Sd) as Hls.
  assert (kvservers cfg1 !! Z.to_nat i = Some None) as Hnone by (apply list_lookup_insert_eq; lia).
  assert (savedNow i cfg1 = Ret (Some (persister (ts_rf kv)))) as Hnow.
  { unfold savedNow. rewrite (proj2 (go_index_Ret (kvservers cfg1) i None)) by (split; [lia|exact Hnone]).
    apply go_index_Ret. split; [lia|]. apply list_lookup_insert_eq. lia. }
  destruct (StartServer_spec i bs name srv (Some (persister (ts_rf kv))) rf' cfg1 Sd1) as (rn & kv' & Hstart & Hrf & Hg);
    [lia|done| |done|by rewrite Hn|].
  { rewrite Hn. destruct Hf as [F1 F2]. split; [|done]. by destruct Hw as [en Heq]; subst cfg1; rewrite Heq. }
  set (cfg2 := started i name rn srv _ kv' cfg1) in *.
  destruct (started_sound i name rn srv (persister (ts_rf kv)) kv' cfg1 Sd1) as (Sd2 & Hrow & _); [lia| |done|].
  { rewrite Hn. destruct Hf as [F1 F2]. split; [|done]. by destruct Hw as [en Heq]; subst cfg1; rewrite Heq. }
  assert (wired cfg2) as W2.
  { apply sound_wired; [done|]. intros j Hj. apply Hrow. right. change (n cfg2) with (n cfg1) in Hj. rewrite Hn in Hj.
    destruct (wd_name _ W j j) as [e (_ & _ & row & Hr & _)%row_name]; [done..|]. exists row. by destruct Hw as [en ->]. }
  destruct (ConnectAll_links cfg2 W2) as (cfg3 & Hconn & Hw3 & Hall).
  exists cfg1, cfg2, cfg3, kv'. split_and!; try done.
  - apply lookup_insert_eq.
  - by eapply rewired_sound.
  - destruct Hw3 as [en ->]. apply lookup_insert_eq.
  - intros a b Ha Hb'. apply Hall; change (n cfg2) with (n cfg1); rewrite Hn; done.
  - destruct Hw3 as [en ->]. simpl. apply list_lookup_insert_eq. rewrite length_insert. lia.
  - rewrite Hrf. by apply (lived_again _ _ (ts_rf kv)).
  - by rewrite Hrf.
  - rewrite Hrf. destruct Hdur as (? & ? & _ & Hsnap & _). by rewrite Hsnap.
  - by rewrite Hrf.
  - by rewrite Hrf.
  - by rewrite Hrf.
  - by rewrite Hrf.
  - intros Hv. rewrite Hrf. destruct (held_cast (ts_rf kv) Hdur Hv) as (L & HL). rewrite Hb in HL. by simplify_eq.
Qed.

(** *** Clerks *)

Definition end_of (name : Z → string) (j : Z) : string + Z := inl (name j).

Lemma clientEnds_spec bs name cfg :
  0 ≤ n cfg → names_of bs name → fresh name (n cfg) (cfg_net cfg) →
  ∃ rn, clientEnds bs cfg = Ret (name <$> seqZ 0 (n cfg), end_of name <$> seqZ 0 (n cfg), set_cnet rn cfg) ∧
    grown name (n cfg) (cfg_net cfg) rn.
Proof.
  intros Hn Hbs Hf. unfold clientEnds. set (k := Z.to_nat (n cfg)).
  assert (∀ {A} (f : Z → A) (d : A) j, 0 ≤ j < n cfg →
    <[Z.to_nat j := f j]> ((f <$> seqZ 0 j) ++ replicate (Z.to_nat (n cfg - j)) d) =
    (f <$> seqZ 0 (j + 1)) ++ replicate (Z.to_nat (n cfg - (j + 1))) d) as Hset.
  { intros A f d j Hj. rewrite insert_app_r_alt by (rewrite length_fmap, length_seqZ; lia).
    rewrite length_fmap, length_seqZ. replace (Z.to_nat j - Z.to_nat j)%nat with 0%nat by lia.
    replace (Z.to_nat (n cfg - j)) with (S (Z.to_nat (n cfg - (j + 1)))) by lia. simpl.
    rewrite seqZ_app, fmap_app by lia. by rewrite <-app_assoc. }
  assert (∀ {A} (f : Z → A) (d : A) j, 0 ≤ j < n cfg →
    go_set ((f <$> seqZ 0 j) ++ replicate (Z.to_nat (n cfg - j)) d) j (f j) =
    Ret ((f <$> seqZ 0 (j + 1)) ++ replicate (Z.to_nat (n cfg - (j + 1))) d)) as Hgo.
  { intros A f d j Hj. rewrite go_set_in_range by (rewrite length_app, length_fmap, length_seqZ, length_replicate; lia).
    by rewrite Hset. }
  destruct (go_for_total (λ j '(names, es, cfg'), names = (name <$> seqZ 0 j) ++ replicate (Z.to_nat (n cfg - j)) "" ∧
      es = (end_of name <$> seqZ 0 j) ++ replicate (Z.to_nat (n cfg - j)) (inl "") ∧
      ∃ rn, cfg' = set_cnet rn cfg ∧ grown name j (cfg_net cfg) rn) k 0
    (λ j '(names, ends, cfg), s ← randstring 20 (bs j); names ← go_set names j s; rn ← MakeEnd (inl s) (cfg_net cfg);
       ends ← go_set ends j (inl s); Ret (names, ends, set_cnet (Connect (inl s) (inr j) rn) cfg))
    (replicate k "", replicate k (inl ""), cfg)) as ([ [names es] cfg'] & -> & -> & -> & rn & -> & Hg).
  - simpl. rewrite Z.sub_0_r. split_and!; [done..|]. exists (cfg_net cfg). split; [by destruct cfg|apply grown_refl].
  - intros j [ [names es] cfg'] Hj (-> & -> & rn & -> & Hg). rewrite Hbs. simpl. rewrite (Hgo _ name) by lia. simpl.
    destruct (grown_step name (n cfg) j (cfg_net cfg) rn Hf) as (rn1 & -> & Hg1); [lia|done|]. simpl.
    rewrite (Hgo _ (end_of name) (inl "") j ltac:(lia) : go_set _ j (inl (name j)) = _). simpl.
    eexists. split; [done|]. split_and!; [done..|]. by eexists.
  - exists rn. replace (0 + Z.of_nat k) with (n cfg) in * by lia. rewrite Z.sub_diag. simpl. by rewrite !app_nil_r.
Qed.

(** Enabling ends. *)
Lemma enable_names (name : Z → string) (yes : bool) to cfg :
  (∀ j, j ∈ to → 0 ≤ j < n cfg) →
  ∃ cfg', foldM (λ t cfg', s ← go_index (name <$> seqZ 0 (n cfg)) t;
      Ret (set_cnet (Enable (inl s) yes (cfg_net cfg')) cfg')) to cfg = Ret cfg' ∧ rewired cfg cfg' ∧
    (∀ j, j ∈ to → enabled (cfg_net cfg') !! inl (name j) = Some yes) ∧
    (∀ x, (∀ j, j ∈ to → x ≠ inl (name j)) → enabled (cfg_net cfg') !! x = enabled (cfg_net cfg) !! x).
Proof.
  induction to as [|t to IH] using rev_ind; intros Hto.
  { exists cfg. split_and!; [done|apply rewired_refl|by intros j ?%not_elem_of_nil|done]. }
  destruct IH as (cfg1 & Hr & Hw & Hin & Hout); [intros; apply Hto, elem_of_app; by left|].
  rewrite foldM_app, Hr. simpl.
  assert (0 ≤ t < n cfg) as Ht by (apply Hto, elem_of_app; right; by left).
  rewrite (proj2 (go_index_Ret _ t (name t))).
  2:{ split; [lia|]. rewrite list_lookup_fmap, lookup_seqZ_lt by lia. simpl. do 2 f_equal. lia. }
  simpl. eexists. split_and!; [done|eapply rewired_trans; [exact Hw|by eexists]| |]; simpl.
  - intros j Hj. destruct (decide (name t = name j)) as [->|Hne]; [apply lookup_insert_eq|].
    rewrite lookup_insert_ne by congruence. apply Hin. by apply elem_of_app in Hj as [?| ->%list_elem_of_singleton].
  - intros x Hx. rewrite lookup_insert_ne by (intros <-; eapply Hx; [|done]; apply elem_of_app; right; by left).
    apply Hout. intros j Hj. apply Hx, elem_of_app. by left.
Qed.

(** a new clerk gets its own end to every server, each leading to its server,
    enabled for the servers in [to] and disabled for the others; the handles
    are those ends in some order, and the servers' own links and ends stay as
    they were. *)
Theorem makeClient_links to ck bs name rnd cfg :
  sound cfg → (∀ j, j ∈ to → 0 ≤ j < n cfg) → names_of bs name → fresh name (n cfg) (cfg_net cfg) →
  (∀ i, 0 ≤ i → 0 ≤ rnd i ≤ i) →
  ∃ handles cfg', makeClient to ck bs rnd cfg = Ret (handles, cfg') ∧ sound cfg' ∧
    handles ≡ₚ end_of name <$> seqZ 0 (n cfg) ∧ clerks cfg' !! ck = Some (name <$> seqZ 0 (n cfg)) ∧
    (∀ j, 0 ≤ j < n cfg →
      connections (cfg_net cfg') !! end_of name j = Some (Some (inr j)) ∧
      enabled (cfg_net cfg') !! end_of name j = Some (bool_decide (j ∈ to))) ∧
    (∀ i j, link cfg' i j = link cfg i j).
Proof.
  intros Sd Hto Hbs Hf Hrnd. pose proof (sd_rows _ Sd) as Hlen. unfold makeClient.
  destruct (clientEnds_spec bs name cfg) as (rn & -> & Hg); [lia|done|done|]. simpl.
  destruct (random_handles_perm rnd (end_of name <$> seqZ 0 (n cfg)) Hrnd) as (handles & -> & Hperm). simpl.
  unfold ConnectClientUnlocked. simpl. rewrite lookup_insert_eq. simpl.
  set (cfg1 := set_clerks _ _ _).
  rewrite (go_for_list (λ t cfg', s ← go_index (name <$> seqZ 0 (n cfg)) t;
    Ret (set_cnet (Enable (inl s) true (cfg_net cfg')) cfg'))).
  destruct (enable_names name true to cfg1 Hto) as (cfg2 & Hr & Hw & Hin & Hout).
  change (n cfg1) with (n cfg) in Hr. rewrite Hr. simpl.
  assert (∀ i j e, name_at cfg i j = Some e → ∀ k, 0 ≤ k < n cfg → inl e ≠ end_of name k) as Hold.
  { intros i j e He k Hk [= ->]. eapply (fr_new _ _ _ Hf k Hk), (sd_ends _ Sd _ _ _ He). }
  assert (sound cfg1) as Sd1.
  { destruct Sd. split; try done.
    - intros i j e He. simpl. apply (gr_ends _ _ _ _ Hg). left. by apply (sd_ends0 i j).
    - intros i j e He. simpl. rewrite (proj2 (gr_other _ _ _ _ Hg (inl e) (Hold i j e He))). by apply (sd_target0 i j). }
  eexists _, _. split; [done|]. split_and!; [by eapply rewired_sound|done| | |].
  - destruct Hw as [en ->]. simpl. apply lookup_insert_eq.
  - intros j Hj. destruct (gr_new _ _ _ _ Hg j Hj) as [Hen Hconn]. split.
    + by destruct Hw as [en ->].
    + case_bool_decide as Hjt; [by apply Hin|]. rewrite Hout; [done|]. intros j' Hj' [= Heq].
      apply (fr_inj _ _ _ Hf) in Heq as ->; [done|done|by apply Hto].
  - intros i j. unfold link. rewrite (rewired_name _ _ _ _ Hw). change (name_at cfg1) with (name_at cfg).
    destruct (name_at cfg i j) as [e|] eqn:He; [|done]. simpl. rewrite Hout.
    + simpl. apply (gr_other _ _ _ _ Hg). by eapply Hold.
    + intros k Hk. eapply Hold; [done|by apply Hto].
Qed.
End servers.
