(* ===== verification/KvSrvConfig.v ===== *)
(** * The tester of the single key/value server

    src/src/kvsrv/config.go: one server that is never restarted, and clerks
    with one end each, on the network of Labrpc.v.  Ends are strings, the
    server is number 0; pointers to clerks are numbers; random bytes, the time
    and [t.Failed()] are arguments. *)

From Stdlib Require Import Strings.Byte Ascii String.
From stdpp Require Import prelude gmap strings list.
From S2P Require Import Prelude Labrpc KvSrv TestNames.
Local Open Scope Z_scope.

Definition SERVERID : Z := 0.

Record config := mkConfig {
  cfg_net : Network (string + Z);
  kvserver : option KVServer;
  clerks : gmap nat string;
  nextClientId : Z;
  start : Z;
  t0 : Z;
  rpcs0 : Z;
  ops : Z;
}.
Implicit Types cfg : config.

Definition set_cnet (x : Network (string + Z)) cfg : config :=
  mkConfig x (kvserver cfg) (clerks cfg) (nextClientId cfg) (start cfg) (t0 cfg) (rpcs0 cfg) (ops cfg).
Definition set_clerks (x : gmap nat string) (next : Z) cfg : config :=
  mkConfig (cfg_net cfg) (kvserver cfg) x next (start cfg) (t0 cfg) (rpcs0 cfg) (ops cfg).
Definition set_stats (t rpcs o : Z) cfg : config :=
  mkConfig (cfg_net cfg) (kvserver cfg) (clerks cfg) (nextClientId cfg) (start cfg) t rpcs o.

Definition checkTimeout (failed : bool) (now : Z) cfg : outcome unit :=
  if negb failed && (now - start cfg >? 120 * 10 ^ 9) then Panic Fatal else Ret tt.

Definition cleanup (failed : bool) (now : Z) cfg : outcome config :=
  let cfg := set_cnet (Cleanup (cfg_net cfg)) cfg in
  _ ← checkTimeout failed now cfg;
  Ret cfg.

(** A clerk that is not in the map has the name "". *)
Definition ConnectClientUnlocked (ck : nat) cfg : config :=
  let endname := default "" (clerks cfg !! ck) in
  set_cnet (Enable (inl endname) true (cfg_net cfg)) cfg.

Definition ConnectClient (ck : nat) cfg : config := ConnectClientUnlocked ck cfg.

Definition makeClient (ck : nat) (b : list byte) cfg : outcome (Clerk * config) :=
  endname ← randstring 20 b;
  rn ← MakeEnd (inl endname) (cfg_net cfg);
  let cfg := set_cnet (Connect (inl endname) (inr SERVERID) rn) cfg in
  let clerk := MakeClerk in
  let cfg := set_clerks (<[ck := endname]> (clerks cfg)) (nextClientId cfg + 1) cfg in
  Ret (clerk, ConnectClientUnlocked ck cfg).

(** [os.Remove] of the name, once for each of its characters, removes nothing. *)
Definition deleteClient (ck : nat) cfg : outcome config :=
  let v := default "" (clerks cfg !! ck) in
  rn ← DeleteEnd (inl v) (cfg_net cfg);
  Ret (set_clerks (delete ck (clerks cfg)) (nextClientId cfg) (set_cnet rn cfg)).

(** [srv] is the new server object with the service. *)
Definition StartServer (srv : nat) cfg : config :=
  let cfg := mkConfig (cfg_net cfg) (Some StartKVServer) (clerks cfg) (nextClientId cfg) (start cfg) (t0 cfg)
               (rpcs0 cfg) (ops cfg) in
  set_cnet (AddServer (inr 0) srv (cfg_net cfg)) cfg.

Definition make_config (unreliable : bool) (now : Z) (srv : nat) : config :=
  let cfg := mkConfig MakeNetwork None ∅ (SERVERID + 1) now 0 0 0 in
  let cfg := StartServer srv cfg in
  set_cnet (Reliable (negb unreliable) (cfg_net cfg)) cfg.

Definition rpcTotal cfg : Z := GetTotalCount (cfg_net cfg).
Definition begin (now : Z) cfg : config := set_stats now (rpcTotal cfg) 0 cfg.
Definition op cfg : config := set_stats (t0 cfg) (rpcs0 cfg) (int32 (ops cfg + 1)) cfg.

(** The numbers printed: RPCs and operations; nothing if the test has failed. *)
Definition report (failed : bool) (now : Z) cfg : outcome (option (Z * Z)) :=
  _ ← checkTimeout failed now cfg;
  Ret (if negb failed then Some (rpcTotal cfg - rpcs0 cfg, ops cfg) else None).

(** ** Clerks come and go *)

(** C32: a clerk made under a new name reaches the server: its end is enabled and
    leads to the server; deleting the clerk gives back the ends, the clerks and
    the links as they were, and a second deletion is fatal. *)
Theorem client_roundtrip ck b cfg :
  length b = 40%nat → clerks cfg !! ck = None → inl "" ∉ ends (cfg_net cfg) →
  (∀ name, randstring 20 b = Ret name → inl name ∉ ends (cfg_net cfg) ∧
     enabled (cfg_net cfg) !! inl name = None ∧ connections (cfg_net cfg) !! inl name = None) →
  ∃ name clerk cfg1 cfg2, randstring 20 b = Ret name ∧ makeClient ck b cfg = Ret (clerk, cfg1) ∧
    readEndnameInfo (cfg_net cfg1) (inl name) =
      (true, Some (inr SERVERID), default None (servers (cfg_net cfg) !! inr SERVERID),
       reliable (cfg_net cfg), longReordering (cfg_net cfg)) ∧
    deleteClient ck cfg1 = Ret cfg2 ∧ cfg_net cfg2 = cfg_net cfg ∧ clerks cfg2 = clerks cfg ∧
    nextClientId cfg2 = nextClientId cfg + 1 ∧ deleteClient ck cfg2 = Panic Fatal.
Proof.
  intros Hl Hck Hempty Hnew. destruct (randstring_eq b Hl) as [Hr _].
  set (name := string_of_list_ascii _) in Hr. destruct (Hnew name Hr) as (Hends & Hen & Hconn).
  exists name, MakeClerk. unfold makeClient. rewrite Hr. simpl. unfold MakeEnd. rewrite decide_False by done. simpl.
  eexists _, _. split_and!; [done|done| |..].
  - unfold ConnectClientUnlocked, readEndnameInfo. simpl. rewrite lookup_insert_eq. simpl. by rewrite !lookup_insert_eq.
  - unfold deleteClient, ConnectClientUnlocked, DeleteEnd. simpl. rewrite !lookup_insert_eq. simpl.
    rewrite decide_True by set_solver. simpl. done.
  - simpl. destruct (cfg_net cfg) as [r d l es en srv conn c by' nd sv] eqn:Hnet. simpl in *. unfold set_ends. simpl.
    f_equal.
    + set_solver.
    + rewrite insert_insert_eq, delete_insert_eq. by apply delete_id.
    + rewrite insert_insert_eq, delete_insert_eq. by apply delete_id.
  - simpl. rewrite delete_insert_eq. by apply delete_id.
  - done.
  - unfold deleteClient. simpl. rewrite lookup_delete_eq. simpl. unfold DeleteEnd. rewrite decide_False; [done|]. simpl. set_solver.
Qed.

Lemma client_roundtrip_witness :
  ∃ clerk cfg1 cfg2, makeClient 1 (bytes40 "001") (make_config false 0 5) = Ret (clerk, cfg1) ∧
    deleteClient 1 cfg1 = Ret cfg2 ∧ cfg_net cfg2 = cfg_net (make_config false 0 5).
Proof.
  destruct (client_roundtrip 1 (bytes40 "001") (make_config false 0 5))
    as (name & clerk & cfg1 & cfg2 & _ & H1 & _ & H2 & H3 & _).
  { reflexivity. } { reflexivity. } { apply not_elem_of_empty. }
  { intros name _. split_and!; [apply not_elem_of_empty|reflexivity|reflexivity]. }
  exists clerk, cfg1, cfg2. split_and!; assumption.
Defined.
