(* ===== verification/KvRaftConfig.v ===== *)
(** * The tester of the replicated key/value servers

    src/src/kvraft/config.go: Harness.v for the servers of KvRaft.v, with the
    search for the leader and the partition that isolates it. *)

From Stdlib Require Import Strings.Byte Ascii String.
From stdpp Require Import prelude gmap strings list.
From S2P Require Import Prelude Gob Labrpc Raft RaftEvolve RaftExample KvRaft TestNames Harness HarnessProps HarnessServers.
Local Open Scope Z_scope.

Section config.
Context `{Gob Z} `{Gob (list (LogEntry Op))} `{Gob (gmap string string)} `{Gob (gmap Z LastOperation)}.

#[global] Instance KVServer_test : TestServer KVServer Op Z :=
  {| ts_rf := rf; ts_Kill := KvRaft.Kill; ts_Start := StartKVServer |}.

#[global] Instance KVServer_laws : TestServerLaws KVServer Op Z.
Proof.
  split; [|done]. intros k i ps p. simpl. unfold StartKVServer. destruct (Make k i ps) as [r| |]; try done. simpl.
  f_equal. unfold restoreState. destruct (_ <? _); [done|]. by destruct (decodeSnapshot _) as [[[??]?]|].
Qed.

Abbreviation config := (config KVServer Z).
Implicit Types cfg : config.

(** [get i]: what [GetState] gives when server [i] is asked; a server that is
    shut down is a nil pointer. *)
Fixpoint LeaderFrom (get : Z → Z * bool) (i : Z) (kvs : list (option KVServer)) : outcome (bool * Z) :=
  match kvs with
  | [] => Ret (false, 0)
  | None :: _ => Panic NilDereference
  | Some _ :: kvs =>
      let '(_, is_leader) := get i in
      if is_leader then Ret (true, i) else LeaderFrom get (i + 1) kvs
  end.

Definition Leader (get : Z → Z * bool) cfg : outcome (bool * Z) := LeaderFrom get 0 (kvservers cfg).

Definition make_partition (get : Z → Z * bool) cfg : outcome (list Z * list Z) :=
  '(_, l) ← Leader get cfg;
  splitServers (n cfg) l.

(** The clerk that [makeClient] makes; [nrand] is its identifier. *)
Definition makeClerk (to : list Z) (ck : nat) (bs : Z → list byte) (rnd : Z → Z) (nrand : Z) cfg
    : outcome (Clerk * config) :=
  '(handles, cfg) ← makeClient to ck bs rnd cfg;
  Ret (MakeClerk (length handles) nrand, cfg).
End config.

(** ** Three servers *)
Section instances.
#[local] Instance GobOf `{Countable A} : Gob A := CountableGob A.
#[local] Instance GobLawsOf `{Countable A} : GobLaws A := CountableGobLaws A.

(** Different bytes for the names of the ends [i] to [j]. *)
Definition bytes3 (i j : Z) : list byte := bytes40 (default "000"%byte (Byte.of_N (Z.to_N ((3 * i + j) mod 256)))).
Definition names3 (i j : Z) : string := string_of_list_ascii (encode64 (take 15 (bytes3 i j))).

Lemma names3_of i : names_of (bytes3 i) (names3 i).
Proof. intros j. by apply randstring_eq. Qed.

Lemma byteVal_of z : 0 ≤ z < 256 → byteVal (default "000"%byte (Byte.of_N (Z.to_N (z mod 256)))) = z.
Proof.
  intros Hz. rewrite Z.mod_small by done. destruct (Byte.of_N (Z.to_N z)) as [b|] eqn:Hb; simpl.
  - apply Byte.to_of_N in Hb. unfold byteVal. lia.
  - apply Byte.of_N_None_iff in Hb. lia.
Qed.

Lemma names3_inj i j i' j' :
  0 ≤ i < 10 → 0 ≤ i' < 10 → 0 ≤ j < 3 → 0 ≤ j' < 3 → names3 i j = names3 i' j' → i = i' ∧ j = j'.
Proof.
  intros Hi Hi' Hj Hj' Heq%(f_equal list_ascii_of_string). unfold names3 in Heq.
  rewrite !list_ascii_of_string_of_list_ascii in Heq. apply (encode64_inj 5) in Heq; [|done..].
  unfold bytes3, bytes40 in Heq. apply (f_equal (fmap byteVal)) in Heq. simpl in Heq. injection Heq as Hb.
  rewrite !byteVal_of in Hb by lia. lia.
Qed.

Lemma names3_ok : names_ok 3 bytes3 names3.
Proof. split; [intros; apply names3_of|]. intros. apply names3_inj; lia || done. Qed.

#[local] Opaque names3.

Definition config3 : outcome (Harness.config KVServer Z) := make_config (C := Op) 3 false 1000 0 bytes3 Z.to_nat.

(** Server 1 is restarted with names that are not in use. *)
Lemma restart_recovers_witness :
  ∃ cfg (kv : KVServer) cfg1 cfg2 cfg3 (kv' : KVServer), config3 = Ret cfg ∧ kvservers cfg !! 1%nat = Some (Some kv) ∧
    ShutdownServer 1 cfg = Ret cfg1 ∧ StartServer 1 (bytes3 3) 7%nat cfg1 = Ret cfg2 ∧ ConnectAll cfg2 = Ret cfg3 ∧
    kvservers cfg3 !! 1%nat = Some (Some kv') ∧ Logs (ts_rf kv') = Logs (ts_rf kv).
Proof.
  destruct (make_config_connected (Srv := KVServer) (C := Op) 3 false 1000 0 bytes3 Z.to_nat names3 names3_ok)
    as (cfg & Hmake & Sd & W & Hn & _ & Hends & Hall).
  destruct (Hall 1 ltac:(lia)) as (_ & (kv & Hkv & Hrf) & _).
  assert (fresh (names3 3) (n cfg) (cfg_net cfg)) as Hf.
  { rewrite Hn. split; [|intros j j' Hj Hj' Heq; apply names3_inj in Heq as [_ Heq]; lia].
    intros j Hj (i' & j' & Hi' & Hj' & Heq%(inj inl))%Hends. apply names3_inj in Heq as [Heq _]; lia. }
  destruct (restart_recovers (Srv := KVServer) (C := Op) 1 kv (bytes3 3) (names3 3) 7%nat cfg Sd W)
    as (cfg1 & cfg2 & cfg3 & kv' & H1 & H2 & H3 & _ & _ & _ & _ & _ & _ & H4 & _ & _ & _ & H5 & _).
  { lia. } { exact Hkv. } { rewrite Hn. apply lived_fresh. exact Hrf. } { apply names3_of. } { exact Hf. }
  exists cfg, kv, cfg1, cfg2, cfg3, kv'. split_and!; assumption.
Defined.

(** Server 0 leads: servers 1 and 2 lose it. *)
Lemma partition_isolates_leader_witness :
  ∃ cfg cfg', config3 = Ret cfg ∧ splitServers 3 0 = Ret ([1; 2], [0]) ∧ partition [1; 2] [0] cfg = Ret cfg' ∧
    link cfg' 1 2 = Some true ∧ link cfg' 0 1 = Some false.
Proof.
  destruct (make_config_connected (Srv := KVServer) (C := Op) 3 false 1000 0 bytes3 Z.to_nat names3 names3_ok)
    as (cfg & Hmake & _ & W & Hn & _).
  destruct (partition_isolates_leader cfg 0 W) as (p1 & p2 & cfg' & Hs & Hp & _ & _ & _ & Hl).
  { rewrite Hn. lia. } { rewrite Hn. reflexivity. } { rewrite Hn. lia. }
  rewrite Hn in Hs, Hl. assert (splitServers 3 0 = Ret ([1; 2], [0])) as Hc by (vm_compute; reflexivity).
  change (Z.of_nat 3) with 3 in Hs. rewrite Hc in Hs. injection Hs as <- <-. exists cfg, cfg'.
  split_and!; [exact Hmake|exact Hc|exact Hp| |].
  - rewrite Hl by lia. vm_compute. reflexivity.
  - rewrite Hl by lia. vm_compute. reflexivity.
Defined.
End instances.
