(* ===== verification/ShardCtrlerConfig.v ===== *)
(** * The tester of the shard controllers

    src/src/shardctrler/config.go repeats src/src/kvraft/config.go for the
    servers of ShardCtrler.v, which take no snapshots: its methods are those of
    Harness.v.  [Leader] skips a server that is shut down. *)

From Stdlib Require Import Strings.Byte.
From stdpp Require Import prelude gmap strings list.
From S2P Require Import Prelude Gob Labrpc Raft ShardCtrler TestNames Harness.
Local Open Scope Z_scope.

Section config.
Context `{Gob Z} `{Gob (list (LogEntry Op))}.

#[global] Instance ShardCtrler_test : TestServer ShardCtrler Op unit :=
  {| ts_rf := rf; ts_Kill := ShardCtrler.Kill; ts_Start k i ps _ := ShardCtrler.StartServer k i ps |}.

#[global] Instance ShardCtrler_laws : TestServerLaws ShardCtrler Op unit.
Proof.
  split; [|done]. intros k i ps p. simpl. unfold ShardCtrler.StartServer. by destruct (Make k i ps).
Qed.

Definition config : Type := Harness.config ShardCtrler unit.
Implicit Types cfg : config.

Definition cleanup : bool → Z → config → outcome config := Harness.cleanup.
Definition LogSize : config → outcome Z := Harness.LogSize.
Definition connectUnlocked : Z → list Z → config → outcome config := Harness.connectUnlocked.
Definition connect : Z → list Z → config → outcome config := Harness.connect.
Definition disconnectUnlocked : Z → list Z → config → outcome config := Harness.disconnectUnlocked.
Definition disconnect : Z → list Z → config → outcome config := Harness.disconnect.
Definition All : config → list Z := Harness.All.
Definition ConnectAll : config → outcome config := Harness.ConnectAll.
Definition partition : list Z → list Z → config → outcome config := Harness.partition.
Definition deleteClient : nat → config → config := Harness.deleteClient.
Definition ConnectClient : nat → list Z → config → outcome config := Harness.ConnectClient.
Definition DisconnectClient : nat → list Z → config → outcome config := Harness.DisconnectClient.
Definition ShutdownServer : Z → config → outcome config := Harness.ShutdownServer.
Definition StartServer : Z → (Z → list byte) → nat → config → outcome config := Harness.StartServer.

Definition make_config (k : nat) (unreliable : bool) (now : Z) (bs : Z → Z → list byte) (srv : Z → nat)
    : outcome config := Harness.make_config k unreliable tt now bs srv.

Definition makeClient (to : list Z) (ck : nat) (bs : Z → list byte) (rnd : Z → Z) (nrand : Z) cfg
    : outcome (Clerk * config) :=
  '(handles, cfg) ← Harness.makeClient to ck bs rnd cfg;
  Ret (MakeClerk (length handles) nrand, cfg).

(** [get i]: what [GetState] gives when server [i] is asked. *)
Fixpoint LeaderFrom (get : Z → Z * bool) (i : Z) (kvs : list (option ShardCtrler)) : bool * Z :=
  match kvs with
  | [] => (false, 0)
  | None :: kvs => LeaderFrom get (i + 1) kvs
  | Some _ :: kvs =>
      let '(_, is_leader) := get i in
      if is_leader then (true, i) else LeaderFrom get (i + 1) kvs
  end.

Definition Leader (get : Z → Z * bool) cfg : bool * Z := LeaderFrom get 0 (kvservers cfg).

Definition make_partition (get : Z → Z * bool) cfg : outcome (list Z * list Z) :=
  let '(_, l) := Leader get cfg in splitServers (n cfg) l.
End config.
