(* ===== verification/ShardKvConfig.v ===== *)
(** * The tester of the sharded key/value service

    src/src/shardkv/config.go: the harness that starts three replicated
    controllers and three groups of servers on the network of Labrpc.v, shuts
    groups down, starts them again, and tells the controllers which groups
    join and leave.

    - Ends and servers are named by strings.  A server object with the services
      of a server and its Raft is a number; so is the pointer to a clerk.
    - [gg.saved[i]] is the persister of the running server [i] of the group:
      what it holds is read from the server ([savedNow]).
    - Random bytes and numbers, the time and [t.Failed()] are arguments; so is
      what the network does with a controller's clerk's calls.
    - Each name is drawn when its end is made; where the source keeps a row of
      names it draws them all first.
    - [cfg.ctl.n] is 3, and the rows of [mendnames] are as many, although they
      are indexed by the servers of a group ([config_needs_three]). *)

From Stdlib Require Import Strings.Byte Ascii String.
From stdpp Require Import prelude gmap strings list.
From S2P Require Import Prelude Gob Strconv Labrpc Raft RaftNode RaftServer RaftEvolve RaftNet RaftElection ShardCtrler ShardKv TestNames HarnessProps.
Local Open Scope Z_scope.

Record group := mkGroup {
  g_gid : Z;
  g_servers : list (option ShardKV);
  g_saved : list (option Persister);
  g_endnames : list (option (list string));
  mendnames : list (option (list string));
}.

Record ctrler := mkCtrler {
  ctl_n : Z;
  ctl_servers : list (option ShardCtrler);
  ctl_names : list string;
  ctl_ck : option ShardCtrler.Clerk;
}.

Record config := mkConfig {
  cfg_net : Network string;
  start : Z;
  ctl : ctrler;
  ngroups : Z;
  n : Z;
  groups : list group;
  clerks : gmap nat (list string);
  nextClientId : Z;
  cfg_maxraftstate : Z;
}.

Section config.
Context `{Gob Z} `{Gob (list (LogEntry ShardCtrler.Op))} `{Gob (list (LogEntry Command))}
  `{Gob (gmap string string)} `{Gob (gmap Z LastOperation)} `{Gob Config} `{Gob (gset Z)}
  `{Gob (gmap Z (gmap Z (gmap string string)))} `{Gob (gmap Z Z)} `{Gob (gmap Z (gset Z))}.
Implicit Types (cfg : config) (gg : group).

Definition set_cnet (x : Network string) cfg : config :=
  mkConfig x (start cfg) (ctl cfg) (ngroups cfg) (n cfg) (groups cfg) (clerks cfg) (nextClientId cfg) (cfg_maxraftstate cfg).
Definition set_ctl (x : ctrler) cfg : config :=
  mkConfig (cfg_net cfg) (start cfg) x (ngroups cfg) (n cfg) (groups cfg) (clerks cfg) (nextClientId cfg) (cfg_maxraftstate cfg).
Definition set_groups (x : list group) cfg : config :=
  mkConfig (cfg_net cfg) (start cfg) (ctl cfg) (ngroups cfg) (n cfg) x (clerks cfg) (nextClientId cfg) (cfg_maxraftstate cfg).
Definition set_clerks (x : gmap nat (list string)) (next : Z) cfg : config :=
  mkConfig (cfg_net cfg) (start cfg) (ctl cfg) (ngroups cfg) (n cfg) (groups cfg) x next (cfg_maxraftstate cfg).

Definition set_gservers (x : list (option ShardKV)) gg : group :=
  mkGroup (g_gid gg) x (g_saved gg) (g_endnames gg) (mendnames gg).
Definition set_gsaved (x : list (option Persister)) gg : group :=
  mkGroup (g_gid gg) (g_servers gg) x (g_endnames gg) (mendnames gg).
Definition set_gendnames (x : list (option (list string))) gg : group :=
  mkGroup (g_gid gg) (g_servers gg) (g_saved gg) x (mendnames gg).
Definition set_mendnames (x : list (option (list string))) gg : group :=
  mkGroup (g_gid gg) (g_servers gg) (g_saved gg) (g_endnames gg) x.

(** ** Names and ends *)

Definition ctrlername (c : ctrler) (i : Z) : outcome string := go_index (ctl_names c) i.

Definition servername (gid i : Z) : string := "server-" +:+ FormatInt gid +:+ "-" +:+ FormatInt i.

(** A new end with a random name, connected to [servername] and enabled. *)
Definition make_end (b : list byte) (servername : string) cfg : outcome (string * config) :=
  name ← randstring 20 b;
  rn ← MakeEnd name (cfg_net cfg);
  Ret (name, set_cnet (Enable name true (Connect name servername rn)) cfg).

(** The loops that make [k] ends, the [j]-th to [target j]; the names are put
    into the slice [names]. *)
Definition make_ends (k : Z) (bs : Z → list byte) (target : Z → outcome string) (names : list string) cfg
    : outcome (list string * config) :=
  go_for (Z.to_nat k) 0 (λ j '(names, cfg),
    s ← target j;
    '(name, cfg) ← make_end (bs j) s cfg;
    names ← go_set names j name;
    Ret (names, cfg)) (names, cfg).

(** Switching off the ends named in a row. *)
Definition disable_row (k : Z) (row : list string) cfg : outcome config :=
  go_for (Z.to_nat k) 0 (λ j cfg,
    name ← go_index row j;
    Ret (set_cnet (Enable name false (cfg_net cfg)) cfg)) cfg.

(** ** Clerks *)

(** The slice of names has [cfg.n] elements, the loop [ctl.n] turns. *)
Definition makeClient (c : ctrler) (ck : nat) (bs : Z → list byte) (nrand : Z) cfg : outcome (Clerk * config) :=
  '(names, cfg) ← make_ends (ctl_n c) bs (ctrlername c) (replicate (Z.to_nat (n cfg)) "") cfg;
  let clerk := MakeClerk nrand in
  Ret (clerk, set_clerks (<[ck := names]> (clerks cfg)) (nextClientId cfg + 1) cfg).

Definition deleteClient (ck : nat) cfg : config := set_clerks (delete ck (clerks cfg)) (nextClientId cfg) cfg.

(** ** Servers *)

(** What the persister [gg.saved[i]] holds now. *)
Definition savedNow (i : Z) gg : outcome (option Persister) :=
  r ← go_index (g_servers gg) i;
  match r with
  | Some kv => Ret (Some (persister (rf kv)))
  | None => go_index (g_saved gg) i
  end.

Definition ShutdownServer (gi i : Z) cfg : outcome config :=
  gg ← go_index (groups cfg) gi;
  row ← go_index (g_endnames gg) i;
  cfg ← disable_row (zlen (g_servers gg)) (default [] row) cfg;
  mrow ← go_index (mendnames gg) i;
  let mrow := default [] mrow in
  cfg ← disable_row (zlen mrow) mrow cfg;
  let cfg := set_cnet (DeleteServer (servername (g_gid gg) i) (cfg_net cfg)) cfg in
  ps ← savedNow i gg;
  sv ← go_set (g_saved gg) i (Copy <$> ps);
  let gg := set_gsaved sv gg in
  kv ← go_index (g_servers gg) i;
  gg ← match kv with
       | Some _ => ks ← go_set (g_servers gg) i None; Ret (set_gservers ks gg)
       | None => Ret gg
       end;
  gs ← go_set (groups cfg) gi gg;
  Ret (set_groups gs cfg).

Definition ShutdownGroup (gi : Z) cfg : outcome config :=
  go_for (Z.to_nat (n cfg)) 0 (ShutdownServer gi) cfg.

(** [bs j] and [ms j] are the random bytes of the ends to the servers of the
    group and to the controllers, [srv] is the new server object. *)
Definition StartServer (bs ms : Z → list byte) (srv : nat) (gi i : Z) cfg : outcome config :=
  gg ← go_index (groups cfg) gi;
  '(row, cfg) ← make_ends (n cfg) bs (λ j, Ret (servername (g_gid gg) j)) (replicate (Z.to_nat (n cfg)) "") cfg;
  es ← go_set (g_endnames gg) i (Some row);
  let gg := set_gendnames es gg in
  '(mrow, cfg) ← make_ends (ctl_n (ctl cfg)) ms (ctrlername (ctl cfg)) (replicate (Z.to_nat (ctl_n (ctl cfg))) "") cfg;
  me ← go_set (mendnames gg) i (Some mrow);
  let gg := set_mendnames me gg in
  ps ← savedNow i gg;
  let ps := match ps with Some ps => Copy ps | None => MakePersister end in
  sv ← go_set (g_saved gg) i (Some ps);
  let gg := set_gsaved sv gg in
  kv ← ShardKv.StartServer (Z.to_nat (n cfg)) i ps (cfg_maxraftstate cfg) (g_gid gg);
  ks ← go_set (g_servers gg) i (Some kv);
  let gg := set_gservers ks gg in
  gs ← go_set (groups cfg) gi gg;
  Ret (set_cnet (AddServer (servername (g_gid gg) i) srv (cfg_net cfg)) (set_groups gs cfg)).

Definition StartGroup (bs ms : Z → Z → list byte) (srv : Z → nat) (gi : Z) cfg : outcome config :=
  go_for (Z.to_nat (n cfg)) 0 (λ i cfg, StartServer (bs i) (ms i) (srv i) gi i cfg) cfg.

(** ** The controllers *)

(** The names of the ends are not kept. *)
Definition StartCtrlerServer (bs : Z → list byte) (srv : nat) (i : Z) (c : ctrler) cfg : outcome (ctrler * config) :=
  '(_, cfg) ← make_ends (ctl_n c) bs (ctrlername c) (replicate (Z.to_nat (ctl_n c)) "") cfg;
  sc ← ShardCtrler.StartServer (Z.to_nat (ctl_n c)) i MakePersister;
  ss ← go_set (ctl_servers c) i (Some sc);
  let c := mkCtrler (ctl_n c) ss (ctl_names c) (ctl_ck c) in
  name ← ctrlername c i;
  Ret (c, set_cnet (AddServer name srv (cfg_net cfg)) cfg).

Definition ctrlerclerk (bs : Z → list byte) (nrand : Z) (c : ctrler) cfg : outcome (ShardCtrler.Clerk * config) :=
  '(_, cfg) ← make_ends (ctl_n c) bs (ctrlername c) (replicate (Z.to_nat (ctl_n c)) "") cfg;
  Ret (ShardCtrler.MakeClerk (Z.to_nat (ctl_n c)) nrand, cfg).

(** [nb i]: the bytes of the name of controller [i]; [bs i], [srv i] those of
    its ends and its server object; [cb], [nrand] those of the clerk. *)
Definition StartCtrlerService (nb : Z → list byte) (bs : Z → Z → list byte) (srv : Z → nat) (cb : Z → list byte)
    (nrand : Z) cfg : outcome (ctrler * config) :=
  names ← go_for 3 0 (λ i names, s ← randstring 20 (nb i); go_set names i ("ctlr-" +:+ s)) (replicate 3 "");
  let c := mkCtrler 3 (replicate 3 None) names None in
  '(c, cfg) ← go_for 3 0 (λ i '(c, cfg), StartCtrlerServer (bs i) (srv i) i c cfg) (c, cfg);
  '(ck, cfg) ← ctrlerclerk cb nrand c cfg;
  Ret (mkCtrler (ctl_n c) (ctl_servers c) (ctl_names c) (Some ck), cfg).

(** *** Joining and leaving *)

(** The map of [joinm]. *)
Definition joinGroups (gis : list Z) cfg : outcome (gmap Z (list string)) :=
  foldM (λ g m,
    gg ← go_index (groups cfg) g;
    let gid := g_gid gg in
    servernames ← go_for (Z.to_nat (n cfg)) 0 (λ i ss, go_set ss i (servername gid i)) (replicate (Z.to_nat (n cfg)) "");
    Ret (<[gid := servernames]> m)) gis ∅.

Definition set_clerk (ck : option ShardCtrler.Clerk) (c : ctrler) : ctrler :=
  mkCtrler (ctl_n c) (ctl_servers c) (ctl_names c) ck.

(** [None]: the clerk is still trying. *)
Definition joinm (gis : list Z) (c : ctrler) rounds cfg : outcome (option ctrler) :=
  m ← joinGroups gis cfg;
  match ctl_ck c with
  | None => Panic NilDereference
  | Some ck => Ret (match clerk_Join ck m rounds with Some ck => Some (set_clerk (Some ck) c) | None => None end)
  end.

Definition ctljoin (gi : Z) (c : ctrler) rounds cfg : outcome (option ctrler) := joinm [gi] c rounds cfg.

Definition join (gi : Z) rounds cfg : outcome (option config) :=
  c ← joinm [gi] (ctl cfg) rounds cfg;
  Ret (match c with Some c => Some (set_ctl c cfg) | None => None end).

Definition leavem (gis : list Z) rounds cfg : outcome (option config) :=
  gids ← foldM (λ g gids, gg ← go_index (groups cfg) g; Ret (gids ++ [g_gid gg])) gis [];
  match ctl_ck (ctl cfg) with
  | None => Panic NilDereference
  | Some ck =>
      Ret (match clerk_Leave ck gids rounds with
           | Some ck => Some (set_ctl (set_clerk (Some ck) (ctl cfg)) cfg)
           | None => None
           end)
  end.

Definition leave (gi : Z) rounds cfg : outcome (option config) := leavem [gi] rounds cfg.

(** ** The whole configuration *)

(** [gb gi i], [mb gi i] and [gsrv gi i] are those of server [i] of group [gi]. *)
Definition startGroup (gb mb : Z → Z → Z → list byte) (gsrv : Z → Z → nat) (gi : Z) cfg : outcome config :=
  let m := Z.to_nat (n cfg) in
  let gg := mkGroup (100 + gi) (replicate m None) (replicate m None) (replicate m None)
              (replicate (Z.to_nat (ctl_n (ctl cfg))) None) in
  gs ← go_set (groups cfg) gi gg;
  StartGroup (gb gi) (mb gi) (gsrv gi) gi (set_groups gs cfg).

Definition noGroup : group := mkGroup 0 [] [] [] [].

Definition make_config (k : nat) (unreliable : bool) (maxraftstate now : Z)
    (nb : Z → list byte) (cbs : Z → Z → list byte) (csrv : Z → nat) (cb : Z → list byte) (nrand : Z)
    (gb mb : Z → Z → Z → list byte) (gsrv : Z → Z → nat) : outcome config :=
  let cfg := mkConfig MakeNetwork now (mkCtrler 0 [] [] None) 0 0 [] ∅ 0 maxraftstate in
  '(c, cfg) ← StartCtrlerService nb cbs csrv cb nrand cfg;
  let cfg := mkConfig (cfg_net cfg) now c 3 (Z.of_nat k) (replicate 3 noGroup) ∅ 0 maxraftstate in
  cfg ← go_for 3 0 (startGroup gb mb gsrv) cfg;
  let cfg := set_clerks ∅ (n cfg + 1000) cfg in
  Ret (set_cnet (Reliable (negb unreliable) (cfg_net cfg)) cfg).

(** ** The end of a test *)

Definition checkTimeout (failed : bool) (now : Z) cfg : outcome unit :=
  if negb failed && (now - start cfg >? 120 * 10 ^ 9) then Panic Fatal else Ret tt.

Definition cleanup (failed : bool) (now : Z) cfg : outcome config :=
  cfg ← go_for (Z.to_nat (ngroups cfg)) 0 ShutdownGroup cfg;
  let c := ctl cfg in
  ss ← go_for (Z.to_nat (ctl_n c)) 0 (λ i ss,
    s ← go_index ss i;
    match s with
    | None => Panic NilDereference
    | Some sc => go_set ss i (Some (ShardCtrler.Kill sc))
    end) (ctl_servers c);
  let cfg := set_ctl (mkCtrler (ctl_n c) ss (ctl_names c) (ctl_ck c)) cfg in
  let cfg := set_cnet (Cleanup (cfg_net cfg)) cfg in
  _ ← checkTimeout failed now cfg;
  Ret cfg.

(** The two tests of [checklogs] for one persister. *)
Definition log_too_big (maxraftstate : Z) (ps : Persister) : bool :=
  (maxraftstate >=? 0) && (RaftStateSize ps >? 8 * maxraftstate) ||
  (maxraftstate <? 0) && (zlen (ReadSnapshot ps) >? 0).

Definition checklogs cfg : outcome unit :=
  go_for (Z.to_nat (ngroups cfg)) 0 (λ gi _,
    go_for (Z.to_nat (n cfg)) 0 (λ i _,
      gg ← go_index (groups cfg) gi;
      ps ← savedNow i gg;
      match ps with
      | None => Panic NilDereference
      | Some ps => if log_too_big (cfg_maxraftstate cfg) ps then Panic Fatal else Ret tt
      end) tt) tt.

(** ** How many servers a group may have *)

Lemma make_end_net b s cfg name cfg' : make_end b s cfg = Ret (name, cfg') → ∃ rn, cfg' = set_cnet rn cfg.
Proof. unfold make_end. intros (x & _ & (rn & _ & [= _ <-])%bind_Ret_inv)%bind_Ret_inv. by eexists. Qed.

Lemma make_ends_step bs target j names cfg names' cfg' :
  (s ← target j; '(name, cfg) ← make_end (bs j) s cfg; names ← go_set names j name; Ret (names, cfg)) =
    Ret (names', cfg') → 0 ≤ j < zlen names ∧ length names' = length names ∧ ∃ rn, cfg' = set_cnet rn cfg.
Proof.
  intros (s & _ & ([name cfg1] & (rn & ->)%make_end_net & (l & [Hj ->]%go_set_Ret & [= <- <-])%bind_Ret_inv)%bind_Ret_inv)%bind_Ret_inv.
  split_and!; [lia|lia|by rewrite length_insert|by exists rn].
Qed.

(** The loops that make ends change nothing but the network, and write as many
    names as they make ends. *)
Lemma make_ends_net k bs target names cfg names' cfg' :
  make_ends k bs target names cfg = Ret (names', cfg') →
  k ≤ zlen names ∧ length names' = length names ∧ ∃ rn, cfg' = set_cnet rn cfg.
Proof.
  intros Hr. assert (∀ j p p', length p.1 = length names ∧ (∃ rn, p.2 = set_cnet rn cfg) →
    (let '(names, cfg) := p in s ← target j; '(name, cfg) ← make_end (bs j) s cfg; names ← go_set names j name;
       Ret (names, cfg)) = Ret p' → length p'.1 = length names ∧ ∃ rn, p'.2 = set_cnet rn cfg) as Hkeep.
  { intros j [l c] [l' c'] [Hl (rn & Hc)] Hs. apply make_ends_step in Hs as (_ & Hl' & rn' & ->). simpl in *.
    split; [lia|]. exists rn'. by rewrite Hc. }
  pose proof (conj eq_refl (ex_intro _ (cfg_net cfg) (ltac:(by destruct cfg) : cfg = set_cnet (cfg_net cfg) cfg)) :
    length (names, cfg).1 = length names ∧ ∃ rn, (names, cfg).2 = set_cnet rn cfg) as H0'.
  split.
  - destruct (decide (k ≤ zlen names)) as [?|Hgt]; [done|]. exfalso. unfold make_ends in Hr.
    destruct (go_for_visits _ _ _ _ _ _ (zlen names) H0' Hkeep Hr) as ([l c] & [l' c'] & [Hl _] & Hs); [lia|].
    apply make_ends_step in Hs as (Hj & _). simpl in Hl. lia.
  - exact (go_for_keeps _ _ _ _ _ _ H0' Hkeep Hr).
Qed.

Lemma StartServer_row bs ms srv gi i cfg cfg' gg :
  groups cfg !! Z.to_nat gi = Some gg → StartServer bs ms srv gi i cfg = Ret cfg' →
  0 ≤ i < zlen (mendnames gg) ∧ n cfg' = n cfg ∧ ctl cfg' = ctl cfg ∧
  ∃ gg', groups cfg' !! Z.to_nat gi = Some gg' ∧ length (mendnames gg') = length (mendnames gg).
Proof.
  unfold StartServer. intros Hgg (gg0 & [Hgi Hgg0]%go_index_Ret & Hr)%bind_Ret_inv. assert (gg0 = gg) as -> by congruence.
  apply bind_Ret_inv in Hr as ([row cfg1] & (_ & _ & rn1 & ->)%make_ends_net & Hr).
  apply bind_Ret_inv in Hr as (es & _ & Hr). apply bind_Ret_inv in Hr as ([mrow cfg2] & (_ & _ & rn2 & ->)%make_ends_net & Hr).
  apply bind_Ret_inv in Hr as (me & [Hi ->]%go_set_Ret & Hr). simpl in Hi.
  apply bind_Ret_inv in Hr as (ps & _ & Hr). apply bind_Ret_inv in Hr as (sv & _ & Hr).
  apply bind_Ret_inv in Hr as (kv & _ & Hr). apply bind_Ret_inv in Hr as (ks & _ & Hr).
  apply bind_Ret_inv in Hr as (gs & [Hgi' ->]%go_set_Ret & [= <-]). simpl in *. split_and!; [lia|lia|done|done|].
  eexists. rewrite list_lookup_insert_eq by lia. split; [done|]. simpl. by rewrite length_insert.
Qed.

(** [StartGroup] needs a row of [mendnames] for every server. *)
Lemma StartGroup_rows bs ms srv gi cfg cfg' gg :
  groups cfg !! Z.to_nat gi = Some gg → StartGroup bs ms srv gi cfg = Ret cfg' →
  n cfg ≤ zlen (mendnames gg) ∧ n cfg' = n cfg ∧ ctl cfg' = ctl cfg.
Proof.
  intros Hgg Hr. unfold StartGroup in Hr.
  assert (∀ i c c', (n c = n cfg ∧ ctl c = ctl cfg ∧ ∃ gg', groups c !! Z.to_nat gi = Some gg' ∧
      length (mendnames gg') = length (mendnames gg)) → StartServer (bs i) (ms i) (srv i) gi i c = Ret c' →
    (n c' = n cfg ∧ ctl c' = ctl cfg ∧ ∃ gg', groups c' !! Z.to_nat gi = Some gg' ∧
      length (mendnames gg') = length (mendnames gg))) as Hkeep.
  { intros i c c' (Hn & Hc & gg' & Hg & Hl) Hs. destruct (StartServer_row _ _ _ _ _ _ _ _ Hg Hs) as (_ & ? & ? & gg2 & ? & ?).
    split_and!; [congruence|congruence|]. exists gg2. split; [done|congruence]. }
  assert (n cfg = n cfg ∧ ctl cfg = ctl cfg ∧ ∃ gg', groups cfg !! Z.to_nat gi = Some gg' ∧
      length (mendnames gg') = length (mendnames gg)) as Hstart by (split_and!; [done..|by exists gg]).
  split.
  - destruct (decide (n cfg ≤ zlen (mendnames gg))) as [?|Hgt]; [done|]. exfalso.
    destruct (go_for_visits _ _ _ _ _ _ (zlen (mendnames gg)) Hstart Hkeep Hr) as (c1 & c2 & (_ & _ & gg' & Hg & Hl) & Hs); [lia|].
    destruct (StartServer_row _ _ _ _ _ _ _ _ Hg Hs) as (Hi & _). lia.
  - destruct (go_for_keeps _ _ _ _ _ _ Hstart Hkeep Hr) as (? & ? & _). done.
Qed.

Lemma StartCtrlerService_n nb bs srv cb nrand cfg c cfg' :
  StartCtrlerService nb bs srv cb nrand cfg = Ret (c, cfg') → ctl_n c = 3.
Proof.
  unfold StartCtrlerService. intros (names & _ & ([c1 cfg1] & Hloop & ([ck cfg2] & _ & [= <- _])%bind_Ret_inv)%bind_Ret_inv)%bind_Ret_inv.
  simpl. apply (go_for_keeps (λ p, ctl_n p.1 = 3)) in Hloop; [done|done|].
  intros i [c2 d2] [c3 d3] Hc Hs. simpl in *. unfold StartCtrlerServer in Hs.
  apply bind_Ret_inv in Hs as ([? d4] & _ & Hs). apply bind_Ret_inv in Hs as (sc & _ & Hs).
  apply bind_Ret_inv in Hs as (ss & _ & Hs). apply bind_Ret_inv in Hs as (nm & _ & [= <- _]). done.
Qed.

Lemma startGroup_rows gb mb gsrv gi cfg cfg' :
  startGroup gb mb gsrv gi cfg = Ret cfg' →
  n cfg ≤ Z.max 0 (ctl_n (ctl cfg)) ∧ n cfg' = n cfg ∧ ctl cfg' = ctl cfg.
Proof.
  unfold startGroup. intros (gs & [Hgi ->]%go_set_Ret & Hr)%bind_Ret_inv.
  eapply StartGroup_rows in Hr as (Hn & ? & ?); [|simpl; apply list_lookup_insert_eq; lia].
  split_and!; [|done|done]. simpl in Hn. rewrite length_replicate in Hn. lia.
Qed.

(** C33: the harness works for groups of three servers only: if [make_config]
    returns, a group has at most three servers (the rows of [mendnames] are as
    many as the controllers), and if then [makeClient] returns, it has at
    least three (the names of a clerk's three ends are put into a slice of
    [cfg.n]). *)
Theorem config_needs_three k unreliable maxraftstate now nb cbs csrv cb nrand gb mb gsrv cfg ck bs cid r :
  make_config k unreliable maxraftstate now nb cbs csrv cb nrand gb mb gsrv = Ret cfg →
  makeClient (ctl cfg) ck bs cid cfg = Ret r → k = 3%nat.
Proof.
  unfold make_config. intros ([c cfg1] & Hc%StartCtrlerService_n & Hr)%bind_Ret_inv.
  apply bind_Ret_inv in Hr as (cfg2 & Hloop & [= <-]).
  assert (∀ gi a a', (n a = Z.of_nat k ∧ ctl a = c) → startGroup gb mb gsrv gi a = Ret a' →
    (n a' = Z.of_nat k ∧ ctl a' = c)) as Hkeep.
  { intros gi a a' [Hn Hct] (_ & ? & ?)%startGroup_rows. split; congruence. }
  match type of Hloop with go_for _ _ _ ?x = _ => assert (n x = Z.of_nat k ∧ ctl x = c) as Hstart by done end.
  destruct (go_for_visits _ _ _ _ _ _ 0 Hstart Hkeep Hloop) as (a & a' & [Hn Hct] & (Hle & _)%startGroup_rows); [lia|].
  destruct (go_for_keeps _ _ _ _ _ _ Hstart Hkeep Hloop) as [Hn2 Hct2].
  unfold makeClient. intros ([names cfg3] & (Hge & _)%make_ends_net & _)%bind_Ret_inv.
  rewrite length_replicate in Hge. simpl in Hge. rewrite Hct2, Hc in Hge. rewrite Hn, Hct, Hc in Hle. lia.
Qed.

(** *** The names of servers *)

Lemma split_dash (a b a' b' : list ascii) :
  "-"%char ∉ a → "-"%char ∉ a' → a ++ "-"%char :: b = a' ++ "-"%char :: b' → a = a' ∧ b = b'.
Proof.
  revert a'. induction a as [|x a IH]; intros [|x' a'] Ha Ha' Heq; simpl in Heq.
  - by injection Heq as ->.
  - injection Heq as Hx _. subst. exfalso. apply Ha'. by left.
  - injection Heq as Hx _. subst. exfalso. apply Ha. by left.
  - injection Heq as Hx Heq. subst. destruct (IH a') as [-> ->]; [intros ?; apply Ha; by right|intros ?; apply Ha'; by right|done|done].
Qed.

(** Different servers have different names. *)
Theorem servername_inj gid i gid' i' :
  0 ≤ gid → 0 ≤ i → 0 ≤ gid' → 0 ≤ i' → servername gid i = servername gid' i' → gid = gid' ∧ i = i'.
Proof.
  intros Hg Hi Hg' Hi' Heq%(f_equal chars). unfold servername in Heq. rewrite !chars_app in Heq.
  apply app_inv_head in Heq. change (chars "-") with ["-"%char] in Heq.
  apply split_dash in Heq as [Hgid%(inj chars)%(inj FormatInt) Hid%(inj chars)%(inj FormatInt)]; [done|..];
    (apply FormatInt_no_dash; [done|by left]).
Qed.
End config.

(** ** Three servers in each group *)
Section instances.
#[local] Instance NoGob {A} : Gob A := {| gob_enc s _ := s; gob_dec _ _ := None |}.

(** Names that differ by a number. *)
Definition numbered (z : Z) : list byte :=
  (λ k, default "000"%byte (Byte.of_N (Z.to_N ((z / 256 ^ k) mod 256)))) <$> seqZ 0 40.

Definition config_of (k : nat) : outcome config :=
  make_config k false 1000 0 numbered (λ i j, numbered (100 + 10 * i + j)) Z.to_nat (λ j, numbered (200 + j)) 1
    (λ g i j, numbered (1000 + 100 * g + 10 * i + j)) (λ g i j, numbered (2000 + 100 * g + 10 * i + j))
    (λ g i, Z.to_nat (100 * g + i)).

Definition client_of (o : outcome config) : outcome (Clerk * config) :=
  cfg ← o; makeClient (ctl cfg) 1 (λ j, numbered (3000 + j)) 7 cfg.

Lemma config_three_returns : returns (client_of (config_of 3)).
Proof. apply is_Ret_returns. vm_compute. reflexivity. Qed.

Lemma config_needs_three_witness : ∃ r, client_of (config_of 3) = Ret r ∧ 3%nat = 3%nat.
Proof.
  destruct config_three_returns as [r Hr]. exists r. split; [exact Hr|].
  apply bind_Ret_inv in Hr as (cfg & Hmake & Hclient).
  exact (config_needs_three _ _ _ _ _ _ _ _ _ _ _ _ _ _ _ _ _ Hmake Hclient).
Defined.

Lemma servername_inj_witness : servername 100 1 = "server-100-1" ∧ 100 = 100 ∧ 1 = 1.
Proof. split; [reflexivity|]. apply (servername_inj 100 1 100 1); [lia..|reflexivity]. Defined.
End instances.
