(* ===== verification/GoStrings.v ===== *)
(** * Strings of Go's standard library

    What the MapReduce applications use of [strings], [sort] and
    [unicode/utf8]: decoding of runes, [FieldsFunc], [Join], [sort.Strings].
    A string is a sequence of bytes; a rune is its code point. *)

From Stdlib Require Import Ascii String.
From stdpp Require Import prelude strings list sorting.
From S2P Require Import Prelude Strconv.
Local Open Scope Z_scope.

(** ** Runes *)

Definition RuneError : Z := 0xFFFD.
Definition byteZ (c : ascii) : Z := Z.of_N (N_of_ascii c).
Definition within (lo hi b : Z) : bool := (lo <=? b) && (b <=? hi).

(** The length a first byte announces, and the range of the second byte. *)
Definition firstByte (b : Z) : option (nat * Z * Z) :=
  if within 0xC2 0xDF b then Some (2%nat, 0x80, 0xBF)
  else if b =? 0xE0 then Some (3%nat, 0xA0, 0xBF)
  else if b =? 0xED then Some (3%nat, 0x80, 0x9F)
  else if within 0xE1 0xEF b then Some (3%nat, 0x80, 0xBF)
  else if b =? 0xF0 then Some (4%nat, 0x90, 0xBF)
  else if within 0xF1 0xF3 b then Some (4%nat, 0x80, 0xBF)
  else if b =? 0xF4 then Some (4%nat, 0x80, 0x8F)
  else None.

Definition joinBits (hi b : Z) : Z := Z.lor (Z.shiftl hi 6) (Z.land b 0x3F).

(** The first rune and the number of bytes after the first one that belong to
    it; a malformed sequence is [RuneError] of one byte. *)
Definition DecodeRune (c : ascii) (rest : list ascii) : Z * nat :=
  let b0 := byteZ c in
  if b0 <? 0x80 then (b0, 0%nat)
  else
    match firstByte b0, byteZ <$> take 3 rest with
    | Some (2%nat, lo, hi), b1 :: _ =>
        if within lo hi b1 then (joinBits (Z.land b0 0x1F) b1, 1%nat) else (RuneError, 0%nat)
    | Some (3%nat, lo, hi), b1 :: b2 :: _ =>
        if within lo hi b1 && within 0x80 0xBF b2
        then (joinBits (joinBits (Z.land b0 0x0F) b1) b2, 2%nat) else (RuneError, 0%nat)
    | Some (4%nat, lo, hi), b1 :: b2 :: b3 :: _ =>
        if within lo hi b1 && within 0x80 0xBF b2 && within 0x80 0xBF b3
        then (joinBits (joinBits (joinBits (Z.land b0 0x07) b1) b2) b3, 3%nat) else (RuneError, 0%nat)
    | _, _ => (RuneError, 0%nat)
    end.

(** [for i, r := range s]: the runes with their bytes.  Every rune takes at
    least one byte, so the length is fuel enough ([runes_bytes]). *)
Fixpoint runesLoop (fuel : nat) (s : list ascii) : list (Z * list ascii) :=
  match fuel, s with
  | S fuel, c :: rest =>
      let '(r, n) := DecodeRune c rest in
      (r, c :: take n rest) :: runesLoop fuel (drop n rest)
  | _, _ => []
  end.

Definition runes (s : string) : list (Z * list ascii) := runesLoop (length (chars s)) (chars s).

Lemma runesLoop_bytes fuel s : (length s ≤ fuel)%nat → concat (runesLoop fuel s).*2 = s.
Proof.
  revert s. induction fuel as [|fuel IH]; intros [|c rest] Hl; simpl in *; try done; [lia|].
  destruct (DecodeRune c rest) as [r n]. cbn [fmap list_fmap concat snd].
  rewrite IH by (rewrite length_drop; lia). simpl. by rewrite take_drop.
Qed.

Lemma runes_bytes s : concat (runes s).*2 = chars s.
Proof. by apply runesLoop_bytes. Qed.

(** ** Fields *)

(** [cur]: the bytes of the field being read, if there is one. *)
Fixpoint fieldsLoop (sep : Z → bool) (rs : list (Z * list ascii)) (cur : option (list ascii)) : list string :=
  match rs with
  | [] => match cur with Some w => [string_of_list_ascii w] | None => [] end
  | (r, bs) :: rs =>
      if sep r then
        match cur with
        | Some w => string_of_list_ascii w :: fieldsLoop sep rs None
        | None => fieldsLoop sep rs None
        end
      else fieldsLoop sep rs (Some (default [] cur ++ bs))
  end.

Definition FieldsFunc (s : string) (sep : Z → bool) : list string := fieldsLoop sep (runes s) None.

Lemma chars_of_list l : chars (string_of_list_ascii l) = l.
Proof. apply list_ascii_of_string_of_list_ascii. Qed.

Lemma fieldsLoop_bytes sep rs cur :
  concat (chars <$> fieldsLoop sep rs cur) =
    default [] cur ++ concat (filter (λ r, sep r.1 = false) rs).*2.
Proof.
  revert cur. induction rs as [|[r bs] rs IH]; intros cur; simpl.
  { destruct cur; simpl; [|done]. by rewrite chars_of_list. }
  rewrite filter_cons. simpl. destruct (sep r) eqn:Hr.
  - rewrite decide_False by done. destruct cur as [w|]; simpl; rewrite IH; [|done]. by rewrite chars_of_list.
  - rewrite decide_True by done. rewrite IH. simpl. by rewrite <-app_assoc.
Qed.

(** The fields are the text without its separators. *)
Lemma FieldsFunc_bytes s sep :
  concat (chars <$> FieldsFunc s sep) = concat (filter (λ r, sep r.1 = false) (runes s)).*2.
Proof. unfold FieldsFunc. by rewrite fieldsLoop_bytes. Qed.

(** ** Join and sort *)

Fixpoint Join (l : list string) (sep : string) : string :=
  match l with
  | [] => ""
  | [s] => s
  | s :: l => s +:+ sep +:+ Join l sep
  end.

Definition sortStrings : list string → list string := merge_sort String.le.

(** [sort.Strings] has one result for all orders of the same strings. *)
Lemma sortStrings_Permutation l l' : l ≡ₚ l' → sortStrings l = sortStrings l'.
Proof.
  intros Hp. apply (StronglySorted_unique String.le).
  - apply StronglySorted_merge_sort; apply _.
  - apply StronglySorted_merge_sort; apply _.
  - unfold sortStrings. by rewrite !merge_sort_Permutation.
Qed.

Example FieldsFunc_words :
  FieldsFunc "It's a dog" (λ r, negb (within 65 90 r || within 97 122 r)) = ["It"; "s"; "a"; "dog"].
Proof. reflexivity. Qed.

(** "é", an incomplete rune, "z" *)
Example runes_utf8 :
  (runes (string_of_list_ascii (ascii_of_N <$> [0xC3; 0xA9; 0xE2; 0x82; 0x7A]%N))).*1 =
    [0xE9; RuneError; RuneError; 0x7A].
Proof. reflexivity. Qed.
