(* ===== verification/Json.v ===== *)
(** * Strings in JSON

    What the workers of src/src/mr/worker.go use of [encoding/json]: the string
    literals it writes and reads.

    - [Encode] escapes quotes, backslashes, control characters, the characters
      [<], [>] and [&] and the line separators U+2028 and U+2029.  A byte that is
      not part of a well-formed UTF-8 sequence is written as the escape of
      U+FFFD, so a string comes back as [clean] of it ([decodeString_encode]); text in
      UTF-8 comes back as it was.
    - [decodeString] reads a literal up to its closing quote: it stops with an
      error at a control character, at an unknown escape and at the end of the
      text.  Bytes that are not UTF-8 are replaced here too.  The escapes of
      surrogates, which [Encode] does not write, are errors here.

    A string is a sequence of bytes (GoStrings.v). *)

From Stdlib Require Import Ascii String.
From stdpp Require Import prelude strings list.
From S2P Require Import Prelude Strconv GoStrings.
Local Open Scope Z_scope.

Notation bytes := (list ascii).

Definition byte (b : N) : ascii := ascii_of_N b.
Definition quote : ascii := byte 34.
Definition backslash : ascii := byte 92.

(** The bytes of a rune below U+10000. *)
Definition encodeRune (r : Z) : bytes :=
  (λ b, ascii_of_N (Z.to_N b)) <$>
    (if r <? 0x80 then [r]
     else if r <? 0x800 then [0xC0 + Z.shiftr r 6; 0x80 + Z.land r 0x3F]
     else [0xE0 + Z.shiftr r 12; 0x80 + Z.land (Z.shiftr r 6) 0x3F; 0x80 + Z.land r 0x3F]).

Definition replacement : bytes := encodeRune RuneError.

(** ** Well-formed text *)

(** The bytes of one rune; a byte that belongs to none is replaced. *)
Definition cleanRune (bs : bytes) : bytes :=
  match bs with
  | [c] => if byteZ c <? 0x80 then [c] else replacement
  | _ => bs
  end.

Definition clean (s : string) : string := string_of_list_ascii (concat (cleanRune <$> (runes s).*2)).

(** The string is well-formed UTF-8. *)
Definition valid_utf8 (s : string) : Prop := clean s = s.

(** ** Encoding *)

Definition hexDigit (n : Z) : ascii := ascii_of_N (Z.to_N (if n <? 10 then 48 + n else 87 + n)).

(** [\uXXXX] *)
Definition unicodeEscape (r : Z) : bytes :=
  [backslash; "u"%char; hexDigit (Z.land (Z.shiftr r 12) 15); hexDigit (Z.land (Z.shiftr r 8) 15);
   hexDigit (Z.land (Z.shiftr r 4) 15); hexDigit (Z.land r 15)].

Definition escapeASCII (c : ascii) : bytes :=
  let b := byteZ c in
  if (b =? 34) || (b =? 92) then [backslash; c]
  else if b =? 10 then [backslash; "n"%char]
  else if b =? 13 then [backslash; "r"%char]
  else if b =? 9 then [backslash; "t"%char]
  else if (b <? 32) || (b =? 60) || (b =? 62) || (b =? 38) then unicodeEscape b
  else [c].

Definition escapeRune (bs : bytes) : bytes :=
  match bs with
  | [c] => if byteZ c <? 0x80 then escapeASCII c else unicodeEscape RuneError
  | _ => if decide (bs = encodeRune 0x2028) then unicodeEscape 0x2028
         else if decide (bs = encodeRune 0x2029) then unicodeEscape 0x2029
         else bs
  end.

Definition encodeString (s : string) : bytes := quote :: concat (escapeRune <$> (runes s).*2) ++ [quote].

(** ** Decoding *)

Definition hexValue (c : ascii) : option Z :=
  let b := byteZ c in
  if within 48 57 b then Some (b - 48)
  else if within 97 102 b then Some (b - 87)
  else if within 65 70 b then Some (b - 55)
  else None.

Definition unescapeUnicode (h1 h2 h3 h4 : ascii) : option bytes :=
  match hexValue h1, hexValue h2, hexValue h3, hexValue h4 with
  | Some a, Some b, Some c, Some d =>
      let r := ((a * 16 + b) * 16 + c) * 16 + d in
      if within 0xD800 0xDFFF r then None else Some (encodeRune r)
  | _, _, _, _ => None
  end.

(** The character after the backslash, [u] apart. *)
Definition unescape (c : ascii) : option ascii :=
  let b := byteZ c in
  if (b =? 34) || (b =? 92) || (b =? 47) then Some c
  else if b =? 98 then Some (byte 8)
  else if b =? 102 then Some (byte 12)
  else if b =? 110 then Some (byte 10)
  else if b =? 114 then Some (byte 13)
  else if b =? 116 then Some (byte 9)
  else None.

Definition prepend (bs : bytes) (r : option (bytes * bytes)) : option (bytes * bytes) :=
  match r with Some (out, rest) => Some (bs ++ out, rest) | None => None end.

(** The literal after its opening quote: what it stands for, and the text after
    the closing quote. *)
Fixpoint literal (s : bytes) : option (bytes * bytes) :=
  match s with
  | [] => None
  | c :: s1 =>
      if byteZ c =? 34 then Some ([], s1)
      else if byteZ c =? 92 then
        match s1 with
        | [] => None
        | e :: s2 =>
            if byteZ e =? 117 then
              match s2 with
              | h1 :: h2 :: h3 :: h4 :: s3 =>
                  match unescapeUnicode h1 h2 h3 h4 with
                  | Some bs => prepend bs (literal s3)
                  | None => None
                  end
              | _ => None
              end
            else match unescape e with Some b => prepend [b] (literal s2) | None => None end
        end
      else if byteZ c <? 32 then None
      else prepend [c] (literal s1)
  end.

(** [clean]: the decoder replaces what is not UTF-8. *)
Definition decodeString (s : bytes) : option (string * bytes) :=
  match s with
  | c :: s =>
      if byteZ c =? 34 then
        match literal s with
        | Some (out, rest) => Some (clean (string_of_list_ascii out), rest)
        | None => None
        end
      else None
  | [] => None
  end.

(** ** Runes of well-formed text *)

Lemma firstByte_range b k lo hi :
  firstByte b = Some (k, lo, hi) → 0x80 ≤ lo ∧ (k = 2 ∨ k = 3 ∨ k = 4)%nat.
Proof. unfold firstByte. intros. repeat case_match; simplify_eq; lia. Qed.

Lemma within_spec lo hi b : within lo hi b = true ↔ lo ≤ b ≤ hi.
Proof. unfold within. rewrite andb_true_iff, !Z.leb_le. lia. Qed.

(** A rune of several bytes is read the same whatever follows it. *)
Lemma DecodeRune_local c rest r n :
  DecodeRune c rest = (r, n) → (0 < n)%nat →
  length (take n rest) = n ∧ 0x80 ≤ byteZ c ∧ Forall (λ b, 0x80 ≤ byteZ b) (take n rest) ∧
  ∀ rest', DecodeRune c (take n rest ++ rest') = (r, n).
Proof.
  unfold DecodeRune. destruct (byteZ c <? 0x80) eqn:Hc; [intros [= _ <-]; lia|]. apply Z.ltb_ge in Hc.
  destruct (firstByte (byteZ c)) as [[[k lo] hi]|] eqn:Hf; [|intros [= _ <-]; lia].
  destruct (firstByte_range _ _ _ _ Hf) as [Hlo [->|[->| ->] ] ].
  - destruct rest as [|x1 rest]; simpl; [intros [= _ <-]; lia|].
    destruct (within lo hi (byteZ x1)) eqn:W; [|intros [= _ <-]; lia]. intros [= <- <-] _. simpl.
    rewrite take_0. apply within_spec in W as W'. split_and!; [done|done|by repeat constructor; lia|].
    intros rest'. simpl. by rewrite W.
  - destruct rest as [|x1 [|x2 rest] ]; simpl; [intros [= _ <-]; lia|intros [= _ <-]; lia|].
    destruct (within lo hi (byteZ x1) && _) eqn:W; [|intros [= _ <-]; lia]. intros [= <- <-] _. simpl.
    rewrite take_0. pose proof W as [W1%within_spec W2%within_spec]%andb_true_iff.
    split_and!; [done|done|by repeat constructor; lia|]. intros rest'. simpl. by rewrite W.
  - destruct rest as [|x1 [|x2 [|x3 rest] ] ]; simpl; [intros [= _ <-]; lia|intros [= _ <-]; lia|intros [= _ <-]; lia|].
    destruct (within lo hi (byteZ x1) && _ && _) eqn:W; [|intros [= _ <-]; lia]. intros [= <- <-] _. simpl.
    rewrite take_0. pose proof W as [[W1%within_spec W2%within_spec]%andb_true_iff W3%within_spec]%andb_true_iff.
    split_and!; [done|done|by repeat constructor; lia|]. intros rest'. simpl. by rewrite W.
Qed.

(** A rune: one ASCII byte, several bytes that are read as one rune whatever
    follows, or a byte that is not text. *)
Inductive rune_shape : Z * bytes → Prop :=
  | shape_ascii c : byteZ c < 0x80 → rune_shape (byteZ c, [c])
  | shape_multi r c t :
      t ≠ [] → 0x80 ≤ byteZ c → Forall (λ b, 0x80 ≤ byteZ b) t →
      (∀ rest, DecodeRune c (t ++ rest) = (r, length t)) → rune_shape (r, c :: t)
  | shape_broken c : 0x80 ≤ byteZ c → rune_shape (RuneError, [c]).

Lemma DecodeRune_shape c rest r n : DecodeRune c rest = (r, n) → rune_shape (r, c :: take n rest).
Proof.
  intros Hd. destruct n as [|n].
  - rewrite take_0. unfold DecodeRune in Hd. destruct (byteZ c <? 0x80) eqn:Hc.
    + injection Hd as <-. apply shape_ascii. by apply Z.ltb_lt.
    + apply Z.ltb_ge in Hc. assert (r = RuneError) as -> by (repeat case_match; simplify_eq; done).
      by apply shape_broken.
  - destruct (DecodeRune_local _ _ _ _ Hd ltac:(lia)) as (Hl & Hc & Ht & Hloc).
    apply shape_multi; [by intros Heq; rewrite Heq in Hl|done|done|]. by rewrite Hl.
Qed.

Lemma runesLoop_shape fuel s : Forall rune_shape (runesLoop fuel s).
Proof.
  revert s. induction fuel as [|fuel IH]; intros [|c rest]; simpl; try constructor.
  destruct (DecodeRune c rest) as [r n] eqn:Hd. constructor; [by eapply DecodeRune_shape|apply IH].
Qed.

Lemma runes_shape s : Forall rune_shape (runes s).
Proof. apply runesLoop_shape. Qed.

(** Text: runes without broken bytes. *)
Definition text_rune (u : Z * bytes) : Prop := rune_shape u ∧ cleanRune u.2 = u.2.

Lemma cleanRune_multi c t : t ≠ [] → cleanRune (c :: t) = c :: t.
Proof. by destruct t. Qed.

Lemma cleanRune_ascii c : byteZ c < 0x80 → cleanRune [c] = [c].
Proof. intros Hc. simpl. by rewrite (proj2 (Z.ltb_lt _ _)). Qed.

Lemma cleanRune_broken c : 0x80 ≤ byteZ c → cleanRune [c] = replacement.
Proof. intros Hc. simpl. by rewrite (proj2 (Z.ltb_ge _ _)). Qed.

Lemma replacement_text : text_rune (RuneError, replacement).
Proof.
  split; [|done]. apply shape_multi; [done|done| |reflexivity]. by repeat constructor.
Qed.

Lemma clean_text u : rune_shape u → ∃ r, text_rune (r, cleanRune u.2) ∧ (r = u.1 ∨ r = RuneError).
Proof.
  intros [c Hc|r c t Hne Hc Ht Hd|c Hc]; cbn [snd].
  - exists (byteZ c). rewrite cleanRune_ascii by done. split; [|by left]. split; [by apply shape_ascii|]. by apply cleanRune_ascii.
  - exists r. rewrite cleanRune_multi by done. split; [|by left]. split; [by apply shape_multi|]. by apply cleanRune_multi.
  - exists RuneError. rewrite cleanRune_broken by done. split; [apply replacement_text|by right].
Qed.

(** Text is read as the runes it was made of. *)
Lemma runesLoop_text us fuel :
  Forall text_rune us → (length (concat us.*2) ≤ fuel)%nat → (runesLoop fuel (concat us.*2)).*2 = us.*2.
Proof.
  intros Hus. revert fuel. induction Hus as [|u us [Hu Hc] Hus IH]; intros fuel Hl; [by destruct fuel|].
  assert (∃ c t r, u.2 = c :: t ∧ ∀ rest, DecodeRune c (t ++ rest) = (r, length t)) as (c & t & r & Heq & Hd).
  { destruct Hu as [c Hb|r c t Hne Hb Ht Hd|c Hb].
    - exists c, [], (byteZ c). split; [done|]. intros rest. unfold DecodeRune. by rewrite (proj2 (Z.ltb_lt _ _)).
    - by exists c, t, r.
    - simpl in Hc. by rewrite (proj2 (Z.ltb_ge _ _)) in Hc. }
  rewrite fmap_cons in Hl |- *. cbn [concat] in Hl |- *. rewrite Heq in Hl |- *. simpl in Hl |- *.
  destruct fuel as [|fuel]; [lia|]. simpl. rewrite Hd, take_app_length, drop_app_length. rewrite fmap_cons. simpl.
  f_equal. apply IH. rewrite length_app in Hl. lia.
Qed.

Lemma runes_text us : Forall text_rune us → (runes (string_of_list_ascii (concat us.*2))).*2 = us.*2.
Proof. intros Hus. unfold runes. rewrite chars_of_list. by apply runesLoop_text. Qed.

Lemma text_valid us : Forall text_rune us → valid_utf8 (string_of_list_ascii (concat us.*2)).
Proof.
  intros Hus. unfold valid_utf8, clean. rewrite runes_text by done. do 2 f_equal.
  induction Hus as [|u us [_ Hc] _ IH]; [done|]. by rewrite !fmap_cons, Hc, IH.
Qed.

Lemma clean_units (us : list (Z * bytes)) :
  Forall rune_shape us → ∃ us', Forall text_rune us' ∧ us'.*2 = cleanRune <$> us.*2.
Proof.
  induction 1 as [|u us Hu _ (us' & Hus' & Heq)]; [by exists []|]. destruct (clean_text u Hu) as (r & Hr & _).
  exists ((r, cleanRune u.2) :: us'). split; [by constructor|]. by rewrite !fmap_cons, Heq.
Qed.

(** What [clean] makes is well formed. *)
Lemma clean_valid s : valid_utf8 (clean s).
Proof. unfold clean. destruct (clean_units _ (runes_shape s)) as (us & Hus & <-). by apply text_valid. Qed.

(** The fields of a text whose separators include U+FFFD are well formed. *)
Lemma FieldsFunc_valid s sep : sep RuneError = true → Forall valid_utf8 (FieldsFunc s sep).
Proof.
  intros Hsep. unfold FieldsFunc.
  assert (∀ us cur, Forall rune_shape us → (∀ w, cur = Some w → ∃ vs, Forall text_rune vs ∧ w = concat vs.*2) →
    Forall valid_utf8 (fieldsLoop sep us cur)) as Hgen; [|by apply Hgen; [apply runes_shape|]].
  induction us as [|[r bs] us IH]; intros cur Hus Hcur; simpl.
  { destruct cur as [w|]; [|constructor]. destruct (Hcur w eq_refl) as (vs & Hvs & ->). repeat constructor. by apply text_valid. }
  apply Forall_cons in Hus as [Hu Hus]. destruct (sep r) eqn:Hr.
  - assert (Forall valid_utf8 (fieldsLoop sep us None)) as Hrest by by apply IH.
    destruct cur as [w|]; [|done]. destruct (Hcur w eq_refl) as (vs & Hvs & ->). constructor; [by apply text_valid|done].
  - apply IH; [done|]. intros w [= <-].
    assert (text_rune (r, bs)) as Ht.
    { split; [done|]. inversion Hu as [c Hc E|r' c t Hne Hc Ht Hd E|c Hc E]; simplify_eq; cbn [snd].
      - by apply cleanRune_ascii.
      - by apply cleanRune_multi.
      - by rewrite Hsep in Hr. }
    assert (∃ vs, Forall text_rune vs ∧ default [] cur = concat vs.*2) as (vs & Hvs & ->).
    { destruct cur as [w|]; [by apply Hcur|]. by exists []. }
    exists (vs ++ [(r, bs)]). split; [apply Forall_app; by split; [|constructor]|].
    rewrite fmap_app, concat_app. simpl. by rewrite app_nil_r.
Qed.

(** ** What is written is read back *)

Lemma prepend_app a b r : prepend a (prepend b r) = prepend (a ++ b) r.
Proof. destruct r as [[out rest]|]; simpl; [by rewrite app_assoc|done]. Qed.

Lemma literal_high bs rest : Forall (λ b, 0x80 ≤ byteZ b) bs → literal (bs ++ rest) = prepend bs (literal rest).
Proof.
  induction 1 as [|b bs Hb _ IH]; simpl; [by destruct (literal rest) as [[]|]|].
  rewrite !(proj2 (Z.eqb_neq _ _)), (proj2 (Z.ltb_ge _ _)), IH by lia. by rewrite prepend_app.
Qed.

Lemma literal_ascii c rest : byteZ c < 0x80 → literal (escapeASCII c ++ rest) = prepend [c] (literal rest).
Proof. destruct c as [[] [] [] [] [] [] [] []]; intros Hc; try (exfalso; by vm_compute in Hc); reflexivity. Qed.

Lemma literal_escape u rest :
  rune_shape u → literal (escapeRune u.2 ++ rest) = prepend (cleanRune u.2) (literal rest).
Proof.
  intros [c Hc|r c t Hne Hc Ht Hd|c Hc]; cbn [snd].
  - rewrite cleanRune_ascii by done. unfold escapeRune. rewrite (proj2 (Z.ltb_lt _ _)) by done. by apply literal_ascii.
  - rewrite cleanRune_multi by done. unfold escapeRune. destruct t as [|c' t]; [done|].
    destruct (decide _) as [->|]; [reflexivity|]. destruct (decide _) as [->|]; [reflexivity|].
    apply literal_high. by constructor.
  - rewrite cleanRune_broken by done. unfold escapeRune. rewrite (proj2 (Z.ltb_ge _ _)) by done. reflexivity.
Qed.

Lemma literal_escapes (us : list (Z * bytes)) rest :
  Forall rune_shape us →
  literal (concat (escapeRune <$> us.*2) ++ quote :: rest) = Some (concat (cleanRune <$> us.*2), rest).
Proof.
  induction 1 as [|u us Hu _ IH]; [reflexivity|]. rewrite !fmap_cons. cbn [concat].
  by rewrite <-app_assoc, literal_escape, IH.
Qed.

(** A string comes back as its clean form. *)
Lemma decodeString_encode s rest : decodeString (encodeString s ++ rest) = Some (clean s, rest).
Proof.
  unfold encodeString. rewrite <-app_comm_cons, <-app_assoc. simpl. change (byteZ quote =? 34) with true. cbn iota.
  rewrite literal_escapes by apply runes_shape. fold (clean s). by rewrite (clean_valid s : clean (clean s) = clean s).
Qed.

(** "é", a quote, a broken byte, a tab and [<] *)
Example encode_mixed :
  encodeString (string_of_list_ascii (ascii_of_N <$> [0xC3; 0xA9; 34; 0xFF; 9; 60]%N)) =
    quote :: byte 0xC3 :: byte 0xA9 :: backslash :: quote :: list_ascii_of_string "\ufffd\t\u003c" ++ [quote].
Proof. vm_compute. reflexivity. Qed.
