(* ===== verification/MapReduce.v ===== *)
(** * MapReduce

    src/src/mr: the coordinator that hands out map and reduce tasks and takes
    them back after a timeout (coordinator.go), and the workers that run them
    (worker.go, rpc.go).

    - [time.Now()] is an argument, in nanoseconds.
    - The waits of [GetMapTask] and [GetReduceTask] on condition variables are
      the answer [Blocked]; the caller asks again when it is woken.
    - [range] over a map gives the expired tasks in any order: the order is an
      argument of [InspectMapTasks] and [InspectReduceTasks].
    - A worker is a process that shares the disk with the others: it does one
      operation on a file per turn ([workerTurn]), so several workers may write,
      truncate and read one file at the same time.  Files are bytes; what the
      pairs are as bytes is JSON (Json.v), for the values the workers write.
    - [sort.Sort] is not stable; it is an argument of the turn. *)

From Stdlib Require Import Ascii String.
From stdpp Require Import prelude gmap strings list.
From S2P Require Import Prelude Strconv GoStrings Json.
Local Open Scope Z_scope.

(** ** Coordinator *)

Inductive Status := IDLE | INPROGRESS | COMPLETED.

#[export] Instance Status_eq_dec : EqDecision Status.
Proof. solve_decision. Defined.

Record transaction := mkTransaction { txnID : Z; beginTime : Z }.

Record Task := mkTask {
  IsMapTask : bool;
  Filenames : list string;
  Index : Z;
  NReduce : Z;
  TxnID : Z;
}.

Record Reply := mkReply { r_Index : Z; r_TxnID : Z; r_Filenames : list string }.

Record Coordinator := mkCoordinator {
  c_NReduce : Z;
  MapTasksCompletedCnt : Z;
  ReduceTasksCompletedCnt : Z;
  NextTxnID : Z;
  MapTasks : list Task;
  ReduceTasks : gmap Z Task;
  MapTaskStatus : gmap Z Status;
  ReduceTaskStatus : gmap Z Status;
  MTaskProcessingTxn : gmap Z transaction;
  RTaskProcessingTxn : gmap Z transaction;
  IdleMapTask : list Z;
  IdleReduceTask : list Z;
}.

(** The fields of the map side, of the reduce side, and the transaction
    counter. *)
Definition set_map (cnt : Z) (st : gmap Z Status) (txn : gmap Z transaction) (idle : list Z)
    (c : Coordinator) : Coordinator :=
  mkCoordinator (c_NReduce c) cnt (ReduceTasksCompletedCnt c) (NextTxnID c) (MapTasks c) (ReduceTasks c)
    st (ReduceTaskStatus c) txn (RTaskProcessingTxn c) idle (IdleReduceTask c).

Definition set_reduce (cnt : Z) (tasks : gmap Z Task) (st : gmap Z Status) (txn : gmap Z transaction)
    (idle : list Z) (c : Coordinator) : Coordinator :=
  mkCoordinator (c_NReduce c) (MapTasksCompletedCnt c) cnt (NextTxnID c) (MapTasks c) tasks
    (MapTaskStatus c) st (MTaskProcessingTxn c) txn (IdleMapTask c) idle.

Definition set_NextTxnID (n : Z) (c : Coordinator) : Coordinator :=
  mkCoordinator (c_NReduce c) (MapTasksCompletedCnt c) (ReduceTasksCompletedCnt c) n (MapTasks c)
    (ReduceTasks c) (MapTaskStatus c) (ReduceTaskStatus c) (MTaskProcessingTxn c) (RTaskProcessingTxn c)
    (IdleMapTask c) (IdleReduceTask c).

Definition TIMEOUTLIMIT : Z := 10.
Definition Second : Z := 10 ^ 9.

Definition CloneTask (dest src : Task) : Task :=
  mkTask (IsMapTask src) (Filenames src) (Index src) (NReduce src) (TxnID dest).

Definition zeroTask : Task := mkTask false [] 0 0 0.

(** Must wait; no task ([false]); a task ([true]). *)
Inductive Answer := Blocked | NoTask | Got (t : Task).

Definition GetMapTask (c : Coordinator) (now : Z) (task : Task) : outcome (Coordinator * Answer) :=
  if (zlen (IdleMapTask c) =? 0) && (MapTasksCompletedCnt c <? zlen (MapTasks c)) then Ret (c, Blocked)
  else if MapTasksCompletedCnt c >=? zlen (MapTasks c) then Ret (c, NoTask)
  else if zlen (IdleMapTask c) =? 0 then Panic (Explicit "Expect c.IdleMapTask to have element(s).")
  else
    i ← go_index (IdleMapTask c) 0;
    idle ← go_slice_from (IdleMapTask c) 1;
    src ← go_index (MapTasks c) i;
    let task := CloneTask task src in
    let task := mkTask (IsMapTask task) (Filenames task) (Index task) (NReduce task) (NextTxnID c) in
    let c := set_map (MapTasksCompletedCnt c) (<[i := INPROGRESS]> (MapTaskStatus c))
               (<[i := mkTransaction (TxnID task) now]> (MTaskProcessingTxn c)) idle c in
    Ret (set_NextTxnID (NextTxnID c + 1) c, Got task).

Definition GetReduceTask (c : Coordinator) (now : Z) (task : Task) : outcome (Coordinator * Answer) :=
  if MapTasksCompletedCnt c <? zlen (MapTasks c) then Ret (c, Blocked)
  else if (zlen (IdleReduceTask c) =? 0) && (ReduceTasksCompletedCnt c <? Z.of_nat (size (ReduceTasks c)))
  then Ret (c, Blocked)
  else if ReduceTasksCompletedCnt c >=? Z.of_nat (size (ReduceTasks c)) then Ret (c, NoTask)
  else if zlen (IdleReduceTask c) =? 0 then Panic (Explicit "Expectd c.IdleReduceTask to have element(s).")
  else
    i ← go_index (IdleReduceTask c) 0;
    idle ← go_slice_from (IdleReduceTask c) 1;
    match ReduceTasks c !! i with
    | None => Panic (Explicit "invalid memory address or nil pointer dereference")
    | Some src =>
        let task := CloneTask task src in
        let task := mkTask (IsMapTask task) (Filenames task) (Index task) (NReduce task) (NextTxnID c) in
        let c := set_reduce (ReduceTasksCompletedCnt c) (ReduceTasks c)
                   (<[i := INPROGRESS]> (ReduceTaskStatus c))
                   (<[i := mkTransaction (TxnID task) now]> (RTaskProcessingTxn c)) idle c in
        Ret (set_NextTxnID (NextTxnID c + 1) c, Got task)
    end.

(** [NoTask] is the error "tasks are all done". *)
Definition GetTask (c : Coordinator) (now : Z) : outcome (Coordinator * Answer) :=
  '(c, a) ← GetMapTask c now zeroTask;
  match a with
  | NoTask => GetReduceTask c now zeroTask
  | _ => Ret (c, a)
  end.

(** One file name of [MapTaskDone]; [None] is the error of [Atoi]. *)
Definition addFilename (c : Coordinator) (filename : string) : outcome (option Coordinator) :=
  part ← go_index (Split filename "-") 2;
  match Atoi part with
  | None => Ret None
  | Some idx =>
      let c := match ReduceTasks c !! idx with
               | Some _ => c
               | None => set_reduce (ReduceTasksCompletedCnt c) (<[idx := mkTask false [] idx 0 0]> (ReduceTasks c))
                           (<[idx := IDLE]> (ReduceTaskStatus c)) (RTaskProcessingTxn c)
                           (IdleReduceTask c ++ [idx]) c
               end in
      let t := default zeroTask (ReduceTasks c !! idx) in
      let t := mkTask (IsMapTask t) (Filenames t ++ [filename]) (Index t) (NReduce t) (TxnID t) in
      Ret (Some (set_reduce (ReduceTasksCompletedCnt c) (<[idx := t]> (ReduceTasks c)) (ReduceTaskStatus c)
                   (RTaskProcessingTxn c) (IdleReduceTask c) c))
  end.

(** The loop; on an error the names already added stay. *)
Fixpoint addFilenames (c : Coordinator) (filenames : list string) : outcome (Coordinator * bool) :=
  match filenames with
  | [] => Ret (c, true)
  | filename :: filenames =>
      r ← addFilename c filename;
      match r with
      | None => Ret (c, false)
      | Some c => addFilenames c filenames
      end
  end.

(** Is [txn] the transaction that processes task [i]? *)
Definition currentTxn (txns : gmap Z transaction) (i txn : Z) : bool :=
  match txns !! i with Some t => txnID t =? txn | None => false end.

(** The result is [*reply] with no error; [false] an error. *)
Definition MapTaskDone (c : Coordinator) (req : Reply) : outcome (Coordinator * bool) :=
  if negb (currentTxn (MTaskProcessingTxn c) (r_Index req) (r_TxnID req)) then Ret (c, false)
  else
    '(c, ok) ← addFilenames c (r_Filenames req);
    if negb ok then Ret (c, false)
    else
      Ret (set_map (MapTasksCompletedCnt c + 1) (<[r_Index req := COMPLETED]> (MapTaskStatus c))
             (delete (r_Index req) (MTaskProcessingTxn c)) (IdleMapTask c) c, true).

Definition ReduceTaskDone (c : Coordinator) (req : Reply) : outcome (Coordinator * bool) :=
  if negb (currentTxn (RTaskProcessingTxn c) (r_Index req) (r_TxnID req)) then Ret (c, false)
  else
    Ret (set_reduce (ReduceTasksCompletedCnt c + 1) (ReduceTasks c)
           (<[r_Index req := COMPLETED]> (ReduceTaskStatus c))
           (delete (r_Index req) (RTaskProcessingTxn c)) (IdleReduceTask c) c, true).

(** The transactions that took too long. *)
Definition expired (txns : gmap Z transaction) (now : Z) : gmap Z transaction :=
  filter (λ e, now - beginTime e.2 > TIMEOUTLIMIT * Second) txns.

(** The second loop of the inspections. *)
Fixpoint requeue (indexs : list Z) (st : gmap Z Status) (txns : gmap Z transaction) (idle : list Z)
    : gmap Z Status * gmap Z transaction * list Z :=
  match indexs with
  | [] => (st, txns, idle)
  | index :: indexs => requeue indexs (<[index := IDLE]> st) (delete index txns) (idle ++ [index])
  end.

(** [indexs]: the expired transactions in the order of the iteration. *)
Definition InspectMapTasks (c : Coordinator) (indexs : list Z) : Coordinator :=
  let '(st, txns, idle) := requeue indexs (MapTaskStatus c) (MTaskProcessingTxn c) (IdleMapTask c) in
  set_map (MapTasksCompletedCnt c) st txns idle c.

Definition InspectReduceTasks (c : Coordinator) (indexs : list Z) : Coordinator :=
  let '(st, txns, idle) := requeue indexs (ReduceTaskStatus c) (RTaskProcessingTxn c) (IdleReduceTask c) in
  set_reduce (ReduceTasksCompletedCnt c) (ReduceTasks c) st txns idle c.

Definition Done (c : Coordinator) : bool :=
  (MapTasksCompletedCnt c >=? zlen (MapTasks c)) &&
  (ReduceTasksCompletedCnt c >=? Z.of_nat (size (ReduceTasks c))).

(** One turn of the loop of [InspectTasks], which ends ([None]) when the job is
    done; [between] is what the handlers do between the two inspections. *)
Definition InspectTasks (c : Coordinator) (maps reduces : list Z) (between : Coordinator → Coordinator)
    : option Coordinator :=
  if Done c then None else Some (InspectReduceTasks (between (InspectMapTasks c maps)) reduces).

(** The loop of [MakeCoordinator] from file number [i]. *)
Fixpoint addFiles (files : list string) (nReduce i : Z) (c : Coordinator) : Coordinator :=
  match files with
  | [] => c
  | file :: files =>
      addFiles files nReduce (i + 1)
        (mkCoordinator (c_NReduce c) (MapTasksCompletedCnt c) (ReduceTasksCompletedCnt c) (NextTxnID c)
           (MapTasks c ++ [mkTask true [file] i nReduce 0]) (ReduceTasks c) (<[i := IDLE]> (MapTaskStatus c))
           (ReduceTaskStatus c) (MTaskProcessingTxn c) (RTaskProcessingTxn c) (IdleMapTask c ++ [i])
           (IdleReduceTask c))
  end.

Definition MakeCoordinator (files : list string) (nReduce : Z) : Coordinator :=
  addFiles files nReduce 0 (mkCoordinator nReduce 0 0 0 [] ∅ ∅ ∅ ∅ ∅ [] []).

(** ** Worker *)

Record KeyValue := mkKeyValue { Key : string; Value : string }.

(** FNV-1a, 32 bits. *)
Fixpoint fnv32a (h : Z) (s : string) : Z :=
  match s with
  | EmptyString => h
  | String c s => fnv32a (Z.modulo (Z.lxor h (Z.of_N (N_of_ascii c)) * 16777619) (2 ^ 32)) s
  end.

Definition ihash (key : string) : Z := Z.land (fnv32a 2166136261 key) 0x7fffffff.

(** *** Pairs as JSON *)

Definition strip (lit s : bytes) : option bytes :=
  if decide (take (length lit) s = lit) then Some (drop (length lit) s) else None.

Definition keyField : bytes := "{"%char :: quote :: chars "Key" ++ [quote; ":"%char].
Definition valueField : bytes := ","%char :: quote :: chars "Value" ++ [quote; ":"%char].

(** [Encode(&kv)] *)
Definition encodeKV (kv : KeyValue) : bytes :=
  keyField ++ encodeString (Key kv) ++ valueField ++ encodeString (Value kv) ++ ["}"%char; byte 10].

Fixpoint skipSpace (s : bytes) : bytes :=
  match s with
  | c :: s' => if (byteZ c =? 32) || (byteZ c =? 9) || (byteZ c =? 10) || (byteZ c =? 13) then skipSpace s' else s
  | [] => []
  end.

(** [Decode(&kv)] on a text that starts with a value [Encode] has written: the
    value and the rest of the text.  [None] is an error, or the end of the text. *)
Definition decodeKV (s : bytes) : option (KeyValue * bytes) :=
  match strip keyField (skipSpace s) with
  | None => None
  | Some s =>
      match decodeString s with
      | None => None
      | Some (key, s) =>
          match strip valueField s with
          | None => None
          | Some s =>
              match decodeString s with
              | None => None
              | Some (value, s) =>
                  match strip ["}"%char] s with Some s => Some (mkKeyValue key value, s) | None => None end
              end
          end
      end
  end.

(** The loop over [Decode], which stops at the first error.  A value is not
    empty, so the length of the text is fuel enough. *)
Fixpoint decodeLoop (fuel : nat) (s : bytes) : list KeyValue :=
  match fuel with
  | O => []
  | S fuel => match decodeKV s with Some (kv, s) => kv :: decodeLoop fuel s | None => [] end
  end.

Definition decodeFile (s : bytes) : list KeyValue := decodeLoop (length s) s.

(** *** The disk *)

Record Disk := mkDisk {
  inputs : gmap string string;
  intermediate : gmap string bytes;
  outputs : gmap string bytes;
}.

Definition set_intermediate (fs : gmap string bytes) (d : Disk) : Disk := mkDisk (inputs d) fs (outputs d).
Definition set_outputs (fs : gmap string bytes) (d : Disk) : Disk := mkDisk (inputs d) (intermediate d) fs.

(** [Create] makes an empty file, or cuts off what was there. *)
Definition Create (name : string) (fs : gmap string bytes) : gmap string bytes := <[name := []]> fs.

(** Writing [bs] at the offset [off] of an open file; if the file has become
    shorter in the meantime, zero bytes fill the gap. *)
Definition WriteAt (name : string) (off : nat) (bs : bytes) (fs : gmap string bytes) : gmap string bytes :=
  let file := default [] (fs !! name) in
  <[name := take off file ++ replicate (off - length file) Ascii.zero ++ bs ++ drop (off + length bs) file]> fs.

(** [fmt.Sprintf("mr-%d-%d", index, r)] and [fmt.Sprintf("mr-out-%d", index)] *)
Definition iFileName (index r : Z) : string := "mr-" +:+ FormatInt index +:+ "-" +:+ FormatInt r.
Definition oFileName (index : Z) : string := "mr-out-" +:+ FormatInt index.

(** *** Tasks *)

(** The two-pointer loop: the run of [key] with its values so far, and the
    rest of the pairs. *)
Fixpoint groupFrom (key : string) (values : list string) (kva : list KeyValue) : list (string * list string) :=
  match kva with
  | [] => [(key, values)]
  | kv :: kva =>
      if decide (Key kv = key) then groupFrom key (values ++ [Value kv]) kva
      else (key, values) :: groupFrom (Key kv) [Value kv] kva
  end.

Definition groups (kva : list KeyValue) : list (string * list string) :=
  match kva with
  | [] => []
  | kv :: kva => groupFrom (Key kv) [Value kv] kva
  end.

(** Where a worker is.

    - [WTask]: it got the task.
    - [WMap]: it has called the map function; the pairs it has not written yet,
      and the files it has created ([iFileNames]; the keys of [files] and
      [encoders] are the same) with their offsets.
    - [WRead]: it reads the files of a reduce task; those not opened yet, the
      open one with what was read from it, and the pairs of the files before.
    - [WWrite]: it writes the output file; the groups it has not reached yet
      and the offset. *)
Inductive Worker :=
  | WTask (t : Task)
  | WMap (t : Task) (kva : list KeyValue) (files : list (string * nat))
  | WRead (t : Task) (filenames : list string) (file : option (string * bytes)) (kva : list KeyValue)
  | WWrite (t : Task) (gs : list (string * list string)) (off : nat).

Definition w_task (w : Worker) : Task :=
  match w with WTask t | WMap t _ _ | WRead t _ _ _ | WWrite t _ _ => t end.

(** The argument of the RPC at the end of a task: of a map task?, the reply. *)
Definition Report : Type := bool * Reply.

Section worker.
Context (mapf : string → string → list KeyValue) (reducef : string → list string → string).
Context (sortf : list KeyValue → list KeyValue).

(** The offset of an open file. *)
Fixpoint offset (name : string) (files : list (string * nat)) : option nat :=
  match files with
  | [] => None
  | (nm, off) :: files => if decide (nm = name) then Some off else offset name files
  end.

Fixpoint advance (name : string) (n : nat) (files : list (string * nat)) : list (string * nat) :=
  match files with
  | [] => []
  | (nm, off) :: files => if decide (nm = name) then (nm, (off + n)%nat) :: files else (nm, off) :: advance name n files
  end.

(** A turn of the loop over the pairs: it creates the file of the next pair, or
    writes the pair to it.  At the end the files are closed. *)
Definition ProcessMapTask (d : Disk) (t : Task) (kva : list KeyValue) (files : list (string * nat))
    : outcome (Disk * (Worker + Report)) :=
  match kva with
  | [] => Ret (d, inr (true, mkReply (Index t) (TxnID t) files.*1))
  | kv :: kva' =>
      if NReduce t =? 0 then Panic (Explicit "integer divide by zero")
      else
        let name := iFileName (Index t) (Z.rem (ihash (Key kv)) (NReduce t)) in
        match offset name files with
        | None => Ret (set_intermediate (Create name (intermediate d)) d, inl (WMap t kva (files ++ [(name, 0%nat)])))
        | Some off =>
            let bs := encodeKV kv in
            Ret (set_intermediate (WriteAt name off bs (intermediate d)) d,
                 inl (WMap t kva' (advance name (length bs) files)))
        end
  end.

(** A turn of the loop over the files: it opens the next one, reads at most
    [chunk + 1] more bytes, or finds the end of the file.  After the last file
    the pairs are sorted and the output file is created. *)
Definition readTurn (chunk : nat) (d : Disk) (t : Task) (filenames : list string) (file : option (string * bytes))
    (kva : list KeyValue) : outcome (Disk * (Worker + Report)) :=
  match file, filenames with
  | Some (name, got), _ =>
      match take (S chunk) (drop (length got) (default [] (intermediate d !! name))) with
      | [] => Ret (d, inl (WRead t filenames None (kva ++ decodeFile got)))
      | bs => Ret (d, inl (WRead t filenames (Some (name, got ++ bs)) kva))
      end
  | None, name :: filenames =>
      match intermediate d !! name with
      | None => Panic Fatal
      | Some _ => Ret (d, inl (WRead t filenames (Some (name, [])) kva))
      end
  | None, [] =>
      Ret (set_outputs (Create (oFileName (Index t)) (outputs d)) d, inl (WWrite t (groups (sortf kva)) 0%nat))
  end.

(** [fmt.Fprintf(ofile, "%v %v\n", key, output)] *)
Definition line (g : string * list string) : string :=
  g.1 +:+ " " +:+ reducef g.1 g.2 +:+ String "010" "".

(** A turn of the loop over the groups. *)
Definition writeTurn (d : Disk) (t : Task) (gs : list (string * list string)) (off : nat)
    : outcome (Disk * (Worker + Report)) :=
  match gs with
  | [] => Ret (d, inr (false, mkReply (Index t) (TxnID t) []))
  | g :: gs =>
      let bs := chars (line g) in
      Ret (set_outputs (WriteAt (oFileName (Index t)) off bs (outputs d)) d, inl (WWrite t gs (off + length bs)%nat))
  end.

Definition ProcessReduceTask (chunk : nat) (d : Disk) (w : Worker) : outcome (Disk * (Worker + Report)) :=
  match w with
  | WRead t filenames file kva => readTurn chunk d t filenames file kva
  | WWrite t gs off => writeTurn d t gs off
  | _ => Ret (d, inl w)
  end.

(** A worker reads its input and calls the map function, or starts to read the
    files of its reduce task; then it goes on in the code of the task. *)
Definition startTask (d : Disk) (t : Task) : outcome (Disk * (Worker + Report)) :=
  if IsMapTask t then
    filename ← go_index (Filenames t) 0;
    match inputs d !! filename with
    | None => Panic Fatal
    | Some content => Ret (d, inl (WMap t (mapf filename content) []))
    end
  else Ret (d, inl (WRead t (Filenames t) None [])).

Definition workerTurn (chunk : nat) (d : Disk) (w : Worker) : outcome (Disk * (Worker + Report)) :=
  match w with
  | WTask t => startTask d t
  | WMap t kva files => ProcessMapTask d t kva files
  | _ => ProcessReduceTask chunk d w
  end.

(** The RPC the worker makes at the end of a task. *)
Definition report (c : Coordinator) (rep : Report) : outcome (Coordinator * bool) :=
  if rep.1 then MapTaskDone c rep.2 else ReduceTaskDone c rep.2.
End worker.
