(* ===== verification/MapReduceCoord.v ===== *)
(** * MapReduce: the coordinator

    The coordinator keeps two pools of tasks with the same discipline: a task
    is idle and queued exactly once, or in progress with one transaction, or
    completed; the counter counts the completed ones; transaction numbers are
    never reused.  Every handler keeps the discipline and never panics. *)

From Stdlib Require Import Ascii String.
From stdpp Require Import prelude gmap strings list.
From S2P Require Import Prelude Strconv MapReduce.
Local Open Scope Z_scope.

(** ** A pool of tasks *)

Definition completed (st : gmap Z Status) : gmap Z Status := filter (λ e, e.2 = COMPLETED) st.

Record pool (ids : gset Z) (st : gmap Z Status) (txns : gmap Z transaction) (idle : list Z) (cnt next : Z)
    : Prop := {
  po_ids : dom st = ids;
  po_nodup : NoDup idle;
  po_idle i : i ∈ idle ↔ st !! i = Some IDLE;
  po_busy i : is_Some (txns !! i) ↔ st !! i = Some INPROGRESS;
  po_cnt : cnt = Z.of_nat (size (completed st));
  po_next i t : txns !! i = Some t → txnID t < next;
}.

Lemma completed_lookup st i : completed st !! i = Some COMPLETED ↔ st !! i = Some COMPLETED.
Proof. unfold completed. rewrite map_lookup_filter_Some. simpl. tauto. Qed.

Lemma completed_other st i s :
  s ≠ COMPLETED → st !! i ≠ Some COMPLETED → completed (<[i := s]> st) = completed st.
Proof.
  intros Hs Hi. unfold completed. apply map_eq. intros j. apply option_eq. intros s'.
  rewrite !map_lookup_filter_Some. simpl. destruct (decide (j = i)) as [->|Hj].
  - rewrite lookup_insert_eq. naive_solver.
  - by rewrite lookup_insert_ne.
Qed.

Lemma completed_more st i :
  st !! i ≠ Some COMPLETED → size (completed (<[i := COMPLETED]> st)) = S (size (completed st)).
Proof.
  intros Hi. unfold completed. rewrite map_filter_insert_True by done. apply map_size_insert_None.
  apply map_lookup_filter_None. right. intros s Hs. simpl. congruence.
Qed.

Section pool.
Context (ids : gset Z) (st : gmap Z Status) (txns : gmap Z transaction) (idle : list Z) (cnt next : Z).

Lemma pool_next next' : pool ids st txns idle cnt next → next ≤ next' → pool ids st txns idle cnt next'.
Proof. intros [] Hle. split; try done. intros i t Ht. specialize (po_next0 i t Ht). lia. Qed.

(** The first idle task is given out. *)
Lemma pool_take i now :
  pool ids st txns (i :: idle) cnt next →
  pool ids (<[i := INPROGRESS]> st) (<[i := mkTransaction next now]> txns) idle cnt (next + 1).
Proof.
  intros [Hid Hnd Hidle Hbusy Hcnt Hnext]. apply NoDup_cons in Hnd as [Hi Hnd].
  assert (st !! i = Some IDLE) as Hst by (apply Hidle; by left). split.
  - rewrite dom_insert_L, <-Hid. apply elem_of_dom_2 in Hst. set_solver.
  - done.
  - intros j. destruct (decide (j = i)) as [->|Hj].
    + rewrite lookup_insert_eq. naive_solver.
    + rewrite lookup_insert_ne, <-Hidle, elem_of_cons by done. tauto.
  - intros j. destruct (decide (j = i)) as [->|Hj].
    + rewrite !lookup_insert_eq. by split.
    + by rewrite !lookup_insert_ne.
  - rewrite completed_other; [done|done|congruence].
  - intros j t [[<- <-]|[_ Ht]]%lookup_insert_Some; simpl; [lia|]. apply Hnext in Ht. lia.
Qed.

(** A transaction ends with its task completed. *)
Lemma pool_done i :
  pool ids st txns idle cnt next → is_Some (txns !! i) →
  pool ids (<[i := COMPLETED]> st) (delete i txns) idle (cnt + 1) next.
Proof.
  intros [Hid Hnd Hidle Hbusy Hcnt Hnext] Hi%Hbusy. split.
  - rewrite dom_insert_L, <-Hid. apply elem_of_dom_2 in Hi. set_solver.
  - done.
  - intros j. rewrite Hidle. destruct (decide (j = i)) as [->|Hj].
    + rewrite lookup_insert_eq. naive_solver.
    + by rewrite lookup_insert_ne.
  - intros j. destruct (decide (j = i)) as [->|Hj].
    + rewrite lookup_delete_eq, lookup_insert_eq. split; [by intros []|done].
    + by rewrite lookup_delete_ne, lookup_insert_ne.
  - rewrite completed_more by congruence. lia.
  - intros j t [_ Ht]%lookup_delete_Some. by eapply Hnext.
Qed.

(** A transaction is given up. *)
Lemma pool_expire i :
  pool ids st txns idle cnt next → is_Some (txns !! i) →
  pool ids (<[i := IDLE]> st) (delete i txns) (idle ++ [i]) cnt next.
Proof.
  intros [Hid Hnd Hidle Hbusy Hcnt Hnext] Hi%Hbusy. split.
  - rewrite dom_insert_L, <-Hid. apply elem_of_dom_2 in Hi. set_solver.
  - apply NoDup_snoc; [|done]. rewrite Hidle. congruence.
  - intros j. rewrite elem_of_app, list_elem_of_singleton, Hidle. destruct (decide (j = i)) as [->|Hj].
    + rewrite lookup_insert_eq. naive_solver.
    + rewrite lookup_insert_ne by done. naive_solver.
  - intros j. destruct (decide (j = i)) as [->|Hj].
    + rewrite lookup_delete_eq, lookup_insert_eq. split; [by intros []|done].
    + by rewrite lookup_delete_ne, lookup_insert_ne.
  - rewrite completed_other; [done|done|congruence].
  - intros j t [_ Ht]%lookup_delete_Some. by eapply Hnext.
Qed.

(** A new task. *)
Lemma pool_new i :
  pool ids st txns idle cnt next → i ∉ ids →
  pool ({[i]} ∪ ids) (<[i := IDLE]> st) txns (idle ++ [i]) cnt next.
Proof.
  intros [Hid Hnd Hidle Hbusy Hcnt Hnext] Hi. assert (st !! i = None) as Hn.
  { apply not_elem_of_dom. by rewrite Hid. }
  split.
  - by rewrite dom_insert_L, Hid.
  - apply NoDup_snoc; [|done]. rewrite Hidle. congruence.
  - intros j. rewrite elem_of_app, list_elem_of_singleton, Hidle. destruct (decide (j = i)) as [->|Hj].
    + rewrite lookup_insert_eq. naive_solver.
    + rewrite lookup_insert_ne by done. naive_solver.
  - intros j. rewrite Hbusy. destruct (decide (j = i)) as [->|Hj].
    + rewrite lookup_insert_eq. naive_solver.
    + by rewrite lookup_insert_ne.
  - rewrite completed_other; [done|done|congruence].
  - done.
Qed.

(** The counter has reached the number of tasks exactly when all are
    completed. *)
Lemma pool_complete :
  pool ids st txns idle cnt next → Z.of_nat (size ids) ≤ cnt ↔ ∀ i, i ∈ ids → st !! i = Some COMPLETED.
Proof.
  intros Hp. rewrite (po_cnt _ _ _ _ _ _ Hp), <-(po_ids _ _ _ _ _ _ Hp), size_dom.
  unfold completed. split.
  - intros Hsz i [s Hs]%elem_of_dom. assert (filter (λ e, e.2 = COMPLETED) st = st) as Heq.
    { apply map_subseteq_size_eq; [apply map_filter_subseteq|lia]. }
    rewrite <-Heq in Hs. apply map_lookup_filter_Some in Hs as [Hs Hc]. simpl in Hc. by subst.
  - intros Hall. rewrite map_filter_id; [done|]. intros i s Hs. simpl.
    specialize (Hall i (elem_of_dom_2 _ _ _ Hs)). congruence.
Qed.

(** Otherwise some task is idle or in progress. *)
Lemma pool_pending :
  pool ids st txns idle cnt next → cnt < Z.of_nat (size ids) → idle ≠ [] ∨ ∃ i, is_Some (txns !! i).
Proof.
  intros Hp Hlt. destruct idle as [|j js] eqn:Hj; [right|by left].
  destruct (map_choose_or_empty txns) as [(i & t & Ht)|Hem]; [exists i; by rewrite Ht|].
  assert (Z.of_nat (size ids) ≤ cnt); [|lia]. apply pool_complete; [by rewrite Hj|]. intros i Hi.
  rewrite <-(po_ids _ _ _ _ _ _ Hp) in Hi. apply elem_of_dom in Hi as [[] Hs]; [| |done].
  - apply (po_idle _ _ _ _ _ _ Hp), not_elem_of_nil in Hs. done.
  - apply (po_busy _ _ _ _ _ _ Hp) in Hs. rewrite Hem, lookup_empty in Hs. by destruct Hs.
Qed.
End pool.

Lemma pool_empty next : pool ∅ ∅ ∅ [] 0 next.
Proof.
  split; try done.
  - constructor.
  - intros i. by rewrite elem_of_nil, lookup_empty.
  - intros i. rewrite !lookup_empty. split; [by intros []|done].
Qed.

(** The inspection loop. *)
Lemma pool_requeue ids indexs st txns idle cnt next st' txns' idle' :
  pool ids st txns idle cnt next → NoDup indexs → (∀ i, i ∈ indexs → is_Some (txns !! i)) →
  requeue indexs st txns idle = (st', txns', idle') →
  pool ids st' txns' idle' cnt next ∧ idle' = idle ++ indexs ∧
  (∀ i, i ∈ indexs → txns' !! i = None) ∧ (∀ i, i ∉ indexs → txns' !! i = txns !! i) ∧
  (∀ i, st' !! i = Some COMPLETED ↔ st !! i = Some COMPLETED).
Proof.
  revert st txns idle. induction indexs as [|i indexs IH]; intros st txns idle Hp Hnd Hin Heq; simplify_eq/=.
  { rewrite app_nil_r. split_and!; [done|done| |done|done]. by intros i ?%not_elem_of_nil. }
  apply NoDup_cons in Hnd as [Hi Hnd].
  assert (is_Some (txns !! i)) as Hbusy by (apply Hin; by left).
  pose proof (pool_expire _ _ _ _ _ _ i Hp Hbusy) as Hp'.
  destruct (IH _ _ _ Hp' Hnd) with (2 := Heq) as (Hq & -> & Hno & Hsame & Hc).
  { intros j Hj. rewrite lookup_delete_ne by (intros ->; done). apply Hin. by right. }
  split_and!; [done|by rewrite <-app_assoc| | |].
  - intros j [->|Hj]%elem_of_cons; [|by apply Hno]. by rewrite Hsame, lookup_delete_eq.
  - intros j [Hne Hj]%not_elem_of_cons. by rewrite Hsame, lookup_delete_ne.
  - intros j. rewrite Hc. destruct (decide (j = i)) as [->|Hne]; [|by rewrite lookup_insert_ne].
    rewrite lookup_insert_eq. apply (po_busy _ _ _ _ _ _ Hp) in Hbusy. rewrite Hbusy. naive_solver.
Qed.

(** ** The coordinator's invariant *)

Definition map_ids (files : list string) : gset Z := list_to_set (seqZ 0 (zlen files)).

Lemma elem_of_map_ids files i : i ∈ map_ids files ↔ 0 ≤ i < zlen files.
Proof. unfold map_ids. rewrite elem_of_list_to_set, elem_of_seqZ. lia. Qed.

Lemma size_map_ids files : Z.of_nat (size (map_ids files)) = zlen files.
Proof. unfold map_ids. rewrite size_list_to_set by apply NoDup_seqZ. rewrite length_seqZ. lia. Qed.

(** A reduce task as [MapTaskDone] builds it. *)
Definition rtask (r : Z) (names : list string) : Task := mkTask false names r 0 0.

Definition names_of (c : Coordinator) (r : Z) : list string :=
  match ReduceTasks c !! r with Some t => Filenames t | None => [] end.

(** Where the file [mr-i-r] goes. *)
Lemma Split_iFileName i r : 0 ≤ i → 0 ≤ r →
  Split (iFileName i r) "-" = ["mr"; FormatInt i; FormatInt r].
Proof.
  intros Hi Hr. unfold iFileName.
  change ("mr-" +:+ FormatInt i +:+ "-" +:+ FormatInt r)
    with ("mr" +:+ String "-" (FormatInt i +:+ String "-" (FormatInt r))).
  rewrite Split_sep by (simpl; set_solver).
  rewrite Split_sep by (apply FormatInt_no_dash; [done|set_solver]).
  by rewrite Split_none by (apply FormatInt_no_dash; [done|set_solver]).
Qed.

Lemma iFileName_inj i r i' r' : 0 ≤ i → 0 ≤ r → 0 ≤ i' → 0 ≤ r' →
  iFileName i r = iFileName i' r' → i = i' ∧ r = r'.
Proof.
  intros ???? Heq. apply (f_equal (λ s, Split s "-")) in Heq. rewrite !Split_iFileName in Heq by done.
  injection Heq as Hi Hr. by apply (inj FormatInt) in Hi, Hr.
Qed.

Section coordinator.
Context (files : list string) (nReduce : Z).

Record coord_ok (c : Coordinator) : Prop := {
  co_tasks : MapTasks c = imap (λ i f, mkTask true [f] (Z.of_nat i) nReduce 0) files;
  co_map : pool (map_ids files) (MapTaskStatus c) (MTaskProcessingTxn c) (IdleMapTask c)
             (MapTasksCompletedCnt c) (NextTxnID c);
  co_reduce : pool (dom (ReduceTasks c)) (ReduceTaskStatus c) (RTaskProcessingTxn c) (IdleReduceTask c)
                (ReduceTasksCompletedCnt c) (NextTxnID c);
  co_rtask r t : ReduceTasks c !! r = Some t → t = rtask r (names_of c r) ∧ names_of c r ≠ [];
}.

Lemma co_len c : coord_ok c → zlen (MapTasks c) = zlen files.
Proof. intros Hc. by rewrite (co_tasks _ Hc), length_imap. Qed.

Definition maps_done (c : Coordinator) : Prop :=
  ∀ i, 0 ≤ i < zlen files → MapTaskStatus c !! i = Some COMPLETED.

Lemma co_maps_done c : coord_ok c → zlen (MapTasks c) ≤ MapTasksCompletedCnt c ↔ maps_done c.
Proof.
  intros Hc. rewrite (co_len _ Hc), <-size_map_ids, (pool_complete _ _ _ _ _ _ (co_map _ Hc)).
  unfold maps_done. by setoid_rewrite elem_of_map_ids.
Qed.

Lemma co_reduces_done c : coord_ok c →
  Z.of_nat (size (ReduceTasks c)) ≤ ReduceTasksCompletedCnt c ↔
  (∀ r, is_Some (ReduceTasks c !! r) → ReduceTaskStatus c !! r = Some COMPLETED).
Proof.
  intros Hc. rewrite <-size_dom, (pool_complete _ _ _ _ _ _ (co_reduce _ Hc)).
  by setoid_rewrite elem_of_dom.
Qed.

Lemma co_map_task c i : coord_ok c → 0 ≤ i < zlen files →
  ∃ f, files !! Z.to_nat i = Some f ∧ go_index (MapTasks c) i = Ret (mkTask true [f] i nReduce 0).
Proof.
  intros Hc Hi. destruct (lookup_lt_is_Some_2 files (Z.to_nat i)) as [f Hf]; [lia|].
  exists f. split; [done|]. apply go_index_Ret. split; [lia|].
  rewrite (co_tasks _ Hc), list_lookup_imap, Hf. simpl. by rewrite Z2Nat.id by lia.
Qed.

Lemma head_queue {A} (x : A) l :
  (zlen (x :: l) =? 0) = false ∧ go_index (x :: l) 0 = Ret x ∧ go_slice_from (x :: l) 1 = Ret l.
Proof.
  split_and!; [|apply (go_index_lookup _ 0); done|].
  - apply Z.eqb_neq. rewrite length_cons. lia.
  - rewrite go_slice_from_in_range by (rewrite length_cons; lia). done.
Qed.

(** [GetMapTask]: it waits when every task that is not completed is in
    progress, has nothing to give when all are completed, and otherwise
    gives out the first idle task under a fresh transaction. *)
Lemma GetMapTask_spec c now :
  coord_ok c →
  ∃ c' a, GetMapTask c now zeroTask = Ret (c', a) ∧ coord_ok c' ∧
    (c' = c ∧ a = Blocked ∧ IdleMapTask c = [] ∧ (∃ i, is_Some (MTaskProcessingTxn c !! i)) ∨
     c' = c ∧ a = NoTask ∧ maps_done c ∨
     ∃ i f, files !! Z.to_nat i = Some f ∧ 0 ≤ i < zlen files ∧ MapTaskStatus c !! i = Some IDLE ∧
       a = Got (mkTask true [f] i nReduce (NextTxnID c)) ∧
       c' = set_NextTxnID (NextTxnID c + 1)
             (set_map (MapTasksCompletedCnt c) (<[i := INPROGRESS]> (MapTaskStatus c))
               (<[i := mkTransaction (NextTxnID c) now]> (MTaskProcessingTxn c)) (tail (IdleMapTask c)) c)).
Proof.
  intros Hc. unfold GetMapTask. pose proof (co_map _ Hc) as Hp.
  destruct (Z.ltb_spec (MapTasksCompletedCnt c) (zlen (MapTasks c))) as [Hlt|Hge].
  2:{ rewrite andb_false_r. rewrite Z.geb_leb, (proj2 (Z.leb_le _ _)) by done. eexists c, _.
      split_and!; [done|done|]. right; left. split_and!; [done|done|]. by apply co_maps_done. }
  rewrite andb_true_r, Z.geb_leb, (proj2 (Z.leb_gt _ _)) by done.
  destruct (IdleMapTask c) as [|i idle] eqn:Hidle.
  { eexists c, _. split_and!; [done|done|]. left. split_and!; [done..|].
    rewrite <-Hidle in Hp. destruct (pool_pending _ _ _ _ _ _ Hp) as [|?]; [|done|done].
    by rewrite size_map_ids, <-(co_len _ Hc). }
  destruct (head_queue i idle) as (-> & -> & ->).
  assert (0 ≤ i < zlen files) as Hi.
  { apply elem_of_map_ids. rewrite <-(po_ids _ _ _ _ _ _ Hp). apply elem_of_dom.
    exists IDLE. apply (po_idle _ _ _ _ _ _ Hp). by left. }
  destruct (co_map_task c i Hc Hi) as (f & Hf & Hget). rewrite !bind_Ret, Hget, bind_Ret. simpl.
  eexists _, _. split; [reflexivity|]. split.
  - destruct Hc as [Ht _ Hr Hrt]. split; simpl; [done| |by eapply pool_next; [done|lia]|done].
    by apply pool_take.
  - right; right. exists i, f. do 2 (split; [done|]).
    split; [apply (po_idle _ _ _ _ _ _ Hp); by left|done].
Qed.

Lemma GetReduceTask_spec c now :
  coord_ok c → maps_done c →
  ∃ c' a, GetReduceTask c now zeroTask = Ret (c', a) ∧ coord_ok c' ∧
    (c' = c ∧ a = Blocked ∧ IdleReduceTask c = [] ∧ (∃ i, is_Some (RTaskProcessingTxn c !! i)) ∨
     c' = c ∧ a = NoTask ∧ Done c = true ∨
     ∃ r, is_Some (ReduceTasks c !! r) ∧ ReduceTaskStatus c !! r = Some IDLE ∧
       a = Got (mkTask false (names_of c r) r 0 (NextTxnID c)) ∧
       c' = set_NextTxnID (NextTxnID c + 1)
             (set_reduce (ReduceTasksCompletedCnt c) (ReduceTasks c) (<[r := INPROGRESS]> (ReduceTaskStatus c))
               (<[r := mkTransaction (NextTxnID c) now]> (RTaskProcessingTxn c)) (tail (IdleReduceTask c)) c)).
Proof.
  intros Hc Hm%co_maps_done; [|done]. unfold GetReduceTask. pose proof (co_reduce _ Hc) as Hp.
  rewrite (proj2 (Z.ltb_ge _ _)) by done.
  destruct (Z.ltb_spec (ReduceTasksCompletedCnt c) (Z.of_nat (size (ReduceTasks c)))) as [Hlt|Hge].
  2:{ rewrite andb_false_r, Z.geb_leb, (proj2 (Z.leb_le _ _)) by done. eexists c, _.
      split_and!; [done|done|]. right; left. split_and!; [done|done|]. unfold Done.
      by rewrite !Z.geb_leb, !(proj2 (Z.leb_le _ _)). }
  rewrite andb_true_r, Z.geb_leb, (proj2 (Z.leb_gt _ _)) by done.
  destruct (IdleReduceTask c) as [|r idle] eqn:Hidle.
  { eexists c, _. split_and!; [done|done|]. left. split_and!; [done..|].
    rewrite <-Hidle in Hp. destruct (pool_pending _ _ _ _ _ _ Hp) as [|?]; [|done|done].
    by rewrite size_dom. }
  destruct (head_queue r idle) as (-> & -> & ->). rewrite !bind_Ret.
  assert (ReduceTaskStatus c !! r = Some IDLE) as Hst by (apply (po_idle _ _ _ _ _ _ Hp); by left).
  assert (is_Some (ReduceTasks c !! r)) as [t Ht].
  { apply elem_of_dom. rewrite <-(po_ids _ _ _ _ _ _ Hp). by apply elem_of_dom_2 in Hst. }
  rewrite Ht. destruct (co_rtask _ Hc _ _ Ht) as [-> _].
  eexists _, _. split; [reflexivity|]. split.
  - destruct Hc as [Hts Hmp _ Hrt]. split; simpl; [done|by eapply pool_next; [done|lia]| |done].
    by apply pool_take.
  - right; right. by exists r.
Qed.

(** The parts of the state [MapTaskDone] does not touch while it adds file
    names. *)
Definition same_maps (c c' : Coordinator) : Prop :=
  MapTasks c' = MapTasks c ∧ MapTaskStatus c' = MapTaskStatus c ∧
  MTaskProcessingTxn c' = MTaskProcessingTxn c ∧ IdleMapTask c' = IdleMapTask c ∧
  MapTasksCompletedCnt c' = MapTasksCompletedCnt c ∧ NextTxnID c' = NextTxnID c ∧
  RTaskProcessingTxn c' = RTaskProcessingTxn c.

Lemma addFilename_spec c i r :
  coord_ok c → 0 ≤ i → 0 ≤ r < 2 ^ 63 →
  ∃ c', addFilename c (iFileName i r) = Ret (Some c') ∧ coord_ok c' ∧ same_maps c c' ∧
    names_of c' r = names_of c r ++ [iFileName i r] ∧ (∀ r', r' ≠ r → names_of c' r' = names_of c r') ∧
    (∀ r', ReduceTaskStatus c' !! r' = Some COMPLETED ↔ ReduceTaskStatus c !! r' = Some COMPLETED).
Proof.
  intros Hc Hi Hr. unfold addFilename. rewrite Split_iFileName by lia.
  rewrite (go_index_lookup _ 2 (FormatInt r)) by done. rewrite bind_Ret, Atoi_FormatInt by lia.
  destruct Hc as [Hts Hm Hrp Hrt]. eexists. split; [reflexivity|].
  destruct (ReduceTasks c !! r) as [t|] eqn:Ht; simpl.
  - rewrite Ht. simpl. destruct (Hrt _ _ Ht) as [Heq Hne]. split_and!; try done.
    + split; simpl; [done|done| |].
      * rewrite dom_insert_L. apply elem_of_dom_2 in Ht.
        replace ({[r]} ∪ dom (ReduceTasks c)) with (dom (ReduceTasks c)) by set_solver. done.
      * intros r' t'. unfold names_of; simpl. destruct (decide (r' = r)) as [->|Hn].
        -- rewrite lookup_insert_eq. intros [= <-]. simpl. rewrite Heq. split; [done|]. by destruct (Filenames _).
        -- rewrite lookup_insert_ne by done. apply Hrt.
    + unfold names_of. simpl. by rewrite lookup_insert_eq, Ht.
    + intros r' Hn. unfold names_of. simpl. by rewrite lookup_insert_ne.
  - rewrite lookup_insert_eq. simpl. rewrite insert_insert_eq.
    assert (r ∉ dom (ReduceTasks c)) as Hnot by (by apply not_elem_of_dom). split_and!; try done.
    + split; simpl; [done|done| |].
      * rewrite dom_insert_L. by apply pool_new.
      * intros r' t'. unfold names_of; simpl. destruct (decide (r' = r)) as [->|Hn].
        -- rewrite lookup_insert_eq. by intros [= <-].
        -- rewrite lookup_insert_ne by done. apply Hrt.
    + unfold names_of. simpl. by rewrite lookup_insert_eq, Ht.
    + intros r' Hn. unfold names_of. simpl. by rewrite lookup_insert_ne.
    + intros r'. destruct (decide (r' = r)) as [->|Hn]; [|by rewrite lookup_insert_ne].
      rewrite lookup_insert_eq. rewrite <-(po_ids _ _ _ _ _ _ Hrp) in Hnot. apply not_elem_of_dom in Hnot.
      rewrite Hnot. done.
Qed.

Lemma addFilenames_spec c i rs :
  coord_ok c → 0 ≤ i → NoDup rs → (∀ r, r ∈ rs → 0 ≤ r < 2 ^ 63) →
  ∃ c', addFilenames c (iFileName i <$> rs) = Ret (c', true) ∧ coord_ok c' ∧ same_maps c c' ∧
    (∀ r, names_of c' r = names_of c r ++ if decide (r ∈ rs) then [iFileName i r] else []) ∧
    (∀ r, ReduceTaskStatus c' !! r = Some COMPLETED ↔ ReduceTaskStatus c !! r = Some COMPLETED).
Proof.
  intros Hc Hi Hnd. revert c Hc. induction Hnd as [|r rs Hr Hnd IH]; intros c Hc Hrs.
  { exists c. split_and!; try done. intros r. by rewrite app_nil_r. }
  rewrite fmap_cons. cbn [addFilenames].
  destruct (addFilename_spec c i r Hc Hi) as (c1 & -> & Hc1 & Hs1 & Hn1 & Ho1 & Hst1); [apply Hrs; by left|].
  rewrite bind_Ret. destruct (IH c1 Hc1) as (c' & -> & Hc' & Hs' & Hn' & Hst').
  { intros r' ?. apply Hrs. by right. }
  exists c'. split_and!; [done|done| | |].
  - destruct Hs1 as (?&?&?&?&?&?&?), Hs' as (?&?&?&?&?&?&?). unfold same_maps. split_and!; congruence.
  - intros r'. rewrite Hn'. destruct (decide (r' = r)) as [->|Hne].
    + rewrite Hn1, decide_False, decide_True, app_nil_r by (done || by left). done.
    + rewrite Ho1 by done. f_equal.
      destruct (decide (r' ∈ rs)), (decide (r' ∈ r :: rs)) as [Hin|Hin]; try done.
      * destruct Hin. by right.
      * by apply elem_of_cons in Hin as [|].
  - intros r'. by rewrite Hst', Hst1.
Qed.

(** [MapTaskDone]: a report of another transaction changes nothing; the
    report of the current one completes the task. *)
Lemma MapTaskDone_spec c i txn rs :
  coord_ok c → NoDup rs → (∀ r, r ∈ rs → 0 ≤ r < 2 ^ 63) →
  MapTaskDone c (mkReply i txn (iFileName i <$> rs)) = Ret (c, false) ∨
  ∃ t c', MTaskProcessingTxn c !! i = Some t ∧ txnID t = txn ∧ 0 ≤ i < zlen files ∧
    MapTaskDone c (mkReply i txn (iFileName i <$> rs)) = Ret (c', true) ∧ coord_ok c' ∧
    NextTxnID c' = NextTxnID c ∧
    MapTaskStatus c' = <[i := COMPLETED]> (MapTaskStatus c) ∧
    MTaskProcessingTxn c' = delete i (MTaskProcessingTxn c) ∧ RTaskProcessingTxn c' = RTaskProcessingTxn c ∧
    (∀ r, names_of c' r = names_of c r ++ if decide (r ∈ rs) then [iFileName i r] else []) ∧
    (∀ r, ReduceTaskStatus c' !! r = Some COMPLETED ↔ ReduceTaskStatus c !! r = Some COMPLETED).
Proof.
  intros Hc Hnd Hrs. unfold MapTaskDone, currentTxn. simpl.
  destruct (MTaskProcessingTxn c !! i) as [t|] eqn:Ht; [|by left].
  destruct (Z.eqb_spec (txnID t) txn) as [Heq|]; [|by left]. right. simpl.
  assert (0 ≤ i < zlen files) as Hi.
  { apply elem_of_map_ids. rewrite <-(po_ids _ _ _ _ _ _ (co_map _ Hc)). apply elem_of_dom.
    exists INPROGRESS. apply (po_busy _ _ _ _ _ _ (co_map _ Hc)). by eexists. }
  destruct (addFilenames_spec c i rs Hc) as (c1 & -> & Hc1 & (E1 & E2 & E3 & E4 & E5 & E6 & E7) & Hn & Hst);
    [lia|done|done|].
  rewrite bind_Ret. simpl. eexists t, _. do 3 (split; [done|]). split; [reflexivity|]. simpl.
  split_and!; try done; try congruence.
  destruct Hc1 as [Hts Hm Hrp Hrt]. split; simpl; [done| |done|done].
  apply pool_done; [done|]. rewrite E3. by eexists.
Qed.

Lemma ReduceTaskDone_spec c r txn :
  coord_ok c →
  ReduceTaskDone c (mkReply r txn []) = Ret (c, false) ∨
  ∃ t c', RTaskProcessingTxn c !! r = Some t ∧ txnID t = txn ∧
    ReduceTaskDone c (mkReply r txn []) = Ret (c', true) ∧ coord_ok c' ∧
    c' = set_reduce (ReduceTasksCompletedCnt c + 1) (ReduceTasks c) (<[r := COMPLETED]> (ReduceTaskStatus c))
           (delete r (RTaskProcessingTxn c)) (IdleReduceTask c) c.
Proof.
  intros Hc. unfold ReduceTaskDone, currentTxn. simpl.
  destruct (RTaskProcessingTxn c !! r) as [t|] eqn:Ht; [|by left].
  destruct (Z.eqb_spec (txnID t) txn) as [Heq|]; [|by left]. right. simpl.
  eexists t, _. do 2 (split; [done|]). split; [reflexivity|]. split; [|done].
  destruct Hc as [Hts Hm Hrp Hrt]. split; simpl; [done|done| |done].
  apply pool_done; [done|]. by eexists.
Qed.

Lemma InspectMapTasks_spec c indexs :
  coord_ok c → NoDup indexs → (∀ i, i ∈ indexs → is_Some (MTaskProcessingTxn c !! i)) →
  let c' := InspectMapTasks c indexs in
  coord_ok c' ∧ NextTxnID c' = NextTxnID c ∧ ReduceTasks c' = ReduceTasks c ∧
  ReduceTaskStatus c' = ReduceTaskStatus c ∧ RTaskProcessingTxn c' = RTaskProcessingTxn c ∧
  IdleMapTask c' = IdleMapTask c ++ indexs ∧
  (∀ i, i ∈ indexs → MTaskProcessingTxn c' !! i = None) ∧
  (∀ i, i ∉ indexs → MTaskProcessingTxn c' !! i = MTaskProcessingTxn c !! i) ∧
  (∀ i, MapTaskStatus c' !! i = Some COMPLETED ↔ MapTaskStatus c !! i = Some COMPLETED).
Proof.
  intros Hc Hnd Hin. unfold InspectMapTasks.
  destruct (requeue _ _ _ _) as [[st txns] idle] eqn:Hq.
  destruct (pool_requeue _ _ _ _ _ _ _ _ _ _ (co_map _ Hc) Hnd Hin Hq) as (Hp & -> & ? & ? & ?).
  destruct Hc as [Hts Hm Hrp Hrt]. by split_and!; simpl.
Qed.

Lemma InspectReduceTasks_spec c indexs :
  coord_ok c → NoDup indexs → (∀ i, i ∈ indexs → is_Some (RTaskProcessingTxn c !! i)) →
  let c' := InspectReduceTasks c indexs in
  coord_ok c' ∧ NextTxnID c' = NextTxnID c ∧ ReduceTasks c' = ReduceTasks c ∧
  MapTaskStatus c' = MapTaskStatus c ∧ MTaskProcessingTxn c' = MTaskProcessingTxn c ∧
  IdleReduceTask c' = IdleReduceTask c ++ indexs ∧
  (∀ i, i ∈ indexs → RTaskProcessingTxn c' !! i = None) ∧
  (∀ i, i ∉ indexs → RTaskProcessingTxn c' !! i = RTaskProcessingTxn c !! i) ∧
  (∀ i, ReduceTaskStatus c' !! i = Some COMPLETED ↔ ReduceTaskStatus c !! i = Some COMPLETED).
Proof.
  intros Hc Hnd Hin. unfold InspectReduceTasks.
  destruct (requeue _ _ _ _) as [[st txns] idle] eqn:Hq.
  destruct (pool_requeue _ _ _ _ _ _ _ _ _ _ (co_reduce _ Hc) Hnd Hin Hq) as (Hp & -> & ? & ? & ?).
  destruct Hc as [Hts Hm Hrp Hrt]. by split_and!; simpl.
Qed.
End coordinator.

(** ** The initial coordinator *)

Lemma map_ids_snoc files f : map_ids (files ++ [f]) = {[zlen files]} ∪ map_ids files.
Proof.
  apply set_eq. intros i. rewrite elem_of_union, elem_of_singleton, !elem_of_map_ids, length_app. simpl. lia.
Qed.

Lemma addFiles_ok files1 files2 nReduce c :
  coord_ok files1 nReduce c → coord_ok (files1 ++ files2) nReduce (addFiles files2 nReduce (zlen files1) c).
Proof.
  revert files1 c. induction files2 as [|f files2 IH]; intros files1 c Hc; simpl; [by rewrite app_nil_r|].
  replace (zlen files1 + 1) with (zlen (files1 ++ [f])) by (rewrite length_app; simpl; lia).
  rewrite (cons_middle f), app_assoc. apply IH. destruct Hc as [Hts Hm Hr Hrt]. split; simpl; [|  |done|done].
  - rewrite Hts, imap_app. simpl. by rewrite Nat.add_0_r.
  - rewrite map_ids_snoc. apply pool_new; [done|]. rewrite elem_of_map_ids. lia.
Qed.

Lemma addFiles_fields files nReduce i c :
  let c' := addFiles files nReduce i c in
  ReduceTasks c' = ReduceTasks c ∧ ReduceTaskStatus c' = ReduceTaskStatus c ∧
  (∀ j, MapTaskStatus c' !! j = Some COMPLETED → MapTaskStatus c !! j = Some COMPLETED).
Proof.
  revert i c. induction files as [|f files IH]; intros i c; simpl; [done|].
  destruct (IH (i + 1) (mkCoordinator (c_NReduce c) (MapTasksCompletedCnt c) (ReduceTasksCompletedCnt c)
    (NextTxnID c) (MapTasks c ++ [mkTask true [f] i nReduce 0]) (ReduceTasks c) (<[i := IDLE]> (MapTaskStatus c))
    (ReduceTaskStatus c) (MTaskProcessingTxn c) (RTaskProcessingTxn c) (IdleMapTask c ++ [i])
    (IdleReduceTask c))) as (? & ? & Hc).
  split_and!; [done|done|]. intros j Hj%Hc. simpl in Hj.
  apply lookup_insert_Some in Hj as [[_ ?]|[_ ?]]; done.
Qed.

Lemma MakeCoordinator_ok files nReduce :
  coord_ok files nReduce (MakeCoordinator files nReduce) ∧
  ReduceTasks (MakeCoordinator files nReduce) = ∅ ∧ ReduceTaskStatus (MakeCoordinator files nReduce) = ∅ ∧
  (∀ i, MapTaskStatus (MakeCoordinator files nReduce) !! i ≠ Some COMPLETED).
Proof.
  unfold MakeCoordinator. split.
  - apply (addFiles_ok [] files). split; simpl; [done|exact (pool_empty 0)| |done].
    rewrite dom_empty_L. exact (pool_empty 0).
  - destruct (addFiles_fields files nReduce 0 (mkCoordinator nReduce 0 0 0 [] ∅ ∅ ∅ ∅ ∅ [] [])) as (-> & -> & Hc).
    split_and!; [done|done|]. intros i Hi%Hc. cbn in Hi. done.
Qed.
