(* ===== verification/MapReduceWorker.v ===== *)
(** * MapReduce: the turns of a worker

    What a worker does on the disk, one turn at a time (MapReduce.v):

    - the pairs written to a file as JSON are read back, up to bytes that are
      not UTF-8 ([decodeFile_encs]);
    - a turn never fails, leads to a well-formed worker or report, and touches
      only the files of its task ([turn_shape], [turn_effect]);
    - if nobody else writes the files of its task, the files hold what it has
      written so far ([turn_content]);
    - on its own a worker comes to its report ([worker_finishes]). *)

From Stdlib Require Import Ascii String.
From stdpp Require Import prelude gmap strings list sorting.
From S2P Require Import Prelude Strconv GoStrings Json MapReduce MapReduceCoord.
Local Open Scope Z_scope.

(** ** Grouping a sorted list *)

Definition key_le (x y : KeyValue) : Prop := String.le (Key x) (Key y).
#[export] Instance key_le_dec x y : Decision (key_le x y).
Proof. unfold key_le. apply _. Defined.
#[export] Instance key_le_trans : Transitive key_le.
Proof. intros x y z. unfold key_le. by intros ->. Qed.
#[export] Instance key_le_total : Total key_le.
Proof. intros x y. unfold key_le. apply String.le_total. Qed.

(** The values of a key, in order. *)
Definition values_of (k : string) (kvs : list KeyValue) : list string :=
  Value <$> filter (λ kv, Key kv = k) kvs.

Lemma values_of_cons k kv kvs :
  values_of k (kv :: kvs) = if decide (Key kv = k) then Value kv :: values_of k kvs else values_of k kvs.
Proof. unfold values_of. rewrite filter_cons. by case_decide. Qed.

Lemma values_of_none k kvs : k ∉ Key <$> kvs → values_of k kvs = [].
Proof.
  induction kvs as [|kv kvs IH]; [done|]. rewrite fmap_cons. intros [Hk ?]%not_elem_of_cons.
  rewrite values_of_cons, decide_False by done. by apply IH.
Qed.

Lemma values_of_Permutation k kvs kvs' : kvs ≡ₚ kvs' → values_of k kvs ≡ₚ values_of k kvs'.
Proof. intros Hp. unfold values_of. by rewrite Hp. Qed.

(** In a sorted list a key that has been left does not come back. *)
Lemma groupFrom_spec k vs kvs :
  StronglySorted key_le kvs → (∀ kv, kv ∈ kvs → String.le k (Key kv)) →
  NoDup (groupFrom k vs kvs).*1 ∧
  (∀ k', k' ∈ (groupFrom k vs kvs).*1 ↔ k' = k ∨ k' ∈ Key <$> kvs) ∧
  (∀ k' vs', (k', vs') ∈ groupFrom k vs kvs →
     vs' = (if decide (k' = k) then vs else []) ++ values_of k' kvs).
Proof.
  revert k vs. induction kvs as [|kv kvs IH]; intros k vs Hs Hk; simpl.
  { split_and!.
    - apply NoDup_singleton.
    - intros k'. rewrite list_elem_of_singleton, elem_of_nil. tauto.
    - intros k' vs' [= -> ->]%list_elem_of_singleton. by rewrite decide_True, app_nil_r. }
  apply StronglySorted_cons in Hs as [Hle Hs]. rewrite Forall_forall in Hle. setoid_rewrite elem_of_cons.
  destruct (decide (Key kv = k)) as [Heq|Hne].
  - destruct (IH k (vs ++ [Value kv]) Hs) as (? & Hin & Hval).
    { intros kv' ?. apply Hk. by right. }
    split_and!; [done| |].
    + intros k'. rewrite Hin, Heq. tauto.
    + intros k' vs' Hv%Hval. rewrite Hv, values_of_cons, Heq.
      destruct (decide (k' = k)) as [->|Hn]; [|by rewrite decide_False].
      rewrite decide_True by done. by rewrite <-app_assoc.
  - destruct (IH (Key kv) [Value kv] Hs) as (Hnd & Hin & Hval); [done|].
    assert (k ∉ Key kv :: (Key <$> kvs)) as Hout.
    { intros [Hkk|(kv' & Hkk & Hkv')%list_elem_of_fmap]%elem_of_cons; [by symmetry in Hkk|].
      apply Hne. apply (anti_symm String.le); [rewrite Hkk; by apply Hle|]. apply Hk. by left. }
    split_and!.
    + simpl. apply NoDup_cons. split; [|done]. rewrite Hin. by rewrite <-elem_of_cons.
    + intros k'. simpl. rewrite elem_of_cons, Hin. tauto.
    + intros k' vs' [[= -> ->]|Hv]%elem_of_cons.
      * rewrite decide_True by done. rewrite values_of_cons, decide_False by done.
        rewrite values_of_none; [by rewrite app_nil_r|]. by intros ?; apply Hout; right.
      * rewrite (Hval _ _ Hv), values_of_cons. assert (k' ≠ k) as Hn.
        { intros ->. apply Hout. rewrite elem_of_cons, <-Hin. apply list_elem_of_fmap. by exists (k, vs'). }
        rewrite (decide_False (P := k' = k)) by done.
        destruct (decide (k' = Key kv)) as [->|?]; [by rewrite decide_True|by rewrite decide_False].
Qed.

Lemma groups_spec kvs :
  StronglySorted key_le kvs →
  NoDup (groups kvs).*1 ∧ (∀ k, k ∈ (groups kvs).*1 ↔ k ∈ Key <$> kvs) ∧
  (∀ k vs, (k, vs) ∈ groups kvs → vs = values_of k kvs).
Proof.
  intros Hs. destruct kvs as [|kv kvs]; simpl.
  { split_and!; [constructor|done|]. by intros k vs ?%not_elem_of_nil. }
  apply StronglySorted_cons in Hs as [Hle Hs]. rewrite Forall_forall in Hle.
  destruct (groupFrom_spec (Key kv) [Value kv] kvs Hs Hle) as (? & Hin & Hv).
  split_and!; [done| |].
  - intros k. by rewrite Hin, elem_of_cons.
  - intros k vs Hk. rewrite (Hv _ _ Hk), values_of_cons.
    destruct (decide (k = Key kv)) as [->|?]; [by rewrite decide_True|by rewrite decide_False].
Qed.

(** ** Pairs as JSON *)

Definition clean_kv (kv : KeyValue) : KeyValue := mkKeyValue (clean (Key kv)) (clean (Value kv)).

(** The pair is text. *)
Definition text_kv (kv : KeyValue) : Prop := valid_utf8 (Key kv) ∧ valid_utf8 (Value kv).

Lemma clean_text_kv kv : text_kv kv → clean_kv kv = kv.
Proof. destruct kv as [k v]. intros [Hk Hv]. unfold clean_kv. simpl in *. by rewrite Hk, Hv. Qed.

Lemma clean_text_kvs kvs : Forall text_kv kvs → clean_kv <$> kvs = kvs.
Proof. induction 1 as [|kv kvs Hkv _ IH]; [done|]. by rewrite fmap_cons, clean_text_kv, IH. Qed.

Definition encs (kvs : list KeyValue) : bytes := concat (encodeKV <$> kvs).

Lemma encs_cons kv kvs : encs (kv :: kvs) = encodeKV kv ++ encs kvs.
Proof. done. Qed.

Lemma encs_app kvs kvs' : encs (kvs ++ kvs') = encs kvs ++ encs kvs'.
Proof. unfold encs. by rewrite fmap_app, concat_app. Qed.

Lemma strip_lit lit s : strip lit (lit ++ s) = Some s.
Proof. unfold strip. by rewrite take_app_length, drop_app_length, decide_True. Qed.

Lemma skipSpace_newline s : skipSpace (byte 10 :: s) = skipSpace s.
Proof. done. Qed.

Lemma skipSpace_keyField s : skipSpace (keyField ++ s) = keyField ++ s.
Proof. done. Qed.

Lemma decodeKV_encode kv rest :
  decodeKV (encodeKV kv ++ rest) = Some (clean_kv kv, byte 10 :: rest).
Proof.
  unfold decodeKV, encodeKV. rewrite <-!app_assoc, skipSpace_keyField, strip_lit, decodeString_encode.
  by rewrite strip_lit, decodeString_encode.
Qed.

Lemma decodeKV_newline s : decodeKV (byte 10 :: s) = decodeKV s.
Proof. done. Qed.

Lemma encodeKV_length kv : (1 < length (encodeKV kv))%nat.
Proof. unfold encodeKV. rewrite !length_app. simpl. lia. Qed.

(** What was encoded to a file comes back. *)
Lemma decodeFile_encs kvs : decodeFile (encs kvs) = clean_kv <$> kvs.
Proof.
  unfold decodeFile.
  assert (∀ fuel nl, nl = [] ∨ nl = [byte 10] → (length kvs ≤ fuel)%nat →
    decodeLoop fuel (nl ++ encs kvs) = clean_kv <$> kvs) as Hgen.
  { induction kvs as [|kv kvs IH]; intros fuel nl Hnl Hf.
    - destruct fuel; [done|]. by destruct Hnl as [->| ->].
    - destruct fuel as [|fuel]; [simpl in Hf; lia|]. rewrite encs_cons. cbn [decodeLoop].
      assert (decodeKV (nl ++ encodeKV kv ++ encs kvs) = Some (clean_kv kv, byte 10 :: encs kvs)) as ->.
      { destruct Hnl as [->| ->]; [apply decodeKV_encode|].
        exact (eq_trans (decodeKV_newline _) (decodeKV_encode kv (encs kvs))). }
      rewrite fmap_cons. f_equal. apply (IH fuel [byte 10]); [by right|simpl in Hf; lia]. }
  apply (Hgen _ []); [by left|]. clear Hgen. induction kvs as [|kv kvs IH]; [done|].
  rewrite encs_cons, length_app. simpl. pose proof (encodeKV_length kv). lia.
Qed.

(** ** The job *)
Section job.
Context (mapf : string → string → list KeyValue) (reducef : string → list string → string).
Context (sortf : list KeyValue → list KeyValue).
(** [sort.Sort] permutes its argument into sorted order. *)
Context (sortf_perm : ∀ l, sortf l ≡ₚ l) (sortf_sorted : ∀ l, Sorted key_le (sortf l)).
Context (files : list string) (nReduce : Z) (texts : gmap string string).
Context (Hn : 0 < nReduce < 2 ^ 63).
Context (Hfiles : ∀ f, f ∈ files → is_Some (texts !! f)).

(** The pairs of map task [i], the bucket of a pair, the buckets of task
    [i], and all pairs. *)
Definition kvs_of (i : Z) : list KeyValue :=
  match files !! Z.to_nat i with Some f => mapf f (default "" (texts !! f)) | None => [] end.
Definition bucket (kv : KeyValue) : Z := Z.rem (ihash (Key kv)) nReduce.
Definition in_bucket (r : Z) (kvs : list KeyValue) : list KeyValue := filter (λ kv, bucket kv = r) kvs.
Definition all_kvs : list KeyValue := concat (kvs_of <$> seqZ 0 (zlen files)).

Lemma ihash_nonneg k : 0 ≤ ihash k.
Proof. unfold ihash. apply Z.land_nonneg. by right. Qed.

Lemma bucket_range kv : 0 ≤ bucket kv < nReduce.
Proof.
  unfold bucket. pose proof (ihash_nonneg (Key kv)). rewrite Z.rem_mod_nonneg by lia.
  apply Z.mod_pos_bound. lia.
Qed.

Lemma in_bucket_cons r kv kvs :
  in_bucket r (kv :: kvs) = if decide (bucket kv = r) then kv :: in_bucket r kvs else in_bucket r kvs.
Proof. unfold in_bucket. by rewrite filter_cons. Qed.

Lemma in_bucket_app r kvs kvs' : in_bucket r (kvs ++ kvs') = in_bucket r kvs ++ in_bucket r kvs'.
Proof. apply filter_app. Qed.

Lemma in_bucket_none r kvs : r ∉ bucket <$> kvs → in_bucket r kvs = [].
Proof.
  induction kvs as [|kv kvs IH]; [done|]. rewrite fmap_cons. intros [? ?]%not_elem_of_cons.
  rewrite in_bucket_cons, decide_False by done. by apply IH.
Qed.

(** *** Names *)

Lemma oFileName_inj r r' : oFileName r = oFileName r' → r = r'.
Proof.
  unfold oFileName. intros Heq%(f_equal chars). rewrite !chars_app in Heq.
  apply (inj (app _)) in Heq. by apply (inj chars), (inj FormatInt) in Heq.
Qed.

Lemma bucket_nonneg r (kvs : list KeyValue) : r ∈ bucket <$> kvs → 0 ≤ r.
Proof. intros (kv & -> & _)%list_elem_of_fmap. apply bucket_range. Qed.

(** *** The files a map task has open *)

Definition open_files (i : Z) (rs : list Z) (done : list KeyValue) : list (string * nat) :=
  (λ r, (iFileName i r, length (encs (in_bucket r done)))) <$> rs.

Lemma open_files_names i rs done : (open_files i rs done).*1 = iFileName i <$> rs.
Proof. unfold open_files. by rewrite <-list_fmap_compose. Qed.

Lemma elem_of_open_files i rs done r : 0 ≤ i → 0 ≤ r → Forall (λ r, 0 ≤ r) rs →
  iFileName i r ∈ (open_files i rs done).*1 ↔ r ∈ rs.
Proof.
  intros Hi Hr Hrs. rewrite open_files_names, list_elem_of_fmap. rewrite Forall_forall in Hrs. split.
  - intros (r' & Heq & Hin). apply iFileName_inj in Heq as [_ ->]; auto.
  - intros. by exists r.
Qed.

Lemma offset_open i rs done r : 0 ≤ i → 0 ≤ r → Forall (λ r, 0 ≤ r) rs →
  offset (iFileName i r) (open_files i rs done) =
    if decide (r ∈ rs) then Some (length (encs (in_bucket r done))) else None.
Proof.
  intros Hi Hr. induction rs as [|r' rs IH]; intros Hrs; [done|]. apply Forall_cons in Hrs as [Hr' Hrs].
  unfold open_files. rewrite fmap_cons. fold (open_files i rs done). cbn [offset].
  destruct (decide (r' = r)) as [->|Hne].
  - by rewrite decide_True, decide_True by (done || by left).
  - rewrite decide_False by (by intros [_ ?]%iFileName_inj). rewrite IH by done.
    destruct (decide (r ∈ rs)).
    + by rewrite decide_True by by right.
    + rewrite decide_False; [done|]. intros [->|]%elem_of_cons; done.
Qed.

Lemma open_files_other i rs done kv :
  bucket kv ∉ rs → open_files i rs (done ++ [kv]) = open_files i rs done.
Proof.
  intros Hb. apply list_fmap_ext. intros j r Hr. rewrite in_bucket_app, in_bucket_cons.
  rewrite decide_False by (intros <-; by apply list_elem_of_lookup_2 in Hr). by rewrite app_nil_r.
Qed.

Lemma advance_open i rs done kv : 0 ≤ i → NoDup rs → Forall (λ r, 0 ≤ r) rs →
  advance (iFileName i (bucket kv)) (length (encodeKV kv)) (open_files i rs done) =
    open_files i rs (done ++ [kv]).
Proof.
  intros Hi Hnd. induction Hnd as [|r rs Hr Hnd IH]; intros Hrs; [done|]. apply Forall_cons in Hrs as [Hr0 Hrs].
  unfold open_files. rewrite !fmap_cons. fold (open_files i rs done) (open_files i rs (done ++ [kv])).
  cbn [advance]. pose proof (bucket_range kv). destruct (decide (r = bucket kv)) as [->|Hne].
  - rewrite decide_True, open_files_other by done. f_equal. f_equal.
    rewrite in_bucket_app, in_bucket_cons, decide_True by done.
    rewrite encs_app, length_app. unfold encs at 3. simpl. by rewrite app_nil_r.
  - rewrite decide_False by (by intros [_ ?]%iFileName_inj; [|lia..]). rewrite IH by done. f_equal.
    by rewrite in_bucket_app, in_bucket_cons, decide_False, app_nil_r by done.
Qed.

(** A new file is empty. *)
Lemma open_files_new i rs (done : list KeyValue) r :
  r ∉ bucket <$> done → open_files i (rs ++ [r]) done = open_files i rs done ++ [(iFileName i r, 0%nat)].
Proof. intros Hr. unfold open_files. rewrite fmap_app. simpl. by rewrite in_bucket_none. Qed.

Lemma WriteAt_end name off bs file (fs : gmap string bytes) :
  fs !! name = Some file → off = length file → WriteAt name off bs fs = <[name := file ++ bs]> fs.
Proof.
  intros Hf ->. unfold WriteAt. rewrite Hf. simpl. rewrite firstn_all, Nat.sub_diag. simpl.
  by rewrite drop_ge, app_nil_r by lia.
Qed.

(** *** A turn

    A worker is well formed: it has a task of the coordinator, a map task has
    written a part of its pairs to the files it has open, and a reduce task is
    somewhere in the list of the files of its bucket. *)

Definition map_task (i : Z) (f : string) (txn : Z) : Task := mkTask true [f] i nReduce txn.
Definition reduce_task (c : Coordinator) (r txn : Z) : Task := mkTask false (names_of c r) r 0 txn.

(** There is a task for bucket [r], and all its files are known. *)
Definition reduce_ok (c : Coordinator) (r : Z) : Prop := maps_done files c ∧ is_Some (ReduceTasks c !! r).

Definition map_ok (i : Z) (f : string) : Prop := 0 ≤ i < zlen files ∧ files !! Z.to_nat i = Some f.

Definition open_name (file : option (string * bytes)) : list string :=
  match file with Some (name, _) => [name] | None => [] end.

Inductive worker_shape (c : Coordinator) (d : Disk) : Worker → Prop :=
  | ws_map_task i f txn : map_ok i f → worker_shape c d (WTask (map_task i f txn))
  | ws_reduce_task r txn : reduce_ok c r → worker_shape c d (WTask (reduce_task c r txn))
  | ws_map i f txn done kva rs :
      map_ok i f → kvs_of i = done ++ kva → NoDup rs →
      (∀ r, r ∈ rs → r ∈ bucket <$> kvs_of i ∧ is_Some (intermediate d !! iFileName i r)) →
      (∀ r, r ∈ bucket <$> done → r ∈ rs) →
      worker_shape c d (WMap (map_task i f txn) kva (open_files i rs done))
  | ws_read r txn before file names kva :
      reduce_ok c r → names_of c r = before ++ open_name file ++ names →
      worker_shape c d (WRead (reduce_task c r txn) names file kva)
  | ws_write r txn gs off : reduce_ok c r → worker_shape c d (WWrite (reduce_task c r txn) gs off).

(** The report of a map task has the files of its buckets; they exist. *)
Inductive report_shape (d : Disk) : Report → Prop :=
  | rs_map i txn rs :
      0 ≤ i < zlen files → NoDup rs → (∀ r, r ∈ rs ↔ r ∈ bucket <$> kvs_of i) →
      (∀ r, r ∈ rs → is_Some (intermediate d !! iFileName i r)) →
      report_shape d (true, mkReply i txn (iFileName i <$> rs))
  | rs_reduce r txn : report_shape d (false, mkReply r txn []).

(** The worker or the report after a turn is about the same task. *)
Definition same_task (t : Task) (res : Worker + Report) : Prop :=
  match res with
  | inl w => w_task w = t
  | inr p => p.1 = IsMapTask t ∧ r_Index p.2 = Index t ∧ r_TxnID p.2 = TxnID t
  end.

Definition res_shape (c : Coordinator) (d : Disk) (res : Worker + Report) : Prop :=
  match res with inl w => worker_shape c d w | inr p => report_shape d p end.

Abbreviation turn := (workerTurn mapf reducef sortf).

Lemma some_insert (fs : gmap string bytes) nm nm' bs : is_Some (fs !! nm) → is_Some (<[nm' := bs]> fs !! nm).
Proof.
  intros. destruct (decide (nm = nm')) as [->|]; [rewrite lookup_insert_eq; by eexists|by rewrite lookup_insert_ne].
Qed.

Lemma some_insert_inv (fs : gmap string bytes) nm nm' bs :
  is_Some (<[nm' := bs]> fs !! nm) → nm = nm' ∨ is_Some (fs !! nm).
Proof. destruct (decide (nm = nm')) as [->|]; [by left|]. rewrite lookup_insert_ne by done. by right. Qed.

Lemma kvs_of_ok i f : map_ok i f → ∃ text, texts !! f = Some text ∧ kvs_of i = mapf f text.
Proof.
  intros [_ Hf]. destruct (Hfiles f) as [text Ht]; [by eapply list_elem_of_lookup_2|]. exists text.
  split; [done|]. unfold kvs_of. by rewrite Hf, Ht.
Qed.

Lemma rs_nonneg i (rs : list Z) (P : Z → Prop) :
  (∀ r, r ∈ rs → r ∈ bucket <$> kvs_of i ∧ P r) → Forall (λ r, 0 ≤ r) rs.
Proof. intros Hrs. apply Forall_forall. intros r [Hr _]%Hrs. by apply bucket_nonneg in Hr. Qed.

(** A turn of a map task: it comes to its report, or creates the file of the
    next pair, or writes the pair. *)
Lemma ProcessMapTask_cases d i f txn done kva rs :
  0 ≤ i → kvs_of i = done ++ kva → NoDup rs → Forall (λ r, 0 ≤ r) rs → (∀ r, r ∈ bucket <$> done → r ∈ rs) →
  (kva = [] ∧ ProcessMapTask d (map_task i f txn) kva (open_files i rs done) =
     Ret (d, inr (true, mkReply i txn (iFileName i <$> rs)))) ∨
  (∃ kv kva', kva = kv :: kva' ∧ bucket kv ∉ rs ∧
     ProcessMapTask d (map_task i f txn) kva (open_files i rs done) =
       Ret (set_intermediate (Create (iFileName i (bucket kv)) (intermediate d)) d,
            inl (WMap (map_task i f txn) kva (open_files i (rs ++ [bucket kv]) done)))) ∨
  (∃ kv kva', kva = kv :: kva' ∧ bucket kv ∈ rs ∧
     ProcessMapTask d (map_task i f txn) kva (open_files i rs done) =
       Ret (set_intermediate (WriteAt (iFileName i (bucket kv)) (length (encs (in_bucket (bucket kv) done)))
              (encodeKV kv) (intermediate d)) d,
            inl (WMap (map_task i f txn) kva' (open_files i rs (done ++ [kv]))))).
Proof.
  intros Hi Hk Hnd Hrs Hdone. destruct kva as [|kv kva'].
  { left. split; [done|]. unfold ProcessMapTask. by rewrite open_files_names. }
  right. pose proof (bucket_range kv) as Hb. unfold ProcessMapTask. cbn [NReduce Index map_task].
  rewrite (proj2 (Z.eqb_neq nReduce 0)) by lia. fold (bucket kv).
  rewrite offset_open by (done || lia). destruct (decide (bucket kv ∈ rs)) as [Hin|Hin].
  - right. exists kv, kva'. by rewrite advance_open.
  - left. exists kv, kva'. rewrite open_files_new; [done|]. by intros ?%Hdone.
Qed.

Lemma turn_shape c d w chunk :
  worker_shape c d w → inputs d = texts → (∀ r nm, nm ∈ names_of c r → is_Some (intermediate d !! nm)) →
  ∃ d' res, turn chunk d w = Ret (d', res) ∧ inputs d' = texts ∧
    (∀ nm, is_Some (intermediate d !! nm) → is_Some (intermediate d' !! nm)) ∧
    (∀ nm, is_Some (outputs d' !! nm) → is_Some (outputs d !! nm) ∨ ∃ r, nm = oFileName r ∧ reduce_ok c r) ∧
    res_shape c d' res ∧ same_task (w_task w) res.
Proof.
  intros Hw Hin Hnm. destruct Hw as [i f txn Hok|r txn Hok|i f txn done kva rs Hok Hk Hnd Hrs Hdone
    |r txn before file names kva Hok Hn'|r txn gs off Hok].
  - destruct (kvs_of_ok i f Hok) as (text & Ht & Hkv). cbn [workerTurn]. unfold startTask. cbn [IsMapTask Filenames map_task].
    change (go_index [f] 0) with (go_index [f] (Z.of_nat 0)). rewrite (go_index_lookup [f] 0 f), bind_Ret, Hin, Ht, <-Hkv by done.
    eexists _, _. split; [reflexivity|]. split_and!; [done|done|by left| |done].
    apply (ws_map c d i f txn [] (kvs_of i) []); [done|done|constructor| |]; by intros r ?%not_elem_of_nil.
  - eexists _, _. split; [reflexivity|]. split_and!; [done|done|by left| |done]. by apply (ws_read c d r txn []).
  - pose proof (rs_nonneg i rs _ Hrs) as Hpos. destruct Hok as [Hi Hf]. cbn [workerTurn].
    destruct (ProcessMapTask_cases d i f txn done kva rs) as
      [(-> & ->)|[(kv & kva' & -> & Hb & ->)|(kv & kva' & -> & Hb & ->)]]; [lia|done..| | |];
      eexists _, _; (split; [reflexivity|]).
    + rewrite app_nil_r in Hk. split_and!; [done|done|by left| |done]. simpl.
      apply rs_map; [done|done| |by intros r [_ ?]%Hrs]. intros r. split; [by intros [? _]%Hrs|]. rewrite Hk. apply Hdone.
    + split_and!; [done|by intros; apply some_insert|by left| |done]. simpl.
      apply (ws_map c _ i f txn done (kv :: kva')); [done|done|by apply NoDup_snoc| |].
      * intros r [Hr| ->%list_elem_of_singleton]%elem_of_app.
        -- apply Hrs in Hr as [? ?]. split; [done|]. by apply some_insert.
        -- split; [|simpl; unfold Create; rewrite lookup_insert_eq; by eexists]. rewrite Hk, fmap_app.
           apply elem_of_app. right. by left.
      * intros r ?%Hdone. apply elem_of_app. by left.
    + split_and!; [done|by intros; apply some_insert|by left| |done]. simpl.
      apply (ws_map c _ i f txn (done ++ [kv]) kva'); [done|by rewrite Hk, <-app_assoc|done| |].
      * intros r [? ?]%Hrs. split; [done|]. by apply some_insert.
      * intros r. rewrite fmap_app. intros [?| ->%list_elem_of_singleton]%elem_of_app; [by apply Hdone|done].
  - cbn [workerTurn ProcessReduceTask]. unfold readTurn. destruct file as [[name got]|]; [|destruct names as [|name names]].
    + destruct (take (S chunk) _) as [|b bs]; eexists _, _; (split; [reflexivity|]);
        (split_and!; [done|done|by left| |done]).
      * apply (ws_read c d r txn (before ++ [name])); [done|]. by rewrite Hn', <-app_assoc.
      * by apply (ws_read c d r txn before).
    + eexists _, _. split; [reflexivity|]. split_and!; [done|done| |by apply ws_write|done].
      intros nm [->|?]%some_insert_inv; [right; by exists r|by left].
    + destruct (Hnm r name) as [bs Hbs]; [rewrite Hn'; apply elem_of_app; right; by left|]. rewrite Hbs.
      eexists _, _. split; [reflexivity|]. split_and!; [done|done|by left| |done].
      by apply (ws_read c d r txn before).
  - cbn [workerTurn ProcessReduceTask]. unfold writeTurn. destruct gs as [|g gs]; eexists _, _; (split; [reflexivity|]).
    + split_and!; [done|done|by left|apply rs_reduce|done].
    + split_and!; [done|done| |by apply ws_write|done].
      intros nm [->|?]%some_insert_inv; [right; by exists r|by left].
Qed.

(** *** Whose file it is *)

(** The coordinator still waits for the report of the task. *)
Definition current (c : Coordinator) (t : Task) : bool :=
  currentTxn (if IsMapTask t then MTaskProcessingTxn c else RTaskProcessingTxn c) (Index t) (TxnID t).

(** The next turn creates a file or writes to it. *)
Definition writes (w : Worker) : bool :=
  match w with WMap _ (_ :: _) _ | WRead _ [] None _ | WWrite _ (_ :: _) _ => true | _ => false end.

(** A worker that writes does so before its task times out. *)
Definition on_time (c : Coordinator) (w : Worker) : Prop := writes w = true → current c (w_task w) = true.

Lemma currentTxn_inj txns i txn txn' : currentTxn txns i txn = true → currentTxn txns i txn' = true → txn = txn'.
Proof. unfold currentTxn. destruct (txns !! i); [|done]. rewrite !Z.eqb_eq. congruence. Qed.

Lemma currentTxn_Some txns i txn : currentTxn txns i txn = true → is_Some (txns !! i).
Proof. unfold currentTxn. destruct (txns !! i); [by eexists|done]. Qed.

(** From [d] to [d'] only the files of the current tasks of transaction [txn]
    change. *)
Definition effect (c : Coordinator) (txn : Z) (d d' : Disk) : Prop :=
  (∀ i r, 0 ≤ i → 0 ≤ r → intermediate d' !! iFileName i r = intermediate d !! iFileName i r ∨
     currentTxn (MTaskProcessingTxn c) i txn = true) ∧
  (∀ r, outputs d' !! oFileName r = outputs d !! oFileName r ∨
     currentTxn (RTaskProcessingTxn c) r txn = true).

Lemma effect_refl c txn d : effect c txn d d.
Proof. split; by left. Qed.

Lemma effect_intermediate c i f txn d r bs :
  0 ≤ i → 0 ≤ r → current c (map_task i f txn) = true →
  effect c txn d (set_intermediate (<[iFileName i r := bs]> (intermediate d)) d).
Proof.
  intros Hi Hr Hc. split; [|by left]. intros i' r' Hi' Hr'. simpl.
  destruct (decide (iFileName i' r' = iFileName i r)) as [Heq|Hne]; [right|left; by rewrite lookup_insert_ne].
  by apply iFileName_inj in Heq as [-> _].
Qed.

Lemma effect_outputs c names r txn d bs :
  current c (mkTask false names r 0 txn) = true → effect c txn d (set_outputs (<[oFileName r := bs]> (outputs d)) d).
Proof.
  intros Hc. split; [by left|]. intros r'. simpl.
  destruct (decide (oFileName r' = oFileName r)) as [Heq|Hne]; [right|left; by rewrite lookup_insert_ne].
  by apply oFileName_inj in Heq as ->.
Qed.

Lemma turn_effect c d w chunk d' res :
  worker_shape c d w → on_time c w → turn chunk d w = Ret (d', res) → effect c (TxnID (w_task w)) d d'.
Proof.
  intros Hw Hon Hturn. destruct Hw as [i f txn Hok|r txn Hok|i f txn done kva rs Hok Hk Hnd Hrs Hdone
    |r txn before file names kva Hok Hn'|r txn gs off Hok]; cbn [workerTurn ProcessReduceTask w_task] in *.
  - unfold startTask in Hturn. simpl in Hturn. destruct (inputs d !! f); simplify_eq. apply effect_refl.
  - injection Hturn as <- _. apply effect_refl.
  - pose proof (rs_nonneg i rs _ Hrs) as Hpos. destruct Hok as [Hi _].
    destruct (ProcessMapTask_cases d i f txn done kva rs) as
      [(-> & E)|[(kv & kva' & -> & _ & E)|(kv & kva' & -> & _ & E)]]; [lia|done..| | |];
      rewrite E in Hturn; injection Hturn as <- _; [apply effect_refl| |];
      (apply (effect_intermediate c i f txn); [lia|apply bucket_range|by apply Hon]).
  - unfold readTurn in Hturn. destruct file as [[name got]|]; [|destruct names as [|name names]].
    + destruct (take (S chunk) _); injection Hturn as <- _; apply effect_refl.
    + injection Hturn as <- _. apply (effect_outputs c (names_of c r)). by apply Hon.
    + destruct (intermediate d !! name); simplify_eq. apply effect_refl.
  - unfold writeTurn in Hturn. destruct gs as [|g gs]; injection Hturn as <- _; [apply effect_refl|].
    apply (effect_outputs c (names_of c r)). by apply Hon.
Qed.

(** *** What the files hold *)

(** The files of map task [i] are complete. *)
Definition written (d : Disk) (i : Z) : Prop :=
  ∀ r, r ∈ bucket <$> kvs_of i → intermediate d !! iFileName i r = Some (encs (in_bucket r (kvs_of i))).

(** The map tasks among [order] that have a file for bucket [r], and its
    name. *)
Definition for_bucket (order : list Z) (r : Z) : list Z := filter (λ i, r ∈ bucket <$> kvs_of i) order.
Definition names_for (order : list Z) (r : Z) : list string := (λ i, iFileName i r) <$> for_bucket order r.

(** What a reduce task reads from their files. *)
Definition pairs_read (r : Z) (ids : list Z) : list KeyValue :=
  concat ((λ i, clean_kv <$> in_bucket r (kvs_of i)) <$> ids).

Definition lines (gs : list (string * list string)) : bytes := concat ((λ g, chars (line reducef g)) <$> gs).

(** The output file of bucket [r] is right: the lines of the groups of all
    pairs of the bucket, in key order. *)
Definition out_ok (d : Disk) (r : Z) : Prop :=
  ∃ kvs, kvs ≡ₚ clean_kv <$> in_bucket r all_kvs ∧ StronglySorted key_le kvs ∧
    outputs d !! oFileName r = Some (lines (groups kvs)).

(** What is left of the pairs when a file is open, as a list of map tasks. *)
Definition reading (r : Z) (file : option (string * bytes)) (ids : list Z) : Prop :=
  match file with
  | None => ids = []
  | Some (name, got) => ∃ i, ids = [i] ∧ name = iFileName i r ∧ got `prefix_of` encs (in_bucket r (kvs_of i))
  end.

Definition map_content (c : Coordinator) (d : Disk) (t : Task) (kva : list KeyValue) (fs : list (string * nat)) : Prop :=
  current c t = true → ∀ done r, kvs_of (Index t) = done ++ kva → 0 ≤ r → iFileName (Index t) r ∈ fs.*1 →
    intermediate d !! iFileName (Index t) r = Some (encs (in_bucket r done)).

Definition read_content (order : list Z) (r : Z) (names : list string) (file : option (string * bytes))
    (kva : list KeyValue) : Prop :=
  ∃ before open after, for_bucket order r = before ++ open ++ after ∧ names = (λ i, iFileName i r) <$> after ∧
    reading r file open ∧ kva = pairs_read r before.

Definition write_content (c : Coordinator) (d : Disk) (t : Task) (gs : list (string * list string)) (off : nat) : Prop :=
  ∃ done kvs, kvs ≡ₚ clean_kv <$> in_bucket (Index t) all_kvs ∧ StronglySorted key_le kvs ∧
    groups kvs = done ++ gs ∧ off = length (lines done) ∧
    (current c t = true → outputs d !! oFileName (Index t) = Some (lines done)).

(** As long as a task has not timed out, its files hold what its worker has
    written to them; what a reduce task has read is right in any case. *)
Definition content (order : list Z) (c : Coordinator) (d : Disk) (w : Worker) : Prop :=
  match w with
  | WTask _ => True
  | WMap t kva fs => map_content c d t kva fs
  | WRead t names file kva => read_content order (Index t) names file kva
  | WWrite t gs off => write_content c d t gs off
  end.

Definition report_content (c : Coordinator) (d : Disk) (p : Report) : Prop :=
  if p.1 then currentTxn (MTaskProcessingTxn c) (r_Index p.2) (r_TxnID p.2) = true → written d (r_Index p.2)
  else currentTxn (RTaskProcessingTxn c) (r_Index p.2) (r_TxnID p.2) = true → out_ok d (r_Index p.2).

Definition res_content (order : list Z) (c : Coordinator) (d : Disk) (res : Worker + Report) : Prop :=
  match res with inl w => content order c d w | inr p => report_content c d p end.

Lemma elem_of_for_bucket i r order : i ∈ for_bucket order r ↔ r ∈ bucket <$> kvs_of i ∧ i ∈ order.
Proof. unfold for_bucket. by rewrite list_elem_of_filter. Qed.

Lemma pairs_read_app r ids js : pairs_read r (ids ++ js) = pairs_read r ids ++ pairs_read r js.
Proof. unfold pairs_read. by rewrite fmap_app, concat_app. Qed.

Lemma pairs_read_order r order : pairs_read r (for_bucket order r) = clean_kv <$> in_bucket r (concat (kvs_of <$> order)).
Proof.
  unfold for_bucket. induction order as [|i order IH]; [done|]. rewrite filter_cons, fmap_cons. cbn [concat].
  rewrite in_bucket_app, fmap_app, <-IH. case_decide as Hr; [done|]. by rewrite (in_bucket_none r (kvs_of i)).
Qed.

Lemma lines_snoc gs g : lines (gs ++ [g]) = lines gs ++ chars (line reducef g).
Proof. unfold lines. rewrite fmap_app, concat_app. simpl. by rewrite app_nil_r. Qed.

(** Reading more of a file that does not change, or finding its end. *)
Lemma read_more (got file : bytes) n :
  got `prefix_of` file → (got ++ take n (drop (length got) file)) `prefix_of` file.
Proof.
  intros [rest ->]. rewrite drop_app_length. apply prefix_app. exists (drop n rest). by rewrite take_drop.
Qed.

Lemma read_end (got file : bytes) n :
  got `prefix_of` file → take (S n) (drop (length got) file) = [] → got = file.
Proof.
  intros [rest ->]. rewrite drop_app_length. destruct rest; [by rewrite app_nil_r|done].
Qed.

Lemma map_content_create c d i txn f fs done kva r bs :
  0 ≤ i → 0 ≤ r → kvs_of i = done ++ kva → Forall (λ r, 0 ≤ r) fs → r ∉ bucket <$> done → bs = [] →
  map_content c d (map_task i f txn) kva (open_files i fs done) →
  map_content c (set_intermediate (<[iFileName i r := bs]> (intermediate d)) d) (map_task i f txn) kva
    (open_files i (fs ++ [r]) done).
Proof.
  intros Hi Hr Hk Hfs Hnew -> Hc Hcur done' r' Hk' Hr' Hin. simpl in *.
  assert (done' = done) as -> by (rewrite Hk in Hk'; by apply app_inv_tail in Hk').
  destruct (decide (r' = r)) as [->|Hne]; [by rewrite lookup_insert_eq, in_bucket_none|].
  rewrite lookup_insert_ne by (by intros [_ ?]%iFileName_inj).
  apply (Hc Hcur); [done|done|]. simpl. rewrite open_files_new, fmap_app in Hin by done.
  apply elem_of_app in Hin as [?|Heq%list_elem_of_singleton]; [done|]. by apply iFileName_inj in Heq as [_ ?].
Qed.

Lemma map_content_write c d i txn f rs done kv kva :
  0 ≤ i → kvs_of i = done ++ kv :: kva → Forall (λ r, 0 ≤ r) rs → bucket kv ∈ rs →
  map_content c d (map_task i f txn) (kv :: kva) (open_files i rs done) →
  map_content c (set_intermediate (WriteAt (iFileName i (bucket kv)) (length (encs (in_bucket (bucket kv) done)))
      (encodeKV kv) (intermediate d)) d) (map_task i f txn) kva (open_files i rs (done ++ [kv])).
Proof.
  intros Hi Hk Hrs Hb Hc Hcur done' r Hk' Hr Hin. simpl in *. pose proof (bucket_range kv) as Hkv.
  assert (done' = done ++ [kv]) as ->.
  { rewrite Hk in Hk'. replace (done ++ kv :: kva) with ((done ++ [kv]) ++ kva) in Hk' by (by rewrite <-app_assoc).
    by apply app_inv_tail in Hk'. }
  assert (∀ r, 0 ≤ r → r ∈ rs → intermediate d !! iFileName i r = Some (encs (in_bucket r done))) as Hold.
  { intros r' Hr' Hin'. apply (Hc Hcur); [done|done|]. by apply elem_of_open_files. }
  erewrite WriteAt_end; [|apply Hold; [lia|done]|done]. rewrite in_bucket_app, encs_app, in_bucket_cons.
  destruct (decide (r = bucket kv)) as [->|Hne].
  - rewrite lookup_insert_eq, decide_True by done. unfold encs at 3. simpl. by rewrite app_nil_r.
  - rewrite lookup_insert_ne by (intros [_ ?]%iFileName_inj; [done|lia..]). rewrite decide_False by done.
    rewrite app_nil_r. apply Hold; [done|]. by apply elem_of_open_files in Hin.
Qed.

Lemma map_content_done c d i txn f rs :
  0 ≤ i → Forall (λ r, 0 ≤ r) rs → (∀ r, r ∈ bucket <$> kvs_of i → r ∈ rs) →
  map_content c d (map_task i f txn) [] (open_files i rs (kvs_of i)) →
  report_content c d (true, mkReply i txn (iFileName i <$> rs)).
Proof.
  intros Hi Hrs Hall Hc Hcur r Hr. apply (Hc Hcur); [by rewrite app_nil_r|by eapply bucket_nonneg|].
  apply elem_of_open_files; [done|by eapply bucket_nonneg|done|by apply Hall].
Qed.

(** A turn of the loop over the files of a reduce task. *)
Lemma readTurn_content c d r txn names file kva order chunk d' res :
  read_content order r names file kva → (∀ i, i ∈ order → written d i) → order ≡ₚ seqZ 0 (zlen files) →
  readTurn sortf chunk d (reduce_task c r txn) names file kva = Ret (d', res) → res_content order c d' res.
Proof.
  intros (before & open & after & Hord & -> & Hrd & ->) Hw Hp. unfold readTurn.
  destruct file as [[name got]|]; simpl in Hrd; [destruct Hrd as (i & -> & -> & Hgot)|subst open; destruct after as [|i after]; simpl].
  - assert (i ∈ for_bucket order r) as [Hr Hi]%elem_of_for_bucket.
    { rewrite Hord. apply elem_of_app. right. by left. }
    rewrite (Hw i Hi r Hr). cbn [default id].
    destruct (take (S chunk) _) as [|b bs] eqn:Ht; intros [= <- <-].
    + apply read_end in Ht as ->; [|done]. exists (before ++ [i]), [], after. split_and!; [|done|done|].
      * simpl. by rewrite Hord, <-app_assoc.
      * rewrite pairs_read_app, decodeFile_encs. unfold pairs_read at 3. simpl. by rewrite app_nil_r.
    + exists before, [i], after. split_and!; [done|done| |done]. exists i. split_and!; [done|done|].
      rewrite <-Ht. by apply read_more.
  - intros [= <- <-]. rewrite !app_nil_r in Hord. exists [], (sortf (pairs_read r before)). split_and!; [|..|done|done|].
    + rewrite sortf_perm, <-Hord, pairs_read_order. simpl. unfold all_kvs, in_bucket. by rewrite Hp.
    + apply Sorted_StronglySorted; [apply _|]. apply sortf_sorted.
    + intros _. simpl. unfold Create. by rewrite lookup_insert_eq.
  - destruct (intermediate d !! iFileName i r); [|done]. intros [= <- <-]. exists before, [i], after.
    split_and!; [done|done| |done]. exists i. split_and!; [done|done|]. apply prefix_nil.
Qed.

Lemma writeTurn_content c d r txn gs off order d' res :
  write_content c d (reduce_task c r txn) gs off →
  writeTurn reducef d (reduce_task c r txn) gs off = Ret (d', res) → res_content order c d' res.
Proof.
  intros (done & kvs & Hp & Hs & Hg & -> & Hout). unfold writeTurn. simpl in *.
  destruct gs as [|g gs]; intros [= <- <-]; simpl.
  - intros Hcur. exists kvs. split_and!; [done|done|]. rewrite Hg, app_nil_r. by apply Hout.
  - exists (done ++ [g]), kvs. split_and!; [done|done|by rewrite Hg, <-app_assoc|by rewrite lines_snoc, length_app|].
    intros Hcur. simpl. rewrite lines_snoc. erewrite WriteAt_end; [|by apply Hout|done]. by rewrite lookup_insert_eq.
Qed.

Lemma turn_content c d w chunk order d' res :
  worker_shape c d w → content order c d w → (∀ r, names_of c r = names_for order r) →
  (∀ i, i ∈ order → written d i) → (maps_done files c → order ≡ₚ seqZ 0 (zlen files)) →
  turn chunk d w = Ret (d', res) → res_content order c d' res.
Proof.
  intros Hw Hcont Hnames Hwr Hord Hturn. destruct Hw as [i f txn Hok|r txn Hok|i f txn done kva rs Hok Hk Hnd Hrs Hdone
    |r txn before file names kva Hok Hn'|r txn gs off Hok]; cbn [workerTurn ProcessReduceTask content] in *.
  - unfold startTask in Hturn. simpl in Hturn. destruct (inputs d !! f); simplify_eq. intros _ ? ? _ _ ?%not_elem_of_nil. done.
  - injection Hturn as <- <-. exists [], [], (for_bucket order r). split_and!; [done| |done|done].
    simpl. by rewrite Hnames.
  - pose proof (rs_nonneg i rs _ Hrs) as Hpos. destruct Hok as [Hi _].
    destruct (ProcessMapTask_cases d i f txn done kva rs) as
      [(-> & E)|[(kv & kva' & -> & Hb & E)|(kv & kva' & -> & Hb & E)]]; [lia|done..| | |];
      rewrite E in Hturn; injection Hturn as <- <-; simpl.
    + rewrite app_nil_r in Hk. subst done. apply (map_content_done c d i txn f rs); [lia|done|done|done].
    + apply map_content_create; [lia|apply bucket_range|done|done|by intros ?%Hdone|done|done].
    + apply map_content_write; [lia|done..].
  - eapply readTurn_content; [done|done|by apply Hord, Hok|done].
  - by eapply writeTurn_content.
Qed.

(** *** The other workers *)

Lemma effect_written c txn d d' i :
  effect c txn d d' → 0 ≤ i → currentTxn (MTaskProcessingTxn c) i txn = false → written d i → written d' i.
Proof.
  intros [Hint _] Hi Hcur Hw r Hr. destruct (Hint i r Hi) as [->|?]; [by eapply bucket_nonneg|by apply Hw|congruence].
Qed.

Lemma effect_out_ok c txn d d' r :
  effect c txn d d' → currentTxn (RTaskProcessingTxn c) r txn = false → out_ok d r → out_ok d' r.
Proof.
  intros [_ Hout] Hcur (kvs & ? & ? & Ho). exists kvs. split_and!; [done|done|].
  destruct (Hout r) as [->|?]; [done|congruence].
Qed.

Lemma not_current txns i txn txn' : txn' ≠ txn → currentTxn txns i txn' = true → currentTxn txns i txn = false.
Proof. intros Hne Hc. apply not_true_is_false. intros Hc'. by apply Hne, (currentTxn_inj txns i). Qed.

Lemma effect_content c txn d d' w order :
  effect c txn d d' → worker_shape c d w → TxnID (w_task w) ≠ txn → content order c d w → content order c d' w.
Proof.
  intros [Hint Hout] Hw Hne. destruct Hw as [|r txn' Hok|i f txn' done kva rs [Hi _] Hk Hnd Hrs Hdone|r txn' before file names kva Hok Hn'
    |r txn' gs off Hok]; simpl in *; try (intros; assumption).
  - intros Hc Hcur done' r Hk' Hr Hin. simpl in *. destruct (Hint i r) as [->|Hcur']; [lia|done|by apply Hc|].
    exfalso. by apply Hne, (currentTxn_inj _ i _ _ Hcur Hcur').
  - intros (done & kvs & ? & ? & ? & ? & Ho). exists done, kvs. split_and!; [done..|]. intros Hcur. simpl.
    destruct (Hout r) as [->|Hcur']; [by apply Ho|]. exfalso. by apply Hne, (currentTxn_inj _ r _ _ Hcur Hcur').
Qed.

Lemma effect_report c txn d d' p :
  effect c txn d d' → report_shape d p → r_TxnID p.2 ≠ txn → report_content c d p → report_content c d' p.
Proof.
  intros He [i txn' rs Hi ? ? ?|r txn'] Hne Hc; simpl in *; intros Hcur.
  - apply (effect_written c txn d d' i); [done|lia|by eapply not_current|by apply Hc].
  - apply (effect_out_ok c txn d d' r); [done|by eapply not_current|by apply Hc].
Qed.

(** The coordinator goes on: reduce tasks stay as they are. *)
Lemma worker_shape_mono c c' d d' w :
  (∀ r, reduce_ok c r → reduce_ok c' r ∧ names_of c' r = names_of c r) →
  (∀ nm, is_Some (intermediate d !! nm) → is_Some (intermediate d' !! nm)) →
  worker_shape c d w → worker_shape c' d' w.
Proof.
  intros Hr Hd [i f txn Hok|r txn Hok|i f txn done kva rs Hok Hk Hnd Hrs Hdone|r txn before file names kva Hok Hn'
    |r txn gs off Hok].
  - by apply ws_map_task.
  - destruct (Hr r Hok) as [? E]. unfold reduce_task. rewrite <-E. by apply ws_reduce_task.
  - apply ws_map; [done..| |done]. intros r' [? ?]%Hrs. auto.
  - destruct (Hr r Hok) as [? E]. unfold reduce_task. rewrite <-E. apply (ws_read c' d' r txn before); [done|by rewrite E].
  - destruct (Hr r Hok) as [? E]. unfold reduce_task. rewrite <-E. by apply ws_write.
Qed.

Lemma report_shape_mono d d' p :
  (∀ nm, is_Some (intermediate d !! nm) → is_Some (intermediate d' !! nm)) → report_shape d p → report_shape d' p.
Proof. intros Hd [i txn rs ? ? ? ?|r txn]; [apply rs_map; auto|apply rs_reduce]. Qed.

Lemma content_coord c c' d w order order' :
  (current c' (w_task w) = true → current c (w_task w) = true) →
  (∀ r, reduce_ok c r → for_bucket order' r = for_bucket order r) →
  worker_shape c d w → content order c d w → content order' c' d w.
Proof.
  intros Hcur Hord Hw. destruct Hw as [|r txn' Hok|i f txn' done kva rs Hok Hk Hnd Hrs Hdone|r txn' before file names kva Hok Hn'
    |r txn' gs off Hok]; simpl in *; try (intros; assumption).
  - intros Hc ?. by apply Hc, Hcur.
  - unfold read_content. by rewrite Hord.
  - intros (done & kvs & ? & ? & ? & ? & Ho). exists done, kvs. split_and!; auto.
Qed.

Lemma report_content_coord c c' d p :
  (∀ i, currentTxn (MTaskProcessingTxn c') i (r_TxnID p.2) = true → currentTxn (MTaskProcessingTxn c) i (r_TxnID p.2) = true) →
  (∀ i, currentTxn (RTaskProcessingTxn c') i (r_TxnID p.2) = true → currentTxn (RTaskProcessingTxn c) i (r_TxnID p.2) = true) →
  report_content c d p → report_content c' d p.
Proof. intros Hm Hr. unfold report_content. destruct p.1; auto. Qed.

(** *** A worker alone *)

Fixpoint runAlone (chunk fuel : nat) (d : Disk) (w : Worker) : outcome (Disk * (Worker + Report)) :=
  match fuel with
  | O => Ret (d, inl w)
  | S fuel =>
      '(d, res) ← turn chunk d w;
      match res with inl w => runAlone chunk fuel d w | inr p => Ret (d, inr p) end
  end.

Definition finishes (chunk : nat) (d : Disk) (w : Worker) : Prop :=
  ∃ fuel d' p, runAlone chunk fuel d w = Ret (d', inr p).

Lemma finishes_report chunk d w d' p : turn chunk d w = Ret (d', inr p) → finishes chunk d w.
Proof. intros Ht. exists 1%nat, d', p. cbn [runAlone]. by rewrite Ht. Qed.

Lemma finishes_turn chunk d w d' w' : turn chunk d w = Ret (d', inl w') → finishes chunk d' w' → finishes chunk d w.
Proof. intros Ht (fuel & d1 & p & Hr). exists (S fuel), d1, p. cbn [runAlone]. by rewrite Ht. Qed.

Lemma write_finishes chunk d t gs off : finishes chunk d (WWrite t gs off).
Proof.
  revert d off. induction gs as [|g gs IH]; intros d off; [by eapply finishes_report|].
  by eapply finishes_turn.
Qed.

Lemma read_file_finishes chunk d t names name got kva :
  (∀ kva, finishes chunk d (WRead t names None kva)) → finishes chunk d (WRead t names (Some (name, got)) kva).
Proof.
  intros Hnext. assert (∀ n got, (length (default [] (intermediate d !! name)) - length got ≤ n)%nat →
    finishes chunk d (WRead t names (Some (name, got)) kva)) as Hgen; [|by eapply (Hgen _ got)].
  clear got. induction n as [|n IH]; intros got Hlen;
    destruct (take (S chunk) (drop (length got) (default [] (intermediate d !! name)))) as [|b bs] eqn:Ht;
    try (eapply finishes_turn; [cbn; rewrite Ht; reflexivity|apply Hnext]).
  - rewrite drop_ge in Ht by lia. done.
  - eapply finishes_turn; [cbn; rewrite Ht; reflexivity|]. apply IH. rewrite length_app. simpl.
    destruct (decide (length (default [] (intermediate d !! name)) ≤ length got)%nat); [|lia].
    rewrite drop_ge in Ht by lia. done.
Qed.

Lemma read_finishes chunk d t names kva :
  (∀ nm, nm ∈ names → is_Some (intermediate d !! nm)) → finishes chunk d (WRead t names None kva).
Proof.
  revert kva. induction names as [|name names IH]; intros kva Hnm.
  - eapply finishes_turn; [reflexivity|]. apply write_finishes.
  - destruct (Hnm name) as [bs Hbs]; [by left|]. eapply finishes_turn; [cbn; rewrite Hbs; reflexivity|].
    apply read_file_finishes. intros. apply IH. intros; apply Hnm. by right.
Qed.

Lemma offset_new name fs : offset name fs = None → offset name (fs ++ [(name, 0%nat)]) = Some 0%nat.
Proof.
  induction fs as [|[nm off] fs IH]; simpl; [by rewrite decide_True|]. destruct (decide (nm = name)); [done|apply IH].
Qed.

Lemma map_finishes chunk d t kva fs : NReduce t ≠ 0 → finishes chunk d (WMap t kva fs).
Proof.
  intros Hr. revert d fs. induction kva as [|kv kva IH]; intros d fs; [by eapply finishes_report|].
  assert (∀ d fs, is_Some (offset (iFileName (Index t) (Z.rem (ihash (Key kv)) (NReduce t))) fs) →
    finishes chunk d (WMap t (kv :: kva) fs)) as Hwrite.
  { intros d' fs' [off Hoff]. eapply finishes_turn; [|apply IH]. cbn [workerTurn ProcessMapTask].
    by rewrite (proj2 (Z.eqb_neq _ _) Hr), Hoff. }
  destruct (offset (iFileName (Index t) (Z.rem (ihash (Key kv)) (NReduce t))) fs) as [off|] eqn:Hoff;
    [apply Hwrite; by eexists|].
  eapply finishes_turn; [cbn [workerTurn ProcessMapTask]; rewrite (proj2 (Z.eqb_neq _ _) Hr), Hoff; reflexivity|].
  apply Hwrite. rewrite offset_new by done. by eexists.
Qed.

Lemma worker_finishes c d w chunk :
  worker_shape c d w → inputs d = texts → (∀ r nm, nm ∈ names_of c r → is_Some (intermediate d !! nm)) →
  finishes chunk d w.
Proof.
  intros Hw Hin Hnm. assert (nReduce ≠ 0) as Hne by lia.
  destruct Hw as [i f txn Hok|r txn Hok|i f txn done kva rs Hok Hk Hnd Hrs Hdone|r txn before file names kva Hok Hn'
    |r txn gs off Hok].
  - destruct (kvs_of_ok i f Hok) as (text & Ht & _).
    eapply finishes_turn; [unfold workerTurn, startTask; simpl; rewrite Hin, Ht; reflexivity|]. by apply map_finishes.
  - eapply finishes_turn; [reflexivity|]. apply read_finishes. apply Hnm.
  - by apply map_finishes.
  - assert (∀ kva, finishes chunk d (WRead (reduce_task c r txn) names None kva)) as Hnext.
    { intros. apply read_finishes. intros nm ?. apply (Hnm r). rewrite Hn'. do 2 (apply elem_of_app; right). done. }
    destruct file as [[name got]|]; [by apply read_file_finishes|done].
  - apply write_finishes.
Qed.
End job.
