(* ===== verification/MapReduceProps.v ===== *)
(** * MapReduce: the whole job

    The system of the coordinator, any number of workers and the disk they
    share.  Tasks are handed out, worked on one turn at a time, reported, lost
    with their worker and handed out again after a timeout, in any order
    ([sys_step]).

    - Whatever the workers do, the coordinator and the workers never fail and no
      task is lost ([sys_inv], [mapreduce_safe], [mapreduce_progress]).
    - If no worker writes after its task was taken away from it ([on_time]), then
      at the end the output files hold, for every key the map function emitted on
      any input, exactly one line, made by the reduce function from all values of
      the key ([sys_content], [mapreduce_correct]).  MapReduceExample.v has a run
      in which a late worker spoils the output. *)

From Stdlib Require Import Ascii String.
From stdpp Require Import prelude gmap strings list sorting.
From S2P Require Import Prelude Strconv GoStrings Json MapReduce MapReduceCoord MapReduceWorker.
Local Open Scope Z_scope.

(** ** The system *)

Record Sys := mkSys {
  coord : Coordinator;
  disk : Disk;
  workers : list Worker;   (* with a task *)
  reports : list Report;   (* on their way to the coordinator *)
}.

(** The worker after a turn, or its report. *)
Definition still (res : Worker + Report) : list Worker := match res with inl w => [w] | inr _ => [] end.
Definition told (res : Worker + Report) : list Report := match res with inl _ => [] | inr p => [p] end.

Section job.
Context (mapf : string → string → list KeyValue) (reducef : string → list string → string).
Context (sortf : list KeyValue → list KeyValue).
Context (files : list string) (nReduce : Z) (texts : gmap string string).
(** When a worker may have its next turn. *)
Context (may_run : Coordinator → Worker → Prop).

Abbreviation turn := (workerTurn mapf reducef sortf).
Abbreviation pairs_of := (kvs_of mapf files texts).
Abbreviation all_pairs := (all_kvs mapf files texts).
Abbreviation bucket_of := (bucket nReduce).
Abbreviation shape := (worker_shape mapf files nReduce texts).
Abbreviation rep_shape := (report_shape mapf files nReduce texts).
Abbreviation files_of := (names_for mapf files nReduce texts).
Abbreviation complete := (written mapf files nReduce texts).
Abbreviation out_right := (out_ok mapf reducef files nReduce texts).
Abbreviation holds := (content mapf reducef files nReduce texts).
Abbreviation rep_holds := (report_content mapf reducef files nReduce texts).

(** A worker asks and gets a task; a worker has a turn; it dies; a report
    arrives, or is lost with its worker; the coordinator takes back the tasks
    that took too long. *)
Inductive sys_step : Sys → Sys → Prop :=
  | step_get c d ws rs now c' t :
      GetTask c now = Ret (c', Got t) →
      sys_step (mkSys c d ws rs) (mkSys c' d (WTask t :: ws) rs)
  | step_turn c d ws1 w ws2 rs chunk d' res :
      may_run c w → turn chunk d w = Ret (d', res) →
      sys_step (mkSys c d (ws1 ++ w :: ws2) rs) (mkSys c d' (ws1 ++ still res ++ ws2) (told res ++ rs))
  | step_die c d ws1 w ws2 rs :
      sys_step (mkSys c d (ws1 ++ w :: ws2) rs) (mkSys c d (ws1 ++ ws2) rs)
  | step_report c d ws rs1 p rs2 c' ok :
      report c p = Ret (c', ok) →
      sys_step (mkSys c d ws (rs1 ++ p :: rs2)) (mkSys c' d ws (rs1 ++ rs2))
  | step_report_lost c d ws rs1 p rs2 :
      sys_step (mkSys c d ws (rs1 ++ p :: rs2)) (mkSys c d ws (rs1 ++ rs2))
  | step_inspect_map c d ws rs indexs now :
      indexs ≡ₚ (map_to_list (expired (MTaskProcessingTxn c) now)).*1 →
      sys_step (mkSys c d ws rs) (mkSys (InspectMapTasks c indexs) d ws rs)
  | step_inspect_reduce c d ws rs indexs now :
      indexs ≡ₚ (map_to_list (expired (RTaskProcessingTxn c) now)).*1 →
      sys_step (mkSys c d ws rs) (mkSys (InspectReduceTasks c indexs) d ws rs).

(** Any intermediate files may be left from an earlier job; no output. *)
Definition sys_init (s : Sys) : Prop :=
  coord s = MakeCoordinator files nReduce ∧ inputs (disk s) = texts ∧ outputs (disk s) = ∅ ∧
  workers s = [] ∧ reports s = [].

Definition sys_reachable (s : Sys) : Prop := ∃ s0, sys_init s0 ∧ rtc sys_step s0 s.

(** ** The invariant, whatever the workers do *)

(** [order]: the completed map tasks in the order of completion. *)
Record sys_inv (s : Sys) (order : list Z) : Prop := {
  si_coord : coord_ok files nReduce (coord s);
  si_inputs : inputs (disk s) = texts;
  si_nodup : NoDup order;
  si_order i : i ∈ order ↔ MapTaskStatus (coord s) !! i = Some COMPLETED;
  si_names r : names_of (coord s) r = files_of order r;
  si_exist r nm : nm ∈ names_of (coord s) r → is_Some (intermediate (disk s) !! nm);
  si_workers w : w ∈ workers s → shape (coord s) (disk s) w;
  si_reports p : p ∈ reports s → rep_shape (disk s) p;
  si_outputs nm : is_Some (outputs (disk s) !! nm) → ∃ r, nm = oFileName r ∧ r ∈ bucket_of <$> all_pairs;
}.

Lemma order_range s order i : sys_inv s order → i ∈ order → 0 ≤ i < zlen files.
Proof.
  intros Hs Hi%(si_order _ _ Hs). apply elem_of_map_ids.
  rewrite <-(po_ids _ _ _ _ _ _ (co_map _ _ _ (si_coord _ _ Hs))). by apply elem_of_dom_2 in Hi.
Qed.

Lemma order_all s order : sys_inv s order → maps_done files (coord s) → order ≡ₚ seqZ 0 (zlen files).
Proof.
  intros Hs Hd. apply NoDup_Permutation; [apply Hs|apply NoDup_seqZ|]. intros i. rewrite elem_of_seqZ. split.
  - intros Hi. apply (order_range _ _ _ Hs) in Hi. lia.
  - intros Hi. apply (si_order _ _ Hs), Hd. lia.
Qed.

Lemma bucket_all i r : 0 ≤ i < zlen files → r ∈ bucket_of <$> pairs_of i → r ∈ bucket_of <$> all_pairs.
Proof.
  intros Hi (kv & -> & Hkv)%list_elem_of_fmap. apply list_elem_of_fmap_2. unfold all_kvs.
  apply list_elem_of_In, in_concat. exists (pairs_of i). split; apply list_elem_of_In; [|done].
  apply list_elem_of_fmap_2, elem_of_seqZ. lia.
Qed.

(** A reduce task exists only for a bucket in use. *)
Lemma reduce_task_bucket s order r :
  sys_inv s order → is_Some (ReduceTasks (coord s) !! r) → r ∈ bucket_of <$> all_pairs.
Proof.
  intros Hs [t Ht]. destruct (co_rtask _ _ _ (si_coord _ _ Hs) _ _ Ht) as [_ Hne].
  rewrite (si_names _ _ Hs) in Hne. unfold names_for in Hne.
  destruct (for_bucket _ _ _ _ order r) as [|i l] eqn:Hf; [done|].
  assert (i ∈ for_bucket mapf files nReduce texts order r) as [Hr Hi]%elem_of_for_bucket by (rewrite Hf; by left).
  apply (bucket_all i); [|done]. by eapply order_range.
Qed.

(** *** Changes of the coordinator *)

(** [c'] comes after [c]: no task has been completed but reduce tasks, and no
    transaction has become current again. *)
Record later (c c' : Coordinator) : Prop := {
  la_ok : coord_ok files nReduce c';
  la_map i x : x < NextTxnID c → currentTxn (MTaskProcessingTxn c') i x = true → currentTxn (MTaskProcessingTxn c) i x = true;
  la_reduce i x : x < NextTxnID c → currentTxn (RTaskProcessingTxn c') i x = true → currentTxn (RTaskProcessingTxn c) i x = true;
  la_next : NextTxnID c ≤ NextTxnID c';
  la_done i : MapTaskStatus c' !! i = Some COMPLETED ↔ MapTaskStatus c !! i = Some COMPLETED;
  la_tasks : ReduceTasks c' = ReduceTasks c;
}.

Lemma later_refl c : coord_ok files nReduce c → later c c.
Proof. intros. by split. Qed.

Lemma later_names c c' r : later c c' → names_of c' r = names_of c r.
Proof. intros Hl. unfold names_of. by rewrite (la_tasks _ _ Hl). Qed.

Lemma later_reduce_ok c c' r : later c c' → reduce_ok files c r → reduce_ok files c' r ∧ names_of c' r = names_of c r.
Proof.
  intros Hl [Hd Hr]. split; [|by apply later_names]. split; [|by rewrite (la_tasks _ _ Hl)].
  intros i Hi. by apply (la_done _ _ Hl), Hd.
Qed.

Lemma inv_coord c c' d ws rs order :
  sys_inv (mkSys c d ws rs) order → later c c' → sys_inv (mkSys c' d ws rs) order.
Proof.
  intros [Hc Hin Hnd Hord Hnm Hex Hws Hrs Hout] Hl. split; simpl in *; try done.
  - apply Hl.
  - intros i. by rewrite Hord, (la_done _ _ Hl).
  - intros r. by rewrite (later_names _ _ _ Hl).
  - intros r nm. rewrite (later_names _ _ _ Hl). apply Hex.
  - intros w Hw. eapply worker_shape_mono; [|done|by apply Hws]. intros r. by apply later_reduce_ok.
Qed.

(** Fewer workers and reports. *)
Lemma inv_fewer c d ws rs ws' rs' order :
  sys_inv (mkSys c d ws rs) order → ws' ⊆ ws → rs' ⊆ rs → sys_inv (mkSys c d ws' rs') order.
Proof. intros [Hc Hin Hnd Hord Hnm Hex Hws Hrs Hout] ??. split; simpl in *; auto. Qed.

Lemma sublist_drop {A} (l1 : list A) x l2 : l1 ++ l2 ⊆ l1 ++ x :: l2.
Proof. intros y. rewrite !elem_of_app, elem_of_cons. tauto. Qed.

Lemma currentTxn_insert txns i j x y now :
  x ≠ y → currentTxn (<[i := mkTransaction y now]> txns) j x = true → currentTxn txns j x = true.
Proof.
  intros Hne. unfold currentTxn. destruct (decide (j = i)) as [->|]; [|by rewrite lookup_insert_ne].
  rewrite lookup_insert_eq. simpl. rewrite Z.eqb_eq. congruence.
Qed.

Lemma currentTxn_delete txns i j x : currentTxn (delete i txns) j x = true → currentTxn txns j x = true.
Proof.
  unfold currentTxn. destruct (decide (j = i)) as [->|]; [by rewrite lookup_delete_eq|by rewrite lookup_delete_ne].
Qed.

Lemma completed_busy (st : gmap Z Status) i j :
  st !! i = Some IDLE → <[i := INPROGRESS]> st !! j = Some COMPLETED ↔ st !! j = Some COMPLETED.
Proof.
  intros Hst. destruct (decide (j = i)) as [->|Hne]; [|by rewrite lookup_insert_ne].
  rewrite lookup_insert_eq, Hst. naive_solver.
Qed.

(** What a worker gets. *)
Definition got (c c' : Coordinator) (a : Answer) : Prop :=
  match a with
  | Got t => (∀ d, shape c' d (WTask t)) ∧ TxnID t = NextTxnID c ∧ NextTxnID c' = NextTxnID c + 1
  | _ => True
  end.

Lemma GetTask_later c now c' a :
  coord_ok files nReduce c → GetTask c now = Ret (c', a) →
  later c c' ∧ (∀ r, ReduceTaskStatus c' !! r = Some COMPLETED ↔ ReduceTaskStatus c !! r = Some COMPLETED) ∧ got c c' a.
Proof.
  intros Hc Hget. unfold GetTask in Hget.
  destruct (GetMapTask_spec files nReduce c now Hc) as
    (c1 & a1 & Heq & Hc1 & [(-> & -> & _)|[(-> & -> & Hmd)|(i & f & Hf & Hi & Hst & -> & E)]]);
    rewrite Heq, bind_Ret in Hget.
  - injection Hget as <- <-. by split; [apply later_refl|].
  - destruct (GetReduceTask_spec files nReduce c now Hc Hmd) as
      (c2 & a2 & Heq2 & Hc2 & [(-> & -> & _)|[(-> & -> & _)|(r & Hr & Hst & -> & E)]]);
      rewrite Heq2 in Hget; injection Hget as <- <-; [by split; [apply later_refl|]..|].
    assert (later c c2) as Hl.
    { split; [done|by rewrite E| |by rewrite E; simpl; lia|by rewrite E|by rewrite E].
      intros j x Hx. rewrite E. simpl. apply currentTxn_insert. lia. }
    unfold got. split_and!; [done|intros r'; rewrite E; simpl; by apply completed_busy|..|by rewrite E].
    + intros d. rewrite <-(later_names _ _ r Hl). apply ws_reduce_task. by apply (later_reduce_ok c).
    + done.
  - injection Hget as <- <-. unfold got. split_and!; [|by rewrite E|..|by rewrite E].
    + split; [done| |by rewrite E|by rewrite E; simpl; lia| |by rewrite E].
      * intros j x Hx. rewrite E. simpl. apply currentTxn_insert. lia.
      * intros j. rewrite E. simpl. by apply completed_busy.
    + intros d. by apply ws_map_task.
    + done.
Qed.

Lemma expired_ok (txns : gmap Z transaction) now indexs :
  indexs ≡ₚ (map_to_list (expired txns now)).*1 →
  NoDup indexs ∧ ∀ i, i ∈ indexs ↔ ∃ t, txns !! i = Some t ∧ now - beginTime t > TIMEOUTLIMIT * Second.
Proof.
  intros Hp. split; [rewrite Hp; apply NoDup_fst_map_to_list|]. intros i.
  rewrite Hp, list_elem_of_fmap. split.
  - intros ([j t] & -> & [? ?]%elem_of_map_to_list%map_lookup_filter_Some). by exists t.
  - intros (t & ? & ?). exists (i, t). split; [done|]. by apply elem_of_map_to_list, map_lookup_filter_Some.
Qed.

(** Transactions that were ended. *)
Lemma currentTxn_fewer txns txns' (indexs : list Z) i x :
  (∀ j, j ∈ indexs → txns' !! j = None) → (∀ j, j ∉ indexs → txns' !! j = txns !! j) →
  currentTxn txns' i x = true → currentTxn txns i x = true.
Proof.
  intros Hno Hyes. unfold currentTxn. destruct (decide (i ∈ indexs)) as [Hi|Hi]; [by rewrite Hno|by rewrite Hyes].
Qed.

Lemma InspectMapTasks_later c indexs now :
  coord_ok files nReduce c → indexs ≡ₚ (map_to_list (expired (MTaskProcessingTxn c) now)).*1 →
  later c (InspectMapTasks c indexs) ∧ ReduceTaskStatus (InspectMapTasks c indexs) = ReduceTaskStatus c.
Proof.
  intros Hc [Hnd Hidx]%expired_ok.
  destruct (InspectMapTasks_spec files nReduce c indexs) as (? & ? & ? & ? & E & _ & ? & ? & ?); [done|done| |].
  { intros i (t & -> & _)%Hidx. by eexists. }
  split; [|done]. split; [done| |by rewrite E|lia|done|done]. intros i x _. by eapply currentTxn_fewer.
Qed.

Lemma InspectReduceTasks_later c indexs now :
  coord_ok files nReduce c → indexs ≡ₚ (map_to_list (expired (RTaskProcessingTxn c) now)).*1 →
  later c (InspectReduceTasks c indexs) ∧
  (∀ r, ReduceTaskStatus (InspectReduceTasks c indexs) !! r = Some COMPLETED ↔ ReduceTaskStatus c !! r = Some COMPLETED).
Proof.
  intros Hc [Hnd Hidx]%expired_ok.
  destruct (InspectReduceTasks_spec files nReduce c indexs) as (? & ? & ? & E & E' & _ & ? & ? & ?); [done|done| |].
  { intros i (t & -> & _)%Hidx. by eexists. }
  split; [|done]. split; [done|by rewrite E'| |lia|by rewrite E|done]. intros i x _. by eapply currentTxn_fewer.
Qed.

Lemma ReduceTaskDone_later c r txn c' ok :
  coord_ok files nReduce c → ReduceTaskDone c (mkReply r txn []) = Ret (c', ok) →
  later c c' ∧ ∀ r', ReduceTaskStatus c' !! r' = Some COMPLETED →
    ReduceTaskStatus c !! r' = Some COMPLETED ∨ r' = r ∧ currentTxn (RTaskProcessingTxn c) r txn = true.
Proof.
  intros Hc Hrep. destruct (ReduceTaskDone_spec files nReduce c r txn Hc) as [Hr|(t & c1 & Ht & Hx & Hr & Hc1 & E)];
    rewrite Hrep in Hr; injection Hr as -> ->; [split; [by apply later_refl|by left]|].
  subst c1. split.
  - split; simpl; [done|done| |lia|done|done]. intros i x _. apply currentTxn_delete.
  - intros r'. simpl. intros [[<- _]|[_ ?]]%lookup_insert_Some; [right|by left]. split; [done|].
    unfold currentTxn. rewrite Ht. by apply Z.eqb_eq.
Qed.

(** A map task is completed: all that the others rely on is that its
    transaction has ended, as no reduce task has started. *)
Record map_completed (c c' : Coordinator) (i txn : Z) : Prop := {
  mc_current : currentTxn (MTaskProcessingTxn c) i txn = true;
  mc_no_reduce : ¬ maps_done files c;
  mc_map : MTaskProcessingTxn c' = delete i (MTaskProcessingTxn c);
  mc_reduce : RTaskProcessingTxn c' = RTaskProcessingTxn c;
  mc_next : NextTxnID c' = NextTxnID c;
  mc_status r : ReduceTaskStatus c' !! r = Some COMPLETED → ReduceTaskStatus c !! r = Some COMPLETED;
}.

Lemma names_for_snoc order i r :
  files_of (order ++ [i]) r =
    files_of order r ++ if decide (r ∈ bucket_of <$> pairs_of i) then [iFileName i r] else [].
Proof. unfold names_for, for_bucket. rewrite filter_app, fmap_app, filter_cons, filter_nil. by case_decide. Qed.

Lemma maps_not_done c i : coord_ok files nReduce c → 0 ≤ i < zlen files →
  is_Some (MTaskProcessingTxn c !! i) → ¬ maps_done files c.
Proof.
  intros Hc Hi Hb Hd. apply (po_busy _ _ _ _ _ _ (co_map _ _ _ Hc)) in Hb. rewrite (Hd i Hi) in Hb. done.
Qed.

Context (Hn : 0 < nReduce < 2 ^ 63).

Lemma inv_map_report c d ws rs order i txn bs c' ok :
  sys_inv (mkSys c d ws rs) order → 0 ≤ i < zlen files → NoDup bs →
  (∀ r, r ∈ bs ↔ r ∈ bucket_of <$> pairs_of i) →
  (∀ r, r ∈ bs → is_Some (intermediate d !! iFileName i r)) →
  MapTaskDone c (mkReply i txn (iFileName i <$> bs)) = Ret (c', ok) →
  c' = c ∨ sys_inv (mkSys c' d ws rs) (order ++ [i]) ∧ map_completed c c' i txn.
Proof.
  intros Hs Hi Hnd Hbs Hex Hrep. pose proof (si_coord _ _ Hs) as Hc. simpl in Hc.
  destruct (MapTaskDone_spec files nReduce c i txn bs Hc Hnd) as
    [Hr|(t & c1 & Ht & Hx & _ & Hr & Hc1 & En & Est & Em & Er & Hnm & Hrd)].
  { intros r (kv & -> & _)%Hbs%list_elem_of_fmap. pose proof (bucket_range nReduce Hn kv). lia. }
  { rewrite Hrep in Hr. injection Hr as -> ->. by left. }
  rewrite Hrep in Hr. injection Hr as -> ->. right.
  assert (¬ maps_done files c) as Hnot by (eapply maps_not_done; eauto).
  assert (MapTaskStatus c !! i = Some INPROGRESS) as Hst.
  { apply (po_busy _ _ _ _ _ _ (co_map _ _ _ Hc)). by eexists. }
  split.
  2:{ split; [|done|done|done|done|by intros r ?%Hrd]. unfold currentTxn. rewrite Ht. by apply Z.eqb_eq. }
  destruct Hs as [_ Hin Hndo Hord Hnm0 Hex0 Hws Hrs Hout]. split; simpl in *; try done.
  - apply NoDup_snoc; [|done]. rewrite Hord. congruence.
  - intros j. rewrite elem_of_app, list_elem_of_singleton, Hord, Est.
    destruct (decide (j = i)) as [->|Hne]; [rewrite lookup_insert_eq; naive_solver|].
    rewrite lookup_insert_ne by done. naive_solver.
  - intros r. rewrite Hnm, Hnm0, names_for_snoc. f_equal.
    destruct (decide (r ∈ bs)) as [Hr|Hr]; rewrite Hbs in Hr; [by rewrite decide_True|by rewrite decide_False].
  - intros r nm. rewrite Hnm, elem_of_app. intros [?|Hin']; [by eapply Hex0|].
    case_decide; [|by apply not_elem_of_nil in Hin']. apply list_elem_of_singleton in Hin' as ->. by apply Hex.
  - intros w Hw. eapply worker_shape_mono; [|done|by apply Hws]. by intros r [? _].
Qed.

(** *** A turn *)

Context (sortf_perm : ∀ l, sortf l ≡ₚ l) (sortf_sorted : ∀ l, Sorted key_le (sortf l)).
Context (Hfiles : ∀ f, f ∈ files → is_Some (texts !! f)).

Lemma inv_turn_shape c d w ws rs chunk order :
  sys_inv (mkSys c d ws rs) order → w ∈ ws →
  ∃ d' res, turn chunk d w = Ret (d', res) ∧ inputs d' = texts ∧
    (∀ nm, is_Some (intermediate d !! nm) → is_Some (intermediate d' !! nm)) ∧
    (∀ nm, is_Some (outputs d' !! nm) → is_Some (outputs d !! nm) ∨ ∃ r, nm = oFileName r ∧ reduce_ok files c r) ∧
    res_shape mapf files nReduce texts c d' res ∧ same_task (w_task w) res.
Proof.
  intros Hs Hw. apply turn_shape; [done|done|by apply (si_workers _ _ Hs)|apply (si_inputs _ _ Hs)|apply (si_exist _ _ Hs)].
Qed.

Lemma elem_of_still w res : w ∈ still res ↔ res = inl w.
Proof. destruct res; simpl; [rewrite list_elem_of_singleton|rewrite elem_of_nil]; naive_solver. Qed.

Lemma elem_of_told p res : p ∈ told res ↔ res = inr p.
Proof. destruct res; simpl; [rewrite elem_of_nil|rewrite list_elem_of_singleton]; naive_solver. Qed.

Lemma in_middle {A} (l1 : list A) x l2 : x ∈ l1 ++ x :: l2.
Proof. apply elem_of_app. right. by left. Qed.

Lemma inv_turn c d ws1 w ws2 rs chunk d' res order :
  sys_inv (mkSys c d (ws1 ++ w :: ws2) rs) order → turn chunk d w = Ret (d', res) →
  sys_inv (mkSys c d' (ws1 ++ still res ++ ws2) (told res ++ rs)) order.
Proof.
  intros Hs Hturn.
  destruct (inv_turn_shape c d w _ rs chunk order Hs (in_middle _ _ _)) as (d1 & res1 & E & Hin' & Hkeep & Hout' & Hres & _).
  rewrite Hturn in E. injection E as <- <-.
  destruct (id Hs) as [Hc Hin Hnd Hord Hnm Hex Hws Hrs Hout]. split; simpl in *; try done.
  - intros r nm Hr. by eapply Hkeep, Hex.
  - intros w' Hw'. rewrite !elem_of_app, elem_of_still in Hw'.
    destruct Hw' as [Hw'|[-> |Hw']]; [|done|]; (eapply worker_shape_mono; [|exact Hkeep|apply Hws]; [done|]).
    + apply elem_of_app. by left.
    + apply elem_of_app. right. by right.
  - intros p Hp. rewrite elem_of_app, elem_of_told in Hp. destruct Hp as [->|Hp]; [done|].
    eapply report_shape_mono; [exact Hkeep|by apply Hrs].
  - intros nm [?|(r & -> & _ & Hr)]%Hout'; [by apply Hout|]. exists r. split; [done|].
    by eapply (reduce_task_bucket _ _ r Hs).
Qed.

(** *** Every step *)

Lemma inv_report_step c d ws rs1 p rs2 c' ok order :
  sys_inv (mkSys c d ws (rs1 ++ p :: rs2)) order → report c p = Ret (c', ok) →
  ∃ order', sys_inv (mkSys c' d ws (rs1 ++ rs2)) order' ∧
    (order' = order ∧ later c c' ∧
       (∀ r, ReduceTaskStatus c' !! r = Some COMPLETED → ReduceTaskStatus c !! r = Some COMPLETED ∨
          p.1 = false ∧ r_Index p.2 = r ∧ currentTxn (RTaskProcessingTxn c) r (r_TxnID p.2) = true) ∨
     p.1 = true ∧ order' = order ++ [r_Index p.2] ∧ map_completed c c' (r_Index p.2) (r_TxnID p.2)).
Proof.
  intros Hs Hrep. assert (rep_shape d p) as Hp by (apply (si_reports _ _ Hs), in_middle).
  apply (inv_fewer _ _ _ _ ws (rs1 ++ rs2)) in Hs; [|done|apply sublist_drop]. pose proof (si_coord _ _ Hs) as Hc. simpl in Hc.
  destruct Hp as [i txn bs Hi Hnd Hbs Hex|r txn]; unfold report in Hrep; simpl in Hrep.
  - destruct (inv_map_report c d ws (rs1 ++ rs2) order i txn bs c' ok) as [->|[Hs' Hmc]]; [done..| |].
    + exists order. split; [done|]. left. split_and!; [done|by apply later_refl|by left].
    + exists (order ++ [i]). split; [done|]. by right.
  - destruct (ReduceTaskDone_later c r txn c' ok Hc Hrep) as [Hl Hst]. exists order.
    split; [by eapply inv_coord|]. left. split_and!; [done|done|]. intros r' [?|[-> ?]]%Hst; [by left|by right].
Qed.

Lemma mr_inv_init s : sys_init s → sys_inv s [].
Proof.
  destruct s as [c d ws rs]. intros (Hc & Hin & Hout & Hws & Hrs). simpl in *. subst c ws rs.
  destruct (MakeCoordinator_ok files nReduce) as (Hc & Hr & Hrst & Hm). split; simpl; try done.
  - constructor.
  - intros i. rewrite elem_of_nil. split; [done|]. by intros ?%Hm.
  - intros r. unfold names_of. by rewrite Hr, lookup_empty.
  - intros r nm. unfold names_of. rewrite Hr, lookup_empty. by intros ?%not_elem_of_nil.
  - by intros i ?%not_elem_of_nil.
  - by intros i ?%not_elem_of_nil.
  - intros nm. rewrite Hout, lookup_empty. by intros [].
Qed.

Lemma mr_inv_step s s' order : sys_inv s order → sys_step s s' → ∃ order', sys_inv s' order'.
Proof.
  intros Hs Hstep. destruct Hstep as [c d ws rs now c' t Hget|c d ws1 w ws2 rs chunk d' res _ Hturn|c d ws1 w ws2 rs
    |c d ws rs1 p rs2 c' ok Hrep|c d ws rs1 p rs2|c d ws rs indexs now Hidx|c d ws rs indexs now Hidx];
    pose proof (si_coord _ _ Hs) as Hc; simpl in Hc.
  - exists order. destruct (GetTask_later c now c' (Got t) Hc Hget) as (Hl & _ & Hg & _).
    apply (inv_coord c c') in Hs; [|done]. destruct Hs. split; simpl in *; try done.
    intros w [->|?]%elem_of_cons; auto.
  - exists order. by eapply inv_turn.
  - exists order. eapply inv_fewer; [done|apply sublist_drop|done].
  - destruct (inv_report_step c d ws rs1 p rs2 c' ok order Hs Hrep) as (order' & ? & _). by exists order'.
  - exists order. eapply inv_fewer; [done|done|apply sublist_drop].
  - exists order. eapply inv_coord; [done|]. by eapply InspectMapTasks_later.
  - exists order. eapply inv_coord; [done|]. by eapply InspectReduceTasks_later.
Qed.

Lemma sys_reachable_inv s : sys_reachable s → ∃ order, sys_inv s order.
Proof.
  intros (s0 & Hinit & Hrtc). assert (∃ order, sys_inv s0 order) as Hinv by (exists []; by apply mr_inv_init).
  clear Hinit. induction Hrtc as [|s0 s1 s2 Hstep _ IH]; [done|]. destruct Hinv as [order Hinv].
  apply IH. by eapply mr_inv_step.
Qed.

(** ** What is on the disk, when no worker writes too late *)

Definition txns (s : Sys) : list Z :=
  ((λ w, TxnID (w_task w)) <$> workers s) ++ ((λ p : Report, r_TxnID p.2) <$> reports s).

Record sys_content (s : Sys) (order : list Z) : Prop := {
  sc_written i : i ∈ order → complete (disk s) i;
  sc_workers w : w ∈ workers s → holds order (coord s) (disk s) w;
  sc_reports p : p ∈ reports s → rep_holds (coord s) (disk s) p;
  sc_reduced r : ReduceTaskStatus (coord s) !! r = Some COMPLETED → out_right (disk s) r;
  sc_nodup : NoDup (txns s);
  sc_next x : x ∈ txns s → x < NextTxnID (coord s);
}.

Lemma worker_txn s w : w ∈ workers s → TxnID (w_task w) ∈ txns s.
Proof. intros. apply elem_of_app. left. apply list_elem_of_fmap. by exists w. Qed.

Lemma report_txn s p : p ∈ reports s → r_TxnID p.2 ∈ txns s.
Proof. intros. apply elem_of_app. right. apply list_elem_of_fmap. by exists p. Qed.

(** The coordinator goes on; [order'] may have more tasks, if no reduce task has
    started. *)
Lemma content_moves c c' d ws rs order order' :
  sys_inv (mkSys c d ws rs) order → sys_content (mkSys c d ws rs) order →
  (∀ i x, x < NextTxnID c → currentTxn (MTaskProcessingTxn c') i x = true → currentTxn (MTaskProcessingTxn c) i x = true) →
  (∀ i x, x < NextTxnID c → currentTxn (RTaskProcessingTxn c') i x = true → currentTxn (RTaskProcessingTxn c) i x = true) →
  NextTxnID c ≤ NextTxnID c' → (maps_done files c → order' = order) →
  (∀ i, i ∈ order' → complete d i) → (∀ r, ReduceTaskStatus c' !! r = Some COMPLETED → out_right d r) →
  sys_content (mkSys c' d ws rs) order'.
Proof.
  intros Hs [Hw Hws Hrs Hred Hnd Hnx] Hm Hr Hle Hord Hw' Hred'. split; simpl in *; try done.
  - intros w Hin. assert (TxnID (w_task w) < NextTxnID c) as Hx by by apply Hnx, worker_txn.
    apply (content_coord mapf reducef files nReduce texts c c' d w order order').
    + unfold current. destruct (IsMapTask (w_task w)); auto.
    + intros r [Hd _]. by rewrite Hord.
    + by apply (si_workers _ _ Hs).
    + by apply Hws.
  - intros p Hin. assert (r_TxnID p.2 < NextTxnID c) as Hx.
    { apply Hnx. by apply (report_txn (mkSys c d ws rs)). }
    apply (report_content_coord mapf reducef files nReduce texts c); auto.
  - intros x Hx%Hnx. lia.
Qed.

Lemma content_later c c' d ws rs order :
  sys_inv (mkSys c d ws rs) order → sys_content (mkSys c d ws rs) order → later c c' →
  (∀ r, ReduceTaskStatus c' !! r = Some COMPLETED → ReduceTaskStatus c !! r = Some COMPLETED ∨ out_right d r) →
  sys_content (mkSys c' d ws rs) order.
Proof.
  intros Hs Hc [Hok Hm Hr Hle Hdone Htasks] Hred. apply (content_moves c c' d ws rs order); try done.
  - apply (sc_written _ _ Hc).
  - intros r [Hst|?]%Hred; [by apply (sc_reduced _ _ Hc r)|done].
Qed.

Lemma content_fewer c d ws rs ws' rs' order :
  sys_content (mkSys c d ws rs) order → ws' `sublist_of` ws → rs' `sublist_of` rs → sys_content (mkSys c d ws' rs') order.
Proof.
  intros [Hw Hws Hrs Hred Hnd Hnx] Hsw Hsr.
  assert (sublist (txns (mkSys c d ws' rs')) (txns (mkSys c d ws rs))) as Htx.
  { apply sublist_app; simpl; by f_equiv. }
  split; simpl in *; try done.
  - intros w ?. apply Hws. by eapply elem_of_sublist.
  - intros p ?. apply Hrs. by eapply elem_of_sublist.
  - by eapply sublist_NoDup.
  - intros x ?. apply Hnx. by eapply elem_of_sublist.
Qed.

Lemma sublist_remove {A} (l1 : list A) x l2 : (l1 ++ l2) `sublist_of` (l1 ++ x :: l2).
Proof. apply sublist_app; [done|]. by apply sublist_cons. Qed.

Lemma not_busy ids st tx idle cnt next i x :
  pool ids st tx idle cnt next → st !! i = Some COMPLETED → currentTxn tx i x = false.
Proof.
  intros Hp Hst. apply not_true_is_false. intros Hb%currentTxn_Some.
  apply (po_busy _ _ _ _ _ _ Hp) in Hb. congruence.
Qed.

(** The transactions of the others are other transactions. *)
Lemma txns_middle c d ws1 w ws2 rs :
  txns (mkSys c d (ws1 ++ w :: ws2) rs) ≡ₚ TxnID (w_task w) :: txns (mkSys c d (ws1 ++ ws2) rs).
Proof. unfold txns. simpl. rewrite !fmap_app, fmap_cons, <-!app_assoc. symmetry. apply Permutation_middle. Qed.

Lemma txns_turn c d d' ws1 w ws2 rs res :
  same_task (w_task w) res →
  txns (mkSys c d' (ws1 ++ still res ++ ws2) (told res ++ rs)) ≡ₚ txns (mkSys c d (ws1 ++ w :: ws2) rs).
Proof.
  intros Hsame. rewrite txns_middle. destruct res as [w'|p]; simpl in Hsame |- *.
  - rewrite txns_middle, Hsame. done.
  - destruct Hsame as (_ & _ & <-). unfold txns. simpl. by rewrite Permutation_middle.
Qed.

Lemma or_assoc_comm (P Q R : Prop) : P ∨ Q ∨ R ↔ Q ∨ P ∨ R.
Proof. tauto. Qed.

Lemma content_turn c d ws1 w ws2 rs chunk d' res order :
  sys_inv (mkSys c d (ws1 ++ w :: ws2) rs) order → sys_content (mkSys c d (ws1 ++ w :: ws2) rs) order →
  on_time c w → turn chunk d w = Ret (d', res) →
  sys_content (mkSys c d' (ws1 ++ still res ++ ws2) (told res ++ rs)) order.
Proof.
  intros Hs Hcont Hon Hturn. pose proof (in_middle ws1 w ws2) as Hin.
  destruct (inv_turn_shape c d w _ rs chunk order Hs Hin) as (d1 & res1 & E & _ & _ & _ & _ & Hsame).
  rewrite Hturn in E. injection E as <- <-.
  assert (shape c d w) as Hw by by apply (si_workers _ _ Hs).
  pose proof (turn_effect mapf reducef sortf files nReduce texts Hn c d w chunk d' res Hw Hon Hturn) as He.
  assert (res_content mapf reducef files nReduce texts order c d' res) as Hres.
  { eapply (turn_content mapf reducef sortf sortf_perm sortf_sorted files nReduce texts Hn c d w chunk order);
      [done|by apply (sc_workers _ _ Hcont)|apply (si_names _ _ Hs)|apply (sc_written _ _ Hcont)| |done].
    apply (order_all _ _ Hs). }
  pose proof (sc_nodup _ _ Hcont) as Hnd. rewrite txns_middle in Hnd. apply NoDup_cons in Hnd as [Hother _].
  split; simpl.
  - intros i Hi. eapply effect_written; [done|exact He|by apply (order_range _ _ _ Hs Hi)| |by apply (sc_written _ _ Hcont)].
    eapply not_busy; [apply (co_map _ _ _ (si_coord _ _ Hs))|by apply (si_order _ _ Hs)].
  - intros w' Hw'. rewrite !elem_of_app, elem_of_still, or_assoc_comm in Hw'. destruct Hw' as [->|Hw']; [done|].
    assert (w' ∈ ws1 ++ w :: ws2) as Hin' by (apply (elem_of_sublist (ws1 ++ ws2)); [by apply elem_of_app|apply sublist_remove]).
    apply (effect_content mapf reducef files nReduce texts c _ d d' w' order He).
    + by apply (si_workers _ _ Hs).
    + intros Heq. apply Hother. rewrite <-Heq. apply worker_txn. simpl. by apply elem_of_app.
    + by apply (sc_workers _ _ Hcont).
  - intros p Hp. rewrite elem_of_app, elem_of_told in Hp. destruct Hp as [->|Hp]; [done|].
    apply (effect_report mapf reducef files nReduce texts Hn c _ d d' p He).
    + by apply (si_reports _ _ Hs).
    + intros Heq. apply Hother. rewrite <-Heq. by apply (report_txn (mkSys c d (ws1 ++ ws2) rs)).
    + by apply (sc_reports _ _ Hcont).
  - intros r Hst. eapply effect_out_ok; [exact He| |by apply (sc_reduced _ _ Hcont r)].
    by eapply not_busy; [apply (co_reduce _ _ _ (si_coord _ _ Hs))|].
  - rewrite txns_turn by done. apply Hcont.
  - intros x Hx. apply (sc_next _ _ Hcont). simpl. by rewrite <-(txns_turn c d d' ws1 w ws2 rs res).
Qed.

Lemma content_report c d ws rs1 p rs2 c' ok order :
  sys_inv (mkSys c d ws (rs1 ++ p :: rs2)) order → sys_content (mkSys c d ws (rs1 ++ p :: rs2)) order →
  report c p = Ret (c', ok) →
  ∃ order', sys_inv (mkSys c' d ws (rs1 ++ rs2)) order' ∧ sys_content (mkSys c' d ws (rs1 ++ rs2)) order'.
Proof.
  intros Hs Hcont Hrep. assert (rep_holds c d p) as Hp by (apply (sc_reports _ _ Hcont), in_middle).
  destruct (inv_report_step c d ws rs1 p rs2 c' ok order Hs Hrep) as (order' & Hs' & Hcase).
  apply (inv_fewer _ _ _ _ ws (rs1 ++ rs2)) in Hs; [|done|apply sublist_drop].
  apply (content_fewer _ _ _ _ ws (rs1 ++ rs2)) in Hcont; [|done|apply sublist_remove].
  exists order'. split; [done|]. unfold report_content in Hp.
  destruct Hcase as [(-> & Hl & Hst)|(Hb & -> & [Hcur Hno Em Er En Hst])].
  - apply (content_later c); [done..|]. intros r [?|(Hb & <- & Hcur)]%Hst; [by left|right]. rewrite Hb in Hp. by apply Hp.
  - rewrite Hb in Hp. apply (content_moves c c' d ws _ order); [done|done| |by rewrite Er|lia|done| |].
    + intros i x _. rewrite Em. apply currentTxn_delete.
    + intros i [Hi| ->%list_elem_of_singleton]%elem_of_app; [by apply (sc_written _ _ Hcont)|by apply Hp].
    + intros r Hr%Hst. by apply (sc_reduced _ _ Hcont r).
Qed.

Context (punctual : ∀ c w, may_run c w → on_time c w).

Lemma content_step s s' order :
  sys_inv s order → sys_content s order → sys_step s s' → ∃ order', sys_inv s' order' ∧ sys_content s' order'.
Proof.
  intros Hs Hcont Hstep. destruct Hstep as [c d ws rs now c' t Hget|c d ws1 w ws2 rs chunk d' res Hmay Hturn|c d ws1 w ws2 rs
    |c d ws rs1 p rs2 c' ok Hrep|c d ws rs1 p rs2|c d ws rs indexs now Hidx|c d ws rs indexs now Hidx];
    pose proof (si_coord _ _ Hs) as Hc; simpl in Hc.
  - exists order. destruct (GetTask_later c now c' (Got t) Hc Hget) as (Hl & Hred & Hg & Ht & Hx).
    assert (NextTxnID c ∉ txns (mkSys c d ws rs)) as Hfresh.
    { intros Hin%(sc_next _ _ Hcont). simpl in Hin. lia. }
    apply (content_later c c') in Hcont; [|done|done|intros r ?%Hred; by left].
    apply (inv_coord c c') in Hs; [|done]. split.
    + destruct Hs. split; simpl in *; try done. intros w [->|?]%elem_of_cons; auto.
    + pose proof (la_next _ _ Hl). pose proof (sc_next _ _ Hcont) as Hnx.
      destruct Hcont. split; simpl in *; try done.
      * intros w [->|?]%elem_of_cons; [done|auto].
      * unfold txns. simpl. apply NoDup_cons. by rewrite Ht.
      * unfold txns. simpl. intros x [->|?]%elem_of_cons; [lia|by apply Hnx].
  - exists order. split; [by eapply inv_turn|]. eapply content_turn; [done|done|by apply punctual|done].
  - exists order. split; [eapply inv_fewer; [done|apply sublist_drop|done]|].
    eapply content_fewer; [done|apply sublist_remove|done].
  - by eapply content_report.
  - exists order. split; [eapply inv_fewer; [done|done|apply sublist_drop]|].
    eapply content_fewer; [done|done|apply sublist_remove].
  - exists order. destruct (InspectMapTasks_later c indexs now Hc Hidx) as [Hl E].
    split; [by eapply inv_coord|]. eapply content_later; [done|done|done|]. rewrite E. by left.
  - exists order. destruct (InspectReduceTasks_later c indexs now Hc Hidx) as [Hl E].
    split; [by eapply inv_coord|]. eapply content_later; [done|done|done|]. intros r ?%E. by left.
Qed.

Lemma Done_iff c : coord_ok files nReduce c →
  Done c = true ↔ maps_done files c ∧
    ∀ r, is_Some (ReduceTasks c !! r) → ReduceTaskStatus c !! r = Some COMPLETED.
Proof.
  intros Hc. unfold Done. rewrite andb_true_iff, !Z.geb_leb, !Z.leb_le.
  by rewrite (co_maps_done _ _ _ Hc), (co_reduces_done _ _ _ Hc).
Qed.

Lemma sys_reachable_content s : sys_reachable s → ∃ order, sys_inv s order ∧ sys_content s order.
Proof.
  intros (s0 & Hinit & Hrtc). assert (∃ order, sys_inv s0 order ∧ sys_content s0 order) as Hinv.
  { exists []. split; [by apply mr_inv_init|]. destruct s0 as [c d ws rs].
    destruct Hinit as (Hc & _ & _ & Hws & Hrs). simpl in *. subst c ws rs.
    destruct (MakeCoordinator_ok files nReduce) as (_ & _ & Hst & _).
    split; simpl; try (by intros ? ?%not_elem_of_nil); [|constructor].
    intros r. by rewrite Hst, lookup_empty. }
  clear Hinit. induction Hrtc as [|s0 s1 s2 Hstep _ IH]; [done|]. destruct Hinv as (order & Hs & Hcont).
  apply IH. by eapply content_step.
Qed.

(** When the job is done the output file of every bucket in use is right. *)
Lemma Done_out_ok s :
  sys_reachable s → Done (coord s) = true →
  (∀ nm, is_Some (outputs (disk s) !! nm) → ∃ r, nm = oFileName r ∧ r ∈ bucket_of <$> all_pairs) ∧
  ∀ r, r ∈ bucket_of <$> all_pairs → out_right (disk s) r.
Proof.
  intros (order & Hs & Hcont)%sys_reachable_content Hdone. split; [apply (si_outputs _ _ Hs)|].
  apply Done_iff in Hdone as [Hm Hr]; [|apply Hs]. intros r (kv & -> & Hkv)%list_elem_of_fmap.
  apply (sc_reduced _ _ Hcont), Hr.
  apply list_elem_of_In, in_concat in Hkv as (l & Hl%list_elem_of_In & Hkv%list_elem_of_In).
  apply list_elem_of_fmap in Hl as (i & -> & Hi%elem_of_seqZ).
  assert (iFileName i (bucket_of kv) ∈ names_of (coord s) (bucket_of kv)) as Hnm.
  { rewrite (si_names _ _ Hs). unfold names_for. apply list_elem_of_fmap. exists i. split; [done|].
    apply elem_of_for_bucket. split; [by apply list_elem_of_fmap_2|]. apply (si_order _ _ Hs), Hm. lia. }
  unfold names_of in Hnm. destruct (ReduceTasks (coord s) !! bucket_of kv); [by eexists|].
  by apply not_elem_of_nil in Hnm.
Qed.

Lemma elem_of_in_bucket kv r kvs : kv ∈ in_bucket nReduce r kvs ↔ bucket_of kv = r ∧ kv ∈ kvs.
Proof. unfold in_bucket. by rewrite list_elem_of_filter. Qed.

Lemma out_ok_lines d r :
  out_right d r → ∃ gs, outputs d !! oFileName r = Some (lines reducef gs) ∧ NoDup gs.*1 ∧
    (∀ k, k ∈ gs.*1 ↔ ∃ kv, kv ∈ all_pairs ∧ clean (Key kv) = k ∧ bucket_of kv = r) ∧
    (∀ k vs, (k, vs) ∈ gs → vs ≡ₚ values_of k (clean_kv <$> in_bucket nReduce r all_pairs)).
Proof.
  intros (kvs & Hp & Hsort & Hout). destruct (groups_spec kvs Hsort) as (Hnd & Hin & Hval).
  exists (groups kvs). split_and!; [done|done| |].
  - intros k. rewrite Hin, list_elem_of_fmap. setoid_rewrite Hp. setoid_rewrite list_elem_of_fmap.
    setoid_rewrite elem_of_in_bucket. split.
    + intros (kv' & -> & kv & -> & Hb & Hkv). by exists kv.
    + intros (kv & Hkv & <- & Hb). exists (clean_kv kv). split; [done|]. by exists kv.
  - intros k vs Hk. by rewrite (Hval _ _ Hk), (values_of_Permutation k _ _ Hp).
Qed.

(** C9: the job is right.  Whatever the interleaving of the turns of any number
    of workers (each turn is one operation on a file), of deaths of workers in
    the middle of a file, of lost reports and of timeouts, once the coordinator
    says [Done] there is one output file for every bucket in use and no other;
    the file of bucket [r] has exactly one line for every key the map function
    emitted with this bucket, and the line is the reduce function's result on
    all values emitted for the key on all inputs.  Keys and values are as JSON
    gives them back: bytes that are not UTF-8 are replaced ([clean]; keys of one
    bucket that become equal share a line).  The condition, which the code does
    not enforce: a worker whose task was taken away from it after the timeout
    does not write to a file any more. *)
Theorem mapreduce_correct s :
  sys_reachable s → Done (coord s) = true →
  (∀ nm, is_Some (outputs (disk s) !! nm) → ∃ r, nm = oFileName r ∧ r ∈ bucket_of <$> all_pairs) ∧
  ∀ r, r ∈ bucket_of <$> all_pairs →
    ∃ gs, outputs (disk s) !! oFileName r = Some (lines reducef gs) ∧ NoDup gs.*1 ∧
      (∀ k, k ∈ gs.*1 ↔ ∃ kv, kv ∈ all_pairs ∧ clean (Key kv) = k ∧ bucket_of kv = r) ∧
      (∀ k vs, (k, vs) ∈ gs → vs ≡ₚ values_of k (clean_kv <$> in_bucket nReduce r all_pairs)).
Proof.
  intros Hs Hdone. destruct (Done_out_ok s Hs Hdone) as [Hnm Hok]. split; [done|].
  intros r Hr. by apply out_ok_lines, Hok.
Qed.

Lemma GetTask_returns c now : coord_ok files nReduce c → returns (GetTask c now).
Proof.
  intros Hc. unfold GetTask. destruct (GetMapTask_spec files nReduce c now Hc) as (c1 & a1 & -> & Hc1 & Ha).
  rewrite bind_Ret. destruct Ha as [(-> & -> & _)|[(-> & -> & Hmd)|(i & f & _ & _ & _ & -> & _)]]; [by eexists| |by eexists].
  destruct (GetReduceTask_spec files nReduce c now Hc Hmd) as (c2 & a2 & -> & _). by eexists.
Qed.

(** the coordinator and the workers never fail, whatever the workers do.  In
    every reachable state a request for a task returns, a worker's turn returns,
    a worker that runs alone comes to its report, and every report is processed
    without a panic; each map task is queued once, or in progress under one
    transaction, or completed; and [Done] holds exactly when every map task and
    every reduce task is completed. *)
Theorem mapreduce_safe s :
  sys_reachable s →
  (∀ now, returns (GetTask (coord s) now)) ∧
  (∀ w chunk, w ∈ workers s →
     returns (turn chunk (disk s) w) ∧ finishes mapf reducef sortf chunk (disk s) w) ∧
  (∀ p, p ∈ reports s → returns (report (coord s) p)) ∧
  NoDup (IdleMapTask (coord s)) ∧
  (∀ i, 0 ≤ i < zlen files →
     (i ∈ IdleMapTask (coord s) ∧ MTaskProcessingTxn (coord s) !! i = None) ∨
     (i ∉ IdleMapTask (coord s) ∧ is_Some (MTaskProcessingTxn (coord s) !! i)) ∨
     (i ∉ IdleMapTask (coord s) ∧ MTaskProcessingTxn (coord s) !! i = None ∧
        MapTaskStatus (coord s) !! i = Some COMPLETED)) ∧
  (Done (coord s) = true ↔
     (∀ i, 0 ≤ i < zlen files → MapTaskStatus (coord s) !! i = Some COMPLETED) ∧
     (∀ r, is_Some (ReduceTasks (coord s) !! r) → ReduceTaskStatus (coord s) !! r = Some COMPLETED)).
Proof.
  intros [order Hs]%sys_reachable_inv. pose proof (si_coord _ _ Hs) as Hc.
  pose proof (co_map _ _ _ Hc) as Hp. split_and!; [|intros w chunk Hw|intros p Hr|apply Hp|intros i Hi|by apply Done_iff].
  - intros now. by apply GetTask_returns.
  - split.
    + destruct s as [c d ws rs]. destruct (inv_turn_shape c d w ws rs chunk order Hs Hw) as (d' & res & E & _). by eexists.
    + eapply worker_finishes; [done|done|by apply (si_workers _ _ Hs)|apply (si_inputs _ _ Hs)|apply (si_exist _ _ Hs)].
  - destruct (si_reports _ _ Hs _ Hr) as [i txn rs Hi Hnd Hrs _|r txn]; unfold report; simpl.
    + destruct (MapTaskDone_spec files nReduce (coord s) i txn rs Hc Hnd) as [->|(? & ? & _ & _ & _ & -> & _)]; [|by eexists..].
      intros r (kv & -> & _)%Hrs%list_elem_of_fmap. pose proof (bucket_range nReduce Hn kv). lia.
    + destruct (ReduceTaskDone_spec files nReduce (coord s) r txn Hc) as [->|(? & ? & _ & _ & -> & _)]; by eexists.
  - assert (is_Some (MapTaskStatus (coord s) !! i)) as [st Hst].
    { apply elem_of_dom. rewrite (po_ids _ _ _ _ _ _ Hp). by apply elem_of_map_ids. }
    rewrite (po_idle _ _ _ _ _ _ Hp). rewrite eq_None_not_Some, (po_busy _ _ _ _ _ _ Hp).
    rewrite Hst. destruct st; naive_solver.
Qed.

Lemma all_expired (txns : gmap Z transaction) now indexs :
  indexs ≡ₚ (map_to_list (expired txns now)).*1 →
  (∀ i t, txns !! i = Some t → now - beginTime t > TIMEOUTLIMIT * Second) →
  NoDup indexs ∧ ∀ i, i ∈ indexs ↔ is_Some (txns !! i).
Proof.
  intros [Hnd Hidx]%expired_ok Hall. split; [done|]. intros i. rewrite Hidx. split.
  - intros (t & -> & _). by eexists.
  - intros [t Ht]. exists t. split; [done|]. by eapply Hall.
Qed.

(** C36: no task is lost.  As long as the job is not done, once the running
    transactions have timed out and the inspection has run, a worker that
    asks gets a task. *)
Theorem mapreduce_progress s now now' mi ri :
  sys_reachable s → Done (coord s) = false →
  (∀ i t, MTaskProcessingTxn (coord s) !! i = Some t → now - beginTime t > TIMEOUTLIMIT * Second) →
  (∀ i t, RTaskProcessingTxn (coord s) !! i = Some t → now - beginTime t > TIMEOUTLIMIT * Second) →
  mi ≡ₚ (map_to_list (expired (MTaskProcessingTxn (coord s)) now)).*1 →
  ri ≡ₚ (map_to_list (expired (RTaskProcessingTxn (coord s)) now)).*1 →
  ∃ c' t, GetTask (InspectReduceTasks (InspectMapTasks (coord s) mi) ri) now' = Ret (c', Got t).
Proof.
  intros [order Hs]%sys_reachable_inv Hnd Hm Hr [Hmn Hmi]%all_expired [Hrn Hri]%all_expired; [|done..].
  pose proof (si_coord _ _ Hs) as Hc. set (c := coord s) in *. clearbody c.
  destruct (InspectMapTasks_spec files nReduce c mi) as (Hc1 & _ & Er & Ers & Ert & _ & Hno & Hyes & Hst);
    [done|done|by intros i ?%Hmi|].
  set (c1 := InspectMapTasks c mi) in *. clearbody c1.
  destruct (InspectReduceTasks_spec files nReduce c1 ri) as (Hc2 & _ & Er2 & Ems2 & Emt2 & _ & Hno2 & Hyes2 & Hst2);
    [done|done|by (intros i ?%Hri; rewrite Ert)|].
  set (c2 := InspectReduceTasks c1 ri) in *. clearbody c2.
  assert (∀ i, MTaskProcessingTxn c2 !! i = None) as Hmap.
  { intros i. rewrite Emt2. destruct (decide (i ∈ mi)) as [|Hn2]; [by apply Hno|].
    rewrite Hyes by done. apply eq_None_not_Some. by rewrite <-Hmi. }
  assert (∀ r, RTaskProcessingTxn c2 !! r = None) as Hred.
  { intros r. destruct (decide (r ∈ ri)) as [|Hn2]; [by apply Hno2|].
    rewrite Hyes2, Ert by done. apply eq_None_not_Some. by rewrite <-Hri. }
  unfold GetTask. destruct (GetMapTask_spec files nReduce c2 now' Hc2) as
    (c3 & a & -> & _ & [(_ & _ & _ & i & [? Hi])|[(-> & -> & Hmd)|(i & f & _ & _ & _ & -> & _)]]).
  - by rewrite Hmap in Hi.
  - rewrite bind_Ret. destruct (GetReduceTask_spec files nReduce c2 now' Hc2 Hmd) as
      (c4 & a2 & -> & _ & [(_ & _ & _ & i & [? Hi])|[(-> & -> & Hd)|(r & _ & _ & -> & _)]]).
    + by rewrite Hred in Hi.
    + exfalso. apply Done_iff in Hd as [Hmd2 Hrd2]; [|done].
      assert (Done c = true) as Hd; [|congruence]. apply Done_iff; [done|]. split.
      * intros i Hi. apply Hst. rewrite <-Ems2. by apply Hmd2.
      * intros r Hir. rewrite <-Ers. apply Hst2, Hrd2. by rewrite Er2, Er.
    + by eexists _, _.
  - by eexists _, _.
Qed.
End job.
