(* ===== verification/MapReduceExample.v ===== *)
(** * MapReduce: runs

    A scheduler that runs the system of MapReduceProps.v from a list of actions,
    a word count, and a run in which a worker that was too slow spoils the
    output. *)

From Stdlib Require Import Ascii String.
From stdpp Require Import prelude gmap strings list sorting.
From S2P Require Import Prelude Strconv GoStrings Json MapReduce MapReduceCoord MapReduceWorker MapReduceProps.
Local Open Scope Z_scope.

(** ** The scheduler *)

(** A step of the system; workers and reports by their position. *)
Inductive Action :=
  | AGet (now : Z)
  | ATurn (k chunk : nat)
  | ADie (k : nat)
  | AReport (k : nat)
  | ALose (k : nat)
  | AInspectMap (now : Z)
  | AInspectReduce (now : Z).

Section schedule.
Context (mapf : string → string → list KeyValue) (reducef : string → list string → string).
Context (sortf : list KeyValue → list KeyValue).
Context (files : list string) (nReduce : Z) (texts : gmap string string).
Context (may_run : Coordinator → Worker → Prop) `{!∀ c w, Decision (may_run c w)}.

Abbreviation reachable := (sys_reachable mapf reducef sortf files nReduce texts may_run).

(** An action that is not possible changes nothing. *)
Definition act (s : Sys) (a : Action) : Sys :=
  let '(mkSys c d ws rs) := s in
  match a with
  | AGet now =>
      match GetTask c now with Ret (c', Got t) => mkSys c' d (WTask t :: ws) rs | _ => s end
  | ATurn k chunk =>
      match ws !! k with
      | Some w =>
          if decide (may_run c w) then
            match workerTurn mapf reducef sortf chunk d w with
            | Ret (d', res) => mkSys c d' (take k ws ++ still res ++ drop (S k) ws) (told res ++ rs)
            | _ => s
            end
          else s
      | None => s
      end
  | ADie k => match ws !! k with Some _ => mkSys c d (take k ws ++ drop (S k) ws) rs | None => s end
  | AReport k =>
      match rs !! k with
      | Some p => match report c p with Ret (c', _) => mkSys c' d ws (take k rs ++ drop (S k) rs) | _ => s end
      | None => s
      end
  | ALose k => match rs !! k with Some _ => mkSys c d ws (take k rs ++ drop (S k) rs) | None => s end
  | AInspectMap now => mkSys (InspectMapTasks c (map_to_list (expired (MTaskProcessingTxn c) now)).*1) d ws rs
  | AInspectReduce now => mkSys (InspectReduceTasks c (map_to_list (expired (RTaskProcessingTxn c) now)).*1) d ws rs
  end.

Abbreviation step := (sys_step mapf reducef sortf may_run).

Lemma act_step s a : act s a = s ∨ step s (act s a).
Proof.
  destruct s as [c d ws rs]. destruct a as [now|k chunk|k|k|k|now|now]; simpl.
  - destruct (GetTask c now) as [[c' [| |t]]| |] eqn:Hg; try by left. right. by eapply step_get.
  - destruct (ws !! k) as [w|] eqn:Hk; [|by left]. destruct (decide (may_run c w)) as [Hm|]; [|by left].
    destruct (workerTurn mapf reducef sortf chunk d w) as [[d' res]| |] eqn:Ht; try by left. right.
    rewrite <-(take_drop_middle ws k w Hk) at 1. by eapply step_turn.
  - destruct (ws !! k) as [w|] eqn:Hk; [|by left]. right. rewrite <-(take_drop_middle ws k w Hk) at 1. apply step_die.
  - destruct (rs !! k) as [p|] eqn:Hk; [|by left]. destruct (report c p) as [[c' ok]| |] eqn:Hr; try by left. right.
    rewrite <-(take_drop_middle rs k p Hk) at 1. by eapply step_report.
  - destruct (rs !! k) as [p|] eqn:Hk; [|by left]. right. rewrite <-(take_drop_middle rs k p Hk) at 1. apply step_report_lost.
  - right. by eapply step_inspect_map.
  - right. by eapply step_inspect_reduce.
Qed.

Definition schedule : Sys → list Action → Sys := foldl act.

Definition start : Sys := mkSys (MakeCoordinator files nReduce) (mkDisk texts ∅ ∅) [] [].

Lemma schedule_reachable l : reachable (schedule start l).
Proof.
  exists start. split; [done|]. induction l as [|a l IH] using rev_ind; [apply rtc_refl|].
  unfold schedule. rewrite foldl_app. fold (schedule start l). simpl.
  destruct (act_step (schedule start l) a) as [->|Hs]; [done|]. by eapply rtc_r.
Qed.
End schedule.

#[export] Instance on_time_dec c w : Decision (on_time c w).
Proof. unfold on_time. apply _. Defined.

(** A worker asks, does up to [n] turns and reports. *)
Definition work (n : nat) : list Action := AGet 0 :: replicate n (ATurn 0 100) ++ [AReport 0].

(** ** A word count *)
Definition wc_map (_ content : string) : list KeyValue := (λ w, mkKeyValue w "1") <$> Split content " ".
Definition wc_reduce (_ : string) (vs : list string) : string := FormatInt (zlen vs).
Definition wc_sort : list KeyValue → list KeyValue := merge_sort key_le.
Definition wc_files : list string := ["f"; "g"].
Definition wc_texts : gmap string string := {["f" := "to be or"; "g" := "not to be"]}.

Definition wc_run (l : list Action) : Sys :=
  schedule wc_map wc_reduce wc_sort on_time (start wc_files 3 wc_texts) l.

Lemma wc_run_reachable l : sys_reachable wc_map wc_reduce wc_sort wc_files 3 wc_texts on_time (wc_run l).
Proof. apply schedule_reachable. Qed.

Lemma wc_readable f : f ∈ wc_files → is_Some (wc_texts !! f).
Proof. by intros [->|[->|?%not_elem_of_nil]%elem_of_cons]%elem_of_cons; [eexists..|]. Qed.

Lemma wc_sort_perm l : wc_sort l ≡ₚ l.
Proof. apply merge_sort_Permutation. Qed.
Lemma wc_sort_sorted l : Sorted key_le (wc_sort l).
Proof. apply Sorted_merge_sort. apply _. Qed.
Lemma wc_nReduce : 0 < 3 < 2 ^ 63.
Proof. lia. Qed.

(** Two workers share the map tasks turn by turn; one dies in the middle of a
    file, and its task is given out again after the timeout. *)
Definition wc_actions : list Action :=
  [AGet 0; AGet 0] ++ concat (replicate 4 [ATurn 0 100; ATurn 1 100]) ++ [ADie 0] ++ replicate 6 (ATurn 0 100) ++
  [AReport 0; AInspectMap (11 * Second); AInspectReduce (11 * Second)] ++ work 20 ++ work 50 ++ work 50.

(** The output files as strings. *)
Definition out_texts (s : Sys) : list (string * string) := map_to_list (string_of_list_ascii <$> outputs (disk s)).

(** A worker that was too slow: it got the first map task and called the map
    function, but its task is taken away after the timeout, and another worker
    runs both map tasks.  Then the first one goes on and creates its file, which
    cuts off the pairs in it; the reduce tasks run; at last the first worker
    writes its pairs, and its report is refused. *)
Definition turns (n : nat) : list Action := replicate n (ATurn 0 100).
Definition late_actions : list Action :=
  [AGet 0] ++ turns 1 ++ [AInspectMap (11 * Second)] ++
  [AGet 0] ++ turns 7 ++ [AReport 0; AGet 0] ++ turns 6 ++ [AReport 0] ++
  turns 1 ++
  [AGet 0] ++ turns 7 ++ [AReport 0; AGet 0] ++ turns 10 ++ [AReport 0] ++
  turns 4 ++ [AReport 0].

Definition late_run : Sys :=
  schedule wc_map wc_reduce wc_sort (λ _ _, True) (start wc_files 3 wc_texts) late_actions.

Definition output_line (s : string) : string := s +:+ String "010" "".

Example wc_outputs :
  Done (coord (wc_run wc_actions)) = true ∧
  out_texts (wc_run wc_actions) =
    [("mr-out-2", output_line "not 1");
     ("mr-out-0", output_line "be 2" +:+ output_line "or 1" +:+ output_line "to 2")].
Proof. vm_compute. by split. Qed.

(** The condition of [mapreduce_correct] cannot be dropped: the words of the
    first file are lost. *)
Lemma late_worker_spoils :
  sys_reachable wc_map wc_reduce wc_sort wc_files 3 wc_texts (λ _ _, True) late_run ∧
  Done (coord late_run) = true ∧
  out_texts late_run =
    [("mr-out-2", output_line "not 1"); ("mr-out-0", output_line "be 1" +:+ output_line "to 1")].
Proof. split; [apply schedule_reachable|]. vm_compute. by split. Qed.

(** ** The theorems at work *)

Lemma mapreduce_correct_witness :
  Done (coord (wc_run wc_actions)) = true ∧
  ∃ gs, outputs (disk (wc_run wc_actions)) !! oFileName 0 = Some (lines wc_reduce gs) ∧ NoDup gs.*1.
Proof.
  assert (Done (coord (wc_run wc_actions)) = true) as Hd by (vm_compute; reflexivity). split; [exact Hd|].
  destruct (mapreduce_correct wc_map wc_reduce wc_sort wc_files 3 wc_texts on_time wc_nReduce
    wc_sort_perm wc_sort_sorted wc_readable (λ _ _ Hon, Hon) (wc_run wc_actions) (wc_run_reachable wc_actions) Hd) as [_ Hall].
  assert (0 ∈ bucket 3 <$> all_kvs wc_map wc_files wc_texts) as H0.
  { apply list_elem_of_fmap. exists (mkKeyValue "to" "1"). split; [vm_compute; reflexivity|].
    vm_compute. apply elem_of_cons. left. reflexivity. }
  destruct (Hall 0 H0) as (gs & Ho & Hnd & _). exists gs. split; [exact Ho|exact Hnd].
Defined.

Lemma mapreduce_safe_witness : returns (GetTask (coord late_run) 0).
Proof.
  apply (mapreduce_safe wc_map wc_reduce wc_sort wc_files 3 wc_texts (λ _ _, True) wc_nReduce
    wc_readable late_run). apply schedule_reachable.
Defined.

(** The worker of the second map task is gone; eleven seconds later the task
    is given out again. *)
Definition wc_stuck : Sys := wc_run (work 20 ++ [AGet 0; ADie 0]).

Lemma mapreduce_progress_witness :
  ∃ c' t, GetTask (InspectReduceTasks (InspectMapTasks (coord wc_stuck) [1]) []) 0 = Ret (c', Got t).
Proof.
  apply (mapreduce_progress wc_map wc_reduce wc_sort wc_files 3 wc_texts on_time wc_nReduce
    wc_readable wc_stuck (11 * Second) 0 [1] [] (wc_run_reachable _)).
  - vm_compute. reflexivity.
  - assert (MTaskProcessingTxn (coord wc_stuck) = {[1 := mkTransaction 1 0]}) as -> by (vm_compute; reflexivity).
    intros i t [<- <-]%lookup_singleton_Some. vm_compute. reflexivity.
  - assert (RTaskProcessingTxn (coord wc_stuck) = ∅) as -> by (vm_compute; reflexivity).
    intros i t Ht. rewrite lookup_empty in Ht. discriminate.
  - vm_compute. reflexivity.
  - vm_compute. reflexivity.
Defined.
