(* ===== verification/Labgob.v ===== *)
(** * The checks of labgob

    src/src/labgob/labgob.go wraps [encoding/gob] and complains about types
    with lower-case fields and about decoding into variables that already hold
    values.  ([encoding/gob] itself is behind the interface of Gob.v.)

    - [reflect.Type]s are numbers; the table [types] says what they are.  Types
      may refer to themselves.
    - Values are trees as [reflect.Value] shows them; a value of a basic kind
      is known by whether it is the zero value.
    - [IsUpper] is Unicode's table, an argument.
    - The variables of the package are the record [checks]; complaints only
      count in [errorCount]. *)

From Stdlib Require Import Strings.Byte Ascii String.
From stdpp Require Import prelude gmap fin_sets strings list.
From S2P Require Import Prelude Gob Strconv GoStrings.
Local Open Scope Z_scope.

(** ** Types *)

Inductive ty :=
  | TStruct (fields : list (string * nat))
  | TElem (elem : nat)                    (* slice, array, pointer *)
  | TMap (elem key : nat)
  | TOther.

Record checks := mkChecks { checked : gset nat; errorCount : Z }.

Section types.
Context (IsUpper : Z → bool) (types : gmap nat ty).

(** [utf8.DecodeRuneInString(name)] *)
Definition firstRune (name : string) : Z :=
  match chars name with
  | [] => RuneError
  | c :: rest => (DecodeRune c rest).1
  end.

Definition lowerCase (name : string) : bool := negb (IsUpper (firstRune name)).

(** The loop over the fields; [check] is the recursive call. *)
Fixpoint checkFields (check : nat → checks → outcome checks) (fields : list (string * nat)) (st : checks)
    : outcome checks :=
  match fields with
  | [] => Ret st
  | (name, t) :: fields =>
      let st := if lowerCase name then mkChecks (checked st) (errorCount st + 1) else st in
      st ← check t st;
      checkFields check fields st
  end.

(** Each call checks a type that was not checked before, so the number of
    types is fuel enough. *)
Fixpoint checkType (fuel : nat) (t : nat) (st : checks) : outcome checks :=
  if decide (t ∈ checked st) then Ret st
  else
    match fuel with
    | O => NoFuel
    | S fuel =>
        let st := mkChecks ({[t]} ∪ checked st) (errorCount st) in
        match types !! t with
        | None => Panic NilDereference
        | Some (TStruct fields) => checkFields (checkType fuel) fields st
        | Some (TElem elem) => checkType fuel elem st
        | Some (TMap elem key) => st ← checkType fuel elem st; checkType fuel key st
        | Some TOther => Ret st
        end
    end.

Definition checkValue (t : nat) (st : checks) : outcome checks := checkType (size types) t st.

(** ** Values *)

Inductive value :=
  | VStruct (fields : list (string * value))
  | VPtr (elem : option value)
  | VBasic (zero : bool)
  | VOther.

(** [k] is [4 - depth]. *)
Fixpoint checkDefault1 (k : nat) (v : value) (st : checks) : checks :=
  match k with
  | O => st
  | S k =>
      match v with
      | VStruct fields => foldl (λ st '(name, v), checkDefault1 k v st) st fields
      | VPtr None => st
      | VPtr (Some v) => checkDefault1 k v st
      | VBasic zero => if zero then st else mkChecks (checked st) (errorCount st + 1)
      | VOther => st
      end
  end.

Definition checkDefault (v : option value) (st : checks) : checks :=
  match v with
  | None => st
  | Some v => checkDefault1 3 v st
  end.

(** ** Encoding and decoding

    [t] is the type of the value and [v] what the variable holds before it is
    decoded into. *)
Context {A : Type} `{Gob A}.

Definition Encode (t : nat) (a : A) (w : list byte) (st : checks) : outcome (list byte * checks) :=
  st ← checkValue t st; Ret (gob_enc w a, st).

Definition Decode (t : nat) (v : option value) (s : list byte) (pos : nat) (st : checks)
    : outcome (option (A * nat) * checks) :=
  st ← checkValue t st;
  let st := checkDefault v st in
  Ret (gob_dec s pos, st).

Definition Register (t : nat) (st : checks) : outcome checks := checkValue t st.

(** ** What is checked *)

(** The types a type refers to, and its lower-case fields. *)
Definition refers (u : nat) : list nat :=
  match types !! u with
  | Some (TStruct fields) => fields.*2
  | Some (TElem elem) => [elem]
  | Some (TMap elem key) => [elem; key]
  | _ => []
  end.

Definition bad (u : nat) : Z :=
  match types !! u with
  | Some (TStruct fields) => zlen (filter (λ f, lowerCase f.1 = true) fields)
  | _ => 0
  end.

Definition within_type : nat → nat → Prop := rtc (λ u u', u' ∈ refers u).

Definition total_bad (us : gset nat) : Z := foldr (λ u n, bad u + n) 0 (elements us).

(** Every type that is mentioned is in the table. *)
Definition closed : Prop := ∀ u u', u ∈ dom types → u' ∈ refers u → u' ∈ dom types.

Lemma foldr_bad_Permutation l l' : l ≡ₚ l' → foldr (λ u n, bad u + n) 0 l = foldr (λ u n, bad u + n) 0 l'.
Proof. induction 1; simpl; lia. Qed.

Lemma total_bad_union us us' : us ## us' → total_bad (us ∪ us') = total_bad us + total_bad us'.
Proof.
  intros Hd. unfold total_bad. rewrite (foldr_bad_Permutation _ _ (elements_disj_union us us' Hd)).
  induction (elements us) as [|u l IH]; simpl; lia.
Qed.

Lemma total_bad_singleton u : total_bad {[u]} = bad u.
Proof. unfold total_bad. rewrite elements_singleton. simpl. lia. Qed.

Lemma total_bad_empty : total_bad ∅ = 0.
Proof. unfold total_bad. by rewrite elements_empty. Qed.

(** [st'] comes from [st] by checking the types [new], all within one of
    [roots], with their lower-case fields counted and everything they refer to
    checked; [extra] complaints were made for the caller. *)
Record visits (roots : list nat) (extra : Z) (st st' : checks) (new : gset nat) : Prop := {
  vi_checked : checked st' = checked st ∪ new;
  vi_disjoint : checked st ## new;
  vi_dom : new ⊆ dom types;
  vi_roots u : u ∈ roots → u ∈ checked st';
  vi_within u : u ∈ new → ∃ r, r ∈ roots ∧ within_type r u;
  vi_closed u u' : u ∈ new → u' ∈ refers u → u' ∈ checked st';
  vi_count : errorCount st' = errorCount st + extra + total_bad new;
}.

Lemma visits_none st : visits [] 0 st st ∅.
Proof.
  split; try set_solver. rewrite total_bad_empty. lia.
Qed.

Lemma visits_app roots1 roots2 x1 x2 st st1 st2 new1 new2 :
  visits roots1 x1 st st1 new1 → visits roots2 x2 st1 st2 new2 →
  visits (roots1 ++ roots2) (x1 + x2) st st2 (new1 ∪ new2).
Proof.
  intros [C1 D1 E1 R1 W1 L1 N1] [C2 D2 E2 R2 W2 L2 N2]. split.
  - rewrite C2, C1. set_solver.
  - rewrite C1 in D2. set_solver.
  - set_solver.
  - intros u [Hu|Hu]%elem_of_app; [rewrite C2; apply elem_of_union_l|]; auto.
  - intros u [Hu|Hu]%elem_of_union; [destruct (W1 u Hu) as (r & ? & ?)|destruct (W2 u Hu) as (r & ? & ?)];
      exists r; rewrite elem_of_app; auto.
  - intros u u' [Hu|Hu]%elem_of_union Hr; [rewrite C2; apply elem_of_union_l; by eapply L1|by eapply L2].
  - rewrite N2, N1, total_bad_union by (rewrite C1 in D2; set_solver). lia.
Qed.

(** Checking [t] for the first time: the type itself, then what it refers
    to. *)
Lemma visits_type t st st' new x :
  t ∉ checked st → t ∈ dom types → x = bad t →
  visits (refers t) x (mkChecks ({[t]} ∪ checked st) (errorCount st)) st' new →
  visits [t] 0 st st' ({[t]} ∪ new).
Proof.
  intros Ht Hdom -> [C D E R W L N]. simpl in *. split.
  - rewrite C. set_solver.
  - set_solver.
  - set_solver.
  - intros u ->%list_elem_of_singleton. rewrite C. set_solver.
  - intros u Hu. exists t. split; [by left|]. apply elem_of_union in Hu as [->%elem_of_singleton|Hu]; [apply rtc_refl|].
    destruct (W u Hu) as (r & Hr & ?). by eapply rtc_l.
  - intros u u' Hu Hr. apply elem_of_union in Hu as [->%elem_of_singleton|Hu]; [by apply R|by eapply L].
  - rewrite N, total_bad_union, total_bad_singleton by set_solver. lia.
Qed.

Definition unchecked (st : checks) : nat := size (dom types ∖ checked st).

Lemma unchecked_mono st st' : checked st ⊆ checked st' → (unchecked st' ≤ unchecked st)%nat.
Proof. intros Hs. unfold unchecked. apply subseteq_size. set_solver. Qed.

Lemma unchecked_add t st n :
  t ∈ dom types → t ∉ checked st →
  (unchecked (mkChecks ({[t]} ∪ checked st) n) < unchecked st)%nat.
Proof. intros Ht Hn. unfold unchecked. apply subset_size. simpl. set_solver. Qed.

Lemma visits_mono roots x st st' new : visits roots x st st' new → checked st ⊆ checked st'.
Proof. intros Hv. rewrite (vi_checked _ _ _ _ _ Hv). set_solver. Qed.

Lemma checkFields_visits check n fields st :
  (∀ t st, t ∈ dom types → (unchecked st ≤ n)%nat → ∃ st' new, check t st = Ret st' ∧ visits [t] 0 st st' new) →
  (∀ t, t ∈ fields.*2 → t ∈ dom types) → (unchecked st ≤ n)%nat →
  ∃ st' new, checkFields check fields st = Ret st' ∧
    visits fields.*2 (zlen (filter (λ f, lowerCase f.1 = true) fields)) st st' new.
Proof.
  intros Hcheck. revert st. induction fields as [|[name t] fields IH]; intros st Hdom Hn; simpl.
  { exists st, ∅. split; [done|apply visits_none]. }
  set (st0 := if lowerCase name then _ else st).
  assert (visits [] (if lowerCase name then 1 else 0) st st0 ∅) as Hv0.
  { destruct (visits_none st). unfold st0. destruct (lowerCase name); [|done].
    split; try done. simpl. rewrite total_bad_empty. lia. }
  destruct (Hcheck t st0) as (st1 & new1 & -> & Hv1).
  { apply Hdom. by left. }
  { pose proof (unchecked_mono _ _ (visits_mono _ _ _ _ _ Hv0)). lia. }
  rewrite bind_Ret. destruct (IH st1) as (st2 & new2 & -> & Hv2).
  { intros u Hu. apply Hdom. by right. }
  { pose proof (unchecked_mono _ _ (visits_mono _ _ _ _ _ Hv0)).
    pose proof (unchecked_mono _ _ (visits_mono _ _ _ _ _ Hv1)). lia. }
  exists st2, (∅ ∪ new1 ∪ new2). split; [done|].
  pose proof (visits_app _ _ _ _ _ _ _ _ _ (visits_app _ _ _ _ _ _ _ _ _ Hv0 Hv1) Hv2) as Hv. simpl in Hv.
  rewrite filter_cons. simpl. rewrite Z.add_0_r in Hv.
  destruct (lowerCase name); [rewrite decide_True by done|by rewrite decide_False by done].
  simpl. replace (Z.of_nat _) with (1 + zlen (filter (λ f : string * nat, lowerCase f.1 = true) fields)) by lia. done.
Qed.

Lemma checkType_visits fuel t st :
  closed → t ∈ dom types → (unchecked st ≤ fuel)%nat →
  ∃ st' new, checkType fuel t st = Ret st' ∧ visits [t] 0 st st' new.
Proof.
  intros Hcl. revert t st. induction fuel as [|fuel IH]; intros t st Ht Hn; cbn [checkType]; case_decide as Hin.
  1,3: exists st, ∅; split; [done|]; destruct (visits_none st); split; try done; by intros u ->%list_elem_of_singleton.
  { exfalso. pose proof (unchecked_add t st 0 Ht Hin). lia. }
  pose proof (unchecked_add t st (errorCount st) Ht Hin) as Hlt. set (st0 := mkChecks _ _) in *.
  assert (∀ u, u ∈ refers t → u ∈ dom types) as Hrefs by (intros; by eapply Hcl).
  cut (∃ st' new, match types !! t with
      | None => Panic NilDereference
      | Some (TStruct fields) => checkFields (checkType fuel) fields st0
      | Some (TElem elem) => checkType fuel elem st0
      | Some (TMap elem key) => st ← checkType fuel elem st0; checkType fuel key st
      | Some TOther => Ret st0
      end = Ret st' ∧ visits (refers t) (bad t) st0 st' new).
  { intros (st' & new & -> & Hv). exists st', ({[t]} ∪ new). split; [done|]. by eapply visits_type. }
  unfold refers, bad in *. destruct (types !! t) as [[fields|elem|elem key|]|] eqn:Hty.
  - apply (checkFields_visits _ fuel); [done|done|lia].
  - apply IH; [apply Hrefs; by left|lia].
  - destruct (IH elem st0) as (st1 & new1 & -> & Hv1); [apply Hrefs; by left|lia|]. rewrite bind_Ret.
    pose proof (unchecked_mono _ _ (visits_mono _ _ _ _ _ Hv1)).
    destruct (IH key st1) as (st2 & new2 & -> & Hv2); [apply Hrefs; right; by left|lia|].
    exists st2, (new1 ∪ new2). split; [done|]. exact (visits_app _ _ _ _ _ _ _ _ _ Hv1 Hv2).
  - exists st0, ∅. split; [done|apply visits_none].
  - apply elem_of_dom in Ht as [? Ht]. congruence.
Qed.

(** What earlier checks left: with a type everything it refers to. *)
Definition settled (st : checks) : Prop := ∀ u u', u ∈ checked st → u' ∈ refers u → u' ∈ checked st.

Lemma settled_within st u u' : settled st → u ∈ checked st → within_type u u' → u' ∈ checked st.
Proof. intros Hs Hu Hw. induction Hw as [|u u1 u' Hr _ IH]; [done|]. apply IH. by eapply Hs. Qed.

(** C40: [checkValue] ends on every system of types, recursive ones too; it checks
    exactly the types within the given one, and complains once about every
    lower-case field of each type that had not been checked before. *)
Theorem checkValue_complete t st :
  closed → t ∈ dom types → settled st →
  ∃ st', checkValue t st = Ret st' ∧ settled st' ∧
    (∀ u, u ∈ checked st' ↔ u ∈ checked st ∨ within_type t u) ∧
    errorCount st' = errorCount st + total_bad (checked st' ∖ checked st).
Proof.
  intros Hcl Ht Hset. destruct (checkType_visits (size types) t st Hcl Ht) as (st' & new & Hc & Hv).
  { unfold unchecked. rewrite <-size_dom. apply subseteq_size. set_solver. }
  destruct Hv as [C D E R W L N]. assert (settled st') as Hset'.
  { intros u u'. rewrite C. intros [Hu|Hu]%elem_of_union Hr; [apply elem_of_union_l; by eapply Hset|].
    rewrite <-C. by eapply L. }
  exists st'. split_and!; [done|done| |].
  - intros u. split.
    + rewrite C. intros [?|Hu]%elem_of_union; [by left|]. destruct (W u Hu) as (r & ->%list_elem_of_singleton & ?). by right.
    + intros [Hu|Hu]; [rewrite C; by apply elem_of_union_l|]. eapply settled_within; [done|apply R; by left|done].
  - assert (checked st' ∖ checked st = new) as -> by (rewrite C; set_solver). rewrite N. lia.
Qed.

(** The basic values of a value, with the depth at which they are. *)
Fixpoint leaves (d : nat) (v : value) : list (nat * bool) :=
  match v with
  | VStruct fields => concat (map (λ f, leaves (S d) f.2) fields)
  | VPtr None => []
  | VPtr (Some v) => leaves (S d) v
  | VBasic zero => [(d, zero)]
  | VOther => []
  end.

Lemma leaves_depth : ∀ v d, Forall (λ l, (d ≤ l.1)%nat) (leaves d v).
Proof.
  fix IH 1. intros [fields|[v|]|zero|] d; simpl; try constructor; try done; try by constructor.
  - induction fields as [|[name v] fields IHf]; simpl; [constructor|]. apply Forall_app. split; [|exact IHf].
    eapply Forall_impl; [apply (IH v (S d))|]. simpl. lia.
  - eapply Forall_impl; [apply (IH v (S d))|]. simpl. lia.
Qed.

(** Set basic values at depth at most [m]. *)
Definition set_leaves (m : nat) (l : list (nat * bool)) : Z :=
  zlen (filter (λ l, (l.1 ≤ m)%nat ∧ l.2 = false) l).

Lemma set_leaves_app m l l' : set_leaves m (l ++ l') = set_leaves m l + set_leaves m l'.
Proof. unfold set_leaves. rewrite filter_app, length_app. lia. Qed.

Lemma set_leaves_deep m d v : (m < d)%nat → set_leaves m (leaves d v) = 0.
Proof.
  intros Hd. unfold set_leaves. pose proof (leaves_depth v d) as Hl. induction Hl as [|l ls Hle _ IH]; [done|].
  rewrite filter_cons, decide_False by lia. done.
Qed.

Lemma checkDefault1_count k v st d :
  errorCount (checkDefault1 k v st) = errorCount st + set_leaves (d + k - 1) (leaves d v) ∨ (k = 0%nat ∧ d = 0%nat).
Proof.
  revert v st d. induction k as [|k IH]; intros v st d.
  { destruct d as [|d]; [by right|left]. rewrite set_leaves_deep by lia. simpl. lia. }
  left. replace (d + S k - 1)%nat with (S d + k - 1)%nat by lia.
  assert (∀ v st, errorCount (checkDefault1 k v st) = errorCount st + set_leaves (S d + k - 1) (leaves (S d) v)) as IH'
    by (intros v' st'; destruct (IH v' st' (S d)) as [?|[_ ?]]; [done|lia]).
  destruct v as [fields|[v|]|[]|]; cbn [checkDefault1 leaves].
  - revert st. induction fields as [|[name v] fields IHf]; intros st; simpl; [unfold set_leaves; simpl; lia|].
    rewrite IHf, IH', set_leaves_app. simpl. lia.
  - apply IH'.
  - unfold set_leaves. simpl. lia.
  - unfold set_leaves. rewrite filter_cons, decide_False by (intros [_ ?]; done). simpl. lia.
  - unfold set_leaves. rewrite filter_cons, decide_True by (simpl; split; [lia|done]). simpl. lia.
  - unfold set_leaves. simpl. lia.
Qed.

(** [checkDefault] counts the basic values that are set, down to depth 3. *)
Lemma checkDefault_counts v st :
  errorCount (checkDefault (Some v) st) = errorCount st + set_leaves 3 (leaves 1 v).
Proof. by destruct (checkDefault1_count 3 v st 1) as [?|[? _]]. Qed.
End types.

(** A linked list with a lower-case field, as in
    [type Node struct { val int; Next *Node }]. *)
Definition node_types : gmap nat ty :=
  {[0%nat := TStruct [("val", 1%nat); ("Next", 2%nat)]; 1%nat := TOther; 2%nat := TElem 0]}.

Definition ascii_upper (r : Z) : bool := within 65 90 r.

Lemma node_closed : closed node_types.
Proof.
  intros u u' Hu Hr. assert (u = 0%nat ∨ u = 1%nat ∨ u = 2%nat) as [-> |[-> | ->]].
  { apply elem_of_dom in Hu as [x Hx]. unfold node_types in Hx. rewrite !lookup_insert_Some, lookup_singleton_Some in Hx. naive_solver. }
  all: unfold refers in Hr; vm_compute in Hr.
  - apply elem_of_dom. apply elem_of_cons in Hr as [->|Hr]; [by eexists|].
    apply list_elem_of_singleton in Hr as ->. by eexists.
  - by apply not_elem_of_nil in Hr.
  - apply list_elem_of_singleton in Hr as ->. apply elem_of_dom. by eexists.
Qed.

Example node_checked :
  checkValue ascii_upper node_types 2 (mkChecks ∅ 0) = Ret (mkChecks {[0%nat; 1%nat; 2%nat]} 1).
Proof. vm_compute. reflexivity. Qed.

Lemma checkValue_complete_witness :
  ∃ st', checkValue ascii_upper node_types 2 (mkChecks ∅ 0) = Ret st' ∧
    errorCount st' = 0 + total_bad ascii_upper node_types (checked st' ∖ ∅).
Proof.
  destruct (checkValue_complete ascii_upper node_types 2 (mkChecks ∅ 0) node_closed) as (st' & Hc & _ & _ & Hn).
  - apply elem_of_dom. eexists. reflexivity.
  - intros u u' Hu. apply not_elem_of_empty in Hu. destruct Hu.
  - exists st'. split; [exact Hc|exact Hn].
Defined.
