(* ===== verification/MrApps.v ===== *)
(** * MapReduce applications

    src/src/mrapps: the map and reduce functions the workers load as plug-ins.

    - [IsLetter] is Unicode's table, an argument; nothing is assumed about it.
    - [range] over the set of words of indexer.go gives them in any order: the
      order is the argument [rangeSet].
    - The random numbers of crash.go are arguments; leaving the process is the
      outcome [Panic Exit].  Sleeping has no effect on the result.

    [OrderInsensitive] is what the framework asks of a reduce function, since
    the values of a key reach it in no particular order. *)

From Stdlib Require Import Ascii String.
From stdpp Require Import prelude gmap strings list sorting.
From S2P Require Import Prelude Strconv GoStrings MapReduce.
Local Open Scope Z_scope.

(** The promise of a reduce function to the framework. *)
Class OrderInsensitive (reducef : string → list string → string) : Prop :=
  reducef_perm k vs vs' : vs ≡ₚ vs' → reducef k vs = reducef k vs'.

Section text.
Context (IsLetter : Z → bool).

(** ** wc.go *)

Definition wc_Map (filename contents : string) : list KeyValue :=
  let words := FieldsFunc contents (λ r, negb (IsLetter r)) in
  (λ w, mkKeyValue w "1") <$> words.

Definition wc_Reduce (key : string) (values : list string) : string := FormatInt (zlen values).

(** ** indexer.go *)

Definition indexer_Map (rangeSet : gset string → list string) (document value : string) : list KeyValue :=
  let words := FieldsFunc value (λ r, negb (IsLetter r)) in
  let m : gset string := foldl (λ m w, {[w]} ∪ m) ∅ words in
  (λ w, mkKeyValue w document) <$> rangeSet m.

Definition indexer_Reduce (key : string) (values : list string) : string :=
  let values := sortStrings values in
  FormatInt (zlen values) +:+ " " +:+ Join values ",".
End text.

(** ** crash.go, nocrash.go *)

(** The four pairs of both programs. *)
Definition fourPairs (filename contents : string) : list KeyValue :=
  [mkKeyValue "a" filename;
   mkKeyValue "b" (FormatInt (zlen (chars filename)));
   mkKeyValue "c" (FormatInt (zlen (chars contents)));
   mkKeyValue "d" "xyzzy"].

Definition joinSorted (values : list string) : string := Join (sortStrings values) " ".

(** [rr] is drawn from 0 .. 999. *)
Definition crash_maybeCrash (rr : Z) : outcome unit :=
  if rr <? 330 then Panic Exit else Ret tt.

Definition crash_Map (rr : Z) (filename contents : string) : outcome (list KeyValue) :=
  _ ← crash_maybeCrash rr; Ret (fourPairs filename contents).

Definition crash_Reduce (rr : Z) (key : string) (values : list string) : outcome string :=
  _ ← crash_maybeCrash rr; Ret (joinSorted values).

Definition nocrash_maybeCrash (rr : Z) : outcome unit :=
  if false && (rr <? 500) then Panic Exit else Ret tt.

Definition nocrash_Map (rr : Z) (filename contents : string) : outcome (list KeyValue) :=
  _ ← nocrash_maybeCrash rr; Ret (fourPairs filename contents).

Definition nocrash_Reduce (rr : Z) (key : string) (values : list string) : outcome string :=
  _ ← nocrash_maybeCrash rr; Ret (joinSorted values).

(** ** early_exit.go *)

Definition early_exit_Map (filename contents : string) : list KeyValue := [mkKeyValue filename "1"].

Definition early_exit_Reduce (key : string) (values : list string) : string := FormatInt (zlen values).

(** ** jobcount.go

    The process [me] keeps [count]; the directory is the set of its files. *)
Definition jobcount_Map (me count : Z) (dir : gset string) : list KeyValue * Z * gset string :=
  ([mkKeyValue "a" "x"], count + 1,
   {["mr-worker-jobcount-" +:+ FormatInt me +:+ "-" +:+ FormatInt count]} ∪ dir).

Definition jobcount_Reduce (dir : gset string) (key : string) (values : list string) : string :=
  FormatInt (zlen (filter (λ f, String.prefix "mr-worker-jobcount" f = true) (elements dir))).

(** ** mtiming.go, rtiming.go

    The workers that run at the same time are counted through the directory:
    each writes a file with its process id and then looks at whose processes of
    such files are alive. *)
Definition workerFile (phase : string) (pid : Z) : string := "mr-worker-" +:+ phase +:+ "-" +:+ FormatInt pid.

(** The digits at the start of a text. *)
Fixpoint leadingDigits (s : list ascii) : list ascii :=
  match s with
  | c :: s => match digit c with Some _ => c :: leadingDigits s | None => [] end
  | [] => []
  end.

Definition skipSpaces : list ascii → list ascii := fix skip s := match s with " "%char :: s => skip s | _ => s end.

(** [%d] of [fmt.Sscanf]: spaces, a sign, digits; what follows them is left. *)
Definition scanInt (s : list ascii) : option Z :=
  let '(sign, s) :=
    match skipSpaces s with
    | "-"%char :: s => (["-"%char], s)
    | "+"%char :: s => ([], s)
    | s => ([], s)
    end in
  Atoi (string_of_list_ascii (sign ++ leadingDigits s)).

(** [fmt.Sscanf(name, "mr-worker-<phase>-%d", &xpid)] *)
Definition scanPid (phase name : string) : option Z :=
  let pat := "mr-worker-" +:+ phase +:+ "-" in
  if String.prefix pat name then scanInt (drop (length (chars pat)) (chars name)) else None.

(** [alive]: whether [syscall.Kill(xpid, 0)] succeeds. *)
Definition countAlive (phase : string) (alive : Z → bool) (names : list string) : Z :=
  zlen (filter (λ name, match scanPid phase name with Some xpid => alive xpid | None => false end = true) names).

(** [names] is what [Readdirnames] makes of the directory, [later] what the
    directory is when the file is removed. *)
Definition nparallel (phase : string) (pid : Z) (alive : Z → bool) (names : gset string → list string)
    (later : gset string → gset string) (dir : gset string) : outcome (Z * gset string) :=
  let myfilename := workerFile phase pid in
  let dir := {[myfilename]} ∪ dir in
  let ret := countAlive phase alive (names dir) in
  let dir := later dir in
  if decide (myfilename ∈ dir) then Ret (ret, dir ∖ {[myfilename]}) else Panic (Explicit "remove").

(** [ts] is the time, printed with [%.1f]. *)
Definition mtiming_Map (pid : Z) (ts : string) (n : Z) (filename contents : string) : list KeyValue :=
  [mkKeyValue ("times-" +:+ FormatInt pid) ts; mkKeyValue ("parallel-" +:+ FormatInt pid) (FormatInt n)].

Definition mtiming_Reduce (key : string) (values : list string) : string := joinSorted values.

Definition rtiming_Map (filename contents : string) : list KeyValue :=
  (λ k, mkKeyValue k "1") <$> ["a"; "b"; "c"; "d"; "e"; "f"; "g"; "h"; "i"; "j"].

(** [n] is what [nparallel] counts. *)
Definition rtiming_Reduce (n : Z) (key : string) (values : list string) : string := FormatInt n.

(** ** The applications keep the promise *)

#[export] Instance mtiming_insensitive : OrderInsensitive mtiming_Reduce.
Proof. intros k vs vs' Hp. unfold mtiming_Reduce, joinSorted. by rewrite (sortStrings_Permutation vs vs' Hp). Qed.

#[export] Instance rtiming_insensitive n : OrderInsensitive (rtiming_Reduce n).
Proof. by intros k vs vs' _. Qed.

#[export] Instance wc_insensitive : OrderInsensitive wc_Reduce.
Proof. intros k vs vs' Hp. unfold wc_Reduce. by rewrite Hp. Qed.

#[export] Instance early_exit_insensitive : OrderInsensitive early_exit_Reduce.
Proof. intros k vs vs' Hp. unfold early_exit_Reduce. by rewrite Hp. Qed.

#[export] Instance indexer_insensitive : OrderInsensitive indexer_Reduce.
Proof. intros k vs vs' Hp. unfold indexer_Reduce. by rewrite (sortStrings_Permutation vs vs' Hp). Qed.

#[export] Instance crash_insensitive : OrderInsensitive (λ _, joinSorted).
Proof. intros k vs vs' Hp. unfold joinSorted. by rewrite (sortStrings_Permutation vs vs' Hp). Qed.

#[export] Instance jobcount_insensitive dir : OrderInsensitive (jobcount_Reduce dir).
Proof. by intros k vs vs' _. Qed.

(** A call that does not crash gives what the program without crashes gives. *)
Lemma crash_Map_nocrash rr rr' filename contents kva :
  crash_Map rr filename contents = Ret kva → nocrash_Map rr' filename contents = Ret kva.
Proof. unfold crash_Map, crash_maybeCrash. by destruct (rr <? 330). Qed.

Lemma crash_Reduce_nocrash rr rr' key values out :
  crash_Reduce rr key values = Ret out → nocrash_Reduce rr' key values = Ret out.
Proof. unfold crash_Reduce, crash_maybeCrash. by destruct (rr <? 330). Qed.

(** ** Workers count each other *)

Lemma leadingDigits_all s : Forall (λ c, is_Some (digit c)) s → leadingDigits s = s.
Proof. induction 1 as [|c s [d Hd] _ IH]; simpl; [done|]. by rewrite Hd, IH. Qed.

Lemma scanPid_workerFile phase pid : 0 ≤ pid < 2 ^ 63 → scanPid phase (workerFile phase pid) = Some pid.
Proof.
  intros Hpid. unfold scanPid, workerFile. set (pat := "mr-worker-" +:+ phase +:+ "-").
  assert ("mr-worker-" +:+ phase +:+ "-" +:+ FormatInt pid = pat +:+ FormatInt pid) as ->.
  { unfold pat. apply (inj chars). by rewrite !chars_app, !(assoc_L (++)). }
  assert (String.prefix pat (pat +:+ FormatInt pid) = true) as ->.
  { clearbody pat. induction pat as [|c pat IH]; [by destruct (FormatInt pid)|].
    change (String c pat +:+ FormatInt pid) with (String c (pat +:+ FormatInt pid)). simpl. by destruct (ascii_dec c c). }
  rewrite chars_app, drop_app_length. unfold scanInt.
  assert (Forall (λ c, is_Some (digit c)) (chars (FormatInt pid))) as Hd.
  { rewrite FormatInt_digits by lia. eapply Forall_impl; [apply pretty_N_digits|]. simpl. intros c [m ->].
    unfold pretty.pretty_N_char. repeat case_match; by eexists. }
  pose proof (FormatInt_ne_nil pid) as Hne. pose proof (Atoi_FormatInt pid Hpid) as Hatoi.
  assert (string_of_list_ascii (chars (FormatInt pid)) = FormatInt pid) as Hback by apply string_of_list_ascii_of_string.
  destruct (chars (FormatInt pid)) as [|c l] eqn:Hc; [by simpl in Hback|].
  apply Forall_cons in Hd as Hd'. destruct Hd' as [[d Hdc] _].
  assert (c ≠ " "%char ∧ c ≠ "-"%char ∧ c ≠ "+"%char) as (H1 & H2 & H3) by (split_and!; intros ->; done).
  assert (skipSpaces (c :: l) = c :: l) as -> by (destruct c as [[] [] [] [] [] [] [] []]; done).
  assert (match c :: l with "-"%char :: s => (["-"%char], s) | "+"%char :: s => ([], s) | s => ([], s) end = ([], c :: l)) as ->
    by (destruct c as [[] [] [] [] [] [] [] []]; done).
  cbn [app]. by rewrite leadingDigits_all, Hback.
Qed.

(** A worker that is alive counts itself, and leaves the directory without its
    file. *)
Lemma nparallel_counts phase pid alive names later dir :
  0 ≤ pid < 2 ^ 63 → alive pid = true → (∀ d, NoDup (names d) ∧ ∀ f, f ∈ names d ↔ f ∈ d) → (∀ d, d ⊆ later d) →
  ∃ ret dir', nparallel phase pid alive names later dir = Ret (ret, dir') ∧ 1 ≤ ret ∧ workerFile phase pid ∉ dir'.
Proof.
  intros Hpid Ha Hn Hl. unfold nparallel. set (f := workerFile phase pid).
  rewrite decide_True by (apply Hl; set_solver). eexists _, _. split_and!; [done| |set_solver].
  unfold countAlive. set (l := filter _ _). assert (f ∈ l) as Hin.
  { apply list_elem_of_filter. split; [by unfold f; rewrite scanPid_workerFile|]. apply Hn. set_solver. }
  destruct l; [by apply not_elem_of_nil in Hin|]. simpl. lia.
Qed.
