(* ===== verification/MrSequential.v ===== *)
(** * The MapReduce programs

    src/src/main: mrsequential.go, the reference the tests compare the
    distributed job with; the start of mrcoordinator.go and mrworker.go, and
    their common [loadPlugin].

    - [os.Args] is an argument, the program's name first; [os.Exit(1)] is the
      outcome [Panic Exit].
    - [plugin.Open] and [Lookup] give what is in the plug-in file.
    - [sort.Sort] is not stable; it is an argument.
    - The loops keep the indices of the code.  Each gets the number of pairs as
      fuel: [scanKey] and [collectValues] advance by one, [reduceLoop] by at
      least one ([reduceLoop_groups]). *)

From Stdlib Require Import Ascii String.
From stdpp Require Import prelude gmap strings list sorting.
From S2P Require Import Prelude Strconv GoStrings Json MapReduce MapReduceCoord MapReduceWorker MapReduceProps.
From S2P Require Import MapReduceExample MrApps.
Local Open Scope Z_scope.

(** ** Plug-ins *)

Inductive symbol :=
  | MapSymbol (f : string → string → list KeyValue)
  | ReduceSymbol (f : string → list string → string)
  | OtherSymbol.

Definition plugin := string → option symbol.

Definition loadPlugin (Open : string → option plugin) (filename : string)
    : outcome ((string → string → list KeyValue) * (string → list string → string)) :=
  match Open filename with
  | None => Panic Fatal
  | Some p =>
      match p "Map" with
      | None => Panic Fatal
      | Some (MapSymbol mapf) =>
          match p "Reduce" with
          | None => Panic Fatal
          | Some (ReduceSymbol reducef) => Ret (mapf, reducef)
          | Some _ => Panic TypeAssertion
          end
      | Some _ => Panic TypeAssertion
      end
  end.

(** ** mrsequential.go *)
Section sequential.
Context (mapf : string → string → list KeyValue) (reducef : string → list string → string).
Context (sortf : list KeyValue → list KeyValue).

Fixpoint readInputs (inputs : gmap string string) (filenames : list string) (intermediate : list KeyValue)
    : outcome (list KeyValue) :=
  match filenames with
  | [] => Ret intermediate
  | filename :: filenames =>
      match inputs !! filename with
      | None => Panic Fatal
      | Some content => readInputs inputs filenames (intermediate ++ mapf filename content)
      end
  end.

(** [for j < len(intermediate) && intermediate[j].Key == intermediate[i].Key] *)
Fixpoint scanKey (fuel : nat) (kva : list KeyValue) (i j : Z) : outcome Z :=
  if j <? zlen kva then
    match fuel with
    | O => NoFuel
    | S fuel =>
        a ← go_index kva j;
        b ← go_index kva i;
        if decide (Key a = Key b) then scanKey fuel kva i (j + 1) else Ret j
    end
  else Ret j.

(** [for k := i; k < j; k++] *)
Fixpoint collectValues (fuel : nat) (kva : list KeyValue) (k j : Z) (values : list string)
    : outcome (list string) :=
  if k <? j then
    match fuel with
    | O => NoFuel
    | S fuel =>
        kv ← go_index kva k;
        collectValues fuel kva (k + 1) j (values ++ [Value kv])
    end
  else Ret values.

(** The outer loop; [out] is what has been printed. *)
Fixpoint reduceLoop (fuel : nat) (kva : list KeyValue) (i : Z) (out : list string) : outcome (list string) :=
  if i <? zlen kva then
    match fuel with
    | O => NoFuel
    | S fuel =>
        j ← scanKey (length kva) kva i (i + 1);
        values ← collectValues (length kva) kva i j [];
        kv ← go_index kva i;
        reduceLoop fuel kva j (out ++ [line reducef (Key kv, values)])
    end
  else Ret out.

(** [main] after the plug-in is loaded: the lines of mr-out-0. *)
Definition sequential (inputs : gmap string string) (filenames : list string) : outcome (list string) :=
  intermediate ← readInputs inputs filenames [];
  let intermediate := sortf intermediate in
  reduceLoop (length intermediate) intermediate 0 [].

(** *** The loops group the sorted pairs *)

Definition other_head (key : string) (kvs : list KeyValue) : Prop :=
  match kvs with [] => True | kv :: _ => Key kv ≠ key end.

Lemma groupFrom_run key values kvs :
  ∃ run rest, kvs = run ++ rest ∧ Forall (λ kv, Key kv = key) run ∧ other_head key rest ∧
    groupFrom key values kvs = (key, values ++ (Value <$> run)) :: groups rest.
Proof.
  revert values. induction kvs as [|kv kvs IH]; intros values; simpl.
  { exists [], []. split_and!; [done|done|done|]. by rewrite fmap_nil, app_nil_r. }
  destruct (decide (Key kv = key)) as [Hk|Hk].
  - destruct (IH (values ++ [Value kv])) as (run & rest & -> & Hrun & Hrest & ->).
    exists (kv :: run), rest. split_and!; [done|by constructor|done|]. by rewrite fmap_cons, <-app_assoc.
  - exists [], (kv :: kvs). split_and!; [done|done|done|]. by rewrite fmap_nil, app_nil_r.
Qed.

Lemma go_index_mid {A} (pre : list A) x post : go_index (pre ++ x :: post) (zlen pre) = Ret x.
Proof. apply go_index_lookup. by rewrite lookup_app_r, Nat.sub_diag by lia. Qed.

Lemma scanKey_run fuel pre mid run rest kv key i :
  go_index (pre ++ mid ++ run ++ rest) i = Ret kv → Key kv = key →
  Forall (λ kv, Key kv = key) run → other_head key rest → (length run < fuel)%nat →
  scanKey fuel (pre ++ mid ++ run ++ rest) i (zlen (pre ++ mid)) = Ret (zlen (pre ++ mid ++ run)).
Proof.
  intros Hi Hk Hrun Hrest. revert mid fuel Hi. induction Hrun as [|kv' run Hk' Hrun IH]; intros mid fuel Hi Hf;
    (destruct fuel as [|fuel]; [simpl in Hf; lia|]); simpl.
  - simpl in Hi. rewrite app_nil_r. destruct rest as [|kv' rest].
    { rewrite app_nil_r. by rewrite Z.ltb_irrefl. }
    rewrite (proj2 (Z.ltb_lt _ _)) by (rewrite !length_app; simpl; lia).
    rewrite app_assoc, go_index_mid, bind_Ret, <-app_assoc, Hi, bind_Ret. simpl in Hrest.
    rewrite decide_False by congruence. done.
  - rewrite (proj2 (Z.ltb_lt _ _)) by (rewrite !length_app; simpl; rewrite length_app; lia).
    assert (go_index (pre ++ mid ++ kv' :: run ++ rest) (zlen (pre ++ mid)) = Ret kv') as ->
      by (rewrite app_assoc; apply go_index_mid).
    simpl in Hi. rewrite bind_Ret, Hi, bind_Ret, decide_True by congruence.
    specialize (IH (mid ++ [kv']) fuel). rewrite <-(app_assoc mid) in IH. simpl in IH.
    replace (zlen (pre ++ mid) + 1) with (zlen (pre ++ mid ++ [kv'])) by (rewrite !length_app; simpl; lia).
    rewrite IH; [|done|simpl in Hf; lia]. f_equal. rewrite !length_app. simpl. lia.
Qed.

Lemma collectValues_run fuel pre run rest values :
  (length run ≤ fuel)%nat →
  collectValues fuel (pre ++ run ++ rest) (zlen pre) (zlen (pre ++ run)) values = Ret (values ++ (Value <$> run)).
Proof.
  revert pre fuel values. induction run as [|kv run IH]; intros pre fuel values Hf.
  { rewrite app_nil_r. destruct fuel; simpl; by rewrite Z.ltb_irrefl, app_nil_r. }
  destruct fuel as [|fuel]; [simpl in Hf; lia|]. cbn [collectValues].
  rewrite (proj2 (Z.ltb_lt _ _)) by (rewrite !length_app; simpl; lia).
  change ((kv :: run) ++ rest) with (kv :: (run ++ rest)). rewrite go_index_mid, bind_Ret.
  specialize (IH (pre ++ [kv]) fuel (values ++ [Value kv])). rewrite <-!app_assoc in IH. simpl in IH.
  replace (zlen pre + 1) with (zlen (pre ++ [kv])) by (rewrite length_app; simpl; lia).
  rewrite IH by (simpl in Hf; lia). by rewrite fmap_cons.
Qed.

Lemma reduceLoop_groups fuel pre kva out :
  (length kva ≤ fuel)%nat →
  reduceLoop fuel (pre ++ kva) (zlen pre) out = Ret (out ++ (line reducef <$> groups kva)).
Proof.
  revert pre kva out. induction fuel as [|fuel IH]; intros pre [|kv kva] out Hf; simpl in Hf.
  1,3: cbn [reduceLoop]; rewrite app_nil_r, Z.ltb_irrefl; simpl; by rewrite app_nil_r.
  { lia. }
  cbn [reduceLoop]. rewrite (proj2 (Z.ltb_lt _ _)) by (rewrite length_app; simpl; lia). cbn [groups].
  destruct (groupFrom_run (Key kv) [Value kv] kva) as (run & rest & -> & Hrun & Hrest & ->).
  assert (scanKey (length (pre ++ kv :: run ++ rest)) (pre ++ kv :: run ++ rest) (zlen pre) (zlen pre + 1) =
    Ret (zlen (pre ++ kv :: run))) as Hj.
  { pose proof (scanKey_run (length (pre ++ kv :: run ++ rest)) pre [kv] run rest kv (Key kv) (zlen pre)) as Hs.
    simpl in Hs. replace (zlen pre + 1) with (zlen (pre ++ [kv])) by (rewrite length_app; simpl; lia).
    apply Hs; [apply go_index_mid|done|done|done|]. rewrite length_app. simpl. rewrite length_app. lia. }
  rewrite Hj, bind_Ret.
  rewrite (collectValues_run _ pre (kv :: run) rest []), bind_Ret
    by (rewrite length_app; simpl; rewrite length_app; lia).
  rewrite go_index_mid, bind_Ret.
  specialize (IH (pre ++ kv :: run) rest (out ++ [line reducef (Key kv, Value kv :: (Value <$> run))])).
  rewrite <-!app_assoc in IH. simpl in IH. rewrite fmap_cons. simpl. rewrite IH; [done|].
  rewrite length_app in Hf. lia.
Qed.
End sequential.

(** ** The main programs *)
Section programs.
Context (Open : string → option plugin) (sortf : list KeyValue → list KeyValue).

(** The files it leaves. *)
Definition mrsequential_main (inputs : gmap string string) (args : list string)
    : outcome (gmap string (list string)) :=
  if zlen args <? 3 then Panic Exit
  else
    file ← go_index args 1;
    '(mapf, reducef) ← loadPlugin Open file;
    filenames ← go_slice_from args 2;
    lines ← sequential mapf reducef sortf inputs filenames;
    Ret {["mr-out-0" := lines]}.

(** Up to the loop that waits until [Done] holds. *)
Definition mrcoordinator_main (args : list string) : outcome Coordinator :=
  if zlen args <? 2 then Panic Exit
  else files ← go_slice_from args 1; Ret (MakeCoordinator files 10).

(** The functions it calls [Worker] with. *)
Definition mrworker_main (args : list string)
    : outcome ((string → string → list KeyValue) * (string → list string → string)) :=
  if negb (zlen args =? 2) then Panic Exit
  else file ← go_index args 1; loadPlugin Open file.
End programs.

(** ** What the output is

    One line for every distinct key, made of all its values. *)
Section outputs.
Context (mapf : string → string → list KeyValue) (reducef : string → list string → string).
Context (sortf : list KeyValue → list KeyValue).
Context (sortf_perm : ∀ l, sortf l ≡ₚ l) (sortf_sorted : ∀ l, Sorted key_le (sortf l)).
Context (files : list string) (nReduce : Z) (texts : gmap string string).
Context (Hn : 0 < nReduce < 2 ^ 63).
Context (Hfiles : ∀ f, f ∈ files → is_Some (texts !! f)).
Context `{!OrderInsensitive reducef}.

Abbreviation pairs := (all_kvs mapf files texts).

Definition key_line (kvs : list KeyValue) (k : string) : string := line reducef (k, values_of k kvs).

Definition all_lines (kvs : list KeyValue) : list string := key_line kvs <$> remove_dups (Key <$> kvs).

Lemma groups_lines (gs : list (string * list string)) kvs :
  (∀ k vs, (k, vs) ∈ gs → vs ≡ₚ values_of k kvs) → line reducef <$> gs = key_line kvs <$> gs.*1.
Proof.
  induction gs as [|[k vs] gs IH]; intros Hv; [done|]. rewrite !fmap_cons, IH by (intros; apply Hv; by right).
  f_equal. unfold key_line, line. simpl. by rewrite (reducef_perm k _ _ (Hv k vs ltac:(by left))).
Qed.

Lemma key_lines_perm ks kvs :
  NoDup ks → (∀ k, k ∈ ks ↔ k ∈ Key <$> kvs) → key_line kvs <$> ks ≡ₚ all_lines kvs.
Proof.
  intros Hnd Hks. unfold all_lines. f_equiv. apply NoDup_Permutation; [done|apply NoDup_remove_dups|].
  intros k. by rewrite Hks, elem_of_remove_dups.
Qed.

Lemma sequential_lines kvs :
  ∃ lines, reduceLoop reducef (length (sortf kvs)) (sortf kvs) 0 [] = Ret lines ∧ lines ≡ₚ all_lines kvs.
Proof.
  exists (line reducef <$> groups (sortf kvs)). split.
  { by apply (reduceLoop_groups reducef (length (sortf kvs)) [] (sortf kvs) []). }
  destruct (groups_spec (sortf kvs)) as (Hnd & Hin & Hv).
  { apply Sorted_StronglySorted; [apply _|]. apply sortf_sorted. }
  rewrite (groups_lines _ kvs).
  - apply key_lines_perm; [done|]. intros k. by rewrite Hin, sortf_perm.
  - intros k vs Hk. rewrite (Hv _ _ Hk). by apply values_of_Permutation.
Qed.

Lemma readInputs_all fs acc :
  (∀ f, f ∈ fs → is_Some (texts !! f)) →
  readInputs mapf texts fs acc = Ret (acc ++ concat ((λ f, mapf f (default "" (texts !! f))) <$> fs)).
Proof.
  revert acc. induction fs as [|f fs IH]; intros acc Hfs; simpl; [by rewrite app_nil_r|].
  destruct (Hfs f ltac:(by left)) as [t ->]. rewrite IH by (intros; apply Hfs; by right). simpl.
  by rewrite <-app_assoc.
Qed.

Lemma pairs_by_file : pairs = concat ((λ f, mapf f (default "" (texts !! f))) <$> files).
Proof.
  unfold all_kvs. f_equal. apply list_eq. intros i. rewrite !list_lookup_fmap.
  destruct (decide (i < length files)%nat) as [Hi|Hi].
  - rewrite lookup_seqZ_lt by lia. destruct (lookup_lt_is_Some_2 files i Hi) as [f Hf].
    simpl. unfold kvs_of. by rewrite Z.add_0_l, Nat2Z.id, Hf.
  - rewrite lookup_seqZ_ge by lia. by rewrite (lookup_ge_None_2 files) by lia.
Qed.

(** The files of the buckets: together they have a line for each key whose
    file is among them. *)
Lemma files_lines (l : list (string * list string)) :
  NoDup l.*1 →
  (∀ nm ls, (nm, ls) ∈ l → ∃ r ks, nm = oFileName r ∧ ls = key_line pairs <$> ks ∧ NoDup ks ∧
     ∀ k, k ∈ ks ↔ k ∈ Key <$> pairs ∧ Z.rem (ihash k) nReduce = r) →
  ∃ ks, concat l.*2 = key_line pairs <$> ks ∧ NoDup ks ∧
    ∀ k, k ∈ ks ↔ k ∈ Key <$> pairs ∧ oFileName (Z.rem (ihash k) nReduce) ∈ l.*1.
Proof.
  induction l as [|[nm ls] l IH]; intros Hnd Hl.
  { exists []. split_and!; [done|constructor|]. intros k. by split; [intros ?%not_elem_of_nil|intros [_ ?%not_elem_of_nil]]. }
  rewrite fmap_cons in Hnd. apply NoDup_cons in Hnd as [Hnm Hnd]. simpl in Hnm.
  destruct (Hl nm ls ltac:(by left)) as (r & ks & -> & -> & Hks & Hr).
  destruct IH as (ks' & Heq & Hnd' & Hks'); [done|intros; apply Hl; by right|].
  exists (ks ++ ks'). split_and!.
  - rewrite !fmap_cons. cbn [concat snd]. by rewrite Heq, fmap_app.
  - apply NoDup_app. split_and!; [done| |done]. intros k [_ <-]%Hr [_ ?]%Hks'. done.
  - intros k. rewrite elem_of_app, Hr, Hks', fmap_cons, elem_of_cons. simpl. split.
    + intros [[? ->]|[? ?]]; auto.
    + intros [? [?%oFileName_inj|?]]; auto.
Qed.

(** *** The output files of a job *)

(** Lines as they are in a file. *)
Definition file_bytes (ls : list string) : bytes := concat (chars <$> ls).

Lemma lines_file_bytes gs : lines reducef gs = file_bytes (line reducef <$> gs).
Proof. unfold lines, file_bytes. by rewrite <-list_fmap_compose. Qed.

Lemma map_split {A B} (f : A → B) (Q : string → A → Prop) (m : gmap string B) :
  map_Forall (λ nm b, ∃ a, b = f a ∧ Q nm a) m → ∃ m', m = f <$> m' ∧ map_Forall Q m'.
Proof.
  induction m as [|nm b m Hnm IH] using map_ind; intros Hm.
  { exists ∅. split; [by rewrite fmap_empty|apply map_Forall_empty]. }
  apply map_Forall_insert in Hm as [(a & -> & Ha) Hm]; [|done]. destruct (IH Hm) as (m' & -> & Hm').
  exists (<[nm := a]> m'). split; [by rewrite fmap_insert|]. by apply map_Forall_insert_2.
Qed.

Lemma values_of_bucket k r kvs :
  Z.rem (ihash k) nReduce = r → values_of k (in_bucket nReduce r kvs) = values_of k kvs.
Proof.
  intros Hr. induction kvs as [|kv kvs IH]; [done|]. rewrite in_bucket_cons, values_of_cons.
  destruct (decide (Key kv = k)) as [Hk|Hk].
  - rewrite decide_True by (unfold bucket; by rewrite Hk). rewrite values_of_cons, decide_True by done.
    by rewrite IH.
  - destruct (decide (bucket nReduce kv = r)); [|done]. by rewrite values_of_cons, decide_False by done.
Qed.

Context (text : Forall text_kv pairs).

Lemma clean_bucket r : clean_kv <$> in_bucket nReduce r pairs = in_bucket nReduce r pairs.
Proof.
  apply clean_text_kvs, Forall_forall. intros kv [_ Hkv]%elem_of_in_bucket. by eapply Forall_forall in text.
Qed.

(** What an output file holds when the pairs are text. *)
Definition bucket_lines (nm : string) (ls : list string) : Prop :=
  ∃ r ks, nm = oFileName r ∧ ls = key_line pairs <$> ks ∧ NoDup ks ∧
    ∀ k, k ∈ ks ↔ k ∈ Key <$> pairs ∧ Z.rem (ihash k) nReduce = r.

Lemma out_ok_bucket_lines d r :
  out_ok mapf reducef files nReduce texts d r →
  ∃ ls, outputs d !! oFileName r = Some (file_bytes ls) ∧ bucket_lines (oFileName r) ls.
Proof.
  intros (gs & Hout & Hnd & Hkeys & Hv)%out_ok_lines.
  assert (∀ k, k ∈ gs.*1 ↔ k ∈ Key <$> pairs ∧ Z.rem (ihash k) nReduce = r) as Hks.
  { intros k. rewrite Hkeys, list_elem_of_fmap. split.
    - intros (kv & Hkv & <- & Hb). pose proof (proj1 (Forall_forall _ _) text kv Hkv) as [-> _]. split; [by exists kv|done].
    - intros [(kv & -> & Hkv) Hb]. exists kv. split_and!; [done| |done].
      by destruct (proj1 (Forall_forall _ _) text kv Hkv). }
  exists (line reducef <$> gs). split; [by rewrite Hout, lines_file_bytes|]. exists r, gs.*1.
  split_and!; [done| |done|done]. apply groups_lines. intros k vs Hk. rewrite (Hv k vs Hk), clean_bucket.
  rewrite values_of_bucket; [done|]. apply Hks. apply list_elem_of_fmap. by exists (k, vs).
Qed.

(** A finished job has the lines of all keys in its output files. *)
Lemma job_lines may_run s :
  (∀ c w, may_run c w → on_time c w) →
  sys_reachable mapf reducef sortf files nReduce texts may_run s → Done (coord s) = true →
  ∃ outs, outputs (disk s) = file_bytes <$> outs ∧ concat (map_to_list outs).*2 ≡ₚ all_lines pairs.
Proof.
  intros Hon Hs Hd.
  destruct (Done_out_ok mapf reducef sortf files nReduce texts may_run Hn sortf_perm sortf_sorted Hfiles Hon s Hs Hd)
    as [Hnm Hok].
  destruct (map_split file_bytes bucket_lines (outputs (disk s))) as (outs & Houts & Hall).
  { intros nm bs Hbs. destruct (Hnm nm) as (r & -> & Hr); [by eexists|].
    destruct (out_ok_bucket_lines _ _ (Hok r Hr)) as (ls & Hls & ?). exists ls. split; [congruence|done]. }
  exists outs. split; [done|].
  destruct (files_lines (map_to_list outs)) as (ks & -> & Hnd & Hks).
  - apply NoDup_fst_map_to_list.
  - intros nm ls Hin%elem_of_map_to_list. by apply Hall.
  - apply key_lines_perm; [done|]. intros k. rewrite Hks. split; [tauto|].
    intros Hk. split; [done|]. apply list_elem_of_fmap in Hk as (kv & -> & Hkv).
    destruct (Hok (bucket nReduce kv)) as (kvs & _ & _ & Hout); [by apply list_elem_of_fmap_2|].
    rewrite Houts, lookup_fmap in Hout. destruct (outs !! oFileName (bucket nReduce kv)) as [ls|] eqn:Hls; [|done].
    apply list_elem_of_fmap. exists (oFileName (bucket nReduce kv), ls).
    split; [done|]. by apply elem_of_map_to_list.
Qed.
End outputs.

(** ** Theorems *)
Section theorems.
Context (Open : string → option plugin) (sortf : list KeyValue → list KeyValue).
Context (sortf_perm : ∀ l, sortf l ≡ₚ l) (sortf_sorted : ∀ l, Sorted key_le (sortf l)).
Context (files : list string) (texts : gmap string string).
Context (Hfiles : ∀ f, f ∈ files → is_Some (texts !! f)).

(** The job the two programs run: the coordinator was started on [files], the
    workers with the functions of the plug-in.  The keys and values the plug-in
    emits are text, and no worker writes after its task timed out. *)
Definition job_of (so : string) (s : Sys) : Prop :=
  ∃ mapf reducef, mrworker_main Open ["mrworker"; so] = Ret (mapf, reducef) ∧
    OrderInsensitive reducef ∧ Forall text_kv (all_kvs mapf files texts) ∧
    sys_reachable mapf reducef sortf files 10 texts on_time s.

Lemma ten_buckets : 0 < 10 < 2 ^ 63.
Proof. lia. Qed.

(** C15: The distributed job computes what the sequential program computes: for
    every plug-in whose reduce function does not depend on the order of the
    values, when the coordinator says [Done], the lines of all its output files
    together are the lines mrsequential writes to mr-out-0 for the same files,
    up to their order.  The sequential program always gets there.  This holds for
    every interleaving of the workers' file operations, deaths, losses and
    timeouts, under two conditions: the keys and values the map function emits on
    these files are UTF-8 text (mrsequential keeps other bytes, the JSON of the
    intermediate files does not), and a worker whose task was taken away after
    the timeout does not write any more. *)
Theorem mapreduce_matches_sequential so s :
  files ≠ [] → job_of so s → Done (coord s) = true →
  ∃ lines outs, mrsequential_main Open sortf texts ("mrsequential" :: so :: files) = Ret {["mr-out-0" := lines]} ∧
    outputs (disk s) = file_bytes <$> outs ∧ concat (map_to_list outs).*2 ≡ₚ lines.
Proof.
  intros Hne (mapf & reducef & Hload & Hins & Htext & Hs) Hd. unfold mrworker_main in Hload. simpl in Hload.
  destruct (sequential_lines reducef sortf sortf_perm sortf_sorted (all_kvs mapf files texts)) as (lines & Hseq & Hl).
  destruct (job_lines mapf reducef sortf sortf_perm sortf_sorted files 10 texts ten_buckets Hfiles Htext on_time s
    (λ _ _ Hon, Hon) Hs Hd) as (outs & Houts & Hp).
  exists lines, outs. split; [|split; [done|by rewrite Hl]].
  unfold mrsequential_main. rewrite (proj2 (Z.ltb_ge _ _)) by (destruct files; [done|simpl; lia]).
  change (go_index ("mrsequential" :: so :: files) 1) with
    (go_index ((["mrsequential"]) ++ so :: files) (zlen ["mrsequential"])).
  rewrite go_index_mid, bind_Ret, Hload, bind_Ret, go_slice_from_in_range, bind_Ret by (simpl; lia).
  change (drop _ _) with files. unfold sequential. rewrite readInputs_all by done. rewrite bind_Ret. simpl.
  rewrite <-pairs_by_file, Hseq. done.
Qed.

Lemma values_of_words w (words : list string) :
  values_of w ((λ w, mkKeyValue w "1") <$> words) = replicate (length (filter (λ x, x = w) words)) "1".
Proof.
  induction words as [|x words IH]; [done|]. rewrite fmap_cons, values_of_cons, filter_cons, IH. simpl.
  by case_decide.
Qed.

(** All the words of the inputs. *)
Definition all_words (IsLetter : Z → bool) : list string :=
  concat ((λ f, FieldsFunc (default "" (texts !! f)) (λ r, negb (IsLetter r))) <$> files).

Definition words_pairs (words : list string) : list KeyValue := (λ w, mkKeyValue w "1") <$> words.

Lemma wc_pairs IsLetter : all_kvs (wc_Map IsLetter) files texts = words_pairs (all_words IsLetter).
Proof.
  rewrite pairs_by_file. unfold all_words, wc_Map, words_pairs. clear. induction files as [|f fs IH]; [done|].
  rewrite !fmap_cons. cbn [concat]. by rewrite fmap_app, IH.
Qed.

(** The replacement character is no letter, so broken bytes are in no word. *)
Lemma wc_text IsLetter : IsLetter RuneError = false → Forall text_kv (all_kvs (wc_Map IsLetter) files texts).
Proof.
  intros Hl. rewrite wc_pairs. unfold words_pairs, all_words. apply Forall_fmap, Forall_concat, Forall_fmap, Forall_forall.
  intros f _. simpl. eapply Forall_impl; [apply FieldsFunc_valid; by rewrite Hl|]. intros w Hw. split; [done|]. done.
Qed.

(** Word count: when a job with wc.go is done, its output files have one line
    for every distinct word of the inputs, and the line has the number of
    times the word occurs in all of them, if no worker writes after its task
    timed out. *)
Theorem wc_job_counts IsLetter nReduce s :
  0 < nReduce < 2 ^ 63 → IsLetter RuneError = false →
  sys_reachable (wc_Map IsLetter) wc_Reduce sortf files nReduce texts on_time s → Done (coord s) = true →
  ∃ outs, outputs (disk s) = file_bytes <$> outs ∧ concat (map_to_list outs).*2 ≡ₚ
    (λ w, w +:+ " " +:+ FormatInt (zlen (filter (λ x, x = w) (all_words IsLetter))) +:+ String "010" "") <$>
      remove_dups (all_words IsLetter).
Proof.
  intros Hn Hl Hs Hd.
  destruct (job_lines (wc_Map IsLetter) wc_Reduce sortf sortf_perm sortf_sorted files nReduce texts Hn Hfiles
    (wc_text IsLetter Hl) on_time s (λ _ _ Hon, Hon) Hs Hd) as (outs & Houts & Hp).
  exists outs. split; [done|]. rewrite Hp, wc_pairs.
  unfold all_lines, words_pairs. rewrite <-list_fmap_compose. simpl. rewrite list_fmap_id.
  apply Permutation_refl', list_fmap_ext. intros _ w _.
  unfold key_line, line, wc_Reduce. simpl. rewrite values_of_words, length_replicate. done.
Qed.
End theorems.

(** ** A run of the programs with wc.so *)

Definition ascii_letter (r : Z) : bool := within 65 90 r || within 97 122 r.

Definition wc_so : plugin := λ name,
  if decide (name = "Map") then Some (MapSymbol (wc_Map ascii_letter))
  else if decide (name = "Reduce") then Some (ReduceSymbol wc_Reduce) else None.

Definition plugins (file : string) : option plugin := if decide (file = "wc.so") then Some wc_so else None.

Definition text_files : list string := ["pg-a.txt"; "pg-b.txt"].
Definition text_disk : gmap string string :=
  {["pg-a.txt" := "To be, or not"; "pg-b.txt" := "to be!"]}.

(** One worker does all the tasks. *)
Definition text_run : Sys :=
  schedule (wc_Map ascii_letter) wc_Reduce wc_sort on_time (start text_files 10 text_disk)
    (concat (replicate 7 (work 40))).

Lemma text_run_reachable : sys_reachable (wc_Map ascii_letter) wc_Reduce wc_sort text_files 10 text_disk on_time text_run.
Proof. apply schedule_reachable. Qed.

Lemma text_readable f : f ∈ text_files → is_Some (text_disk !! f).
Proof. by intros [->|[->|?%not_elem_of_nil]%elem_of_cons]%elem_of_cons; [eexists..|]. Qed.

Lemma text_run_done : Done (coord text_run) = true.
Proof. vm_compute. reflexivity. Qed.

Example text_lines :
  (out_texts text_run).*2 =
    [output_line "be 2" +:+ output_line "not 1"; output_line "To 1" +:+ output_line "or 1" +:+ output_line "to 1"].
Proof. vm_compute. reflexivity. Qed.

Lemma mapreduce_matches_sequential_witness :
  ∃ lines outs, mrsequential_main plugins wc_sort text_disk ["mrsequential"; "wc.so"; "pg-a.txt"; "pg-b.txt"]
      = Ret {["mr-out-0" := lines]} ∧
    outputs (disk text_run) = file_bytes <$> outs ∧ concat (map_to_list outs).*2 ≡ₚ lines.
Proof.
  apply (mapreduce_matches_sequential plugins wc_sort wc_sort_perm wc_sort_sorted text_files text_disk text_readable
    "wc.so" text_run).
  - discriminate.
  - exists (wc_Map ascii_letter), wc_Reduce. split; [reflexivity|]. split; [apply _|].
    split; [by apply wc_text|exact text_run_reachable].
  - exact text_run_done.
Defined.

Lemma wc_job_counts_witness :
  ∃ outs, outputs (disk text_run) = file_bytes <$> outs ∧ concat (map_to_list outs).*2 ≡ₚ
    (λ w, w +:+ " " +:+ FormatInt (zlen (filter (λ x, x = w) (all_words text_files text_disk ascii_letter))) +:+
       String "010" "") <$> remove_dups (all_words text_files text_disk ascii_letter).
Proof.
  apply (wc_job_counts wc_sort wc_sort_perm wc_sort_sorted text_files text_disk text_readable ascii_letter 10
    text_run ten_buckets eq_refl text_run_reachable text_run_done).
Defined.
